(* ===== verification/_CoqProject ===== *)
-Q . S2P
Prelude.v
BitManip.v
Leb128.v
Errors.v
Layout.v
TpmInterface.v
ExtentPtr.v
PhysicalExtents.v
PhysicalExtentsSet.v
LogicalExtents.v
ImageLayout.v
ExtentsLayout.v
IoSlices.v
ApplyScript.v
InodeExtentsList.v
BitmapWord.v
SparseBitmap.v
BitmapSearch.v
AllocBitmap.v
FindFreeBlock.v
SparseSets.v
TransactionAllocs.v
TransactionSystem.v
TransactionSpec.v
AuthTreeShape.v
AuthTreeMap.v
CtCmp.v
AuthTreeDigests.v
Crc32.v
Integrity.v
IntegrityTorn.v
CacheWords.v
CacheMatrix.v
CacheSet.v
CacheSetSpec.v
CacheShrink.v
SetAssocCache.v
CacheAtomic.v
Kdf.v
KdfTcg.v
MurmurHash3.v
Keys.v
