(* ===== verification/Prelude.v ===== *)
(** * Cocoon TPM storage: a verification development

    The repository implements CocoonFS, an encrypted and authenticated file
    system for TPM state, as a Rust workspace:
    - [storage]: block devices ([blkdev/]) and the file system
      ([fs/cocoonfs/]): the image layout, extents and their encodings, the
      allocation bitmap, the authentication tree, the inode index, the journal
      and transactions;
    - [crypto] and [tpm2-interface]: cryptographic backends and TPM types;
    - [utils-common] and [utils-async]: bit manipulation, sequences of byte
      slices, locks and futures;
    - [cocoonfs-cli] and [bssl-bare-sys]: a tool and foreign bindings.

    The development models the synchronous core that the file system computes
    with: what is stored in the image (integer, pointer, layout and journal
    script encodings), how blocks are addressed (ranges, extents lists and sets,
    the translation from logical to physical blocks), how free blocks are found
    in the allocation bitmap, how concurrent transactions allocate, free and
    commit blocks, how data is authenticated through the tree of digests, how torn
    writes of extents that are rewritten in place are detected, and how keys are
    derived and cached.

    ** Files, in the order of their dependencies

    - [Prelude]: outcomes of Rust code, machine integers, slices and vectors,
      tactics, hint databases, and the lemmas on them that the files share.
    - [BitManip] (utils-common/src/bitmanip.rs): the traits [BitManip] and
      [UBitManip], at any width.
    - [Leb128] (storage/src/fs/cocoonfs/leb128.rs): the variable length integer
      encodings.
    - [Errors] (storage/src/fs/mod.rs, cocoonfs/mod.rs, crypto/src/error.rs): the
      error types and codes.
    - [Layout] (cocoonfs/layout.rs): block indices and counts, [BlockRange].
    - [TpmInterface] (tpm2-interface/src/interface.rs, crypto/src/symcipher.rs):
      marshalling, algorithm identifiers, block cipher selection.
    - [ExtentPtr] (cocoonfs/extent_ptr.rs): encoded extent and block pointers.
    - [PhysicalExtents], [PhysicalExtentsSet], [LogicalExtents]
      (cocoonfs/extents.rs): the three collections of extents.
    - [ImageLayout] (cocoonfs/layout.rs): the layout configuration of an image.
    - [ExtentsLayout] (cocoonfs/extents_layout.rs): lengths of extents and of
      their payloads.
    - [IoSlices] (utils-common/src/io_slices.rs): slice iterators, as a class of
      operations and a class of laws; two implementations.
    - [ApplyScript] (cocoonfs/journal/apply_script.rs): the change application
      scripts of the journal, decoded from any lawful slice iterator.
    - [InodeExtentsList] (cocoonfs/inode_extents_list.rs): the extents lists of
      inodes, encoded and decoded in the same way.
    - [BitmapWord], [SparseBitmap], [BitmapSearch], [AllocBitmap],
      [FindFreeBlock] (cocoonfs/alloc_bitmap/): the words of bitmaps and their
      masks; [SparseAllocBitmap], the sets of pending allocations and frees;
      the bit-parallel operations on a word; [AllocBitmap] with its iterators
      and the iterators over sparse bitmaps; the search for a free block.
    - [SparseSets]: the operations of sparse bitmaps as operations on sets, the
      interface that transactions are verified against.
    - [TransactionAllocs] (cocoonfs/transaction/mod.rs, fs.rs, and from the
      futures of transaction/ what they do to the bitmaps): the four sets of a
      transaction, frees and rollbacks, the central registration, the polls that
      allocate blocks, and the bitmap operations of a commit.
    - [TransactionSystem]: any number of transactions that share the bitmap and
      the registration, as a step relation whose steps call the operations, and
      its invariant.
    - [TransactionSpec]: an abstract specification in which transactions are sets
      of blocks, and the theorems on the step relation.
    - [AuthTreeShape], [AuthTreeMap], [AuthTreeDigests] (cocoonfs/auth_tree.rs):
      the dimensions of the authentication tree and the positions of its nodes;
      node identifiers, their order and cache sets, and the map between physical
      blocks and the data domain; the configuration of a tree, the digests of
      nodes and data blocks, and their verification.
    - [CtCmp] (utils-common/src/ct_cmp.rs): comparisons in constant time.
    - [Crc32] (cocoonfs/crc32.rs, checksum.rs): checksums.
    - [Integrity], [IntegrityTorn] (cocoonfs/integrity.rs): the protections of
      extents against torn writes with the state that is kept about an extent; the
      extent on storage and its state as a step relation.
    - [CacheWords], [CacheMatrix], [CacheSet], [CacheSetSpec], [CacheShrink],
      [SetAssocCache], [CacheAtomic] (cocoonfs/set_assoc_cache.rs): the arithmetic on
      words of small fields that a cache set consists of; its matrix of the order of
      use; the operations of a set; the list in the order of use that a set stands for;
      the move of entries to a smaller set; the cache of many sets, with the sequences
      of operations as a refinement; readers that mark slots concurrently.
    - [Kdf] (crypto/src/kdf/mod.rs, utils-common/src/xor.rs): output by blocks, its
      buffering, exclusive or of slices.
    - [KdfTcg] (crypto/src/kdf/tcg_tpm2_kdf_a.rs, tcg_tpm2_kdf_e.rs, mgf1.rs): three
      key derivation functions, as instances of the class of [Kdf].
    - [MurmurHash3] (utils-common/src/murmurhash3.rs): the hash function that the
      cache of keys maps identifiers with.
    - [Keys] (cocoonfs/keys.rs): root key, subkeys, and the cache of subkeys shared by
      threads; built on [KdfTcg], [MurmurHash3] and [SetAssocCache].

    ** How the code is modelled

    A function that returns [Result], or that can panic, is a function to
    [outcome]: a value, an error, a panic, or the end of the fuel of a loop.  A
    method with [&mut self] returns the new state.  A function that writes to
    the front of a buffer and returns the rest of it also returns the bytes it
    wrote.  Integers are [Z] with their width in the operation; [+], [-], [<<]
    and [>>] panic or wrap according to [Build], the build profile, over which
    everything is quantified, and so are the [debug_assert!]s.  The allocator is
    a parameter ([Allocator]): every [try_reserve] can fail.  Cargo features and
    the width of [usize] are parameters where the code depends on them
    ([Features], [Platform]).  A [Vec] is a list; indexing out of range panics.
    The hash functions, the instances of hashes and HMACs, the comparison of limbs and
    the alignment of slices are parameters, the first three with classes of the laws
    that are used ([HashBackend] and [HashLaws], [CryptoBackend] and [CryptoLaws],
    [CtBackend] and [CtLaws], [Alignment]); collisions of hashes are named in the
    statements.  The configuration of an authentication tree takes the derivation of
    keys as an argument.  The order of the keys of a cache and their map to sets are
    classes ([Ord], [SetAssocCacheMapKeyToSet]), the byte order is [Endian].
    [slice::sort_by], [partition_point] and [binary_search_by] are modelled by
    what they compute on sorted slices.

    Loops over a slice or an iterator are structural.  The others have fuel, and
    the theorems show that the fuel given suffices, so that [Diverge] is never
    reached: a binary search narrows its interval in every round and gets one
    more round than there are entries; [skip] removes at least one byte per
    round and gets one round more than the distance; a decoder of a script or of
    an extents list consumes at least two bytes of the source per round and gets
    one round more than the source has bytes; the refill of a decode buffer of
    20 bytes reads at least one byte per round and gets 22 rounds; collecting an
    iterator takes one round per extent and one for the end; filling the gaps of a
    sparse bitmap, pruning it and subtracting another one advance over an entry or
    a word of the range per round; an iterator over a union of sparse bitmaps
    advances over an entry; the search for a free block examines a word of the
    bitmap per round and wraps around once.  The inverse modulo [2 ^ 64] is found in
    six rounds, each of which doubles the number of right bits; the node count of a
    subtree recurs twice at most; the computations on the tree take a round per
    level, the merge of its extents one per entry and the iteration over the map one
    per piece and one for the end.  The search for a key in a cache set halves its
    interval and gets eight rounds, removing slots takes one round per slot of at most
    eight; requests of derived bytes and the exclusive or of slices take at least one
    byte per round and get one round more than there are bytes.

    ** What the theorems show

    - [BitManip], [Layout]: rounding and alignment give the least or the greatest
      aligned value or range, and [None] exactly on overflow.
    - [Leb128], [ExtentPtr], [TpmInterface], [ImageLayout], [ApplyScript]: encoded
      data has the announced length and decodes to the value; decoding
      arbitrary bytes never panics and gives a documented error or a valid
      value, which for the fixed length encodings is the one that encodes to
      the bytes.
    - [PhysicalExtents]: the operations on extents lists keep them well formed
      and coalesced and have the expected effect on the sequence of blocks.
    - [PhysicalExtentsSet]: insertion and removal are union and difference on the
      set of blocks and keep the entries sorted and apart; the interleaved
      binary searches agree with linear scans.
    - [LogicalExtents]: lookups return the physical block at the logical
      position; iteration yields all blocks in order; the conversions from and
      to [PhysicalExtents] are inverse.  Iteration over a part of the list
      yields the extents before it as well, as the code's iterator starts at
      index zero.
    - [ExtentsLayout]: the extent computed for a payload is the least one that
      stores it; the constructor establishes what the computations rely on.
    - [InodeExtentsList]: extents lists round trip; decoding arbitrary bytes ends
      and cannot panic in a release build.
    - [IoSlices]: skipping and copying depend on the bytes only and not on how
      they are split into slices.
    - [BitmapWord], [BitmapSearch]: the bit-parallel operations agree with their
      definitions block by block; the choice within a word is a best fit.
    - [SparseBitmap], [AllocBitmap]: adding, removing and subtracting are the set
      operations, a failure to allocate memory leaves the set unchanged, removals
      can be rolled back without memory, and the iterators yield the bitmap with
      the pending changes.  Adding an extent needs that the tracked words leave
      no gap within it; the code fills such a gap wrongly.
    - [FindFreeBlock]: the search ends, finds a free block exactly if there is one,
      and does not return a block that is taken.
    - [TransactionAllocs]: an allocation gives a free block and records it, or
      fails without a change; the exception is a block that the transaction has
      freed itself, whose registration a failure loses.
    - [TransactionSpec]: transactions never have the same block, they refine the
      specification, and a commit always completes with the bitmap being what the
      transaction saw.
    - [AuthTreeShape], [AuthTreeMap]: positions of nodes are those of the depth first
      traversal, computed in 64 bits; the dimensions at creation and at opening
      agree, under conditions outside of which they do not; the iteration over the
      data domain partitions it and maps back.
    - [AuthTreeDigests]: a configuration that is accepted is well formed; two
      versions of a data block verified from the same root digest agree unless hashes
      collide; and a verification succeeds exactly if the digests are equal.
    - [CtCmp], [Crc32]: comparison is equality for any alignment; the table driven CRC
      is the bitwise one, and a checksum detects changes of up to four bytes.
    - [Integrity], [IntegrityTorn]: protections are removed again without loss; in
      every reachable state a torn write is detected.  The theorems name the data for
      which the search for a mask fails.
    - [CacheSet] to [SetAssocCache]: after any sequence of operations every set is a
      list in the order of use, lookups find the entries of the list, and insertion into
      a full set evicts the last one.  [cache_set_defects] gives the calls that
      misbehave.
    - [CacheAtomic]: however the steps of readers interleave, the marks of occupied
      slots stay apart from those of free slots, and there is a slot to evict.  Which of
      the slots that are being used at the time is evicted is left open.
    - [Kdf], [KdfTcg]: however requests divide the output, and whether they store it or
      combine it with data, they give the bytes of the specified output in order; a
      request that is too long is refused.  The exceptions are proved as such.
    - [MurmurHash3]: hashing the parts of a message is hashing the message in one step.
    - [Keys]: the key that is returned for an identifier is the one derived for it,
      whatever threads have done with the cache before; inputs of derivations for
      different blocks, keys, image parameters or salts differ.

    ** What is not modelled

    The asynchronous parts (futures, block device input and output, locks, semaphores)
    and the cryptographic primitives.  The code of most of the remaining files (the inode
    index, the creation of file systems, the update states of transactions, the journal
    log, the reading and writing of the tree) is written as futures whose [poll] methods
    interleave requests to a block device; what they compute synchronously is modelled
    where another component relies on it, the polls themselves are not.  From the modelled
    files: the iterators that derive journal scripts from a transaction, the adaptors of
    slice iterators, the futures that read and write extents lists, the search for free
    extents with the allocation of extents that uses it, the node caches and futures of
    the authentication tree, the polls of the invalidation of an extent, the change of
    the associativity of a cache in place and its iterators, and the states that
    instances of the backend are left in by errors.  The staged updates of data blocks are
    a parameter of transactions ([UpdateStates]).  What would come next: loading of tree
    nodes through the cache, the search for free extents, the journal log fields, and the
    state machines of semaphores and locks. *)

From stdpp Require Export base tactics numbers list sets sorting.
From Stdlib Require Export ZArith Lia.

#[global] Open Scope Z_scope.

(** ** Outcomes of Rust code *)

(** What running a piece of the modelled code can lead to: a value, an error
    returned through [Result], a panic, or, for a loop written with fuel, the
    exhaustion of the fuel. *)
Inductive outcome (E A : Type) : Type :=
| Ok (a : A)
| Err (e : E)
| Panic
| Diverge.
Arguments Ok {E A} a.
Arguments Err {E A} e.
Arguments Panic {E A}.
Arguments Diverge {E A}.

(** Sequencing; it is also Rust's [?] operator. *)
Definition obind {E A B} (c : outcome E A) (k : A → outcome E B) : outcome E B :=
  match c with
  | Ok a => k a
  | Err e => Err e
  | Panic => Panic
  | Diverge => Diverge
  end.
Arguments obind {E A B} !c k /.

(** [Result::map_err]. *)
Definition map_err {E E' A} (f : E → E') (c : outcome E A) : outcome E' A :=
  match c with
  | Ok a => Ok a
  | Err e => Err (f e)
  | Panic => Panic
  | Diverge => Diverge
  end.
Arguments map_err {E E' A} f !c /.

(** [Result::map_err] with a closure that can itself panic. *)
Definition map_err_with {E E' A} (f : E → outcome E' A) (c : outcome E A) : outcome E' A :=
  match c with
  | Ok a => Ok a
  | Err e => f e
  | Panic => Panic
  | Diverge => Diverge
  end.
Arguments map_err_with {E E' A} f !c /.

(** The build profile: whether [cfg!(debug_assertions)] is on, and with it the
    checks for arithmetic overflow.  The development is generic in it. *)
Class Build := debug_assertions : bool.
Definition debug_build : Build := true.
Definition release_build : Build := false.

(** [debug_assert!]. *)
Definition debug_assert {B : Build} {E} (b : bool) : outcome E unit :=
  if b then Ok tt else if debug_assertions then Panic else Ok tt.
Arguments debug_assert {B E} !b /.

(** [debug_assert!] of a condition whose evaluation can itself panic; it is not
    evaluated in a release build. *)
Definition debug_check {B : Build} {E} (c : outcome E bool) : outcome E unit :=
  if debug_assertions then obind c (λ b, if b then Ok tt else Panic) else Ok tt.

(** [Option::unwrap] and [Option::ok_or]. *)
Definition unwrap {E A} (o : option A) : outcome E A :=
  match o with Some a => Ok a | None => Panic end.
Arguments unwrap {E A} !o /.
Definition ok_or {E A} (o : option A) (e : E) : outcome E A :=
  match o with Some a => Ok a | None => Err e end.
Arguments ok_or {E A} !o e /.

Declare Scope rust_scope.
Delimit Scope rust_scope with rust.
Notation "'let!' x ':=' c 'in' k" := (obind c (λ x, k))
  (at level 10, x binder, c at level 100, k at level 200,
   format "'[v' 'let!'  x  ':='  c  'in' '/' k ']'") : rust_scope.
Notation "'let!' ' p ':=' c 'in' k" := (obind c (λ x, match x with p => k end))
  (at level 10, p pattern, c at level 100, k at level 200,
   format "'[v' 'let!'  ' p  ':='  c  'in' '/' k ']'") : rust_scope.
#[global] Open Scope rust_scope.


(** ** Machine integers

    An unsigned integer of [w] bits is a [Z] in [[0, 2^w)], a signed one a [Z]
    in [[-2^(w-1), 2^(w-1))]. *)

Definition in_u (w x : Z) : Prop := 0 ≤ x < 2 ^ w.
Definition in_i (w x : Z) : Prop := - 2 ^ (w - 1) ≤ x < 2 ^ (w - 1).
Abbreviation u8 := (in_u 8).
Abbreviation u64 := (in_u 64).
Abbreviation i64 := (in_i 64).

(** The casts [x as uN] and [x as iN]; they also are the wrap-around of the
    [wrapping_*] operations. *)
Definition wrap (w x : Z) : Z := x mod 2 ^ w.
Definition swrap (w x : Z) : Z := (x + 2 ^ (w - 1)) mod 2 ^ w - 2 ^ (w - 1).

Definition wrapping_add (w a b : Z) : Z := wrap w (a + b).
Definition wrapping_sub (w a b : Z) : Z := wrap w (a - b).
Definition wrapping_neg (w a : Z) : Z := wrap w (- a).

Definition checked_add (w a b : Z) : option Z := if a + b <? 2 ^ w then Some (a + b) else None.
Definition checked_sub (a b : Z) : option Z := if b <=? a then Some (a - b) else None.

(** The operators [+], [-], [*], [<<] and [>>] on unsigned integers.  An overflow and
    a shift by the width or more panic in a debug build; in a release build the
    result wraps around and the shift amount is masked. *)
Section Operators.
Context {B : Build} {E : Type}.

Definition overflow (r : Z) : outcome E Z := if debug_assertions then Panic else Ok r.
Definition uadd (w a b : Z) : outcome E Z :=
  if a + b <? 2 ^ w then Ok (a + b) else overflow (wrap w (a + b)).
Definition usub (w a b : Z) : outcome E Z :=
  if b <=? a then Ok (a - b) else overflow (wrap w (a - b)).
Definition umul (w a b : Z) : outcome E Z :=
  if a * b <? 2 ^ w then Ok (a * b) else overflow (wrap w (a * b)).
Definition ushl (w x n : Z) : outcome E Z :=
  if (0 <=? n) && (n <? w) then Ok (wrap w (Z.shiftl x n))
  else overflow (wrap w (Z.shiftl x (n mod w))).
Definition ushr (w x n : Z) : outcome E Z :=
  if (0 <=? n) && (n <? w) then Ok (Z.shiftr x n) else overflow (Z.shiftr x (n mod w)).
(** [<<] on a signed integer; [>>] is arithmetic and is [ushr]. *)
Definition ishl (w x n : Z) : outcome E Z :=
  if (0 <=? n) && (n <? w) then Ok (swrap w (Z.shiftl x n))
  else overflow (swrap w (Z.shiftl x (n mod w))).
End Operators.

(** [!x]. *)
Definition unot (w x : Z) : Z := Z.lxor x (Z.ones w).

Definition leading_zeros (w x : Z) : Z := if x =? 0 then w else w - (Z.log2 x + 1).
Definition div_ceil (a b : Z) : Z := (a + b - 1) / b.

(** [to_le_bytes] and [to_be_bytes] of an integer of [n] bytes, and back. *)
Fixpoint to_le_bytes (n : nat) (x : Z) : list Z :=
  match n with O => [] | S n => x mod 256 :: to_le_bytes n (x / 256) end.
Fixpoint from_le_bytes (l : list Z) : Z :=
  match l with [] => 0 | b :: l => b + 256 * from_le_bytes l end.
Definition to_be_bytes (n : nat) (x : Z) : list Z := rev (to_le_bytes n x).
Definition from_be_bytes (l : list Z) : Z := from_le_bytes (rev l).

(** ** Slices and vectors

    A slice, an array or a [Vec] is a list.  Indexing out of range panics. *)

Definition idx {E A} (l : list A) (i : nat) : outcome E A := unwrap (l !! i).
Definition set_idx {E A} (l : list A) (i : nat) (x : A) : outcome E (list A) :=
  if (i <? length l)%nat then Ok (<[i := x]> l) else Panic.
(** [-] on [usize] indices; an underflow is a panic in either build here. *)
Definition nsub {E} (a b : nat) : outcome E nat := if (b <=? a)%nat then Ok (a - b)%nat else Panic.
(** [&l[n..]]. *)
Definition slice_from {E A} (l : list A) (n : nat) : outcome E (list A) :=
  if (n <=? length l)%nat then Ok (drop n l) else Panic.
(** [Vec::insert] and [Vec::remove]. *)
Definition vec_insert {E A} (l : list A) (i : nat) (x : A) : outcome E (list A) :=
  if (i <=? length l)%nat then Ok (take i l ++ x :: drop i l) else Panic.
Definition vec_remove {E A} (l : list A) (i : nat) : outcome E (list A) :=
  if (i <? length l)%nat then Ok (take i l ++ drop (S i) l) else Panic.
(** [Vec::drain(a..b)]. *)
Definition vec_drain {E A} (l : list A) (a b : nat) : outcome E (list A) :=
  if (a <=? b)%nat && (b <=? length l)%nat then Ok (take a l ++ drop b l) else Panic.

(** [slice::sort_by] is a stable sort; for a total preorder its result is
    unique, so an insertion sort stands for it. *)
Fixpoint sort_insert {A} (le : A → A → bool) (x : A) (l : list A) : list A :=
  match l with
  | [] => [x]
  | y :: l' => if le x y then x :: l else y :: sort_insert le x l'
  end.
Fixpoint sort_by {A} (le : A → A → bool) (l : list A) : list A :=
  match l with [] => [] | x :: l => sort_insert le x (sort_by le l) end.

(** [slice::partition_point]: on a slice partitioned by [p], the number of
    leading elements that satisfy [p]. *)
Fixpoint partition_point {A} (p : A → bool) (l : list A) : nat :=
  match l with [] => O | x :: l => if p x then S (partition_point p l) else O end.

(** [slice::binary_search_by] on a slice that [f] orders and of which at most one
    element compares equal: its position, or the one to insert at. *)
Definition binary_search_by {A} (f : A → comparison) (l : list A) : nat + nat :=
  let i := partition_point (λ x, match f x with Lt => true | _ => false end) l in
  match l !! i with
  | Some x => match f x with Eq => inl i | _ => inr i end
  | None => inr i
  end.

(** The global allocator as the code sees it: whether a vector of the given
    length can be grown by the given number of elements. *)
Class Allocator := alloc_ok : nat → nat → bool.

(** ** Tactics and hint databases *)

Create HintDb cocoon discriminated.
Create Rewrite HintDb outcome_simpl.

(** Case analysis on an integer comparison of the goal or of a hypothesis. *)
Ltac zcase :=
  match goal with
  | |- context [Z.ltb ?a ?b] => destruct (Z.ltb_spec a b)
  | |- context [Z.leb ?a ?b] => destruct (Z.leb_spec a b)
  | |- context [Z.eqb ?a ?b] => destruct (Z.eqb_spec a b)
  | |- context [Nat.ltb ?a ?b] => destruct (Nat.ltb_spec a b)
  | |- context [Nat.leb ?a ?b] => destruct (Nat.leb_spec a b)
  | |- context [Nat.eqb ?a ?b] => destruct (Nat.eqb_spec a b)
  | H : context [Z.ltb ?a ?b] |- _ => destruct (Z.ltb_spec a b)
  | H : context [Z.leb ?a ?b] |- _ => destruct (Z.leb_spec a b)
  | H : context [Z.eqb ?a ?b] |- _ => destruct (Z.eqb_spec a b)
  | H : context [Nat.ltb ?a ?b] |- _ => destruct (Nat.ltb_spec a b)
  | H : context [Nat.leb ?a ?b] |- _ => destruct (Nat.leb_spec a b)
  | H : context [Nat.eqb ?a ?b] |- _ => destruct (Nat.eqb_spec a b)
  end.

(** Decide the comparisons of the goal that [lia] settles. *)
Ltac zdec1 :=
  match goal with
  | |- context [Z.ltb ?a ?b] =>
      first [rewrite (proj2 (Z.ltb_lt a b)) by lia | rewrite (proj2 (Z.ltb_ge a b)) by lia]
  | |- context [Z.leb ?a ?b] =>
      first [rewrite (proj2 (Z.leb_le a b)) by lia | rewrite (proj2 (Z.leb_gt a b)) by lia]
  | |- context [Z.eqb ?a ?b] =>
      first [rewrite (proj2 (Z.eqb_eq a b)) by lia | rewrite (proj2 (Z.eqb_neq a b)) by lia]
  | |- context [Nat.ltb ?a ?b] =>
      first [rewrite (proj2 (Nat.ltb_lt a b)) by lia | rewrite (proj2 (Nat.ltb_ge a b)) by lia]
  | |- context [Nat.leb ?a ?b] =>
      first [rewrite (proj2 (Nat.leb_le a b)) by lia | rewrite (proj2 (Nat.leb_gt a b)) by lia]
  | |- context [Nat.eqb ?a ?b] =>
      first [rewrite (proj2 (Nat.eqb_eq a b)) by lia | rewrite (proj2 (Nat.eqb_neq a b)) by lia]
  end.
Ltac zdec := repeat zdec1; cbn [andb orb negb].

(** Run the next steps of a modelled computation. *)
Ltac ostep := repeat progress (autorewrite with outcome_simpl; cbn [obind map_err map_err_with debug_assert unwrap ok_or]).

(** Invert a computation that is known to have returned. *)
Ltac rinv :=
  repeat match goal with
  | H : obind ?c _ = Ok _ |- _ =>
      let E := fresh "E" in destruct c eqn:E; cbn [obind] in H; try discriminate H
  | H : Ok _ = Ok _ |- _ => injection H as H; subst
  | H : (if ?b then _ else _) = Ok _ |- _ =>
      let E := fresh "E" in destruct b eqn:E; try discriminate H
  | H : unwrap ?o = Ok _ |- _ => destruct o eqn:?; cbn [unwrap] in H; try discriminate H
  end.

(** ** Outcomes *)

Lemma obind_Ok {E A B} (a : A) (k : A → outcome E B) : obind (Ok a) k = k a.
Proof. done. Qed.

Lemma obind_Ok_inv {E A B} (c : outcome E A) (k : A → outcome E B) b :
  obind c k = Ok b → ∃ a, c = Ok a ∧ k a = Ok b.
Proof. destruct c; cbn; intros; try done. eauto. Qed.

Lemma obind_assoc {E A B C} (c : outcome E A) (k : A → outcome E B) (h : B → outcome E C) :
  obind (obind c k) h = obind c (λ a, obind (k a) h).
Proof. by destruct c. Qed.

(** ** Arithmetic on machine integers *)

Lemma pow2_pos w : 0 ≤ w → 0 < 2 ^ w.
Proof. intros. by apply Z.pow_pos_nonneg. Qed.

Lemma wrap_small w x : in_u w x → wrap w x = x.
Proof. apply Z.mod_small. Qed.

Lemma wrap_in_u w x : 0 ≤ w → in_u w (wrap w x).
Proof. intros. apply Z.mod_pos_bound. by apply pow2_pos. Qed.

Lemma swrap_in_i w x : 0 < w → in_i w (swrap w x).
Proof.
  intros. unfold in_i, swrap.
  assert (2 ^ w = 2 * 2 ^ (w - 1)) as Hw by (rewrite <-Z.pow_succ_r by lia; f_equal; lia).
  pose proof (Z.mod_pos_bound (x + 2 ^ (w - 1)) (2 ^ w) ltac:(by apply pow2_pos; lia)). lia.
Qed.

Lemma swrap_small w x : 0 < w → in_i w x → swrap w x = x.
Proof.
  intros ? [??]. unfold swrap.
  assert (2 ^ w = 2 * 2 ^ (w - 1)) as Hw by (rewrite <-Z.pow_succ_r by lia; f_equal; lia).
  rewrite Z.mod_small; lia.
Qed.

Lemma swrap_cases w x :
  0 < w → in_u w x → swrap w x = if x <? 2 ^ (w - 1) then x else x - 2 ^ w.
Proof.
  intros ? [??].
  assert (2 ^ w = 2 * 2 ^ (w - 1)) as Hw by (rewrite <-Z.pow_succ_r by lia; f_equal; lia).
  destruct (Z.ltb_spec x (2 ^ (w - 1))); [by rewrite swrap_small by (unfold in_i; lia)|].
  unfold swrap. replace ((x + 2 ^ (w - 1)) mod 2 ^ w) with (x - 2 ^ (w - 1)); [lia|].
  apply Z.mod_unique with 1; [left|]; lia.
Qed.

Lemma in_i_mono w w' x : 0 < w ≤ w' → in_i w x → in_i w' x.
Proof.
  intros ? [??]. assert (2 ^ (w - 1) ≤ 2 ^ (w' - 1)) by (apply Z.pow_le_mono_r; lia).
  unfold in_i. lia.
Qed.

Lemma swrap_wrap w x : 0 < w → swrap w (wrap w x) = swrap w x.
Proof. intros. unfold swrap, wrap. by rewrite Zplus_mod_idemp_l. Qed.

Lemma wrap_wrap_le w w' x : 0 ≤ w ≤ w' → wrap w (wrap w' x) = wrap w x.
Proof.
  intros. unfold wrap. apply Z.mod_mod_divide.
  exists (2 ^ (w' - w)). rewrite <-Z.pow_add_r by lia. f_equal. lia.
Qed.

(** Two numbers that agree on their low [w] bits read the same as signed. *)
Lemma swrap_congr w x y : 0 < w → (∃ k, x = y + k * 2 ^ w) → swrap w x = swrap w y.
Proof.
  intros ? [k ->]. rewrite <-(swrap_wrap w (y + _)), <-(swrap_wrap w y) by done.
  unfold wrap. rewrite Z.mod_add; [done|]. pose proof (pow2_pos w). lia.
Qed.

Lemma wrap_eq w x : 0 ≤ w → ∃ k, wrap w x = x + k * 2 ^ w.
Proof. intros Hw%pow2_pos. exists (- (x / 2 ^ w)). unfold wrap. rewrite Z.mod_eq by lia. lia. Qed.
Lemma swrap_eq w x : 0 ≤ w → ∃ k, swrap w x = x + k * 2 ^ w.
Proof.
  intros Hw. unfold swrap. destruct (wrap_eq w (x + 2 ^ (w - 1)) Hw) as [k Hk]. exists k. unfold wrap in Hk. lia.
Qed.

Lemma wrap_swrap w x : 0 < w → wrap w (swrap w x) = wrap w x.
Proof.
  intros. unfold swrap, wrap. rewrite Zminus_mod_idemp_l. f_equal. lia.
Qed.

Lemma swrap_wrap_id w x : 0 < w → in_i w x → swrap w (wrap w x) = x.
Proof. intros. by rewrite swrap_wrap, swrap_small. Qed.

Lemma wrap_swrap_id w x : 0 < w → in_u w x → wrap w (swrap w x) = x.
Proof. intros. by rewrite wrap_swrap, wrap_small. Qed.

Lemma wrapping_add_sub w a b :
  0 ≤ w → in_u w a → wrapping_add w b (wrapping_sub w a b) = a.
Proof.
  intros. unfold wrapping_add, wrapping_sub, wrap.
  rewrite Zplus_mod_idemp_r. replace (b + (a - b)) with a by lia. by apply wrap_small.
Qed.

Lemma checked_add_Some w a b : a + b < 2 ^ w → checked_add w a b = Some (a + b).
Proof. intros. unfold checked_add. by zdec. Qed.
Lemma checked_add_None w a b : 2 ^ w ≤ a + b → checked_add w a b = None.
Proof. intros. unfold checked_add. by zdec. Qed.
Lemma checked_sub_Some a b : b ≤ a → checked_sub a b = Some (a - b).
Proof. intros. unfold checked_sub. by zdec. Qed.

Lemma uadd_Ok {B : Build} {E} w a b : a + b < 2 ^ w → uadd (E:=E) w a b = Ok (a + b).
Proof. intros. unfold uadd. by zdec. Qed.
Lemma usub_Ok {B : Build} {E} w a b : b ≤ a → usub (E:=E) w a b = Ok (a - b).
Proof. intros. unfold usub. by zdec. Qed.
Lemma umul_Ok {B : Build} {E} w a b : a * b < 2 ^ w → umul (E:=E) w a b = Ok (a * b).
Proof. intros. unfold umul. by zdec. Qed.
Lemma ushl_Ok {B : Build} {E} w x n : 0 ≤ n < w → ushl (E:=E) w x n = Ok (wrap w (Z.shiftl x n)).
Proof. intros. unfold ushl. by zdec. Qed.
Lemma ushr_Ok {B : Build} {E} w x n : 0 ≤ n < w → ushr (E:=E) w x n = Ok (Z.shiftr x n).
Proof. intros. unfold ushr. by zdec. Qed.
Lemma ishl_Ok {B : Build} {E} w x n : 0 ≤ n < w → ishl (E:=E) w x n = Ok (swrap w (Z.shiftl x n)).
Proof. intros. unfold ishl. by zdec. Qed.
Lemma nsub_Ok {E} a b : (b ≤ a)%nat → nsub (E:=E) a b = Ok (a - b)%nat.
Proof. intros. unfold nsub. by zdec. Qed.
#[export] Hint Rewrite @uadd_Ok @usub_Ok @umul_Ok @nsub_Ok @ushl_Ok @ushr_Ok @ishl_Ok using lia : outcome_simpl.

(** *** Bits *)

Lemma land_ones_mod x n : 0 ≤ n → Z.land x (Z.ones n) = x mod 2 ^ n.
Proof. apply Z.land_ones. Qed.

Lemma land_7f x : Z.land x 127 = x mod 128.
Proof. apply (Z.land_ones x 7). done. Qed.

Lemma land_shiftl_disjoint a b n : 0 ≤ n → in_u n a → Z.land a (Z.shiftl b n) = 0.
Proof.
  intros Hn [??]. apply Z.bits_inj'. intros i Hi.
  rewrite Z.land_spec, Z.bits_0, Z.shiftl_spec by done.
  destruct (Z.lt_ge_cases i n).
  - rewrite (Z.testbit_neg_r b) by lia. by rewrite andb_false_r.
  - rewrite <-(Z.mod_small a (2 ^ n)) by lia. by rewrite Z.mod_pow2_bits_high by lia.
Qed.

Lemma lor_shiftl_add a b n : 0 ≤ n → in_u n a → Z.lor a (Z.shiftl b n) = a + b * 2 ^ n.
Proof.
  intros. rewrite <-Z.shiftl_mul_pow2 by done. symmetry.
  rewrite <-Z.lxor_lor by (by apply land_shiftl_disjoint).
  apply Z.add_nocarry_lxor. by apply land_shiftl_disjoint.
Qed.

Lemma testbit_high w x i : in_u w x → 0 ≤ w ≤ i → Z.testbit x i = false.
Proof. intros [??] ?. apply (Z.bounded_iff_bits_nonneg w x); lia. Qed.

Lemma lor_in_u w a b : 0 ≤ w → in_u w a → in_u w b → in_u w (Z.lor a b).
Proof.
  intros ? Ha Hb. assert (0 ≤ Z.lor a b) by (apply Z.lor_nonneg; split; [apply Ha|apply Hb]).
  split; [done|]. apply Z.bounded_iff_bits_nonneg; [done..|]. intros i ?.
  by rewrite Z.lor_spec, (testbit_high w a), (testbit_high w b) by (done || lia).
Qed.

Lemma land_in_u w a b : 0 ≤ w → in_u w a → 0 ≤ b → in_u w (Z.land a b).
Proof.
  intros ? Ha Hb. assert (0 ≤ Z.land a b) by (apply Z.land_nonneg; by right).
  split; [done|]. apply Z.bounded_iff_bits_nonneg; [done..|]. intros i ?.
  by rewrite Z.land_spec, (testbit_high w a) by (done || lia).
Qed.

Lemma in_u_bits w x : 0 ≤ w → (∀ i, w ≤ i → Z.testbit x i = false) → in_u w x.
Proof.
  intros Hw Hx. replace x with (wrap w x); [by apply wrap_in_u|]. unfold wrap. apply Z.bits_inj'. intros i Hi.
  destruct (Z.lt_ge_cases i w); [by apply Z.mod_pow2_bits_low|]. by rewrite Z.mod_pow2_bits_high, Hx by lia.
Qed.
Lemma lxor_in_u w a b : 0 ≤ w → in_u w a → in_u w b → in_u w (Z.lxor a b).
Proof. intros Hw Ha Hb. apply in_u_bits; [done|]. intros i Hi. by rewrite Z.lxor_spec, !(testbit_high w) by (done || lia). Qed.

Lemma lxor_ones w x : 0 ≤ w → in_u w x → Z.lxor x (Z.ones w) = 2 ^ w - 1 - x.
Proof.
  intros ? Hx. transitivity (Z.land (Z.lnot x) (Z.ones w)).
  - apply Z.bits_inj'. intros i ?. rewrite Z.lxor_spec, Z.land_spec, Z.lnot_spec by done.
    destruct (Z.lt_ge_cases i w).
    + rewrite Z.ones_spec_low by lia. by destruct (Z.testbit x i).
    + rewrite Z.ones_spec_high by lia. rewrite (testbit_high w x) by (done || lia). done.
  - rewrite Z.land_ones by done. destruct Hx. symmetry.
    apply Z.mod_unique with (-1); [left; lia|]. unfold Z.lnot. lia.
Qed.

Lemma unot_spec w x : 0 ≤ w → in_u w x → unot w x = 2 ^ w - 1 - x.
Proof. apply lxor_ones. Qed.

(** Clearing the low bits of [x] rounds it down. *)
Lemma unot_testbit w x i : 0 ≤ i < w → Z.testbit (unot w x) i = negb (Z.testbit x i).
Proof. intros. unfold unot. rewrite Z.lxor_spec, Z.ones_spec_low by lia. apply xorb_true_r. Qed.
Lemma unot_in_u w x : 0 ≤ w → in_u w x → in_u w (unot w x).
Proof. intros ? Hx. rewrite unot_spec by done. unfold in_u in *. lia. Qed.
Lemma word_ext x y : in_u 64 x → in_u 64 y → (∀ i, 0 ≤ i < 64 → Z.testbit x i = Z.testbit y i) → x = y.
Proof.
  intros Hx Hy Hxy. apply Z.bits_inj'. intros i ?. destruct (Z.lt_ge_cases i 64); [by apply Hxy|].
  by rewrite (testbit_high 64 x), (testbit_high 64 y) by (done || lia).
Qed.

Lemma land_unot_mask w x p :
  0 ≤ p ≤ w → in_u w x → Z.land x (unot w (2 ^ p - 1)) = x / 2 ^ p * 2 ^ p.
Proof.
  intros ? Hx. rewrite Z.sub_1_r, <-Z.ones_equiv.
  rewrite <-Z.shiftr_div_pow2, <-Z.shiftl_mul_pow2, <-Z.ldiff_ones_r by lia.
  apply Z.bits_inj'. intros i ?. unfold unot. rewrite Z.land_spec, Z.ldiff_spec, Z.lxor_spec.
  destruct (Z.lt_ge_cases i w).
  - rewrite (Z.ones_spec_low w) by lia. by rewrite xorb_true_r.
  - by rewrite (testbit_high w x) by (done || lia).
Qed.

(** A statement about a byte is checked on its 256 values. *)
Lemma byte_forall (P : Z → bool) :
  forallb P (seqZ 0 256) = true → ∀ b, u8 b → P b = true.
Proof.
  intros HP b [??]. rewrite forallb_forall in HP. apply HP.
  apply list_elem_of_In, elem_of_seqZ. change (2 ^ 8) with 256 in *. lia.
Qed.


(** ** Lists *)

Lemma idx_Ok {E A} (l : list A) i x : l !! i = Some x → idx (E:=E) l i = Ok x.
Proof. unfold idx. by intros ->. Qed.

Lemma idx_lt {E A} (l : list A) i : (i < length l)%nat → ∃ x, l !! i = Some x ∧ idx (E:=E) l i = Ok x.
Proof. intros [x Hx]%lookup_lt_is_Some. exists x. split; [done|]. by apply idx_Ok. Qed.

Lemma idx_inv {E A} (l : list A) i x : idx (E:=E) l i = Ok x → l !! i = Some x.
Proof. unfold idx. destruct (l !! i); cbn; congruence. Qed.

Lemma set_idx_Ok {E A} (l : list A) i x :
  (i < length l)%nat → set_idx (E:=E) l i x = Ok (<[i := x]> l).
Proof. intros. unfold set_idx. by zdec. Qed.

Lemma slice_from_Ok {E A} (l : list A) n :
  (n ≤ length l)%nat → slice_from (E:=E) l n = Ok (drop n l).
Proof. intros. unfold slice_from. by zdec. Qed.
#[export] Hint Rewrite @set_idx_Ok @slice_from_Ok using lia : outcome_simpl.

Lemma debug_check_true {B : Build} {E} (c : outcome E bool) : c = Ok true → debug_check c = Ok tt.
Proof. intros ->. unfold debug_check. by destruct debug_assertions. Qed.

(** Accesses at the point where a list is split. *)
Section Middle.
Context {E A : Type}.
Implicit Types (l : list A) (x y : A).

Lemma idx_middle l1 x l2 : idx (E:=E) (l1 ++ x :: l2) (length l1) = Ok x.
Proof. apply idx_Ok. by rewrite list_lookup_middle. Qed.

Lemma set_idx_middle l1 x y l2 :
  set_idx (E:=E) (l1 ++ x :: l2) (length l1) y = Ok (l1 ++ y :: l2).
Proof.
  rewrite set_idx_Ok by (rewrite length_app; cbn; lia). f_equal.
  replace (length l1) with (length l1 + 0)%nat by lia. by rewrite insert_app_r.
Qed.

Lemma vec_insert_middle l1 x l2 :
  vec_insert (E:=E) (l1 ++ l2) (length l1) x = Ok (l1 ++ x :: l2).
Proof.
  unfold vec_insert. rewrite length_app. zdec. by rewrite take_app_length, drop_app_length.
Qed.

Lemma vec_remove_middle l1 x l2 :
  vec_remove (E:=E) (l1 ++ x :: l2) (length l1) = Ok (l1 ++ l2).
Proof.
  unfold vec_remove. rewrite length_app. cbn [length]. zdec. rewrite take_app_length.
  rewrite cons_middle, app_assoc, drop_app_length' by (rewrite length_app; cbn; lia). done.
Qed.

(** The same one element further on. *)
Lemma idx_middle1 l1 x y l2 : idx (E:=E) (l1 ++ x :: y :: l2) (S (length l1)) = Ok y.
Proof.
  rewrite (cons_middle x), app_assoc. replace (S (length l1)) with (length (l1 ++ [x])).
  - apply idx_middle.
  - rewrite length_app. cbn. lia.
Qed.

Lemma vec_remove_middle1 l1 x y l2 :
  vec_remove (E:=E) (l1 ++ x :: y :: l2) (S (length l1)) = Ok (l1 ++ x :: l2).
Proof.
  rewrite (cons_middle x), app_assoc. replace (S (length l1)) with (length (l1 ++ [x])).
  - rewrite vec_remove_middle. by rewrite <-app_assoc.
  - rewrite length_app. cbn. lia.
Qed.

Lemma vec_drain_middle l1 m l2 a b :
  a = length l1 → b = (length l1 + length m)%nat → vec_drain (E:=E) (l1 ++ m ++ l2) a b = Ok (l1 ++ l2).
Proof.
  intros -> ->. unfold vec_drain. rewrite !length_app. zdec. rewrite take_app_length.
  by rewrite app_assoc, drop_app_length' by (by rewrite length_app).
Qed.

Lemma vec_drain_nothing l n : (n ≤ length l)%nat → vec_drain (E:=E) l n n = Ok l.
Proof. intros. unfold vec_drain. zdec. by rewrite take_drop. Qed.
End Middle.
#[export] Hint Rewrite @idx_middle @set_idx_middle @vec_insert_middle @vec_remove_middle
  @idx_middle1 @vec_remove_middle1 : outcome_simpl.

(** The last element of a list, replaced. *)
Lemma insert_snoc {A} (l : list A) x y : <[length l := y]> (l ++ [x]) = l ++ [y].
Proof. replace (length l) with (length l + 0)%nat by lia. by rewrite insert_app_r. Qed.

Lemma sort_insert_Permutation {A} (le : A → A → bool) x l : sort_insert le x l ≡ₚ x :: l.
Proof.
  induction l as [|y l IH]; cbn; [done|]. destruct (le x y); [done|]. rewrite IH. by apply perm_swap.
Qed.

Lemma sort_by_Permutation {A} (le : A → A → bool) l : sort_by le l ≡ₚ l.
Proof. induction l as [|x l IH]; cbn; [done|]. by rewrite sort_insert_Permutation, IH. Qed.

Lemma sort_by_sorted {A} (le : A → A → bool) l :
  (∀ x y, le x y = false → le y x = true) → (∀ x y z, le x y = true → le y z = true → le x z = true) →
  StronglySorted (λ x y, le x y = true) (sort_by le l).
Proof.
  intros Htot Htrans. induction l as [|x l IH]; cbn; [constructor|]. revert IH. generalize (sort_by le l) as s.
  induction s as [|y s IHs]; intros Hs; cbn; [by repeat constructor|].
  inversion Hs as [|? ? Hs' Hy]; subst. destruct (le x y) eqn:Hxy.
  - constructor; [done|]. constructor; [done|]. eapply Forall_impl; [exact Hy|]. cbn. eauto.
  - constructor; [by apply IHs|]. rewrite sort_insert_Permutation. constructor; [by apply Htot|done].
Qed.

(** Where a predicate holds on a prefix of a list, [partition_point] finds its
    end. *)
Lemma partition_point_unique {A} (p : A → bool) l i :
  (i ≤ length l)%nat → (∀ k e, (k < i)%nat → l !! k = Some e → p e = true) →
  (∀ e, l !! i = Some e → p e = false) → partition_point p l = i.
Proof.
  revert i. induction l as [|x l IH]; intros i Hi Ht Hf; cbn [partition_point length] in *; [lia|].
  destruct i as [|i].
  - by rewrite (Hf x).
  - rewrite (Ht 0%nat x) by (done || lia). f_equal. apply IH; [lia| |done].
    intros k e ? ?. apply (Ht (S k) e); [lia|done].
Qed.

Lemma partition_point_app {A} (p : A → bool) (l1 l2 : list A) :
  (∀ x, x ∈ l1 → p x = true) → (∀ x, x ∈ l2 → p x = false) → partition_point p (l1 ++ l2) = length l1.
Proof.
  intros H1 H2. apply partition_point_unique; [rewrite length_app; lia|..].
  - intros j e ? Hj. rewrite lookup_app_l in Hj by lia. apply H1. by eapply list_elem_of_lookup_2.
  - intros e He. rewrite lookup_app_r, Nat.sub_diag in He by lia. apply H2. by eapply list_elem_of_lookup_2.
Qed.

Lemma filter_every {A} (P : A → Prop) `{!∀ x, Decision (P x)} (l : list A) : (∀ x, x ∈ l → P x) → filter P l = l.
Proof.
  induction l as [|x l IH]; intros HP; [done|]. rewrite filter_cons_True by (apply HP; left).
  f_equal. apply IH. intros. apply HP. by right.
Qed.
Lemma filter_nothing {A} (P : A → Prop) `{!∀ x, Decision (P x)} (l : list A) : (∀ x, x ∈ l → ¬ P x) → filter P l = [].
Proof.
  induction l as [|x l IH]; intros HP; [done|]. rewrite filter_cons_False by (apply HP; left).
  apply IH. intros. apply HP. by right.
Qed.

(** Little-endian bytes. *)
Lemma from_to_le_bytes n x : 0 ≤ x < 256 ^ Z.of_nat n → from_le_bytes (to_le_bytes n x) = x.
Proof.
  revert x. induction n as [|n IH]; intros x Hx; cbn [to_le_bytes from_le_bytes].
  - change (256 ^ Z.of_nat 0) with 1 in Hx. lia.
  - rewrite Nat2Z.inj_succ, Z.pow_succ_r in Hx by lia. rewrite IH.
    + pose proof (Z.div_mod x 256). lia.
    + split; [apply Z.div_pos; lia|]. apply Z.div_lt_upper_bound; lia.
Qed.

Lemma length_to_le_bytes n x : length (to_le_bytes n x) = n.
Proof. revert x. induction n as [|n IH]; intros; cbn; [done|]. by rewrite IH. Qed.

Lemma to_le_bytes_u8 n x : Forall u8 (to_le_bytes n x).
Proof.
  revert x. induction n as [|n IH]; intros; cbn [to_le_bytes]; constructor; [|done].
  apply (wrap_in_u 8). done.
Qed.

Lemma from_le_bytes_bound l : Forall u8 l → 0 ≤ from_le_bytes l < 256 ^ Z.of_nat (length l).
Proof.
  induction 1 as [|b l [??] _ IH]; cbn [from_le_bytes length]; [lia|].
  rewrite Nat2Z.inj_succ, Z.pow_succ_r by lia. change (2 ^ 8) with 256 in *. lia.
Qed.

Lemma to_from_le_bytes l : Forall u8 l → to_le_bytes (length l) (from_le_bytes l) = l.
Proof.
  induction 1 as [|b l [??] _ IH]; cbn [from_le_bytes to_le_bytes length]; [done|].
  change (2 ^ 8) with 256 in *. f_equal.
  - rewrite Z.mul_comm, Z.mod_add by lia. apply Z.mod_small. lia.
  - by rewrite Z.mul_comm, Z.div_add, Z.div_small by lia.
Qed.

Lemma from_le_bytes_inj l l' : length l = length l' → Forall u8 l → Forall u8 l' → from_le_bytes l = from_le_bytes l' → l = l'.
Proof. intros Hl H H' E. rewrite <-(to_from_le_bytes l), <-(to_from_le_bytes l'), Hl by done. by rewrite E. Qed.

Lemma from_le_bytes_app l l' : from_le_bytes (l ++ l') = from_le_bytes l + 256 ^ Z.of_nat (length l) * from_le_bytes l'.
Proof.
  induction l as [|b l IH]; cbn [app from_le_bytes length]; [lia|]. rewrite IH, Nat2Z.inj_succ, Z.pow_succ_r by lia. lia.
Qed.

Lemma to_le_bytes_app n m x : 0 ≤ x < 256 ^ Z.of_nat (n + m) → to_le_bytes (n + m) x = to_le_bytes n (x mod 256 ^ Z.of_nat n) ++ to_le_bytes m (x / 256 ^ Z.of_nat n).
Proof.
  intros Hx. assert (0 < 256 ^ Z.of_nat n) by (apply Z.pow_pos_nonneg; lia). rewrite Nat2Z.inj_add, Z.pow_add_r in Hx by lia.
  pose proof (Z.mod_pos_bound x (256 ^ Z.of_nat n)). pose proof (Z.div_mod x (256 ^ Z.of_nat n)).
  assert (0 ≤ x / 256 ^ Z.of_nat n < 256 ^ Z.of_nat m) by (split; [apply Z.div_pos; lia|apply Z.div_lt_upper_bound; lia]).
  apply from_le_bytes_inj; [by rewrite length_app, !length_to_le_bytes|apply to_le_bytes_u8|apply Forall_app; split; apply to_le_bytes_u8|].
  rewrite from_le_bytes_app, length_to_le_bytes, !from_to_le_bytes; [lia..|]. rewrite Nat2Z.inj_add, Z.pow_add_r by lia. lia.
Qed.

(** Big-endian bytes. *)
Lemma length_to_be_bytes n x : length (to_be_bytes n x) = n.
Proof. unfold to_be_bytes. by rewrite length_rev, length_to_le_bytes. Qed.

Lemma to_be_bytes_u8 n x : Forall u8 (to_be_bytes n x).
Proof. unfold to_be_bytes. apply Forall_rev, to_le_bytes_u8. Qed.

Lemma from_to_be_bytes n x : 0 ≤ x < 256 ^ Z.of_nat n → from_be_bytes (to_be_bytes n x) = x.
Proof. intros. unfold from_be_bytes, to_be_bytes. by rewrite rev_involutive, from_to_le_bytes. Qed.

Lemma from_be_bytes_bound l : Forall u8 l → 0 ≤ from_be_bytes l < 256 ^ Z.of_nat (length l).
Proof.
  intros. unfold from_be_bytes. rewrite <-length_rev. by apply from_le_bytes_bound, Forall_rev.
Qed.

Lemma to_from_be_bytes l : Forall u8 l → to_be_bytes (length l) (from_be_bytes l) = l.
Proof.
  intros. unfold to_be_bytes, from_be_bytes. rewrite <-(length_rev l), to_from_le_bytes by by apply Forall_rev.
  apply rev_involutive.
Qed.
