(* ===== verification/BitManip.v ===== *)
(** * Bit manipulation primitives (utils-common/src/bitmanip.rs)

    The traits [BitManip] and [UBitManip], whose implementations the macros of
    the source generate for every integer type.  A definition here takes the
    width [w] of the type as an argument; the suffix [_u] or [_s] tells the
    unsigned from the signed implementation. *)

From S2P Require Import Prelude.

Module BitManip.

Section Ops.
Context {B : Build} {E : Type}.
Variable w : Z.

(** ** Implementations for the unsigned types *)

Definition trailing_bits_mask_u (count : Z) : outcome E Z :=
  let! _ := debug_assert (count <=? w) in
  let all := count / w in
  let count := count mod w in
  let! t := ushl w 1 count in
  let! t := usub w t 1 in
  Ok (wrapping_sub w t all).

Definition is_nonzero_u (self : Z) : outcome E Z :=
  ushr w (Z.lor self (wrapping_neg w self)) (w - 1).

Definition abs_u (self : Z) : Z := self.

Definition is_pow2_u (self : Z) : bool :=
  let value := abs_u self in
  Z.land value (wrapping_sub w value 1) =? 0.

Definition is_aligned_pow2_u (self pow2_log2 : Z) : outcome E bool :=
  let! mask := trailing_bits_mask_u pow2_log2 in
  Ok (Z.land (abs_u self) mask =? 0).

Definition exp2_u (pow2_log2 : Z) : outcome E Z :=
  let! _ := debug_assert (pow2_log2 <? w) in
  ushl w 1 pow2_log2.

Definition significant_bits_u (self : Z) : outcome E Z :=
  let lz := leading_zeros w (Z.lor self 1) in
  let! _ := debug_assert (lz <? w) in
  usub 32 w lz.

Definition sign_extend_u (self sign_bit_pos : Z) : outcome E Z :=
  let! t := usub 32 w sign_bit_pos in
  let! leading_bits := usub 32 t 1 in
  let! t := ushl w self leading_bits in
  let! t := ushr w (swrap w t) leading_bits in
  Ok (wrap w t).

(** ** Implementations for the signed types *)

Definition trailing_bits_mask_s (count : Z) : outcome E Z :=
  let! m := trailing_bits_mask_u count in
  Ok (swrap w m).

Definition is_nonzero_s (self : Z) : outcome E Z :=
  let value := wrap w self in
  let! t := ushr w (Z.lor value (wrapping_neg w value)) (w - 1) in
  Ok (swrap w t).

Definition abs_s (self : Z) : outcome E Z :=
  let! neg := ushr w self (w - 1) in
  let neg_mask := wrap w neg in
  Ok (wrapping_sub w (Z.lxor (wrap w self) neg_mask) neg_mask).

Definition is_pow2_s (self : Z) : outcome E bool :=
  let! value := abs_s self in
  Ok (Z.land value (wrapping_sub w value 1) =? 0).

Definition is_aligned_pow2_s (self pow2_log2 : Z) : outcome E bool :=
  let! value := abs_s self in
  let! mask := trailing_bits_mask_u pow2_log2 in
  Ok (Z.land value mask =? 0).

Definition exp2_s (pow2_log2 : Z) : outcome E Z :=
  let! _ := debug_assert (pow2_log2 <? w - 1) in
  ishl w 1 pow2_log2.

Definition significant_bits_s (self : Z) : outcome E Z :=
  let value := wrap w self in
  let! sign := ushr w value (w - 1) in
  let value := Z.lxor value (wrapping_sub w 0 sign) in
  let lz := leading_zeros w value in
  let! _ := debug_assert (negb (lz =? 0) && (lz <=? w)) in
  let! t := usub 32 lz 1 in
  usub 32 w t.

Definition sign_extend_s (self sign_bit_pos : Z) : outcome E Z :=
  let! t := sign_extend_u (wrap w self) sign_bit_pos in
  Ok (swrap w t).

(** ** Rounding, for the unsigned types *)

Definition round_down_pow2 (self pow2_log2 : Z) : outcome E Z :=
  let! _ := debug_assert (pow2_log2 <? w) in
  let! t := ushr w self pow2_log2 in
  ushl w t pow2_log2.

Definition round_up_pow2 (self pow2_log2 : Z) : outcome E (option Z) :=
  let! _ := debug_assert (pow2_log2 <? w) in
  let! t := ushl w 1 pow2_log2 in
  let! t := usub w t 1 in
  Ok (match checked_add w self t with
      | Some s => Some (Z.land s (unot w t))
      | None => None
      end).

Definition round_up_pow2_unchecked (self pow2_log2 : Z) : outcome E Z :=
  let! _ := debug_assert (pow2_log2 <? w) in
  let! t := ushl w 1 pow2_log2 in
  let! t := usub w t 1 in
  uadd w self (Z.land (wrapping_neg w self) t).

Definition round_up_next_pow2 (self : Z) : outcome E (option Z) :=
  let t := wrapping_sub w self 1 in
  let lz := leading_zeros w t in
  if negb (lz =? 0) then
    let! r := ushl w 1 (w - lz) in
    Ok (Some r)
  else if Z.land self t =? 0 then Ok (Some t) else Ok None.

Definition round_down_next_pow2 (self : Z) : outcome E Z :=
  let! t := ushr w (Z.lor self (wrapping_neg w self)) (w - 1) in
  let! is_zero := usub w 1 t in
  let! n := usub 32 (w - 1) (leading_zeros w (Z.lor self is_zero)) in
  let! t := ushl w 1 n in
  usub w t is_zero.
End Ops.

(** ** Correctness *)

(** The least multiple of [2^p] that is not below [x]. *)
Definition round_up_to (p x : Z) : Z := (x + (2 ^ p - 1)) / 2 ^ p * 2 ^ p.

Lemma round_up_to_bounds p x : 0 ≤ p → x ≤ round_up_to p x < x + 2 ^ p.
Proof.
  intros. unfold round_up_to. pose proof (pow2_pos p).
  pose proof (Z.div_mod (x + (2 ^ p - 1)) (2 ^ p)).
  pose proof (Z.mod_pos_bound (x + (2 ^ p - 1)) (2 ^ p)). nia.
Qed.

(** Multiples of a power of two around a number. *)
Lemma round_down_greatest n x m : 0 ≤ n → (2 ^ n | m) → m ≤ x → m ≤ x / 2 ^ n * 2 ^ n.
Proof.
  intros ? [k ->] ?. pose proof (pow2_pos n). apply Z.mul_le_mono_nonneg_r; [lia|].
  apply Z.div_le_lower_bound; lia.
Qed.

Lemma round_up_least n x m : 0 ≤ n → (2 ^ n | m) → x ≤ m → round_up_to n x ≤ m.
Proof.
  intros ? [k ->] ?. pose proof (pow2_pos n). unfold round_up_to.
  apply Z.mul_le_mono_nonneg_r; [lia|].
  enough ((x + (2 ^ n - 1)) / 2 ^ n < k + 1) by lia. apply Z.div_lt_upper_bound; lia.
Qed.

Lemma round_down_le n x : 0 ≤ n → x / 2 ^ n * 2 ^ n ≤ x.
Proof. intros. pose proof (pow2_pos n). pose proof (Z.mul_div_le x (2 ^ n)). lia. Qed.

(** Where rounding up leaves the range of [w] bits, it reaches its end. *)
Lemma round_up_to_overflow w n x :
  0 ≤ n ≤ w → 2 ^ w ≤ x + (2 ^ n - 1) → 2 ^ w ≤ round_up_to n x.
Proof.
  intros ? Hx. destruct (Z.le_gt_cases (2 ^ w) (round_up_to n x)) as [|Hlt]; [done|exfalso].
  pose proof (pow2_pos n ltac:(lia)). pose proof (round_up_to_bounds n x ltac:(lia)).
  assert ((2 ^ n | 2 ^ w)) as [c Hc].
  { exists (2 ^ (w - n)). rewrite <-Z.pow_add_r by lia. f_equal. lia. }
  unfold round_up_to in *. set (q := (x + (2 ^ n - 1)) / 2 ^ n) in *.
  assert (q < c) by (apply (Z.mul_lt_mono_pos_r (2 ^ n)); lia).
  assert ((q + 1) * 2 ^ n ≤ c * 2 ^ n) by (apply Z.mul_le_mono_nonneg_r; lia). lia.
Qed.

Lemma pow2_bit_and_pred k : 0 ≤ k → Z.land (2 ^ k) (2 ^ k - 1) = 0.
Proof.
  intros. rewrite Z.sub_1_r, <-Z.ones_equiv, Z.land_ones by done.
  apply Z.mod_same. pose proof (pow2_pos k). lia.
Qed.

Lemma leading_zeros_pos w x : 0 < x → leading_zeros w x = w - (Z.log2 x + 1).
Proof. intros. unfold leading_zeros. by zdec. Qed.

Section Spec.
Context {B : Build} {E : Type}.
Variable w : Z.
Hypothesis Hw : 1 < w.

Lemma pow2_in_u n : 0 ≤ n < w → in_u w (2 ^ n).
Proof. intros. split; [by apply Z.pow_nonneg|]. apply Z.pow_lt_mono_r; lia. Qed.

Lemma shl_one n : 0 ≤ n < w → ushl (E:=E) w 1 n = Ok (2 ^ n).
Proof.
  intros. rewrite ushl_Ok, Z.shiftl_1_l by done. by rewrite wrap_small by by apply pow2_in_u.
Qed.

Lemma trailing_bits_mask_u_spec count :
  0 ≤ count ≤ w → trailing_bits_mask_u (E:=E) w count = Ok (2 ^ count - 1).
Proof.
  intros. unfold trailing_bits_mask_u. zdec. cbn [debug_assert obind].
  assert (count = w ∨ count < w) as [->|] by lia.
  - rewrite Z.mod_same, Z.div_same, shl_one by lia. change (2 ^ 0) with 1. cbn [obind].
    ostep. f_equal. unfold wrapping_sub, wrap. change (1 - 1 - 1) with (-1).
    symmetry. apply Z.mod_unique with (-1); [left|]; pose proof (pow2_pos w); lia.
  - rewrite Z.mod_small, Z.div_small, shl_one by lia. cbn [obind].
    pose proof (pow2_in_u count) as [??]; [lia|]. pose proof (pow2_pos count).
    ostep. f_equal. unfold wrapping_sub. rewrite wrap_small; unfold in_u; lia.
Qed.

Lemma neg_msb x : in_u w x → x ≠ 0 → Z.testbit (Z.lor x (wrapping_neg w x)) (w - 1) = true.
Proof.
  intros [??] ?. rewrite Z.lor_spec.
  assert (wrapping_neg w x = 2 ^ w - x) as ->.
  { unfold wrapping_neg, wrap. symmetry. apply Z.mod_unique with (-1); [left|]; lia. }
  assert (2 ^ w = 2 * 2 ^ (w - 1)) as Hp by (rewrite <-Z.pow_succ_r by lia; f_equal; lia).
  rewrite !Z.testbit_odd, !Z.shiftr_div_pow2 by lia.
  destruct (Z.le_gt_cases (2 ^ (w - 1)) x).
  - replace (x / 2 ^ (w - 1)) with 1; [done|]. apply Z.div_unique with (x - 2 ^ (w - 1)); lia.
  - replace ((2 ^ w - x) / 2 ^ (w - 1)) with 1; [by rewrite orb_true_r|].
    apply Z.div_unique with (2 ^ (w - 1) - x); lia.
Qed.

Lemma shr_top x : in_u w x → Z.shiftr x (w - 1) = Z.b2z (Z.testbit x (w - 1)).
Proof.
  intros [??]. rewrite Z.testbit_spec' by lia. rewrite Z.shiftr_div_pow2 by lia.
  rewrite Z.mod_small; [done|]. split; [apply Z.div_pos; [done|apply pow2_pos; lia]|].
  apply Z.div_lt_upper_bound; [apply pow2_pos; lia|].
  rewrite Z.mul_comm, <-Z.pow_succ_r by lia. by replace (Z.succ (w - 1)) with w by lia.
Qed.

Lemma is_nonzero_u_spec x :
  in_u w x → is_nonzero_u (E:=E) w x = Ok (if x =? 0 then 0 else 1).
Proof.
  intros Hx. unfold is_nonzero_u. ostep.
  assert (in_u w (Z.lor x (wrapping_neg w x))).
  { apply lor_in_u; [lia|done|]. apply wrap_in_u; lia. }
  rewrite shr_top by done. destruct (Z.eqb_spec x 0) as [->|].
  - unfold wrapping_neg, wrap. rewrite Z.lor_0_l, Z.mod_0_l by (pose proof (pow2_pos w); lia).
    by rewrite Z.bits_0.
  - by rewrite neg_msb by done.
Qed.

(** The mask of [is_aligned_pow2] tests divisibility. *)
Lemma is_aligned_pow2_u_spec x p :
  0 ≤ x → 0 ≤ p ≤ w → is_aligned_pow2_u (E:=E) w x p = Ok (x mod 2 ^ p =? 0).
Proof.
  intros. unfold is_aligned_pow2_u, abs_u. rewrite trailing_bits_mask_u_spec by done.
  cbn [obind]. rewrite Z.sub_1_r, <-Z.ones_equiv. by rewrite Z.land_ones by lia.
Qed.

Lemma significant_bits_u_spec x :
  in_u w x → significant_bits_u (E:=E) w x = Ok (Z.log2 x + 1).
Proof.
  intros [??]. unfold significant_bits_u, leading_zeros.
  assert (Z.log2 (Z.lor x 1) = Z.log2 x) as Hl.
  { rewrite Z.log2_lor by lia. pose proof (Z.log2_nonneg x). cbn [Z.log2]. lia. }
  assert (Z.lor x 1 ≠ 0) by (rewrite Z.lor_eq_0_iff; lia).
  assert (Z.log2 x < w).
  { destruct (Z.eq_dec x 0) as [->|]; [cbn; lia|]. apply Z.log2_lt_pow2; lia. }
  pose proof (Z.log2_nonneg x). zdec. rewrite Hl. zdec. cbn [debug_assert obind].
  rewrite usub_Ok by lia. f_equal. lia.
Qed.

Lemma sign_extend_u_spec x p :
  in_u w x → 0 ≤ p < w → sign_extend_u (E:=E) w x p = Ok (wrap w (swrap (p + 1) x)).
Proof.
  intros. unfold sign_extend_u. ostep. repeat f_equal.
  set (k := w - p - 1).
  rewrite swrap_wrap by lia. rewrite Z.shiftl_mul_pow2, Z.shiftr_div_pow2 by lia.
  assert (2 ^ w = 2 ^ k * 2 ^ (p + 1)) as Hw' by (rewrite <-Z.pow_add_r by lia; f_equal; lia).
  assert (2 ^ (w - 1) = 2 ^ k * 2 ^ (p + 1 - 1)) as Hw'' by (rewrite <-Z.pow_add_r by lia; f_equal; lia).
  pose proof (pow2_pos k ltac:(lia)).
  unfold swrap. rewrite Hw', Hw''.
  replace (x * 2 ^ k + 2 ^ k * 2 ^ (p + 1 - 1)) with (2 ^ k * (x + 2 ^ (p + 1 - 1))) by lia.
  rewrite Z.mul_mod_distr_l by (pose proof (pow2_pos (p + 1)); lia).
  rewrite <-Z.mul_sub_distr_l, Z.mul_comm. apply Z.div_mul. lia.
Qed.

(** [is_pow2] accepts the powers of two, and zero. *)
Lemma is_pow2_u_spec x :
  in_u w x → is_pow2_u w x = true ↔ x = 0 ∨ ∃ k, 0 ≤ k ∧ x = 2 ^ k.
Proof.
  intros [??]. unfold is_pow2_u, abs_u. rewrite Z.eqb_eq.
  destruct (Z.eq_dec x 0) as [->|]; [rewrite Z.land_0_l; naive_solver|].
  unfold wrapping_sub. rewrite wrap_small by (unfold in_u; lia).
  split; [|intros [->|(k & ? & ->)]; [done|by apply pow2_bit_and_pred]].
  intros Hl. right. exists (Z.log2 x). split; [apply Z.log2_nonneg|].
  destruct (Z.log2_spec x ltac:(lia)) as [? Hu].
  destruct (Z.eq_dec x (2 ^ Z.log2 x)) as [|Hne]; [done|]. exfalso.
  assert (Z.log2 (x - 1) = Z.log2 x) as Hp.
  { apply Z.log2_unique; [apply Z.log2_nonneg|lia]. }
  assert (1 < x) by (destruct (Z.eq_dec x 1) as [->|]; [done|lia]).
  assert (Z.testbit (Z.land x (x - 1)) (Z.log2 x) = true) as Hb.
  { rewrite Z.land_spec, Z.bit_log2 by lia. rewrite <-Hp. by rewrite Z.bit_log2 by lia. }
  by rewrite Hl, Z.bits_0 in Hb.
Qed.

Lemma abs_s_spec x : in_i w x → abs_s (E:=E) w x = Ok (Z.abs x).
Proof.
  intros [??]. unfold abs_s. ostep. f_equal.
  assert (2 ^ w = 2 * 2 ^ (w - 1)) as Hp by (rewrite <-Z.pow_succ_r by lia; f_equal; lia).
  pose proof (pow2_pos (w - 1) ltac:(lia)). rewrite Z.shiftr_div_pow2 by lia.
  destruct (Z.lt_ge_cases x 0).
  - replace (x / 2 ^ (w - 1)) with (-1) by (apply Z.div_unique with (x + 2 ^ (w - 1)); lia).
    assert (∀ v, - 2 ^ w ≤ v < 0 → wrap w v = v + 2 ^ w) as Hneg.
    { intros. symmetry. apply Z.mod_unique with (-1); [left|]; lia. }
    rewrite !Hneg by lia. replace (-1 + 2 ^ w) with (Z.ones w) by (rewrite Z.ones_equiv; lia).
    rewrite lxor_ones by (unfold in_u; lia). rewrite Z.ones_equiv.
    unfold wrapping_sub. rewrite Hneg by lia. lia.
  - rewrite Z.div_small by lia. change (wrap w 0) with (0 mod 2 ^ w).
    rewrite Z.mod_0_l by lia. rewrite Z.lxor_0_r. unfold wrapping_sub.
    rewrite Z.sub_0_r, (wrap_small w x), (wrap_small w x) by (unfold in_u; lia). lia.
Qed.

(** The signed width is the least one that holds the value. *)
Lemma significant_bits_s_spec x :
  in_i w x → ∃ n, significant_bits_s (E:=E) w x = Ok n ∧ 1 ≤ n ≤ w ∧ in_i n x ∧
    ∀ m, 1 ≤ m → in_i m x → n ≤ m.
Proof.
  intros [??]. unfold significant_bits_s.
  assert (2 ^ w = 2 * 2 ^ (w - 1)) as Hp by (rewrite <-Z.pow_succ_r by lia; f_equal; lia).
  pose proof (pow2_pos (w - 1) ltac:(lia)). ostep.
  set (v := if x <? 0 then - x - 1 else x).
  assert (Z.lxor (wrap w x) (wrapping_sub w 0 (Z.shiftr (wrap w x) (w - 1))) = v) as ->.
  { unfold v. rewrite Z.shiftr_div_pow2 by lia. destruct (Z.ltb_spec x 0).
    - assert (wrap w x = x + 2 ^ w) as -> by (symmetry; apply Z.mod_unique with (-1); [left|]; lia).
      replace ((x + 2 ^ w) / 2 ^ (w - 1)) with 1 by (apply Z.div_unique with (x + 2 ^ (w - 1)); lia).
      replace (wrapping_sub w 0 1) with (Z.ones w).
      + rewrite lxor_ones by (unfold in_u; lia). lia.
      + rewrite Z.ones_equiv. apply Z.mod_unique with (-1); [left|]; lia.
    - rewrite wrap_small, Z.div_small by (unfold in_u; lia). unfold wrapping_sub, wrap.
      by rewrite Z.sub_0_r, Z.mod_0_l, Z.lxor_0_r by lia. }
  assert (0 ≤ v < 2 ^ (w - 1)) as [Hv0 Hv1] by (unfold v; zcase; lia).
  assert (∀ m, 1 ≤ m → in_i m x ↔ v < 2 ^ (m - 1)) as Hin.
  { intros m ?. pose proof (pow2_pos (m - 1)). unfold in_i, v. zcase; lia. }
  unfold leading_zeros. destruct (Z.eqb_spec v 0) as [Hv|Hv].
  - zdec. cbn [debug_assert obind]. ostep. eexists; split; [done|].
    replace (w - (w - 1)) with 1 by lia. split; [lia|]. split; [apply Hin; [lia|]; cbn; lia|lia].
  - destruct (Z.log2_spec v ltac:(lia)) as [Hl Hu].
    assert (Z.log2 v < w - 1) by (apply Z.log2_lt_pow2; lia). pose proof (Z.log2_nonneg v).
    zdec. cbn [debug_assert obind]. ostep. eexists; split; [done|].
    replace (w - (w - (Z.log2 v + 1) - 1)) with (Z.log2 v + 2) by lia.
    split; [lia|]. split; [apply Hin; [lia|]; by replace (Z.log2 v + 2 - 1) with (Z.succ (Z.log2 v)) by lia|].
    intros m ? Hm%Hin; [|done].
    destruct (Z.le_gt_cases (Z.log2 v + 2) m); [done|]. exfalso.
    assert (2 ^ (m - 1) ≤ 2 ^ Z.log2 v) by (apply Z.pow_le_mono_r; lia). lia.
Qed.

Lemma round_down_pow2_spec x p :
  in_u w x → 0 ≤ p < w → round_down_pow2 (E:=E) w x p = Ok (x / 2 ^ p * 2 ^ p).
Proof.
  intros [??] ?. unfold round_down_pow2. zdec. ostep. f_equal.
  rewrite Z.shiftl_mul_pow2, Z.shiftr_div_pow2 by lia. apply wrap_small.
  pose proof (pow2_pos p). pose proof (Z.mul_div_le x (2 ^ p)).
  pose proof (Z.div_pos x (2 ^ p)). unfold in_u. nia.
Qed.

Lemma round_up_pow2_eq x p :
  in_u w x → 0 ≤ p < w →
  round_up_pow2 (E:=E) w x p =
    Ok (if x + (2 ^ p - 1) <? 2 ^ w then Some (round_up_to p x) else None).
Proof.
  intros [??] ?. unfold round_up_pow2. zdec. cbn [debug_assert obind]. rewrite shl_one by done. cbn [obind].
  pose proof (pow2_pos p). ostep. f_equal. unfold checked_add. zcase; [|done]. f_equal.
  apply land_unot_mask; [lia|]. unfold in_u. lia.
Qed.

Lemma round_up_pow2_unchecked_spec x p :
  in_u w x → 0 ≤ p < w → round_up_to p x < 2 ^ w →
  round_up_pow2_unchecked (E:=E) w x p = Ok (round_up_to p x).
Proof.
  intros [??] ? Hr. unfold round_up_pow2_unchecked. zdec. cbn [debug_assert obind]. rewrite shl_one by done.
  cbn [obind]. pose proof (pow2_pos p ltac:(lia)). ostep.
  rewrite Z.sub_1_r, <-Z.ones_equiv, Z.land_ones by lia.
  assert (x + wrapping_neg w x mod 2 ^ p = round_up_to p x) as Heq.
  { assert (wrapping_neg w x mod 2 ^ p = (- x) mod 2 ^ p) as ->.
    { unfold wrapping_neg, wrap. replace w with (p + (w - p)) by lia.
      rewrite Z.pow_add_r by lia.
      rewrite Z.rem_mul_r by (apply Z.pow_nonzero || apply pow2_pos; lia).
      rewrite Z.add_mod, Z.mul_comm, Z.mod_mul, Z.add_0_r, !Z.mod_mod by lia. done. }
    unfold round_up_to. pose proof (Z.div_mod (- x) (2 ^ p) ltac:(lia)) as Hd.
    pose proof (Z.mod_pos_bound (- x) (2 ^ p) ltac:(lia)).
    assert ((x + (2 ^ p - 1)) / 2 ^ p = - ((- x) / 2 ^ p)) as ->; [|lia].
    symmetry. apply Z.div_unique with (2 ^ p - 1 - (- x) mod 2 ^ p); lia. }
  rewrite <-Heq in Hr |- *. by rewrite uadd_Ok.
Qed.

(** [round_up_next_pow2] on each of its branches.  The branch for an operand
    without leading zeros in [self - 1] returns [self - 1] if it is taken with
    [self & (self - 1) = 0], which only happens for [self = 0]. *)
Lemma round_up_next_pow2_eq x :
  in_u w x →
  round_up_next_pow2 (E:=E) w x =
    Ok (if x =? 0 then Some (2 ^ w - 1)
        else if x <=? 2 ^ (w - 1) then Some (2 ^ Z.log2_up x) else None).
Proof.
  intros [??]. unfold round_up_next_pow2.
  assert (2 ^ w = 2 * 2 ^ (w - 1)) as Hp by (rewrite <-Z.pow_succ_r by lia; f_equal; lia).
  pose proof (pow2_pos (w - 1) ltac:(lia)).
  destruct (Z.eqb_spec x 0) as [->|].
  - assert (wrapping_sub w 0 1 = 2 ^ w - 1) as ->
      by (symmetry; apply Z.mod_unique with (-1); [left|]; lia).
    rewrite leading_zeros_pos by lia.
    rewrite Z.sub_1_r, Z.log2_pred_pow2 by lia. zdec. by rewrite Z.land_0_l.
  - unfold wrapping_sub. rewrite wrap_small by (unfold in_u; lia).
    destruct (Z.eq_dec x 1) as [->|].
    { unfold leading_zeros. cbn [Z.sub Z.eqb]. zdec. rewrite Z.sub_diag.
      rewrite shl_one by lia. cbn [obind]. zdec. done. }
    rewrite leading_zeros_pos by lia.
    destruct (Z.leb_spec x (2 ^ (w - 1))).
    + assert (Z.log2 (x - 1) < w - 1) by (apply Z.log2_lt_pow2; lia).
      pose proof (Z.log2_nonneg (x - 1)). zdec.
      rewrite shl_one by lia. cbn [obind]. do 3 f_equal.
      rewrite Z.log2_up_eqn by lia. rewrite <-Z.sub_1_r. lia.
    + assert (Z.log2 (x - 1) = w - 1) as Hl.
      { apply Z.log2_unique; [lia|]. replace (Z.succ (w - 1)) with w by lia. lia. }
      assert (Z.log2 x = w - 1) as Hl'.
      { apply Z.log2_unique; [lia|]. replace (Z.succ (w - 1)) with w by lia. lia. }
      zdec. destruct (Z.eqb_spec (Z.land x (x - 1)) 0) as [Hz|]; [|done]. exfalso.
      assert (Z.testbit (Z.land x (x - 1)) (w - 1) = true) as Hb.
      { rewrite Z.land_spec. rewrite <-Hl' at 1. rewrite Z.bit_log2 by lia.
        rewrite <-Hl. by rewrite Z.bit_log2 by lia. }
      by rewrite Hz, Z.bits_0 in Hb.
Qed.

Lemma round_down_next_pow2_eq x :
  in_u w x →
  round_down_next_pow2 (E:=E) w x = Ok (if x =? 0 then 0 else 2 ^ Z.log2 x).
Proof.
  intros Hx. pose proof (is_nonzero_u_spec x Hx) as Hz. unfold is_nonzero_u in Hz.
  unfold round_down_next_pow2. rewrite Hz. cbn [obind]. destruct Hx.
  destruct (Z.eqb_spec x 0) as [->|].
  - rewrite usub_Ok by lia. cbn [obind]. rewrite Z.lor_0_l, leading_zeros_pos by lia.
    change (Z.log2 (1 - 0)) with 0. rewrite usub_Ok by lia. cbn [obind].
    replace (w - 1 - (w - (0 + 1))) with 0 by lia. by rewrite shl_one by lia.
  - rewrite usub_Ok by lia. cbn [obind]. rewrite Z.lor_0_r, leading_zeros_pos by lia.
    pose proof (Z.log2_nonneg x). assert (Z.log2 x < w) by (apply Z.log2_lt_pow2; lia).
    rewrite usub_Ok by lia. cbn [obind].
    replace (w - 1 - (w - (Z.log2 x + 1))) with (Z.log2 x) by lia.
    rewrite shl_one by lia. cbn [obind].
    pose proof (pow2_pos (Z.log2 x)). ostep. by rewrite Z.sub_0_r.
Qed.
End Spec.

(** ** Properties *)

Section Properties.
Context {B : Build} {E : Type}.

(** Rounding up to a multiple of [2^p] returns the least such multiple, and
    [None] exactly if no multiple from the argument on is a [w]-bit number; it
    never panics for a shift within the width. *)
Lemma round_up_pow2_correct w x p :
  1 < w → in_u w x → 0 ≤ p < w →
  match round_up_pow2 (E:=E) w x p with
  | Ok (Some r) => (2 ^ p | r) ∧ x ≤ r ∧ in_u w r ∧ ∀ m, (2 ^ p | m) → x ≤ m → r ≤ m
  | Ok None => ∀ m, (2 ^ p | m) → x ≤ m → 2 ^ w ≤ m
  | _ => False
  end.
Proof.
  intros Hw Hx Hp. rewrite round_up_pow2_eq by done. pose proof (round_up_to_bounds p x ltac:(lia)).
  destruct Hx. destruct (Z.ltb_spec (x + (2 ^ p - 1)) (2 ^ w)).
  - split_and!; [by eexists|lia|unfold in_u; lia|]. intros. by apply round_up_least; [lia|..].
  - intros m Hm ?. transitivity (round_up_to p x); [by apply round_up_to_overflow; lia|].
    by apply round_up_least; [lia|..].
Qed.

(** Rounding up to the next power of two returns the least power of two from
    the argument on, and [None] if that needs more than [w] bits; for zero
    however it returns the all-ones number, which is none. *)
Lemma round_up_next_pow2_correct w x :
  1 < w → in_u w x →
  round_up_next_pow2 (E:=E) w x =
    Ok (if x =? 0 then Some (2 ^ w - 1) else if x <=? 2 ^ (w - 1) then Some (2 ^ Z.log2_up x) else None) ∧
  (0 < x → x ≤ 2 ^ Z.log2_up x ∧ ∀ k, 0 ≤ k → x ≤ 2 ^ k → 2 ^ Z.log2_up x ≤ 2 ^ k).
Proof.
  intros Hw Hx. split; [by apply round_up_next_pow2_eq|]. intros. split.
  - by apply Z.log2_log2_up_spec.
  - intros k ? Hk. apply Z.pow_le_mono_r; [done|]. by apply Z.log2_up_le_pow2.
Qed.

End Properties.

Lemma round_up_pow2_correct_witness :
  round_up_pow2 (B:=debug_build) (E:=unit) 8 13 2 = Ok (Some 16) ∧ ∀ m, (2 ^ 2 | m) → 13 ≤ m → 16 ≤ m.
Proof.
  split; [done|].
  apply (round_up_pow2_correct (B:=debug_build) (E:=unit) 8 13 2); [done|by split|by split].
Defined.

Lemma round_up_next_pow2_correct_witness :
  round_up_next_pow2 (B:=debug_build) (E:=unit) 8 0 = Ok (Some 255).
Proof.
  apply (round_up_next_pow2_correct (B:=debug_build) (E:=unit) 8 0); [done|by split].
Defined.

End BitManip.
