(* ===== verification/Leb128.v ===== *)
(** * LEB128 integer coding (storage/src/fs/cocoonfs/leb128.rs)

    The encoders take the destination slice and return the bytes written at its
    front together with the remainder of the slice that the Rust function
    returns; the concatenation of the two is the slice after the call. *)

From S2P Require Import Prelude BitManip.
Import BitManip.

Module Leb128.

Inductive Leb128EncodingError : Set := TruncatedEncoding | DecodeOverflow.
Abbreviation res := (outcome Leb128EncodingError).

(** ** Encoding *)

Section Encode.
Context {B : Build} {E : Type}.

Definition leb128s_i64_encoded_len (value : Z) : outcome E nat :=
  let! bits := significant_bits_s 64 value in
  Ok (Z.to_nat (div_ceil bits 7)).

Definition leb128u_u64_encoded_len (value : Z) : outcome E nat :=
  let! bits := significant_bits_u 64 value in
  Ok (Z.to_nat (div_ceil bits 7)).

(** The [while] loop of [leb128s_i64_encode]: the slice from [encoded_len] on
    is rewritten in place; the final [encoded_bits] and [encoded_len] are
    returned with it. *)
Fixpoint encode_loop_s (dst : list Z) (value encoded_bits significand_bits : Z)
    (encoded_len : nat) : outcome E (list Z * Z * nat) :=
  if encoded_bits <? significand_bits then
    match dst with
    | [] => Panic
    | _ :: dst' =>
        let byte := Z.lor (wrap 8 (Z.land value 127)) 128 in
        let! '(dst', encoded_bits, encoded_len) :=
          encode_loop_s dst' (Z.shiftr value 7) (encoded_bits + 7) significand_bits (S encoded_len) in
        Ok (byte :: dst', encoded_bits, encoded_len)
    end
  else Ok (dst, encoded_bits, encoded_len).

Definition leb128s_i64_encode (dst : list Z) (value : Z) : outcome E (list Z * list Z) :=
  let! significand_bits := significant_bits_s 64 value in
  let value := wrap 64 value in
  let! '(dst, encoded_bits, encoded_len) := encode_loop_s dst value 0 significand_bits 0 in
  let! i := nsub encoded_len 1 in
  let! last := idx dst i in
  let! pad := usub 32 encoded_bits significand_bits in
  let! p := usub 32 7 pad in
  let! p := usub 32 p 1 in
  let! last := sign_extend_u 8 last p in
  let last := Z.land last 127 in
  let! dst := set_idx dst i last in
  let! rest := slice_from dst encoded_len in
  Ok (take encoded_len dst, rest).

(** The loop of [leb128u_u64_encode] over the first [n] bytes of the slice. *)
Fixpoint encode_loop_u (n : nat) (dst : list Z) (value : Z) : list Z :=
  match n, dst with
  | S n, _ :: dst => Z.lor (wrap 8 (Z.land value 127)) 128 :: encode_loop_u n dst (Z.shiftr value 7)
  | _, _ => dst
  end.

Definition leb128u_u64_encode (dst : list Z) (value : Z) : outcome E (list Z * list Z) :=
  let! encoded_len := leb128u_u64_encoded_len value in
  let dst := encode_loop_u encoded_len dst value in
  let! i := nsub encoded_len 1 in
  let! last := idx dst i in
  let! dst := set_idx dst i (Z.lxor last 128) in
  let! rest := slice_from dst encoded_len in
  Ok (take encoded_len dst, rest).
End Encode.

Section Decode.
Context {B : Build}.

(** ** Decoding *)

(** The inner loop of [leb128s_i64_decode], over the bytes of an overlong
    encoding; [src] is the part of the source not read yet. *)
Fixpoint decode_overlong_s (sign_mask b : Z) (src : list Z) : res (list Z) :=
  if Z.land b 128 =? 0 then Ok src
  else match src with
       | [] => Err TruncatedEncoding
       | b :: src =>
           if negb (Z.land (Z.lxor b sign_mask) 127 =? 0) then Err DecodeOverflow
           else decode_overlong_s sign_mask b src
       end.

Fixpoint decode_loop_s (src : list Z) (encoded_len value : Z) : res (Z * list Z) :=
  match src with
  | [] => Err TruncatedEncoding
  | b :: src =>
      let! t := ushl 64 (Z.land b 127) (7 * encoded_len) in
      let value := Z.lor value t in
      let encoded_len := encoded_len + 1 in
      if encoded_len =? div_ceil 64 7 then
        let! e := sign_extend_u 8 b ((64 - 1) mod 7) in
        if negb (Z.land (Z.lxor b e) 127 =? 0) then Err DecodeOverflow
        else
          let sign_mask := wrapping_sub 8 0 (Z.land (Z.shiftr b 6) 1) in
          let! src := decode_overlong_s sign_mask b src in
          Ok (swrap 64 value, src)
      else if Z.land b 128 =? 0 then
        let! value := sign_extend_u 64 value (7 * encoded_len - 1) in
        Ok (swrap 64 value, src)
      else decode_loop_s src encoded_len value
  end.

Definition leb128s_i64_decode (src : list Z) : res (Z * list Z) := decode_loop_s src 0 0.

Fixpoint decode_overlong_u (b : Z) (src : list Z) : res (list Z) :=
  if Z.land b 128 =? 0 then Ok src
  else match src with
       | [] => Err TruncatedEncoding
       | b :: src =>
           if negb (Z.land b 127 =? 0) then Err DecodeOverflow else decode_overlong_u b src
       end.

Fixpoint decode_loop_u (src : list Z) (encoded_len value : Z) : res (Z * list Z) :=
  match src with
  | [] => Err TruncatedEncoding
  | b :: src =>
      let! t := ushl 64 (Z.land b 127) (7 * encoded_len) in
      let value := Z.lor value t in
      let encoded_len := encoded_len + 1 in
      if encoded_len =? div_ceil 64 7 then
        let! t := ushr 8 (Z.land b 127) ((64 - 1) mod 7 + 1) in
        if negb (t =? 0) then Err DecodeOverflow
        else
          let! src := decode_overlong_u b src in
          Ok (value, src)
      else if Z.land b 128 =? 0 then Ok (value, src)
      else decode_loop_u src encoded_len value
  end.

Definition leb128u_u64_decode (src : list Z) : res (Z * list Z) := decode_loop_u src 0 0.

(** ** The format

    What a LEB128 decoder has to compute, independently of any integer width:
    the bytes up to and including the first one without the continuation bit,
    what follows them, and whether there is such a byte. *)
Fixpoint leb_scan (src : list Z) : list Z * list Z * bool :=
  match src with
  | [] => ([], [], false)
  | b :: src =>
      if b <? 128 then ([b], src, true)
      else let '(p, rest, t) := leb_scan src in (b :: p, rest, t)
  end.

(** The number that a byte sequence denotes, unsigned and signed. *)
Fixpoint leb_u (p : list Z) : Z :=
  match p with [] => 0 | b :: p => b mod 128 + 128 * leb_u p end.
Definition leb_s (p : list Z) : Z := swrap (7 * Z.of_nat (length p)) (leb_u p).

(** ** The decoders against the format *)

Lemma byte_cont b : u8 b → (Z.land b 128 =? 0) = (b <? 128).
Proof.
  intros Hb. pose proof (byte_forall (λ b, eqb (Z.land b 128 =? 0) (b <? 128)) ltac:(vm_compute; reflexivity) b Hb).
  by apply eqb_prop.
Qed.

Lemma leb_scan_app src p rest t : leb_scan src = (p, rest, t) → src = p ++ rest.
Proof.
  revert p rest t. induction src as [|b src IH]; intros p rest t; cbn [leb_scan]; [naive_solver|].
  zcase; [naive_solver|]. destruct (leb_scan src) as [[p' r'] t'] eqn:Hs.
  intros [= <- <- <-]. cbn. f_equal. eauto.
Qed.

Lemma leb_scan_prefix p rest :
  leb_scan p = (p, [], true) → leb_scan (p ++ rest) = (p, rest, true).
Proof.
  induction p as [|b p IH]; cbn [leb_scan app]; [done|].
  zcase; [naive_solver|]. destruct (leb_scan p) as [[p' r'] t'] eqn:Hs.
  intros [= -> -> ->]. by rewrite IH.
Qed.

Lemma leb_u_bound p : 0 ≤ leb_u p < 2 ^ (7 * Z.of_nat (length p)).
Proof.
  induction p as [|b p IH]; cbn [leb_u length]; [cbn; lia|].
  pose proof (Z.mod_pos_bound b 128).
  rewrite Nat2Z.inj_succ. replace (7 * Z.succ (Z.of_nat (length p))) with (7 + 7 * Z.of_nat (length p)) by lia.
  rewrite Z.pow_add_r by lia. change (2 ^ 7) with 128. lia.
Qed.

(** What the unsigned decoder is to answer for the bytes [p] of an encoding,
    denoting [v], that is complete if [t] is set. *)
Definition answer_u (v : Z) (rest : list Z) (t : bool) : res (Z * list Z) :=
  if v <? 2 ^ 64 then if t then Ok (v, rest) else Err TruncatedEncoding else Err DecodeOverflow.

Lemma decode_overlong_u_spec b src :
  Forall u8 (b :: src) →
  decode_overlong_u b src =
    if b <? 128 then Ok src
    else let '(p, rest, t) := leb_scan src in
         if leb_u p =? 0 then if t then Ok rest else Err TruncatedEncoding else Err DecodeOverflow.
Proof.
  revert b. induction src as [|b' src IH]; intros b [Hb Hsrc]%Forall_cons;
    cbn [decode_overlong_u]; rewrite byte_cont by done; destruct (b <? 128); [done..|].
  apply Forall_cons in Hsrc as Hsrc'. destruct Hsrc' as [Hb' Hsrc'].
  rewrite land_7f. cbn [leb_scan]. pose proof (Z.mod_pos_bound b' 128 ltac:(done)).
  destruct (Z.eqb_spec (b' mod 128) 0) as [H0|H0]; cbn [negb].
  - rewrite IH by done. destruct (b' <? 128); cbn [leb_u]; [by rewrite H0|].
    destruct (leb_scan src) as [[p rest] t]. cbn [leb_u]. rewrite H0.
    by destruct (Z.eqb_spec (leb_u p) 0), (Z.eqb_spec (0 + 128 * leb_u p) 0); try lia.
  - destruct (Z.ltb_spec b' 128); cbn [leb_u].
    + by zdec.
    + destruct (leb_scan src) as [[p rest] t]. cbn [leb_u]. pose proof (leb_u_bound p). by zdec.
Qed.

Lemma decode_loop_u_spec src k value :
  Forall u8 src → 0 ≤ k < 10 → in_u (7 * k) value →
  decode_loop_u src k value =
    let '(p, rest, t) := leb_scan src in answer_u (value + 2 ^ (7 * k) * leb_u p) rest t.
Proof.
  revert k value. induction src as [|b src IH]; intros k value Hsrc Hk Hv.
  { cbn [decode_loop_u leb_scan]. unfold answer_u. cbn [leb_u].
    assert (2 ^ (7 * k) ≤ 2 ^ 63) by (apply Z.pow_le_mono_r; lia).
    destruct Hv. by zdec. }
  apply Forall_cons in Hsrc as Hsrc'. destruct Hsrc' as [Hb Hsrc'].
  cbn [decode_loop_u leb_scan]. rewrite ushl_Ok by lia. cbn [obind]. rewrite land_7f.
  change (div_ceil 64 7) with 10. pose proof (Z.mod_pos_bound b 128 ltac:(done)) as Hm.
  rewrite byte_cont by done. destruct Hv as [Hv0 Hv1].
  destruct (Z.eqb_spec (k + 1) 10).
  - assert (k = 9) as -> by lia. change (7 * 9) with 63 in *.
    change ((64 - 1) mod 7 + 1) with 1. rewrite ushr_Ok by lia. cbn [obind].
    rewrite Z.shiftr_div_pow2, Z.shiftl_mul_pow2 by done. change (2 ^ 1) with 2.
    destruct (Z.eqb_spec (b mod 128 / 2) 0) as [H0|H0]; cbn [negb].
    + assert (b mod 128 < 2) by (apply Z.div_small_iff in H0; lia).
      rewrite wrap_small by (unfold in_u; lia).
      rewrite <-Z.shiftl_mul_pow2, lor_shiftl_add by (done || unfold in_u; lia).
      rewrite decode_overlong_u_spec by done. unfold answer_u.
      destruct (b <? 128); cbn [obind leb_u]; [zdec; do 2 f_equal; lia|].
      destruct (leb_scan src) as [[p rest] t]. cbn [leb_u]. pose proof (leb_u_bound p).
      destruct (Z.eqb_spec (leb_u p) 0) as [Hz|Hz].
      * rewrite Hz. zdec. destruct t; [|done]. cbn [obind]. do 2 f_equal. lia.
      * by zdec.
    + assert (2 ≤ b mod 128).
      { destruct (Z.le_gt_cases 2 (b mod 128)); [done|]. by rewrite Z.div_small in H0 by lia. }
      unfold answer_u. destruct (b <? 128); cbn [leb_u]; [by zdec|].
      destruct (leb_scan src) as [[p rest] t]. cbn [leb_u]. pose proof (leb_u_bound p). by zdec.
  - assert (2 ^ (7 * (k + 1)) = 128 * 2 ^ (7 * k)) as Hp.
    { replace (7 * (k + 1)) with (7 + 7 * k) by lia. by rewrite Z.pow_add_r by lia. }
    assert (2 ^ (7 * (k + 1)) ≤ 2 ^ 63) by (apply Z.pow_le_mono_r; lia).
    pose proof (pow2_pos (7 * k) ltac:(lia)).
    rewrite wrap_small by (rewrite Z.shiftl_mul_pow2 by lia; unfold in_u; nia).
    rewrite lor_shiftl_add by (unfold in_u; lia).
    destruct (b <? 128).
    + unfold answer_u. cbn [leb_u]. destruct (Z.ltb_spec (value + 2 ^ (7 * k) * (b mod 128 + 128 * 0)) (2 ^ 64)); [|nia]. do 2 f_equal. lia.
    + rewrite IH by (done || unfold in_u; nia).
      destruct (leb_scan src) as [[p rest] t]. cbn [leb_u]. f_equal. rewrite Hp. lia.
Qed.

(** The same for the signed decoder. *)
Definition fits_i64 (v : Z) : bool := (- 2 ^ 63 <=? v) && (v <? 2 ^ 63).
Definition answer_s (v : Z) (rest : list Z) (t : bool) : res (Z * list Z) :=
  if fits_i64 v then if t then Ok (v, rest) else Err TruncatedEncoding else Err DecodeOverflow.

Lemma fits_i64_true v : i64 v → fits_i64 v = true.
Proof. intros [??]. unfold fits_i64. change (64 - 1) with 63 in *. by zdec. Qed.

Lemma fits_swrap n v :
  64 ≤ n → in_u n v → fits_i64 (swrap n v) = (v <? 2 ^ 63) || (2 ^ n - 2 ^ 63 <=? v).
Proof.
  intros ? [??]. rewrite swrap_cases by (unfold in_u; lia). unfold fits_i64.
  assert (2 ^ 63 ≤ 2 ^ (n - 1)) by (apply Z.pow_le_mono_r; lia).
  assert (2 ^ n = 2 * 2 ^ (n - 1)) by (rewrite <-Z.pow_succ_r by lia; f_equal; lia).
  repeat zcase; cbn [andb orb]; try reflexivity; lia.
Qed.

(** The continuation bytes that keep a sign: all of their payload bits are
    copies of it. *)
Definition sign_fill (neg : bool) (p : list Z) : Z :=
  if neg then 2 ^ (7 * Z.of_nat (length p)) - 1 else 0.

Lemma sign_fill_cons neg b p :
  sign_fill neg (b :: p) = (if neg then 127 else 0) + 128 * sign_fill neg p.
Proof.
  unfold sign_fill. destruct neg; [|done]. cbn [length]. rewrite Nat2Z.inj_succ.
  replace (7 * Z.succ (Z.of_nat (length p))) with (7 + 7 * Z.of_nat (length p)) by lia.
  rewrite Z.pow_add_r by lia. change (2 ^ 7) with 128. lia.
Qed.

Lemma byte_sign_payload (neg : bool) b :
  u8 b → (Z.land (Z.lxor b (if neg then 255 else 0)) 127 =? 0) = (b mod 128 =? if neg then 127 else 0).
Proof.
  intros Hb. pose proof (byte_forall (λ b, eqb (Z.land (Z.lxor b (if neg then 255 else 0)) 127 =? 0)
    (b mod 128 =? if neg then 127 else 0)) ltac:(destruct neg; vm_compute; reflexivity) b Hb).
  by apply eqb_prop.
Qed.

Lemma decode_overlong_s_spec (neg : bool) b src :
  Forall u8 (b :: src) →
  decode_overlong_s (if neg then 255 else 0) b src =
    if b <? 128 then Ok src
    else let '(p, rest, t) := leb_scan src in
         if leb_u p =? sign_fill neg p
         then if t then Ok rest else Err TruncatedEncoding else Err DecodeOverflow.
Proof.
  revert b. induction src as [|b' src IH]; intros b [Hb Hsrc]%Forall_cons;
    cbn [decode_overlong_s]; rewrite byte_cont by done; destruct (b <? 128); [done| |done|].
  { cbn. by destruct neg. }
  apply Forall_cons in Hsrc as Hsrc'. destruct Hsrc' as [Hb' Hsrc'].
  rewrite byte_sign_payload by done. cbn [leb_scan].
  pose proof (Z.mod_pos_bound b' 128 ltac:(done)).
  set (s := if neg then 127 else 0). assert (0 ≤ s < 128) by (destruct neg; unfold s; lia).
  assert (∀ p, (leb_u (b' :: p) =? sign_fill neg (b' :: p)) =
    (b' mod 128 =? s) && (leb_u p =? sign_fill neg p)) as Hcons.
  { intros p. rewrite sign_fill_cons. fold s. cbn [leb_u].
    repeat zcase; cbn [andb]; try reflexivity; lia. }
  destruct (b' mod 128 =? s); cbn [negb].
  - rewrite IH by done. destruct (b' <? 128); [rewrite Hcons; by destruct neg|].
    destruct (leb_scan src) as [[p rest] t]. by rewrite Hcons.
  - destruct (b' <? 128); [by rewrite Hcons|].
    destruct (leb_scan src) as [[p rest] t]. by rewrite Hcons.
Qed.

(** The check of the tenth byte: its payload has to be a sign extension of
    its lowest bit, and the mask for what follows is derived from bit 6. *)
Lemma byte_tenth b :
  u8 b →
  (Z.land (Z.lxor b (wrap 8 (swrap 1 b))) 127 =? 0) = (b mod 128 =? 0) || (b mod 128 =? 127).
Proof.
  intros Hb. pose proof (byte_forall (λ b, eqb (Z.land (Z.lxor b (wrap 8 (swrap 1 b))) 127 =? 0)
    ((b mod 128 =? 0) || (b mod 128 =? 127))) ltac:(vm_compute; reflexivity) b Hb).
  by apply eqb_prop.
Qed.

Lemma byte_sign_mask b :
  u8 b → b mod 128 = 0 ∨ b mod 128 = 127 →
  wrapping_sub 8 0 (Z.land (Z.shiftr b 6) 1) = if b mod 128 =? 127 then 255 else 0.
Proof.
  intros Hb Hm. pose proof (byte_forall (λ b, (negb ((b mod 128 =? 0) || (b mod 128 =? 127)))
    || (wrapping_sub 8 0 (Z.land (Z.shiftr b 6) 1) =? if b mod 128 =? 127 then 255 else 0))
    ltac:(vm_compute; reflexivity) b Hb) as H.
  cbv beta in H. apply orb_prop in H as [H|H]; [|by apply Z.eqb_eq].
  apply negb_true_iff in H. destruct Hm as [E|E]; rewrite E in H; discriminate H.
Qed.

Lemma tenth_byte_value value b :
  in_u 63 value →
  Z.lor value (wrap 64 (Z.shiftl (b mod 128) 63)) = value + (b mod 128) mod 2 * 2 ^ 63.
Proof.
  intros Hv. replace (wrap 64 (Z.shiftl (b mod 128) 63)) with (Z.shiftl ((b mod 128) mod 2) 63).
  - by rewrite lor_shiftl_add.
  - rewrite !Z.shiftl_mul_pow2 by done. unfold wrap. change (2 ^ 64) with (2 * 2 ^ 63).
    by rewrite Z.mul_mod_distr_r.
Qed.

(** The last lap of the signed decoder, at its tenth byte [b]: [n] is the
    number of payload bits of the whole encoding. *)
Lemma tenth_range value b p :
  in_u 63 value →
  fits_i64 (swrap (7 * (9 + Z.of_nat (length (b :: p)))) (value + 2 ^ 63 * leb_u (b :: p))) =
    (b mod 128 =? 0) && (leb_u p =? 0) || (b mod 128 =? 127) && (leb_u p =? sign_fill true p).
Proof.
  intros [??]. pose proof (leb_u_bound p). pose proof (Z.mod_pos_bound b 128 ltac:(done)).
  cbn [leb_u length]. unfold sign_fill. set (m := Z.of_nat (length p)) in *.
  replace (7 * (9 + Z.of_nat (S (length p)))) with (70 + 7 * m) by lia.
  assert (2 ^ (70 + 7 * m) = 2 ^ 63 * 128 * 2 ^ (7 * m)) as Hn by (rewrite Z.pow_add_r by lia; done).
  rewrite fits_swrap by (unfold in_u; lia). rewrite Hn.
  repeat zcase; cbn [andb orb]; try reflexivity; lia.
Qed.

Lemma tenth_answer value b p (rest : list Z) (t : bool) :
  in_u 63 value → b mod 128 = 0 ∨ b mod 128 = 127 →
  (let! src := (if leb_u p =? sign_fill (b mod 128 =? 127) p
      then if t then Ok rest else Err TruncatedEncoding else Err DecodeOverflow : res (list Z)) in
   Ok (swrap 64 (value + (b mod 128) mod 2 * 2 ^ 63), src)) =
  answer_s (swrap (7 * (9 + Z.of_nat (length (b :: p)))) (value + 2 ^ 63 * leb_u (b :: p))) rest t.
Proof.
  intros Hv Hs. unfold answer_s. rewrite tenth_range by done.
  pose proof (leb_u_bound p) as Hp. destruct Hv as [Hv0 Hv1].
  assert (2 ^ (7 * (9 + Z.of_nat (length (b :: p)))) = 2 ^ 63 * 128 * 2 ^ (7 * Z.of_nat (length p))) as Hn.
  { cbn [length]. replace (7 * (9 + Z.of_nat (S (length p)))) with (70 + 7 * Z.of_nat (length p)) by lia.
    rewrite Z.pow_add_r by lia. done. }
  assert (0 < 7 * (9 + Z.of_nat (length (b :: p)))) as Hpos by (cbn [length]; lia).
  assert (2 ^ 64 ≤ 2 ^ (7 * (9 + Z.of_nat (length (b :: p))) - 1)) as Hhalf
    by (apply Z.pow_le_mono_r; cbn [length]; lia).
  assert (2 ^ (7 * (9 + Z.of_nat (length (b :: p)))) =
    2 * 2 ^ (7 * (9 + Z.of_nat (length (b :: p))) - 1)) as Hdbl
    by (rewrite <-Z.pow_succ_r by lia; f_equal; lia).
  set (n := 7 * (9 + Z.of_nat (length (b :: p)))) in *. cbn [leb_u].
  destruct Hs as [Hs|Hs]; rewrite Hs; cbn [Z.eqb Pos.eqb andb orb]; unfold sign_fill.
  - rewrite orb_false_r. destruct (Z.eqb_spec (leb_u p) 0) as [Hz|Hz]; [|done].
    destruct t; [|done]. cbn [obind]. do 2 f_equal. rewrite Hz.
    rewrite !swrap_small; unfold in_i; change (64 - 1) with 63; change (0 mod 2) with 0; lia.
  - destruct (Z.eqb_spec (leb_u p) (2 ^ (7 * Z.of_nat (length p)) - 1)) as [Hz|Hz]; [|done].
    destruct t; [|done]. cbn [obind]. do 2 f_equal. rewrite Hz.
    rewrite (swrap_cases n) by (unfold in_u; lia). rewrite (swrap_cases 64) by (unfold in_u; change (127 mod 2) with 1; lia).
    change (64 - 1) with 63. change (127 mod 2) with 1. zdec. lia.
Qed.

Lemma decode_loop_s_spec src k value :
  Forall u8 src → 0 ≤ k < 10 → in_u (7 * k) value →
  decode_loop_s src k value =
    let '(p, rest, t) := leb_scan src in
    answer_s (swrap (7 * (k + Z.of_nat (length p))) (value + 2 ^ (7 * k) * leb_u p)) rest t.
Proof.
  revert k value. induction src as [|b src IH]; intros k value Hsrc Hk Hv.
  { cbn [decode_loop_s leb_scan length leb_u]. unfold answer_s. rewrite fits_i64_true; [done|].
    rewrite Z.mul_0_r, Z.add_0_r, Z.add_0_r. destruct (Z.eq_dec k 0) as [->|].
    - assert (value = 0) as -> by (destruct Hv; cbn in *; lia). by vm_compute.
    - apply in_i_mono with (7 * k); [lia|]. apply swrap_in_i. lia. }
  apply Forall_cons in Hsrc as Hsrc'. destruct Hsrc' as [Hb Hsrc'].
  cbn [decode_loop_s leb_scan]. rewrite ushl_Ok by lia. cbn [obind]. rewrite land_7f.
  change (div_ceil 64 7) with 10. pose proof (Z.mod_pos_bound b 128 ltac:(done)) as Hm.
  rewrite byte_cont by done. destruct Hv as [Hv0 Hv1].
  destruct (Z.eqb_spec (k + 1) 10).
  - assert (k = 9) as -> by lia. change (7 * 9) with 63 in *. change ((64 - 1) mod 7) with 0.
    rewrite sign_extend_u_spec by (done || lia). cbn [obind]. change (0 + 1) with 1.
    rewrite byte_tenth, tenth_byte_value by done.
    destruct (decide (b mod 128 = 0 ∨ b mod 128 = 127)) as [Hs|Hs].
    + rewrite byte_sign_mask by done.
      rewrite (proj2 (orb_true_iff _ _)) by (rewrite !Z.eqb_eq; done). cbn [negb].
      rewrite decode_overlong_s_spec by done. destruct (b <? 128).
      * rewrite <-tenth_answer by done. by destruct Hs as [->| ->].
      * destruct (leb_scan src) as [[p rest] t]. by apply tenth_answer.
    + rewrite (proj2 (orb_false_iff _ _)) by (rewrite !Z.eqb_neq; lia). cbn [negb].
      assert (∀ p rest t, answer_s (swrap (7 * (9 + Z.of_nat (length (b :: p))))
        (value + 2 ^ 63 * leb_u (b :: p))) rest t = Err DecodeOverflow) as Hbad.
      { intros p rest t. unfold answer_s. rewrite tenth_range by done. by zdec. }
      destruct (b <? 128); [by rewrite Hbad|]. destruct (leb_scan src) as [[p rest] t]. by rewrite Hbad.
  - assert (2 ^ (7 * (k + 1)) = 128 * 2 ^ (7 * k)) as Hp.
    { replace (7 * (k + 1)) with (7 + 7 * k) by lia. by rewrite Z.pow_add_r by lia. }
    assert (2 ^ (7 * (k + 1)) ≤ 2 ^ 63) by (apply Z.pow_le_mono_r; lia).
    pose proof (pow2_pos (7 * k) ltac:(lia)).
    rewrite wrap_small by (rewrite Z.shiftl_mul_pow2 by lia; unfold in_u; nia).
    rewrite lor_shiftl_add by (unfold in_u; lia).
    assert (in_u (7 * (k + 1)) (value + b mod 128 * 2 ^ (7 * k))) as Hv' by (unfold in_u; nia).
    destruct (b <? 128).
    + rewrite sign_extend_u_spec by (destruct Hv'; unfold in_u; lia). cbn [obind].
      replace (7 * (k + 1) - 1 + 1) with (7 * (k + 1)) by lia.
      pose proof (swrap_in_i (7 * (k + 1)) (value + b mod 128 * 2 ^ (7 * k)) ltac:(lia)) as Hi.
      apply (in_i_mono _ 64) in Hi; [|lia]. rewrite swrap_wrap_id by done.
      cbn [length leb_u]. replace (7 * (k + Z.of_nat 1)) with (7 * (k + 1)) by lia.
      replace (value + 2 ^ (7 * k) * (b mod 128 + 128 * 0)) with (value + b mod 128 * 2 ^ (7 * k)) by lia.
      unfold answer_s. by rewrite fits_i64_true.
    + rewrite IH by (done || lia). destruct (leb_scan src) as [[p rest] t]. cbn [length leb_u].
      do 2 f_equal; [lia|]. rewrite Hp. lia.
Qed.

(** ** The encoders *)

(** The [n] low groups of seven bits of [v], each with the continuation bit. *)
Fixpoint leb_bytes (n : nat) (v : Z) : list Z :=
  match n with O => [] | S n => v mod 128 + 128 :: leb_bytes n (v / 128) end.

Lemma payload_byte v : Z.lor (wrap 8 (Z.land v 127)) 128 = v mod 128 + 128.
Proof.
  rewrite land_7f. pose proof (Z.mod_pos_bound v 128 ltac:(done)).
  rewrite wrap_small by (unfold in_u; lia). by rewrite (lor_shiftl_add _ 1 7) by (unfold in_u; lia).
Qed.

Lemma length_leb_bytes n v : length (leb_bytes n v) = n.
Proof. revert v. induction n as [|n IH]; intros; cbn; [done|]. by rewrite IH. Qed.

Lemma leb_bytes_snoc n v :
  leb_bytes (S n) v = leb_bytes n v ++ [(v / 2 ^ (7 * Z.of_nat n)) mod 128 + 128].
Proof.
  revert v. induction n as [|n IH]; intros v; [cbn; by rewrite Z.div_1_r|].
  change (leb_bytes (S (S n)) v) with (v mod 128 + 128 :: leb_bytes (S n) (v / 128)).
  rewrite IH, Z.div_div by (done || apply pow2_pos; lia). cbn [leb_bytes app]. repeat f_equal.
  replace (7 * Z.of_nat (S n)) with (7 + 7 * Z.of_nat n) by lia. by rewrite Z.pow_add_r by lia.
Qed.

Lemma leb_bytes_u8 n v : Forall u8 (leb_bytes n v).
Proof.
  revert v. induction n as [|n IH]; intros v; cbn [leb_bytes]; constructor; [|done].
  pose proof (Z.mod_pos_bound v 128 ltac:(done)). unfold in_u. lia.
Qed.

Lemma leb_scan_bytes n v b : u8 b → b < 128 →
  leb_scan (leb_bytes n v ++ [b]) = (leb_bytes n v ++ [b], [], true).
Proof.
  intros ??. revert v. induction n as [|n IH]; intros v; cbn [leb_bytes app leb_scan]; [by zdec|].
  pose proof (Z.mod_pos_bound v 128 ltac:(done)). zdec. by rewrite IH.
Qed.

Lemma leb_u_bytes n v b : 0 ≤ b < 128 →
  leb_u (leb_bytes n v ++ [b]) = v mod 2 ^ (7 * Z.of_nat n) + 2 ^ (7 * Z.of_nat n) * b.
Proof.
  intros Hb. revert v. induction n as [|n IH]; intros v; cbn [leb_bytes app leb_u].
  - change (2 ^ (7 * Z.of_nat 0)) with 1. rewrite Z.mod_1_r, (Z.mod_small b) by done. lia.
  - rewrite IH. replace (7 * Z.of_nat (S n)) with (7 + 7 * Z.of_nat n) by lia.
    rewrite Z.pow_add_r by lia. change (2 ^ 7) with 128.
    pose proof (pow2_pos (7 * Z.of_nat n) ltac:(lia)).
    rewrite Z.rem_mul_r by lia.
    replace (v mod 128 + 128) with (v mod 128 + 1 * 128) by lia.
    rewrite Z.mod_add, Z.mod_mod by lia. lia.
Qed.

Lemma encode_loop_u_spec n dst v :
  (n ≤ length dst)%nat → encode_loop_u n dst v = leb_bytes n v ++ drop n dst.
Proof.
  revert dst v. induction n as [|n IH]; intros [|x dst] v Hn; cbn [length encode_loop_u leb_bytes] in *;
    [done|done|lia|].
  rewrite payload_byte, Z.shiftr_div_pow2, IH by lia. done.
Qed.

Lemma length_encode_loop_u n dst v : length (encode_loop_u n dst v) = length dst.
Proof. revert dst v. induction n as [|n IH]; intros [|x dst] v; cbn; [done..|]. by rewrite IH. Qed.

(** The loop of the signed encoder runs for [n] rounds, the number of groups of
    seven bits needed for the bits not written yet, and panics if the slice
    is shorter. *)
Lemma encode_loop_s_spec {E} n dst v bits sig len :
  (n = 0%nat ∧ sig ≤ bits) ∨ (bits + 7 * Z.of_nat n - 7 < sig ≤ bits + 7 * Z.of_nat n) →
  encode_loop_s (E:=E) dst v bits sig len =
    if (n <=? length dst)%nat
    then Ok (leb_bytes n v ++ drop n dst, bits + 7 * Z.of_nat n, (len + n)%nat) else Panic.
Proof.
  revert dst v bits len. induction n as [|n IH]; intros dst v bits len Hn.
  - destruct dst; cbn [encode_loop_s]; zdec; cbn [leb_bytes app]; rewrite drop_0; do 3 f_equal; lia.
  - destruct dst as [|x dst]; cbn [encode_loop_s length]; zdec; [done|].
    rewrite IH by lia. cbn [Nat.leb]. destruct (n <=? length dst)%nat; [|done].
    cbn [obind leb_bytes]. rewrite payload_byte, Z.shiftr_div_pow2 by done.
    change (2 ^ 7) with 128. cbn [app drop]. f_equal. f_equal; [f_equal; lia|lia].
Qed.

(** Overwriting the last byte written and splitting the slice behind it. *)
Lemma patch_last {E} n v x b (tl : list Z) :
  set_idx (E:=E) ((leb_bytes n v ++ [x]) ++ tl) n b = Ok ((leb_bytes n v ++ [b]) ++ tl).
Proof.
  rewrite set_idx_Ok by (rewrite !length_app, length_leb_bytes; cbn; lia). f_equal.
  rewrite insert_app_l by (rewrite length_app, length_leb_bytes; cbn; lia). f_equal.
  rewrite <-(length_leb_bytes n v) at 1. apply insert_snoc.
Qed.

Lemma split_written {E} n v b (tl : list Z) :
  (let! rest := slice_from ((leb_bytes n v ++ [b]) ++ tl) (S n) in
   Ok (take (S n) ((leb_bytes n v ++ [b]) ++ tl), rest)) = Ok (E:=E) (leb_bytes n v ++ [b], tl).
Proof.
  assert (length (leb_bytes n v ++ [b]) = S n) as Hl by (rewrite length_app, length_leb_bytes; cbn; lia).
  rewrite slice_from_Ok by (rewrite length_app; lia). cbn [obind].
  by rewrite take_app_length', drop_app_length' by done.
Qed.

Lemma div_ceil_7 b : 1 ≤ b → ∃ n, div_ceil b 7 = Z.of_nat (S n) ∧ 7 * Z.of_nat n < b ≤ 7 * Z.of_nat (S n).
Proof.
  intros. unfold div_ceil. exists (Z.to_nat ((b + 7 - 1) / 7 - 1)).
  pose proof (Z.div_mod (b + 7 - 1) 7). pose proof (Z.mod_pos_bound (b + 7 - 1) 7).
  assert (1 ≤ (b + 7 - 1) / 7) by (apply Z.div_le_lower_bound; lia). lia.
Qed.

(** What a successful encoding of [v] is. *)
Definition encodes_u (v : Z) (bs : list Z) : Prop :=
  Forall u8 bs ∧ leb_scan bs = (bs, [], true) ∧ leb_u bs = v.
Definition encodes_s (v : Z) (bs : list Z) : Prop :=
  Forall u8 bs ∧ leb_scan bs = (bs, [], true) ∧ leb_s bs = v.

Lemma leb128u_u64_encode_spec {E} dst v :
  u64 v → ∃ n, leb128u_u64_encoded_len (E:=E) v = Ok n ∧ (1 ≤ n ≤ 10)%nat ∧
    if (n <=? length dst)%nat
    then ∃ bs, leb128u_u64_encode (E:=E) dst v = Ok (bs, drop n dst) ∧ length bs = n ∧ encodes_u v bs
    else leb128u_u64_encode (E:=E) dst v = Panic.
Proof.
  intros Hv. unfold leb128u_u64_encode, leb128u_u64_encoded_len.
  rewrite significant_bits_u_spec by done. cbn [obind].
  pose proof (Z.log2_nonneg v). destruct Hv as [Hv0 Hv1].
  destruct (div_ceil_7 (Z.log2 v + 1)) as (n & -> & Hn); [lia|]. rewrite Nat2Z.id.
  assert (v < 2 ^ (7 * Z.of_nat (S n))) as Hvn.
  { destruct (Z.eq_dec v 0) as [->|]; [by apply pow2_pos; lia|]. apply Z.log2_lt_pow2; lia. }
  assert (Z.log2 v < 64).
  { destruct (Z.eq_dec v 0) as [->|]; [done|]. apply Z.log2_lt_pow2; lia. }
  eexists; split; [done|]. split; [lia|]. cbn [obind]. rewrite nsub_Ok by lia.
  replace (S n - 1)%nat with n by lia. cbn [obind].
  destruct (Nat.leb_spec (S n) (length dst)); [|].
  - rewrite encode_loop_u_spec by done. rewrite leb_bytes_snoc.
    set (b := (v / 2 ^ (7 * Z.of_nat n)) mod 128).
    assert (0 ≤ b < 128) as Hb by (apply Z.mod_pos_bound; done).
    erewrite idx_Ok; last first.
    { rewrite lookup_app_l by (rewrite length_app, length_leb_bytes; cbn; lia).
      rewrite lookup_app_r, length_leb_bytes, Nat.sub_diag by (rewrite length_leb_bytes; lia). done. }
    cbn [obind]. assert (Z.lxor (b + 128) 128 = b) as ->.
    { change (b + 128) with (b + 1 * 2 ^ 7). change 128 with (Z.shiftl 1 7).
      rewrite <-(lor_shiftl_add b 1 7), <-Z.lxor_lor by (done || by apply land_shiftl_disjoint).
      by rewrite Z.lxor_assoc, Z.lxor_nilpotent, Z.lxor_0_r. }
    rewrite patch_last. cbn [obind]. rewrite split_written. eexists; split; [done|].
    split; [rewrite length_app, length_leb_bytes; cbn; lia|]. split; [|split].
    + apply Forall_app. split; [apply leb_bytes_u8|]. repeat constructor; lia.
    + apply leb_scan_bytes; unfold in_u; lia.
    + rewrite leb_u_bytes by done. unfold b.
      replace (7 * Z.of_nat (S n)) with (7 * Z.of_nat n + 7) in Hvn by lia.
      rewrite Z.pow_add_r in Hvn by lia. change (2 ^ 7) with 128 in Hvn.
      pose proof (pow2_pos (7 * Z.of_nat n) ltac:(lia)).
      rewrite (Z.mod_small (v / _)) by (split; [apply Z.div_pos|apply Z.div_lt_upper_bound]; lia).
      pose proof (Z.div_mod v (2 ^ (7 * Z.of_nat n))). lia.
  - unfold idx. rewrite lookup_ge_None_2; [done|]. rewrite length_encode_loop_u. lia.
Qed.

(** The last byte of the signed encoder, with [n] groups before it: sign
    extending its [s - 7n] significant bits gives the top of the value. *)
Lemma sign_last n s v :
  i64 v → in_i s v → s ≤ 64 → 7 * Z.of_nat n < s ≤ 7 * Z.of_nat n + 7 →
  swrap (s - 7 * Z.of_nat n) ((wrap 64 v / 2 ^ (7 * Z.of_nat n)) mod 128 + 128)
    = v / 2 ^ (7 * Z.of_nat n).
Proof.
  intros _ [Hlo Hhi] ? ?. set (m := 7 * Z.of_nat n) in *. set (q := s - m).
  pose proof (pow2_pos m ltac:(lia)).
  rewrite (swrap_congr q _ (v / 2 ^ m)).
  - apply swrap_small; [lia|]. unfold in_i.
    replace (2 ^ (s - 1)) with (2 ^ m * 2 ^ (q - 1)) in * by (rewrite <-Z.pow_add_r by lia; f_equal; lia).
    split; [apply Z.div_le_lower_bound|apply Z.div_lt_upper_bound]; lia.
  - lia.
  - unfold wrap. pose proof (Z.div_mod v (2 ^ 64) ltac:(done)) as Hv.
    assert (v mod 2 ^ 64 = v + - (v / 2 ^ 64) * 2 ^ (64 - m) * 2 ^ m) as ->.
    { rewrite <-Z.mul_assoc, <-Z.pow_add_r by lia. replace (64 - m + m) with 64 by lia. lia. }
    rewrite Z.div_add by lia. set (y := v / 2 ^ m + - (v / 2 ^ 64) * 2 ^ (64 - m)).
    exists (- (v / 2 ^ 64) * 2 ^ (64 - m - q) + (1 - y / 128) * 2 ^ (7 - q)).
    rewrite Z.mul_add_distr_r, <-!Z.mul_assoc, <-!Z.pow_add_r by lia.
    replace (64 - m - q + q) with (64 - m) by lia. replace (7 - q + q) with 7 by lia.
    pose proof (Z.div_mod y 128 ltac:(done)). unfold y in *. change (2 ^ 7) with 128. lia.
Qed.

Lemma leb128s_i64_encode_spec {E} dst v :
  i64 v → ∃ n, leb128s_i64_encoded_len (E:=E) v = Ok n ∧ (1 ≤ n ≤ 10)%nat ∧
    if (n <=? length dst)%nat
    then ∃ bs, leb128s_i64_encode (E:=E) dst v = Ok (bs, drop n dst) ∧ length bs = n ∧ encodes_s v bs
    else leb128s_i64_encode (E:=E) dst v = Panic.
Proof.
  intros Hv. unfold leb128s_i64_encode, leb128s_i64_encoded_len.
  destruct (significant_bits_s_spec (E:=E) 64 ltac:(done) v Hv) as (s & -> & Hs & Hsv & _).
  cbn [obind]. destruct (div_ceil_7 s) as (n & -> & Hn); [lia|]. rewrite Nat2Z.id.
  eexists; split; [done|]. split; [lia|].
  rewrite (encode_loop_s_spec (S n)) by lia. destruct (Nat.leb_spec (S n) (length dst)); [|done].
  cbn [obind]. rewrite nsub_Ok by lia. replace (0 + S n - 1)%nat with n by lia.
  replace (0 + S n)%nat with (S n) by lia. cbn [obind]. rewrite leb_bytes_snoc.
  set (x := (wrap 64 v / 2 ^ (7 * Z.of_nat n)) mod 128).
  assert (0 ≤ x < 128) as Hx by (apply Z.mod_pos_bound; done).
  erewrite idx_Ok; last first.
  { rewrite lookup_app_l by (rewrite length_app, length_leb_bytes; cbn; lia).
    rewrite lookup_app_r, length_leb_bytes, Nat.sub_diag by (rewrite length_leb_bytes; lia). done. }
  cbn [obind]. ostep. rewrite sign_extend_u_spec by (unfold in_u; lia). cbn [obind].
  replace (7 - (0 + 7 * Z.of_nat (S n) - s) - 1 + 1) with (s - 7 * Z.of_nat n) by lia.
  unfold x. rewrite sign_last by (done || lia). rewrite land_7f.
  rewrite patch_last. cbn [obind]. rewrite split_written.
  set (y := v / 2 ^ (7 * Z.of_nat n)).
  assert (wrap 8 y mod 128 = y mod 128) as -> by apply (wrap_wrap_le 7 8 y ltac:(lia)).
  assert (0 ≤ y mod 128 < 128) by (apply Z.mod_pos_bound; done).
  eexists; split; [done|]. split; [rewrite length_app, length_leb_bytes; cbn; lia|].
  split; [|split].
  - apply Forall_app. split; [apply leb_bytes_u8|]. repeat constructor; lia.
  - apply leb_scan_bytes; unfold in_u; lia.
  - unfold leb_s. rewrite length_app, length_leb_bytes, leb_u_bytes by done. cbn [length].
    replace (7 * Z.of_nat (n + 1)) with (7 * Z.of_nat n + 7) by lia.
    change (wrap 64 v mod _) with (wrap (7 * Z.of_nat n) (wrap 64 v)).
    rewrite wrap_wrap_le by lia.
    assert (wrap (7 * Z.of_nat n) v + 2 ^ (7 * Z.of_nat n) * (y mod 128) = wrap (7 * Z.of_nat n + 7) v) as ->.
    { unfold wrap, y. pose proof (pow2_pos (7 * Z.of_nat n) ltac:(lia)).
      rewrite (Z.pow_add_r _ _ 7) by lia. by rewrite Z.rem_mul_r by lia. }
    apply swrap_wrap_id; [lia|]. apply in_i_mono with s; [lia|done].
Qed.

(** ** The decoders as a whole *)

Lemma decode_u_eq src :
  Forall u8 src →
  leb128u_u64_decode src = let '(p, rest, t) := leb_scan src in answer_u (leb_u p) rest t.
Proof.
  intros. unfold leb128u_u64_decode. rewrite decode_loop_u_spec by done.
  destruct (leb_scan src) as [[p rest] t]. f_equal. cbn. lia.
Qed.

Lemma decode_s_eq src :
  Forall u8 src →
  leb128s_i64_decode src = let '(p, rest, t) := leb_scan src in answer_s (leb_s p) rest t.
Proof.
  intros. unfold leb128s_i64_decode. rewrite decode_loop_s_spec by done.
  destruct (leb_scan src) as [[p rest] t]. unfold leb_s. do 2 f_equal. cbn -[leb_u]. lia.
Qed.

Lemma decode_encodes_u v bs rest :
  u64 v → encodes_u v bs → Forall u8 rest → leb128u_u64_decode (bs ++ rest) = Ok (v, rest).
Proof.
  intros [??] (Hbs & Hscan & <-) Hr. rewrite decode_u_eq by (apply Forall_app; done).
  rewrite leb_scan_prefix by done. unfold answer_u. by zdec.
Qed.

Lemma decode_encodes_s v bs rest :
  i64 v → encodes_s v bs → Forall u8 rest → leb128s_i64_decode (bs ++ rest) = Ok (v, rest).
Proof.
  intros Hv (Hbs & Hscan & <-) Hr. rewrite decode_s_eq by (apply Forall_app; done).
  rewrite leb_scan_prefix by done. unfold answer_s. by rewrite fits_i64_true.
Qed.

(** What a decoder returns is a suffix of its input, a strict one. *)
Lemma decode_u_inv src v rest :
  Forall u8 src → leb128u_u64_decode src = Ok (v, rest) →
  u64 v ∧ ∃ p, src = p ++ rest ∧ p ≠ [].
Proof.
  intros Hsrc. rewrite decode_u_eq by done. destruct (leb_scan src) as [[p r] t] eqn:Hs.
  unfold answer_u. destruct (Z.ltb_spec (leb_u p) (2 ^ 64)); [|done]. destruct t; [|done].
  intros [= <- <-]. pose proof (leb_u_bound p). split; [unfold in_u; lia|].
  exists p. split; [by eapply leb_scan_app|]. intros ->.
  destruct src as [|b src]; cbn [leb_scan] in Hs; [done|].
  destruct (b <? 128); [done|]. by destruct (leb_scan src) as [[??]?].
Qed.

Lemma decode_s_inv src v rest :
  Forall u8 src → leb128s_i64_decode src = Ok (v, rest) →
  i64 v ∧ ∃ p, src = p ++ rest ∧ p ≠ [].
Proof.
  intros Hsrc. rewrite decode_s_eq by done. destruct (leb_scan src) as [[p r] t] eqn:Hs.
  unfold answer_s. destruct (fits_i64 (leb_s p)) eqn:Hf; [|done]. destruct t; [|done].
  intros [= <- <-]. unfold fits_i64 in Hf. apply andb_true_iff in Hf as [?%Z.leb_le ?%Z.ltb_lt].
  split; [done|]. exists p. split; [by eapply leb_scan_app|]. intros ->.
  destruct src as [|b src]; cbn [leb_scan] in Hs; [done|].
  destruct (b <? 128); [done|]. by destruct (leb_scan src) as [[??]?].
Qed.

(** A decoder never panics: it answers with a value or with one of the two
    errors. *)
Lemma decode_u_total src : Forall u8 src →
  (∃ r, leb128u_u64_decode src = Ok r) ∨ (∃ e, leb128u_u64_decode src = Err e).
Proof.
  intros. rewrite decode_u_eq by done. destruct (leb_scan src) as [[p r] t].
  unfold answer_u. destruct (_ <? _); [destruct t|]; eauto.
Qed.

Lemma decode_s_total src : Forall u8 src →
  (∃ r, leb128s_i64_decode src = Ok r) ∨ (∃ e, leb128s_i64_decode src = Err e).
Proof.
  intros. rewrite decode_s_eq by done. destruct (leb_scan src) as [[p r] t].
  unfold answer_s. destruct (fits_i64 _); [destruct t|]; eauto.
Qed.

End Decode.

(** ** Properties *)

Section Properties.
Context {B : Build} {E : Type}.

(** What the unsigned encoder writes at the front of a large enough buffer is
    as long as announced, at most ten bytes, leaves the rest of the buffer alone
    and decodes to the number, whatever follows it. *)
Lemma leb128u_roundtrip dst v rest :
  u64 v → (10 ≤ length dst)%nat → Forall u8 rest →
  ∃ bs, leb128u_u64_encode (E:=E) dst v = Ok (bs, drop (length bs) dst) ∧
    leb128u_u64_encoded_len (E:=E) v = Ok (length bs) ∧ (1 ≤ length bs ≤ 10)%nat ∧
    leb128u_u64_decode (bs ++ rest) = Ok (v, rest).
Proof.
  intros Hv Hd Hr. destruct (leb128u_u64_encode_spec (E:=E) dst v Hv) as (n & Hn & ? & Henc).
  rewrite (proj2 (Nat.leb_le n (length dst))) in Henc by lia. destruct Henc as (bs & Henc & <- & Hbs).
  exists bs. split_and!; try (done || lia). by apply decode_encodes_u.
Qed.

(** The same for the signed encoder. *)
Lemma leb128s_roundtrip dst v rest :
  i64 v → (10 ≤ length dst)%nat → Forall u8 rest →
  ∃ bs, leb128s_i64_encode (E:=E) dst v = Ok (bs, drop (length bs) dst) ∧
    leb128s_i64_encoded_len (E:=E) v = Ok (length bs) ∧ (1 ≤ length bs ≤ 10)%nat ∧
    leb128s_i64_decode (bs ++ rest) = Ok (v, rest).
Proof.
  intros Hv Hd Hr. destruct (leb128s_i64_encode_spec (E:=E) dst v Hv) as (n & Hn & ? & Henc).
  rewrite (proj2 (Nat.leb_le n (length dst))) in Henc by lia. destruct Henc as (bs & Henc & <- & Hbs).
  exists bs. split_and!; try (done || lia). by apply decode_encodes_s.
Qed.

(** On any bytes the unsigned decoder agrees with the definition of the
    format: it reads up to the first byte without the continuation bit, and
    returns the number and the bytes after it, or an error if that byte is
    missing or the number does not fit into 64 bits.  It never panics. *)
Lemma leb128u_decode_correct src :
  Forall u8 src →
  leb128u_u64_decode src = (let '(p, rest, t) := leb_scan src in
    if leb_u p <? 2 ^ 64 then if t then Ok (leb_u p, rest) else Err TruncatedEncoding
    else Err DecodeOverflow).
Proof. intros. by rewrite decode_u_eq. Qed.

(** The same for the signed decoder, where the number is the two's complement
    reading of the groups of seven bits. *)
Lemma leb128s_decode_correct src :
  Forall u8 src →
  leb128s_i64_decode src = (let '(p, rest, t) := leb_scan src in
    if fits_i64 (leb_s p) then if t then Ok (leb_s p, rest) else Err TruncatedEncoding
    else Err DecodeOverflow).
Proof. intros. by rewrite decode_s_eq. Qed.
End Properties.

Lemma leb128u_roundtrip_witness :
  ∃ bs, leb128u_u64_encode (B:=debug_build) (E:=unit) (replicate 12 0) 300 = Ok (bs, drop (length bs) (replicate 12 0)) ∧
    leb128u_u64_encoded_len (B:=debug_build) (E:=unit) 300 = Ok (length bs) ∧ (1 ≤ length bs ≤ 10)%nat ∧
    leb128u_u64_decode (B:=debug_build) (bs ++ [7]) = Ok (300, [7]).
Proof.
  apply (leb128u_roundtrip (B:=debug_build) (E:=unit) (replicate 12 0) 300 [7]); [by split|cbn; lia|].
  by repeat constructor.
Defined.

Lemma leb128s_roundtrip_witness :
  ∃ bs, leb128s_i64_encode (B:=debug_build) (E:=unit) (replicate 12 0) (-300) = Ok (bs, drop (length bs) (replicate 12 0)) ∧
    leb128s_i64_encoded_len (B:=debug_build) (E:=unit) (-300) = Ok (length bs) ∧ (1 ≤ length bs ≤ 10)%nat ∧
    leb128s_i64_decode (B:=debug_build) (bs ++ [7]) = Ok (-300, [7]).
Proof.
  apply (leb128s_roundtrip (B:=debug_build) (E:=unit) (replicate 12 0) (-300) [7]); [by split|cbn; lia|].
  by repeat constructor.
Defined.

Lemma leb128u_decode_correct_witness : leb128u_u64_decode (B:=debug_build) [172; 2; 9] = Ok (300, [9]).
Proof.
  rewrite (leb128u_decode_correct (B:=debug_build) [172; 2; 9]); [done|]. by repeat constructor.
Defined.

Lemma leb128s_decode_correct_witness : leb128s_i64_decode (B:=debug_build) [212; 125; 9] = Ok (-300, [9]).
Proof.
  rewrite (leb128s_decode_correct (B:=debug_build) [212; 125; 9]); [done|]. by repeat constructor.
Defined.

End Leb128.
