(* ===== verification/Errors.v ===== *)
(** * Error types (storage/src/fs/mod.rs, storage/src/fs/cocoonfs/mod.rs, crypto/src/error.rs) *)

From S2P Require Import Prelude.

Module Errors.

Inductive CryptoError : Set :=
| CryptoMemoryAllocationFailure | CryptoInternal | BufferStateIndeterminate | RngFailure
| InsufficientSeedLength | RandomSamplingRetriesExceeded | RequestTooBig | NoKey | KeySize
| KeyBinding | SignatureVerificationFailure | UnsupportedSecurityStrength | UnsupportedParams
| UnspecifiedFailure | InvalidParams | InvalidIV | InvalidMessageLength | CryptoInvalidPadding
| InvalidPoint | InvalidResult.

Inductive NvFsIoError : Set := RegionOutOfRange | RegionNotMapped | IoFailure.

Inductive NvFsError : Set :=
| Internal
| PermanentInternalFailure
| MemoryAllocationFailure
| Retry
| OperationNotSupported
| IoError (e : NvFsIoError)
| NvCryptoError (e : CryptoError)
| FsFormatError (code : Z)
| DimensionsNotSupported
| AuthenticationFailure
| NoSpace
| FailedDataUpdateRead
| InodeReserved.

Inductive FormatError : Set :=
| InvalidDeviceParameter | InvalidImageHeader | UnsupportedFormatVersion
| InvalidImageLayoutConfig | UnsupportedImageLayoutConfig | UnsupportedCryptoAlgorithm
| InconsistentBackupMkFsInfoHeader | InvalidAuxFsMetadataChecksum | InvalidAuxFsMetadataSize
| InvalidAuxFsMetadataExtent | UnalignedAuxFsMetadataExtent | IncoherentAuxFsMetadataExtents
| InconsistentAuxFsMetadataExtentsChain | InvalidAuxFsMetadataExtentFormat
| InvalidAuxFsMetadataFormat | InvalidSaltLength | IoBlockSizeNotSupportedByDevice
| InvalidImageSize | InvalidAuthTreeConfig | UnsupportedAuthTreeConfig | UnalignedAuthTreeExtents
| InvalidAuthTreeDimensions | InvalidAllocationBitmapFileConfig
| UnalignedAllocationBitmapFileExtents | InvalidAllocationBitmapFileSize
| InconsistentAllocBitmapFileExtents | InvalidDigestLength | InvalidFileSize | BlockOutOfRange
| InvalidExtents | InvalidPadding | InvalidIndexConfig | InvalidIndexNode
| InvalidIndexRootExtents | SpecialInodeMissing | UnalignedJournalExtents
| InvalidJournalLogFieldTagEncoding | InvalidJournalLogFieldLengthEncoding
| InvalidJournalLogFieldTag | JournalLogFieldLengthOverflow | IncompleteJournalLog
| UnexpectedJournalLogField | JournalLogFieldLengthOutOfBounds | ExcessJournalLogFieldLength
| InvalidJournalExtentsCoveringAuthDigestsFormat | InvalidJournalExtentsCoveringAuthDigestsEntry
| UnexpectedJournalExtentsCoveringAuthDigestsEntry | InvalidJournalApplyWritesScriptFormat
| InvalidJournalApplyWritesScriptEntry | InvalidJournalUpdateAuthDigestsScriptFormat
| InvalidJournalUpdateAuthDigestsScriptEntry | InvalidJournalTrimsScriptFormat
| InvalidJournalTrimsScriptEntry.

(** The discriminants of the enumeration, 1 to 53 in the order of the
    constructors. *)
Definition format_error_code (e : FormatError) : Z :=
  match e with
  | InvalidDeviceParameter => 1 | InvalidImageHeader => 2 | UnsupportedFormatVersion => 3
  | InvalidImageLayoutConfig => 4 | UnsupportedImageLayoutConfig => 5
  | UnsupportedCryptoAlgorithm => 6 | InconsistentBackupMkFsInfoHeader => 7
  | InvalidAuxFsMetadataChecksum => 8 | InvalidAuxFsMetadataSize => 9
  | InvalidAuxFsMetadataExtent => 10 | UnalignedAuxFsMetadataExtent => 11
  | IncoherentAuxFsMetadataExtents => 12 | InconsistentAuxFsMetadataExtentsChain => 13
  | InvalidAuxFsMetadataExtentFormat => 14 | InvalidAuxFsMetadataFormat => 15
  | InvalidSaltLength => 16 | IoBlockSizeNotSupportedByDevice => 17 | InvalidImageSize => 18
  | InvalidAuthTreeConfig => 19 | UnsupportedAuthTreeConfig => 20
  | UnalignedAuthTreeExtents => 21 | InvalidAuthTreeDimensions => 22
  | InvalidAllocationBitmapFileConfig => 23 | UnalignedAllocationBitmapFileExtents => 24
  | InvalidAllocationBitmapFileSize => 25 | InconsistentAllocBitmapFileExtents => 26
  | InvalidDigestLength => 27 | InvalidFileSize => 28 | BlockOutOfRange => 29
  | InvalidExtents => 30 | InvalidPadding => 31 | InvalidIndexConfig => 32
  | InvalidIndexNode => 33 | InvalidIndexRootExtents => 34 | SpecialInodeMissing => 35
  | UnalignedJournalExtents => 36 | InvalidJournalLogFieldTagEncoding => 37
  | InvalidJournalLogFieldLengthEncoding => 38 | InvalidJournalLogFieldTag => 39
  | JournalLogFieldLengthOverflow => 40 | IncompleteJournalLog => 41
  | UnexpectedJournalLogField => 42 | JournalLogFieldLengthOutOfBounds => 43
  | ExcessJournalLogFieldLength => 44 | InvalidJournalExtentsCoveringAuthDigestsFormat => 45
  | InvalidJournalExtentsCoveringAuthDigestsEntry => 46
  | UnexpectedJournalExtentsCoveringAuthDigestsEntry => 47
  | InvalidJournalApplyWritesScriptFormat => 48 | InvalidJournalApplyWritesScriptEntry => 49
  | InvalidJournalUpdateAuthDigestsScriptFormat => 50
  | InvalidJournalUpdateAuthDigestsScriptEntry => 51 | InvalidJournalTrimsScriptFormat => 52
  | InvalidJournalTrimsScriptEntry => 53
  end.

(** [NvFsError::from(FormatError)]. *)
Definition from_format (e : FormatError) : NvFsError := FsFormatError (format_error_code e).

(** [Err(nvfs_err_internal!())]. *)
Definition err_internal {B : Build} {A} : outcome NvFsError A :=
  if debug_assertions then Panic else Err Internal.

(** [Vec::try_reserve] and [Vec::try_reserve_exact] on a vector of length
    [len], with the allocation error converted to [NvFsError]. *)
Definition try_reserve `{Allocator} (len additional : nat) : outcome NvFsError unit :=
  if alloc_ok len additional then Ok tt else Err MemoryAllocationFailure.

#[export] Instance CryptoError_eq_dec : EqDecision CryptoError.
Proof. solve_decision. Defined.
#[export] Instance NvFsIoError_eq_dec : EqDecision NvFsIoError.
Proof. solve_decision. Defined.
#[export] Instance NvFsError_eq_dec : EqDecision NvFsError.
Proof. solve_decision. Defined.

(** Distinct format errors are reported with distinct codes. *)
Lemma from_format_inj e e' : from_format e = from_format e' → e = e'.
Proof. intros [= H]. destruct e; cbn in H; destruct e'; cbn in H; (reflexivity || discriminate H). Qed.

End Errors.
