(* ===== verification/Layout.v ===== *)
(** * Block indices, counts and ranges (storage/src/fs/cocoonfs/layout.rs)

    [AllocBlockCount], [PhysicalAllocBlockIndex] and [LogicalAllocBlockIndex] are
    newtypes over [u64]; here they all are [Z].  The arithmetic operators of the
    newtypes are checked: they panic on overflow in every build. *)

From S2P Require Import Prelude BitManip.
Import BitManip.

Module Layout.

Section Ops.
Context {B : Build} {E : Type}.

(** ** [AllocBlockCount] *)

Definition count_add (self rhs : Z) : outcome E Z := unwrap (checked_add 64 self rhs).
Definition count_sub (self rhs : Z) : outcome E Z := unwrap (checked_sub self rhs).
Definition count_align_down (self align_log2 : Z) : outcome E Z := round_down_pow2 64 self align_log2.
Definition count_align_up (self align_log2 : Z) : outcome E (option Z) :=
  round_up_pow2 64 self align_log2.

(** ** [PhysicalAllocBlockIndex] *)

Definition physical_align_down (self align_allocation_blocks_log2 : Z) : outcome E Z :=
  let! t := ushr 64 self align_allocation_blocks_log2 in
  ushl 64 t align_allocation_blocks_log2.
Definition physical_add (self rhs : Z) : outcome E Z := unwrap (checked_add 64 self rhs).
Definition physical_sub (self rhs : Z) : outcome E Z := unwrap (checked_sub self rhs).

(** ** [LogicalAllocBlockIndex] *)

Definition logical_add (self rhs : Z) : outcome E Z := unwrap (checked_add 64 self rhs).
Definition logical_sub (self rhs : Z) : outcome E Z := unwrap (checked_sub self rhs).

(** The trait [BlockIndex], implemented alike by both index types. *)
Definition index_align_down (self align_log2 : Z) : outcome E Z :=
  round_down_pow2 64 self align_log2.
Definition index_align_up (self align_log2 : Z) : outcome E (option Z) :=
  round_up_pow2 64 self align_log2.
End Ops.

(** ** [BlockRange] *)

Record BlockRange := mk_range { rng_begin : Z; rng_end : Z }.

#[export] Instance BlockRange_eq_dec : EqDecision BlockRange.
Proof. solve_decision. Defined.

Section Range.
Context {B : Build} {E : Type}.
Implicit Types self other : BlockRange.

Definition range_new (b e : Z) : outcome E BlockRange :=
  let! _ := debug_assert (b <? e) in
  Ok (mk_range b e).

(** [BlockRange::from((begin, count))]. *)
Definition range_from (b count : Z) : outcome E BlockRange :=
  let! e := physical_add b count in
  Ok (mk_range b e).

Definition block_count self : outcome E Z := physical_sub (rng_end self) (rng_begin self).

Definition overlaps_with self other : bool :=
  (rng_begin other <? rng_end self) && (rng_begin self <? rng_end other).

Definition contains self other : bool :=
  (rng_begin self <=? rng_begin other) && (rng_end other <=? rng_end self).

Definition align self (align_log2 : Z) : outcome E (option BlockRange) :=
  let! aligned_b := index_align_down (rng_begin self) align_log2 in
  let! aligned_e := index_align_up (rng_end self) align_log2 in
  match aligned_e with
  | None => Ok None
  | Some aligned_e =>
      let! r := range_new aligned_b aligned_e in
      Ok (Some r)
  end.

Definition max_aligned_subrange self (align_log2 : Z) : outcome E (option BlockRange) :=
  let! aligned_e := index_align_down (rng_end self) align_log2 in
  let! aligned_b := index_align_up (rng_begin self) align_log2 in
  match aligned_b with
  | None => Ok None
  | Some aligned_b =>
      if aligned_e <=? aligned_b then Ok None else Ok (Some (mk_range aligned_b aligned_e))
  end.
End Range.

(** ** Specification *)

(** The blocks of a range. *)
#[export] Instance range_elem_of : ElemOf Z BlockRange :=
  λ x r, rng_begin r ≤ x < rng_end r.

(** A range as the code builds them: not empty and with 64 bit ends. *)
Definition range_ok (r : BlockRange) : Prop := 0 ≤ rng_begin r < rng_end r ∧ rng_end r < 2 ^ 64.

Definition aligned (n : Z) (r : BlockRange) : Prop :=
  (2 ^ n | rng_begin r) ∧ (2 ^ n | rng_end r).

Lemma range_from_Ok {E} b n : b + n < 2 ^ 64 → range_from (E:=E) b n = Ok (mk_range b (b + n)).
Proof. intros. unfold range_from, physical_add. by rewrite checked_add_Some. Qed.
Lemma block_count_Ok {E} r :
  rng_begin r ≤ rng_end r → block_count (E:=E) r = Ok (rng_end r - rng_begin r).
Proof. intros. unfold block_count, physical_sub. by rewrite checked_sub_Some. Qed.
Lemma range_new_Ok {B : Build} {E} b e : b < e → range_new (E:=E) b e = Ok (mk_range b e).
Proof. intros. unfold range_new. by zdec. Qed.
#[export] Hint Rewrite @range_from_Ok @range_new_Ok using lia : outcome_simpl.

Lemma elem_of_range x r : x ∈ r ↔ rng_begin r ≤ x < rng_end r.
Proof. done. Qed.

Lemma overlaps_with_spec r r' :
  rng_begin r < rng_end r → rng_begin r' < rng_end r' →
  overlaps_with r r' = true ↔ ∃ x, x ∈ r ∧ x ∈ r'.
Proof.
  intros. unfold overlaps_with. rewrite andb_true_iff, !Z.ltb_lt. setoid_rewrite elem_of_range.
  split; [|intros (? & ? & ?); lia]. intros. exists (Z.max (rng_begin r) (rng_begin r')). lia.
Qed.

Lemma contains_spec r r' :
  rng_begin r' < rng_end r' → contains r r' = true ↔ ∀ x, x ∈ r' → x ∈ r.
Proof.
  intros. unfold contains. rewrite andb_true_iff, !Z.leb_le. setoid_rewrite elem_of_range.
  split; [intros; lia|]. intros Hc. pose proof (Hc (rng_begin r')). pose proof (Hc (rng_end r' - 1)). lia.
Qed.

Section AlignSpec.
Context {B : Build} {E : Type}.
Variables (n : Z) (r : BlockRange).
Hypothesis Hn : 0 ≤ n < 64.
Hypothesis Hr : range_ok r.

(** The two ways [align] ends, and its result. *)
Lemma align_eq :
  align (E:=E) r n = Ok (if rng_end r + (2 ^ n - 1) <? 2 ^ 64
    then Some (mk_range (rng_begin r / 2 ^ n * 2 ^ n) (round_up_to n (rng_end r))) else None).
Proof.
  destruct Hr as [??]. unfold align, index_align_down, index_align_up.
  rewrite round_down_pow2_spec, round_up_pow2_eq by (unfold in_u; lia). cbn [obind].
  zcase; [|done]. pose proof (round_up_to_bounds n (rng_end r)).
  pose proof (round_down_le n (rng_begin r)). by rewrite range_new_Ok by lia.
Qed.

Lemma max_aligned_subrange_eq :
  max_aligned_subrange (E:=E) r n =
    Ok (if round_up_to n (rng_begin r) <? rng_end r / 2 ^ n * 2 ^ n
        then Some (mk_range (round_up_to n (rng_begin r)) (rng_end r / 2 ^ n * 2 ^ n)) else None).
Proof.
  destruct Hr as [??]. unfold max_aligned_subrange, index_align_down, index_align_up.
  rewrite round_down_pow2_spec, round_up_pow2_eq by (unfold in_u; lia). cbn [obind].
  pose proof (round_down_le n (rng_end r)). pose proof (round_up_to_bounds n (rng_begin r)).
  destruct (Z.ltb_spec (rng_begin r + (2 ^ n - 1)) (2 ^ 64)).
  - by do 2 zcase; try lia.
  - pose proof (round_up_to_overflow 64 n (rng_begin r) ltac:(lia) ltac:(lia)). by zdec.
Qed.
End AlignSpec.

(** ** Properties *)

Section Properties.
Context {B : Build} {E : Type}.

(** Aligning a range gives the smallest aligned range around it, and [None]
    exactly if the aligned end would not be a 64 bit number. *)
Lemma align_smallest n r :
  0 ≤ n < 64 → range_ok r →
  match align (E:=E) r n with
  | Ok (Some r') => aligned n r' ∧ contains r' r = true ∧
      ∀ r2, aligned n r2 → contains r2 r = true → contains r2 r' = true
  | Ok None => ∀ e, (2 ^ n | e) → rng_end r ≤ e → 2 ^ 64 ≤ e
  | _ => False
  end.
Proof.
  intros Hn Hr. rewrite align_eq by done. destruct Hr as [??].
  pose proof (round_up_to_bounds n (rng_end r)). pose proof (round_down_le n (rng_begin r)).
  destruct (Z.ltb_spec (rng_end r + (2 ^ n - 1)) (2 ^ 64)).
  - unfold contains. cbn [rng_begin rng_end]. split; [by split; eexists|]. split.
    + zdec. done.
    + intros r2 [? ?] [Hb%Z.leb_le He%Z.leb_le]%andb_true_iff. apply andb_true_iff. rewrite !Z.leb_le.
      split; [by apply round_down_greatest; [lia|..]|by apply round_up_least; [lia|..]].
  - intros e ? ?. transitivity (round_up_to n (rng_end r)); [by apply round_up_to_overflow; lia|].
    by apply round_up_least; [lia|..].
Qed.

(** The maximum aligned subrange contains every aligned subrange, and there is
    none exactly if [None] is returned. *)
Lemma max_aligned_subrange_greatest n r :
  0 ≤ n < 64 → range_ok r →
  match max_aligned_subrange (E:=E) r n with
  | Ok (Some r') => aligned n r' ∧ range_ok r' ∧ contains r r' = true ∧
      ∀ r2, aligned n r2 → contains r r2 = true → contains r' r2 = true
  | Ok None => ∀ r2, aligned n r2 → contains r r2 = true → rng_end r2 ≤ rng_begin r2
  | _ => False
  end.
Proof.
  intros Hn Hr. rewrite max_aligned_subrange_eq by done. destruct Hr as [??].
  pose proof (round_up_to_bounds n (rng_begin r)). pose proof (round_down_le n (rng_end r)).
  assert (∀ r2, aligned n r2 → contains r r2 = true →
    round_up_to n (rng_begin r) ≤ rng_begin r2 ∧ rng_end r2 ≤ rng_end r / 2 ^ n * 2 ^ n) as Hsub.
  { intros r2 [? ?] [Hb%Z.leb_le He%Z.leb_le]%andb_true_iff.
    split; [by apply round_up_least; [lia|..]|by apply round_down_greatest; [lia|..]]. }
  zcase.
  - split; [by split; eexists|]. split; [unfold range_ok; cbn; lia|]. split.
    + apply andb_true_iff. cbn. rewrite !Z.leb_le. lia.
    + intros r2 Ha Hc. destruct (Hsub r2 Ha Hc). apply andb_true_iff. cbn [rng_begin rng_end]. rewrite !Z.leb_le. lia.
  - intros r2 Ha Hc. destruct (Hsub r2 Ha Hc). lia.
Qed.
End Properties.

Lemma align_smallest_witness :
  align (B:=debug_build) (E:=unit) (mk_range 5 9) 2 = Ok (Some (mk_range 4 12)) ∧
  ∀ r2, aligned 2 r2 → contains r2 (mk_range 5 9) = true → contains r2 (mk_range 4 12) = true.
Proof.
  split; [done|]. apply (align_smallest (B:=debug_build) (E:=unit) 2 (mk_range 5 9)); [done|].
  unfold range_ok. cbn. lia.
Defined.

Lemma max_aligned_subrange_greatest_witness :
  max_aligned_subrange (B:=debug_build) (E:=unit) (mk_range 3 9) 2 = Ok (Some (mk_range 4 8)) ∧
  ∀ r2, aligned 2 r2 → contains (mk_range 3 9) r2 = true → contains (mk_range 4 8) r2 = true.
Proof.
  split; [done|]. apply (max_aligned_subrange_greatest (B:=debug_build) (E:=unit) 2 (mk_range 3 9)); [done|].
  unfold range_ok. cbn. lia.
Defined.

End Layout.
