(* ===== verification/TpmInterface.v ===== *)
(** * TPM 2.0 marshalling and algorithm identifiers (tpm2-interface/src/interface.rs,
    crypto/src/symcipher.rs)

    The big-endian integer marshalling primitives, the hash and block cipher
    algorithm identifiers and the block cipher selection.  The functions that
    write to a buffer return the bytes written at its front and the remaining
    part of the buffer.

    Algorithms are compiled in by Cargo features.  The types have all of their
    constructors here, and a value of a constructor whose feature is off cannot
    exist; the conversions never return one. *)

From S2P Require Import Prelude Errors.
Import Errors.

Module TpmInterface.

Inductive TpmErr : Set := Rc (rc : Z) | InternalErr.

(** The response codes [TpmRc] that the conversions below return. *)
Definition RC_FMT1 : Z := 0x80.
Definition RC_HASH : Z := RC_FMT1 + 0x3.
Definition RC_SYMMETRIC : Z := RC_FMT1 + 0x16.
Definition RC_INSUFFICIENT : Z := RC_FMT1 + 0x1a.

Abbreviation res := (outcome TpmErr).

(** ** Integers *)

Definition split_slice_at (s : list Z) (mid : nat) : res (list Z * list Z) :=
  if (length s <? mid)%nat then Err (Rc RC_INSUFFICIENT) else Ok (take mid s, drop mid s).

Definition split_slice_at_mut (s : list Z) (mid : nat) : res (list Z * list Z) :=
  if (length s <? mid)%nat then Err InternalErr else Ok (take mid s, drop mid s).

(** The functions for the integer types of [n] bytes, unsigned and signed. *)
Definition unmarshal_u (n : nat) (buf : list Z) : res (list Z * Z) :=
  let! '(consumed, buf) := split_slice_at buf n in
  Ok (buf, from_be_bytes consumed).
Definition unmarshal_i (n : nat) (buf : list Z) : res (list Z * Z) :=
  let! '(consumed, buf) := split_slice_at buf n in
  Ok (buf, swrap (8 * Z.of_nat n) (from_be_bytes consumed)).
Definition marshal_u (n : nat) (buf : list Z) (value : Z) : res (list Z * list Z) :=
  let! '(_, buf) := split_slice_at_mut buf n in
  Ok (to_be_bytes n value, buf).
Definition marshal_i (n : nat) (buf : list Z) (value : Z) : res (list Z * list Z) :=
  let! '(_, buf) := split_slice_at_mut buf n in
  Ok (to_be_bytes n (wrap (8 * Z.of_nat n) value), buf).

Definition unmarshal_u8 := unmarshal_u 1.
Definition unmarshal_i8 := unmarshal_i 1.
Definition unmarshal_u16 := unmarshal_u 2.
Definition unmarshal_i16 := unmarshal_i 2.
Definition unmarshal_u32 := unmarshal_u 4.
Definition unmarshal_i32 := unmarshal_i 4.
Definition unmarshal_u64 := unmarshal_u 8.
Definition unmarshal_i64 := unmarshal_i 8.
Definition marshal_u8 := marshal_u 1.
Definition marshal_i8 := marshal_i 1.
Definition marshal_u16 := marshal_u 2.
Definition marshal_i16 := marshal_i 2.
Definition marshal_u32 := marshal_u 4.
Definition marshal_i32 := marshal_i 4.
Definition marshal_u64 := marshal_u 8.
Definition marshal_i64 := marshal_i 8.

Definition marshal_bytes (buf src : list Z) : res (list Z * list Z) :=
  let! '(_, buf) := split_slice_at_mut buf (length src) in
  Ok (src, buf).

(** ** Algorithm identifiers *)

Inductive TpmiAlgHash : Set :=
| Sha1 | Sha256 | Sha384 | Sha512 | Sm3_256 | Sha3_256 | Sha3_384 | Sha3_512.
Inductive TpmiAlgSymObject : Set := Tdes | Aes | Sm4 | Camellia.

#[export] Instance TpmiAlgHash_eq_dec : EqDecision TpmiAlgHash.
Proof. solve_decision. Defined.
#[export] Instance TpmiAlgSymObject_eq_dec : EqDecision TpmiAlgSymObject.
Proof. solve_decision. Defined.

(** The Cargo features of the build: the algorithms that are compiled in. *)
Class Features := {
  hash_enabled : TpmiAlgHash → bool;
  sym_enabled : TpmiAlgSymObject → bool;
}.

Definition hash_id (self : TpmiAlgHash) : Z :=
  match self with
  | Sha1 => 0x4 | Sha256 => 0xb | Sha384 => 0xc | Sha512 => 0xd | Sm3_256 => 0x12
  | Sha3_256 => 0x27 | Sha3_384 => 0x28 | Sha3_512 => 0x29
  end.
Definition sym_id (self : TpmiAlgSymObject) : Z :=
  match self with Tdes => 0x3 | Aes => 0x6 | Sm4 => 0x13 | Camellia => 0x26 end.

Definition marshalled_size : nat := 2.

Section Ids.
Context {F : Features}.

(** A [match] whose arms each compare with the identifier of an enabled
    algorithm. *)
Definition hash_try_from (value : Z) : res TpmiAlgHash :=
  let same a := hash_enabled a && (value =? hash_id a) in
  if same Sha1 then Ok Sha1
  else if same Sha256 then Ok Sha256
  else if same Sha384 then Ok Sha384
  else if same Sha512 then Ok Sha512
  else if same Sm3_256 then Ok Sm3_256
  else if same Sha3_256 then Ok Sha3_256
  else if same Sha3_384 then Ok Sha3_384
  else if same Sha3_512 then Ok Sha3_512
  else Err (Rc RC_HASH).

Definition hash_marshal (self : TpmiAlgHash) (buf : list Z) : res (list Z * list Z) :=
  marshal_u16 buf (hash_id self).
Definition hash_unmarshal (buf : list Z) : res (list Z * TpmiAlgHash) :=
  let! '(buf, value) := unmarshal_u16 buf in
  let! result := hash_try_from value in
  Ok (buf, result).

Definition sym_try_from (value : Z) : res TpmiAlgSymObject :=
  let same a := sym_enabled a && (value =? sym_id a) in
  if same Tdes then Ok Tdes
  else if same Aes then Ok Aes
  else if same Sm4 then Ok Sm4
  else if same Camellia then Ok Camellia
  else Err (Rc RC_SYMMETRIC).

Definition sym_marshal (self : TpmiAlgSymObject) (buf : list Z) : res (list Z * list Z) :=
  marshal_u16 buf (sym_id self).
Definition sym_unmarshal (buf : list Z) : res (list Z * TpmiAlgSymObject) :=
  let! '(buf, value) := unmarshal_u16 buf in
  let! result := sym_try_from value in
  Ok (buf, result).
End Ids.

(** ** Block ciphers *)

Inductive SymBlockCipherAesKeySize : Set := Aes128 | Aes192 | Aes256.
Inductive SymBlockCipherCamelliaKeySize : Set := Camellia128 | Camellia192 | Camellia256.
Inductive SymBlockCipherSm4KeySize : Set := Sm4_128.
Inductive SymBlockCipherAlg : Set :=
| CipherAes (k : SymBlockCipherAesKeySize)
| CipherCamellia (k : SymBlockCipherCamelliaKeySize)
| CipherSm4 (k : SymBlockCipherSm4KeySize).

#[export] Instance AesKeySize_eq_dec : EqDecision SymBlockCipherAesKeySize.
Proof. solve_decision. Defined.
#[export] Instance CamelliaKeySize_eq_dec : EqDecision SymBlockCipherCamelliaKeySize.
Proof. solve_decision. Defined.
#[export] Instance Sm4KeySize_eq_dec : EqDecision SymBlockCipherSm4KeySize.
Proof. solve_decision. Defined.
#[export] Instance SymBlockCipherAlg_eq_dec : EqDecision SymBlockCipherAlg.
Proof. solve_decision. Defined.

(** The code has no arm for [Tdes]: it does not compile with that feature. *)
Definition cipher_try_from (block_alg : TpmiAlgSymObject) (key_size : Z) : outcome CryptoError SymBlockCipherAlg :=
  match block_alg with
  | Aes =>
      if key_size =? 128 then Ok (CipherAes Aes128)
      else if key_size =? 192 then Ok (CipherAes Aes192)
      else if key_size =? 256 then Ok (CipherAes Aes256)
      else Err InvalidParams
  | Camellia =>
      if key_size =? 128 then Ok (CipherCamellia Camellia128)
      else if key_size =? 192 then Ok (CipherCamellia Camellia192)
      else if key_size =? 256 then Ok (CipherCamellia Camellia256)
      else Err InvalidParams
  | Sm4 => if key_size =? 128 then Ok (CipherSm4 Sm4_128) else Err InvalidParams
  | Tdes => Panic
  end.

Definition cipher_into (value : SymBlockCipherAlg) : TpmiAlgSymObject * Z :=
  match value with
  | CipherAes k => (Aes, match k with Aes128 => 128 | Aes192 => 192 | Aes256 => 256 end)
  | CipherCamellia k =>
      (Camellia, match k with Camellia128 => 128 | Camellia192 => 192 | Camellia256 => 256 end)
  | CipherSm4 k => (Sm4, match k with Sm4_128 => 128 end)
  end.

(** The lengths in bytes. *)
Definition key_len (self : SymBlockCipherAlg) : Z :=
  match self with
  | CipherAes Aes128 => 16 | CipherAes Aes192 => 24 | CipherAes Aes256 => 32
  | CipherCamellia Camellia128 => 16 | CipherCamellia Camellia192 => 24
  | CipherCamellia Camellia256 => 32
  | CipherSm4 Sm4_128 => 16
  end.
Definition block_len (self : SymBlockCipherAlg) : Z :=
  match self with
  | CipherAes Aes128 => 16 | CipherAes Aes192 => 16 | CipherAes Aes256 => 16
  | CipherCamellia Camellia128 => 16 | CipherCamellia Camellia192 => 16
  | CipherCamellia Camellia256 => 16
  | CipherSm4 Sm4_128 => 16
  end.

(** ** Specification *)

Lemma split_slice_at_Ok s s' n : length s = n → split_slice_at (s ++ s') n = Ok (s, s').
Proof.
  intros <-. unfold split_slice_at. rewrite length_app. zdec. by rewrite take_app_length, drop_app_length.
Qed.

Lemma unmarshal_u_Ok n x s :
  0 ≤ x < 256 ^ Z.of_nat n → unmarshal_u n (to_be_bytes n x ++ s) = Ok (s, x).
Proof.
  intros. unfold unmarshal_u. rewrite split_slice_at_Ok by apply length_to_be_bytes. cbn [obind].
  by rewrite from_to_be_bytes.
Qed.

Lemma marshal_u_eq n buf x :
  marshal_u n buf x = if (n <=? length buf)%nat then Ok (to_be_bytes n x, drop n buf) else Err InternalErr.
Proof. unfold marshal_u, split_slice_at_mut. by do 2 zcase; try lia. Qed.

(** The unmarshalling of an integer, on every branch. *)
Lemma unmarshal_u_eq n buf :
  Forall u8 buf →
  unmarshal_u n buf = if (n <=? length buf)%nat then Ok (drop n buf, from_be_bytes (take n buf))
                      else Err (Rc RC_INSUFFICIENT).
Proof. intros. unfold unmarshal_u, split_slice_at. by do 2 zcase; try lia. Qed.

Section IdsSpec.
Context {F : Features}.

Lemma hash_try_from_id h : hash_enabled h = true → hash_try_from (hash_id h) = Ok h.
Proof. intros Hh. unfold hash_try_from. destruct h; cbn; rewrite ?andb_false_r, ?Hh; done. Qed.

Lemma hash_try_from_eq v :
  match hash_try_from v with
  | Ok h => hash_enabled h = true ∧ v = hash_id h
  | Err e => e = Rc RC_HASH ∧ ∀ h, hash_enabled h = true → v ≠ hash_id h
  | _ => False
  end.
Proof.
  unfold hash_try_from. cbv beta zeta.
  repeat match goal with |- context [if ?b then _ else _] =>
    let E := fresh "E" in destruct b eqn:E; [apply andb_true_iff in E as [? ?%Z.eqb_eq]; done|] end.
  split; [done|]. intros [] Hh ->;
    match goal with E : hash_enabled ?h && (hash_id ?h =? hash_id ?h) = false |- _ =>
      by rewrite Hh, Z.eqb_refl in E end.
Qed.

Lemma sym_try_from_id a : sym_enabled a = true → sym_try_from (sym_id a) = Ok a.
Proof. intros Ha. unfold sym_try_from. destruct a; cbn; rewrite ?andb_false_r, ?Ha; done. Qed.

Lemma sym_try_from_eq v :
  match sym_try_from v with
  | Ok a => sym_enabled a = true ∧ v = sym_id a
  | Err e => e = Rc RC_SYMMETRIC ∧ ∀ a, sym_enabled a = true → v ≠ sym_id a
  | _ => False
  end.
Proof.
  unfold sym_try_from. cbv beta zeta.
  repeat match goal with |- context [if ?b then _ else _] =>
    let E := fresh "E" in destruct b eqn:E; [apply andb_true_iff in E as [? ?%Z.eqb_eq]; done|] end.
  split; [done|]. intros [] Ha ->;
    match goal with E : sym_enabled ?h && (sym_id ?h =? sym_id ?h) = false |- _ =>
      by rewrite Ha, Z.eqb_refl in E end.
Qed.

Lemma hash_id_u16 h : 0 ≤ hash_id h < 256 ^ Z.of_nat 2.
Proof. by destruct h. Qed.
Lemma sym_id_u16 a : 0 ≤ sym_id a < 256 ^ Z.of_nat 2.
Proof. by destruct a. Qed.

Lemma hash_unmarshal_Ok h s :
  hash_enabled h = true → hash_unmarshal (to_be_bytes 2 (hash_id h) ++ s) = Ok (s, h).
Proof.
  intros. unfold hash_unmarshal, unmarshal_u16. rewrite unmarshal_u_Ok by apply hash_id_u16. cbn [obind].
  by rewrite hash_try_from_id.
Qed.

Lemma sym_unmarshal_Ok a s :
  sym_enabled a = true → sym_unmarshal (to_be_bytes 2 (sym_id a) ++ s) = Ok (s, a).
Proof.
  intros. unfold sym_unmarshal, unmarshal_u16. rewrite unmarshal_u_Ok by apply sym_id_u16. cbn [obind].
  by rewrite sym_try_from_id.
Qed.
End IdsSpec.

Lemma cipher_try_from_into c : cipher_try_from (cipher_into c).1 (cipher_into c).2 = Ok c.
Proof. by destruct c as [[]|[]|[]]. Qed.

Lemma cipher_into_try_from a k c : cipher_try_from a k = Ok c → cipher_into c = (a, k).
Proof.
  unfold cipher_try_from. destruct a; intros H; try discriminate H;
    repeat (zcase; [injection H as <-; by subst|]); discriminate H.
Qed.

Lemma cipher_try_from_cases a k :
  a ≠ Tdes → (∃ c, cipher_try_from a k = Ok c ∧ cipher_into c = (a, k)) ∨ cipher_try_from a k = Err InvalidParams.
Proof.
  intros Ha. destruct (cipher_try_from a k) as [c|e| |] eqn:Hc.
  - left. exists c. split; [done|]. by apply cipher_into_try_from.
  - right. revert Hc. unfold cipher_try_from. destruct a; repeat zcase; congruence.
  - revert Hc. unfold cipher_try_from. destruct a; repeat zcase; congruence.
  - revert Hc. unfold cipher_try_from. destruct a; repeat zcase; congruence.
Qed.

Lemma cipher_into_u16 c : 0 ≤ (cipher_into c).2 < 256 ^ Z.of_nat 2.
Proof. by destruct c as [[]|[]|[]]. Qed.

(** ** Properties *)

(** The integers of one, two, four and eight bytes, signed and unsigned, are
    marshalled to as many bytes, from which unmarshalling reads them back; a
    buffer that is too short is refused with an error on either side. *)
Lemma marshal_roundtrip n buf x y rest :
  (1 ≤ n)%nat → 0 ≤ x < 256 ^ Z.of_nat n → in_i (8 * Z.of_nat n) y →
  (if (n <=? length buf)%nat then
     ∃ wx wy, marshal_u n buf x = Ok (wx, drop n buf) ∧ unmarshal_u n (wx ++ rest) = Ok (rest, x) ∧
       marshal_i n buf y = Ok (wy, drop n buf) ∧ unmarshal_i n (wy ++ rest) = Ok (rest, y)
   else marshal_u n buf x = Err InternalErr ∧ marshal_i n buf y = Err InternalErr ∧
     unmarshal_u n buf = Err (Rc RC_INSUFFICIENT) ∧ unmarshal_i n buf = Err (Rc RC_INSUFFICIENT)).
Proof.
  intros Hn Hx Hy. assert (2 ^ (8 * Z.of_nat n) = 256 ^ Z.of_nat n) as Hp by (by rewrite Z.pow_mul_r by lia).
  pose proof (wrap_in_u (8 * Z.of_nat n) y ltac:(lia)) as Hw. unfold in_u in Hw. rewrite Hp in Hw.
  unfold marshal_u, marshal_i, unmarshal_u, unmarshal_i, split_slice_at_mut.
  destruct (Nat.leb_spec n (length buf)).
  - zdec. cbn [obind]. do 2 eexists. split; [done|]. rewrite !split_slice_at_Ok by apply length_to_be_bytes.
    cbn [obind]. rewrite !from_to_be_bytes by done. rewrite swrap_wrap_id by (done || lia). done.
  - unfold split_slice_at. zdec. done.
Qed.

(** Converting a hash or block cipher algorithm identifier to an algorithm
    succeeds exactly for the identifiers of the algorithms that are compiled in,
    and gives the algorithm that has the identifier. *)
Lemma alg_try_from_correct {F : Features} v :
  (match hash_try_from v with
   | Ok h => hash_enabled h = true ∧ v = hash_id h
   | Err e => e = Rc RC_HASH ∧ ∀ h, hash_enabled h = true → v ≠ hash_id h
   | _ => False
   end) ∧
  (match sym_try_from v with
   | Ok a => sym_enabled a = true ∧ v = sym_id a
   | Err e => e = Rc RC_SYMMETRIC ∧ ∀ a, sym_enabled a = true → v ≠ sym_id a
   | _ => False
   end).
Proof. split; [apply hash_try_from_eq|apply sym_try_from_eq]. Qed.

End TpmInterface.
