(* ===== verification/ExtentPtr.v ===== *)
(** * Encoded extent and block pointers (storage/src/fs/cocoonfs/extent_ptr.rs)

    The encoded pointers wrap an array of eight bytes, here a list of bytes. *)

From S2P Require Import Prelude BitManip Errors Layout.
Import BitManip Errors Layout.

Module ExtentPtr.

Definition EXTENT_ALLOCATION_BLOCKS_ENCODING_BITS : Z := 6.
Definition MAX_EXTENT_ALLOCATION_BLOCKS : Z := 2 ^ EXTENT_ALLOCATION_BLOCKS_ENCODING_BITS.
Definition RESERVED_ENCODING_BITS : Z := 7.

Section Ops.
Context {B : Build}.
Abbreviation res := (outcome NvFsError).

(** ** [EncodedExtentPtr] *)

Definition extent_ptr_encode_nil : list Z := to_le_bytes 8 (unot 64 0).

Definition extent_ptr_encode (extent : option BlockRange) (indirect : bool) : res (list Z) :=
  match extent with
  | None => Ok extent_ptr_encode_nil
  | Some extent =>
      let! extent_allocation_blocks := block_count extent in
      if (extent_allocation_blocks =? 0) || (MAX_EXTENT_ALLOCATION_BLOCKS <? extent_allocation_blocks)
      then err_internal
      else
        let! encoded_extent_allocation_blocks := usub 64 extent_allocation_blocks 1 in
        let extent_allocation_block_begin := rng_begin extent in
        let! encoded_begin :=
          ushl 64 extent_allocation_block_begin (EXTENT_ALLOCATION_BLOCKS_ENCODING_BITS + 1) in
        let! back := ushr 64 encoded_begin (EXTENT_ALLOCATION_BLOCKS_ENCODING_BITS + 1) in
        if negb (back =? extent_allocation_block_begin) then err_internal
        else
          let! encoded_blocks := ushl 64 encoded_extent_allocation_blocks 1 in
          Ok (to_le_bytes 8 (Z.lor (Z.lor encoded_begin encoded_blocks) (Z.b2z indirect)))
  end.

Definition extent_ptr_decode (self : list Z) (allocation_block_size_128b_log2 : Z) :
    res (option (BlockRange * bool)) :=
  let encoded_extent_ptr := from_le_bytes self in
  if encoded_extent_ptr =? unot 64 0 then Ok None
  else
    let indirect := negb (Z.land encoded_extent_ptr 1 =? 0) in
    let! encoded_extent_ptr := ushr 64 encoded_extent_ptr 1 in
    let! one := ushl 64 1 EXTENT_ALLOCATION_BLOCKS_ENCODING_BITS in
    let! mask := usub 64 one 1 in
    let encoded_extent_allocation_blocks := Z.land encoded_extent_ptr mask in
    let! extent_allocation_blocks := uadd 64 encoded_extent_allocation_blocks 1 in
    let! extent_allocation_blocks_begin :=
      ushr 64 encoded_extent_ptr EXTENT_ALLOCATION_BLOCKS_ENCODING_BITS in
    let! extent_allocation_blocks_end :=
      uadd 64 extent_allocation_blocks_begin extent_allocation_blocks in
    let! t := uadd 32 allocation_block_size_128b_log2 7 in
    let! n := usub 32 64 t in
    let! top := ushr 64 extent_allocation_blocks_end n in
    if negb (top =? 0) then Err (from_format InvalidExtents)
    else
      let! r := range_from extent_allocation_blocks_begin extent_allocation_blocks in
      Ok (Some (r, indirect)).

(** ** [EncodedBlockPtr] *)

Definition block_ptr_encode_nil : list Z := to_le_bytes 8 (unot 64 0).

Definition block_ptr_encode (block_allocation_blocks_begin : option Z) : res (list Z) :=
  match block_allocation_blocks_begin with
  | None => Ok block_ptr_encode_nil
  | Some block_allocation_blocks_begin =>
      let! encoded := ushl 64 block_allocation_blocks_begin RESERVED_ENCODING_BITS in
      let! back := ushr 64 encoded RESERVED_ENCODING_BITS in
      if negb (back =? block_allocation_blocks_begin) then err_internal
      else Ok (to_le_bytes 8 encoded)
  end.

Definition block_ptr_decode (self : list Z) (allocation_block_size_128b_log2 : Z) : res (option Z) :=
  let encoded := from_le_bytes self in
  if encoded =? unot 64 0 then Ok None
  else
    let! block_allocation_blocks_begin := ushr 64 encoded RESERVED_ENCODING_BITS in
    let! back := ushl 64 block_allocation_blocks_begin RESERVED_ENCODING_BITS in
    if negb (back =? encoded) then Err (from_format InvalidExtents)
    else
      let! t := uadd 32 allocation_block_size_128b_log2 7 in
      let! n := usub 32 64 t in
      let! top := ushr 64 block_allocation_blocks_begin n in
      if negb (top =? 0) then Err (from_format InvalidExtents)
      else Ok (Some block_allocation_blocks_begin).

(** ** Correctness *)

(** The [u64] that an extent pointer packs: the begin, the length less one in
    six bits and the flag. *)
Definition pack (b n : Z) (indirect : bool) : Z := b * 128 + (n - 1) * 2 + Z.b2z indirect.

Lemma unot_64_0 : unot 64 0 = 2 ^ 64 - 1.
Proof. done. Qed.

Lemma shift7 x : 0 ≤ x → Z.shiftr (wrap 64 (Z.shiftl x 7)) 7 = wrap 57 x.
Proof.
  intros. rewrite Z.shiftl_mul_pow2, Z.shiftr_div_pow2 by done. unfold wrap.
  change (2 ^ 64) with (2 ^ 57 * 2 ^ 7). rewrite Z.mul_mod_distr_r by done. by rewrite Z.div_mul.
Qed.

Lemma pack_lor b n (i : bool) :
  in_u 57 b → 1 ≤ n ≤ 64 →
  Z.lor (Z.lor (wrap 64 (Z.shiftl b 7)) (wrap 64 (Z.shiftl (n - 1) 1))) (Z.b2z i) = pack b n i.
Proof.
  intros [??] ?. unfold pack. assert (0 ≤ Z.b2z i < 2) by (destruct i; cbn; lia).
  rewrite !wrap_small by (rewrite Z.shiftl_mul_pow2 by done; unfold in_u; lia).
  rewrite (Z.lor_comm (Z.shiftl b 7)), Z.lor_comm, Z.lor_assoc.
  rewrite (lor_shiftl_add (Z.b2z i)) by (unfold in_u; lia).
  rewrite lor_shiftl_add by (unfold in_u; lia). lia.
Qed.

Lemma pack_bound b n i : in_u 57 b → 1 ≤ n ≤ 64 → u64 (pack b n i).
Proof. unfold pack, in_u. intros. destruct i; cbn [Z.b2z]; lia. Qed.

(** [encode], on every branch. *)
Lemma extent_ptr_encode_eq r (i : bool) :
  0 ≤ rng_begin r ≤ rng_end r → rng_end r < 2 ^ 64 →
  let n := rng_end r - rng_begin r in
  extent_ptr_encode (Some r) i =
    if (1 <=? n) && (n <=? 64) && (rng_begin r <? 2 ^ 57)
    then Ok (to_le_bytes 8 (pack (rng_begin r) n i)) else err_internal.
Proof.
  intros ? ? n. unfold extent_ptr_encode. rewrite block_count_Ok by lia. cbn [obind]. fold n.
  change MAX_EXTENT_ALLOCATION_BLOCKS with 64.
  change (EXTENT_ALLOCATION_BLOCKS_ENCODING_BITS + 1) with 7.
  destruct (Z.leb_spec 1 n); [|zdec; done]. destruct (Z.leb_spec n 64); [|zdec; done].
  zdec. ostep. rewrite shift7 by lia. destruct (Z.ltb_spec (rng_begin r) (2 ^ 57)).
  - rewrite wrap_small by (unfold in_u; lia). zdec. ostep. by rewrite pack_lor by (unfold in_u; lia).
  - pose proof (wrap_in_u 57 (rng_begin r) ltac:(done)) as [??]. zdec. done.
Qed.

(** [decode], on every branch. *)
Lemma extent_ptr_decode_eq p s :
  Forall u8 p → length p = 8%nat → 0 ≤ s < 57 →
  let x := from_le_bytes p in
  let b := x / 128 in let n := (x / 2) mod 64 + 1 in
  extent_ptr_decode p s =
    if x =? 2 ^ 64 - 1 then Ok None
    else if b + n <? 2 ^ (57 - s) then Ok (Some (mk_range b (b + n), Z.odd x))
    else Err (from_format InvalidExtents).
Proof.
  intros Hp Hl Hs x b n. unfold extent_ptr_decode. rewrite unot_64_0.
  pose proof (from_le_bytes_bound p Hp) as Hx. rewrite Hl in Hx. fold x in Hx |- *.
  change (256 ^ Z.of_nat 8) with (2 ^ 64) in Hx. destruct (Z.eqb_spec x (2 ^ 64 - 1)); [done|].
  change EXTENT_ALLOCATION_BLOCKS_ENCODING_BITS with 6. ostep.
  change (wrap 64 (Z.shiftl 1 6)) with 64. ostep.
  rewrite !Z.shiftr_div_pow2 by lia. change (2 ^ 1) with 2. change (2 ^ 6) with 64.
  rewrite (Z.land_ones _ 6) by done. change (2 ^ 6) with 64.
  pose proof (Z.mod_pos_bound (x / 2) 64 ltac:(done)).
  assert (0 ≤ b < 2 ^ 57) by (unfold b; split; [apply Z.div_pos|apply Z.div_lt_upper_bound]; lia).
  rewrite uadd_Ok by lia. cbn [obind]. fold n. rewrite Z.div_div by lia. change (2 * 64) with 128. fold b.
  rewrite uadd_Ok by (unfold n; lia). cbn [obind]. rewrite ushr_Ok by lia. cbn [obind].
  rewrite Z.shiftr_div_pow2 by lia. replace (64 - (s + 7)) with (57 - s) by lia.
  pose proof (pow2_pos (57 - s) ltac:(lia)). assert (1 ≤ n) by (unfold n; lia).
  destruct (Z.ltb_spec (b + n) (2 ^ (57 - s))).
  - rewrite Z.div_small by lia. cbn [Z.eqb negb]. rewrite range_from_Ok by (unfold n; lia). cbn [obind].
    assert (Z.land x 1 = x mod 2) as -> by (apply (Z.land_ones x 1); done).
    rewrite Zmod_odd. by destruct (Z.odd x).
  - assert (1 ≤ (b + n) / 2 ^ (57 - s)) by (apply Z.div_le_lower_bound; lia). by zdec.
Qed.

Lemma unpack b n (i : bool) :
  0 ≤ b → 1 ≤ n ≤ 64 →
  pack b n i / 128 = b ∧ (pack b n i / 2) mod 64 + 1 = n ∧ Z.odd (pack b n i) = i.
Proof.
  intros. unfold pack. assert (0 ≤ Z.b2z i < 2) by (destruct i; cbn; lia).
  assert ((b * 128 + (n - 1) * 2 + Z.b2z i) / 2 = b * 64 + (n - 1)) as Hh.
  { symmetry. apply Z.div_unique with (Z.b2z i); lia. }
  split; [|split].
  - symmetry. apply Z.div_unique with ((n - 1) * 2 + Z.b2z i); lia.
  - rewrite Hh, (Z.add_comm (b * 64)), Z.mod_add, Z.mod_small by lia. lia.
  - replace (b * 128 + (n - 1) * 2 + Z.b2z i) with (Z.b2z i + 2 * (b * 64 + (n - 1))) by lia.
    rewrite Z.odd_add_mul_2. by destruct i.
Qed.

Lemma repack x : 0 ≤ x → pack (x / 128) ((x / 2) mod 64 + 1) (Z.odd x) = x.
Proof.
  intros. unfold pack. rewrite <-Z.bit0_odd, Z.testbit_spec' by done. change (2 ^ 0) with 1.
  rewrite Z.div_1_r. Z.div_mod_to_equations. lia.
Qed.

(** Decoding an encoded extent pointer. *)
Lemma extent_ptr_decode_encode r (i : bool) s :
  0 ≤ s < 57 → range_ok r → rng_end r - rng_begin r ≤ 64 → rng_end r < 2 ^ (57 - s) →
  ∃ p, extent_ptr_encode (Some r) i = Ok p ∧ length p = 8%nat ∧ Forall u8 p ∧
    extent_ptr_decode p s = Ok (Some (r, i)).
Proof.
  intros Hs [??] ? Hr. assert (2 ^ (57 - s) ≤ 2 ^ 57) by (apply Z.pow_le_mono_r; lia).
  rewrite extent_ptr_encode_eq by lia. set (n := rng_end r - rng_begin r). zdec.
  eexists. split; [done|]. split; [apply length_to_le_bytes|]. split; [apply to_le_bytes_u8|].
  pose proof (pack_bound (rng_begin r) n i ltac:(unfold in_u; lia) ltac:(lia)) as [??].
  rewrite extent_ptr_decode_eq by (done || apply to_le_bytes_u8 || apply length_to_le_bytes).
  rewrite from_to_le_bytes by (split; [done|]; change (256 ^ Z.of_nat 8) with (2 ^ 64); done).
  destruct (unpack (rng_begin r) n i) as (-> & -> & ->); [lia..|].
  rewrite (proj2 (Z.eqb_neq _ _)).
  2: { intros Heq. destruct (unpack (rng_begin r) n i ltac:(lia) ltac:(lia)) as (Hb & _). rewrite Heq in Hb.
    change ((2 ^ 64 - 1) / 128) with (2 ^ 57 - 1) in Hb. lia. }
  zdec. replace (rng_begin r + n) with (rng_end r) by lia. by destruct r.
Qed.

(** [EncodedBlockPtr]. *)
Lemma block_ptr_encode_eq b :
  u64 b → block_ptr_encode (Some b) =
    if b <? 2 ^ 57 then Ok (to_le_bytes 8 (b * 128)) else err_internal.
Proof.
  intros [??]. unfold block_ptr_encode. change RESERVED_ENCODING_BITS with 7. ostep.
  rewrite shift7 by lia. destruct (Z.ltb_spec b (2 ^ 57)).
  - rewrite !wrap_small by (rewrite ?Z.shiftl_mul_pow2 by done; unfold in_u; lia). zdec.
    by rewrite Z.shiftl_mul_pow2.
  - pose proof (wrap_in_u 57 b ltac:(done)) as [??]. by zdec.
Qed.

Lemma block_ptr_decode_eq p s :
  Forall u8 p → length p = 8%nat → 0 ≤ s < 57 →
  let x := from_le_bytes p in
  block_ptr_decode p s =
    if x =? 2 ^ 64 - 1 then Ok None
    else if (x mod 128 =? 0) && (x / 128 <? 2 ^ (57 - s)) then Ok (Some (x / 128))
    else Err (from_format InvalidExtents).
Proof.
  intros Hp Hl Hs x. unfold block_ptr_decode. rewrite unot_64_0.
  pose proof (from_le_bytes_bound p Hp) as Hx. rewrite Hl in Hx. fold x in Hx |- *.
  change (256 ^ Z.of_nat 8) with (2 ^ 64) in Hx. destruct (Z.eqb_spec x (2 ^ 64 - 1)); [done|].
  change RESERVED_ENCODING_BITS with 7. ostep. rewrite Z.shiftr_div_pow2, Z.shiftl_mul_pow2 by done.
  change (2 ^ 7) with 128. pose proof (Z.div_mod x 128 ltac:(done)).
  pose proof (Z.mod_pos_bound x 128 ltac:(done)).
  rewrite wrap_small by (unfold in_u; lia). destruct (Z.eqb_spec (x mod 128) 0); zdec; [|done].
  ostep. rewrite Z.shiftr_div_pow2 by lia. replace (64 - (s + 7)) with (57 - s) by lia.
  pose proof (pow2_pos (57 - s) ltac:(lia)). pose proof (Z.div_pos x 128).
  destruct (Z.ltb_spec (x / 128) (2 ^ (57 - s))).
  - by rewrite Z.div_small by lia.
  - assert (1 ≤ (x / 128) / 2 ^ (57 - s)) by (apply Z.div_le_lower_bound; lia). by zdec.
Qed.
End Ops.

(** ** Properties *)

Section Properties.
Context {B : Build}.

(** An extent of at most 64 blocks that ends within the addressable blocks
    is encoded to eight bytes that decode to it and its flag. *)
Lemma extent_ptr_roundtrip r (i : bool) s :
  0 ≤ s < 57 → range_ok r → rng_end r - rng_begin r ≤ 64 → rng_end r < 2 ^ (57 - s) →
  ∃ p, extent_ptr_encode (Some r) i = Ok p ∧ length p = 8%nat ∧ Forall u8 p ∧
    extent_ptr_decode p s = Ok (Some (r, i)).
Proof. apply extent_ptr_decode_encode. Qed.

(** Decoding any eight bytes ends with the nil pointer, with the format error
    or with a range of 1 to 64 addressable blocks that encodes to the same
    bytes. *)
Lemma extent_ptr_decode_correct p s :
  Forall u8 p → length p = 8%nat → 0 ≤ s < 57 →
  match extent_ptr_decode p s with
  | Ok None => p = extent_ptr_encode_nil
  | Ok (Some (r, i)) => range_ok r ∧ rng_end r - rng_begin r ≤ 64 ∧ rng_end r < 2 ^ (57 - s) ∧
      extent_ptr_encode (Some r) i = Ok p
  | Err e => e = from_format InvalidExtents
  | _ => False
  end.
Proof.
  intros Hp Hl Hs. rewrite extent_ptr_decode_eq by done. pose proof (from_le_bytes_bound p Hp) as Hx.
  pose proof (to_from_le_bytes p Hp) as Hback. rewrite Hl in Hx, Hback. change (256 ^ Z.of_nat 8) with (2 ^ 64) in Hx.
  set (x := from_le_bytes p) in *. pose proof (Z.mod_pos_bound (x / 2) 64 ltac:(done)).
  assert (0 ≤ x / 128) by (apply Z.div_pos; lia).
  assert (2 ^ (57 - s) ≤ 2 ^ 57) by (apply Z.pow_le_mono_r; lia).
  destruct (Z.eqb_spec x (2 ^ 64 - 1)) as [Hx'|]; [by rewrite <-Hback, Hx'|].
  zcase; [|done]. split; [unfold range_ok; cbn; lia|]. split; [cbn; lia|]. split; [done|].
  rewrite extent_ptr_encode_eq by (cbn; lia). cbn [rng_begin rng_end].
  replace (x / 128 + ((x / 2) mod 64 + 1) - x / 128) with ((x / 2) mod 64 + 1) by lia. zdec.
  rewrite repack by lia. by rewrite Hback.
Qed.

(** Block pointers round-trip, and decoding any eight bytes ends with the nil
    pointer, the format error or an addressable block that encodes to the same
    bytes. *)
Lemma block_ptr_correct s :
  0 ≤ s < 57 →
  (∀ b, 0 ≤ b < 2 ^ (57 - s) →
    ∃ p, block_ptr_encode (Some b) = Ok p ∧ length p = 8%nat ∧ block_ptr_decode p s = Ok (Some b)) ∧
  (∀ p, Forall u8 p → length p = 8%nat →
    match block_ptr_decode p s with
    | Ok None => p = block_ptr_encode_nil
    | Ok (Some b) => 0 ≤ b < 2 ^ (57 - s) ∧ block_ptr_encode (Some b) = Ok p
    | Err e => e = from_format InvalidExtents
    | _ => False
    end).
Proof.
  intros Hs. assert (2 ^ (57 - s) ≤ 2 ^ 57) by (apply Z.pow_le_mono_r; lia). split.
  - intros b Hb. rewrite block_ptr_encode_eq by (unfold in_u; lia). zdec. eexists. split; [done|].
    split; [apply length_to_le_bytes|].
    rewrite block_ptr_decode_eq by (done || apply to_le_bytes_u8 || apply length_to_le_bytes).
    rewrite from_to_le_bytes by (change (256 ^ Z.of_nat 8) with (2 ^ 64); lia).
    rewrite Z.mod_mul, Z.div_mul by done. zdec. done.
  - intros p Hp Hl. rewrite block_ptr_decode_eq by done. pose proof (from_le_bytes_bound p Hp) as Hx.
    pose proof (to_from_le_bytes p Hp) as Hback. rewrite Hl in Hx, Hback. change (256 ^ Z.of_nat 8) with (2 ^ 64) in Hx.
    set (x := from_le_bytes p) in *. assert (0 ≤ x / 128) by (apply Z.div_pos; lia).
    destruct (Z.eqb_spec x (2 ^ 64 - 1)) as [Hx'|]; [by rewrite <-Hback, Hx'|].
    destruct (Z.eqb_spec (x mod 128) 0); cbn [andb]; [|done]. zcase; [|done]. split; [lia|].
    rewrite block_ptr_encode_eq by (unfold in_u; lia). zdec. pose proof (Z.div_mod x 128 ltac:(done)).
    replace (x / 128 * 128) with x by lia. by rewrite Hback.
Qed.
End Properties.

Lemma extent_ptr_roundtrip_witness :
  ∃ p, extent_ptr_encode (B:=debug_build) (Some (mk_range 5 9)) true = Ok p ∧ length p = 8%nat ∧ Forall u8 p ∧
    extent_ptr_decode (B:=debug_build) p 3 = Ok (Some (mk_range 5 9, true)).
Proof.
  apply (extent_ptr_roundtrip (B:=debug_build) (mk_range 5 9) true 3); try done; unfold range_ok; cbn; lia.
Defined.

Lemma extent_ptr_decode_correct_witness :
  extent_ptr_encode (B:=debug_build) (Some (mk_range 5 9)) true = Ok [135; 2; 0; 0; 0; 0; 0; 0].
Proof.
  apply (extent_ptr_decode_correct (B:=debug_build) [135; 2; 0; 0; 0; 0; 0; 0] 3); try done.
  by repeat constructor.
Defined.

Lemma block_ptr_correct_witness :
  ∃ p, block_ptr_encode (B:=debug_build) (Some 77) = Ok p ∧ length p = 8%nat ∧
    block_ptr_decode (B:=debug_build) p 3 = Ok (Some 77).
Proof. apply (block_ptr_correct (B:=debug_build) 3); done. Defined.

End ExtentPtr.
