(* ===== verification/PhysicalExtents.v ===== *)
(** * Extents lists (storage/src/fs/cocoonfs/extents.rs, [PhysicalExtents])

    The vector of [(begin, count)] pairs that makes up a [PhysicalExtents] is a
    list of pairs.  Operations that can fail return the updated list only on
    success: the code reserves memory before it touches the vector, so that an
    error leaves it as it was.  A reservation that the code skips because the
    vector has spare capacity is one that the allocator grants. *)

From S2P Require Import Prelude BitManip Errors Layout.
Import BitManip Errors Layout.

Module PhysicalExtents.

Abbreviation extents := (list (Z * Z)).
Abbreviation res := (outcome NvFsError).

Section Ops.
Context {B : Build} {Alloc : Allocator}.
Implicit Types self : extents.

Definition try_clone self : res extents :=
  let! _ := try_reserve 0 (length self) in
  Ok self.

Definition unpack_entry (entry : Z * Z) : res BlockRange := range_from entry.1 entry.2.

Definition get_extent_range self (i : nat) : res BlockRange :=
  let! entry := idx self i in
  unpack_entry entry.

(** [(0..self.len()).any(|i| self.get_extent_range(i).overlaps_with(range))]. *)
Fixpoint any_overlaps self (range : BlockRange) : res bool :=
  match self with
  | [] => Ok false
  | entry :: self =>
      let! r := unpack_entry entry in
      if overlaps_with r range then Ok true else any_overlaps self range
  end.

(** The part of [insert_extent] that merges the new extent into its
    neighbours; [None] if it has none it is adjacent to. *)
Definition merge_extent self (pos : nat) (range : BlockRange) (count : Z) : res (option extents) :=
  let! follows :=
    if (0 <? pos)%nat then
      let! r := get_extent_range self (pos - 1) in Ok (rng_end r =? rng_begin range)
    else Ok false in
  if follows then
    let! e := idx self (pos - 1) in
    let! c := uadd 64 e.2 count in
    let! self := set_idx self (pos - 1) (e.1, c) in
    let! joins :=
      if (pos <? length self)%nat then
        let! r := get_extent_range self (pos - 1) in
        let! r' := get_extent_range self pos in
        Ok (rng_end r =? rng_begin r')
      else Ok false in
    if joins then
      let! e := idx self (pos - 1) in
      let! e' := idx self pos in
      let! c := uadd 64 e.2 e'.2 in
      let! self := set_idx self (pos - 1) (e.1, c) in
      let! self := vec_remove self pos in
      Ok (Some self)
    else Ok (Some self)
  else
    let! precedes :=
      if (pos <? length self)%nat then
        let! r := get_extent_range self pos in Ok (rng_end range =? rng_begin r)
      else Ok false in
    if precedes then
      let! e := idx self pos in
      let! c := uadd 64 e.2 count in
      let! self := set_idx self pos (rng_begin range, c) in
      Ok (Some self)
    else Ok None.

Definition insert_extent self (pos : nat) (range : BlockRange) (no_merge : bool) : res extents :=
  let! _ := debug_assert (pos <=? length self)%nat in
  let! count := block_count range in
  if count =? 0 then Ok self
  else
    let! _ := debug_check (let! o := any_overlaps self range in Ok (negb o)) in
    let! merged := if no_merge then Ok None else merge_extent self pos range count in
    match merged with
    | Some self => Ok self
    | None =>
        let! _ := try_reserve (length self) 1 in
        vec_insert self pos (rng_begin range, count)
    end.

Definition push_extent self (range : BlockRange) (no_merge : bool) : res extents :=
  insert_extent self (length self) range no_merge.

Definition pop_extent self : extents := take (length self - 1) self.

Definition remove_extent self (i : nat) : res extents := vec_remove self i.

Definition append_extents self (other : extents) (no_merge : bool) : res extents :=
  match other with
  | [] => Ok self
  | first :: rest =>
      if (length self =? 0)%nat then try_clone other
      else
        let! separate :=
          if no_merge then Ok true
          else
            let! r := get_extent_range self (length self - 1) in
            let! r' := get_extent_range other 0 in
            Ok (negb (rng_end r =? rng_begin r')) in
        if separate then
          let! _ := try_reserve (length self) (length other) in
          Ok (self ++ other)
        else
          let! _ := try_reserve (length self) (length other - 1) in
          let! e := idx self (length self - 1) in
          let! c := uadd 64 e.2 first.2 in
          let! self := set_idx self (length self - 1) (e.1, c) in
          Ok (self ++ rest)
  end.

Definition split self (i : nat) (offset_in_extent : Z) : res (extents * extents) :=
  let! at_end :=
    if (i <? length self)%nat then
      let! r := get_extent_range self i in
      let! n := block_count r in
      Ok (offset_in_extent =? n)
    else Ok false in
  let i := if at_end then S i else i in
  let offset_in_extent := if at_end then 0 else offset_in_extent in
  if (i =? length self)%nat then Ok (self, [])
  else
    let! n := nsub (length self) i in
    let! _ := try_reserve 0 n in
    let! split_off_extents := slice_from self i in
    let! e := idx split_off_extents 0 in
    let! b := uadd 64 e.1 offset_in_extent in
    let! c := usub 64 e.2 offset_in_extent in
    let! split_off_extents := set_idx split_off_extents 0 (b, c) in
    if negb (offset_in_extent =? 0) then
      let! e := idx self i in
      let! self := set_idx self i (e.1, offset_in_extent) in
      let! self := vec_drain self (S i) (length self) in
      Ok (self, split_off_extents)
    else
      let! self := vec_drain self i (length self) in
      Ok (self, split_off_extents).

Definition shrink_extent_by self (i : nat) (allocation_blocks : Z) : res (extents * bool) :=
  let! e := idx self i in
  let! _ := debug_assert (allocation_blocks <=? e.2) in
  if allocation_blocks =? e.2 then
    let! self := remove_extent self i in
    Ok (self, true)
  else
    let! c := usub 64 e.2 allocation_blocks in
    let! self := set_idx self i (e.1, c) in
    Ok (self, false).

(** The items of [PhysicalExtentsIterator]. *)
Fixpoint iter self : res (list BlockRange) :=
  match self with
  | [] => Ok []
  | entry :: self =>
      let! r := range_from entry.1 entry.2 in
      let! rs := iter self in
      Ok (r :: rs)
  end.
(** The merging loop of [sort_extents_by], over the positions
    [start..start + n] from the last down to the first. *)
Fixpoint merge_range self (start n : nat) : res extents :=
  match n with
  | O => Ok self
  | S n =>
      let pos := (start + n)%nat in
      let! p := nsub pos 1 in
      let! r := get_extent_range self p in
      let! r' := get_extent_range self pos in
      if rng_end r =? rng_begin r' then
        let! e := idx self p in
        let! e' := idx self pos in
        let! c := uadd 64 e.2 e'.2 in
        let! self := set_idx self p (e.1, c) in
        let! self := vec_remove self pos in
        merge_range self start n
      else merge_range self start n
  end.

(** [compare] is given by whether it orders its first argument not after its
    second.  A sort of two entries or more unpacks each of them. *)
Definition sort_extents_by self (start stop : nat) (compare : BlockRange → BlockRange → bool)
    (no_merge : bool) : res extents :=
  if negb ((start <=? stop)%nat && (stop <=? length self)%nat) then Panic
  else
    let le e0 e1 := compare (mk_range e0.1 (e0.1 + e0.2)) (mk_range e1.1 (e1.1 + e1.2)) in
    let sorted := take (stop - start) (drop start self) in
    let! _ := if (length sorted <? 2)%nat then Ok [] else iter sorted in
    let self := take start self ++ sort_by le sorted ++ drop stop self in
    if no_merge then Ok self
    else
      let start := if (start =? 0)%nat then 1%nat else start in
      let stop := if (stop <? length self)%nat then S stop else stop in
      merge_range self start (stop - start).

Definition swap_extents self (i j : nat) : res extents :=
  let! e := idx self i in
  let! e' := idx self j in
  let! self := set_idx self i e' in
  set_idx self j e.

End Ops.

(** ** Specification *)

(** The blocks that an extents list describes, in its order. *)
Definition pe_blocks (l : extents) : list Z := mjoin ((λ e, seqZ e.1 e.2) <$> l).

(** An entry that describes at least one block, within the 64 bit range. *)
Definition entry_ok (e : Z * Z) : Prop := 0 ≤ e.1 ∧ 0 < e.2 ∧ e.1 + e.2 < 2 ^ 64.
Definition pe_wf (l : extents) : Prop := Forall entry_ok l.

(** No extent is followed by one it could be merged with. *)
Fixpoint coalesced (l : extents) : Prop :=
  match l with
  | [] => True
  | e :: l => match l with [] => True | e' :: _ => e.1 + e.2 ≠ e'.1 end ∧ coalesced l
  end.

Definition entry_range (e : Z * Z) : BlockRange := mk_range e.1 (e.1 + e.2).
Definition range_blocks (r : BlockRange) : list Z := seqZ (rng_begin r) (rng_end r - rng_begin r).

Lemma pe_blocks_cons e l : pe_blocks (e :: l) = seqZ e.1 e.2 ++ pe_blocks l.
Proof. done. Qed.

Lemma pe_blocks_app l l' : pe_blocks (l ++ l') = pe_blocks l ++ pe_blocks l'.
Proof. unfold pe_blocks. by rewrite fmap_app, join_app. Qed.

Lemma seqZ_app b n m : 0 ≤ n → 0 ≤ m → seqZ b n ++ seqZ (b + n) m = seqZ b (n + m).
Proof. intros. by rewrite <-seqZ_app. Qed.

Lemma elem_of_pe_blocks x l : x ∈ pe_blocks l ↔ ∃ e, e ∈ l ∧ e.1 ≤ x < e.1 + e.2.
Proof.
  unfold pe_blocks. rewrite list_elem_of_join. setoid_rewrite list_elem_of_fmap. split.
  - intros (? & Hx & e & -> & ?). exists e. rewrite elem_of_seqZ in Hx. split; [done|lia].
  - intros (e & ? & ?). exists (seqZ e.1 e.2). rewrite elem_of_seqZ. split; [lia|by exists e].
Qed.

Lemma coalesced_cons e l :
  coalesced (e :: l) ↔ (∀ e', head l = Some e' → e.1 + e.2 ≠ e'.1) ∧ coalesced l.
Proof. destruct l; cbn; naive_solver. Qed.

Lemma coalesced_short l : (length l ≤ 1)%nat → coalesced l.
Proof. destruct l as [|? [|]]; cbn; (done || lia). Qed.

Lemma coalesced_app l1 l2 :
  coalesced (l1 ++ l2) ↔
    coalesced l1 ∧ coalesced l2 ∧ ∀ e e', last l1 = Some e → head l2 = Some e' → e.1 + e.2 ≠ e'.1.
Proof.
  induction l1 as [|e [|e' l1] IH]; cbn [app coalesced] in *.
  - naive_solver.
  - destruct l2; cbn; naive_solver.
  - rewrite IH. cbn. naive_solver.
Qed.

Lemma pe_wf_app l l' : pe_wf (l ++ l') ↔ pe_wf l ∧ pe_wf l'.
Proof. apply Forall_app. Qed.
Lemma pe_wf_cons e l : pe_wf (e :: l) ↔ entry_ok e ∧ pe_wf l.
Proof. apply Forall_cons. Qed.

Lemma coalesced_middle l1 e l2 :
  coalesced (l1 ++ e :: l2) ↔ coalesced l1 ∧ coalesced l2 ∧
    (∀ e0, last l1 = Some e0 → e0.1 + e0.2 ≠ e.1) ∧
    (∀ e', head l2 = Some e' → e.1 + e.2 ≠ e'.1).
Proof. intros. rewrite coalesced_app, coalesced_cons. cbn. naive_solver. Qed.

Section Spec.
Context {B : Build} {Alloc : Allocator}.
Implicit Types l : extents.

Lemma unpack_entry_Ok e : entry_ok e → unpack_entry e = Ok (entry_range e).
Proof. intros (? & ? & ?). by apply range_from_Ok. Qed.

Lemma get_extent_range_Ok l i e :
  l !! i = Some e → entry_ok e → get_extent_range l i = Ok (entry_range e).
Proof. intros Hi ?. unfold get_extent_range. rewrite (idx_Ok _ _ _ Hi). by apply unpack_entry_Ok. Qed.

Lemma any_overlaps_false l r :
  pe_wf l → rng_begin r < rng_end r → (∀ x, x ∈ r → x ∉ pe_blocks l) → any_overlaps l r = Ok false.
Proof.
  intros Hl Hr Hd. induction Hl as [|e l (? & ? & ?) Hl IH]; cbn [any_overlaps]; [done|].
  rewrite unpack_entry_Ok by done. cbn [obind].
  destruct (overlaps_with (entry_range e) r) eqn:Ho.
  - apply overlaps_with_spec in Ho as (x & Hx & Hxr); [|cbn; lia|done]. exfalso. apply (Hd x Hxr).
    apply elem_of_pe_blocks. exists e. split; [by left|]. by apply Hx.
  - apply IH. intros x Hx. specialize (Hd x Hx). rewrite pe_blocks_cons in Hd. set_solver.
Qed.

(** The list that the merging part of [insert_extent] makes of [l1 ++ l2]. *)
Inductive merged (b n : Z) : extents → extents → extents → Prop :=
| merged_both l1 e e' l2 :
    e.1 + e.2 = b → b + n = e'.1 →
    merged b n (l1 ++ [e]) (e' :: l2) (l1 ++ (e.1, e.2 + n + e'.2) :: l2)
| merged_left l1 e l2 :
    e.1 + e.2 = b → (∀ e', head l2 = Some e' → b + n ≠ e'.1) →
    merged b n (l1 ++ [e]) l2 (l1 ++ (e.1, e.2 + n) :: l2)
| merged_right l1 e' l2 :
    (∀ e, last l1 = Some e → e.1 + e.2 ≠ b) → b + n = e'.1 →
    merged b n l1 (e' :: l2) (l1 ++ (b, e'.2 + n) :: l2).

(** There is nothing to merge with. *)
Definition isolated (b n : Z) l1 l2 : Prop :=
  (∀ e, last l1 = Some e → e.1 + e.2 ≠ b) ∧ (∀ e', head l2 = Some e' → b + n ≠ e'.1).

Lemma follows_eq l1 l2 b :
  pe_wf (l1 ++ l2) →
  (if (0 <? length l1)%nat then
     let! r := get_extent_range (l1 ++ l2) (length l1 - 1) in Ok (rng_end r =? b)
   else Ok false) = Ok (match last l1 with Some e => e.1 + e.2 =? b | None => false end) :> res bool.
Proof.
  intros [Hl1 _]%Forall_app. destruct l1 as [|e l1 _] using rev_ind; [done|].
  apply Forall_app in Hl1 as [_ [He _]%Forall_cons].
  rewrite last_snoc, length_app, Nat.add_sub, <-app_assoc. cbn [length app]. zdec.
  unfold get_extent_range. rewrite idx_middle. cbn [obind]. by rewrite unpack_entry_Ok.
Qed.

Lemma precedes_eq l1 l2 b n :
  pe_wf (l1 ++ l2) →
  (if (length l1 <? length (l1 ++ l2))%nat then
     let! r := get_extent_range (l1 ++ l2) (length l1) in Ok (b + n =? rng_begin r)
   else Ok false) = Ok (match head l2 with Some e' => b + n =? e'.1 | None => false end) :> res bool.
Proof.
  intros [_ Hl2]%Forall_app. rewrite length_app. destruct l2 as [|e' l2]; cbn [length head].
  { by zdec. }
  apply Forall_cons in Hl2 as [He _]. zdec.
  unfold get_extent_range. rewrite idx_middle. cbn [obind]. by rewrite unpack_entry_Ok.
Qed.

Lemma merge_extent_left l1 e l2 b n :
  pe_wf ((l1 ++ [e]) ++ l2) → entry_ok (b, n) → e.1 + e.2 = b →
  ∃ l, merge_extent ((l1 ++ [e]) ++ l2) (length (l1 ++ [e])) (entry_range (b, n)) n = Ok (Some l) ∧
    merged b n (l1 ++ [e]) l2 l.
Proof.
  intros Hwf (? & ? & ?) Hb. cbn [fst snd] in *. unfold merge_extent.
  cbn [entry_range rng_begin rng_end fst snd]. rewrite follows_eq, last_snoc by done. cbn [obind]. zdec.
  apply Forall_app in Hwf as [[_ [(? & ? & ?) _]%Forall_cons]%Forall_app Hl2].
  rewrite length_app, Nat.add_sub, <-app_assoc. cbn [length app]. rewrite Nat.add_1_r. ostep.
  rewrite length_app. cbn [length].
  destruct l2 as [|e' l2]; cbn [length].
  { zdec. cbn [obind]. eexists. split; [done|]. by constructor. }
  apply Forall_cons in Hl2 as [(? & ? & ?) _]. zdec. unfold get_extent_range. ostep.
  rewrite !unpack_entry_Ok by (unfold entry_ok; cbn; lia). cbn [obind entry_range rng_end rng_begin fst snd].
  zcase; ostep; cbn [fst snd]; ostep.
  - eexists. split; [done|]. apply merged_both; lia.
  - eexists. split; [done|]. apply merged_left; [done|]. intros ? [= <-]. lia.
Qed.

Lemma merge_extent_right l1 l2 b n :
  pe_wf (l1 ++ l2) → entry_ok (b, n) → (∀ e, last l1 = Some e → e.1 + e.2 ≠ b) →
  (∃ l, merge_extent (l1 ++ l2) (length l1) (entry_range (b, n)) n = Ok (Some l) ∧ merged b n l1 l2 l) ∨
  (merge_extent (l1 ++ l2) (length l1) (entry_range (b, n)) n = Ok None ∧ isolated b n l1 l2).
Proof.
  intros Hwf (? & ? & ?) Hb. cbn [fst snd] in *. unfold merge_extent.
  cbn [entry_range rng_begin rng_end fst snd]. rewrite follows_eq, precedes_eq by done.
  replace (match last l1 with Some _ => _ | None => _ end) with false.
  2: { destruct (last l1) as [e|]; [|done]. specialize (Hb e eq_refl). by zdec. }
  cbn [obind]. apply Forall_app in Hwf as [_ Hl2]. destruct l2 as [|e' l2]; cbn [head obind].
  { by right. }
  apply Forall_cons in Hl2 as [(? & ? & ?) _]. zcase.
  - left. ostep. eexists. split; [done|]. by apply merged_right.
  - right. repeat split; [done|]. by intros ? [= <-].
Qed.

Lemma merge_extent_spec l1 l2 b n :
  pe_wf (l1 ++ l2) → entry_ok (b, n) →
  (∃ l, merge_extent (l1 ++ l2) (length l1) (entry_range (b, n)) n = Ok (Some l) ∧ merged b n l1 l2 l) ∨
  (merge_extent (l1 ++ l2) (length l1) (entry_range (b, n)) n = Ok None ∧ isolated b n l1 l2).
Proof.
  intros. destruct l1 as [|e l1 _] using rev_ind; [by apply merge_extent_right|].
  destruct (Z.eq_dec (e.1 + e.2) b).
  - left. by apply merge_extent_left.
  - apply merge_extent_right; [done..|]. rewrite last_snoc. by intros ? [= <-].
Qed.

(** A merge keeps the blocks, the entries well-formed and the list coalesced. *)
Lemma merged_blocks b n l1 l2 l :
  pe_wf (l1 ++ l2) → entry_ok (b, n) → merged b n l1 l2 l →
  pe_blocks l = pe_blocks l1 ++ seqZ b n ++ pe_blocks l2 ∧ pe_wf l.
Proof.
  intros Hwf (? & ? & ?) Hm. cbn [fst snd] in *.
  destruct Hm; unfold pe_wf in *; rewrite ?Forall_app, ?Forall_cons in Hwf; unfold entry_ok in *;
    destruct_and!.
  - split; [|rewrite Forall_app, Forall_cons; repeat split; cbn; done || lia].
    rewrite !pe_blocks_app, !pe_blocks_cons. cbn [fst snd]. change (pe_blocks []) with ([] : list Z).
    rewrite <-!app_assoc, app_nil_l, (app_assoc (seqZ b n)).
    replace (seqZ b n ++ seqZ e'.1 e'.2) with (seqZ b (n + e'.2)).
    2: { rewrite <-seqZ_app by lia. by f_equal; f_equal. }
    f_equal. rewrite app_assoc. f_equal. subst b. rewrite seqZ_app by lia. f_equal. lia.
  - split; [|rewrite Forall_app, Forall_cons; repeat split; cbn; done || lia].
    rewrite !pe_blocks_app, !pe_blocks_cons. cbn [fst snd]. change (pe_blocks []) with ([] : list Z).
    rewrite <-!app_assoc, app_nil_l. f_equal. rewrite app_assoc. f_equal. subst b. by rewrite seqZ_app by lia.
  - split; [|rewrite Forall_app, Forall_cons; repeat split; cbn; done || lia].
    rewrite !pe_blocks_app, !pe_blocks_cons. cbn [fst snd]. f_equal. rewrite app_assoc. f_equal.
    replace e'.1 with (b + n) by lia. rewrite seqZ_app by lia. f_equal. lia.
Qed.

Lemma merged_coalesced b n l1 l2 l : coalesced (l1 ++ l2) → merged b n l1 l2 l → coalesced l.
Proof.
  intros Hc Hm. destruct Hm as [l1 e e' l2 ??|l1 e l2 ??|l1 e' l2 ??]; rewrite <-?app_assoc in Hc;
    cbn [app] in Hc; rewrite ?coalesced_middle, ?coalesced_cons in *; cbn [fst snd] in *; destruct_and!;
    split_and!; try done; intros e0 He0;
    repeat match goal with Hd : ∀ _, head l2 = Some _ → _ |- _ => specialize (Hd e0 He0) end; lia.
Qed.

(** What [insert_extent] turns [l1 ++ l2] into. *)
Definition inserted (r : BlockRange) (no_merge : bool) l1 l2 l : Prop :=
  pe_wf l ∧ pe_blocks l = pe_blocks l1 ++ range_blocks r ++ pe_blocks l2 ∧
  (if no_merge then l = l1 ++ (rng_begin r, rng_end r - rng_begin r) :: l2
   else coalesced (l1 ++ l2) → coalesced l).

Lemma inserted_cons r (no_merge : bool) l1 l2 :
  pe_wf (l1 ++ l2) → range_ok r →
  (no_merge = false → isolated (rng_begin r) (rng_end r - rng_begin r) l1 l2) →
  inserted r no_merge l1 l2 (l1 ++ (rng_begin r, rng_end r - rng_begin r) :: l2).
Proof.
  intros [? ?]%Forall_app [??] Hi. split; [|split].
  - apply Forall_app. split; [done|]. apply Forall_cons. split; [|done]. unfold entry_ok. cbn. lia.
  - by rewrite pe_blocks_app, pe_blocks_cons.
  - destruct no_merge; [done|]. destruct (Hi eq_refl) as [Hl Hr].
    rewrite !coalesced_app, coalesced_cons. cbn [head fst snd]. naive_solver.
Qed.

Lemma insert_extent_spec l1 l2 r no_merge :
  pe_wf (l1 ++ l2) → range_ok r → (∀ x, x ∈ r → x ∉ pe_blocks (l1 ++ l2)) →
  (∃ l, insert_extent (l1 ++ l2) (length l1) r no_merge = Ok l ∧ inserted r no_merge l1 l2 l) ∨
  (insert_extent (l1 ++ l2) (length l1) r no_merge = Err MemoryAllocationFailure ∧
   alloc_ok (length (l1 ++ l2)) 1 = false).
Proof.
  intros Hwf Hr Hd. pose proof Hr as [? ?].
  set (n := rng_end r - rng_begin r).
  assert (entry_ok (rng_begin r, n)) as Hn by (unfold entry_ok, n; cbn; lia).
  assert (entry_range (rng_begin r, n) = r) as Hrn.
  { destruct r. unfold entry_range, n. cbn. f_equal. lia. }
  unfold insert_extent. rewrite block_count_Ok by lia. fold n.
  rewrite (proj2 (Nat.leb_le (length l1) (length (l1 ++ l2)))) by (rewrite length_app; lia).
  cbn [debug_assert obind]. rewrite (proj2 (Z.eqb_neq n 0)) by lia.
  rewrite debug_check_true by (by rewrite any_overlaps_false by (done || lia)). cbn [obind].
  assert (∀ no_merge, (no_merge = false → isolated (rng_begin r) n l1 l2) →
    let c := let! _ := try_reserve (length (l1 ++ l2)) 1 in
             vec_insert (l1 ++ l2) (length l1) (rng_begin r, n) in
    (∃ l, c = Ok l ∧ inserted r no_merge l1 l2 l) ∨
    (c = Err MemoryAllocationFailure ∧ alloc_ok (length (l1 ++ l2)) 1 = false)) as Hins.
  { intros no_merge' Hi c. unfold c, try_reserve. destruct (alloc_ok (length (l1 ++ l2)) 1); [left|by right].
    ostep. eexists. split; [done|]. by apply inserted_cons. }
  destruct no_merge; [by apply Hins|].
  destruct (merge_extent_spec l1 l2 _ _ Hwf Hn) as [(l & Hm & Hl)|[Hm Hi]];
    rewrite Hrn in Hm; rewrite Hm; cbn [obind].
  - left. exists l. split; [done|]. destruct (merged_blocks _ _ _ _ _ Hwf Hn Hl).
    split; [done|]. split; [done|]. intros. by apply (merged_coalesced _ _ _ _ _ ltac:(done) Hl).
  - by apply Hins.
Qed.

Lemma insert_extent_empty l pos r no_merge :
  (pos ≤ length l)%nat → rng_begin r = rng_end r → insert_extent l pos r no_merge = Ok l.
Proof.
  intros ? Hr. unfold insert_extent. zdec. rewrite block_count_Ok by lia. cbn [debug_assert obind]. by zdec.
Qed.

(** Inserting blocks that are not there keeps the blocks distinct. *)
Lemma inserted_NoDup r no_merge l1 l2 l :
  NoDup (pe_blocks (l1 ++ l2)) → (∀ x, x ∈ r → x ∉ pe_blocks (l1 ++ l2)) →
  inserted r no_merge l1 l2 l → NoDup (pe_blocks l).
Proof.
  intros Hnd Hd (_ & -> & _). rewrite pe_blocks_app in Hnd, Hd.
  assert (∀ x, x ∈ range_blocks r → x ∈ r).
  { unfold range_blocks. intros x Hx%elem_of_seqZ. rewrite elem_of_range. lia. }
  apply NoDup_app in Hnd as (? & ? & ?). rewrite !NoDup_app. repeat split; try done.
  - set_solver.
  - apply NoDup_seqZ.
  - set_solver.
Qed.

(** *** Appending *)

Lemma merged_pair e e' :
  entry_ok e → entry_ok e' → e.1 + e.2 = e'.1 →
  entry_ok (e.1, e.2 + e'.2) ∧ seqZ e.1 (e.2 + e'.2) = seqZ e.1 e.2 ++ seqZ e'.1 e'.2.
Proof.
  intros (? & ? & ?) (? & ? & ?) He. split; [unfold entry_ok; cbn; lia|].
  rewrite <-He. by rewrite seqZ_app by lia.
Qed.

Lemma append_extents_spec l l' (no_merge : bool) :
  pe_wf l → pe_wf l' →
  (∃ r, append_extents l l' no_merge = Ok r ∧ pe_wf r ∧ pe_blocks r = pe_blocks l ++ pe_blocks l' ∧
     (if no_merge then r = l ++ l' else coalesced l → coalesced l' → coalesced r)) ∨
  (append_extents l l' no_merge = Err MemoryAllocationFailure ∧ ∃ n m, alloc_ok n m = false).
Proof.
  intros Hl Hl'. unfold append_extents, try_clone, try_reserve. destruct l' as [|f l'].
  { left. exists l. rewrite !app_nil_r. by destruct no_merge. }
  destruct l as [|e l _] using rev_ind.
  { cbn [length Nat.eqb]. destruct (alloc_ok _ _) eqn:Ha; [left|right; eauto].
    exists (f :: l'). by destruct no_merge. }
  apply pe_wf_app in Hl as [Hl [He _]%pe_wf_cons]. apply pe_wf_cons in Hl' as [Hf Hl'].
  rewrite length_app. cbn [length]. zdec. rewrite Nat.add_sub.
  rewrite !(get_extent_range_Ok _ _ e) by first [done | by apply list_lookup_middle].
  rewrite !(get_extent_range_Ok (f :: l') _ f) by done.
  cbn [obind entry_range rng_begin rng_end].
  destruct no_merge; cbn [obind].
  { destruct (alloc_ok _ _) eqn:Ha; [left|right; eauto]. eexists. split; [done|].
    rewrite !pe_wf_app, !pe_wf_cons, pe_blocks_app. split_and!; try done. by apply Forall_nil. }
  destruct (Z.eqb_spec (e.1 + e.2) f.1) as [Hef|Hef]; cbn [negb];
    (destruct (alloc_ok _ _) eqn:Ha; [left|right; eauto]); cbn [obind].
  - destruct (merged_pair e f) as [? Hb]; [done..|]. ostep. pose proof He as (? & ? & ?).
    rewrite uadd_Ok by (destruct Hf as (? & ? & ?); lia). cbn [obind].
    rewrite set_idx_middle. cbn [obind]. eexists. split; [done|].
    rewrite <-!app_assoc. cbn [app]. rewrite !pe_wf_app, !pe_wf_cons, !pe_blocks_app, !pe_blocks_cons.
    cbn [fst snd]. rewrite Hb, <-!app_assoc. split_and!; [done..|].
    rewrite !coalesced_middle, coalesced_cons. cbn [head fst snd]. intros (? & ? & ? & ?) (Hn & ?).
    split_and!; [done..|]. intros e' He'. specialize (Hn e' He'). lia.
  - eexists. split; [done|]. rewrite !pe_wf_app, !pe_wf_cons, !pe_blocks_app.
    split_and!; try done; [by apply Forall_nil|].
    intros. rewrite coalesced_app. split_and!; [done..|]. rewrite last_snoc. by intros ?? [= <-] [= <-].
Qed.

(** *** Splitting and shrinking *)

Lemma split_seqZ b n m : 0 ≤ m ≤ n → seqZ b n = seqZ b m ++ seqZ (b + m) (n - m).
Proof. intros. rewrite seqZ_app by lia. f_equal. lia. Qed.

(** Splitting strictly within the extent [e], or at its beginning. *)
Lemma split_within l1 e l2 off :
  pe_wf (l1 ++ e :: l2) → 0 ≤ off < e.2 →
  split (l1 ++ e :: l2) (length l1) off =
    if alloc_ok 0 (S (length l2)) then
      Ok (if off =? 0 then l1 else l1 ++ [(e.1, off)], (e.1 + off, e.2 - off) :: l2)
    else Err MemoryAllocationFailure.
Proof.
  intros [_ [He _]%pe_wf_cons]%pe_wf_app ?. pose proof He as (? & ? & ?). unfold split.
  rewrite (get_extent_range_Ok _ _ e) by first [done | by apply list_lookup_middle].
  rewrite length_app. cbn [length obind]. zdec. unfold entry_range.
  rewrite block_count_Ok by (cbn; lia). cbn [obind rng_begin rng_end].
  rewrite (proj2 (Z.eqb_neq off _)) by lia. zdec. ostep. cbn [obind]. unfold try_reserve.
  replace (length l1 + S (length l2) - length l1)%nat with (S (length l2)) by lia.
  destruct (alloc_ok 0 (S (length l2))); [|done]. cbn [obind].
  rewrite slice_from_Ok, drop_app_length by (rewrite length_app; lia). ostep.
  change (idx (e :: l2) 0) with (Ok (E:=NvFsError) e). ostep.
  change (set_idx (e :: l2) 0 ?x) with (Ok (E:=NvFsError) (x :: l2)). ostep.
  destruct (Z.eqb_spec off 0) as [->|]; cbn [negb]; unfold vec_drain.
  - rewrite length_app. cbn [length]. zdec. rewrite take_app_length, drop_ge, app_nil_r by (rewrite length_app; cbn; lia).
    done.
  - ostep. rewrite length_app. cbn [length]. zdec. rewrite (drop_ge (l1 ++ _)), app_nil_r by (rewrite length_app; cbn; lia).
    rewrite cons_middle, app_assoc, take_app_length' by (rewrite length_app; cbn; lia). done.
Qed.

(** Splitting at the end of an extent is splitting at the beginning of the next. *)
Lemma split_at_end l1 e l2 :
  pe_wf (l1 ++ e :: l2) →
  split (l1 ++ e :: l2) (length l1) e.2 =
    match l2 with
    | [] => Ok (l1 ++ [e], [])
    | _ => split (l1 ++ e :: l2) (S (length l1)) 0
    end.
Proof.
  intros [_ [He Hl2]%pe_wf_cons]%pe_wf_app. pose proof He as (? & ? & ?).
  unfold split at 1. rewrite (get_extent_range_Ok _ _ e) by first [done | by apply list_lookup_middle].
  rewrite length_app. cbn [length obind]. zdec. unfold entry_range.
  rewrite block_count_Ok by (cbn; lia). cbn [obind rng_begin rng_end].
  rewrite (proj2 (Z.eqb_eq e.2 _)) by lia. destruct l2 as [|e' l2]; cbn [length].
  { by zdec. }
  apply pe_wf_cons in Hl2 as [He' _]. pose proof He' as (? & ? & ?). unfold split.
  rewrite (get_extent_range_Ok _ _ e').
  2: { rewrite cons_middle, app_assoc. apply list_lookup_middle. rewrite length_app. cbn. lia. }
  2: done.
  rewrite length_app. cbn [length obind]. zdec. unfold entry_range.
  rewrite block_count_Ok by (cbn; lia). cbn [obind rng_begin rng_end].
  rewrite (proj2 (Z.eqb_neq 0 (_ + _ - _))) by lia. by zdec.
Qed.

Lemma split_spec l1 e l2 off :
  pe_wf (l1 ++ e :: l2) → 0 ≤ off ≤ e.2 →
  (∃ a b, split (l1 ++ e :: l2) (length l1) off = Ok (a, b) ∧ pe_wf a ∧ pe_wf b ∧
     pe_blocks a = pe_blocks l1 ++ seqZ e.1 off ∧
     pe_blocks b = seqZ (e.1 + off) (e.2 - off) ++ pe_blocks l2) ∨
  (split (l1 ++ e :: l2) (length l1) off = Err MemoryAllocationFailure ∧ ∃ n m, alloc_ok n m = false).
Proof.
  intros Hwf ?. pose proof Hwf as [Hl1 [He Hl2]%pe_wf_cons]%pe_wf_app. pose proof He as (? & ? & ?).
  destruct (Z.eq_dec off e.2) as [->|].
  - rewrite split_at_end by done. rewrite Z.sub_diag. cbn [app].
    change (seqZ (e.1 + e.2) 0) with ([] : list Z).
    destruct l2 as [|e' l2].
    { left. do 2 eexists. split; [done|]. rewrite pe_blocks_app, pe_blocks_cons, app_nil_r.
      split_and!; try done. }
    replace (S (length l1)) with (length (l1 ++ [e])) by (rewrite length_app; cbn; lia).
    rewrite cons_middle, app_assoc in Hwf |- *.
    pose proof Hwf as [? [(? & ? & ?) ?]%pe_wf_cons]%pe_wf_app.
    rewrite split_within by (done || lia). destruct (alloc_ok 0 _) eqn:?; [left|right; eauto].
    cbn [Z.eqb]. do 2 eexists. split; [done|]. rewrite pe_blocks_app, !pe_blocks_cons, app_nil_r.
    cbn [fst snd]. rewrite Z.add_0_r, Z.sub_0_r. split_and!; try done.
    apply pe_wf_cons. split; [done|by auto].
  - rewrite split_within by (done || lia). destruct (alloc_ok 0 _) eqn:?; [left|right; eauto].
    do 2 eexists. split; [done|]. rewrite pe_blocks_cons. split_and!.
    + zcase; [done|]. apply pe_wf_app. split; [done|]. apply pe_wf_cons.
      split; [unfold entry_ok; cbn; lia|by apply Forall_nil].
    + apply pe_wf_cons. split; [unfold entry_ok; cbn; lia|done].
    + zcase; [subst; by rewrite app_nil_r|]. by rewrite pe_blocks_app, pe_blocks_cons, app_nil_r.
    + done.
Qed.

Lemma shrink_extent_by_spec l1 e l2 k :
  entry_ok e → 0 ≤ k ≤ e.2 →
  shrink_extent_by (l1 ++ e :: l2) (length l1) k =
    Ok (if k =? e.2 then (l1 ++ l2, true) else (l1 ++ (e.1, e.2 - k) :: l2, false)).
Proof.
  intros (? & ? & ?) ?. unfold shrink_extent_by, remove_extent. ostep. zdec.
  cbn [debug_assert obind]. by zcase; ostep.
Qed.

(** *** Sorting *)

(** One round of the merging loop at the extents [e] and [e']. *)
Lemma merge_range_step l1 e e' l2 start n :
  pe_wf (l1 ++ e :: e' :: l2) → (start + n = S (length l1))%nat →
  merge_range (l1 ++ e :: e' :: l2) start (S n) =
    merge_range (if e.1 + e.2 =? e'.1 then l1 ++ (e.1, e.2 + e'.2) :: l2 else l1 ++ e :: e' :: l2) start n.
Proof.
  intros [_ [He [He' _]%pe_wf_cons]%pe_wf_cons]%pe_wf_app Hn. cbn [merge_range]. rewrite Hn, nsub_Ok by lia.
  cbn [obind]. replace (S (length l1) - 1)%nat with (length l1) by lia.
  unfold get_extent_range. ostep. rewrite !unpack_entry_Ok by done. cbn [obind entry_range rng_begin rng_end].
  pose proof He as (? & ? & ?). pose proof He' as (? & ? & ?). zcase; [|done]. by ostep.
Qed.

(** The merging loop keeps the blocks and, from its start on, coalesces. *)
Lemma merge_range_spec n l start :
  pe_wf l → (1 ≤ start)%nat → (n ≠ 0%nat → (start + n ≤ length l)%nat) →
  ∃ l', merge_range l start n = Ok l' ∧ pe_wf l' ∧ pe_blocks l' = pe_blocks l ∧
    take (start - 1) l' = take (start - 1) l ∧
    (coalesced (drop (start + n - 1) l) → coalesced (drop (start - 1) l')).
Proof.
  revert l. induction n as [|n IH]; intros l Hwf Hs Hn.
  { exists l. by rewrite Nat.add_0_r. }
  specialize (Hn ltac:(done)).
  destruct (lookup_lt_is_Some_2 l (start + n - 1)) as [e He]; [lia|].
  destruct (lookup_lt_is_Some_2 l (start + n)) as [e' He']; [lia|].
  pose proof (take_drop_middle l (start + n - 1) e He) as Hl.
  replace (S (start + n - 1)) with (start + n)%nat in Hl by lia. rewrite (drop_S l e' (start + n)) in Hl by done.
  assert (length (take (start + n - 1) l) = (start + n - 1)%nat) as Hl1 by (rewrite length_take; lia).
  set (l1 := take (start + n - 1) l) in *. set (l2 := drop (S (start + n)) l) in *. clearbody l1 l2. subst l.
  rewrite length_app in Hn. cbn [length] in Hn.
  rewrite merge_range_step by (done || lia).
  replace (drop (start + S n - 1) (l1 ++ e :: e' :: l2)) with (e' :: l2).
  2: { rewrite cons_middle, app_assoc, drop_app_length'; [done|]. rewrite length_app. cbn. lia. }
  apply pe_wf_app in Hwf as [? [? [? ?]%pe_wf_cons]%pe_wf_cons].
  destruct (Z.eqb_spec (e.1 + e.2) e'.1) as [Hee|Hee].
  - destruct (merged_pair e e') as [? Hb]; [done..|].
    destruct (IH (l1 ++ (e.1, e.2 + e'.2) :: l2)) as (l' & -> & Hwf' & Hb' & Ht & Hc).
    { apply pe_wf_app. split; [done|]. by apply pe_wf_cons. }
    { done. }
    { rewrite length_app. cbn. lia. }
    exists l'. split; [done|]. split; [done|].
    rewrite Hb', !pe_blocks_app, !pe_blocks_cons, Ht. cbn [fst snd]. rewrite Hb, <-app_assoc. split; [done|].
    rewrite !take_app_le by lia. split; [done|]. intros [Hh ?]%coalesced_cons. apply Hc.
    rewrite drop_app_length' by lia. apply coalesced_cons. split; [|done].
    intros e0 He0. cbn. specialize (Hh e0 He0). lia.
  - destruct (IH (l1 ++ e :: e' :: l2)) as (l' & -> & Hwf' & Hb' & Ht & Hc).
    { apply pe_wf_app. split; [done|]. apply pe_wf_cons. split; [done|]. by apply pe_wf_cons. }
    { done. }
    { rewrite length_app. cbn. lia. }
    exists l'. split_and!; try done. intros. apply Hc. rewrite drop_app_length' by lia.
    apply coalesced_cons. split; [|done]. by intros ? [= <-].
Qed.

Lemma iter_Ok l : pe_wf l → iter l = Ok (entry_range <$> l).
Proof.
  induction 1 as [|e l He _ IH]; cbn [iter]; [done|]. rewrite range_from_Ok by (by destruct He as (? & ? & ?)).
  cbn [obind]. by rewrite IH.
Qed.

#[export] Instance pe_blocks_Permutation : Proper ((≡ₚ) ==> (≡ₚ)) pe_blocks.
Proof. intros l l' Hl. unfold pe_blocks. by rewrite Hl. Qed.

Lemma sort_extents_by_spec l start stop compare (no_merge : bool) :
  pe_wf l → (start ≤ stop ≤ length l)%nat →
  let le e0 e1 := compare (entry_range e0) (entry_range e1) in
  let sorted := take start l ++ sort_by le (take (stop - start) (drop start l)) ++ drop stop l in
  ∃ l', sort_extents_by l start stop compare no_merge = Ok l' ∧ pe_wf l' ∧
    pe_blocks l' = pe_blocks sorted ∧ pe_blocks l' ≡ₚ pe_blocks l ∧
    (if no_merge then l' = sorted
     else start = 0%nat → stop = length l → coalesced l').
Proof.
  intros Hwf Hs le sorted.
  assert (sorted ≡ₚ l) as Hp.
  { unfold sorted. rewrite sort_by_Permutation. rewrite <-(take_drop start l) at 4. f_equiv.
    rewrite <-(take_drop (stop - start) (drop start l)) at 2. rewrite drop_drop. f_equiv. f_equiv. lia. }
  assert (pe_wf sorted) by (unfold pe_wf; by rewrite Hp).
  unfold sort_extents_by. zdec. 
  set (part := take (stop - start) (drop start l)) in *.
  assert (pe_wf part) by (by apply Forall_take, Forall_drop).
  replace (if (length part <? 2)%nat then _ else _) with (Ok (E:=NvFsError) (if (length part <? 2)%nat then [] else entry_range <$> part))
    by (rewrite iter_Ok by done; by case_match).
  cbn [obind]. change (take start l ++ sort_by _ part ++ drop stop l) with sorted. destruct no_merge.
  { exists sorted. split_and!; try done. by rewrite Hp. }
  assert (length sorted = length l) as -> by (by rewrite Hp).
  set (start' := if (start =? 0)%nat then 1%nat else start). set (stop' := if (stop <? length l)%nat then S stop else stop).
  assert (1 ≤ start')%nat by (unfold start'; zcase; lia). assert (stop' ≤ length l)%nat by (unfold stop'; zcase; lia).
  destruct (merge_range_spec (stop' - start') sorted start') as (l' & Hm & ? & Hb & _ & Hc); [done..| |].
  { rewrite Hp. lia. }
  exists l'. rewrite Hb. split_and!; try done; [by rewrite Hp|]. intros -> ->. unfold start' in Hc. cbn [Nat.eqb] in Hc.
  apply Hc, coalesced_short. rewrite length_drop, Hp. unfold stop'. zdec. lia.
Qed.
End Spec.

(** ** Properties *)

Section Properties.
Context {B : Build} {Alloc : Allocator}.

(** Inserting an extent whose blocks are not in the list puts its blocks
    between those of the extents before and after the position, keeps the
    entries well-formed, the blocks distinct and, if merging is allowed, the list
    coalesced; the only other outcome is the allocation error, and only if the
    allocator refused to grow the vector. *)
Lemma insert_extent_correct l pos r (no_merge : bool) :
  pe_wf l → (pos ≤ length l)%nat → range_ok r → (∀ x, x ∈ r → x ∉ pe_blocks l) →
  (∃ l', insert_extent l pos r no_merge = Ok l' ∧ pe_wf l' ∧
     pe_blocks l' = pe_blocks (take pos l) ++ range_blocks r ++ pe_blocks (drop pos l) ∧
     (NoDup (pe_blocks l) → NoDup (pe_blocks l')) ∧
     (no_merge = false → coalesced l → coalesced l')) ∨
  (insert_extent l pos r no_merge = Err MemoryAllocationFailure ∧ alloc_ok (length l) 1 = false).
Proof.
  intros Hwf Hpos Hr Hd. rewrite <-(take_drop pos l) in Hwf, Hd.
  pose proof (insert_extent_spec (take pos l) (drop pos l) r no_merge Hwf Hr Hd) as Hspec.
  pose proof (inserted_NoDup r no_merge (take pos l) (drop pos l)) as Hnd.
  rewrite length_take, Nat.min_l, take_drop in Hspec by done. rewrite take_drop in Hnd, Hd.
  destruct Hspec as [(l' & Hl' & Hi)|]; [left|by right]. exists l'. pose proof Hi as (? & ? & Hc).
  split_and!; try done; [eauto|]. intros ->. by rewrite take_drop in Hc.
Qed.

(** Appending a list appends its blocks, keeps the entries well-formed and, if
    merging is allowed, coalesced lists coalesced; it can only fail with the
    allocation error. *)
Lemma append_extents_correct l l' (no_merge : bool) :
  pe_wf l → pe_wf l' →
  (∃ r, append_extents l l' no_merge = Ok r ∧ pe_wf r ∧ pe_blocks r = pe_blocks l ++ pe_blocks l' ∧
     (no_merge = false → coalesced l → coalesced l' → coalesced r)) ∨
  (append_extents l l' no_merge = Err MemoryAllocationFailure ∧ ∃ n m, alloc_ok n m = false).
Proof.
  intros Hl Hl'. destruct (append_extents_spec l l' no_merge Hl Hl') as [(r & ? & ? & ? & Hc)|]; [left|by right].
  exists r. split_and!; try done. by intros ->.
Qed.

(** Splitting a list at an offset within one of its extents, its ends
    included, distributes the blocks without loss or reordering: the first part
    ends with the blocks of the extent before the offset, the second begins with
    the rest of it. *)
Lemma split_correct l i e off :
  pe_wf l → l !! i = Some e → 0 ≤ off ≤ e.2 →
  (∃ a b, split l i off = Ok (a, b) ∧ pe_wf a ∧ pe_wf b ∧ pe_blocks a ++ pe_blocks b = pe_blocks l ∧
     pe_blocks a = pe_blocks (take i l) ++ seqZ e.1 off) ∨
  (split l i off = Err MemoryAllocationFailure ∧ ∃ n m, alloc_ok n m = false).
Proof.
  intros Hwf He Hoff. pose proof (take_drop_middle l i e He) as Hl. apply lookup_lt_Some in He.
  rewrite <-Hl in Hwf. pose proof (split_spec (take i l) e (drop (S i) l) off Hwf Hoff) as Hspec.
  rewrite length_take, Nat.min_l, Hl in Hspec by lia.
  destruct Hspec as [(a & b & ? & ? & ? & Ha & Hb)|]; [left|by right].
  exists a, b. split_and!; try done. rewrite Ha, Hb, <-app_assoc.
  rewrite <-Hl at 3. rewrite pe_blocks_app, pe_blocks_cons. by rewrite (split_seqZ e.1 e.2 off), <-app_assoc by done.
Qed.

(** Shrinking an extent removes the given number of blocks from its end, and
    reports whether the extent is gone. *)
Lemma shrink_extent_by_correct l i e k :
  pe_wf l → l !! i = Some e → 0 ≤ k ≤ e.2 →
  ∃ l', shrink_extent_by l i k = Ok (l', k =? e.2) ∧ pe_wf l' ∧
    pe_blocks l' = pe_blocks (take i l) ++ seqZ e.1 (e.2 - k) ++ pe_blocks (drop (S i) l).
Proof.
  intros Hwf He Hk. pose proof (take_drop_middle l i e He) as Hl. apply lookup_lt_Some in He as Hi.
  pose proof (Forall_lookup_1 _ _ _ _ Hwf He) as (? & ? & ?).
  pose proof (shrink_extent_by_spec (take i l) e (drop (S i) l) k ltac:(done) Hk) as Hspec.
  rewrite length_take, Nat.min_l, Hl in Hspec by lia. rewrite Hspec.
  rewrite <-Hl in Hwf. apply pe_wf_app in Hwf as [? [? ?]%pe_wf_cons].
  destruct (Z.eqb_spec k e.2); (eexists; split; [done|]).
  - subst. rewrite Z.sub_diag, pe_blocks_app. split; [by apply pe_wf_app|done].
  - rewrite pe_blocks_app, pe_blocks_cons. split; [|done]. apply pe_wf_app. split; [done|].
    apply pe_wf_cons. split; [unfold entry_ok; cbn; lia|done].
Qed.

(** Sorting a subrange of the extents by a total preorder permutes the blocks,
    leaves the extents outside of it in place and those within in order; the
    merging that follows does not change the sequence of blocks and, for the
    whole list, leaves no two mergeable neighbours. *)
Lemma sort_extents_by_correct l start stop compare (no_merge : bool) :
  pe_wf l → (start ≤ stop ≤ length l)%nat →
  (∀ r r', compare r r' = false → compare r' r = true) →
  (∀ r r' r'', compare r r' = true → compare r' r'' = true → compare r r'' = true) →
  ∃ sorted l', sorted ≡ₚ take (stop - start) (drop start l) ∧
    StronglySorted (λ e e', compare (entry_range e) (entry_range e') = true) sorted ∧
    sort_extents_by l start stop compare no_merge = Ok l' ∧ pe_wf l' ∧ pe_blocks l' ≡ₚ pe_blocks l ∧
    pe_blocks l' = pe_blocks (take start l) ++ pe_blocks sorted ++ pe_blocks (drop stop l) ∧
    (no_merge = false → start = 0%nat → stop = length l → coalesced l').
Proof.
  intros Hwf Hs Htot Htrans.
  destruct (sort_extents_by_spec l start stop compare no_merge Hwf Hs) as (l' & ? & ? & Hb & ? & Hc).
  eexists _, l'. split; [apply sort_by_Permutation|]. split; [by apply sort_by_sorted; eauto|].
  split_and!; try done.
  - by rewrite Hb, !pe_blocks_app.
  - by intros ->.
Qed.
End Properties.

Definition granting : Allocator := λ _ _, true.

Lemma insert_extent_correct_witness :
  insert_extent (B:=debug_build) (Alloc:=granting) [(2, 3); (9, 1)] 1 (mk_range 5 9) false = Ok [(2, 8)] ∧
  coalesced [(2, 8)].
Proof.
  split; [done|].
  destruct (insert_extent_correct (B:=debug_build) (Alloc:=granting) [(2, 3); (9, 1)] 1 (mk_range 5 9) false)
    as [(l' & [= <-] & _ & _ & _ & Hc)|[[=] _]].
  - by repeat constructor.
  - cbn. lia.
  - unfold range_ok. cbn. lia.
  - intros x. rewrite elem_of_pe_blocks, elem_of_range. cbn. intros ? (e & He & ?).
    apply elem_of_cons in He as [->|[->|[]%elem_of_nil]%elem_of_cons]; cbn in *; lia.
  - by apply Hc.
Defined.

Lemma append_extents_correct_witness :
  append_extents (B:=debug_build) (Alloc:=granting) [(2, 3)] [(5, 1); (1, 1)] false = Ok [(2, 4); (1, 1)] ∧
  coalesced [(2, 4); (1, 1)].
Proof.
  split; [done|].
  destruct (append_extents_correct (B:=debug_build) (Alloc:=granting) [(2, 3)] [(5, 1); (1, 1)] false)
    as [(l' & [= <-] & _ & _ & Hc)|[[=] _]]; [by repeat constructor..|]. by apply Hc.
Defined.

Lemma split_correct_witness :
  split (B:=debug_build) (Alloc:=granting) [(2, 3); (9, 4)] 1 1 = Ok ([(2, 3); (9, 1)], [(10, 3)]) ∧
  pe_wf [(10, 3)].
Proof.
  split; [done|].
  destruct (split_correct (B:=debug_build) (Alloc:=granting) [(2, 3); (9, 4)] 1 (9, 4) 1)
    as [(a & b & [= <- <-] & _ & Hb & _)|[[=] _]]; [by repeat constructor|done|cbn; lia|done].
Defined.

Lemma sort_extents_by_correct_witness :
  ∃ l', sort_extents_by (B:=debug_build) [(5, 1); (2, 3)] 0 2 (λ r r', rng_begin r <=? rng_begin r') false = Ok l' ∧
    coalesced l'.
Proof.
  destruct (sort_extents_by_correct (B:=debug_build) [(5, 1); (2, 3)] 0 2 (λ r r', rng_begin r <=? rng_begin r') false)
    as (s & l' & _ & _ & Hs & _ & _ & _ & Hc); [by repeat constructor|cbn; lia|intros *; lia..|].
  exists l'. split; [exact Hs|by apply Hc].
Defined.

End PhysicalExtents.
