(* ===== verification/PhysicalExtentsSet.v ===== *)
(** * Sets of extents (storage/src/fs/cocoonfs/extents.rs, [PhysicalExtentsSet])

    The sorted vector of [(begin, end)] pairs with its two interleaved binary
    searches, insertion and removal of a range. *)

From S2P Require Import Prelude BitManip Errors Layout PhysicalExtents.
Import BitManip Errors Layout PhysicalExtents.

Module PhysicalExtentsSet.

(** Entries are [(physical_begin, physical_end)]. *)
Abbreviation extents_set := (list (Z * Z)).

Section Ops.
Context {B : Build} {Alloc : Allocator}.
Implicit Types self : extents_set.

Definition entry_physical_range self (index : nat) : res BlockRange :=
  let! entry := idx self index in
  range_new entry.1 entry.2.

(** [(l & u) + ((l ^ u) >> 1)]. *)
Definition midpoint (l u : nat) : nat :=
  let l := Z.of_nat l in
  let u := Z.of_nat u in
  Z.to_nat (Z.land l u + Z.shiftr (Z.lxor l u) 1).

(** The first loop of [_overlaps]; it returns [index_first], [l_index_last] and
    [u_index_last]. *)
Fixpoint search_first (fuel : nat) self (query_range : BlockRange) (l u l_index_last u_index_last : nat)
    : res (nat * nat * nat) :=
  match fuel with
  | O => Diverge
  | S fuel =>
      if (l =? u)%nat then
        let! _ := debug_check (let! r := entry_physical_range self u in
                               Ok (rng_begin query_range <? rng_end r)) in
        let! _ := debug_check (if (u =? 0)%nat then Ok true
                               else let! r := entry_physical_range self (u - 1) in
                                    Ok (rng_end r <=? rng_begin query_range)) in
        Ok (u, l_index_last, u_index_last)
      else
        let i := midpoint l u in
        let! _ := debug_assert (negb (i =? u)%nat) in
        let! entry_range := entry_physical_range self i in
        if rng_begin query_range <? rng_end entry_range then
          let u := i in
          if rng_end query_range <=? rng_begin entry_range then
            let! u_index_last := nsub u 1 in
            search_first fuel self query_range l u l_index_last u_index_last
          else search_first fuel self query_range l u l_index_last u_index_last
        else search_first fuel self query_range (i + 1) u i u_index_last
  end.

(** Its second loop, which returns [index_last]. *)
Fixpoint search_last (fuel : nat) self (query_range : BlockRange) (l u : nat) : res nat :=
  match fuel with
  | O => Diverge
  | S fuel =>
      if (l =? u)%nat then
        let! _ := debug_check (let! r := entry_physical_range self l in
                               Ok (rng_begin r <? rng_end query_range)) in
        let! _ := debug_check (if (l =? length self - 1)%nat then Ok true
                               else let! r := entry_physical_range self (l + 1) in
                                    Ok (rng_end query_range <=? rng_begin r)) in
        Ok l
      else
        let! _ := debug_assert (l <? u)%nat in
        let i := midpoint (l + 1) u in
        let! _ := debug_assert (negb (i =? l)%nat) in
        let! entry_range := entry_physical_range self i in
        if rng_end query_range <=? rng_begin entry_range then
          let! u := nsub i 1 in
          search_last fuel self query_range l u
        else search_last fuel self query_range i u
  end.

(** Each round of a search narrows the interval [l..=u]. *)
Definition search_fuel self : nat := S (length self).

Definition _overlaps self (query_range : BlockRange) : res (nat * nat) :=
  let! at_begin :=
    if (length self =? 0)%nat then Ok true
    else let! r := entry_physical_range self 0 in Ok (rng_end query_range <=? rng_begin r) in
  if at_begin then Ok (0%nat, 0%nat)
  else
    let! r := entry_physical_range self (length self - 1) in
    if rng_end r <=? rng_begin query_range then Ok (length self, length self)
    else
      let! '(index_first, l_index_last, u_index_last) :=
        search_first (search_fuel self) self query_range 0 (length self - 1) 0 (length self - 1) in
      let! index_last := search_last (search_fuel self) self query_range l_index_last u_index_last in
      let index_begin := index_first in
      let index_end := (index_last + 1)%nat in
      let! _ := debug_assert (index_begin <=? index_end)%nat in
      Ok (index_begin, index_end).

(** The end of [insert]: the entries at [overlap_begin..overlap_end], which the
    new range overlaps or is adjacent to, are replaced. *)
Definition insert_at self (overlap_begin overlap_end : nat) (insertion_range : BlockRange) : res extents_set :=
  let! _ := debug_check (if (overlap_begin =? 0)%nat then Ok true
                         else let! r := entry_physical_range self (overlap_begin - 1) in
                              Ok (rng_end r <? rng_begin insertion_range)) in
  let! _ := debug_check (if (overlap_end =? length self)%nat then Ok true
                         else let! r := entry_physical_range self overlap_end in
                              Ok (rng_end insertion_range <? rng_begin r)) in
  if (overlap_begin =? overlap_end)%nat then
    let! _ := try_reserve (length self) 1 in
    vec_insert self overlap_begin (rng_begin insertion_range, rng_end insertion_range)
  else
    let! r := entry_physical_range self overlap_begin in
    let! e := idx self overlap_begin in
    let! self := set_idx self overlap_begin (Z.min (rng_begin r) (rng_begin insertion_range), e.2) in
    let! last := nsub overlap_end 1 in
    let! r := entry_physical_range self last in
    let! e := idx self overlap_begin in
    let! self := set_idx self overlap_begin (e.1, Z.max (rng_end r) (rng_end insertion_range)) in
    vec_drain self (overlap_begin + 1) overlap_end.

Definition insert self (insertion_range : BlockRange) : res extents_set :=
  let! '(overlap_begin, overlap_end) := _overlaps self insertion_range in
  let! follows :=
    if negb (overlap_begin =? 0)%nat then
      let! r := entry_physical_range self (overlap_begin - 1) in
      Ok (rng_end r =? rng_begin insertion_range)
    else Ok false in
  let overlap_begin := if follows then (overlap_begin - 1)%nat else overlap_begin in
  let! precedes :=
    if (overlap_end <? length self)%nat then
      let! r := entry_physical_range self overlap_end in
      Ok (rng_begin r =? rng_end insertion_range)
    else Ok false in
  let overlap_end := if precedes then (overlap_end + 1)%nat else overlap_end in
  insert_at self overlap_begin overlap_end insertion_range.

(** The end of [remove], where the removed range does not lie within one entry:
    the outermost entries at [overlap_begin..overlap_end] are cropped and the
    others removed. *)
Definition remove_at self (overlap_begin overlap_end : nat) (removal_range : BlockRange) : res extents_set :=
  let! r := entry_physical_range self overlap_begin in
  let! '(self, overlap_begin) :=
    if rng_begin r <? rng_begin removal_range then
      let! e := idx self overlap_begin in
      let! self := set_idx self overlap_begin (e.1, rng_begin removal_range) in
      Ok (self, (overlap_begin + 1)%nat)
    else Ok (self, overlap_begin) in
  let! last := nsub overlap_end 1 in
  let! r := entry_physical_range self last in
  let! '(self, overlap_end) :=
    if rng_end removal_range <? rng_end r then
      let! e := idx self last in
      let! self := set_idx self last (rng_end removal_range, e.2) in
      Ok (self, last)
    else Ok (self, overlap_end) in
  vec_drain self overlap_begin overlap_end.

Definition remove self (removal_range : BlockRange) : res extents_set :=
  let! '(overlap_begin, overlap_end) := _overlaps self removal_range in
  if (overlap_begin =? overlap_end)%nat then Ok self
  else
    let! splits :=
      if (overlap_begin + 1 =? overlap_end)%nat then
        let! r := entry_physical_range self overlap_begin in
        Ok ((rng_begin r <? rng_begin removal_range) && (rng_end removal_range <? rng_end r))
      else Ok false in
    if splits then
      let! _ := try_reserve (length self) 1 in
      let! r := entry_physical_range self overlap_begin in
      let! self := vec_insert self (overlap_begin + 1) (rng_end removal_range, rng_end r) in
      let! e := idx self overlap_begin in
      set_idx self overlap_begin (e.1, rng_begin removal_range)
    else
      remove_at self overlap_begin overlap_end removal_range.

(** The conversion of the sorted entries of [From<PhysicalExtents>]. *)
Fixpoint from_counts (l : extents) : res extents_set :=
  match l with
  | [] => Ok []
  | entry :: l =>
      let! e := physical_add entry.1 entry.2 in
      let! l := from_counts l in
      Ok ((entry.1, e) :: l)
  end.
Definition from_physical_extents (value : extents) : res extents_set :=
  from_counts (sort_by (λ e e' : Z * Z, e.1 <=? e'.1) value).

(** [PhysicalExtentsSetOverlapsIterator]: [next] and the items it yields. *)
Definition overlaps_next self (query_range : BlockRange) (index_begin index_end : nat)
    : res (option BlockRange * nat) :=
  if (index_begin <? index_end)%nat then
    let! entry_range := entry_physical_range self index_begin in
    let! r := range_new (Z.max (rng_begin entry_range) (rng_begin query_range))
                        (Z.min (rng_end entry_range) (rng_end query_range)) in
    Ok (Some r, S index_begin)
  else Ok (None, index_begin).
Fixpoint overlaps_items (fuel : nat) self (query_range : BlockRange) (index_begin index_end : nat)
    : res (list BlockRange) :=
  match fuel with
  | O => Diverge
  | S fuel =>
      let! '(item, index_begin) := overlaps_next self query_range index_begin index_end in
      match item with
      | None => Ok []
      | Some r =>
          let! rs := overlaps_items fuel self query_range index_begin index_end in
          Ok (r :: rs)
      end
  end.
Definition overlaps self (query_range : BlockRange) : res (list BlockRange) :=
  let! '(index_begin, index_end) := _overlaps self query_range in
  overlaps_items (search_fuel self) self query_range index_begin index_end.
End Ops.

(** ** Specification *)

Definition set_entry_ok (e : Z * Z) : Prop := 0 ≤ e.1 < e.2 ∧ e.2 < 2 ^ 64.
Definition before (e e' : Z * Z) : Prop := e.2 ≤ e'.1.

(** The entries are ranges, in order and disjoint. *)
Definition set_wf (l : extents_set) : Prop := Forall set_entry_ok l ∧ StronglySorted before l.

(** The blocks of the set. *)
Definition set_has (l : extents_set) (x : Z) : Prop := ∃ e, e ∈ l ∧ e.1 ≤ x < e.2.

(** An entry lies entirely before a query; it begins before the query's end. *)
Definition ends_before (q : BlockRange) (e : Z * Z) : bool := e.2 <=? rng_begin q.
Definition begins_before (q : BlockRange) (e : Z * Z) : bool := e.1 <? rng_end q.

Lemma midpoint_spec l u : (l ≤ u)%nat → midpoint l u = ((l + u) / 2)%nat.
Proof.
  intros. unfold midpoint. rewrite Z.shiftr_div_pow2 by done. change (2 ^ 1) with 2.
  rewrite <-(Nat2Z.id ((l + u) / 2)). f_equal. rewrite Nat2Z.inj_div, Nat2Z.inj_add, <-(Z.add_lxor_2land (Z.of_nat l)).
  change (Z.of_nat 2) with 2. rewrite (Z.mul_comm 2), Z.div_add by done. lia.
Qed.

Lemma midpoint_bounds l u : (l < u)%nat → (l ≤ midpoint l u < u)%nat.
Proof.
  intros. rewrite midpoint_spec by lia. pose proof (Nat.div_mod (l + u) 2).
  pose proof (Nat.mod_upper_bound (l + u) 2). lia.
Qed.

Section Search.
Context {B : Build} {Alloc : Allocator}.
Variables (l : extents_set) (q : BlockRange).
Hypothesis Hl : set_wf l.
Hypothesis Hq : rng_begin q < rng_end q.

Lemma set_entry i e : l !! i = Some e → set_entry_ok e.
Proof. apply Forall_lookup_1, Hl. Qed.

Lemma set_sorted i j e e' : (i < j)%nat → l !! i = Some e → l !! j = Some e' → before e e'.
Proof.
  intros Hij Hi Hj. destruct Hl as [_ Hs]. rewrite <-(take_drop j l) in Hs.
  eapply StronglySorted_app_1_elem_of; [exact Hs| |].
  - apply list_elem_of_lookup_2 with i. by rewrite lookup_take_lt.
  - apply list_elem_of_lookup_2 with 0%nat. by rewrite lookup_drop, Nat.add_0_r.
Qed.

Lemma entry_Ok i e : l !! i = Some e → entry_physical_range l i = Ok (mk_range e.1 e.2).
Proof.
  intros Hi. unfold entry_physical_range. rewrite (idx_Ok _ _ _ Hi). cbn [obind].
  destruct (set_entry _ _ Hi). by rewrite range_new_Ok by lia.
Qed.

(** The entries before [k] end at or before the query begins, and the one at
    [k] does not. *)
Definition is_first (k : nat) : Prop :=
  (∀ i e, (i < k)%nat → l !! i = Some e → e.2 ≤ rng_begin q) ∧
  (∀ e, l !! k = Some e → rng_begin q < e.2).
(** The entry at [a] begins before the query ends, and none after [z] does. *)
Definition brackets_last (a z : nat) : Prop :=
  (a ≤ z < length l)%nat ∧ (∀ e, l !! a = Some e → e.1 < rng_end q) ∧
  (∀ i e, (z < i)%nat → l !! i = Some e → rng_end q ≤ e.1).

Lemma search_first_spec fuel lo hi a z :
  (lo ≤ hi < length l)%nat → (hi - lo < fuel)%nat →
  (∀ e, l !! 0%nat = Some e → e.1 < rng_end q) →
  (∀ i e, (i < lo)%nat → l !! i = Some e → e.2 ≤ rng_begin q) →
  (∀ e, l !! hi = Some e → rng_begin q < e.2) → brackets_last a z →
  ∃ k a' z', search_first fuel l q lo hi a z = Ok (k, a', z') ∧ (k < length l)%nat ∧
    is_first k ∧ brackets_last a' z'.
Proof.
  revert lo hi a z. induction fuel as [|fuel IH]; intros lo hi a z Hb Hf H0 Hlo Hhi Hlast; [lia|].
  cbn [search_first]. destruct (Nat.eqb_spec lo hi) as [->|].
  - destruct (lookup_lt_is_Some_2 l hi) as [e He]; [lia|]. specialize (Hhi e He) as Hhe.
    rewrite debug_check_true by (rewrite (entry_Ok _ _ He); cbn; by zdec). cbn [obind].
    rewrite debug_check_true.
    + cbn [obind]. do 3 eexists. split; [done|]. split; [lia|]. by split.
    + destruct (Nat.eqb_spec hi 0); [done|]. destruct (lookup_lt_is_Some_2 l (hi - 1)) as [e' He']; [lia|].
      rewrite (entry_Ok _ _ He'). cbn. specialize (Hlo (hi - 1)%nat e' ltac:(lia) He'). by zdec.
  - pose proof (midpoint_bounds lo hi ltac:(lia)) as Hm. set (i := midpoint lo hi) in *.
    destruct (lookup_lt_is_Some_2 l i) as [e He]; [lia|].
    rewrite (proj2 (Nat.eqb_neq i hi)) by lia. cbn [negb debug_assert obind].
    rewrite (entry_Ok _ _ He). cbn [obind rng_begin rng_end].
    destruct Hlast as ((? & ?) & Ha & Hz). destruct (lookup_lt_is_Some_2 l a) as [ea Hea]; [lia|].
    specialize (Ha ea Hea). pose proof (set_entry _ _ He) as [? ?].
    destruct (Z.ltb_spec (rng_begin q) e.2).
    + destruct (Z.leb_spec (rng_end q) e.1).
      * assert (a < i)%nat.
        { destruct (Nat.lt_trichotomy a i) as [|[->|Hai]]; [done| |]; [naive_solver lia|].
          pose proof (set_sorted _ _ _ _ Hai He Hea). unfold before in *. lia. }
        rewrite nsub_Ok by lia. cbn [obind]. apply IH; try (done || lia); [by intros ? [= <-]%(eq_trans (eq_sym He))|].
        split; [lia|]. split; [by intros ? [= <-]%(eq_trans (eq_sym Hea))|].
        intros k f Hk Hf'. destruct (Nat.eq_dec k i) as [->|]; [naive_solver lia|].
        pose proof (set_sorted i k _ _ ltac:(lia) He Hf'). unfold before in *. lia.
      * apply IH; try (done || lia); [naive_solver lia|]. split; [lia|]. split; [naive_solver lia|done].
    + apply IH; try (done || lia).
      * intros k f Hk Hf'. destruct (Nat.eq_dec k i) as [->|]; [naive_solver lia|].
        destruct (Nat.lt_ge_cases k lo); [by eapply Hlo|].
        pose proof (set_sorted k i _ _ ltac:(lia) Hf' He). unfold before in *. lia.
      * split; [|split; [naive_solver lia|done]]. split; [|done].
        destruct (Nat.le_gt_cases i z); [done|]. specialize (Hz i e ltac:(lia) He). lia.
Qed.

Lemma search_last_spec fuel a z :
  brackets_last a z → (z - a < fuel)%nat →
  ∃ k, search_last fuel l q a z = Ok k ∧ brackets_last k k.
Proof.
  revert a z. induction fuel as [|fuel IH]; intros a z Hlast Hf; [lia|].
  cbn [search_last]. destruct Hlast as ((? & ?) & Ha & Hz).
  destruct (lookup_lt_is_Some_2 l a) as [ea Hea]; [lia|]. specialize (Ha ea Hea) as Hae.
  destruct (Nat.eqb_spec a z) as [<-|].
  - rewrite debug_check_true by (rewrite (entry_Ok _ _ Hea); cbn; by zdec). cbn [obind].
    rewrite debug_check_true.
    + cbn [obind]. eexists. split; [done|]. split; [lia|]. by split.
    + destruct (Nat.eqb_spec a (length l - 1)); [done|].
      destruct (lookup_lt_is_Some_2 l (a + 1)) as [e' He']; [lia|].
      rewrite (entry_Ok _ _ He'). cbn. specialize (Hz (a + 1)%nat e' ltac:(lia) He'). by zdec.
  - zdec. cbn [debug_assert obind]. set (i := midpoint (a + 1) z).
    assert (a < i ≤ z)%nat as Hi.
    { destruct (Nat.eq_dec (a + 1) z) as [<-|].
      - unfold i. rewrite midpoint_spec by done. replace (a + 1 + (a + 1))%nat with ((a + 1) * 2)%nat by lia.
        rewrite Nat.div_mul by done. lia.
      - pose proof (midpoint_bounds (a + 1) z). lia. }
    destruct (lookup_lt_is_Some_2 l i) as [e He]; [lia|].
    rewrite (proj2 (Nat.eqb_neq i a)) by lia. cbn [negb debug_assert obind].
    rewrite (entry_Ok _ _ He). cbn [obind rng_begin rng_end]. pose proof (set_entry _ _ He) as [? ?].
    destruct (Z.leb_spec (rng_end q) e.1).
    + rewrite nsub_Ok by lia. cbn [obind]. apply IH; [|lia]. split; [lia|]. split; [done|].
      intros k f Hk Hf'. destruct (Nat.eq_dec k i) as [->|]; [naive_solver lia|].
      pose proof (set_sorted i k _ _ ltac:(lia) He Hf'). unfold before in *. lia.
    + apply IH; [|lia]. split; [lia|]. split; [naive_solver lia|done].
Qed.

Lemma is_first_partition k :
  (k ≤ length l)%nat → is_first k → partition_point (ends_before q) l = k.
Proof.
  intros ? [Hlt Hk]. apply partition_point_unique; [done|..].
  - intros i e ? He. specialize (Hlt i e ltac:(done) He). unfold ends_before. by zdec.
  - intros e He. specialize (Hk e He). unfold ends_before. by zdec.
Qed.

Lemma brackets_last_partition k :
  brackets_last k k → partition_point (begins_before q) l = S k.
Proof.
  intros (? & Hk & Hgt). apply partition_point_unique; [lia|..].
  - intros i e ? He. destruct (lookup_lt_is_Some_2 l k) as [ek Hek]; [lia|]. specialize (Hk ek Hek).
    destruct (Nat.eq_dec i k) as [->|]; [simplify_eq; unfold begins_before; by zdec|].
    pose proof (set_sorted i k _ _ ltac:(lia) He Hek). pose proof (set_entry _ _ He) as [? ?].
    unfold before, begins_before in *. by zdec.
  - intros e He. specialize (Hgt _ e ltac:(eauto) He). unfold begins_before. by zdec.
Qed.

Lemma partition_points_le :
  (partition_point (ends_before q) l ≤ partition_point (begins_before q) l)%nat.
Proof.
  destruct Hl as [Hok _]. clear Hl. induction Hok as [|e l' [??] _ IH]; cbn [partition_point]; [done|].
  unfold ends_before at 1, begins_before at 1. do 2 zcase; lia.
Qed.

(** The two interleaved binary searches find what scans of the set find: how
    many entries end at or before the query's begin, and how many begin before
    its end. *)
Lemma _overlaps_eq :
  _overlaps l q = Ok (partition_point (ends_before q) l, partition_point (begins_before q) l).
Proof.
  unfold _overlaps, ends_before, begins_before. destruct (Nat.eqb_spec (length l) 0) as [H0|].
  { by rewrite (nil_length_inv _ H0). }
  destruct (lookup_lt_is_Some_2 l 0) as [e0 He0]; [lia|].
  destruct (lookup_lt_is_Some_2 l (length l - 1)) as [en Hen]; [lia|].
  rewrite (entry_Ok _ _ He0), (entry_Ok _ _ Hen). cbn [obind rng_begin rng_end].
  pose proof (set_entry _ _ He0) as [? ?].
  destruct (Z.leb_spec (rng_end q) e0.1) as [Hlow|Hlow].
  { do 2 f_equal; symmetry; apply partition_point_unique; try lia;
      intros e He; assert (e = e0) as -> by congruence; by zdec. }
  destruct (Z.leb_spec en.2 (rng_begin q)) as [Hhigh|Hhigh].
  { assert (∀ i e, l !! i = Some e → e.2 ≤ rng_begin q ∧ e.1 < rng_end q) as Hall.
    { intros i e He. destruct (set_entry _ _ He). destruct (Nat.eq_dec i (length l - 1)) as [->|].
      - simplify_eq. lia.
      - apply lookup_lt_Some in He as ?. pose proof (set_sorted i (length l - 1) _ _ ltac:(lia) He Hen).
        destruct (set_entry _ _ Hen). unfold before in *. lia. }
    do 2 f_equal; symmetry; (apply partition_point_unique; [done| |]);
      intros *; try (intros ? He; destruct (Hall _ _ He); by zdec);
      intros He%lookup_lt_Some; lia. }
  destruct (search_first_spec (search_fuel l) 0 (length l - 1) 0 (length l - 1))
    as (k & a & z & -> & Hk & Hfirst & Hlast); try (unfold search_fuel; lia).
  { naive_solver. } { naive_solver. }
  { split; [lia|]. split; [naive_solver|]. intros i e ? He%lookup_lt_Some. lia. }
  cbn [obind]. destruct (search_last_spec (search_fuel l) a z) as (k' & -> & Hlast'); [done| |].
  { destruct Hlast. unfold search_fuel. lia. }
  cbn [obind]. fold (ends_before q) (begins_before q). rewrite (is_first_partition k), (brackets_last_partition k') by (done || lia).
  pose proof partition_points_le as Hle.
  rewrite (is_first_partition k), (brackets_last_partition k') in Hle by (done || lia).
  rewrite Nat.add_1_r. zdec. done.
Qed.
End Search.

(** *** The decomposition of a set around a range *)

Lemma set_wf_app l l' :
  set_wf (l ++ l') ↔ set_wf l ∧ set_wf l' ∧ ∀ e e', e ∈ l → e' ∈ l' → before e e'.
Proof. unfold set_wf. rewrite Forall_app, StronglySorted_app. naive_solver. Qed.

Lemma set_wf_cons e l :
  set_wf (e :: l) ↔ set_entry_ok e ∧ set_wf l ∧ ∀ e', e' ∈ l → before e e'.
Proof.
  unfold set_wf. rewrite Forall_cons. split.
  - intros ((? & ?) & Hs). inversion Hs as [|?? ? Hf]; subst. rewrite Forall_forall in Hf. naive_solver.
  - intros (? & (? & ?) & Hf). split; [done|]. constructor; [done|]. by apply Forall_forall.
Qed.

Lemma set_wf_nil : set_wf [].
Proof. split; constructor. Qed.

Lemma set_has_app l l' x : set_has (l ++ l') x ↔ set_has l x ∨ set_has l' x.
Proof. unfold set_has. setoid_rewrite elem_of_app. naive_solver. Qed.
Lemma set_has_cons e l x : set_has (e :: l) x ↔ e.1 ≤ x < e.2 ∨ set_has l x.
Proof. unfold set_has. setoid_rewrite elem_of_cons. naive_solver. Qed.
Lemma set_has_nil x : set_has [] x ↔ False.
Proof. unfold set_has. setoid_rewrite elem_of_nil. naive_solver. Qed.

Lemma partition_split l q :
  set_wf l → rng_begin q < rng_end q →
  ∃ l1 m l2, l = l1 ++ m ++ l2 ∧ partition_point (ends_before q) l = length l1 ∧
    partition_point (begins_before q) l = (length l1 + length m)%nat ∧
    (∀ e, e ∈ l1 → e.2 ≤ rng_begin q) ∧ (∀ e, e ∈ m → rng_begin q < e.2 ∧ e.1 < rng_end q) ∧
    (∀ e, e ∈ l2 → rng_end q ≤ e.1).
Proof.
  intros Hwf Hq. induction l as [|e l IH].
  { exists [], [], []. cbn. split_and!; try done; intros ? []%elem_of_nil. }
  apply set_wf_cons in Hwf as ([? ?] & Hwf & Hb). unfold before in Hb.
  destruct (IH Hwf) as (l1 & m & l2 & -> & Hp1 & Hp2 & H1 & Hm & H2). cbn [partition_point].
  destruct (ends_before q e) eqn:E1, (begins_before q e) eqn:E2; unfold ends_before, begins_before in E1, E2;
    rewrite ?Hp1, ?Hp2.
  - exists (e :: l1), m, l2. cbn [app length]. setoid_rewrite elem_of_cons.
    split_and!; try (done || lia). intros e' [->|?]; [lia|auto].
  - lia.
  - assert (l1 = []) as ->.
    { destruct l1 as [|f l1]; [done|]. specialize (H1 f ltac:(left)). specialize (Hb f ltac:(left)).
      apply set_wf_app in Hwf as [[[??] _]%set_wf_cons _]. lia. }
    exists [], (e :: m), l2. cbn [app length] in *. setoid_rewrite elem_of_cons.
    split_and!; try (done || lia). intros e' [->|?]; [lia|auto].
  - exists [], [], (e :: l1 ++ m ++ l2). cbn [app length]. split_and!; try done.
    1,2: intros ? []%elem_of_nil.
    intros e' [->|Hin]%elem_of_cons; [lia|]. specialize (Hb e' Hin). lia.
Qed.

Section SetSpec.
Context {B : Build} {Alloc : Allocator}.

Lemma entry_middle l1 e l2 :
  set_entry_ok e → entry_physical_range (l1 ++ e :: l2) (length l1) = Ok (mk_range e.1 e.2).
Proof.
  intros [? ?]. unfold entry_physical_range. rewrite idx_middle. cbn [obind]. by rewrite range_new_Ok by lia.
Qed.

(** The extension of the overlap to the left, by an adjacent entry. *)
Lemma extend_left l1 m b :
  set_wf (l1 ++ m) → (∀ e, e ∈ l1 → e.2 ≤ b) → (∀ e, e ∈ m → b < e.2) →
  ∃ l1' m' follows, l1 ++ m = l1' ++ m' ∧
    (∀ l2, set_wf (l1 ++ l2) → (if negb (length l1 =? 0)%nat then
       let! r := entry_physical_range (l1 ++ l2) (length l1 - 1) in Ok (rng_end r =? b)
     else Ok false) = Ok follows :> res bool) ∧
    (if follows : bool then (length l1 - 1)%nat else length l1) = length l1' ∧
    (∀ e, e ∈ l1' → e.2 < b) ∧ (∀ e, e ∈ m' → b ≤ e.2 ∧ (e ∈ m ∨ e.2 = b)).
Proof.
  intros Hwf Hl1 Hm. destruct l1 as [|p l1 _] using rev_ind.
  { exists [], m, false. split_and!; try done; [by intros ? []%elem_of_nil|]. naive_solver lia. }
  apply set_wf_app in Hwf as [(Hwf1 & Hp & Hb)%set_wf_app _]. apply set_wf_cons in Hp as [Hp _].
  assert (∀ l2, entry_physical_range ((l1 ++ [p]) ++ l2) (length (l1 ++ [p]) - 1) = Ok (mk_range p.1 p.2)) as He.
  { intros. rewrite length_app, Nat.add_sub, <-app_assoc. by apply entry_middle. }
  assert (∀ e, e ∈ l1 → e.2 < p.2) as Hlt.
  { intros e Hin. specialize (Hb e p Hin ltac:(left)). destruct Hp. unfold before in *. lia. }
  pose proof (Hl1 p ltac:(set_solver)). exists (if p.2 =? b then l1 else l1 ++ [p]), (if p.2 =? b then p :: m else m), (p.2 =? b).
  rewrite length_app. cbn [length]. zdec. split_and!.
  - zcase; [by rewrite <-app_assoc|done].
  - intros. rewrite <-length_app with (l' := [p]), He. done.
  - zcase; rewrite ?length_app; cbn; lia.
  - intros e. zcase; [intros Hin; specialize (Hlt e Hin); lia|].
    intros [Hin|Hin]%elem_of_app; [specialize (Hlt e Hin); lia|]. apply elem_of_cons in Hin as [->|[]%elem_of_nil]. lia.
  - intros e. zcase; [|naive_solver lia]. intros [->|Hin]%elem_of_cons; [lia|]. naive_solver lia.
Qed.

(** Its extension to the right. *)
Lemma extend_right m l2 e :
  set_wf (m ++ l2) → (∀ f, f ∈ m → f.1 < e) → (∀ f, f ∈ l2 → e ≤ f.1) →
  ∃ m' l2' precedes, m ++ l2 = m' ++ l2' ∧
    (∀ l1, (if (length l1 + length m <? length (l1 ++ m ++ l2))%nat then
       let! r := entry_physical_range (l1 ++ m ++ l2) (length l1 + length m) in Ok (rng_begin r =? e)
     else Ok false) = Ok precedes :> res bool) ∧
    (if precedes : bool then (length m + 1)%nat else length m) = length m' ∧
    (∀ f, f ∈ m' → f.1 ≤ e ∧ (f ∈ m ∨ f.1 = e)) ∧ (∀ f, f ∈ l2' → e < f.1).
Proof.
  intros Hwf Hm Hl2. destruct l2 as [|p l2].
  { exists m, [], false. split_and!; try done.
    - intros. rewrite !length_app. cbn [length]. by zdec.
    - naive_solver lia.
    - by intros ? []%elem_of_nil. }
  apply set_wf_app in Hwf as (_ & (Hp & _ & Hb)%set_wf_cons & _).
  pose proof (Hl2 p ltac:(left)).
  exists (if p.1 =? e then m ++ [p] else m), (if p.1 =? e then l2 else p :: l2), (p.1 =? e). split_and!.
  - zcase; [by rewrite <-app_assoc|done].
  - intros. rewrite !length_app. cbn [length]. zdec. rewrite <-length_app, app_assoc, entry_middle by done. done.
  - zcase; rewrite ?length_app; done.
  - intros f Hin. assert (f ∈ m ∨ f = p ∧ p.1 = e) as [Hin'|[-> ?]].
    { zcase; [|by left]. apply elem_of_app in Hin as [|[->|[]%elem_of_nil]%elem_of_cons]; auto. }
    + specialize (Hm f Hin'). split; [lia|by left].
    + split; [lia|by right].
  - intros f Hin. assert (f = p ∧ p.1 ≠ e ∨ f ∈ l2) as [[-> ?]|Hin'].
    { zcase; [by right|]. apply elem_of_cons in Hin as [->|]; auto. }
    + lia.
    + specialize (Hb f Hin'). destruct Hp. unfold before in *. lia.
Qed.

Lemma insert_split l r :
  set_wf l → rng_begin r < rng_end r →
  ∃ l1 m l2, l = l1 ++ m ++ l2 ∧ insert l r = insert_at l (length l1) (length l1 + length m) r ∧
    (∀ e, e ∈ l1 → e.2 < rng_begin r) ∧ (∀ e, e ∈ m → rng_begin r ≤ e.2 ∧ e.1 ≤ rng_end r) ∧
    (∀ e, e ∈ l2 → rng_end r < e.1).
Proof.
  intros Hwf Hr. unfold insert. rewrite _overlaps_eq by done. cbn [obind].
  destruct (partition_split l r Hwf Hr) as (l1 & m & l2 & -> & -> & -> & H1 & Hm & H2).
  pose proof Hwf as (? & Hml & _)%set_wf_app. rewrite app_assoc in Hwf. pose proof Hwf as (Hlm & _)%set_wf_app.
  destruct (extend_left l1 m (rng_begin r)) as (l1' & m' & follows & Hl & Hfol & Hlen & H1' & Hm'); [done..|naive_solver|].
  rewrite <-app_assoc in Hwf. rewrite Hfol by done. cbn [obind]. rewrite Hlen.
  assert (length l1 + length m = length l1' + length m')%nat as -> by (rewrite <-!length_app; by f_equal).
  rewrite app_assoc, Hl, <-app_assoc in Hwf |- *. pose proof Hwf as (_ & Hml' & _)%set_wf_app.
  destruct (extend_right m' l2 (rng_end r)) as (m2 & l2' & precedes & Hl2 & Hpre & Hlen2 & Hm2 & H2'); [done| |done|].
  { intros f Hf. destruct (Hm' f Hf) as [_ [?|?]]; [naive_solver|].
    apply set_wf_app in Hml' as [[Hok _] _]. rewrite Forall_forall in Hok. destruct (Hok f Hf). lia. }
  rewrite Hpre. cbn [obind]. exists l1', m2, l2'. rewrite <-Hl2. split_and!; try done.
  - f_equal. rewrite <-Hlen2. destruct precedes; lia.
  - intros f Hf. destruct (Hm2 f Hf) as [? [?|?]]; [naive_solver|].
    rewrite Hl2 in Hml'. apply set_wf_app in Hml' as [[Hok _] _]. rewrite Forall_forall in Hok. destruct (Hok f Hf). lia.
Qed.

(** The entry that replaces [m] when [r] is inserted. *)
Definition hull (m : extents_set) (r : BlockRange) : Z * Z :=
  match m with
  | [] => (rng_begin r, rng_end r)
  | f :: _ => (Z.min f.1 (rng_begin r), Z.max (default f (last m)).2 (rng_end r))
  end.

Lemma insert_at_eq l1 m l2 r :
  set_wf (l1 ++ m ++ l2) → (∀ e, e ∈ l1 → e.2 < rng_begin r) → (∀ e, e ∈ l2 → rng_end r < e.1) →
  insert_at (l1 ++ m ++ l2) (length l1) (length l1 + length m) r =
    if (length m =? 0)%nat && negb (alloc_ok (length (l1 ++ m ++ l2)) 1) then Err MemoryAllocationFailure
    else Ok (l1 ++ hull m r :: l2).
Proof.
  intros Hwf H1 H2. unfold insert_at. rewrite debug_check_true.
  2: { destruct l1 as [|p l1 _] using rev_ind; [done|]. rewrite length_app. cbn [length]. zdec.
    rewrite Nat.add_sub, <-app_assoc. rewrite <-app_assoc in Hwf. apply set_wf_app in Hwf as (_ & [? _]%set_wf_cons & _).
    cbn [app]. rewrite entry_middle by done. cbn. specialize (H1 p ltac:(set_solver)). by zdec. }
  cbn [obind]. rewrite debug_check_true.
  2: { rewrite !length_app. destruct l2 as [|p l2]; cbn [length]; [by zdec|]. zdec.
    rewrite <-length_app, app_assoc. rewrite app_assoc in Hwf. apply set_wf_app in Hwf as (_ & [? _]%set_wf_cons & _).
    rewrite entry_middle by done. cbn. specialize (H2 p ltac:(set_solver)). by zdec. }
  cbn [obind]. destruct m as [|f m]; cbn [length andb Nat.eqb].
  { rewrite Nat.add_0_r, Nat.eqb_refl. unfold try_reserve. destruct (alloc_ok _ 1); [|done].
    cbn [obind app negb]. by rewrite vec_insert_middle. }
  pose proof Hwf as (_ & ([Hok Hs]%set_wf_cons & _)%set_wf_app & _)%set_wf_app.
  zdec. cbn [app]. rewrite entry_middle by done. cbn [obind rng_begin]. rewrite idx_middle. cbn [obind].
  rewrite set_idx_middle. cbn [obind]. rewrite nsub_Ok by lia. cbn [obind].
  replace (entry_physical_range (l1 ++ (Z.min f.1 (rng_begin r), f.2) :: m ++ l2) (length l1 + S (length m) - 1))
    with (Ok (E:=NvFsError) (mk_range (match m with [] => Z.min f.1 (rng_begin r) | _ => (default f (last (f :: m))).1 end)
      (default f (last (f :: m))).2)).
  2: { destruct m as [|g m _] using rev_ind.
    - cbn [length app last default]. rewrite Nat.add_sub. destruct Hok. unfold entry_physical_range.
      by rewrite idx_middle; cbn [obind fst snd]; rewrite range_new_Ok by lia.
    - rewrite app_comm_cons, last_snoc, length_app. cbn [length default].
      replace (length l1 + S (length m + 1) - 1)%nat with (length (l1 ++ (Z.min f.1 (rng_begin r), f.2) :: m))
        by (rewrite length_app; cbn; lia).
      rewrite <-app_assoc, app_comm_cons, app_assoc. cbn [app]. destruct Hs as [(_ & [Hg _]%set_wf_cons & _)%set_wf_app _].
      rewrite entry_middle by done. by destruct m. }
  cbn [obind rng_end]. rewrite idx_middle. cbn [obind fst]. rewrite set_idx_middle. cbn [obind].
  unfold vec_drain. rewrite length_app. cbn [length]. rewrite length_app. zdec. f_equal.
  rewrite cons_middle, app_assoc, take_app_length' by (rewrite length_app; cbn; lia).
  rewrite (app_assoc _ m l2), drop_app_length' by (rewrite !length_app; cbn; lia).
  by rewrite <-app_assoc.
Qed.

(** The first and last entries of a set bound all of them. *)
Lemma set_wf_first f m e : set_wf (f :: m) → e ∈ f :: m → f.1 ≤ e.1.
Proof.
  intros ([? ?] & _ & Hb)%set_wf_cons [->|Hin]%elem_of_cons; [lia|]. specialize (Hb e Hin). unfold before in *. lia.
Qed.

Lemma set_wf_last m g e : set_wf m → last m = Some g → e ∈ m → g ∈ m ∧ e.2 ≤ g.2.
Proof.
  intros Hwf [m' ->]%last_Some Hin. split; [set_solver|].
  apply set_wf_app in Hwf as (_ & [[? ?] _]%set_wf_cons & Hb).
  apply elem_of_app in Hin as [Hin|[->|[]%elem_of_nil]%elem_of_cons]; [|lia].
  specialize (Hb e g Hin ltac:(left)). unfold before in *. lia.
Qed.

Lemma set_wf_elem l e : set_wf l → e ∈ l → set_entry_ok e.
Proof. intros [Hok _]. rewrite Forall_forall in Hok. auto. Qed.

Lemma hull_spec l1 m l2 r :
  set_wf (l1 ++ m ++ l2) → range_ok r → (∀ e, e ∈ l1 → e.2 < rng_begin r) →
  (∀ e, e ∈ m → rng_begin r ≤ e.2 ∧ e.1 ≤ rng_end r) → (∀ e, e ∈ l2 → rng_end r < e.1) →
  set_wf (l1 ++ hull m r :: l2) ∧
  ∀ x, set_has (l1 ++ hull m r :: l2) x ↔ set_has (l1 ++ m ++ l2) x ∨ x ∈ r.
Proof.
  intros (Hwf1 & (Hwfm & Hwf2 & Hb2)%set_wf_app & Hb1)%set_wf_app [? ?] H1 Hm H2.
  assert (set_entry_ok (hull m r) ∧ (∀ e, e ∈ l1 → e.2 ≤ (hull m r).1) ∧ (∀ e, e ∈ l2 → (hull m r).2 ≤ e.1) ∧
    (∀ x, (hull m r).1 ≤ x < (hull m r).2 ↔ x ∈ r ∨ set_has m x)) as (Hok & Hle & Hge & Hx).
  { destruct m as [|f m]; cbn [hull fst snd].
    { split_and!; [unfold set_entry_ok; cbn; lia|naive_solver lia..|].
      intros x. rewrite set_has_nil, elem_of_range. naive_solver. }
    destruct (last (f :: m)) as [g|] eqn:Hg; [|by apply last_None in Hg]. cbn [default id].
    destruct (set_wf_last _ _ f Hwfm Hg ltac:(left)) as [Hgm _].
    pose proof (set_wf_elem _ f Hwfm ltac:(left)) as [? ?]. pose proof (set_wf_elem _ g Hwfm Hgm) as [? ?].
    pose proof (Hm f ltac:(left)). pose proof (Hm g Hgm). split_and!.
    - unfold set_entry_ok. cbn. lia.
    - intros e He. specialize (H1 e He). specialize (Hb1 e f He ltac:(set_solver)). unfold before in *. lia.
    - intros e He. specialize (H2 e He). specialize (Hb2 g e Hgm He). unfold before in *. lia.
    - intros x. rewrite elem_of_range. split.
      + intros. destruct (Z.lt_ge_cases x (rng_begin r)); [right; exists f; split; [left|lia]|].
        destruct (Z.lt_ge_cases x (rng_end r)); [left; lia|right; exists g; split; [done|lia]].
      + intros [?|(e & He & ?)]; [lia|]. pose proof (set_wf_first _ _ e Hwfm He).
        destruct (set_wf_last _ _ e Hwfm Hg He). lia. }
  split.
  - apply set_wf_app. split; [done|]. rewrite set_wf_cons. split_and!; try done.
    intros e e' He [->|He']%elem_of_cons; [by apply Hle|]. apply Hb1; set_solver.
  - intros x. rewrite !set_has_app, set_has_cons, Hx. tauto.
Qed.

Lemma insert_spec l r :
  set_wf l → range_ok r →
  (∃ l', insert l r = Ok l' ∧ set_wf l' ∧ ∀ x, set_has l' x ↔ set_has l x ∨ x ∈ r) ∨
  (insert l r = Err MemoryAllocationFailure ∧ alloc_ok (length l) 1 = false).
Proof.
  intros Hwf Hr. destruct (insert_split l r Hwf) as (l1 & m & l2 & -> & -> & H1 & Hm & H2); [destruct Hr; lia|].
  rewrite insert_at_eq by done. destruct (hull_spec l1 m l2 r) as [? ?]; [done..|].
  destruct (length m =? 0)%nat, (alloc_ok _ 1) eqn:?; cbn [andb negb]; eauto.
Qed.

(** *** Removal *)

(** What is left of [m] to the left and to the right of [r]. *)
Definition left_rest (m : extents_set) (r : BlockRange) : extents_set :=
  match m with
  | f :: _ => if f.1 <? rng_begin r then [(f.1, rng_begin r)] else []
  | [] => []
  end.
Definition right_rest (m : extents_set) (r : BlockRange) : extents_set :=
  match last m with
  | Some g => if rng_end r <? g.2 then [(rng_end r, g.2)] else []
  | None => []
  end.

Lemma rests_spec l1 m l2 r :
  set_wf (l1 ++ m ++ l2) → range_ok r → (∀ e, e ∈ l1 → e.2 ≤ rng_begin r) →
  (∀ e, e ∈ m → rng_begin r < e.2 ∧ e.1 < rng_end r) → (∀ e, e ∈ l2 → rng_end r ≤ e.1) →
  set_wf (l1 ++ left_rest m r ++ right_rest m r ++ l2) ∧
  ∀ x, set_has (l1 ++ left_rest m r ++ right_rest m r ++ l2) x ↔ set_has (l1 ++ m ++ l2) x ∧ ¬ x ∈ r.
Proof.
  intros (Hwf1 & (Hwfm & Hwf2 & Hb2)%set_wf_app & Hb1)%set_wf_app [? ?] H1 Hm H2.
  assert (set_wf (left_rest m r ++ right_rest m r) ∧
    (∀ e e', e ∈ l1 → e' ∈ left_rest m r ++ right_rest m r → before e e') ∧
    (∀ e e', e ∈ left_rest m r ++ right_rest m r → e' ∈ l2 → before e e') ∧
    (∀ x, set_has (left_rest m r ++ right_rest m r) x ↔ set_has m x ∧ ¬ x ∈ r)) as (Hwf & Hle & Hge & Hx).
  { destruct m as [|f m].
    { cbn. split_and!; [apply set_wf_nil|intros ? ? ? []%elem_of_nil|intros ? ? []%elem_of_nil|].
      intros x. rewrite set_has_nil. tauto. }
    destruct (last (f :: m)) as [g|] eqn:Hg; [|by apply last_None in Hg]. unfold left_rest, right_rest. rewrite Hg.
    destruct (set_wf_last _ _ f Hwfm Hg ltac:(left)) as [Hgm _].
    pose proof (set_wf_elem _ f Hwfm ltac:(left)) as [? ?]. pose proof (set_wf_elem _ g Hwfm Hgm) as [? ?].
    pose proof (Hm f ltac:(left)). pose proof (Hm g Hgm). split_and!.
    - do 2 zcase; cbn [app]; rewrite ?set_wf_cons; split_and!; try apply set_wf_nil;
        try (unfold set_entry_ok; cbn; lia); intros e'; rewrite ?elem_of_cons, ?elem_of_nil; unfold before;
        naive_solver lia.
    - intros e e' He. specialize (H1 e He). specialize (Hb1 e f He ltac:(set_solver)).
      do 2 zcase; cbn [app]; rewrite ?elem_of_cons, ?elem_of_nil; unfold before in *; naive_solver lia.
    - intros e e' He He'. specialize (H2 e' He'). specialize (Hb2 g e' Hgm He'). revert He.
      do 2 zcase; cbn [app]; rewrite ?elem_of_cons, ?elem_of_nil; unfold before in *; naive_solver lia.
    - intros x. rewrite elem_of_range.
      assert (set_has ((if f.1 <? rng_begin r then [(f.1, rng_begin r)] else []) ++
        (if rng_end r <? g.2 then [(rng_end r, g.2)] else [])) x ↔ f.1 ≤ x < rng_begin r ∨ rng_end r ≤ x < g.2) as ->.
      { do 2 zcase; cbn [app]; rewrite ?set_has_cons, ?set_has_nil; cbn; lia. }
      split.
      + intros [?|?]; (split; [|lia]); [exists f; split; [left|lia]|exists g; split; [done|lia]].
      + intros [(e & He & ?) Hnx]. pose proof (set_wf_first _ _ e Hwfm He).
        destruct (set_wf_last _ _ e Hwfm Hg He). lia. }
  rewrite app_assoc with (l := left_rest m r). split.
  - apply set_wf_app. split; [done|]. rewrite set_wf_app. split_and!; try done.
    intros e e' He [He'|He']%elem_of_app; [by apply Hle|]. apply Hb1; set_solver.
  - intros x. rewrite (set_has_app l1 (_ ++ l2)), (set_has_app _ l2), Hx, (set_has_app l1), set_has_app.
    enough ((set_has l1 x → ¬ x ∈ r) ∧ (set_has l2 x → ¬ x ∈ r)) by tauto. rewrite elem_of_range.
    split; intros (e & He & ?); [specialize (H1 e He)|specialize (H2 e He)]; lia.
Qed.

Lemma remove_at_one l1 f l2 r :
  set_entry_ok f → rng_begin r < rng_end r → rng_begin r < f.2 → f.1 < rng_end r → ¬ (f.1 < rng_begin r ∧ rng_end r < f.2) →
  remove_at (l1 ++ f :: l2) (length l1) (length l1 + 1) r = Ok (l1 ++ left_rest [f] r ++ right_rest [f] r ++ l2).
Proof.
  intros Hf ? ? ? Hns. unfold remove_at, left_rest, right_rest. cbn [last]. rewrite entry_middle by done.
  cbn [obind rng_begin]. pose proof Hf as [? ?].
  destruct (Z.ltb_spec f.1 (rng_begin r)).
  - ostep. rewrite Nat.add_sub, entry_middle by (unfold set_entry_ok; cbn; lia). cbn [obind rng_end snd].
    zdec. cbn [app obind]. by rewrite vec_drain_nothing by (rewrite ?length_app; cbn; lia).
  - ostep. rewrite Nat.add_sub, entry_middle by done. cbn [obind rng_end snd app]. zcase; ostep.
    + by rewrite vec_drain_nothing by (rewrite ?length_app; cbn; lia).
    + by apply (vec_drain_middle l1 [f] l2).
Qed.

Lemma remove_at_many l1 f m g l2 r :
  set_entry_ok f → set_entry_ok g → rng_begin r < rng_end r → rng_begin r < f.2 → g.1 < rng_end r →
  remove_at (l1 ++ (f :: m ++ [g]) ++ l2) (length l1) (length l1 + length (f :: m ++ [g])) r =
    Ok (l1 ++ left_rest (f :: m ++ [g]) r ++ right_rest (f :: m ++ [g]) r ++ l2).
Proof.
  intros Hf Hg ? ? ?. unfold remove_at, left_rest, right_rest. rewrite app_comm_cons, last_snoc.
  cbn [app]. rewrite entry_middle by done. cbn [obind rng_begin].
  assert (∀ f' (k : _ → res extents_set), (let! last := nsub (length l1 + length (f :: m ++ [g])) 1 in
    let! r0 := entry_physical_range (l1 ++ f' :: (m ++ [g]) ++ l2) last in
    let! x := if rng_end r <? rng_end r0 then
       let! e := idx (l1 ++ f' :: (m ++ [g]) ++ l2) last in
       let! self := set_idx (l1 ++ f' :: (m ++ [g]) ++ l2) last (rng_end r, e.2) in
       Ok (self, last)
     else Ok (l1 ++ f' :: (m ++ [g]) ++ l2, (length l1 + length (f :: m ++ [g]))%nat) in k x) =
    k (l1 ++ f' :: m ++ (if rng_end r <? g.2 then [(rng_end r, g.2)] else [g]) ++ l2,
      (length l1 + S (length m) + if (rng_end r <? g.2)%Z then 0 else 1)%nat)) as Hright.
  { intros f' k. cbn [length]. rewrite length_app. cbn [length]. rewrite nsub_Ok by lia. cbn [obind].
    replace (length l1 + S (length m + 1) - 1)%nat with (length (l1 ++ f' :: m)) by (rewrite length_app; cbn; lia).
    rewrite <-app_assoc, app_comm_cons, app_assoc. cbn [app]. rewrite entry_middle by done.
    cbn [obind rng_end]. zcase; ostep; rewrite <-?app_assoc, ?length_app; cbn [length app]; do 2 f_equal; lia. }
  destruct (Z.ltb_spec f.1 (rng_begin r)); ostep; rewrite Hright; destruct (Z.ltb_spec (rng_end r) g.2);
    cbn [app]; rewrite ?(cons_middle (f.1, rng_begin r)), ?(app_assoc l1).
  - by apply (vec_drain_middle _ m); rewrite ?length_app; cbn; lia.
  - rewrite (cons_middle g), (app_assoc m). by apply (vec_drain_middle _ (m ++ [g])); rewrite ?length_app; cbn; lia.
  - by apply (vec_drain_middle l1 (f :: m)); cbn; lia.
  - rewrite (cons_middle g), (app_assoc m), app_comm_cons. apply vec_drain_middle; [done|]. cbn [length]. rewrite length_app. cbn. lia.
Qed.

(** Removing a range from a set leaves the decomposition's outer parts and the
    rests of the overlapped entries. *)
Lemma remove_split l r :
  set_wf l → range_ok r →
  ∃ l1 m l2, l = l1 ++ m ++ l2 ∧ (∀ e, e ∈ l1 → e.2 ≤ rng_begin r) ∧
    (∀ e, e ∈ m → rng_begin r < e.2 ∧ e.1 < rng_end r) ∧ (∀ e, e ∈ l2 → rng_end r ≤ e.1) ∧
    (remove l r = Ok (l1 ++ left_rest m r ++ right_rest m r ++ l2) ∨
     remove l r = Err MemoryAllocationFailure ∧ alloc_ok (length l) 1 = false).
Proof.
  intros Hwf Hr. pose proof Hr as [? ?]. unfold remove. rewrite _overlaps_eq by (done || lia). cbn [obind].
  destruct (partition_split l r Hwf) as (l1 & m & l2 & -> & -> & -> & H1 & Hm & H2); [lia|].
  exists l1, m, l2. split_and!; try done. pose proof Hwf as (_ & (Hwfm & _)%set_wf_app & _)%set_wf_app.
  destruct m as [|f m]; cbn [length].
  { left. by zdec. }
  zdec. destruct m as [|g m _] using rev_ind; cbn [length].
  - zdec. cbn [app]. pose proof (set_wf_elem _ f Hwfm ltac:(left)) as Hf. pose proof Hf as [? ?].
    destruct (Hm f ltac:(left)). rewrite entry_middle by done. cbn [obind rng_begin rng_end].
    destruct (Z.ltb_spec f.1 (rng_begin r)), (Z.ltb_spec (rng_end r) f.2); cbn [andb];
      try (left; apply remove_at_one; done || lia).
    unfold try_reserve. destruct (alloc_ok _ 1) eqn:?; [left|by right]. cbn [obind].
    rewrite cons_middle, app_assoc. replace (length l1 + 1)%nat with (length (l1 ++ [f])) by (rewrite length_app; done).
    rewrite vec_insert_middle. cbn [obind]. rewrite <-app_assoc. cbn [app]. ostep.
    unfold left_rest, right_rest. cbn [last]. by zdec.
  - rewrite length_app. cbn [length]. zdec. cbn [obind]. left.
    rewrite <-(remove_at_many l1 f m g l2 r).
    + cbn [length]. by rewrite length_app.
    + apply (set_wf_elem _ _ Hwfm). left.
    + apply (set_wf_elem _ _ Hwfm). set_solver.
    + lia.
    + apply (Hm f). left.
    + apply (Hm g). set_solver.
Qed.

Lemma remove_spec l r :
  set_wf l → range_ok r →
  (∃ l', remove l r = Ok l' ∧ set_wf l' ∧ ∀ x, set_has l' x ↔ set_has l x ∧ ¬ x ∈ r) ∨
  (remove l r = Err MemoryAllocationFailure ∧ alloc_ok (length l) 1 = false).
Proof.
  intros Hwf Hr. destruct (remove_split l r Hwf Hr) as (l1 & m & l2 & -> & H1 & Hm & H2 & [->|]); [left|by right].
  destruct (rests_spec l1 m l2 r) as [? ?]; [done..|]. eauto.
Qed.

(** *** Conversion and iteration *)

Lemma from_counts_Ok l : pe_wf l → from_counts l = Ok ((λ e : Z * Z, (e.1, e.1 + e.2)) <$> l).
Proof.
  induction 1 as [|e l (? & ? & ?) _ IH]; cbn [from_counts]; [done|].
  unfold physical_add. rewrite checked_add_Some by done. cbn [unwrap obind]. by rewrite IH.
Qed.

Lemma set_has_counts (l : extents) x : set_has ((λ e : Z * Z, (e.1, e.1 + e.2)) <$> l) x ↔ x ∈ pe_blocks l.
Proof.
  unfold set_has. rewrite elem_of_pe_blocks. setoid_rewrite list_elem_of_fmap. split.
  - intros (? & (e & -> & ?) & ?). eauto.
  - intros (e & ? & ?). exists (e.1, e.1 + e.2). eauto.
Qed.

(** Entries sorted by their begin that share no block are in order. *)
Lemma set_wf_counts (l : extents) :
  pe_wf l → NoDup (pe_blocks l) → StronglySorted (λ e e' : Z * Z, (e.1 <=? e'.1) = true) l →
  set_wf ((λ e : Z * Z, (e.1, e.1 + e.2)) <$> l).
Proof.
  intros Hwf Hnd Hs. induction Hs as [|e l Hs IH Hle]; cbn [fmap list_fmap]; [apply set_wf_nil|].
  apply pe_wf_cons in Hwf as [(? & ? & ?) Hwf]. rewrite pe_blocks_cons in Hnd.
  apply NoDup_app in Hnd as (_ & Hd & Hnd). apply set_wf_cons. split_and!.
  - unfold set_entry_ok. cbn. lia.
  - by apply IH.
  - intros ? (e' & -> & Hin)%list_elem_of_fmap. unfold before. cbn.
    rewrite Forall_forall in Hle. specialize (Hle e' Hin). apply Z.leb_le in Hle.
    destruct (Z.le_gt_cases (e.1 + e.2) e'.1); [done|exfalso]. apply (Hd e'.1).
    + apply elem_of_seqZ. lia.
    + apply elem_of_pe_blocks. exists e'. split; [done|]. eapply Forall_forall in Hwf as (? & ? & ?); [|done]. lia.
Qed.

Lemma from_physical_extents_spec l :
  pe_wf l → NoDup (pe_blocks l) →
  ∃ s, from_physical_extents l = Ok s ∧ set_wf s ∧ ∀ x, set_has s x ↔ x ∈ pe_blocks l.
Proof.
  intros Hwf Hnd. unfold from_physical_extents. set (le e e' := e.1 <=? e'.1).
  pose proof (sort_by_Permutation le l) as Hp.
  assert (pe_wf (sort_by le l)) by (unfold pe_wf; by rewrite Hp).
  rewrite from_counts_Ok by done. eexists. split; [done|]. split.
  - apply set_wf_counts; [done|by rewrite Hp|]. apply sort_by_sorted; unfold le; intros *; lia.
  - intros x. by rewrite set_has_counts, Hp.
Qed.

(** The part of an entry within a range. *)
Definition crop (q : BlockRange) (e : Z * Z) : BlockRange :=
  mk_range (Z.max e.1 (rng_begin q)) (Z.min e.2 (rng_end q)).

Lemma overlaps_items_spec q m l1 l2 fuel :
  set_wf (l1 ++ m ++ l2) → rng_begin q < rng_end q → (∀ e, e ∈ m → rng_begin q < e.2 ∧ e.1 < rng_end q) →
  (length m < fuel)%nat →
  overlaps_items fuel (l1 ++ m ++ l2) q (length l1) (length l1 + length m) = Ok (crop q <$> m).
Proof.
  revert l1 fuel. induction m as [|f m IH]; intros l1 [|fuel] Hwf Hq Hm Hf; cbn [length] in *; try lia.
  { cbn [overlaps_items]. unfold overlaps_next. rewrite Nat.add_0_r, Nat.ltb_irrefl. done. }
  cbn [overlaps_items]. unfold overlaps_next. zdec. cbn [app].
  pose proof Hwf as (_ & ([Hok _]%set_wf_cons & _)%set_wf_app & _)%set_wf_app.
  rewrite entry_middle by done. cbn [obind rng_begin rng_end]. destruct Hok. destruct (Hm f ltac:(left)).
  rewrite range_new_Ok by lia. cbn [obind].
  replace (l1 ++ f :: m ++ l2) with ((l1 ++ [f]) ++ m ++ l2) by (by rewrite <-app_assoc).
  replace (S (length l1)) with (length (l1 ++ [f])) by (rewrite length_app; cbn; lia).
  replace (length l1 + S (length m))%nat with (length (l1 ++ [f]) + length m)%nat by (rewrite length_app; cbn; lia).
  rewrite IH; [done| |done| |lia].
  - by rewrite <-app_assoc.
  - intros e He. apply Hm. by right.
Qed.

Lemma overlaps_spec l q :
  set_wf l → rng_begin q < rng_end q →
  ∃ rs, overlaps l q = Ok rs ∧
    rs = crop q <$> filter (λ e, rng_begin q < e.2 ∧ e.1 < rng_end q) l ∧
    ∀ x, (∃ r, r ∈ rs ∧ x ∈ r) ↔ set_has l x ∧ x ∈ q.
Proof.
  intros Hwf Hq. unfold overlaps. rewrite _overlaps_eq by done. cbn [obind].
  destruct (partition_split l q Hwf Hq) as (l1 & m & l2 & -> & -> & -> & H1 & Hm & H2).
  rewrite overlaps_items_spec by (try done; unfold search_fuel; rewrite !length_app; lia).
  eexists. split; [done|]. split.
  - rewrite !filter_app, (filter_nothing _ l1), (filter_nothing _ l2), (filter_every _ m).
    + by rewrite app_nil_r.
    + done.
    + intros e He ?. specialize (H2 e He). lia.
    + intros e He ?. specialize (H1 e He). lia.
  - intros x. setoid_rewrite list_elem_of_fmap. rewrite elem_of_range. split.
    + intros (? & (e & -> & He) & Hx). rewrite elem_of_range in Hx. cbn [crop rng_begin rng_end] in Hx.
      split; [exists e; split; [set_solver|]|]; lia.
    + intros [(e & He & ?) ?]. exists (crop q e). rewrite elem_of_range. cbn. split; [|lia].
      exists e. split; [done|]. apply elem_of_app in He as [He|[|He]%elem_of_app]; [exfalso|done|exfalso].
      * specialize (H1 e He). lia.
      * specialize (H2 e He). lia.
Qed.
End SetSpec.

(** ** Properties *)

Section Properties.
Context {B : Build} {Alloc : Allocator}.

(** The interleaved binary searches of [_overlaps] terminate within the
    bound on their rounds, never index out of range or trip an assertion, and
    find what linear scans of the sorted entries find; the entries between the
    two indices are those that share a block with the query. *)
Lemma overlaps_search_correct l q :
  set_wf l → rng_begin q < rng_end q →
  ∃ i j, _overlaps l q = Ok (i, j) ∧ (i ≤ j ≤ length l)%nat ∧
    i = partition_point (ends_before q) l ∧ j = partition_point (begins_before q) l ∧
    ∀ k e, l !! k = Some e → (i ≤ k < j)%nat ↔ ∃ x, e.1 ≤ x < e.2 ∧ x ∈ q.
Proof.
  intros Hwf Hq. rewrite _overlaps_eq by done.
  destruct (partition_split l q Hwf Hq) as (l1 & m & l2 & -> & -> & -> & H1 & Hm & H2).
  do 2 eexists. split; [done|]. rewrite !length_app. split; [lia|]. split_and!; [done..|].
  intros k e Hk. pose proof (set_wf_elem _ e Hwf (list_elem_of_lookup_2 _ _ _ Hk)) as [? ?].
  setoid_rewrite elem_of_range. apply lookup_app_Some in Hk as [Hk|[? Hk]].
  - apply list_elem_of_lookup_2 in Hk as Hin. apply lookup_lt_Some in Hk. specialize (H1 e Hin).
    split; [lia|]. intros (x & ? & ?). lia.
  - apply lookup_app_Some in Hk as [Hk|[? Hk]]; apply list_elem_of_lookup_2 in Hk as Hin; apply lookup_lt_Some in Hk.
    + destruct (Hm e Hin). split; [|lia]. intros _. exists (Z.max e.1 (rng_begin q)). lia.
    + specialize (H2 e Hin). split; [lia|]. intros (x & ? & ?). lia.
Qed.

(** C35: inserting a range into a set of extents keeps it sorted and disjoint and
    makes it the union of the two; the only other outcome is the allocation
    error. *)
Theorem insert_union l r :
  set_wf l → range_ok r →
  (∃ l', insert l r = Ok l' ∧ set_wf l' ∧ ∀ x, set_has l' x ↔ set_has l x ∨ x ∈ r) ∨
  (insert l r = Err MemoryAllocationFailure ∧ alloc_ok (length l) 1 = false).
Proof. apply insert_spec. Qed.

(** Removing a range keeps the set sorted and disjoint and makes it the
    difference of the two. *)
Lemma remove_difference l r :
  set_wf l → range_ok r →
  (∃ l', remove l r = Ok l' ∧ set_wf l' ∧ ∀ x, set_has l' x ↔ set_has l x ∧ ¬ x ∈ r) ∨
  (remove l r = Err MemoryAllocationFailure ∧ alloc_ok (length l) 1 = false).
Proof. apply remove_spec. Qed.

(** The set made from an extents list without repeated blocks is sorted and
    has the list's blocks, and the iteration over its overlaps with a query
    yields exactly the blocks of both. *)
Lemma overlaps_of_extents_correct l q :
  pe_wf l → NoDup (pe_blocks l) → rng_begin q < rng_end q →
  ∃ s rs, from_physical_extents l = Ok s ∧ set_wf s ∧ overlaps s q = Ok rs ∧
    ∀ x, (∃ r, r ∈ rs ∧ x ∈ r) ↔ x ∈ pe_blocks l ∧ x ∈ q.
Proof.
  intros Hwf Hnd Hq. destruct (from_physical_extents_spec l Hwf Hnd) as (s & ? & Hs & Hx).
  destruct (overlaps_spec s q Hs Hq) as (rs & ? & _ & Hrs). exists s, rs. split_and!; try done.
  intros x. by rewrite Hrs, Hx.
Qed.
End Properties.

Lemma example_set_wf : set_wf [(1, 3); (4, 5); (6, 8)].
Proof. split; repeat constructor; unfold before; cbn; lia. Qed.

Lemma overlaps_search_correct_witness :
  ∃ i j, _overlaps (B:=debug_build) [(1, 3); (4, 5); (6, 8)] (mk_range 2 5) = Ok (i, j) ∧ (i ≤ j ≤ 3)%nat ∧
    i = partition_point (ends_before (mk_range 2 5)) [(1, 3); (4, 5); (6, 8)] ∧
    j = partition_point (begins_before (mk_range 2 5)) [(1, 3); (4, 5); (6, 8)] ∧
    ∀ k e, [(1, 3); (4, 5); (6, 8)] !! k = Some e → (i ≤ k < j)%nat ↔ ∃ x, e.1 ≤ x < e.2 ∧ x ∈ mk_range 2 5.
Proof.
  apply (overlaps_search_correct (B:=debug_build) [(1, 3); (4, 5); (6, 8)] (mk_range 2 5)).
  - apply example_set_wf.
  - done.
Defined.

Lemma insert_union_witness :
  insert (B:=debug_build) (Alloc:=granting) [(1, 3); (4, 5); (6, 8)] (mk_range 3 6) = Ok [(1, 8)] ∧
  ∀ x, set_has [(1, 8)] x ↔ set_has [(1, 3); (4, 5); (6, 8)] x ∨ x ∈ mk_range 3 6.
Proof.
  split; [done|].
  destruct (insert_union (B:=debug_build) (Alloc:=granting) [(1, 3); (4, 5); (6, 8)] (mk_range 3 6))
    as [(l' & [= <-] & _ & Hx)|[[=] _]]; [apply example_set_wf|unfold range_ok; cbn; lia|exact Hx].
Defined.

Lemma remove_difference_witness :
  remove (B:=debug_build) (Alloc:=granting) [(1, 3); (4, 5); (6, 8)] (mk_range 2 7) = Ok [(1, 2); (7, 8)] ∧
  ∀ x, set_has [(1, 2); (7, 8)] x ↔ set_has [(1, 3); (4, 5); (6, 8)] x ∧ ¬ x ∈ mk_range 2 7.
Proof.
  split; [done|].
  destruct (remove_difference (B:=debug_build) (Alloc:=granting) [(1, 3); (4, 5); (6, 8)] (mk_range 2 7))
    as [(l' & [= <-] & _ & Hx)|[[=] _]]; [apply example_set_wf|unfold range_ok; cbn; lia|exact Hx].
Defined.

Lemma overlaps_of_extents_correct_witness :
  ∃ s rs, from_physical_extents [(6, 2); (4, 1); (1, 2)] = Ok s ∧ set_wf s ∧
    overlaps (B:=debug_build) s (mk_range 2 7) = Ok rs ∧
    ∀ x, (∃ r, r ∈ rs ∧ x ∈ r) ↔ x ∈ pe_blocks [(6, 2); (4, 1); (1, 2)] ∧ x ∈ mk_range 2 7.
Proof.
  apply (overlaps_of_extents_correct (B:=debug_build) [(6, 2); (4, 1); (1, 2)] (mk_range 2 7)).
  - by repeat constructor.
  - apply (bool_decide_unpack _). by vm_compute.
  - done.
Defined.

End PhysicalExtentsSet.
