(* ===== verification/LogicalExtents.v ===== *)
(** * The logical address space of an extents list (storage/src/fs/cocoonfs/extents.rs,
    [LogicalExtents])

    A [LogicalExtents] stores for each extent its physical begin and its logical
    end.  Translation of logical to physical blocks, the searches of
    [lookup_range], the iterators and the conversions from and to
    [PhysicalExtents]. *)

From S2P Require Import Prelude BitManip Errors Layout PhysicalExtents PhysicalExtentsSet.
Import BitManip Errors Layout PhysicalExtents.

Module LogicalExtents.

(** Entries are [(physical_begin, logical_end)]. *)
Abbreviation lextents := (list (Z * Z)).

Record LogicalExtent := mk_lextent {
  logical_begin : Z;
  physical_begin : Z;
  allocation_block_count_of : Z;
}.

Record LogicalExtentsRange := mk_lrange {
  index_first : nat;
  index_last : nat;
  offset_in_first : Z;
  end_in_last : Z;
}.

#[export] Instance LogicalExtent_eq_dec : EqDecision LogicalExtent.
Proof. solve_decision. Defined.
#[export] Instance LogicalExtentsRange_eq_dec : EqDecision LogicalExtentsRange.
Proof. solve_decision. Defined.

Section Ops.
Context {B : Build} {Alloc : Allocator}.
Implicit Types self : lextents.

Definition logical_range (self : LogicalExtent) : res BlockRange :=
  let! e := logical_add (logical_begin self) (allocation_block_count_of self) in
  range_new (logical_begin self) e.
Definition physical_range (self : LogicalExtent) : res BlockRange :=
  let! e := physical_add (physical_begin self) (allocation_block_count_of self) in
  range_new (physical_begin self) e.

Definition allocation_block_count self : Z :=
  match last self with Some e => e.2 | None => 0 end.

Definition extend_by_physical self (physical_extent : BlockRange) : res lextents :=
  let! _ := try_reserve (length self) 1 in
  let! n := block_count physical_extent in
  let! logical_end := count_add (allocation_block_count self) n in
  Ok (self ++ [(rng_begin physical_extent, logical_end)]).

Definition entry_logical_range self (index : nat) : res BlockRange :=
  let! b := if negb (index =? 0)%nat then let! e := idx self (index - 1) in Ok e.2 else Ok 0 in
  let! e := idx self index in
  range_new b e.2.

Definition get_extent self (i : nat) : res LogicalExtent :=
  let! logical_range := entry_logical_range self i in
  let! e := idx self i in
  let! n := block_count logical_range in
  Ok (mk_lextent (rng_begin logical_range) e.1 n).

Definition lookup self (query_logical_allocation_block_index : Z) : res (option LogicalExtent) :=
  let index := partition_point (λ e : Z * Z, e.2 <=? query_logical_allocation_block_index) self in
  if (index =? length self)%nat then Ok None
  else
    let! logical_range := entry_logical_range self index in
    let logical_begin := rng_begin logical_range in
    let logical_end := rng_end logical_range in
    let! e := idx self index in
    let physical_begin := e.1 in
    let! offset_in_extent := logical_sub query_logical_allocation_block_index logical_begin in
    let! logical_begin := logical_add logical_begin offset_in_extent in
    let! physical_begin := physical_add physical_begin offset_in_extent in
    let! n := logical_sub logical_end logical_begin in
    Ok (Some (mk_lextent logical_begin physical_begin n)).

(** The first loop of [lookup_range]; it returns [index_first] and
    [u_index_last], or [None]. *)
Fixpoint lookup_first (fuel : nat) self (query_range : BlockRange) (l u u_index_last : nat)
    : res (option (nat * nat)) :=
  match fuel with
  | O => Diverge
  | S fuel =>
      let i := PhysicalExtentsSet.midpoint l u in
      let! entry_range := entry_logical_range self i in
      if rng_begin query_range <? rng_begin entry_range then
        let! u := nsub i 1 in
        let u_index_last := if rng_end query_range <=? rng_begin entry_range then u else u_index_last in
        if (u <? l)%nat then Ok None else lookup_first fuel self query_range l u u_index_last
      else if rng_end entry_range <=? rng_begin query_range then
        let l := (i + 1)%nat in
        if (u <? l)%nat then Ok None else lookup_first fuel self query_range l u u_index_last
      else Ok (Some (i, u_index_last))
  end.

(** Its second loop, which returns [index_last]. *)
Fixpoint lookup_last (fuel : nat) self (query_range : BlockRange) (l u : nat) : res (option nat) :=
  match fuel with
  | O => Diverge
  | S fuel =>
      let i := PhysicalExtentsSet.midpoint l u in
      let! entry_range := entry_logical_range self i in
      if rng_end query_range <=? rng_begin entry_range then
        let! u := nsub i 1 in
        if (u <? l)%nat then Ok None else lookup_last fuel self query_range l u
      else if rng_end entry_range <? rng_end query_range then
        let l := (i + 1)%nat in
        if (u <? l)%nat then Ok None else lookup_last fuel self query_range l u
      else Ok (Some i)
  end.

Definition lookup_range self (query_range : BlockRange) : res (option LogicalExtentsRange) :=
  let! _ := debug_assert (rng_begin query_range <? rng_end query_range) in
  let! _ := debug_assert (negb (length self =? 0)%nat) in
  let! _ := debug_check (let! last := nsub (length self) 1 in
                         let! r := entry_logical_range self last in
                         Ok (rng_end query_range <=? rng_end r)) in
  let! last := nsub (length self) 1 in
  let! first := lookup_first (S (length self)) self query_range 0 last last in
  match first with
  | None => Ok None
  | Some (index_first, u_index_last) =>
      let! index_last := lookup_last (S (length self)) self query_range index_first u_index_last in
      match index_last with
      | None => Ok None
      | Some index_last =>
          let! r := entry_logical_range self index_first in
          let! offset_in_first := logical_sub (rng_begin query_range) (rng_begin r) in
          let! r := entry_logical_range self index_last in
          let! end_in_last := logical_sub (rng_end query_range) (rng_begin r) in
          Ok (Some (mk_lrange index_first index_last offset_in_first end_in_last))
      end
  end.

(** *** [LogicalExtentsRangeIterator] *)

(** The iterator's [range] and [index]. *)
Record RangeIterator := mk_iter { it_range : option LogicalExtentsRange; it_index : nat }.

Definition iterator_new (range : LogicalExtentsRange) : RangeIterator := mk_iter (Some range) 0.

Definition iter self : res RangeIterator :=
  if negb (length self =? 0)%nat then
    let index_last := (length self - 1)%nat in
    let! r := entry_logical_range self index_last in
    let! end_in_last := block_count r in
    Ok (mk_iter (Some (mk_lrange 0 index_last 0 end_in_last)) 0)
  else Ok (mk_iter None 0).

Definition iter_range self (query_range : BlockRange) : res (option RangeIterator) :=
  let! range := lookup_range self query_range in
  Ok (iterator_new <$> range).

Definition next self (it : RangeIterator) : res (option LogicalExtent * RangeIterator) :=
  match it_range it with
  | None => Ok (None, it)
  | Some range =>
      let index := it_index it in
      if (index =? index_last range + 1)%nat then Ok (None, it)
      else
        let it := mk_iter (it_range it) (S index) in
        let! logical_range := entry_logical_range self index in
        let logical_begin := rng_begin logical_range in
        let! e := idx self index in
        let physical_begin := e.1 in
        let! '(logical_begin, physical_begin) :=
          if (index =? index_first range)%nat then
            let! logical_begin := logical_add logical_begin (offset_in_first range) in
            let! physical_begin := physical_add physical_begin (offset_in_first range) in
            Ok (logical_begin, physical_begin)
          else Ok (logical_begin, physical_begin) in
        let! logical_end :=
          if negb (index =? index_last range)%nat then Ok (rng_end logical_range)
          else logical_add (rng_begin logical_range) (end_in_last range) in
        let! n := logical_sub logical_end logical_begin in
        Ok (Some (mk_lextent logical_begin physical_begin n), it)
  end.

(** All items of an iterator. *)
Fixpoint collect (fuel : nat) self (it : RangeIterator) : res (list LogicalExtent) :=
  match fuel with
  | O => Diverge
  | S fuel =>
      let! '(item, it) := next self it in
      match item with
      | None => Ok []
      | Some e =>
          let! es := collect fuel self it in
          Ok (e :: es)
      end
  end.

(** *** Conversions *)

Fixpoint from_physical_loop (value : extents) (logical_end : Z) : res lextents :=
  match value with
  | [] => Ok []
  | entry :: value =>
      let! logical_end := uadd 64 logical_end entry.2 in
      let! es := from_physical_loop value logical_end in
      Ok ((entry.1, logical_end) :: es)
  end.
(** [LogicalExtents::from(PhysicalExtents)]. *)
Definition from_physical (value : extents) : res lextents := from_physical_loop value 0.

Fixpoint to_physical_loop (value : lextents) (last_logical_end : Z) : res extents :=
  match value with
  | [] => Ok []
  | entry :: value =>
      let logical_end := entry.2 in
      let! n := logical_sub logical_end last_logical_end in
      let! es := to_physical_loop value logical_end in
      Ok ((entry.1, n) :: es)
  end.
(** [PhysicalExtents::from(LogicalExtents)]. *)
Definition to_physical (value : lextents) : res extents := to_physical_loop value 0.
End Ops.

(** ** Specification *)

(** The logical end of a list that begins at the logical block [p]. *)
Definition end_of (p : Z) (l : lextents) : Z := match last l with Some e => e.2 | None => p end.

(** The logical ends increase, and the physical extents are within 64 bits. *)
Fixpoint le_wf (p : Z) (l : lextents) : Prop :=
  match l with
  | [] => True
  | e :: l => 0 ≤ e.1 ∧ p < e.2 < 2 ^ 64 ∧ e.1 + (e.2 - p) < 2 ^ 64 ∧ le_wf e.2 l
  end.

(** The extents list of a [LogicalExtents], and the other way around. *)
Fixpoint counts (p : Z) (l : lextents) : extents :=
  match l with [] => [] | e :: l => (e.1, e.2 - p) :: counts e.2 l end.
Fixpoint ends (p : Z) (l : extents) : lextents :=
  match l with [] => [] | e :: l => (e.1, p + e.2) :: ends (p + e.2) l end.

(** The physical block at each logical one. *)
Definition le_blocks (l : lextents) : list Z := pe_blocks (counts 0 l).

(** The number of blocks of an extents list. *)
Definition total (l : extents) : Z := foldr (λ e n, e.2 + n) 0 l.

Lemma end_of_cons p e l : end_of p (e :: l) = end_of e.2 l.
Proof. unfold end_of. rewrite last_cons. by destruct (last l). Qed.

Lemma end_of_snoc p e l : end_of p (l ++ [e]) = e.2.
Proof. unfold end_of. by rewrite last_snoc. Qed.

Lemma counts_app p l1 l2 : counts p (l1 ++ l2) = counts p l1 ++ counts (end_of p l1) l2.
Proof.
  revert p. induction l1 as [|e l1 IH]; intros p; cbn [app counts]; [done|]. by rewrite IH, end_of_cons.
Qed.

Lemma le_wf_app p l1 l2 : le_wf p (l1 ++ l2) ↔ le_wf p l1 ∧ le_wf (end_of p l1) l2.
Proof.
  revert p. induction l1 as [|e l1 IH]; intros p; cbn [app le_wf]; [by intuition|].
  rewrite IH, end_of_cons. tauto.
Qed.

Lemma end_of_le p l : le_wf p l → p ≤ end_of p l.
Proof.
  revert p. induction l as [|e l IH]; intros p; [done|]. intros (? & ? & ? & Hl).
  rewrite end_of_cons. specialize (IH _ Hl). lia.
Qed.

Lemma counts_wf p l : le_wf p l → 0 ≤ p → pe_wf (counts p l).
Proof.
  revert p. induction l as [|e l IH]; intros p; cbn [counts]; [constructor|].
  intros (? & ? & ? & Hl) ?. apply pe_wf_cons. split; [unfold entry_ok; cbn; lia|]. apply IH; [done|lia].
Qed.

Lemma length_counts p l :
  le_wf p l → length (pe_blocks (counts p l)) = Z.to_nat (end_of p l - p).
Proof.
  revert p. induction l as [|e l IH]; intros p; cbn [counts].
  - intros _. unfold end_of. cbn. by rewrite Z.sub_diag.
  - intros (? & ? & ? & Hl). rewrite pe_blocks_cons, length_app, length_seqZ, IH, end_of_cons by done.
    pose proof (end_of_le _ _ Hl). cbn. lia.
Qed.

(** *** Conversions *)

Section Conversions.
Context {B : Build} {Alloc : Allocator}.

Lemma counts_ends p l : counts p (ends p l) = l.
Proof.
  revert p. induction l as [|e l IH]; intros p; cbn; [done|]. rewrite IH. f_equal. destruct e. cbn. f_equal. lia.
Qed.

Lemma ends_counts p l : ends p (counts p l) = l.
Proof.
  revert p. induction l as [|e l IH]; intros p; cbn [ends counts fst snd]; [done|].
  replace (p + (e.2 - p)) with e.2 by lia. rewrite IH. by destruct e.
Qed.

Lemma total_cons e l : total (e :: l) = e.2 + total l.
Proof. done. Qed.

Lemma total_nonneg l : pe_wf l → 0 ≤ total l.
Proof. induction 1 as [|e l (? & ? & ?) _ IH]; [done|]. rewrite total_cons. lia. Qed.

Lemma ends_wf p l : pe_wf l → 0 ≤ p → p + total l < 2 ^ 64 → le_wf p (ends p l) ∧ end_of p (ends p l) = p + total l.
Proof.
  intros Hl. revert p. induction Hl as [|e l (? & ? & ?) Hl IH]; intros p ? Ht; cbn [ends].
  - split; [done|]. unfold end_of. cbn. lia.
  - rewrite total_cons in *. pose proof (total_nonneg l Hl). destruct (IH (p + e.2)) as [? He]; [lia..|].
    rewrite end_of_cons. cbn [fst snd le_wf]. rewrite He. split_and!; try done; lia.
Qed.

Lemma from_physical_loop_Ok p l :
  pe_wf l → p + total l < 2 ^ 64 → from_physical_loop l p = Ok (ends p l).
Proof.
  intros Hl. revert p. induction Hl as [|e l (? & ? & ?) Hl IH]; intros p Ht;
    cbn [from_physical_loop ends]; [done|]. rewrite total_cons in *. pose proof (total_nonneg l Hl). rewrite uadd_Ok by lia. cbn [obind]. by rewrite IH by lia.
Qed.

Lemma to_physical_loop_Ok p l : le_wf p l → to_physical_loop l p = Ok (counts p l).
Proof.
  revert p. induction l as [|e l IH]; intros p; cbn [to_physical_loop counts]; [done|].
  intros (? & ? & ? & Hl). unfold logical_sub. rewrite checked_sub_Some by lia. cbn [unwrap obind]. by rewrite IH.
Qed.
End Conversions.

(** *** Lookup *)

Lemma find_split p l q :
  le_wf p l → p ≤ q →
  (end_of p l ≤ q ∧ partition_point (λ e : Z * Z, e.2 <=? q) l = length l) ∨
  ∃ l1 f l2, l = l1 ++ f :: l2 ∧ partition_point (λ e : Z * Z, e.2 <=? q) l = length l1 ∧ end_of p l1 ≤ q < f.2.
Proof.
  revert p. induction l as [|e l IH]; intros p; cbn [partition_point].
  { by left. }
  intros (? & ? & ? & Hl) ?. destruct (Z.leb_spec e.2 q).
  - destruct (IH e.2) as [[? ->]|(l1 & f & l2 & -> & -> & ?)]; [done|lia|left|right].
    + by rewrite end_of_cons.
    + exists (e :: l1), f, l2. by rewrite end_of_cons.
  - right. by exists [], e, l.
Qed.

Section Lookup.
Context {B : Build} {Alloc : Allocator}.

Lemma entry_logical_range_Ok l1 e l2 :
  le_wf 0 (l1 ++ e :: l2) → entry_logical_range (l1 ++ e :: l2) (length l1) = Ok (mk_range (end_of 0 l1) e.2).
Proof.
  intros [_ (_ & ? & _)]%le_wf_app. unfold entry_logical_range.
  destruct l1 as [|p l1 _] using rev_ind.
  { cbn [length Nat.eqb negb obind app]. change (idx (e :: l2) 0) with (Ok (E:=NvFsError) e). cbn [obind].
    unfold end_of in *. cbn in *. by rewrite range_new_Ok by lia. }
  rewrite end_of_snoc in *. rewrite idx_middle. cbn [obind]. rewrite length_app. cbn [length]. zdec.
  rewrite Nat.add_sub, <-app_assoc. cbn [app]. rewrite idx_middle. cbn [obind]. by rewrite range_new_Ok by lia.
Qed.

Lemma lookup_None l q :
  le_wf 0 l → end_of 0 l ≤ q → lookup l q = Ok None.
Proof.
  intros Hl Hq. pose proof (end_of_le _ _ Hl). unfold lookup.
  destruct (find_split 0 l q) as [[_ ->]|(l1 & f & l2 & -> & _ & ?)]; [done|lia|by rewrite Nat.eqb_refl|exfalso].
  apply le_wf_app in Hl as [_ (_ & _ & _ & Hl2)]. pose proof (end_of_le _ _ Hl2).
  unfold end_of in Hq. rewrite last_app, last_cons in Hq. unfold end_of in *. destruct (last l2); cbn in *; lia.
Qed.

Lemma lookup_Some l1 f l2 q :
  le_wf 0 (l1 ++ f :: l2) → end_of 0 l1 ≤ q < f.2 →
  lookup (l1 ++ f :: l2) q = Ok (Some (mk_lextent q (f.1 + (q - end_of 0 l1)) (f.2 - q))).
Proof.
  intros Hl Hq. pose proof Hl as [Hl1 (? & ? & ? & Hl2)]%le_wf_app. pose proof (end_of_le _ _ Hl1). unfold lookup.
  replace (partition_point _ _) with (length l1).
  2: { symmetry. clear -Hl1 Hq. revert Hq Hl1. generalize 0. induction l1 as [|e l1 IH]; intros p Hq Hl; cbn [app partition_point].
    - by rewrite (proj2 (Z.leb_gt _ _)) by lia.
    - rewrite end_of_cons in Hq. destruct Hl as (? & ? & ? & Hl). pose proof (end_of_le _ _ Hl).
      rewrite (proj2 (Z.leb_le _ _)) by lia. cbn [length]. f_equal. eauto. }
  rewrite entry_logical_range_Ok by done. rewrite length_app. cbn [length]. zdec. cbn [obind rng_begin rng_end].
  rewrite idx_middle. cbn [obind]. unfold logical_sub, logical_add, physical_add.
  rewrite checked_sub_Some by lia. cbn [unwrap obind].
  rewrite !checked_add_Some by lia. cbn [unwrap obind]. rewrite checked_sub_Some by lia. cbn [unwrap obind].
  do 3 f_equal; lia.
Qed.

(** The logical blocks of an extent lie in it consecutively. *)
Lemma le_blocks_middle l1 f l2 q :
  le_wf 0 (l1 ++ f :: l2) → end_of 0 l1 ≤ q < f.2 →
  le_blocks (l1 ++ f :: l2) !! Z.to_nat q = Some (f.1 + (q - end_of 0 l1)).
Proof.
  intros [Hl1 _]%le_wf_app Hq. pose proof (end_of_le _ _ Hl1). unfold le_blocks.
  rewrite counts_app, pe_blocks_app. cbn [counts]. rewrite pe_blocks_cons.
  rewrite lookup_app_r by (rewrite length_counts by done; lia). rewrite length_counts by done.
  rewrite lookup_app_l by (rewrite length_seqZ; cbn; lia). rewrite lookup_seqZ. cbn. lia.
Qed.

Lemma lookup_spec l q :
  le_wf 0 l → 0 ≤ q →
  (end_of 0 l ≤ q ∧ lookup l q = Ok None) ∨
  ∃ p n, lookup l q = Ok (Some (mk_lextent q p n)) ∧ 0 < n ∧ q + n ≤ end_of 0 l ∧
    ∀ k, 0 ≤ k < n → le_blocks l !! Z.to_nat (q + k) = Some (p + k).
Proof.
  intros Hl Hq. destruct (find_split 0 l q) as [[? _]|(l1 & f & l2 & -> & _ & ?)]; [done..|left|right].
  { split; [done|]. by apply lookup_None. }
  rewrite lookup_Some by done. do 2 eexists. split; [done|]. split; [lia|]. split.
  - pose proof Hl as [_ (_ & _ & _ & Hl2)]%le_wf_app. pose proof (end_of_le _ _ Hl2).
    unfold end_of in *. rewrite last_app, last_cons. destruct (last l2); cbn in *; lia.
  - intros k ?. rewrite le_blocks_middle by (done || lia). f_equal. lia.
Qed.

Lemma extend_by_physical_spec l r :
  le_wf 0 l → range_ok r → end_of 0 l + (rng_end r - rng_begin r) < 2 ^ 64 →
  (∃ l', extend_by_physical l r = Ok l' ∧ le_wf 0 l' ∧ le_blocks l' = le_blocks l ++ range_blocks r) ∨
  (extend_by_physical l r = Err MemoryAllocationFailure ∧ alloc_ok (length l) 1 = false).
Proof.
  intros Hl [? ?] ?. unfold extend_by_physical, try_reserve. destruct (alloc_ok _ 1); [left|by right].
  cbn [obind]. rewrite block_count_Ok by lia. cbn [obind]. unfold count_add.
  change (allocation_block_count l) with (end_of 0 l).
  rewrite checked_add_Some by done. cbn [unwrap obind]. eexists. split; [done|]. split.
  - apply le_wf_app. split; [done|]. cbn. lia.
  - unfold le_blocks. rewrite counts_app, pe_blocks_app. cbn [counts]. rewrite pe_blocks_cons, app_nil_r. cbn [fst snd].
    unfold range_blocks. do 2 f_equal. lia.
Qed.
End Lookup.

(** *** Range lookup *)

Section RangeSearch.
Context {B : Build} {Alloc : Allocator}.
Variable l : lextents.
Hypothesis Hl : le_wf 0 l.

(** The logical begin of the entry at [i]. *)
Definition start (i : nat) : Z := end_of 0 (take i l).
(** The entry at [i] has the logical block [x]. *)
Definition covers (i : nat) (x : Z) : Prop := ∃ e, l !! i = Some e ∧ start i ≤ x < e.2.

Lemma entry_split i e : l !! i = Some e → l = take i l ++ e :: drop (S i) l ∧ length (take i l) = i.
Proof.
  intros He. split; [by rewrite take_drop_middle|]. apply lookup_lt_Some in He. rewrite length_take. lia.
Qed.

Lemma start_bounds i e : l !! i = Some e → 0 ≤ e.1 ∧ 0 ≤ start i < e.2 ∧ e.2 < 2 ^ 64 ∧ e.1 + (e.2 - start i) < 2 ^ 64.
Proof.
  intros He. pose proof Hl as Hwf. rewrite (proj1 (entry_split i e He)) in Hwf.
  apply le_wf_app in Hwf as [H1 (? & ? & ? & _)]. apply end_of_le in H1. unfold start. lia.
Qed.

Lemma start_S i e : l !! i = Some e → start (S i) = e.2.
Proof. intros He. unfold start. by rewrite (take_S_r _ _ _ He), end_of_snoc. Qed.

Lemma start_mono i j : (i ≤ j)%nat → start i ≤ start j.
Proof.
  intros. unfold start.
  assert (take j l = take i l ++ take (j - i) (drop i l)) as -> by (rewrite take_take_drop; f_equal; lia).
  set (m := take (j - i) (drop i l)).
  assert (le_wf (end_of 0 (take i l)) m) as Hm.
  { pose proof Hl as Hwf. rewrite <-(take_drop i l), <-(take_drop (j - i) (drop i l)) in Hwf.
    by apply le_wf_app in Hwf as [_ [? _]%le_wf_app]. }
  apply end_of_le in Hm. unfold end_of in *. rewrite last_app. by destruct (last m).
Qed.

Lemma range_at i e : l !! i = Some e → entry_logical_range l i = Ok (mk_range (start i) e.2).
Proof.
  intros He. destruct (entry_split i e He) as [Hs Hi]. rewrite <-Hi at 1. rewrite Hs at 1.
  apply entry_logical_range_Ok. by rewrite <-Hs.
Qed.

(** An entry covers a block, or the one that does is on a known side of it. *)
Lemma covers_cases t x i e :
  covers t x → l !! i = Some e →
  (x < start i ∧ (t < i)%nat) ∨ (start i ≤ x < e.2 ∧ t = i) ∨ (e.2 ≤ x ∧ (i < t)%nat).
Proof.
  intros (f & Hf & ?) He. destruct (Nat.lt_trichotomy t i) as [Hlt|[->|Hlt]].
  - left. split; [|done]. pose proof (start_mono (S t) i ltac:(lia)) as Hm. rewrite (start_S t f Hf) in Hm. lia.
  - right. left. simplify_eq. lia.
  - right. right. split; [|done]. pose proof (start_mono (S i) t ltac:(lia)) as Hm. rewrite (start_S i e He) in Hm. lia.
Qed.

Lemma covers_exists x : 0 ≤ x < end_of 0 l → ∃ i, covers i x.
Proof.
  intros. destruct (find_split 0 l x Hl) as [[? _]|(l1 & f & l2 & Heq & _ & ?)]; [lia..|].
  exists (length l1), f. unfold start. rewrite Heq, take_app_length. split; [by rewrite list_lookup_middle|done].
Qed.

Variable q : BlockRange.
Variables t t' : nat.
Hypothesis Ht : covers t (rng_begin q).
Hypothesis Ht' : covers t' (rng_end q - 1).
Hypothesis Hq : rng_begin q < rng_end q.

Lemma midpoint_within lo hi : (lo ≤ hi)%nat → (lo ≤ PhysicalExtentsSet.midpoint lo hi ≤ hi)%nat.
Proof.
  intros. destruct (Nat.eq_dec lo hi) as [<-|].
  - rewrite PhysicalExtentsSet.midpoint_spec by done.
    replace (lo + lo)%nat with (lo * 2)%nat by lia. rewrite Nat.div_mul by done. lia.
  - pose proof (PhysicalExtentsSet.midpoint_bounds lo hi). lia.
Qed.

Lemma lookup_first_spec fuel lo hi z :
  (lo ≤ t ≤ hi)%nat → (hi < length l)%nat → (hi - lo < fuel)%nat → (t' ≤ z < length l)%nat →
  ∃ z', lookup_first fuel l q lo hi z = Ok (Some (t, z')) ∧ (t' ≤ z' < length l)%nat.
Proof.
  revert lo hi z. induction fuel as [|fuel IH]; intros lo hi z ? ? ? ?; [lia|]. cbn [lookup_first].
  pose proof (midpoint_within lo hi ltac:(lia)). set (i := PhysicalExtentsSet.midpoint lo hi) in *.
  destruct (lookup_lt_is_Some_2 l i) as [e He]; [lia|]. rewrite (range_at i e He). cbn [obind rng_begin rng_end].
  destruct (covers_cases t _ i e Ht He) as [[? ?]|[[? ?]|[? ?]]].
  - zdec. rewrite nsub_Ok by lia. cbn [obind]. rewrite (proj2 (Nat.ltb_ge (i - 1) lo)) by lia. apply IH; try lia.
    destruct (Z.leb_spec (rng_end q) (start i)); [|lia].
    destruct (covers_cases t' _ i e Ht' He) as [[? ?]|[[? ?]|[? ?]]]; [lia..|].
    pose proof (start_bounds i e He). lia.
  - zdec. exists z. split; [by subst|done].
  - pose proof (start_bounds i e He). zdec. apply IH; lia.
Qed.

Lemma lookup_last_spec fuel lo hi :
  (lo ≤ t' ≤ hi)%nat → (hi < length l)%nat → (hi - lo < fuel)%nat →
  lookup_last fuel l q lo hi = Ok (Some t').
Proof.
  revert lo hi. induction fuel as [|fuel IH]; intros lo hi ? ? ?; [lia|]. cbn [lookup_last].
  pose proof (midpoint_within lo hi ltac:(lia)). set (i := PhysicalExtentsSet.midpoint lo hi) in *.
  destruct (lookup_lt_is_Some_2 l i) as [e He]; [lia|]. rewrite (range_at i e He). cbn [obind rng_begin rng_end].
  destruct (covers_cases t' _ i e Ht' He) as [[? ?]|[[? ?]|[? ?]]].
  - zdec. rewrite nsub_Ok by lia. cbn [obind]. rewrite (proj2 (Nat.ltb_ge (i - 1) lo)) by lia. apply IH; lia.
  - zdec. by subst.
  - pose proof (start_bounds i e He). zdec. apply IH; lia.
Qed.

Lemma covers_le : (t ≤ t')%nat.
Proof.
  destruct Ht as (e & He & ?). destruct (covers_cases t' _ t e Ht' He) as [[? ?]|[[? ?]|[? ?]]]; lia.
Qed.

(** The two searches of [lookup_range] find the entries of the query's first
    and last block. *)
Lemma lookup_range_eq :
  lookup_range l q = Ok (Some (mk_lrange t t' (rng_begin q - start t) (rng_end q - start t'))).
Proof.
  pose proof Ht as (e & He & ?). pose proof Ht' as (e' & He' & ?). pose proof covers_le.
  apply lookup_lt_Some in He as Hlt. apply lookup_lt_Some in He' as Hlt'. unfold lookup_range. zdec.
  cbn [debug_assert obind]. rewrite nsub_Ok by lia. cbn [obind]. rewrite debug_check_true.
  2: { destruct (lookup_lt_is_Some_2 l (length l - 1)) as [f Hf]; [lia|]. rewrite (range_at _ _ Hf). cbn [obind rng_end].
    destruct (covers_cases t' _ _ f Ht' Hf) as [[? ?]|[[? ?]|[? ?]]]; pose proof (start_bounds _ _ Hf); [by zdec..|lia]. }
  cbn [obind].
  destruct (lookup_first_spec (S (length l)) 0 (length l - 1) (length l - 1)) as (z & -> & ?); [lia..|].
  cbn [obind]. rewrite lookup_last_spec by lia. cbn [obind].
  rewrite (range_at t e He), (range_at t' e' He'). cbn [obind rng_begin]. unfold logical_sub.
  rewrite checked_sub_Some by lia. cbn [unwrap obind]. by rewrite checked_sub_Some by lia.
Qed.
End RangeSearch.

(** *** Iteration *)

(** The physical blocks of an item, and those of the logical range from [a] to
    [b]. *)
Definition item_blocks (x : LogicalExtent) : list Z :=
  seqZ (physical_begin x) (allocation_block_count_of x).
(** A nonempty extent within 64 bits. *)
Definition item_ok (x : LogicalExtent) : Prop :=
  0 ≤ physical_begin x ∧ 0 < allocation_block_count_of x ∧ physical_begin x + allocation_block_count_of x < 2 ^ 64.
Definition window (l : lextents) (a b : Z) : list Z :=
  take (Z.to_nat (b - a)) (drop (Z.to_nat a) (le_blocks l)).

Lemma window_app l a b c : 0 ≤ a ≤ b → b ≤ c → window l a b ++ window l b c = window l a c.
Proof.
  intros. unfold window. replace (Z.to_nat b) with (Z.to_nat a + Z.to_nat (b - a))%nat by lia.
  rewrite <-drop_drop, take_take_drop. f_equal. lia.
Qed.

Lemma mjoin_cons {A} (x : list A) xs : mjoin (x :: xs) = x ++ mjoin xs.
Proof. done. Qed.

Section Iteration.
Context {B : Build} {Alloc : Allocator}.
Variable l : lextents.
Hypothesis Hl : le_wf 0 l.

(** A part of an extent is a window of the blocks. *)
Lemma window_within i e a b :
  l !! i = Some e → start l i ≤ a ≤ b → b ≤ e.2 → seqZ (e.1 + (a - start l i)) (b - a) = window l a b.
Proof.
  intros He ? ?. pose proof (start_bounds l Hl i e He). destruct (entry_split l i e He) as [Hs _].
  apply list_eq. intros k. unfold window. destruct (Nat.lt_ge_cases k (Z.to_nat (b - a))) as [Hk|Hk].
  - rewrite lookup_take_lt, lookup_drop by done.
    replace (Z.to_nat a + k)%nat with (Z.to_nat (a + Z.of_nat k)) by lia.
    pose proof (le_blocks_middle (take i l) e (drop (S i) l) (a + Z.of_nat k)) as Hb.
    fold (start l i) in Hb. rewrite <-Hs in Hb. rewrite Hb by (done || lia).
    apply lookup_seqZ. lia.
  - rewrite lookup_take_ge by lia. apply lookup_ge_None. rewrite length_seqZ. lia.
Qed.

Variable rg : LogicalExtentsRange.
Variables (qb qe : Z) (e e' : Z * Z).
Hypothesis Hfirst : l !! index_first rg = Some e.
Hypothesis Hlast : l !! index_last rg = Some e'.
Hypothesis Hle : (index_first rg ≤ index_last rg)%nat.
Hypothesis Hoff : qb = start l (index_first rg) + offset_in_first rg.
Hypothesis Hend : qe = start l (index_last rg) + end_in_last rg.
Hypothesis Hqb : start l (index_first rg) ≤ qb < e.2.
Hypothesis Hqe : start l (index_last rg) < qe ≤ e'.2.
Hypothesis Hq : qb < qe.

(** Where the item for the entry [i] begins and ends. *)
Definition item_begin (i : nat) : Z := if (i =? index_first rg)%nat then qb else start l i.
Definition item_end (i : nat) : Z := if (i =? index_last rg)%nat then qe else start l (S i).
Definition item (i : nat) : LogicalExtent :=
  mk_lextent (item_begin i) (match l !! i with Some e => e.1 + (item_begin i - start l i) | None => 0 end)
    (item_end i - item_begin i).

Lemma item_bounds i f :
  l !! i = Some f → start l i ≤ item_begin i < item_end i ∧ item_end i ≤ f.2.
Proof.
  intros Hf. pose proof (start_bounds l Hl i f Hf). pose proof (start_S l i f Hf).
  assert (i = index_first rg → f = e) as He by congruence.
  assert (i = index_last rg → f = e') as He' by congruence. unfold item_begin, item_end.
  destruct (Nat.eqb_spec i (index_first rg)) as [Hi|], (Nat.eqb_spec i (index_last rg)) as [Hi'|];
    try rewrite <-(He Hi) in *; try rewrite <-(He' Hi') in *; rewrite <-?Hi in *; rewrite <-?Hi' in *; lia.
Qed.

Lemma next_item i :
  (i ≤ index_last rg)%nat → next l (mk_iter (Some rg) i) = Ok (Some (item i), mk_iter (Some rg) (S i)).
Proof.
  intros Hi. unfold next. cbn [it_range it_index]. apply lookup_lt_Some in Hlast as ?.
  destruct (lookup_lt_is_Some_2 l i) as [f Hf]; [lia|]. rewrite (proj2 (Nat.eqb_neq i (index_last rg + 1))) by lia.
  rewrite (range_at l Hl i f Hf). cbn [obind rng_begin rng_end]. rewrite (idx_Ok _ _ _ Hf). cbn [obind].
  pose proof (start_bounds l Hl i f Hf). pose proof (start_S l i f Hf). pose proof (item_bounds i f Hf) as Hib.
  assert ((if (i =? index_first rg)%nat then
    let! logical_begin := logical_add (start l i) (offset_in_first rg) in
    let! physical_begin := physical_add f.1 (offset_in_first rg) in Ok (logical_begin, physical_begin)
    else Ok (start l i, f.1)) = Ok (E:=NvFsError) (item_begin i, f.1 + (item_begin i - start l i))) as ->.
  { unfold item_begin in *. destruct (Nat.eqb_spec i (index_first rg)) as [->|].
    - unfold logical_add, physical_add. rewrite !checked_add_Some by lia. cbn. do 2 f_equal; lia.
    - by rewrite Z.sub_diag, Z.add_0_r. }
  cbn [obind].
  assert ((if negb (i =? index_last rg)%nat then Ok f.2 else logical_add (start l i) (end_in_last rg)) =
    Ok (E:=NvFsError) (item_end i)) as ->.
  { unfold item_end in *. destruct (Nat.eqb_spec i (index_last rg)) as [->|]; cbn [negb].
    - unfold logical_add. rewrite checked_add_Some by lia. cbn. f_equal. lia.
    - f_equal. lia. }
  cbn [obind]. unfold logical_sub. rewrite checked_sub_Some by lia. cbn [unwrap obind].
  unfold item. by rewrite Hf.
Qed.

Lemma collect_items n fuel i :
  (i + n = index_last rg + 1)%nat → (n < fuel)%nat →
  collect fuel l (mk_iter (Some rg) i) = Ok (item <$> seq i n).
Proof.
  revert fuel i. induction n as [|n IH]; intros [|fuel] i Hi Hf; try lia; cbn [collect seq fmap list_fmap].
  - unfold next. cbn [it_range it_index]. by rewrite (proj2 (Nat.eqb_eq i (index_last rg + 1))) by lia.
  - rewrite next_item by lia. cbn [obind]. rewrite IH by lia. done.
Qed.

Lemma item_window i : (i ≤ index_last rg)%nat → item_blocks (item i) = window l (item_begin i) (item_end i).
Proof.
  intros. apply lookup_lt_Some in Hlast as ?. destruct (lookup_lt_is_Some_2 l i) as [f Hf]; [lia|].
  unfold item_blocks, item. cbn [physical_begin allocation_block_count_of]. rewrite Hf.
  pose proof (item_bounds i f Hf). apply window_within; [done|lia..].
Qed.

(** The blocks of the items from [i] on: past the query's first extent, from it
    on, and from before it. *)
Definition blocks_from (i : nat) : list Z :=
  mjoin (item_blocks <$> (item <$> seq i (index_last rg + 1 - i))).

Lemma blocks_from_eq i :
  (i ≤ index_last rg)%nat → blocks_from i = window l (item_begin i) (item_end i) ++ blocks_from (S i).
Proof.
  intros. unfold blocks_from. replace (index_last rg + 1 - i)%nat with (S (index_last rg + 1 - S i)) by lia.
  cbn [seq]. rewrite !fmap_cons, mjoin_cons, item_window by done. done.
Qed.

Lemma blocks_from_end : blocks_from (index_last rg + 1) = [].
Proof. unfold blocks_from. by rewrite Nat.sub_diag. Qed.

Lemma blocks_from_begin n i :
  (index_first rg ≤ i)%nat → (i + n = index_last rg)%nat → blocks_from i = window l (item_begin i) qe.
Proof.
  revert i. induction n as [|n IH]; intros i Hi Hn; rewrite blocks_from_eq by lia.
  - replace (S i) with (index_last rg + 1)%nat by lia. rewrite blocks_from_end, app_nil_r.
    unfold item_end. by rewrite (proj2 (Nat.eqb_eq i (index_last rg))) by lia.
  - apply lookup_lt_Some in Hlast as ?. destruct (lookup_lt_is_Some_2 l i) as [f Hf]; [lia|].
    pose proof (item_bounds i f Hf). pose proof (start_bounds l Hl i f Hf). rewrite IH by lia. unfold item_end in *.
    rewrite (proj2 (Nat.eqb_neq i (index_last rg))) in * by lia.
    unfold item_begin at 2. rewrite (proj2 (Nat.eqb_neq (S i) (index_first rg))) by lia.
    apply window_app; [lia|]. pose proof (start_mono l Hl (S i) (index_last rg) ltac:(lia)). lia.
Qed.

Lemma blocks_from_before n i :
  (i + n = index_first rg)%nat →
  blocks_from i = window l (start l i) (start l (index_first rg)) ++ window l qb qe.
Proof.
  revert i. induction n as [|n IH]; intros i Hn.
  - rewrite Nat.add_0_r in Hn. subst i. rewrite (blocks_from_begin (index_last rg - index_first rg)) by lia.
    unfold item_begin. rewrite Nat.eqb_refl. unfold window at 2. by rewrite Z.sub_diag.
  - apply lookup_lt_Some in Hfirst as ?. destruct (lookup_lt_is_Some_2 l i) as [f Hf]; [lia|].
    pose proof (start_bounds l Hl i f Hf). pose proof (start_S l i f Hf) as Hs.
    rewrite blocks_from_eq, IH by lia. unfold item_begin, item_end. 
    rewrite (proj2 (Nat.eqb_neq i (index_first rg))), (proj2 (Nat.eqb_neq i (index_last rg))) by lia.
    rewrite app_assoc, window_app; [done|lia|]. apply start_mono; [done|lia].
Qed.

Lemma item_valid i : (i ≤ index_last rg)%nat → item_ok (item i).
Proof.
  intros. apply lookup_lt_Some in Hlast as ?. destruct (lookup_lt_is_Some_2 l i) as [f Hf]; [lia|].
  pose proof (item_bounds i f Hf). pose proof (start_bounds l Hl i f Hf). unfold item_ok, item. cbn. rewrite Hf. lia.
Qed.

Lemma collect_from_start :
  ∃ items, collect (S (S (length l))) l (mk_iter (Some rg) 0) = Ok items ∧
    mjoin (item_blocks <$> items) = window l 0 (start l (index_first rg)) ++ window l qb qe ∧ Forall item_ok items.
Proof.
  apply lookup_lt_Some in Hlast as ?. rewrite (collect_items (index_last rg + 1)) by lia. eexists. split; [done|]. split.
  - transitivity (blocks_from 0); [unfold blocks_from; by rewrite Nat.sub_0_r|].
    by apply (blocks_from_before (index_first rg)).
  - apply Forall_fmap, Forall_forall. intros i Hi%elem_of_seq. apply item_valid. lia.
Qed.
End Iteration.

Section Iterators.
Context {B : Build} {Alloc : Allocator}.

Lemma window_empty l a : window l a a = [].
Proof. unfold window. by rewrite Z.sub_diag. Qed.

(** [iter] yields the whole extents, in order. *)
Lemma iter_spec l :
  le_wf 0 l →
  ∃ it items, iter l = Ok it ∧ collect (S (S (length l))) l it = Ok items ∧ mjoin (item_blocks <$> items) = le_blocks l ∧
    Forall item_ok items.
Proof.
  intros Hl. unfold iter. destruct l as [|e l _] using rev_ind; [exists (mk_iter None 0), []; by repeat split|].
  rewrite length_app. cbn [length]. zdec. rewrite Nat.add_sub.
  rewrite entry_logical_range_Ok by done. cbn [obind]. pose proof Hl as [Hwf (? & ? & ? & _)]%le_wf_app.
  rewrite block_count_Ok by (cbn; lia). cbn [obind rng_begin rng_end].
  assert (start (l ++ [e]) (length l) = end_of 0 l) as Hs by (unfold start; by rewrite take_app_length).
  assert (start (l ++ [e]) 0 = 0) as Hs0 by (unfold start; by rewrite take_0).
  assert ((l ++ [e]) !! length l = Some e) as He by (by apply list_lookup_middle).
  destruct (lookup_lt_is_Some_2 (l ++ [e]) 0) as [f Hf]; [rewrite length_app; cbn; lia|].
  pose proof (start_bounds _ Hl 0 f Hf). pose proof (end_of_le _ _ Hwf).
  destruct (collect_from_start (l ++ [e]) Hl (mk_lrange 0 (length l) 0 (e.2 - end_of 0 l)) 0 e.2 f e)
    as (items & Hc & Hb & Hok); cbn [index_first index_last offset_in_first end_in_last]; try (done || lia).
  exists (mk_iter (Some (mk_lrange 0 (length l) 0 (e.2 - end_of 0 l))) 0), items. split; [done|].
  split; [by rewrite <-Hc, length_app|]. split; [|done]. rewrite Hb. cbn [index_first]. rewrite Hs0, window_empty. cbn [app].
  unfold window. cbn [drop Z.to_nat]. apply take_ge. unfold le_blocks. rewrite length_counts by done.
  rewrite end_of_snoc. lia.
Qed.

(** [iter_range] yields the extents before the one of the query's first block,
    and then the query's blocks. *)
Lemma iter_range_spec l q :
  le_wf 0 l → 0 ≤ rng_begin q < rng_end q → rng_end q ≤ end_of 0 l →
  ∃ it items i, iter_range l q = Ok (Some it) ∧ collect (S (S (length l))) l it = Ok items ∧
    covers l i (rng_begin q) ∧
    mjoin (item_blocks <$> items) = window l 0 (start l i) ++ window l (rng_begin q) (rng_end q).
Proof.
  intros Hl ? ?. destruct (covers_exists l Hl (rng_begin q)) as [t Ht]; [lia|].
  destruct (covers_exists l Hl (rng_end q - 1)) as [t' Ht']; [lia|].
  unfold iter_range. rewrite (lookup_range_eq l Hl q t t') by (done || lia). cbn [obind fmap option_fmap option_map].
  pose proof (covers_le l Hl q t t' Ht Ht' ltac:(lia)).
  destruct Ht as (e & He & ?). pose proof Ht' as (e' & He' & ?).
  destruct (collect_from_start l Hl (mk_lrange t t' (rng_begin q - start l t) (rng_end q - start l t'))
    (rng_begin q) (rng_end q) e e') as (items & Hc & Hb & _); cbn [index_first index_last offset_in_first end_in_last]; try (done || lia).
  unfold iterator_new. do 3 eexists. split; [done|]. split; [done|]. split; [by exists e|done].
Qed.
End Iterators.

(** ** Properties *)

Section Properties.
Context {B : Build} {Alloc : Allocator}.

(** C34: looking up a logical block gives the physical block the extents list has
    at this position and the number of blocks that follow it consecutively in
    both address spaces; past the end there is none. *)
Theorem lookup_translates l q :
  le_wf 0 l → 0 ≤ q →
  (end_of 0 l ≤ q ∧ lookup l q = Ok None) ∨
  ∃ p n, lookup l q = Ok (Some (mk_lextent q p n)) ∧ 0 < n ∧ q + n ≤ end_of 0 l ∧
    ∀ k, 0 ≤ k < n → le_blocks l !! Z.to_nat (q + k) = Some (p + k).
Proof. apply lookup_spec. Qed.

(** The conversions between the physical and the logical representation are
    inverse to each other, and keep the sequence of blocks, for extents whose
    total length is a 64 bit number. *)
Lemma conversions_roundtrip l :
  pe_wf l → total l < 2 ^ 64 →
  ∃ l', from_physical l = Ok l' ∧ le_wf 0 l' ∧ end_of 0 l' = total l ∧ le_blocks l' = pe_blocks l ∧
    to_physical l' = Ok l.
Proof.
  intros Hwf Ht. exists (ends 0 l). destruct (ends_wf 0 l Hwf) as [? He]; [lia..|].
  unfold from_physical, to_physical, le_blocks. rewrite from_physical_loop_Ok, to_physical_loop_Ok, counts_ends by (done || lia).
  by split_and!.
Qed.

(** Appending a physical extent to the logical address space appends its
    blocks. *)
Lemma extend_by_physical_correct l r :
  le_wf 0 l → range_ok r → end_of 0 l + (rng_end r - rng_begin r) < 2 ^ 64 →
  (∃ l', extend_by_physical l r = Ok l' ∧ le_wf 0 l' ∧ le_blocks l' = le_blocks l ++ range_blocks r) ∨
  (extend_by_physical l r = Err MemoryAllocationFailure ∧ alloc_ok (length l) 1 = false).
Proof. apply extend_by_physical_spec. Qed.

(** The two binary searches of [lookup_range] terminate within the bound on
    their rounds and find the entries of the first and of the last block of a
    query within the address space, with the query's offsets into them. *)
Lemma lookup_range_correct l q :
  le_wf 0 l → 0 ≤ rng_begin q < rng_end q → rng_end q ≤ end_of 0 l →
  ∃ i j, lookup_range l q = Ok (Some (mk_lrange i j (rng_begin q - start l i) (rng_end q - start l j))) ∧
    (i ≤ j)%nat ∧ covers l i (rng_begin q) ∧ covers l j (rng_end q - 1).
Proof.
  intros Hl ? ?. destruct (covers_exists l Hl (rng_begin q)) as [i Hi]; [lia|].
  destruct (covers_exists l Hl (rng_end q - 1)) as [j Hj]; [lia|].
  exists i, j. split; [apply lookup_range_eq; done || lia|]. split; [|done].
  apply (covers_le l Hl q i j); done || lia.
Qed.

(** Iterating over all the extents yields all their blocks, in order. *)
Lemma iter_correct l :
  le_wf 0 l →
  ∃ it items, iter l = Ok it ∧ collect (S (S (length l))) l it = Ok items ∧ mjoin (item_blocks <$> items) = le_blocks l.
Proof. intros Hl. destruct (iter_spec l Hl) as (it & items & ? & ? & ? & _). by exists it, items. Qed.

(** Iterating over a query range yields the query's blocks, but preceded by
    all the extents before the one of the query's first block: the iterator
    starts at index zero and not at that extent's. *)
Lemma iter_range_yields l q :
  le_wf 0 l → 0 ≤ rng_begin q < rng_end q → rng_end q ≤ end_of 0 l →
  ∃ it items i, iter_range l q = Ok (Some it) ∧ collect (S (S (length l))) l it = Ok items ∧
    covers l i (rng_begin q) ∧
    mjoin (item_blocks <$> items) = window l 0 (start l i) ++ window l (rng_begin q) (rng_end q).
Proof. apply iter_range_spec. Qed.
End Properties.

(** The blocks [6, 7], [4] and [0, 1], as in the code's tests. *)
Lemma example_le_wf : le_wf 0 [(6, 2); (4, 3); (0, 5)].
Proof. cbn. lia. Qed.

Lemma lookup_translates_witness :
  ∃ p n, lookup (B:=debug_build) [(6, 2); (4, 3); (0, 5)] 3 = Ok (Some (mk_lextent 3 p n)) ∧
    ∀ k, 0 ≤ k < n → [6; 7; 4; 0; 1] !! Z.to_nat (3 + k) = Some (p + k).
Proof.
  destruct (lookup_translates (B:=debug_build) [(6, 2); (4, 3); (0, 5)] 3) as [[_ [=]]|(p & n & ? & _ & _ & Hk)].
  - apply example_le_wf.
  - done.
  - by exists p, n.
Defined.

Lemma conversions_roundtrip_witness :
  ∃ l', from_physical (B:=debug_build) [(6, 2); (4, 1); (0, 2)] = Ok l' ∧ to_physical l' = Ok [(6, 2); (4, 1); (0, 2)].
Proof.
  destruct (conversions_roundtrip (B:=debug_build) [(6, 2); (4, 1); (0, 2)]) as (l' & ? & _ & _ & _ & ?).
  - by repeat constructor.
  - done.
  - by exists l'.
Defined.

Lemma lookup_range_correct_witness :
  ∃ i j, lookup_range (B:=debug_build) [(6, 2); (4, 3); (0, 5)] (mk_range 1 4) =
      Ok (Some (mk_lrange i j (1 - start [(6, 2); (4, 3); (0, 5)] i) (4 - start [(6, 2); (4, 3); (0, 5)] j))) ∧
    (i ≤ j)%nat ∧ covers [(6, 2); (4, 3); (0, 5)] i 1 ∧ covers [(6, 2); (4, 3); (0, 5)] j 3.
Proof.
  apply (lookup_range_correct (B:=debug_build) [(6, 2); (4, 3); (0, 5)] (mk_range 1 4)).
  - apply example_le_wf.
  - done.
  - done.
Defined.

Lemma iter_correct_witness :
  ∃ it items, iter (B:=debug_build) [(6, 2); (4, 3); (0, 5)] = Ok it ∧
    collect (B:=debug_build) 5 [(6, 2); (4, 3); (0, 5)] it = Ok items ∧ mjoin (item_blocks <$> items) = [6; 7; 4; 0; 1].
Proof. apply (iter_correct (B:=debug_build) [(6, 2); (4, 3); (0, 5)]). apply example_le_wf. Defined.

(** For the query of the logical block 3, the iteration over the list of blocks
    [6; 7; 4; 0; 1] yields [6; 7; 4] before the block asked for, [0]. *)
Lemma iter_range_yields_witness :
  ∃ it items, iter_range (B:=debug_build) [(6, 2); (4, 3); (0, 5)] (mk_range 3 4) = Ok (Some it) ∧
    collect (B:=debug_build) 5 [(6, 2); (4, 3); (0, 5)] it = Ok items ∧
    mjoin (item_blocks <$> items) = [6; 7; 4] ++ [0].
Proof.
  destruct (iter_range_yields (B:=debug_build) [(6, 2); (4, 3); (0, 5)] (mk_range 3 4))
    as (it & items & i & ? & ? & Hi & Hb).
  - apply example_le_wf.
  - done.
  - done.
  - exists it, items. split_and!; [done..|]. rewrite Hb.
    destruct Hi as (e & He & ?). destruct i as [|[|[|i]]]; cbn in He; simplify_eq; cbn in *; try lia. done.
Defined.

End LogicalExtents.
