(* ===== verification/ImageLayout.v ===== *)
(** * The filesystem's layout parameters (storage/src/fs/cocoonfs/layout.rs, [ImageLayout])

    Validation of the parameters, and their encoding in the image header.  The
    width of [usize] is a parameter: a configuration can be valid but not be
    supported by the platform. *)

From S2P Require Import Prelude Errors ExtentPtr TpmInterface.
Import Errors TpmInterface.

Module ImageLayout.

(** [usize::BITS]. *)
Class Platform := usize_bits : Z.
(** [alloc_bitmap::BitmapWord::BITS]. *)
Definition BITMAP_WORD_BITS : Z := 64.

Record ImageLayout := mk_layout {
  allocation_block_size_128b_log2 : Z;
  io_block_allocation_blocks_log2 : Z;
  auth_tree_node_io_blocks_log2 : Z;
  auth_tree_data_block_allocation_blocks_log2 : Z;
  allocation_bitmap_file_block_allocation_blocks_log2 : Z;
  index_tree_leaf_node_allocation_blocks_log2 : Z;
  index_tree_internal_node_allocation_blocks_log2 : Z;
  auth_tree_node_hash_alg : TpmiAlgHash;
  auth_tree_data_hmac_hash_alg : TpmiAlgHash;
  auth_tree_root_hmac_hash_alg : TpmiAlgHash;
  preauth_cca_protection_hmac_hash_alg : TpmiAlgHash;
  kdf_hash_alg : TpmiAlgHash;
  block_cipher_alg : SymBlockCipherAlg;
}.

Abbreviation nvres := (outcome NvFsError).

Section Ops.
Context {B : Build} {P : Platform} {F : Features}.

(** The pair of checks on a block size given by its logarithm in bytes, a sum of
    [u8] values which is a [u32] without overflow. *)
Definition check_block_size (block_size_log2 : Z) : nvres unit :=
  if 64 <=? block_size_log2 then Err (from_format InvalidImageLayoutConfig)
  else if usize_bits <=? block_size_log2 then Err DimensionsNotSupported
  else Ok tt.

(** [if 1u64 << n > limit { return Err(InvalidImageLayoutConfig) }]. *)
Definition check_block_count (n limit : Z) : nvres unit :=
  let! blocks := ushl 64 1 n in
  if limit <? blocks then Err (from_format InvalidImageLayoutConfig) else Ok tt.

(** The round of the loop over the two index tree node sizes. *)
Definition check_index_tree_node
    (index_tree_node_allocation_blocks_log2 allocation_block_size_128b_log2 : Z) : nvres unit :=
  let! _ := check_block_size (index_tree_node_allocation_blocks_log2 + allocation_block_size_128b_log2 + 7) in
  let! _ := check_block_count index_tree_node_allocation_blocks_log2 BITMAP_WORD_BITS in
  check_block_count index_tree_node_allocation_blocks_log2 ExtentPtr.MAX_EXTENT_ALLOCATION_BLOCKS.

(** [ImageLayout::new], with its arguments as a record. *)
Definition new (l : ImageLayout) : nvres ImageLayout :=
  let! _ := check_block_size (allocation_block_size_128b_log2 l + 7) in
  let! _ := check_block_size (io_block_allocation_blocks_log2 l + allocation_block_size_128b_log2 l + 7) in
  let! _ := check_block_count (io_block_allocation_blocks_log2 l) ExtentPtr.MAX_EXTENT_ALLOCATION_BLOCKS in
  let! _ := check_block_size (auth_tree_node_io_blocks_log2 l + io_block_allocation_blocks_log2 l
                              + allocation_block_size_128b_log2 l + 7) in
  let! _ := check_block_size (auth_tree_data_block_allocation_blocks_log2 l
                              + allocation_block_size_128b_log2 l + 7) in
  let! _ := check_block_count (Z.max (io_block_allocation_blocks_log2 l)
                                     (auth_tree_data_block_allocation_blocks_log2 l)) BITMAP_WORD_BITS in
  let! _ := check_block_size (allocation_bitmap_file_block_allocation_blocks_log2 l
                              + allocation_block_size_128b_log2 l + 7) in
  let! _ := check_index_tree_node (index_tree_leaf_node_allocation_blocks_log2 l)
              (allocation_block_size_128b_log2 l) in
  let! _ := check_index_tree_node (index_tree_internal_node_allocation_blocks_log2 l)
              (allocation_block_size_128b_log2 l) in
  Ok l.

Definition encoded_len : nat := 1 + 1 + 1 + 1 + 1 + 1 + 1 + 5 * marshalled_size + marshalled_size + 2.

(** The array [result], zeroed, is filled from its front: the part written so far
    and the rest of it. *)
Definition encode (self : ImageLayout) : nvres (list Z) :=
  let result := replicate encoded_len 0 in
  let! result := set_idx result 0 (allocation_block_size_128b_log2 self) in
  let! result := set_idx result 1 (io_block_allocation_blocks_log2 self) in
  let! result := set_idx result 2 (auth_tree_node_io_blocks_log2 self) in
  let! result := set_idx result 3 (auth_tree_data_block_allocation_blocks_log2 self) in
  let! result := set_idx result 4 (allocation_bitmap_file_block_allocation_blocks_log2 self) in
  let! result := set_idx result 5 (index_tree_leaf_node_allocation_blocks_log2 self) in
  let! result := set_idx result 6 (index_tree_internal_node_allocation_blocks_log2 self) in
  let! buf := slice_from result 7 in
  let! '(w1, buf) := map_err_with (λ _, err_internal) (hash_marshal (auth_tree_node_hash_alg self) buf) in
  let! '(w2, buf) := map_err_with (λ _, err_internal) (hash_marshal (auth_tree_data_hmac_hash_alg self) buf) in
  let! '(w3, buf) := map_err_with (λ _, err_internal) (hash_marshal (auth_tree_root_hmac_hash_alg self) buf) in
  let! '(w4, buf) :=
    map_err_with (λ _, err_internal) (hash_marshal (preauth_cca_protection_hmac_hash_alg self) buf) in
  let! '(w5, buf) := map_err_with (λ _, err_internal) (hash_marshal (kdf_hash_alg self) buf) in
  let '(block_cipher_alg_id, block_cipher_key_size) := cipher_into (block_cipher_alg self) in
  let! '(w6, buf) := map_err_with (λ _, err_internal) (sym_marshal block_cipher_alg_id buf) in
  let! '(w7, buf) := map_err_with (λ _, err_internal) (marshal_u16 buf block_cipher_key_size) in
  let! _ := debug_assert (length buf =? 0)%nat in
  Ok (take 7 result ++ w1 ++ w2 ++ w3 ++ w4 ++ w5 ++ w6 ++ w7 ++ buf).

(** The error conversions of [decode]. *)
Definition hash_err {A} (e : TpmErr) : nvres A :=
  match e with
  | Rc rc => if rc =? RC_HASH then Err (from_format UnsupportedCryptoAlgorithm) else err_internal
  | InternalErr => err_internal
  end.
Definition sym_err {A} (e : TpmErr) : nvres A :=
  match e with
  | Rc rc => if rc =? RC_SYMMETRIC then Err (from_format UnsupportedCryptoAlgorithm) else err_internal
  | InternalErr => err_internal
  end.
Definition cipher_err {A} (e : CryptoError) : nvres A :=
  match e with
  | InvalidParams => Err (from_format UnsupportedCryptoAlgorithm)
  | _ => err_internal
  end.

Definition decode (buf : list Z) : nvres ImageLayout :=
  if negb (length buf =? encoded_len)%nat then err_internal
  else
    let! allocation_block_size_128b_log2 := idx buf 0 in
    let! io_block_allocation_blocks_log2 := idx buf 1 in
    let! auth_tree_node_io_blocks_log2 := idx buf 2 in
    let! auth_tree_data_block_allocation_blocks_log2 := idx buf 3 in
    let! allocation_bitmap_file_block_allocation_blocks_log2 := idx buf 4 in
    let! index_tree_leaf_node_allocation_blocks_log2 := idx buf 5 in
    let! index_tree_internal_node_allocation_blocks_log2 := idx buf 6 in
    let! buf := slice_from buf 7 in
    let! '(buf, auth_tree_node_hash_alg) := map_err_with hash_err (hash_unmarshal buf) in
    let! '(buf, auth_tree_data_hmac_hash_alg) := map_err_with hash_err (hash_unmarshal buf) in
    let! '(buf, auth_tree_root_hmac_hash_alg) := map_err_with hash_err (hash_unmarshal buf) in
    let! '(buf, preauth_cca_protection_hmac_hash_alg) := map_err_with hash_err (hash_unmarshal buf) in
    let! '(buf, kdf_hash_alg) := map_err_with hash_err (hash_unmarshal buf) in
    let! '(buf, block_cipher_alg_id) := map_err_with sym_err (sym_unmarshal buf) in
    let! '(buf, block_cipher_key_size) := map_err_with (λ _, err_internal) (unmarshal_u16 buf) in
    let! _ := debug_assert (length buf =? 0)%nat in
    let! block_cipher_alg :=
      map_err_with cipher_err (cipher_try_from block_cipher_alg_id block_cipher_key_size) in
    new (mk_layout allocation_block_size_128b_log2 io_block_allocation_blocks_log2
      auth_tree_node_io_blocks_log2 auth_tree_data_block_allocation_blocks_log2
      allocation_bitmap_file_block_allocation_blocks_log2
      index_tree_leaf_node_allocation_blocks_log2 index_tree_internal_node_allocation_blocks_log2
      auth_tree_node_hash_alg auth_tree_data_hmac_hash_alg auth_tree_root_hmac_hash_alg
      preauth_cca_protection_hmac_hash_alg kdf_hash_alg block_cipher_alg).
End Ops.

(** ** Specification *)

(** The sizes are [u8] values. *)
Definition sizes_u8 (l : ImageLayout) : Prop :=
  u8 (allocation_block_size_128b_log2 l) ∧ u8 (io_block_allocation_blocks_log2 l) ∧
  u8 (auth_tree_node_io_blocks_log2 l) ∧ u8 (auth_tree_data_block_allocation_blocks_log2 l) ∧
  u8 (allocation_bitmap_file_block_allocation_blocks_log2 l) ∧
  u8 (index_tree_leaf_node_allocation_blocks_log2 l) ∧
  u8 (index_tree_internal_node_allocation_blocks_log2 l).

(** All block sizes in bytes are below [2 ^ w]. *)
Definition sizes_below (w : Z) (l : ImageLayout) : Prop :=
  let s := allocation_block_size_128b_log2 l in
  s + 7 < w ∧ io_block_allocation_blocks_log2 l + s + 7 < w ∧
  auth_tree_node_io_blocks_log2 l + io_block_allocation_blocks_log2 l + s + 7 < w ∧
  auth_tree_data_block_allocation_blocks_log2 l + s + 7 < w ∧
  allocation_bitmap_file_block_allocation_blocks_log2 l + s + 7 < w ∧
  index_tree_leaf_node_allocation_blocks_log2 l + s + 7 < w ∧
  index_tree_internal_node_allocation_blocks_log2 l + s + 7 < w.

(** The blocks that one bitmap word or one extent pointer has to cover have at
    most 64 allocation blocks. *)
Definition blocks_coverable (l : ImageLayout) : Prop :=
  io_block_allocation_blocks_log2 l ≤ 6 ∧ auth_tree_data_block_allocation_blocks_log2 l ≤ 6 ∧
  index_tree_leaf_node_allocation_blocks_log2 l ≤ 6 ∧ index_tree_internal_node_allocation_blocks_log2 l ≤ 6.

(** The algorithms are compiled in. *)
Definition algs_enabled `{Features} (l : ImageLayout) : Prop :=
  hash_enabled (auth_tree_node_hash_alg l) = true ∧ hash_enabled (auth_tree_data_hmac_hash_alg l) = true ∧
  hash_enabled (auth_tree_root_hmac_hash_alg l) = true ∧
  hash_enabled (preauth_cca_protection_hmac_hash_alg l) = true ∧ hash_enabled (kdf_hash_alg l) = true ∧
  sym_enabled (cipher_into (block_cipher_alg l)).1 = true.

Definition layout_error (e : NvFsError) : Prop :=
  e = from_format InvalidImageLayoutConfig ∨ e = DimensionsNotSupported.

Section Spec.
Context {B : Build} {P : Platform} {F : Features}.

Lemma check_block_size_cases n :
  (check_block_size n = Ok tt ∧ n < 64 ∧ n < usize_bits) ∨
  (∃ e, check_block_size n = Err e ∧ layout_error e ∧ (64 ≤ n ∨ usize_bits ≤ n)).
Proof.
  unfold check_block_size. zcase; [right; eexists; split; [done|]; split; [by left|lia]|].
  zcase; [right; eexists; split; [done|]; split; [by right|lia]|]. left. split; [done|lia].
Qed.

Lemma check_block_count_cases n :
  0 ≤ n < 64 →
  (check_block_count n 64 = Ok tt ∧ n ≤ 6) ∨ (∃ e, check_block_count n 64 = Err e ∧ layout_error e ∧ 6 < n).
Proof.
  intros. unfold check_block_count. rewrite ushl_Ok by done. cbn [obind]. rewrite Z.shiftl_1_l.
  rewrite wrap_small by (split; [apply Z.pow_nonneg; lia|apply Z.pow_lt_mono_r; lia]).
  destruct (Z.le_gt_cases n 6).
  - assert (2 ^ n ≤ 2 ^ 6) by (apply Z.pow_le_mono_r; lia). change (2 ^ 6) with 64 in *. left. by zdec.
  - assert (2 ^ 6 < 2 ^ n) by (apply Z.pow_lt_mono_r; lia). change (2 ^ 6) with 64 in *. right.
    rewrite (proj2 (Z.ltb_lt _ _)) by done. eexists. split; [done|]. split; [by left|done].
Qed.

(** [new] accepts a configuration exactly if it meets the constraints. *)
Lemma new_cases l :
  sizes_u8 l →
  (new l = Ok l ∧ sizes_below 64 l ∧ sizes_below usize_bits l ∧ blocks_coverable l) ∨
  (∃ e, new l = Err e ∧ layout_error e ∧ ¬ (sizes_below 64 l ∧ sizes_below usize_bits l ∧ blocks_coverable l)).
Proof.
  intros ([? ?] & [? ?] & [? ?] & [? ?] & [? ?] & [? ?] & [? ?]). unfold new, check_index_tree_node.
  change ExtentPtr.MAX_EXTENT_ALLOCATION_BLOCKS with 64. change BITMAP_WORD_BITS with 64.
  unfold sizes_below, blocks_coverable.
  repeat match goal with
  | |- context [check_block_size ?n] =>
      destruct (check_block_size_cases n) as [(-> & ? & ?)|(e & -> & ? & ?)]; cbn [obind];
      [|right; exists e; split; [done|]; split; [done|lia]]
  | |- context [check_block_count ?n 64] =>
      destruct (check_block_count_cases n) as [(-> & ?)|(e & -> & ? & ?)]; [lia| |]; cbn [obind];
      [|right; exists e; split; [done|]; split; [done|lia]]
  end.
  left. split; [done|lia].
Qed.

(** The encoding, as bytes. *)
Lemma encode_eq l :
  encode l = Ok ([allocation_block_size_128b_log2 l; io_block_allocation_blocks_log2 l;
    auth_tree_node_io_blocks_log2 l; auth_tree_data_block_allocation_blocks_log2 l;
    allocation_bitmap_file_block_allocation_blocks_log2 l;
    index_tree_leaf_node_allocation_blocks_log2 l; index_tree_internal_node_allocation_blocks_log2 l] ++
    to_be_bytes 2 (hash_id (auth_tree_node_hash_alg l)) ++ to_be_bytes 2 (hash_id (auth_tree_data_hmac_hash_alg l)) ++
    to_be_bytes 2 (hash_id (auth_tree_root_hmac_hash_alg l)) ++
    to_be_bytes 2 (hash_id (preauth_cca_protection_hmac_hash_alg l)) ++ to_be_bytes 2 (hash_id (kdf_hash_alg l)) ++
    to_be_bytes 2 (sym_id (cipher_into (block_cipher_alg l)).1) ++
    to_be_bytes 2 (cipher_into (block_cipher_alg l)).2).
Proof. unfold encode. destruct (cipher_into (block_cipher_alg l)) as [a k]. reflexivity. Qed.

Lemma decode_encode l :
  sizes_u8 l → algs_enabled l → sizes_below 64 l → sizes_below usize_bits l → blocks_coverable l →
  ∃ bs, encode l = Ok bs ∧ length bs = encoded_len ∧ Forall u8 bs ∧ decode bs = Ok l.
Proof.
  intros Hu (? & ? & ? & ? & ? & ?) Hs Hp Hc. rewrite encode_eq. eexists. split; [done|].
  split; [by rewrite !length_app, !length_to_be_bytes|]. split.
  { destruct Hu as (? & ? & ? & ? & ? & ? & ?). rewrite !Forall_app. split_and!; try apply to_be_bytes_u8.
    repeat (constructor; [done|]). constructor. }
  unfold decode. rewrite !length_app, !length_to_be_bytes. cbn [length Nat.add Nat.eqb negb encoded_len marshalled_size Nat.mul].
  cbn [app]. unfold idx. cbn [lookup list_lookup unwrap obind].
  unfold slice_from. cbn [length Nat.leb drop obind]. rewrite drop_0.
  do 5 (rewrite hash_unmarshal_Ok by done; cbn [map_err_with obind]).
  rewrite sym_unmarshal_Ok by done. cbn [map_err_with obind].
  unfold unmarshal_u16. rewrite <-(app_nil_r (to_be_bytes 2 (cipher_into _).2)).
  rewrite unmarshal_u_Ok by apply cipher_into_u16. cbn [map_err_with obind length Nat.eqb debug_assert].
  rewrite cipher_try_from_into. cbn [map_err_with obind].
  destruct (new_cases l Hu) as [[Hn _]|(e & _ & _ & Hno)]; [by destruct l|]. tauto.
Qed.

(** Unmarshalling from a buffer of which the first bytes are known. *)
Lemma hash_unmarshal_cons x y buf :
  hash_unmarshal (x :: y :: buf) = let! h := hash_try_from (from_be_bytes [x; y]) in Ok (buf, h).
Proof. done. Qed.
Lemma sym_unmarshal_cons x y buf :
  sym_unmarshal (x :: y :: buf) = let! a := sym_try_from (from_be_bytes [x; y]) in Ok (buf, a).
Proof. done. Qed.

Lemma be_bytes_2 x y : u8 x → u8 y → to_be_bytes 2 (from_be_bytes [x; y]) = [x; y].
Proof. intros. apply (to_from_be_bytes [x; y]). repeat (constructor; [done|]). constructor. Qed.

Lemma decode_cases bs :
  Forall u8 bs → length bs = encoded_len → sym_enabled Tdes = false →
  (∃ l, decode bs = Ok l ∧ encode l = Ok bs ∧ sizes_u8 l ∧ algs_enabled l ∧
     sizes_below 64 l ∧ sizes_below usize_bits l ∧ blocks_coverable l) ∨
  (∃ e, decode bs = Err e ∧ (layout_error e ∨ e = from_format UnsupportedCryptoAlgorithm)).
Proof.
  intros Hbs Hlen Htdes. do 21 (destruct bs as [|? bs]; [done|]). destruct bs; [|done].
  do 21 (apply Forall_cons in Hbs as [? Hbs]). unfold decode. rewrite Hlen, Nat.eqb_refl. clear Hlen Hbs. cbn [negb].
  unfold idx. cbn [lookup list_lookup unwrap obind].
  unfold slice_from. cbn [length Nat.leb drop obind]. rewrite ?drop_0.
  do 5 (rewrite hash_unmarshal_cons;
    lazymatch goal with |- context [hash_try_from ?v] => pose proof (hash_try_from_eq v); destruct (hash_try_from v) as [?|?| |] end;
    [|match goal with H : _ ∧ _ |- _ => destruct H as [-> _] end; right; eexists; split; [done|by right]|done|done];
    cbn [map_err_with obind]).
  rewrite sym_unmarshal_cons.
  lazymatch goal with |- context [sym_try_from ?v] => pose proof (sym_try_from_eq v); destruct (sym_try_from v) as [alg|?| |] end;
    [|match goal with H : _ ∧ _ |- _ => destruct H as [-> _] end; right; eexists; split; [done|by right]|done|done].
  cbn [map_err_with obind].
  match goal with |- context [unmarshal_u16 [?x; ?y]] =>
    change (unmarshal_u16 [x; y]) with (Ok (E:=TpmErr) ([] : list Z, from_be_bytes [x; y]));
    set (k := from_be_bytes [x; y]) end.
  cbn [map_err_with obind length Nat.eqb debug_assert]. destruct_and!.
  destruct (cipher_try_from_cases alg k) as [(c & -> & Hc)| -> ]; [congruence| |right; eexists; split; [done|by right]].
  cbn [map_err_with obind].
  match goal with |- context [new ?l] => destruct (new_cases l) as [(-> & ? & ? & ?)|(e & -> & ? & ?)] end;
    [by split_and!| |right; eexists; split; [done|by left]].
  left. eexists. split; [done|].
  split; [|split; [by split_and!|split; [|done]]; unfold algs_enabled; cbn; rewrite Hc; by split_and!].
  rewrite encode_eq. cbn -[to_be_bytes hash_id sym_id cipher_into from_be_bytes]. rewrite Hc. cbn [fst snd]. unfold k.
  repeat match goal with H : from_be_bytes _ = _ |- _ => rewrite <-H; clear H end.
  by rewrite !be_bytes_2.
Qed.
End Spec.

(** ** Properties *)

Section Properties.
Context {B : Build} {P : Platform} {F : Features}.

(** A layout is accepted exactly if all block sizes are below two to the
    power of 64 and of the width of [usize], and the blocks that a bitmap word or
    an extent pointer covers have at most 64 allocation blocks; it is refused
    with one of two errors otherwise. *)
Lemma new_correct l :
  sizes_u8 l →
  (new l = Ok l ∧ sizes_below 64 l ∧ sizes_below usize_bits l ∧ blocks_coverable l) ∨
  (∃ e, new l = Err e ∧ layout_error e ∧ ¬ (sizes_below 64 l ∧ sizes_below usize_bits l ∧ blocks_coverable l)).
Proof. apply new_cases. Qed.

(** A valid layout whose algorithms are compiled in is encoded to 21 bytes
    that decode to it. *)
Lemma layout_roundtrip l :
  sizes_u8 l → algs_enabled l → new l = Ok l →
  ∃ bs, encode l = Ok bs ∧ length bs = 21%nat ∧ Forall u8 bs ∧ decode bs = Ok l.
Proof.
  intros Hu Ha Hn. destruct (new_cases l Hu) as [(_ & ? & ? & ?)|(e & He & _)]; [|congruence].
  by apply decode_encode.
Qed.

(** Decoding any 21 bytes never panics, and gives either one of three errors
    or a valid layout with enabled algorithms whose encoding the bytes are. *)
Lemma layout_decode_correct bs :
  Forall u8 bs → length bs = 21%nat → sym_enabled Tdes = false →
  (∃ l, decode bs = Ok l ∧ encode l = Ok bs ∧ new l = Ok l ∧ algs_enabled l) ∨
  (∃ e, decode bs = Err e ∧ (layout_error e ∨ e = from_format UnsupportedCryptoAlgorithm)).
Proof.
  intros Hbs Hlen Ht. destruct (decode_cases bs Hbs Hlen Ht) as [(l & ? & ? & Hu & ? & Hv)|]; [left|by right].
  exists l. split_and!; try done. destruct (new_cases l Hu) as [[? _]|(e & _ & _ & Hno)]; [done|tauto].
Qed.
End Properties.

(** A build with SHA-256 and AES, and a layout of 128 byte allocation blocks. *)
Definition example_features : Features := {|
  hash_enabled := λ h, bool_decide (h = Sha256);
  sym_enabled := λ a, bool_decide (a = Aes);
|}.
Definition example_layout : ImageLayout :=
  mk_layout 0 2 1 2 3 4 5 Sha256 Sha256 Sha256 Sha256 Sha256 (CipherAes Aes256).

Lemma new_correct_witness : new (B:=debug_build) (P:=64) example_layout = Ok example_layout.
Proof.
  destruct (new_correct (B:=debug_build) (P:=64) example_layout) as [[? _]|(e & [=] & _)]; [|done].
  by repeat split.
Defined.

Lemma layout_roundtrip_witness :
  ∃ bs, encode (B:=debug_build) example_layout = Ok bs ∧ length bs = 21%nat ∧ Forall u8 bs ∧
    decode (B:=debug_build) (P:=64) (F:=example_features) bs = Ok example_layout.
Proof.
  apply (layout_roundtrip (B:=debug_build) (P:=64) (F:=example_features) example_layout).
  - by repeat split.
  - by repeat split.
  - done.
Defined.

Lemma layout_decode_correct_witness :
  ∃ e, decode (B:=debug_build) (P:=64) (F:=example_features) (replicate 21 0) = Err e ∧
    (layout_error e ∨ e = from_format UnsupportedCryptoAlgorithm).
Proof.
  destruct (layout_decode_correct (B:=debug_build) (P:=64) (F:=example_features) (replicate 21 0))
    as [(l & [=] & _)|He].
  - by repeat constructor.
  - done.
  - done.
  - exact He.
Defined.

End ImageLayout.
