(* ===== verification/ExtentsLayout.v ===== *)
(** * Layout of groups of extents (storage/src/fs/cocoonfs/extents_layout.rs)

    Converts between the number of allocation blocks of an extent and the number
    of payload bytes it can store, given the lengths of its headers and the
    alignment of its payload. *)

From S2P Require Import Prelude BitManip Errors Layout ImageLayout.
Import BitManip Errors Layout.

Module ExtentsLayout.

Record ExtentsLayout := mk_layout {
  max_extent_allocation_blocks : Z;
  extent_alignment_allocation_blocks_log2 : Z;
  extents_hdr_len : Z;
  extent_hdr_len : Z;
  extent_payload_hdr_len : Z;
  extent_payload_len_alignment : Z;
  allocation_block_size_128b_log2 : Z;
}.

Section Ops.
Context {B : Build} {E : Type}.
Abbreviation res := (outcome E).
Implicit Types self : ExtentsLayout.

(** [%] on unsigned integers. *)
Definition urem (a b : Z) : res Z := if b =? 0 then Panic else Ok (a mod b).

(** [self.allocation_block_size_128b_log2 + 7], a sum of [u8] values. *)
Definition block_size_log2 self : res Z := uadd 8 (allocation_block_size_128b_log2 self) 7.

(** The length of the common header, for the extent that stores it. *)
Definition stored_extents_hdr_len self (extent_stores_extents_hdr : bool) : Z :=
  if extent_stores_extents_hdr then extents_hdr_len self else 0.

Definition extent_effective_payload_len self (extent_allocation_blocks : Z) (extent_stores_extents_hdr : bool) : res Z :=
  let! _ := debug_assert (extent_allocation_blocks <=? max_extent_allocation_blocks self) in
  let! _ := debug_assert (negb (extent_allocation_blocks =? 0)) in
  let! n := block_size_log2 self in
  let! total_extent_len := ushl 64 extent_allocation_blocks n in
  let! t := usub 64 total_extent_len (stored_extents_hdr_len self extent_stores_extents_hdr) in
  let! total_payload_len := usub 64 t (extent_hdr_len self) in
  let! payload_padding_len :=
    if is_pow2_u 8 (extent_payload_len_alignment self) then
      let! m := usub 64 (extent_payload_len_alignment self) 1 in
      Ok (Z.land total_payload_len m)
    else urem total_payload_len (extent_payload_len_alignment self) in
  let! t := usub 64 total_payload_len payload_padding_len in
  usub 64 t (extent_payload_hdr_len self).

(** The bytes to add to [payload_len] for a multiple of the payload alignment. *)
Definition payload_len_padding self (payload_len : Z) : res Z :=
  if is_pow2_u 8 (extent_payload_len_alignment self) then
    let! m := usub 64 (extent_payload_len_alignment self) 1 in
    Ok (Z.land (wrapping_neg 64 payload_len) m)
  else
    let! r := urem payload_len (extent_payload_len_alignment self) in
    if r =? 0 then Ok 0 else usub 64 (extent_payload_len_alignment self) r.

Definition extent_payload_len_to_allocation_blocks self (effective_payload_len : Z) (extent_stores_extents_hdr : bool)
    : res (Z * bool) :=
  if negb extent_stores_extents_hdr && (effective_payload_len =? 0) then Ok (0, true)
  else
    let '(payload_len, saturated) :=
      match checked_add 64 effective_payload_len (extent_payload_hdr_len self) with
      | Some payload_len => (payload_len, false)
      | None => (2 ^ 64 - 1, true)
      end in
    let! payload_len_padding := payload_len_padding self payload_len in
    let! n := block_size_log2 self in
    let! extent_allocation_blocks := ushr 64 payload_len n in
    let! t := ushl 64 extent_allocation_blocks n in
    let! payload_len := usub 64 payload_len t in
    let! t := uadd 64 (stored_extents_hdr_len self extent_stores_extents_hdr) (extent_hdr_len self) in
    let! headers_len := uadd 64 t payload_len_padding in
    let! headers_allocation_blocks := ushr 64 headers_len n in
    let! t := ushl 64 headers_allocation_blocks n in
    let! headers_len := usub 64 headers_len t in
    let! extent_allocation_blocks := uadd 64 extent_allocation_blocks headers_allocation_blocks in
    let! remaining_len := uadd 64 headers_len payload_len in
    let! t := ushr 64 remaining_len n in
    let! extent_allocation_blocks := uadd 64 extent_allocation_blocks t in
    let! one := ushl 64 1 n in
    let! mask := usub 64 one 1 in
    let! extent_allocation_blocks :=
      if negb (Z.land remaining_len mask =? 0) then uadd 64 extent_allocation_blocks 1
      else Ok extent_allocation_blocks in
    let '(extent_allocation_blocks, saturated) :=
      if max_extent_allocation_blocks self <? extent_allocation_blocks
      then (max_extent_allocation_blocks self, true) else (extent_allocation_blocks, saturated) in
    let! extent_allocation_blocks :=
      round_up_pow2_unchecked 64 extent_allocation_blocks (extent_alignment_allocation_blocks_log2 self) in
    Ok (extent_allocation_blocks, negb saturated).

Definition min_extents_allocation_blocks self : res (Z * Z) :=
  let! '(tail_extent_min_allocation_blocks, fits) := extent_payload_len_to_allocation_blocks self 1 false in
  let! _ := debug_assert fits in
  let! head_extent_min_allocation_blocks :=
    if negb (extents_hdr_len self =? 0) then
      let! '(head_extent_min_allocation_blocks, fits) := extent_payload_len_to_allocation_blocks self 0 true in
      let! _ := debug_assert fits in
      Ok head_extent_min_allocation_blocks
    else Ok tail_extent_min_allocation_blocks in
  Ok (head_extent_min_allocation_blocks, tail_extent_min_allocation_blocks).

Definition extents_hdr_placement_cost_is_invariant self : res bool :=
  if extents_hdr_len self =? 0 then Ok true
  else if is_pow2_u 8 (extent_payload_len_alignment self) then
    let! _ := debug_check (let! t := uadd 8 (extent_alignment_allocation_blocks_log2 self)
                                      (allocation_block_size_128b_log2 self) in
                           let! n := uadd 8 t 7 in
                           let! unit := ushl 64 1 n in
                           Ok (extent_payload_len_alignment self <=? unit)) in
    Ok true
  else
    let! r := urem (extents_hdr_len self) (extent_payload_len_alignment self) in
    Ok (r =? 0).

Definition extents_hdr_placement_cost self (extent_allocation_blocks : Z) : res Z :=
  let! _ := debug_assert (extent_allocation_blocks <=? max_extent_allocation_blocks self) in
  let! _ := debug_assert (negb (extent_allocation_blocks =? 0)) in
  if extents_hdr_len self =? 0 then Ok 0
  else if is_pow2_u 8 (extent_payload_len_alignment self) then
    let! _ := debug_check (extents_hdr_placement_cost_is_invariant self) in
    let! m := usub 64 (extent_payload_len_alignment self) 1 in
    let payload_padding_wo_extents_hdr_len := Z.land (wrapping_neg 64 (extent_hdr_len self)) m in
    let! t := uadd 64 (extents_hdr_len self) (extent_hdr_len self) in
    let payload_padding_w_extents_hdr_len := Z.land (wrapping_neg 64 t) m in
    let! t := uadd 64 (extents_hdr_len self) payload_padding_w_extents_hdr_len in
    usub 64 t payload_padding_wo_extents_hdr_len
  else
    let! n := block_size_log2 self in
    let! total_extent_len := ushl 64 extent_allocation_blocks n in
    let! total_payload_len_wo_extents_hdr := usub 64 total_extent_len (extent_hdr_len self) in
    let! payload_padding_wo_extents_hdr_len :=
      urem total_payload_len_wo_extents_hdr (extent_payload_len_alignment self) in
    let! total_payload_len_w_extents_hdr := usub 64 total_payload_len_wo_extents_hdr (extents_hdr_len self) in
    let! payload_padding_w_extents_hdr_len :=
      urem total_payload_len_w_extents_hdr (extent_payload_len_alignment self) in
    let! t := uadd 64 (extents_hdr_len self) payload_padding_w_extents_hdr_len in
    usub 64 t payload_padding_wo_extents_hdr_len.
End Ops.

Section New.
Context {B : Build} {P : ImageLayout.Platform}.
Abbreviation nvres := (outcome NvFsError).

(** The check of a minimum extent against the bound on an extent's length. *)
Definition check_min_extent (min_allocation_blocks : Z * bool) (upper_bound : Z) : nvres unit :=
  if negb min_allocation_blocks.2 then Err (from_format InvalidImageLayoutConfig)
  else if upper_bound <? min_allocation_blocks.1 then Err (from_format UnsupportedImageLayoutConfig)
  else Ok tt.

Definition new (max_extent_allocation_blocks : option Z)
    (extent_alignment_allocation_blocks_log2 extents_hdr_len extent_hdr_len extent_payload_hdr_len
     extent_payload_len_alignment allocation_block_size_128b_log2 : Z) : nvres ExtentsLayout :=
  if 64 <=? extent_alignment_allocation_blocks_log2 + allocation_block_size_128b_log2 + 7 then err_internal
  else if extent_payload_len_alignment =? 0 then err_internal
  else
    let! t := ushr 64 extent_payload_len_alignment
                (extent_alignment_allocation_blocks_log2 + allocation_block_size_128b_log2 + 7) in
    if 1 <? t then err_internal
    else if ImageLayout.BITMAP_WORD_BITS <=? extent_alignment_allocation_blocks_log2 then err_internal
    else
      let! n := uadd 8 allocation_block_size_128b_log2 7 in
      let! upper_bound := ushr 64 (2 ^ 64 - 1) n in
      let max :=
        match max_extent_allocation_blocks with Some max => Z.min max upper_bound | None => upper_bound end in
      let! max := round_down_pow2 64 max extent_alignment_allocation_blocks_log2 in
      if max =? 0 then err_internal
      else
        let extents_layout :=
          mk_layout max extent_alignment_allocation_blocks_log2 extents_hdr_len extent_hdr_len extent_payload_hdr_len
            extent_payload_len_alignment allocation_block_size_128b_log2 in
        let! n := uadd 8 allocation_block_size_128b_log2 7 in
        let! upper_bound := ushr 64 (Z.min (2 ^ ImageLayout.usize_bits - 1) (2 ^ 64 - 1)) n in
        let! _ :=
          if negb (extents_hdr_len =? 0) then
            let! head_extent_min_allocation_blocks := extent_payload_len_to_allocation_blocks extents_layout 0 true in
            check_min_extent head_extent_min_allocation_blocks upper_bound
          else Ok tt in
        let! _ :=
          if extents_hdr_len <? extent_payload_len_alignment then
            let! tail_extent_min_allocation_blocks := extent_payload_len_to_allocation_blocks extents_layout 1 false in
            check_min_extent tail_extent_min_allocation_blocks upper_bound
          else Ok tt in
        Ok (mk_layout (Z.min max upper_bound) extent_alignment_allocation_blocks_log2 extents_hdr_len extent_hdr_len
          extent_payload_hdr_len extent_payload_len_alignment allocation_block_size_128b_log2).
End New.

(** ** Correctness *)

(** [x] rounded up to a multiple of [m]. *)
Definition ceil_to (m x : Z) : Z := x + (- x) mod m.
(** The number of units of [m] that hold [x]. *)
Definition ceil_div (m x : Z) : Z := (x + m - 1) / m.

Lemma ceil_to_floor m x y : 0 < m → ceil_to m x ≤ y ↔ x ≤ y / m * m.
Proof.
  intros. unfold ceil_to. pose proof (Z.mod_pos_bound (- x) m). pose proof (Z.mod_pos_bound y m).
  pose proof (Z.div_mod (- x) m ltac:(lia)) as Hx. pose proof (Z.div_mod y m ltac:(lia)) as Hy.
  set (q := - x / m) in *. set (k := y / m) in *. split; intros.
  - assert (- q ≤ k) by (apply Z.lt_succ_r, (Z.mul_lt_mono_pos_l m); lia). nia.
  - assert (- q ≤ k) by (apply Z.lt_succ_r, (Z.mul_lt_mono_pos_l m); lia). nia.
Qed.
Lemma ceil_div_le m x n : 0 < m → ceil_div m x ≤ n ↔ x ≤ n * m.
Proof.
  intros. unfold ceil_div. pose proof (Z.div_mod (x + m - 1) m ltac:(lia)). pose proof (Z.mod_pos_bound (x + m - 1) m).
  split; intros; nia.
Qed.
Lemma ceil_div_nonneg m x : 0 < m → 0 ≤ x → 0 ≤ ceil_div m x.
Proof. intros. apply Z.div_pos; lia. Qed.

(** A quotient and a remainder in excess of one unit, as the code adds them up. *)
Lemma ceil_div_split m q r : 0 < m → 0 ≤ r → q + r / m + (if r mod m =? 0 then 0 else 1) = ceil_div m (q * m + r).
Proof.
  intros. unfold ceil_div. replace (q * m + r + m - 1) with ((r + m - 1) + q * m) by lia. rewrite Z.div_add by lia.
  enough ((r + m - 1) / m = r / m + (if r mod m =? 0 then 0 else 1)) by lia.
  pose proof (Z.div_mod r m ltac:(lia)). pose proof (Z.mod_pos_bound r m). symmetry.
  destruct (Z.eqb_spec (r mod m) 0); [apply Z.div_unique with (m - 1)|apply Z.div_unique with (r mod m - 1)]; lia.
Qed.

(** ** Specification *)

Definition unit_len (l : ExtentsLayout) : Z := 2 ^ (allocation_block_size_128b_log2 l + 7).
Definition hdrs_len (l : ExtentsLayout) (hdr : bool) : Z := stored_extents_hdr_len l hdr + extent_hdr_len l.

(** The bytes of an extent that stores a payload of [x] bytes. *)
Definition needed (l : ExtentsLayout) (x : Z) (hdr : bool) : Z :=
  ceil_to (extent_payload_len_alignment l) (x + extent_payload_hdr_len l) + hdrs_len l hdr.
(** The payload bytes of an extent of [n] blocks. *)
Definition payload_of (l : ExtentsLayout) (n : Z) (hdr : bool) : Z :=
  let m := extent_payload_len_alignment l in
  (n * unit_len l - hdrs_len l hdr) / m * m - extent_payload_hdr_len l.

(** The layouts that the operations are meant for. *)
Record layout_ok (l : ExtentsLayout) : Prop := {
  ok_size : 0 ≤ allocation_block_size_128b_log2 l;
  ok_align : 0 ≤ extent_alignment_allocation_blocks_log2 l;
  ok_align_size : extent_alignment_allocation_blocks_log2 l + allocation_block_size_128b_log2 l + 7 < 64;
  ok_payload_align : 1 ≤ extent_payload_len_alignment l < 256;
  ok_extents_hdr : in_u 32 (extents_hdr_len l);
  ok_extent_hdr : in_u 32 (extent_hdr_len l);
  ok_payload_hdr : in_u 32 (extent_payload_hdr_len l);
  ok_max : 0 < max_extent_allocation_blocks l ∧ max_extent_allocation_blocks l * unit_len l < 2 ^ 64;
  ok_max_aligned : (2 ^ extent_alignment_allocation_blocks_log2 l | max_extent_allocation_blocks l);
}.

(** An extent that the layout allows and that has space for all its headers. *)
Definition extent_ok (l : ExtentsLayout) (n : Z) (hdr : bool) : Prop :=
  0 < n ≤ max_extent_allocation_blocks l ∧ (2 ^ extent_alignment_allocation_blocks_log2 l | n) ∧ 0 ≤ payload_of l n hdr.

Section Spec.
Context {B : Build} {E : Type}.
Variable l : ExtentsLayout.
Hypothesis Hl : layout_ok l.

Lemma block_size_log2_Ok : block_size_log2 (E:=E) l = Ok (allocation_block_size_128b_log2 l + 7).
Proof. destruct Hl. unfold block_size_log2. by rewrite uadd_Ok by lia. Qed.

Lemma unit_len_bounds : 128 ≤ unit_len l ≤ 2 ^ 63.
Proof.
  destruct Hl. unfold unit_len. change 128 with (2 ^ 7). split; apply Z.pow_le_mono_r; lia.
Qed.

Lemma hdrs_len_bounds hdr : 0 ≤ hdrs_len l hdr < 2 ^ 33.
Proof. destruct Hl as [_ _ _ _ [??] [??] _ _ _]. unfold hdrs_len, stored_extents_hdr_len. destruct hdr; lia. Qed.

(** A power of two as a payload alignment. *)
Lemma payload_align_pow2 :
  is_pow2_u 8 (extent_payload_len_alignment l) = true →
  ∃ k, 0 ≤ k < 8 ∧ extent_payload_len_alignment l = 2 ^ k.
Proof.
  intros Hp. destruct (ok_payload_align l Hl).
  apply (is_pow2_u_spec 8) in Hp; [|unfold in_u; lia..]. destruct Hp as [?|(k & ? & Hk)]; [lia|].
  exists k. split; [|done]. split; [done|]. apply (Z.pow_lt_mono_r_iff 2); [lia..|]. change (2 ^ 8) with 256. lia.
Qed.

(** The two ways to compute a remainder agree. *)
Lemma padding_down x :
  (if is_pow2_u 8 (extent_payload_len_alignment l)
   then let! m := usub 64 (extent_payload_len_alignment l) 1 in Ok (Z.land x m)
   else urem x (extent_payload_len_alignment l)) = Ok (E:=E) (x mod extent_payload_len_alignment l).
Proof.
  pose proof payload_align_pow2 as Hp. pose proof (ok_payload_align l Hl).
  destruct (is_pow2_u 8 _); [|unfold urem; by zdec]. destruct Hp as (k & ? & ->); [done|].
  pose proof (pow2_pos k ltac:(lia)). rewrite usub_Ok by lia. cbn [obind]. f_equal.
  rewrite <-land_ones_mod, Z.ones_equiv, Z.sub_1_r by lia. done.
Qed.

Lemma land_neg x k : 0 ≤ k ≤ 64 → Z.land (wrapping_neg 64 x) (2 ^ k - 1) = (- x) mod 2 ^ k.
Proof.
  intros. replace (2 ^ k - 1) with (Z.ones k) by (rewrite Z.ones_equiv; lia). rewrite land_ones_mod by lia.
  apply (wrap_wrap_le k 64). lia.
Qed.

Lemma padding_up x : payload_len_padding (E:=E) l x = Ok ((- x) mod extent_payload_len_alignment l).
Proof.
  unfold payload_len_padding. pose proof payload_align_pow2 as Hp. pose proof (ok_payload_align l Hl).
  destruct (is_pow2_u 8 _).
  - destruct Hp as (k & ? & ->); [done|]. pose proof (pow2_pos k ltac:(lia)). rewrite usub_Ok by lia. cbn [obind].
    by rewrite land_neg by lia.
  - unfold urem. zdec. cbn [obind]. pose proof (Z.mod_pos_bound x (extent_payload_len_alignment l) ltac:(lia)).
    destruct (Z.eqb_spec (x mod extent_payload_len_alignment l) 0) as [Hz|Hz].
    + by rewrite Z.mod_opp_l_z by lia.
    + rewrite usub_Ok by lia. by rewrite Z.mod_opp_l_nz by lia.
Qed.

Lemma effective_Ok n hdr :
  extent_ok l n hdr → extent_effective_payload_len (E:=E) l n hdr = Ok (payload_of l n hdr).
Proof.
  intros (Hn & _ & Hp). unfold extent_effective_payload_len, payload_of, hdrs_len in *.
  pose proof unit_len_bounds as Hu. pose proof (hdrs_len_bounds hdr) as Hh. unfold hdrs_len in Hh. pose proof (ok_payload_align l Hl).
  destruct (ok_max l Hl). destruct (ok_payload_hdr l Hl). destruct (ok_extent_hdr l Hl).
  set (m := extent_payload_len_alignment l) in *. set (h := stored_extents_hdr_len l hdr) in *.
  assert (n * unit_len l ≤ max_extent_allocation_blocks l * unit_len l) by (apply Z.mul_le_mono_nonneg_r; lia).
  set (T := n * unit_len l - (h + extent_hdr_len l)) in *.
  pose proof (Z.div_mod T m ltac:(lia)). pose proof (Z.mod_pos_bound T m ltac:(lia)).
  zdec. cbn [debug_assert obind]. rewrite block_size_log2_Ok. cbn [obind]. destruct Hl. rewrite ushl_Ok by lia. cbn [obind].
  rewrite Z.shiftl_mul_pow2 by lia. fold (unit_len l). rewrite wrap_small by (unfold in_u; lia).
  rewrite usub_Ok by lia. cbn [obind]. rewrite usub_Ok by lia. cbn [obind].
  replace (n * unit_len l - h - extent_hdr_len l) with T by lia. rewrite padding_down. cbn [obind]. fold m.
  rewrite usub_Ok by lia. cbn [obind]. rewrite usub_Ok by lia. f_equal. lia.
Qed.
(** The number of blocks that the code adds up, before it is capped. *)
Lemma blocks_sum x y :
  in_u 64 x → 0 ≤ y < 2 ^ 34 →
  let u := unit_len l in
  let r := (y - y / u * u) + (x - x / u * u) in
  x / u + y / u + r / u + (if r mod u =? 0 then 0 else 1) = ceil_div u (x + y) ∧
  0 ≤ y - y / u * u < u ∧ 0 ≤ x - x / u * u < u ∧ x / u ≤ 2 ^ 57 ∧ y / u ≤ 2 ^ 34.
Proof.
  intros [Hx Hx'] Hy u r. pose proof unit_len_bounds as Hu. fold u in Hu.
  pose proof (Z.div_mod x u ltac:(lia)). pose proof (Z.div_mod y u ltac:(lia)).
  pose proof (Z.mod_pos_bound x u ltac:(lia)). pose proof (Z.mod_pos_bound y u ltac:(lia)).
  assert (0 ≤ r) by (unfold r; lia). rewrite ceil_div_split by lia. split.
  - f_equal. unfold r. lia.
  - split_and!; try lia; apply Z.div_le_upper_bound; lia.
Qed.

Lemma needed_nonneg x hdr : 0 ≤ x → 0 ≤ needed l x hdr.
Proof.
  intros. destruct (ok_payload_hdr l Hl). pose proof (hdrs_len_bounds hdr). pose proof (ok_payload_align l Hl).
  unfold needed, ceil_to. pose proof (Z.mod_pos_bound (- (x + extent_payload_hdr_len l)) (extent_payload_len_alignment l)). lia.
Qed.

Lemma round_up_max : round_up_to (extent_alignment_allocation_blocks_log2 l) (max_extent_allocation_blocks l) = max_extent_allocation_blocks l.
Proof.
  pose proof (ok_align l Hl). apply Z.le_antisymm; [|by apply round_up_to_bounds].
  apply round_up_least; [done|apply (ok_max_aligned l Hl)|lia].
Qed.
Lemma capped_round_up n :
  0 ≤ n ≤ max_extent_allocation_blocks l →
  round_up_pow2_unchecked (E:=E) 64 n (extent_alignment_allocation_blocks_log2 l) =
    Ok (round_up_to (extent_alignment_allocation_blocks_log2 l) n).
Proof.
  intros. destruct (ok_max l Hl). pose proof unit_len_bounds. destruct Hl.
  assert (max_extent_allocation_blocks l < 2 ^ 64) by nia.
  apply round_up_pow2_unchecked_spec; [lia|unfold in_u; lia|lia|].
  pose proof (round_up_least _ n _ ok_align0 ok_max_aligned0 ltac:(lia)). lia.
Qed.

(** No extent of the layout has so many bytes. *)
Lemma beyond_u64 v : 2 ^ 64 - 1 ≤ v → max_extent_allocation_blocks l < ceil_div (unit_len l) v.
Proof.
  intros. pose proof unit_len_bounds. destruct (ok_max l Hl). apply Z.nle_gt. rewrite ceil_div_le by lia. intros.
  assert ((unit_len l | 2 ^ 64)) as [k Hk].
  { exists (2 ^ (57 - allocation_block_size_128b_log2 l)). unfold unit_len. destruct Hl. rewrite <-Z.pow_add_r by lia. f_equal. lia. }
  assert (max_extent_allocation_blocks l < k) by (apply (Z.mul_lt_mono_pos_r (unit_len l)); lia). nia.
Qed.

Lemma to_blocks_eq x hdr :
  in_u 64 x → (hdr = false → x ≠ 0) →
  let n := ceil_div (unit_len l) (needed l x hdr) in
  extent_payload_len_to_allocation_blocks (E:=E) l x hdr =
    Ok (if n <=? max_extent_allocation_blocks l
        then (round_up_to (extent_alignment_allocation_blocks_log2 l) n, true)
        else (max_extent_allocation_blocks l, false)).
Proof.
  intros [Hx Hx'] Hnz n. unfold extent_payload_len_to_allocation_blocks.
  assert (negb hdr && (x =? 0) = false) as ->.
  { destruct hdr; [done|]. cbn. apply Z.eqb_neq. by apply Hnz. }
  pose proof unit_len_bounds as Hu. pose proof (hdrs_len_bounds hdr) as Hh. pose proof (ok_payload_align l Hl) as Hpa.
  destruct (ok_max l Hl) as [Hmax Hmax']. destruct (ok_payload_hdr l Hl). destruct (ok_extent_hdr l Hl).
  set (sat := 2 ^ 64 <=? x + extent_payload_hdr_len l). set (p := if sat then 2 ^ 64 - 1 else x + extent_payload_hdr_len l).
  assert (match checked_add 64 x (extent_payload_hdr_len l) with Some payload_len => (payload_len, false) | None => (2 ^ 64 - 1, true) end
    = (p, sat)) as ->.
  { unfold checked_add, p, sat. do 2 zcase; try lia; done. }
  assert (in_u 64 p) as Hp by (unfold p, sat, in_u; zcase; lia).
  rewrite padding_up. cbn [obind]. set (pad := (- p) mod extent_payload_len_alignment l).
  assert (0 ≤ pad < 256) by (pose proof (Z.mod_pos_bound (- p) (extent_payload_len_alignment l)); lia).
  rewrite block_size_log2_Ok. cbn [obind].
  destruct (blocks_sum p (hdrs_len l hdr + pad) Hp ltac:(lia)) as (Hsum & ? & ? & ? & ?). cbn zeta in Hsum.
  set (h := hdrs_len l hdr + pad) in *. set (u := unit_len l) in *. destruct Hp as [??].
  assert (0 ≤ p / u) by (apply Z.div_pos; lia). assert (0 ≤ h / u) by (apply Z.div_pos; lia).
  assert (∀ v, ushr (E:=E) 64 v (allocation_block_size_128b_log2 l + 7) = Ok (v / u)) as Hshr.
  { intros v. destruct Hl. rewrite ushr_Ok by lia. by rewrite Z.shiftr_div_pow2 by lia. }
  assert (∀ v, 0 ≤ v → v * u < 2 ^ 64 → ushl (E:=E) 64 v (allocation_block_size_128b_log2 l + 7) = Ok (v * u)) as Hshl.
  { intros v ? ?. destruct Hl. rewrite ushl_Ok by lia. rewrite Z.shiftl_mul_pow2 by lia. fold (unit_len l). fold u.
    by rewrite wrap_small by (unfold in_u; lia). }
  rewrite Hshr. cbn [obind]. rewrite Hshl by lia. cbn [obind]. rewrite usub_Ok by lia. cbn [obind].
  rewrite (uadd_Ok 64) by (unfold hdrs_len in *; lia). cbn [obind]. fold (hdrs_len l hdr). rewrite uadd_Ok by lia. cbn [obind].
  fold h. rewrite Hshr. cbn [obind]. rewrite Hshl by lia. cbn [obind]. rewrite usub_Ok by lia. cbn [obind].
  rewrite uadd_Ok by lia. cbn [obind]. rewrite uadd_Ok by lia. cbn [obind]. rewrite Hshr. cbn [obind].
  set (r := h - h / u * u + (p - p / u * u)) in *. assert (0 ≤ r / u < 2) by (split; [apply Z.div_pos|apply Z.div_lt_upper_bound]; lia).
  rewrite uadd_Ok by lia. cbn [obind]. rewrite Hshl by lia. cbn [obind]. rewrite Z.mul_1_l, usub_Ok by lia. cbn [obind].
  replace (u - 1) with (Z.ones (allocation_block_size_128b_log2 l + 7)) by (rewrite Z.ones_equiv; unfold u, unit_len; lia).
  rewrite land_ones_mod by (destruct Hl; lia). fold (unit_len l). fold u.
  assert ((if negb (r mod u =? 0) then uadd 64 (p / u + h / u + r / u) 1 else Ok (p / u + h / u + r / u)) =
    Ok (E:=E) (ceil_div u (p + h))) as ->.
  { rewrite <-Hsum. destruct (Z.eqb_spec (r mod u) 0); cbn [negb]; [f_equal; lia|]. by rewrite uadd_Ok by lia. }
  cbn [obind].
  assert (if sat then max_extent_allocation_blocks l < ceil_div u (p + h) ∧ max_extent_allocation_blocks l < n
          else ceil_div u (p + h) = n) as Hn.
  { unfold n. fold u. destruct sat eqn:Hsat.
    - split; apply beyond_u64; [unfold p; lia|]. unfold needed, ceil_to. apply Z.leb_le in Hsat.
      pose proof (Z.mod_pos_bound (- (x + extent_payload_hdr_len l)) (extent_payload_len_alignment l)). lia.
    - f_equal. unfold h, pad, needed, ceil_to, p. lia. }
  fold n in Hn |- *.
  destruct sat; [destruct Hn; zdec; rewrite capped_round_up by lia|rewrite Hn; destruct (Z.leb_spec n (max_extent_allocation_blocks l))].
  - cbn [obind negb]. by rewrite round_up_max.
  - zdec. rewrite capped_round_up by (split; [apply ceil_div_nonneg, needed_nonneg; lia|lia]). done.
  - zdec. rewrite capped_round_up by lia. cbn [obind negb]. by rewrite round_up_max.
Qed.

(** Which extents have space for a payload. *)
Lemma payload_of_ge n x hdr : x ≤ payload_of l n hdr ↔ ceil_div (unit_len l) (needed l x hdr) ≤ n.
Proof.
  pose proof (ok_payload_align l Hl). pose proof unit_len_bounds. rewrite ceil_div_le by lia. unfold payload_of, needed.
  set (t := n * unit_len l) in *.
  pose proof (ceil_to_floor (extent_payload_len_alignment l) (x + extent_payload_hdr_len l) (t - hdrs_len l hdr)). lia.
Qed.
Lemma aligned_ge n m :
  (2 ^ extent_alignment_allocation_blocks_log2 l | n) →
  m ≤ n ↔ round_up_to (extent_alignment_allocation_blocks_log2 l) m ≤ n.
Proof.
  intros. pose proof (ok_align l Hl). pose proof (round_up_to_bounds (extent_alignment_allocation_blocks_log2 l) m ltac:(done)).
  split; [|lia]. intros. by apply round_up_least.
Qed.
End Spec.

(** *** The placement of the common header *)

Section Cost.
Context {B : Build} {E : Type}.
Variable l : ExtentsLayout.
Hypothesis Hl : layout_ok l.

Lemma payload_of_mod n hdr :
  payload_of l n hdr = n * unit_len l - hdrs_len l hdr - (n * unit_len l - hdrs_len l hdr) mod extent_payload_len_alignment l
    - extent_payload_hdr_len l.
Proof. unfold payload_of. pose proof (ok_payload_align l Hl). rewrite (Z.mod_eq _ (extent_payload_len_alignment l)) by lia. lia. Qed.

(** An extent with space for the common header has space without it. *)
Lemma extent_ok_tail n : extent_ok l n true → extent_ok l n false.
Proof.
  intros (? & ? & Hp). split; [done|]. split; [done|]. unfold payload_of, hdrs_len, stored_extents_hdr_len in *.
  destruct (ok_extents_hdr l Hl). pose proof (ok_payload_align l Hl).
  set (t := n * unit_len l) in *. set (m := extent_payload_len_alignment l) in *.
  assert ((t - (extents_hdr_len l + extent_hdr_len l)) / m ≤ (t - (0 + extent_hdr_len l)) / m) by (apply Z.div_le_mono; lia). nia.
Qed.

(** What the common header takes from the payload of [n] blocks. *)
Definition hdr_cost (n : Z) : Z := payload_of l n false - payload_of l n true.

Lemma hdr_cost_nonneg n : 0 ≤ hdr_cost n.
Proof.
  unfold hdr_cost, payload_of, hdrs_len, stored_extents_hdr_len. destruct (ok_extents_hdr l Hl). pose proof (ok_payload_align l Hl).
  set (t := n * unit_len l) in *. set (m := extent_payload_len_alignment l) in *.
  assert ((t - (extents_hdr_len l + extent_hdr_len l)) / m ≤ (t - (0 + extent_hdr_len l)) / m) by (apply Z.div_le_mono; lia). nia.
Qed.

Lemma hdr_cost_zero n : extents_hdr_len l = 0 → hdr_cost n = 0.
Proof. unfold hdr_cost, payload_of, hdrs_len, stored_extents_hdr_len. intros ->. lia. Qed.

(** A power of two alignment divides the length of an allocation block. *)
Lemma hdr_cost_pow2 n k :
  extent_payload_len_alignment l = 2 ^ k → 0 ≤ k < 8 →
  hdr_cost n = extents_hdr_len l + (- (extents_hdr_len l + extent_hdr_len l)) mod 2 ^ k - (- extent_hdr_len l) mod 2 ^ k.
Proof.
  intros Hk ?. unfold hdr_cost. rewrite !payload_of_mod. unfold hdrs_len, stored_extents_hdr_len. rewrite Hk.
  assert ((2 ^ k | n * unit_len l)) as [q ->].
  { apply Z.divide_mul_r. exists (2 ^ (allocation_block_size_128b_log2 l + 7 - k)). unfold unit_len. destruct Hl.
    rewrite <-Z.pow_add_r by lia. f_equal. lia. }
  replace (q * 2 ^ k - (0 + extent_hdr_len l)) with (- extent_hdr_len l + q * 2 ^ k) by lia.
  replace (q * 2 ^ k - (extents_hdr_len l + extent_hdr_len l)) with (- (extents_hdr_len l + extent_hdr_len l) + q * 2 ^ k) by lia.
  pose proof (pow2_pos k ltac:(lia)). rewrite !Z.mod_add by lia. lia.
Qed.

Lemma hdr_cost_multiple n :
  extents_hdr_len l mod extent_payload_len_alignment l = 0 → hdr_cost n = extents_hdr_len l.
Proof.
  intros Hm. pose proof (ok_payload_align l Hl). unfold hdr_cost. rewrite !payload_of_mod. unfold hdrs_len, stored_extents_hdr_len.
  apply Z.div_exact in Hm; [|lia]. rewrite Hm. set (q := extents_hdr_len l / _). set (m := extent_payload_len_alignment l) in *.
  replace (n * unit_len l - (m * q + extent_hdr_len l)) with (n * unit_len l - (0 + extent_hdr_len l) + (- q) * m) by lia.
  rewrite Z.mod_add by lia. lia.
Qed.

Lemma cost_is_invariant_eq :
  extents_hdr_placement_cost_is_invariant (E:=E) l = Ok ((extents_hdr_len l =? 0) || is_pow2_u 8 (extent_payload_len_alignment l)
    || (extents_hdr_len l mod extent_payload_len_alignment l =? 0)).
Proof.
  unfold extents_hdr_placement_cost_is_invariant. destruct (extents_hdr_len l =? 0) eqn:?; [done|]. cbn [orb].
  pose proof (payload_align_pow2 l Hl) as Hp. pose proof (ok_payload_align l Hl).
  destruct (is_pow2_u 8 _) eqn:?; cbn [orb]; [|unfold urem; by zdec]. destruct Hp as (k & ? & Hk); [done|].
  rewrite debug_check_true; [done|]. destruct Hl. rewrite !uadd_Ok by lia. cbn [obind]. rewrite uadd_Ok by lia. cbn [obind].
  rewrite ushl_Ok by lia. cbn [obind]. rewrite Z.shiftl_1_l, wrap_small by (split; [lia|]; apply Z.pow_lt_mono_r; lia).
  f_equal. apply Z.leb_le. rewrite Hk. apply Z.pow_le_mono_r; lia.
Qed.

Lemma placement_cost_eq n :
  extent_ok l n true → extents_hdr_placement_cost (E:=E) l n = Ok (hdr_cost n).
Proof.
  intros (Hn & _ & Hp). unfold extents_hdr_placement_cost. zdec. cbn [debug_assert obind].
  destruct (Z.eqb_spec (extents_hdr_len l) 0) as [Hz|]; [by rewrite hdr_cost_zero|].
  pose proof (hdr_cost_nonneg n) as Hc. pose proof (ok_payload_align l Hl). destruct (ok_extents_hdr l Hl). destruct (ok_extent_hdr l Hl).
  pose proof (payload_align_pow2 l Hl) as Hp2. destruct (is_pow2_u 8 _) eqn:Hpow.
  - destruct Hp2 as (k & ? & Hk); [done|]. rewrite debug_check_true by (rewrite cost_is_invariant_eq, Hpow; by rewrite orb_true_r).
    cbn [obind]. rewrite Hk. pose proof (pow2_pos k ltac:(lia)). rewrite usub_Ok by lia. cbn [obind].
    rewrite uadd_Ok by lia. cbn [obind]. rewrite !land_neg by lia. rewrite (hdr_cost_pow2 n k) in * by done.
    pose proof (Z.mod_pos_bound (- (extents_hdr_len l + extent_hdr_len l)) (2 ^ k) ltac:(lia)).
    rewrite uadd_Ok by lia. cbn [obind]. by rewrite usub_Ok by lia.
  - pose proof (unit_len_bounds l Hl). destruct (ok_max l Hl). unfold hdr_cost in *. rewrite !payload_of_mod in *.
    unfold hdrs_len, stored_extents_hdr_len in *. destruct (ok_payload_hdr l Hl).
    assert (n * unit_len l ≤ max_extent_allocation_blocks l * unit_len l) by (apply Z.mul_le_mono_nonneg_r; lia).
    rewrite Z.add_0_l, Z.sub_add_distr in *. set (t := n * unit_len l) in *. set (m := extent_payload_len_alignment l) in *.
    replace (t - extents_hdr_len l - extent_hdr_len l) with (t - extent_hdr_len l - extents_hdr_len l) in * by lia.
    pose proof (Z.mod_pos_bound (t - extent_hdr_len l) m ltac:(lia)).
    pose proof (Z.mod_pos_bound (t - extent_hdr_len l - extents_hdr_len l) m ltac:(lia)).
    rewrite block_size_log2_Ok by done. cbn [obind]. destruct Hl. rewrite ushl_Ok by lia. cbn [obind].
    rewrite Z.shiftl_mul_pow2 by lia. fold (unit_len l). fold t. rewrite wrap_small by (unfold in_u; lia).
    rewrite usub_Ok by lia. cbn [obind]. unfold urem. zdec. cbn [obind]. rewrite usub_Ok by lia. cbn [obind].
    rewrite uadd_Ok by lia. cbn [obind]. rewrite usub_Ok by lia. f_equal. lia.
Qed.
End Cost.

(** *** The constructor *)

Section NewSpec.
Context {B : Build}.
Variables (max : option Z) (a ehl hl phl m s : Z).
Hypothesis Hmax : match max with Some max => in_u 64 max | None => True end.
Hypothesis Ha : in_u 8 a.
Hypothesis Hs : in_u 8 s.
Hypothesis Hm : in_u 8 m.
Hypothesis Hehl : in_u 32 ehl.
Hypothesis Hhl : in_u 32 hl.
Hypothesis Hphl : in_u 32 phl.

(** The limit on the extents' lengths: the requested one if there is one, within
    the bytes that 64 bits count, in units of the alignment. *)
Definition limit : Z :=
  let bound := 2 ^ (57 - s) - 1 in
  (match max with Some max => Z.min max bound | None => bound end) / 2 ^ a * 2 ^ a.
Definition config : ExtentsLayout := mk_layout limit a ehl hl phl m s.

Lemma shiftr_u64_max n : 0 ≤ n ≤ 64 → Z.shiftr (2 ^ 64 - 1) n = 2 ^ (64 - n) - 1.
Proof.
  intros. rewrite Z.shiftr_div_pow2 by lia. pose proof (pow2_pos n ltac:(lia)). symmetry.
  apply Z.div_unique with (2 ^ n - 1); [left; lia|].
  replace (2 ^ 64) with (2 ^ n * 2 ^ (64 - n)) by (rewrite <-Z.pow_add_r by lia; f_equal; lia). lia.
Qed.

Lemma limit_bounds : a + s + 7 < 64 → 0 ≤ limit ∧ limit * 2 ^ (s + 7) < 2 ^ 64.
Proof.
  intros. destruct Ha, Hs. unfold limit. set (x := match max with Some max => Z.min max (2 ^ (57 - s) - 1) | None => 2 ^ (57 - s) - 1 end).
  pose proof (pow2_pos (57 - s) ltac:(lia)). assert (0 ≤ x ≤ 2 ^ (57 - s) - 1) by (unfold x; destruct max as [y|]; [destruct Hmax|]; lia).
  pose proof (pow2_pos a ltac:(lia)). pose proof (Z.div_mod x (2 ^ a) ltac:(lia)). pose proof (Z.mod_pos_bound x (2 ^ a) ltac:(lia)).
  pose proof (Z.div_pos x (2 ^ a) ltac:(lia) ltac:(lia)).
  replace (2 ^ 64) with (2 ^ (57 - s) * 2 ^ (s + 7)) by (rewrite <-Z.pow_add_r by lia; f_equal; lia).
  split; [lia|]. apply Z.mul_lt_mono_pos_r; [apply pow2_pos|]; lia.
Qed.

Lemma config_ok : a + s + 7 < 64 → m ≠ 0 → limit ≠ 0 → layout_ok config.
Proof.
  intros. destruct Ha, Hs, Hm. destruct limit_bounds; [done|]. constructor; cbn; try done; try lia.
  - unfold unit_len. cbn. lia.
  - by eexists.
Qed.

(** The tail extents' minimum follows from the first extent's, if the common
    header is at least as long as the payload alignment. *)
Lemma tail_needed : m ≤ ehl → 0 < m → needed config 1 false ≤ needed config 0 true.
Proof.
  intros. unfold needed, hdrs_len, stored_extents_hdr_len. cbn. destruct Hphl.
  enough (ceil_to m (1 + phl) ≤ ceil_to m (0 + phl) + m) by lia.
  assert (ceil_to m (0 + phl) mod m = 0) as Hz.
  { unfold ceil_to. rewrite Zplus_mod_idemp_r. by replace (0 + phl + - (0 + phl)) with 0 by lia. }
  apply ceil_to_floor; [done|]. replace (ceil_to m (0 + phl) + m) with (ceil_to m (0 + phl) + 1 * m) by lia.
  rewrite Z.div_add by lia. apply Z.div_exact in Hz; [|lia]. unfold ceil_to in *.
  pose proof (Z.mod_pos_bound (- (0 + phl)) m). lia.
Qed.

Lemma fits_eq x hdr :
  layout_ok config → in_u 64 x → (hdr = false → x ≠ 0) →
  ∃ n, extent_payload_len_to_allocation_blocks (E:=NvFsError) config x hdr =
    Ok (n, ceil_div (2 ^ (s + 7)) (needed config x hdr) <=? limit) ∧ n ≤ limit.
Proof.
  intros Hok ? ?. rewrite (to_blocks_eq config Hok) by done. cbn zeta. change (unit_len config) with (2 ^ (s + 7)).
  change (max_extent_allocation_blocks config) with limit. zcase; eexists; split; try done.
  apply round_up_least; [by destruct Ha| |done]. by eexists.
Qed.

Lemma new_eq :
  new (P:=64) max a ehl hl phl m s =
    if (a + s + 7 <? 64) && negb (m =? 0) && negb (limit =? 0) then
      if ((ehl =? 0) || (ceil_div (2 ^ (s + 7)) (needed config 0 true) <=? limit)) &&
         (ceil_div (2 ^ (s + 7)) (needed config 1 false) <=? limit)
      then Ok config else Err (from_format InvalidImageLayoutConfig)
    else err_internal.
Proof.
  unfold new. destruct Ha, Hs, Hm, Hehl. destruct (Z.ltb_spec (a + s + 7) 64); [|by zdec]. zdec.
  destruct (Z.eqb_spec m 0); [done|]. cbn [negb andb]. rewrite ushr_Ok by lia. cbn [obind].
  rewrite Z.shiftr_div_pow2 by lia.
  assert (m / 2 ^ (a + s + 7) ≤ 1).
  { apply Z.lt_succ_r, Z.div_lt_upper_bound; [apply pow2_pos; lia|].
    assert (2 ^ 7 ≤ 2 ^ (a + s + 7)) by (apply Z.pow_le_mono_r; lia). lia. }
  zdec. change ImageLayout.BITMAP_WORD_BITS with 64. zdec. rewrite !uadd_Ok by lia. cbn [obind]. rewrite ushr_Ok by lia. cbn [obind].
  change (Z.min (2 ^ ImageLayout.usize_bits - 1) (2 ^ 64 - 1)) with (2 ^ 64 - 1).
  rewrite shiftr_u64_max by lia. replace (64 - (s + 7)) with (57 - s) by lia. pose proof (pow2_pos (57 - s) ltac:(lia)).
  rewrite round_down_pow2_spec; [|lia|split; [destruct max as [y|]; [destruct Hmax|]; lia|]|lia].
  2: { assert (2 ^ (57 - s) ≤ 2 ^ 57) by (apply Z.pow_le_mono_r; lia). destruct max; lia. }
  cbn [obind]. fold limit. destruct (Z.eqb_spec limit 0); [done|]. cbn [negb].
  rewrite ushr_Ok by lia. cbn [obind]. rewrite shiftr_u64_max by lia. replace (64 - (s + 7)) with (57 - s) by lia.
  fold config. pose proof (config_ok ltac:(lia) ltac:(done) ltac:(done)) as Hok.
  assert (limit ≤ 2 ^ (57 - s) - 1).
  { destruct limit_bounds as [_ Hb]; [lia|]. apply Z.lt_succ_r, (Z.mul_lt_mono_pos_r (2 ^ (s + 7))); [apply pow2_pos; lia|].
    rewrite Z.sub_1_r, Z.succ_pred, <-Z.pow_add_r by lia. by replace (57 - s + (s + 7)) with 64 by lia. }
  rewrite Z.min_l by lia. fold config.
  destruct (fits_eq 0 true Hok) as (nh & Hh & ?); [done|done|]. destruct (fits_eq 1 false Hok) as (nt & Ht & ?); [done|done|].
  rewrite Hh, Ht. unfold check_min_extent. cbn [obind fst snd].
  assert (m ≤ ehl → ceil_div (2 ^ (s + 7)) (needed config 0 true) ≤ limit → ceil_div (2 ^ (s + 7)) (needed config 1 false) ≤ limit) as Htail.
  { intros. rewrite !ceil_div_le in * by (apply pow2_pos; lia). pose proof (tail_needed ltac:(lia) ltac:(lia)). lia. }
  destruct (Z.eqb_spec ehl 0); cbn [negb orb obind].
  - zdec. destruct (ceil_div (2 ^ (s + 7)) (needed config 1 false) <=? limit); reflexivity.
  - destruct (Z.leb_spec (ceil_div (2 ^ (s + 7)) (needed config 0 true)) limit); cbn [negb andb obind]; [|done]. zdec. cbn [obind].
    destruct (Z.ltb_spec ehl m).
    + destruct (_ <=? limit); cbn [negb obind]; [|done]. zdec. done.
    + cbn [obind]. by rewrite (proj2 (Z.leb_le _ _)) by auto.
Qed.
End NewSpec.

(** ** Properties *)

Section Properties.
Context {B : Build} {E : Type}.

(** Converting a payload length to an extent length gives the least aligned
    extent whose effective payload length is at least the requested one, and
    the maximum extent, flagged as not sufficient, exactly if no extent that the
    layout allows is large enough. *)
Lemma payload_len_to_blocks_least l x hdr :
  layout_ok l → in_u 64 x → (hdr = false → x ≠ 0) →
  ∃ n fits, extent_payload_len_to_allocation_blocks (E:=E) l x hdr = Ok (n, fits) ∧
    (2 ^ extent_alignment_allocation_blocks_log2 l | n) ∧ 0 ≤ n ≤ max_extent_allocation_blocks l ∧
    (fits = true → 0 < n → extent_ok l n hdr) ∧ (fits = false → n = max_extent_allocation_blocks l) ∧
    ∀ n', extent_ok l n' hdr →
      ∃ v, extent_effective_payload_len (E:=E) l n' hdr = Ok v ∧ (x ≤ v ↔ fits = true ∧ n ≤ n').
Proof.
  intros Hl Hx Hnz. rewrite (to_blocks_eq l Hl) by done. cbn zeta. set (n := ceil_div _ _).
  set (al := extent_alignment_allocation_blocks_log2 l). pose proof (ok_align l Hl) as Ha. fold al in Ha.
  assert (0 ≤ n) by (apply ceil_div_nonneg; [pose proof (unit_len_bounds l Hl); lia|apply needed_nonneg; [done|by destruct Hx]]).
  pose proof (round_up_to_bounds al n Ha).
  destruct (Z.leb_spec n (max_extent_allocation_blocks l)).
  - assert (round_up_to al n ≤ max_extent_allocation_blocks l) by (apply round_up_least; [done|apply (ok_max_aligned l Hl)|done]).
    exists (round_up_to al n), true. split; [done|]. split; [by eexists|]. split; [lia|]. split; [|split; [done|]].
    + intros _ ?. split; [done|]. split; [by eexists|]. destruct Hx. transitivity x; [done|]. apply (payload_of_ge l Hl). lia.
    + intros n' Hn'. eexists. split; [by apply effective_Ok|]. rewrite (payload_of_ge l Hl). fold n.
      rewrite (aligned_ge l Hl) by apply Hn'. naive_solver.
  - exists (max_extent_allocation_blocks l), false. split; [done|]. split; [apply (ok_max_aligned l Hl)|]. split; [destruct (ok_max l Hl); lia|].
    split; [done|]. split; [done|]. intros n' Hn'. eexists. split; [by apply effective_Ok|]. rewrite (payload_of_ge l Hl). fold n.
    destruct Hn' as [? _]. split; [lia|naive_solver].
Qed.

(** The placement cost of the common header in an extent is the effective
    payload length it takes from the extent, and it is the same for all extents
    if it is reported as invariant. *)
Lemma placement_cost_correct l n :
  layout_ok l → extent_ok l n true →
  ∃ c v0 v1 inv, extents_hdr_placement_cost (E:=E) l n = Ok c ∧
    extent_effective_payload_len (E:=E) l n false = Ok v0 ∧ extent_effective_payload_len (E:=E) l n true = Ok v1 ∧
    c = v0 - v1 ∧ 0 ≤ c ∧ extents_hdr_placement_cost_is_invariant (E:=E) l = Ok inv ∧
    (inv = true → ∀ n', extent_ok l n' true → extents_hdr_placement_cost (E:=E) l n' = Ok c).
Proof.
  intros Hl Hn. exists (hdr_cost l n), (payload_of l n false), (payload_of l n true). eexists.
  split; [by apply placement_cost_eq|]. split; [by apply effective_Ok, extent_ok_tail|]. split; [by apply effective_Ok|].
  split; [done|]. split; [by apply hdr_cost_nonneg|]. split; [by apply cost_is_invariant_eq|].
  intros Hinv n' Hn'. rewrite placement_cost_eq by done. f_equal.
  apply orb_true_iff in Hinv as [[?%Z.eqb_eq|Hp]%orb_true_iff|?%Z.eqb_eq].
  - by rewrite !hdr_cost_zero.
  - destruct (payload_align_pow2 l Hl Hp) as (k & ? & ?). by rewrite !(hdr_cost_pow2 l Hl _ k).
  - by rewrite !hdr_cost_multiple.
Qed.
End Properties.

(** C38: on a platform with a 64 bit [usize], the constructor refuses a
    configuration as an internal error, or as an invalid one, or returns a
    layout that satisfies what the operations rely on: its length limit is
    aligned and the minimum extents exist. *)
Theorem new_establishes {B : Build} max a ehl hl phl m s :
  match max with Some max => in_u 64 max | None => True end →
  in_u 8 a → in_u 8 s → in_u 8 m → in_u 32 ehl → in_u 32 hl → in_u 32 phl →
  (new (P:=64) max a ehl hl phl m s = err_internal ∧ ¬ (a + s + 7 < 64 ∧ m ≠ 0 ∧ limit max a s ≠ 0)) ∨
  new (P:=64) max a ehl hl phl m s = Err (from_format InvalidImageLayoutConfig) ∨
  ∃ l, new (P:=64) max a ehl hl phl m s = Ok l ∧ layout_ok l ∧
    ∃ h t, min_extents_allocation_blocks (E:=NvFsError) l = Ok (h, t) ∧
      h ≤ max_extent_allocation_blocks l ∧ t ≤ max_extent_allocation_blocks l.
Proof.
  intros Hmax Ha Hs Hm Hehl Hhl Hphl. rewrite new_eq by done. set (c := config _ _ _ _ _ _ _).
  destruct (Z.ltb_spec (a + s + 7) 64); [|left; split; [done|lia]].
  destruct (Z.eqb_spec m 0); [left; split; [done|lia]|]. destruct (Z.eqb_spec (limit max a s) 0); [left; split; [done|lia]|].
  cbn [negb andb]. right. destruct (_ && _) eqn:Hfit; [right|by left]. eexists. split; [done|].
  assert (layout_ok c) as Hok by by apply config_ok. split; [done|]. apply andb_true_iff in Hfit as [Hh Ht].
  unfold min_extents_allocation_blocks.
  destruct (fits_eq max a ehl hl phl m s Ha 1 false Hok) as (nt & Hnt & ?); [done|done|]. fold c in Hnt, Ht. rewrite Hnt, Ht. cbn [obind debug_assert].
  change (extents_hdr_len c) with ehl. destruct (Z.eqb_spec ehl 0); cbn [negb obind].
  - by exists nt, nt.
  - destruct (fits_eq max a ehl hl phl m s Ha 0 true Hok) as (nh & Hnh & ?); [done|done|]. cbn [orb] in Hh. fold c in Hnh, Hh.
    rewrite Hnh, Hh. cbn [obind debug_assert]. by exists nh, nt.
Qed.

(** On a platform with a 32 bit [usize] the final limit is not a multiple of the
    extents' alignment, and rounding up the capped length exceeds it. *)
Lemma new_unaligned_limit_32 :
  ∃ l, new (B:=debug_build) (P:=32) None 2 0 0 0 1 0 = Ok l ∧ max_extent_allocation_blocks l = 2 ^ 25 - 1 ∧
    extent_payload_len_to_allocation_blocks (B:=debug_build) (E:=NvFsError) l (2 ^ 40) false = Ok (2 ^ 25, false).
Proof. exists (mk_layout (2 ^ 25 - 1) 2 0 0 0 1 0). split; [|split]; vm_compute; reflexivity. Qed.

Definition example_layout : ExtentsLayout := mk_layout 64 1 16 32 8 16 0.

Lemma example_layout_ok : layout_ok example_layout.
Proof.
  constructor; unfold in_u, example_layout, unit_len;
    cbn [max_extent_allocation_blocks extent_alignment_allocation_blocks_log2 extents_hdr_len extent_hdr_len
         extent_payload_hdr_len extent_payload_len_alignment allocation_block_size_128b_log2]; try lia.
  by exists 32.
Qed.
Lemma example_extent_ok : extent_ok example_layout 2 true.
Proof. split; [done|]. split; [by exists 1|]. vm_compute. done. Qed.

Lemma payload_len_to_blocks_least_witness :
  extent_payload_len_to_allocation_blocks (B:=debug_build) (E:=unit) example_layout 200 true = Ok (2, true) ∧
  ∀ n', extent_ok example_layout n' true →
    ∃ v, extent_effective_payload_len (B:=debug_build) (E:=unit) example_layout n' true = Ok v ∧ (200 ≤ v ↔ true = true ∧ 2 ≤ n').
Proof.
  split; [vm_compute; reflexivity|].
  destruct (payload_len_to_blocks_least (B:=debug_build) (E:=unit) example_layout 200 true) as (n & fits & He & _ & _ & _ & _ & Hn);
    [apply example_layout_ok|done|done|]. vm_compute in He. injection He as <- <-. exact Hn.
Defined.

Lemma placement_cost_correct_witness :
  extents_hdr_placement_cost (B:=debug_build) (E:=unit) example_layout 2 = Ok 16 ∧ 0 ≤ 16.
Proof.
  split; [vm_compute; reflexivity|].
  destruct (placement_cost_correct (B:=debug_build) (E:=unit) example_layout 2 example_layout_ok example_extent_ok)
    as (c & _ & _ & _ & Hc & _ & _ & _ & Hpos & _). vm_compute in Hc. injection Hc as <-. exact Hpos.
Defined.

Lemma new_establishes_witness :
  ∃ l, new (B:=debug_build) (P:=64) (Some 65) 1 16 32 8 16 0 = Ok l ∧ layout_ok l.
Proof.
  destruct (new_establishes (B:=debug_build) (Some 65) 1 16 32 8 16 0) as [[H _]|[H|(l & H & Hok & _)]];
    try (unfold in_u; lia); [vm_compute in H; discriminate H..|]. exists l. split; [exact H|exact Hok].
Defined.

End ExtentsLayout.
