(* ===== verification/IoSlices.v ===== *)
(** * Sequences of byte slices (utils-common/src/io_slices.rs)

    Encoded data is read from and written to sequences of byte slices.  The
    traits [IoSlicesIterCommon], [IoSlicesIter] and [WalkableIoSlicesIter] are a
    class of operations here, their contract is a class of laws, and the
    functions that the traits provide are proved against the laws.  Two of the
    implementations, over a slice of buffers and over a single slice, are
    modelled and shown to obey them. *)

From S2P Require Import Prelude.

Module IoSlices.

Inductive IoSlicesError : Set := BuffersExhausted.
Inductive IoSlicesIterError (E : Type) : Type :=
| BackendIteratorError (e : E)
| IoSlicesErr (e : IoSlicesError).
Arguments BackendIteratorError {E} e.
Arguments IoSlicesErr {E} e.

(** The required methods.  [slices] are the slices that [for_each] visits while
    its callback returns [true]. *)
Class IoSlicesIter (S E : Type) := {
  next_slice_len : S → outcome E (nat * S);
  next_slice : S → option nat → outcome E (option (list Z) * S);
  slices : S → outcome E (list (list Z));
}.

(** What an implementation promises, in terms of the bytes that are left. *)
Class IoSlicesIterLaws S E `{IoSlicesIter S E} := {
  valid : S → Prop;
  content : S → list Z;
  slices_spec s : valid s → ∃ ss, slices s = Ok ss ∧ mjoin ss = content s;
  next_slice_len_spec s :
    valid s → ∃ n s', next_slice_len s = Ok (n, s') ∧ valid s' ∧ content s' = content s ∧
      (n ≤ length (content s))%nat ∧ (n = 0%nat → content s = []) ∧
      ∀ m, (m ≤ n)%nat → (0 < n)%nat →
        ∃ s'', next_slice s' (Some m) = Ok (Some (take m (content s)), s'') ∧ valid s'' ∧
          content s'' = drop m (content s);
  next_slice_spec s m :
    valid s → (0 < m)%nat →
    (content s = [] ∧ ∃ s', next_slice s (Some m) = Ok (None, s') ∧ valid s' ∧ content s' = []) ∨
    (∃ bs s', next_slice s (Some m) = Ok (Some bs, s') ∧ valid s' ∧ content s = bs ++ content s' ∧
       (0 < length bs ≤ m)%nat);
  next_slice_empty s m :
    valid s → content s = [] → ∃ s', next_slice s m = Ok (None, s') ∧ valid s' ∧ content s' = [];
}.

(** ** Provided methods *)

Section Provided.
Context {S E : Type} `{IoSlicesIter S E}.

(** [skip]; each round skips at least one byte. *)
Fixpoint skip_loop (fuel : nat) (self : S) (distance : nat) : outcome (IoSlicesIterError E) S :=
  match fuel with
  | O => Diverge
  | Datatypes.S fuel =>
      if (distance =? 0)%nat then Ok self
      else
        let! '(slice, self) := map_err BackendIteratorError (next_slice self (Some distance)) in
        match slice with
        | Some consumed =>
            let! distance := nsub distance (length consumed) in
            skip_loop fuel self distance
        | None => Err (IoSlicesErr BuffersExhausted)
        end
  end.
Definition skip (self : S) (distance : nat) : outcome (IoSlicesIterError E) S :=
  skip_loop (Datatypes.S distance) self distance.

Definition is_empty (self : S) : outcome E (bool * S) :=
  let! '(n, self) := next_slice_len self in
  Ok ((n =? 0)%nat, self).

Definition total_len (self : S) : outcome E nat :=
  let! ss := slices self in
  Ok (foldl (λ l slice, (l + length slice)%nat) 0%nat ss).

(** [divisor.is_pow2()] decides between two ways to test for a multiple. *)
Fixpoint all_multiple (test : nat → bool) (ss : list (list Z)) : bool :=
  match ss with
  | [] => true
  | slice :: ss => if test (length slice) then all_multiple test ss else false
  end.
Definition all_lengths_multiple_of (self : S) (divisor : nat) : outcome E bool :=
  if (divisor =? 0)%nat then Ok false
  else
    let! ss := slices self in
    if Z.land (Z.of_nat divisor) (Z.of_nat divisor - 1) =? 0 then
      Ok (all_multiple (λ n, Z.land (Z.of_nat n) (Z.of_nat divisor - 1) =? 0) ss)
    else Ok (all_multiple (λ n, (n mod divisor =? 0)%nat) ss).
End Provided.

(** The methods that copy from a source [SS] to a destination [D].  The bytes
    written are returned, in the order of the destination's slices; the number of
    bytes that the code returns is their count. *)
Section Copy.
Context {D SS E : Type} `{IoSlicesIter D E} `{IoSlicesIter SS E}.

Fixpoint copy_from_iter (fuel : nat) (self : D) (src_iter : SS) : outcome E (list Z * D * SS) :=
  match fuel with
  | O => Diverge
  | S fuel =>
      let! '(dst_len, self) := next_slice_len self in
      let! '(src_len, src_iter) := next_slice_len src_iter in
      let cur_slice_len := Nat.min dst_len src_len in
      let! '(dst, self) := next_slice self (Some cur_slice_len) in
      match dst with
      | None => Ok ([], self, src_iter)
      | Some dst =>
          let! '(src, src_iter) := next_slice src_iter (Some cur_slice_len) in
          match src with
          | None => Ok ([], self, src_iter)
          | Some src =>
              (* [dst.copy_from_slice(src)] *)
              if negb (length dst =? length src)%nat then Panic
              else
                let! '(copied, self, src_iter) := copy_from_iter fuel self src_iter in
                Ok (src ++ copied, self, src_iter)
          end
      end
  end.

Definition copy_from_iter_exhaustive (fuel : nat) (self : D) (src_iter : SS)
    : outcome (IoSlicesIterError E) (list Z) :=
  let! '(copied, self, src_iter) := map_err BackendIteratorError (copy_from_iter fuel self src_iter) in
  let! '(self_empty, self) := map_err BackendIteratorError (is_empty self) in
  if negb self_empty then Err (IoSlicesErr BuffersExhausted)
  else
    let! '(src_empty, src_iter) := map_err BackendIteratorError (is_empty src_iter) in
    if negb src_empty then Err (IoSlicesErr BuffersExhausted)
    else Ok copied.
End Copy.

(** ** [BuffersSliceIoSlicesIter] *)

Record BuffersSliceIoSlicesIter := mk_buffers {
  buffers_slice : list (list Z);
  head : option (list Z);
  tail : option (list Z);
}.

Section Buffers.
Context {E : Type}.
Implicit Types self : BuffersSliceIoSlicesIter.

Definition buffers_new (buffers_slice : list (list Z)) : BuffersSliceIoSlicesIter :=
  mk_buffers buffers_slice None None.

(** The loop of [refill_head]: the first buffer that is not empty, and those
    after it. *)
Fixpoint first_nonempty (buffers_slice : list (list Z)) : option (list Z * list (list Z)) :=
  match buffers_slice with
  | [] => None
  | b :: buffers_slice => match b with [] => first_nonempty buffers_slice | _ => Some (b, buffers_slice) end
  end.
Definition refill_head self : BuffersSliceIoSlicesIter :=
  match first_nonempty (buffers_slice self) with
  | Some (b, rest) => mk_buffers rest (Some b) (tail self)
  | None => mk_buffers [] (tail self) None
  end.
Definition maybe_refill_head self : BuffersSliceIoSlicesIter :=
  match head self with Some _ => self | None => refill_head self end.

Definition buffers_next_slice_len self : outcome E (nat * BuffersSliceIoSlicesIter) :=
  let self := maybe_refill_head self in
  Ok (match head self with Some head => length head | None => 0%nat end, self).

Definition then_some (l : list Z) : option (list Z) := match l with [] => None | _ => Some l end.

Definition buffers_next_slice self (max_len : option nat) : outcome E (option (list Z) * BuffersSliceIoSlicesIter) :=
  let self := maybe_refill_head self in
  match max_len with
  | None => Ok (head self, mk_buffers (buffers_slice self) None (tail self))
  | Some max_len =>
      match head self with
      | Some head =>
          let max_len := Nat.min max_len (length head) in
          Ok (Some (take max_len head),
              mk_buffers (buffers_slice self) (then_some (drop max_len head)) (tail self))
      | None => Ok (None, self)
      end
  end.

(** The loop of [next_back_slice]: the last buffer that is not empty, and those
    before it. *)
Definition last_nonempty (buffers_slice : list (list Z)) : option (list Z * list (list Z)) :=
  match first_nonempty (rev buffers_slice) with
  | Some (b, rest) => Some (b, rev rest)
  | None => None
  end.
Definition refill_tail self : BuffersSliceIoSlicesIter :=
  match tail self with
  | Some _ => self
  | None =>
      match last_nonempty (buffers_slice self) with
      | Some (b, rest) => mk_buffers rest (head self) (Some b)
      | None => mk_buffers [] None (head self)
      end
  end.
Definition buffers_next_back_slice self (max_len : option nat)
    : outcome E (option (list Z) * BuffersSliceIoSlicesIter) :=
  let self := refill_tail self in
  match max_len with
  | None => Ok (tail self, mk_buffers (buffers_slice self) (head self) None)
  | Some max_len =>
      match tail self with
      | Some tail =>
          let max_len := Nat.min max_len (length tail) in
          Ok (Some (drop (length tail - max_len) tail),
              mk_buffers (buffers_slice self) (head self) (then_some (take (length tail - max_len) tail)))
      | None => Ok (None, self)
      end
  end.

Definition buffers_slices self : outcome E (list (list Z)) :=
  Ok (filter (λ l, l ≠ []) (option_list (head self) ++ buffers_slice self ++ option_list (tail self))).
End Buffers.

#[export] Instance buffers_iter {E} : IoSlicesIter BuffersSliceIoSlicesIter E := {
  next_slice_len := buffers_next_slice_len;
  next_slice := buffers_next_slice;
  slices := buffers_slices;
}.

(** ** [SingletonIoSlice] *)

Record SingletonIoSlice := mk_singleton { slice : option (list Z) }.

Section Singleton.
Context {E : Type}.
Implicit Types self : SingletonIoSlice.

Definition singleton_new (slice : list Z) : SingletonIoSlice := mk_singleton (Some slice).

Definition singleton_next_slice_len self : outcome E (nat * SingletonIoSlice) :=
  Ok (match slice self with Some slice => length slice | None => 0%nat end, self).

Definition singleton_next_slice self (max_len : option nat) : outcome E (option (list Z) * SingletonIoSlice) :=
  match slice self with
  | None => Ok (None, self)
  | Some slice =>
      if (length slice =? 0)%nat then Ok (None, mk_singleton None)
      else
        let head_slice_len :=
          match max_len with Some max_len => Nat.min max_len (length slice) | None => length slice end in
        Ok (Some (take head_slice_len slice), mk_singleton (Some (drop head_slice_len slice)))
  end.

Definition singleton_slices self : outcome E (list (list Z)) :=
  Ok match slice self with
     | Some slice => if (length slice =? 0)%nat then [] else [slice]
     | None => []
     end.
End Singleton.

#[export] Instance singleton_iter {E} : IoSlicesIter SingletonIoSlice E := {
  next_slice_len := singleton_next_slice_len;
  next_slice := singleton_next_slice;
  slices := singleton_slices;
}.

(** ** Implementations obey the laws *)

#[export] Instance singleton_laws {E} : IoSlicesIterLaws SingletonIoSlice E.
Proof.
  refine {| valid := λ _, True; content := λ s, default [] (slice s) |}.
  - intros [[l|]] _; cbn; [|by exists []]. unfold singleton_slices. cbn. destruct l; cbn; [by exists []|].
    eexists. split; [done|]. cbn. by rewrite app_nil_r.
  - intros [[l|]] _; cbn.
    + exists (length l), (mk_singleton (Some l)). split_and!; try done; [by destruct l|].
      intros m ? ?. unfold singleton_next_slice. cbn. zdec. rewrite Nat.min_l by done. by eexists.
    + exists 0%nat, (mk_singleton None). split_and!; try done. intros. lia.
  - intros [[l|]] m _ ?; cbn; [|by left; split; [done|eexists]]. unfold singleton_next_slice. cbn.
    destruct l as [|b l]; [left; split; [done|by eexists]|right]. cbn [length Nat.eqb]. do 2 eexists.
    split; [done|]. split; [done|]. cbn [slice default id]. rewrite take_drop. split; [done|].
    rewrite length_take. cbn [length]. lia.
  - intros [[l|]] m _ Hc; cbn in *; [|by eexists]. subst l. by eexists.
Defined.

Section BuffersLaws.
Context {E : Type}.
Implicit Types s : BuffersSliceIoSlicesIter.

Definition buffers_valid s : Prop := head s ≠ Some [] ∧ tail s ≠ Some [].
Definition buffers_content s : list Z := default [] (head s) ++ mjoin (buffers_slice s) ++ default [] (tail s).

Lemma first_nonempty_spec bs :
  match first_nonempty bs with
  | Some (b, rest) => b ≠ [] ∧ mjoin bs = b ++ mjoin rest
  | None => mjoin bs = []
  end.
Proof. induction bs as [|[|x b] bs IH]; cbn; done. Qed.

Lemma maybe_refill_head_spec s :
  buffers_valid s → let s' := maybe_refill_head s in
  buffers_valid s' ∧ buffers_content s' = buffers_content s ∧ (head s' = None → buffers_content s' = []).
Proof.
  intros [Hh Ht] s'. unfold s', maybe_refill_head, refill_head. destruct (head s) as [h|] eqn:Hhead.
  { split; [by split; rewrite ?Hhead|]. split; [done|]. congruence. }
  pose proof (first_nonempty_spec (buffers_slice s)) as Hf. unfold buffers_valid, buffers_content.
  destruct (first_nonempty _) as [[b rest]|]; cbn [head tail buffers_slice].
  - destruct Hf as [Hb ->]. rewrite Hhead. cbn. split; [naive_solver|]. rewrite <-app_assoc. done.
  - rewrite Hf, Hhead. split; [done|]. cbn. rewrite app_nil_r. split; [done|]. by intros ->.
Qed.

Lemma then_some_spec l : then_some l ≠ Some [] ∧ default [] (then_some l) = l.
Proof. by destruct l. Qed.

Lemma maybe_refill_head_idem s : maybe_refill_head (maybe_refill_head s) = maybe_refill_head s.
Proof.
  unfold maybe_refill_head at 2 3. destruct (head s) as [h|] eqn:Hh; [unfold maybe_refill_head; by rewrite Hh|].
  unfold refill_head. destruct (first_nonempty (buffers_slice s)) as [[b rest]|]; [done|].
  unfold maybe_refill_head. cbn [head]. destruct (tail s); [done|]. done.
Qed.

(** [next_slice] starts with a refill of the head. *)
Lemma buffers_next_slice_refill s m :
  buffers_next_slice (E:=E) s m = buffers_next_slice (maybe_refill_head s) m.
Proof. unfold buffers_next_slice. by rewrite maybe_refill_head_idem. Qed.

(** [next_slice] with a limit, when there is a head. *)
Lemma buffers_next_slice_head s h m :
  buffers_valid s → head s = Some h →
  ∃ s', buffers_next_slice (E:=E) s (Some m) = Ok (Some (take (Nat.min m (length h)) h), s') ∧ buffers_valid s' ∧
    buffers_content s' = drop (Nat.min m (length h)) (buffers_content s).
Proof.
  intros [Hh Ht] Hhead. unfold buffers_next_slice, maybe_refill_head. rewrite Hhead, Hhead.
  eexists. split; [done|]. unfold buffers_valid, buffers_content. cbn [head tail buffers_slice].
  destruct (then_some_spec (drop (Nat.min m (length h)) h)) as [Hs ->]. split; [done|]. rewrite Hhead. cbn [default id].
  rewrite drop_app_le by lia. done.
Qed.

Lemma buffers_head_content s h : head s = Some h → buffers_content s = h ++ mjoin (buffers_slice s) ++ default [] (tail s).
Proof. unfold buffers_content. by intros ->. Qed.
End BuffersLaws.

#[export] Instance buffers_laws {E} : IoSlicesIterLaws BuffersSliceIoSlicesIter E.
Proof.
  refine {| valid := buffers_valid; content := buffers_content |}.
  - intros s _. eexists. split; [done|]. unfold buffers_content.
    assert (∀ ls : list (list Z), mjoin (filter (λ l, l ≠ []) ls) = mjoin ls) as ->.
    { induction ls as [|[|x l] ls IH]; [done|by rewrite filter_cons_False by auto|].
      rewrite filter_cons_True by done. cbn. f_equal. f_equal. apply IH. }
    rewrite !join_app. destruct (head s), (tail s); cbn; by rewrite ?app_nil_r.
  - intros s Hs. destruct (maybe_refill_head_spec s Hs) as (Hv & Hc & He). set (s' := maybe_refill_head s) in *.
    exists (match head s' with Some h => length h | None => 0%nat end), s'.
    split; [done|]. split; [done|]. split; [done|]. destruct (head s') as [h|] eqn:Hh.
    + pose proof (buffers_head_content s' h Hh) as Hc'. rewrite <-Hc, Hc', length_app. split; [lia|]. split.
      { intros. destruct Hv as [Hv _]. rewrite Hh in Hv. by destruct h. }
      intros m ? ?. destruct (buffers_next_slice_head (E:=E) s' h m Hv Hh) as (s'' & Hn & ? & Hd).
      rewrite Nat.min_l in Hn, Hd by lia. exists s''. rewrite take_app_le by lia. rewrite <-Hc', <-Hd. done.
    + split; [lia|]. split; [|lia]. intros _. rewrite <-Hc. by apply He.
  - intros s m Hs Hm. destruct (maybe_refill_head_spec s Hs) as (Hv & Hc & He). set (s' := maybe_refill_head s) in *.
    change (next_slice s (Some m)) with (buffers_next_slice (E:=E) s (Some m)). rewrite buffers_next_slice_refill. fold s'.
    destruct (head s') as [h|] eqn:Hh.
    + right. destruct (buffers_next_slice_head (E:=E) s' h m Hv Hh) as (s'' & Hn & ? & Hd).
      do 2 eexists. split; [exact Hn|]. split; [done|]. rewrite <-Hc, Hd, (buffers_head_content s' h Hh).
      split; [by rewrite <-take_app_le with (k := mjoin (buffers_slice s') ++ default [] (tail s')), take_drop by lia|].
      rewrite length_take. destruct Hv as [Hv _]. rewrite Hh in Hv. destruct h; [done|]. cbn [length]. lia.
    + left. rewrite <-Hc. split; [by apply He|]. exists s'. split; [|split; [done|by apply He]].
      unfold buffers_next_slice. replace (maybe_refill_head s') with s' by (symmetry; apply maybe_refill_head_idem). by rewrite Hh.
  - intros s m Hs Hcont. destruct (maybe_refill_head_spec s Hs) as (Hv & Hc & He). set (s' := maybe_refill_head s) in *.
    change (next_slice s m) with (buffers_next_slice (E:=E) s m). rewrite buffers_next_slice_refill. fold s'.
    destruct (head s') as [h|] eqn:Hh.
    + rewrite <-Hc, (buffers_head_content s' h Hh) in Hcont. apply app_eq_nil in Hcont as [-> _].
      destruct Hv as [Hv _]. by rewrite Hh in Hv.
    + unfold buffers_next_slice. replace (maybe_refill_head s') with s' by (symmetry; apply maybe_refill_head_idem).
      rewrite Hh. specialize (He eq_refl). destruct m; (eexists; split; [done|]); [done|].
      split; [by split; [|apply Hv]|]. unfold buffers_content in *. by rewrite Hh in He.
Defined.


(** ** Provided methods *)

Section ProvidedSpec.
Context {S E : Type} `{HI : IoSlicesIter S E} {HL : IoSlicesIterLaws S E}.

Lemma skip_loop_spec fuel s n :
  valid s → (n < fuel)%nat →
  if (n <=? length (content s))%nat
  then ∃ s', skip_loop fuel s n = Ok s' ∧ valid s' ∧ content s' = drop n (content s)
  else skip_loop fuel s n = Err (IoSlicesErr BuffersExhausted).
Proof.
  revert s n. induction fuel as [|fuel IH]; intros s n Hs Hf; [lia|]. cbn [skip_loop].
  destruct (Nat.eqb_spec n 0) as [->|].
  { cbn [Nat.leb]. exists s. by rewrite drop_0. }
  destruct (next_slice_spec s n Hs ltac:(lia)) as [(Hc & s' & -> & _ & _)|(bs & s' & -> & Hs' & Hc & ? & ?)]; cbn [map_err obind].
  - rewrite Hc. cbn [length]. rewrite (proj2 (Nat.leb_gt n 0)) by lia. done.
  - rewrite nsub_Ok by lia. cbn [obind]. specialize (IH s' (n - length bs)%nat Hs' ltac:(lia)).
    rewrite Hc, length_app. destruct (Nat.leb_spec n (length bs + length (content s'))).
    + rewrite (proj2 (Nat.leb_le (n - length bs) (length (content s')))) in IH by lia.
      destruct IH as (s'' & -> & ? & Hd). exists s''. split_and!; try done. by rewrite Hd, drop_app_ge by lia.
    + rewrite (proj2 (Nat.leb_gt (n - length bs) (length (content s')))) in IH by lia. done.
Qed.

Lemma foldl_lengths (ss : list (list Z)) n :
  foldl (λ l x, (l + length x)%nat) n ss = (n + length (mjoin ss))%nat.
Proof. revert n. induction ss as [|x ss IH]; intros n; cbn; [lia|]. rewrite IH, length_app. cbn. unfold mjoin. lia. Qed.

Lemma total_len_spec s : valid s → total_len s = Ok (length (content s)).
Proof. intros Hs. unfold total_len. destruct (slices_spec s Hs) as (ss & -> & <-). cbn [obind]. by rewrite foldl_lengths. Qed.

Lemma is_empty_spec s :
  valid s → ∃ s', is_empty s = Ok ((length (content s) =? 0)%nat, s') ∧ valid s' ∧ content s' = content s.
Proof.
  intros Hs. unfold is_empty. destruct (next_slice_len_spec s Hs) as (n & s' & -> & ? & Hc & ? & Hn & _).
  exists s'. split; [|done]. cbn [obind]. do 2 f_equal.
  destruct (Nat.eqb_spec n 0) as [->|]; [by rewrite Hn|]. zdec. done.
Qed.
End ProvidedSpec.

Section CopySpec.
Context {D SS E : Type} `{HD : IoSlicesIter D E} {HDL : IoSlicesIterLaws D E}
  `{HS : IoSlicesIter SS E} {HSL : IoSlicesIterLaws SS E}.

Lemma copy_from_iter_spec fuel (d : D) (s : SS) :
  valid d → valid s → (Nat.min (length (content d)) (length (content s)) < fuel)%nat →
  let n := Nat.min (length (content d)) (length (content s)) in
  ∃ d' s', copy_from_iter fuel d s = Ok (take n (content s), d', s') ∧ valid d' ∧ valid s' ∧
    content d' = drop n (content d) ∧ content s' = drop n (content s).
Proof.
  revert d s. induction fuel as [|fuel IH]; intros d s Hd Hs Hf n; [lia|]. cbn [copy_from_iter].
  destruct (next_slice_len_spec d Hd) as (nd & d1 & -> & Hd1 & Hcd & ? & Hnd & Hnextd). cbn [obind].
  destruct (next_slice_len_spec s Hs) as (ns & s1 & -> & Hs1 & Hcs & ? & Hns & Hnexts). cbn [obind].
  set (k := Nat.min nd ns). destruct (Nat.eq_dec nd 0) as [Hz|].
  { rewrite <-Hcd in Hnd. destruct (next_slice_empty d1 (Some k) Hd1 (Hnd Hz)) as (d2 & -> & ? & Hc2). cbn [obind].
    rewrite Hcd in Hnd. exists d2, s1. unfold n. rewrite (Hnd Hz), Hc2, Hcs. done. }
  destruct (Hnextd k ltac:(lia) ltac:(lia)) as (d2 & -> & Hd2 & Hcd2). cbn [obind].
  destruct (Nat.eq_dec ns 0) as [Hz|].
  { rewrite <-Hcs in Hns. destruct (next_slice_empty s1 (Some k) Hs1 (Hns Hz)) as (s2 & -> & ? & Hc2). cbn [obind].
    rewrite Hcs in Hns. exists d2, s2. unfold n. rewrite (Hns Hz), Hcd2, Hc2. replace k with 0%nat by lia.
    rewrite Nat.min_0_r. done. }
  destruct (Hnexts k ltac:(lia) ltac:(lia)) as (s2 & -> & Hs2 & Hcs2). cbn [obind].
  rewrite !length_take, !Nat.min_l, Nat.eqb_refl by lia. cbn [negb].
  destruct (IH d2 s2 Hd2 Hs2) as (d' & s' & -> & ? & ? & Hc1 & Hc2).
  { rewrite Hcd2, Hcs2, !length_drop. lia. }
  cbn [obind]. exists d', s'. revert Hc1 Hc2. rewrite Hcd2, Hcs2, !length_drop. intros Hc1 Hc2.
  assert (k + Nat.min (length (content d) - k) (length (content s) - k) = n)%nat as Hn by lia.
  rewrite Hc1, Hc2, !drop_drop, take_take_drop, Hn. done.
Qed.
End CopySpec.

Lemma last_nonempty_spec bs :
  match last_nonempty bs with
  | Some (b, rest) => b ≠ [] ∧ mjoin bs = mjoin rest ++ b
  | None => mjoin bs = []
  end.
Proof.
  unfold last_nonempty. induction bs as [|b bs IH] using rev_ind; [done|]. rewrite rev_unit. cbn [first_nonempty].
  destruct b as [|x b]; [by rewrite join_app, app_nil_r|]. rewrite rev_involutive, join_app. cbn. by rewrite app_nil_r.
Qed.

(** [next_back_slice] takes the bytes from the end. *)
Lemma buffers_next_back_slice_spec {E} s m :
  buffers_valid s → (0 < m)%nat →
  (buffers_content s = [] ∧ ∃ s', buffers_next_back_slice (E:=E) s (Some m) = Ok (None, s')) ∨
  (∃ bs s', buffers_next_back_slice (E:=E) s (Some m) = Ok (Some bs, s') ∧ buffers_valid s' ∧
     buffers_content s = buffers_content s' ++ bs ∧ (0 < length bs ≤ m)%nat).
Proof.
  intros [Hh Ht] Hm.
  assert (let s' := refill_tail s in buffers_valid s' ∧ buffers_content s' = buffers_content s ∧
    (tail s' = None → buffers_content s = [])) as (Hv & Hc & He).
  { unfold refill_tail. destruct (tail s) as [t|] eqn:Htail.
    { split; [by split; rewrite ?Htail|]. split; [done|]. congruence. }
    pose proof (last_nonempty_spec (buffers_slice s)) as Hf. unfold buffers_valid, buffers_content.
    destruct (last_nonempty _) as [[b rest]|]; cbn [head tail buffers_slice]; rewrite Htail.
    - destruct Hf as [Hb ->]. cbn. rewrite app_nil_r. split; [naive_solver|done].
    - rewrite Hf. cbn. rewrite app_nil_r. split; [done|]. split; [done|]. by intros ->. }
  unfold buffers_next_back_slice. set (s' := refill_tail s) in *. destruct (tail s') as [t|] eqn:Htail.
  2: { left. split; [by apply He|eauto]. }
  right. do 2 eexists. split; [done|]. destruct Hv as [Hv Hv']. rewrite Htail in Hv'.
  unfold buffers_valid. cbn [head tail]. destruct (then_some_spec (take (length t - Nat.min m (length t)) t)) as [? Hd].
  split; [done|]. split.
  - rewrite <-Hc. unfold buffers_content. cbn [head tail buffers_slice]. rewrite Htail, Hd. cbn [default id].
    rewrite <-!app_assoc, take_drop. done.
  - rewrite length_drop. destruct t; [done|]. cbn [length]. lia.
Qed.

(** ** Properties *)

(** Skipping a number of bytes of any slice iterator that obeys the laws ends
    within that many rounds; it leaves the bytes after those skipped, or fails
    with the exhaustion error exactly if there are fewer. *)
Lemma skip_correct {S E} `{HI : IoSlicesIter S E} {HL : IoSlicesIterLaws S E} (s : S) n :
  valid s →
  if (n <=? length (content s))%nat
  then ∃ s', skip s n = Ok s' ∧ valid s' ∧ content s' = drop n (content s)
  else skip s n = Err (IoSlicesErr BuffersExhausted).
Proof. intros. apply skip_loop_spec; [done|lia]. Qed.

(** C33: Copying between any two slice iterators that obey the laws ends, never
    panics on slices of different lengths, and copies as many bytes as the
    shorter of the two has, in order, however the two are split into slices. *)
Theorem copy_from_iter_correct {D SS E} `{HD : IoSlicesIter D E} {HDL : IoSlicesIterLaws D E}
    `{HS : IoSlicesIter SS E} {HSL : IoSlicesIterLaws SS E} fuel (d : D) (s : SS) :
  valid d → valid s → (Nat.min (length (content d)) (length (content s)) < fuel)%nat →
  let n := Nat.min (length (content d)) (length (content s)) in
  ∃ d' s', copy_from_iter fuel d s = Ok (take n (content s), d', s') ∧ valid d' ∧ valid s' ∧
    content d' = drop n (content d) ∧ content s' = drop n (content s).
Proof. apply copy_from_iter_spec. Qed.

(** The iterator over a slice of buffers yields the bytes of the buffers in
    order from the front and from the back, without loss or repetition. *)
Lemma buffers_slices_correct {E} bufs m :
  (0 < m)%nat →
  let s := buffers_new bufs in
  (mjoin bufs = [] ∧ (∃ s', buffers_next_slice (E:=E) s (Some m) = Ok (None, s')) ∧
     (∃ s', buffers_next_back_slice (E:=E) s (Some m) = Ok (None, s'))) ∨
  ((∃ bs s', buffers_next_slice (E:=E) s (Some m) = Ok (Some bs, s') ∧ buffers_valid s' ∧
      mjoin bufs = bs ++ buffers_content s' ∧ (0 < length bs ≤ m)%nat) ∧
   (∃ bs s', buffers_next_back_slice (E:=E) s (Some m) = Ok (Some bs, s') ∧ buffers_valid s' ∧
      mjoin bufs = buffers_content s' ++ bs ∧ (0 < length bs ≤ m)%nat)).
Proof.
  intros Hm s. assert (buffers_valid s) as Hs by done.
  assert (buffers_content s = mjoin bufs) as Hc by (unfold buffers_content; cbn; by rewrite app_nil_r).
  assert ((buffers_content s = [] ∧ ∃ s', buffers_next_slice (E:=E) s (Some m) = Ok (None, s') ∧
      buffers_valid s' ∧ buffers_content s' = []) ∨
    (∃ bs s', buffers_next_slice (E:=E) s (Some m) = Ok (Some bs, s') ∧ buffers_valid s' ∧
       buffers_content s = bs ++ buffers_content s' ∧ (0 < length bs ≤ m)%nat)) as Hn
    by exact (next_slice_spec (E:=E) s m Hs Hm).
  rewrite Hc in Hn.
  pose proof (buffers_next_back_slice_spec (E:=E) s m Hs Hm) as Hb. rewrite Hc in Hb.
  destruct Hn as [(He & s' & ? & _)|(bs & s' & ? & ? & Hj & ?)].
  - left. split; [done|]. split; [eauto|]. destruct Hb as [[_ ?]|(bs & s2 & _ & _ & Hj & ?)]; [done|].
    rewrite He in Hj. symmetry in Hj. apply app_eq_nil in Hj as [_ ->]. cbn in *. lia.
  - right. split; [eauto 10|]. destruct Hb as [[Hj' _]|]; [|done].
    rewrite Hj in Hj'. apply app_eq_nil in Hj' as [-> _]. cbn in *. lia.
Qed.

Lemma buffers_new_valid bufs : buffers_valid (buffers_new bufs).
Proof. done. Qed.

Lemma skip_correct_witness :
  ∃ s', skip (E:=unit) (buffers_new [[1; 2]; []; [3; 4]]) 3 = Ok s' ∧ buffers_valid s' ∧ buffers_content s' = [4].
Proof. exact (skip_correct (HL:=buffers_laws (E:=unit)) (buffers_new [[1; 2]; []; [3; 4]]) 3 (buffers_new_valid _)). Defined.

Lemma copy_from_iter_correct_witness :
  ∃ d' s', copy_from_iter (E:=unit) 9 (singleton_new (replicate 3 0)) (buffers_new [[1; 2]; []; [3; 4]]) =
      Ok ([1; 2; 3], d', s') ∧ True ∧ buffers_valid s' ∧ default [] (slice d') = [] ∧ buffers_content s' = [4].
Proof.
  exact (copy_from_iter_correct (HDL:=singleton_laws (E:=unit)) (HSL:=buffers_laws) 9 (singleton_new (replicate 3 0))
    (buffers_new [[1; 2]; []; [3; 4]]) I (buffers_new_valid _) ltac:(cbn; lia)).
Defined.

Lemma buffers_slices_correct_witness :
  ∃ bs s', buffers_next_back_slice (E:=unit) (buffers_new [[1; 2]; []; [3; 4]]) (Some 5%nat) = Ok (Some bs, s') ∧
    buffers_valid s' ∧ [1; 2; 3; 4] = buffers_content s' ++ bs ∧ (0 < length bs ≤ 5)%nat.
Proof.
  destruct (buffers_slices_correct (E:=unit) [[1; 2]; []; [3; 4]] 5) as [[[=] _]|[_ Hb]]; [lia|exact Hb].
Defined.

End IoSlices.
