(* ===== verification/ApplyScript.v ===== *)
(** * Journal change application scripts (storage/src/fs/cocoonfs/journal/apply_script.rs)

    The journal log stores which regions to copy back from the journal staging
    copies, which digests of the authentication tree to update and which regions
    to trim.  All three scripts are delta encoded with leb128 numbers and decoded
    from a sequence of byte slices through a small buffer on the stack.

    A script iterator is the list of the results of its [next], up to the [None]:
    an element is an entry or the error that [next] returns.  The entries of the
    scripts for digests and trims have the target range as their only field, and
    are that range here.  The source is any slice iterator; its
    [decoupled_borrow] is a copy of its state. *)

From S2P Require Import Prelude BitManip Leb128 Errors Layout IoSlices.
Import BitManip Leb128 Errors Layout IoSlices.

Module ApplyScript.

Abbreviation res := (outcome NvFsError).

Record JournalApplyWritesScriptEntry := mk_entry {
  target_range : BlockRange;
  journal_staging_copy_allocation_blocks_begin : Z;
}.

(** [usize::checked_add]. *)
Definition usize_checked_add (a b : nat) : option nat :=
  if Z.of_nat (a + b) <? 2 ^ 64 then Some (a + b)%nat else None.

(** ** Encoding *)

Section Encode.
Context {B : Build}.
Implicit Types (it : list (res JournalApplyWritesScriptEntry)) (pit : list (res BlockRange)).

(** The three numbers of an entry, and the ends that the deltas of the next one
    are relative to. *)
Definition target_delta (r : BlockRange) (last_target_end log2 : Z) : res Z :=
  let! d := physical_sub (rng_begin r) last_target_end in
  ushr 64 d log2.
Definition staging_delta (e : JournalApplyWritesScriptEntry) (last_staging_end log2 : Z) : res Z :=
  ushr 64 (swrap 64 (wrapping_sub 64 (journal_staging_copy_allocation_blocks_begin e) last_staging_end)) log2.
Definition scaled_block_count (r : BlockRange) (log2 : Z) : res Z :=
  let! n := block_count r in
  ushr 64 n log2.
Definition staging_end (e : JournalApplyWritesScriptEntry) : res Z :=
  let! n := block_count (target_range e) in
  physical_add (journal_staging_copy_allocation_blocks_begin e) n.

Fixpoint apply_writes_encoded_len_loop it log2 (encoded_len : nat) (last_target_end last_staging_end : Z) : res nat :=
  match it with
  | [] => ok_or (usize_checked_add encoded_len 3) DimensionsNotSupported
  | next :: it =>
      let! script_entry := next in
      let! v := target_delta (target_range script_entry) last_target_end log2 in
      let! target_delta_encoded_len := leb128u_u64_encoded_len v in
      let! v := staging_delta script_entry last_staging_end log2 in
      let! journal_staging_copy_delta_encoded_len := leb128s_i64_encoded_len v in
      let! v := scaled_block_count (target_range script_entry) log2 in
      let! block_count_encoded_len := leb128u_u64_encoded_len v in
      let! encoded_len :=
        ok_or (usize_checked_add encoded_len
          (target_delta_encoded_len + journal_staging_copy_delta_encoded_len + block_count_encoded_len))
          DimensionsNotSupported in
      let last_target_end := rng_end (target_range script_entry) in
      let! last_staging_end := staging_end script_entry in
      apply_writes_encoded_len_loop it log2 encoded_len last_target_end last_staging_end
  end.
Definition apply_writes_encoded_len it log2 : res nat := apply_writes_encoded_len_loop it log2 0 0 0.

(** [encode] returns the rest of the buffer; the bytes that it writes in front of
    it are returned as well. *)
Fixpoint apply_writes_encode_loop (buf : list Z) it log2 (last_target_end last_staging_end : Z)
    : res (list Z * list Z) :=
  match it with
  | [] => if (length buf <? 3)%nat then Panic else Ok ([0; 0; 0], drop 3 buf)
  | next :: it =>
      let! script_entry := next in
      let! v := target_delta (target_range script_entry) last_target_end log2 in
      let! '(w1, buf) := leb128u_u64_encode buf v in
      let! v := staging_delta script_entry last_staging_end log2 in
      let! '(w2, buf) := leb128s_i64_encode buf v in
      let! v := scaled_block_count (target_range script_entry) log2 in
      let! '(w3, buf) := leb128u_u64_encode buf v in
      let last_target_end := rng_end (target_range script_entry) in
      let! last_staging_end := staging_end script_entry in
      let! '(ws, buf) := apply_writes_encode_loop buf it log2 last_target_end last_staging_end in
      Ok (w1 ++ w2 ++ w3 ++ ws, buf)
  end.
Definition apply_writes_encode (buf : list Z) it log2 : res (list Z * list Z) :=
  let! _ := debug_check (let! n := apply_writes_encoded_len it log2 in Ok (n <=? length buf)%nat) in
  apply_writes_encode_loop buf it log2 0 0.

(** The scripts for digests and trims. *)
Fixpoint pair_encoded_len_loop pit log2 (encoded_len : nat) (last_target_end : Z) : res nat :=
  match pit with
  | [] => ok_or (usize_checked_add encoded_len 2) DimensionsNotSupported
  | next :: pit =>
      let! script_entry := next in
      let! v := target_delta script_entry last_target_end log2 in
      let! target_delta_encoded_len := leb128u_u64_encoded_len v in
      let! v := scaled_block_count script_entry log2 in
      let! block_count_encoded_len := leb128u_u64_encoded_len v in
      let! encoded_len :=
        ok_or (usize_checked_add encoded_len (target_delta_encoded_len + block_count_encoded_len))
          DimensionsNotSupported in
      pair_encoded_len_loop pit log2 encoded_len (rng_end script_entry)
  end.
Fixpoint pair_encode_loop (buf : list Z) pit log2 (last_target_end : Z) : res (list Z * list Z) :=
  match pit with
  | [] => if (length buf <? 2)%nat then Panic else Ok ([0; 0], drop 2 buf)
  | next :: pit =>
      let! script_entry := next in
      let! v := target_delta script_entry last_target_end log2 in
      let! '(w1, buf) := leb128u_u64_encode buf v in
      let! v := scaled_block_count script_entry log2 in
      let! '(w2, buf) := leb128u_u64_encode buf v in
      let! '(ws, buf) := pair_encode_loop buf pit log2 (rng_end script_entry) in
      Ok (w1 ++ w2 ++ ws, buf)
  end.

Definition update_auth_digests_encoded_len pit log2 : res nat := pair_encoded_len_loop pit log2 0 0.
Definition update_auth_digests_encode (buf : list Z) pit log2 : res (list Z * list Z) :=
  let! _ := debug_check (let! n := update_auth_digests_encoded_len pit log2 in Ok (n <=? length buf)%nat) in
  pair_encode_loop buf pit log2 0.
Definition trims_encoded_len pit log2 : res nat := pair_encoded_len_loop pit log2 0 0.
Definition trims_encode (buf : list Z) pit log2 : res (list Z * list Z) :=
  let! _ := debug_check (let! n := trims_encoded_len pit log2 in Ok (n <=? length buf)%nat) in
  pair_encode_loop buf pit log2 0.
End Encode.

(** ** Decoding *)

Section Decode.
Context {B : Build} {Alloc : Allocator} {SI : Type} `{HI : IoSlicesIter SI NvFsError}.

(** The decode buffer, how much of it is filled, the peeking source, and the
    counters of the bytes left in the source and consumed from it. *)
Record DecodeState := mk_state {
  decode_buf : list Z;
  decode_buf_len : nat;
  peeking_src : SI;
  remaining_src_len : nat;
  total_consumed_src_len : nat;
}.

(** The refill of the decode buffer at the start of a round. *)
Definition refill (st : DecodeState) : res DecodeState :=
  let '(mk_state buf len src remaining consumed) := st in
  let! _ := debug_check (let! n := total_len src in Ok (n =? remaining)%nat) in
  let! free := nsub (length buf) len in
  let refill_len := Nat.min free remaining in
  if (length buf <? len + refill_len)%nat then Panic
  else
    let dst := singleton_new (take refill_len (drop len buf)) in
    let! '(copied, _, src) := copy_from_iter (S refill_len) dst src in
    let buf := take len buf ++ copied ++ drop (len + length copied) buf in
    let! remaining := nsub remaining refill_len in
    Ok (mk_state buf (len + refill_len) src remaining consumed).

(** Drop the bytes decoded in this round, all but the last [rest_len] ones, from
    the buffer ([copy_within]). *)
Definition consume (st : DecodeState) (rest_len : nat) : res DecodeState :=
  let '(mk_state buf len src remaining total) := st in
  let! consumed := nsub len rest_len in
  let! len := nsub len consumed in
  if (length buf <? consumed + len)%nat then Panic
  else
    let buf := take len (drop consumed buf) ++ drop len buf in
    Ok (mk_state buf len src remaining (total + consumed)).

(** A number of blocks in units of [1 << log2], converted to allocation blocks;
    [e] if bits are lost. *)
Definition unscale_u (v log2 : Z) (e : NvFsError) : res Z :=
  let! blocks := ushl 64 v log2 in
  let! back := ushr 64 blocks log2 in
  if negb (back =? v) then Err e else Ok blocks.
Definition unscale_i (v log2 : Z) (e : NvFsError) : res Z :=
  let! blocks := ishl 64 v log2 in
  let! back := ushr 64 blocks log2 in
  if negb (back =? v) then Err e else Ok blocks.

(** [u64::MAX >> (allocation_block_size_128b_log2 + 7)]. *)
Definition max_block_end (allocation_block_size_128b_log2 : Z) : res Z :=
  let! n := uadd 32 allocation_block_size_128b_log2 7 in
  ushr 64 (unot 64 0) n.

Definition skip_err {A} (e : IoSlicesIterError NvFsError) : res A :=
  match e with
  | BackendIteratorError e => Err e
  | IoSlicesErr BuffersExhausted => err_internal
  end.

Definition format_err {A} (err : NvFsError) (c : outcome Leb128EncodingError A) : res A := map_err (λ _, err) c.

(** The target and staging ranges of an entry, from its three numbers. *)
Definition apply_writes_entry (target_delta_io_blocks journal_staging_copy_delta_io_blocks io_blocks_count : Z)
    (log2 s last_target_end last_staging_end : Z) : res (Z * Z * Z * Z) :=
  let fmt := from_format InvalidJournalApplyWritesScriptFormat in
  let ent := from_format InvalidJournalApplyWritesScriptEntry in
  let! target_delta_allocation_blocks := unscale_u target_delta_io_blocks log2 fmt in
  let! target_begin := ok_or (checked_add 64 last_target_end target_delta_allocation_blocks) ent in
  let! staging_delta_allocation_blocks := unscale_i journal_staging_copy_delta_io_blocks log2 fmt in
  let staging_begin := wrapping_add 64 last_staging_end (wrap 64 staging_delta_allocation_blocks) in
  let! allocation_blocks_count := unscale_u io_blocks_count log2 fmt in
  let! target_end := ok_or (checked_add 64 target_begin allocation_blocks_count) ent in
  let! limit := max_block_end s in
  if limit <? target_end then Err fmt
  else
    let! staging_end := ok_or (checked_add 64 staging_begin allocation_blocks_count) ent in
    let! limit := max_block_end s in
    if limit <? staging_end then Err fmt
    else Ok (target_begin, target_end, staging_begin, staging_end).

(** The loop of [JournalApplyWritesScript::decode]. *)
Fixpoint apply_writes_decode_loop (fuel : nat) (st : DecodeState) (log2 s : Z)
    (last_target_end last_staging_end : Z) (script : list JournalApplyWritesScriptEntry)
    : res (list JournalApplyWritesScriptEntry * nat) :=
  let fmt := from_format InvalidJournalApplyWritesScriptFormat in
  let ent := from_format InvalidJournalApplyWritesScriptEntry in
  match fuel with
  | O => Diverge
  | S fuel =>
      let! st := refill st in
      if (decode_buf_len st <? 3)%nat then Err fmt
      else
        let rest := take (decode_buf_len st) (decode_buf st) in
        let! '(target_delta_io_blocks, rest) := format_err fmt (leb128u_u64_decode rest) in
        let! '(journal_staging_copy_delta_io_blocks, rest) := format_err fmt (leb128s_i64_decode rest) in
        let! '(io_blocks_count, rest) := format_err fmt (leb128u_u64_decode rest) in
        let! st := consume st (length rest) in
        if (target_delta_io_blocks =? 0) && (journal_staging_copy_delta_io_blocks =? 0) && (io_blocks_count =? 0)
        then Ok (script, total_consumed_src_len st)
        else if io_blocks_count =? 0 then Err ent
        else
          let! '(target_begin, target_end, staging_begin, staging_end) :=
            apply_writes_entry target_delta_io_blocks journal_staging_copy_delta_io_blocks io_blocks_count
              log2 s last_target_end last_staging_end in
          let! _ := try_reserve (length script) 1 in
          let! r := range_new target_begin target_end in
          apply_writes_decode_loop fuel st log2 s target_end staging_end (script ++ [mk_entry r staging_begin])
  end.

(** The script, and the source advanced past it.  A round consumes at least
    three bytes of the source. *)
Definition apply_writes_decode (src : SI) (io_block_allocation_blocks_log2 allocation_block_size_128b_log2 : Z)
    : res (list JournalApplyWritesScriptEntry * SI) :=
  let peeking_src := src in
  let! remaining_src_len := total_len src in
  let! '(script, total_consumed_src_len) :=
    apply_writes_decode_loop (S remaining_src_len) (mk_state (replicate 30 0) 0 peeking_src remaining_src_len 0)
      io_block_allocation_blocks_log2 allocation_block_size_128b_log2 0 0 [] in
  let! src := map_err_with skip_err (skip src total_consumed_src_len) in
  Ok (script, src).

(** The target range of an entry of the other two scripts, which differ in
    their entry error [ent]. *)
Definition pair_entry (ent : NvFsError) (target_delta_blocks blocks_count log2 s last_target_end : Z) : res (Z * Z) :=
  let! target_delta_allocation_blocks := unscale_u target_delta_blocks log2 ent in
  let! target_begin := ok_or (checked_add 64 last_target_end target_delta_allocation_blocks) ent in
  let! allocation_blocks_count := unscale_u blocks_count log2 ent in
  let! target_end := ok_or (checked_add 64 target_begin allocation_blocks_count) ent in
  let! limit := max_block_end s in
  if limit <? target_end then Err ent else Ok (target_begin, target_end).

(** The loop of [decode] of the other two scripts, which differ in their format
    error [fmt] and entry error [ent]. *)
Fixpoint pair_decode_loop (fmt ent : NvFsError) (fuel : nat) (st : DecodeState) (log2 s : Z)
    (last_target_end : Z) (script : list BlockRange) : res (list BlockRange * nat) :=
  match fuel with
  | O => Diverge
  | S fuel =>
      let! st := refill st in
      if (decode_buf_len st <? 2)%nat then Err fmt
      else
        let rest := take (decode_buf_len st) (decode_buf st) in
        let! '(target_delta_blocks, rest) := format_err fmt (leb128u_u64_decode rest) in
        let! '(blocks_count, rest) := format_err fmt (leb128u_u64_decode rest) in
        let! st := consume st (length rest) in
        if (target_delta_blocks =? 0) && (blocks_count =? 0)
        then Ok (script, total_consumed_src_len st)
        else if blocks_count =? 0 then Err ent
        else
          let! '(target_begin, target_end) := pair_entry ent target_delta_blocks blocks_count log2 s last_target_end in
          let! _ := try_reserve (length script) 1 in
          let! r := range_new target_begin target_end in
          pair_decode_loop fmt ent fuel st log2 s target_end (script ++ [r])
  end.
Definition pair_decode (fmt ent : NvFsError) (src : SI) (log2 s : Z) : res (list BlockRange * SI) :=
  let peeking_src := src in
  let! remaining_src_len := total_len src in
  let! '(script, total_consumed_src_len) :=
    pair_decode_loop fmt ent (S remaining_src_len) (mk_state (replicate 20 0) 0 peeking_src remaining_src_len 0)
      log2 s 0 [] in
  let! src := map_err_with skip_err (skip src total_consumed_src_len) in
  Ok (script, src).

Definition update_auth_digests_decode (src : SI)
    (auth_tree_data_blocks_allocation_blocks_log2 allocation_block_size_128b_log2 : Z) : res (list BlockRange * SI) :=
  pair_decode (from_format InvalidJournalUpdateAuthDigestsScriptFormat)
    (from_format InvalidJournalUpdateAuthDigestsScriptEntry) src
    auth_tree_data_blocks_allocation_blocks_log2 allocation_block_size_128b_log2.
Definition trims_decode (src : SI) (io_block_allocation_blocks_log2 allocation_block_size_128b_log2 : Z)
    : res (list BlockRange * SI) :=
  pair_decode (from_format InvalidJournalTrimsScriptFormat) (from_format InvalidJournalTrimsScriptEntry) src
    io_block_allocation_blocks_log2 allocation_block_size_128b_log2.
End Decode.

(** ** Lookup *)

Definition compare_entry (target_allocation_block_index : Z) (entry : JournalApplyWritesScriptEntry) : comparison :=
  match (rng_end (target_range entry) ?= target_allocation_block_index)%Z with
  | Lt | Eq => Lt
  | Gt =>
      match (rng_begin (target_range entry) ?= target_allocation_block_index)%Z with
      | Lt | Eq => Eq
      | Gt => Gt
      end
  end.
Definition lookup (self : list JournalApplyWritesScriptEntry) (target_allocation_block_index : Z) : nat + nat :=
  binary_search_by (compare_entry target_allocation_block_index) self.
Definition index {E} (self : list JournalApplyWritesScriptEntry) (index : nat) : outcome E JournalApplyWritesScriptEntry :=
  idx self index.

(** ** Numbers of an entry *)

Section Numbers.
Context {B : Build}.
Variable l : Z.
Hypothesis Hl : 0 ≤ l < 64.

Lemma unscale_u_spec v e : u64 v → unscale_u v l e = if v * 2 ^ l <? 2 ^ 64 then Ok (v * 2 ^ l) else Err e.
Proof.
  intros [??]. unfold unscale_u. ostep. rewrite Z.shiftl_mul_pow2, Z.shiftr_div_pow2 by lia.
  pose proof (pow2_pos l ltac:(lia)). destruct (Z.ltb_spec (v * 2 ^ l) (2 ^ 64)).
  - rewrite wrap_small by (unfold in_u; lia). rewrite Z.div_mul by lia. by zdec.
  - pose proof (wrap_in_u 64 (v * 2 ^ l) ltac:(done)) as [??].
    assert (wrap 64 (v * 2 ^ l) / 2 ^ l < v) by (apply Z.div_lt_upper_bound; lia). by zdec.
Qed.

Lemma unscale_i_spec v e :
  i64 v → unscale_i v l e = if bool_decide (i64 (v * 2 ^ l)) then Ok (v * 2 ^ l) else Err e.
Proof.
  intros [??]. unfold unscale_i. ostep. rewrite Z.shiftl_mul_pow2, Z.shiftr_div_pow2 by lia.
  pose proof (pow2_pos l ltac:(lia)). case_bool_decide as Hi.
  - rewrite swrap_small by done. rewrite Z.div_mul by lia. by zdec.
  - destruct (swrap_eq 64 (v * 2 ^ l) ltac:(done)) as [k Hk]. pose proof (swrap_in_i 64 (v * 2 ^ l) ltac:(done)).
    replace (2 ^ 64) with (2 ^ (64 - l) * 2 ^ l) in Hk by (rewrite <-Z.pow_add_r by lia; f_equal; lia).
    pose proof (pow2_pos (64 - l) ltac:(lia)). rewrite Z.mul_assoc, <-Z.mul_add_distr_r in Hk.
    rewrite Hk, Z.div_mul by lia. destruct (Z.eq_dec k 0) as [->|]; [|by zdec].
    destruct Hi. replace (v * 2 ^ l) with (swrap 64 (v * 2 ^ l)) by lia. done.
Qed.
End Numbers.

(** ** Valid scripts *)

(** A target range of a script for blocks of [2 ^ l] allocation blocks, after the
    end [lt] of the previous one; [57 - s] bits address all allocation blocks. *)
Definition target_ok (l s lt : Z) (r : BlockRange) : Prop :=
  lt ≤ rng_begin r < rng_end r ∧ rng_end r < 2 ^ (57 - s) ∧ aligned l r.
Definition entry_ok (l s lt : Z) (e : JournalApplyWritesScriptEntry) : Prop :=
  let sb := journal_staging_copy_allocation_blocks_begin e in
  target_ok l s lt (target_range e) ∧ 0 ≤ sb ∧ (2 ^ l | sb) ∧
  sb + (rng_end (target_range e) - rng_begin (target_range e)) < 2 ^ (57 - s).

Fixpoint ranges_ok (l s lt : Z) (rs : list BlockRange) : Prop :=
  match rs with [] => True | r :: rs => target_ok l s lt r ∧ ranges_ok l s (rng_end r) rs end.
Fixpoint script_ok (l s lt : Z) (es : list JournalApplyWritesScriptEntry) : Prop :=
  match es with
  | [] => True
  | e :: es => entry_ok l s lt e ∧ script_ok l s (rng_end (target_range e)) es
  end.

(** The end of the staging copy of an entry. *)
Definition stage_end (e : JournalApplyWritesScriptEntry) : Z :=
  journal_staging_copy_allocation_blocks_begin e + (rng_end (target_range e) - rng_begin (target_range e)).

(** A block index that deltas can be relative to. *)
Definition base_ok (l s x : Z) : Prop := 0 ≤ x < 2 ^ (57 - s) ∧ (2 ^ l | x).

Section EntryNumbers.
Context {B : Build}.
Variables l s : Z.
Hypothesis Hl : 0 ≤ l < 64.
Hypothesis Hs : 0 ≤ s < 57.

Lemma limit_le : 2 ^ (57 - s) ≤ 2 ^ 57.
Proof. apply Z.pow_le_mono_r; lia. Qed.

Lemma max_block_end_Ok : max_block_end s = Ok (2 ^ (57 - s) - 1).
Proof.
  unfold max_block_end. ostep. f_equal. rewrite Z.shiftr_div_pow2 by lia. change (unot 64 0) with (2 ^ 64 - 1).
  pose proof (pow2_pos (s + 7) ltac:(lia)). symmetry. apply Z.div_unique with (2 ^ (s + 7) - 1); [left; lia|].
  replace (2 ^ 64) with (2 ^ (s + 7) * 2 ^ (57 - s)) by (rewrite <-Z.pow_add_r by lia; f_equal; lia). lia.
Qed.

Lemma shiftr_exact x : (2 ^ l | x) → Z.shiftr x l * 2 ^ l = x.
Proof.
  intros [q ->]. rewrite Z.shiftr_div_pow2 by lia. pose proof (pow2_pos l ltac:(lia)). by rewrite Z.div_mul by lia.
Qed.

Lemma target_delta_Ok lt r :
  base_ok l s lt → target_ok l s lt r →
  ∃ td, target_delta r lt l = Ok td ∧ td * 2 ^ l = rng_begin r - lt ∧ u64 td.
Proof.
  intros [? Hd] (? & ? & [Hb _]). unfold target_delta, physical_sub. rewrite checked_sub_Some by lia. ostep.
  eexists. split; [done|]. pose proof limit_le.
  assert (Z.shiftr (rng_begin r - lt) l * 2 ^ l = rng_begin r - lt) as Hx
    by (apply shiftr_exact; by apply Z.divide_sub_r).
  split; [done|]. pose proof (pow2_pos l ltac:(lia)). unfold in_u. nia.
Qed.

Lemma scaled_block_count_Ok lt r :
  base_ok l s lt → target_ok l s lt r →
  ∃ n, scaled_block_count r l = Ok n ∧ n * 2 ^ l = rng_end r - rng_begin r ∧ u64 n ∧ n ≠ 0.
Proof.
  intros [? _] (? & ? & [Hb He]). unfold scaled_block_count. rewrite block_count_Ok by lia. ostep.
  eexists. split; [done|]. pose proof limit_le.
  assert (Z.shiftr (rng_end r - rng_begin r) l * 2 ^ l = rng_end r - rng_begin r) as Hx
    by (apply shiftr_exact; by apply Z.divide_sub_r).
  split; [done|]. pose proof (pow2_pos l ltac:(lia)). unfold in_u. nia.
Qed.

Lemma staging_delta_Ok lt ls e :
  base_ok l s ls → entry_ok l s lt e →
  ∃ sd, staging_delta e ls l = Ok sd ∧ i64 sd ∧ i64 (sd * 2 ^ l) ∧
    wrapping_add 64 ls (wrap 64 (sd * 2 ^ l)) = journal_staging_copy_allocation_blocks_begin e.
Proof.
  intros [? Hd] ((? & ? & _) & ? & Hsb & ?). unfold staging_delta. ostep. set (sb := journal_staging_copy_allocation_blocks_begin e) in *.
  eexists. split; [done|]. pose proof limit_le. pose proof (pow2_pos l ltac:(lia)).
  unfold wrapping_sub. rewrite swrap_wrap by done. set (d := swrap 64 (sb - ls)).
  assert (i64 d) as Hi by (apply swrap_in_i; done).
  assert (Z.shiftr d l * 2 ^ l = d) as Hx.
  { apply shiftr_exact. unfold d. destruct (swrap_eq 64 (sb - ls) ltac:(done)) as [k ->].
    apply Z.divide_add_r; [by apply Z.divide_sub_r|]. apply Z.divide_mul_r. exists (2 ^ (64 - l)).
    rewrite <-Z.pow_add_r by lia. f_equal. lia. }
  rewrite Hx. split; [destruct Hi; unfold in_i in *; nia|]. split; [done|].
  unfold d. rewrite wrap_swrap by done. apply wrapping_add_sub; [done|]. unfold in_u. lia.
Qed.

Lemma staging_end_Ok lt e : entry_ok l s lt e → staging_end e = Ok (stage_end e).
Proof.
  intros ((? & ? & _) & ? & _ & ?). pose proof limit_le. unfold staging_end, physical_add. rewrite block_count_Ok by lia. cbn [obind].
  by rewrite checked_add_Some by lia.
Qed.

Lemma target_ok_base lt r : base_ok l s lt → target_ok l s lt r → base_ok l s (rng_end r).
Proof. intros [? _] (? & ? & [_ He]). split; [lia|done]. Qed.
Lemma entry_ok_base lt e : entry_ok l s lt e → base_ok l s (stage_end e).
Proof.
  intros ((? & ? & [??]) & ? & Hsb & ?). unfold stage_end. split; [lia|].
  apply Z.divide_add_r; [done|]. by apply Z.divide_sub_r.
Qed.

(** An entry is computed from its three numbers. *)
Lemma apply_writes_entry_Ok lt ls e td sd n :
  base_ok l s lt → base_ok l s ls → entry_ok l s lt e →
  u64 td → td * 2 ^ l = rng_begin (target_range e) - lt →
  i64 sd → i64 (sd * 2 ^ l) → wrapping_add 64 ls (wrap 64 (sd * 2 ^ l)) = journal_staging_copy_allocation_blocks_begin e →
  u64 n → n * 2 ^ l = rng_end (target_range e) - rng_begin (target_range e) →
  apply_writes_entry td sd n l s lt ls =
    Ok (rng_begin (target_range e), rng_end (target_range e), journal_staging_copy_allocation_blocks_begin e, stage_end e).
Proof.
  intros [? _] [? _] ((? & ? & _) & ? & _ & ?) ? Htd ? ? Hsd ? Hn. pose proof limit_le. unfold apply_writes_entry.
  rewrite unscale_u_spec by done. rewrite Htd. zdec. cbn [obind]. rewrite checked_add_Some by lia. cbn [ok_or obind].
  rewrite unscale_i_spec by done. rewrite bool_decide_true by done. cbn [obind]. rewrite Hsd.
  rewrite unscale_u_spec by done. rewrite Hn. zdec. cbn [obind]. rewrite checked_add_Some by lia. cbn [ok_or obind].
  rewrite max_block_end_Ok. cbn [obind]. zdec. rewrite checked_add_Some by lia. cbn [ok_or obind]. zdec.
  repeat f_equal; lia.
Qed.

Lemma pair_entry_Ok ent lt r td n :
  base_ok l s lt → target_ok l s lt r →
  u64 td → td * 2 ^ l = rng_begin r - lt → u64 n → n * 2 ^ l = rng_end r - rng_begin r →
  pair_entry ent td n l s lt = Ok (rng_begin r, rng_end r).
Proof.
  intros [? _] (? & ? & _) ? Htd ? Hn. pose proof limit_le. unfold pair_entry.
  rewrite unscale_u_spec by done. rewrite Htd. zdec. cbn [obind]. rewrite checked_add_Some by lia. cbn [ok_or obind].
  rewrite unscale_u_spec by done. rewrite Hn. zdec. cbn [obind]. rewrite checked_add_Some by lia. cbn [ok_or obind].
  rewrite max_block_end_Ok. cbn [obind]. zdec. repeat f_equal; lia.
Qed.
Lemma divide_wrap x : (2 ^ l | x) → (2 ^ l | wrap 64 x).
Proof.
  intros. destruct (wrap_eq 64 x ltac:(done)) as [k ->]. apply Z.divide_add_r; [done|]. apply Z.divide_mul_r.
  exists (2 ^ (64 - l)). rewrite <-Z.pow_add_r by lia. f_equal. lia.
Qed.

(** What an entry is, when its three numbers are arbitrary. *)
Lemma apply_writes_entry_inv lt ls td sd n :
  base_ok l s lt → base_ok l s ls → u64 td → i64 sd → u64 n → n ≠ 0 →
  match apply_writes_entry td sd n l s lt ls with
  | Ok (tb, te, sb, se) => let e := mk_entry (mk_range tb te) sb in entry_ok l s lt e ∧ se = stage_end e
  | Err e => e = from_format InvalidJournalApplyWritesScriptFormat ∨ e = from_format InvalidJournalApplyWritesScriptEntry
  | _ => False
  end.
Proof.
  intros [? Hdt] [? Hds] Htd Hsd Hn Hn0. pose proof limit_le. unfold apply_writes_entry.
  destruct Htd as [Htd Htd']. destruct Hn as [Hn Hn']. pose proof (pow2_pos l ltac:(lia)).
  rewrite unscale_u_spec by (unfold in_u; lia). destruct (Z.ltb_spec (td * 2 ^ l) (2 ^ 64)); cbn [obind]; [|by left].
  unfold checked_add at 1. zcase; cbn [ok_or obind]; [|by right].
  rewrite unscale_i_spec by done. case_bool_decide; cbn [obind]; [|by left].
  rewrite unscale_u_spec by (unfold in_u; lia). destruct (Z.ltb_spec (n * 2 ^ l) (2 ^ 64)); cbn [obind]; [|by left].
  unfold checked_add at 1. zcase; cbn [ok_or obind]; [|by right].
  rewrite max_block_end_Ok. cbn [obind]. zcase; [by left|].
  unfold wrapping_add, checked_add. set (sb := wrap 64 (ls + wrap 64 (sd * 2 ^ l))).
  assert (u64 sb) as [??] by (apply wrap_in_u; done).
  zcase; cbn [ok_or obind]; [|by right]. zcase; [by left|].
  assert (0 ≤ td * 2 ^ l ∧ 0 < n * 2 ^ l) as [??] by (split; [apply Z.mul_nonneg_nonneg|apply Z.mul_pos_pos]; lia).
  assert ((2 ^ l | td * 2 ^ l)) by (by exists td). assert ((2 ^ l | n * 2 ^ l)) by (by exists n).
  unfold entry_ok, target_ok, stage_end, aligned. cbn [target_range journal_staging_copy_allocation_blocks_begin rng_begin rng_end].
  split_and!; try lia; try (by repeat apply Z.divide_add_r).
  unfold sb. apply divide_wrap, Z.divide_add_r; [done|]. apply divide_wrap. by exists sd.
Qed.

Lemma pair_entry_inv ent lt td n :
  base_ok l s lt → u64 td → u64 n → n ≠ 0 →
  match pair_entry ent td n l s lt with
  | Ok (tb, te) => target_ok l s lt (mk_range tb te)
  | Err e => e = ent
  | _ => False
  end.
Proof.
  intros [? Hdt] [Htd Htd'] [Hn Hn'] Hn0. pose proof limit_le. unfold pair_entry. pose proof (pow2_pos l ltac:(lia)).
  rewrite unscale_u_spec by (unfold in_u; lia). destruct (Z.ltb_spec (td * 2 ^ l) (2 ^ 64)); cbn [obind]; [|done].
  unfold checked_add at 1. zcase; cbn [ok_or obind]; [|done].
  rewrite unscale_u_spec by (unfold in_u; lia). destruct (Z.ltb_spec (n * 2 ^ l) (2 ^ 64)); cbn [obind]; [|done].
  unfold checked_add at 1. zcase; cbn [ok_or obind]; [|done].
  rewrite max_block_end_Ok. cbn [obind]. zcase; [done|].
  assert (0 ≤ td * 2 ^ l ∧ 0 < n * 2 ^ l) as [??] by (split; [apply Z.mul_nonneg_nonneg|apply Z.mul_pos_pos]; lia).
  assert ((2 ^ l | td * 2 ^ l)) by (by exists td). assert ((2 ^ l | n * 2 ^ l)) by (by exists n).
  unfold target_ok, aligned. cbn [rng_begin rng_end]. split_and!; try lia; by repeat apply Z.divide_add_r.
Qed.
End EntryNumbers.

(** ** The encoders *)

(** The encodings of the numbers of a script, with the terminating zeros. *)
Fixpoint writes_bytes (l lt ls : Z) (es : list JournalApplyWritesScriptEntry) (bs : list Z) : Prop :=
  match es with
  | [] => bs = [0; 0; 0]
  | e :: es =>
      ∃ td sd n w1 w2 w3 ws,
        bs = w1 ++ w2 ++ w3 ++ ws ∧
        (encodes_u td w1 ∧ (length w1 ≤ 10)%nat ∧ u64 td ∧ td * 2 ^ l = rng_begin (target_range e) - lt) ∧
        (encodes_s sd w2 ∧ (length w2 ≤ 10)%nat ∧ i64 sd ∧ i64 (sd * 2 ^ l) ∧
          wrapping_add 64 ls (wrap 64 (sd * 2 ^ l)) = journal_staging_copy_allocation_blocks_begin e) ∧
        (encodes_u n w3 ∧ (length w3 ≤ 10)%nat ∧ u64 n ∧ n ≠ 0 ∧
          n * 2 ^ l = rng_end (target_range e) - rng_begin (target_range e)) ∧
        writes_bytes l (rng_end (target_range e)) (stage_end e) es ws
  end.
Fixpoint pair_bytes (l lt : Z) (rs : list BlockRange) (bs : list Z) : Prop :=
  match rs with
  | [] => bs = [0; 0]
  | r :: rs =>
      ∃ td n w1 w2 ws,
        bs = w1 ++ w2 ++ ws ∧
        (encodes_u td w1 ∧ (length w1 ≤ 10)%nat ∧ u64 td ∧ td * 2 ^ l = rng_begin r - lt) ∧
        (encodes_u n w2 ∧ (length w2 ≤ 10)%nat ∧ u64 n ∧ n ≠ 0 ∧ n * 2 ^ l = rng_end r - rng_begin r) ∧
        pair_bytes l (rng_end r) rs ws
  end.

Section EncodeSpec.
Context {B : Build}.

Lemma encode_u_step {E} v :
  u64 v → ∃ n, leb128u_u64_encoded_len (E:=E) v = Ok n ∧ (1 ≤ n ≤ 10)%nat ∧
    ∀ dst, (n ≤ length dst)%nat →
      ∃ bs, leb128u_u64_encode (E:=E) dst v = Ok (bs, drop n dst) ∧ length bs = n ∧ encodes_u v bs.
Proof.
  intros Hv. destruct (leb128u_u64_encode_spec (E:=E) [] v Hv) as (n & Hn & ? & _). exists n. split_and!; try done; [lia..|].
  intros dst ?. destruct (leb128u_u64_encode_spec (E:=E) dst v Hv) as (n' & Hn' & _ & Hd).
  assert (n' = n) as -> by congruence. by rewrite (proj2 (Nat.leb_le n (length dst))) in Hd by lia.
Qed.
Lemma encode_s_step {E} v :
  i64 v → ∃ n, leb128s_i64_encoded_len (E:=E) v = Ok n ∧ (1 ≤ n ≤ 10)%nat ∧
    ∀ dst, (n ≤ length dst)%nat →
      ∃ bs, leb128s_i64_encode (E:=E) dst v = Ok (bs, drop n dst) ∧ length bs = n ∧ encodes_s v bs.
Proof.
  intros Hv. destruct (leb128s_i64_encode_spec (E:=E) [] v Hv) as (n & Hn & ? & _). exists n. split_and!; try done; [lia..|].
  intros dst ?. destruct (leb128s_i64_encode_spec (E:=E) dst v Hv) as (n' & Hn' & _ & Hd).
  assert (n' = n) as -> by congruence. by rewrite (proj2 (Nat.leb_le n (length dst))) in Hd by lia.
Qed.

Lemma usize_checked_add_Some a b : (Z.of_nat (a + b) < 2 ^ 64) → usize_checked_add a b = Some (a + b)%nat.
Proof. intros. unfold usize_checked_add. by zdec. Qed.

Variables l s : Z.
Hypothesis Hl : 0 ≤ l < 64.
Hypothesis Hs : 0 ≤ s < 57.

Lemma apply_writes_encode_loop_spec es lt ls :
  base_ok l s lt → base_ok l s ls → script_ok l s lt es →
  ∃ n, (n ≤ 30 * length es + 3)%nat ∧
    (∀ k, Z.of_nat (k + n) < 2 ^ 64 →
       apply_writes_encoded_len_loop (Ok <$> es) l k lt ls = Ok (k + n)%nat) ∧
    ∀ buf, (n ≤ length buf)%nat →
      ∃ bs, apply_writes_encode_loop buf (Ok <$> es) l lt ls = Ok (bs, drop n buf) ∧
        length bs = n ∧ writes_bytes l lt ls es bs.
Proof.
  revert lt ls. induction es as [|e es IH]; intros lt ls Hlt Hls.
  - intros _. exists 3%nat. split; [lia|]. cbn [fmap list_fmap apply_writes_encoded_len_loop apply_writes_encode_loop]. split.
    + intros k ?. by rewrite usize_checked_add_Some.
    + intros buf ?. zdec. by exists [0; 0; 0].
  - intros [He Hes]. destruct (target_delta_Ok l s Hl Hs lt (target_range e) Hlt (proj1 He)) as (td & Htd & Htd' & Htdu).
    destruct (staging_delta_Ok l s Hl Hs lt ls e Hls He) as (sd & Hsd & Hsdi & Hsdi' & Hsd').
    destruct (scaled_block_count_Ok l s Hl Hs lt (target_range e) Hlt (proj1 He)) as (bc & Hbc & Hbc' & Hbcu & Hbc0).
    destruct (encode_u_step (E:=NvFsError) td Htdu) as (n1 & Hn1 & ? & Henc1).
    destruct (encode_s_step (E:=NvFsError) sd Hsdi) as (n2 & Hn2 & ? & Henc2).
    destruct (encode_u_step (E:=NvFsError) bc Hbcu) as (n3 & Hn3 & ? & Henc3).
    destruct (IH (rng_end (target_range e)) (stage_end e)) as (n & ? & Hlen & Henc);
      [by eapply target_ok_base, He|by eapply entry_ok_base|done|].
    exists (n1 + n2 + n3 + n)%nat. split; [cbn [length]; lia|].
    cbn [fmap list_fmap apply_writes_encoded_len_loop apply_writes_encode_loop obind]. split.
    + intros k ?. rewrite Htd, Hsd, Hbc. cbn [obind]. rewrite Hn1, Hn2, Hn3. cbn [obind].
      rewrite usize_checked_add_Some by lia. cbn [ok_or obind]. rewrite (staging_end_Ok l s Hs lt e He). cbn [obind].
      fold (Ok (E:=NvFsError) <$> es). rewrite Hlen by lia. f_equal. lia.
    + intros buf ?. rewrite Htd, Hsd, Hbc. cbn [obind].
      destruct (Henc1 buf) as (w1 & -> & ? & ?); [lia|]. cbn [obind].
      destruct (Henc2 (drop n1 buf)) as (w2 & -> & ? & ?); [rewrite length_drop; lia|]. cbn [obind].
      rewrite drop_drop. destruct (Henc3 (drop (n1 + n2) buf)) as (w3 & -> & ? & ?); [rewrite length_drop; lia|]. cbn [obind].
      rewrite drop_drop, (staging_end_Ok l s Hs lt e He). cbn [obind].
      fold (Ok (E:=NvFsError) <$> es). destruct (Henc (drop (n1 + n2 + n3) buf)) as (ws & Hws & ? & ?); [rewrite length_drop; lia|].
      rewrite Hws. cbn [obind]. rewrite drop_drop. eexists. split; [done|].
      split; [rewrite !length_app; lia|]. exists td, sd, bc, w1, w2, w3, ws. split_and!; try done; lia.
Qed.

Lemma pair_encode_loop_spec rs lt :
  base_ok l s lt → ranges_ok l s lt rs →
  ∃ n, (n ≤ 20 * length rs + 2)%nat ∧
    (∀ k, Z.of_nat (k + n) < 2 ^ 64 → pair_encoded_len_loop (Ok <$> rs) l k lt = Ok (k + n)%nat) ∧
    ∀ buf, (n ≤ length buf)%nat →
      ∃ bs, pair_encode_loop buf (Ok <$> rs) l lt = Ok (bs, drop n buf) ∧ length bs = n ∧ pair_bytes l lt rs bs.
Proof.
  revert lt. induction rs as [|r rs IH]; intros lt Hlt.
  - intros _. exists 2%nat. split; [lia|]. cbn [fmap list_fmap pair_encoded_len_loop pair_encode_loop]. split.
    + intros k ?. by rewrite usize_checked_add_Some.
    + intros buf ?. zdec. by exists [0; 0].
  - intros [Hr Hrs]. destruct (target_delta_Ok l s Hl Hs lt r Hlt Hr) as (td & Htd & Htd' & Htdu).
    destruct (scaled_block_count_Ok l s Hl Hs lt r Hlt Hr) as (bc & Hbc & Hbc' & Hbcu & Hbc0).
    destruct (encode_u_step (E:=NvFsError) td Htdu) as (n1 & Hn1 & ? & Henc1).
    destruct (encode_u_step (E:=NvFsError) bc Hbcu) as (n2 & Hn2 & ? & Henc2).
    destruct (IH (rng_end r)) as (n & ? & Hlen & Henc); [by eapply target_ok_base|done|].
    exists (n1 + n2 + n)%nat. split; [cbn [length]; lia|].
    cbn [fmap list_fmap pair_encoded_len_loop pair_encode_loop obind]. split.
    + intros k ?. rewrite Htd, Hbc. cbn [obind]. rewrite Hn1, Hn2. cbn [obind].
      rewrite usize_checked_add_Some by lia. cbn [ok_or obind].
      fold (Ok (E:=NvFsError) <$> rs). rewrite Hlen by lia. f_equal. lia.
    + intros buf ?. rewrite Htd, Hbc. cbn [obind].
      destruct (Henc1 buf) as (w1 & -> & ? & ?); [lia|]. cbn [obind].
      destruct (Henc2 (drop n1 buf)) as (w2 & -> & ? & ?); [rewrite length_drop; lia|]. cbn [obind].
      fold (Ok (E:=NvFsError) <$> rs). rewrite drop_drop. destruct (Henc (drop (n1 + n2) buf)) as (ws & Hws & ? & ?); [rewrite length_drop; lia|].
      rewrite Hws. cbn [obind]. rewrite drop_drop. eexists. split; [done|].
      split; [rewrite !length_app; lia|]. exists td, bc, w1, w2, ws. split_and!; try done; lia.
Qed.
End EncodeSpec.

(** ** The decoders *)

Section DecodeSpec.
Context {B : Build} {Alloc : Allocator} {SI : Type} `{HI : IoSlicesIter SI NvFsError} {HL : IoSlicesIterLaws SI NvFsError}.
Implicit Types st : DecodeState (SI:=SI).

(** The buffer and the source hold the bytes [data] that are still to decode. *)
Definition st_ok (N : nat) st (data : list Z) : Prop :=
  length (decode_buf st) = N ∧ (decode_buf_len st ≤ N)%nat ∧ valid (peeking_src st) ∧
  remaining_src_len st = length (content (peeking_src st)) ∧
  data = take (decode_buf_len st) (decode_buf st) ++ content (peeking_src st).

Lemma refill_spec N st data :
  st_ok N st data →
  ∃ st', refill st = Ok st' ∧ st_ok N st' data ∧ total_consumed_src_len st' = total_consumed_src_len st ∧
    decode_buf_len st' = Nat.min N (length data) ∧ take (decode_buf_len st') (decode_buf st') = take N data.
Proof.
  destruct st as [buf len src remaining total].
  intros (HN & Hlen & Hsrc & Hrem & Hdata). cbn [decode_buf decode_buf_len peeking_src remaining_src_len] in *.
  unfold refill. rewrite debug_check_true by (rewrite total_len_spec by done; cbn [obind]; by rewrite Hrem, Nat.eqb_refl).
  cbn [obind]. rewrite nsub_Ok by lia. cbn [obind]. rewrite HN. set (k := Nat.min (N - len) remaining) in *.
  rewrite (proj2 (Nat.ltb_ge N (len + k))) by lia. set (dst := singleton_new (take k (drop len buf))).
  assert (content (E:=NvFsError) dst = take k (drop len buf)) as Hdst by done.
  assert (length (take k (drop len buf)) = k) as Hk by (rewrite length_take, length_drop; lia).
  destruct (copy_from_iter_spec (S k) dst src) as (d' & s' & -> & _ & ? & _ & Hs'); [done|done|rewrite Hdst, Hk; lia|].
  rewrite Hdst, Hk in *. replace (Nat.min k (length (content src))) with k in * by lia. cbn [obind].
  assert (length (take k (content src)) = k) as Hk' by (rewrite length_take; lia).
  rewrite Hk', nsub_Ok by lia. cbn [obind]. eexists. split; [done|].
  assert (length (take len buf) = len) as Htl by (rewrite length_take; lia).
  assert (take (len + k) (take len buf ++ take k (content src) ++ drop (len + k) buf) = take len buf ++ take k (content src)) as Htake.
  { rewrite app_assoc. rewrite <-Htl at 1. rewrite <-Hk' at 1. rewrite <-length_app. apply take_app_length. }
  assert (length data = len + remaining)%nat as Hld by (rewrite Hdata, length_app, Htl; lia).
  split; [unfold st_ok; cbn [decode_buf decode_buf_len peeking_src remaining_src_len]; split_and!|split_and!]; try done.
  - rewrite !length_app, Htl, Hk', length_drop. lia.
  - lia.
  - rewrite Hs', length_drop. lia.
  - by rewrite Htake, Hs', <-app_assoc, take_drop.
  - cbn [decode_buf_len]. lia.
  - cbn [decode_buf decode_buf_len]. rewrite Htake, Hdata, take_app, Htl, take_take.
    rewrite (Nat.min_r N len) by lia. f_equal. destruct (Nat.le_gt_cases (N - len) remaining).
    + by replace k with (N - len)%nat by lia.
    + rewrite !take_ge by lia. done.
Qed.

Lemma consume_spec N st data p rest :
  st_ok N st data → take (decode_buf_len st) (decode_buf st) = p ++ rest →
  ∃ st', consume st (length rest) = Ok st' ∧ st_ok N st' (drop (length p) data) ∧
    total_consumed_src_len st' = (total_consumed_src_len st + length p)%nat.
Proof.
  destruct st as [buf len src remaining total].
  intros (HN & Hlen & Hsrc & Hrem & Hdata) Hp.
  cbn [decode_buf decode_buf_len peeking_src remaining_src_len total_consumed_src_len] in *.
  assert (len = length p + length rest)%nat as Hpl by (rewrite <-length_app, <-Hp, length_take; lia).
  unfold consume. rewrite nsub_Ok by lia. cbn [obind]. replace (len - length rest)%nat with (length p) by lia.
  rewrite nsub_Ok by lia. cbn [obind]. replace (len - length p)%nat with (length rest) by lia.
  rewrite (proj2 (Nat.ltb_ge _ _)) by lia. eexists. split; [done|]. split; [|done].
  unfold st_ok. cbn [decode_buf decode_buf_len peeking_src remaining_src_len].
  assert (take (length rest) (drop (length p) buf) = rest) as Hr.
  { assert (drop (length p) (take len buf) = rest) as Hd by (by rewrite Hp, drop_app_length).
    rewrite <-Hd at 2. rewrite skipn_firstn_comm. f_equal. lia. }
  rewrite Hr. split_and!; try done; [rewrite length_app, length_drop; lia|lia|].
  rewrite Hdata, Hp, take_app_length, drop_app_le, drop_app_length by (rewrite length_app; lia). done.
Qed.

End DecodeSpec.

(** *** Decoding what was encoded *)

Lemma encodes_u_nonempty v bs : encodes_u v bs → (1 ≤ length bs)%nat.
Proof. intros (_ & Hs & _). destruct bs; [done|cbn; lia]. Qed.
Lemma encodes_s_nonempty v bs : encodes_s v bs → (1 ≤ length bs)%nat.
Proof. intros (_ & Hs & _). destruct bs; [done|cbn; lia]. Qed.

Lemma writes_bytes_u8 l lt ls es bs : writes_bytes l lt ls es bs → Forall u8 bs.
Proof.
  revert lt ls bs. induction es as [|e es IH]; intros lt ls bs; cbn [writes_bytes]; [intros ->; by repeat constructor|].
  intros (td & sd & n & w1 & w2 & w3 & ws & -> & ((? & _) & _) & ((? & _) & _) & ((? & _) & _) & Hws).
  rewrite !Forall_app. eauto.
Qed.
Lemma pair_bytes_u8 l lt rs bs : pair_bytes l lt rs bs → Forall u8 bs.
Proof.
  revert lt bs. induction rs as [|r rs IH]; intros lt bs; cbn [pair_bytes]; [intros ->; by repeat constructor|].
  intros (td & n & w1 & w2 & ws & -> & ((? & _) & _) & ((? & _) & _) & Hws). rewrite !Forall_app. eauto.
Qed.

(** The round that reads [p], when the buffer is large enough for it. *)
Lemma take_through (N : nat) (p q : list Z) : (length p ≤ N)%nat → take N (p ++ q) = p ++ take (N - length p) q.
Proof. intros. rewrite take_app, take_ge by done. done. Qed.

Section DecodeEncoded.
Context {B : Build} {Alloc : Allocator} {SI : Type} `{HI : IoSlicesIter SI NvFsError} {HL : IoSlicesIterLaws SI NvFsError}.
Implicit Types st : DecodeState (SI:=SI).
Variables l s : Z.
Hypothesis Hl : 0 ≤ l < 64.
Hypothesis Hs : 0 ≤ s < 57.
Hypothesis Halloc : ∀ n, alloc_ok n 1 = true.

Lemma decode_zero_u rest : Forall u8 rest → leb128u_u64_decode (0 :: rest) = Ok (0, rest).
Proof. intros. apply (decode_encodes_u 0 [0]); [done|by repeat constructor|done]. Qed.
Lemma decode_zero_s rest : Forall u8 rest → leb128s_i64_decode (0 :: rest) = Ok (0, rest).
Proof. intros. apply (decode_encodes_s 0 [0]); [done|by repeat constructor|done]. Qed.

Lemma apply_writes_decode_loop_encoded es fuel st lt ls script bs rest :
  base_ok l s lt → base_ok l s ls → script_ok l s lt es → writes_bytes l lt ls es bs → Forall u8 rest →
  st_ok 30 st (bs ++ rest) → (length es < fuel)%nat →
  apply_writes_decode_loop fuel st l s lt ls script = Ok (script ++ es, total_consumed_src_len st + length bs)%nat.
Proof.
  revert fuel st lt ls script bs. induction es as [|e es IH]; intros fuel st lt ls script bs Hlt Hls Hes Hbs Hrest Hst Hfuel;
    (destruct fuel as [|fuel]; [lia|]); cbn [apply_writes_decode_loop];
    destruct (refill_spec 30 st _ Hst) as (st1 & -> & Hst1 & Htot & Hlen & Hpend); cbn [obind]; rewrite Hpend.
  - cbn [writes_bytes] in Hbs. subst bs. rewrite Hlen, length_app. cbn [length]. zdec.
    assert (Forall u8 (take 27 rest)) by by apply Forall_take. unfold format_err. cbn [app take].
    rewrite decode_zero_u by by repeat constructor. cbn [map_err obind].
    rewrite decode_zero_s by by repeat constructor. cbn [map_err obind].
    rewrite decode_zero_u by done. cbn [map_err obind].
    destruct (consume_spec 30 st1 _ [0; 0; 0] (take 27 rest) Hst1 Hpend) as (st2 & -> & _ & Htot2). cbn [obind Z.eqb andb].
    by rewrite Htot2, Htot, app_nil_r.
  - destruct Hbs as (td & sd & n & w1 & w2 & w3 & ws & -> & (Hw1 & ? & ? & Htd) & (Hw2 & ? & ? & ? & Hsd) & (Hw3 & ? & ? & ? & Hn) & Hws).
    destruct Hes as [He Hes]. pose proof (encodes_u_nonempty _ _ Hw1). pose proof (encodes_s_nonempty _ _ Hw2).
    pose proof (encodes_u_nonempty _ _ Hw3). pose proof (writes_bytes_u8 _ _ _ _ _ Hws).
    rewrite Hlen, !length_app. zdec.
    replace ((w1 ++ w2 ++ w3 ++ ws) ++ rest) with ((w1 ++ w2 ++ w3) ++ ws ++ rest) in * by by rewrite <-!app_assoc.
    rewrite take_through in * by (rewrite !length_app; lia). set (X := take _ (ws ++ rest)) in *.
    assert (Forall u8 X) by (apply Forall_take, Forall_app; done). destruct Hw1 as [Hu1 Hw1'], Hw2 as [Hu2 Hw2'], Hw3 as [Hu3 Hw3'].
    unfold format_err. rewrite <-!app_assoc in Hpend |- *.
    rewrite (decode_encodes_u td) by (done || by rewrite !Forall_app). cbn [map_err obind].
    rewrite (decode_encodes_s sd) by (done || by rewrite !Forall_app). cbn [map_err obind].
    rewrite (decode_encodes_u n) by (done || by rewrite !Forall_app). cbn [map_err obind].
    replace (w1 ++ w2 ++ w3 ++ X) with ((w1 ++ w2 ++ w3) ++ X) in Hpend by by rewrite <-!app_assoc.
    destruct (consume_spec 30 st1 _ (w1 ++ w2 ++ w3) X Hst1 Hpend) as (st2 & -> & Hst2 & Htot2). cbn [obind].
    rewrite drop_app_length in Hst2. rewrite (proj2 (Z.eqb_neq n 0)), andb_false_r by done.
    rewrite (apply_writes_entry_Ok l s Hl Hs lt ls e) by done. cbn [obind]. unfold try_reserve. rewrite Halloc. cbn [obind].
    destruct (proj1 He) as (? & _). rewrite range_new_Ok by lia. cbn [obind].
    replace (mk_entry (mk_range _ _) _) with e by (by destruct e as [[? ?] ?]).
    rewrite (IH _ _ _ _ _ ws); [|by eapply target_ok_base, He|by eapply entry_ok_base|done|done|done|done|cbn in *; lia].
    rewrite Htot2, Htot, <-app_assoc, !length_app. do 2 f_equal. lia.
Qed.

Lemma pair_decode_loop_encoded fmt ent rs fuel st lt script bs rest :
  base_ok l s lt → ranges_ok l s lt rs → pair_bytes l lt rs bs → Forall u8 rest →
  st_ok 20 st (bs ++ rest) → (length rs < fuel)%nat →
  pair_decode_loop fmt ent fuel st l s lt script = Ok (script ++ rs, total_consumed_src_len st + length bs)%nat.
Proof.
  revert fuel st lt script bs. induction rs as [|r rs IH]; intros fuel st lt script bs Hlt Hrs Hbs Hrest Hst Hfuel;
    (destruct fuel as [|fuel]; [lia|]); cbn [pair_decode_loop];
    destruct (refill_spec 20 st _ Hst) as (st1 & -> & Hst1 & Htot & Hlen & Hpend); cbn [obind]; rewrite Hpend.
  - cbn [pair_bytes] in Hbs. subst bs. rewrite Hlen, length_app. cbn [length]. zdec.
    assert (Forall u8 (take 18 rest)) by by apply Forall_take. unfold format_err. cbn [app take].
    rewrite decode_zero_u by by repeat constructor. cbn [map_err obind].
    rewrite decode_zero_u by done. cbn [map_err obind].
    destruct (consume_spec 20 st1 _ [0; 0] (take 18 rest) Hst1 Hpend) as (st2 & -> & _ & Htot2). cbn [obind Z.eqb andb].
    by rewrite Htot2, Htot, app_nil_r.
  - destruct Hbs as (td & n & w1 & w2 & ws & -> & (Hw1 & ? & ? & Htd) & (Hw2 & ? & ? & ? & Hn) & Hws).
    destruct Hrs as [Hr Hrs]. pose proof (encodes_u_nonempty _ _ Hw1). pose proof (encodes_u_nonempty _ _ Hw2).
    pose proof (pair_bytes_u8 _ _ _ _ Hws). rewrite Hlen, !length_app. zdec.
    replace ((w1 ++ w2 ++ ws) ++ rest) with ((w1 ++ w2) ++ ws ++ rest) in * by by rewrite <-!app_assoc.
    rewrite take_through in * by (rewrite !length_app; lia). set (X := take _ (ws ++ rest)) in *.
    assert (Forall u8 X) by (apply Forall_take, Forall_app; done). destruct Hw1 as [Hu1 Hw1'], Hw2 as [Hu2 Hw2'].
    unfold format_err. rewrite <-!app_assoc in Hpend |- *.
    rewrite (decode_encodes_u td) by (done || by rewrite !Forall_app). cbn [map_err obind].
    rewrite (decode_encodes_u n) by (done || by rewrite !Forall_app). cbn [map_err obind].
    replace (w1 ++ w2 ++ X) with ((w1 ++ w2) ++ X) in Hpend by by rewrite <-!app_assoc.
    destruct (consume_spec 20 st1 _ (w1 ++ w2) X Hst1 Hpend) as (st2 & -> & Hst2 & Htot2). cbn [obind].
    rewrite drop_app_length in Hst2. rewrite (proj2 (Z.eqb_neq n 0)), andb_false_r by done.
    rewrite (pair_entry_Ok l s Hl Hs ent lt r) by done. cbn [obind]. unfold try_reserve. rewrite Halloc. cbn [obind].
    destruct Hr as (? & ? & Ha). rewrite range_new_Ok by lia. cbn [obind]. replace (mk_range _ _) with r by (by destruct r).
    rewrite (IH _ _ _ _ ws); [|by eapply target_ok_base|done|done|done|done|cbn in *; lia].
    rewrite Htot2, Htot, <-app_assoc, !length_app. do 2 f_equal. lia.
Qed.
End DecodeEncoded.

(** *** Decoding arbitrary bytes *)

Section DecodeAny.
Context {B : Build} {Alloc : Allocator} {SI : Type} `{HI : IoSlicesIter SI NvFsError} {HL : IoSlicesIterLaws SI NvFsError}.
Implicit Types st : DecodeState (SI:=SI).
Variables l s : Z.
Hypothesis Hl : 0 ≤ l < 64.
Hypothesis Hs : 0 ≤ s < 57.

(** One number from the buffer: the error, or a value and the rest. *)
Lemma decode_u_cases err src :
  Forall u8 src →
  format_err err (leb128u_u64_decode src) = Err err ∨
  ∃ v p rest, format_err err (leb128u_u64_decode src) = Ok (v, rest) ∧ u64 v ∧ src = p ++ rest ∧ p ≠ [] ∧ Forall u8 rest.
Proof.
  intros Hsrc. destruct (decode_u_total src Hsrc) as [[[v rest] Hd]|[e ->]]; [right|by left]. rewrite Hd.
  destruct (decode_u_inv src v rest Hsrc Hd) as (? & p & -> & ?). apply Forall_app in Hsrc as [_ ?]. exists v, p, rest. done.
Qed.
Lemma decode_s_cases err src :
  Forall u8 src →
  format_err err (leb128s_i64_decode src) = Err err ∨
  ∃ v p rest, format_err err (leb128s_i64_decode src) = Ok (v, rest) ∧ i64 v ∧ src = p ++ rest ∧ p ≠ [] ∧ Forall u8 rest.
Proof.
  intros Hsrc. destruct (decode_s_total src Hsrc) as [[[v rest] Hd]|[e ->]]; [right|by left]. rewrite Hd.
  destruct (decode_s_inv src v rest Hsrc Hd) as (? & p & -> & ?). apply Forall_app in Hsrc as [_ ?]. exists v, p, rest. done.
Qed.

(** What the loop of a decoder may end with, after it was started with
    [script] and [total] on [data]. *)
Definition loop_answer {A} (ok : list A → Prop) (fmt ent : NvFsError) (data : list Z) (script : list A) (total : nat)
    (r : res (list A * nat)) : Prop :=
  match r with
  | Ok (script', total') => ∃ es p rest, script' = script ++ es ∧ ok es ∧ data = p ++ rest ∧ total' = (total + length p)%nat
  | Err e => e = fmt ∨ e = ent ∨ e = MemoryAllocationFailure
  | _ => False
  end.

(** The rest of the loop, after the round that read [x] and [n] bytes. *)
Lemma loop_answer_cons {A} (ok ok' : list A → Prop) fmt ent data script total r x n :
  (∀ es, ok' es → ok (x :: es)) → (n ≤ length data)%nat →
  loop_answer ok' fmt ent (drop n data) (script ++ [x]) (total + n) r → loop_answer ok fmt ent data script total r.
Proof.
  intros Hok ?. destruct r as [[script' total']| | |]; cbn [loop_answer]; try done.
  intros (es & p & rest & -> & Hes & Hd & ->). exists (x :: es), (take n data ++ p), rest.
  split; [by rewrite <-app_assoc|]. split; [by apply Hok|]. split; [by rewrite <-app_assoc, <-Hd, take_drop|].
  rewrite length_app, length_take. lia.
Qed.

Lemma apply_writes_decode_loop_any fuel st data lt ls script :
  base_ok l s lt → base_ok l s ls → Forall u8 data → st_ok 30 st data → (length data < fuel)%nat →
  loop_answer (script_ok l s lt) (from_format InvalidJournalApplyWritesScriptFormat)
    (from_format InvalidJournalApplyWritesScriptEntry) data script (total_consumed_src_len st)
    (apply_writes_decode_loop fuel st l s lt ls script).
Proof.
  revert st data lt ls script. induction fuel as [|fuel IH]; intros st data lt ls script Hlt Hls Hdata Hst Hfuel; [lia|].
  cbn [apply_writes_decode_loop]. destruct (refill_spec 30 st _ Hst) as (st1 & -> & Hst1 & Htot & Hlen & Hpend).
  cbn [obind]. rewrite Hpend, <-Htot. zcase; [by left|].
  assert (Forall u8 (take 30 data)) as Hu by by apply Forall_take.
  destruct (decode_u_cases (from_format InvalidJournalApplyWritesScriptFormat) _ Hu) as [->|(td & p1 & r1 & -> & ? & Hp1 & ? & Hu1)]; [by left|].
  cbn [obind]. destruct (decode_s_cases (from_format InvalidJournalApplyWritesScriptFormat) _ Hu1) as [->|(sd & p2 & r2 & -> & ? & Hp2 & ? & Hu2)]; [by left|].
  cbn [obind]. destruct (decode_u_cases (from_format InvalidJournalApplyWritesScriptFormat) _ Hu2) as [->|(n & p3 & r3 & -> & ? & Hp3 & ? & Hu3)]; [by left|].
  cbn [obind]. set (p := p1 ++ p2 ++ p3). assert (take 30 data = p ++ r3) as Hp by (unfold p; by rewrite Hp1, Hp2, Hp3, <-!app_assoc).
  rewrite Hp in Hpend. destruct (consume_spec 30 st1 data p r3 Hst1 Hpend) as (st2 & -> & Hst2 & Htot2). cbn [obind].
  assert (data = p ++ drop (length p) data) as Hsplit.
  { rewrite <-(take_drop 30 data) at 1 2. rewrite Hp, <-app_assoc, drop_app_length. done. }
  assert (length data = length p + length (drop (length p) data))%nat as Hld by (rewrite Hsplit at 1; by rewrite length_app).
  assert (1 ≤ length p)%nat by (unfold p; rewrite length_app; destruct p1; [done|cbn; lia]).
  destruct (Z.eqb_spec n 0) as [->|].
  { rewrite andb_true_r. destruct (_ && _); [|by right; left]. exists [], p, (drop (length p) data).
    by rewrite app_nil_r. }
  rewrite andb_false_r. pose proof (apply_writes_entry_inv l s Hl Hs lt ls td sd n) as Hentry.
  destruct (apply_writes_entry td sd n l s lt ls) as [[[[tb te] sb] se]|e| |]; try by destruct Hentry.
  2: { destruct Hentry as [->| ->]; try done; [by left|by right; left]. }
  destruct Hentry as [He ->]; try done. cbn [obind]. unfold try_reserve. destruct (alloc_ok _ _); [|by right; right].
  cbn [obind]. destruct (proj1 He) as (Hr & _). cbn [target_range rng_begin rng_end] in Hr. rewrite range_new_Ok by lia. cbn [obind].
  eapply (loop_answer_cons _ (script_ok l s te) _ _ _ _ _ _ _ (length p)); [by intros es Hes; split|lia|].
  rewrite <-Htot2. apply IH; [by eapply target_ok_base with (r := mk_range tb te), He|by eapply entry_ok_base|by apply Forall_drop|done|lia].
Qed.

Lemma pair_decode_loop_any fmt ent fuel st data lt script :
  base_ok l s lt → Forall u8 data → st_ok 20 st data → (length data < fuel)%nat →
  loop_answer (ranges_ok l s lt) fmt ent data script (total_consumed_src_len st)
    (pair_decode_loop fmt ent fuel st l s lt script).
Proof.
  revert st data lt script. induction fuel as [|fuel IH]; intros st data lt script Hlt Hdata Hst Hfuel; [lia|].
  cbn [pair_decode_loop]. destruct (refill_spec 20 st _ Hst) as (st1 & -> & Hst1 & Htot & Hlen & Hpend).
  cbn [obind]. rewrite Hpend, <-Htot. zcase; [by left|].
  assert (Forall u8 (take 20 data)) as Hu by by apply Forall_take.
  destruct (decode_u_cases fmt _ Hu) as [->|(td & p1 & r1 & -> & ? & Hp1 & ? & Hu1)]; [by left|].
  cbn [obind]. destruct (decode_u_cases fmt _ Hu1) as [->|(n & p2 & r2 & -> & ? & Hp2 & ? & Hu2)]; [by left|].
  cbn [obind]. set (p := p1 ++ p2). assert (take 20 data = p ++ r2) as Hp by (unfold p; by rewrite Hp1, Hp2, <-!app_assoc).
  rewrite Hp in Hpend. destruct (consume_spec 20 st1 data p r2 Hst1 Hpend) as (st2 & -> & Hst2 & Htot2). cbn [obind].
  assert (data = p ++ drop (length p) data) as Hsplit.
  { rewrite <-(take_drop 20 data) at 1 2. rewrite Hp, <-app_assoc, drop_app_length. done. }
  assert (length data = length p + length (drop (length p) data))%nat as Hld by (rewrite Hsplit at 1; by rewrite length_app).
  assert (1 ≤ length p)%nat by (unfold p; rewrite length_app; destruct p1; [done|cbn; lia]).
  destruct (Z.eqb_spec n 0) as [->|].
  { rewrite andb_true_r. destruct (_ =? _); [|by right; left]. exists [], p, (drop (length p) data).
    by rewrite app_nil_r. }
  rewrite andb_false_r. pose proof (pair_entry_inv l s Hl Hs ent lt td n) as Hr.
  destruct (pair_entry ent td n l s lt) as [[tb te]|e| |]; try by destruct Hr.
  2: { right; left. by apply Hr. }
  specialize (Hr Hlt ltac:(done) ltac:(done) ltac:(done)). cbn [obind]. unfold try_reserve. destruct (alloc_ok _ _); [|by right; right].
  cbn [obind]. pose proof Hr as (Hb & _). cbn [rng_begin rng_end] in Hb. rewrite range_new_Ok by lia. cbn [obind].
  eapply (loop_answer_cons _ (ranges_ok l s te) _ _ _ _ _ _ _ (length p)); [by intros es Hes; split|lia|].
  rewrite <-Htot2. apply IH; [by eapply target_ok_base with (r := mk_range tb te)|by apply Forall_drop|done|lia].
Qed.
End DecodeAny.

(** *** The whole decoders *)

Section DecodeWhole.
Context {B : Build} {Alloc : Allocator} {SI : Type} `{HI : IoSlicesIter SI NvFsError} {HL : IoSlicesIterLaws SI NvFsError}.

Lemma st_ok_init N (src : SI) :
  valid src → st_ok N (mk_state (replicate N 0) 0 src (length (content src)) 0) (content src).
Proof.
  intros. unfold st_ok. cbn [decode_buf decode_buf_len peeking_src remaining_src_len]. rewrite length_replicate.
  split_and!; try done; lia.
Qed.

(** The final [skip] of the bytes that were consumed. *)
Lemma skip_consumed (src : SI) p rest :
  valid src → content src = p ++ rest →
  ∃ src', map_err_with (skip_err (A:=SI)) (skip src (length p)) = Ok src' ∧ valid src' ∧ content src' = rest.
Proof.
  intros Hsrc Hc. pose proof (skip_loop_spec (S (length p)) src (length p) Hsrc ltac:(lia)) as Hk.
  rewrite Hc, length_app, (proj2 (Nat.leb_le (length p) (length p + length rest))) in Hk by lia.
  destruct Hk as (src' & Hk & ? & Hc'). exists src'. unfold skip. rewrite Hk, Hc', drop_app_length. done.
Qed.

Lemma base_ok_0 l s : 0 ≤ s < 57 → base_ok l s 0.
Proof. intros. pose proof (pow2_pos (57 - s) ltac:(lia)). split; [lia|apply Z.divide_0_r]. Qed.

Lemma writes_bytes_length l lt ls es bs : writes_bytes l lt ls es bs → (length es < length bs)%nat.
Proof.
  revert lt ls bs. induction es as [|e es IH]; intros lt ls bs; cbn [writes_bytes]; [intros ->; cbn; lia|].
  intros (td & sd & n & w1 & w2 & w3 & ws & -> & (?%encodes_u_nonempty & _) & _ & _ & Hws%IH). rewrite !length_app. cbn. lia.
Qed.
Lemma pair_bytes_length l lt rs bs : pair_bytes l lt rs bs → (length rs < length bs)%nat.
Proof.
  revert lt bs. induction rs as [|r rs IH]; intros lt bs; cbn [pair_bytes]; [intros ->; cbn; lia|].
  intros (td & n & w1 & w2 & ws & -> & (?%encodes_u_nonempty & _) & _ & Hws%IH). rewrite !length_app. cbn. lia.
Qed.

Lemma pair_roundtrip_gen fmt ent l s rs bs (src : SI) rest :
  0 ≤ l < 64 → 0 ≤ s < 57 → (∀ n, alloc_ok n 1 = true) → ranges_ok l s 0 rs → pair_bytes l 0 rs bs →
  valid src → content src = bs ++ rest → Forall u8 rest →
  ∃ src', pair_decode fmt ent src l s = Ok (rs, src') ∧ valid src' ∧ content src' = rest.
Proof.
  intros Hl Hs Ha Hrs Hbs Hsrc Hc Hrest. unfold pair_decode. rewrite total_len_spec by done. cbn [obind].
  rewrite (pair_decode_loop_encoded l s Hl Hs Ha fmt ent rs _ _ _ _ bs rest); try done.
  - cbn [obind total_consumed_src_len app]. destruct (skip_consumed src bs rest Hsrc Hc) as (src' & Hk & ?).
    exists src'. rewrite Nat.add_0_l, Hk. done.
  - by apply base_ok_0.
  - rewrite <-Hc. by apply st_ok_init.
  - apply pair_bytes_length in Hbs. rewrite Hc, length_app. lia.
Qed.

Lemma pair_decode_any fmt ent l s (src : SI) :
  0 ≤ l < 64 → 0 ≤ s < 57 → valid src → Forall u8 (content src) →
  match pair_decode fmt ent src l s with
  | Ok (rs, src') => ranges_ok l s 0 rs ∧ valid src' ∧ ∃ p, content src = p ++ content src'
  | Err e => e = fmt ∨ e = ent ∨ e = MemoryAllocationFailure
  | _ => False
  end.
Proof.
  intros Hl Hs Hsrc Hu. unfold pair_decode. rewrite total_len_spec by done. cbn [obind].
  pose proof (pair_decode_loop_any l s Hl Hs fmt ent (S (length (content src))) _ _ 0 [] (base_ok_0 l s Hs) Hu
    (st_ok_init 20 src Hsrc) ltac:(lia)) as Hloop.
  destruct (pair_decode_loop _ _ _ _ _ _ _ _) as [[script total]|e| |]; cbn [loop_answer obind] in *; try done.
  destruct Hloop as (es & p & rest & -> & Hes & Hc & ->). cbn [total_consumed_src_len app] in *.
  destruct (skip_consumed src p rest Hsrc Hc) as (src' & Hk & ? & Hc'). rewrite Nat.add_0_l, Hk. cbn [obind].
  rewrite Hc'. eauto.
Qed.
End DecodeWhole.

(** *** Lookup *)

Lemma script_ok_bounds l s lt es i e :
  script_ok l s lt es → es !! i = Some e →
  lt ≤ rng_begin (target_range e) < rng_end (target_range e) ∧
  ∀ j e', (i < j)%nat → es !! j = Some e' → rng_end (target_range e) ≤ rng_begin (target_range e').
Proof.
  revert lt i e. induction es as [|e0 es IH]; intros lt i e; [done|]. intros [((Hb & _) & _) Hes] Hi. destruct i as [|i]; cbn in Hi.
  - injection Hi as ->. split; [done|]. intros [|j] e' ? Hj; [lia|]. cbn in Hj. by destruct (IH _ _ _ Hes Hj) as [[??] _].
  - destruct (IH _ _ _ Hes Hi) as [??]. split; [lia|]. intros [|j] e' ? Hj; [lia|]. naive_solver lia.
Qed.

Lemma compare_entry_spec x e :
  rng_begin (target_range e) < rng_end (target_range e) →
  match compare_entry x e with
  | Lt => rng_end (target_range e) ≤ x
  | Eq => x ∈ target_range e
  | Gt => x < rng_begin (target_range e)
  end.
Proof.
  intros. unfold compare_entry. destruct (Z.compare_spec (rng_end (target_range e)) x); [lia..|].
  destruct (Z.compare_spec (rng_begin (target_range e)) x); [split; lia..|lia].
Qed.

Lemma partition_point_spec {A} (p : A → bool) (l : list A) :
  let i := partition_point p l in
  (∀ j x, (j < i)%nat → l !! j = Some x → p x = true) ∧ (∀ x, l !! i = Some x → p x = false).
Proof.
  induction l as [|y l [IH1 IH2]]; cbn [partition_point]; [split; [intros; lia|done]|].
  destruct (p y) eqn:Hy; [|split; [intros; lia|naive_solver]]. split; [|done].
  intros [|j] x ? Hx; [naive_solver|]. apply (IH1 j); [lia|done].
Qed.

(** ** Properties *)

Section Properties.
Context {B : Build} {Alloc : Allocator} {SI : Type} `{HI : IoSlicesIter SI NvFsError} {HL : IoSlicesIterLaws SI NvFsError}.

(** C36: the encoder of an ordered script of aligned writes fills exactly the
    computed length of its buffer, and decoding the bytes, from any sequence of
    slices and with any bytes after them, gives back the script and leaves those
    bytes. *)
Theorem apply_writes_roundtrip l s es buf :
  0 ≤ l < 64 → 0 ≤ s < 57 → (∀ n, alloc_ok n 1 = true) → script_ok l s 0 es → Z.of_nat (length es) < 2 ^ 58 →
  ∃ n, apply_writes_encoded_len (Ok <$> es) l = Ok n ∧
    ((n ≤ length buf)%nat → ∃ bs, apply_writes_encode buf (Ok <$> es) l = Ok (bs, drop n buf) ∧ length bs = n ∧
       ∀ (src : SI) rest, valid src → content src = bs ++ rest → Forall u8 rest →
         ∃ src', apply_writes_decode src l s = Ok (es, src') ∧ valid src' ∧ content src' = rest).
Proof.
  intros Hl Hs Ha Hes Hlen. pose proof (base_ok_0 l s Hs) as H0.
  destruct (apply_writes_encode_loop_spec l s Hl Hs es 0 0 H0 H0 Hes) as (n & ? & Hn & Henc).
  assert (apply_writes_encoded_len (Ok <$> es) l = Ok n) as Hn' by (apply (Hn 0%nat); lia).
  exists n. split; [done|]. intros Hbuf. destruct (Henc buf Hbuf) as (bs & Hbs & Hbl & Hb). exists bs.
  unfold apply_writes_encode. rewrite debug_check_true by (rewrite Hn'; cbn [obind]; by zdec). split; [done|]. split; [done|].
  intros src rest Hsrc Hc Hrest. unfold apply_writes_decode. rewrite total_len_spec by done. cbn [obind].
  rewrite (apply_writes_decode_loop_encoded l s Hl Hs Ha es _ _ _ _ _ bs rest); try done.
  - cbn [obind total_consumed_src_len app]. destruct (skip_consumed src bs rest Hsrc Hc) as (src' & Hk & ?).
    exists src'. rewrite Nat.add_0_l, Hk. done.
  - rewrite <-Hc. by apply st_ok_init.
  - apply writes_bytes_length in Hb. rewrite Hc, length_app. lia.
Qed.

(** C37: decoding a writes script from arbitrary bytes always ends, without a
    panic: with the format error, the entry error, a failed allocation, or with
    an ordered script of aligned ranges within the addressable blocks and the
    source advanced past it. *)
Theorem apply_writes_decode_correct l s (src : SI) :
  0 ≤ l < 64 → 0 ≤ s < 57 → valid src → Forall u8 (content src) →
  match apply_writes_decode src l s with
  | Ok (es, src') => script_ok l s 0 es ∧ valid src' ∧ ∃ p, content src = p ++ content src'
  | Err e => e = from_format InvalidJournalApplyWritesScriptFormat ∨
      e = from_format InvalidJournalApplyWritesScriptEntry ∨ e = MemoryAllocationFailure
  | _ => False
  end.
Proof.
  intros Hl Hs Hsrc Hu. unfold apply_writes_decode. rewrite total_len_spec by done. cbn [obind].
  pose proof (base_ok_0 l s Hs) as H0.
  pose proof (apply_writes_decode_loop_any l s Hl Hs (S (length (content src))) _ _ 0 0 [] H0 H0 Hu
    (st_ok_init 30 src Hsrc) ltac:(lia)) as Hloop.
  destruct (apply_writes_decode_loop _ _ _ _ _ _ _) as [[script total]|e| |]; cbn [loop_answer obind] in *; try done.
  destruct Hloop as (es & p & rest & -> & Hes & Hc & ->). cbn [total_consumed_src_len app] in *.
  destruct (skip_consumed src p rest Hsrc Hc) as (src' & Hk & ? & Hc'). rewrite Nat.add_0_l, Hk. cbn [obind].
  rewrite Hc'. eauto.
Qed.

(** Looking a block up in a valid writes script gives the entry whose target
    range holds the block, and otherwise the position that separates the entries
    before the block from those after it. *)
Lemma lookup_correct l s es x :
  script_ok l s 0 es →
  match lookup es x with
  | inl i => ∃ e, es !! i = Some e ∧ x ∈ target_range e
  | inr i => (∀ e, e ∈ es → x ∉ target_range e) ∧
      (∀ j e, es !! j = Some e → if (j <? i)%nat then rng_end (target_range e) ≤ x else x < rng_begin (target_range e))
  end.
Proof.
  intros Hes. unfold lookup, binary_search_by. set (p := λ e, match compare_entry x e with Lt => true | _ => false end).
  destruct (partition_point_spec p es) as [Hbefore Hat]. set (i := partition_point p es) in *.
  assert (∀ j e, (j < i)%nat → es !! j = Some e → rng_end (target_range e) ≤ x) as Hb.
  { intros j e Hj He. pose proof (Hbefore j e Hj He) as Hp. unfold p in Hp.
    destruct (script_ok_bounds _ _ _ _ _ _ Hes He) as [[_ Hne] _]. pose proof (compare_entry_spec x e Hne). by destruct (compare_entry x e). }
  assert ((∀ e, es !! i = Some e → x < rng_begin (target_range e)) →
    (∀ e, e ∈ es → x ∉ target_range e) ∧
    (∀ j e, es !! j = Some e → if (j <? i)%nat then rng_end (target_range e) ≤ x else x < rng_begin (target_range e))) as Hno.
  { intros Ha. assert (∀ j e, es !! j = Some e → if (j <? i)%nat then rng_end (target_range e) ≤ x else x < rng_begin (target_range e)) as Hsep.
    { intros j e He. destruct (Nat.ltb_spec j i); [by eapply Hb|]. destruct (decide (j = i)) as [->|]; [by apply Ha|].
      destruct (lookup_lt_is_Some_2 es i) as [ei Hei]; [apply lookup_lt_Some in He; lia|].
      destruct (script_ok_bounds _ _ _ _ _ _ Hes Hei) as [? Hafter]. specialize (Hafter j e ltac:(lia) He). specialize (Ha ei Hei). lia. }
    split; [|done]. intros e [j He]%list_elem_of_lookup. specialize (Hsep j e He). rewrite elem_of_range. destruct (_ <? _)%nat; lia. }
  destruct (es !! i) as [e|] eqn:He; [|apply Hno; done]. pose proof (Hat e eq_refl) as Hp. unfold p in Hp.
  destruct (script_ok_bounds _ _ _ _ _ _ Hes He) as [[_ Hne] _]. pose proof (compare_entry_spec x e Hne).
  destruct (compare_entry x e); [eauto|done|]. apply Hno. naive_solver.
Qed.

(** The scripts for digest updates and for trims round trip in the same
    way. *)
Lemma pair_scripts_roundtrip l s rs buf :
  0 ≤ l < 64 → 0 ≤ s < 57 → (∀ n, alloc_ok n 1 = true) → ranges_ok l s 0 rs → Z.of_nat (length rs) < 2 ^ 58 →
  ∃ n, update_auth_digests_encoded_len (Ok <$> rs) l = Ok n ∧ trims_encoded_len (Ok <$> rs) l = Ok n ∧
    ((n ≤ length buf)%nat → ∃ bs, update_auth_digests_encode buf (Ok <$> rs) l = Ok (bs, drop n buf) ∧
       trims_encode buf (Ok <$> rs) l = Ok (bs, drop n buf) ∧ length bs = n ∧
       ∀ (src : SI) rest, valid src → content src = bs ++ rest → Forall u8 rest →
         (∃ src', update_auth_digests_decode src l s = Ok (rs, src') ∧ valid src' ∧ content src' = rest) ∧
         (∃ src', trims_decode src l s = Ok (rs, src') ∧ valid src' ∧ content src' = rest)).
Proof.
  intros Hl Hs Ha Hrs Hlen. pose proof (base_ok_0 l s Hs) as H0.
  destruct (pair_encode_loop_spec l s Hl Hs rs 0 H0 Hrs) as (n & ? & Hn & Henc).
  assert (pair_encoded_len_loop (Ok <$> rs) l 0 0 = Ok n) as Hn' by (apply (Hn 0%nat); lia).
  exists n. split; [done|]. split; [done|]. intros Hbuf. destruct (Henc buf Hbuf) as (bs & Hbs & Hbl & Hb). exists bs.
  unfold update_auth_digests_encode, trims_encode, update_auth_digests_encoded_len, trims_encoded_len.
  rewrite debug_check_true by (rewrite Hn'; cbn [obind]; by zdec). split; [done|]. split; [done|]. split; [done|].
  intros src rest Hsrc Hc Hrest. split; by eapply pair_roundtrip_gen.
Qed.

(** Decoding a script for digest updates or for trims from arbitrary bytes
    always ends, without a panic, with one of the script's errors or with ordered
    and aligned ranges and the source advanced past the script. *)
Lemma pair_scripts_decode_correct l s (src : SI) :
  0 ≤ l < 64 → 0 ≤ s < 57 → valid src → Forall u8 (content src) →
  (match update_auth_digests_decode src l s with
   | Ok (rs, src') => ranges_ok l s 0 rs ∧ valid src' ∧ ∃ p, content src = p ++ content src'
   | Err e => e = from_format InvalidJournalUpdateAuthDigestsScriptFormat ∨
       e = from_format InvalidJournalUpdateAuthDigestsScriptEntry ∨ e = MemoryAllocationFailure
   | _ => False
   end) ∧
  (match trims_decode src l s with
   | Ok (rs, src') => ranges_ok l s 0 rs ∧ valid src' ∧ ∃ p, content src = p ++ content src'
   | Err e => e = from_format InvalidJournalTrimsScriptFormat ∨
       e = from_format InvalidJournalTrimsScriptEntry ∨ e = MemoryAllocationFailure
   | _ => False
   end).
Proof. intros. split; by apply pair_decode_any. Qed.
End Properties.

(** ** Witnesses *)

Definition every_alloc : Allocator := λ _ _, true.
Definition sample_script : list JournalApplyWritesScriptEntry :=
  [mk_entry (mk_range 4 8) 24; mk_entry (mk_range 8 16) 4].

Lemma sample_ranges_ok : ranges_ok 2 0 0 (target_range <$> sample_script).
Proof. cbn. unfold target_ok, aligned. cbn. split_and!; try lia; by apply Znumtheory.Zmod_divide. Qed.
Lemma sample_script_ok : script_ok 2 0 0 sample_script.
Proof. cbn. unfold entry_ok, target_ok, aligned. cbn. split_and!; try lia; by apply Znumtheory.Zmod_divide. Qed.

Lemma apply_writes_roundtrip_witness :
  ∃ src', apply_writes_decode (B:=debug_build) (Alloc:=every_alloc) (buffers_new [[1; 6]; []; [1; 0; 122; 2; 0; 0; 0; 7]]) 2 0 =
      Ok (sample_script, src') ∧ buffers_valid src' ∧ buffers_content src' = [7].
Proof.
  destruct (apply_writes_roundtrip (B:=debug_build) (Alloc:=every_alloc) (HL:=buffers_laws) 2 0 sample_script (replicate 12 0))
    as (n & Hn & Henc); [done|done|done|apply sample_script_ok|done|].
  vm_compute in Hn. injection Hn as <-. destruct Henc as (bs & Hbs & _ & Hdec); [cbn; lia|]. vm_compute in Hbs. injection Hbs as <-.
  apply (Hdec (buffers_new [[1; 6]; []; [1; 0; 122; 2; 0; 0; 0; 7]]) [7]); [done|vm_compute; reflexivity|by repeat constructor].
Defined.

Lemma apply_writes_decode_correct_witness :
  apply_writes_decode (B:=debug_build) (Alloc:=every_alloc) (singleton_new [1; 6; 0; 0]) 2 0 =
    Err (from_format InvalidJournalApplyWritesScriptEntry) ∧
  (from_format InvalidJournalApplyWritesScriptEntry = from_format InvalidJournalApplyWritesScriptFormat ∨
   from_format InvalidJournalApplyWritesScriptEntry = from_format InvalidJournalApplyWritesScriptEntry ∨
   from_format InvalidJournalApplyWritesScriptEntry = MemoryAllocationFailure).
Proof.
  split; [done|].
  exact (apply_writes_decode_correct (B:=debug_build) (Alloc:=every_alloc) (HL:=singleton_laws) 2 0 (singleton_new [1; 6; 0; 0])
    ltac:(done) ltac:(done) I ltac:(by repeat constructor)).
Defined.

Lemma lookup_correct_witness : lookup sample_script 9 = inl 1%nat ∧ ∃ e, sample_script !! 1%nat = Some e ∧ 9 ∈ target_range e.
Proof. split; [done|]. exact (lookup_correct 2 0 sample_script 9 sample_script_ok). Defined.

Lemma pair_scripts_roundtrip_witness :
  ∃ src', trims_decode (B:=debug_build) (Alloc:=every_alloc) (buffers_new [[1; 1]; []; [0; 2; 0]; [0; 7]]) 2 0 =
      Ok ([mk_range 4 8; mk_range 8 16], src') ∧ buffers_valid src' ∧ buffers_content src' = [7].
Proof.
  destruct (pair_scripts_roundtrip (B:=debug_build) (Alloc:=every_alloc) (HL:=buffers_laws) 2 0
    [mk_range 4 8; mk_range 8 16] (replicate 12 0)) as (n & Hn & _ & Henc); [done|done|done|apply sample_ranges_ok|done|].
  vm_compute in Hn. injection Hn as <-. destruct Henc as (bs & Hbs & _ & _ & Hdec); [cbn; lia|]. vm_compute in Hbs. injection Hbs as <-.
  apply (Hdec (buffers_new [[1; 1]; []; [0; 2; 0]; [0; 7]]) [7]); [done|vm_compute; reflexivity|by repeat constructor].
Defined.

Lemma pair_scripts_decode_correct_witness :
  ∃ e, trims_decode (B:=debug_build) (Alloc:=every_alloc) (singleton_new [1; 1; 1]) 2 0 = Err e ∧
    (e = from_format InvalidJournalTrimsScriptFormat ∨ e = from_format InvalidJournalTrimsScriptEntry ∨
     e = MemoryAllocationFailure).
Proof.
  eexists. split; [vm_compute; reflexivity|].
  exact (proj2 (pair_scripts_decode_correct (B:=debug_build) (Alloc:=every_alloc) (HL:=singleton_laws) 2 0 (singleton_new [1; 1; 1])
    ltac:(done) ltac:(done) I ltac:(by repeat constructor))).
Defined.

End ApplyScript.
