(* ===== verification/InodeExtentsList.v ===== *)
(** * Encoded extents lists of inodes (storage/src/fs/cocoonfs/inode_extents_list.rs)

    An inode refers to its data directly with an extent pointer, if there is one
    extent which is short enough, or through an extents list: pairs of a signed
    distance from the end of the previous extent and a length, as leb128
    numbers, ended by a pair of zeros.  The iterators over extents that the
    functions take are lists of ranges here.  The asynchronous reading and
    writing of the lists is not modelled. *)

From S2P Require Import Prelude BitManip Leb128 Errors Layout ExtentPtr PhysicalExtents IoSlices ApplyScript.
Import BitManip Leb128 Errors Layout IoSlices.

Module InodeExtentsList.

Abbreviation extents := (list (Z * Z)).
Abbreviation res := (outcome NvFsError).

(** ** Direct references *)

Section Direct.
Context {B : Build}.

Definition can_encode_direct (inode_extents : extents) : res bool :=
  if (length inode_extents =? 0)%nat then Ok true
  else if (length inode_extents =? 1)%nat then
    let! r := PhysicalExtents.get_extent_range inode_extents 0 in
    let! n := block_count r in
    Ok (n <=? ExtentPtr.MAX_EXTENT_ALLOCATION_BLOCKS)
  else Ok false.

Definition extent_ptr_encode_direct (inode_extents : extents) : res (list Z) :=
  let! direct := can_encode_direct inode_extents in
  if negb direct then err_internal
  else
    match inode_extents with
    | [] => Ok ExtentPtr.extent_ptr_encode_nil
    | entry :: _ =>
        let! inode_extent := range_from entry.1 entry.2 in
        ExtentPtr.extent_ptr_encode (Some inode_extent) false
    end.
End Direct.

(** ** Encoding *)

Section Encode.
Context {B : Build} {Alloc : Allocator}.

(** The signed distance of an extent from the end of the previous one. *)
Definition delta (inode_extent : BlockRange) (last_inode_extent_end : Z) : Z :=
  swrap 64 (wrapping_sub 64 (rng_begin inode_extent) last_inode_extent_end).

Fixpoint encoded_len_loop (extents : list BlockRange) (last_inode_extent_end : Z) (encoded_len : nat) : res nat :=
  match extents with
  | [] => Ok encoded_len
  | inode_extent :: extents =>
      let! delta_len := leb128s_i64_encoded_len (delta inode_extent last_inode_extent_end) in
      let! count := block_count inode_extent in
      let! count_len := leb128u_u64_encoded_len count in
      let! encoded_len :=
        ok_or (ApplyScript.usize_checked_add encoded_len (delta_len + count_len)) DimensionsNotSupported in
      encoded_len_loop extents (rng_end inode_extent) encoded_len
  end.
Definition indirect_extents_list_encoded_len (extents : list BlockRange) : res nat := encoded_len_loop extents 0 2.

(** The bytes written at the front of [dst], and the rest of it. *)
Fixpoint encode_into_loop (dst : list Z) (extents : list BlockRange) (last_inode_extent_end : Z) : res (list Z * list Z) :=
  match extents with
  | [] =>
      let! _ := debug_assert (2 <=? length dst)%nat in
      if (length dst <? 2)%nat then Panic else Ok ([0; 0], drop 2 dst)
  | inode_extent :: extents =>
      let! '(w1, dst) := leb128s_i64_encode dst (delta inode_extent last_inode_extent_end) in
      let! count := block_count inode_extent in
      let! '(w2, dst) := leb128u_u64_encode dst count in
      let! '(ws, dst) := encode_into_loop dst extents (rng_end inode_extent) in
      Ok (w1 ++ w2 ++ ws, dst)
  end.
Definition indirect_extents_list_encode_into (dst : list Z) (extents : list BlockRange) : res (list Z * list Z) :=
  encode_into_loop dst extents 0.

(** [FixedVec::new_with_default] allocates a zeroed buffer of the length. *)
Definition indirect_extents_list_encode (extents : list BlockRange) (encoded_len : option nat) : res (list Z) :=
  let! encoded_len :=
    match encoded_len with Some n => Ok n | None => indirect_extents_list_encoded_len extents end in
  let! _ := try_reserve 0 encoded_len in
  let! '(written, rest) := indirect_extents_list_encode_into (replicate encoded_len 0) extents in
  Ok (written ++ rest).
End Encode.

(** ** Decoding *)

Definition MAX_IMAGE_ALLOCATION_BLOCKS_LOG2 : Z := 64 - 7.

Section Decode.
Context {B : Build} {Alloc : Allocator} {SI : Type} `{HI : IoSlicesIter SI NvFsError}.

Record DecodeState := mk_state {
  decode_buf : list Z;
  decode_buf_len : nat;
  src : SI;
  src_exhausted : bool;
}.

(** The loop that refills the buffer; each round reads at least one byte or
    finds the source exhausted. *)
Fixpoint refill_loop (fuel : nat) (st : DecodeState) : res DecodeState :=
  match fuel with
  | O => Diverge
  | S fuel =>
      let '(mk_state buf len src exhausted) := st in
      if negb exhausted && (len <? length buf)%nat then
        let! free := nsub (length buf) len in
        let! '(slice, src) := next_slice src (Some free) in
        match slice with
        | None => Ok (mk_state buf len src true)
        | Some src_slice =>
            if (length buf <? len + length src_slice)%nat then Panic
            else
              let buf := take len buf ++ src_slice ++ drop (len + length src_slice) buf in
              refill_loop fuel (mk_state buf (len + length src_slice) src exhausted)
        end
      else Ok st
  end.

(** Move the last [rest_len] bytes of the buffer to its front. *)
Definition consume (st : DecodeState) (rest_len : nat) : res DecodeState :=
  let '(mk_state buf len src exhausted) := st in
  let! consumed := nsub len rest_len in
  let! len := nsub len consumed in
  if (length buf <? consumed + len)%nat then Panic
  else Ok (mk_state (take len (drop consumed buf) ++ drop len buf) len src exhausted).

Fixpoint decode_loop (fuel : nat) (st : DecodeState) (last_inode_extent_end total : Z) (inode_extents : extents) : res extents :=
  let err := from_format InvalidExtents in
  match fuel with
  | O => Diverge
  | S fuel =>
      let! st := refill_loop (S (S (length (decode_buf st)))) st in
      if (decode_buf_len st <? 2)%nat then Err err
      else if (decode_buf_len st =? 2)%nat then
        let! b0 := idx (decode_buf st) 0 in
        let! b1 := idx (decode_buf st) 1 in
        if negb (b0 =? 0) || negb (b1 =? 0) then Err err else Ok inode_extents
      else
        let rest := take (decode_buf_len st) (decode_buf st) in
        let! '(delta, rest) := ApplyScript.format_err err (leb128s_i64_decode rest) in
        let! '(count, rest) := ApplyScript.format_err err (leb128u_u64_decode rest) in
        let! st := consume st (length rest) in
        let delta := wrap 64 delta in
        if count =? 0 then Err err
        else
          let b := wrapping_add 64 last_inode_extent_end delta in
          let! t := ushr 64 (Z.lor b count) MAX_IMAGE_ALLOCATION_BLOCKS_LOG2 in
          if negb (t =? 0) then Err err
          else
            let! e := uadd 64 b count in
            let! total := uadd 64 total count in
            let! t := ushr 64 (Z.lor e total) MAX_IMAGE_ALLOCATION_BLOCKS_LOG2 in
            if negb (t =? 0) then Err err
            else
              let! r := range_new b e in
              let! inode_extents := PhysicalExtents.push_extent inode_extents r true in
              decode_loop fuel st e total inode_extents
  end.

(** Each round consumes at least two bytes of the source. *)
Definition indirect_extents_list_decode (fuel : nat) (src : SI) : res extents :=
  decode_loop fuel (mk_state (replicate 20 0) 0 src false) 0 0 [].
End Decode.

(** ** Correctness *)

Lemma lor_shiftr_zero a b n : 0 ≤ n → 0 ≤ a → 0 ≤ b → Z.shiftr (Z.lor a b) n = 0 ↔ a < 2 ^ n ∧ b < 2 ^ n.
Proof.
  intros. rewrite Z.shiftr_lor, Z.lor_eq_0_iff, !Z.shiftr_div_pow2 by done. pose proof (pow2_pos n).
  rewrite !Z.div_small_iff by lia. lia.
Qed.

(** *** The bytes of an encoding *)

Fixpoint list_bytes (last : Z) (l : extents) (bs : list Z) : Prop :=
  match l with
  | [] => bs = [0; 0]
  | e :: l =>
      ∃ d w1 w2 ws, bs = w1 ++ w2 ++ ws ∧
        (encodes_s d w1 ∧ (length w1 ≤ 10)%nat ∧ i64 d ∧ wrapping_add 64 last (wrap 64 d) = e.1) ∧
        (encodes_u e.2 w2 ∧ (length w2 ≤ 10)%nat) ∧ list_bytes (e.1 + e.2) l ws
  end.

(** The extents of an image: they and their total length are within the
    addressable blocks. *)
Definition sum_counts (l : extents) : Z := foldr (λ e n, e.2 + n) 0 l.
Definition in_image (l : extents) : Prop :=
  Forall (λ e, 0 ≤ e.1 ∧ 0 < e.2 ∧ e.1 + e.2 < 2 ^ 57) l ∧ sum_counts l < 2 ^ 57.

Lemma in_image_wf l : in_image l → PhysicalExtents.pe_wf l.
Proof. intros [Hl _]. eapply Forall_impl; [done|]. intros e ?. unfold PhysicalExtents.entry_ok. cbn in *. lia. Qed.

Lemma sum_counts_app l l' : sum_counts (l ++ l') = sum_counts l + sum_counts l'.
Proof.
  induction l as [|e l IH]; [done|]. rewrite <-app_comm_cons.
  change (e.2 + sum_counts (l ++ l') = e.2 + sum_counts l + sum_counts l'). lia.
Qed.

Lemma sum_counts_nonneg l : Forall (λ e, 0 ≤ e.1 ∧ 0 < e.2 ∧ e.1 + e.2 < 2 ^ 57) l → 0 ≤ sum_counts l.
Proof. induction 1 as [|e l ? ? IH]; [done|]. change (0 ≤ e.2 + sum_counts l). cbn in *. lia. Qed.

Section EncodeSpec.
Context {B : Build}.

Lemma encode_into_loop_spec l last :
  Forall (λ e, 0 ≤ e.1 ∧ 0 < e.2 ∧ e.1 + e.2 < 2 ^ 57) l → u64 last →
  ∃ n, (n ≤ 20 * length l)%nat ∧
    (∀ k, Z.of_nat (k + n) < 2 ^ 64 →
       encoded_len_loop (PhysicalExtents.entry_range <$> l) last k = Ok (k + n)%nat) ∧
    ∀ dst, (n + 2 ≤ length dst)%nat →
      ∃ bs, encode_into_loop dst (PhysicalExtents.entry_range <$> l) last = Ok (bs, drop (n + 2) dst) ∧
        length bs = (n + 2)%nat ∧ list_bytes last l bs.
Proof.
  intros Hl. revert last. induction Hl as [|e l He Hl IH]; intros last Hlast.
  - exists 0%nat. split; [lia|]. cbn [fmap list_fmap encoded_len_loop encode_into_loop]. split; [intros; f_equal; lia|].
    intros dst ?. zdec. by exists [0; 0].
  - cbn beta in He. set (r := PhysicalExtents.entry_range e). assert (i64 (delta r last)) as Hd by (apply swrap_in_i; done).
    assert (block_count (E:=NvFsError) r = Ok e.2) as Hc.
    { unfold r. rewrite block_count_Ok by (cbn; lia). cbn. f_equal. lia. }
    destruct (ApplyScript.encode_s_step (E:=NvFsError) _ Hd) as (n1 & Hn1 & ? & Henc1).
    destruct (ApplyScript.encode_u_step (E:=NvFsError) e.2) as (n2 & Hn2 & ? & Henc2); [unfold in_u; lia|].
    destruct (IH (e.1 + e.2)) as (n & ? & Hlen & Henc); [unfold in_u; lia|].
    exists (n1 + n2 + n)%nat. split; [cbn [length]; lia|]. rewrite fmap_cons. fold r.
    cbn [encoded_len_loop encode_into_loop]. change (rng_end r) with (e.1 + e.2). rewrite Hn1, Hc. cbn [obind]. split.
    + intros k ?. rewrite Hn2. cbn [obind]. rewrite ApplyScript.usize_checked_add_Some by lia. cbn [ok_or obind].
      rewrite Hlen by lia. f_equal. lia.
    + intros dst ?. destruct (Henc1 dst) as (w1 & -> & ? & ?); [lia|]. cbn [obind].
      destruct (Henc2 (drop n1 dst)) as (w2 & -> & ? & ?); [rewrite length_drop; lia|]. cbn [obind]. rewrite drop_drop.
      destruct (Henc (drop (n1 + n2) dst)) as (ws & -> & ? & ?); [rewrite length_drop; lia|]. cbn [obind]. rewrite drop_drop.
      eexists. split; [do 3 f_equal; lia|]. split; [rewrite !length_app; lia|].
      exists (delta r last), w1, w2, ws. split; [done|]. split; [split_and!; try done; [lia|]|split; [split; [done|lia]|done]].
      unfold delta. rewrite wrap_swrap by done. rewrite (wrap_small 64 (wrapping_sub _ _ _)) by (apply wrap_in_u; done).
      apply wrapping_add_sub; [done|]. unfold in_u, r. cbn. lia.
Qed.

Lemma list_bytes_u8 last l bs : list_bytes last l bs → Forall u8 bs.
Proof.
  revert last bs. induction l as [|e l IH]; intros last bs; cbn [list_bytes]; [intros ->; by repeat constructor|].
  intros (d & w1 & w2 & ws & -> & ((? & _) & _) & ((? & _) & _) & Hws). rewrite !Forall_app. eauto.
Qed.
Lemma list_bytes_length last l bs : list_bytes last l bs → (length l + 2 ≤ length bs)%nat.
Proof.
  revert last bs. induction l as [|e l IH]; intros last bs; cbn [list_bytes]; [intros ->; cbn; lia|].
  intros (d & w1 & w2 & ws & -> & (?%ApplyScript.encodes_s_nonempty & _) & _ & Hws%IH). rewrite !length_app. cbn. lia.
Qed.
End EncodeSpec.

(** *** The decode buffer *)

Section DecodeSpec.
Context {B : Build} {Alloc : Allocator} {SI : Type} `{HI : IoSlicesIter SI NvFsError} {HL : IoSlicesIterLaws SI NvFsError}.
Implicit Types st : DecodeState (SI:=SI).

Definition st_ok st (data : list Z) : Prop :=
  length (decode_buf st) = 20%nat ∧ (decode_buf_len st ≤ 20)%nat ∧ valid (src st) ∧
  data = take (decode_buf_len st) (decode_buf st) ++ content (src st) ∧
  (src_exhausted st = true → content (src st) = []).

Lemma refill_loop_spec fuel st data :
  st_ok st data → (20 - decode_buf_len st + 1 < fuel)%nat →
  ∃ st', refill_loop fuel st = Ok st' ∧ st_ok st' data ∧
    decode_buf_len st' = Nat.min 20 (length data) ∧ take (decode_buf_len st') (decode_buf st') = take 20 data.
Proof.
  revert st. induction fuel as [|fuel IH]; intros [buf len s exh] Hst Hfuel; [lia|]. cbn [refill_loop].
  pose proof Hst as (HN & Hlen & Hs & Hdata & Hexh). cbn [decode_buf decode_buf_len src src_exhausted] in *.
  assert (length (take len buf) = len) as Htl by (rewrite length_take; lia).
  assert (exh = true ∨ len = 20%nat → st_ok (mk_state buf len s exh) data → len = Nat.min 20 (length data) ∧ take len buf = take 20 data) as Hend.
  { intros Hor _. rewrite Hdata, length_app, Htl. destruct Hor as [Ht| ->].
    - rewrite (Hexh Ht), app_nil_r. split; [cbn [length]; lia|]. by rewrite take_take, Nat.min_r by lia.
    - split; [lia|]. rewrite take_app_length' by done. done. }
  rewrite HN. destruct exh; cbn [negb andb].
  { destruct Hend as [??]; [by left|done|]. eauto 10. }
  destruct (Nat.ltb_spec len 20); cbn [andb]; [|destruct Hend as [??]; [right; lia|done|]; eauto 10].
  rewrite nsub_Ok by lia. cbn [obind].
  destruct (next_slice_spec s (20 - len) Hs ltac:(lia)) as [(Hc & s' & -> & ? & Hc')|(bs & s' & -> & ? & Hc & ?)]; cbn [obind].
  - eexists. split; [done|]. cbn [decode_buf decode_buf_len]. split; [split_and!; try done; cbn; by rewrite Hc', <-Hc|].
    rewrite Hdata, Hc, app_nil_r, Htl. split; [lia|]. by rewrite take_take, Nat.min_r by lia.
  - rewrite (proj2 (Nat.ltb_ge _ _)) by lia. apply IH; [|cbn; lia].
    split_and!; cbn [decode_buf decode_buf_len src src_exhausted]; try done; [rewrite !length_app, Htl, length_drop; lia|lia|].
    rewrite Hdata, Hc, app_assoc. f_equal. rewrite app_assoc, take_app_length'; [done|]. rewrite length_app, Htl. lia.
Qed.

Lemma list_consume_spec st data p rest :
  st_ok st data → take (decode_buf_len st) (decode_buf st) = p ++ rest →
  ∃ st', consume st (length rest) = Ok st' ∧ st_ok st' (drop (length p) data).
Proof.
  destruct st as [buf len s exh]. intros (HN & Hlen & Hs & Hdata & Hexh) Hp.
  cbn [decode_buf decode_buf_len src src_exhausted] in *.
  assert (len = length p + length rest)%nat as Hpl by (rewrite <-length_app, <-Hp, length_take; lia).
  unfold consume. rewrite nsub_Ok by lia. cbn [obind]. replace (len - length rest)%nat with (length p) by lia.
  rewrite nsub_Ok by lia. cbn [obind]. replace (len - length p)%nat with (length rest) by lia.
  rewrite (proj2 (Nat.ltb_ge _ _)) by lia. eexists. split; [done|].
  assert (take (length rest) (drop (length p) buf) = rest) as Hr.
  { assert (drop (length p) (take len buf) = rest) as Hd by (by rewrite Hp, drop_app_length).
    rewrite <-Hd at 2. rewrite skipn_firstn_comm. f_equal. lia. }
  unfold st_ok. cbn [decode_buf decode_buf_len src src_exhausted].
  rewrite Hr. split_and!; try done; [rewrite length_app, length_drop; lia|lia|].
  rewrite Hdata, Hp, take_app_length, drop_app_le, drop_app_length by (rewrite length_app; lia). done.
Qed.
End DecodeSpec.

(** *** Adding the extents *)

Section Push.
Context {B : Build} {Alloc : Allocator}.

Lemma any_overlaps_eq l r :
  PhysicalExtents.pe_wf l → rng_begin r < rng_end r →
  ∃ b, PhysicalExtents.any_overlaps l r = Ok b ∧ (b = true ↔ ∃ x, x ∈ r ∧ x ∈ PhysicalExtents.pe_blocks l).
Proof.
  intros Hl Hr. induction Hl as [|e l He Hl (b & Hb & IH)]; cbn [PhysicalExtents.any_overlaps].
  { exists false. split; [done|]. split; [done|]. intros (x & _ & Hx). by apply elem_of_nil in Hx. }
  rewrite PhysicalExtents.unpack_entry_Ok by done. cbn [obind]. destruct He as (? & ? & ?).
  pose proof (overlaps_with_spec (PhysicalExtents.entry_range e) r ltac:(cbn; lia) Hr) as Ho.
  destruct (overlaps_with _ r).
  - exists true. split; [done|]. split; [|done]. intros _. destruct (proj1 Ho eq_refl) as (x & Hx & ?). exists x. split; [done|].
    apply PhysicalExtents.elem_of_pe_blocks. exists e. split; [by left|]. by rewrite elem_of_range in Hx.
  - exists b. split; [done|]. rewrite IH. rewrite PhysicalExtents.pe_blocks_cons. setoid_rewrite elem_of_app.
    split; [naive_solver|]. intros (x & Hx & [Hxe|]); [|eauto]. exfalso. assert (false = true); [|done]. apply Ho.
    exists x. split; [|done]. rewrite elem_of_seqZ in Hxe. rewrite elem_of_range. cbn. lia.
Qed.

(** [push_extent] without merging; it asserts that the new extent is disjoint
    from the others. *)
Lemma push_extent_cases l r :
  PhysicalExtents.pe_wf l → range_ok r →
  let disjoint := ∀ x, x ∈ r → x ∉ PhysicalExtents.pe_blocks l in
  (PhysicalExtents.push_extent l r true = Ok (l ++ [(rng_begin r, rng_end r - rng_begin r)]) ∧
     (debug_assertions = true → disjoint)) ∨
  (PhysicalExtents.push_extent l r true = Err MemoryAllocationFailure ∧ alloc_ok (length l) 1 = false) ∨
  (PhysicalExtents.push_extent l r true = Panic ∧ debug_assertions = true ∧ ¬ disjoint).
Proof.
  intros Hl [Hr Hr'] disjoint. unfold PhysicalExtents.push_extent, PhysicalExtents.insert_extent. zdec. cbn [debug_assert obind].
  rewrite block_count_Ok by lia. cbn [obind]. zdec. destruct (any_overlaps_eq l r Hl) as (b & -> & Hb); [lia|].
  unfold debug_check, try_reserve, vec_insert. cbn [obind].
  assert (b = false → disjoint) as Hd.
  { intros -> x Hx Hin. assert (false = true); [|done]. apply Hb. eauto. }
  assert (b = true → ¬ disjoint) as Hnd by (intros Hbt Hdis; destruct (proj1 Hb Hbt) as (x & ? & ?); by eapply Hdis).
  destruct debug_assertions.
  - destruct b; cbn [negb obind]; [by right; right; auto|]. destruct (alloc_ok _ _); cbn [obind]; [left|by right; left].
    zdec. rewrite take_ge, drop_ge by lia. auto.
  - cbn [obind]. destruct (alloc_ok _ _); cbn [obind]; [left|by right; left]. zdec. rewrite take_ge, drop_ge by lia. done.
Qed.
End Push.

(** *** The decoder *)

Section DecodeLoop.
Context {B : Build} {Alloc : Allocator} {SI : Type} `{HI : IoSlicesIter SI NvFsError} {HL : IoSlicesIterLaws SI NvFsError}.
Implicit Types st : DecodeState (SI:=SI).

(** The terminating zeros, when they are all that is left. *)
Lemma terminator st data :
  decode_buf_len st = 2%nat → take (decode_buf_len st) (decode_buf st) = take 20 data → length data = 2%nat →
  ∃ b0 b1, data = [b0; b1] ∧ idx (E:=NvFsError) (decode_buf st) 0 = Ok b0 ∧ idx (E:=NvFsError) (decode_buf st) 1 = Ok b1.
Proof.
  intros -> Hp Hl. destruct data as [|b0 [|b1 [|]]]; cbn in Hl; try lia. exists b0, b1. split; [done|].
  destruct (decode_buf st) as [|c0 [|c1 buf]]; cbn in Hp; try done. by injection Hp as -> ->.
Qed.

Lemma decode_loop_encoded l fuel st last total acc bs :
  (∀ n, alloc_ok n 1 = true) →
  in_image (acc ++ l) → NoDup (PhysicalExtents.pe_blocks (acc ++ l)) → total = sum_counts acc →
  list_bytes last l bs → st_ok st bs → (length l < fuel)%nat →
  decode_loop fuel st last total acc = Ok (acc ++ l).
Proof.
  intros Ha. revert fuel st last total acc bs. induction l as [|e l IH]; intros fuel st last total acc bs Him Hnd Htot Hbs Hst Hfuel;
    (destruct fuel as [|fuel]; [lia|]); cbn [decode_loop];
    destruct (refill_loop_spec (S (S (length (decode_buf st)))) st bs Hst) as (st1 & -> & Hst1 & Hlen & Hpend);
    try (destruct Hst as (-> & ? & _); lia); cbn [obind].
  - cbn [list_bytes] in Hbs. subst bs. cbn in Hlen. rewrite Hlen. cbn [Nat.ltb Nat.leb Nat.eqb].
    destruct (terminator st1 [0; 0] Hlen Hpend eq_refl) as (b0 & b1 & [= <- <-] & -> & ->). cbn. by rewrite app_nil_r.
  - destruct Hbs as (d & w1 & w2 & ws & -> & (Hw1 & ? & ? & Hd) & (Hw2 & ?) & Hws).
    pose proof (list_bytes_u8 _ _ _ Hws). pose proof (list_bytes_length _ _ _ Hws).
    pose proof (ApplyScript.encodes_s_nonempty _ _ Hw1). pose proof (ApplyScript.encodes_u_nonempty _ _ Hw2).
    assert (2 < decode_buf_len st1)%nat by (rewrite Hlen, !length_app; lia). zdec. rewrite Hpend.
    assert (0 ≤ e.1 ∧ 0 < e.2 ∧ e.1 + e.2 < 2 ^ 57) as He.
    { destruct Him as [Him _]. apply Forall_app in Him as [_ Him]. by apply Forall_cons in Him as [? _]. }
    rewrite app_assoc in Hpend, Hst1 |- *. rewrite ApplyScript.take_through in * by (rewrite length_app; lia).
    set (X := take _ ws) in *. assert (Forall u8 X) by by apply Forall_take.
    destruct Hw1 as [Hu1 Hw1'], Hw2 as [Hu2 Hw2']. unfold ApplyScript.format_err. rewrite <-app_assoc.
    rewrite (decode_encodes_s d) by (done || by rewrite !Forall_app). cbn [map_err obind].
    rewrite (decode_encodes_u e.2) by (done || (unfold in_u; lia)). cbn [map_err obind].
    destruct (list_consume_spec st1 _ (w1 ++ w2) X Hst1 Hpend) as (st2 & -> & Hst2). cbn [obind]. rewrite drop_app_length in Hst2.
    zdec. rewrite Hd. change MAX_IMAGE_ALLOCATION_BLOCKS_LOG2 with 57. rewrite ushr_Ok by lia. cbn [obind].
    rewrite (proj2 (lor_shiftr_zero e.1 e.2 57 ltac:(lia) ltac:(lia) ltac:(lia))) by lia. cbn [Z.eqb negb].
    rewrite uadd_Ok by lia. cbn [obind].
    assert (0 ≤ total ∧ total + e.2 < 2 ^ 57) as [??].
    { destruct Him as [Him Hsum]. rewrite sum_counts_app in Hsum. change (sum_counts (e :: l)) with (e.2 + sum_counts l) in Hsum.
      apply Forall_app in Him as [Hacc Him]. apply Forall_cons in Him as [_ Him].
      pose proof (sum_counts_nonneg _ Hacc). pose proof (sum_counts_nonneg _ Him). lia. }
    rewrite uadd_Ok by lia. cbn [obind]. rewrite ushr_Ok by lia. cbn [obind].
    rewrite (proj2 (lor_shiftr_zero (e.1 + e.2) (total + e.2) 57 ltac:(lia) ltac:(lia) ltac:(lia))) by lia. cbn [Z.eqb negb].
    rewrite range_new_Ok by lia. cbn [obind]. replace (acc ++ e :: l) with ((acc ++ [e]) ++ l) in * by (by rewrite <-app_assoc).
    assert (PhysicalExtents.pe_wf acc) as Hacc by (apply in_image_wf in Him; by apply PhysicalExtents.pe_wf_app in Him as [[? _]%PhysicalExtents.pe_wf_app _]).
    destruct (push_extent_cases acc (mk_range e.1 (e.1 + e.2)) Hacc) as [[-> _]|[[_ Hf]|(_ & _ & Hov)]].
    + unfold range_ok. cbn. lia.
    + cbn [obind rng_begin rng_end]. replace (e.1, e.1 + e.2 - e.1) with e by (destruct e; cbn; f_equal; lia).
      apply (IH _ _ _ _ _ ws); [done|done| |done|done|cbn in *; lia]. rewrite sum_counts_app, Htot. cbn. lia.
    + by rewrite Ha in Hf.
    + destruct Hov. intros x Hx Hin. rewrite PhysicalExtents.pe_blocks_app in Hnd. apply NoDup_app in Hnd as (Hnd & _ & _).
      rewrite PhysicalExtents.pe_blocks_app in Hnd. apply NoDup_app in Hnd as (_ & Hdis & _). apply (Hdis x Hin).
      rewrite PhysicalExtents.pe_blocks_cons. apply elem_of_app. left. apply elem_of_seqZ. rewrite elem_of_range in Hx. cbn in Hx. lia.
Qed.

(** What the decoder may end with. *)
Definition decode_answer (r : res extents) : Prop :=
  match r with
  | Ok l => in_image l ∧ (debug_assertions = true → NoDup (PhysicalExtents.pe_blocks l))
  | Err e => e = from_format InvalidExtents ∨ e = MemoryAllocationFailure
  | Panic => debug_assertions = true
  | Diverge => False
  end.

(** One extent more. *)
Lemma in_image_snoc acc b n :
  in_image acc → 0 ≤ b → 0 < n → b + n < 2 ^ 57 → sum_counts acc + n < 2 ^ 57 → in_image (acc ++ [(b, n)]).
Proof.
  intros [Hacc Hsum] ? ? ? ?. split; [apply Forall_app; split; [done|]; constructor; [cbn; lia|constructor]|].
  rewrite sum_counts_app. cbn. lia.
Qed.

Lemma decode_loop_any fuel st data last acc :
  in_image acc → (debug_assertions = true → NoDup (PhysicalExtents.pe_blocks acc)) →
  Forall u8 data → st_ok st data → (length data < fuel)%nat →
  decode_answer (decode_loop fuel st last (sum_counts acc) acc).
Proof.
  revert st data last acc. induction fuel as [|fuel IH]; intros st data last acc Him Hnd Hdata Hst Hfuel; [lia|]. cbn [decode_loop].
  destruct (refill_loop_spec (S (S (length (decode_buf st)))) st data Hst) as (st1 & -> & Hst1 & Hlen & Hpend).
  { destruct Hst as (-> & ? & _). lia. }
  cbn [obind]. destruct (Nat.ltb_spec (decode_buf_len st1) 2); [by left|].
  destruct (Nat.eqb_spec (decode_buf_len st1) 2) as [Heq|Hne].
  { destruct (terminator st1 data Heq Hpend) as (b0 & b1 & -> & -> & ->); [lia|]. cbn [obind]. destruct (_ || _); [by left|done]. }
  rewrite Hpend. assert (Forall u8 (take 20 data)) as Hu by by apply Forall_take.
  destruct (ApplyScript.decode_s_cases (from_format InvalidExtents) _ Hu) as [->|(d & p1 & r1 & -> & ? & Hp1 & ? & Hu1)]; [by left|].
  cbn [obind]. destruct (ApplyScript.decode_u_cases (from_format InvalidExtents) _ Hu1) as [->|(n & p2 & r2 & -> & [??] & Hp2 & ? & Hu2)]; [by left|].
  cbn [obind]. assert (take 20 data = (p1 ++ p2) ++ r2) as Hp by (by rewrite Hp1, Hp2, <-app_assoc).
  rewrite Hp in Hpend. destruct (list_consume_spec st1 data (p1 ++ p2) r2 Hst1 Hpend) as (st2 & -> & Hst2). cbn [obind].
  destruct (Z.eqb_spec n 0); [by left|]. set (b := wrapping_add 64 last (wrap 64 d)).
  assert (in_u 64 b) as [??] by (apply wrap_in_u; done). pose proof (sum_counts_nonneg _ (proj1 Him)).
  change MAX_IMAGE_ALLOCATION_BLOCKS_LOG2 with 57. rewrite ushr_Ok by lia. cbn [obind].
  destruct (Z.eqb_spec (Z.shiftr (Z.lor b n) 57) 0) as [Hz|]; cbn [negb]; [|by left].
  apply lor_shiftr_zero in Hz; [|lia..]. destruct Him as [Him Hsum]. rewrite !uadd_Ok by lia. cbn [obind].
  rewrite ushr_Ok by lia. cbn [obind].
  destruct (Z.eqb_spec (Z.shiftr (Z.lor (b + n) (sum_counts acc + n)) 57) 0) as [Hz'|]; cbn [negb]; [|by left].
  apply lor_shiftr_zero in Hz'; [|lia..]. rewrite range_new_Ok by lia. cbn [obind].
  destruct (push_extent_cases acc (mk_range b (b + n))) as [[-> Hdis]|[[-> _]|(-> & ? & _)]].
  - by apply in_image_wf.
  - unfold range_ok. cbn. lia.
  - cbn [obind rng_begin rng_end]. replace (b + n - b) with n by lia.
    replace (sum_counts acc + n) with (sum_counts (acc ++ [(b, n)])) by (rewrite sum_counts_app; cbn; lia).
    apply (IH _ (drop (length (p1 ++ p2)) data)); [by apply in_image_snoc; try lia; split| |by apply Forall_drop|done|].
    + intros Hdbg. rewrite PhysicalExtents.pe_blocks_app. apply NoDup_app. split; [by apply Hnd|]. split.
      * intros x Hin Hx. apply (Hdis Hdbg x); [|done]. rewrite PhysicalExtents.pe_blocks_cons, app_nil_r in Hx.
        rewrite elem_of_seqZ in Hx. rewrite elem_of_range. cbn in *. lia.
      * rewrite PhysicalExtents.pe_blocks_cons, app_nil_r. apply NoDup_seqZ.
    + rewrite length_drop, length_app. destruct p1; [done|]. assert (1 ≤ length data)%nat by lia. cbn [length]. lia.
  - by right.
  - done.
Qed.
End DecodeLoop.

(** A direct reference to a list that qualifies for it decodes to its extent. *)
Lemma encode_direct_decodes {B : Build} l s :
  in_image l → 0 ≤ s < 57 → Forall (λ e, e.1 + e.2 < 2 ^ (57 - s)) l →
  can_encode_direct l = Ok true →
  ∃ p, extent_ptr_encode_direct l = Ok p ∧
    ExtentPtr.extent_ptr_decode p s = Ok ((λ e, (PhysicalExtents.entry_range e, false)) <$> list.head l).
Proof.
  intros [Him _] Hs Hend Hd. unfold extent_ptr_encode_direct. rewrite Hd. cbn [obind negb].
  destruct l as [|e [|]]; [..|done]; cbn [list.head fmap option_fmap option_map].
  { exists ExtentPtr.extent_ptr_encode_nil. split; [done|]. unfold ExtentPtr.extent_ptr_decode. by vm_compute. }
  apply Forall_cons in Him as [He _]. apply Forall_cons in Hend as [Hend _]. cbn beta in *.
  unfold can_encode_direct in Hd. cbn [length Nat.eqb] in Hd. rewrite (PhysicalExtents.get_extent_range_Ok _ 0 e) in Hd;
    [|done|unfold PhysicalExtents.entry_ok; lia]. cbn [obind] in Hd. rewrite block_count_Ok in Hd by (cbn; lia). cbn [obind] in Hd.
  injection Hd as Hd%Z.leb_le. change ExtentPtr.MAX_EXTENT_ALLOCATION_BLOCKS with 64 in Hd. cbn [rng_begin rng_end PhysicalExtents.entry_range] in Hd.
  rewrite range_from_Ok by lia. cbn [obind]. set (r := mk_range e.1 (e.1 + e.2)).
  assert (2 ^ (57 - s) ≤ 2 ^ 57) by (apply Z.pow_le_mono_r; lia).
  destruct (ExtentPtr.extent_ptr_decode_encode r false s) as (p & ? & _ & _ & ?); [done|unfold range_ok, r; cbn; lia|unfold r; cbn; lia..|].
  by exists p.
Qed.

(** ** Properties *)

Section Properties.
Context {B : Build} {Alloc : Allocator} {SI : Type} `{HI : IoSlicesIter SI NvFsError} {HL : IoSlicesIterLaws SI NvFsError}.

(** C39: the encoding of a list of disjoint extents of an image has the announced
    length and decodes, from any sequence of slices that holds it, to the same
    list. *)
Theorem extents_list_roundtrip l (src : SI) fuel :
  (∀ n m, alloc_ok n m = true) → in_image l → NoDup (PhysicalExtents.pe_blocks l) → Z.of_nat (length l) < 2 ^ 58 →
  ∃ bs, indirect_extents_list_encoded_len (PhysicalExtents.entry_range <$> l) = Ok (length bs) ∧
    indirect_extents_list_encode (PhysicalExtents.entry_range <$> l) None = Ok bs ∧
    (valid src → content src = bs → (length bs < fuel)%nat → indirect_extents_list_decode fuel src = Ok l).
Proof.
  intros Ha Him Hnd Hlen. destruct (encode_into_loop_spec l 0 (proj1 Him)) as (n & ? & Hn & Henc); [done|].
  assert (indirect_extents_list_encoded_len (PhysicalExtents.entry_range <$> l) = Ok (n + 2)%nat) as Hn'.
  { unfold indirect_extents_list_encoded_len. rewrite Hn by lia. f_equal. lia. }
  destruct (Henc (replicate (n + 2) 0)) as (bs & Hbs & Hbl & Hb); [by rewrite length_replicate|]. exists bs. rewrite Hbl.
  split; [done|]. split.
  - unfold indirect_extents_list_encode, try_reserve, indirect_extents_list_encode_into. rewrite Hn'. cbn [obind].
    rewrite Ha. cbn [obind]. rewrite Hbs. cbn [obind]. by rewrite drop_ge, app_nil_r by (rewrite length_replicate; lia).
  - intros Hsrc Hc Hfuel. unfold indirect_extents_list_decode. pose proof (list_bytes_length _ _ _ Hb).
    apply (decode_loop_encoded l fuel _ 0 0 [] bs); try done; [|lia]. split_and!; cbn; try done; lia.
Qed.

(** C40: decoding arbitrary bytes as an extents list ends; it gives the format
    error, a failed allocation or extents that are, like their total length,
    within the addressable blocks.  It does not panic in a release build; in a
    debug build the extents it returns are disjoint, as overlapping ones make
    the assertion in [push_extent] fail. *)
Theorem extents_list_decode_correct (src : SI) fuel :
  valid src → Forall u8 (content src) → (length (content src) < fuel)%nat →
  match indirect_extents_list_decode fuel src with
  | Ok l => in_image l ∧ (debug_assertions = true → NoDup (PhysicalExtents.pe_blocks l))
  | Err e => e = from_format InvalidExtents ∨ e = MemoryAllocationFailure
  | Panic => debug_assertions = true
  | Diverge => False
  end.
Proof.
  intros Hsrc Hu Hf. apply (decode_loop_any fuel _ (content src) 0 []); try done; [intros _; apply NoDup_nil_2|].
  split_and!; cbn; try done; lia.
Qed.
End Properties.

(** Two extents that overlap, from block 5 on and from block 6 on. *)
Lemma overlapping_extents_panic :
  indirect_extents_list_decode (B:=debug_build) (Alloc:=PhysicalExtents.granting) 9 (singleton_new [5; 2; 127; 2; 0; 0]) = Panic ∧
  indirect_extents_list_decode (B:=release_build) (Alloc:=PhysicalExtents.granting) 9 (singleton_new [5; 2; 127; 2; 0; 0]) =
    Ok [(5, 2); (6, 2)].
Proof. split; vm_compute; reflexivity. Qed.

Lemma example_in_image : in_image [(9, 2); (4, 3)] ∧ NoDup (PhysicalExtents.pe_blocks [(9, 2); (4, 3)]).
Proof.
  split; [split; [by repeat constructor|done]|]. vm_compute. repeat (constructor; [by apply (bool_decide_unpack _)|]). constructor.
Qed.

Lemma extents_list_roundtrip_witness :
  indirect_extents_list_decode (B:=debug_build) (Alloc:=PhysicalExtents.granting) 9
    (buffers_new [[9; 2]; []; [121; 3; 0; 0]]) = Ok [(9, 2); (4, 3)].
Proof.
  destruct (extents_list_roundtrip (B:=debug_build) (Alloc:=PhysicalExtents.granting) (HL:=buffers_laws) [(9, 2); (4, 3)]
    (buffers_new [[9; 2]; []; [121; 3; 0; 0]]) 9) as (bs & _ & Hbs & Hdec); [done|apply example_in_image..|done|].
  vm_compute in Hbs. injection Hbs as <-. exact (Hdec (buffers_new_valid _) eq_refl ltac:(cbn; lia)).
Defined.

Lemma extents_list_decode_correct_witness :
  ∃ e, indirect_extents_list_decode (B:=debug_build) (Alloc:=PhysicalExtents.granting) 9 (singleton_new [9; 2; 1]) = Err e ∧
    (e = from_format InvalidExtents ∨ e = MemoryAllocationFailure).
Proof.
  eexists. split; [vm_compute; reflexivity|].
  exact (extents_list_decode_correct (B:=debug_build) (Alloc:=PhysicalExtents.granting) (HL:=singleton_laws) (singleton_new [9; 2; 1]) 9
    I ltac:(by repeat constructor) ltac:(cbn; lia)).
Defined.

End InodeExtentsList.
