(* ===== verification/BitmapWord.v ===== *)
(** * Words of the allocation bitmap (storage/src/fs/cocoonfs/alloc_bitmap/bitmap_word.rs)

    A [BitmapWord] is a [u64].  The table of masks with equidistant bits, which
    the searches for free blocks use, and its direct computation. *)

From S2P Require Import Prelude.

Module BitmapWord.

Definition BITMAP_WORD_BITS : Z := 64.
Definition BITMAP_WORD_BITS_LOG2 : Z := 6.

(** [BitmapWordBlocksLsbsMaskTable] has the table as its only field. *)
Abbreviation mask_table := (list Z).

Section Ops.
Context {B : Build} {E : Type}.

(** The loop of [init_word_blocks_lsbs_masks_table]; it runs for the logarithms
    5 to 1. *)
Fixpoint init_table_loop (fuel : nat) (table : mask_table) (blocks_lsbs_mask log2 : Z) : outcome E mask_table :=
  if 1 <? log2 then
    match fuel with
    | O => Diverge
    | S fuel =>
        let! log2 := usub 32 log2 1 in
        let! block_allocation_blocks := ushl 32 1 log2 in
        let! shifted := ushl 64 blocks_lsbs_mask block_allocation_blocks in
        let blocks_lsbs_mask := Z.lor blocks_lsbs_mask shifted in
        let! table := set_idx table (Z.to_nat log2 - 1) blocks_lsbs_mask in
        init_table_loop fuel table blocks_lsbs_mask log2
    end
  else Ok table.
Definition init_word_blocks_lsbs_masks_table : outcome E mask_table :=
  init_table_loop 5 (replicate 5 0) 1 BITMAP_WORD_BITS_LOG2.

Definition get_blocks_lsbs_mask (self : mask_table) (block_allocation_blocks_log2 : Z) : outcome E Z :=
  if block_allocation_blocks_log2 =? 0 then Ok (unot 64 0)
  else if block_allocation_blocks_log2 =? BITMAP_WORD_BITS_LOG2 then Ok 1
  else
    let! i := nsub (Z.to_nat block_allocation_blocks_log2) 1 in
    idx self i.

Definition compute_blocks_lsbs_mask (block_allocation_blocks_log2 : Z) : outcome E Z :=
  if block_allocation_blocks_log2 =? BITMAP_WORD_BITS_LOG2 then Ok 1
  else
    let! block_allocation_blocks := ushl 32 1 block_allocation_blocks_log2 in
    let! t := ushl 64 1 block_allocation_blocks in
    let! block_allocation_blocks_mask := usub 64 t 1 in
    Ok (unot 64 0 / block_allocation_blocks_mask).
End Ops.

(** ** Specification *)

(** [m] has exactly the bits at the multiples of [2^k] set. *)
Definition equidistant (k m : Z) : bool :=
  (0 <=? m) && (m <? 2 ^ 64) && forallb (λ i, Bool.eqb (Z.testbit m i) (i mod 2 ^ k =? 0)) (seqZ 0 64).

Lemma equidistant_testbit k m i :
  equidistant k m = true → 0 ≤ i < 64 → Z.testbit m i = (i mod 2 ^ k =? 0).
Proof.
  unfold equidistant. rewrite !andb_true_iff, forallb_forall. intros [_ Hm] ?.
  apply eqb_prop, Hm. apply list_elem_of_In, elem_of_seqZ. lia.
Qed.

(** The mask for blocks of [2^k], and the table of those that are not trivial. *)
Definition lsbs_mask (k : Z) : Z := unot 64 0 / (2 ^ 2 ^ k - 1).
Definition lsbs_table : mask_table := lsbs_mask <$> seqZ 1 5.

Lemma log2_cases k : 0 ≤ k ≤ 6 → k = 0 ∨ k = 1 ∨ k = 2 ∨ k = 3 ∨ k = 4 ∨ k = 5 ∨ k = 6.
Proof. lia. Qed.

Lemma lsbs_mask_equidistant k : 0 ≤ k ≤ 6 → equidistant k (lsbs_mask k) = true.
Proof. intros Hk%log2_cases. destruct_or! Hk; subst k; vm_compute; reflexivity. Qed.
Lemma lsbs_mask_in_u k : 0 ≤ k ≤ 6 → in_u 64 (lsbs_mask k).
Proof. intros Hm%lsbs_mask_equidistant. unfold equidistant in Hm. rewrite !andb_true_iff, Z.leb_le, Z.ltb_lt in Hm. unfold in_u. tauto. Qed.
Lemma lsbs_mask_testbit k i : 0 ≤ k ≤ 6 → 0 ≤ i < 64 → Z.testbit (lsbs_mask k) i = (i mod 2 ^ k =? 0).
Proof. intros Hk. by apply equidistant_testbit, lsbs_mask_equidistant. Qed.

Lemma init_table_Ok {B : Build} {E} : init_word_blocks_lsbs_masks_table (E:=E) = Ok lsbs_table.
Proof. by vm_compute. Qed.
Lemma get_blocks_lsbs_mask_Ok {E} k : 0 ≤ k ≤ 6 → get_blocks_lsbs_mask (E:=E) lsbs_table k = Ok (lsbs_mask k).
Proof. intros Hk%log2_cases. destruct_or! Hk; subst k; vm_compute; reflexivity. Qed.

(** For every block size up to a word, the table entry and the direct
    computation agree: the mask has a bit set at the start of each block and no
    other. *)
Lemma blocks_lsbs_mask_correct {B : Build} {E} k :
  0 ≤ k ≤ 6 →
  ∃ table m, init_word_blocks_lsbs_masks_table (E:=E) = Ok table ∧
    get_blocks_lsbs_mask (E:=E) table k = Ok m ∧ compute_blocks_lsbs_mask (E:=E) k = Ok m ∧
    in_u 64 m ∧ ∀ i, 0 ≤ i < 64 → Z.testbit m i = true ↔ (2 ^ k | i).
Proof.
  intros Hk. exists lsbs_table, (lsbs_mask k).
  split_and!; [apply init_table_Ok|by apply get_blocks_lsbs_mask_Ok| |by apply lsbs_mask_in_u|].
  - apply log2_cases in Hk. destruct_or! Hk; subst k; vm_compute; reflexivity.
  - intros i Hi. rewrite lsbs_mask_testbit, Z.eqb_eq by done. pose proof (pow2_pos k ltac:(lia)).
    apply Z.mod_divide. lia.
Qed.

Lemma blocks_lsbs_mask_correct_witness :
  ∃ table m, init_word_blocks_lsbs_masks_table (B:=debug_build) (E:=unit) = Ok table ∧
    get_blocks_lsbs_mask (E:=unit) table 4 = Ok m ∧ compute_blocks_lsbs_mask (B:=debug_build) (E:=unit) 4 = Ok m ∧
    in_u 64 m ∧ ∀ i, 0 ≤ i < 64 → Z.testbit m i = true ↔ (2 ^ 4 | i).
Proof. apply (@blocks_lsbs_mask_correct debug_build unit 4). lia. Defined.

End BitmapWord.
