(* ===== verification/SparseBitmap.v ===== *)
(** * Sparse allocation bitmaps (storage/src/fs/cocoonfs/alloc_bitmap/sparse_bitmap.rs)

    The pending allocations and deallocations of a transaction: the words of a
    bitmap that have a bit set, sorted by their position.

    The state includes the capacity of the vector of entries, on which the
    rollback of a removal relies.  A method that fails also returns the state it
    leaves behind: a [Result] is a value of a sum here, next to the state. *)

From S2P Require Import Prelude BitManip Errors Layout ImageLayout BitmapWord.
Import BitManip Errors Layout BitmapWord.


Module SparseBitmap.

Abbreviation res := (outcome NvFsError).
Abbreviation usize_bits := ImageLayout.usize_bits.

Record SparseAllocBitmapEntry := mk_entry { bitmap_word_index : Z; bitmap_word : Z }.

Record SparseAllocBitmap := mk_sparse {
  entries : list SparseAllocBitmapEntry;
  capacity : Z;
  remove_rollback_reserve_capacity : Z;
}.

#[export] Instance SparseAllocBitmapEntry_eq_dec : EqDecision SparseAllocBitmapEntry.
Proof. solve_decision. Defined.

Definition set_entries (self : SparseAllocBitmap) (es : list SparseAllocBitmapEntry) : SparseAllocBitmap :=
  mk_sparse es (capacity self) (remove_rollback_reserve_capacity self).

Definition new : SparseAllocBitmap := mk_sparse [] 0 0.

Definition is_empty (self : SparseAllocBitmap) : bool := match entries self with [] => true | _ => false end.

Definition reset_remove_rollback (self : SparseAllocBitmap) : SparseAllocBitmap :=
  mk_sparse (entries self) (capacity self) 0.

(** [e.bitmap_word_index.cmp(&bitmap_word_index)]. *)
Definition find_entry_position (self : SparseAllocBitmap) (bitmap_word_index0 : Z) : nat + nat :=
  binary_search_by (λ e, (bitmap_word_index e ?= bitmap_word_index0)%Z) (entries self).
Definition entry_position (self : SparseAllocBitmap) (bitmap_word_index0 : Z) : nat :=
  match find_entry_position self bitmap_word_index0 with inl i => i | inr i => i end.

Section Ops.
Context {B : Build} {Alloc : Allocator} {P : ImageLayout.Platform}.
Implicit Types (self : SparseAllocBitmap) (range : BlockRange).

(** [Vec::try_reserve_exact]: nothing to do if the spare capacity is enough,
    otherwise the vector is reallocated to what is needed, which is at most
    [isize::MAX] bytes; an entry has 16 bytes. *)
Definition max_capacity_bytes : Z := 2 ^ (usize_bits - 1).
Definition try_reserve_exact self (additional : Z) : option SparseAllocBitmap :=
  let len := Z.of_nat (length (entries self)) in
  if additional <=? capacity self - len then Some self
  else if (16 * (len + additional) <? max_capacity_bytes) && alloc_ok (length (entries self)) (Z.to_nat additional)
  then Some (mk_sparse (entries self) (len + additional) (remove_rollback_reserve_capacity self))
  else None.

(** The position of the first bitmap word of a range and the number of words,
    computed at the start of two methods. *)
Definition range_words range : res (Z * Z) :=
  let! physical_allocation_block_count := block_count range in
  let physical_allocation_block := rng_begin range in
  let! bitmap_word_index := ushr 64 physical_allocation_block BITMAP_WORD_BITS_LOG2 in
  let! mask := trailing_bits_mask_u 64 BITMAP_WORD_BITS_LOG2 in
  let offset_in_bitmap_word := Z.land physical_allocation_block mask in
  let! physical_allocation_block_count := uadd 64 physical_allocation_block_count offset_in_bitmap_word in
  let! bitmap_words_count := ushr 64 physical_allocation_block_count BITMAP_WORD_BITS_LOG2 in
  let! t := ushl 64 bitmap_words_count BITMAP_WORD_BITS_LOG2 in
  let! bitmap_words_count :=
    if negb (t =? physical_allocation_block_count) then uadd 64 bitmap_words_count 1 else Ok bitmap_words_count in
  Ok (bitmap_word_index, bitmap_words_count).

(** The [debug_assert!]s on a hint and the position it stands for. *)
Definition hinted_position self (bitmap_word_index0 : Z) (first_entry_index_hint : option nat) : res nat :=
  match first_entry_index_hint with
  | Some hint =>
      let! _ := debug_check
        (if (hint =? length (entries self))%nat then Ok true
         else let! e := idx (entries self) hint in Ok (bitmap_word_index0 <=? bitmap_word_index e)) in
      let! _ := debug_check
        (if (hint =? 0)%nat then Ok true
         else let! e := idx (entries self) (hint - 1) in Ok (bitmap_word_index e <? bitmap_word_index0)) in
      Ok hint
  | None => Ok (entry_position self bitmap_word_index0)
  end.

(** ** [prune_unused_in_range] *)

(** [find] on the entries after one to remove: the first that must stay. *)
Fixpoint batch_end (es : list SparseAllocBitmapEntry) (bitmap_word_index0 bitmap_words_count : Z) (i : nat)
    : res (option nat) :=
  match es with
  | [] => Ok None
  | e :: es =>
      if negb (bitmap_word e =? 0) then Ok (Some i)
      else
        let! d := usub 64 (bitmap_word_index e) bitmap_word_index0 in
        if bitmap_words_count <=? d then Ok (Some i) else batch_end es bitmap_word_index0 bitmap_words_count (S i)
  end.

(** A round advances in the entries or removes some of them. *)
Fixpoint prune_loop (fuel : nat) self (prepare_for_rollback : bool) (entry_index : nat)
    (bitmap_word_index0 bitmap_words_count : Z) : res SparseAllocBitmap :=
  if (entry_index <? length (entries self))%nat && negb (bitmap_words_count =? 0) then
    match fuel with
    | O => Diverge
    | S fuel =>
        let! entry := idx (entries self) entry_index in
        let next_bitmap_word_index := bitmap_word_index entry in
        let! _ := debug_assert (bitmap_word_index0 <=? next_bitmap_word_index) in
        let! skipped := usub 64 next_bitmap_word_index bitmap_word_index0 in
        let bitmap_words_count := Z.max 0 (bitmap_words_count - skipped) in
        let bitmap_word_index0 := next_bitmap_word_index in
        if bitmap_words_count =? 0 then Ok self
        else if bitmap_word entry =? 0 then
          let! rest := slice_from (entries self) (entry_index + 1) in
          let! found := batch_end rest bitmap_word_index0 bitmap_words_count 0 in
          let cur_batch_len := (default 0%nat found + 1)%nat in
          let! last := idx (entries self) (entry_index + cur_batch_len - 1) in
          let! next_bitmap_word_index := uadd 64 (bitmap_word_index last) 1 in
          let! removed := usub 64 next_bitmap_word_index bitmap_word_index0 in
          let! bitmap_words_count := usub 64 bitmap_words_count removed in
          let bitmap_word_index0 := next_bitmap_word_index in
          let! es := vec_drain (entries self) entry_index (entry_index + cur_batch_len) in
          let! reserve :=
            if prepare_for_rollback
            then uadd usize_bits (remove_rollback_reserve_capacity self) (Z.of_nat cur_batch_len)
            else Ok (remove_rollback_reserve_capacity self) in
          prune_loop fuel (mk_sparse es (capacity self) reserve) prepare_for_rollback entry_index
            bitmap_word_index0 bitmap_words_count
        else
          let! bitmap_word_index0 := uadd 64 bitmap_word_index0 1 in
          let! bitmap_words_count := usub 64 bitmap_words_count 1 in
          prune_loop fuel self prepare_for_rollback (entry_index + 1) bitmap_word_index0 bitmap_words_count
    end
  else Ok self.

Definition prune_unused_in_range self range (first_entry_index_hint : option nat) (prepare_for_rollback : bool)
    : res SparseAllocBitmap :=
  let! '(bitmap_word_index0, bitmap_words_count) := range_words range in
  let! entry_index := hinted_position self bitmap_word_index0 first_entry_index_hint in
  prune_loop (S (length (entries self))) self prepare_for_rollback entry_index bitmap_word_index0 bitmap_words_count.

(** ** [populate_missing_in_range] *)

(** The entries that the closures of [resize_with] and [repeat_with] make, and
    the next index. *)
Fixpoint fresh_entries (n : nat) (bitmap_word_index0 : Z) : res (list SparseAllocBitmapEntry * Z) :=
  match n with
  | O => Ok ([], bitmap_word_index0)
  | S n =>
      let cur_bitmap_word_index := bitmap_word_index0 in
      let! bitmap_word_index0 := uadd 64 bitmap_word_index0 1 in
      let! '(es, bitmap_word_index0) := fresh_entries n bitmap_word_index0 in
      Ok (mk_entry cur_bitmap_word_index 0 :: es, bitmap_word_index0)
  end.

(** [Vec::splice] of an empty range. *)
Definition vec_splice (l : list SparseAllocBitmapEntry) (i : nat) (es : list SparseAllocBitmapEntry)
    : res (list SparseAllocBitmapEntry) :=
  if (i <=? length l)%nat then Ok (take i l ++ es ++ drop i l) else Panic.

Definition populate_rollback self range (first_entry_index : nat) : res (SparseAllocBitmap * (nat + NvFsError)) :=
  let! self := prune_unused_in_range self range (Some first_entry_index) false in
  Ok (self, inr MemoryAllocationFailure).

(** A round advances past an entry that was there before, or is the last. *)
Fixpoint populate_loop (fuel : nat) range (first_entry_index : nat) self (next_entry_index : nat)
    (bitmap_word_index0 bitmap_words_count : Z) : res (SparseAllocBitmap * (nat + NvFsError)) :=
  if bitmap_words_count =? 0 then Ok (self, inl first_entry_index)
  else
    match fuel with
    | O => Diverge
    | S fuel =>
        let entries_len := length (entries self) in
        if (next_entry_index =? entries_len)%nat then
          let! additional := uadd usize_bits bitmap_words_count (remove_rollback_reserve_capacity self) in
          match try_reserve_exact self additional with
          | None => populate_rollback self range first_entry_index
          | Some self =>
              match checked_add usize_bits (Z.of_nat entries_len) bitmap_words_count with
              | None => populate_rollback self range first_entry_index
              | Some new_entries_len =>
                  let! '(es, bitmap_word_index0) := fresh_entries (Z.to_nat new_entries_len - entries_len) bitmap_word_index0 in
                  let next_entry_index := (next_entry_index + Z.to_nat bitmap_words_count)%nat in
                  populate_loop fuel range first_entry_index (set_entries self (entries self ++ es)) next_entry_index
                    bitmap_word_index0 0
              end
          end
        else
          let! e := idx (entries self) next_entry_index in
          if negb (bitmap_word_index e =? bitmap_word_index0) then
            let! d := usub 64 (bitmap_word_index e) bitmap_word_index0 in
            let missing_bitmap_words_until_next := Z.min d bitmap_words_count in
            let! additional :=
              uadd usize_bits missing_bitmap_words_until_next (remove_rollback_reserve_capacity self) in
            match try_reserve_exact self additional with
            | None => populate_rollback self range first_entry_index
            | Some self =>
                let! '(es, bitmap_word_index0) :=
                  fresh_entries (Z.to_nat missing_bitmap_words_until_next) bitmap_word_index0 in
                let! es := vec_splice (entries self) next_entry_index es in
                let self := set_entries self es in
                let! bitmap_words_count := usub usize_bits bitmap_words_count missing_bitmap_words_until_next in
                let next_entry_index := (next_entry_index + Z.to_nat missing_bitmap_words_until_next)%nat in
                let! _ := debug_check
                  (if bitmap_words_count =? 0 then Ok true
                   else let! e := idx (entries self) next_entry_index in
                        Ok (bitmap_word_index0 =? bitmap_word_index e)) in
                let bitmap_words_count := Z.max 0 (bitmap_words_count - 1) in
                populate_loop fuel range first_entry_index self (next_entry_index + 1) bitmap_word_index0
                  bitmap_words_count
            end
          else
            let! bitmap_word_index0 := uadd 64 bitmap_word_index0 1 in
            let! bitmap_words_count := usub usize_bits bitmap_words_count 1 in
            populate_loop fuel range first_entry_index self (next_entry_index + 1) bitmap_word_index0
              bitmap_words_count
    end.

Definition populate_missing_in_range self range : res (SparseAllocBitmap * (nat + NvFsError)) :=
  let! '(bitmap_word_index0, bitmap_words_count) := range_words range in
  if 2 ^ usize_bits <=? bitmap_words_count then Ok (self, inr MemoryAllocationFailure)
  else
    let fuel := S (S (length (entries self))) in
    match find_entry_position self bitmap_word_index0 with
    | inl entry_index =>
        let! bitmap_word_index0 := uadd 64 bitmap_word_index0 1 in
        let bitmap_words_count := Z.max 0 (bitmap_words_count - 1) in
        populate_loop fuel range entry_index self (entry_index + 1) bitmap_word_index0 bitmap_words_count
    | inr entry_index => populate_loop fuel range entry_index self entry_index bitmap_word_index0 bitmap_words_count
    end.

(** ** [set_in_range] *)

Fixpoint set_loop (fuel : nat) (set_mask : Z) self (entry_index : nat)
    (bitmap_word_index0 physical_allocation_block_count offset_in_bitmap_word : Z) : res SparseAllocBitmap :=
  if negb (entry_index =? length (entries self))%nat && negb (physical_allocation_block_count =? 0) then
    match fuel with
    | O => Diverge
    | S fuel =>
        let! entry := idx (entries self) entry_index in
        let next_bitmap_word_index := bitmap_word_index entry in
        let! '(bitmap_word_index0, physical_allocation_block_count, offset_in_bitmap_word) :=
          (if negb (next_bitmap_word_index =? bitmap_word_index0) then
             let! t := usub 64 next_bitmap_word_index bitmap_word_index0 in
             let! t := usub 64 t 1 in
             let! t := ushl 64 t BITMAP_WORD_BITS_LOG2 in
             let! u := usub 32 64 offset_in_bitmap_word in
             let! bits_in_words := uadd 64 t u in
             let bits_in_words := Z.min bits_in_words physical_allocation_block_count in
             let! physical_allocation_block_count := usub 64 physical_allocation_block_count bits_in_words in
             Ok (next_bitmap_word_index, physical_allocation_block_count, 0)
           else Ok (bitmap_word_index0, physical_allocation_block_count, offset_in_bitmap_word)) in
        if physical_allocation_block_count =? 0 then Ok self
        else
          let! t := usub 32 BITMAP_WORD_BITS offset_in_bitmap_word in
          let bits_in_word := Z.min physical_allocation_block_count t in
          let! mask := trailing_bits_mask_u 64 bits_in_word in
          let! bits_in_word_mask := ushl 64 mask offset_in_bitmap_word in
          let word := Z.land (bitmap_word entry) (unot 64 bits_in_word_mask) in
          let word := Z.lor word (Z.land set_mask bits_in_word_mask) in
          let! es := set_idx (entries self) entry_index (mk_entry (bitmap_word_index entry) word) in
          let! physical_allocation_block_count := usub 64 physical_allocation_block_count bits_in_word in
          let! bitmap_word_index0 := uadd 64 bitmap_word_index0 1 in
          set_loop fuel set_mask (set_entries self es) (entry_index + 1) bitmap_word_index0
            physical_allocation_block_count 0
    end
  else Ok self.

Definition set_in_range self range (first_entry_index_hint : option nat) (value : bool)
    : res (SparseAllocBitmap * nat) :=
  let! physical_allocation_block_count := block_count range in
  let physical_allocation_block := rng_begin range in
  let! bitmap_word_index0 := ushr 64 physical_allocation_block BITMAP_WORD_BITS_LOG2 in
  let! mask := trailing_bits_mask_u 64 BITMAP_WORD_BITS_LOG2 in
  let offset_in_bitmap_word := Z.land physical_allocation_block mask in
  let! first_entry_index := hinted_position self bitmap_word_index0 first_entry_index_hint in
  let set_mask := if value then unot 64 0 else 0 in
  let! self := set_loop (S (length (entries self))) set_mask self first_entry_index bitmap_word_index0
    physical_allocation_block_count offset_in_bitmap_word in
  Ok (self, first_entry_index).

(** ** Adding and removing *)

(** The range of an aligned block. *)
Definition block_range (block_allocation_blocks_begin block_allocation_blocks_log2 : Z) : res BlockRange :=
  let! n := ushl 64 1 block_allocation_blocks_log2 in
  range_from block_allocation_blocks_begin n.

Definition add_extent self extent : res (SparseAllocBitmap * (unit + NvFsError)) :=
  let! '(self, r) := populate_missing_in_range self extent in
  match r with
  | inr e => Ok (self, inr e)
  | inl first_entry_index =>
      let! '(self, _) := set_in_range self extent (Some first_entry_index) true in
      Ok (self, inl tt)
  end.
Definition add_block self (block_allocation_blocks_begin block_allocation_blocks_log2 : Z)
    : res (SparseAllocBitmap * (unit + NvFsError)) :=
  let! range := block_range block_allocation_blocks_begin block_allocation_blocks_log2 in
  let! '(self, r) := populate_missing_in_range self range in
  match r with
  | inr e => Ok (self, inr e)
  | inl first_entry_index =>
      let! '(self, _) := set_in_range self range (Some first_entry_index) true in
      Ok (self, inl tt)
  end.

Definition remove_extent self extent : res SparseAllocBitmap :=
  let! '(self, first_entry_index) := set_in_range self extent None false in
  prune_unused_in_range self extent (Some first_entry_index) true.
Definition _remove_block self (block_allocation_blocks_begin block_allocation_blocks_log2 : Z)
    (prepare_for_rollback : bool) : res SparseAllocBitmap :=
  let! range := block_range block_allocation_blocks_begin block_allocation_blocks_log2 in
  let! '(self, first_entry_index) := set_in_range self range None false in
  prune_unused_in_range self range (Some first_entry_index) prepare_for_rollback.
Definition remove_block self (block_allocation_blocks_begin block_allocation_blocks_log2 : Z) : res SparseAllocBitmap :=
  _remove_block self block_allocation_blocks_begin block_allocation_blocks_log2 true.

Fixpoint remove_extents self (extents : list BlockRange) : res SparseAllocBitmap :=
  match extents with
  | [] => Ok self
  | extent :: extents =>
      let! '(self, first_entry_index) := set_in_range self extent None false in
      let! self := prune_unused_in_range self extent (Some first_entry_index) true in
      remove_extents self extents
  end.
Fixpoint remove_blocks self (blocks : list Z) (block_allocation_blocks_log2 : Z) : res SparseAllocBitmap :=
  match blocks with
  | [] => Ok self
  | b :: blocks =>
      let! self := remove_block self b block_allocation_blocks_log2 in
      remove_blocks self blocks block_allocation_blocks_log2
  end.

(** The rollback in [add_blocks]. *)
Fixpoint add_blocks_rollback self (blocks : list Z) (log2 : Z) : res SparseAllocBitmap :=
  match blocks with
  | [] => Ok self
  | b :: blocks => let! self := _remove_block self b log2 false in add_blocks_rollback self blocks log2
  end.
(** [all] are the blocks from the start, [blocks] those from the [i]-th on. *)
Fixpoint add_blocks_loop self (all : list Z) (i : nat) (blocks : list Z) (log2 : Z)
    : res (SparseAllocBitmap * (unit + NvFsError)) :=
  match blocks with
  | [] => Ok (self, inl tt)
  | b :: blocks =>
      let! '(self, r) := add_block self b log2 in
      match r with
      | inr e => let! self := add_blocks_rollback self (take i all) log2 in Ok (self, inr e)
      | inl _ => add_blocks_loop self all (S i) blocks log2
      end
  end.
Definition add_blocks self (blocks : list Z) (block_allocation_blocks_log2 : Z)
    : res (SparseAllocBitmap * (unit + NvFsError)) :=
  add_blocks_loop self blocks 0 blocks block_allocation_blocks_log2.

(** The rollback in [add_extents]: the hint is for the first extent only. *)
Fixpoint add_extents_rollback self (extents : list BlockRange) (hint : option nat) : res SparseAllocBitmap :=
  match extents with
  | [] => Ok self
  | extent :: extents =>
      let! self := prune_unused_in_range self extent hint false in add_extents_rollback self extents None
  end.
Fixpoint add_extents_populate self (all : list BlockRange) (i : nat) (extents : list BlockRange)
    (first_entry_index_hint : option nat) (reset_first_entry_index_hint : bool)
    : res (SparseAllocBitmap * (option nat * bool + NvFsError)) :=
  match extents with
  | [] => Ok (self, inl (first_entry_index_hint, reset_first_entry_index_hint))
  | extent :: extents =>
      let! '(self, r) := populate_missing_in_range self extent in
      match r with
      | inl first_entry_index =>
          match first_entry_index_hint with
          | None => add_extents_populate self all (S i) extents (Some first_entry_index) reset_first_entry_index_hint
          | Some _ => add_extents_populate self all (S i) extents first_entry_index_hint true
          end
      | inr e => let! self := add_extents_rollback self (take i all) first_entry_index_hint in Ok (self, inr e)
      end
  end.
Fixpoint add_extents_set self (extents : list BlockRange) (hint : option nat) : res SparseAllocBitmap :=
  match extents with
  | [] => Ok self
  | extent :: extents =>
      let! '(self, _) := set_in_range self extent hint true in add_extents_set self extents None
  end.
Definition add_extents self (extents : list BlockRange) : res (SparseAllocBitmap * (unit + NvFsError)) :=
  let! '(self, r) := add_extents_populate self extents 0 extents None false in
  match r with
  | inr e => Ok (self, inr e)
  | inl (first_entry_index_hint, reset_first_entry_index_hint) =>
      let first_entry_index_hint := if reset_first_entry_index_hint then None else first_entry_index_hint in
      let! self := add_extents_set self extents first_entry_index_hint in
      Ok (self, inl tt)
  end.

(** ** [subtract] *)

(** The inner loops that advance in [self] and in [other] up to the word of the
    other one; [None] at the end of the entries. *)
Fixpoint skip_this (fuel : nat) (es : list SparseAllocBitmapEntry) (i : nat) (w : Z) : res (option nat) :=
  let! e := idx es i in
  if bitmap_word_index e <? w then
    match fuel with
    | O => Diverge
    | S fuel => if (i + 1 =? length es)%nat then Ok None else skip_this fuel es (i + 1) w
    end
  else Ok (Some i).
Fixpoint skip_other (fuel : nat) (w : Z) (os : list SparseAllocBitmapEntry) (j : nat) : res (option nat) :=
  let! o := idx os j in
  if bitmap_word_index o <? w then
    match fuel with
    | O => Diverge
    | S fuel => if (j + 1 =? length os)%nat then Ok None else skip_other fuel w os (j + 1)
    end
  else Ok (Some j).

(** Drain the entries to remove before the [i]-th; the new position of that one. *)
Definition flush_removed (es : list SparseAllocBitmapEntry) (remove_begin : option nat) (i : nat)
    : res (list SparseAllocBitmapEntry * nat) :=
  match remove_begin with
  | Some remove_begin => let! es := vec_drain es remove_begin i in Ok (es, remove_begin)
  | None => Ok (es, i)
  end.

(** The inner loop over common words; the flag tells that the outer loop ends. *)
Fixpoint subtract_common (fuel : nat) (es os : list SparseAllocBitmapEntry) (i j : nat) (remove_begin : option nat)
    : res (list SparseAllocBitmapEntry * nat * nat * option nat * bool) :=
  let! e := idx es i in
  let! o := idx os j in
  if bitmap_word_index e =? bitmap_word_index o then
    match fuel with
    | O => Diverge
    | S fuel =>
        let word := Z.land (bitmap_word e) (unot 64 (bitmap_word o)) in
        let! es := set_idx es i (mk_entry (bitmap_word_index e) word) in
        let! '(es, i, remove_begin) :=
          (if word =? 0 then Ok (es, i, Some (default i remove_begin))
           else let! '(es, i) := flush_removed es remove_begin i in Ok (es, i, None)) in
        let i := (i + 1)%nat in
        if (i =? length es)%nat then Ok (es, i, j, remove_begin, true)
        else
          let j := (j + 1)%nat in
          if (j =? length os)%nat then Ok (es, i, j, remove_begin, true)
          else subtract_common fuel es os i j remove_begin
    end
  else Ok (es, i, j, remove_begin, false).

(** Every round of the outer loop advances in [self] or in [other]. *)
Fixpoint subtract_loop (fuel : nat) (es os : list SparseAllocBitmapEntry) (i j : nat) (remove_begin : option nat)
    : res (list SparseAllocBitmapEntry) :=
  match fuel with
  | O => Diverge
  | S fuel =>
      let! _ := debug_assert (i <? length es)%nat in
      let! _ := debug_assert (j <? length os)%nat in
      let! e := idx es i in
      let! o := idx os j in
      let! '(es, i, remove_begin) :=
        (if bitmap_word_index e <? bitmap_word_index o then
           let! '(es, i) := flush_removed es remove_begin i in
           let! i := skip_this (length es) es i (bitmap_word_index o) in
           Ok (es, i, None)
         else Ok (es, Some i, remove_begin)) in
      match i with
      | None => Ok es
      | Some i =>
          let! e := idx es i in
          let! _ := debug_assert ((i <? length es)%nat && (bitmap_word_index o <=? bitmap_word_index e)) in
          let! j := skip_other (length os) (bitmap_word_index e) os j in
          match j with
          | None => let! '(es, _) := flush_removed es remove_begin i in Ok es
          | Some j =>
              let! '(es, i, j, remove_begin, ended) := subtract_common (length os) es os i j remove_begin in
              if ended then let! '(es, _) := flush_removed es remove_begin i in Ok es
              else subtract_loop fuel es os i j remove_begin
          end
      end
  end.

Definition subtract self (other : SparseAllocBitmap) : res SparseAllocBitmap :=
  let self := reset_remove_rollback self in
  if is_empty self || is_empty other then Ok self
  else
    let! es := subtract_loop (S (length (entries self) + length (entries other))) (entries self) (entries other) 0 0 None in
    Ok (set_entries self es).
End Ops.

(** ** Specification *)

Definition entry_ok (e : SparseAllocBitmapEntry) : Prop :=
  0 ≤ bitmap_word_index e < 2 ^ 58 ∧ in_u 64 (bitmap_word e).
Definition before (e e' : SparseAllocBitmapEntry) : Prop := bitmap_word_index e < bitmap_word_index e'.

(** The entries are machine integers and strictly sorted by position. *)
Definition entries_wf (l : list SparseAllocBitmapEntry) : Prop := Forall entry_ok l ∧ StronglySorted before l.
(** Only words with a bit set are stored. *)
Definition all_used (l : list SparseAllocBitmapEntry) : Prop := Forall (λ e, bitmap_word e ≠ 0) l.

(** The word at a position, and whether a block is a member of the bitmap. *)
Fixpoint word_at (l : list SparseAllocBitmapEntry) (w : Z) : Z :=
  match l with
  | [] => 0
  | e :: l => if bitmap_word_index e =? w then bitmap_word e else word_at l w
  end.
Definition present (l : list SparseAllocBitmapEntry) (w : Z) : bool := existsb (λ e, bitmap_word_index e =? w) l.
Definition tracked (l : list SparseAllocBitmapEntry) (b : Z) : bool := Z.testbit (word_at l (b / 64)) (b mod 64).

(** The words that a range overlaps with. *)
Definition first_word (r : BlockRange) : Z := rng_begin r / 64.
Definition last_word (r : BlockRange) : Z := (rng_end r - 1) / 64.
Definition word_count (r : BlockRange) : Z := last_word r - first_word r + 1.

(** The bits of the [w]-th word that belong to a range. *)
Definition word_mask (r : BlockRange) (w : Z) : Z :=
  let lo := Z.max (rng_begin r - 64 * w) 0 in
  let hi := Z.min (rng_end r - 64 * w) 64 in
  if lo <? hi then Z.shiftl (Z.ones (hi - lo)) lo else 0.
Definition set_word (r : BlockRange) (value : bool) (e : SparseAllocBitmapEntry) : SparseAllocBitmapEntry :=
  let m := word_mask r (bitmap_word_index e) in
  mk_entry (bitmap_word_index e) (Z.lor (Z.land (bitmap_word e) (unot 64 m)) (if value then m else 0)).

(** What pruning keeps: the words in use, and those at or after [w_end]. *)
Definition kept (w_end : Z) (e : SparseAllocBitmapEntry) : Prop := bitmap_word e ≠ 0 ∨ w_end ≤ bitmap_word_index e.
#[export] Instance kept_dec w_end e : Decision (kept w_end e).
Proof. unfold kept. apply _. Defined.

(** *** Bits *)

Lemma word_mask_in_u r w : in_u 64 (word_mask r w).
Proof.
  unfold word_mask. zcase; [|done]. rewrite Z.shiftl_mul_pow2, Z.ones_equiv, <-Z.sub_1_r by lia.
  set (lo := Z.max _ _) in *. set (hi := Z.min _ _) in *.
  assert (2 ^ (hi - lo) * 2 ^ lo = 2 ^ hi) as Hp by (rewrite <-Z.pow_add_r by lia; f_equal; lia).
  assert (2 ^ hi ≤ 2 ^ 64) by (apply Z.pow_le_mono_r; lia).
  pose proof (pow2_pos lo). pose proof (pow2_pos (hi - lo)). unfold in_u. nia.
Qed.

Lemma word_mask_testbit r w i :
  0 ≤ i < 64 → Z.testbit (word_mask r w) i = ((rng_begin r <=? 64 * w + i) && (64 * w + i <? rng_end r)).
Proof.
  intros. unfold word_mask. set (lo := Z.max _ _). set (hi := Z.min _ _). zcase.
  - rewrite Z.shiftl_spec by lia. destruct (Z.lt_ge_cases i lo).
    + rewrite Z.testbit_neg_r by lia. by zdec.
    + rewrite Z.testbit_ones_nonneg by lia. zdec. destruct (Z.ltb_spec (64 * w + i) (rng_end r)); by zdec.
  - rewrite Z.bits_0. repeat zcase; cbn; lia || done.
Qed.

Lemma word_mask_outside r w : 64 * w + 64 ≤ rng_begin r ∨ rng_end r ≤ 64 * w → word_mask r w = 0.
Proof. intros. unfold word_mask. by zdec. Qed.

(** A block as a word and a position therein. *)
Lemma block_split b : b = 64 * (b / 64) + b mod 64 ∧ 0 ≤ b mod 64 < 64.
Proof. split; [apply Z.div_mod; lia|]. apply Z.mod_pos_bound. lia. Qed.

Lemma set_word_in_u r v e : in_u 64 (bitmap_word e) → in_u 64 (bitmap_word (set_word r v e)).
Proof.
  intros. cbn. pose proof (word_mask_in_u r (bitmap_word_index e)).
  apply lor_in_u; [done| |by destruct v]. apply land_in_u; [done..|].
  by apply (unot_in_u 64).
Qed.

Lemma set_word_testbit r v e i :
  0 ≤ i < 64 →
  Z.testbit (bitmap_word (set_word r v e)) i =
  if bool_decide (64 * bitmap_word_index e + i ∈ r) then v else Z.testbit (bitmap_word e) i.
Proof.
  intros. cbn. rewrite Z.lor_spec, Z.land_spec, unot_testbit, word_mask_testbit by lia.
  replace (Z.testbit (if v then _ else 0) i) with (v && Z.testbit (word_mask r (bitmap_word_index e)) i)
    by (destruct v; cbn; [done|by rewrite Z.bits_0]).
  rewrite word_mask_testbit by lia. case_bool_decide as Hin.
  - rewrite elem_of_range in Hin. zdec. by destruct v, (Z.testbit (bitmap_word e) i).
  - rewrite elem_of_range in Hin.
    assert ((rng_begin r <=? 64 * bitmap_word_index e + i) && (64 * bitmap_word_index e + i <? rng_end r) = false) as ->
      by (rewrite andb_false_iff, Z.leb_gt, Z.ltb_ge; lia).
    cbn. by rewrite !andb_true_r, andb_false_r, orb_false_r.
Qed.

Lemma set_word_outside r v e :
  in_u 64 (bitmap_word e) → 64 * bitmap_word_index e + 64 ≤ rng_begin r ∨ rng_end r ≤ 64 * bitmap_word_index e →
  set_word r v e = e.
Proof.
  intros He Hout. pose proof (set_word_in_u r v e He) as Hs. destruct e as [w x]. unfold set_word in *. cbn in *.
  f_equal. apply word_ext; [done..|]. intros i ?. rewrite word_mask_outside by done.
  replace (if v then 0 else 0) with 0 by (by destruct v).
  by rewrite Z.lor_0_r, Z.land_spec, unot_testbit, Z.bits_0, andb_true_r by lia.
Qed.

(** *** Entries *)

Lemma word_at_absent l w : (∀ e, e ∈ l → bitmap_word_index e ≠ w) → word_at l w = 0.
Proof.
  induction l as [|e l IH]; intros Ha; cbn; [done|]. assert (bitmap_word_index e ≠ w) by (apply Ha; left).
  zdec. apply IH. intros ??. apply Ha. by right.
Qed.

Lemma word_at_elem l e : StronglySorted before l → e ∈ l → word_at l (bitmap_word_index e) = bitmap_word e.
Proof.
  induction 1 as [|e' l Hl IH Hlt]; intros He; [by apply not_elem_of_nil in He|].
  cbn. rewrite elem_of_cons in He. destruct He as [->|He]; [by zdec|].
  rewrite Forall_forall in Hlt. specialize (Hlt e He). unfold before in Hlt. zdec. by apply IH.
Qed.

(** Whether there is an entry for a word. *)
Lemma presentP l w : if present l w then ∃ e, e ∈ l ∧ bitmap_word_index e = w else ∀ e, e ∈ l → bitmap_word_index e ≠ w.
Proof.
  induction l as [|e l IH]; cbn; [intros ? []%not_elem_of_nil|]. zcase; cbn.
  - exists e. by split; [left|].
  - unfold present in IH. destruct (existsb _ l).
    + destruct IH as (e' & ? & ?). exists e'. by split; [right|].
    + intros e' [->|?]%elem_of_cons; [done|]. by apply IH.
Qed.

Lemma word_at_app l1 l2 w : word_at (l1 ++ l2) w = if present l1 w then word_at l1 w else word_at l2 w.
Proof. induction l1 as [|e l1 IH]; cbn; [done|]. by zcase. Qed.

Lemma word_at_in_u l w : Forall entry_ok l → in_u 64 (word_at l w).
Proof. induction 1 as [|e l [? ?] ? IH]; cbn; [done|]. by zcase. Qed.

Lemma entries_wf_app l1 l2 :
  entries_wf (l1 ++ l2) ↔ entries_wf l1 ∧ entries_wf l2 ∧ ∀ e1 e2, e1 ∈ l1 → e2 ∈ l2 → before e1 e2.
Proof. unfold entries_wf. rewrite Forall_app, StronglySorted_app. naive_solver. Qed.

Lemma entries_wf_cons e l : entries_wf (e :: l) ↔ entry_ok e ∧ entries_wf l ∧ ∀ e', e' ∈ l → before e e'.
Proof.
  unfold entries_wf. rewrite Forall_cons. split.
  - intros [[? ?] Hs]. inversion Hs as [|? ? ? Hlt]; subst. rewrite Forall_forall in Hlt. done.
  - intros (? & [? ?] & Hlt). split; [done|]. constructor; [done|]. by rewrite Forall_forall.
Qed.

Lemma entries_wf_nil : entries_wf [].
Proof. split; constructor. Qed.

Lemma StronglySorted_filter (Q : SparseAllocBitmapEntry → Prop) `{!∀ e, Decision (Q e)} l :
  StronglySorted before l → StronglySorted before (filter Q l).
Proof.
  induction 1 as [|e l Hs IH Hlt]; [constructor|].
  destruct (decide (Q e)); [rewrite filter_cons_True by done|by rewrite filter_cons_False].
  constructor; [done|]. rewrite Forall_forall in Hlt |- *. intros e' [_ ?]%list_elem_of_filter. by apply Hlt.
Qed.

Lemma entries_wf_filter (Q : SparseAllocBitmapEntry → Prop) `{!∀ e, Decision (Q e)} l :
  entries_wf l → entries_wf (filter Q l).
Proof.
  intros [? ?]. split; [|by apply StronglySorted_filter]. rewrite Forall_forall in *.
  intros e [_ ?]%list_elem_of_filter. auto.
Qed.

Lemma entries_wf_fmap (f : SparseAllocBitmapEntry → SparseAllocBitmapEntry) l :
  (∀ e, bitmap_word_index (f e) = bitmap_word_index e) → (∀ e, entry_ok e → entry_ok (f e)) →
  entries_wf l → entries_wf (f <$> l).
Proof.
  intros Hf Hok [Hl Hs]. split.
  - rewrite Forall_fmap. eapply Forall_impl; [exact Hl|]. done.
  - eapply StronglySorted_fmap; [|exact Hs]. intros x y. unfold before. by rewrite !Hf.
Qed.

Lemma set_word_ok r v e : entry_ok e → entry_ok (set_word r v e).
Proof. intros [? ?]. split; [done|]. by apply set_word_in_u. Qed.

(** The effect of updating every word in place. *)
Lemma word_at_set_word r v l w :
  StronglySorted before l →
  word_at (set_word r v <$> l) w =
  if present l w then bitmap_word (set_word r v (mk_entry w (word_at l w))) else 0.
Proof.
  intros Hs. pose proof (presentP l w) as Hp. destruct (present l w).
  - destruct Hp as (e & He & <-). rewrite (word_at_elem l e) by done.
    change (word_at (set_word r v <$> l) (bitmap_word_index (set_word r v e)) = bitmap_word (set_word r v (mk_entry (bitmap_word_index e) (bitmap_word e)))).
    rewrite word_at_elem; [by destruct e| |by apply list_elem_of_fmap_2].
    eapply StronglySorted_fmap; [|exact Hs]. done.
  - apply word_at_absent. intros e' (e & -> & ?)%list_elem_of_fmap Hw. by apply (Hp e).
Qed.

Lemma tracked_set_word r v l b :
  StronglySorted before l →
  tracked (set_word r v <$> l) b =
  present l (b / 64) && (if bool_decide (b ∈ r) then v else tracked l b).
Proof.
  intros Hs. unfold tracked. rewrite word_at_set_word by done. destruct (block_split b) as [Hb ?].
  destruct (present l (b / 64)); [|by rewrite Z.bits_0]. rewrite set_word_testbit by done. cbn [bitmap_word_index bitmap_word andb].
  rewrite <-Hb. done.
Qed.

Lemma tracked_filter l w_end b : StronglySorted before l → tracked (filter (kept w_end) l) b = tracked l b.
Proof.
  intros Hs. unfold tracked. f_equal. generalize (b / 64) as w. intros w.
  pose proof (StronglySorted_filter (kept w_end) l Hs) as Hs'.
  pose proof (presentP (filter (kept w_end) l) w) as Hn. destruct (present _ w).
  - destruct Hn as (e & He & <-). rewrite word_at_elem by done. apply list_elem_of_filter in He as [_ He].
    by rewrite word_at_elem.
  - rewrite word_at_absent by done. pose proof (presentP l w) as Hl. destruct (present l w); [|by rewrite word_at_absent].
    destruct Hl as (e & He & <-). rewrite word_at_elem by done. destruct (decide (bitmap_word e = 0)) as [->|Hw]; [done|].
    destruct (Hn e); [|done]. apply list_elem_of_filter. split; [by left|done].
Qed.

(** *** Ranges and positions *)

Lemma range_word_bounds r : range_ok r → 0 ≤ first_word r ≤ last_word r ∧ last_word r < 2 ^ 58.
Proof.
  intros [? ?]. unfold first_word, last_word. split; [split|].
  - apply Z.div_pos; lia.
  - apply Z.div_le_mono; lia.
  - apply Z.div_lt_upper_bound; lia.
Qed.

Lemma shr_word {B : Build} b : ushr (E:=NvFsError) 64 b BITMAP_WORD_BITS_LOG2 = Ok (b / 64).
Proof. unfold BITMAP_WORD_BITS_LOG2. rewrite ushr_Ok by lia. by rewrite Z.shiftr_div_pow2. Qed.
Lemma shl_word {B : Build} b : in_u 64 (b * 64) → ushl (E:=NvFsError) 64 b BITMAP_WORD_BITS_LOG2 = Ok (b * 64).
Proof.
  intros. unfold BITMAP_WORD_BITS_LOG2. rewrite ushl_Ok by lia. rewrite Z.shiftl_mul_pow2 by done. by rewrite wrap_small.
Qed.
Lemma word_offset_mask {B : Build} :
  trailing_bits_mask_u (E:=NvFsError) 64 BITMAP_WORD_BITS_LOG2 = Ok (2 ^ BITMAP_WORD_BITS_LOG2 - 1).
Proof. by apply trailing_bits_mask_u_spec. Qed.
#[export] Hint Rewrite @shr_word @word_offset_mask : outcome_simpl.
Lemma land_word b : Z.land b (2 ^ BITMAP_WORD_BITS_LOG2 - 1) = b mod 64.
Proof. rewrite Z.sub_1_r, <-Z.ones_equiv. by rewrite Z.land_ones. Qed.

Section Loops.
Context {B : Build} {Alloc : Allocator} {P : ImageLayout.Platform}.
Implicit Types (sb : SparseAllocBitmap) (r : BlockRange) (pre post l : list SparseAllocBitmapEntry).

Lemma range_words_Ok r : range_ok r → range_words r = Ok (first_word r, word_count r).
Proof.
  intros Hr. pose proof (range_word_bounds r Hr) as [? ?]. destruct Hr as [? ?]. unfold range_words.
  rewrite block_count_Ok by lia. ostep. rewrite land_word. destruct (block_split (rng_begin r)) as [Hb ?].
  fold (first_word r) in *. rewrite uadd_Ok by lia. ostep.
  set (n := rng_end r - rng_begin r + rng_begin r mod 64).
  assert (n = rng_end r - 64 * first_word r) as Hn by (unfold n; lia).
  assert (n / 64 = rng_end r / 64 - first_word r) as Hdiv
    by (rewrite Hn; replace (rng_end r - _) with (rng_end r + (- first_word r) * 64) by lia; rewrite Z.div_add; lia).
  rewrite shl_word by (pose proof (Z.div_mod n 64); pose proof (Z.mod_pos_bound n 64); unfold in_u; lia). ostep.
  unfold word_count, last_word. pose proof (Z.div_mod n 64) as Hnm. pose proof (Z.mod_pos_bound n 64).
  destruct (Z.eqb_spec (n / 64 * 64) n) as [Heq|Hne]; cbn [negb].
  - ostep. do 2 f_equal. rewrite Hdiv. replace ((rng_end r - 1) / 64) with (rng_end r / 64 - 1); [lia|].
    apply Z.div_unique with 63; lia.
  - rewrite uadd_Ok by lia. ostep. do 2 f_equal. rewrite Hdiv.
    replace ((rng_end r - 1) / 64) with (rng_end r / 64); [lia|].
    apply Z.div_unique with (n mod 64 - 1); lia.
Qed.

(** The entries of a bitmap, split at a word. *)
Definition split_at pre post (w : Z) : Prop :=
  (∀ e, e ∈ pre → bitmap_word_index e < w) ∧ (∀ e, e ∈ post → w ≤ bitmap_word_index e).

Lemma split_at_exists l w : StronglySorted before l → ∃ pre post, l = pre ++ post ∧ split_at pre post w.
Proof.
  induction 1 as [|e l Hs IH Hlt]; [exists [], []; split; [done|split; intros ? []%not_elem_of_nil]|].
  rewrite Forall_forall in Hlt. destruct (Z.lt_ge_cases (bitmap_word_index e) w).
  - destruct IH as (pre & post & -> & [H1 H2]). exists (e :: pre), post. split; [done|]. split; [|done].
    intros e' [->|?]%elem_of_cons; [done|]. by apply H1.
  - exists [], (e :: l). split; [done|]. split; [intros ? []%not_elem_of_nil|].
    intros e' [->|He]%elem_of_cons; [done|]. specialize (Hlt e' He). unfold before in Hlt. lia.
Qed.

Lemma find_entry_position_split sb pre post w :
  entries sb = pre ++ post → split_at pre post w →
  find_entry_position sb w =
  match post with
  | e :: _ => if bitmap_word_index e =? w then inl (length pre) else inr (length pre)
  | [] => inr (length pre)
  end.
Proof.
  intros Hsb [H1 H2]. unfold find_entry_position, binary_search_by. rewrite Hsb.
  rewrite partition_point_app.
  - rewrite lookup_app_r, Nat.sub_diag by lia. destruct post as [|e post]; cbn; [done|].
    destruct (Z.compare_spec (bitmap_word_index e) w); by zdec.
  - intros e He. specialize (H1 e He). by rewrite (proj2 (Z.compare_lt_iff _ _)).
  - intros e He. specialize (H2 e He). destruct (Z.compare_spec (bitmap_word_index e) w); done || lia.
Qed.

Lemma hinted_position_Ok sb pre post w hint :
  entries sb = pre ++ post → split_at pre post w → hint = None ∨ hint = Some (length pre) →
  hinted_position sb w hint = Ok (length pre).
Proof.
  intros Hsb Hsplit [-> | ->]; unfold hinted_position.
  - unfold entry_position. rewrite (find_entry_position_split sb pre post) by done.
    destruct post as [|e post]; [done|]. by zcase.
  - rewrite Hsb. destruct Hsplit as [H1 H2]. rewrite debug_check_true.
    2: { zcase; [done|]. destruct post as [|e post]; [rewrite app_nil_r in *; done|].
      rewrite idx_middle. ostep. assert (w ≤ bitmap_word_index e) by (apply H2; left). by zdec. }
    ostep. rewrite debug_check_true; [done|]. zcase; [done|].
    destruct pre as [|e pre _] using rev_ind; [done|]. rewrite length_app. cbn [length].
    replace (length pre + 1 - 1)%nat with (length pre) by lia. rewrite <-app_assoc. cbn [app]. rewrite idx_middle. ostep.
    assert (bitmap_word_index e < w) by (apply H1, elem_of_app; right; left). by zdec.
Qed.

(** *** Setting bits *)

Lemma range_mask_Ok r w count off :
  0 < count → off = Z.max (rng_begin r - 64 * w) 0 → off < 64 → count = rng_end r - 64 * w - off →
  (let! mask := trailing_bits_mask_u (E:=NvFsError) 64 (Z.min count (64 - off)) in ushl 64 mask off) =
  Ok (word_mask r w).
Proof.
  intros. rewrite trailing_bits_mask_u_spec by lia. ostep. f_equal.
  replace (2 ^ Z.min count (64 - off) - 1) with (Z.ones (Z.min count (64 - off))) by (rewrite Z.ones_equiv; lia).
  assert (word_mask r w = Z.shiftl (Z.ones (Z.min count (64 - off))) off) as Hm.
  { unfold word_mask. zdec. f_equal; [|lia]. f_equal. lia. }
  rewrite <-Hm. apply wrap_small, word_mask_in_u.
Qed.

Lemma set_word_eq r (v : bool) w x :
  mk_entry w (Z.lor (Z.land x (unot 64 (word_mask r w))) (Z.land (if v then unot 64 0 else 0) (word_mask r w))) =
  set_word r v (mk_entry w x).
Proof.
  unfold set_word. cbn. do 2 f_equal. destruct v; [|apply Z.land_0_l].
  rewrite Z.land_comm. change (unot 64 0) with (Z.ones 64). rewrite Z.land_ones by lia. apply (wrap_small 64), word_mask_in_u.
Qed.

Lemma set_word_fmap_outside r v l :
  Forall entry_ok l → (∀ e, e ∈ l → 64 * bitmap_word_index e + 64 ≤ rng_begin r ∨ rng_end r ≤ 64 * bitmap_word_index e) →
  set_word r v <$> l = l.
Proof.
  intros Hok Hout. rewrite Forall_forall in Hok. rewrite <-(list_fmap_id l) at 2. apply list_fmap_ext.
  intros i e He%list_elem_of_lookup_2. cbn. apply set_word_outside; [by apply Hok|by apply Hout].
Qed.

Lemma set_loop_spec fuel r (v : bool) : range_ok r → ∀ sb pre post w off,
  entries sb = pre ++ post → entries_wf post → (∀ e, e ∈ post → w ≤ bitmap_word_index e) → 0 ≤ w < 2 ^ 64 →
  off = Z.max (rng_begin r - 64 * w) 0 → off < 64 → (length post < fuel)%nat →
  set_loop fuel (if v then unot 64 0 else 0) sb (length pre) w (Z.max 0 (rng_end r - 64 * w - off)) off =
  Ok (set_entries sb (pre ++ (set_word r v <$> post))).
Proof.
  intros [Hr Hr']. induction fuel as [|fuel IH]; intros sb pre post w off Hsb Hwf Hge Hw Hoff Hoff64 Hfuel; [lia|].
  cbn [set_loop]. rewrite Hsb, length_app. destruct post as [|e post]; cbn [length fmap list_fmap].
  { zdec. rewrite <-Hsb. by destruct sb. }
  zdec. destruct (Z.eqb_spec (Z.max 0 (rng_end r - 64 * w - off)) 0) as [Hz|Hnz]; cbn [negb].
  { change (set_word r v e :: _) with (set_word r v <$> e :: post). rewrite set_word_fmap_outside.
    - rewrite <-Hsb. by destruct sb.
    - apply Hwf.
    - intros e' He'. specialize (Hge e' He'). lia. }
  rewrite idx_middle. ostep. apply entries_wf_cons in Hwf as ([? ?] & Hwf & Hlt).
  assert (w ≤ bitmap_word_index e) by (apply Hge; left). set (w' := bitmap_word_index e) in *.
  set (off' := if w' =? w then off else 0).
  transitivity (let! '(w1, c1, o1) := Ok (E:=NvFsError) (w', Z.max 0 (rng_end r - 64 * w' - off'), off') in
    if c1 =? 0 then Ok sb
    else let! t := usub 32 BITMAP_WORD_BITS o1 in
      let! mask := trailing_bits_mask_u 64 (Z.min c1 t) in
      let! bits_in_word_mask := ushl 64 mask o1 in
      let! es := set_idx (pre ++ e :: post) (length pre) (mk_entry w' (Z.lor (Z.land (bitmap_word e) (unot 64 bits_in_word_mask))
         (Z.land (if v then unot 64 0 else 0) bits_in_word_mask))) in
      let! c := usub 64 c1 (Z.min c1 t) in
      let! w2 := uadd 64 w1 1 in
      set_loop fuel (if v then unot 64 0 else 0) (set_entries sb es) (length pre + 1) w2 c 0).
  { f_equal. unfold off'. destruct (Z.eqb_spec w' w) as [->|]; cbn [negb]; [done|].
    ostep. rewrite shl_word by (unfold in_u; lia). ostep. do 3 f_equal. lia. }
  ostep. assert (off' = Z.max (rng_begin r - 64 * w') 0 ∧ off' < 64) as [Hoff' ?] by (unfold off'; zcase; lia).
  destruct (Z.eqb_spec (Z.max 0 (rng_end r - 64 * w' - off')) 0) as [Hz'|Hnz'].
  { change (set_word r v e :: _) with (set_word r v <$> e :: post). rewrite set_word_fmap_outside.
    - rewrite <-Hsb. by destruct sb.
    - constructor; [done|apply Hwf].
    - intros e' [->|He']%elem_of_cons; [fold w'; lia|]. specialize (Hlt e' He'). unfold before in Hlt. lia. }
  unfold BITMAP_WORD_BITS. ostep.
  pose proof (range_mask_Ok r w' (rng_end r - 64 * w' - off') off' ltac:(lia) Hoff' ltac:(done) eq_refl) as Hmask.
  rewrite Z.max_r by lia. apply obind_Ok_inv in Hmask as (mask & -> & Hmask). cbn [obind]. rewrite Hmask. ostep.
  rewrite set_word_eq. set (e1 := set_word r v (mk_entry w' (bitmap_word e))).
  replace (rng_end r - 64 * w' - off' - Z.min (rng_end r - 64 * w' - off') (64 - off'))
    with (Z.max 0 (rng_end r - 64 * (w' + 1) - 0)) by lia.
  replace (length pre + 1)%nat with (length (pre ++ [e1])) by (rewrite length_app; cbn; lia).
  rewrite IH with (post := post); [|cbn; by rewrite <-app_assoc|done| |lia..|].
  - unfold set_entries. cbn. rewrite <-app_assoc. cbn. done.
  - intros e' He'. specialize (Hlt e' He'). unfold before in Hlt. lia.
  - cbn in Hfuel. lia.
Qed.

Lemma set_in_range_Ok sb r pre post hint v :
  range_ok r → entries sb = pre ++ post → entries_wf (pre ++ post) → split_at pre post (first_word r) →
  hint = None ∨ hint = Some (length pre) →
  set_in_range sb r hint v = Ok (set_entries sb (set_word r v <$> entries sb), length pre).
Proof.
  intros Hr Hsb Hwf Hsplit Hhint. pose proof (range_word_bounds r Hr) as [? ?]. pose proof Hr as [? ?].
  unfold set_in_range. rewrite block_count_Ok by lia. ostep. rewrite land_word.
  fold (first_word r). rewrite (hinted_position_Ok sb pre post) by done. ostep.
  destruct (block_split (rng_begin r)) as [Hb ?]. fold (first_word r) in Hb.
  assert (rng_begin r mod 64 = Z.max (rng_begin r - 64 * first_word r) 0) as Hoff by lia.
  apply entries_wf_app in Hwf as (Hpre & Hpost & _).
  replace (rng_end r - rng_begin r) with (Z.max 0 (rng_end r - 64 * first_word r - rng_begin r mod 64)) by lia.
  rewrite set_loop_spec with (post := post); [..|rewrite Hsb, length_app; lia]; try done; try lia; [|apply Hsplit].
  ostep. do 3 f_equal. rewrite Hsb, fmap_app. f_equal. symmetry. apply set_word_fmap_outside; [apply Hpre|].
  intros e He. destruct Hsplit as [Hlt _]. specialize (Hlt e He). lia.
Qed.

(** *** Pruning *)

Lemma kept_true w_end e : bitmap_word e ≠ 0 → kept w_end e.
Proof. by left. Qed.

(** The batch found: entries to remove, followed by one to keep or by none. *)
Lemma batch_end_spec l w count i :
  (∀ e, e ∈ l → w ≤ bitmap_word_index e) →
  ∃ zs rest, l = zs ++ rest ∧ (∀ e, e ∈ zs → ¬ kept (w + count) e) ∧
    batch_end l w count i = Ok (match rest with [] => None | _ => Some (i + length zs)%nat end) ∧
    match rest with [] => True | e :: _ => kept (w + count) e end.
Proof.
  revert i. induction l as [|e l IH]; intros i Hge; cbn [batch_end].
  { exists [], []. split_and!; try done. intros ? []%not_elem_of_nil. }
  assert (w ≤ bitmap_word_index e) by (apply Hge; left). unfold kept.
  destruct (Z.eqb_spec (bitmap_word e) 0) as [Hz|Hnz]; cbn [negb].
  2: { exists [], (e :: l). split_and!; [done|intros ? []%not_elem_of_nil| |by left]. cbn. do 2 f_equal. lia. }
  ostep. destruct (Z.leb_spec count (bitmap_word_index e - w)).
  - exists [], (e :: l). split_and!; [done|intros ? []%not_elem_of_nil| |right; lia]. cbn. do 2 f_equal. lia.
  - destruct (IH (S i)) as (zs & rest & -> & Hzs & -> & Hrest); [intros ??; apply Hge; by right|].
    exists (e :: zs), rest. split_and!; [done| | |done].
    + intros e' [->|?]%elem_of_cons; [|by apply Hzs]. intros [?|?]; [done|lia].
    + destruct rest; [done|]. cbn. do 2 f_equal. lia.
Qed.

(** The entries drained in one round, the last of them named. *)
Lemma batch_split e l count :
  (∀ e', e' ∈ l → bitmap_word_index e < bitmap_word_index e') → ¬ kept (bitmap_word_index e + count) e →
  ∃ found b x rest, batch_end l (bitmap_word_index e) count 0 = Ok found ∧ e :: l = b ++ x :: rest ∧
    (default 0 found + 1)%nat = S (length b) ∧ ∀ e', e' ∈ b ++ [x] → ¬ kept (bitmap_word_index e + count) e'.
Proof.
  intros Hlt He. destruct (batch_end_spec l (bitmap_word_index e) count 0) as (zs & rest & Hl & Hzs & Hb & _).
  { intros e' He'. specialize (Hlt e' He'). lia. }
  rewrite Hb. destruct rest as [|f rest]; eexists.
  - exists [], e, l. split_and!; [done..|]. intros e' ->%list_elem_of_singleton. done.
  - assert (∀ e', e' ∈ e :: zs → ¬ kept (bitmap_word_index e + count) e') as Hall
      by (intros e' [->|?]%elem_of_cons; [done|by apply Hzs]).
    destruct (exists_last (l:=e :: zs)) as (b & x & Hbx); [done|]. exists b, x, (f :: rest). rewrite <-Hbx.
    split_and!; [done| |cbn|done].
    + rewrite Hl. change (e :: zs ++ f :: rest) with ((e :: zs) ++ f :: rest). rewrite Hbx, <-app_assoc. done.
    + apply (f_equal length) in Hbx. rewrite length_app in Hbx. cbn in Hbx. lia.
Qed.

Lemma slice_from_middle pre e post : slice_from (E:=NvFsError) (pre ++ e :: post) (length pre + 1) = Ok post.
Proof.
  rewrite slice_from_Ok by (rewrite length_app; cbn; lia). f_equal.
  rewrite cons_middle, app_assoc. apply drop_app_length'. rewrite length_app. cbn. lia.
Qed.

Definition pruned (prepare : bool) (w_end : Z) sb pre post : SparseAllocBitmap :=
  mk_sparse (pre ++ filter (kept w_end) post) (capacity sb)
    (remove_rollback_reserve_capacity sb +
     if prepare then Z.of_nat (length post - length (filter (kept w_end) post)) else 0).

Lemma pruned_nothing prepare w_end sb pre post :
  entries sb = pre ++ post → (∀ e, e ∈ post → kept w_end e) → pruned prepare w_end sb pre post = sb.
Proof.
  intros Hsb Hk. unfold pruned. rewrite filter_every by done. rewrite Nat.sub_diag, <-Hsb. destruct sb. cbn. f_equal.
  destruct prepare; lia.
Qed.

(** Removing a batch, or keeping an entry, is one step of the specification. *)
Lemma pruned_drop prepare w_end sb pre zs post :
  (∀ e, e ∈ zs → ¬ kept w_end e) →
  pruned prepare w_end sb pre (zs ++ post) =
  pruned prepare w_end (mk_sparse (pre ++ post) (capacity sb)
    (remove_rollback_reserve_capacity sb + if prepare then Z.of_nat (length zs) else 0)) pre post.
Proof.
  intros Hzs. unfold pruned. rewrite filter_app, (filter_nothing _ zs) by done. cbn. f_equal.
  pose proof (length_filter (kept w_end) post). destruct prepare; [|lia]. rewrite length_app. lia.
Qed.
Lemma pruned_keep prepare w_end sb pre e post :
  kept w_end e → pruned prepare w_end sb pre (e :: post) = pruned prepare w_end sb (pre ++ [e]) post.
Proof.
  intros He. unfold pruned. rewrite filter_cons_True by done. rewrite <-app_assoc. cbn [length app].
  done.
Qed.

Lemma prune_loop_spec fuel prepare : ∀ sb pre post w count,
  entries sb = pre ++ post → entries_wf post → (∀ e, e ∈ post → w ≤ bitmap_word_index e) →
  0 ≤ w → 0 ≤ count → (length post < fuel)%nat →
  (prepare = true → remove_rollback_reserve_capacity sb + Z.of_nat (length post) < 2 ^ usize_bits) →
  prune_loop fuel sb prepare (length pre) w count = Ok (pruned prepare (w + count) sb pre post).
Proof.
  induction fuel as [|fuel IH]; intros sb pre post w count Hsb Hwf Hge ?? Hfuel Hres; [lia|].
  cbn [prune_loop]. rewrite Hsb, length_app. destruct post as [|e post]; cbn [length] in *.
  { zdec. by rewrite pruned_nothing by (done || intros ? []%not_elem_of_nil). }
  zdec. destruct (Z.eqb_spec count 0) as [->|?]; cbn [negb].
  { rewrite pruned_nothing; [done|done|]. intros e' He'. right. specialize (Hge e' He'). lia. }
  rewrite idx_middle. ostep. assert (w ≤ bitmap_word_index e) by (apply Hge; left). zdec. ostep.
  apply entries_wf_cons in Hwf as ([? ?] & Hwf & Hlt).
  assert (∀ e', e' ∈ post → bitmap_word_index e < bitmap_word_index e') as Hlt' by (intros e' He'; by apply Hlt).
  destruct (Z.eqb_spec (Z.max 0 (count - (bitmap_word_index e - w))) 0).
  { rewrite pruned_nothing; [done|done|]. intros e' [->|He']%elem_of_cons; right; [lia|]. specialize (Hlt' e' He'). lia. }
  rewrite Z.max_r by lia. set (count' := count - (bitmap_word_index e - w)).
  replace (w + count) with (bitmap_word_index e + count') by lia.
  destruct (Z.eqb_spec (bitmap_word e) 0) as [Hz|Hnz].
  2: { ostep. replace (length pre + 1)%nat with (length (pre ++ [e])) by (rewrite length_app; cbn; lia).
    rewrite IH with (post := post); [|cbn; by rewrite <-app_assoc|done|intros e' He'; specialize (Hlt' e' He'); lia|lia..|intros Hp; specialize (Hres Hp); lia].
    rewrite pruned_keep by by left. do 2 f_equal. lia. }
  rewrite slice_from_middle. ostep.
  destruct (batch_split e post count' Hlt') as (found & b & x & rest & -> & Hb & Hlen0 & Hbx);
    [intros [?|?]; [done|lia]|]. ostep. rewrite Hlen0.
  rewrite Hb.
  assert (entries_wf (b ++ x :: rest)) as Hwfb by (rewrite <-Hb; apply entries_wf_cons; done).
  apply entries_wf_app in Hwfb as (_ & Hwfx & Hbefore). apply entries_wf_cons in Hwfx as ([? ?] & Hwfr & Hxlt).
  assert (bitmap_word_index x < bitmap_word_index e + count').
  { destruct (Z.lt_ge_cases (bitmap_word_index x) (bitmap_word_index e + count')); [done|].
    destruct (Hbx x); [apply elem_of_app; right; left|by right]. }
  assert (bitmap_word_index e ≤ bitmap_word_index x).
  { assert (x ∈ e :: post) as [->|Hx]%elem_of_cons by (rewrite Hb; apply elem_of_app; right; left); [done|].
    specialize (Hlt' x Hx). lia. }
  replace (length pre + S (length b) - 1)%nat with (length (pre ++ b)) by (rewrite length_app; lia).
  rewrite app_assoc, idx_middle. ostep. rewrite <-app_assoc, cons_middle, (app_assoc b).
  rewrite vec_drain_middle by (rewrite ?length_app; cbn; lia). ostep.
  assert (length (e :: post) = length ((b ++ [x]) ++ rest)) as Hlen by (rewrite Hb, <-app_assoc; done).
  rewrite length_app in Hlen. assert (length (b ++ [x]) = S (length b)) as Hlenb by (rewrite length_app; cbn; lia).
  cbn [length] in Hlen. rewrite pruned_drop by done. rewrite Hlenb.
  transitivity (prune_loop fuel (mk_sparse (pre ++ rest) (capacity sb) (remove_rollback_reserve_capacity sb +
    (if prepare then Z.of_nat (S (length b)) else 0))) prepare (length pre) (bitmap_word_index x + 1)
    (count' - (bitmap_word_index x + 1 - bitmap_word_index e))).
  { destruct prepare; [specialize (Hres eq_refl); ostep; done|]. ostep. by rewrite Z.add_0_r. }
  rewrite IH with (post := rest); [|done|done| |lia..|cbn; intros Hp; specialize (Hres Hp); rewrite Hp; lia].
  - do 2 f_equal. lia.
  - intros e' He'. specialize (Hxlt e' He'). unfold before in Hxlt. lia.
Qed.

Lemma prune_unused_in_range_Ok sb r pre post hint prepare :
  range_ok r → entries sb = pre ++ post → entries_wf (pre ++ post) → split_at pre post (first_word r) →
  hint = None ∨ hint = Some (length pre) →
  (prepare = true → remove_rollback_reserve_capacity sb + Z.of_nat (length post) < 2 ^ usize_bits) →
  prune_unused_in_range sb r hint prepare = Ok (pruned prepare (last_word r + 1) sb pre post).
Proof.
  intros Hr Hsb Hwf Hsplit Hhint Hres. pose proof (range_word_bounds r Hr) as [? ?]. unfold prune_unused_in_range.
  rewrite range_words_Ok by done. ostep. rewrite (hinted_position_Ok sb pre post) by done. ostep.
  apply entries_wf_app in Hwf as (_ & Hpost & _).
  rewrite prune_loop_spec with (post := post); [|done|done|apply Hsplit|unfold word_count; lia..| |done].
  - do 2 f_equal. unfold word_count. lia.
  - rewrite Hsb, length_app. lia.
Qed.

(** *** Populating *)

Definition zeros (w n : Z) : list SparseAllocBitmapEntry := (λ i, mk_entry i 0) <$> seqZ w n.
(** The entries [post], all at or after [w], with those of the [n] words from
    [w] on that are missing. *)
Definition fill post (w n : Z) : list SparseAllocBitmapEntry :=
  ((λ i, mk_entry i (word_at post i)) <$> seqZ w n) ++ filter (λ e, w + n ≤ bitmap_word_index e) post.

Lemma zeros_elem w n e : e ∈ zeros w n ↔ bitmap_word e = 0 ∧ w ≤ bitmap_word_index e < w + n.
Proof.
  unfold zeros. rewrite list_elem_of_fmap. setoid_rewrite elem_of_seqZ. split.
  - intros (i & -> & ?). cbn. lia.
  - intros [Hz ?]. exists (bitmap_word_index e). split; [|lia]. destruct e. cbn in *. congruence.
Qed.
Lemma zeros_length w n : 0 ≤ n → Z.of_nat (length (zeros w n)) = n.
Proof. intros. unfold zeros. rewrite length_fmap, length_seqZ. lia. Qed.

Lemma fresh_entries_Ok n w : w + Z.of_nat n < 2 ^ 64 → fresh_entries n w = Ok (zeros w (Z.of_nat n), w + Z.of_nat n).
Proof.
  revert w. induction n as [|n IH]; intros w Hw; [by rewrite Z.add_0_r|]. cbn [fresh_entries]. ostep.
  rewrite IH by lia. ostep. unfold zeros. rewrite (seqZ_cons w (Z.of_nat (S n))) by lia.
  rewrite fmap_cons. replace (Z.succ w) with (w + 1) by lia. replace (Z.pred (Z.of_nat (S n))) with (Z.of_nat n) by lia.
  do 2 f_equal. lia.
Qed.

Lemma fill_0 post w : (∀ e, e ∈ post → w ≤ bitmap_word_index e) → fill post w 0 = post.
Proof.
  intros Hge. unfold fill. cbn. apply filter_every. intros e He. specialize (Hge e He). lia.
Qed.

Lemma fill_gap post w n d :
  0 ≤ d ≤ n → (∀ e, e ∈ post → w + d ≤ bitmap_word_index e) →
  fill post w n = zeros w d ++ fill post (w + d) (n - d).
Proof.
  intros Hd Hge. unfold fill, zeros. replace n with (d + (n - d)) at 1 by lia. rewrite seqZ_app by lia.
  rewrite fmap_app, <-app_assoc. f_equal.
  - apply list_fmap_ext. intros i x Hx%list_elem_of_lookup_2. apply elem_of_seqZ in Hx. cbn. f_equal.
    apply word_at_absent. intros e He. specialize (Hge e He). lia.
  - by replace (w + d + (n - d)) with (w + n) by lia.
Qed.

Lemma fill_entry e post w n :
  bitmap_word_index e = w → 0 < n → (∀ e', e' ∈ post → w < bitmap_word_index e') →
  fill (e :: post) w n = e :: fill post (w + 1) (n - 1).
Proof.
  intros He Hn Hlt. unfold fill. rewrite (seqZ_cons w) by lia. rewrite fmap_cons. cbn [app word_at].
  rewrite He, Z.eqb_refl. rewrite filter_cons_False by lia. f_equal; [by destruct e; cbn in *; subst|].
  rewrite <-!Z.add_1_r, <-Z.sub_1_r. replace (w + 1 + (n - 1)) with (w + n) by lia. f_equal.
  apply list_fmap_ext. intros i x Hx%list_elem_of_lookup_2. apply elem_of_seqZ in Hx. cbn. f_equal. by zdec.
Qed.

Definition cap_ok sb : Prop :=
  Z.of_nat (length (entries sb)) + remove_rollback_reserve_capacity sb ≤ capacity sb.

Lemma try_reserve_exact_spec sb n sb' :
  cap_ok sb → try_reserve_exact sb (n + remove_rollback_reserve_capacity sb) = Some sb' →
  entries sb' = entries sb ∧ remove_rollback_reserve_capacity sb' = remove_rollback_reserve_capacity sb ∧
  Z.of_nat (length (entries sb)) + n + remove_rollback_reserve_capacity sb ≤ capacity sb'.
Proof.
  unfold try_reserve_exact. intros Hcap. destruct (Z.leb_spec (n + remove_rollback_reserve_capacity sb) (capacity sb - Z.of_nat (length (entries sb)))); [intros [= <-]; split_and!; [done..|lia]|].
  destruct (_ && _); [|done]. intros [= <-]. cbn. split_and!; [done..|lia].
Qed.

(** Filling cannot go wrong if no missing word is followed by an entry before the
    last word: after a run of missing words the code skips one entry without
    advancing the position. *)
Definition no_inner_gap post (w n : Z) : Prop :=
  ∀ e, e ∈ post → bitmap_word_index e < w + n - 1 → ∀ i, w ≤ i ≤ bitmap_word_index e → present post i = true.

(** The result of populating: the entries [filled] on success, and otherwise the
    entries [post0] that there were, without unused ones in the range. *)
Definition populated (c : res (SparseAllocBitmap * (nat + NvFsError))) sb r (pre0 filled post0 : list SparseAllocBitmapEntry) : Prop :=
  ∃ sb' x, c = Ok (sb', x) ∧ remove_rollback_reserve_capacity sb' = remove_rollback_reserve_capacity sb ∧ cap_ok sb' ∧
    match x with
    | inl i => i = length pre0 ∧ entries sb' = pre0 ++ filled
    | inr e => e = MemoryAllocationFailure ∧ entries sb' = pre0 ++ filter (kept (last_word r + 1)) post0
    end.

Lemma populated_rollback sb0 sb r pre0 post post0 filled :
  range_ok r → entries sb = pre0 ++ post → entries_wf (pre0 ++ post) → split_at pre0 post (first_word r) →
  filter (kept (last_word r + 1)) post = filter (kept (last_word r + 1)) post0 → cap_ok sb →
  remove_rollback_reserve_capacity sb = remove_rollback_reserve_capacity sb0 →
  populated (populate_rollback sb r (length pre0)) sb0 r pre0 filled post0.
Proof.
  intros Hr Hsb Hwf Hsplit Hf Hcap Hres. unfold populate_rollback.
  rewrite (prune_unused_in_range_Ok sb r pre0 post) by (done || by right).
  eexists _, _. split; [done|]. unfold pruned, cap_ok in *. cbn. rewrite Hf. split_and!; [lia| |done..].
  rewrite Hsb, length_app in Hcap. rewrite <-Hf, length_app. pose proof (length_filter (kept (last_word r + 1)) post). lia.
Qed.

Lemma populated_filled sb0 sb r pre0 filled post0 :
  entries sb = pre0 ++ filled → cap_ok sb →
  remove_rollback_reserve_capacity sb = remove_rollback_reserve_capacity sb0 →
  populated (Ok (sb, inl (length pre0))) sb0 r pre0 filled post0.
Proof. intros. by eexists _, _. Qed.

Lemma vec_splice_middle pre es post : vec_splice (pre ++ post) (length pre) es = Ok (pre ++ es ++ post).
Proof. unfold vec_splice. rewrite length_app. zdec. by rewrite take_app_length, drop_app_length. Qed.

Lemma populate_loop_done fuel r i sb j w : populate_loop fuel r i sb j w 0 = Ok (sb, inl i).
Proof. by destruct fuel. Qed.

Lemma no_inner_gap_step e post w n :
  bitmap_word_index e = w → no_inner_gap (e :: post) w n → no_inner_gap post (w + 1) (n - 1).
Proof.
  intros He Hgap e' He' ? i ?. specialize (Hgap e' ltac:(by right) ltac:(lia) i ltac:(lia)).
  unfold present in Hgap. cbn in Hgap. destruct (Z.eqb_spec (bitmap_word_index e) i); [lia|done].
Qed.

(** A run of missing words ends at the range or at its last word. *)
Lemma gap_last e post w n :
  no_inner_gap (e :: post) w n → w ≤ bitmap_word_index e → bitmap_word_index e ≠ w →
  (∀ e', e' ∈ post → bitmap_word_index e < bitmap_word_index e') → 0 ≤ n →
  let d := Z.min (bitmap_word_index e - w) n in n - d = 0 ∨ n - d = 1 ∧ w + d = bitmap_word_index e.
Proof.
  intros Hgap ?? Hlt ? d. destruct (Z.lt_ge_cases (bitmap_word_index e) (w + n - 1)); [|lia].
  pose proof (presentP (e :: post) w) as Hp. rewrite (Hgap e) in Hp by (lia || left).
  destruct Hp as (e' & [->|He']%elem_of_cons & ?); [lia|]. specialize (Hlt e' He'). lia.
Qed.

Lemma fill_last e post w n d :
  (∀ e', e' ∈ post → bitmap_word_index e < bitmap_word_index e') → 0 ≤ d ≤ n →
  n - d = 0 ∨ n - d = 1 ∧ w + d = bitmap_word_index e → w + d ≤ bitmap_word_index e →
  fill (e :: post) w n = zeros w d ++ e :: post.
Proof.
  intros Hlt ? Hd ?. rewrite (fill_gap _ w n d); [|done|].
  2: { intros e' [->|He']%elem_of_cons; [done|]. specialize (Hlt e' He'). lia. }
  f_equal. destruct Hd as [->|[-> Hwd]].
  - apply fill_0. intros e' [->|He']%elem_of_cons; [done|]. specialize (Hlt e' He'). lia.
  - rewrite fill_entry by (lia || intros e' He'; specialize (Hlt e' He'); lia). f_equal.
    apply fill_0. intros e' He'. specialize (Hlt e' He'). lia.
Qed.

Lemma populate_loop_spec fuel r pre0 post0 : range_ok r → ∀ sb mid post w n,
  entries sb = pre0 ++ mid ++ post → entries_wf (pre0 ++ mid ++ post) → split_at pre0 (mid ++ post) (first_word r) →
  (∀ e, e ∈ post → w ≤ bitmap_word_index e) → 0 ≤ w → 0 ≤ n → w + n = last_word r + 1 → no_inner_gap post w n →
  filter (kept (last_word r + 1)) (mid ++ post) = filter (kept (last_word r + 1)) post0 →
  cap_ok sb → n + remove_rollback_reserve_capacity sb < 2 ^ usize_bits → (length post < fuel)%nat →
  populated (populate_loop fuel r (length pre0) sb (length (pre0 ++ mid)) w n) sb r pre0 (mid ++ fill post w n) post0.
Proof.
  intros Hr. pose proof (range_word_bounds r Hr) as [? ?].
  induction fuel as [|fuel IH]; intros sb mid post w n Hsb Hwf Hsplit Hge ?? Hwn Hgap Hfilter Hcap Hres Hfuel; [lia|].
  assert (∀ sb', entries sb' = entries sb → cap_ok sb' →
    remove_rollback_reserve_capacity sb' = remove_rollback_reserve_capacity sb →
    populated (populate_rollback sb' r (length pre0)) sb r pre0 (mid ++ fill post w n) post0) as Hback
    by (intros; apply populated_rollback with (mid ++ post); congruence).
  cbn [populate_loop]. destruct (Z.eqb_spec n 0) as [->|Hn].
  { rewrite fill_0 by done. by apply populated_filled. }
  rewrite app_assoc in Hsb. remember (pre0 ++ mid) as pm eqn:Hpm. rewrite Hsb, length_app.
  destruct post as [|e post]; cbn [length].
  - zdec. rewrite uadd_Ok by done. ostep. destruct (try_reserve_exact _ _) as [sb1|] eqn:Ht; [|by apply Hback].
    apply try_reserve_exact_spec in Ht as (He1 & Hr1 & Hc1); [|done]. rewrite Hsb, app_nil_r in *.
    destruct (checked_add _ _ _) as [newlen|] eqn:Hca.
    2: { apply Hback; [congruence| |congruence]. unfold cap_ok. rewrite He1. lia. }
    unfold checked_add in Hca. destruct (_ <? _); [|done]. injection Hca as <-.
    replace (Z.to_nat _ - _)%nat with (Z.to_nat n) by lia. rewrite fresh_entries_Ok by lia. ostep.
    rewrite Z2Nat.id by lia. rewrite populate_loop_done.
    rewrite (fill_gap [] w n n), Z.sub_diag, fill_0 by (lia || intros ? []%not_elem_of_nil). rewrite app_nil_r.
    apply populated_filled; [|unfold cap_ok|done]; cbn; rewrite He1; [by rewrite Hpm, <-app_assoc|].
    rewrite length_app, Nat2Z.inj_add, zeros_length by lia. lia.
  - assert (w ≤ bitmap_word_index e) by (apply Hge; left). zdec. rewrite idx_middle. ostep.
    assert (∀ e', e' ∈ post → bitmap_word_index e < bitmap_word_index e') as Hlt.
    { apply entries_wf_app in Hwf as (_ & Hwf & _). apply entries_wf_app in Hwf as (_ & Hwf & _).
      by apply entries_wf_cons in Hwf as (_ & _ & ?). }
    destruct (Z.eqb_spec (bitmap_word_index e) w) as [Hew|Hew]; cbn [negb].
    + ostep. replace (length pm + 1)%nat with (length (pre0 ++ mid ++ [e])) by (rewrite Hpm, !length_app; cbn; lia).
      rewrite fill_entry by (done || lia || intros e' He'; specialize (Hlt e' He'); lia).
      replace (mid ++ e :: fill post (w + 1) (n - 1)) with ((mid ++ [e]) ++ fill post (w + 1) (n - 1))
        by (by rewrite <-app_assoc).
      apply IH; rewrite <-?app_assoc; try done; try lia.
      * by rewrite Hsb, Hpm, <-app_assoc.
      * intros e' He'. specialize (Hlt e' He'). lia.
      * by apply no_inner_gap_step with e.
      * cbn in Hfuel. lia.
    + ostep. set (d := Z.min (bitmap_word_index e - w) n) in *. ostep.
      destruct (try_reserve_exact _ _) as [sb1|] eqn:Ht; [|by apply Hback].
      apply try_reserve_exact_spec in Ht as (He1 & Hr1 & Hc1); [|done]. rewrite He1, Hsb in *.
      rewrite fresh_entries_Ok by lia. ostep. rewrite Z2Nat.id by lia. rewrite vec_splice_middle. ostep.
      assert (n - d = 0 ∨ n - d = 1 ∧ w + d = bitmap_word_index e) as Hd by (by apply (gap_last e post w n)).
      rewrite debug_check_true.
      2: { zcase; [done|]. replace (length pm + Z.to_nat d)%nat with (length (pm ++ zeros w d))
          by (rewrite length_app; pose proof (zeros_length w d); lia).
        cbn. rewrite app_assoc, idx_middle. ostep. by zdec. }
      ostep. replace (Z.max 0 (n - d - 1)) with 0 by lia. rewrite populate_loop_done.
      apply populated_filled; [|unfold cap_ok|done]; cbn.
      * rewrite Hpm, <-app_assoc. do 2 f_equal. symmetry. apply (fill_last e post w n d); [done|lia|done|lia].
      * rewrite !length_app, !Nat2Z.inj_add, zeros_length by lia. rewrite length_app, Nat2Z.inj_add in Hc1. lia.
Qed.

(** What filling does to the words and to the invariant. *)
Lemma seqZ_entries_sorted (f : Z → Z) w n : StronglySorted before ((λ i, mk_entry i (f i)) <$> seqZ w n).
Proof.
  destruct (Z.lt_ge_cases n 0) as [?|Hn]; [by rewrite seqZ_nil by lia; constructor|].
  revert w. pattern n. apply natlike_ind; [|clear n Hn|done]; [constructor|].
  intros n Hn IH w. rewrite seqZ_cons by lia. rewrite Z.pred_succ, fmap_cons. constructor; [done|].
  rewrite Forall_fmap, Forall_forall. intros i Hi%elem_of_seqZ. unfold before. cbn. lia.
Qed.

Lemma fill_elem post w n e :
  e ∈ fill post w n ↔
  (w ≤ bitmap_word_index e < w + n ∧ bitmap_word e = word_at post (bitmap_word_index e)) ∨
  (e ∈ post ∧ w + n ≤ bitmap_word_index e).
Proof.
  unfold fill. rewrite elem_of_app, list_elem_of_filter, list_elem_of_fmap. setoid_rewrite elem_of_seqZ. split.
  - intros [(i & -> & ?)|[? ?]]; [left|right]; cbn; [split; [lia|done]|done].
  - intros [[? ?]|[? ?]]; [left|by right]. exists (bitmap_word_index e). split; [|lia]. destruct e. cbn in *. congruence.
Qed.

Lemma fill_wf post w n :
  entries_wf post → 0 ≤ w → w + n ≤ 2 ^ 58 → entries_wf (fill post w n).
Proof.
  intros [Hok Hs] ??. split.
  - rewrite Forall_forall in *. intros e [[? He]|[? ?]]%fill_elem; [|by apply Hok].
    split; [lia|]. rewrite He. apply word_at_in_u. by apply Forall_forall.
  - unfold fill. apply StronglySorted_app_2; [|apply seqZ_entries_sorted|by apply StronglySorted_filter].
    intros e1 e2 (i & -> & Hi%elem_of_seqZ)%list_elem_of_fmap [? ?]%list_elem_of_filter. unfold before. cbn. lia.
Qed.

Lemma word_at_fill post w n w' :
  StronglySorted before (fill post w n) → StronglySorted before post → (∀ e, e ∈ post → w ≤ bitmap_word_index e) →
  word_at (fill post w n) w' = word_at post w'.
Proof.
  intros Hs Hs' Hge. pose proof (presentP (fill post w n) w') as Hp. destruct (present _ w').
  - destruct Hp as (e & He & <-). rewrite word_at_elem by done. apply fill_elem in He as [[_ ?]|[? ?]]; [done|].
    by rewrite word_at_elem.
  - rewrite !word_at_absent; [done| |done]. intros e He <-. specialize (Hge e He).
    destruct (Z.lt_ge_cases (bitmap_word_index e) (w + n)).
    + apply (Hp e); [|done]. apply fill_elem. left. rewrite word_at_elem by done. lia.
    + apply (Hp e); [|done]. apply fill_elem. right. done.
Qed.

Lemma present_split pre post w i : split_at pre post w → w ≤ i → present (pre ++ post) i = present post i.
Proof.
  intros [Hpre _] ?. unfold present. rewrite existsb_app. replace (existsb _ pre) with false; [done|].
  symmetry. apply not_true_iff_false. rewrite existsb_exists. intros (e & He%list_elem_of_In & ?).
  specialize (Hpre e He). lia.
Qed.

Lemma no_inner_gap_split pre post w n :
  split_at pre post w → no_inner_gap (pre ++ post) w n → no_inner_gap post w n.
Proof.
  intros Hs Hgap e He ? i ?. rewrite <-(present_split pre post w i) by (done || lia).
  apply (Hgap e); [apply elem_of_app; by right|done..].
Qed.

(** The invariant of a sparse bitmap. *)
Definition sparse_wf sb : Prop :=
  entries_wf (entries sb) ∧ all_used (entries sb) ∧ cap_ok sb ∧ 0 ≤ remove_rollback_reserve_capacity sb.

(** The reserve and the number of words of a range together fit [usize], if the
    latter does. *)
Definition reserve_fits sb r : Prop :=
  word_count r < 2 ^ usize_bits → word_count r + remove_rollback_reserve_capacity sb < 2 ^ usize_bits.

Lemma populate_missing_in_range_spec sb r pre post :
  sparse_wf sb → range_ok r → reserve_fits sb r → no_inner_gap (entries sb) (first_word r) (word_count r) →
  entries sb = pre ++ post → split_at pre post (first_word r) →
  populated (populate_missing_in_range sb r) sb r pre (fill post (first_word r) (word_count r)) post.
Proof.
  intros (Hwf & Hused & Hcap & Hpos) Hr Hfits Hgap Hsb Hsplit. pose proof (range_word_bounds r Hr) as [? ?].
  unfold populate_missing_in_range. rewrite range_words_Ok by done. ostep.
  assert (first_word r + word_count r = last_word r + 1) as Hcount by (unfold word_count; lia).
  assert (filter (kept (last_word r + 1)) post = post) as Hall.
  { apply filter_every. intros e He. left. unfold all_used in Hused. rewrite Forall_forall in Hused. apply Hused.
    rewrite Hsb, elem_of_app. by right. }
  destruct (Z.leb_spec (2 ^ usize_bits) (word_count r)).
  { eexists _, _. split_and!; [done..|]. by rewrite Hall. }
  specialize (Hfits ltac:(done)). rewrite (find_entry_position_split sb pre post) by done. rewrite Hsb in *.
  apply no_inner_gap_split in Hgap; [|done].
  assert (populated (populate_loop (S (S (length (pre ++ post)))) r (length pre) sb (length pre) (first_word r) (word_count r))
    sb r pre (fill post (first_word r) (word_count r)) post) as Hloop.
  { rewrite <-(app_nil_r pre) at 3. apply (populate_loop_spec _ r pre post Hr sb [] post); try done; try lia;
      [apply Hsplit|rewrite length_app; lia]. }
  destruct post as [|e post]; [done|]. destruct (Z.eqb_spec (bitmap_word_index e) (first_word r)) as [He|He]; [|done].
  apply entries_wf_app in Hwf as Hwf'. destruct Hwf' as (_ & Hpost & _). apply entries_wf_cons in Hpost as (_ & _ & Hlt).
  assert (∀ e', e' ∈ post → first_word r < bitmap_word_index e') as Hlt' by (intros e' He'; rewrite <-He; by apply Hlt).
  ostep. rewrite Z.max_r by lia. rewrite fill_entry by (done || lia).
  replace (length pre + 1)%nat with (length (pre ++ [e])) by (rewrite length_app; cbn; lia).
  apply (populate_loop_spec _ r pre (e :: post) Hr sb [e] post); try done; try lia.
  - intros e' He'. specialize (Hlt' e' He'). lia.
  - by apply no_inner_gap_step with e.
  - rewrite length_app. cbn. lia.
Qed.

(** *** Adding and removing ranges *)

Lemma range_blocks_words r b : range_ok r → b ∈ r → first_word r ≤ b / 64 < first_word r + word_count r.
Proof.
  intros [? ?] Hb. rewrite elem_of_range in Hb. unfold word_count, first_word, last_word.
  assert (rng_begin r / 64 ≤ b / 64) by (apply Z.div_le_mono; lia).
  assert (b / 64 ≤ (rng_end r - 1) / 64) by (apply Z.div_le_mono; lia). lia.
Qed.

Lemma word_outside_range r w :
  range_ok r → w < first_word r ∨ last_word r < w → 64 * w + 64 ≤ rng_begin r ∨ rng_end r ≤ 64 * w.
Proof.
  intros [? ?] Hw. unfold first_word, last_word in Hw. destruct Hw as [Hw|Hw]; [left|right].
  - pose proof (Z.mul_div_le (rng_begin r) 64). lia.
  - pose proof (Z.mul_succ_div_gt (rng_end r - 1) 64). lia.
Qed.

(** A word that overlaps with the range has a block of the range in it. *)
Lemma word_in_range r w : range_ok r → first_word r ≤ w ≤ last_word r → ∃ i, 0 ≤ i < 64 ∧ 64 * w + i ∈ r.
Proof.
  intros [? ?] Hw. unfold first_word, last_word in Hw.
  pose proof (Z.mul_succ_div_gt (rng_begin r) 64). pose proof (Z.mul_div_le (rng_end r - 1) 64).
  exists (Z.max 0 (rng_begin r - 64 * w)). rewrite elem_of_range. lia.
Qed.

Lemma set_word_used r e :
  range_ok r → entry_ok e → bitmap_word e ≠ 0 ∨ first_word r ≤ bitmap_word_index e ≤ last_word r →
  bitmap_word (set_word r true e) ≠ 0.
Proof.
  intros Hr [? He] Hor Hz.
  assert (∀ i, 0 ≤ i < 64 → Z.testbit (bitmap_word e) i = false ∧ 64 * bitmap_word_index e + i ∉ r) as Hbits.
  { intros i Hi. pose proof (set_word_testbit r true e i Hi) as Ht. rewrite Hz, Z.bits_0 in Ht. by case_bool_decide. }
  destruct Hor as [Hnz|Hin].
  - apply Hnz, word_ext; [done|done|]. intros i Hi. rewrite Z.bits_0. by apply Hbits.
  - destruct (word_in_range r _ Hr Hin) as (i & Hi & Hb). by apply (Hbits i Hi).
Qed.

Lemma present_fill pre post r b :
  range_ok r → b ∈ r → present (pre ++ fill post (first_word r) (word_count r)) (b / 64) = true.
Proof.
  intros Hr Hb. pose proof (range_blocks_words r b Hr Hb).
  pose proof (presentP (pre ++ fill post (first_word r) (word_count r)) (b / 64)) as Hp. destruct (present _ _); [done|].
  destruct (Hp (mk_entry (b / 64) (word_at post (b / 64)))); [|done]. apply elem_of_app. right. apply fill_elem. by left.
Qed.

Lemma tracked_present l b : present l (b / 64) = false → tracked l b = false.
Proof.
  intros Hf. pose proof (presentP l (b / 64)) as Hp. rewrite Hf in Hp. unfold tracked.
  by rewrite word_at_absent, Z.bits_0.
Qed.

(** The entries after populating, and after the bits are set. *)
Lemma populated_entries_wf pre post r :
  range_ok r → entries_wf (pre ++ post) → split_at pre post (first_word r) →
  entries_wf (pre ++ fill post (first_word r) (word_count r)).
Proof.
  intros Hr (Hpre & Hpost & _)%entries_wf_app [Hlt Hge]. pose proof (range_word_bounds r Hr) as [? ?].
  apply entries_wf_app. split_and!; [done|apply fill_wf; [done|lia|unfold word_count; lia]|].
  intros e1 e2 He1 [[? _]|[He2 ?]]%fill_elem; specialize (Hlt e1 He1); unfold before; [lia|].
  specialize (Hge e2 He2). lia.
Qed.

Lemma tracked_added pre post r b :
  range_ok r → entries_wf (pre ++ post) → split_at pre post (first_word r) →
  tracked (set_word r true <$> pre ++ fill post (first_word r) (word_count r)) b =
  bool_decide (b ∈ r) || tracked (pre ++ post) b.
Proof.
  intros Hr Hwf Hsplit. pose proof (populated_entries_wf pre post r Hr Hwf Hsplit) as Hwf'.
  rewrite tracked_set_word by apply Hwf'.
  assert (tracked (pre ++ fill post (first_word r) (word_count r)) b = tracked (pre ++ post) b) as <-.
  { unfold tracked. rewrite !word_at_app. apply entries_wf_app in Hwf as (_ & Hpost & _).
    apply entries_wf_app in Hwf' as (_ & Hfill & _). rewrite word_at_fill; [done|apply Hfill|apply Hpost|apply Hsplit]. }
  case_bool_decide; cbn [orb]; [by rewrite present_fill|].
  destruct (present _ _) eqn:Hp; [done|]. symmetry. by apply tracked_present.
Qed.

Lemma added_used pre post r :
  range_ok r → entries_wf (pre ++ post) → split_at pre post (first_word r) → all_used (pre ++ post) →
  all_used (set_word r true <$> pre ++ fill post (first_word r) (word_count r)).
Proof.
  intros Hr Hwf Hsplit Hused. pose proof (populated_entries_wf pre post r Hr Hwf Hsplit) as [Hok _].
  unfold all_used in *. rewrite Forall_fmap. rewrite Forall_forall in *. intros e He. cbn.
  apply set_word_used; [done|by apply Hok|]. apply elem_of_app in He as [He|He].
  - left. apply Hused, elem_of_app. by left.
  - apply fill_elem in He as [[? _]|[He _]]; [right; unfold word_count in *; lia|].
    left. apply Hused, elem_of_app. by right.
Qed.

(** The outcome of adding a range. *)
Definition added sb r sb' (x : unit + NvFsError) : Prop :=
  sparse_wf sb' ∧ remove_rollback_reserve_capacity sb' = remove_rollback_reserve_capacity sb ∧
  match x with
  | inl _ => ∀ b, tracked (entries sb') b = bool_decide (b ∈ r) || tracked (entries sb) b
  | inr e => e = MemoryAllocationFailure ∧ entries sb' = entries sb
  end.

Lemma add_extent_spec sb r :
  sparse_wf sb → range_ok r → reserve_fits sb r → no_inner_gap (entries sb) (first_word r) (word_count r) →
  ∃ sb' x, add_extent sb r = Ok (sb', x) ∧ added sb r sb' x.
Proof.
  intros Hsb Hr Hfits Hgap. pose proof Hsb as ([Hok Hs] & Hused & Hcap & Hpos).
  destruct (split_at_exists (entries sb) (first_word r) Hs) as (pre & post & Hl & Hsplit).
  destruct (populate_missing_in_range_spec sb r pre post) as (sb1 & x & Hpop & Hres & Hcap1 & Hx); [done..|].
  unfold add_extent. rewrite Hpop. ostep. rewrite Hl in *. destruct x as [i|e].
  - destruct Hx as [-> He1]. pose proof (populated_entries_wf pre post r Hr (conj Hok Hs) Hsplit) as Hwf1.
    rewrite (set_in_range_Ok sb1 r pre (fill post (first_word r) (word_count r))); [|done..| |by right].
    2: { split; [apply Hsplit|]. intros e [[? _]|[? ?]]%fill_elem; [lia|]. by apply Hsplit. }
    ostep. eexists _, _. split; [done|]. split_and!; [|done|].
    + split_and!; cbn.
      * rewrite He1. by apply entries_wf_fmap; [|apply set_word_ok|].
      * rewrite He1. by apply added_used.
      * unfold cap_ok in *. cbn. rewrite He1 in Hcap1. by rewrite length_fmap, He1.
      * lia.
    + intros b. cbn. rewrite He1, Hl. by apply tracked_added.
  - destruct Hx as [-> He1]. eexists _, _. split; [done|]. rewrite filter_every in He1.
    2: { intros e He. left. unfold all_used in Hused. rewrite Forall_forall in Hused. apply Hused, elem_of_app. by right. }
    split_and!; [|done|done|congruence]. unfold sparse_wf. rewrite He1, Hres. by split_and!.
Qed.

Lemma set_word_before r v pre post :
  range_ok r → entries_wf (pre ++ post) → split_at pre post (first_word r) → set_word r v <$> pre = pre.
Proof.
  intros Hr ([Hok _] & _)%entries_wf_app [Hlt _]. apply set_word_fmap_outside; [done|].
  intros e He. apply word_outside_range; [done|]. left. by apply Hlt.
Qed.

(** The state after clearing the bits of a range. *)
Definition cleared (prepare : bool) sb r : SparseAllocBitmap :=
  let es := filter (kept (last_word r + 1)) (set_word r false <$> entries sb) in
  mk_sparse es (capacity sb) (remove_rollback_reserve_capacity sb +
    if prepare then Z.of_nat (length (entries sb) - length es) else 0).

Definition remove_range sb r (prepare : bool) : res SparseAllocBitmap :=
  let! '(sb, i) := set_in_range sb r None false in
  prune_unused_in_range sb r (Some i) prepare.

Lemma remove_range_Ok sb r prepare :
  sparse_wf sb → range_ok r →
  (prepare = true → remove_rollback_reserve_capacity sb + Z.of_nat (length (entries sb)) < 2 ^ usize_bits) →
  remove_range sb r prepare = Ok (cleared prepare sb r).
Proof.
  intros (Hwf & Hused & _ & _) Hr Hres. pose proof Hwf as [Hok Hs].
  destruct (split_at_exists (entries sb) (first_word r) Hs) as (pre & post & Hl & Hsplit). rewrite Hl in *.
  pose proof (set_word_before r false pre post Hr Hwf Hsplit) as Hpre.
  unfold remove_range. rewrite (set_in_range_Ok sb r pre post) by (done || by left). ostep.
  rewrite (prune_unused_in_range_Ok _ r pre (set_word r false <$> post)).
  - f_equal. unfold pruned, cleared. cbn. rewrite Hl, fmap_app, Hpre, filter_app, (filter_every _ pre).
    2: { intros e He. left. unfold all_used in Hused. rewrite Forall_forall in Hused. apply Hused, elem_of_app. by left. }
    f_equal. destruct prepare; [|done]. rewrite !length_app, !length_fmap. lia.
  - done.
  - cbn. by rewrite Hl, fmap_app, Hpre.
  - rewrite <-Hpre, <-fmap_app. by apply entries_wf_fmap; [|apply set_word_ok|].
  - split; [apply Hsplit|]. intros e (e' & -> & ?)%list_elem_of_fmap. cbn. by apply Hsplit.
  - by right.
  - cbn. rewrite length_fmap. rewrite length_app in Hres. intros Hp. specialize (Hres Hp). lia.
Qed.

Lemma tracked_cleared prepare sb r b :
  sparse_wf sb → tracked (entries (cleared prepare sb r)) b = tracked (entries sb) b && negb (bool_decide (b ∈ r)).
Proof.
  intros ([_ Hs] & _). cbn. rewrite tracked_filter by (eapply StronglySorted_fmap; [|exact Hs]; done).
  rewrite tracked_set_word by done. case_bool_decide; [by rewrite !andb_false_r|]. rewrite andb_true_r.
  destruct (present _ _) eqn:Hp; [done|]. by rewrite tracked_present.
Qed.

Lemma cleared_wf prepare sb r : range_ok r → sparse_wf sb → sparse_wf (cleared prepare sb r).
Proof.
  intros Hr (Hwf & Hused & Hcap & Hpos). unfold cleared.
  pose proof (length_filter (kept (last_word r + 1)) (set_word r false <$> entries sb)) as Hlen. rewrite length_fmap in Hlen.
  split_and!; cbn.
  - apply entries_wf_filter. by apply entries_wf_fmap; [|apply set_word_ok|].
  - unfold all_used in *. rewrite Forall_forall in *.
    intros e [[Hk|Hk] (e' & -> & He')%list_elem_of_fmap]%list_elem_of_filter; [done|]. cbn in Hk.
    rewrite set_word_outside; [by apply Hused| |apply word_outside_range; [done|lia]].
    destruct Hwf as [Hok _]. rewrite Forall_forall in Hok. by apply Hok.
  - unfold cap_ok in *. cbn. destruct prepare; lia.
  - destruct prepare; lia.
Qed.

(** An aligned block lies within one word. *)
Lemma block_range_Ok b k :
  0 ≤ k ≤ 6 → 0 ≤ b → (2 ^ k | b) → b + 2 ^ k < 2 ^ 64 →
  block_range b k = Ok (mk_range b (b + 2 ^ k)) ∧ range_ok (mk_range b (b + 2 ^ k)) ∧ word_count (mk_range b (b + 2 ^ k)) = 1.
Proof.
  intros ? ? [q Hq] ?. pose proof (pow2_pos k ltac:(lia)). split_and!.
  - unfold block_range. rewrite shl_one by lia. ostep. done.
  - unfold range_ok. cbn. lia.
  - unfold word_count, last_word, first_word. cbn. replace ((b + 2 ^ k - 1) / 64) with (b / 64); [lia|].
    assert (2 ^ k * 2 ^ (6 - k) = 64) as H64 by (rewrite <-Z.pow_add_r by lia; by replace (k + (6 - k)) with 6 by lia).
    apply Z.div_unique with (b mod 64 + 2 ^ k - 1); [left|]; [|pose proof (Z.div_mod b 64); lia].
    pose proof (Z.mod_pos_bound b 64).
    assert (b mod 64 = 2 ^ k * (q mod 2 ^ (6 - k))) as ->.
    { rewrite Hq, Z.mul_comm, <-H64. apply Z.mul_mod_distr_l; [|lia]. pose proof (pow2_pos (6 - k) ltac:(lia)). lia. }
    pose proof (Z.mod_pos_bound q (2 ^ (6 - k)) ltac:(by apply pow2_pos; lia)). nia.
Qed.

Lemma no_inner_gap_one l w : no_inner_gap l w 1.
Proof. intros e _ ? i ?. lia. Qed.

(** *** The entries are determined by the set of blocks *)

Lemma entries_ext l l' :
  entries_wf l → entries_wf l' → all_used l → all_used l' → (∀ w, word_at l w = word_at l' w) → l = l'.
Proof.
  revert l'. induction l as [|e l IH]; intros l' Hwf Hwf' Hu Hu' Heq.
  - destruct l' as [|e' l']; [done|]. apply entries_wf_cons in Hwf' as (? & ? & ?). inversion Hu'; subst.
    specialize (Heq (bitmap_word_index e')). cbn in Heq. rewrite Z.eqb_refl in Heq. congruence.
  - destruct l' as [|e' l'].
    + inversion Hu; subst. specialize (Heq (bitmap_word_index e)). cbn in Heq. rewrite Z.eqb_refl in Heq. congruence.
    + apply entries_wf_cons in Hwf as (He & Hwf & Hlt). apply entries_wf_cons in Hwf' as (He' & Hwf' & Hlt').
      inversion Hu as [|? ? Hue Hul]; subst. inversion Hu' as [|? ? Hue' Hul']; subst. unfold before in *.
      assert (∀ w, w < bitmap_word_index e → word_at l w = 0) as H1.
      { intros w ?. apply word_at_absent. intros x Hx. specialize (Hlt x Hx). lia. }
      assert (∀ w, w < bitmap_word_index e' → word_at l' w = 0) as H2.
      { intros w ?. apply word_at_absent. intros x Hx. specialize (Hlt' x Hx). lia. }
      assert (bitmap_word_index e = bitmap_word_index e') as Hi.
      { pose proof (Heq (bitmap_word_index e)) as Ha. pose proof (Heq (bitmap_word_index e')) as Hb. cbn in Ha, Hb.
        rewrite Z.eqb_refl in Ha, Hb. destruct (Z.lt_trichotomy (bitmap_word_index e) (bitmap_word_index e')) as [?|[?|?]]; [|done|].
        - rewrite H2 in Ha by lia. revert Ha. zcase; lia.
        - rewrite H1 in Hb by lia. revert Hb. zcase; lia. }
      pose proof (Heq (bitmap_word_index e)) as Ha. cbn in Ha. rewrite <-Hi, !Z.eqb_refl in Ha.
      replace e' with e by (destruct e, e'; cbn in *; congruence). f_equal. apply IH; try done.
      intros w. specialize (Heq w). cbn in Heq. rewrite <-Hi in Heq. destruct (Z.eqb_spec (bitmap_word_index e) w); [|done].
      rewrite !word_at_absent; [done| |]; intros x Hx; [specialize (Hlt' x Hx)|specialize (Hlt x Hx)]; lia.
Qed.

Lemma tracked_ext l l' :
  entries_wf l → entries_wf l' → all_used l → all_used l' → (∀ b, tracked l b = tracked l' b) → l = l'.
Proof.
  intros Hwf Hwf' Hu Hu' Heq. apply entries_ext; [done..|]. intros w.
  apply word_ext; [apply word_at_in_u, Hwf|apply word_at_in_u, Hwf'|]. intros i Hi. specialize (Heq (64 * w + i)).
  unfold tracked in Heq. replace ((64 * w + i) / 64) with w in Heq by (apply Z.div_unique with i; lia).
  by replace ((64 * w + i) mod 64) with i in Heq by (apply Z.mod_unique with w; lia).
Qed.

(** *** Sequences of blocks and extents *)

Definition block_ok (k b : Z) : Prop := 0 ≤ b ∧ (2 ^ k | b) ∧ b + 2 ^ k < 2 ^ 64.
Definition in_blocks (k : Z) (blocks : list Z) (b : Z) : bool :=
  existsb (λ a, (a <=? b) && (b <? a + 2 ^ k)) blocks.
Definition in_extents (extents : list BlockRange) (b : Z) : bool := existsb (λ r, bool_decide (b ∈ r)) extents.

Lemma bool_decide_range b r : bool_decide (b ∈ r) = (rng_begin r <=? b) && (b <? rng_end r).
Proof. apply eq_true_iff_eq. rewrite bool_decide_eq_true, elem_of_range, andb_true_iff, Z.leb_le, Z.ltb_lt. done. Qed.

Lemma add_block_spec sb b k :
  sparse_wf sb → 0 ≤ k ≤ 6 → block_ok k b → remove_rollback_reserve_capacity sb + 1 < 2 ^ usize_bits →
  ∃ sb' x, add_block sb b k = Ok (sb', x) ∧ added sb (mk_range b (b + 2 ^ k)) sb' x.
Proof.
  intros Hsb Hk (? & ? & ?) Hres. destruct (block_range_Ok b k) as (Hb & Hr & Hc); [done..|].
  destruct (add_extent_spec sb (mk_range b (b + 2 ^ k))) as (sb' & x & Hadd & Hx); [done|done| | |].
  - unfold reserve_fits. lia.
  - rewrite Hc. apply no_inner_gap_one.
  - exists sb', x. split; [|done]. unfold add_block. by rewrite Hb.
Qed.

Lemma _remove_block_Ok sb b k prepare :
  sparse_wf sb → 0 ≤ k ≤ 6 → block_ok k b →
  (prepare = true → remove_rollback_reserve_capacity sb + Z.of_nat (length (entries sb)) < 2 ^ usize_bits) →
  _remove_block sb b k prepare = Ok (cleared prepare sb (mk_range b (b + 2 ^ k))) ∧
  sparse_wf (cleared prepare sb (mk_range b (b + 2 ^ k))).
Proof.
  intros Hsb Hk (? & ? & ?) Hres. destruct (block_range_Ok b k) as (Hb & Hr & _); [done..|].
  split; [|by apply cleared_wf]. unfold _remove_block. rewrite Hb. by apply (remove_range_Ok sb _ prepare).
Qed.

Lemma add_blocks_rollback_spec k blocks : ∀ sb,
  sparse_wf sb → 0 ≤ k ≤ 6 → Forall (block_ok k) blocks →
  ∃ sb', add_blocks_rollback sb blocks k = Ok sb' ∧ sparse_wf sb' ∧
    remove_rollback_reserve_capacity sb' = remove_rollback_reserve_capacity sb ∧
    ∀ b, tracked (entries sb') b = tracked (entries sb) b && negb (in_blocks k blocks b).
Proof.
  induction blocks as [|a blocks IH]; intros sb Hsb Hk Hok; cbn [add_blocks_rollback].
  { exists sb. split_and!; [done..|]. intros b. by rewrite andb_true_r. }
  inversion Hok; subst. destruct (_remove_block_Ok sb a k false) as [-> Hwf]; [done..|]. ostep.
  destruct (IH _ Hwf) as (sb' & -> & Hsb' & Hres & Ht); [done..|]. exists sb'. split_and!; [done..| |].
  - rewrite Hres. cbn. lia.
  - intros b. rewrite Ht, tracked_cleared by done. unfold in_blocks. cbn [existsb]. rewrite bool_decide_range. cbn [rng_begin rng_end].
    by rewrite negb_orb, andb_assoc.
Qed.

Lemma add_blocks_loop_spec sb0 k blocks : ∀ sb taken,
  sparse_wf sb0 → sparse_wf sb → 0 ≤ k ≤ 6 → Forall (block_ok k) (taken ++ blocks) →
  remove_rollback_reserve_capacity sb = remove_rollback_reserve_capacity sb0 →
  remove_rollback_reserve_capacity sb0 + 1 < 2 ^ usize_bits →
  (∀ b, in_blocks k (taken ++ blocks) b = true → tracked (entries sb0) b = false) →
  (∀ b, tracked (entries sb) b = tracked (entries sb0) b || in_blocks k taken b) →
  ∃ sb' x, add_blocks_loop sb (taken ++ blocks) (length taken) blocks k = Ok (sb', x) ∧ sparse_wf sb' ∧
    remove_rollback_reserve_capacity sb' = remove_rollback_reserve_capacity sb0 ∧
    match x with
    | inl _ => ∀ b, tracked (entries sb') b = tracked (entries sb0) b || in_blocks k (taken ++ blocks) b
    | inr e => e = MemoryAllocationFailure ∧ entries sb' = entries sb0
    end.
Proof.
  induction blocks as [|a blocks IH]; intros sb taken Hsb0 Hsb Hk Hok Hres Hfits Hfree Ht; cbn [add_blocks_loop].
  { rewrite app_nil_r in *. by eexists _, _. }
  rewrite Forall_app, Forall_cons in Hok. destruct Hok as (Hok1 & Ha & Hok2).
  destruct (add_block_spec sb a k) as (sb1 & x & -> & Hsb1 & Hres1 & Hx); [done..|lia|]. ostep. destruct x as [[]|e].
  - replace (taken ++ a :: blocks) with ((taken ++ [a]) ++ blocks) in * by (by rewrite <-app_assoc).
    replace (S (length taken)) with (length (taken ++ [a])) by (rewrite length_app; cbn; lia).
    apply IH; try done.
    + rewrite !Forall_app, Forall_singleton. by split_and!.
    + lia.
    + intros b. rewrite Hx, Ht, bool_decide_range. unfold in_blocks. rewrite existsb_app. cbn.
      rewrite orb_false_r. by rewrite orb_comm, <-orb_assoc.
  - destruct Hx as [-> He]. rewrite take_app_length.
    destruct (add_blocks_rollback_spec k taken sb1) as (sb2 & -> & Hsb2 & Hres2 & Ht2); [done..|]. ostep.
    eexists _, _. split; [done|]. split; [done|]. split; [lia|]. split; [done|]. destruct Hsb2 as (? & ? & _), Hsb0 as (? & ? & _).
    apply tracked_ext; [done..|]. intros b. rewrite Ht2, He, Ht. specialize (Hfree b). unfold in_blocks in *.
    rewrite existsb_app in Hfree. destruct (tracked (entries sb0) b), (existsb _ taken); cbn in *; auto. by rewrite Hfree.
Qed.

Lemma remove_extents_spec extents : ∀ sb,
  sparse_wf sb → Forall range_ok extents →
  remove_rollback_reserve_capacity sb + Z.of_nat (length (entries sb)) < 2 ^ usize_bits →
  ∃ sb', remove_extents sb extents = Ok sb' ∧ sparse_wf sb' ∧ capacity sb' = capacity sb ∧
    Z.of_nat (length (entries sb')) + remove_rollback_reserve_capacity sb' =
      Z.of_nat (length (entries sb)) + remove_rollback_reserve_capacity sb ∧
    ∀ b, tracked (entries sb') b = tracked (entries sb) b && negb (in_extents extents b).
Proof.
  induction extents as [|r extents IH]; intros sb Hsb Hok Hres; cbn [remove_extents].
  { exists sb. split_and!; [done..|]. intros b. by rewrite andb_true_r. }
  inversion Hok as [|? ? Hr Hok']; subst. pose proof (remove_range_Ok sb r true Hsb Hr ltac:(done)) as Hrm.
  apply obind_Ok_inv in Hrm as ([sb1 i] & -> & Hprune). ostep. rewrite Hprune. ostep.
  pose proof (cleared_wf true sb r Hr Hsb) as Hwf.
  pose proof (length_filter (kept (last_word r + 1)) (set_word r false <$> entries sb)) as Hlen. rewrite length_fmap in Hlen.
  destruct (IH _ Hwf) as (sb' & -> & Hsb' & Hcap' & Hres' & Ht'); [done|cbn; lia|]. exists sb'.
  split_and!; [done|done|done|rewrite Hres'; cbn; lia|]. intros b. rewrite Ht', tracked_cleared by done.
  unfold in_extents. cbn [existsb]. by rewrite negb_orb, andb_assoc.
Qed.

(** *** Subtraction *)

Section Subtract.
Variable os : list SparseAllocBitmapEntry.
Hypothesis Hos : entries_wf os.

Definition sub_word (e : SparseAllocBitmapEntry) : SparseAllocBitmapEntry :=
  mk_entry (bitmap_word_index e) (Z.land (bitmap_word e) (unot 64 (word_at os (bitmap_word_index e)))).
Definition sub_entries (l : list SparseAllocBitmapEntry) : list SparseAllocBitmapEntry :=
  filter (λ e, bitmap_word e ≠ 0) (sub_word <$> l).

(** The entries are the finished ones [dn], those to remove [zs] and those
    to look at [rest]; [ob] are the entries of the other bitmap from [j] on. *)
Definition sub_state (es : list SparseAllocBitmapEntry) (i j : nat) (rb : option nat) (dn zs rest oa ob : list SparseAllocBitmapEntry) : Prop :=
  es = dn ++ zs ++ rest ∧ i = length (dn ++ zs) ∧ rb = match zs with [] => None | _ => Some (length dn) end ∧
  os = oa ++ ob ∧ j = length oa ∧ (∀ o e, o ∈ oa → e ∈ rest → before o e) ∧ entries_wf rest ∧ all_used rest.

Lemma sub_word_id e : entry_ok e → word_at os (bitmap_word_index e) = 0 → sub_word e = e.
Proof.
  intros [? He] Hz. destruct e as [w x]. unfold sub_word. cbn in *. rewrite Hz. f_equal.
  apply word_ext; [|done|]; [by apply land_in_u|]. intros i Hi. rewrite Z.land_spec, unot_testbit, Z.bits_0 by done.
  by rewrite andb_true_r.
Qed.

Lemma sub_entries_id l :
  Forall entry_ok l → all_used l → (∀ e, e ∈ l → word_at os (bitmap_word_index e) = 0) → sub_entries l = l.
Proof.
  intros Hok Hu Hz. unfold sub_entries, all_used in *. rewrite Forall_forall in *.
  assert (sub_word <$> l = l) as ->; [|by apply filter_every].
  rewrite <-(list_fmap_id l) at 2. apply list_fmap_ext. intros i e He%list_elem_of_lookup_2. by apply sub_word_id; auto.
Qed.

Lemma sub_entries_app l1 l2 : sub_entries (l1 ++ l2) = sub_entries l1 ++ sub_entries l2.
Proof. unfold sub_entries. by rewrite fmap_app, filter_app. Qed.

(** Entries between two neighbours of the other bitmap are kept. *)
Lemma word_at_between oa ob w :
  os = oa ++ ob → (∀ o, o ∈ oa → bitmap_word_index o < w) → (∀ o, o ∈ ob → w < bitmap_word_index o) → word_at os w = 0.
Proof.
  intros -> Ha Hb. apply word_at_absent. intros o [Ho|Ho]%elem_of_app; [specialize (Ha o Ho)|specialize (Hb o Ho)]; lia.
Qed.

Lemma flush_removed_Ok dn zs rest :
  flush_removed (dn ++ zs ++ rest) (match zs with [] => None | _ => Some (length dn) end) (length (dn ++ zs)) =
  Ok (dn ++ rest, length dn).
Proof.
  unfold flush_removed. destruct zs as [|z zs]; [by rewrite app_nil_r|].
  rewrite vec_drain_middle; [done|done|]. by rewrite length_app.
Qed.

Lemma skip_this_spec fuel w : ∀ dn rest,
  rest ≠ [] → StronglySorted before rest → (length rest ≤ fuel)%nat →
  ∃ sk rest', rest = sk ++ rest' ∧ (∀ e, e ∈ sk → bitmap_word_index e < w) ∧
    (∀ e, e ∈ rest' → w ≤ bitmap_word_index e) ∧
    skip_this fuel (dn ++ rest) (length dn) w = Ok (match rest' with [] => None | _ => Some (length (dn ++ sk)) end).
Proof.
  induction fuel as [|fuel IH]; intros dn [|e rest] Hne Hs Hf; try done; [cbn in Hf; lia|].
  cbn [skip_this]. rewrite idx_middle. ostep. inversion Hs as [|? ? Hs' Hlt]; subst. rewrite Forall_forall in Hlt.
  unfold before in Hlt. zcase.
  2: { exists [], (e :: rest). split_and!; [done|intros ? []%not_elem_of_nil| |by rewrite app_nil_r].
    intros e' [->|He']%elem_of_cons; [done|]. specialize (Hlt e' He'). lia. }
  destruct rest as [|e2 rest].
  { exists [e], []. split_and!; [done|by intros e' ->%list_elem_of_singleton|intros ? []%not_elem_of_nil|].
    rewrite length_app. cbn. by zdec. }
  rewrite length_app. cbn [length]. zdec.
  destruct (IH (dn ++ [e]) (e2 :: rest)) as (sk & rest' & Hr & Hsk & Hr' & Hskip); [done|done|cbn in *; lia|].
  exists (e :: sk), rest'. split_and!; [by rewrite Hr| |done|].
  - intros e' [->|?]%elem_of_cons; [done|]. by apply Hsk.
  - rewrite <-!app_assoc in Hskip. cbn [app] in Hskip. rewrite length_app in Hskip. cbn [length] in Hskip.
    rewrite Hskip. done.
Qed.

Lemma skip_other_this fuel w l j : skip_other fuel w l j = skip_this fuel l j w.
Proof.
  revert j. induction fuel as [|fuel IH]; intros j; cbn; [done|]. destruct (idx l j); cbn; [|done..].
  destruct (_ <? _); [|done]. destruct (_ =? _)%nat; [done|]. apply IH.
Qed.

Lemma sub_entries_cons e l :
  sub_entries (e :: l) = if bitmap_word (sub_word e) =? 0 then sub_entries l else sub_word e :: sub_entries l.
Proof.
  unfold sub_entries. rewrite fmap_cons. zcase; [rewrite filter_cons_False by lia|rewrite filter_cons_True by done]; done.
Qed.

(** One common word: the entry goes to the finished or to the removed ones. *)
Lemma subtract_step dn zs e rest o :
  o ∈ os → bitmap_word_index e = bitmap_word_index o →
  ∃ dn' zs' : list SparseAllocBitmapEntry,
    (let word := Z.land (bitmap_word e) (unot 64 (bitmap_word o)) in
     let! es := set_idx (dn ++ zs ++ e :: rest) (length (dn ++ zs)) (mk_entry (bitmap_word_index e) word) in
     (if word =? 0 then Ok (es, length (dn ++ zs), Some (default (length (dn ++ zs)) (match zs with [] => None | _ => Some (length dn) end)))
      else let! '(es, i) := flush_removed es (match zs with [] => None | _ => Some (length dn) end) (length (dn ++ zs)) in
           Ok (es, i, None))) =
    Ok (E:=NvFsError) (dn' ++ zs' ++ rest, (length (dn' ++ zs') - 1)%nat, match zs' with [] => None | _ => Some (length dn') end) ∧
    (0 < length (dn' ++ zs'))%nat ∧ dn' ++ sub_entries rest = dn ++ sub_entries (e :: rest).
Proof.
  intros Ho Heq. assert (mk_entry (bitmap_word_index e) (Z.land (bitmap_word e) (unot 64 (bitmap_word o))) = sub_word e) as Hsub.
  { unfold sub_word. rewrite Heq. rewrite word_at_elem by (done || apply Hos). done. }
  cbn zeta. rewrite Hsub. replace (Z.land (bitmap_word e) _) with (bitmap_word (sub_word e)) by (by rewrite <-Hsub).
  rewrite sub_entries_cons, app_assoc. ostep. rewrite <-app_assoc. zcase.
  - exists dn, (zs ++ [sub_word e]). split_and!; [|rewrite !length_app; cbn; lia|done].
    rewrite <-!app_assoc. cbn [app]. replace (length (dn ++ zs ++ [sub_word e]) - 1)%nat with (length (dn ++ zs))
      by (rewrite !length_app; cbn; lia).
    do 2 f_equal. destruct zs; cbn; [by rewrite app_nil_r|done].
  - exists (dn ++ [sub_word e]), []. rewrite flush_removed_Ok. ostep. rewrite app_nil_r.
    split_and!; [|rewrite length_app; cbn; lia|by rewrite <-app_assoc].
    rewrite <-!app_assoc. cbn [app]. replace (length (dn ++ [sub_word e]) - 1)%nat with (length dn) by (rewrite length_app; cbn; lia).
    done.
Qed.

Lemma subtract_common_spec fuel : ∀ dn zs e rest oa o ob,
  sub_state (dn ++ zs ++ e :: rest) (length (dn ++ zs)) (length oa) (match zs with [] => None | _ => Some (length dn) end)
    dn zs (e :: rest) oa (o :: ob) → (length (o :: ob) ≤ fuel)%nat →
  ∃ es' i' j' rb' ended dn' zs' rest' oa' ob',
    subtract_common fuel (dn ++ zs ++ e :: rest) os (length (dn ++ zs)) (length oa)
      (match zs with [] => None | _ => Some (length dn) end) = Ok (es', i', j', rb', ended) ∧
    sub_state es' i' j' rb' dn' zs' rest' oa' ob' ∧ dn' ++ sub_entries rest' = dn ++ sub_entries (e :: rest) ∧
    if ended then sub_entries rest' = rest'
    else rest' ≠ [] ∧ ob' ≠ [] ∧ (length rest' + length ob' ≤ length (e :: rest) + length (o :: ob))%nat ∧
      (bitmap_word_index e = bitmap_word_index o → length rest' + length ob' < length (e :: rest) + length (o :: ob))%nat.
Proof.
  induction fuel as [|fuel IH]; intros dn zs e rest oa o ob Hst Hf; [cbn in Hf; lia|].
  pose proof Hst as (_ & _ & _ & Hob & _ & Hlt & Hwf & Hused). cbn [subtract_common].
  rewrite (app_assoc dn zs), idx_middle, <-app_assoc. ostep. rewrite Hob, idx_middle, <-Hob. ostep.
  destruct (Z.eqb_spec (bitmap_word_index e) (bitmap_word_index o)) as [Heq|Hne].
  2: { do 10 eexists. split; [done|]. split; [exact Hst|]. split; [done|]. cbn. split_and!; try done; lia. }
  assert (o ∈ os) as Ho by (rewrite Hob; apply elem_of_app; right; left).
  destruct (subtract_step dn zs e rest o Ho Heq) as (dn' & zs' & Hstep & Hpos & Hsub). cbn zeta in Hstep.
  rewrite <-(obind_assoc (set_idx _ _ _)). rewrite Hstep. ostep.
  replace (length (dn' ++ zs') - 1 + 1)%nat with (length (dn' ++ zs')) by lia.
  apply entries_wf_cons in Hwf as (He & Hwf & Hlt'). inversion Hused as [|? ? _ Hused']; subst.
  rewrite (app_assoc dn' zs' rest), (length_app _ rest), <-app_assoc.
  destruct rest as [|e2 rest]; cbn [length].
  { zdec. do 10 eexists. split; [done|]. split; [|split; [exact Hsub|done]].
    split_and!; [done..|exact Hob|done| |done|done]. intros ? ? _ []%not_elem_of_nil. }
  zdec. assert (sub_state (dn' ++ zs' ++ e2 :: rest) (length (dn' ++ zs')) (length (oa ++ [o]))
    (match zs' with [] => None | _ => Some (length dn') end) dn' zs' (e2 :: rest) (oa ++ [o]) ob) as Hst'.
  { split_and!; [done..|by rewrite <-app_assoc|done| |done|done].
    intros o' e' [?| ->%list_elem_of_singleton]%elem_of_app He'; [apply Hlt; [done|by right]|].
    unfold before. rewrite <-Heq. by apply Hlt'. }
  replace (length oa + 1)%nat with (length (oa ++ [o])) by (rewrite length_app; cbn; lia).
  replace (length os) with (length (oa ++ [o]) + length ob)%nat by (rewrite Hob, !length_app; cbn; lia).
  destruct ob as [|o2 ob]; cbn [length].
  - zdec. do 10 eexists. split; [done|]. split; [exact Hst'|]. split; [exact Hsub|].
    apply sub_entries_id; [apply Hwf|done|]. intros e' He'. destruct Hst' as (_ & _ & _ & Hob' & _ & Hbefore & _).
    eapply word_at_between; [exact Hob'| |intros ? []%not_elem_of_nil]. intros o' Ho'. by apply Hbefore.
  - zdec. destruct (IH dn' zs' e2 rest (oa ++ [o]) o2 ob Hst') as (es' & i' & j' & rb' & ended & dn2 & zs2 & rest2 & oa2 & ob2 & Hrun & Hst2 & Hsub2 & Hend);
      [cbn in *; lia|].
    do 10 eexists. split; [exact Hrun|]. split; [exact Hst2|]. split; [by rewrite Hsub2|].
    destruct ended; [done|]. destruct Hend as (? & ? & ? & _). cbn in *. split_and!; try done; lia.
Qed.

Abbreviation rb_of dn zs := (match zs with [] => None | _ => Some (length dn) end).

(** What the loop computes from any of its states. *)
Definition loop_ok (fuel : nat) : Prop := ∀ dn zs e rest oa o ob,
  sub_state (dn ++ zs ++ e :: rest) (length (dn ++ zs)) (length oa) (rb_of dn zs) dn zs (e :: rest) oa (o :: ob) →
  (length (e :: rest) + length (o :: ob) ≤ fuel)%nat →
  subtract_loop fuel (dn ++ zs ++ e :: rest) os (length (dn ++ zs)) (length oa) (rb_of dn zs) =
  Ok (dn ++ sub_entries (e :: rest)).

(** The second half of a round. *)
Lemma subtract_round fuel dn zs e rest oa o ob :
  loop_ok fuel →
  sub_state (dn ++ zs ++ e :: rest) (length (dn ++ zs)) (length oa) (rb_of dn zs) dn zs (e :: rest) oa (o :: ob) →
  bitmap_word_index o ≤ bitmap_word_index e → (length (e :: rest) + length (o :: ob) ≤ S fuel)%nat →
  (let! j := skip_other (length os) (bitmap_word_index e) os (length oa) in
   match j with
   | None => let! '(es, _) := flush_removed (dn ++ zs ++ e :: rest) (rb_of dn zs) (length (dn ++ zs)) in Ok es
   | Some j =>
       let! '(es, i, j, remove_begin, ended) :=
         subtract_common (length os) (dn ++ zs ++ e :: rest) os (length (dn ++ zs)) j (rb_of dn zs) in
       if ended then let! '(es, _) := flush_removed es remove_begin i in Ok es
       else subtract_loop fuel es os i j remove_begin
   end) = Ok (dn ++ sub_entries (e :: rest)).
Proof.
  intros IH Hst Hoe Hf. pose proof Hst as (_ & _ & _ & Hob & _ & Hlt & Hwf & Hused). rewrite skip_other_this, Hob.
  assert (entries_wf (oa ++ o :: ob)) as (_ & [_ Hso] & _)%entries_wf_app by (by rewrite <-Hob).
  destruct (skip_this_spec (length (oa ++ o :: ob)) (bitmap_word_index e) oa (o :: ob)) as (sk & ob' & Hsk & Hlt1 & Hge1 & ->);
    [done|done|rewrite length_app; lia|]. ostep. rewrite <-Hob.
  assert (∀ o', o' ∈ oa ++ sk → bitmap_word_index o' < bitmap_word_index e) as Hbefore.
  { intros o' [Ho'|Ho']%elem_of_app; [|by apply Hlt1]. apply Hlt; [done|left]. }
  destruct ob' as [|o' ob'].
  { rewrite flush_removed_Ok. ostep. do 2 f_equal. symmetry. apply sub_entries_id; [apply Hwf|done|].
    rewrite app_nil_r in Hsk. intros e' He'. apply word_at_between with os []; [by rewrite app_nil_r| |intros ? []%not_elem_of_nil].
    intros o' Ho'. rewrite Hob, Hsk in Ho'. specialize (Hbefore o' Ho'). apply entries_wf_cons in Hwf as (_ & _ & Hwf).
    apply elem_of_cons in He' as [->|He']; [done|]. specialize (Hwf e' He'). unfold before in Hwf. lia. }
  assert (sub_state (dn ++ zs ++ e :: rest) (length (dn ++ zs)) (length (oa ++ sk)) (rb_of dn zs) dn zs (e :: rest) (oa ++ sk) (o' :: ob')) as Hst'.
  { split_and!; [done..|by rewrite <-app_assoc, <-Hsk|done| |done|done]. intros o1 e1 Ho1 He1. specialize (Hbefore o1 Ho1).
    apply entries_wf_cons in Hwf as (_ & _ & Hwf). apply elem_of_cons in He1 as [->|He1]; [done|].
    specialize (Hwf e1 He1). unfold before in *. lia. }
  assert (length (o :: ob) = length sk + length (o' :: ob'))%nat as Hlen by (by rewrite Hsk, length_app).
  destruct (subtract_common_spec (length os) dn zs e rest (oa ++ sk) o' ob' Hst') as (es & i & j & rb & ended & dn' & zs' & rest' & oa' & ob2 & -> & Hst2 & Hsub & Hend).
  { rewrite Hob, length_app, Hlen. lia. }
  ostep. rewrite <-Hsub. pose proof Hst2 as (-> & -> & -> & _ & -> & _). destruct ended.
  - rewrite flush_removed_Ok. ostep. by rewrite Hend.
  - destruct Hend as (Hr & Ho & Hle & Hlt2). destruct rest' as [|e2 rest']; [done|]. destruct ob2 as [|o2 ob2]; [done|].
    apply (IH dn' zs' e2 rest' oa' o2 ob2 Hst2). destruct sk as [|o1 sk]; [|cbn in *; lia]. injection Hsk as <- <-.
    specialize (Hge1 o ltac:(left)). specialize (Hlt2 ltac:(lia)). cbn in *. lia.
Qed.

Lemma subtract_loop_spec fuel : loop_ok fuel.
Proof.
  induction fuel as [|fuel IH]; intros dn zs e rest oa o ob Hst Hf; [cbn in Hf; lia|].
  pose proof Hst as (_ & _ & _ & Hob & _ & Hlt & Hwf & Hused). cbn [subtract_loop].
  assert ((length (dn ++ zs) <? length (dn ++ zs ++ e :: rest))%nat = true) as Hi by (apply Nat.ltb_lt; rewrite !length_app; cbn; lia).
  assert ((length oa <? length os)%nat = true) as -> by (apply Nat.ltb_lt; rewrite Hob, length_app; cbn; lia).
  assert (idx (E:=NvFsError) (dn ++ zs ++ e :: rest) (length (dn ++ zs)) = Ok e) as He by (rewrite app_assoc; apply idx_middle).
  assert (idx (E:=NvFsError) os (length oa) = Ok o) as Ho by (rewrite Hob; apply idx_middle).
  rewrite Hi, He, Ho. ostep. destruct (Z.ltb_spec (bitmap_word_index e) (bitmap_word_index o)) as [Heo|Heo].
  - rewrite flush_removed_Ok. ostep.
    destruct (skip_this_spec (length (dn ++ e :: rest)) (bitmap_word_index o) dn (e :: rest)) as (sk & rest' & Hr & Hsk & Hge & ->);
      [done|apply Hwf|rewrite length_app; lia|]. ostep. rewrite Hr in *.
    apply entries_wf_app in Hwf as (Hwf1 & Hwf2 & Hbefore). unfold all_used in Hused. apply Forall_app in Hused as [Hu1 Hu2].
    assert (sub_entries sk = sk) as Hsub.
    { apply sub_entries_id; [apply Hwf1|done|]. intros e' He'. eapply word_at_between; [exact Hob|..].
      - intros o' Ho'. apply Hlt; [done|]. apply elem_of_app. by left.
      - intros o' Ho'. specialize (Hsk e' He'). assert (entries_wf (oa ++ o :: ob)) as (_ & Hwfo & _)%entries_wf_app by (by rewrite <-Hob).
        apply entries_wf_cons in Hwfo as (_ & _ & Hwfo). apply elem_of_cons in Ho' as [->|Ho']; [done|].
        specialize (Hwfo o' Ho'). unfold before in Hwfo. lia. }
    rewrite sub_entries_app, Hsub. destruct rest' as [|e' rest']; [done|].
    rewrite (app_assoc dn sk), idx_middle. ostep. specialize (Hge e' ltac:(left)).
    assert ((length (dn ++ sk) <? length ((dn ++ sk) ++ e' :: rest'))%nat = true) as -> by (apply Nat.ltb_lt; rewrite !length_app; cbn; lia).
    zdec. ostep. rewrite (app_assoc dn sk). pose proof (subtract_round fuel (dn ++ sk) [] e' rest' oa o ob IH) as Hround.
    rewrite app_nil_r in Hround. apply Hround; [|done|].
    + split_and!; [done|by rewrite app_nil_r|done|done|done| |done|done]. intros o1 e1 ? ?. apply Hlt; [done|]. apply elem_of_app. by right.
    + rewrite length_app in Hf. cbn in *. lia.
  - ostep. rewrite He. ostep. rewrite Hi. zdec. ostep. by apply (subtract_round fuel dn zs e rest oa o ob).
Qed.

End Subtract.

Lemma subtract_Ok sb other :
  sparse_wf sb → entries_wf (entries other) →
  subtract sb other = Ok (mk_sparse (sub_entries (entries other) (entries sb)) (capacity sb) 0).
Proof.
  intros ([Hok Hs] & Hu & _ & _) Ho. unfold subtract, is_empty, reset_remove_rollback.
  destruct sb as [es cap reserve], other as [os ocap oreserve]. cbn [entries capacity] in *.
  destruct es as [|e es]; [done|]. destruct os as [|o os]; cbn [orb].
  { rewrite sub_entries_id; done. }
  rewrite (subtract_loop_spec (o :: os) Ho _ [] [] e es [] o os); [done| |cbn; lia].
  split_and!; [done..| |done|done]. intros ? ? []%not_elem_of_nil.
Qed.

Lemma sub_entries_word_at os l w :
  entries_wf l → word_at (sub_entries os l) w = Z.land (word_at l w) (unot 64 (word_at os w)).
Proof.
  intros [Hok Hs]. unfold sub_entries.
  assert (StronglySorted before (sub_word os <$> l)) as Hs' by (eapply StronglySorted_fmap; [|exact Hs]; done).
  pose proof (presentP l w) as Hp. destruct (present l w).
  - destruct Hp as (e & He & <-). rewrite (word_at_elem l e) by done.
    change (Z.land (bitmap_word e) _) with (bitmap_word (sub_word os e)).
    destruct (decide (bitmap_word (sub_word os e) = 0)) as [Hz|Hnz].
    + rewrite Hz. apply word_at_absent. intros e' [Hnz (e0 & -> & He0)%list_elem_of_fmap]%list_elem_of_filter Heq.
      cbn in Heq. apply Hnz. assert (bitmap_word e0 = bitmap_word e) as Hw
        by (rewrite <-(word_at_elem l e0), <-(word_at_elem l e) by done; congruence).
      rewrite <-Hz. unfold sub_word. cbn. by rewrite Heq, Hw.
    + change (bitmap_word_index e) with (bitmap_word_index (sub_word os e)). apply word_at_elem; [by apply StronglySorted_filter|].
      apply list_elem_of_filter. split; [done|]. by apply list_elem_of_fmap_2.
  - rewrite (word_at_absent l) by done. rewrite Z.land_0_l. apply word_at_absent.
    intros e' [_ (e0 & -> & He0)%list_elem_of_fmap]%list_elem_of_filter. cbn. by apply Hp.
Qed.

Lemma sub_entries_wf os l : Forall entry_ok os → entries_wf l → entries_wf (sub_entries os l) ∧ all_used (sub_entries os l).
Proof.
  intros Hos Hl. split.
  - apply entries_wf_filter, entries_wf_fmap; [done| |done]. intros e [? He]. split; [done|]. cbn.
    apply land_in_u; [done..|]. apply unot_in_u; [done|]. by apply word_at_in_u.
  - unfold all_used. rewrite Forall_forall. by intros e [? _]%list_elem_of_filter.
Qed.

(** ** Properties *)

Lemma subtract_spec sb other :
  sparse_wf sb → entries_wf (entries other) →
  ∃ sb', subtract sb other = Ok sb' ∧ sparse_wf sb' ∧
    ∀ b, tracked (entries sb') b = tracked (entries sb) b && negb (tracked (entries other) b).
Proof.
  intros Hsb Ho. pose proof Hsb as (Hwf & Hu & Hcap & Hres). rewrite subtract_Ok by done. eexists. split; [done|].
  destruct (sub_entries_wf (entries other) (entries sb)) as [Hwf' Hu']; [apply Ho|done|].
  split.
  - split_and!; [done|done| |done]. unfold cap_ok, sub_entries in *. cbn.
    pose proof (length_filter (λ e, bitmap_word e ≠ 0) (sub_word (entries other) <$> entries sb)) as Hlen.
    rewrite length_fmap in Hlen. lia.
  - intros b. unfold tracked. cbn. rewrite sub_entries_word_at by done. destruct (block_split b) as [_ ?].
    by rewrite Z.land_spec, unot_testbit.
Qed.

(** C30: adding an extent to a well-formed sparse bitmap adds exactly its blocks
    to the set and keeps the invariant; if memory runs out, the entries are what
    they were.  This is for extents without a missing word that is followed by
    an entry before the extent's last word. *)
Theorem add_extent_correct sb r :
  sparse_wf sb → range_ok r → reserve_fits sb r → no_inner_gap (entries sb) (first_word r) (word_count r) →
  ∃ sb' x, add_extent sb r = Ok (sb', x) ∧ sparse_wf sb' ∧
    remove_rollback_reserve_capacity sb' = remove_rollback_reserve_capacity sb ∧
    match x with
    | inl _ => ∀ b, tracked (entries sb') b = bool_decide (b ∈ r) || tracked (entries sb) b
    | inr e => e = MemoryAllocationFailure ∧ entries sb' = entries sb
    end.
Proof. apply add_extent_spec. Qed.

(** Adding blocks that are not in the set is all or nothing: either every
    block is added or, if memory runs out on the way, the blocks added before are
    taken out again and the entries are what they were. *)
Lemma add_blocks_correct sb blocks k :
  sparse_wf sb → 0 ≤ k ≤ 6 → Forall (block_ok k) blocks → remove_rollback_reserve_capacity sb + 1 < 2 ^ usize_bits →
  (∀ b, in_blocks k blocks b = true → tracked (entries sb) b = false) →
  ∃ sb' x, add_blocks sb blocks k = Ok (sb', x) ∧ sparse_wf sb' ∧
    remove_rollback_reserve_capacity sb' = remove_rollback_reserve_capacity sb ∧
    match x with
    | inl _ => ∀ b, tracked (entries sb') b = tracked (entries sb) b || in_blocks k blocks b
    | inr e => e = MemoryAllocationFailure ∧ entries sb' = entries sb
    end.
Proof.
  intros Hsb Hk Hok Hres Hfree. apply (add_blocks_loop_spec sb k blocks sb []); try done.
  intros b. by rewrite orb_false_r.
Qed.

(** Removing extents takes exactly their blocks out of the set and keeps the
    invariant; every entry that is dropped is accounted for in the reserve, and
    the capacity stays. *)
Lemma remove_extents_correct sb extents :
  sparse_wf sb → Forall range_ok extents →
  remove_rollback_reserve_capacity sb + Z.of_nat (length (entries sb)) < 2 ^ usize_bits →
  ∃ sb', remove_extents sb extents = Ok sb' ∧ sparse_wf sb' ∧ capacity sb' = capacity sb ∧
    Z.of_nat (length (entries sb')) + remove_rollback_reserve_capacity sb' =
      Z.of_nat (length (entries sb)) + remove_rollback_reserve_capacity sb ∧
    ∀ b, tracked (entries sb') b = tracked (entries sb) b && negb (in_extents extents b).
Proof. apply remove_extents_spec. Qed.

(** C31: subtracting a bitmap is the difference of the sets, whatever the
    interleaving of the two lists of entries, and keeps the invariant. *)
Theorem subtract_correct sb other :
  sparse_wf sb → entries_wf (entries other) →
  ∃ sb', subtract sb other = Ok sb' ∧ sparse_wf sb' ∧
    ∀ b, tracked (entries sb') b = tracked (entries sb) b && negb (tracked (entries other) b).
Proof. apply subtract_spec. Qed.

End Loops.

(** *** Instances *)

Definition ample : Allocator := λ _ _, true.
Definition exhausted : Allocator := λ _ _, false.
Definition bits64 : ImageLayout.Platform := 64.
Definition example_sb : SparseAllocBitmap := mk_sparse [mk_entry 4 255; mk_entry 6 1] 4 1.

Lemma example_sb_wf : sparse_wf example_sb.
Proof.
  split; [split|split; [|split]].
  - repeat constructor; cbn; lia.
  - repeat constructor; unfold before; cbn; lia.
  - repeat constructor; done.
  - unfold cap_ok. cbn. lia.
  - cbn. lia.
Qed.

(** Where an extent starts with a missing word, goes on with an entry and then
    needs a further word, that word is not populated.  In a release build adding
    the extent succeeds and a block of it is not in the set; in a debug build
    it panics. *)
Lemma add_extent_inner_gap :
  ∃ sb r b, sparse_wf sb ∧ range_ok r ∧ b ∈ r ∧
    (∃ sb', add_extent (B:=release_build) (Alloc:=ample) (P:=bits64) sb r = Ok (sb', inl tt) ∧ tracked (entries sb') b = false) ∧
    add_extent (B:=debug_build) (Alloc:=ample) (P:=bits64) sb r = Panic.
Proof.
  exists example_sb, (mk_range (64 * 3) (64 * 6)), (64 * 5). split; [apply example_sb_wf|].
  split; [unfold range_ok; cbn; lia|]. split; [rewrite elem_of_range; cbn; lia|]. split.
  - eexists. split; [by vm_compute|by vm_compute].
  - by vm_compute.
Qed.

Lemma add_extent_correct_witness :
  ∃ sb' x, add_extent (B:=debug_build) (Alloc:=ample) (P:=bits64) example_sb (mk_range 300 330) = Ok (sb', x) ∧ sparse_wf sb' ∧
    remove_rollback_reserve_capacity sb' = remove_rollback_reserve_capacity example_sb ∧
    match x with
    | inl _ => ∀ b, tracked (entries sb') b = bool_decide (b ∈ mk_range 300 330) || tracked (entries example_sb) b
    | inr e => e = MemoryAllocationFailure ∧ entries sb' = entries example_sb
    end.
Proof.
  apply (@add_extent_correct debug_build ample bits64 example_sb (mk_range 300 330)).
  - apply example_sb_wf.
  - unfold range_ok. cbn. lia.
  - by vm_compute.
  - intros e [->|[->|[]%not_elem_of_nil]%elem_of_cons]%elem_of_cons Hlt i Hi.
    + assert (i = 4) as -> by (vm_compute first_word in Hi; cbn in Hi; lia). done.
    + vm_compute in Hlt. done.
Defined.

Lemma add_blocks_correct_witness :
  ∃ sb' x, add_blocks (B:=debug_build) (Alloc:=exhausted) (P:=bits64) example_sb [264; 512; 576] 3 = Ok (sb', x) ∧ sparse_wf sb' ∧
    remove_rollback_reserve_capacity sb' = remove_rollback_reserve_capacity example_sb ∧
    match x with
    | inl _ => ∀ b, tracked (entries sb') b = tracked (entries example_sb) b || in_blocks 3 [264; 512; 576] b
    | inr e => e = MemoryAllocationFailure ∧ entries sb' = entries example_sb
    end.
Proof.
  apply (@add_blocks_correct debug_build exhausted bits64 example_sb [264; 512; 576] 3).
  - apply example_sb_wf.
  - lia.
  - repeat constructor; cbn; try lia; by apply Z.mod_divide.
  - by vm_compute.
  - intros b Hb. assert (256 + 8 ≤ b < 256 + 16 ∨ 512 ≤ b < 512 + 8 ∨ 576 ≤ b < 576 + 8) as Hcases.
    { unfold in_blocks in Hb. cbn in Hb. change (Z.pow_pos 2 3) with 8 in Hb. lia. }
    assert (b ∈ seqZ 264 8 ++ seqZ 512 8 ++ seqZ 576 8) as Hin by (rewrite !elem_of_app, !elem_of_seqZ; lia).
    clear Hb Hcases. revert b Hin. apply Forall_forall. repeat constructor.
Defined.

Lemma remove_extents_correct_witness :
  ∃ sb', remove_extents (B:=debug_build) (P:=bits64) example_sb [mk_range 256 264; mk_range 380 385] = Ok sb' ∧ sparse_wf sb' ∧
    capacity sb' = capacity example_sb ∧
    Z.of_nat (length (entries sb')) + remove_rollback_reserve_capacity sb' =
      Z.of_nat (length (entries example_sb)) + remove_rollback_reserve_capacity example_sb ∧
    ∀ b, tracked (entries sb') b = tracked (entries example_sb) b && negb (in_extents [mk_range 256 264; mk_range 380 385] b).
Proof.
  apply (@remove_extents_correct debug_build bits64 example_sb [mk_range 256 264; mk_range 380 385]).
  - apply example_sb_wf.
  - repeat constructor; cbn; lia.
  - by vm_compute.
Defined.

Lemma subtract_correct_witness :
  ∃ sb', subtract (B:=debug_build) example_sb (mk_sparse [mk_entry 1 3; mk_entry 4 15; mk_entry 6 1; mk_entry 9 2] 4 0) = Ok sb' ∧
    sparse_wf sb' ∧
    ∀ b, tracked (entries sb') b = tracked (entries example_sb) b &&
      negb (tracked [mk_entry 1 3; mk_entry 4 15; mk_entry 6 1; mk_entry 9 2] b).
Proof.
  apply (@subtract_correct debug_build example_sb (mk_sparse [mk_entry 1 3; mk_entry 4 15; mk_entry 6 1; mk_entry 9 2] 4 0)).
  - apply example_sb_wf.
  - split; [repeat constructor; cbn; lia|]. repeat constructor; unfold before; cbn; lia.
Defined.

End SparseBitmap.
