(* ===== verification/BitmapSearch.v ===== *)
(** * Searching a word of the allocation bitmap (storage/src/fs/cocoonfs/alloc_bitmap/bitmap.rs)

    The functions that examine all the aligned blocks of a [BitmapWord] at once,
    with word-wide arithmetic: which blocks are free, which of them have a free
    buddy, which block an allocation should take, runs of free blocks, and
    comparison and subtraction of packed integers. *)

From S2P Require Import Prelude BitManip BitmapWord.
Import BitManip BitmapWord.

Module BitmapSearch.

Section Ops.
Context {B : Build} {E : Type}.
Implicit Types bitmap_word : Z.

Abbreviation ok := (outcome E Z).

(** [trailing_zeros] of a word. *)
Fixpoint trailing_zeros_from (n : nat) (x i : Z) : Z :=
  match n with
  | O => i
  | S n => if Z.testbit x i then i else trailing_zeros_from n x (i + 1)
  end.
Definition trailing_zeros (x : Z) : Z := trailing_zeros_from 64 x 0.

Definition bitmap_word_nonzero_blocks_lsbs bitmap_word (block_allocation_blocks_log2 bitmap_word_blocks_lsbs_mask : Z) : ok :=
  let! block_allocation_blocks := ushl 32 1 block_allocation_blocks_log2 in
  let! a := ushr 64 (Z.land bitmap_word (unot 64 bitmap_word_blocks_lsbs_mask)) 1 in
  let! b := ushr 64 (unot 64 bitmap_word_blocks_lsbs_mask) 1 in
  let! s := uadd 64 a b in
  let! n := usub 32 block_allocation_blocks 1 in
  let! t := ushr 64 s n in
  Ok (Z.land (Z.lor t bitmap_word) bitmap_word_blocks_lsbs_mask).

Definition bitmap_word_free_blocks_lsbs bitmap_word (block_allocation_blocks_log2 bitmap_word_blocks_lsbs_mask : Z) : ok :=
  let! nonzero := bitmap_word_nonzero_blocks_lsbs bitmap_word block_allocation_blocks_log2 bitmap_word_blocks_lsbs_mask in
  Ok (Z.lxor nonzero bitmap_word_blocks_lsbs_mask).

Definition bitmap_word_filter_blocks_with_free_buddy_lsbs (bitmap_word_candidate_blocks_lsbs free : Z)
    (block_allocation_blocks_log2 bitmap_word_double_blocks_lsbs_masks : Z) : ok :=
  let! block_allocation_blocks := ushl 32 1 block_allocation_blocks_log2 in
  let! _ := debug_assert (block_allocation_blocks <? BITMAP_WORD_BITS) in
  let! t := ushr 64 free block_allocation_blocks in
  let t1 := Z.land (Z.lxor free t) bitmap_word_double_blocks_lsbs_masks in
  let! t2 := ushl 64 t1 block_allocation_blocks in
  let swapped := Z.lxor (Z.lxor free t1) t2 in
  Ok (Z.land bitmap_word_candidate_blocks_lsbs (unot 64 swapped)).

(** The loop over the sizes of containing blocks, at most five of them. *)
Fixpoint split_block_loop (fuel : nat) (max split : Z) (free : Z) (table : mask_table) : ok :=
  if split <? max then
    match fuel with
    | O => Diverge
    | S fuel =>
        let! double := uadd 32 split 1 in
        let! word_double_split_blocks_lsbs_mask := get_blocks_lsbs_mask table double in
        let! alone := bitmap_word_filter_blocks_with_free_buddy_lsbs free free split word_double_split_blocks_lsbs_mask in
        if negb (alone =? 0) then Ok split
        else
          let! split_block_allocation_blocks := ushl 32 1 split in
          let! t := ushr 64 free split_block_allocation_blocks in
          let free := Z.land (Z.land free t) word_double_split_blocks_lsbs_mask in
          let! _ := debug_assert (negb (free =? 0)) in
          let! split := uadd 32 split 1 in
          split_block_loop fuel max split free table
    end
  else Ok split.

Definition bitmap_word_block_alloc_split_block_size_log2 (free : Z) (max_split_block_allocation_blocks_log2 : option Z)
    (block_allocation_blocks_log2 bitmap_word_blocks_lsbs_mask : Z) (table : mask_table) : ok :=
  let! _ := debug_assert (negb (block_allocation_blocks_log2 =? BITMAP_WORD_BITS_LOG2)) in
  let! _ := debug_check
    (let! m := get_blocks_lsbs_mask table block_allocation_blocks_log2 in Ok (bitmap_word_blocks_lsbs_mask =? m)) in
  let! _ := debug_assert (Z.land free (unot 64 bitmap_word_blocks_lsbs_mask) =? 0) in
  let! _ := debug_assert (negb (free =? 0)) in
  let! _ := debug_assert (negb (free =? bitmap_word_blocks_lsbs_mask)) in
  let! max := usub 32 BITMAP_WORD_BITS_LOG2 1 in
  let max := match max_split_block_allocation_blocks_log2 with Some m => Z.min m max | None => max end in
  split_block_loop 6 max block_allocation_blocks_log2 free table.

Definition bitmap_word_block_alloc_select_block (free block_allocation_blocks_log2 bitmap_word_blocks_lsbs_mask : Z)
    (table : mask_table) : ok :=
  let! _ := debug_check
    (let! m := get_blocks_lsbs_mask table block_allocation_blocks_log2 in Ok (bitmap_word_blocks_lsbs_mask =? m)) in
  let! _ := debug_assert (Z.land free (unot 64 bitmap_word_blocks_lsbs_mask) =? 0) in
  let! _ := debug_check
    (if block_allocation_blocks_log2 =? BITMAP_WORD_BITS_LOG2 then Ok true
     else
       let! s := bitmap_word_block_alloc_split_block_size_log2 free None block_allocation_blocks_log2
         bitmap_word_blocks_lsbs_mask table in
       Ok (block_allocation_blocks_log2 =? s)) in
  let! t := usub 32 BITMAP_WORD_BITS_LOG2 1 in
  let! free :=
    (if block_allocation_blocks_log2 <? t then
       let! double := uadd 32 block_allocation_blocks_log2 1 in
       let! word_double_blocks_lsbs_mask := get_blocks_lsbs_mask table double in
       bitmap_word_filter_blocks_with_free_buddy_lsbs free free block_allocation_blocks_log2 word_double_blocks_lsbs_mask
     else Ok free) in
  let! _ := debug_assert (negb (free =? 0)) in
  Ok (trailing_zeros free).

Definition bitmap_word_blocks_select_mask (block_allocation_blocks_log2 selected_blocks_lsbs : Z) : ok :=
  let! block_allocation_blocks := ushl 32 1 block_allocation_blocks_log2 in
  let! n := usub 32 block_allocation_blocks 1 in
  let! selected_blocks_msbs := ushl 64 selected_blocks_lsbs n in
  let! d := usub 64 selected_blocks_msbs selected_blocks_lsbs in
  Ok (Z.lor d selected_blocks_msbs).

(** The loop halves the length that is still to be checked. *)
Fixpoint find_str_loop (fuel : nat) bitmap_word (n : Z) : ok :=
  if 1 <? n then
    match fuel with
    | O => Diverge
    | S fuel =>
        let! s := ushr 32 n 1 in
        let! t := ushl 64 bitmap_word s in
        let! n := usub 32 n s in
        find_str_loop fuel (Z.land bitmap_word t) n
    end
  else Ok bitmap_word.

Definition bitmap_word_find_str_with_min_len bitmap_word (min_str_len str_alignment_allocation_blocks_log2 : Z)
    (bitmap_word_str_alignment_anchors_mask : Z) : outcome E (option Z) :=
  let! _ := debug_assert (str_alignment_allocation_blocks_log2 <? BITMAP_WORD_BITS_LOG2) in
  let! _ := debug_check (is_aligned_pow2_u 32 min_str_len str_alignment_allocation_blocks_log2) in
  let! _ := debug_assert (min_str_len <? 64) in
  let! bitmap_word := find_str_loop 6 bitmap_word min_str_len in
  let! t := ushl 32 1 str_alignment_allocation_blocks_log2 in
  let! n := usub 32 t 1 in
  let! anchors := ushl 64 bitmap_word_str_alignment_anchors_mask n in
  let bitmap_word := Z.land bitmap_word anchors in
  if negb (bitmap_word =? 0) then
    let! l := usub 32 min_str_len 1 in
    let! pos := usub 32 (trailing_zeros bitmap_word) l in
    Ok (Some pos)
  else Ok None.

Definition bitmap_word_blocks_fields_geq_lsbs (x y : Z) (block_allocation_blocks_log2 bitmap_word_blocks_lsbs_mask : Z) : ok :=
  let! block_allocation_blocks := ushl 32 1 block_allocation_blocks_log2 in
  let! n := usub 32 block_allocation_blocks 1 in
  let! bitmap_word_blocks_msbs_mask := ushl 64 bitmap_word_blocks_lsbs_mask n in
  let! d := usub 64 (Z.lor x bitmap_word_blocks_msbs_mask) (Z.land y (unot 64 bitmap_word_blocks_msbs_mask)) in
  let no_borrow_msbs := Z.land (Z.lor x (Z.land (unot 64 y) d)) (Z.lor (unot 64 y) d) in
  let! t := ushr 64 no_borrow_msbs n in
  Ok (Z.land t bitmap_word_blocks_lsbs_mask).

Definition bitmap_word_blocks_fields_sub (x y : Z) (block_allocation_blocks_log2 bitmap_word_blocks_lsbs_mask : Z) : ok :=
  let! block_allocation_blocks := ushl 32 1 block_allocation_blocks_log2 in
  let! n := usub 32 block_allocation_blocks 1 in
  let! bitmap_word_blocks_msbs_mask := ushl 64 bitmap_word_blocks_lsbs_mask n in
  let! d := usub 64 (Z.lor x bitmap_word_blocks_msbs_mask) (Z.land y (unot 64 bitmap_word_blocks_msbs_mask)) in
  Ok (unot 64 (Z.lxor (Z.lor (Z.lxor x y) (unot 64 bitmap_word_blocks_msbs_mask)) d)).
End Ops.

(** ** Fields of a word

    [field n j x] is the [j]-th of the fields of [n] bits that [x] consists of. *)

Definition field (n j x : Z) : Z := (x / 2 ^ (n * j)) mod 2 ^ n.

Section Fields.
Implicit Types n j x y i : Z.

Lemma field_bound n j x : 0 ≤ n → 0 ≤ field n j x < 2 ^ n.
Proof. intros Hn. apply Z.mod_pos_bound. by apply pow2_pos. Qed.

Lemma field_testbit n j x i : 0 ≤ n → 0 ≤ j → 0 ≤ i < n → Z.testbit (field n j x) i = Z.testbit x (n * j + i).
Proof.
  intros ???. unfold field. rewrite Z.mod_pow2_bits_low, <-Z.shiftr_div_pow2, Z.shiftr_spec by nia. f_equal. lia.
Qed.

Lemma field_ext n j x v :
  0 ≤ n → 0 ≤ j → in_u n v → (∀ i, 0 ≤ i < n → Z.testbit x (n * j + i) = Z.testbit v i) → field n j x = v.
Proof.
  intros Hn Hj Hv Hbits. apply Z.bits_inj'. intros i Hi. destruct (Z.lt_ge_cases i n).
  - by rewrite field_testbit, Hbits.
  - rewrite !(testbit_high n) by (done || lia || by apply field_bound). done.
Qed.

Lemma field_zero n j x : 0 ≤ n → 0 ≤ j → field n j x = 0 ↔ ∀ i, 0 ≤ i < n → Z.testbit x (n * j + i) = false.
Proof.
  intros Hn Hj. split; intros H.
  - intros i Hi. rewrite <-field_testbit, H by done. apply Z.bits_0.
  - apply field_ext; [done..|split; [done|by apply pow2_pos]|]. intros i Hi. by rewrite H, Z.bits_0.
Qed.

(** Splitting off the fields below the [j]-th. *)
Lemma field_low n j x : 0 ≤ n → 0 ≤ j → x mod 2 ^ (n * (j + 1)) = x mod 2 ^ (n * j) + 2 ^ (n * j) * field n j x.
Proof.
  intros Hn Hj. replace (n * (j + 1)) with (n * j + n) by lia. unfold field.
  rewrite Z.pow_add_r by nia. apply Z.rem_mul_r; [pose proof (pow2_pos (n * j) ltac:(nia)); lia|by apply pow2_pos].
Qed.

Lemma low_add n (j : nat) x y :
  0 ≤ n → (∀ j', 0 ≤ j' < Z.of_nat j → field n j' x + field n j' y < 2 ^ n) →
  x mod 2 ^ (n * Z.of_nat j) + y mod 2 ^ (n * Z.of_nat j) < 2 ^ (n * Z.of_nat j).
Proof.
  intros Hn. induction j as [|j IH]; intros H.
  - rewrite Z.mul_0_r. cbn. by rewrite !Z.mod_1_r.
  - specialize (IH ltac:(intros; apply H; lia)). specialize (H (Z.of_nat j) ltac:(lia)).
    rewrite Nat2Z.inj_succ, <-Z.add_1_r, !field_low by lia. replace (n * (Z.of_nat j + 1)) with (n * Z.of_nat j + n) by lia.
    rewrite Z.pow_add_r by nia. pose proof (pow2_pos (n * Z.of_nat j) ltac:(nia)). nia.
Qed.
Lemma low_sub n (j : nat) x y :
  0 ≤ n → (∀ j', 0 ≤ j' < Z.of_nat j → field n j' y ≤ field n j' x) →
  y mod 2 ^ (n * Z.of_nat j) ≤ x mod 2 ^ (n * Z.of_nat j).
Proof.
  intros Hn. induction j as [|j IH]; intros H.
  - rewrite Z.mul_0_r. cbn. by rewrite !Z.mod_1_r.
  - specialize (IH ltac:(intros; apply H; lia)). specialize (H (Z.of_nat j) ltac:(lia)).
    rewrite Nat2Z.inj_succ, <-Z.add_1_r, !field_low by lia. pose proof (pow2_pos (n * Z.of_nat j) ltac:(nia)). nia.
Qed.

(** Word-wide addition and subtraction act on every field, if nothing is carried
    or borrowed below it. *)
Lemma field_add n j x y :
  0 ≤ n → 0 ≤ j → (∀ j', 0 ≤ j' < j → field n j' x + field n j' y < 2 ^ n) →
  field n j (x + y) = (field n j x + field n j y) mod 2 ^ n.
Proof.
  intros Hn Hj H. unfold field. rewrite <-Zplus_mod. f_equal. pose proof (pow2_pos (n * j) ltac:(nia)).
  pose proof (low_add n (Z.to_nat j) x y Hn) as Hlow. rewrite Z2Nat.id in Hlow by done. specialize (Hlow H).
  pose proof (Z.mod_pos_bound x (2 ^ (n * j)) ltac:(lia)). pose proof (Z.mod_pos_bound y (2 ^ (n * j)) ltac:(lia)).
  rewrite (Z.div_mod x (2 ^ (n * j))) at 1 by lia. rewrite (Z.div_mod y (2 ^ (n * j))) at 1 by lia.
  symmetry. apply Z.div_unique with (x mod 2 ^ (n * j) + y mod 2 ^ (n * j)); [lia|ring].
Qed.
Lemma field_sub n j x y :
  0 ≤ n → 0 ≤ j → (∀ j', 0 ≤ j' < j → field n j' y ≤ field n j' x) →
  field n j (x - y) = (field n j x - field n j y) mod 2 ^ n.
Proof.
  intros Hn Hj H. unfold field. rewrite <-Zminus_mod. f_equal. pose proof (pow2_pos (n * j) ltac:(nia)).
  pose proof (low_sub n (Z.to_nat j) x y Hn) as Hlow. rewrite Z2Nat.id in Hlow by done. specialize (Hlow H).
  pose proof (Z.mod_pos_bound x (2 ^ (n * j)) ltac:(lia)). pose proof (Z.mod_pos_bound y (2 ^ (n * j)) ltac:(lia)).
  rewrite (Z.div_mod x (2 ^ (n * j))) at 1 by lia. rewrite (Z.div_mod y (2 ^ (n * j))) at 1 by lia.
  symmetry. apply Z.div_unique with (x mod 2 ^ (n * j) - y mod 2 ^ (n * j)); [lia|ring].
Qed.
End Fields.

(** ** Free blocks *)

(** The aligned block of [2^k] bits at [i] has no bit set in the word. *)
Definition block_free (k w i : Z) : bool := (i mod 2 ^ k =? 0) && (field (2 ^ k) (i / 2 ^ k) w =? 0).
(** [f] has exactly the lowest bits of the free blocks set. *)
Definition free_lsbs (k w f : Z) : Prop := in_u 64 f ∧ ∀ i, 0 ≤ i < 64 → Z.testbit f i = block_free k w i.

Section BlockProofs.
Context {B : Build} {E : Type}.

Lemma block_free_spec k w i :
  0 ≤ k → 0 ≤ i → block_free k w i = true ↔ (2 ^ k | i) ∧ ∀ p, i ≤ p < i + 2 ^ k → Z.testbit w p = false.
Proof.
  intros Hk Hi. unfold block_free. pose proof (pow2_pos k Hk). pose proof (Z.div_pos i (2 ^ k) ltac:(lia) ltac:(lia)).
  rewrite andb_true_iff, !Z.eqb_eq, field_zero, Z.mod_divide by lia. split; intros [[q Hq] H'].
  - split; [by exists q|]. intros p Hp. specialize (H' (p - i) ltac:(lia)). subst i. rewrite Z.div_mul in H' by lia.
    by replace (2 ^ k * q + (p - q * 2 ^ k)) with p in H' by lia.
  - split; [by exists q|]. intros r Hr. apply H'. subst i. rewrite Z.div_mul by lia. lia.
Qed.

(** A block within a free block is free. *)
Lemma block_free_sub k s w i : 0 ≤ k ≤ s → 0 ≤ i → block_free s w i = true → block_free k w i = true.
Proof.
  intros Hk Hi. rewrite !block_free_spec by lia. intros [[q Hq] Hbits].
  assert (2 ^ s = 2 ^ (s - k) * 2 ^ k) as Hpow by (rewrite <-Z.pow_add_r by lia; f_equal; lia).
  pose proof (pow2_pos (s - k) ltac:(lia)). pose proof (pow2_pos k ltac:(lia)).
  split; [exists (q * 2 ^ (s - k)); lia|]. intros p Hp. apply Hbits. nia.
Qed.

Lemma block_free_double k w i :
  0 ≤ k → 0 ≤ i →
  block_free (k + 1) w i = (i mod 2 ^ (k + 1) =? 0) && (block_free k w i && block_free k w (i + 2 ^ k)).
Proof.
  intros Hk Hi. pose proof (pow2_pos k Hk). pose proof (pow2_pos (k + 1) ltac:(lia)).
  assert (2 ^ (k + 1) = 2 * 2 ^ k) as Hpow by (rewrite Z.add_1_r, Z.pow_succ_r; lia).
  apply eq_true_iff_eq. rewrite !andb_true_iff, Z.eqb_eq, Z.mod_divide by lia. rewrite !block_free_spec by lia. split.
  - intros [[q Hq] Hb]. rewrite Hpow in *. split_and!; [by exists q|exists (2 * q); lia| |exists (2 * q + 1); lia|]; intros p Hp; apply Hb; lia.
  - intros (Hd & [_ Hb1] & [_ Hb2]). split; [done|]. intros p Hp. destruct (Z.lt_ge_cases p (i + 2 ^ k)); [apply Hb1; lia|apply Hb2; lia].
Qed.

Lemma block_free_0 k i : 0 ≤ k → 0 ≤ i → (2 ^ k | i) → block_free k 0 i = true.
Proof. intros. apply block_free_spec; [done..|]. split; [done|]. intros. apply Z.bits_0. Qed.

(** Positions of a block and in it. *)
Lemma block_position k i :
  0 ≤ k ≤ 6 → 0 ≤ i < 64 → 0 ≤ i / 2 ^ k ∧ i = 2 ^ k * (i / 2 ^ k) + i mod 2 ^ k ∧ 0 ≤ i mod 2 ^ k < 2 ^ k ∧ 2 ^ k * (i / 2 ^ k + 1) ≤ 64.
Proof.
  intros Hk Hi. pose proof (pow2_pos k ltac:(lia)). pose proof (Z.div_mod i (2 ^ k) ltac:(lia)).
  pose proof (Z.mod_pos_bound i (2 ^ k) ltac:(lia)).
  assert (64 = 2 ^ k * 2 ^ (6 - k)) as H64 by (rewrite <-Z.pow_add_r by lia; by replace (k + (6 - k)) with 6 by lia).
  pose proof (pow2_pos (6 - k) ltac:(lia)). assert (i / 2 ^ k < 2 ^ (6 - k)) by nia. split_and!; try lia; nia.
Qed.

Lemma mask_bit k j r : 0 ≤ k ≤ 6 → 0 ≤ j → 0 ≤ r < 2 ^ k → 2 ^ k * (j + 1) ≤ 64 → Z.testbit (lsbs_mask k) (2 ^ k * j + r) = (r =? 0).
Proof.
  intros ????. rewrite lsbs_mask_testbit by nia. rewrite Z.mul_comm, Z.add_comm, Z.mod_add, Z.mod_small by lia. done.
Qed.

End BlockProofs.

Section FreeProofs.
Context {B : Build} {E : Type}.
Variables (k w : Z).
Hypothesis Hk : 0 ≤ k ≤ 6.
Hypothesis Hw : in_u 64 w.

Abbreviation n := (2 ^ k).
Abbreviation m := (lsbs_mask k).

(** A field without its lowest bit, moved down by one. *)
Lemma field_halved j :
  0 ≤ j → n * (j + 1) ≤ 64 → field n j (Z.shiftr (Z.land w (unot 64 m)) 1) = field n j w / 2.
Proof.
  intros Hj Hj'. pose proof (pow2_pos k ltac:(lia)). pose proof (field_bound n j w ltac:(lia)) as Hb.
  apply field_ext; [lia|done|split; [apply Z.div_pos; lia|apply Z.div_lt_upper_bound; lia]|].
  intros i Hi. rewrite Z.shiftr_spec, Z.land_spec by nia. change (field n j w / 2) with (field n j w / 2 ^ 1).
  rewrite <-Z.shiftr_div_pow2, Z.shiftr_spec by lia. destruct (Z.lt_ge_cases (i + 1) n) as [Hlt|Hge].
  - rewrite <-Z.add_assoc, field_testbit, unot_testbit, mask_bit by nia. zdec. by rewrite andb_true_r.
  - rewrite (testbit_high n (field n j w)) by (lia || done). replace (n * j + i + 1) with (n * (j + 1) + 0) by lia.
    destruct (Z.lt_ge_cases (n * (j + 1)) 64).
    + rewrite unot_testbit, mask_bit; [by rewrite andb_false_r|..]; try nia.
      assert (64 = n * 2 ^ (6 - k)) as H64 by (rewrite <-Z.pow_add_r by lia; by replace (k + (6 - k)) with 6 by lia). nia.
    + by rewrite (testbit_high 64 w) by (done || lia).
Qed.

Lemma field_ones j : 0 ≤ j → n * (j + 1) ≤ 64 → field n j (Z.shiftr (unot 64 m) 1) = 2 ^ (n - 1) - 1.
Proof.
  intros Hj Hj'. pose proof (pow2_pos k ltac:(lia)). pose proof (pow2_pos (n - 1) ltac:(lia)).
  assert (2 ^ n = 2 * 2 ^ (n - 1)) as Hn by (rewrite <-Z.pow_succ_r by lia; f_equal; lia).
  apply field_ext; [lia|done|unfold in_u; lia|]. intros i Hi. rewrite Z.shiftr_spec by nia.
  rewrite Z.sub_1_r, <-Z.ones_equiv, Z.testbit_ones_nonneg by lia. destruct (Z.lt_ge_cases (i + 1) n) as [Hlt|Hge].
  - rewrite <-Z.add_assoc, unot_testbit, mask_bit by nia. zdec. done.
  - zdec. replace (n * j + i + 1) with (n * (j + 1) + 0) by lia. destruct (Z.lt_ge_cases (n * (j + 1)) 64).
    + rewrite unot_testbit, mask_bit; [done|..]; try nia.
      assert (64 = n * 2 ^ (6 - k)) as H64 by (rewrite <-Z.pow_add_r by lia; by replace (k + (6 - k)) with 6 by lia). nia.
    + apply (testbit_high 64); [by apply unot_in_u, lsbs_mask_in_u|lia].
Qed.

(** The sum's highest bit in a field tells whether a bit above the lowest is set. *)
Lemma field_sum_high j :
  0 ≤ j → n * (j + 1) ≤ 64 →
  Z.testbit (Z.shiftr (Z.land w (unot 64 m)) 1 + Z.shiftr (unot 64 m) 1) (n * j + (n - 1)) = (2 <=? field n j w).
Proof.
  intros Hj Hj'. pose proof (pow2_pos k ltac:(lia)). pose proof (pow2_pos (n - 1) ltac:(lia)).
  assert (2 ^ n = 2 * 2 ^ (n - 1)) as Hn by (rewrite <-Z.pow_succ_r by lia; f_equal; lia).
  assert (∀ d, 0 ≤ d < 2 ^ n → 0 ≤ d / 2 < 2 ^ (n - 1)) as Hhalf
    by (intros d Hd; split; [apply Z.div_pos; lia|apply Z.div_lt_upper_bound; lia]).
  assert (∀ j', 0 ≤ j' ≤ j → field n j' w / 2 + (2 ^ (n - 1) - 1) < 2 ^ n) as Hsum.
  { intros j' ?. pose proof (Hhalf _ (field_bound n j' w ltac:(lia))). lia. }
  rewrite <-field_testbit, field_add by (try lia; intros j' ?; rewrite field_halved, field_ones by nia; apply Hsum; lia).
  rewrite field_halved, field_ones by done.
  rewrite Z.mod_small by (pose proof (Hhalf _ (field_bound n j w ltac:(lia))); specialize (Hsum j ltac:(lia)); lia).
  pose proof (Hhalf _ (field_bound n j w ltac:(lia))). destruct (Z.leb_spec 2 (field n j w)).
  - apply Z.testbit_true; [lia|]. assert (1 ≤ field n j w / 2) by (apply Z.div_le_lower_bound; lia).
    replace (_ / 2 ^ (n - 1)) with 1; [done|]. apply Z.div_unique with (field n j w / 2 - 1); lia.
  - apply (testbit_high (n - 1)); [|lia]. rewrite Z.div_small by (pose proof (field_bound n j w); lia). unfold in_u. lia.
Qed.

Lemma bitmap_word_nonzero_blocks_lsbs_Ok :
  ∃ f, bitmap_word_nonzero_blocks_lsbs (E:=E) w k m = Ok f ∧ in_u 64 f ∧
    ∀ i, 0 ≤ i < 64 → Z.testbit f i = (i mod n =? 0) && negb (field n (i / n) w =? 0).
Proof.
  pose proof (pow2_pos k ltac:(lia)). pose proof (lsbs_mask_in_u k Hk) as Hm. pose proof (unot_in_u 64 m ltac:(lia) Hm) as [Hum1 Hum2].
  assert (n ≤ 64) by (apply (Z.pow_le_mono_r 2 k 6); lia).
  assert (in_u 64 (Z.land w (unot 64 m))) as [? ?] by (apply land_in_u; [lia|done|lia]).
  assert (∀ x, 0 ≤ x < 2 ^ 64 → 0 ≤ Z.shiftr x 1 < 2 ^ 63) as Hshift.
  { intros x Hx. rewrite Z.shiftr_div_pow2 by lia. split; [apply Z.div_pos; lia|apply Z.div_lt_upper_bound; lia]. }
  pose proof (Hshift _ (conj Hum1 Hum2)). pose proof (Hshift (Z.land w (unot 64 m)) ltac:(lia)).
  unfold bitmap_word_nonzero_blocks_lsbs. rewrite shl_one by lia. ostep. 
  eexists. split; [done|]. split.
  - rewrite Z.land_comm. apply land_in_u; [lia|done|]. apply Z.lor_nonneg. split; [apply Z.shiftr_nonneg; lia|apply Hw].
  - intros i Hi. destruct (block_position k i Hk Hi) as (Hj & Hij & Hr & Hj').
    rewrite Z.land_spec, Z.lor_spec, Z.shiftr_spec, lsbs_mask_testbit by lia. destruct (Z.eqb_spec (i mod n) 0) as [Hr0|Hr0]; [|apply andb_false_r].
    rewrite andb_true_r. cbn [andb]. replace (i + (n - 1)) with (n * (i / n) + (n - 1)) by lia. rewrite field_sum_high by done.
    replace (Z.testbit w i) with (Z.testbit (field n (i / n) w) 0) by (rewrite field_testbit by lia; f_equal; lia).
    pose proof (field_bound n (i / n) w ltac:(lia)). destruct (Z.leb_spec 2 (field n (i / n) w)); [by zdec|]. cbn [orb].
    assert (field n (i / n) w = 0 ∨ field n (i / n) w = 1) as [-> | ->] by lia; done.
Qed.

Lemma bitmap_word_free_blocks_lsbs_Ok :
  ∃ f, bitmap_word_free_blocks_lsbs (E:=E) w k m = Ok f ∧ free_lsbs k w f.
Proof.
  unfold bitmap_word_free_blocks_lsbs. destruct bitmap_word_nonzero_blocks_lsbs_Ok as (f & -> & ? & Hf). ostep.
  eexists. split; [done|]. split.
  - apply lxor_in_u; [lia|done|by apply lsbs_mask_in_u].
  - intros i Hi. rewrite Z.lxor_spec, Hf, lsbs_mask_testbit by done. unfold block_free.
    destruct (_ =? 0); cbn; [by rewrite xorb_true_r, negb_involutive|done].
Qed.
End FreeProofs.

(** ** Buddies *)

(** The other half of the block of twice the size. *)
Definition buddy (k i : Z) : Z := if (i mod 2 ^ (k + 1) =? 0) then i + 2 ^ k else i - 2 ^ k.

Section BuddyProofs.
Context {B : Build} {E : Type}.

Lemma double_mod k i : 0 ≤ k → 0 ≤ i → i mod 2 ^ k = 0 → i mod 2 ^ (k + 1) = 0 ∨ (i mod 2 ^ (k + 1) = 2 ^ k ∧ 2 ^ k ≤ i).
Proof.
  intros Hk Hi Hm. pose proof (pow2_pos k Hk). assert (2 ^ (k + 1) = 2 ^ k * 2) as Hp by (rewrite Z.pow_add_r by lia; lia).
  rewrite Hp. rewrite Z.rem_mul_r by lia. rewrite Hm, Z.add_0_l. pose proof (Z.mod_pos_bound (i / 2 ^ k) 2 ltac:(lia)).
  assert ((i / 2 ^ k) mod 2 = 0 ∨ (i / 2 ^ k) mod 2 = 1) as [Hq|Hq] by lia; rewrite Hq; [left; lia|right]. split; [lia|].
  assert (i / 2 ^ k ≠ 0) by (intros Hz; by rewrite Hz in Hq). pose proof (Z.div_mod i (2 ^ k) ltac:(lia)).
  assert (0 ≤ i / 2 ^ k) by (apply Z.div_pos; lia). nia.
Qed.

Lemma buddy_spec k i :
  0 ≤ k ≤ 5 → 0 ≤ i < 64 → i mod 2 ^ k = 0 →
  0 ≤ buddy k i < 64 ∧ buddy k i mod 2 ^ k = 0 ∧ buddy k (buddy k i) = i ∧ buddy k i ≠ i.
Proof.
  intros Hk Hi Hm. pose proof (pow2_pos k ltac:(lia)) as Hpos. assert (2 ^ (k + 1) = 2 ^ k * 2) as Hp by (rewrite Z.pow_add_r by lia; lia).
  destruct (block_position (k + 1) i ltac:(lia) Hi) as (? & Hdiv & _ & Hle). unfold buddy.
  assert (∀ z, (i + z * 2 ^ k) mod 2 ^ k = 0) as Hmod by (intros z; by rewrite Z.mod_add by lia).
  destruct (double_mod k i ltac:(lia) ltac:(lia) Hm) as [Hd|[Hd Hge]]; rewrite Hd.
  - cbn [Z.eqb]. assert ((i + 2 ^ k) mod 2 ^ (k + 1) = 2 ^ k) as ->.
    { rewrite Z.add_mod, Hd, Z.add_0_l, Z.mod_mod, Z.mod_small by lia. done. }
    zdec. specialize (Hmod 1). rewrite Z.mul_1_l in Hmod. split_and!; try lia; nia.
  - zdec. assert ((i - 2 ^ k) mod 2 ^ (k + 1) = 0) as ->.
    { symmetry. apply Z.mod_unique with (i / 2 ^ (k + 1)); [lia|]. lia. }
    zdec. specialize (Hmod (-1)). replace (i + -1 * 2 ^ k) with (i - 2 ^ k) in Hmod by lia. split_and!; lia.
Qed.

Lemma bitmap_word_filter_blocks_with_free_buddy_lsbs_Ok k cand free :
  0 ≤ k ≤ 5 → in_u 64 cand → in_u 64 free → (∀ i, 0 ≤ i < 64 → Z.testbit free i = true → i mod 2 ^ k = 0) →
  ∃ f, bitmap_word_filter_blocks_with_free_buddy_lsbs (E:=E) cand free k (lsbs_mask (k + 1)) = Ok f ∧ in_u 64 f ∧
    ∀ i, 0 ≤ i < 64 → i mod 2 ^ k = 0 → Z.testbit f i = Z.testbit cand i && negb (Z.testbit free (buddy k i)).
Proof.
  intros Hk Hc Hf Hfree. pose proof (pow2_pos k ltac:(lia)). assert (2 ^ k ≤ 32) by (apply (Z.pow_le_mono_r 2 k 5); lia).
  assert (2 ^ (k + 1) = 2 ^ k * 2) as Hp by (rewrite Z.pow_add_r by lia; lia).
  unfold bitmap_word_filter_blocks_with_free_buddy_lsbs, BITMAP_WORD_BITS. rewrite shl_one by lia. ostep. zdec. ostep.
  pose proof (lsbs_mask_in_u (k + 1) ltac:(lia)) as Hm. set (M := lsbs_mask (k + 1)) in *.
  assert (0 ≤ Z.shiftr free (2 ^ k)) by (apply Z.shiftr_nonneg, Hf).
  assert (in_u 64 (Z.land (Z.lxor free (Z.shiftr free (2 ^ k))) M)) as Ht1.
  { rewrite Z.land_comm. apply land_in_u; [lia|done|]. apply Z.lxor_nonneg. split; [done|intros _; apply Hf]. }
  assert (in_u 64 (wrap 64 (Z.shiftl (Z.land (Z.lxor free (Z.shiftr free (2 ^ k))) M) (2 ^ k)))) as Ht2 by (apply wrap_in_u; lia).
  eexists. split; [done|]. split.
  - apply land_in_u; [lia|done|]. apply unot_in_u; [lia|]. by repeat apply lxor_in_u.
  - intros i Hi Him. rewrite Z.land_spec, unot_testbit by lia. f_equal. f_equal.
    assert (∀ p, 0 ≤ p < 64 → Z.testbit (Z.land (Z.lxor free (Z.shiftr free (2 ^ k))) M) p =
      xorb (Z.testbit free p) (Z.testbit free (p + 2 ^ k)) && (p mod 2 ^ (k + 1) =? 0)) as Hbit.
    { intros p Hpp. rewrite Z.land_spec, Z.lxor_spec, Z.shiftr_spec by lia. unfold M. by rewrite lsbs_mask_testbit by lia. }
    rewrite !Z.lxor_spec, Hbit by done. unfold wrap. rewrite Z.mod_pow2_bits_low, Z.shiftl_spec by lia. unfold buddy.
    destruct (double_mod k i ltac:(lia) ltac:(lia) Him) as [Hd|[Hd Hge]]; rewrite Hd.
    + cbn [Z.eqb]. rewrite andb_true_r. assert (Z.testbit (Z.land (Z.lxor free (Z.shiftr free (2 ^ k))) M) (i - 2 ^ k) = false) as ->.
      { destruct (Z.lt_ge_cases (i - 2 ^ k) 0); [by apply Z.testbit_neg_r|]. rewrite Hbit by lia.
        assert ((i - 2 ^ k) mod 2 ^ (k + 1) = 2 ^ k) as ->; [|by zdec; rewrite andb_false_r].
        symmetry. apply Z.mod_unique with (i / 2 ^ (k + 1) - 1); [lia|]. pose proof (Z.div_mod i (2 ^ (k + 1)) ltac:(lia)). lia. }
      by destruct (Z.testbit free i), (Z.testbit free (i + 2 ^ k)).
    + zdec. rewrite Hbit by lia. assert ((i - 2 ^ k) mod 2 ^ (k + 1) = 0) as ->.
      { symmetry. apply Z.mod_unique with (i / 2 ^ (k + 1)); [lia|]. pose proof (Z.div_mod i (2 ^ (k + 1)) ltac:(lia)). lia. }
      cbn [Z.eqb]. rewrite andb_false_r, andb_true_r, xorb_false_r. replace (i - 2 ^ k + 2 ^ k) with i by lia.
      by destruct (Z.testbit free i), (Z.testbit free (i - 2 ^ k)).
Qed.

Lemma trailing_zeros_from_spec n : ∀ x i,
  let p := trailing_zeros_from n x i in
  (∀ q, i ≤ q < p → Z.testbit x q = false) ∧ i ≤ p ≤ i + Z.of_nat n ∧ (p < i + Z.of_nat n → Z.testbit x p = true).
Proof.
  induction n as [|n IH]; intros x i; cbn [trailing_zeros_from].
  - split_and!; [intros; lia..|lia].
  - destruct (Z.testbit x i) eqn:Hx; [split_and!; [intros; lia..|done]|].
    destruct (IH x (i + 1)) as (H1 & H2 & H3). split_and!; [|lia..|intros; apply H3; lia].
    intros q Hq. destruct (Z.eq_dec q i) as [->|]; [done|]. apply H1. lia.
Qed.
Lemma trailing_zeros_spec x :
  in_u 64 x → x ≠ 0 → 0 ≤ trailing_zeros x < 64 ∧ Z.testbit x (trailing_zeros x) = true ∧
    ∀ q, 0 ≤ q < trailing_zeros x → Z.testbit x q = false.
Proof.
  intros Hx Hnz. unfold trailing_zeros. destruct (trailing_zeros_from_spec 64 x 0) as (H1 & H2 & H3).
  assert (trailing_zeros_from 64 x 0 < 64) as Hlt.
  { destruct (Z.lt_ge_cases (trailing_zeros_from 64 x 0) 64); [done|]. destruct Hnz. apply (word_ext x 0); [done|done|].
    intros i Hi. rewrite Z.bits_0. apply H1. lia. }
  split_and!; [lia..|apply H3; lia|done].
Qed.
End BuddyProofs.

(** ** Choosing a block *)

(** Every free block of [2^k] has a free buddy. *)
Definition all_paired (k w : Z) : Prop := ∀ i, 0 ≤ i < 64 → block_free k w i = true → block_free k w (buddy k i) = true.

Section SplitProofs.
Context {B : Build} {E : Type}.

Lemma nonzero_bit x : in_u 64 x → x ≠ 0 → ∃ i, 0 ≤ i < 64 ∧ Z.testbit x i = true.
Proof. intros Hx Hnz. destruct (trailing_zeros_spec x Hx Hnz) as (? & ? & _). eauto. Qed.

(** Bits at multiples of [2^k] only. *)
Definition aligned_bits (k f : Z) : Prop := ∀ i, 0 ≤ i < 64 → Z.testbit f i = true → i mod 2 ^ k = 0.

Lemma free_lsbs_aligned k w f : free_lsbs k w f → aligned_bits k f.
Proof. intros [_ Hf] i Hi. rewrite Hf by done. unfold block_free. rewrite andb_true_iff, Z.eqb_eq. tauto. Qed.

Lemma filter_nonzero k f :
  0 ≤ k ≤ 5 → in_u 64 f → aligned_bits k f →
  ∃ g, bitmap_word_filter_blocks_with_free_buddy_lsbs (E:=E) f f k (lsbs_mask (k + 1)) = Ok g ∧ in_u 64 g ∧
    (∀ i, 0 ≤ i < 64 → i mod 2 ^ k = 0 → Z.testbit g i = Z.testbit f i && negb (Z.testbit f (buddy k i))) ∧ aligned_bits k g ∧
    (g ≠ 0 ↔ ∃ i, 0 ≤ i < 64 ∧ i mod 2 ^ k = 0 ∧ Z.testbit f i = true ∧ Z.testbit f (buddy k i) = false).
Proof.
  intros Hk Hf Ha. destruct (bitmap_word_filter_blocks_with_free_buddy_lsbs_Ok (E:=E) k f f) as (g & Heq & Hg & Hbits); [done..|].
  assert (aligned_bits k g) as Hag.
  { intros i Hi Hgi. apply Ha; [done|]. revert Heq. unfold bitmap_word_filter_blocks_with_free_buddy_lsbs. rewrite shl_one by lia.
    intros Heq. rinv. rewrite Z.land_spec in Hgi. by apply andb_true_iff in Hgi as [? _]. }
  exists g. split_and!; [done..|]. split.
  - intros Hnz. destruct (nonzero_bit g Hg Hnz) as (i & Hi & Hgi). exists i. pose proof (Hag i Hi Hgi) as Him.
    rewrite Hbits, andb_true_iff, negb_true_iff in Hgi by done. tauto.
  - intros (i & Hi & Him & Hf1 & Hf2) ->. specialize (Hbits i Hi Him). by rewrite Z.bits_0, Hf1, Hf2 in Hbits.
Qed.

Lemma free_lsbs_double k w f :
  0 ≤ k ≤ 5 → free_lsbs k w f → free_lsbs (k + 1) w (Z.land (Z.land f (Z.shiftr f (2 ^ k))) (lsbs_mask (k + 1))).
Proof.
  intros Hk [Hf Hbits]. pose proof (pow2_pos k ltac:(lia)). assert (0 ≤ Z.shiftr f (2 ^ k)) by apply Z.shiftr_nonneg, Hf. split.
  - repeat apply land_in_u; try lia; [done|]. apply lsbs_mask_in_u. lia.
  - intros i Hi. rewrite !Z.land_spec, Z.shiftr_spec, lsbs_mask_testbit, block_free_double by lia.
    rewrite Hbits by done. destruct (Z.eqb_spec (i mod 2 ^ (k + 1)) 0) as [Hm|Hm]; [|by rewrite andb_false_r].
    rewrite andb_true_r. cbn [andb]. f_equal. apply Hbits. destruct (block_position (k + 1) i ltac:(lia) Hi) as (_ & ? & _ & ?).
    assert (2 ^ (k + 1) = 2 ^ k * 2) as Hp by (rewrite Z.pow_add_r by lia; lia). lia.
Qed.

(** A free block and its free buddy are a free block of twice the size. *)
Lemma paired_double s w i :
  0 ≤ s ≤ 5 → 0 ≤ i < 64 → block_free s w i = true → block_free s w (buddy s i) = true →
  ∃ i', 0 ≤ i' < 64 ∧ block_free (s + 1) w i' = true.
Proof.
  intros Hs Hi Hfi Hbud. pose proof (pow2_pos s ltac:(lia)).
  assert (i mod 2 ^ s = 0) as Him by (unfold block_free in Hfi; apply andb_true_iff in Hfi as [Hm%Z.eqb_eq _]; done).
  destruct (buddy_spec s i Hs Hi Him) as (Hbi & Hbm & _). unfold buddy in *.
  destruct (Z.eqb_spec (i mod 2 ^ (s + 1)) 0) as [Hd|Hd].
  - exists i. split; [done|]. by rewrite block_free_double, Hd, Hfi, Hbud by lia.
  - exists (i - 2 ^ s). split; [done|]. rewrite block_free_double by lia. replace (i - 2 ^ s + 2 ^ s) with i by lia.
    rewrite Hfi, Hbud, andb_true_r. apply Z.eqb_eq. destruct (double_mod s i ltac:(lia) ltac:(lia) Him) as [?|[Hd' _]]; [lia|].
    assert (2 ^ (s + 1) = 2 ^ s * 2) as Hp by (rewrite Z.pow_add_r by lia; lia).
    symmetry. apply Z.mod_unique with (i / 2 ^ (s + 1)); [lia|]. pose proof (Z.div_mod i (2 ^ (s + 1)) ltac:(lia)). lia.
Qed.

Lemma split_block_loop_spec w max fuel : ∀ s f,
  free_lsbs s w f → f ≠ 0 → 0 ≤ s ≤ max → max ≤ 5 → max - s ≤ Z.of_nat fuel →
  ∃ s', split_block_loop (E:=E) fuel max s f lsbs_table = Ok s' ∧ s ≤ s' ≤ max ∧ (∀ t, s ≤ t < s' → all_paired t w) ∧
    ∃ i, 0 ≤ i < 64 ∧ block_free s' w i = true ∧ (s' < max → block_free s' w (buddy s' i) = false).
Proof.
  induction fuel as [|fuel IH]; intros s f Hf Hnz Hs Hmax Hfuel; cbn [split_block_loop]; pose proof Hf as [Hfu Hbits];
    (destruct (Z.ltb_spec s max) as [Hlt|Hge];
     [|exists s; split_and!; [done|lia..|intros; lia|]; destruct (nonzero_bit f Hfu Hnz) as (i & Hi & Hfi);
       exists i; rewrite Hbits in Hfi by done; split_and!; [lia..|done|lia]]); [lia|].
  ostep. rewrite get_blocks_lsbs_mask_Ok by lia. ostep.
  destruct (filter_nonzero s f) as (g & -> & Hg & Hgbits & _ & Hgnz); [lia|done|by eapply free_lsbs_aligned|]. ostep.
  destruct (Z.eqb_spec g 0) as [Hg0|Hg0]; cbn [negb].
  - pose proof (pow2_pos s ltac:(lia)). assert (2 ^ s ≤ 32) by (apply (Z.pow_le_mono_r 2 s 5); lia).
    rewrite Z.shiftl_1_l, (wrap_small 32 (2 ^ s)) by (unfold in_u; lia). ostep.
    pose proof (free_lsbs_double s w f ltac:(lia) Hf) as Hf'. set (f' := Z.land _ _) in *.
    assert (all_paired s w) as Hpaired.
    { intros i Hi Hbf. destruct (block_free s w (buddy s i)) eqn:Hbud; [done|]. assert (g ≠ 0); [|done]. apply Hgnz. exists i.
      pose proof Hbf as Hm. unfold block_free in Hm. apply andb_true_iff in Hm as [Hm%Z.eqb_eq _].
      destruct (buddy_spec s i) as (? & _); [lia|done..|]. by rewrite !Hbits by done. }
    assert (f' ≠ 0) as Hnz'.
    { destruct (nonzero_bit f Hfu Hnz) as (i & Hi & Hfi). rewrite Hbits in Hfi by done.
      destruct (paired_double s w i ltac:(lia) Hi Hfi (Hpaired i Hi Hfi)) as (i' & Hi' & Hfree').
      intros Hf0. destruct Hf' as [_ Hb']. specialize (Hb' i' Hi'). by rewrite Hf0, Z.bits_0, Hfree' in Hb'. }
    zdec. ostep. destruct (IH (s + 1) f') as (s' & -> & Hs' & Hall & Hex); [done..|lia|lia|lia|]. exists s'. split_and!; [done|lia|lia| |done].
    intros t Ht. destruct (Z.eq_dec t s) as [->|]; [done|]. apply Hall. lia.
  - exists s. split_and!; [done|lia..|intros; lia|]. apply Hgnz in Hg0 as (i & Hi & Him & Hf1 & Hf2). exists i.
    destruct (buddy_spec s i) as (? & _); [lia|done..|]. rewrite !Hbits in * by done. done.
Qed.
End SplitProofs.

Section SelectProofs.
Context {B : Build} {E : Type}.

(** In a word with a bit set not all blocks are free. *)
Lemma not_all_free k w f : 0 ≤ k ≤ 6 → in_u 64 w → w ≠ 0 → free_lsbs k w f → f ≠ lsbs_mask k.
Proof.
  intros Hk Hw Hnz [_ Hbits] ->. destruct (nonzero_bit w Hw Hnz) as (p & Hp & Hwp).
  destruct (block_position k p Hk Hp) as (Hq & Hpq & Hr & Hle). pose proof (pow2_pos k ltac:(lia)).
  specialize (Hbits (2 ^ k * (p / 2 ^ k)) ltac:(nia)). rewrite lsbs_mask_testbit, Z.mul_comm, Z.mod_mul in Hbits by nia.
  symmetry in Hbits. cbn in Hbits. apply block_free_spec in Hbits as [_ Hb]; [|lia|nia].
  rewrite Hb in Hwp by lia. done.
Qed.

Lemma subset_mask k f : 0 ≤ k ≤ 6 → in_u 64 f → aligned_bits k f → Z.land f (unot 64 (lsbs_mask k)) = 0.
Proof.
  intros Hk Hf Ha. apply (word_ext _ 0); [|done|].
  - apply land_in_u; [lia|done|]. apply unot_in_u; [lia|by apply lsbs_mask_in_u].
  - intros i Hi. rewrite Z.land_spec, unot_testbit, lsbs_mask_testbit, Z.bits_0 by done.
    destruct (Z.testbit f i) eqn:Hfi; [|done]. rewrite (Ha i Hi Hfi). done.
Qed.

(** The checks at the start of both functions hold. *)
Lemma split_checks k f max :
  0 ≤ k ≤ 5 → in_u 64 f → aligned_bits k f → f ≠ 0 → f ≠ lsbs_mask k →
  bitmap_word_block_alloc_split_block_size_log2 (E:=E) f max k (lsbs_mask k) lsbs_table =
  split_block_loop 6 (match max with Some m => Z.min m 5 | None => 5 end) k f lsbs_table.
Proof.
  intros Hk Hf Ha Hnz Hne. unfold bitmap_word_block_alloc_split_block_size_log2, BITMAP_WORD_BITS_LOG2.
  replace (k =? 6) with false by lia. ostep. rewrite get_blocks_lsbs_mask_Ok by lia. ostep. rewrite Z.eqb_refl, debug_check_true by done. ostep.
  rewrite subset_mask by (done || lia). ostep. zdec. ostep. zdec. ostep. by ostep.
Qed.

Lemma bitmap_word_block_alloc_split_block_size_log2_Ok k w f max :
  0 ≤ k ≤ 5 → in_u 64 w → w ≠ 0 → free_lsbs k w f → f ≠ 0 → (∀ m, max = Some m → k ≤ m) →
  ∃ s, bitmap_word_block_alloc_split_block_size_log2 (E:=E) f max k (lsbs_mask k) lsbs_table = Ok s ∧
    k ≤ s ≤ 5 ∧ (∀ m, max = Some m → s ≤ m) ∧ (∀ t, k ≤ t < s → all_paired t w) ∧
    ∃ i, 0 ≤ i < 64 ∧ block_free s w i = true ∧ (s < 5 → (∀ m, max = Some m → s < m) → block_free s w (buddy s i) = false).
Proof.
  intros Hk Hw Hwz Hf Hnz Hmax. pose proof Hf as [Hfu _].
  rewrite split_checks; [|done|done|by eapply free_lsbs_aligned|done|apply (not_all_free k w); [lia|done..]].
  destruct (split_block_loop_spec (E:=E) w (match max with Some m => Z.min m 5 | None => 5 end) 6 k f) as (s & -> & Hs & Hall & i & Hi & Hfi & Hbud);
    [done..|destruct max as [m|]; [specialize (Hmax m eq_refl)|]; lia|destruct max; lia|destruct max; lia|].
  exists s. split_and!; [done|lia|destruct max; lia| |done|].
  - intros m ->. lia.
  - exists i. split_and!; [lia..|done|]. intros Hs5 Hm. apply Hbud. destruct max as [m|]; [specialize (Hm m eq_refl)|]; lia.
Qed.

Lemma bitmap_word_block_alloc_select_block_Ok s f :
  0 ≤ s ≤ 6 → in_u 64 f → aligned_bits s f → f ≠ 0 → (s < 6 → f ≠ lsbs_mask s) →
  (s < 5 → ∃ i, 0 ≤ i < 64 ∧ Z.testbit f i = true ∧ Z.testbit f (buddy s i) = false) →
  ∃ p, bitmap_word_block_alloc_select_block (E:=E) f s (lsbs_mask s) lsbs_table = Ok p ∧ 0 ≤ p < 64 ∧ Z.testbit f p = true ∧
    (s < 5 → Z.testbit f (buddy s p) = false).
Proof.
  intros Hs Hf Ha Hnz Hne Halone. unfold bitmap_word_block_alloc_select_block, BITMAP_WORD_BITS_LOG2.
  rewrite get_blocks_lsbs_mask_Ok by lia. ostep. rewrite Z.eqb_refl, debug_check_true by done. ostep.
  rewrite subset_mask by (done || lia). ostep. destruct (trailing_zeros_spec f Hf Hnz) as (Ht1 & Ht2 & _).
  assert (s < 5 → ∃ g, bitmap_word_filter_blocks_with_free_buddy_lsbs (E:=E) f f s (lsbs_mask (s + 1)) = Ok g ∧ in_u 64 g ∧
    (∀ i, 0 ≤ i < 64 → i mod 2 ^ s = 0 → Z.testbit g i = Z.testbit f i && negb (Z.testbit f (buddy s i))) ∧ aligned_bits s g ∧ g ≠ 0) as Hg.
  { intros Hs5. destruct (filter_nonzero (E:=E) s f) as (g & ? & ? & ? & ? & Hgz); [lia|done|done|]. exists g. split_and!; [done..|].
    apply Hgz. destruct (Halone Hs5) as (i & Hi & Hi1 & Hi2). exists i. split_and!; [lia..|by apply Ha|done|done]. }
  assert (debug_check (E:=E) (if s =? 6 then Ok true
    else let! s0 := bitmap_word_block_alloc_split_block_size_log2 f None s (lsbs_mask s) lsbs_table in Ok (s =? s0)) = Ok tt) as ->.
  { apply debug_check_true. destruct (Z.eqb_spec s 6) as [|Hs6]; [done|]. rewrite split_checks by (done || lia || (apply Hne; lia)).
    cbn [split_block_loop]. destruct (Z.ltb_spec s 5) as [Hs5|]; [|ostep; by rewrite Z.eqb_refl].
    ostep. rewrite get_blocks_lsbs_mask_Ok by lia. ostep. destruct (Hg Hs5) as (g & -> & _ & _ & _ & Hgz). ostep. zdec. ostep. by rewrite Z.eqb_refl. }
  ostep. change (6 - 1) with 5. destruct (Z.ltb_spec s 5) as [Hs5|Hs5].
  - ostep. rewrite get_blocks_lsbs_mask_Ok by lia. ostep. destruct (Hg Hs5) as (g & -> & Hgu & Hgb & Hga & Hgz). ostep. rewrite (proj2 (Z.eqb_neq g 0) Hgz). ostep.
    destruct (trailing_zeros_spec g Hgu Hgz) as (Hp1 & Hp2 & _). eexists. split; [done|]. pose proof (Hga _ Hp1 Hp2) as Hm.
    rewrite Hgb, andb_true_iff, negb_true_iff in Hp2 by done. tauto.
  - ostep. rewrite (proj2 (Z.eqb_neq f 0) Hnz). ostep. eexists. split; [done|]. split_and!; [lia..|done|lia].
Qed.
End SelectProofs.

(** ** Packed integers *)

Section PackedProofs.
Context {B : Build} {E : Type}.
Variable k : Z.
Hypothesis Hk : 0 ≤ k ≤ 6.

Abbreviation n := (2 ^ k).
Abbreviation m := (lsbs_mask k).
(** The positions of the fields of a word. *)
Abbreviation position j := (0 ≤ j ∧ n * (j + 1) ≤ 64).

Lemma block_width : 1 ≤ n ≤ 64 ∧ 64 = n * 2 ^ (6 - k) ∧ 2 ^ n = 2 * 2 ^ (n - 1) ∧ 0 < 2 ^ (n - 1).
Proof.
  pose proof (pow2_pos k ltac:(lia)). assert (n ≤ 64) by (apply (Z.pow_le_mono_r 2 k 6); lia).
  split_and!; [lia..| | |apply pow2_pos; lia].
  - rewrite <-Z.pow_add_r by lia. by replace (k + (6 - k)) with 6 by lia.
  - rewrite <-Z.pow_succ_r by lia. f_equal. lia.
Qed.

(** The mask of the highest bits of the fields. *)
Definition msbs : Z := Z.shiftl m (n - 1).
Lemma msbs_Ok : ushl (E:=E) 64 m (n - 1) = Ok msbs ∧ in_u 64 msbs ∧
  ∀ j r, position j → 0 ≤ r < n → Z.testbit msbs (n * j + r) = (r =? n - 1).
Proof.
  destruct block_width as (? & H64 & _). pose proof (lsbs_mask_in_u k Hk) as Hm. pose proof (pow2_pos (6 - k) ltac:(lia)).
  assert (in_u 64 msbs) as Hu.
  { apply in_u_bits; [lia|]. intros i Hi. unfold msbs. rewrite Z.shiftl_spec by lia. destruct (Z.lt_ge_cases (i - (n - 1)) 64); [|by apply (testbit_high 64)].
    destruct (block_position k (i - (n - 1))) as (? & ? & ? & ?); [done|lia|]. rewrite lsbs_mask_testbit by lia. nia. }
  split_and!; [|done|].
  - rewrite ushl_Ok by lia. f_equal. by apply wrap_small.
  - intros j r Hj Hr. unfold msbs. rewrite Z.shiftl_spec by nia. destruct (Z.eqb_spec r (n - 1)) as [->|Hne].
    + replace (n * j + (n - 1) - (n - 1)) with (n * j + 0) by lia. by rewrite mask_bit by (done || lia).
    + destruct (Z.lt_ge_cases (n * j + r - (n - 1)) 0); [by apply Z.testbit_neg_r|].
      replace (n * j + r - (n - 1)) with (n * (j - 1) + (r + 1)) by lia. rewrite mask_bit by nia. lia.
Qed.

(** The top bit and the other bits of a field. *)
Abbreviation top v := (Z.testbit v (n - 1)).
Abbreviation rest v := (v mod 2 ^ (n - 1)).
Lemma field_split v : in_u n v → v = Z.b2z (top v) * 2 ^ (n - 1) + rest v.
Proof.
  intros Hv. destruct block_width as (? & _ & Hn & Hpos). rewrite (Z.div_mod v (2 ^ (n - 1))) at 1 by lia. f_equal. rewrite Z.mul_comm. f_equal.
  rewrite <-Z.shiftr_div_pow2 by lia. rewrite Z.testbit_spec' by lia. rewrite Z.shiftr_div_pow2 by lia. symmetry. apply Z.mod_small.
  split; [apply Z.div_pos; unfold in_u in *; lia|apply Z.div_lt_upper_bound; unfold in_u in *; lia].
Qed.

Lemma top_le v : in_u n v → top v = (2 ^ (n - 1) <=? v).
Proof.
  intros Hv. pose proof (field_split v Hv) as Hs. destruct block_width as (_ & _ & _ & Hpos).
  pose proof (Z.mod_pos_bound v (2 ^ (n - 1)) ltac:(lia)). destruct (top v); cbn [Z.b2z] in Hs; lia.
Qed.

(** The difference that cannot borrow across fields. *)
Definition guarded_sub (x y : Z) : Z := Z.lor x msbs - Z.land y (unot 64 msbs).

Lemma field_lor_msbs x j : position j → field n j (Z.lor x msbs) = 2 ^ (n - 1) + rest (field n j x).
Proof.
  intros Hj. destruct block_width as (? & _ & Hn & Hpos). destruct msbs_Ok as (_ & _ & Hm).
  pose proof (Z.mod_pos_bound (field n j x) (2 ^ (n - 1)) ltac:(lia)).
  apply field_ext; [lia|lia|unfold in_u; lia|]. intros i Hi. rewrite Z.lor_spec, Hm by done.
  destruct (Z.eqb_spec i (n - 1)) as [->|Hne].
  - rewrite orb_true_r, top_le by (unfold in_u; lia). lia.
  - rewrite orb_false_r, <-field_testbit, <-(Z.mod_pow2_bits_low (_ + _) (n - 1)), <-(Z.mod_pow2_bits_low (field n j x) (n - 1)) by lia.
    f_equal. replace (2 ^ (n - 1) + _) with (rest (field n j x) + 1 * 2 ^ (n - 1)) by lia. by rewrite Z.mod_add, Z.mod_mod by lia.
Qed.
Lemma field_land_msbs y j : position j → field n j (Z.land y (unot 64 msbs)) = rest (field n j y).
Proof.
  intros Hj. destruct block_width as (? & _ & Hn & Hpos). destruct msbs_Ok as (_ & _ & Hm).
  pose proof (Z.mod_pos_bound (field n j y) (2 ^ (n - 1)) ltac:(lia)).
  apply field_ext; [lia|lia|unfold in_u; lia|]. intros i Hi. rewrite Z.land_spec, unot_testbit, Hm by (done || nia).
  destruct (Z.eqb_spec i (n - 1)) as [->|Hne].
  - by rewrite andb_false_r, Z.mod_pow2_bits_high by lia.
  - by rewrite andb_true_r, <-field_testbit, Z.mod_pow2_bits_low by lia.
Qed.

Lemma field_guarded_sub x y j :
  position j → field n j (guarded_sub x y) = 2 ^ (n - 1) + rest (field n j x) - rest (field n j y).
Proof.
  intros Hj. destruct block_width as (? & _ & Hn & Hpos).
  assert (∀ v, 0 ≤ rest v < 2 ^ (n - 1)) as Hrest by (intros; apply Z.mod_pos_bound; lia).
  unfold guarded_sub. rewrite field_sub; [|lia|lia|].
  - rewrite field_lor_msbs, field_land_msbs by done. apply Z.mod_small. pose proof (Hrest (field n j x)). pose proof (Hrest (field n j y)). lia.
  - intros j' Hj'. rewrite field_lor_msbs, field_land_msbs by nia. pose proof (Hrest (field n j' x)). pose proof (Hrest (field n j' y)). lia.
Qed.

Lemma fields_Ok x : in_u 64 x → ∀ y, in_u 64 y → (∀ j, position j → field n j y ≤ field n j x) → y ≤ x.
Proof.
  intros Hx y Hy Hle. destruct block_width as (? & H64 & _). pose proof (pow2_pos (6 - k) ltac:(lia)).
  pose proof (low_sub n (Z.to_nat (2 ^ (6 - k))) x y ltac:(lia)) as Hlow. rewrite Z2Nat.id, <-H64 in Hlow by lia.
  rewrite !Z.mod_small in Hlow by done. apply Hlow. intros j' Hj'. apply Hle. nia.
Qed.

Lemma guarded_sub_Ok x y :
  in_u 64 x → in_u 64 y → usub (E:=E) 64 (Z.lor x msbs) (Z.land y (unot 64 msbs)) = Ok (guarded_sub x y) ∧ in_u 64 (guarded_sub x y).
Proof.
  intros Hx Hy. destruct msbs_Ok as (_ & Hm & _). destruct block_width as (? & _ & Hn & Hpos).
  assert (in_u 64 (Z.lor x msbs)) as Hl by (apply lor_in_u; [lia|done..]).
  assert (in_u 64 (Z.land y (unot 64 msbs))) as Hr by (apply land_in_u; [lia|done|by apply unot_in_u]).
  assert (Z.land y (unot 64 msbs) ≤ Z.lor x msbs) as Hle.
  { apply fields_Ok; [done..|]. intros j Hj. rewrite field_lor_msbs, field_land_msbs by done.
    pose proof (Z.mod_pos_bound (field n j x) (2 ^ (n - 1)) ltac:(lia)). pose proof (Z.mod_pos_bound (field n j y) (2 ^ (n - 1)) ltac:(lia)). lia. }
  unfold guarded_sub. split; [by rewrite usub_Ok|]. unfold in_u in *. lia.
Qed.
End PackedProofs.

Section Theorems.
Context {B : Build} {E : Type}.

Lemma fields_sub_bits k x y j :
  0 ≤ k ≤ 6 → 0 ≤ j → 2 ^ k * (j + 1) ≤ 64 →
  field (2 ^ k) j (unot 64 (Z.lxor (Z.lor (Z.lxor x y) (unot 64 (msbs k))) (guarded_sub k x y))) =
  (field (2 ^ k) j x - field (2 ^ k) j y) mod 2 ^ 2 ^ k.
Proof.
  intros Hk Hj Hj'. destruct (block_width k Hk) as (? & _ & Hn & Hpos). destruct (msbs_Ok (E:=E) k Hk) as (_ & _ & Hm).
  set (n := 2 ^ k) in *. set (fx := field n j x). set (fy := field n j y).
  assert (in_u n fx) as Hfx by (apply field_bound; lia). assert (in_u n fy) as Hfy by (apply field_bound; lia).
  pose proof (field_split k Hk fx Hfx) as Hsx. pose proof (field_split k Hk fy Hfy) as Hsy. fold n in Hsx, Hsy.
  pose proof (field_guarded_sub (E:=E) k Hk x y j ltac:(done)) as Hd. fold n fx fy in Hd.
  pose proof (Z.mod_pos_bound fx (2 ^ (n - 1)) ltac:(lia)). pose proof (Z.mod_pos_bound fy (2 ^ (n - 1)) ltac:(lia)).
  assert (in_u n ((fx - fy) mod 2 ^ n)) as Hv by (apply Z.mod_pos_bound; lia).
  apply field_ext; [lia|done|exact Hv|]. intros i Hi.
  rewrite unot_testbit, Z.lxor_spec, Z.lor_spec, Z.lxor_spec, unot_testbit, Hm by (try lia; nia).
  rewrite <-!(field_testbit n j) by lia. fold fx fy. rewrite Hd. destruct (Z.eqb_spec i (n - 1)) as [->|Hne]; cbn [negb].
  - pose proof (top_le k Hk (2 ^ (n - 1) + fx mod 2 ^ (n - 1) - fy mod 2 ^ (n - 1)) ltac:(fold n; unfold in_u; lia)) as Ht1.
    pose proof (top_le k Hk ((fx - fy) mod 2 ^ n) Hv) as Ht2. fold n in Ht1, Ht2. rewrite orb_false_r, Ht1, Ht2.
    assert ((fx - fy) mod 2 ^ n = fx - fy ∨ (fx - fy) mod 2 ^ n = fx - fy + 2 ^ n) as Hmod.
    { unfold in_u in *. destruct (Z.lt_ge_cases fx fy).
      - right. symmetry. apply Z.mod_unique with (-1); lia.
      - left. apply Z.mod_small. lia. }
    destruct (Z.leb_spec (2 ^ (n - 1)) (2 ^ (n - 1) + fx mod 2 ^ (n - 1) - fy mod 2 ^ (n - 1))), (Z.leb_spec (2 ^ (n - 1)) ((fx - fy) mod 2 ^ n)),
      (Z.testbit fx (n - 1)), (Z.testbit fy (n - 1)); cbn [Z.b2z xorb negb] in *; unfold in_u in *; done || lia.
  - rewrite orb_true_r. cbn [xorb].
    replace (negb _) with (Z.testbit (2 ^ (n - 1) + fx mod 2 ^ (n - 1) - fy mod 2 ^ (n - 1)) i) by (by destruct (Z.testbit _ i)).
    rewrite (Z.mod_pow2_bits_low (fx - fy)) by lia. rewrite <-(Z.mod_pow2_bits_low (2 ^ (n - 1) + _ - _) (n - 1)) by lia. rewrite <-(Z.mod_pow2_bits_low (fx - fy) (n - 1)) by lia. f_equal.
    replace (2 ^ (n - 1) + _ - _) with (fx mod 2 ^ (n - 1) - fy mod 2 ^ (n - 1) + 1 * 2 ^ (n - 1)) by lia.
    by rewrite Z.mod_add, <-Zminus_mod by lia.
Qed.

Lemma fields_geq_bit k x y j :
  0 ≤ k ≤ 6 → 0 ≤ j → 2 ^ k * (j + 1) ≤ 64 →
  let d := guarded_sub k x y in
  Z.testbit (Z.land (Z.lor x (Z.land (unot 64 y) d)) (Z.lor (unot 64 y) d)) (2 ^ k * j + (2 ^ k - 1)) =
  (field (2 ^ k) j y <=? field (2 ^ k) j x).
Proof.
  intros Hk Hj Hj' d. destruct (block_width k Hk) as (? & _ & Hn & Hpos). set (n := 2 ^ k) in *.
  set (fx := field n j x). set (fy := field n j y).
  assert (in_u n fx) as Hfx by (apply field_bound; lia). assert (in_u n fy) as Hfy by (apply field_bound; lia).
  pose proof (field_split k Hk fx Hfx) as Hsx. pose proof (field_split k Hk fy Hfy) as Hsy. fold n in Hsx, Hsy.
  pose proof (field_guarded_sub (E:=E) k Hk x y j ltac:(done)) as Hd. fold n fx fy d in Hd.
  pose proof (Z.mod_pos_bound fx (2 ^ (n - 1)) ltac:(lia)). pose proof (Z.mod_pos_bound fy (2 ^ (n - 1)) ltac:(lia)).
  rewrite Z.land_spec, !Z.lor_spec, Z.land_spec, unot_testbit by nia. rewrite <-!(field_testbit n j) by lia. fold fx fy.
  pose proof (top_le k Hk (field n j d) ltac:(apply field_bound; lia)) as Ht. fold n in Ht. rewrite Ht, Hd.
  destruct (Z.testbit fx (n - 1)), (Z.testbit fy (n - 1)); cbn [Z.b2z orb andb negb] in *; lia.
Qed.

(** Subtraction and comparison of packed integers, which take a constant
    number of word-wide operations, subtract and compare every field separately,
    modulo its width, without a borrow from one field to the next. *)
Lemma packed_arithmetic_correct k x y :
  0 ≤ k ≤ 6 → in_u 64 x → in_u 64 y →
  ∃ d g, bitmap_word_blocks_fields_sub (E:=E) x y k (lsbs_mask k) = Ok d ∧
    bitmap_word_blocks_fields_geq_lsbs (E:=E) x y k (lsbs_mask k) = Ok g ∧ in_u 64 d ∧ in_u 64 g ∧
    ∀ j, 0 ≤ j → 2 ^ k * (j + 1) ≤ 64 →
      field (2 ^ k) j d = (field (2 ^ k) j x - field (2 ^ k) j y) mod 2 ^ 2 ^ k ∧
      field (2 ^ k) j g = Z.b2z (field (2 ^ k) j y <=? field (2 ^ k) j x).
Proof.
  intros Hk Hx Hy. destruct (block_width k Hk) as (? & _ & Hn & Hpos). destruct (msbs_Ok (E:=E) k Hk) as (Hm & Hmu & _).
  destruct (guarded_sub_Ok (E:=E) k Hk x y Hx Hy) as [Hd Hdu]. pose proof (lsbs_mask_in_u k Hk).
  pose proof (unot_in_u 64 y ltac:(lia) Hy). pose proof (unot_in_u 64 (msbs k) ltac:(lia) Hmu).
  unfold bitmap_word_blocks_fields_sub, bitmap_word_blocks_fields_geq_lsbs. rewrite shl_one by lia. cbn [obind].
  rewrite usub_Ok by lia. cbn [obind]. rewrite Hm. cbn [obind]. rewrite Hd. ostep.
  set (nb := Z.land (Z.lor x _) _). assert (in_u 64 nb) as [Hnb _].
  { apply land_in_u; [lia| |apply Z.lor_nonneg; unfold in_u in *; lia]. apply lor_in_u; [lia|done|]. apply land_in_u; [lia|done|apply Hdu]. }
  eexists _, _. split; [done|]. split; [done|]. split; [|split].
  - apply unot_in_u; [lia|]. apply lxor_in_u; [lia| |done]. apply lor_in_u; [lia|by apply lxor_in_u|done].
  - rewrite Z.land_comm. apply land_in_u; [lia|done|by apply Z.shiftr_nonneg].
  - intros j Hj Hj'. split; [by apply fields_sub_bits|]. apply field_ext; [lia|done|destruct (_ <=? _); unfold in_u; cbn; lia|].
    intros i Hi. rewrite Z.land_spec, mask_bit, Z.shiftr_spec by nia. destruct (Z.eqb_spec i 0) as [->|Hi0].
    + rewrite andb_true_r. replace (2 ^ k * j + 0 + (2 ^ k - 1)) with (2 ^ k * j + (2 ^ k - 1)) by lia.
      unfold nb. rewrite fields_geq_bit by done. by destruct (_ <=? _).
    + rewrite andb_false_r. destruct (_ <=? _); cbn; [|by rewrite Z.bits_0]. symmetry. apply (testbit_high 1); [done|lia].
Qed.
End Theorems.

(** ** Runs of ones *)

(** [len] ones from [i] on. *)
Definition ones_from (x i len : Z) : Prop := ∀ q, i ≤ q < i + len → Z.testbit x q = true.

Section RunProofs.
Context {B : Build} {E : Type}.

Lemma find_str_loop_spec fuel : ∀ x len,
  in_u 64 x → 0 < len < 64 → len ≤ 2 ^ Z.of_nat fuel →
  ∃ y, find_str_loop (E:=E) fuel x len = Ok y ∧ in_u 64 y ∧
    ∀ p, 0 ≤ p < 64 → Z.testbit y p = true ↔ ones_from x (p - len + 1) len.
Proof.
  induction fuel as [|fuel IH]; intros x len Hx Hlen Hf; cbn [find_str_loop]; destruct (Z.ltb_spec 1 len) as [Hgt|Hle].
  - cbn in Hf. lia.
  - exists x. split_and!; [done..|]. intros p Hp. assert (len = 1) as -> by lia. split; [|intros H; apply H; lia].
    intros Hxp q Hq. by replace q with p by lia.
  - ostep. assert (Z.shiftr len 1 = len / 2) as -> by (by rewrite Z.shiftr_div_pow2).
    pose proof (Z.div_mod len 2 ltac:(lia)). pose proof (Z.mod_pos_bound len 2 ltac:(lia)). set (s := len / 2) in *. ostep.
    rewrite Nat2Z.inj_succ, Z.pow_succ_r in Hf by lia.
    assert (in_u 64 (wrap 64 (Z.shiftl x s))) as Hsh by (apply wrap_in_u; lia).
    assert (in_u 64 (Z.land x (wrap 64 (Z.shiftl x s)))) as Hx' by (apply land_in_u; [lia|done|apply Hsh]).
    destruct (IH (Z.land x (wrap 64 (Z.shiftl x s))) (len - s) Hx' ltac:(lia) ltac:(lia)) as (y & -> & Hy & Hbits). exists y. split_and!; [done..|].
    assert (∀ q, 0 ≤ q < 64 → Z.testbit (Z.land x (wrap 64 (Z.shiftl x s))) q = Z.testbit x q && Z.testbit x (q - s)) as Hstep.
    { intros q Hq. rewrite Z.land_spec. f_equal. unfold wrap. by rewrite Z.mod_pow2_bits_low, Z.shiftl_spec by lia. }
    intros p Hp. rewrite Hbits by done. split; intros Hones q Hq.
    + assert (∀ q, p - (len - s) + 1 ≤ q ≤ p → Z.testbit x q = true ∧ Z.testbit x (q - s) = true) as Hboth.
      { intros q' Hq'. specialize (Hones q' ltac:(lia)). destruct (Z.lt_ge_cases q' 0); [by rewrite Z.testbit_neg_r in Hones|].
        rewrite Hstep, andb_true_iff in Hones by lia. done. }
      destruct (Z.lt_ge_cases q (p - (len - s) + 1)); [|apply Hboth; lia]. replace q with (q + s - s) by lia. apply Hboth. lia.
    + pose proof (Hones q ltac:(lia)) as H1. destruct (Z.lt_ge_cases q 0); [by rewrite Z.testbit_neg_r in H1|].
      rewrite Hstep, andb_true_iff by lia. split; [done|apply Hones; lia].
  - exists x. split_and!; [done..|]. intros p Hp. assert (len = 1) as -> by lia. split; [|intros H; apply H; lia].
    intros Hxp q Hq. by replace q with p by lia.
Qed.

(** The last position of an aligned run. *)
Lemma anchors_testbit a p :
  0 ≤ a ≤ 5 → 0 ≤ p < 64 → Z.testbit (wrap 64 (Z.shiftl (lsbs_mask a) (2 ^ a - 1))) p = ((p + 1) mod 2 ^ a =? 0).
Proof.
  intros Ha Hp. pose proof (pow2_pos a ltac:(lia)). assert (2 ^ a ≤ 32) by (apply (Z.pow_le_mono_r 2 a 5); lia).
  unfold wrap. rewrite Z.mod_pow2_bits_low, Z.shiftl_spec by lia. destruct (Z.lt_ge_cases p (2 ^ a - 1)).
  - rewrite Z.testbit_neg_r, Z.mod_small by lia. lia.
  - rewrite lsbs_mask_testbit by lia. f_equal. replace (p + 1) with (p - (2 ^ a - 1) + 1 * 2 ^ a) by lia. by rewrite Z.mod_add by lia.
Qed.

Lemma ones_from_word x i len : in_u 64 x → 0 < len → ones_from x i len → 0 ≤ i ∧ i + len ≤ 64.
Proof.
  intros Hx Hlen Hones. split.
  - destruct (Z.lt_ge_cases i 0); [|done]. specialize (Hones i ltac:(lia)). by rewrite Z.testbit_neg_r in Hones.
  - destruct (Z.lt_ge_cases 64 (i + len)); [|done]. specialize (Hones (i + len - 1) ltac:(lia)).
    by rewrite (testbit_high 64) in Hones by (done || lia).
Qed.

(** The search for a string of ones, which halves the length in every round,
    returns the first aligned position where the string of the given length
    occurs, and nothing exactly if it occurs at none. *)
Lemma find_str_correct x len a :
  in_u 64 x → 0 ≤ a ≤ 5 → 0 < len < 64 → (2 ^ a | len) →
  ∃ r, bitmap_word_find_str_with_min_len (E:=E) x len a (lsbs_mask a) = Ok r ∧
    match r with
    | Some pos => (2 ^ a | pos) ∧ ones_from x pos len ∧ ∀ i, (2 ^ a | i) → ones_from x i len → pos ≤ i
    | None => ∀ i, (2 ^ a | i) → ¬ ones_from x i len
    end.
Proof.
  intros Hx Ha Hlen Hdiv. pose proof (pow2_pos a ltac:(lia)). assert (2 ^ a ≤ 32) by (apply (Z.pow_le_mono_r 2 a 5); lia).
  unfold bitmap_word_find_str_with_min_len, BITMAP_WORD_BITS_LOG2. zdec. ostep.
  rewrite debug_check_true by (rewrite is_aligned_pow2_u_spec by (unfold in_u; lia); f_equal; by apply Z.eqb_eq, Z.mod_divide; [lia|]).
  ostep. zdec. ostep. destruct (find_str_loop_spec 6 x len Hx Hlen ltac:(cbn; lia)) as (y & -> & Hy & Hbits). cbn [obind].
  rewrite Z.shiftl_1_l, (wrap_small 32 (2 ^ a)) by (unfold in_u; lia). ostep. set (z := Z.land y _).
  assert (in_u 64 z) as Hz by (apply land_in_u; [lia|done|]; apply wrap_in_u; lia).
  assert (∀ p, 0 ≤ p < 64 → Z.testbit z p = true ↔ ones_from x (p - len + 1) len ∧ (2 ^ a | p - len + 1)) as Hzbits.
  { intros p Hp. unfold z. rewrite Z.land_spec, andb_true_iff, Hbits, anchors_testbit, Z.eqb_eq, Z.mod_divide by lia.
    split; (intros [H1 H2]; split; [done|]).
    - replace (p - len + 1) with (p + 1 - len) by lia. by apply Z.divide_sub_r.
    - replace (p + 1) with (p - len + 1 + len) by lia. by apply Z.divide_add_r. }
  assert (∀ i, (2 ^ a | i) → ones_from x i len → 0 ≤ i + len - 1 < 64 ∧ Z.testbit z (i + len - 1) = true) as Hall.
  { intros i Hi Hones. destruct (ones_from_word x i len Hx ltac:(lia) Hones). split; [lia|]. apply Hzbits; [lia|].
    by replace (i + len - 1 - len + 1) with i by lia. }
  destruct (Z.eqb_spec z 0) as [Hz0|Hz0]; cbn [negb].
  - exists None. split; [done|]. intros i Hi Hones. destruct (Hall i Hi Hones) as [_ Ht]. by rewrite Hz0, Z.bits_0 in Ht.
  - destruct (trailing_zeros_spec z Hz Hz0) as (Hp & Hzp & Hmin). apply Hzbits in Hzp as [Hones Hd]; [|done].
    destruct (ones_from_word x _ len Hx ltac:(lia) Hones). ostep. eexists. split; [done|].
    replace (trailing_zeros z - (len - 1)) with (trailing_zeros z - len + 1) by lia. split_and!; [done..|].
    intros i Hi Hio. destruct (Hall i Hi Hio) as [Hr Ht]. destruct (Z.lt_ge_cases (i + len - 1) (trailing_zeros z)); [|lia].
    rewrite Hmin in Ht by lia. done.
Qed.
End RunProofs.

Section ChoiceTheorems.
Context {B : Build} {E : Type}.

(** The word-wide computation of the free blocks, an addition whose carries
    stay within the blocks, agrees with the definition: it sets the bit at the
    start of every aligned block of the given size that has no bit set in the
    word, and no other bit. *)
Lemma free_blocks_lsbs_correct k w :
  0 ≤ k ≤ 6 → in_u 64 w →
  ∃ f, bitmap_word_free_blocks_lsbs (E:=E) w k (lsbs_mask k) = Ok f ∧ in_u 64 f ∧
    ∀ i, 0 ≤ i < 64 → Z.testbit f i = true ↔ (2 ^ k | i) ∧ ∀ p, i ≤ p < i + 2 ^ k → Z.testbit w p = false.
Proof.
  intros Hk Hw. destruct (bitmap_word_free_blocks_lsbs_Ok (E:=E) k w Hk Hw) as (f & Heq & Hf & Hbits). exists f. split_and!; [done..|].
  intros i Hi. rewrite Hbits by done. apply block_free_spec; lia.
Qed.

(** In a word that is not all free, choosing a block to allocate is a best
    fit: the size found is that of a free aligned block with an allocated buddy
    (or half the word) such that all smaller free blocks are parts of larger free
    ones, and among the free blocks of that size one with an allocated buddy is
    selected, at an aligned position. *)
Lemma block_choice_correct k w :
  0 ≤ k ≤ 5 → in_u 64 w → w ≠ 0 → (∃ i, 0 ≤ i < 64 ∧ block_free k w i = true) →
  ∃ f s g p, bitmap_word_free_blocks_lsbs (E:=E) w k (lsbs_mask k) = Ok f ∧
    bitmap_word_block_alloc_split_block_size_log2 (E:=E) f None k (lsbs_mask k) lsbs_table = Ok s ∧
    bitmap_word_free_blocks_lsbs (E:=E) w s (lsbs_mask s) = Ok g ∧
    bitmap_word_block_alloc_select_block (E:=E) g s (lsbs_mask s) lsbs_table = Ok p ∧
    k ≤ s ≤ 5 ∧ (∀ t, k ≤ t < s → all_paired t w) ∧ 0 ≤ p < 64 ∧ block_free s w p = true ∧
    (s < 5 → block_free s w (buddy s p) = false) ∧ block_free k w p = true.
Proof.
  intros Hk Hw Hwz (i & Hi & Hfree). destruct (bitmap_word_free_blocks_lsbs_Ok (E:=E) k w ltac:(lia) Hw) as (f & Hf & Hfl).
  assert (f ≠ 0) as Hfz by (intros ->; destruct Hfl as [_ Hb]; specialize (Hb i Hi); by rewrite Z.bits_0, Hfree in Hb).
  destruct (bitmap_word_block_alloc_split_block_size_log2_Ok (E:=E) k w f None Hk Hw Hwz Hfl Hfz) as (s & Hs & Hks & _ & Hall & q & Hq & Hqf & Hqb); [done|].
  destruct (bitmap_word_free_blocks_lsbs_Ok (E:=E) s w ltac:(lia) Hw) as (g & Hg & Hgl). pose proof Hgl as [Hgu Hgb].
  assert (g ≠ 0) as Hgz by (intros ->; specialize (Hgb q Hq); by rewrite Z.bits_0, Hqf in Hgb).
  assert (∀ i, 0 ≤ i < 64 → block_free s w i = true → 0 ≤ buddy s i < 64) as Hbuddy.
  { intros i' Hi' Hf'. unfold block_free in Hf'. apply andb_true_iff in Hf' as [Hm%Z.eqb_eq _]. apply buddy_spec; [lia|done..]. }
  destruct (bitmap_word_block_alloc_select_block_Ok (E:=E) s g) as (p & Hp & Hpr & Hpg & Hpb);
    [lia|done|by eapply free_lsbs_aligned|done|intros _; apply (not_all_free s w); [lia|done..]| |].
  { intros Hs5. exists q. rewrite !Hgb by auto. split_and!; [lia..|done|]. by apply Hqb. }
  rewrite Hgb in Hpg by done. exists f, s, g, p. split_and!; [done..|lia|lia|done|lia|lia|done| |].
  - intros Hs5. rewrite <-Hgb by auto. by apply Hpb.
  - apply (block_free_sub k s); [lia..|done].
Qed.

(** A selection mask has all the bits of the selected blocks set, and none of
    the others. *)
Lemma select_mask_correct k sel :
  0 ≤ k ≤ 6 → in_u 64 sel → aligned_bits k sel →
  ∃ v, bitmap_word_blocks_select_mask (E:=E) k sel = Ok v ∧ in_u 64 v ∧
    ∀ i, 0 ≤ i < 64 → Z.testbit v i = Z.testbit sel (i / 2 ^ k * 2 ^ k).
Proof.
  intros Hk Hsel Ha. destruct (block_width k Hk) as (? & H64 & Hn & Hpos). pose proof (pow2_pos (6 - k) ltac:(lia)). set (n := 2 ^ k) in *.
  assert (∀ j r, 0 ≤ j → n * (j + 1) ≤ 64 → 0 ≤ r < n → Z.testbit sel (n * j + r) = (r =? 0) && Z.testbit sel (n * j)) as Hsbit.
  { intros j r Hj Hj' Hr. destruct (Z.eqb_spec r 0) as [->|Hr0]; [by rewrite Z.add_0_r|]. cbn [andb]. apply not_true_iff_false. intros Ht.
    apply Ha in Ht; [|nia]. fold n in Ht. rewrite Z.mul_comm, Z.add_comm, Z.mod_add, Z.mod_small in Ht by lia. done. }
  assert (in_u 64 (Z.shiftl sel (n - 1))) as Hmu.
  { apply in_u_bits; [lia|]. intros i Hi. rewrite Z.shiftl_spec by lia. destruct (Z.lt_ge_cases (i - (n - 1)) 64); [|by apply (testbit_high 64)].
    destruct (block_position k (i - (n - 1))) as (Hq0 & Hpos' & Hq1 & Hq2); [done|lia|]. fold n in Hq0, Hpos', Hq1, Hq2. rewrite Hpos', Hsbit by lia.
    replace ((i - (n - 1)) mod n =? 0) with false by nia. done. }
  assert (∀ j, 0 ≤ j → n * (j + 1) ≤ 64 → field n j sel = Z.b2z (Z.testbit sel (n * j)) ∧
    field n j (Z.shiftl sel (n - 1)) = Z.b2z (Z.testbit sel (n * j)) * 2 ^ (n - 1)) as Hfields.
  { intros j Hj Hj'. split; (apply field_ext; [lia|done|destruct (Z.testbit sel (n * j)); unfold in_u; cbn [Z.b2z]; lia|]); intros i Hi.
    - rewrite Hsbit by lia. destruct (Z.testbit sel (n * j)); cbn [Z.b2z]; [|by rewrite andb_false_r, Z.bits_0]. rewrite andb_true_r.
      destruct (Z.eqb_spec i 0) as [->|]; [done|]. symmetry. apply (testbit_high 1); [done|lia].
    - rewrite Z.shiftl_spec by nia. rewrite Z.mul_pow2_bits by lia. destruct (Z.eq_dec i (n - 1)) as [->|Hne].
      + replace (n * j + (n - 1) - (n - 1)) with (n * j) by lia. rewrite Z.sub_diag. by destruct (Z.testbit sel (n * j)).
      + rewrite (Z.testbit_neg_r _ (i - (n - 1))) by lia. destruct (Z.lt_ge_cases (n * j + i - (n - 1)) 0); [by apply Z.testbit_neg_r|].
        replace (n * j + i - (n - 1)) with (n * (j - 1) + (i + 1)) by lia. rewrite Hsbit by nia. by replace (i + 1 =? 0) with false by lia. }
  assert (sel ≤ Z.shiftl sel (n - 1)) as Hle.
  { rewrite Z.shiftl_mul_pow2 by lia. destruct Hsel. nia. }
  unfold bitmap_word_blocks_select_mask. rewrite shl_one by lia. fold n. ostep. rewrite (wrap_small 64) by done. ostep.
  eexists. split; [done|]. split; [apply lor_in_u; [lia|unfold in_u in *; lia|done]|].
  intros i Hi. destruct (block_position k i Hk Hi) as (Hj & Hij & Hr & Hj'). fold n in Hj, Hij, Hr, Hj'. fold n. set (j := i / n) in *. set (r := i mod n) in *.
  rewrite (Z.mul_comm j n), Hij, Z.lor_spec, <-!(field_testbit n j) by lia.
  rewrite field_sub; [|lia|done|].
  - destruct (Hfields j Hj Hj') as [-> ->]. destruct (Z.testbit sel (n * j)); cbn [Z.b2z]; [|by rewrite Z.mul_0_l, Z.sub_diag, Zmod_0_l, Z.bits_0].
    rewrite Z.mul_1_l, Z.mod_small by lia. rewrite Z.sub_1_r, <-Z.ones_equiv, Z.testbit_ones_nonneg, Z.pow2_bits_eqb by lia.
    destruct (Z.ltb_spec r (n - 1)); [done|]. cbn [orb]. lia.
  - intros j' Hj2. destruct (Hfields j' ltac:(lia) ltac:(nia)) as [-> ->]. destruct (Z.testbit sel (n * j')); cbn [Z.b2z]; lia.
Qed.
End ChoiceTheorems.

(** *** Instances *)

Lemma free_blocks_lsbs_correct_witness :
  ∃ f, bitmap_word_free_blocks_lsbs (B:=debug_build) (E:=unit) 0xf0f001ff00000010 2 (lsbs_mask 2) = Ok f ∧ in_u 64 f ∧
    ∀ i, 0 ≤ i < 64 → Z.testbit f i = true ↔ (2 ^ 2 | i) ∧ ∀ p, i ≤ p < i + 2 ^ 2 → Z.testbit 0xf0f001ff00000010 p = false.
Proof. apply (@free_blocks_lsbs_correct debug_build unit 2 0xf0f001ff00000010); unfold in_u; lia. Defined.

Lemma block_choice_correct_witness :
  ∃ f s g p, bitmap_word_free_blocks_lsbs (B:=debug_build) (E:=unit) 0xff00ff0f 2 (lsbs_mask 2) = Ok f ∧
    bitmap_word_block_alloc_split_block_size_log2 (B:=debug_build) (E:=unit) f None 2 (lsbs_mask 2) lsbs_table = Ok s ∧
    bitmap_word_free_blocks_lsbs (B:=debug_build) (E:=unit) 0xff00ff0f s (lsbs_mask s) = Ok g ∧
    bitmap_word_block_alloc_select_block (B:=debug_build) (E:=unit) g s (lsbs_mask s) lsbs_table = Ok p ∧
    2 ≤ s ≤ 5 ∧ (∀ t, 2 ≤ t < s → all_paired t 0xff00ff0f) ∧ 0 ≤ p < 64 ∧ block_free s 0xff00ff0f p = true ∧
    (s < 5 → block_free s 0xff00ff0f (buddy s p) = false) ∧ block_free 2 0xff00ff0f p = true.
Proof.
  apply (@block_choice_correct debug_build unit 2 0xff00ff0f); [lia|unfold in_u; lia|done|]. exists 4. split; [lia|by vm_compute].
Defined.

Lemma select_mask_correct_witness :
  ∃ v, bitmap_word_blocks_select_mask (B:=debug_build) (E:=unit) 3 0x100010001 = Ok v ∧ in_u 64 v ∧
    ∀ i, 0 ≤ i < 64 → Z.testbit v i = Z.testbit 0x100010001 (i / 2 ^ 3 * 2 ^ 3).
Proof.
  apply (@select_mask_correct debug_build unit 3 0x100010001); [lia|unfold in_u; lia|].
  intros i Hi. assert (i ∈ seqZ 0 64) as Hin by (apply elem_of_seqZ; lia). clear Hi. revert i Hin.
  apply (Forall_forall (λ i, Z.testbit 0x100010001 i = true → i mod 2 ^ 3 = 0)). repeat constructor; vm_compute; congruence.
Defined.

Lemma find_str_correct_witness :
  ∃ r, bitmap_word_find_str_with_min_len (B:=debug_build) (E:=unit) 0xff0ff6 6 1 (lsbs_mask 1) = Ok r ∧
    match r with
    | Some pos => (2 ^ 1 | pos) ∧ ones_from 0xff0ff6 pos 6 ∧ ∀ i, (2 ^ 1 | i) → ones_from 0xff0ff6 i 6 → pos ≤ i
    | None => ∀ i, (2 ^ 1 | i) → ¬ ones_from 0xff0ff6 i 6
    end.
Proof. apply (@find_str_correct debug_build unit 0xff0ff6 6 1); [unfold in_u; lia|lia..|by apply Z.mod_divide]. Defined.

Lemma packed_arithmetic_correct_witness :
  ∃ d g, bitmap_word_blocks_fields_sub (B:=debug_build) (E:=unit) 0x0102ff00 0x02010001 3 (lsbs_mask 3) = Ok d ∧
    bitmap_word_blocks_fields_geq_lsbs (B:=debug_build) (E:=unit) 0x0102ff00 0x02010001 3 (lsbs_mask 3) = Ok g ∧ in_u 64 d ∧ in_u 64 g ∧
    ∀ j, 0 ≤ j → 2 ^ 3 * (j + 1) ≤ 64 →
      field (2 ^ 3) j d = (field (2 ^ 3) j 0x0102ff00 - field (2 ^ 3) j 0x02010001) mod 2 ^ 2 ^ 3 ∧
      field (2 ^ 3) j g = Z.b2z (field (2 ^ 3) j 0x02010001 <=? field (2 ^ 3) j 0x0102ff00).
Proof. apply (@packed_arithmetic_correct debug_build unit 3 0x0102ff00 0x02010001); unfold in_u; lia. Defined.

End BitmapSearch.
