(* ===== verification/AllocBitmap.v ===== *)
(** * The allocation bitmap and its views (storage/src/fs/cocoonfs/alloc_bitmap/bitmap.rs, sparse_bitmap.rs)

    The bitmap of the whole image, the iterators over it and over sparse bitmaps,
    the union of sparse bitmaps that pending allocations and frees are read
    through, and the operations of sparse bitmaps that consult the bitmap. *)

From S2P Require Import Prelude BitManip Errors Layout ImageLayout BitmapWord SparseBitmap.
Import BitManip Errors Layout BitmapWord SparseBitmap.

Module AllocBitmap.

Abbreviation res := (outcome NvFsError).

(** [AllocBitmap] has the vector of words as its only field. *)
Record AllocBitmap := mk_bitmap { bitmap : list Z }.

(** ** Iterators over a sparse bitmap

    An iterator is the position of the next entry; the bitmap it borrows is an
    argument of its operations. *)

Section SparseIter.
Context {B : Build}.
Implicit Types self : SparseAllocBitmap.

Definition sparse_iter_skip_to self (next_sparse_entry_index : nat) (physical_allocation_block_index : Z) : res nat :=
  let! bitmap_word_index0 := ushr 64 physical_allocation_block_index BITMAP_WORD_BITS_LOG2 in
  let! _ := debug_check
    (if (next_sparse_entry_index =? 0)%nat then Ok true
     else let! e := idx (entries self) (next_sparse_entry_index - 1) in Ok (bitmap_word_index e <? bitmap_word_index0)) in
  if (next_sparse_entry_index =? length (entries self))%nat then Ok next_sparse_entry_index
  else
    let! e := idx (entries self) next_sparse_entry_index in
    if bitmap_word_index0 <=? bitmap_word_index e then Ok next_sparse_entry_index
    else
      let! rest := slice_from (entries self) next_sparse_entry_index in
      Ok (next_sparse_entry_index +
          match binary_search_by (λ e, (bitmap_word_index e ?= bitmap_word_index0)%Z) rest with
          | inl offset => offset
          | inr offset => offset
          end)%nat.
Definition sparse_iter_new : nat := 0.
Definition sparse_iter_new_at self (physical_allocation_block_index : Z) : res nat :=
  sparse_iter_skip_to self 0 physical_allocation_block_index.
Definition sparse_iter_next self (next_sparse_entry_index : nat) : res (option (Z * Z) * nat) :=
  if negb (next_sparse_entry_index =? length (entries self))%nat then
    let! entry := idx (entries self) next_sparse_entry_index in
    let! b := ushl 64 (bitmap_word_index entry) BITMAP_WORD_BITS_LOG2 in
    Ok (Some (b, bitmap_word entry), (next_sparse_entry_index + 1)%nat)
  else Ok (None, next_sparse_entry_index).

(** *** [SparseAllocBitmapBlockIterator] *)

Record BlockIter := mk_block_iter {
  sparse_bitmap_iter : nat;
  cur_sparse_bitmap_word : option (Z * Z);
  next_pos_in_cur_sparse_bitmap_word : Z;
  block_allocation_blocks_log2 : Z;
}.

Definition block_iter_new self (log2 : Z) : res BlockIter :=
  let! _ := debug_assert (log2 <=? BITMAP_WORD_BITS_LOG2) in
  let it := sparse_iter_new in
  let! '(cur, it) := sparse_iter_next self it in
  Ok (mk_block_iter it cur 0 log2).

(** Whether a word and a block are at the same word position. *)
Definition same_word (a b : Z) : res bool :=
  let! d := ushr 64 (Z.lxor a b) BITMAP_WORD_BITS_LOG2 in Ok (d =? 0).

Definition block_iter_new_at self (block_allocation_blocks_begin log2 : Z) : res BlockIter :=
  let! _ := debug_assert (log2 <=? BITMAP_WORD_BITS_LOG2) in
  let! _ := debug_check (is_aligned_pow2_u 64 block_allocation_blocks_begin log2) in
  let! it := sparse_iter_new_at self block_allocation_blocks_begin in
  let! '(cur, it) := sparse_iter_next self it in
  let! same := match cur with Some (w, _) => same_word w block_allocation_blocks_begin | None => Ok false end in
  let! mask := trailing_bits_mask_u 64 BITMAP_WORD_BITS_LOG2 in
  let pos := if (same : bool) then Z.land block_allocation_blocks_begin mask else 0 in
  Ok (mk_block_iter it cur pos log2).

Definition block_iter_skip_to self (it : BlockIter) (block_allocation_blocks_begin : Z) : res BlockIter :=
  let! _ := debug_check (is_aligned_pow2_u 64 block_allocation_blocks_begin (block_allocation_blocks_log2 it)) in
  match cur_sparse_bitmap_word it with
  | None => Ok it
  | Some (w, _) =>
      let! _ := debug_assert (w <=? block_allocation_blocks_begin) in
      let! mask := trailing_bits_mask_u 64 BITMAP_WORD_BITS_LOG2 in
      let pos := Z.land block_allocation_blocks_begin mask in
      let! same := same_word block_allocation_blocks_begin w in
      if (same : bool) then
        Ok (mk_block_iter (sparse_bitmap_iter it) (cur_sparse_bitmap_word it) pos (block_allocation_blocks_log2 it))
      else
        let! sit := sparse_iter_skip_to self (sparse_bitmap_iter it) block_allocation_blocks_begin in
        let! '(cur, sit) := sparse_iter_next self sit in
        let! same := match cur with Some (w, _) => same_word w block_allocation_blocks_begin | None => Ok false end in
        Ok (mk_block_iter sit cur (if (same : bool) then pos else 0) (block_allocation_blocks_log2 it))
  end.

(** [next] skips blocks without a bit set; a word has at most 64 blocks. *)
Fixpoint block_iter_next (fuel : nat) self (it : BlockIter) : res (option (Z * Z) * BlockIter) :=
  match cur_sparse_bitmap_word it with
  | None => Ok (None, it)
  | Some (w, word) =>
      match fuel with
      | O => Diverge
      | S fuel =>
          let! block_allocation_blocks := ushl 32 1 (block_allocation_blocks_log2 it) in
          let! cur_begin := physical_add w (next_pos_in_cur_sparse_bitmap_word it) in
          let! t := ushr 64 word (next_pos_in_cur_sparse_bitmap_word it) in
          let! mask := trailing_bits_mask_u 64 block_allocation_blocks in
          let cur_bitmap := Z.land t mask in
          let! pos := uadd 32 (next_pos_in_cur_sparse_bitmap_word it) block_allocation_blocks in
          let! it :=
            (if BITMAP_WORD_BITS <=? pos then
               let! _ := debug_assert (pos =? BITMAP_WORD_BITS) in
               let! '(cur, sit) := sparse_iter_next self (sparse_bitmap_iter it) in
               Ok (mk_block_iter sit cur 0 (block_allocation_blocks_log2 it))
             else Ok (mk_block_iter (sparse_bitmap_iter it) (cur_sparse_bitmap_word it) pos (block_allocation_blocks_log2 it))) in
          if cur_bitmap =? 0 then block_iter_next fuel self it
          else Ok (Some (cur_begin, cur_bitmap), it)
      end
  end.
End SparseIter.

(** ** Unions of sparse bitmaps

    [SparseAllocBitmapUnion] is the list of its bitmaps; the iterator over it has
    a position for each of them. *)

Section Union.
Context {B : Build}.
Implicit Types (bitmaps : list SparseAllocBitmap) (indices : list (option nat)).

Definition union_iter bitmaps : list (option nat) := (λ sb, if is_empty sb then None else Some 0%nat) <$> bitmaps.

Definition position_at (bitmap_word_index_begin : Z) (sb : SparseAllocBitmap) : option nat :=
  match find_entry_position sb bitmap_word_index_begin with
  | inl next_sparse_index => Some next_sparse_index
  | inr next_sparse_index =>
      if negb (next_sparse_index =? length (entries sb))%nat then Some next_sparse_index else None
  end.
Definition union_iter_at_bitmap_word_index bitmaps (bitmap_word_index_begin : Z) : list (option nat) :=
  position_at bitmap_word_index_begin <$> bitmaps.

Definition union_goto_one (sb : SparseAllocBitmap) (index : option nat) (bitmap_word_index0 : Z) : res (option nat) :=
  match index with
  | Some next_sparse_index =>
      let! e := idx (entries sb) next_sparse_index in
      if bitmap_word_index e =? bitmap_word_index0 then Ok (Some next_sparse_index)
      else
        let! next := uadd 64 (bitmap_word_index e) 1 in
        if next =? bitmap_word_index0 then
          Ok (if negb (next_sparse_index + 1 =? length (entries sb))%nat then Some (next_sparse_index + 1)%nat else None)
        else Ok (position_at bitmap_word_index0 sb)
  | None => Ok (position_at bitmap_word_index0 sb)
  end.
(** The loop over the positions; [bitmaps[i]] for a position without a bitmap
    panics. *)
Fixpoint union_goto_bitmap_word_index bitmaps indices (bitmap_word_index0 : Z) : res (list (option nat)) :=
  match indices, bitmaps with
  | [], _ => Ok []
  | _ :: _, [] => Panic
  | index :: indices, sb :: bitmaps =>
      let! index := union_goto_one sb index bitmap_word_index0 in
      let! indices := union_goto_bitmap_word_index bitmaps indices bitmap_word_index0 in
      Ok (index :: indices)
  end.

(** The entry at a position of the [j]-th bitmap. *)
Definition entry_of bitmaps (j next_sparse_index : nat) : res SparseAllocBitmapEntry :=
  let! sb := idx bitmaps j in idx (entries sb) next_sparse_index.

(** [find_map]: the first bitmap that has an entry left. *)
Fixpoint union_find indices (i : nat) : option (nat * nat) :=
  match indices with
  | [] => None
  | Some n :: _ => Some (i, n)
  | None :: indices => union_find indices (S i)
  end.
(** The loop over [j in i + 1..N]; [indices] are those from [j] on. *)
Fixpoint union_min bitmaps indices (j i : nat) (next_bitmap_word_index word : Z) : res (nat * Z * Z) :=
  match indices with
  | [] => Ok (i, next_bitmap_word_index, word)
  | None :: indices => union_min bitmaps indices (S j) i next_bitmap_word_index word
  | Some n :: indices =>
      let! e := entry_of bitmaps j n in
      match (bitmap_word_index e ?= next_bitmap_word_index)%Z with
      | Lt => union_min bitmaps indices (S j) j (bitmap_word_index e) (bitmap_word e)
      | Eq => union_min bitmaps indices (S j) i next_bitmap_word_index (Z.lor word (bitmap_word e))
      | Gt => union_min bitmaps indices (S j) i next_bitmap_word_index word
      end
  end.
(** The loop over [j in i..N]. *)
Fixpoint union_advance bitmaps indices (j : nat) (next_bitmap_word_index : Z) : res (list (option nat)) :=
  match indices with
  | [] => Ok []
  | None :: indices =>
      let! indices := union_advance bitmaps indices (S j) next_bitmap_word_index in Ok (None :: indices)
  | Some n :: indices =>
      let! sb := idx bitmaps j in
      let! e := idx (entries sb) n in
      let index :=
        if bitmap_word_index e =? next_bitmap_word_index
        then (if negb (n + 1 =? length (entries sb))%nat then Some (n + 1)%nat else None)
        else Some n in
      let! indices := union_advance bitmaps indices (S j) next_bitmap_word_index in Ok (index :: indices)
  end.
Definition union_next bitmaps indices : res (option (Z * Z) * list (option nat)) :=
  match union_find indices 0 with
  | None => Ok (None, indices)
  | Some (i, next_sparse_index) =>
      let! e := entry_of bitmaps i next_sparse_index in
      let! '(i, next_bitmap_word_index, word) :=
        union_min bitmaps (drop (S i) indices) (S i) i (bitmap_word_index e) (bitmap_word e) in
      let! advanced := union_advance bitmaps (drop i indices) i next_bitmap_word_index in
      Ok (Some (next_bitmap_word_index, word), take i indices ++ advanced)
  end.
End Union.

(** ** The allocation bitmap *)

Section Bitmap.
Context {B : Build} {Alloc : Allocator} {P : ImageLayout.Platform}.
Implicit Types self : AllocBitmap.

(** [usize::try_from]. *)
Definition usize_try_from {A} (x : Z) (e : res A) (k : nat → res A) : res A :=
  if x <? 2 ^ usize_bits then k (Z.to_nat x) else e.

Definition new (image_allocation_blocks : Z) : res AllocBitmap :=
  if image_allocation_blocks =? 0 then Ok (mk_bitmap [])
  else
    let! t := usub 64 image_allocation_blocks 1 in
    let! t := ushr 64 t BITMAP_WORD_BITS_LOG2 in
    let! bitmap_words := uadd 64 t 1 in
    usize_try_from bitmap_words (Err DimensionsNotSupported) (λ bitmap_words,
      let! _ := try_reserve 0 bitmap_words in
      Ok (mk_bitmap (replicate bitmap_words 0))).

Definition resize self (image_allocation_blocks : Z) : res AllocBitmap :=
  if image_allocation_blocks =? 0 then Ok (mk_bitmap [])
  else
    let! t := usub 64 image_allocation_blocks 1 in
    let! t := ushr 64 t BITMAP_WORD_BITS_LOG2 in
    let! bitmap_words := uadd 64 t 1 in
    usize_try_from bitmap_words (Err DimensionsNotSupported) (λ bitmap_words,
      if (bitmap_words <? length (bitmap self))%nat then
        let words := take bitmap_words (bitmap self) in
        let! mask := trailing_bits_mask_u 64 BITMAP_WORD_BITS_LOG2 in
        let! bits_in_last_bitmap_word := usub 32 64 (Z.land (wrapping_neg 64 image_allocation_blocks) mask) in
        let! mask := trailing_bits_mask_u 64 bits_in_last_bitmap_word in
        let! i := nsub bitmap_words 1 in
        let! word := idx words i in
        let! words := set_idx words i (Z.land word mask) in
        Ok (mk_bitmap words)
      else
        let! additional := nsub bitmap_words (length (bitmap self)) in
        let! _ := try_reserve (length (bitmap self)) additional in
        Ok (mk_bitmap (bitmap self ++ replicate additional 0))).

(** The loops over [pending.iter()]. *)
Fixpoint apply_pending_loop (fuel : nat) (words : list Z) (pending : SparseAllocBitmap) (it : nat) (is_free : bool)
    : res (list Z) :=
  let! '(next, it) := sparse_iter_next pending it in
  match next with
  | None => Ok words
  | Some (allocation_blocks_begin, word) =>
      match fuel with
      | O => Diverge
      | S fuel =>
          let! t := ushr 64 allocation_blocks_begin BITMAP_WORD_BITS_LOG2 in
          usize_try_from t err_internal (λ i,
            let! old := idx words i in
            let! words := set_idx words i (if is_free then Z.land old (unot 64 word) else Z.lor old word) in
            apply_pending_loop fuel words pending it is_free)
      end
  end.
Definition apply_pending self (pending : SparseAllocBitmap) (is_free : bool) : res AllocBitmap :=
  let! words := apply_pending_loop (length (entries pending)) (bitmap self) pending sparse_iter_new is_free in
  Ok (mk_bitmap words).

(** The loop of [set_in_range], over [n] words from the [i]-th on. *)
Fixpoint bitmap_set_loop (n i : nat) (words : list Z) (set_mask physical_allocation_block_count offset_in_bitmap_word : Z)
    : res (list Z) :=
  match n with
  | O => Ok words
  | S n =>
      let! t := usub 32 BITMAP_WORD_BITS offset_in_bitmap_word in
      let bits_in_word := Z.min physical_allocation_block_count t in
      let! mask := trailing_bits_mask_u 64 bits_in_word in
      let! bits_in_word_mask := ushl 64 mask offset_in_bitmap_word in
      let! word := idx words i in
      let word := Z.lor (Z.land word (unot 64 bits_in_word_mask)) (Z.land set_mask bits_in_word_mask) in
      let! words := set_idx words i word in
      let! physical_allocation_block_count := usub 64 physical_allocation_block_count bits_in_word in
      bitmap_set_loop n (S i) words set_mask physical_allocation_block_count 0
  end.
Definition set_in_range self (range : BlockRange) (value : bool) : res AllocBitmap :=
  let! physical_allocation_block_count := block_count range in
  let first := rng_begin range in
  let! bitmap_word_index_begin := ushr 64 first BITMAP_WORD_BITS_LOG2 in
  let! mask := trailing_bits_mask_u 64 BITMAP_WORD_BITS_LOG2 in
  let offset_in_bitmap_word := Z.land first mask in
  let! t := usub 64 (rng_end range) 1 in
  let! t := ushr 64 t BITMAP_WORD_BITS_LOG2 in
  let! bitmap_word_index_end := uadd 64 t 1 in
  usize_try_from bitmap_word_index_end (Err (IoError RegionOutOfRange)) (λ bitmap_word_index_end,
    let len := length (bitmap self) in
    let set_mask := if value then unot 64 0 else 0 in
    let run bitmap_word_index_end :=
      let bitmap_word_index_begin := Z.to_nat bitmap_word_index_begin in
      let! words := bitmap_set_loop (bitmap_word_index_end - bitmap_word_index_begin) bitmap_word_index_begin
        (bitmap self) set_mask physical_allocation_block_count offset_in_bitmap_word in
      Ok (mk_bitmap words) in
    if (len <? bitmap_word_index_end)%nat then
      if value then Err (IoError RegionOutOfRange)
      else if Z.of_nat len <=? bitmap_word_index_begin then Ok self
      else run len
    else run bitmap_word_index_end).

(** *** [AllocBitmapWordIterator] *)

Record WordIter := mk_word_iter {
  pending_allocs_iter : list (option nat);
  next_pending_alloc : option (Z * Z);
  pending_frees_iter : list (option nat);
  next_pending_free : option (Z * Z);
  next_bitmap_word_index : Z;
}.

Implicit Types (allocs frees : list SparseAllocBitmap).

Definition word_iter_new_at allocs frees (bitmap_word_index_begin : Z) : res WordIter :=
  let '(ai, fi) :=
    if bitmap_word_index_begin =? 0 then (union_iter allocs, union_iter frees)
    else (union_iter_at_bitmap_word_index allocs bitmap_word_index_begin,
          union_iter_at_bitmap_word_index frees bitmap_word_index_begin) in
  let! '(next_alloc, ai) := union_next allocs ai in
  let! '(next_free, fi) := union_next frees fi in
  Ok (mk_word_iter ai next_alloc fi next_free bitmap_word_index_begin).

Definition word_iter_goto allocs frees (it : WordIter) (bitmap_word_index0 : Z) : res WordIter :=
  if next_bitmap_word_index it =? bitmap_word_index0 then Ok it
  else
    let! ai := union_goto_bitmap_word_index allocs (pending_allocs_iter it) bitmap_word_index0 in
    let! '(next_alloc, ai) := union_next allocs ai in
    let! fi := union_goto_bitmap_word_index frees (pending_frees_iter it) bitmap_word_index0 in
    let! '(next_free, fi) := union_next frees fi in
    Ok (mk_word_iter ai next_alloc fi next_free bitmap_word_index0).

Definition word_iter_next self allocs frees (it : WordIter) : res (option (Z * Z) * WordIter) :=
  if Z.of_nat (length (bitmap self)) <=? next_bitmap_word_index it then Ok (None, it)
  else
    let bitmap_word_index0 := next_bitmap_word_index it in
    let! next := uadd 64 (next_bitmap_word_index it) 1 in
    let! word := idx (bitmap self) (Z.to_nat bitmap_word_index0) in
    let! '(word, next_alloc, ai) :=
      match next_pending_alloc it with
      | Some (i, w) =>
          if i =? bitmap_word_index0 then
            let! '(n, ai) := union_next allocs (pending_allocs_iter it) in
            Ok (Z.lor word w, n, ai)
          else Ok (word, next_pending_alloc it, pending_allocs_iter it)
      | None => Ok (word, None, pending_allocs_iter it)
      end in
    let! '(word, next_free, fi) :=
      match next_pending_free it with
      | Some (i, w) =>
          if i =? bitmap_word_index0 then
            let! '(n, fi) := union_next frees (pending_frees_iter it) in
            Ok (Z.land word (unot 64 w), n, fi)
          else Ok (word, next_pending_free it, pending_frees_iter it)
      | None => Ok (word, None, pending_frees_iter it)
      end in
    Ok (Some (bitmap_word_index0, word), mk_word_iter ai next_alloc fi next_free next).
End Bitmap.

(** ** Iterators over single blocks and over chunks of blocks *)

Section BitIter.
Context {B : Build}.
Implicit Types (self : AllocBitmap) (allocs frees : list SparseAllocBitmap).

Record BitIter := mk_bit_iter {
  bitmap_word_iter : WordIter;
  cur_bitmap_word : option Z;
  next_pos_in_cur_bitmap_word : Z;
}.

Definition bit_iter_new_at self allocs frees (first_physical_allocation_block_index : Z) : res BitIter :=
  let! bitmap_word_index_begin := ushr 64 first_physical_allocation_block_index BITMAP_WORD_BITS_LOG2 in
  let! mask := trailing_bits_mask_u 64 BITMAP_WORD_BITS_LOG2 in
  let pos := Z.land first_physical_allocation_block_index mask in
  let! it := word_iter_new_at allocs frees bitmap_word_index_begin in
  let! '(cur, it) := word_iter_next self allocs frees it in
  Ok (mk_bit_iter it (snd <$> cur) pos).

Definition bit_iter_next self allocs frees (it : BitIter) : res (option bool * BitIter) :=
  match cur_bitmap_word it with
  | None => Ok (None, it)
  | Some word =>
      let! t := ushr 64 word (next_pos_in_cur_bitmap_word it) in
      let bit := negb (Z.land t 1 =? 0) in
      let! pos := uadd 32 (next_pos_in_cur_bitmap_word it) 1 in
      if pos =? BITMAP_WORD_BITS then
        let! '(cur, wit) := word_iter_next self allocs frees (bitmap_word_iter it) in
        Ok (Some bit, mk_bit_iter wit (snd <$> cur) 0)
      else Ok (Some bit, mk_bit_iter (bitmap_word_iter it) (cur_bitmap_word it) pos)
  end.

(** [AllocBitmapChunkedIterator] has the size of the chunks in addition. *)
Definition chunked_iter_new_at self allocs frees (first_physical_allocation_block_index chunk_allocation_blocks : Z)
    : res (BitIter * Z) :=
  let! _ := debug_assert (chunk_allocation_blocks <=? BITMAP_WORD_BITS) in
  let! it := bit_iter_new_at self allocs frees first_physical_allocation_block_index in
  Ok (it, chunk_allocation_blocks).

Definition chunked_iter_goto self allocs frees (it : BitIter * Z) (physical_allocation_block_index : Z) : res (BitIter * Z) :=
  let '(it, chunk) := it in
  let! bitmap_word_index0 := ushr 64 physical_allocation_block_index BITMAP_WORD_BITS_LOG2 in
  let! mask := trailing_bits_mask_u 64 BITMAP_WORD_BITS_LOG2 in
  let pos := Z.land physical_allocation_block_index mask in
  let! wit := word_iter_goto allocs frees (bitmap_word_iter it) bitmap_word_index0 in
  let! '(cur, wit) := word_iter_next self allocs frees wit in
  Ok (mk_bit_iter wit (snd <$> cur) pos, chunk).

Definition chunked_iter_next self allocs frees (it : BitIter * Z) : res (option Z * (BitIter * Z)) :=
  let '(it, chunk) := it in
  match cur_bitmap_word it with
  | None => Ok (None, (it, chunk))
  | Some word =>
      let! cur_chunk := ushr 64 word (next_pos_in_cur_bitmap_word it) in
      let! pos := uadd 32 (next_pos_in_cur_bitmap_word it) chunk in
      let! '(cur_chunk, it) :=
        (if BITMAP_WORD_BITS <=? pos then
           let! pos := usub 32 pos BITMAP_WORD_BITS in
           let! '(cur, wit) := word_iter_next self allocs frees (bitmap_word_iter it) in
           let it := mk_bit_iter wit (snd <$> cur) pos in
           if 0 <? pos then
             let! n := usub 32 chunk pos in
             let! t := ushl 64 (default 0 (cur_bitmap_word it)) n in
             Ok (Z.lor cur_chunk t, it)
           else Ok (cur_chunk, it)
         else Ok (cur_chunk, mk_bit_iter (bitmap_word_iter it) (cur_bitmap_word it) pos)) in
      let! mask := trailing_bits_mask_u 64 chunk in
      Ok (Some (Z.land cur_chunk mask), (it, chunk))
  end.
End BitIter.

(** ** Operations of sparse bitmaps relative to the bitmap *)

Section Relative.
Context {B : Build} {Alloc : Allocator} {P : ImageLayout.Platform}.
Implicit Types (self : SparseAllocBitmap) (alloc_bitmap : AllocBitmap).

(** [usize::try_from(..).ok().and_then(..get..).unwrap_or(0)]. *)
Definition bitmap_word_or_zero alloc_bitmap (i : Z) : Z :=
  if i <? 2 ^ usize_bits then default 0 (bitmap alloc_bitmap !! Z.to_nat i) else 0.

(** A round of the loop advances in the entries or removes some of them. *)
Fixpoint clear_redundant_loop (fuel : nat) (es : list SparseAllocBitmapEntry) alloc_bitmap (invert_mask : Z)
    (entry_index : nat) (remove_begin : option nat) : res (list SparseAllocBitmapEntry) :=
  if (entry_index <? length es)%nat then
    match fuel with
    | O => Diverge
    | S fuel =>
        let! entry := idx es entry_index in
        let alloc_bitmap_word := bitmap_word_or_zero alloc_bitmap (bitmap_word_index entry) in
        let word := Z.land (bitmap_word entry) (Z.lxor alloc_bitmap_word invert_mask) in
        let! es := set_idx es entry_index (mk_entry (bitmap_word_index entry) word) in
        if negb (word =? 0) then
          let! '(es, entry_index) := flush_removed es remove_begin entry_index in
          clear_redundant_loop fuel es alloc_bitmap invert_mask (entry_index + 1) None
        else
          clear_redundant_loop fuel es alloc_bitmap invert_mask (entry_index + 1) (Some (default entry_index remove_begin))
    end
  else
    match remove_begin with
    | Some remove_begin => Ok (take remove_begin es)
    | None => Ok es
    end.
Definition clear_redundant self alloc_bitmap (is_free : bool) : res SparseAllocBitmap :=
  let self := reset_remove_rollback self in
  let! t := usub 64 1 (Z.b2z is_free) in
  let alloc_bitmap_word_invert_mask := wrapping_neg 64 t in
  let! es := clear_redundant_loop (length (entries self)) (entries self) alloc_bitmap alloc_bitmap_word_invert_mask 0 None in
  Ok (set_entries self es).

(** [nvfs_err_internal!()] as a value. *)
Definition internal_error : res NvFsError := if debug_assertions then Panic else Ok Internal.

(** The loop runs over the words of the range; the iterator over the bitmap moves
    along with it. *)
Fixpoint repopulate_loop (fuel : nat) self alloc_bitmap (alloc_bitmap_value : bool) (range_end : Z) (it : WordIter)
    (entry_index : nat) (bitmap_word_index0 physical_allocation_block_count offset_in_bitmap_word : Z)
    : res (SparseAllocBitmap * (unit + NvFsError)) :=
  let! word_begin := ushl 64 bitmap_word_index0 BITMAP_WORD_BITS_LOG2 in
  if word_begin <? range_end then
    match fuel with
    | O => Diverge
    | S fuel =>
        let! t := usub 32 BITMAP_WORD_BITS offset_in_bitmap_word in
        let bits_in_word := Z.min physical_allocation_block_count t in
        let! physical_allocation_block_count := usub 64 physical_allocation_block_count bits_in_word in
        let! mask := trailing_bits_mask_u 64 bits_in_word in
        let! bits_in_word_mask := ushl 64 mask offset_in_bitmap_word in
        let! has_entry :=
          (if (entry_index <? length (entries self))%nat then
             let! e := idx (entries self) entry_index in
             Ok (if bitmap_word_index e =? bitmap_word_index0 then Some e else None)
           else Ok None) in
        match has_entry with
        | Some e =>
            let! es := set_idx (entries self) entry_index
              (mk_entry (bitmap_word_index e) (Z.lor (bitmap_word e) bits_in_word_mask)) in
            let! bitmap_word_index0 := uadd 64 bitmap_word_index0 1 in
            let! '(_, it) := word_iter_next alloc_bitmap [] [] it in
            repopulate_loop fuel (set_entries self es) alloc_bitmap alloc_bitmap_value range_end it (entry_index + 1)
              bitmap_word_index0 physical_allocation_block_count 0
        | None =>
            let! '(next, it) := word_iter_next alloc_bitmap [] [] it in
            let alloc_bitmap_word := default 0 (snd <$> next) in
            if Z.land alloc_bitmap_word bits_in_word_mask =? (if alloc_bitmap_value then bits_in_word_mask else 0) then
              let! bitmap_word_index0 := uadd 64 bitmap_word_index0 1 in
              repopulate_loop fuel self alloc_bitmap alloc_bitmap_value range_end it entry_index
                bitmap_word_index0 physical_allocation_block_count 0
            else if remove_rollback_reserve_capacity self =? 0 then
              let! e := internal_error in Ok (self, inr e)
            else
              let! reserve := usub usize_bits (remove_rollback_reserve_capacity self) 1 in
              let! es := vec_insert (entries self) entry_index (mk_entry bitmap_word_index0 bits_in_word_mask) in
              let! bitmap_word_index0 := uadd 64 bitmap_word_index0 1 in
              repopulate_loop fuel (mk_sparse es (capacity self) reserve) alloc_bitmap alloc_bitmap_value range_end it
                (entry_index + 1) bitmap_word_index0 physical_allocation_block_count 0
        end
    end
  else Ok (self, inl tt).

Definition repopulate_set_range_for_rollback self (range : BlockRange) alloc_bitmap (alloc_bitmap_value : bool)
    : res (SparseAllocBitmap * (unit + NvFsError)) :=
  let! spare := usub usize_bits (capacity self) (Z.of_nat (length (entries self))) in
  if spare <? remove_rollback_reserve_capacity self then let! e := internal_error in Ok (self, inr e)
  else
    let! physical_allocation_block_count := block_count range in
    let physical_allocation_block := rng_begin range in
    let! bitmap_word_index0 := ushr 64 physical_allocation_block BITMAP_WORD_BITS_LOG2 in
    let! mask := trailing_bits_mask_u 64 BITMAP_WORD_BITS_LOG2 in
    let offset_in_bitmap_word := Z.land physical_allocation_block mask in
    let entry_index := entry_position self bitmap_word_index0 in
    let! it := word_iter_new_at [] [] bitmap_word_index0 in
    repopulate_loop (Z.to_nat (word_count range)) self alloc_bitmap alloc_bitmap_value (rng_end range) it entry_index
      bitmap_word_index0 physical_allocation_block_count offset_in_bitmap_word.

Definition rollback_remove_extent self (extent : BlockRange) alloc_bitmap (alloc_bitmap_value : bool)
    : res (SparseAllocBitmap * (unit + NvFsError)) :=
  repopulate_set_range_for_rollback self extent alloc_bitmap alloc_bitmap_value.
Definition rollback_remove_block self (block_allocation_blocks_begin log2 : Z) alloc_bitmap (alloc_bitmap_value : bool)
    : res (SparseAllocBitmap * (unit + NvFsError)) :=
  let! range := block_range block_allocation_blocks_begin log2 in
  repopulate_set_range_for_rollback self range alloc_bitmap alloc_bitmap_value.
Fixpoint rollback_remove_extents self (extents : list BlockRange) alloc_bitmap (alloc_bitmap_value : bool)
    : res (SparseAllocBitmap * (unit + NvFsError)) :=
  match extents with
  | [] => Ok (self, inl tt)
  | extent :: extents =>
      let! '(self, r) := rollback_remove_extent self extent alloc_bitmap alloc_bitmap_value in
      match r with
      | inr e => Ok (self, inr e)
      | inl _ => rollback_remove_extents self extents alloc_bitmap alloc_bitmap_value
      end
  end.
Fixpoint rollback_remove_blocks self (blocks : list Z) (log2 : Z) alloc_bitmap (alloc_bitmap_value : bool)
    : res (SparseAllocBitmap * (unit + NvFsError)) :=
  match blocks with
  | [] => Ok (self, inl tt)
  | b :: blocks =>
      let! '(self, r) := rollback_remove_block self b log2 alloc_bitmap alloc_bitmap_value in
      match r with
      | inr e => Ok (self, inr e)
      | inl _ => rollback_remove_blocks self blocks log2 alloc_bitmap alloc_bitmap_value
      end
  end.
End Relative.

(** ** Specification: unions *)

(** The word of a union at a position. *)
Definition union_word (bitmaps : list SparseAllocBitmap) (w : Z) : Z :=
  foldr (λ sb acc, Z.lor (word_at (entries sb) w) acc) 0 bitmaps.
(** No entry at the positions from [w] on and before [w']. *)
Definition none_between (w w' : Z) (sb : SparseAllocBitmap) : Prop :=
  ∀ e, e ∈ entries sb → bitmap_word_index e < w ∨ w' ≤ bitmap_word_index e.

Section UnionProofs.
Context {B : Build}.
Implicit Types (sb : SparseAllocBitmap) (bs : list SparseAllocBitmap).

Abbreviation sorted_bs bs := (Forall (λ sb, entries_wf (entries sb)) bs).

Lemma position_at_split sb pre post w :
  entries sb = pre ++ post → split_at pre post w →
  position_at w sb = match post with [] => None | _ => Some (length pre) end.
Proof.
  intros Hsb Hs. unfold position_at. rewrite (find_entry_position_split sb pre post) by done.
  destruct post as [|e post]; [|destruct (_ =? w); [done|]]; rewrite Hsb, length_app; cbn [length]; by zdec.
Qed.

Lemma position_at_same sb w w' :
  entries_wf (entries sb) → w ≤ w' → none_between w w' sb → position_at w sb = position_at w' sb.
Proof.
  intros [_ Hs] ? Hn. destruct (split_at_exists _ w Hs) as (pre & post & Hl & [H1 H2]).
  assert (split_at pre post w') as Hs'.
  { split; [intros e He; specialize (H1 e He); lia|]. intros e He. specialize (H2 e He).
    destruct (Hn e); [rewrite Hl, elem_of_app; by right|lia|done]. }
  by rewrite !(position_at_split sb pre post).
Qed.

(** What a position says: the first entry at or after [w]. *)
Lemma position_at_inv sb w :
  entries_wf (entries sb) →
  match position_at w sb with
  | None => ∀ e, e ∈ entries sb → bitmap_word_index e < w
  | Some n => ∃ e, entries sb !! n = Some e ∧ w ≤ bitmap_word_index e ∧ none_between w (bitmap_word_index e) sb ∧
      position_at (bitmap_word_index e + 1) sb =
      if negb (n + 1 =? length (entries sb))%nat then Some (n + 1)%nat else None
  end.
Proof.
  intros [_ Hs]. destruct (split_at_exists _ w Hs) as (pre & post & Hl & [H1 H2]).
  rewrite (position_at_split sb pre post) by done. destruct post as [|e post].
  - rewrite Hl, app_nil_r. done.
  - exists e. assert (w ≤ bitmap_word_index e) by (apply H2; left). rewrite Hl in Hs.
    apply StronglySorted_app in Hs as (Hlt & _ & Hs). inversion Hs as [|? ? _ Hlt']; subst. rewrite Forall_forall in Hlt'.
    unfold before in *. split_and!; [by rewrite Hl, list_lookup_middle|done| |].
    + intros e'. rewrite Hl, elem_of_app, elem_of_cons. intros [He'|[->|He']]; [left; by apply H1|by right|].
      right. specialize (Hlt' e' He'). lia.
    + rewrite (position_at_split sb (pre ++ [e]) post), Hl, !length_app; cbn [length].
      * destruct post; cbn [length]; by zdec.
      * by rewrite <-app_assoc.
      * split; [|intros e' He'; specialize (Hlt' e' He'); lia].
        intros e' [He'| ->%list_elem_of_singleton]%elem_of_app; [specialize (H1 e' He'); lia|lia].
Qed.

Lemma word_at_none sb w : entries_wf (entries sb) → none_between w (w + 1) sb → word_at (entries sb) w = 0.
Proof. intros _ Hn. apply word_at_absent. intros e He. destruct (Hn e He); lia. Qed.

(** The loop that finds the least position, after the bitmaps [done]. *)
Definition least_at bs w (i : nat) (m word : Z) : Prop :=
  w ≤ m ∧ word = union_word bs m ∧ Forall (none_between w m) bs ∧ Forall (none_between w (m + 1)) (take i bs) ∧
  (i < length bs)%nat.

Lemma union_word_app bs bs' w : union_word (bs ++ bs') w = Z.lor (union_word bs w) (union_word bs' w).
Proof. unfold union_word. induction bs as [|sb bs IH]; cbn; [done|]. by rewrite IH, Z.lor_assoc. Qed.

Lemma union_word_none bs w : sorted_bs bs → Forall (none_between w (w + 1)) bs → union_word bs w = 0.
Proof.
  unfold union_word. induction 1 as [|sb bs ? ? IH]; intros Hn; [done|]. inversion Hn; subst. cbn.
  rewrite (word_at_none sb) by done. rewrite IH by done. done.
Qed.

Lemma none_between_le w w' w'' sb : w'' ≤ w' → none_between w w' sb → none_between w w'' sb.
Proof. intros ? Hn e He. destruct (Hn e He); lia. Qed.

(** One more bitmap. *)
Lemma least_at_none bs sb w i m word :
  entries_wf (entries sb) → least_at bs w i m word → (∀ e, e ∈ entries sb → bitmap_word_index e < w ∨ m < bitmap_word_index e) →
  least_at (bs ++ [sb]) w i m word.
Proof.
  intros Hwf (? & -> & Hn & Ht & Hi) Hsb. unfold least_at. rewrite Forall_app, Forall_singleton, take_app_le, length_app by lia.
  assert (none_between m (m + 1) sb) as Hm by (intros e He; destruct (Hsb e He); lia).
  split_and!; [done| |done| |done|cbn; lia].
  - rewrite union_word_app. cbn. rewrite (word_at_none sb) by done. by rewrite !Z.lor_0_r.
  - intros e He. destruct (Hsb e He); lia.
Qed.
Lemma least_at_less bs sb w i m word e :
  sorted_bs bs → entries_wf (entries sb) → least_at bs w i m word → e ∈ entries sb → w ≤ bitmap_word_index e < m →
  none_between w (bitmap_word_index e) sb →
  least_at (bs ++ [sb]) w (length bs) (bitmap_word_index e) (bitmap_word e).
Proof.
  intros Hbs [_ Hs] (? & -> & Hn & Ht & Hi) He ? Hsb. unfold least_at.
  rewrite Forall_app, Forall_singleton, take_app_length, length_app.
  assert (Forall (none_between w (bitmap_word_index e + 1)) bs) as Hn'
    by (eapply Forall_impl; [exact Hn|]; intros; eapply none_between_le; [|done]; lia).
  split_and!; [lia| | |done|done|cbn; lia].
  - rewrite union_word_app, union_word_none; [|done|].
    + cbn. rewrite Z.lor_0_r. symmetry. by apply word_at_elem.
    + eapply Forall_impl; [exact Hn'|]. intros sb' Hsb' e' He'. destruct (Hsb' e' He'); lia.
  - eapply Forall_impl; [exact Hn'|]. intros. eapply none_between_le; [|done]. lia.
Qed.
Lemma least_at_equal bs sb w i m word e :
  entries_wf (entries sb) → least_at bs w i m word → e ∈ entries sb → bitmap_word_index e = m →
  none_between w m sb → least_at (bs ++ [sb]) w i m (Z.lor word (bitmap_word e)).
Proof.
  intros [_ Hs] (? & -> & Hn & Ht & Hi) He <- Hsb. unfold least_at.
  rewrite Forall_app, Forall_singleton, take_app_le, length_app by lia. split_and!; [done| |done|done|done|cbn; lia].
  rewrite union_word_app. cbn. rewrite Z.lor_0_r. by rewrite word_at_elem.
Qed.

Lemma union_min_spec bs w rest : ∀ dn i m word,
  bs = dn ++ rest → sorted_bs bs → least_at dn w i m word →
  ∃ i' m' word', union_min bs (position_at w <$> rest) (length dn) i m word = Ok (i', m', word') ∧
    least_at bs w i' m' word'.
Proof.
  induction rest as [|sb rest IH]; intros dn i m word Hbs Hwf Hl; cbn [fmap list_fmap union_min].
  { rewrite app_nil_r in Hbs. subst dn. by do 3 eexists. }
  assert (bs = (dn ++ [sb]) ++ rest) as Hbs' by (by rewrite <-app_assoc).
  assert (idx (E:=NvFsError) bs (length dn) = Ok sb) as Hidx by (rewrite Hbs; apply idx_middle).
  replace (S (length dn)) with (length (dn ++ [sb])) by (rewrite length_app; cbn; lia).
  pose proof Hwf as Hwf'. rewrite Hbs in Hwf'. apply Forall_app in Hwf' as [Hdn Hrest]. inversion Hrest as [|? ? Hsb _]; subst x l.
  pose proof (position_at_inv sb w Hsb) as Hpos. destruct (position_at w sb) as [n|].
  - destruct Hpos as (e & He & Hwe & Hn & _). apply list_elem_of_lookup_2 in He as Hin.
    unfold entry_of. rewrite Hidx. ostep. rewrite (idx_Ok _ _ _ He). ostep.
    destruct (Z.compare_spec (bitmap_word_index e) m) as [Heq|Hlt|Hgt]; apply IH; try done.
    + apply least_at_equal; try done. by rewrite <-Heq.
    + by eapply least_at_less.
    + apply least_at_none; [done..|]. intros e' He'. destruct (Hn e' He'); lia.
  - apply IH; [done..|]. apply least_at_none; [done..|]. intros e' He'. left. by apply Hpos.
Qed.

Lemma union_advance_spec bs w m rest : ∀ dn,
  bs = dn ++ rest → sorted_bs bs → w ≤ m → Forall (none_between w m) rest →
  union_advance bs (position_at w <$> rest) (length dn) m = Ok (position_at (m + 1) <$> rest).
Proof.
  induction rest as [|sb rest IH]; intros dn Hbs Hwf Hm Hnone; cbn [fmap list_fmap union_advance]; [done|].
  assert (bs = (dn ++ [sb]) ++ rest) as Hbs' by (by rewrite <-app_assoc).
  assert (idx (E:=NvFsError) bs (length dn) = Ok sb) as Hidx by (rewrite Hbs; apply idx_middle).
  replace (S (length dn)) with (length (dn ++ [sb])) by (rewrite length_app; cbn; lia).
  assert (entries_wf (entries sb)) as Hsb by (rewrite Hbs in Hwf; apply Forall_app in Hwf as [_ Hwf]; by inversion Hwf).
  inversion Hnone as [|? ? Hn Hnone']; subst x l. pose proof (position_at_inv sb w Hsb) as Hpos.
  destruct (position_at w sb) as [n|] eqn:Hp.
  - destruct Hpos as (e & He & Hwe & Hn' & Hnext). rewrite Hidx. ostep.
    rewrite (idx_Ok _ _ _ He). ostep. rewrite IH by done. ostep. do 2 f_equal. zcase.
    + by rewrite <-Hnext; f_equal; lia.
    + rewrite <-Hp. apply position_at_same; [done|lia|]. intros e' He'. destruct (Hn' e' He'); [by left|].
      apply list_elem_of_lookup_2 in He. destruct (Hn e He); lia.
  - rewrite IH by done. ostep. do 2 f_equal. rewrite <-Hp. apply position_at_same; [done|lia|].
    intros e' He'. left. by apply Hpos.
Qed.

Lemma union_find_spec w bs : ∀ k,
  match union_find (position_at w <$> bs) k with
  | None => Forall (λ sb, position_at w sb = None) bs
  | Some (i, n) => ∃ dn sb rest, bs = dn ++ sb :: rest ∧ i = (k + length dn)%nat ∧ position_at w sb = Some n ∧
      Forall (λ sb, position_at w sb = None) dn
  end.
Proof.
  induction bs as [|sb bs IH]; intros k; cbn [fmap list_fmap union_find]; [done|].
  destruct (position_at w sb) as [n|] eqn:Hp.
  - exists [], sb, bs. split_and!; [done|cbn; lia|done|done].
  - specialize (IH (S k)). destruct (union_find _ _) as [[i n]|].
    + destruct IH as (dn & sb' & rest & -> & -> & ? & ?). exists (sb :: dn), sb', rest. split_and!; [done|cbn; lia|done|].
      by constructor.
    + by constructor.
Qed.

Lemma least_at_start dn sb w e :
  sorted_bs dn → entries_wf (entries sb) → Forall (λ sb, position_at w sb = None) dn → e ∈ entries sb →
  w ≤ bitmap_word_index e → none_between w (bitmap_word_index e) sb →
  least_at (dn ++ [sb]) w (length dn) (bitmap_word_index e) (bitmap_word e).
Proof.
  intros Hdn [_ Hs] Hnone He ? Hn.
  assert (Forall (λ sb, ∀ e', e' ∈ entries sb → bitmap_word_index e' < w) dn) as Hlt.
  { rewrite Forall_forall in *. intros sb' Hsb'. pose proof (position_at_inv sb' w (Hdn sb' Hsb')) as Hp.
    by rewrite (Hnone sb' Hsb') in Hp. }
  unfold least_at. rewrite Forall_app, Forall_singleton, take_app_length, length_app.
  split_and!; [done| | |done| |cbn; lia].
  - rewrite union_word_app, union_word_none; [cbn; rewrite Z.lor_0_r; symmetry; by apply word_at_elem|done|].
    eapply Forall_impl; [exact Hlt|]. intros sb' Hsb' e' He'. left. specialize (Hsb' e' He'). lia.
  - eapply Forall_impl; [exact Hlt|]. intros sb' Hsb' e' He'. left. by apply Hsb'.
  - eapply Forall_impl; [exact Hlt|]. intros sb' Hsb' e' He'. left. by apply Hsb'.
Qed.

(** [next] of a union iterator that is at [w]: the least position with an entry,
    the union of the words there, and the iterator is past it. *)
Lemma union_next_spec bs w :
  sorted_bs bs →
  (union_next bs (position_at w <$> bs) = Ok (None, position_at w <$> bs) ∧ ∀ w', Forall (none_between w w') bs) ∨
  ∃ m, union_next bs (position_at w <$> bs) = Ok (Some (m, union_word bs m), position_at (m + 1) <$> bs) ∧
    w ≤ m ∧ Forall (none_between w m) bs.
Proof.
  intros Hwf. unfold union_next. pose proof (union_find_spec w bs 0) as Hfind. destruct (union_find _ 0) as [[i n]|].
  - right. destruct Hfind as (dn & sb & rest & Hbs & -> & Hp & Hnone). cbn [Nat.add].
    pose proof Hwf as Hwf'. rewrite Hbs in Hwf'. apply Forall_app in Hwf' as [Hdn Hrest]. inversion Hrest as [|? ? Hsb _]; subst x l.
    pose proof (position_at_inv sb w Hsb) as Hpos. rewrite Hp in Hpos. destruct Hpos as (e & He & Hwe & Hn & _).
    unfold entry_of. assert (idx (E:=NvFsError) bs (length dn) = Ok sb) as -> by (rewrite Hbs; apply idx_middle). ostep.
    rewrite (idx_Ok _ _ _ He). ostep. apply list_elem_of_lookup_2 in He.
    assert (bs = (dn ++ [sb]) ++ rest) as Hbs' by (by rewrite <-app_assoc).
    assert (drop (S (length dn)) (position_at w <$> bs) = position_at w <$> rest) as ->.
    { rewrite Hbs', fmap_app. apply drop_app_length'. rewrite length_fmap, length_app. cbn. lia. }
    replace (S (length dn)) with (length (dn ++ [sb])) by (rewrite length_app; cbn; lia).
    destruct (union_min_spec bs w rest (dn ++ [sb]) (length dn) (bitmap_word_index e) (bitmap_word e)) as (i & m & word & -> & Hl);
      [done|done|by apply least_at_start|].
    ostep. destruct Hl as (? & -> & Hnm & Ht & Hi).
    assert (length (take i bs) = i) as Hlen by (rewrite length_take; lia).
    rewrite <-(fmap_drop _ i bs).
    pose proof (union_advance_spec bs w m (drop i bs) (take i bs)) as Hadv. rewrite Hlen in Hadv.
    rewrite Hadv; [|by rewrite take_drop|done|done|by apply Forall_drop].
    ostep. exists m. split; [|done]. do 2 f_equal. rewrite <-(take_drop i (position_at (m + 1) <$> bs)).
    rewrite <-fmap_drop, <-!fmap_take. f_equal.
    apply list_fmap_ext. intros k sb' Hk%list_elem_of_lookup_2. rewrite Forall_forall in Ht, Hwf.
    apply position_at_same; [apply Hwf|lia|by apply Ht].
    apply elem_of_take in Hk as (k' & Hk & _). by eapply list_elem_of_lookup_2.
  - left. split; [done|]. intros w'. rewrite Forall_forall in *. intros sb Hsb e He. left.
    pose proof (position_at_inv sb w (Hwf sb Hsb)) as Hp. rewrite (Hfind sb Hsb) in Hp. by apply Hp.
Qed.

Lemma union_iter_at_0 bs : sorted_bs bs → union_iter bs = position_at 0 <$> bs.
Proof.
  intros Hwf. unfold union_iter. apply list_fmap_ext. intros k sb Hk%list_elem_of_lookup_2. rewrite Forall_forall in Hwf.
  destruct (Hwf sb Hk) as [Hok Hs]. rewrite (position_at_split sb [] (entries sb)); [by unfold is_empty; destruct (entries sb)|done|].
  split; [intros ? []%not_elem_of_nil|]. intros e He. rewrite Forall_forall in Hok. by apply Hok.
Qed.

Lemma union_goto_one_Ok sb index w :
  entries_wf (entries sb) → (∀ n, index = Some n → (n < length (entries sb))%nat) →
  union_goto_one sb index w = Ok (position_at w sb).
Proof.
  intros Hwf Hn. unfold union_goto_one. destruct index as [n|]; [|done]. specialize (Hn n eq_refl).
  destruct (idx_lt (E:=NvFsError) (entries sb) n Hn) as (e & He & ->). ostep.
  destruct Hwf as [Hok Hs]. pose proof (list_elem_of_lookup_2 _ _ _ He) as Hin. rewrite Forall_forall in Hok.
  destruct (Hok e Hin) as [? _]. pose proof (take_drop_middle _ _ _ He) as Hmid.
  assert (length (take n (entries sb)) = n) as Hlen by (rewrite length_take; lia).
  pose proof Hs as Hs'. rewrite <-Hmid in Hs'. apply StronglySorted_app in Hs' as (Hlt & _ & Hs'). inversion Hs' as [|? ? _ Hlt']; subst.
  rewrite Forall_forall in Hlt'. unfold before in *. destruct (Z.eqb_spec (bitmap_word_index e) w) as [Hew|Hew].
  - f_equal. rewrite (position_at_split sb (take n (entries sb)) (e :: drop (S n) (entries sb))); [by rewrite Hlen|done|].
    split; [intros e' He'; rewrite <-Hew; apply Hlt; [done|left]|].
    intros e' [->|He']%elem_of_cons; [lia|]. specialize (Hlt' e' He'). lia.
  - ostep. zcase; [|done]. f_equal.
    rewrite (position_at_split sb (take n (entries sb) ++ [e]) (drop (S n) (entries sb))); [|by rewrite <-app_assoc|].
    + assert (length (drop (S n) (entries sb)) = length (entries sb) - S n)%nat as Hld by (by rewrite length_drop).
      rewrite length_app, Hlen. cbn [length]. destruct (drop (S n) (entries sb)); cbn [length] in Hld; by zdec.
    + split; [|intros e' He'; specialize (Hlt' e' He'); lia].
      intros e' [He'| ->%list_elem_of_singleton]%elem_of_app; [|lia]. specialize (Hlt e' e He' ltac:(left)). lia.
Qed.

Lemma position_at_bound sb w n : entries_wf (entries sb) → position_at w sb = Some n → (n < length (entries sb))%nat.
Proof.
  intros Hwf Hp. pose proof (position_at_inv sb w Hwf) as Hi. rewrite Hp in Hi. destruct Hi as (e & He & _).
  by eapply lookup_lt_Some.
Qed.

Lemma union_goto_Ok bs w w' :
  sorted_bs bs → union_goto_bitmap_word_index bs (position_at w <$> bs) w' = Ok (position_at w' <$> bs).
Proof.
  induction 1 as [|sb bs Hsb Hbs IH]; cbn [fmap list_fmap union_goto_bitmap_word_index]; [done|].
  rewrite union_goto_one_Ok; [|done|intros n; by apply position_at_bound]. ostep. rewrite IH. done.
Qed.

Lemma union_word_in_u bs w : sorted_bs bs → in_u 64 (union_word bs w).
Proof.
  unfold union_word. induction 1 as [|sb bs Hsb _ IH]; cbn; [done|]. apply lor_in_u; [done| |done].
  apply word_at_in_u, Hsb.
Qed.

(** An iterator over pending changes that is at [w] moves on to [w + 1]. *)
Lemma pending_step bs w n ix :
  sorted_bs bs → union_next bs (position_at w <$> bs) = Ok (n, ix) →
  ∃ n' ix', (match n with
             | Some (i, _) => if i =? w then union_next bs ix else Ok (n, ix)
             | None => Ok (n, ix)
             end) = Ok (n', ix') ∧ union_next bs (position_at (w + 1) <$> bs) = Ok (n', ix') ∧
    union_word bs w = match n with Some (i, word) => if i =? w then word else 0 | None => 0 end.
Proof.
  intros Hwf Hn. assert (Forall (none_between w (w + 1)) bs → position_at (w + 1) <$> bs = position_at w <$> bs) as Hsame.
  { intros Hnone. apply list_fmap_ext. intros k sb Hk%list_elem_of_lookup_2. rewrite Forall_forall in Hnone, Hwf.
    symmetry. apply position_at_same; [by apply Hwf|lia|by apply Hnone]. }
  destruct (union_next_spec bs w Hwf) as [[Heq Hnone]|(m & Heq & Hm & Hnone)]; rewrite Heq in Hn; injection Hn as <- <-.
  - do 2 eexists. split; [done|]. rewrite Hsame by apply Hnone. split; [done|]. apply union_word_none; [done|apply Hnone].
  - destruct (Z.eqb_spec m w) as [->|?].
    + destruct (union_next_spec bs (w + 1) Hwf) as [[-> _]|(m' & -> & _)]; by do 2 eexists.
    + assert (Forall (none_between w (w + 1)) bs) as Hn1 by (eapply Forall_impl; [exact Hnone|]; intros; eapply none_between_le; [|done]; lia).
      do 2 eexists. split; [done|]. rewrite Hsame by done. split; [done|]. by apply union_word_none.
Qed.
End UnionProofs.

(** ** Specification: the view of the bitmap with pending changes *)

Definition bitmap_wf (ab : AllocBitmap) : Prop :=
  Forall (in_u 64) (bitmap ab) ∧ Z.of_nat (length (bitmap ab)) < 2 ^ 58.
Definition pending_wf (bs : list SparseAllocBitmap) : Prop := Forall (λ sb, entries_wf (entries sb)) bs.

Definition base_word (ab : AllocBitmap) (w : Z) : Z := if 0 <=? w then default 0 (bitmap ab !! Z.to_nat w) else 0.
Definition view_word (ab : AllocBitmap) (allocs frees : list SparseAllocBitmap) (w : Z) : Z :=
  Z.land (Z.lor (base_word ab w) (union_word allocs w)) (unot 64 (union_word frees w)).
(** Whether a block is allocated; blocks beyond the bitmap are not. *)
Definition base_bit (ab : AllocBitmap) (b : Z) : bool := Z.testbit (base_word ab (b / 64)) (b mod 64).
Definition view_bit (ab : AllocBitmap) (allocs frees : list SparseAllocBitmap) (b : Z) : bool :=
  (b / 64 <? Z.of_nat (length (bitmap ab))) && Z.testbit (view_word ab allocs frees (b / 64)) (b mod 64).

Section ViewProofs.
Context {B : Build}.
Variables (ab : AllocBitmap) (allocs frees : list SparseAllocBitmap).
Hypothesis Hab : bitmap_wf ab.
Hypothesis Hallocs : pending_wf allocs.
Hypothesis Hfrees : pending_wf frees.

Abbreviation len := (Z.of_nat (length (bitmap ab))).

Lemma base_word_in_u w : in_u 64 (base_word ab w).
Proof.
  unfold base_word. zcase; [|done]. destruct (bitmap ab !! Z.to_nat w) as [x|] eqn:Hx; [|done]. cbn.
  destruct Hab as [Hok _]. by eapply Forall_lookup_1 in Hx.
Qed.
Lemma base_word_lookup w : 0 ≤ w < len → idx (E:=NvFsError) (bitmap ab) (Z.to_nat w) = Ok (base_word ab w).
Proof.
  intros. unfold base_word. zdec. destruct (idx_lt (E:=NvFsError) (bitmap ab) (Z.to_nat w)) as (x & -> & ->); [lia|]. done.
Qed.

Lemma land_unot_0 x : in_u 64 x → Z.land x (unot 64 0) = x.
Proof. intros. change (unot 64 0) with (Z.ones 64). rewrite Z.land_ones by done. by apply wrap_small. Qed.

Lemma view_word_in_u w : in_u 64 (view_word ab allocs frees w).
Proof.
  unfold view_word. apply land_in_u; [done| |].
  - apply lor_in_u; [done|apply base_word_in_u|by apply union_word_in_u].
  - apply (unot_in_u 64); [done|by apply union_word_in_u].
Qed.

(** The iterator is about to yield the [w]-th word. *)
Definition iter_at (it : WordIter) (w : Z) : Prop :=
  next_bitmap_word_index it = w ∧
  union_next allocs (position_at w <$> allocs) = Ok (next_pending_alloc it, pending_allocs_iter it) ∧
  union_next frees (position_at w <$> frees) = Ok (next_pending_free it, pending_frees_iter it).

Lemma word_iter_new_at_Ok w : 0 ≤ w → ∃ it, word_iter_new_at allocs frees w = Ok it ∧ iter_at it w.
Proof.
  intros. unfold word_iter_new_at.
  assert ((if w =? 0 then (union_iter allocs, union_iter frees)
    else (union_iter_at_bitmap_word_index allocs w, union_iter_at_bitmap_word_index frees w)) =
    (position_at w <$> allocs, position_at w <$> frees)) as ->.
  { zcase; [subst w; by rewrite !union_iter_at_0|done]. }
  destruct (union_next_spec allocs w Hallocs) as [[Ha _]|(ma & Ha & _)]; rewrite Ha; ostep;
    destruct (union_next_spec frees w Hfrees) as [[Hf _]|(mf & Hf & _)]; rewrite Hf; ostep; by eexists.
Qed.

Lemma word_iter_next_Ok it w :
  0 ≤ w → iter_at it w →
  if w <? len then ∃ it', word_iter_next ab allocs frees it = Ok (Some (w, view_word ab allocs frees w), it') ∧ iter_at it' (w + 1)
  else word_iter_next ab allocs frees it = Ok (None, it).
Proof.
  intros Hw (Hi & Ha & Hf). unfold word_iter_next. rewrite Hi. destruct Hab as [_ ?]. zcase; zdec; [|done].
  ostep. rewrite base_word_lookup by lia. ostep.
  destruct (pending_step allocs w _ _ Hallocs Ha) as (na & ia & Hna & Ha' & Hwa).
  destruct (pending_step frees w _ _ Hfrees Hf) as (nf & ix & Hnf & Hf' & Hwf).
  eexists (mk_word_iter ia na ix nf (w + 1)). split; [|by split_and!].
  assert (∀ k, (let! '(word, next_alloc, ai) :=
      match next_pending_alloc it with
      | Some (i, w0) => if i =? w then let! '(n, ai) := union_next allocs (pending_allocs_iter it) in Ok (Z.lor (base_word ab w) w0, n, ai)
          else Ok (base_word ab w, next_pending_alloc it, pending_allocs_iter it)
      | None => Ok (base_word ab w, None, pending_allocs_iter it)
      end in k word next_alloc ai) = k (Z.lor (base_word ab w) (union_word allocs w)) na ia :> res (option (Z * Z) * WordIter)) as Hstepa.
  { intros k. rewrite Hwa. destruct (next_pending_alloc it) as [[i x]|]; [destruct (i =? w)|].
    - rewrite Hna. done.
    - injection Hna as <- <-. ostep. by rewrite Z.lor_0_r.
    - injection Hna as <- <-. ostep. by rewrite Z.lor_0_r. }
  rewrite (Hstepa (λ word next_alloc ai, _)). unfold view_word. rewrite Hwf.
  assert (in_u 64 (Z.lor (base_word ab w) (union_word allocs w))) as Hu
    by (apply lor_in_u; [done|apply base_word_in_u|by apply union_word_in_u]).
  destruct (next_pending_free it) as [[i x]|]; [destruct (i =? w)|].
  - rewrite Hnf. done.
  - injection Hnf as <- <-. ostep. by rewrite land_unot_0.
  - injection Hnf as <- <-. ostep. by rewrite land_unot_0.
Qed.

Lemma pending_indices bs w n ix : pending_wf bs → union_next bs (position_at w <$> bs) = Ok (n, ix) → ∃ w', ix = position_at w' <$> bs.
Proof.
  intros Hbs Hn. destruct (union_next_spec bs w Hbs) as [[Heq _]|(m & Heq & _)]; rewrite Heq in Hn; injection Hn as <- <-; by eexists.
Qed.

Lemma word_iter_goto_Ok it w w' : 0 ≤ w' → iter_at it w → ∃ it', word_iter_goto allocs frees it w' = Ok it' ∧ iter_at it' w'.
Proof.
  intros ? (Hi & Ha & Hf). unfold word_iter_goto. destruct (Z.eqb_spec (next_bitmap_word_index it) w') as [Heq|_].
  { exists it. split; [done|]. rewrite <-Heq, Hi. by split_and!. }
  destruct (pending_indices allocs w _ _ Hallocs Ha) as [wa ->]. destruct (pending_indices frees w _ _ Hfrees Hf) as [wf ->].
  rewrite !union_goto_Ok by done. ostep.
  destruct (union_next_spec allocs w' Hallocs) as [[Ha' _]|(ma & Ha' & _)]; rewrite Ha'; ostep; rewrite ?union_goto_Ok by done; ostep;
    destruct (union_next_spec frees w' Hfrees) as [[Hf' _]|(mf & Hf' & _)]; rewrite Hf'; ostep; by eexists.
Qed.

(** An iterator over blocks that is at the block [b]. *)
Definition bit_at (it : BitIter) (b : Z) : Prop :=
  0 ≤ b ∧ next_pos_in_cur_bitmap_word it = b mod 64 ∧
  cur_bitmap_word it = (if b / 64 <? len then Some (view_word ab allocs frees (b / 64)) else None) ∧
  iter_at (bitmap_word_iter it) (if b / 64 <? len then b / 64 + 1 else b / 64).

Lemma fetch_word it w :
  0 ≤ w → iter_at it w →
  ∃ cur it', word_iter_next ab allocs frees it = Ok (cur, it') ∧
    snd <$> cur = (if w <? len then Some (view_word ab allocs frees w) else None) ∧
    iter_at it' (if w <? len then w + 1 else w).
Proof.
  intros Hw Hit. pose proof (word_iter_next_Ok it w Hw Hit) as Hn. destruct (w <? len).
  - destruct Hn as (it' & -> & ?). by do 2 eexists.
  - rewrite Hn. by do 2 eexists.
Qed.

Lemma bit_iter_new_at_Ok b : 0 ≤ b → ∃ it, bit_iter_new_at ab allocs frees b = Ok it ∧ bit_at it b.
Proof.
  intros. assert (0 ≤ b / 64) by (apply Z.div_pos; lia). unfold bit_iter_new_at. ostep. rewrite land_word.
  destruct (word_iter_new_at_Ok (b / 64)) as (it & -> & Hit); [done|]. ostep.
  destruct (fetch_word it (b / 64)) as (cur & it' & -> & Hcur & Hit'); [done..|]. ostep. eexists. split; [done|].
  by split_and!.
Qed.

Lemma view_bit_word b i :
  0 ≤ i → b / 64 < len → b mod 64 + i < 64 → view_bit ab allocs frees (b + i) = Z.testbit (view_word ab allocs frees (b / 64)) (b mod 64 + i).
Proof.
  intros. destruct (block_split b) as [Hb ?]. unfold view_bit.
  replace ((b + i) / 64) with (b / 64) by (apply Z.div_unique with (b mod 64 + i); lia).
  replace ((b + i) mod 64) with (b mod 64 + i) by (apply Z.mod_unique with (b / 64); lia). by zdec.
Qed.

Lemma bit_iter_next_Ok it b :
  bit_at it b →
  if b / 64 <? len then ∃ it', bit_iter_next ab allocs frees it = Ok (Some (view_bit ab allocs frees b), it') ∧ bit_at it' (b + 1)
  else bit_iter_next ab allocs frees it = Ok (None, it).
Proof.
  intros (Hb0 & Hpos & Hcur & Hit). unfold bit_iter_next. rewrite Hcur. destruct (block_split b) as [Hb ?].
  assert (0 ≤ b / 64) by (apply Z.div_pos; lia).
  destruct (Z.ltb_spec (b / 64) len) as [Hlt|Hge]; [|done]. rewrite Hpos. ostep.
  assert (negb (Z.land (Z.shiftr (view_word ab allocs frees (b / 64)) (b mod 64)) 1 =? 0) = view_bit ab allocs frees b) as ->.
  { replace b with (b + 0) at 3 by lia. rewrite view_bit_word, Z.add_0_r by lia. set (x := view_word ab allocs frees (b / 64)).
    change 1 with (Z.ones 1). rewrite Z.land_ones by lia. change (2 ^ 1) with 2.
    rewrite <-Z.bit0_mod, Z.shiftr_spec, Z.add_0_l by lia. by destruct (Z.testbit x (b mod 64)). }
  unfold BITMAP_WORD_BITS. destruct (Z.eqb_spec (b mod 64 + 1) 64).
  - destruct (fetch_word (bitmap_word_iter it) (b / 64 + 1)) as (cur & it' & -> & Hcur' & Hit'); [lia|done|]. ostep.
    eexists. split; [done|].
    assert ((b + 1) / 64 = b / 64 + 1 ∧ (b + 1) mod 64 = 0) as [Hd Hm]
      by (split; [symmetry; apply Z.div_unique with 0|symmetry; apply Z.mod_unique with (b / 64 + 1)]; lia).
    unfold bit_at. rewrite Hd, Hm. split_and!; [lia|done..].
  - eexists. split; [done|].
    assert ((b + 1) / 64 = b / 64 ∧ (b + 1) mod 64 = b mod 64 + 1) as [Hd Hm]
      by (split; [symmetry; apply Z.div_unique with (b mod 64 + 1)|symmetry; apply Z.mod_unique with (b / 64)]; lia).
    unfold bit_at. rewrite Hd, Hm. cbn. zdec. split_and!; [lia|done|done|by revert Hit].
Qed.

Lemma chunk_bits (x y : Z) c p i :
  in_u 64 x → in_u 64 y → 0 ≤ p < 64 → 0 ≤ i < c → c ≤ 64 → 64 < p + c →
  Z.testbit (Z.lor (Z.shiftr x p) (wrap 64 (Z.shiftl y (64 - p)))) i =
  if p + i <? 64 then Z.testbit x (p + i) else Z.testbit y (p + i - 64).
Proof.
  intros Hx Hy ????. rewrite Z.lor_spec, Z.shiftr_spec by lia. unfold wrap. rewrite Z.mod_pow2_bits_low by lia.
  rewrite Z.shiftl_spec by lia. replace (i - (64 - p)) with (p + i - 64) by lia. replace (i + p) with (p + i) by lia. zcase.
  - rewrite (Z.testbit_neg_r y) by lia. apply orb_false_r.
  - by rewrite (testbit_high 64 x) by (done || lia).
Qed.

Lemma chunked_iter_next_Ok it b c :
  0 < c ≤ 64 → bit_at it b →
  if b / 64 <? len then
    ∃ v it', chunked_iter_next ab allocs frees (it, c) = Ok (Some v, (it', c)) ∧ bit_at it' (b + c) ∧ in_u c v ∧
      ∀ i, 0 ≤ i < c → Z.testbit v i = view_bit ab allocs frees (b + i)
  else chunked_iter_next ab allocs frees (it, c) = Ok (None, (it, c)).
Proof.
  intros Hc (Hb0 & Hpos & Hcur & Hit). unfold chunked_iter_next. rewrite Hcur. destruct (block_split b) as [Hb ?].
  assert (0 ≤ b / 64) by (apply Z.div_pos; lia).
  destruct (Z.ltb_spec (b / 64) len) as [Hlt|Hge]; [|done]. rewrite Hpos. ostep. unfold BITMAP_WORD_BITS.
  set (x := view_word ab allocs frees (b / 64)). assert (in_u 64 x) as Hx by apply view_word_in_u.
  assert (∀ v, 0 ≤ v → in_u c (Z.land v (2 ^ c - 1)) ∧ ∀ i, 0 ≤ i < c → Z.testbit (Z.land v (2 ^ c - 1)) i = Z.testbit v i) as Hmask.
  { intros v Hv. rewrite Z.sub_1_r, <-Z.ones_equiv, Z.land_ones by lia. split; [apply wrap_in_u; lia|].
    intros i Hi. apply Z.mod_pow2_bits_low. lia. }
  assert (0 ≤ Z.shiftr x (b mod 64)) as Hx0 by (apply Z.shiftr_nonneg, Hx).
  rewrite trailing_bits_mask_u_spec by lia. destruct (Z.leb_spec 64 (b mod 64 + c)) as [Hcross|Hin].
  - ostep. destruct (fetch_word (bitmap_word_iter it) (b / 64 + 1)) as (cur & it' & -> & Hcur' & Hit'); [lia|done|]. ostep.
    set (y := default 0 (snd <$> cur)).
    assert (in_u 64 y) as Hy by (unfold y; rewrite Hcur'; destruct (_ <? len); [apply view_word_in_u|done]).
    assert (∀ i, 0 ≤ i < c → 64 ≤ b mod 64 + i → Z.testbit y (b mod 64 + i - 64) = view_bit ab allocs frees (b + i)) as Hyb.
    { intros i ??. unfold view_bit.
      replace ((b + i) / 64) with (b / 64 + 1) by (apply Z.div_unique with (b mod 64 + i - 64); lia).
      replace ((b + i) mod 64) with (b mod 64 + i - 64) by (apply Z.mod_unique with (b / 64 + 1); lia).
      unfold y. rewrite Hcur'. destruct (_ <? len); cbn; [done|apply Z.bits_0]. }
    assert ((b + c) / 64 = b / 64 + 1 ∧ (b + c) mod 64 = b mod 64 + c - 64) as [Hd Hm]
      by (split; [symmetry; apply Z.div_unique with (b mod 64 + c - 64)|symmetry; apply Z.mod_unique with (b / 64 + 1)]; lia).
    assert (bit_at (mk_bit_iter it' (snd <$> cur) (b mod 64 + c - 64)) (b + c)) as Hbit
      by (unfold bit_at; rewrite Hd, Hm; split_and!; [lia|done..]).
    destruct (Z.ltb_spec 0 (b mod 64 + c - 64)) as [Hover|Hexact].
    + ostep. replace (c - (b mod 64 + c - 64)) with (64 - b mod 64) by lia.
      do 2 eexists. split; [done|]. split; [done|].
      assert (0 ≤ wrap 64 (Z.shiftl y (64 - b mod 64))) by (apply wrap_in_u; lia).
      edestruct Hmask as [Hu Hbits]; [apply Z.lor_nonneg; split; [exact Hx0|done]|]. split; [exact Hu|]. intros i Hi. rewrite Hbits by done.
      rewrite (chunk_bits x y c) by (done || lia). zcase; [|by rewrite Hyb]. rewrite view_bit_word by lia. done.
    + ostep. do 2 eexists. split; [done|]. split; [done|]. destruct (Hmask _ Hx0) as [Hu Hbits]. split; [done|].
      intros i Hi. rewrite Hbits, Z.shiftr_spec, view_bit_word by lia. f_equal. lia.
  - ostep. do 2 eexists. split; [done|]. split.
    + assert ((b + c) / 64 = b / 64 ∧ (b + c) mod 64 = b mod 64 + c) as [Hd Hm]
        by (split; [symmetry; apply Z.div_unique with (b mod 64 + c)|symmetry; apply Z.mod_unique with (b / 64)]; lia).
      unfold bit_at. rewrite Hd, Hm. cbn. zdec. split_and!; [lia|done|done|by revert Hit].
    + destruct (Hmask _ Hx0) as [Hu Hbits]. split; [done|]. intros i Hi. rewrite Hbits, Z.shiftr_spec, view_bit_word by lia. f_equal. lia.
Qed.
End ViewProofs.

(** ** Applying and setting *)

Section ApplyProofs.
Context {B : Build} {Alloc : Allocator} {P : ImageLayout.Platform}.
Implicit Types (ab : AllocBitmap) (sb : SparseAllocBitmap).

Lemma sparse_iter_next_Ok sb pre post :
  entries sb = pre ++ post → Forall entry_ok post →
  sparse_iter_next sb (length pre) =
  match post with
  | [] => Ok (None, length pre)
  | e :: _ => Ok (Some (bitmap_word_index e * 64, bitmap_word e), (length pre + 1)%nat)
  end.
Proof.
  intros Hsb Hok. unfold sparse_iter_next. rewrite Hsb, length_app. destruct post as [|e post]; cbn [length]; zdec; [done|].
  rewrite idx_middle. ostep. inversion Hok as [|? ? [? _] _]; subst. rewrite shl_word by (unfold in_u; lia). done.
Qed.

Definition combine (is_free : bool) (old word : Z) : Z := if is_free then Z.land old (unot 64 word) else Z.lor old word.

Lemma base_word_insert words i x w :
  (i < length words)%nat →
  base_word (mk_bitmap (<[i:=x]> words)) w = if w =? Z.of_nat i then x else base_word (mk_bitmap words) w.
Proof.
  intros. unfold base_word. cbn. repeat zcase; try lia; try done.
  - subst w. by rewrite Nat2Z.id, list_lookup_insert_eq.
  - by rewrite list_lookup_insert_ne by lia.
Qed.

Lemma combine_0 is_free x : in_u 64 x → combine is_free x 0 = x.
Proof. intros. unfold combine. destruct is_free; [by rewrite land_unot_0|apply Z.lor_0_r]. Qed.
Lemma combine_in_u is_free x y : in_u 64 x → in_u 64 y → in_u 64 (combine is_free x y).
Proof.
  intros. unfold combine. destruct is_free; [|by apply lor_in_u]. apply land_in_u; [done..|]. by apply (unot_in_u 64).
Qed.

Lemma apply_pending_loop_spec sb is_free fuel : ∀ words pre post,
  entries sb = pre ++ post → entries_wf post → Forall (in_u 64) words → Z.of_nat (length words) < 2 ^ 58 →
  Z.of_nat (length words) < 2 ^ usize_bits →
  (∀ e, e ∈ post → bitmap_word_index e < Z.of_nat (length words)) → (length post ≤ fuel)%nat →
  ∃ words', apply_pending_loop fuel words sb (length pre) is_free = Ok words' ∧ length words' = length words ∧
    Forall (in_u 64) words' ∧
    ∀ w, base_word (mk_bitmap words') w = combine is_free (base_word (mk_bitmap words) w) (word_at post w).
Proof.
  induction fuel as [|fuel IH]; intros words pre post Hsb Hwf Hw Hlen Hus Hlt Hf; cbn [apply_pending_loop];
    rewrite (sparse_iter_next_Ok sb pre post) by (done || apply Hwf); destruct post as [|e post]; try (cbn in Hf; lia).
  1,2: ostep; exists words; split_and!; [done..|]; intros w; rewrite combine_0; [done|];
    apply (base_word_in_u (mk_bitmap words)); split; done.
  ostep. rewrite Z.div_mul by lia. apply entries_wf_cons in Hwf as ([? ?] & Hwf & Hbefore).
  assert (bitmap_word_index e < Z.of_nat (length words)) by (apply Hlt; left). unfold usize_try_from. zdec.
  assert (bitmap_wf (mk_bitmap words)) as Hbw by (by split).
  pose proof (base_word_lookup (mk_bitmap words) (bitmap_word_index e) ltac:(cbn; lia)) as Hidx. cbn in Hidx. rewrite Hidx. ostep.
  fold (combine is_free (base_word (mk_bitmap words) (bitmap_word_index e)) (bitmap_word e)).
  set (x := combine is_free _ _).
  assert (in_u 64 x) as Hx by (apply combine_in_u; [by apply base_word_in_u|done]).
  replace (length pre + 1)%nat with (length (pre ++ [e])) by (rewrite length_app; cbn; lia).
  destruct (IH (<[Z.to_nat (bitmap_word_index e):=x]> words) (pre ++ [e]) post) as (words' & -> & Hl' & Hw' & Hb');
    rewrite ?length_insert; [by rewrite <-app_assoc|done|by apply Forall_insert|done|done|intros e' He'; apply Hlt; by right|cbn in Hf; lia|].
  exists words'. rewrite length_insert in Hl'. split_and!; [done..|]. intros w. rewrite Hb', base_word_insert by lia.
  cbn [word_at]. rewrite Z2Nat.id by lia. destruct (Z.eqb_spec w (bitmap_word_index e)) as [->|?]; zdec.
  - rewrite word_at_absent; [by apply combine_0|]. intros e' He'. specialize (Hbefore e' He'). unfold before in Hbefore. lia.
  - done.
Qed.

(** The changes fit the bitmap. *)
Definition within ab sb : Prop := ∀ e, e ∈ entries sb → bitmap_word_index e < Z.of_nat (length (bitmap ab)).

Lemma apply_pending_spec ab sb is_free :
  bitmap_wf ab → Z.of_nat (length (bitmap ab)) < 2 ^ usize_bits → entries_wf (entries sb) → within ab sb →
  ∃ ab', apply_pending ab sb is_free = Ok ab' ∧ bitmap_wf ab' ∧ length (bitmap ab') = length (bitmap ab) ∧
    ∀ w, base_word ab' w = combine is_free (base_word ab w) (word_at (entries sb) w).
Proof.
  intros [Hw Hlen] Hus Hwf Hin. unfold apply_pending.
  destruct (apply_pending_loop_spec sb is_free (length (entries sb)) (bitmap ab) [] (entries sb)) as (words & Heq & Hl & Hw' & Hb); try done.
  cbn [length] in Heq. unfold sparse_iter_new. rewrite Heq. ostep. eexists. split; [done|]. split_and!; [split; [done|cbn; lia]|done|]. by destruct ab.
Qed.

(** *** [set_in_range] *)

Lemma bitmap_set_loop_spec r (v : bool) n : range_ok r → ∀ i words off,
  off = Z.max (rng_begin r - 64 * Z.of_nat i) 0 → off < 64 → 64 * Z.of_nat (i + n - 1) < rng_end r →
  (n = 0 ∨ i + n ≤ length words)%nat → Forall (in_u 64) words →
  ∃ words', bitmap_set_loop n i words (if v then unot 64 0 else 0) (Z.max 0 (rng_end r - 64 * Z.of_nat i - off)) off = Ok words' ∧
    length words' = length words ∧ Forall (in_u 64) words' ∧
    ∀ w, base_word (mk_bitmap words') w =
      if bool_decide (Z.of_nat i ≤ w < Z.of_nat (i + n)) then bitmap_word (set_word r v (mk_entry w (base_word (mk_bitmap words) w)))
      else base_word (mk_bitmap words) w.
Proof.
  intros [Hr Hr']. induction n as [|n IH]; intros i words off Hoff Hoff64 Hend Hlen Hw; cbn [bitmap_set_loop].
  { exists words. split_and!; [done..|]. intros w. by rewrite bool_decide_eq_false_2 by lia. }
  unfold BITMAP_WORD_BITS. ostep. rewrite Z.max_r by lia.
  pose proof (range_mask_Ok r (Z.of_nat i) (rng_end r - 64 * Z.of_nat i - off) off ltac:(lia) Hoff Hoff64 eq_refl) as Hmask.
  apply obind_Ok_inv in Hmask as (mask & -> & Hmask). cbn [obind]. rewrite Hmask. ostep.
  destruct (idx_lt (E:=NvFsError) words i ltac:(lia)) as (x & Hx & ->). ostep.
  pose proof (set_word_eq r v (Z.of_nat i) x) as Hset. apply (f_equal bitmap_word) in Hset. cbn [bitmap_word] in Hset. rewrite Hset.
  set (x' := bitmap_word (set_word r v (mk_entry (Z.of_nat i) x))).
  assert (in_u 64 x) as Hxu by (by eapply Forall_lookup_1 in Hx).
  assert (in_u 64 x') as Hxu' by (by apply (set_word_in_u r v (mk_entry (Z.of_nat i) x))).
  ostep.
  destruct (IH (S i) (<[i:=x']> words) 0) as (words' & Heq & Hl & Hw' & Hb); rewrite ?length_insert;
    [lia|lia|rewrite Nat.add_succ_comm; done|lia|by apply Forall_insert|].
  replace (rng_end r - 64 * Z.of_nat i - off - _) with (Z.max 0 (rng_end r - 64 * Z.of_nat (S i) - 0)) by lia.
  rewrite Heq. exists words'. rewrite length_insert in Hl. split_and!; [done..|]. intros w. rewrite Hb, base_word_insert by lia.
  destruct (Z.eqb_spec w (Z.of_nat i)) as [->|?].
  - rewrite bool_decide_eq_false_2, bool_decide_eq_true_2 by lia. unfold x'. do 3 f_equal.
    unfold base_word. cbn [bitmap]. zdec. by rewrite Nat2Z.id, Hx.
  - by rewrite (bool_decide_ext (Z.of_nat (S i) ≤ w < Z.of_nat (S i + n)) (Z.of_nat i ≤ w < Z.of_nat (i + S n))) by lia.
Qed.
End ApplyProofs.

Section SetProofs.
Context {B : Build} {Alloc : Allocator} {P : ImageLayout.Platform}.
Implicit Types (ab : AllocBitmap).

Lemma base_bit_beyond ab b : Z.of_nat (length (bitmap ab)) ≤ b / 64 ∨ b < 0 → base_bit ab b = false.
Proof.
  intros Hb. unfold base_bit, base_word. destruct (Z.leb_spec 0 (b / 64)) as [?|?]; [|apply Z.bits_0].
  rewrite lookup_ge_None_2; [apply Z.bits_0|]. destruct Hb as [?|?]; [lia|].
  assert (b / 64 < 0) by (apply Z.div_lt_upper_bound; lia). lia.
Qed.

(** Writing the words [i] to [j]. *)
Lemma set_words_bits ab ab' r (v : bool) i j b :
  (∀ w, base_word ab' w =
     if bool_decide (i ≤ w < j) then bitmap_word (set_word r v (mk_entry w (base_word ab w))) else base_word ab w) →
  (b ∈ r → i ≤ b / 64 < j ∨ base_bit ab b = v) →
  base_bit ab' b = if bool_decide (b ∈ r) then v else base_bit ab b.
Proof.
  intros Hw Hcov. unfold base_bit in *. rewrite Hw. destruct (block_split b) as [Hb ?]. case_bool_decide as Hin.
  - rewrite set_word_testbit by done. cbn [bitmap_word_index bitmap_word]. by rewrite <-Hb.
  - case_bool_decide as Hr; [|done]. destruct (Hcov Hr) as [?|?]; [done|done].
Qed.

Lemma set_in_range_spec ab r (v : bool) :
  bitmap_wf ab → range_ok r → last_word r + 1 < 2 ^ usize_bits →
  if v && (Z.of_nat (length (bitmap ab)) <=? last_word r) then set_in_range ab r v = Err (IoError RegionOutOfRange)
  else ∃ ab', set_in_range ab r v = Ok ab' ∧ bitmap_wf ab' ∧ length (bitmap ab') = length (bitmap ab) ∧
    ∀ b, base_bit ab' b = if bool_decide (b ∈ r) then v else base_bit ab b.
Proof.
  intros Hab Hr Hus. pose proof (range_word_bounds r Hr) as [? ?]. pose proof Hr as [? ?].
  destruct (block_split (rng_begin r)) as [Hb ?]. destruct (block_split (rng_end r - 1)) as [He ?].
  fold (first_word r) in Hb. fold (last_word r) in He.
  assert (∀ n, (Z.to_nat (first_word r) + n = Z.to_nat (Z.min (last_word r + 1) (Z.of_nat (length (bitmap ab)))))%nat → first_word r < Z.of_nat (length (bitmap ab)) →
    ∃ ab', (let! words := bitmap_set_loop n (Z.to_nat (first_word r)) (bitmap ab) (if v then unot 64 0 else 0)
        (rng_end r - rng_begin r) (rng_begin r mod 64) in Ok (mk_bitmap words)) = Ok (E:=NvFsError) ab' ∧
      bitmap_wf ab' ∧ length (bitmap ab') = length (bitmap ab) ∧
      ∀ w, base_word ab' w = if bool_decide (first_word r ≤ w < Z.min (last_word r + 1) (Z.of_nat (length (bitmap ab))))
        then bitmap_word (set_word r v (mk_entry w (base_word ab w))) else base_word ab w) as Hrun.
  { intros n Hn Hlt. destruct Hab as [Hw Hlen].
    destruct (bitmap_set_loop_spec r v n Hr (Z.to_nat (first_word r)) (bitmap ab) (rng_begin r mod 64)) as (words & Heq & Hl & Hw' & Hbw);
      [lia|lia| |lia|done|].
    { rewrite Hn. lia. }
    replace (rng_end r - rng_begin r) with (Z.max 0 (rng_end r - 64 * Z.of_nat (Z.to_nat (first_word r)) - rng_begin r mod 64)) by lia.
    rewrite Heq. ostep. eexists. split; [done|]. split_and!; [split; [done|cbn; lia]|done|]. intros w. rewrite Hbw.
    rewrite (bool_decide_ext _ (first_word r ≤ w < Z.min (last_word r + 1) (Z.of_nat (length (bitmap ab))))) by lia. by destruct ab. }
  unfold set_in_range. rewrite block_count_Ok by lia. ostep. rewrite land_word. fold (first_word r) (last_word r). ostep.
  unfold usize_try_from. zdec. destruct (Z.leb_spec (Z.of_nat (length (bitmap ab))) (last_word r)) as [Hover|Hin].
  - zdec. destruct v; [done|]. cbn [andb]. destruct (Z.leb_spec (Z.of_nat (length (bitmap ab))) (first_word r)).
    + exists ab. split_and!; [done..|]. intros b. case_bool_decide as Hbr; [|done]. apply base_bit_beyond. left.
      pose proof (range_blocks_words r b Hr Hbr). lia.
    + destruct (Hrun (length (bitmap ab) - Z.to_nat (first_word r))%nat) as (ab' & -> & Hwf' & Hl & Hbw); [lia|lia|].
      exists ab'. split_and!; [done..|]. intros b. eapply set_words_bits; [exact Hbw|]. intros Hbr.
      pose proof (range_blocks_words r b Hr Hbr). destruct (Z.lt_ge_cases (b / 64) (Z.of_nat (length (bitmap ab)))); [left; unfold word_count in *; lia|].
      right. by apply base_bit_beyond; left.
  - rewrite andb_false_r. zdec. destruct (Hrun (Z.to_nat (last_word r + 1) - Z.to_nat (first_word r))%nat) as (ab' & -> & Hwf' & Hl & Hbw); [lia|lia|].
    exists ab'. split_and!; [done..|]. intros b. eapply set_words_bits; [exact Hbw|]. intros Hbr.
    pose proof (range_blocks_words r b Hr Hbr). left. unfold word_count in *. lia.
Qed.

(** *** [new] and [resize] *)

(** The number of words for a number of blocks. *)
Definition words_for (blocks : Z) : Z := (blocks + 63) / 64.

Lemma words_for_eq blocks : 0 < blocks → (blocks - 1) / 64 + 1 = words_for blocks.
Proof. intros. unfold words_for. replace (blocks + 63) with (blocks - 1 + 1 * 64) by lia. by rewrite Z.div_add by lia. Qed.

Lemma base_bit_app l l' b :
  base_bit (mk_bitmap (l ++ l')) b =
  if b / 64 <? Z.of_nat (length l) then base_bit (mk_bitmap l) b else base_bit (mk_bitmap l') (b - 64 * Z.of_nat (length l)).
Proof.
  unfold base_bit, base_word. cbn [bitmap].
  replace ((b - 64 * Z.of_nat (length l)) / 64) with (b / 64 - Z.of_nat (length l))
    by (replace (b - _) with (b + (- Z.of_nat (length l)) * 64) by lia; rewrite Z.div_add by lia; lia).
  replace ((b - 64 * Z.of_nat (length l)) mod 64) with (b mod 64)
    by (replace (b - _) with (b + (- Z.of_nat (length l)) * 64) by lia; by rewrite Z.mod_add by lia).
  destruct (Z.ltb_spec (b / 64) (Z.of_nat (length l))).
  - zcase; [|done]. by rewrite lookup_app_l by lia.
  - zdec. rewrite lookup_app_r by lia. do 3 f_equal. lia.
Qed.

Lemma base_bit_zeros n b : base_bit (mk_bitmap (replicate n 0)) b = false.
Proof.
  unfold base_bit, base_word. cbn [bitmap]. zcase; [|apply Z.bits_0].
  destruct (replicate n 0 !! Z.to_nat (b / 64)) as [x|] eqn:Hx; [|apply Z.bits_0].
  apply lookup_replicate in Hx as [-> _]. apply Z.bits_0.
Qed.
End SetProofs.

Section ResizeProofs.
Context {B : Build} {Alloc : Allocator} {P : ImageLayout.Platform}.
Implicit Types (ab : AllocBitmap).

Lemma last_word_bits blocks :
  0 < blocks < 2 ^ 64 →
  usub (E:=NvFsError) 32 64 (Z.land (wrapping_neg 64 blocks) (2 ^ BITMAP_WORD_BITS_LOG2 - 1)) =
  Ok (blocks - 64 * (words_for blocks - 1)) ∧ 1 ≤ blocks - 64 * (words_for blocks - 1) ≤ 64.
Proof.
  intros. rewrite land_word, <-words_for_eq by lia. destruct (block_split (blocks - 1)) as [Hb ?].
  assert (wrapping_neg 64 blocks mod 64 = 63 - (blocks - 1) mod 64) as ->.
  { unfold wrapping_neg, wrap. rewrite Z.mod_mod_divide by (by exists (2 ^ 58)). symmetry.
    apply Z.mod_unique with (- ((blocks - 1) / 64 + 1)); lia. }
  rewrite usub_Ok by lia. split; [f_equal; lia|lia].
Qed.

Lemma truncated_bits ab n k :
  bitmap_wf ab → (0 < n ≤ length (bitmap ab))%nat → 0 < k ≤ 64 →
  ∃ ab', (let! word := idx (E:=NvFsError) (take n (bitmap ab)) (n - 1) in
          let! words := set_idx (take n (bitmap ab)) (n - 1) (Z.land word (2 ^ k - 1)) in Ok (mk_bitmap words)) = Ok ab' ∧
    bitmap_wf ab' ∧ length (bitmap ab') = n ∧
    ∀ b, base_bit ab' b = base_bit ab b && (b <? 64 * (Z.of_nat n - 1) + k).
Proof.
  intros [Hw Hlen] Hn Hk. assert (length (take n (bitmap ab)) = n) as Hlt by (rewrite length_take; lia).
  destruct (idx_lt (E:=NvFsError) (take n (bitmap ab)) (n - 1)) as (x & Hx & ->); [lia|]. ostep.
  eexists. split; [done|].
  assert (Forall (in_u 64) (take n (bitmap ab))) as Hw' by (by apply Forall_take).
  assert (in_u 64 x) as Hxu by (by eapply Forall_lookup_1 in Hx).
  assert (in_u 64 (Z.land x (2 ^ k - 1))) as Hxu'.
  { apply land_in_u; [done..|]. pose proof (pow2_pos k). lia. }
  split_and!.
  - split; [by apply Forall_insert|]. cbn. rewrite length_insert. lia.
  - cbn. by rewrite length_insert.
  - intros b. destruct (block_split b) as [Hb ?]. unfold base_bit. rewrite base_word_insert by lia.
    rewrite lookup_take_lt in Hx by lia.
    destruct (Z.eqb_spec (b / 64) (Z.of_nat (n - 1))) as [Heq|Hne].
    + rewrite Z.land_spec. rewrite Z.sub_1_r, <-Z.ones_equiv, Z.testbit_ones_nonneg by lia. f_equal.
      * unfold base_word. zdec. by rewrite Heq, Nat2Z.id, Hx.
      * repeat zcase; lia.
    + unfold base_word. cbn [bitmap]. destruct (Z.leb_spec 0 (b / 64)); [|by rewrite Z.bits_0].
      destruct (Z.lt_ge_cases (b / 64) (Z.of_nat n)).
      * rewrite lookup_take_lt by lia. zdec. by rewrite andb_true_r.
      * rewrite lookup_take_ge by lia. cbn. rewrite Z.bits_0. zdec. by rewrite andb_false_r.
Qed.

(** The blocks that keep their value when the bitmap is resized. *)
Definition resize_limit ab (blocks : Z) : Z :=
  if words_for blocks <? Z.of_nat (length (bitmap ab)) then blocks else 64 * words_for blocks.

Lemma resize_spec ab blocks :
  bitmap_wf ab → 0 ≤ blocks < 2 ^ 62 →
  match resize ab blocks with
  | Ok ab' => bitmap_wf ab' ∧ Z.of_nat (length (bitmap ab')) = words_for blocks ∧
      ∀ b, base_bit ab' b = base_bit ab b && (b <? resize_limit ab blocks)
  | Err e => (e = DimensionsNotSupported ∧ 2 ^ usize_bits ≤ words_for blocks) ∨
      (e = MemoryAllocationFailure ∧ Z.of_nat (length (bitmap ab)) ≤ words_for blocks)
  | _ => False
  end.
Proof.
  intros Hab Hbl. unfold resize. destruct (Z.eqb_spec blocks 0) as [->|Hnz].
  { split_and!; [split; [constructor|cbn; lia]|done|]. intros b. rewrite base_bit_beyond.
    - symmetry. apply andb_false_iff. unfold resize_limit. change (words_for 0) with 0. destruct (Z.lt_ge_cases b 0).
      + left. apply base_bit_beyond. by right.
      + right. repeat zcase; lia.
    - destruct (Z.lt_ge_cases b 0); [by right|left]. cbn. apply Z.div_pos; lia. }
  ostep. assert (0 ≤ (blocks - 1) / 64 < 2 ^ 57) by (split; [apply Z.div_pos; lia|apply Z.div_lt_upper_bound; lia]).
  rewrite uadd_Ok by lia. ostep. rewrite words_for_eq by lia.
  assert (0 < words_for blocks ≤ 2 ^ 57) by (rewrite <-words_for_eq by lia; lia).
  unfold usize_try_from. destruct (Z.ltb_spec (words_for blocks) (2 ^ usize_bits)); [|left; done].
  unfold resize_limit. destruct (Nat.ltb_spec (Z.to_nat (words_for blocks)) (length (bitmap ab))).
  - ostep. destruct (last_word_bits blocks) as [-> ?]; [lia|]. ostep. rewrite trailing_bits_mask_u_spec by lia. ostep.
    destruct (truncated_bits ab (Z.to_nat (words_for blocks)) (blocks - 64 * (words_for blocks - 1))) as (ab' & -> & Hwf & Hl & Hb); [done|lia|lia|].
    split_and!; [done|lia|]. intros b. rewrite Hb. zdec. f_equal. f_equal. lia.
  - ostep. unfold try_reserve. destruct (alloc_ok _ _); ostep; [|right; split; [done|lia]].
    destruct Hab as [Hw Hlen]. split_and!.
    + split; [apply Forall_app; split; [done|]; by apply Forall_replicate|]. cbn. rewrite length_app, length_replicate. lia.
    + cbn. rewrite length_app, length_replicate. lia.
    + intros b. zdec. rewrite base_bit_app. destruct (block_split b) as [Hb ?]. zcase.
      * rewrite (proj2 (Z.ltb_lt b _)) by lia. by rewrite andb_true_r; destruct ab.
      * rewrite base_bit_zeros. rewrite base_bit_beyond by (by left). done.
Qed.

Lemma new_spec blocks :
  0 ≤ blocks < 2 ^ 62 →
  match new blocks with
  | Ok ab' => bitmap_wf ab' ∧ Z.of_nat (length (bitmap ab')) = words_for blocks ∧ ∀ b, base_bit ab' b = false
  | Err e => (e = DimensionsNotSupported ∧ 2 ^ usize_bits ≤ words_for blocks) ∨ e = MemoryAllocationFailure
  | _ => False
  end.
Proof.
  intros Hbl. unfold new. destruct (Z.eqb_spec blocks 0) as [->|Hnz].
  { split_and!; [split; [constructor|cbn; lia]|done|]. intros b. apply (base_bit_zeros 0). }
  ostep. assert (0 ≤ (blocks - 1) / 64 < 2 ^ 57) by (split; [apply Z.div_pos; lia|apply Z.div_lt_upper_bound; lia]).
  rewrite uadd_Ok by lia. ostep. rewrite words_for_eq by lia. assert (0 < words_for blocks ≤ 2 ^ 57) by (rewrite <-words_for_eq by lia; lia).
  unfold usize_try_from. zcase; [|left; done]. unfold try_reserve. destruct (alloc_ok _ _); ostep; [|by right].
  split_and!; [|cbn; rewrite length_replicate; lia|intros; apply base_bit_zeros].
  split; [by apply Forall_replicate|]. cbn. rewrite length_replicate. lia.
Qed.
End ResizeProofs.

(** ** Clearing redundant bits *)

Abbreviation rb_of dn zs := (match zs with [] => None | _ => Some (length dn) end).

Section ClearProofs.
Context {B : Build} {P : ImageLayout.Platform}.
Variables (ab : AllocBitmap) (invert_mask : Z).

Definition clear_word (e : SparseAllocBitmapEntry) : SparseAllocBitmapEntry :=
  mk_entry (bitmap_word_index e)
    (Z.land (bitmap_word e) (Z.lxor (bitmap_word_or_zero ab (bitmap_word_index e)) invert_mask)).

Lemma clear_redundant_loop_spec rest : ∀ fuel dn zs,
  (length rest ≤ fuel)%nat →
  clear_redundant_loop fuel (dn ++ zs ++ rest) ab invert_mask (length (dn ++ zs)) (rb_of dn zs) =
  Ok (dn ++ filter (λ e, bitmap_word e ≠ 0) (clear_word <$> rest)).
Proof.
  induction rest as [|e rest IH]; intros fuel dn zs Hf.
  - cbn [fmap list_fmap]. rewrite filter_nil, !app_nil_r.
    assert ((length (dn ++ zs) <? length (dn ++ zs))%nat = false) as Hlt by (apply Nat.ltb_ge; lia).
    destruct fuel; cbn [clear_redundant_loop]; rewrite Hlt; destruct zs as [|z zs]; rewrite ?app_nil_r; try done; by rewrite take_app_length.
  - destruct fuel as [|fuel]; [cbn in Hf; lia|]. cbn [clear_redundant_loop].
    assert ((length (dn ++ zs) <? length (dn ++ zs ++ e :: rest))%nat = true) as -> by (apply Nat.ltb_lt; rewrite !length_app; cbn; lia).
    rewrite (app_assoc dn zs), idx_middle. ostep. fold (clear_word e).
    change (Z.land (bitmap_word e) _) with (bitmap_word (clear_word e)). rewrite fmap_cons. cbn in Hf.
    destruct (Z.eqb_spec (bitmap_word (clear_word e)) 0) as [Hz|Hnz]; cbn [negb].
    + rewrite filter_cons_False by lia. rewrite <-app_assoc.
      pose proof (IH fuel dn (zs ++ [clear_word e]) ltac:(lia)) as Hrun. rewrite <-!app_assoc in Hrun. cbn [app] in Hrun.
      replace (length (dn ++ zs) + 1)%nat with (length (dn ++ zs ++ [clear_word e])) by (rewrite !length_app; cbn; lia).
      rewrite <-Hrun. f_equal. destruct zs; cbn; [by rewrite app_nil_r|done].
    + rewrite filter_cons_True by done. rewrite <-app_assoc, flush_removed_Ok. ostep.
      pose proof (IH fuel (dn ++ [clear_word e]) [] ltac:(lia)) as Hrun. rewrite <-!app_assoc in Hrun. cbn [app] in Hrun.
      replace (length dn + 1)%nat with (length (dn ++ [clear_word e])) by (rewrite !length_app; cbn; lia).
      done.
Qed.
End ClearProofs.

(** The entries after any word-wise change that keeps the positions. *)
Lemma word_at_used_fmap (f : SparseAllocBitmapEntry → SparseAllocBitmapEntry) (g : Z → Z → Z) l w :
  StronglySorted before l → (∀ e, f e = mk_entry (bitmap_word_index e) (g (bitmap_word_index e) (bitmap_word e))) → (∀ w, g w 0 = 0) →
  word_at (filter (λ e, bitmap_word e ≠ 0) (f <$> l)) w = g w (word_at l w).
Proof.
  intros Hs Hf Hg. assert (StronglySorted before (f <$> l)) as Hs'
    by (eapply StronglySorted_fmap; [|exact Hs]; intros x y; unfold before; by rewrite !Hf).
  pose proof (presentP l w) as Hp. destruct (present l w).
  - destruct Hp as (e & He & <-). rewrite (word_at_elem l e) by done.
    destruct (decide (bitmap_word (f e) = 0)) as [Hz|Hnz].
    + pose proof Hz as Hz'. rewrite Hf in Hz'. cbn in Hz'. rewrite Hz'.
      apply word_at_absent. intros e' [Hnz (e0 & -> & He0)%list_elem_of_fmap]%list_elem_of_filter Heq.
      apply Hnz. rewrite Hf in Heq. cbn in Heq. rewrite Hf. cbn.
      assert (bitmap_word e0 = bitmap_word e) as -> by (rewrite <-(word_at_elem l e0), <-(word_at_elem l e) by done; congruence).
      by rewrite Heq.
    + replace (bitmap_word_index e) with (bitmap_word_index (f e)) at 1 by (by rewrite Hf).
      rewrite word_at_elem; [by rewrite Hf|by apply StronglySorted_filter|].
      apply list_elem_of_filter. split; [done|]. by apply list_elem_of_fmap_2.
  - rewrite (word_at_absent l) by done. rewrite Hg. apply word_at_absent.
    intros e' [_ (e0 & -> & He0)%list_elem_of_fmap]%list_elem_of_filter. rewrite Hf. cbn. by apply Hp.
Qed.

Section ClearSpec.
Context {B : Build} {P : ImageLayout.Platform}.

Lemma bitmap_word_or_zero_base ab w :
  Z.of_nat (length (bitmap ab)) < 2 ^ usize_bits → 0 ≤ w → bitmap_word_or_zero ab w = base_word ab w.
Proof.
  intros. unfold bitmap_word_or_zero, base_word. zdec. zcase; [done|]. by rewrite lookup_ge_None_2 by lia.
Qed.

Lemma clear_redundant_spec sb ab is_free :
  sparse_wf sb → bitmap_wf ab → Z.of_nat (length (bitmap ab)) < 2 ^ usize_bits →
  ∃ sb', clear_redundant sb ab is_free = Ok sb' ∧ sparse_wf sb' ∧
    ∀ b, tracked (entries sb') b = tracked (entries sb) b && Bool.eqb (base_bit ab b) is_free.
Proof.
  intros ([Hok Hs] & Hu & Hcap & Hres) Hab Hus. unfold clear_redundant.
  assert (∃ mask, (let! t := usub (E:=NvFsError) 64 1 (Z.b2z is_free) in Ok (wrapping_neg 64 t)) = Ok mask ∧ in_u 64 mask ∧
    ∀ i, 0 ≤ i < 64 → Z.testbit mask i = negb is_free) as (mask & Hmask & Hmu & Hbits).
  { destruct is_free; eexists; (split; [done|]); (split; [done|]); intros i Hi; cbn.
    - apply Z.bits_0.
    - change (wrapping_neg 64 (1 - 0)) with (Z.ones 64). apply Z.ones_spec_low. lia. }
  apply obind_Ok_inv in Hmask as (t & Ht & Hm). rewrite Ht. ostep. injection Hm as Hm. rewrite Hm.
  pose proof (clear_redundant_loop_spec ab mask (entries sb) (length (entries sb)) [] [] ltac:(done)) as Hrun.
  cbn [app length] in Hrun. cbn [entries reset_remove_rollback]. rewrite Hrun. ostep. eexists. split; [done|].
  set (es := filter _ _).
  assert (entries_wf es) as Hwf'.
  { apply entries_wf_filter, entries_wf_fmap; [done| |done]. intros e [? ?]. split; [done|]. cbn. apply land_in_u; [done..|].
    apply Z.lxor_nonneg. rewrite bitmap_word_or_zero_base by (done || lia). destruct (base_word_in_u ab Hab (bitmap_word_index e)), Hmu. lia. }
  split.
  - split_and!; [done| | |done].
    + unfold all_used. rewrite Forall_forall. by intros e [? _]%list_elem_of_filter.
    + unfold cap_ok in *. cbn. pose proof (length_filter (λ e, bitmap_word e ≠ 0) (clear_word ab mask <$> entries sb)) as Hlen.
      fold es in Hlen. rewrite length_fmap in Hlen. unfold es in *. cbn in *. lia.
  - intros b. unfold tracked. cbn [entries set_entries].
    unfold es. rewrite (word_at_used_fmap _ (λ w x, Z.land x (Z.lxor (bitmap_word_or_zero ab w) mask))); [|done|done|intros; apply Z.land_0_l].
    destruct (block_split b) as [Hb ?]. rewrite Z.land_spec, Z.lxor_spec, Hbits by done. destruct (Z.lt_ge_cases (b / 64) 0).
    { rewrite word_at_absent; [by rewrite Z.bits_0|]. intros e He. rewrite Forall_forall in Hok. destruct (Hok e He). lia. }
    rewrite bitmap_word_or_zero_base by done. f_equal. unfold base_bit. by destruct (Z.testbit _ _), is_free.
Qed.
End ClearSpec.

(** ** Rolling back a removal *)

Section RollbackProofs.
Context {B : Build} {P : ImageLayout.Platform}.
Variables (ab : AllocBitmap) (v : bool) (r : BlockRange).
Hypothesis Hab : bitmap_wf ab.
Hypothesis Hr : range_ok r.
Hypothesis Hend : rng_end r < 2 ^ 63.

Abbreviation len := (Z.of_nat (length (bitmap ab))).
Abbreviation cleared_entries l := (filter (kept (last_word r + 1)) (set_word r false <$> l)).

(** The iterator over the bitmap moves along, or stays behind its end. *)
Definition base_iter_at (it : WordIter) (w : Z) : Prop := ∃ p, iter_at [] [] it p ∧ 0 ≤ p ∧ (p = w ∨ len ≤ p ≤ w).

Lemma view_word_base w : view_word ab [] [] w = base_word ab w.
Proof. unfold view_word. cbn. rewrite Z.lor_0_r. apply land_unot_0. by apply base_word_in_u. Qed.

Lemma base_iter_next it w :
  0 ≤ w → base_iter_at it w →
  ∃ next it', word_iter_next ab [] [] it = Ok (next, it') ∧ default 0 (snd <$> next) = base_word ab w ∧ base_iter_at it' (w + 1).
Proof.
  intros Hw (p & Hit & Hp & Hpw). destruct (fetch_word ab [] [] Hab ltac:(constructor) ltac:(constructor) it p Hp Hit) as (next & it' & -> & Hn & Hit').
  do 2 eexists. split; [done|]. rewrite Hn. destruct (Z.ltb_spec p len).
  - destruct Hpw as [->|?]; [|lia]. cbn. rewrite view_word_base. split; [done|]. exists (w + 1). split; [done|lia].
  - split; [|exists p; split; [done|lia]]. cbn. unfold base_word. zdec. by rewrite lookup_ge_None_2 by lia.
Qed.

(** A word of the original bitmap, of which the blocks in the range are tracked
    and are changes relative to the bitmap. *)
Definition full_word (e : SparseAllocBitmapEntry) : Prop :=
  entry_ok e ∧ first_word r ≤ bitmap_word_index e ≤ last_word r ∧
  ∀ i, 0 ≤ i < 64 → 64 * bitmap_word_index e + i ∈ r →
    Z.testbit (bitmap_word e) i = true ∧ base_bit ab (64 * bitmap_word_index e + i) = negb v.

Lemma word_mask_elem w i : 0 ≤ i < 64 → Z.testbit (word_mask r w) i = bool_decide (64 * w + i ∈ r).
Proof. intros. by rewrite word_mask_testbit, bool_decide_range. Qed.

Lemma full_word_restored e : full_word e → Z.lor (bitmap_word (set_word r false e)) (word_mask r (bitmap_word_index e)) = bitmap_word e.
Proof.
  intros ([? He] & _ & Hfull). apply word_ext; [|done|].
  - apply lor_in_u; [done|by apply set_word_in_u|apply word_mask_in_u].
  - intros i Hi. rewrite Z.lor_spec, set_word_testbit, word_mask_elem by done. case_bool_decide as Hin.
    + symmetry. by apply Hfull.
    + apply orb_false_r.
Qed.

Lemma full_word_alone e :
  full_word e → bitmap_word (set_word r false e) = 0 → bitmap_word e = word_mask r (bitmap_word_index e).
Proof. intros Hf Hz. rewrite <-(full_word_restored e Hf), Hz. done. Qed.

Lemma full_word_differs e :
  full_word e →
  (Z.land (base_word ab (bitmap_word_index e)) (word_mask r (bitmap_word_index e)) =? (if v then word_mask r (bitmap_word_index e) else 0)) = false.
Proof.
  intros ([? _] & Hin & Hfull). apply Z.eqb_neq. intros Heq.
  destruct (word_in_range r (bitmap_word_index e) Hr Hin) as (i & Hi & Hb). destruct (Hfull i Hi Hb) as [_ Hbit].
  unfold base_bit in Hbit. replace ((64 * bitmap_word_index e + i) / 64) with (bitmap_word_index e) in Hbit by (apply Z.div_unique with i; lia).
  replace ((64 * bitmap_word_index e + i) mod 64) with i in Hbit by (apply Z.mod_unique with (bitmap_word_index e); lia).
  apply (f_equal (λ x, Z.testbit x i)) in Heq. rewrite Z.land_spec, Hbit, word_mask_elem, bool_decide_eq_true_2 in Heq by done.
  destruct v; [rewrite word_mask_elem, bool_decide_eq_true_2 in Heq by done; done|]. by rewrite Z.bits_0 in Heq.
Qed.

Definition dropped (l : list SparseAllocBitmapEntry) : Z := Z.of_nat (length l - length (cleared_entries l)).

Lemma dropped_cons e l :
  bitmap_word_index e ≤ last_word r →
  (bitmap_word (set_word r false e) ≠ 0 → cleared_entries (e :: l) = set_word r false e :: cleared_entries l ∧ dropped (e :: l) = dropped l) ∧
  (bitmap_word (set_word r false e) = 0 → cleared_entries (e :: l) = cleared_entries l ∧ dropped (e :: l) = dropped l + 1).
Proof.
  intros Hle. pose proof (length_filter (kept (last_word r + 1)) (set_word r false <$> l)) as Hlen. rewrite length_fmap in Hlen.
  split; intros Hw; unfold dropped; rewrite fmap_cons.
  - rewrite filter_cons_True by (by left). split; [done|]. cbn [length]. lia.
  - rewrite filter_cons_False by (intros [?|Hk]; [done|cbn in Hk; lia]). split; [done|]. cbn [length]. lia.
Qed.

Lemma repopulate_loop_spec cap reserve tail mid : ∀ fuel it dn w off,
  Forall full_word mid → (∀ e, e ∈ tail → last_word r < bitmap_word_index e) → Forall entry_ok tail →
  map bitmap_word_index mid = seqZ w (last_word r + 1 - w) → first_word r ≤ w ≤ last_word r + 1 → base_iter_at it w →
  off = Z.max (rng_begin r - 64 * w) 0 → off < 64 → 0 ≤ reserve → (length mid ≤ fuel)%nat →
  repopulate_loop fuel (mk_sparse (dn ++ cleared_entries (mid ++ tail)) cap (reserve + dropped (mid ++ tail))) ab v (rng_end r) it (length dn) w
    (Z.max 0 (rng_end r - 64 * w - off)) off =
  Ok (mk_sparse (dn ++ mid ++ tail) cap reserve, inl tt).
Proof.
  pose proof (range_word_bounds r Hr) as [? ?]. pose proof Hr as [? ?]. destruct (block_split (rng_end r - 1)) as [He ?].
  fold (last_word r) in He.
  induction mid as [|e mid IH]; intros fuel it dn w off Hfull Htail Hok Hseq Hw Hit Hoff Hoff64 Hpos Hf.
  - cbn [app map] in *. symmetry in Hseq. assert (w = last_word r + 1) as ->.
    { destruct (Z.lt_ge_cases w (last_word r + 1)); [|lia]. rewrite seqZ_cons in Hseq by lia. done. }
    assert (cleared_entries tail = tail) as Htl.
    { rewrite set_word_fmap_outside; [|done|intros e He'; apply word_outside_range; [done|right; by apply Htail]].
      apply filter_every. intros e He'. right. specialize (Htail e He'). lia. }
    unfold dropped. rewrite Htl, Nat.sub_diag, Z.add_0_r.
    destruct fuel; cbn [repopulate_loop]; rewrite shl_word by (unfold in_u; lia); ostep; by zdec.
  - destruct fuel as [|fuel]; [cbn in Hf; lia|]. inversion Hfull as [|? ? Hfe Hfull']; subst x l. cbn [map] in Hseq.
    assert (w ≤ last_word r) as Hwl by (destruct (Z.lt_ge_cases w (last_word r + 1)); [lia|]; rewrite seqZ_nil in Hseq by lia; done).
    rewrite seqZ_cons in Hseq by lia. injection Hseq as Hew Hseq. replace (Z.succ w) with (w + 1) in Hseq by lia.
    replace (Z.pred (last_word r + 1 - w)) with (last_word r + 1 - (w + 1)) in Hseq by lia.
    cbn [repopulate_loop]. rewrite shl_word by (unfold in_u; lia). ostep. zdec. unfold BITMAP_WORD_BITS. ostep.
    rewrite Z.max_r by lia. ostep.
    pose proof (range_mask_Ok r w (rng_end r - 64 * w - off) off ltac:(lia) Hoff Hoff64 eq_refl) as Hmask.
    apply obind_Ok_inv in Hmask as (mask & -> & Hmask). cbn [obind]. rewrite Hmask. ostep.
    replace (rng_end r - 64 * w - off - _) with (Z.max 0 (rng_end r - 64 * (w + 1) - 0)) by lia.
    destruct (base_iter_next it w ltac:(lia) Hit) as (next & it' & Hnext & Hword & Hit').
    assert (∀ dn' : list SparseAllocBitmapEntry, repopulate_loop fuel (mk_sparse (dn' ++ cleared_entries (mid ++ tail)) cap (reserve + dropped (mid ++ tail))) ab v (rng_end r) it'
      (length dn') (w + 1) (Z.max 0 (rng_end r - 64 * (w + 1) - 0)) 0 = Ok (mk_sparse (dn' ++ mid ++ tail) cap reserve, inl tt)) as Hrec
      by (intros dn'; apply IH; try done; try lia; cbn in Hf; lia).
    destruct (dropped_cons e (mid ++ tail)) as [Hkeep Hdrop]; [lia|]. cbn [app].
    destruct (decide (bitmap_word (set_word r false e) = 0)) as [Hz|Hnz].
    + destruct (Hdrop Hz) as [-> ->]. specialize (Hrec (dn ++ [e])).
      cbn [entries capacity remove_rollback_reserve_capacity].
      assert ((if (length dn <? length (dn ++ cleared_entries (mid ++ tail)))%nat
        then let! e0 := idx (dn ++ cleared_entries (mid ++ tail)) (length dn) in Ok (if bitmap_word_index e0 =? w then Some e0 else None)
        else Ok None) = Ok (E:=NvFsError) None) as ->.
      { zcase; [|done]. destruct (cleared_entries (mid ++ tail)) as [|e' rest] eqn:Hce; [rewrite app_nil_r in *; lia|].
        rewrite idx_middle. ostep. assert (e' ∈ cleared_entries (mid ++ tail)) as Hin by (rewrite Hce; left).
        apply list_elem_of_filter in Hin as [_ (e0 & -> & [He0|He0]%elem_of_app)%list_elem_of_fmap]; cbn.
        - apply (list_elem_of_fmap_2 bitmap_word_index) in He0. change (bitmap_word_index <$> mid) with (map bitmap_word_index mid) in He0.
          rewrite Hseq, elem_of_seqZ in He0. by zdec.
        - specialize (Htail e0 He0). by zdec. }
      ostep. rewrite Hnext. ostep. rewrite Hword, <-Hew, full_word_differs by done.
      assert (0 ≤ dropped (mid ++ tail)) by (unfold dropped; lia).
      zdec. ostep. replace (reserve + (dropped (mid ++ tail) + 1) - 1) with (reserve + dropped (mid ++ tail)) by lia.
      pose proof (full_word_alone e Hfe Hz) as Halone. rewrite <-Halone.
      replace (mk_entry (bitmap_word_index e) (bitmap_word e)) with e by (by destruct e). ostep.
      rewrite Hew. rewrite <-!app_assoc, length_app in Hrec. exact Hrec.
    + destruct (Hkeep Hnz) as [-> ->]. specialize (Hrec (dn ++ [e])).
      cbn [entries capacity remove_rollback_reserve_capacity set_entries].
      assert ((if (length dn <? length (dn ++ set_word r false e :: cleared_entries (mid ++ tail)))%nat
        then let! e0 := idx (dn ++ set_word r false e :: cleared_entries (mid ++ tail)) (length dn) in Ok (if bitmap_word_index e0 =? w then Some e0 else None)
        else Ok None) = Ok (E:=NvFsError) (Some (set_word r false e))) as ->.
      { assert ((length dn <? length (dn ++ set_word r false e :: cleared_entries (mid ++ tail)))%nat = true) as ->
          by (apply Nat.ltb_lt; rewrite length_app; cbn; lia).
        rewrite idx_middle. ostep. change (bitmap_word_index (set_word r false e)) with (bitmap_word_index e). by zdec. }
      ostep. rewrite Hnext. ostep.
      pose proof (full_word_restored e Hfe) as Hrest. rewrite Hew in Hrest. rewrite Hrest.
      change (bitmap_word_index (set_word r false e)) with (bitmap_word_index e).
      replace (mk_entry (bitmap_word_index e) (bitmap_word e)) with e by (by destruct e).
      rewrite <-!app_assoc, length_app in Hrec. exact Hrec.
Qed.
End RollbackProofs.

(** Entries for every position from [w] on and before [w + n]. *)
Lemma contiguous l : ∀ w n,
  StronglySorted before l → 0 ≤ n → (∀ e, e ∈ l → w ≤ bitmap_word_index e < w + n) →
  (∀ i, w ≤ i < w + n → present l i = true) → map bitmap_word_index l = seqZ w n.
Proof.
  induction l as [|e l IH]; intros w n Hs Hn Hin Hall.
  - destruct (Z.eq_dec n 0) as [->|]; [done|]. specialize (Hall w ltac:(lia)). done.
  - pose proof (Hin e ltac:(left)) as He. inversion Hs as [|? ? Hs' Hlt]; subst. rewrite Forall_forall in Hlt. unfold before in Hlt.
    assert (bitmap_word_index e = w) as Hew.
    { pose proof (presentP (e :: l) w) as Hp. rewrite Hall in Hp by lia. destruct Hp as (e' & [->|He']%elem_of_cons & ?); [done|].
      specialize (Hlt e' He'). lia. }
    cbn [map]. rewrite seqZ_cons by lia. rewrite Hew. f_equal. apply IH; [done|lia| |].
    + intros e' He'. specialize (Hlt e' He'). pose proof (Hin e' ltac:(by right)). lia.
    + intros i Hi. specialize (Hall i ltac:(lia)). cbn in Hall. unfold present in Hall. cbn in Hall.
      destruct (Z.eqb_spec (bitmap_word_index e) i); [lia|done].
Qed.

Section RollbackSpec.
Context {B : Build} {Alloc : Allocator} {P : ImageLayout.Platform}.

(** The blocks of a range are in the set, and are changes relative to the bitmap. *)
Definition changes (ab : AllocBitmap) (v : bool) (sb : SparseAllocBitmap) (r : BlockRange) : Prop :=
  ∀ b, b ∈ r → tracked (entries sb) b = true ∧ base_bit ab b = negb v.

Lemma tracked_word sb e i :
  StronglySorted before (entries sb) → e ∈ entries sb → 0 ≤ i < 64 →
  tracked (entries sb) (64 * bitmap_word_index e + i) = Z.testbit (bitmap_word e) i.
Proof.
  intros Hs He Hi. unfold tracked.
  replace ((64 * bitmap_word_index e + i) / 64) with (bitmap_word_index e) by (apply Z.div_unique with i; lia).
  replace ((64 * bitmap_word_index e + i) mod 64) with i by (apply Z.mod_unique with (bitmap_word_index e); lia).
  by rewrite word_at_elem.
Qed.

Lemma rollback_restores sb r ab v :
  sparse_wf sb → bitmap_wf ab → range_ok r → rng_end r < 2 ^ 63 → changes ab v sb r →
  rollback_remove_extent (cleared true sb r) r ab v = Ok (sb, inl tt).
Proof.
  intros Hsb Hab Hr Hend Hch. pose proof Hsb as (Hwf & Hu & Hcap & Hres). pose proof Hwf as [Hok Hs].
  pose proof (range_word_bounds r Hr) as [? ?]. pose proof Hr as [? ?].
  destruct (split_at_exists _ (first_word r) Hs) as (pre & post & Hl & Hsplit).
  assert (StronglySorted before post) as Hspost by (rewrite Hl in Hs; by eapply StronglySorted_app_1_r).
  destruct (split_at_exists _ (last_word r + 1) Hspost) as (mid & tail & Hpost & [Hmid Htail]).
  assert (∀ e, e ∈ mid → e ∈ entries sb) as Hin by (intros e He; rewrite Hl, Hpost, !elem_of_app; auto).
  assert (map bitmap_word_index mid = seqZ (first_word r) (last_word r + 1 - first_word r)) as Hseq.
  { apply contiguous; [rewrite Hpost in Hspost; by eapply StronglySorted_app_1_l|lia| |].
    - intros e He. specialize (Hmid e He). destruct Hsplit as [_ Hge]. specialize (Hge e ltac:(rewrite Hpost, elem_of_app; by left)). lia.
    - intros i Hi. destruct (word_in_range r i Hr ltac:(lia)) as (k & Hk & Hb). destruct (Hch _ Hb) as [Ht _].
      destruct (present mid i) eqn:Hp; [done|]. rewrite tracked_present in Ht; [done|].
      replace ((64 * i + k) / 64) with i by (apply Z.div_unique with k; lia).
      rewrite Hl, (present_split pre post (first_word r)) by (done || lia). rewrite Hpost. unfold present in *. rewrite existsb_app, Hp.
      cbn [orb]. apply not_true_iff_false. rewrite existsb_exists. intros (e & He%list_elem_of_In & ?). specialize (Htail e He). lia. }
  assert (Forall (full_word ab v r) mid) as Hfull.
  { rewrite Forall_forall. intros e He. rewrite Forall_forall in Hok. split; [by apply Hok, Hin|]. split.
    - apply (list_elem_of_fmap_2 bitmap_word_index) in He. change (bitmap_word_index <$> mid) with (map bitmap_word_index mid) in He.
      rewrite Hseq, elem_of_seqZ in He. lia.
    - intros i Hi Hb. rewrite <-(tracked_word sb) by auto. by apply Hch. }
  assert (Forall entry_ok tail) as Hoktail by (rewrite Hl, Hpost, !Forall_app in Hok; tauto).
  assert (cleared true sb r = mk_sparse (pre ++ filter (kept (last_word r + 1)) (set_word r false <$> mid ++ tail)) (capacity sb)
    (remove_rollback_reserve_capacity sb + dropped r (mid ++ tail))) as Hcl.
  { assert (entries_wf (pre ++ post)) as Hwfl by (rewrite <-Hl; exact Hwf).
    unfold cleared, dropped. rewrite Hl, fmap_app, (set_word_before r false pre post Hr Hwfl Hsplit), filter_app, (filter_every _ pre), Hpost.
    - f_equal. f_equal. f_equal. rewrite !length_app. lia.
    - intros e He. left. unfold all_used in Hu. rewrite Hl, Forall_app, !Forall_forall in Hu. destruct Hu as [Hu _]. by apply Hu. }
  pose proof (cleared_wf true sb r Hr Hsb) as (_ & _ & Hcap' & _).
  unfold rollback_remove_extent, repopulate_set_range_for_rollback. unfold cap_ok in Hcap'. ostep.
  assert (0 ≤ remove_rollback_reserve_capacity (cleared true sb r)) by (cbn; lia).
  rewrite usub_Ok by lia. ostep. zdec. rewrite block_count_Ok by lia. ostep. rewrite land_word. fold (first_word r).
  destruct (word_iter_new_at_Ok [] [] ltac:(constructor) ltac:(constructor) (first_word r)) as (it & -> & Hit); [lia|]. ostep.
  assert (entry_position (cleared true sb r) (first_word r) = length pre) as ->.
  { unfold entry_position. rewrite (find_entry_position_split _ pre (filter (kept (last_word r + 1)) (set_word r false <$> mid ++ tail)));
      [destruct (filter _ _); [done|]; by destruct (_ =? _)|by rewrite Hcl|].
    split; [apply Hsplit|]. intros e [_ (e0 & -> & He0)%list_elem_of_fmap]%list_elem_of_filter. cbn. rewrite <-Hpost in He0. by apply Hsplit. }
  destruct (block_split (rng_begin r)) as [Hb ?]. fold (first_word r) in Hb.
  replace (rng_end r - rng_begin r) with (Z.max 0 (rng_end r - 64 * first_word r - rng_begin r mod 64)) by lia.
  rewrite Hcl. rewrite (repopulate_loop_spec ab v r Hab Hr Hend); try done; try lia.
  - rewrite <-Hpost, <-Hl. by destruct sb.
  - intros e He. specialize (Htail e He). lia.
  - exists (first_word r). split; [done|lia].
  - rewrite <-(length_map bitmap_word_index), Hseq, length_seqZ. unfold word_count. lia.
Qed.
End RollbackSpec.

(** ** Correctness of the iterators *)

(** What a loop over an iterator sees. *)
Fixpoint iter_collect {I A : Type} (next : I → res (option A * I)) (fuel : nat) (it : I) : res (list A) :=
  let! '(x, it) := next it in
  match x with
  | None => Ok []
  | Some x => match fuel with O => Diverge | S fuel => let! xs := iter_collect next fuel it in Ok (x :: xs) end
  end.

Section IterationProofs.
Context {B : Build}.
Implicit Types (ab : AllocBitmap) (allocs frees : list SparseAllocBitmap).

Abbreviation view_len ab := (64 * Z.of_nat (length (bitmap ab))).

Lemma chunked_iter_goto_Ok ab allocs frees it b b' c :
  bitmap_wf ab → pending_wf allocs → pending_wf frees → 0 ≤ b' → bit_at ab allocs frees it b →
  ∃ it', chunked_iter_goto ab allocs frees (it, c) b' = Ok (it', c) ∧ bit_at ab allocs frees it' b'.
Proof.
  intros Hab Ha Hf Hb' (_ & _ & _ & Hit). unfold chunked_iter_goto. ostep. rewrite land_word.
  assert (0 ≤ b' / 64) by (apply Z.div_pos; lia).
  destruct (word_iter_goto_Ok allocs frees Ha Hf _ _ (b' / 64) ltac:(done) Hit) as (it1 & -> & Hit1). ostep.
  destruct (fetch_word ab allocs frees Hab Ha Hf it1 (b' / 64)) as (cur & it2 & -> & Hcur & Hit2); [done..|]. ostep.
  eexists. split; [done|]. by split_and!.
Qed.

Lemma in_view ab b : b / 64 < Z.of_nat (length (bitmap ab)) ↔ b < view_len ab.
Proof. destruct (block_split b). lia. Qed.

Lemma bits_collected ab allocs frees n : ∀ it b,
  bitmap_wf ab → pending_wf allocs → pending_wf frees → bit_at ab allocs frees it b → view_len ab - b ≤ Z.of_nat n →
  iter_collect (bit_iter_next ab allocs frees) n it = Ok (view_bit ab allocs frees <$> seqZ b (view_len ab - b)).
Proof.
  induction n as [|n IH]; intros it b Hab Ha Hf Hit Hn; cbn [iter_collect];
    pose proof (bit_iter_next_Ok ab allocs frees Hab Ha Hf it b Hit) as Hnext; pose proof (in_view ab b);
    destruct (Z.ltb_spec (b / 64) (Z.of_nat (length (bitmap ab)))); try lia.
  - rewrite Hnext. ostep. by rewrite seqZ_nil by lia.
  - destruct Hnext as (it' & -> & Hit'). ostep. rewrite (IH _ (b + 1)) by (done || lia). ostep.
    rewrite (seqZ_cons b) by lia. cbn. by replace (Z.pred (view_len ab - b)) with (view_len ab - (b + 1)) by lia.
  - rewrite Hnext. ostep. by rewrite seqZ_nil by lia.
Qed.

(** [v] has the states of the [c] blocks from [b] on. *)
Definition chunk_of ab allocs frees (c b v : Z) : Prop :=
  in_u c v ∧ ∀ i, 0 ≤ i < c → Z.testbit v i = view_bit ab allocs frees (b + i).

Lemma chunks_collected ab allocs frees c n : ∀ it b,
  bitmap_wf ab → pending_wf allocs → pending_wf frees → 0 < c ≤ 64 → bit_at ab allocs frees it b → view_len ab - b ≤ Z.of_nat n →
  ∃ vs, iter_collect (chunked_iter_next ab allocs frees) n (it, c) = Ok vs ∧
    view_len ab - b ≤ c * Z.of_nat (length vs) < Z.max 0 (view_len ab - b) + c ∧
    ∀ k v, vs !! k = Some v → chunk_of ab allocs frees c (b + c * Z.of_nat k) v.
Proof.
  induction n as [|n IH]; intros it b Hab Ha Hf Hc Hit Hn; cbn [iter_collect];
    pose proof (chunked_iter_next_Ok ab allocs frees Hab Ha Hf it b c Hc Hit) as Hnext; pose proof (in_view ab b);
    destruct (Z.ltb_spec (b / 64) (Z.of_nat (length (bitmap ab)))); try lia.
  - rewrite Hnext. ostep. exists []. cbn. split; [done|]. split; [lia|done].
  - destruct Hnext as (v & it' & -> & Hit' & Hu & Hv). ostep.
    destruct (IH it' (b + c)) as (vs & -> & Hlen & Hvs); try done; [lia|]. ostep. exists (v :: vs). cbn [length].
    split; [done|]. split.
    { destruct (Z.le_gt_cases c (view_len ab - b)) as [|Hlt]; [lia|]. assert (Z.of_nat (length vs) < 1) by nia. nia. }
    intros [|k] v' Hk; cbn in Hk.
    + simplify_eq. by rewrite Z.mul_0_r, Z.add_0_r.
    + replace (b + c * Z.of_nat (S k)) with (b + c + c * Z.of_nat k) by lia. by apply Hvs.
  - rewrite Hnext. ostep. exists []. cbn. split; [done|]. split; [lia|done].
Qed.

(** Iterating over single blocks from any position yields, for every
    remaining block of the bitmap and in order, whether it is allocated once the
    pending allocations and then the pending frees are taken into account.  The
    pending sets are read in one merged pass, whatever their words. *)
Lemma bit_iteration_correct ab allocs frees b :
  bitmap_wf ab → pending_wf allocs → pending_wf frees → 0 ≤ b →
  ∃ it, bit_iter_new_at ab allocs frees b = Ok it ∧
    iter_collect (bit_iter_next ab allocs frees) (64 * length (bitmap ab)) it =
      Ok (view_bit ab allocs frees <$> seqZ b (view_len ab - b)).
Proof.
  intros Hab Ha Hf Hb. destruct (bit_iter_new_at_Ok ab allocs frees Hab Ha Hf b Hb) as (it & -> & Hit).
  exists it. split; [done|]. apply bits_collected; try done. lia.
Qed.

(** Iterating over chunks of up to 64 blocks, after moving the iterator from
    any position to any other, yields chunks that cover the rest of the bitmap
    without gap or overlap, each with the states of its blocks in its bits and
    zeros past the end, whatever the alignment of the chunks to the words. *)
Lemma chunked_iteration_correct ab allocs frees b b' c :
  bitmap_wf ab → pending_wf allocs → pending_wf frees → 0 ≤ b → 0 ≤ b' → 0 < c ≤ 64 →
  ∃ it it' vs, chunked_iter_new_at ab allocs frees b c = Ok it ∧ chunked_iter_goto ab allocs frees it b' = Ok it' ∧
    iter_collect (chunked_iter_next ab allocs frees) (64 * length (bitmap ab)) it' = Ok vs ∧
    view_len ab - b' ≤ c * Z.of_nat (length vs) < Z.max 0 (view_len ab - b') + c ∧
    ∀ k v, vs !! k = Some v → chunk_of ab allocs frees c (b' + c * Z.of_nat k) v.
Proof.
  intros Hab Ha Hf Hb Hb' Hc. unfold chunked_iter_new_at, BITMAP_WORD_BITS. replace (c <=? 64) with true by lia. ostep.
  destruct (bit_iter_new_at_Ok ab allocs frees Hab Ha Hf b Hb) as (it & -> & Hit). ostep.
  destruct (chunked_iter_goto_Ok ab allocs frees it b b' c) as (it' & Hgoto & Hit'); try done.
  destruct (chunks_collected ab allocs frees c (64 * length (bitmap ab)) it' b') as (vs & ? & ? & ?); try done; [lia|].
  by exists (it, c), (it', c), vs.
Qed.
End IterationProofs.

(** ** Correctness of the operations *)

Lemma sparse_ext sb sb' :
  sparse_wf sb → sparse_wf sb' → (∀ b, tracked (entries sb) b = tracked (entries sb') b) → capacity sb = capacity sb' →
  Z.of_nat (length (entries sb)) + remove_rollback_reserve_capacity sb =
    Z.of_nat (length (entries sb')) + remove_rollback_reserve_capacity sb' → sb = sb'.
Proof.
  intros (Hwf & Hu & _) (Hwf' & Hu' & _) Ht Hcap Hres. assert (entries sb = entries sb') as He by by apply tracked_ext.
  destruct sb, sb'. cbn in *. subst. f_equal. lia.
Qed.

Section RoundTrips.
Context {B : Build} {P : ImageLayout.Platform}.
Implicit Types (sb : SparseAllocBitmap) (extents : list BlockRange).

Abbreviation extent_ok := (λ r, range_ok r ∧ rng_end r < 2 ^ 63).
Definition disjoint_ranges (r r' : BlockRange) : Prop := ∀ b, b ∈ r → b ∈ r' → False.

Lemma not_in_extents extents r b :
  Forall (disjoint_ranges r) extents → b ∈ r → in_extents extents b = false.
Proof.
  rewrite Forall_forall. intros Hd Hb. apply not_true_iff_false. unfold in_extents. rewrite existsb_exists.
  intros (r' & Hr'%list_elem_of_In & Hb'%bool_decide_eq_true). by eapply (Hd r').
Qed.

Lemma rollback_remove_extents_restores ab v extents : ∀ sb,
  sparse_wf sb → bitmap_wf ab → Forall extent_ok extents → ForallOrdPairs disjoint_ranges extents →
  Forall (changes ab v sb) extents →
  remove_rollback_reserve_capacity sb + Z.of_nat (length (entries sb)) < 2 ^ usize_bits →
  ∃ sb', remove_extents sb extents = Ok sb' ∧ rollback_remove_extents sb' extents ab v = Ok (sb, inl tt).
Proof.
  induction extents as [|r extents IH]; intros sb Hsb Hab Hok Hd Hch Hres; [by exists sb|].
  inversion_clear Hok as [|? ? [Hr Hend] Hok']. inversion_clear Hd as [|? ? Hd1 Hd']. inversion_clear Hch as [|? ? Hch1 Hch'].
  destruct (IH sb) as (sbx & Hrmx & Hback); [done..|].
  destruct (remove_extents_spec (r :: extents) sb) as (sb' & Hrm & Hwf' & Hcap' & Hres' & Ht'); [done| |done|].
  { constructor; [done|]. eapply Forall_impl; [exact Hok'|]. by intros ? []. }
  destruct (remove_extents_spec extents sb) as (sbx' & Hrmx' & Hwfx & Hcapx & Hresx & Htx); [done| |done|].
  { eapply Forall_impl; [exact Hok'|]. by intros ? []. }
  rewrite Hrmx in Hrmx'. injection Hrmx' as <-. exists sb'. split; [done|].
  assert (sb' = cleared true sbx r) as ->.
  { apply sparse_ext; [done|by apply cleared_wf| |by rewrite Hcap', <-Hcapx|].
    - intros b. rewrite Ht', tracked_cleared, Htx by done. unfold in_extents. cbn [existsb]. rewrite negb_orb, <-andb_assoc. f_equal. apply andb_comm.
    - rewrite Hres', <-Hresx. cbn. pose proof (length_filter (kept (last_word r + 1)) (set_word r false <$> entries sbx)) as Hlen.
      rewrite length_fmap in Hlen. lia. }
  cbn [rollback_remove_extents]. rewrite rollback_restores; try done.
  intros b Hb. destruct (Hch1 b Hb) as [? ?]. split; [|done]. rewrite Htx, (not_in_extents _ r) by done. by rewrite andb_true_r.
Qed.

Lemma remove_blocks_extents k blocks : ∀ sb,
  0 ≤ k ≤ 6 → Forall (block_ok k) blocks →
  remove_blocks sb blocks k = remove_extents sb ((λ b, mk_range b (b + 2 ^ k)) <$> blocks).
Proof.
  induction blocks as [|b blocks IH]; intros sb Hk Hok; [done|]. inversion_clear Hok as [|? ? (? & ? & ?) ?].
  cbn [remove_blocks remove_extents fmap list_fmap]. unfold remove_block, _remove_block.
  destruct (block_range_Ok b k) as (-> & _); [done..|]. ostep.
  destruct (SparseBitmap.set_in_range _ _ _ _) as [[sb1 i]| | |]; ostep; try done. destruct (prune_unused_in_range _ _ _ _); ostep; try done. by apply IH.
Qed.
Lemma rollback_remove_blocks_extents ab v k blocks : ∀ sb,
  0 ≤ k ≤ 6 → Forall (block_ok k) blocks →
  rollback_remove_blocks sb blocks k ab v = rollback_remove_extents sb ((λ b, mk_range b (b + 2 ^ k)) <$> blocks) ab v.
Proof.
  induction blocks as [|b blocks IH]; intros sb Hk Hok; [done|]. inversion_clear Hok as [|? ? (? & ? & ?) ?].
  cbn [rollback_remove_blocks rollback_remove_extents fmap list_fmap]. unfold rollback_remove_block, rollback_remove_extent.
  destruct (block_range_Ok b k) as (-> & _); [done..|]. ostep.
  destruct (repopulate_set_range_for_rollback _ _ _ _) as [[sb1 [|]]| | |]; ostep; try done. by apply IH.
Qed.
End RoundTrips.

Section Theorems.
Context {B : Build} {Alloc : Allocator} {P : ImageLayout.Platform}.
Implicit Types (ab : AllocBitmap) (sb : SparseAllocBitmap).

(** Setting a range of blocks to allocated or free changes these blocks and no
    other.  Allocating is refused with the out of range error exactly if the
    range extends beyond the bitmap; freeing blocks beyond it does nothing. *)
Lemma set_in_range_correct ab r (v : bool) :
  bitmap_wf ab → range_ok r → last_word r + 1 < 2 ^ usize_bits →
  if v && (Z.of_nat (length (bitmap ab)) <=? last_word r) then set_in_range ab r v = Err (IoError RegionOutOfRange)
  else ∃ ab', set_in_range ab r v = Ok ab' ∧ bitmap_wf ab' ∧ length (bitmap ab') = length (bitmap ab) ∧
    ∀ b, base_bit ab' b = if bool_decide (b ∈ r) then v else base_bit ab b.
Proof. apply set_in_range_spec. Qed.

(** Resizing gives a bitmap of the size asked for in which the blocks that
    remain keep their states and new blocks are free, or fails with one of two
    errors, each only for its reason.  A bitmap that keeps its number of words
    also keeps the bits past the new size in its last word. *)
Lemma resize_correct ab blocks :
  bitmap_wf ab → 0 ≤ blocks < 2 ^ 62 →
  match resize ab blocks with
  | Ok ab' => bitmap_wf ab' ∧ Z.of_nat (length (bitmap ab')) = words_for blocks ∧
      ∀ b, base_bit ab' b = base_bit ab b && (b <? resize_limit ab blocks)
  | Err e => (e = DimensionsNotSupported ∧ 2 ^ usize_bits ≤ words_for blocks) ∨
      (e = MemoryAllocationFailure ∧ Z.of_nat (length (bitmap ab)) ≤ words_for blocks)
  | _ => False
  end.
Proof. apply resize_spec. Qed.

(** Clearing redundant changes keeps exactly the pending allocations of
    blocks that are free in the bitmap, or the pending frees of blocks that are
    allocated in it, and keeps the invariant. *)
Lemma clear_redundant_correct sb ab is_free :
  sparse_wf sb → bitmap_wf ab → Z.of_nat (length (bitmap ab)) < 2 ^ usize_bits →
  ∃ sb', clear_redundant sb ab is_free = Ok sb' ∧ sparse_wf sb' ∧
    ∀ b, tracked (entries sb') b = tracked (entries sb) b && Bool.eqb (base_bit ab b) is_free.
Proof. apply clear_redundant_spec. Qed.

(** C32: rolling back the removal of extents, or of blocks, restores the sparse
    bitmap bit for bit, with its capacity and its reserve, and never fails for
    lack of memory: the reserve left by the removal is always enough.  This is
    for disjoint extents whose blocks were changes relative to the bitmap, which
    is how transactions use it. *)
Theorem remove_rollback_roundtrip sb ab v extents k blocks :
  sparse_wf sb → bitmap_wf ab → remove_rollback_reserve_capacity sb + Z.of_nat (length (entries sb)) < 2 ^ usize_bits →
  Forall (λ r, range_ok r ∧ rng_end r < 2 ^ 63) extents → ForallOrdPairs disjoint_ranges extents → Forall (changes ab v sb) extents →
  0 ≤ k ≤ 6 → Forall (λ b, block_ok k b ∧ b + 2 ^ k < 2 ^ 63) blocks → NoDup blocks →
  Forall (λ b, changes ab v sb (mk_range b (b + 2 ^ k))) blocks →
  (∃ sb', remove_extents sb extents = Ok sb' ∧ rollback_remove_extents sb' extents ab v = Ok (sb, inl tt)) ∧
  (∃ sb', remove_blocks sb blocks k = Ok sb' ∧ rollback_remove_blocks sb' blocks k ab v = Ok (sb, inl tt)).
Proof.
  intros Hsb Hab Hres Hok Hd Hch Hk Hbok Hnd Hbch. split; [by apply rollback_remove_extents_restores|].
  assert (Forall (block_ok k) blocks) as Hbok' by (eapply Forall_impl; [exact Hbok|]; by intros ? []).
  rewrite remove_blocks_extents by done.
  destruct (rollback_remove_extents_restores ab v ((λ b, mk_range b (b + 2 ^ k)) <$> blocks) sb) as (sb' & ? & ?); try done.
  - apply Forall_fmap. eapply Forall_impl; [exact Hbok|]. intros b [Hb Hlt]. pose proof (pow2_pos k ltac:(lia)).
    destruct Hb as (? & ? & ?). unfold range_ok. cbn. lia.
  - clear Hbch Hbok. induction Hnd as [|b blocks Hb Hnd IH]; [constructor|]. inversion_clear Hbok' as [|? ? Hb1 Hbs]. cbn. constructor; [|auto].
    apply Forall_fmap, Forall_forall. intros b' Hb' x. rewrite !elem_of_range. cbn. intros ? ?. apply Hb.
    rewrite Forall_forall in Hbs. destruct Hb1 as (_ & [q Hq] & _), (Hbs b' Hb') as (_ & [q' Hq'] & _).
    pose proof (pow2_pos k ltac:(lia)). assert (q = q') by nia. by subst.
  - by apply Forall_fmap.
  - exists sb'. split; [done|]. by rewrite rollback_remove_blocks_extents.
Qed.
End Theorems.

(** *** Instances *)

Definition example_ab : AllocBitmap := mk_bitmap [255; 2 ^ 63; 0; 7].
Lemma example_ab_wf : bitmap_wf example_ab.
Proof. split; [repeat constructor; cbn; lia|cbn; lia]. Qed.
Definition example_pending : SparseAllocBitmap := mk_sparse [mk_entry 0 768; mk_entry 2 1; mk_entry 3 248] 6 2.
Lemma example_pending_wf : sparse_wf example_pending.
Proof.
  split_and!; [|repeat constructor; cbn; lia|unfold cap_ok; cbn; lia|cbn; lia].
  split; [repeat constructor; cbn; lia|]. repeat constructor; unfold before; cbn; lia.
Qed.

Lemma bit_iteration_correct_witness :
  ∃ it, bit_iter_new_at (B:=debug_build) example_ab [example_pending] [example_sb] 190 = Ok it ∧
    iter_collect (bit_iter_next (B:=debug_build) example_ab [example_pending] [example_sb]) (64 * length (bitmap example_ab)) it =
      Ok (view_bit example_ab [example_pending] [example_sb] <$> seqZ 190 (64 * Z.of_nat (length (bitmap example_ab)) - 190)).
Proof.
  apply (@bit_iteration_correct debug_build example_ab [example_pending] [example_sb] 190); [apply example_ab_wf| | |lia].
  - constructor; [apply example_pending_wf|constructor].
  - constructor; [apply example_sb_wf|constructor].
Defined.

Lemma chunked_iteration_correct_witness :
  ∃ it it' vs, chunked_iter_new_at (B:=debug_build) example_ab [example_pending] [example_sb] 60 24 = Ok it ∧
    chunked_iter_goto (B:=debug_build) example_ab [example_pending] [example_sb] it 5 = Ok it' ∧
    iter_collect (chunked_iter_next (B:=debug_build) example_ab [example_pending] [example_sb]) (64 * length (bitmap example_ab)) it' = Ok vs ∧
    64 * Z.of_nat (length (bitmap example_ab)) - 5 ≤ 24 * Z.of_nat (length vs) <
      Z.max 0 (64 * Z.of_nat (length (bitmap example_ab)) - 5) + 24 ∧
    ∀ k v, vs !! k = Some v → chunk_of example_ab [example_pending] [example_sb] 24 (5 + 24 * Z.of_nat k) v.
Proof.
  apply (@chunked_iteration_correct debug_build example_ab [example_pending] [example_sb] 60 5 24); [apply example_ab_wf| | |lia..].
  - constructor; [apply example_pending_wf|constructor].
  - constructor; [apply example_sb_wf|constructor].
Defined.

Lemma set_in_range_correct_witness :
  ∃ ab', set_in_range (B:=debug_build) (P:=bits64) example_ab (mk_range 60 200) true = Ok ab' ∧ bitmap_wf ab' ∧
    length (bitmap ab') = length (bitmap example_ab) ∧
    ∀ b, base_bit ab' b = if bool_decide (b ∈ mk_range 60 200) then true else base_bit example_ab b.
Proof.
  apply (@set_in_range_correct debug_build bits64 example_ab (mk_range 60 200) true);
    [apply example_ab_wf|unfold range_ok; cbn; lia|by vm_compute].
Defined.

Lemma resize_correct_witness :
  match resize (B:=debug_build) (Alloc:=ample) (P:=bits64) example_ab 130 with
  | Ok ab' => bitmap_wf ab' ∧ Z.of_nat (length (bitmap ab')) = words_for 130 ∧
      ∀ b, base_bit ab' b = base_bit example_ab b && (b <? resize_limit example_ab 130)
  | Err e => (e = DimensionsNotSupported ∧ 2 ^ usize_bits (Platform:=bits64) ≤ words_for 130) ∨
      (e = MemoryAllocationFailure ∧ Z.of_nat (length (bitmap example_ab)) ≤ words_for 130)
  | _ => False
  end.
Proof. apply (@resize_correct debug_build ample bits64 example_ab 130); [apply example_ab_wf|lia]. Defined.

Lemma clear_redundant_correct_witness :
  ∃ sb', clear_redundant (B:=debug_build) (P:=bits64) example_pending example_ab false = Ok sb' ∧ sparse_wf sb' ∧
    ∀ b, tracked (entries sb') b = tracked (entries example_pending) b && Bool.eqb (base_bit example_ab b) false.
Proof.
  apply (@clear_redundant_correct debug_build bits64 example_pending example_ab false);
    [apply example_pending_wf|apply example_ab_wf|by vm_compute].
Defined.

(** All blocks of a range, one by one. *)
Lemma changes_all ab v sb r :
  forallb (λ b, tracked (entries sb) b && Bool.eqb (base_bit ab b) (negb v)) (seqZ (rng_begin r) (rng_end r - rng_begin r)) = true →
  changes ab v sb r.
Proof.
  rewrite forallb_forall. intros Hall b Hb%elem_of_range.
  specialize (Hall b ltac:(apply list_elem_of_In, elem_of_seqZ; destruct Hb; lia)). apply andb_true_iff in Hall as [? ?%eqb_prop]. done.
Qed.

Lemma remove_rollback_roundtrip_witness :
  (∃ sb', remove_extents (B:=debug_build) (P:=bits64) example_pending [mk_range 8 10; mk_range 196 200] = Ok sb' ∧
     rollback_remove_extents (B:=debug_build) (P:=bits64) sb' [mk_range 8 10; mk_range 196 200] example_ab true =
       Ok (example_pending, inl tt)) ∧
  (∃ sb', remove_blocks (B:=debug_build) (P:=bits64) example_pending [196; 8] 1 = Ok sb' ∧
     rollback_remove_blocks (B:=debug_build) (P:=bits64) sb' [196; 8] 1 example_ab true = Ok (example_pending, inl tt)).
Proof.
  apply (@remove_rollback_roundtrip debug_build bits64 example_pending example_ab true [mk_range 8 10; mk_range 196 200] 1 [196; 8]).
  - apply example_pending_wf.
  - apply example_ab_wf.
  - by vm_compute.
  - repeat constructor; cbn; lia.
  - repeat constructor. intros b. rewrite !elem_of_range. cbn. lia.
  - apply Forall_forall. intros r [->|[->|[]%not_elem_of_nil]%elem_of_cons]%elem_of_cons; apply changes_all; by vm_compute.
  - lia.
  - repeat constructor; cbn; try lia; by apply Z.mod_divide.
  - apply NoDup_cons. split; [|apply NoDup_singleton]. rewrite list_elem_of_singleton. lia.
  - apply Forall_forall. intros r [->|[->|[]%not_elem_of_nil]%elem_of_cons]%elem_of_cons; apply changes_all; by vm_compute.
Defined.

End AllocBitmap.
