(* ===== verification/FindFreeBlock.v ===== *)
(** * Finding a free block in the allocation bitmap (storage/src/fs/cocoonfs/alloc_bitmap/bitmap.rs)

    [find_free_block] and [find_free_fullword_block]: the search for an aligned
    block of a power of two that is free once pending changes are taken into
    account, with or without the optimisation of its placement. *)

From S2P Require Import Prelude BitManip Errors Layout ImageLayout PhysicalExtents BitmapWord SparseBitmap BitmapSearch AllocBitmap.
Import BitManip Errors Layout BitmapWord SparseBitmap BitmapSearch AllocBitmap.

Module FindFreeBlock.

Abbreviation res := (outcome NvFsError).

Definition PLACEMENT_OPTIMIZATION_SEARCH_DISTANCE_BITMAP_WORDS : Z := 16.

Section Ops.
Context {B : Build} {P : ImageLayout.Platform}.
Implicit Types (self : AllocBitmap.AllocBitmap) (allocs frees : list SparseAllocBitmap).

(** [Iterator::take] of the iterator over the words, and the count given to it. *)
Definition take_next self allocs frees (it : WordIter * Z) : res (option (Z * Z) * (WordIter * Z)) :=
  let '(it, n) := it in
  if n =? 0 then Ok (None, (it, n))
  else let! '(x, it) := word_iter_next self allocs frees it in Ok (x, (it, n - 1)).
Definition take_count (words : Z) : Z := if words <? 2 ^ usize_bits then words else 2 ^ usize_bits - 1.

(** The chunk allocated before that is looked at next: the cached one unless it
    ends at or before the word, or the one with the least end after it. *)
Definition ends_after (bitmap_word_index : Z) (chunk : BlockRange) : res bool :=
  let! e := ushr 64 (rng_end chunk) BITMAP_WORD_BITS_LOG2 in Ok (bitmap_word_index <? e).
Fixpoint filter_chunks (chunks : list BlockRange) (bitmap_word_index : Z) : res (list BlockRange) :=
  match chunks with
  | [] => Ok []
  | c :: chunks =>
      let! keep := ends_after bitmap_word_index c in
      let! rest := filter_chunks chunks bitmap_word_index in
      Ok (if keep : bool then c :: rest else rest)
  end.
Definition min_by_end (chunks : list BlockRange) : option BlockRange :=
  match chunks with
  | [] => None
  | c :: chunks => Some (foldl (λ m c, if rng_end c <? rng_end m then c else m) c chunks)
  end.
Definition next_chunk (allocated_fullword_chunks : option PhysicalExtents.extents) (cached : option BlockRange)
    (bitmap_word_index : Z) : res (option BlockRange) :=
  let! kept :=
    match cached with
    | Some c => let! keep := ends_after bitmap_word_index c in Ok (if keep : bool then Some c else None)
    | None => Ok None
    end in
  match kept with
  | Some c => Ok (Some c)
  | None =>
      match allocated_fullword_chunks with
      | None => Ok None
      | Some chunks =>
          let! chunks := PhysicalExtents.iter chunks in
          let! chunks := filter_chunks chunks bitmap_word_index in
          Ok (min_by_end chunks)
      end
  end.
(** Whether the word is in that chunk. *)
Definition in_chunk (chunk : option BlockRange) (bitmap_word_index : Z) : res bool :=
  match chunk with
  | Some c => let! b := ushr 64 (rng_begin c) BITMAP_WORD_BITS_LOG2 in Ok (b <=? bitmap_word_index)
  | None => Ok false
  end.

(** The inner loop of [find_free_fullword_block]; [remaining] are the blocks from the
    current index on. *)
Fixpoint word_allocated (allocated_blocks : list Z) (bitmap_word_index : Z) (index : nat) (remaining : list Z)
    : res (bool * nat) :=
  match remaining with
  | [] => Ok (false, index)
  | b :: remaining =>
      let! w := ushr 64 b BITMAP_WORD_BITS_LOG2 in
      match (w ?= bitmap_word_index)%Z with
      | Lt => word_allocated allocated_blocks bitmap_word_index (index + 1) remaining
      | Eq => Ok (true, (index + 1)%nat)
      | Gt => Ok (false, index)
      end
  end.

Fixpoint fullword_loop (fuel : nat) self allocs frees (allocated_blocks : list Z)
    (chunks : option PhysicalExtents.extents) (it : WordIter * Z) (cached : option BlockRange) (allocated_blocks_index : nat)
    : res (option Z) :=
  let! '(next, it) := take_next self allocs frees it in
  match next with
  | None => Ok None
  | Some (bitmap_word_index, bitmap_word) =>
      match fuel with
      | O => Diverge
      | S fuel =>
          if bitmap_word =? 0 then
            let! '(allocated, allocated_blocks_index) :=
              word_allocated allocated_blocks bitmap_word_index allocated_blocks_index
                (drop allocated_blocks_index allocated_blocks) in
            if (allocated : bool) then fullword_loop fuel self allocs frees allocated_blocks chunks it cached allocated_blocks_index
            else
              let! cached := next_chunk chunks cached bitmap_word_index in
              let! covered := in_chunk cached bitmap_word_index in
              if (covered : bool) then fullword_loop fuel self allocs frees allocated_blocks chunks it cached allocated_blocks_index
              else
                let! b := umul 64 bitmap_word_index BITMAP_WORD_BITS in
                Ok (Some b)
          else fullword_loop fuel self allocs frees allocated_blocks chunks it cached allocated_blocks_index
      end
  end.

Definition find_free_fullword_block self (allocated_blocks : list Z) (chunks : option PhysicalExtents.extents) allocs frees
    (image_size : Z) : res (option Z) :=
  let! image_bitmap_words := ushr 64 image_size BITMAP_WORD_BITS_LOG2 in
  let! it := word_iter_new_at allocs frees 0 in
  fullword_loop (length (bitmap self)) self allocs frees allocated_blocks chunks (it, take_count image_bitmap_words) None 0.

(** [FoundCandidate]. *)
Record FoundCandidate := mk_candidate {
  candidate_bitmap_word_index : Z;
  candidate_bitmap_word : Z;
  candidate_split_block_allocation_blocks_log2 : Z;
}.

(** The blocks of [allocated_blocks] that are in a word. *)
Fixpoint mark_allocated (bitmap_word_index bitmap_word block_allocation_blocks_log2 : Z) (index : nat) (remaining : list Z)
    : res (Z * nat) :=
  match remaining with
  | [] => Ok (bitmap_word, index)
  | b :: remaining =>
      let! w := ushr 64 b BITMAP_WORD_BITS_LOG2 in
      if w =? bitmap_word_index then
        let! n := ushl 32 1 block_allocation_blocks_log2 in
        let! mask := trailing_bits_mask_u 64 n in
        let! offset_mask := trailing_bits_mask_u 64 BITMAP_WORD_BITS_LOG2 in
        let! shifted := ushl 64 mask (Z.land b offset_mask) in
        mark_allocated bitmap_word_index (Z.lor bitmap_word shifted) block_allocation_blocks_log2 (index + 1) remaining
      else Ok (bitmap_word, index)
  end.

(** The bits of the last word that no storage is behind. *)
Definition excess_bits (image_size : Z) : res Z :=
  let! n := usub 32 BITMAP_WORD_BITS (Z.land (wrapping_neg 64 image_size) (BITMAP_WORD_BITS - 1)) in
  let! mask := trailing_bits_mask_u 64 n in
  Ok (unot 64 mask).

(** A block in a word, at its position in the word. *)
Definition block_in_word (bitmap_word_index pos : Z) : res Z :=
  let! b := ushl 64 bitmap_word_index BITMAP_WORD_BITS_LOG2 in
  uadd 64 b pos.

(** [is_sorted], and [partition_point] of the blocks before a word. *)
Fixpoint sorted_blocks (l : list Z) : bool :=
  match l with
  | x :: ((y :: _) as l') => (x <=? y) && sorted_blocks l'
  | _ => true
  end.
Definition blocks_before (l : list Z) (bitmap_word_index : Z) : nat :=
  partition_point (λ b, Z.shiftr b BITMAP_WORD_BITS_LOG2 <? bitmap_word_index) l.

(** The parameters of a search that do not change in its loop. *)
Record Search := mk_search {
  block_allocation_blocks_log2 : Z;
  allocated_blocks : list Z;
  allocated_fullword_chunks : option PhysicalExtents.extents;
  image_size : Z;
  image_bitmap_words : Z;
  search_begin_bitmap_word_index : Z;
  optimize_placement : bool;
  word_blocks_lsbs_mask : Z;
}.

(** What to do after a word has been looked at: return a block, or go on. *)
Inductive decision :=
  | Return (block : Z)
  | Continue (cached : option BlockRange) (best : option FoundCandidate) (remaining_optimization_search_distance : Z).

Definition examine_word (q : Search) (table : mask_table) (bitmap_word_index bitmap_word : Z) (cached : option BlockRange)
    (best : option FoundCandidate) (distance : Z) : res decision :=
  let log2 := block_allocation_blocks_log2 q in
  if bitmap_word =? unot 64 0 then Ok (Continue cached best distance)
  else if bitmap_word =? 0 then
    match best with
    | Some _ => Ok (Continue cached best distance)
    | None =>
        let! cached := next_chunk (allocated_fullword_chunks q) cached bitmap_word_index in
        let! covered := in_chunk cached bitmap_word_index in
        if (covered : bool) then Ok (Continue cached best distance)
        else if negb (optimize_placement q) then
          let! b := ushl 64 bitmap_word_index BITMAP_WORD_BITS_LOG2 in Ok (Return b)
        else
          Ok (Continue cached (Some (mk_candidate bitmap_word_index bitmap_word BITMAP_WORD_BITS_LOG2))
            PLACEMENT_OPTIMIZATION_SEARCH_DISTANCE_BITMAP_WORDS)
    end
  else
    let! free_blocks_lsbs := bitmap_word_free_blocks_lsbs bitmap_word log2 (word_blocks_lsbs_mask q) in
    if free_blocks_lsbs =? 0 then Ok (Continue cached best distance)
    else if negb (optimize_placement q) then
      let! b := block_in_word bitmap_word_index (trailing_zeros free_blocks_lsbs) in Ok (Return b)
    else
      let! max :=
        match best with
        | Some c =>
            let! _ := debug_assert (log2 <? candidate_split_block_allocation_blocks_log2 c) in
            Ok (Some (candidate_split_block_allocation_blocks_log2 c))
        | None => Ok None
        end in
      let! split := bitmap_word_block_alloc_split_block_size_log2 free_blocks_lsbs max log2 (word_blocks_lsbs_mask q) table in
      if split =? log2 then
        let! pos := bitmap_word_block_alloc_select_block free_blocks_lsbs log2 (word_blocks_lsbs_mask q) table in
        let! b := block_in_word bitmap_word_index pos in Ok (Return b)
      else if match max with Some m => split <? m | None => true end then
        Ok (Continue cached (Some (mk_candidate bitmap_word_index bitmap_word split))
          (match best with None => PLACEMENT_OPTIMIZATION_SEARCH_DISTANCE_BITMAP_WORDS | Some _ => distance end))
      else Ok (Continue cached best distance).

(** The loop of [find_free_block]: [inl] of a block that is returned early, or
    [inr] of the best candidate.  A round takes a word of the image. *)
Fixpoint find_loop (fuel : nat) (q : Search) self allocs frees (table : mask_table) (it : WordIter * Z)
    (cached : option BlockRange) (best : option FoundCandidate) (remaining_optimization_search_distance : Z)
    (allocated_blocks_index : nat) : res (Z + option FoundCandidate) :=
  let! '(next, it) := take_next self allocs frees it in
  match next with
  | None => Ok (inr best)
  | Some (bitmap_word_index, bitmap_word) =>
      match fuel with
      | O => Diverge
      | S fuel =>
          let! distance := usub 64 remaining_optimization_search_distance 1 in
          if distance =? 0 then
            let! _ := debug_assert (optimize_placement q && match best with Some _ => true | None => false end) in
            Ok (inr best)
          else
            let! '(bitmap_word, allocated_blocks_index) :=
              mark_allocated bitmap_word_index bitmap_word (block_allocation_blocks_log2 q) allocated_blocks_index
                (drop allocated_blocks_index (allocated_blocks q)) in
            let! next_word := uadd 64 bitmap_word_index 1 in
            let! '(bitmap_word, it, allocated_blocks_index) :=
              (if next_word =? image_bitmap_words q then
                 let! excess := excess_bits (image_size q) in
                 let bitmap_word := Z.lor bitmap_word excess in
                 if negb (search_begin_bitmap_word_index q =? 0) then
                   let! it := word_iter_new_at allocs frees 0 in
                   Ok (bitmap_word, (it, take_count (search_begin_bitmap_word_index q)), 0%nat)
                 else Ok (bitmap_word, it, allocated_blocks_index)
               else Ok (bitmap_word, it, allocated_blocks_index)) in
            let! decision := examine_word q table bitmap_word_index bitmap_word cached best distance in
            match decision with
            | Return b => Ok (inl b)
            | Continue cached best distance => find_loop fuel q self allocs frees table it cached best distance allocated_blocks_index
            end
      end
  end.

(** The block taken from the best candidate. *)
Definition candidate_block (table : mask_table) (c : FoundCandidate) : res Z :=
  let split := candidate_split_block_allocation_blocks_log2 c in
  let! word_split_blocks_lsbs_mask := get_blocks_lsbs_mask table split in
  let! free_split_blocks_lsbs := bitmap_word_free_blocks_lsbs (candidate_bitmap_word c) split word_split_blocks_lsbs_mask in
  let! t := usub 32 BITMAP_WORD_BITS_LOG2 1 in
  let! free_split_blocks_lsbs :=
    (if split <? t then
       let! double := uadd 32 split 1 in
       let! word_double_split_blocks_lsbs_mask := get_blocks_lsbs_mask table double in
       bitmap_word_filter_blocks_with_free_buddy_lsbs free_split_blocks_lsbs free_split_blocks_lsbs split
         word_double_split_blocks_lsbs_mask
     else Ok free_split_blocks_lsbs) in
  let! _ := debug_assert (negb (free_split_blocks_lsbs =? 0)) in
  let! b := umul 64 (candidate_bitmap_word_index c) BITMAP_WORD_BITS in
  let! pos := bitmap_word_block_alloc_select_block free_split_blocks_lsbs split word_split_blocks_lsbs_mask table in
  uadd 64 b pos.

Definition find_free_block self (log2 : Z) (allocated_blocks : list Z) (chunks : option PhysicalExtents.extents) allocs frees
    (image_size : Z) (search_allocation_blocks_begin : option Z) (optimize_placement : bool) : res (option Z) :=
  let! block_allocations_blocks := ushl 32 1 log2 in
  let! _ := debug_assert (block_allocations_blocks <=? BITMAP_WORD_BITS) in
  if block_allocations_blocks =? BITMAP_WORD_BITS then
    find_free_fullword_block self allocated_blocks chunks allocs frees image_size
  else
    let! t := uadd 64 image_size (64 - 1) in
    let! image_bitmap_words := ushr 64 t BITMAP_WORD_BITS_LOG2 in
    let! search_begin_bitmap_word_index :=
      match search_allocation_blocks_begin with
      | Some b =>
          let! w := ushr 64 b BITMAP_WORD_BITS_LOG2 in
          Ok (if optimize_placement then Z.max 0 (w - (PLACEMENT_OPTIMIZATION_SEARCH_DISTANCE_BITMAP_WORDS - 1)) else w)
      | None => Ok 0
      end in
    let! _ := debug_assert (search_begin_bitmap_word_index <? image_bitmap_words) in
    let! table := init_word_blocks_lsbs_masks_table in
    let! word_blocks_lsbs_mask := get_blocks_lsbs_mask table log2 in
    let! remaining := uadd 64 image_bitmap_words 1 in
    let! it := word_iter_new_at allocs frees search_begin_bitmap_word_index in
    let! words := usub 64 image_bitmap_words search_begin_bitmap_word_index in
    let! _ := debug_assert (sorted_blocks allocated_blocks) in
    let allocated_blocks_index := blocks_before allocated_blocks search_begin_bitmap_word_index in
    let q := mk_search log2 allocated_blocks chunks image_size image_bitmap_words search_begin_bitmap_word_index optimize_placement
      word_blocks_lsbs_mask in
    let! found := find_loop (Z.to_nat image_bitmap_words) q self allocs frees table (it, take_count words) None None remaining
      allocated_blocks_index in
    match found with
    | inl b => Ok (Some b)
    | inr (Some c) => let! b := candidate_block table c in Ok (Some b)
    | inr None => Ok None
    end.
End Ops.

(** ** Chunks allocated before

    They consist of whole words, each of them in one chunk at most. *)

Abbreviation chunk_end e := (e.1 + e.2).
Definition chunks_ok (chunks : PhysicalExtents.extents) : Prop :=
  PhysicalExtents.pe_wf chunks ∧ (∀ e, e ∈ chunks → e.1 / 64 < chunk_end e / 64) ∧
  ∀ e e', e ∈ chunks → e' ∈ chunks → e = e' ∨ chunk_end e / 64 ≤ e'.1 / 64 ∨ chunk_end e' / 64 ≤ e.1 / 64.
(** The words of the chunks. *)
Definition chunk_covers (chunks : PhysicalExtents.extents) (w : Z) : Prop :=
  ∃ e, e ∈ chunks ∧ e.1 / 64 ≤ w < chunk_end e / 64.

Section Chunks.
Context {B : Build}.
Variables (chunks : PhysicalExtents.extents) (chunks_opt : option PhysicalExtents.extents).
Hypothesis Hchunks : chunks_ok chunks.
Hypothesis Hopt : chunks = default [] chunks_opt.

(** The chunk with the least end after a word. *)
Definition first_after (w : Z) (c : BlockRange) : Prop :=
  ∃ e, e ∈ chunks ∧ c = PhysicalExtents.entry_range e ∧ w < chunk_end e / 64 ∧ ∀ e', e' ∈ chunks → w < chunk_end e' / 64 → chunk_end e ≤ chunk_end e'.
Definition cached_ok (cached : option BlockRange) (w : Z) : Prop :=
  ∀ c, cached = Some c → w < rng_end c / 64 → first_after w c.

Lemma filter_chunks_Ok l w : filter_chunks l w = Ok (filter (λ c, w < rng_end c / 64) l).
Proof.
  induction l as [|c l IH]; cbn [filter_chunks]; [done|]. unfold ends_after. ostep. rewrite IH. ostep. rewrite filter_cons.
  destruct (decide _) as [Hd|Hd]; zcase; done || lia.
Qed.

Lemma min_by_end_spec l :
  match min_by_end l with
  | None => l = []
  | Some m => m ∈ l ∧ ∀ c, c ∈ l → rng_end m ≤ rng_end c
  end.
Proof.
  destruct l as [|c l]; cbn [min_by_end]; [done|].
  assert (∀ l m, let r := foldl (λ m c, if rng_end c <? rng_end m then c else m) m l in
    (r = m ∨ r ∈ l) ∧ rng_end r ≤ rng_end m ∧ ∀ c, c ∈ l → rng_end r ≤ rng_end c) as H.
  { clear. induction l as [|c l IH]; intros m; cbn [foldl]; [split_and!; [by left|done|intros ? []%not_elem_of_nil]|].
    destruct (IH (if rng_end c <? rng_end m then c else m)) as (H1 & H2 & H3). destruct (Z.ltb_spec (rng_end c) (rng_end m)).
    - split_and!; [right; apply elem_of_cons; tauto|lia|]. intros c' [->|Hc']%elem_of_cons; [done|by apply H3].
    - split_and!; [rewrite elem_of_cons; tauto|lia|]. intros c' [->|Hc']%elem_of_cons; [lia|by apply H3]. }
  destruct (H l c) as (H1 & H2 & H3). split; [apply elem_of_cons; tauto|]. intros c' [->|Hc']%elem_of_cons; [done|by apply H3].
Qed.

Lemma next_chunk_spec cached w :
  cached_ok cached w →
  ∃ r, next_chunk chunks_opt cached w = Ok r ∧
    match r with Some c => first_after w c | None => ∀ e, e ∈ chunks → chunk_end e / 64 ≤ w end.
Proof.
  intros Hc. destruct Hchunks as (Hpe & _). unfold next_chunk.
  assert (∃ r, match chunks_opt with
    | None => Ok None
    | Some chunks => let! chunks := PhysicalExtents.iter chunks in let! chunks := filter_chunks chunks w in Ok (min_by_end chunks)
    end = Ok r ∧ match r with Some c => first_after w c | None => ∀ e, e ∈ chunks → chunk_end e / 64 ≤ w end) as (r & Hr & Hrs).
  { destruct chunks_opt as [l|] eqn:Ho; cbn in Hopt; [|exists None; split; [done|rewrite Hopt; intros ? []%not_elem_of_nil]].
    rewrite <-Hopt, PhysicalExtents.iter_Ok by done. ostep. rewrite filter_chunks_Ok. ostep. eexists. split; [done|].
    pose proof (min_by_end_spec (filter (λ c, w < rng_end c / 64) (PhysicalExtents.entry_range <$> chunks))) as Hm.
    destruct (min_by_end _) as [m|].
    - destruct Hm as [[Hlt (e & -> & He)%list_elem_of_fmap]%list_elem_of_filter Hmin]. exists e. split_and!; [done..|].
      intros e' He' Hlt'. apply (Hmin (PhysicalExtents.entry_range e')). apply list_elem_of_filter. split; [done|]. by apply list_elem_of_fmap_2.
    - intros e He. destruct (Z.lt_ge_cases w (chunk_end e / 64)) as [Hlt|]; [|done]. exfalso.
      assert (PhysicalExtents.entry_range e ∈ filter (λ c, w < rng_end c / 64) (PhysicalExtents.entry_range <$> chunks)) as Hin
        by (apply list_elem_of_filter; split; [done|by apply list_elem_of_fmap_2]). rewrite Hm in Hin. by apply not_elem_of_nil in Hin. }
  destruct cached as [c|]; ostep; [|by exists r]. unfold ends_after. ostep.
  destruct (Z.ltb_spec w (rng_end c / 64)); [|by exists r]. exists (Some c). split; [done|]. by apply Hc.
Qed.

Lemma in_chunk_spec cached w :
  match cached with Some c => first_after w c | None => ∀ e, e ∈ chunks → chunk_end e / 64 ≤ w end →
  ∃ v, in_chunk cached w = Ok v ∧ (v = true ↔ chunk_covers chunks w).
Proof.
  intros Hc. destruct Hchunks as (_ & Hwords & Hdisjoint). unfold in_chunk. destruct cached as [c|].
  - destruct Hc as (e & He & -> & Hlt & Hmin). ostep. eexists. split; [done|]. rewrite Z.leb_le. cbn. split.
    + intros ?. exists e. split; [done|lia].
    + intros (e' & He' & Hle & Hlt'). specialize (Hmin e' He' Hlt'). pose proof (Hwords e He).
      assert (chunk_end e / 64 ≤ chunk_end e' / 64) by (apply Z.div_le_mono; lia).
      destruct (Hdisjoint e e' He He') as [->|[?|?]]; lia.
  - exists false. split; [done|]. split; [done|]. intros (e & He & ? & ?). specialize (Hc e He). lia.
Qed.

End Chunks.

(** ** Specification *)

Lemma words_for_bounds size : 0 < size → 0 < words_for size ∧ 64 * (words_for size - 1) < size ≤ 64 * words_for size.
Proof.
  intros Hsize. unfold words_for. pose proof (Z.div_mod (size + 63) 64 ltac:(lia)). pose proof (Z.mod_pos_bound (size + 63) 64 ltac:(lia)). lia.
Qed.

Definition aligned_block (k b : Z) : Prop := 0 ≤ b ∧ (2 ^ k | b).

Section Proofs.
Context {B : Build} {P : ImageLayout.Platform}.
Variables (ab : AllocBitmap.AllocBitmap) (allocs frees : list SparseAllocBitmap) (k : Z) (blocks : list Z).
Variables (chunks : list (Z * Z)) (size sb : Z).
Hypothesis Hab : bitmap_wf ab.
Hypothesis Hallocs : pending_wf allocs.
Hypothesis Hfrees : pending_wf frees.
Hypothesis Husize : Z.of_nat (length (bitmap ab)) < 2 ^ usize_bits.

Abbreviation W := (words_for size).
Hypothesis Hsize : 0 < size.
Hypothesis Hlen : W ≤ Z.of_nat (length (bitmap ab)).
Hypothesis Hk : 0 ≤ k ≤ 5.
Hypothesis Hblocks : Forall (block_ok k) blocks.
Hypothesis Hsorted : StronglySorted Z.le blocks.

(** Blocks that a search must not return. *)
Definition taken (p : Z) : bool := view_bit ab allocs frees p || in_blocks k blocks p || (size <=? p).
Abbreviation covered := (chunk_covers chunks).

Definition word_of (w word : Z) : Prop := in_u 64 word ∧ ∀ i, 0 ≤ i < 64 → Z.testbit word i = taken (64 * w + i).

Lemma image_words : 0 < W ∧ 64 * (W - 1) < size ≤ 64 * W.
Proof. by apply words_for_bounds. Qed.

(** *** Blocks allocated before *)

Lemma block_in_one_word b p : block_ok k b → b ≤ p < b + 2 ^ k → p / 64 = b / 64.
Proof.
  intros (? & [q Hq] & ?) Hp. pose proof (pow2_pos k ltac:(lia)).
  assert (64 = 2 ^ k * 2 ^ (6 - k)) as H64 by (rewrite <-Z.pow_add_r by lia; by replace (k + (6 - k)) with 6 by lia).
  pose proof (pow2_pos (6 - k) ltac:(lia)). destruct (block_split b) as [Hb ?]. symmetry. apply Z.div_unique with (p - 64 * (b / 64)); [|lia].
  left. assert (b mod 64 = 2 ^ k * (q mod 2 ^ (6 - k))) as Hm.
  { rewrite H64, Hq, (Z.mul_comm q), Z.mul_mod_distr_l by lia. done. }
  pose proof (Z.mod_pos_bound q (2 ^ (6 - k)) ltac:(lia)). nia.
Qed.

Lemma in_blocks_word l w i :
  Forall (block_ok k) l → 0 ≤ i < 64 → in_blocks k l (64 * w + i) = true → ∃ b, b ∈ l ∧ b / 64 = w.
Proof.
  intros Hok Hi. unfold in_blocks. rewrite existsb_exists. intros (b & Hb%list_elem_of_In & Hp).
  exists b. split; [done|]. rewrite Forall_forall in Hok. rewrite <-(block_in_one_word b (64 * w + i)) by (auto || lia).
  symmetry. apply Z.div_unique with i; lia.
Qed.

(** The mask of a block in its word. *)
Lemma block_mask_testbit b i :
  block_ok k b → 0 ≤ i < 64 →
  Z.testbit (wrap 64 (Z.shiftl (2 ^ 2 ^ k - 1) (b mod 64))) i = (b <=? 64 * (b / 64) + i) && (64 * (b / 64) + i <? b + 2 ^ k).
Proof.
  intros Hb Hi. pose proof (pow2_pos k ltac:(lia)). destruct (block_split b) as [Hbs ?].
  unfold wrap. rewrite Z.mod_pow2_bits_low, Z.shiftl_spec by lia. rewrite Z.sub_1_r, <-Z.ones_equiv.
  destruct (Z.lt_ge_cases (i - b mod 64) 0).
  - rewrite Z.testbit_neg_r by done. lia.
  - rewrite Z.testbit_ones_nonneg by lia. lia.
Qed.

Lemma mark_allocated_spec w post : ∀ pre word,
  blocks = pre ++ post → 0 ≤ w → (∀ b, b ∈ pre → b / 64 < w + 1) → (∀ b, b ∈ post → w ≤ b / 64) → in_u 64 word →
  ∃ word' pre' post', mark_allocated w word k (length pre) post = Ok (word', length pre') ∧ in_u 64 word' ∧ blocks = pre' ++ post' ∧
    (∀ b, b ∈ pre' → b / 64 < w + 1) ∧ (∀ b, b ∈ post' → w + 1 ≤ b / 64) ∧
    ∀ i, 0 ≤ i < 64 → Z.testbit word' i = Z.testbit word i || in_blocks k post (64 * w + i).
Proof.
  induction post as [|b post IH]; intros pre word Hl Hw Hpre Hpost Hword; cbn [mark_allocated].
  { exists word, pre, []. split_and!; [done..|intros ? []%not_elem_of_nil|]. intros i Hi. by rewrite orb_false_r. }
  rewrite Hl in Hblocks. apply Forall_app in Hblocks as [_ Hbs]. inversion_clear Hbs as [|? ? Hb Hbs']. pose proof Hb as (? & ? & ?).
  pose proof (pow2_pos k ltac:(lia)). assert (2 ^ k ≤ 32) by (apply (Z.pow_le_mono_r 2 k 5); lia). ostep.
  assert (∀ b', b' ∈ b :: post → b / 64 ≤ b' / 64) as Htail.
  { rewrite Hl in Hsorted. apply StronglySorted_app_1_r in Hsorted as Hs. inversion_clear Hs as [|? ? _ Hle].
    rewrite Forall_forall in Hle. intros b' [->|Hb']%elem_of_cons; [done|]. apply Z.div_le_mono; [lia|by apply Hle]. }
  destruct (Z.eqb_spec (b / 64) w) as [Hbw|Hbw].
  - rewrite Z.shiftl_1_l, (wrap_small 32 (2 ^ k)) by (unfold in_u; lia). rewrite trailing_bits_mask_u_spec by lia. ostep. rewrite land_word. destruct (block_split b) as [Hbs ?].
    rewrite ushl_Ok by lia. cbn [obind]. assert (in_u 64 (wrap 64 (Z.shiftl (2 ^ 2 ^ k - 1) (b mod 64)))) as Hm by (apply wrap_in_u; lia).
    replace (length pre + 1)%nat with (length (pre ++ [b])) by (rewrite length_app; cbn; lia).
    destruct (IH (pre ++ [b]) (Z.lor word (wrap 64 (Z.shiftl (2 ^ 2 ^ k - 1) (b mod 64)))))
      as (word' & pre' & post' & -> & Hu & Hl' & Hpre' & Hpost' & Hbits).
    + by rewrite <-app_assoc.
    + done.
    + intros b' [Hb'|Hb'%list_elem_of_singleton]%elem_of_app; [by apply Hpre|subst; lia].
    + intros b' Hb'. apply Hpost. by right.
    + by apply lor_in_u.
    + exists word', pre', post'. split_and!; [done..|]. intros i Hi. rewrite Hbits, Z.lor_spec, block_mask_testbit by done.
      rewrite Hbw. unfold in_blocks. cbn [existsb]. by rewrite orb_assoc.
  - assert (w < b / 64) by (specialize (Hpost b ltac:(left)); lia).
    exists word, pre, (b :: post). split_and!; [done..| |].
    + intros b' Hb'. specialize (Htail b' Hb'). lia.
    + intros i Hi. destruct (in_blocks k (b :: post) (64 * w + i)) eqn:Hin; [|by rewrite orb_false_r].
      apply in_blocks_word in Hin as (b' & Hb' & Hbw'); [|by constructor|done]. specialize (Htail b' Hb'). lia.
Qed.
(** *** The words in the order of the search *)

Hypothesis Hsb : 0 ≤ sb < W.

Lemma excess_bits_Ok :
  ∃ e, excess_bits size = Ok e ∧ in_u 64 e ∧ ∀ i, 0 ≤ i < 64 → Z.testbit e i = (size <=? 64 * (W - 1) + i).
Proof.
  destruct Hab as [_ ?]. destruct image_words as [? ?]. destruct (last_word_bits size) as [Heq ?]; [lia|].
  unfold excess_bits, BITMAP_WORD_BITS. change (64 - 1) with (2 ^ BITMAP_WORD_BITS_LOG2 - 1). rewrite Heq. cbn [obind].
  rewrite trailing_bits_mask_u_spec by lia. ostep. eexists. split; [done|].
  assert (in_u 64 (2 ^ (size - 64 * (W - 1)) - 1)) as Hm.
  { pose proof (pow2_pos (size - 64 * (W - 1)) ltac:(lia)). split; [lia|]. pose proof (Z.pow_le_mono_r 2 (size - 64 * (W - 1)) 64). lia. }
  split; [by apply unot_in_u|]. intros i Hi. rewrite unot_testbit, Z.sub_1_r, <-Z.ones_equiv, Z.testbit_ones_nonneg by lia. lia.
Qed.

Lemma view_bit_at w i : 0 ≤ w < W → 0 ≤ i < 64 → Z.testbit (view_word ab allocs frees w) i = view_bit ab allocs frees (64 * w + i).
Proof.
  intros Hw Hi. pose proof (view_bit_word ab allocs frees (64 * w) i) as Hv. 
  replace (64 * w / 64) with w in Hv by (rewrite Z.mul_comm, Z.div_mul by lia; done). replace ((64 * w) mod 64) with 0 in Hv
    by (rewrite Z.mul_comm, Z.mod_mul by lia; done). rewrite Hv by lia. by rewrite Z.add_0_l.
Qed.

(** The iterator and the index into the blocks are at the word [w]; words before
    [w_end] are left to take. *)
Definition at_words (it : WordIter * Z) (idx : nat) (w w_end : Z) : Prop :=
  iter_at allocs frees it.1 w ∧ it.2 = w_end - w ∧ 0 ≤ w ≤ w_end ∧
  ∃ pre post, blocks = pre ++ post ∧ idx = length pre ∧ (∀ b, b ∈ pre → b / 64 < w) ∧ (∀ b, b ∈ post → w ≤ b / 64).
(** The words still to come, with the wrap-around at the end of the image. *)
Definition state_at (it : WordIter * Z) (idx : nat) (pending : list Z) : Prop :=
  (∃ w, at_words it idx w W ∧ w < W ∧ pending = seqZ w (W - w) ++ seqZ 0 sb) ∨
  (∃ w, at_words it idx w sb ∧ pending = seqZ w (sb - w)) ∨
  (it.2 = 0 ∧ pending = []).

Lemma take_next_None it idx : state_at it idx [] → take_next ab allocs frees it = Ok (None, it).
Proof.
  intros [(w & _ & Hw & Hp)|[(w & (_ & Hn & Hw & _) & Hp)|[Hn _]]]; unfold take_next; destruct it as [it n]; cbn in *.
  - rewrite (seqZ_cons w) in Hp by lia. done.
  - destruct (Z.lt_ge_cases w sb); [rewrite (seqZ_cons w) in Hp by lia; done|]. by replace (n =? 0) with true by lia.
  - by subst.
Qed.

Lemma take_next_at it idx w w_end :
  at_words it idx w w_end → w < w_end → w_end ≤ W →
  ∃ it', take_next ab allocs frees it = Ok (Some (w, view_word ab allocs frees w), it') ∧
    iter_at allocs frees it'.1 (w + 1) ∧ it'.2 = w_end - (w + 1).
Proof.
  intros (Hit & Hn & Hw & _) Hlt Hle. destruct it as [it n]. cbn in *. unfold take_next. replace (n =? 0) with false by lia.
  pose proof (word_iter_next_Ok ab allocs frees Hab Hallocs Hfrees it w ltac:(lia) Hit) as Hnext.
  replace (w <? Z.of_nat (length (bitmap ab))) with true in Hnext by lia. destruct Hnext as (it' & -> & Hit'). ostep.
  eexists. split; [done|]. split; [done|]. cbn. lia.
Qed.

(** What a round does to the state before it looks at the word. *)
Definition round (it : WordIter * Z) (w word : Z) (idx : nat) : res (Z * (WordIter * Z) * nat) :=
  if w + 1 =? W then
    let! excess := excess_bits size in
    let bitmap_word := Z.lor word excess in
    if negb (sb =? 0) then
      let! it := word_iter_new_at allocs frees 0 in Ok (bitmap_word, (it, take_count sb), 0%nat)
    else Ok (bitmap_word, it, idx)
  else Ok (word, it, idx).

Lemma round_spec it idx w rest :
  state_at it idx (w :: rest) →
  0 ≤ w < W ∧ ∃ it1 word1 idx1 word it' idx',
    take_next ab allocs frees it = Ok (Some (w, view_word ab allocs frees w), it1) ∧
    mark_allocated w (view_word ab allocs frees w) k idx (drop idx blocks) = Ok (word1, idx1) ∧
    round it1 w word1 idx1 = Ok (word, it', idx') ∧ word_of w word ∧ state_at it' idx' rest.
Proof.
  intros Hst. assert (∃ w_end, at_words it idx w w_end ∧ w < w_end ≤ W ∧
    ((w_end = W ∧ rest = seqZ (w + 1) (W - (w + 1)) ++ seqZ 0 sb) ∨ (w_end = sb ∧ rest = seqZ (w + 1) (sb - (w + 1)))))
    as (w_end & Hat & Hlt & Hrest).
  { destruct Hst as [(w' & Hat & Hw & Hp)|[(w' & Hat & Hp)|[_ ?]]]; [| |done].
    - rewrite (seqZ_cons w') in Hp by lia. simplify_eq/=. exists W. split; [done|]. split; [lia|]. left. split; [done|].
      f_equal. f_equal; lia.
    - destruct (Z.lt_ge_cases w' sb); [|rewrite seqZ_nil in Hp by lia; done]. rewrite (seqZ_cons w') in Hp by lia. simplify_eq/=.
      exists sb. split; [done|]. split; [lia|]. right. split; [done|]. f_equal; lia. }
  destruct (take_next_at it idx w w_end Hat ltac:(lia) ltac:(lia)) as (it1 & Htake & Hit1 & Hn1).
  destruct Hat as (_ & _ & Hw & pre & post & Hl & -> & Hpre & Hpost). split; [lia|].
  destruct (mark_allocated_spec w post pre (view_word ab allocs frees w)) as (word1 & pre' & post' & Hmark & Hu1 & Hl' & Hpre' & Hpost' & Hbits);
    [done|lia|intros b Hb; specialize (Hpre b Hb); lia|done|by apply view_word_in_u|].
  assert (∀ i, 0 ≤ i < 64 → in_blocks k blocks (64 * w + i) = in_blocks k post (64 * w + i)) as Hin.
  { intros i Hi. rewrite Hl. unfold in_blocks. rewrite existsb_app. destruct (existsb _ pre) eqn:He; [|done]. exfalso.
    apply (in_blocks_word pre w i) in He as (b & Hb & Hbw); [specialize (Hpre b Hb); lia| |done].
    rewrite Hl in Hblocks. by apply Forall_app in Hblocks as [? _]. }
  assert (∀ word, in_u 64 word → (∀ i, 0 ≤ i < 64 → Z.testbit word i = Z.testbit word1 i || (size <=? 64 * w + i)) → word_of w word) as Hword.
  { intros word Hu Hb. split; [done|]. intros i Hi. unfold taken. rewrite Hb, Hbits, view_bit_at, Hin by lia. done. }
  exists it1, word1, (length pre').
  assert (drop (length pre) blocks = post) as -> by (rewrite Hl; apply drop_app_length). unfold round. destruct image_words as [? Hbound].
  destruct (Z.eqb_spec (w + 1) W) as [Hlast|Hlast].
  - destruct excess_bits_Ok as (e & -> & He & Hebits). ostep. assert (word_of w (Z.lor word1 e)) as Hwo.
    { apply Hword; [by apply lor_in_u|]. intros i Hi. rewrite Z.lor_spec, Hebits by done. do 2 f_equal. lia. }
    assert (rest = seqZ 0 sb) as Hr.
    { destruct Hrest as [[_ ->]|[-> _]]; [by rewrite seqZ_nil by lia|lia]. }
    destruct (Z.eqb_spec sb 0) as [Hsb0|Hsb0]; cbn [negb].
    + eexists _, _, _. split_and!; [done..|]. right. right. split; [lia|]. rewrite Hr, Hsb0. done.
    + destruct (word_iter_new_at_Ok allocs frees Hallocs Hfrees 0 ltac:(lia)) as (it0 & -> & Hit0). ostep.
      eexists _, _, _. split_and!; [done..|]. right. left. exists 0. split; [|rewrite Hr; f_equal; lia].
      split; [done|]. split; [unfold take_count; cbn; zdec; lia|]. split; [lia|]. exists [], blocks. split_and!; [done..|intros ? []%not_elem_of_nil|].
      intros b Hb. rewrite Forall_forall in Hblocks. destruct (Hblocks b Hb) as (? & _). apply Z.div_pos; lia.
  - eexists _, _, _. split_and!; [done..| |].
    + apply Hword; [done|]. intros i Hi. replace (size <=? 64 * w + i) with false by lia. by rewrite orb_false_r.
    + destruct Hrest as [[-> ->]|[-> ->]].
      * left. exists (w + 1). split; [|split; [lia|done]]. split_and!; [done..|lia|lia|]. by exists pre', post'.
      * right. left. exists (w + 1). split; [|done]. split_and!; [done..|lia|lia|]. by exists pre', post'.
Qed.

(** *** Chunks allocated before *)

Hypothesis Hchunks : chunks_ok chunks.
(** They are free otherwise. *)
Hypothesis Hfree_words : ∀ w i, covered w → 0 ≤ i < 64 → taken (64 * w + i) = false.
(** Chunks are not passed to a search that wraps around. *)
Hypothesis Hwrap : chunks = [] ∨ sb = 0.

Variable chunks_opt : option PhysicalExtents.extents.
Hypothesis Hopt : chunks = default [] chunks_opt.

(** Words that come later in a search with chunks are larger. *)
Lemma cached_later cached w rest it idx :
  match cached with Some c => first_after chunks w c | None => True end → state_at it idx (w :: rest) → ∀ w', w' ∈ rest → cached_ok chunks cached w'.
Proof.
  intros Hc Hst w' Hw' c -> Hlt. destruct Hc as (e & He & -> & _ & Hmin). exists e. split_and!; [done..|].
  assert (w ≤ w') as Hle; [|intros e' He' ?; apply Hmin; [done|lia]].
  destruct Hwrap as [Hnil|Hsb0]; [rewrite Hnil in He; by apply not_elem_of_nil in He|].
  destruct Hst as [(v & _ & Hv & Hp)|[(v & (_ & _ & Hv & _) & Hp)|[_ Hp]]]; [| |done].
  - rewrite Hsb0, (seqZ_nil 0 0), app_nil_r, (seqZ_cons v) in Hp by lia. simplify_eq/=. apply elem_of_seqZ in Hw'. lia.
  - rewrite seqZ_nil in Hp by lia. done.
Qed.

(** *** The loop *)

Definition available (b : Z) : Prop := aligned_block k b ∧ ¬ covered (b / 64) ∧ ∀ p, b ≤ p < b + 2 ^ k → taken p = false.

Lemma available_in_word w word i :
  word_of w word → 0 ≤ w < W → 0 ≤ i < 64 → ¬ covered w → block_free k word i = true → available (64 * w + i).
Proof.
  intros [_ Hbits] Hw Hi Hcov Hfree. apply block_free_spec in Hfree as [Hd Hb]; [|lia..].
  destruct (block_position k i ltac:(lia) Hi) as (_ & Hpos & _ & Hle). pose proof (pow2_pos k ltac:(lia)).
  assert (i mod 2 ^ k = 0) as Hm by (apply Z.mod_divide; [lia|done]).
  split_and!.
  - split; [lia|]. apply Z.divide_add_r; [|done]. apply Z.divide_mul_l. exists (2 ^ (6 - k)). rewrite <-Z.pow_add_r by lia. by replace (6 - k + k) with 6 by lia.
  - by replace ((64 * w + i) / 64) with w by (apply Z.div_unique with i; lia).
  - intros p Hp. replace p with (64 * w + (p - 64 * w)) by lia. rewrite <-Hbits by lia. apply Hb. lia.
Qed.

Lemma available_word b :
  available b → 0 ≤ b / 64 < W ∧ ∀ word, word_of (b / 64) word → block_free k word (b mod 64) = true.
Proof.
  intros ([Hb Hd] & _ & Hfree). destruct (block_split b) as [Hbs ?]. pose proof (pow2_pos k ltac:(lia)). destruct image_words as [? ?].
  assert (b < size) as Hlt.
  { specialize (Hfree b ltac:(lia)). unfold taken in Hfree. apply orb_false_iff in Hfree as [_ ?]. lia. }
  split; [split; [apply Z.div_pos; lia|apply Z.div_lt_upper_bound; lia]|]. intros word [_ Hbits].
  assert ((2 ^ k | 64)) as H64 by (exists (2 ^ (6 - k)); rewrite <-Z.pow_add_r by lia; by replace (6 - k + k) with 6 by lia).
  assert (b mod 64 mod 2 ^ k = 0) as Hm.
  { replace (b mod 64) with (b - 64 * (b / 64)) by lia. apply Z.mod_divide; [lia|]. apply Z.divide_sub_r; [done|]. by apply Z.divide_mul_l. }
  destruct (block_position k (b mod 64) ltac:(lia) ltac:(lia)) as (_ & Hpos & _ & Hle).
  apply block_free_spec; [lia..|]. split; [apply Z.mod_divide; [lia|done]|]. intros p Hp. rewrite Hbits by lia. apply Hfree. lia.
Qed.

Definition cand_ok (c : FoundCandidate) : Prop :=
  let s := candidate_split_block_allocation_blocks_log2 c in
  let word := candidate_bitmap_word c in
  let w := candidate_bitmap_word_index c in
  0 ≤ w < W ∧ word_of w word ∧ ¬ covered w ∧ k < s ≤ 6 ∧
  (s = 6 ∧ word = 0 ∨
   s ≤ 5 ∧ word ≠ 0 ∧ ∃ i, 0 ≤ i < 64 ∧ block_free s word i = true ∧ (s < 5 → block_free s word (buddy s i) = false)).

Lemma word_bound w : 0 ≤ w < W → 64 * w + 64 < 2 ^ 64.
Proof. destruct Hab. lia. Qed.

Lemma candidate_block_spec c : cand_ok c → ∃ b, candidate_block lsbs_table c = Ok b ∧ available b.
Proof.
  destruct c as [w word s]. unfold cand_ok. cbn. intros (Hw & Hword & Hcov & Hs & Hcase). pose proof Hword as [Hu _]. pose proof (word_bound w Hw).
  assert (∃ i, 0 ≤ i < 64 ∧ block_free s word i = true ∧ (s < 5 → block_free s word (buddy s i) = false)) as (i & Hi & Hfi & Hbi).
  { destruct Hcase as [[-> ->]|(_ & _ & ?)]; [|done]. exists 0. split_and!; [lia..|by vm_compute|lia]. }
  unfold candidate_block. cbn. rewrite get_blocks_lsbs_mask_Ok by lia. cbn [obind].
  destruct (bitmap_word_free_blocks_lsbs_Ok (E:=NvFsError) s word ltac:(lia) Hu) as (f & -> & Hf). pose proof Hf as [Hfu Hfb]. cbn [obind].
  assert (∃ g, (if s <? 6 - 1 then
      let! double := uadd 32 s 1 in let! m := get_blocks_lsbs_mask lsbs_table double in
      bitmap_word_filter_blocks_with_free_buddy_lsbs f f s m
    else Ok f) = Ok (E:=NvFsError) g ∧ in_u 64 g ∧ aligned_bits s g ∧ (s < 6 → g ≠ lsbs_mask s) ∧
    (∀ p, 0 ≤ p < 64 → Z.testbit g p = true → block_free s word p = true) ∧ Z.testbit g i = true ∧ (s < 5 → Z.testbit g (buddy s i) = false))
    as (g & Hg & Hgu & Hga & Hgm & Hgf & Hgi & Hgb).
  { assert (i mod 2 ^ s = 0) as Him by (unfold block_free in Hfi; apply andb_true_iff in Hfi as [Hm%Z.eqb_eq _]; done).
    change (6 - 1) with 5. destruct (Z.ltb_spec s 5) as [Hs5|Hs5].
    - ostep. rewrite get_blocks_lsbs_mask_Ok by lia. ostep. destruct (buddy_spec s i ltac:(lia) Hi Him) as (Hbr & Hbm & Hbb & Hbn).
      destruct (filter_nonzero (E:=NvFsError) s f) as (g & -> & Hgu & Hgbits & Hga & _); [lia|done|by eapply free_lsbs_aligned|].
      exists g. assert (Z.testbit g (buddy s i) = false) as Hgbud by (rewrite Hgbits, Hfb, Hbi by (done || lia); done).
      split_and!; [done..| | | |done].
      + intros _ ->. rewrite lsbs_mask_testbit, Hbm in Hgbud by (done || lia). done.
      + intros p Hp Hgp. pose proof (Hga p Hp Hgp) as Hpm. rewrite Hgbits, andb_true_iff, Hfb in Hgp by done. tauto.
      + rewrite Hgbits, !Hfb, Hfi, Hbi by (done || lia). done.
    - exists f. split_and!; [done|done|by eapply free_lsbs_aligned| | |by rewrite Hfb|lia].
      + intros ?. destruct Hcase as [[? _]|(_ & Hnz & _)]; [lia|]. apply (not_all_free s word); [lia|done..].
      + intros p Hp. by rewrite Hfb. }
  unfold BITMAP_WORD_BITS_LOG2 in *. rewrite Hg. cbn [obind].
  assert (g ≠ 0) as Hgz by (intros ->; by rewrite Z.bits_0 in Hgi).
  rewrite (proj2 (Z.eqb_neq g 0) Hgz). unfold BITMAP_WORD_BITS. ostep.
  destruct (bitmap_word_block_alloc_select_block_Ok (E:=NvFsError) s g) as (p & -> & Hp & Hgp & _); [lia|done..| |].
  { intros Hs5. exists i. split_and!; [lia..|done|by apply Hgb]. }
  ostep. eexists. split; [done|]. rewrite (Z.mul_comm w 64). apply available_in_word with word; try done.
  apply (block_free_sub k s); [lia..|]. by apply Hgf.
Qed.

Variable opt : bool.
Definition the_search : Search := mk_search k blocks chunks_opt size W sb opt (lsbs_mask k).

(** The result of the loop that starts with [best] and has [pending] before it. *)
Definition loop_result (best : option FoundCandidate) (pending : list Z) (r : Z + option FoundCandidate) : Prop :=
  match r with
  | inl b => available b
  | inr (Some c) => cand_ok c
  | inr None => best = None ∧ ∀ b, available b → b / 64 ∉ pending
  end.

Lemma loop_result_skip best w rest r :
  loop_result best rest r → (best = None → ∀ b, available b → b / 64 ≠ w) → loop_result best (w :: rest) r.
Proof.
  destruct r as [b|[c|]]; [done..|]. intros [Hb Hr] Hw. split; [done|]. intros b Hav. rewrite not_elem_of_cons. auto.
Qed.
Lemma loop_result_found best c rest w r : loop_result (Some c) rest r → loop_result best (w :: rest) r.
Proof. destruct r as [b|[c'|]]; [done..|]. by intros []. Qed.

(** No block of a word without a free block is available. *)
Lemma no_block_in_word w word :
  word_of w word → (∀ i, 0 ≤ i < 64 → block_free k word i = false) → ∀ b, available b → b / 64 ≠ w.
Proof.
  intros Hword Hnone b Hav Hw. destruct (available_word b Hav) as [_ Hf]. rewrite Hw in Hf. specialize (Hf word Hword).
  destruct (block_split b). rewrite Hnone in Hf by lia. done.
Qed.

(** Choosing a block in a word that has a free one, with placement optimisation. *)
Lemma choose_block w word f best :
  word_of w word → word ≠ 0 → free_lsbs k word f → f ≠ 0 → 0 ≤ w < W → (∀ c, best = Some c → cand_ok c) →
  let max := candidate_split_block_allocation_blocks_log2 <$> best in
  ∃ s, bitmap_word_block_alloc_split_block_size_log2 (E:=NvFsError) f max k (lsbs_mask k) lsbs_table = Ok s ∧
    (s = k → ∃ p, bitmap_word_block_alloc_select_block (E:=NvFsError) f k (lsbs_mask k) lsbs_table = Ok p ∧
       block_in_word w p = Ok (64 * w + p) ∧ available (64 * w + p)) ∧
    (s ≠ k → match max with Some m => s < m | None => True end → cand_ok (mk_candidate w word s)).
Proof.
  intros Hword Hnz Hf Hfz Hw Hbest max. pose proof Hword as [Hu Hbits]. pose proof Hf as [Hfu Hfb]. pose proof (word_bound w Hw).
  assert (∀ m, max = Some m → k < m ≤ 6) as Hmax by (intros m (c & Hc & ->)%fmap_Some; destruct (Hbest c Hc) as (_ & _ & _ & ? & _); lia).
  assert (¬ covered w) as Hcov.
  { intros Hc. destruct (nonzero_bit word Hu Hnz) as (i & Hi & Ht). rewrite Hbits, Hfree_words in Ht by done. done. }
  destruct (bitmap_word_block_alloc_split_block_size_log2_Ok (E:=NvFsError) k word f max) as (s & Hs & Hks & Hsm & _ & i & Hi & Hfi & Hbi);
    [done..|intros m Hm; specialize (Hmax m Hm); lia|].
  exists s. split_and!; [done| |].
  - intros ->. destruct (bitmap_word_block_alloc_select_block_Ok (E:=NvFsError) k f) as (p & Hp & Hpr & Hpf & _);
      [lia|done|by eapply free_lsbs_aligned|done|intros _; apply (not_all_free k word); [lia|done..]| |].
    { intros Hk5. assert (i mod 2 ^ k = 0) as Him by (unfold block_free in Hfi; apply andb_true_iff in Hfi as [Hm%Z.eqb_eq _]; done).
      exists i. destruct (buddy_spec k i) as (? & _); [lia|done..|]. rewrite !Hfb by done. split_and!; [lia..|done|].
      apply Hbi; [done|]. intros m Hm. specialize (Hmax m Hm). lia. }
    exists p. split; [done|]. unfold block_in_word, BITMAP_WORD_BITS_LOG2. ostep.
    rewrite Z.shiftl_mul_pow2, wrap_small by (unfold in_u; lia). ostep. split; [f_equal; lia|].
    apply available_in_word with word; try done. by rewrite <-Hfb.
  - intros Hne Hm. split_and!; cbn; [lia|lia|done|done|lia|lia|]. right. split_and!; [lia|done|]. exists i. split_and!; [lia..|done|].
    intros Hs5. apply Hbi; [done|]. intros m Hmm. by rewrite Hmm in Hm.
Qed.

(** The decision on a word is right. *)
Definition decision_ok (w : Z) (cached : option BlockRange) (best : option FoundCandidate) (distance : Z) (d : decision) : Prop :=
  match d with
  | Return b => available b
  | Continue cached' best' distance' =>
      (cached' = cached ∨ match cached' with Some c => first_after chunks w c | None => True end) ∧
      (∀ c, best' = Some c → cand_ok c ∧ opt = true) ∧ 1 ≤ distance' ∧
      (best' = None → best = None ∧ distance' = distance ∧ ∀ b, available b → b / 64 ≠ w)
  end.

Lemma examine_free_word w cached :
  word_of w 0 → 0 ≤ w < W → cached_ok chunks cached w →
  ∀ distance, 1 ≤ distance →
  ∃ d, examine_word the_search lsbs_table w 0 cached None distance = Ok d ∧ decision_ok w cached None distance d.
Proof.
  intros Hword Hw Hcached distance Hd. pose proof (word_bound w Hw). unfold examine_word. change (0 =? unot 64 0) with false.
  cbn [Z.eqb the_search allocated_fullword_chunks optimize_placement].
  destruct (next_chunk_spec chunks chunks_opt Hchunks Hopt cached w Hcached) as (cached' & -> & Hc). cbn [obind].
  destruct (in_chunk_spec chunks Hchunks cached' w Hc) as (v & -> & Hv). cbn [obind].
  assert (match cached' with Some c => first_after chunks w c | None => True end) as Hc' by (by destruct cached'). destruct v.
  - eexists. split; [done|]. split_and!; [by right|done|done|]. intros _. split_and!; [done..|]. intros b (_ & Hcov & _) <-. by apply Hcov, Hv.
  - assert (¬ covered w) as Hcov by (intros Hcov%Hv; done). destruct opt eqn:Hopt'; cbn [negb].
    + eexists. split; [done|]. split_and!; [by right| |done|done]. intros c [= <-]. split; [|done]. unfold BITMAP_WORD_BITS_LOG2.
      split_and!; cbn; [lia|lia|done|done|lia|lia|]. by left.
    + unfold BITMAP_WORD_BITS_LOG2. ostep. rewrite Z.shiftl_mul_pow2, wrap_small by (unfold in_u; lia). eexists. split; [done|]. cbn [decision_ok].
      replace (w * 2 ^ 6) with (64 * w + 0) by lia. apply available_in_word with 0; try done.
Qed.

Lemma examine_word_spec w word cached best distance :
  word_of w word → 0 ≤ w < W → cached_ok chunks cached w → (∀ c, best = Some c → cand_ok c ∧ opt = true) → 1 ≤ distance →
  ∃ d, examine_word the_search lsbs_table w word cached best distance = Ok d ∧ decision_ok w cached best distance d.
Proof.
  intros Hword Hw Hcached Hbest Hd. pose proof (word_bound w Hw). pose proof Hword as [Hu Hbits].
  assert ((best = None → ∀ b, available b → b / 64 ≠ w) → decision_ok w cached best distance (Continue cached best distance)) as Hskip
    by (intros Hno; split_and!; [by left|done..|]; auto).
  destruct (Z.eq_dec word 0) as [->|Hz].
  { destruct best as [c|] eqn:Hbb; [|by apply examine_free_word]. eexists. split; [done|]. by apply Hskip. }
  unfold examine_word. rewrite (proj2 (Z.eqb_neq word 0) Hz).
  cbn [the_search block_allocation_blocks_log2 optimize_placement word_blocks_lsbs_mask].
  destruct (Z.eqb_spec word (unot 64 0)) as [Hfull|Hfull].
  { eexists. split; [done|]. apply Hskip. intros _. apply (no_block_in_word w word Hword). intros i Hi. apply not_true_iff_false.
    rewrite block_free_spec by lia. intros [_ Hb]. pose proof (pow2_pos k ltac:(lia)). specialize (Hb i ltac:(lia)).
    rewrite Hfull, unot_testbit, Z.bits_0 in Hb by done. done. }
  destruct (bitmap_word_free_blocks_lsbs_Ok (E:=NvFsError) k word ltac:(lia) Hu) as (f & -> & Hf). cbn [obind]. pose proof Hf as [Hfu Hfb].
  destruct (Z.eqb_spec f 0) as [Hf0|Hf0].
  { eexists. split; [done|]. apply Hskip. intros _. apply (no_block_in_word w word Hword). intros i Hi. by rewrite <-Hfb, Hf0, Z.bits_0. }
  destruct opt eqn:Hopt'; cbn [negb].
  - destruct (choose_block w word f best Hword Hz Hf Hf0 Hw) as (s & Hs & Heq & Hne); [intros c Hc; by apply Hbest|].
    assert ((match best with
      | Some c => let! _ := debug_assert (k <? candidate_split_block_allocation_blocks_log2 c) in Ok (Some (candidate_split_block_allocation_blocks_log2 c))
      | None => Ok None end) = Ok (E:=NvFsError) (candidate_split_block_allocation_blocks_log2 <$> best)) as ->.
    { destruct best as [c|]; [|done]. destruct (Hbest c eq_refl) as [(_ & _ & _ & ? & _) _]. by replace (k <? _) with true by lia. }
    cbn [obind]. rewrite Hs. cbn [obind]. destruct (Z.eqb_spec s k) as [Hsk|Hsk].
    + destruct (Heq Hsk) as (p & Hp & Hbw & Hav). rewrite Hp. cbn [obind]. rewrite Hbw. cbn [obind]. by eexists.
    + destruct best as [c|]; cbn [fmap option_fmap option_map] in *; [destruct (Z.ltb_spec s (candidate_split_block_allocation_blocks_log2 c))|];
        (eexists; split; [done|]); try (by apply Hskip); (split_and!; [by left| |done|done]); intros c' [= <-]; (split; [by apply Hne|done]).
  - destruct (trailing_zeros_spec f Hfu Hf0) as (Hp & Htz & _). unfold block_in_word, BITMAP_WORD_BITS_LOG2. ostep.
    rewrite Z.shiftl_mul_pow2, wrap_small by (unfold in_u; lia). ostep. eexists. split; [done|]. cbn [decision_ok].
    replace (w * 2 ^ 6) with (64 * w) by lia. apply available_in_word with word; try done; [|by rewrite <-Hfb].
    intros Hc. destruct (nonzero_bit word Hu Hz) as (i & Hi & Ht). rewrite Hbits, Hfree_words in Ht by done. done.
Qed.

Lemma find_loop_spec pending : ∀ fuel it idx cached best distance,
  state_at it idx pending → (length pending ≤ fuel)%nat → (∀ w, w ∈ pending → cached_ok chunks cached w) →
  (∀ c, best = Some c → cand_ok c ∧ opt = true) → 1 ≤ distance → (best = None → Z.of_nat (length pending) < distance) →
  ∃ r, find_loop fuel the_search ab allocs frees lsbs_table it cached best distance idx = Ok r ∧ loop_result best pending r.
Proof.
  induction pending as [|w rest IH]; intros fuel it idx cached best distance Hst Hfuel Hcached Hbest Hd Hdn; cbn [length] in *.
  { destruct fuel; cbn [find_loop]; rewrite (take_next_None it idx) by done; ostep; exists (inr best); (split; [done|]);
      (destruct best as [c|]; [by apply Hbest|split; [done|]; intros ? _; apply not_elem_of_nil]). }
  destruct fuel as [|fuel]; [lia|].
  destruct (round_spec it idx w rest Hst) as (Hw & it1 & word1 & idx1 & word & it' & idx' & Htake & Hmark & Hround & Hword & Hst').
  pose proof (word_bound w Hw). unfold round in Hround. cbn [find_loop].
  cbn [the_search block_allocation_blocks_log2 allocated_blocks image_bitmap_words image_size search_begin_bitmap_word_index optimize_placement].
  rewrite Htake. cbn [obind]. rewrite usub_Ok by lia. cbn [obind]. destruct (Z.eqb_spec (distance - 1) 0) as [Hd0|Hd0].
  { destruct best as [c|]; [|specialize (Hdn eq_refl); lia]. destruct (Hbest c eq_refl) as [Hc ->]. exists (inr (Some c)). by ostep. }
  rewrite Hmark. cbn [obind]. rewrite uadd_Ok by lia. cbn [obind]. rewrite Hround. cbn [obind].
  destruct (examine_word_spec w word cached best (distance - 1)) as (d & Hdec & Hok); [done|done|apply Hcached; by left|done|lia|].
  rewrite Hdec. cbn [obind]. destruct d as [b|cached' best' distance']; [by exists (inl b)|].
  destruct Hok as (Hc & Hb & Hd' & Hn). destruct (IH fuel it' idx' cached' best' distance') as (r & Hr & Hres); [done|lia| |done|done| |].
  - destruct Hc as [->|Hc]; [intros w' Hw'; apply Hcached; by right|]. by eapply cached_later.
  - intros Hb'. destruct (Hn Hb') as (Hb0 & -> & _). specialize (Hdn Hb0). lia.
  - exists r. split; [exact Hr|]. destruct best' as [c|]; [by eapply loop_result_found|].
    destruct (Hn eq_refl) as (-> & _ & Hno). by apply loop_result_skip.
Qed.

Lemma blocks_before_split w :
  ∃ pre post, blocks = pre ++ post ∧ blocks_before blocks w = length pre ∧ (∀ b, b ∈ pre → b / 64 < w) ∧ (∀ b, b ∈ post → w ≤ b / 64).
Proof.
  clear - Hsorted. unfold blocks_before, BITMAP_WORD_BITS_LOG2. induction Hsorted as [|b l Hs IH Hle]; [exists [], []; split_and!; [done..| |]; intros ? []%not_elem_of_nil|].
  cbn [partition_point]. rewrite Z.shiftr_div_pow2 by lia. change (2 ^ 6) with 64. destruct (Z.ltb_spec (b / 64) w) as [Hlt|Hge].
  - destruct (IH Hs) as (pre & post & -> & Hp & Hpre & Hpost). exists (b :: pre), post. rewrite Hp. split_and!; [done..| |done].
    intros b' [->|Hb']%elem_of_cons; [done|by apply Hpre].
  - exists [], (b :: l). split_and!; [done..|intros ? []%not_elem_of_nil|]. intros b' [->|Hb']%elem_of_cons; [done|].
    rewrite Forall_forall in Hle. specialize (Hle b' Hb'). assert (b / 64 ≤ b' / 64) by (apply Z.div_le_mono; lia). lia.
Qed.

Lemma sorted_blocks_true : sorted_blocks blocks = true.
Proof.
  clear - Hsorted. induction Hsorted as [|b l Hs IH Hle]; [done|]. destruct l as [|b' l]; [done|]. cbn [sorted_blocks].
  inversion_clear Hle as [|? ? Hb _]. specialize (IH Hs). cbn [sorted_blocks] in IH. rewrite IH. lia.
Qed.

(** The word that a search starts at. *)
Definition search_begin (hint : option Z) : Z :=
  match hint with
  | Some b => if opt then Z.max 0 (b / 64 - 15) else b / 64
  | None => 0
  end.

Lemma find_free_subword_spec hint :
  sb = search_begin hint → (∀ b, hint = Some b → 0 ≤ b) → size < 2 ^ 57 →
  ∃ r, find_free_block ab k blocks chunks_opt allocs frees size hint opt = Ok r ∧
    match r with Some b => available b | None => ∀ b, ¬ available b end.
Proof.
  intros Hsbeq Hhint Hsize'. pose proof (pow2_pos k ltac:(lia)). assert (2 ^ k ≤ 32) by (apply (Z.pow_le_mono_r 2 k 5); lia).
  destruct image_words as [? ?]. destruct Hab as [_ ?]. unfold find_free_block, BITMAP_WORD_BITS. rewrite shl_one by lia. cbn [obind].
  replace (2 ^ k <=? 64) with true by lia. cbn [obind debug_assert]. replace (2 ^ k =? 64) with false by lia.
  rewrite uadd_Ok by lia. cbn [obind]. change (64 - 1) with 63.
  assert (ushr (E:=NvFsError) 64 (size + 63) BITMAP_WORD_BITS_LOG2 = Ok W) as ->
    by (unfold BITMAP_WORD_BITS_LOG2; rewrite ushr_Ok, Z.shiftr_div_pow2 by lia; done). cbn [obind].
  assert ((match hint with
    | Some b => let! w := ushr 64 b BITMAP_WORD_BITS_LOG2 in
        Ok (if opt then Z.max 0 (w - (PLACEMENT_OPTIMIZATION_SEARCH_DISTANCE_BITMAP_WORDS - 1)) else w)
    | None => Ok 0 end) = Ok (E:=NvFsError) sb) as ->.
  { rewrite Hsbeq. destruct hint as [b|]; [|done]. unfold BITMAP_WORD_BITS_LOG2. rewrite ushr_Ok, Z.shiftr_div_pow2 by lia. done. }
  cbn [obind]. replace (sb <? W) with true by lia. cbn [obind debug_assert]. rewrite init_table_Ok. cbn [obind].
  rewrite get_blocks_lsbs_mask_Ok by lia. cbn [obind]. rewrite uadd_Ok by lia. cbn [obind].
  destruct (word_iter_new_at_Ok allocs frees Hallocs Hfrees sb ltac:(lia)) as (it & -> & Hit). cbn [obind].
  rewrite usub_Ok by lia. cbn [obind]. rewrite sorted_blocks_true. cbn [obind debug_assert].
  destruct (blocks_before_split sb) as (pre & post & Hl & -> & Hpre & Hpost).
  destruct (find_loop_spec (seqZ sb (W - sb) ++ seqZ 0 sb) (Z.to_nat W) (it, take_count (W - sb)) (length pre) None None (W + 1))
    as (r & Hr & Hres); [|rewrite length_app, !length_seqZ; lia|done|done|lia|rewrite length_app, !length_seqZ; lia|].
  - left. exists sb. split; [|split; [lia|done]]. unfold take_count. replace (W - sb <? 2 ^ usize_bits) with true by lia.
    split_and!; [done..|lia|lia|]. by exists pre, post.
  - unfold the_search in Hr. rewrite Hr. cbn [obind]. destruct r as [b|[c|]]; cbn [loop_result] in Hres.
    + by exists (Some b).
    + destruct (candidate_block_spec c Hres) as (b & -> & Hb). ostep. by exists (Some b).
    + exists None. split; [done|]. intros b Hav. destruct Hres as [_ Hnone]. destruct (available_word b Hav) as [? _].
      apply (Hnone b Hav). rewrite elem_of_app, !elem_of_seqZ. lia.
Qed.
End Proofs.

(** ** Blocks of a whole word *)

Section FullwordProofs.
Context {B : Build} {P : ImageLayout.Platform}.
Variables (ab : AllocBitmap.AllocBitmap) (allocs frees : list SparseAllocBitmap) (blocks : list Z) (size : Z).
Variables (chunks : PhysicalExtents.extents) (chunks_opt : option PhysicalExtents.extents).
Hypothesis Hab : bitmap_wf ab.
Hypothesis Hallocs : pending_wf allocs.
Hypothesis Hfrees : pending_wf frees.
Hypothesis Husize : Z.of_nat (length (bitmap ab)) < 2 ^ usize_bits.
Hypothesis Hsize : 0 ≤ size.
Hypothesis Hlen : size / 64 ≤ Z.of_nat (length (bitmap ab)).
Hypothesis Hblocks : Forall (block_ok 6) blocks.
Hypothesis Hsorted : StronglySorted Z.le blocks.
Hypothesis Hchunks : chunks_ok chunks.
Hypothesis Hopt : chunks = default [] chunks_opt.

Abbreviation covered := (chunk_covers chunks).
Abbreviation free_word w := (available ab allocs frees 6 blocks chunks size (64 * w)).

Lemma word_allocated_spec w post : ∀ pre,
  blocks = pre ++ post → (∀ b, b ∈ pre → b / 64 < w) →
  ∃ v pre' post', word_allocated blocks w (length pre) post = Ok (v, length pre') ∧ blocks = pre' ++ post' ∧
    (∀ b, b ∈ pre' → b / 64 < w + 1) ∧ (v = true ↔ ∃ b, b ∈ blocks ∧ b / 64 = w).
Proof.
  induction post as [|b post IH]; intros pre Hl Hpre; cbn [word_allocated].
  { exists false, pre, []. split_and!; [done..|intros b Hb; specialize (Hpre b Hb); lia|]. split; [done|]. intros (b & Hb & Hw).
    rewrite Hl, app_nil_r in Hb. specialize (Hpre b Hb). lia. }
  ostep. assert (∀ b', b' ∈ b :: post → b / 64 ≤ b' / 64) as Htail.
  { rewrite Hl in Hsorted. apply StronglySorted_app_1_r in Hsorted as Hs. inversion_clear Hs as [|? ? _ Hle].
    rewrite Forall_forall in Hle. intros b' [->|Hb']%elem_of_cons; [done|]. apply Z.div_le_mono; [lia|by apply Hle]. }
  replace (length pre + 1)%nat with (length (pre ++ [b])) by (rewrite length_app; cbn; lia).
  assert (b / 64 ≤ w → ∀ b', b' ∈ pre ++ [b] → b' / 64 < w + 1) as Hpre1.
  { intros Hle b' [Hb'|Hb'%list_elem_of_singleton]%elem_of_app; [specialize (Hpre b' Hb'); lia|subst; lia]. }
  destruct (Z.compare_spec (b / 64) w) as [Heq|Hlt|Hgt].
  - exists true, (pre ++ [b]), post. split_and!; [done|by rewrite <-app_assoc|apply Hpre1; lia|]. split; [|done]. intros _. exists b.
    split; [|done]. rewrite Hl, elem_of_app. right. left.
  - apply IH; [by rewrite <-app_assoc|]. intros b' [Hb'|Hb'%list_elem_of_singleton]%elem_of_app; [by apply Hpre|by subst].
  - exists false, pre, (b :: post). split_and!; [done..|intros b' Hb'; specialize (Hpre b' Hb'); lia|]. split; [done|]. intros (b' & Hb' & Hw).
    rewrite Hl, elem_of_app in Hb'. destruct Hb' as [Hb'|Hb']; [specialize (Hpre b' Hb')|specialize (Htail b' Hb')]; lia.
Qed.

Lemma block_word b p : block_ok 6 b → b ≤ p < b + 64 ↔ p / 64 = b / 64.
Proof. intros (_ & [q Hq] & _). change (2 ^ 6) with 64 in Hq. subst b. rewrite Z.div_mul by lia. destruct (block_split p). lia. Qed.

Lemma free_word_iff w :
  0 ≤ w < size / 64 →
  free_word w ↔ ¬ covered w ∧ view_word ab allocs frees w = 0 ∧ ¬ ∃ b, b ∈ blocks ∧ b / 64 = w.
Proof.
  intros Hw. rewrite Forall_forall in Hblocks. destruct (block_split size) as [Hsz ?]. unfold available, aligned_block, taken.
  assert ((64 * w) / 64 = w) as -> by (rewrite Z.mul_comm, Z.div_mul; lia). change (2 ^ 6) with 64.
  assert (∀ i, 0 ≤ i < 64 → Z.testbit (view_word ab allocs frees w) i = view_bit ab allocs frees (64 * w + i)) as Hview.
  { intros i Hi. unfold view_bit. replace ((64 * w + i) / 64) with w by (apply Z.div_unique with i; lia).
    replace ((64 * w + i) mod 64) with i by (apply Z.mod_unique with w; lia). by replace (w <? _) with true by lia. }
  split.
  - intros (_ & Hcov & Hall). split_and!; [done| |].
    + apply word_ext; [by apply view_word_in_u|done|]. intros i Hi. rewrite Hview, Z.bits_0 by done.
      specialize (Hall (64 * w + i) ltac:(lia)). by apply orb_false_iff in Hall as [[? _]%orb_false_iff _].
    + intros (b & Hb & Hbw). specialize (Hall b ltac:(destruct (block_split b); lia)).
      apply orb_false_iff in Hall as [[_ Hin]%orb_false_iff _]. assert (in_blocks 6 blocks b = true) as Ht; [|by rewrite Ht in Hin].
      apply existsb_exists. exists b. split; [by apply list_elem_of_In|]. change (2 ^ 6) with 64. lia.
  - intros (Hcov & Hv & Hno). split_and!; [lia|exists w; lia|done|]. intros p Hp. rewrite !orb_false_iff. split_and!; [| |lia].
    + replace p with (64 * w + (p - 64 * w)) by lia. rewrite <-Hview, Hv by lia. apply Z.bits_0.
    + apply not_true_iff_false. unfold in_blocks. rewrite existsb_exists. intros (b & Hb%list_elem_of_In & Hbp). apply Hno. exists b.
      split; [done|]. rewrite <-(proj1 (block_word b p (Hblocks b Hb))) by (change (2 ^ 6) with 64 in Hbp; lia).
      symmetry. apply Z.div_unique with (p - 64 * w); lia.
Qed.

Lemma fullword_loop_spec fuel : ∀ it w cached pre post,
  iter_at allocs frees it w → 0 ≤ w ≤ size / 64 → size / 64 - w ≤ Z.of_nat fuel → cached_ok chunks cached w →
  blocks = pre ++ post → (∀ b, b ∈ pre → b / 64 < w) →
  ∃ r, fullword_loop fuel ab allocs frees blocks chunks_opt (it, size / 64 - w) cached (length pre) = Ok r ∧
    match r with Some b => available ab allocs frees 6 blocks chunks size b | None => ∀ w', w ≤ w' < size / 64 → ¬ free_word w' end.
Proof.
  induction fuel as [|fuel IH]; intros it w cached pre post Hit Hw Hf Hc Hl Hpre; cbn [fullword_loop]; unfold take_next;
    (destruct (Z.eqb_spec (size / 64 - w) 0); [ostep; exists None; split; [done|]; intros; lia|]); [lia|].
  pose proof (word_iter_next_Ok ab allocs frees Hab Hallocs Hfrees it w ltac:(lia) Hit) as Hnext.
  replace (w <? Z.of_nat (length (bitmap ab))) with true in Hnext by lia. destruct Hnext as (it' & -> & Hit'). ostep.
  replace (size / 64 - w - 1) with (size / 64 - (w + 1)) by lia. destruct Hab as [_ Hwords].
  assert (∀ cached' pre' post', (cached' = cached ∨ match cached' with Some c => first_after chunks w c | None => True end) → blocks = pre' ++ post' →
    (∀ b, b ∈ pre' → b / 64 < w + 1) → ¬ free_word w →
    ∃ r, fullword_loop fuel ab allocs frees blocks chunks_opt (it', size / 64 - (w + 1)) cached' (length pre') = Ok r ∧
      match r with Some b => available ab allocs frees 6 blocks chunks size b | None => ∀ w', w ≤ w' < size / 64 → ¬ free_word w' end) as Hgo.
  { intros cached' pre' post' Hc' Hl' Hpre' Hno. destruct (IH it' (w + 1) cached' pre' post') as (r & Hr & Hres); [done|lia|lia| |done..|].
    - intros c Hcc Hlt. assert (first_after chunks w c) as (e & He & -> & _ & Hmin).
      { destruct Hc' as [->|Hc']; [apply Hc; [done|lia]|by rewrite Hcc in Hc']. }
      exists e. split_and!; [done..|]. intros e' He' ?. apply Hmin; [done|lia].
    - exists r. split; [done|]. destruct r as [b|]; [done|]. intros w' Hw'. destruct (Z.eq_dec w' w) as [->|]; [done|]. apply Hres. lia. }
  destruct (Z.eqb_spec (view_word ab allocs frees w) 0) as [Hz|Hz].
  - assert (drop (length pre) blocks = post) as -> by (rewrite Hl; apply drop_app_length).
    destruct (word_allocated_spec w post pre Hl Hpre) as (v & pre' & post' & -> & Hl' & Hpre' & Hv). ostep. destruct v.
    { eapply Hgo; [by left|done|done|]. rewrite free_word_iff by lia. intros (_ & _ & Hno). by apply Hno, Hv. }
    destruct (next_chunk_spec chunks chunks_opt Hchunks Hopt cached w Hc) as (cached' & -> & Hc'). ostep.
    destruct (in_chunk_spec chunks Hchunks cached' w Hc') as (v & -> & Hv'). ostep. destruct v.
    + eapply Hgo; [right; by destruct cached'|done|done|]. rewrite free_word_iff by lia. intros (Hcov & _). by apply Hcov, Hv'.
    + unfold BITMAP_WORD_BITS. ostep. exists (Some (w * 64)). split; [done|]. rewrite (Z.mul_comm w 64). apply free_word_iff; [lia|].
      split_and!; [intros Hcov%Hv'; done|done|]. intros Hex%Hv. done.
  - eapply Hgo; [by left|done|intros b Hb; specialize (Hpre b Hb); lia|]. rewrite free_word_iff by lia. tauto.
Qed.

Lemma find_free_fullword_spec :
  size < 2 ^ 57 →
  ∃ r, find_free_fullword_block ab blocks chunks_opt allocs frees size = Ok r ∧
    match r with
    | Some b => available ab allocs frees 6 blocks chunks size b
    | None => ∀ b, ¬ available ab allocs frees 6 blocks chunks size b
    end.
Proof.
  intros Hsize'. unfold find_free_fullword_block. ostep. destruct (word_iter_new_at_Ok allocs frees Hallocs Hfrees 0 ltac:(lia)) as (it & -> & Hit). ostep.
  assert (0 ≤ size / 64) by (apply Z.div_pos; lia). assert (take_count (size / 64) = size / 64 - 0) as ->.
  { unfold take_count. replace (size / 64 <? 2 ^ usize_bits) with true by lia. lia. }
  destruct (fullword_loop_spec (length (bitmap ab)) it 0 None [] blocks) as (r & Hr & Hres); [done|lia|lia|done|done|intros ? []%not_elem_of_nil|].
  exists r. split; [done|]. destruct r as [b|]; [done|]. intros b Hav. destruct Hav as ([Hb [q Hq]] & Hcov & Hall) eqn:Heq. clear Heq.
  change (2 ^ 6) with 64 in *. assert (b / 64 = q) as Hbq by (rewrite Hq, Z.div_mul; lia).
  apply (Hres q); [|split_and!; [split; [lia|exists q; change (2 ^ 6) with 64; lia]|by replace (64 * q) with b by lia|intros p Hp; apply Hall; change (2 ^ 6) with 64 in *; lia]].
  split; [lia|]. specialize (Hall (b + 63) ltac:(lia)). unfold taken in Hall. apply orb_false_iff in Hall as [_ Hle].
  assert (64 * (q + 1) ≤ size) as Hq1 by lia. assert (q + 1 ≤ size / 64) by (apply Z.div_le_lower_bound; lia). lia.
Qed.
End FullwordProofs.

(** ** Correctness *)

Lemma find_free_block_spec {B : Build} {P : ImageLayout.Platform} ab allocs frees k blocks chunks_opt size hint opt :
  let chunks := default [] chunks_opt in
  bitmap_wf ab → pending_wf allocs → pending_wf frees → Z.of_nat (length (bitmap ab)) < 2 ^ usize_bits →
  0 ≤ k ≤ 6 → 0 < size < 2 ^ 57 → words_for size ≤ Z.of_nat (length (bitmap ab)) →
  Forall (block_ok k) blocks → StronglySorted Z.le blocks → chunks_ok chunks →
  (∀ w i, chunk_covers chunks w → 0 ≤ i < 64 → taken ab allocs frees k blocks size (64 * w + i) = false) →
  (∀ b, hint = Some b → 0 ≤ b < size ∧ chunks = []) →
  ∃ r, find_free_block ab k blocks chunks_opt allocs frees size hint opt = Ok r ∧
    match r with
    | Some b => available ab allocs frees k blocks chunks size b
    | None => ∀ b, ¬ available ab allocs frees k blocks chunks size b
    end.
Proof.
  intros chunks Hab Ha Hf Husize Hk Hsize Hlen Hblocks Hsorted Hchunks Hfree Hhint.
  destruct (words_for_bounds size ltac:(lia)) as [HW HW']. destruct (Z.eq_dec k 6) as [->|Hk6].
  - unfold find_free_block. change (ushl 32 1 6) with (Ok (E:=NvFsError) 64). cbn [obind]. change (64 <=? BITMAP_WORD_BITS) with true.
    cbn [obind debug_assert]. change (64 =? BITMAP_WORD_BITS) with true. cbn [obind].
    apply find_free_fullword_spec; try done; try lia. destruct (block_split size). lia.
  - apply (find_free_subword_spec ab allocs frees k blocks chunks size (search_begin opt hint)); try done; try lia.
    + destruct hint as [b|]; cbn [search_begin]; [|lia]. destruct (Hhint b eq_refl) as [Hb _].
      assert (0 ≤ b / 64 < words_for size) by (split; [apply Z.div_pos; lia|apply Z.div_lt_upper_bound; lia]). destruct opt; lia.
    + destruct hint as [b|]; [left; by destruct (Hhint b eq_refl)|by right].
    + intros b Hb. by apply Hhint.
Qed.

(** C29: the search for a free block returns an aligned block within the image of
    which no part is allocated in the bitmap with the pending changes applied,
    nor in the blocks or chunks passed as allocated, and it returns none exactly
    if there is none: neither the word-wide arithmetic, nor the limited look-ahead
    for a better placement, nor starting in the middle with a wrap-around loses
    or invents a block.  Chunks are for searches without a start hint. *)
Theorem find_free_block_correct {B : Build} {P : ImageLayout.Platform} ab allocs frees k blocks chunks_opt size hint opt :
  let chunks := default [] chunks_opt in
  bitmap_wf ab → pending_wf allocs → pending_wf frees → Z.of_nat (length (bitmap ab)) < 2 ^ usize_bits →
  0 ≤ k ≤ 6 → 0 < size < 2 ^ 57 → words_for size ≤ Z.of_nat (length (bitmap ab)) →
  Forall (block_ok k) blocks → StronglySorted Z.le blocks → chunks_ok chunks →
  (∀ w i, chunk_covers chunks w → 0 ≤ i < 64 → taken ab allocs frees k blocks size (64 * w + i) = false) →
  (∀ b, hint = Some b → 0 ≤ b < size ∧ chunks = []) →
  ∃ r, find_free_block ab k blocks chunks_opt allocs frees size hint opt = Ok r ∧
    match r with
    | Some b => available ab allocs frees k blocks chunks size b
    | None => ∀ b, ¬ available ab allocs frees k blocks chunks size b
    end.
Proof. apply find_free_block_spec. Qed.

(** A search with chunks that wraps around can return a block of a chunk: the
    chunk looked at last is kept across the wrap-around. *)
Lemma find_free_block_wrapped_chunk :
  find_free_block (B:=debug_build) (P:=bits64) (mk_bitmap [0; 0; 0; 0]) 5 [128; 160] (Some [(0, 64); (192, 64)]) [] [] 256 (Some 160) false =
    Ok (Some 0) ∧ chunk_covers [(0, 64); (192, 64)] (0 / 64).
Proof. split; [by vm_compute|]. exists (0, 64). split; [left|by cbn]. Qed.

Lemma find_free_block_correct_witness :
  ∃ r, find_free_block (B:=debug_build) (P:=bits64) example_ab 3 [8; 72] (Some [(128, 64)]) [] [example_sb] 230 None true = Ok r ∧
    match r with
    | Some b => available example_ab [] [example_sb] 3 [8; 72] [(128, 64)] 230 b
    | None => ∀ b, ¬ available example_ab [] [example_sb] 3 [8; 72] [(128, 64)] 230 b
    end.
Proof.
  apply (@find_free_block_correct debug_build bits64 example_ab [] [example_sb] 3 [8; 72] (Some [(128, 64)]) 230 None true).
  - apply example_ab_wf.
  - constructor.
  - constructor; [apply example_sb_wf|constructor].
  - by vm_compute.
  - lia.
  - lia.
  - by vm_compute.
  - repeat constructor; cbn; try lia; by apply Z.mod_divide.
  - repeat constructor; lia.
  - split_and!; [repeat constructor; cbn; lia|intros e [->|[]%not_elem_of_nil]%elem_of_cons; by cbn|].
    intros e e' [->|[]%not_elem_of_nil]%elem_of_cons [->|[]%not_elem_of_nil]%elem_of_cons. by left.
  - intros w i (e & [->|[]%not_elem_of_nil]%elem_of_cons & Hw) Hi. cbn [fst snd] in Hw. assert (w = 2) as ->.
    { change (128 + 64) with 192 in Hw. change (128 / 64) with 2 in Hw. change (192 / 64) with 3 in Hw. lia. }
    assert (i ∈ seqZ 0 64) as Hin by (apply elem_of_seqZ; lia). clear Hi Hw. revert i Hin. apply Forall_forall.
    repeat constructor.
  - done.
Defined.

End FindFreeBlock.
