(* ===== verification/SparseSets.v ===== *)
(** * Sparse bitmaps as sets of blocks (storage/src/fs/cocoonfs/alloc_bitmap/sparse_bitmap.rs)

    What the block operations of [SparseAllocBitmap] do to the set of blocks it
    tracks, for bitmaps within the limits of the allocator: none of them panics,
    and each is a union or a difference.  The operations on transactions are
    proved from these. *)

From S2P Require Import Prelude BitManip Errors Layout ImageLayout BitmapWord SparseBitmap AllocBitmap.
Import BitManip Errors Layout BitmapWord SparseBitmap AllocBitmap.

Module SparseSets.

Abbreviation has sb p := (tracked (entries sb) p).

Section Sets.
Context {B : Build} {Alloc : Allocator} {P : ImageLayout.Platform}.
Implicit Types (sb : SparseAllocBitmap).

(** A well-formed bitmap with an allocation that [Vec] can have. *)
Definition fits sb : Prop := sparse_wf sb ∧ 16 * capacity sb < max_capacity_bytes.

Lemma fits_new : 1 ≤ usize_bits → fits SparseBitmap.new.
Proof.
  intros. split; [split_and!; [split; constructor|constructor|done|done]|]. unfold max_capacity_bytes. cbn. apply pow2_pos. lia.
Qed.

Lemma fits_reserve sb :
  fits sb → remove_rollback_reserve_capacity sb + 1 < 2 ^ usize_bits ∧
  remove_rollback_reserve_capacity sb + Z.of_nat (length (entries sb)) < 2 ^ usize_bits.
Proof.
  intros [(_ & _ & Hcap & ?) Hmax]. unfold cap_ok, max_capacity_bytes in *.
  assert (1 ≤ usize_bits) by (destruct (Z.lt_ge_cases (usize_bits - 1) 0); [rewrite Z.pow_neg_r in Hmax by done|]; lia).
  assert (2 ^ usize_bits = 2 * 2 ^ (usize_bits - 1)) by (rewrite <-Z.pow_succ_r by lia; f_equal; lia). lia.
Qed.

(** *** The capacity *)

(** Invert a computation on pairs that returned. *)
Ltac pinv := repeat (rinv; match goal with H : (let '(_, _) := ?c in _) = Ok _ |- _ => destruct c end); rinv.

Lemma prune_loop_capacity fuel : ∀ sb prepare i w n sb', prune_loop fuel sb prepare i w n = Ok sb' → capacity sb' = capacity sb.
Proof.
  induction fuel as [|fuel IH]; intros sb prepare i w n sb' Heq; cbn [prune_loop] in Heq; rinv; try done.
  all: by apply IH in Heq.
Qed.
Lemma prune_unused_capacity sb r hint prepare sb' :
  prune_unused_in_range sb r hint prepare = Ok sb' → capacity sb' = capacity sb.
Proof. unfold prune_unused_in_range. intros. pinv. by eapply prune_loop_capacity. Qed.
Lemma populate_rollback_capacity sb r i sb' x : populate_rollback sb r i = Ok (sb', x) → capacity sb' = capacity sb.
Proof. unfold populate_rollback. intros. rinv. by eapply prune_unused_capacity. Qed.

Abbreviation capped sb := (16 * capacity sb < max_capacity_bytes).

Lemma try_reserve_exact_capped sb n sb' : capped sb → try_reserve_exact sb n = Some sb' → capped sb'.
Proof.
  unfold try_reserve_exact. destruct (_ <=? _); [by intros ? [= <-]|]. destruct (_ && _) eqn:Heq; [|done].
  intros _ [= <-]. cbn. lia.
Qed.

Lemma populate_loop_capped fuel : ∀ r first sb i w n sb' x,
  capped sb → populate_loop fuel r first sb i w n = Ok (sb', x) → capped sb'.
Proof.
  induction fuel as [|fuel IH]; intros r first sb i w n sb' x Hsb Heq; cbn [populate_loop] in Heq; rinv; try done; pinv.
  - destruct (try_reserve_exact sb a) as [sb1|] eqn:Hr; [|by rewrite (populate_rollback_capacity _ _ _ _ _ Heq)].
    pose proof (try_reserve_exact_capped _ _ _ Hsb Hr). destruct (checked_add _ _ _); [|by rewrite (populate_rollback_capacity _ _ _ _ _ Heq)].
    pinv. by eapply IH in Heq.
  - destruct (try_reserve_exact sb a1) as [sb1|] eqn:Hr; [|by rewrite (populate_rollback_capacity _ _ _ _ _ Heq)].
    pose proof (try_reserve_exact_capped _ _ _ Hsb Hr). pinv. by eapply IH in Heq.
  - by eapply IH in Heq.
Qed.

Lemma set_loop_capacity fuel : ∀ mask sb i w n off sb', set_loop fuel mask sb i w n off = Ok sb' → capacity sb' = capacity sb.
Proof.
  induction fuel as [|fuel IH]; intros mask sb i w n off sb' Heq; cbn [set_loop] in Heq; rinv; try done; pinv; try done.
  all: by apply IH in Heq.
Qed.

Lemma add_block_capped sb b k sb' x : capped sb → add_block sb b k = Ok (sb', x) → capped sb'.
Proof.
  unfold add_block. intros Hsb Heq. apply obind_Ok_inv in Heq as (r & _ & Heq). apply obind_Ok_inv in Heq as ([sb1 y] & Hpop & Heq).
  assert (capped sb1) as Hsb1.
  { unfold populate_missing_in_range in Hpop. pinv; [done|]. destruct (find_entry_position _ _); rinv; by eapply populate_loop_capped. }
  destruct y; rinv; [|done]. pinv. unfold SparseBitmap.set_in_range in *. pinv. by erewrite set_loop_capacity.
Qed.
(** *** Blocks *)

Lemma in_blocks_one k b p : in_blocks k [b] p = bool_decide (p ∈ mk_range b (b + 2 ^ k)).
Proof. unfold in_blocks. cbn [existsb]. by rewrite orb_false_r, bool_decide_range. Qed.
Lemma in_blocks_cons k b bs p : in_blocks k (b :: bs) p = in_blocks k [b] p || in_blocks k bs p.
Proof. unfold in_blocks. cbn [existsb]. by rewrite orb_false_r. Qed.
Lemma in_blocks_app k bs bs' p : in_blocks k (bs ++ bs') p = in_blocks k bs p || in_blocks k bs' p.
Proof. apply existsb_app. Qed.
Lemma in_blocks_spec k bs p : in_blocks k bs p = true ↔ ∃ b, b ∈ bs ∧ b ≤ p < b + 2 ^ k.
Proof.
  unfold in_blocks. rewrite existsb_exists. setoid_rewrite andb_true_iff. setoid_rewrite Z.leb_le. setoid_rewrite Z.ltb_lt.
  split; intros (b & Hb & ?); exists b; (split; [|done]); by apply list_elem_of_In.
Qed.

Lemma add_block_fits sb b k :
  fits sb → 0 ≤ k ≤ 6 → block_ok k b →
  ∃ sb' x, add_block sb b k = Ok (sb', x) ∧ fits sb' ∧
    match x with
    | inl _ => ∀ p, has sb' p = has sb p || in_blocks k [b] p
    | inr e => e = MemoryAllocationFailure ∧ entries sb' = entries sb
    end.
Proof.
  intros Hsb Hk Hb. destruct (fits_reserve sb Hsb) as [? _]. destruct Hsb as [Hwf Hcap].
  destruct (add_block_spec sb b k) as (sb' & x & Heq & Hwf' & _ & Hx); [done..|]. exists sb', x. split; [done|].
  split; [by split; [|eapply add_block_capped]|]. destruct x; [|done]. intros p. by rewrite Hx, in_blocks_one, orb_comm.
Qed.

(** Nothing needs to be allocated if some block of the word is tracked already. *)
Lemma add_block_present sb b k sb' e q :
  fits sb → 0 ≤ k ≤ 6 → block_ok k b → q / 64 = b / 64 → has sb q = true → add_block sb b k ≠ Ok (sb', inr e).
Proof.
  intros Hsb Hk (? & ? & ?) Hq Hhas Heq. destruct (block_range_Ok b k) as (Hb & Hr & Hc); [done..|].
  unfold add_block in Heq. rewrite Hb in Heq. cbn [obind] in Heq. apply obind_Ok_inv in Heq as ([sb1 y] & Hpop & Heq).
  unfold populate_missing_in_range in Hpop. rewrite range_words_Ok, Hc in Hpop by done. cbn [obind] in Hpop.
  destruct (fits_reserve sb Hsb) as [? _]. destruct Hsb as [([_ Hs] & _ & _ & ?) _].
  destruct (split_at_exists (entries sb) (first_word (mk_range b (b + 2 ^ k))) Hs) as (pre & post & Hl & Hsplit).
  assert (first_word (mk_range b (b + 2 ^ k)) = b / 64) as Hw by done. rewrite Hw in *.
  rewrite (find_entry_position_split sb pre post) in Hpop by done.
  assert (match post with e0 :: _ => bitmap_word_index e0 = b / 64 | [] => False end) as Hfirst.
  { destruct (present post (b / 64)) eqn:Hp.
    2: { rewrite tracked_present in Hhas; [done|]. by rewrite Hq, Hl, (present_split pre post (b / 64)). }
    pose proof (presentP post (b / 64)) as He. rewrite Hp in He. destruct He as (e1 & He1 & Hi). destruct Hsplit as [_ Hge].
    destruct post as [|e0 post]; [by apply not_elem_of_nil in He1|]. apply elem_of_cons in He1 as [->|He1]; [done|].
    rewrite Hl in Hs. apply StronglySorted_app_1_r, StronglySorted_inv in Hs as [_ Hlt]. rewrite Forall_forall in Hlt.
    specialize (Hlt e1 He1). unfold before in Hlt. specialize (Hge e0 ltac:(left)). lia. }
  destruct post as [|e0 post]; [done|]. rewrite Hfirst, Z.eqb_refl in Hpop. revert Hpop. zdec.
  intros Hpop. apply obind_Ok_inv in Hpop as (w & _ & Hpop). cbn in Hpop.
  injection Hpop as <- <-. by pinv.
Qed.

Lemma remove_block_fits sb b k prepare :
  fits sb → 0 ≤ k ≤ 6 → block_ok k b →
  ∃ sb', _remove_block sb b k prepare = Ok sb' ∧ fits sb' ∧ ∀ p, has sb' p = has sb p && negb (in_blocks k [b] p).
Proof.
  intros Hsb Hk Hb. destruct (fits_reserve sb Hsb) as [_ ?]. destruct Hsb as [Hwf Hcap].
  destruct (_remove_block_Ok sb b k prepare) as [Heq Hwf']; [done..|]. eexists. split; [done|]. split; [done|].
  intros p. by rewrite tracked_cleared, in_blocks_one.
Qed.

Lemma fits_reset sb : fits sb → fits (reset_remove_rollback sb).
Proof. intros [(? & ? & Hcap & ?) ?]. unfold cap_ok in *. split; [split_and!; cbn; try done; unfold cap_ok; cbn; lia|done]. Qed.

(** Bitmaps with the same blocks differ in nothing that the operations look at. *)
Lemma same_entries sb sb' p : entries sb' = entries sb → has sb' p = has sb p.
Proof. by intros ->. Qed.

Lemma remove_blocks_fits k blocks : ∀ sb,
  fits sb → 0 ≤ k ≤ 6 → Forall (block_ok k) blocks →
  ∃ sb', remove_blocks sb blocks k = Ok sb' ∧ fits sb' ∧ ∀ p, has sb' p = has sb p && negb (in_blocks k blocks p).
Proof.
  induction blocks as [|b blocks IH]; intros sb Hsb Hk Hok; cbn [remove_blocks].
  { exists sb. split_and!; [done..|]. intros p. by rewrite andb_true_r. }
  inversion Hok; subst. unfold remove_block. destruct (remove_block_fits sb b k true) as (sb1 & -> & Hsb1 & Ht1); [done..|]. ostep.
  destruct (IH sb1) as (sb' & -> & Hsb' & Ht); [done..|]. exists sb'. split_and!; [done..|].
  intros p. by rewrite Ht, Ht1, (in_blocks_cons k b blocks), negb_orb, andb_assoc.
Qed.

Lemma add_blocks_rollback_capped k blocks : ∀ sb sb', add_blocks_rollback sb blocks k = Ok sb' → capacity sb' = capacity sb.
Proof.
  induction blocks as [|b blocks IH]; intros sb sb' Heq; cbn [add_blocks_rollback] in Heq; rinv; [done|].
  rewrite (IH _ _ Heq). unfold _remove_block in *. pinv. unfold SparseBitmap.set_in_range in *. pinv.
  by erewrite prune_unused_capacity, set_loop_capacity.
Qed.
Lemma add_blocks_loop_capped all k blocks : ∀ sb i sb' x, capped sb → add_blocks_loop sb all i blocks k = Ok (sb', x) → capped sb'.
Proof.
  induction blocks as [|b blocks IH]; intros sb i sb' x Hsb Heq; cbn [add_blocks_loop] in Heq; rinv; [done|]. pinv.
  pose proof (add_block_capped _ _ _ _ _ Hsb E). destruct s0; [by eapply IH|]. pinv. by erewrite add_blocks_rollback_capped.
Qed.

Lemma add_blocks_fits sb blocks k :
  fits sb → 0 ≤ k ≤ 6 → Forall (block_ok k) blocks → (∀ p, in_blocks k blocks p = true → has sb p = false) →
  ∃ sb' x, add_blocks sb blocks k = Ok (sb', x) ∧ fits sb' ∧
    match x with
    | inl _ => ∀ p, has sb' p = has sb p || in_blocks k blocks p
    | inr e => e = MemoryAllocationFailure ∧ entries sb' = entries sb
    end.
Proof.
  intros Hsb Hk Hok Hfree. destruct (fits_reserve sb Hsb) as [? _]. destruct Hsb as [Hwf Hcap].
  destruct (add_blocks_loop_spec sb k blocks sb []) as (sb' & x & Heq & Hwf' & _ & Hx); [done..| |].
  { intros p. by rewrite orb_false_r. }
  exists sb', x. split; [done|]. split; [|done]. split; [done|]. by eapply add_blocks_loop_capped.
Qed.

Lemma subtract_fits sb other :
  fits sb → fits other → ∃ sb', subtract sb other = Ok sb' ∧ fits sb' ∧ ∀ p, has sb' p = has sb p && negb (has other p).
Proof.
  intros [Hwf Hcap] [[Ho _] _]. destruct (subtract_spec sb other Hwf Ho) as (sb' & Heq & Hwf' & Ht). exists sb'.
  split; [done|]. split; [|done]. split; [done|]. unfold subtract in Heq. rinv; done.
Qed.

Lemma clear_redundant_fits sb ab is_free :
  fits sb → bitmap_wf ab → Z.of_nat (length (bitmap ab)) < 2 ^ usize_bits →
  ∃ sb', clear_redundant sb ab is_free = Ok sb' ∧ fits sb' ∧ ∀ p, has sb' p = has sb p && Bool.eqb (base_bit ab p) is_free.
Proof.
  intros [Hwf Hcap] Hab Hus. destruct (clear_redundant_spec sb ab is_free Hwf Hab Hus) as (sb' & Heq & Hwf' & Ht). exists sb'.
  split; [done|]. split; [|done]. split; [done|]. unfold clear_redundant in Heq. rinv. done.
Qed.

(** *** Rolling back a removal *)

(** The blocks are back in the set unless the bitmap has the state [v] for them
    already. *)
Definition rolled_back ab (v : bool) sb (k : Z) (blocks : list Z) sb' : Prop :=
  (∀ p, has sb p = true → has sb' p = true) ∧
  (∀ p, has sb' p = true → has sb p = true ∨ in_blocks k blocks p = true) ∧
  (∀ p, in_blocks k blocks p = true → has sb' p = true ∨ base_bit ab p = v).

(** Setting a block of one word, whether there is an entry for the word or not. *)
Lemma set_one_word pre post r :
  range_ok r → word_count r = 1 → entries_wf (pre ++ post) → split_at pre post (first_word r) →
  set_word r true <$> pre ++ fill post (first_word r) (word_count r) =
  pre ++ mk_entry (first_word r) (Z.lor (word_at post (first_word r)) (word_mask r (first_word r))) ::
    filter (λ e, first_word r + 1 ≤ bitmap_word_index e) post.
Proof.
  intros Hr Hc Hwf Hsplit. rewrite fmap_app, (set_word_before r true pre post) by done. f_equal.
  apply entries_wf_app in Hwf as (_ & [Hok _] & _). unfold fill. rewrite Hc, seqZ_cons by lia. cbn [fmap list_fmap seqZ app]. f_equal.
  - unfold set_word. cbn. f_equal. apply word_ext; [apply set_word_in_u with (e:=mk_entry (first_word r) _) (v:=true)|apply lor_in_u; [done| |]|].
    1,2: by apply word_at_in_u.
    + apply word_mask_in_u.
    + intros i Hi. rewrite !Z.lor_spec, Z.land_spec, unot_testbit by lia.
      by destruct (Z.testbit (word_mask r (first_word r)) i), (Z.testbit (word_at post (first_word r)) i).
  - unfold word_count in Hc. apply set_word_fmap_outside; [rewrite Forall_forall in *; intros e [_ ?]%list_elem_of_filter; auto|].
    intros e [? _]%list_elem_of_filter. apply word_outside_range; [done|]. lia.
Qed.

(** The position of a word, and the entries around it. *)
Lemma split_word sb w :
  sparse_wf sb → ∃ pre post, entries sb = pre ++ post ∧ split_at pre post w ∧ entry_position sb w = length pre ∧
    match post with
    | e :: rest => if bitmap_word_index e =? w then word_at post w = bitmap_word e ∧ filter (λ e, w + 1 ≤ bitmap_word_index e) post = rest
        else word_at post w = 0 ∧ filter (λ e, w + 1 ≤ bitmap_word_index e) post = post
    | [] => True
    end.
Proof.
  intros ([Hok Hs] & _). destruct (split_at_exists (entries sb) w Hs) as (pre & post & Hl & Hsplit). exists pre, post.
  split; [done|]. split; [done|]. split.
  { unfold entry_position. rewrite (find_entry_position_split sb pre post) by done. destruct post; [done|]. by destruct (_ =? _). }
  destruct post as [|e rest]; [done|]. rewrite Hl in Hs. apply StronglySorted_app_1_r, StronglySorted_inv in Hs as [_ Hlt].
  rewrite Forall_forall in Hlt. unfold before in Hlt. destruct Hsplit as [_ Hge]. pose proof (Hge e ltac:(left)) as He.
  destruct (Z.eqb_spec (bitmap_word_index e) w) as [Hw|Hw].
  - cbn [word_at]. rewrite Hw, Z.eqb_refl. split; [done|]. rewrite filter_cons_False by lia. apply filter_every.
    intros e' He'. specialize (Hlt e' He'). lia.
  - split.
    + apply word_at_absent. intros e' [->|He']%elem_of_cons; [done|]. specialize (Hlt e' He'). lia.
    + apply filter_every. intros e' [->|He']%elem_of_cons; [lia|]. specialize (Hlt e' He'). lia.
Qed.

Lemma block_set_fits sb sb' ab v b k pre post :
  let r := mk_range b (b + 2 ^ k) in
  fits sb → 0 ≤ k ≤ 6 → block_ok k b → entries sb = pre ++ post → split_at pre post (first_word r) →
  entries sb' = pre ++ mk_entry (first_word r) (Z.lor (word_at post (first_word r)) (word_mask r (first_word r))) ::
    filter (λ e, first_word r + 1 ≤ bitmap_word_index e) post →
  capacity sb' = capacity sb → 0 ≤ remove_rollback_reserve_capacity sb' → cap_ok sb' →
  fits sb' ∧ rolled_back ab v sb k [b] sb'.
Proof.
  intros r [(Hwf & Hu & _ & _) Hcap] Hk (? & ? & ?) Hl Hsplit He Hcap' Hres' Hok'.
  destruct (block_range_Ok b k) as (_ & Hr & Hc); [done..|]. fold r in Hr, Hc. rewrite Hl in *.
  rewrite <-(set_one_word pre post r) in He by done. pose proof (populated_entries_wf pre post r Hr Hwf Hsplit) as Hwf1.
  split.
  - split; [|lia]. split_and!; [..|done|done]; rewrite He; [|by apply added_used].
    by apply entries_wf_fmap; [|apply set_word_ok|].
  - assert (∀ p, has sb' p = bool_decide (p ∈ r) || has sb p) as Ht by (intros p; rewrite He, Hl; by apply tracked_added).
    split_and!; intros p; rewrite Ht, ?in_blocks_one; fold r; destruct (bool_decide (p ∈ r)); cbn; auto; done.
Qed.

Lemma rollback_block_fits sb ab v b k sb' :
  fits sb → bitmap_wf ab → 0 ≤ k ≤ 6 → block_ok k b → b + 2 ^ k < 2 ^ 63 →
  rollback_remove_block sb b k ab v = Ok (sb', inl tt) → fits sb' ∧ rolled_back ab v sb k [b] sb'.
Proof.
  intros Hsb Hab Hk (? & ? & ?) H63 Heq. pose proof Hsb as [Hwf Hcap]. destruct (block_range_Ok b k) as (Hb & Hr & Hc); [done..|].
  pose proof (pow2_pos k ltac:(lia)). unfold rollback_remove_block in Heq. rewrite Hb in Heq. cbn [obind] in Heq.
  unfold repopulate_set_range_for_rollback in Heq. apply obind_Ok_inv in Heq as (spare & _ & Heq). destruct (_ <? _); [pinv|].
  rewrite block_count_Ok in Heq by (cbn; lia). revert Heq. ostep. rewrite land_word. cbn [rng_begin rng_end]. rewrite Hc.
  change (Z.to_nat 1) with 1%nat. set (r := mk_range b (b + 2 ^ k)) in *. change (b / 64) with (first_word r).
  destruct (word_iter_new_at_Ok [] [] ltac:(constructor) ltac:(constructor) (first_word r)) as (it & -> & Hit); [apply Z.div_pos; cbn; lia|].
  destruct (split_word sb (first_word r) Hwf) as (pre & post & Hl & Hsplit & -> & Hpost). ostep.
  set (m := word_mask r (first_word r)). destruct (block_split b) as [Hbs Hb64]. change (b / 64) with (first_word r) in Hbs.
  pose proof (range_word_bounds r Hr) as [? ?]. assert (last_word r = first_word r) as Hlast by (unfold word_count in Hc; lia).
  destruct (block_split (rng_end r - 1)) as [Hend ?]. fold (last_word r) in Hend. assert (rng_end r = b + 2 ^ k) by done.
  pose proof (range_mask_Ok r (first_word r) (2 ^ k) (b mod 64) ltac:(lia) ltac:(cbn; lia) ltac:(lia) ltac:(cbn; lia)) as Hmask. fold m in Hmask.
  cbn [repopulate_loop]. replace (b + 2 ^ k - b) with (2 ^ k) by lia. rewrite shl_word by (unfold in_u; lia). ostep. zdec.
  unfold BITMAP_WORD_BITS. ostep. apply obind_Ok_inv in Hmask as (mask & -> & Hmask). cbn [obind]. rewrite Hmask. cbn [obind].
  assert (fits sb' ∧ entries sb' = entries sb ∧ (∀ p, in_blocks k [b] p = true → base_bit ab p = v) → fits sb' ∧ rolled_back ab v sb k [b] sb') as Hsame.
  { intros (? & He & Hbase). split; [done|]. split_and!; intros p; rewrite (same_entries sb sb') by done; auto. }
  destruct (fetch_word ab [] [] Hab ltac:(constructor) ltac:(constructor) it (first_word r)) as (next & it' & Hfetch & Hnext & _); [lia|done|].
  assert (default 0 (snd <$> next) = base_word ab (first_word r)) as Hword.
  { rewrite Hnext. zcase; cbn; [by apply view_word_base|]. unfold base_word. zdec. by rewrite lookup_ge_None_2 by lia. }
  pose proof Hwf as (_ & _ & Hcapok & Hres). unfold cap_ok in Hcapok.
  assert ((if (length pre <? length (entries sb))%nat then
      let! e := idx (entries sb) (length pre) in Ok (if bitmap_word_index e =? first_word r then Some e else None)
    else Ok None) = Ok (E:=NvFsError) (match post with e :: _ => if bitmap_word_index e =? first_word r then Some e else None | [] => None end)) as ->.
  { rewrite Hl, length_app. destruct post as [|e post]; cbn [length]; zdec; [done|]. by rewrite idx_middle. }
  cbn [obind]. rewrite Hfetch. cbn [obind]. rewrite Hword. rewrite shl_word by (unfold in_u; lia). cbn [obind].
  replace ((first_word r + 1) * 64 <? b + 2 ^ k) with false by lia.
  assert ((∃ e rest, post = e :: rest ∧ bitmap_word_index e = first_word r ∧ word_at post (first_word r) = bitmap_word e ∧
      filter (λ e, first_word r + 1 ≤ bitmap_word_index e) post = rest) ∨
    (match post with e :: _ => if bitmap_word_index e =? first_word r then Some e else None | [] => None end = None ∧
      word_at post (first_word r) = 0 ∧ filter (λ e, first_word r + 1 ≤ bitmap_word_index e) post = post)) as [(e & rest & -> & He & Hat & Hrest)|(-> & Hat & Hrest)].
  { destruct post as [|e rest]; [by right|]. revert Hpost. destruct (Z.eqb_spec (bitmap_word_index e) (first_word r)); intros [? ?]; [left|right; done].
    by exists e, rest. }
  - rewrite He, Z.eqb_refl, Hl, set_idx_middle. cbn [obind]. intros [= <-]. apply (block_set_fits sb _ ab v b k pre (e :: rest)); try done.
    + cbn [entries set_entries]. fold r. by rewrite Hat, Hrest, He.
    + cbn. rewrite Hl in Hcapok. unfold cap_ok. cbn. rewrite !length_app in *. cbn [length] in *. lia.
  - destruct (_ =? _) eqn:Hz.
    + intros [= <-]. apply Hsame. split_and!; [done..|]. intros p Hp.
      apply in_blocks_spec in Hp as (b' & ->%list_elem_of_singleton & Hp). destruct (block_split p) as [Hps ?].
      assert (p / 64 = first_word r) as Hpw by (cbn in *; lia). apply Z.eqb_eq, (f_equal (λ x, Z.testbit x (p mod 64))) in Hz.
      assert (Z.testbit m (p mod 64) = true) as Hm by (unfold m; rewrite word_mask_testbit by lia; rewrite <-Hpw, <-Hps; cbn; lia).
      rewrite Z.land_spec, Hm, andb_true_r in Hz. unfold base_bit. rewrite Hpw, Hz. destruct v; [done|apply Z.bits_0].
    + destruct (Z.eqb_spec (remove_rollback_reserve_capacity sb) 0); [intros; pinv|]. rewrite usub_Ok by lia. cbn [obind]. unfold vec_insert. rewrite Hl, length_app. zdec. cbn [obind].
      rewrite take_app_length, drop_app_length. intros [= <-]. apply (block_set_fits sb _ ab v b k pre post); try done.
      * cbn [entries]. fold r. by rewrite Hat, Hrest.
      * cbn. lia.
      * unfold cap_ok. cbn. rewrite Hl in Hcapok. rewrite !length_app in *. cbn [length] in *. lia.
Qed.

Lemma rolled_back_cons ab v sb k b blocks sb1 sb' :
  rolled_back ab v sb k [b] sb1 → rolled_back ab v sb1 k blocks sb' → rolled_back ab v sb k (b :: blocks) sb'.
Proof.
  intros (H1 & H2 & H3) (H4 & H5 & H6). split_and!; intros p; rewrite ?(in_blocks_cons k b blocks), ?orb_true_iff.
  - auto.
  - intros [?%H2|?]%H5; tauto.
  - intros [?%H3|?%H6]; naive_solver.
Qed.

Lemma rollback_blocks_fits ab v k blocks : ∀ sb sb',
  fits sb → bitmap_wf ab → 0 ≤ k ≤ 6 → Forall (λ b, block_ok k b ∧ b + 2 ^ k < 2 ^ 63) blocks →
  rollback_remove_blocks sb blocks k ab v = Ok (sb', inl tt) → fits sb' ∧ rolled_back ab v sb k blocks sb'.
Proof.
  induction blocks as [|b blocks IH]; intros sb sb' Hsb Hab Hk Hok Heq; cbn [rollback_remove_blocks] in Heq.
  { injection Heq as <-. split; [done|]. by split_and!; auto. }
  inversion Hok as [|? ? [Hb ?] Hok']; subst. apply obind_Ok_inv in Heq as ([sb1 x] & Hrb & Heq). destruct x as [[]|]; [|done].
  destruct (rollback_block_fits sb ab v b k sb1) as [Hsb1 Hrb1]; [done..|]. destruct (IH sb1 sb') as [Hsb' Hrb']; [done..|].
  split; [done|]. by eapply rolled_back_cons.
Qed.
End Sets.
End SparseSets.
