(* ===== verification/TransactionAllocs.v ===== *)
(** * Block allocations of concurrent transactions (storage/src/fs/cocoonfs/transaction/mod.rs, fs.rs)

    The allocations and frees that a transaction records, their rollback, the
    central registration of blocks that transactions may write to before they
    commit, the allocation of blocks on behalf of a transaction, and the commit. *)

From stdpp Require Import relations.
From S2P Require Import Prelude BitManip Errors Layout ImageLayout PhysicalExtents BitmapWord SparseBitmap BitmapSearch AllocBitmap FindFreeBlock SparseSets.
Import BitManip Errors Layout BitmapWord SparseBitmap AllocBitmap FindFreeBlock SparseSets.

Module TransactionAllocs.

Abbreviation res := (outcome NvFsError).

(** ** State *)

Record TransactionAllocations := mk_allocations {
  pending_allocs : SparseAllocBitmap;
  pending_frees : SparseAllocBitmap;
  journal_allocs : SparseAllocBitmap;
  journal_frees : SparseAllocBitmap;
}.
Definition allocations_new : TransactionAllocations :=
  mk_allocations SparseBitmap.new SparseBitmap.new SparseBitmap.new SparseBitmap.new.
Definition reset_rollback (self : TransactionAllocations) : TransactionAllocations :=
  mk_allocations (reset_remove_rollback (pending_allocs self)) (reset_remove_rollback (pending_frees self))
    (journal_allocs self) (journal_frees self).

Definition set_pending_allocs (self : TransactionAllocations) (sb : SparseAllocBitmap) : TransactionAllocations :=
  mk_allocations sb (pending_frees self) (journal_allocs self) (journal_frees self).
Definition set_pending_frees (self : TransactionAllocations) (sb : SparseAllocBitmap) : TransactionAllocations :=
  mk_allocations (pending_allocs self) sb (journal_allocs self) (journal_frees self).
Definition set_journal_allocs (self : TransactionAllocations) (sb : SparseAllocBitmap) : TransactionAllocations :=
  mk_allocations (pending_allocs self) (pending_frees self) sb (journal_frees self).
Definition set_journal_frees (self : TransactionAllocations) (sb : SparseAllocBitmap) : TransactionAllocations :=
  mk_allocations (pending_allocs self) (pending_frees self) (journal_allocs self) sb.

Inductive TransactionAllocationConstraints := Regular | NoPendingFrees | Journal.

(** The staged updates of data blocks, [AuthTreeDataBlocksUpdateStates]: what the
    code here calls of them. *)
Class UpdateStates (U : Type) := {
  stage_block_deallocation_updates : U → Z → Z → U;
  stage_blocks_deallocation_updates : U → list Z → Z → U;
  stage_extents_deallocation_updates : U → list BlockRange → U;
  reset_staged_block_updates : U → Z → Z → U;
  reset_staged_blocks_updates : U → list Z → Z → U;
  reset_staged_extents_updates : U → list BlockRange → U;
  reset_staged_extents_updates_to_failed : U → list BlockRange → U;
}.

(** The two fields of [Transaction] that allocations concern. *)
Record Transaction {U : Type} := mk_transaction {
  allocs : TransactionAllocations;
  auth_tree_data_blocks_update_states : U;
}.
Arguments Transaction : clear implicits.
Arguments mk_transaction {U} _ _.

(** ** Frees and rollbacks *)

Section TransactionOps.
Context {B : Build} {Alloc : Allocator} {P : ImageLayout.Platform} {U : Type} `{UpdateStates U}.
Implicit Types (ta : TransactionAllocations) (u : U).

Definition free_block ta u (block_allocation_blocks_begin block_allocation_blocks_log2 : Z)
    : res (TransactionAllocations * U * (unit + NvFsError)) :=
  let! '(sb, r) := add_block (pending_frees ta) block_allocation_blocks_begin block_allocation_blocks_log2 in
  let ta := set_pending_frees ta sb in
  match r with
  | inr e => Ok (ta, u, inr e)
  | inl _ =>
      let! sb := remove_block (pending_allocs ta) block_allocation_blocks_begin block_allocation_blocks_log2 in
      Ok (set_pending_allocs ta sb, stage_block_deallocation_updates u block_allocation_blocks_begin block_allocation_blocks_log2, inl tt)
  end.
Definition free_blocks ta u (blocks : list Z) (block_allocation_blocks_log2 : Z)
    : res (TransactionAllocations * U * (unit + NvFsError)) :=
  let! '(sb, r) := add_blocks (pending_frees ta) blocks block_allocation_blocks_log2 in
  let ta := set_pending_frees ta sb in
  match r with
  | inr e => Ok (ta, u, inr e)
  | inl _ =>
      let! sb := remove_blocks (pending_allocs ta) blocks block_allocation_blocks_log2 in
      Ok (set_pending_allocs ta sb, stage_blocks_deallocation_updates u blocks block_allocation_blocks_log2, inl tt)
  end.
Definition free_extents ta u (extents : list BlockRange) : res (TransactionAllocations * U * (unit + NvFsError)) :=
  let! '(sb, r) := add_extents (pending_frees ta) extents in
  let ta := set_pending_frees ta sb in
  match r with
  | inr e => Ok (ta, u, inr e)
  | inl _ =>
      let! sb := remove_extents (pending_allocs ta) extents in
      Ok (set_pending_allocs ta sb, stage_extents_deallocation_updates u extents, inl tt)
  end.

(** [?] on the result of an operation that takes [&mut self]. *)
Definition ok_state {A} (c : res (SparseAllocBitmap * (unit + NvFsError))) (k : SparseAllocBitmap → res A) : res A :=
  let! '(sb, r) := c in
  match r with inl _ => k sb | inr e => Err e end.

(** An error loses the transaction. *)
Definition rollback_block_allocation (self : Transaction U) (b log2 : Z) (alloc_bitmap : AllocBitmap) : res (Transaction U) :=
  let! sb := remove_block (pending_allocs (allocs self)) b log2 in
  let ta := set_pending_allocs (allocs self) sb in
  ok_state (rollback_remove_block (pending_frees ta) b log2 alloc_bitmap false) (λ sb,
    Ok (mk_transaction (set_pending_frees ta sb) (stage_block_deallocation_updates (auth_tree_data_blocks_update_states self) b log2))).
Definition rollback_block_free (self : Transaction U) (b log2 : Z) (alloc_bitmap : AllocBitmap) : res (Transaction U) :=
  let! sb := remove_block (pending_frees (allocs self)) b log2 in
  let ta := set_pending_frees (allocs self) sb in
  ok_state (rollback_remove_block (pending_allocs ta) b log2 alloc_bitmap true) (λ sb,
    Ok (mk_transaction (set_pending_allocs ta sb) (reset_staged_block_updates (auth_tree_data_blocks_update_states self) b log2))).
Definition rollback_blocks_allocation (self : Transaction U) (blocks : list Z) (log2 : Z) (alloc_bitmap : AllocBitmap) : res (Transaction U) :=
  let! sb := remove_blocks (pending_allocs (allocs self)) blocks log2 in
  let ta := set_pending_allocs (allocs self) sb in
  ok_state (rollback_remove_blocks (pending_frees ta) blocks log2 alloc_bitmap false) (λ sb,
    Ok (mk_transaction (set_pending_frees ta sb) (stage_blocks_deallocation_updates (auth_tree_data_blocks_update_states self) blocks log2))).
Definition rollback_blocks_free (self : Transaction U) (blocks : list Z) (log2 : Z) (alloc_bitmap : AllocBitmap) : res (Transaction U) :=
  let! sb := remove_blocks (pending_frees (allocs self)) blocks log2 in
  let ta := set_pending_frees (allocs self) sb in
  ok_state (rollback_remove_blocks (pending_allocs ta) blocks log2 alloc_bitmap true) (λ sb,
    Ok (mk_transaction (set_pending_allocs ta sb) (reset_staged_blocks_updates (auth_tree_data_blocks_update_states self) blocks log2))).
Definition rollback_extents_allocation (self : Transaction U) (extents : list BlockRange) (alloc_bitmap : AllocBitmap) : res (Transaction U) :=
  let! sb := remove_extents (pending_allocs (allocs self)) extents in
  let ta := set_pending_allocs (allocs self) sb in
  ok_state (rollback_remove_extents (pending_frees ta) extents alloc_bitmap false) (λ sb,
    Ok (mk_transaction (set_pending_frees ta sb) (stage_extents_deallocation_updates (auth_tree_data_blocks_update_states self) extents))).
Definition rollback_extents_free (self : Transaction U) (extents : list BlockRange) (alloc_bitmap : AllocBitmap)
    (contents_indeterminate : bool) : res (Transaction U) :=
  let! sb := remove_extents (pending_frees (allocs self)) extents in
  let ta := set_pending_frees (allocs self) sb in
  ok_state (rollback_remove_extents (pending_allocs ta) extents alloc_bitmap true) (λ sb,
    let u := auth_tree_data_blocks_update_states self in
    Ok (mk_transaction (set_pending_allocs ta sb)
      (if negb contents_indeterminate then reset_staged_extents_updates u extents
       else reset_staged_extents_updates_to_failed u extents))).
End TransactionOps.

(** ** The central registration

    [CocoonFsPendingTransactionsSyncState] has the bitmap as its only field. *)

Record PendingTransactionsSyncState := mk_sync_state { central_allocs : SparseAllocBitmap }.
Definition sync_state_new : PendingTransactionsSyncState := mk_sync_state SparseBitmap.new.

Section Registration.
Context {B : Build} {Alloc : Allocator} {P : ImageLayout.Platform}.
Implicit Types (self : PendingTransactionsSyncState) (alloc_bitmap : AllocBitmap).

(** [assert!]. *)
Definition assert (b : bool) : res unit := if b then Ok tt else Panic.

(** [journal_block_allocation_blocks_log2], computed at the start of two methods. *)
Definition journal_block_log2 (image_layout : ImageLayout.ImageLayout) : Z :=
  Z.max (ImageLayout.auth_tree_data_block_allocation_blocks_log2 image_layout) (ImageLayout.io_block_allocation_blocks_log2 image_layout).

Definition deregister_allocated_block self (b log2 : Z) : res PendingTransactionsSyncState :=
  let! sb := remove_block (central_allocs self) b log2 in
  Ok (mk_sync_state (reset_remove_rollback sb)).

(** The loop over the journal blocks of a block, from the [i]-th on; [n] are left. *)
Fixpoint register_loop (n : nat) self alloc_bitmap (it : BitIter * Z) (b log2 jlog2 i : Z)
    : res (PendingTransactionsSyncState * (unit + NvFsError)) :=
  match n with
  | O => Ok (self, inl tt)
  | S n =>
      let! '(word, it) := chunked_iter_next alloc_bitmap [] [] it in
      let! next := uadd 32 i 1 in
      if negb (default 0 word =? 0) then register_loop n self alloc_bitmap it b log2 jlog2 next
      else
        let! offset := ushl 64 i jlog2 in
        let! begin := physical_add b offset in
        let! '(sb, r) := add_block (central_allocs self) begin (Z.min jlog2 log2) in
        let self := mk_sync_state sb in
        match r with
        | inr e =>
            let! sb := remove_block (central_allocs self) b log2 in
            Ok (mk_sync_state (reset_remove_rollback sb), inr e)
        | inl _ => register_loop n self alloc_bitmap it b log2 jlog2 next
        end
  end.

Definition register_allocated_block self alloc_bitmap (image_layout : ImageLayout.ImageLayout) (b log2 : Z)
    : res (PendingTransactionsSyncState * (unit + NvFsError)) :=
  let! _ := assert (log2 <=? BITMAP_WORD_BITS_LOG2) in
  let jlog2 := journal_block_log2 image_layout in
  let! _ := assert (jlog2 <=? BITMAP_WORD_BITS_LOG2) in
  let! journal_blocks_begin := round_down_pow2 64 b jlog2 in
  let block_journal_blocks_log2 := Z.max 0 (log2 - jlog2) in
  let! block_journal_blocks := ushl 32 1 block_journal_blocks_log2 in
  let! chunk := ushl 32 1 jlog2 in
  let! it := chunked_iter_new_at alloc_bitmap [] [] journal_blocks_begin chunk in
  register_loop (Z.to_nat block_journal_blocks) self alloc_bitmap it b log2 jlog2 0.

Fixpoint deregister_allocated_blocks self (blocks : list Z) (log2 : Z) : res PendingTransactionsSyncState :=
  match blocks with
  | [] => Ok self
  | b :: blocks => let! self := deregister_allocated_block self b log2 in deregister_allocated_blocks self blocks log2
  end.
(** [all] are the blocks from the start, [blocks] those from the [i]-th on. *)
Fixpoint register_blocks_loop self alloc_bitmap (image_layout : ImageLayout.ImageLayout) (all : list Z) (i : nat) (blocks : list Z) (log2 : Z)
    : res (PendingTransactionsSyncState * (unit + NvFsError)) :=
  match blocks with
  | [] => Ok (self, inl tt)
  | b :: blocks =>
      let! '(self, r) := register_allocated_block self alloc_bitmap image_layout b log2 in
      match r with
      | inr e => let! self := deregister_allocated_blocks self (take i all) log2 in Ok (self, inr e)
      | inl _ => register_blocks_loop self alloc_bitmap image_layout all (S i) blocks log2
      end
  end.
Definition register_allocated_blocks self alloc_bitmap (image_layout : ImageLayout.ImageLayout) (blocks : list Z) (log2 : Z)
    : res (PendingTransactionsSyncState * (unit + NvFsError)) :=
  register_blocks_loop self alloc_bitmap image_layout blocks 0 blocks log2.

Definition deregister_allocated_extent self (extent : BlockRange) : res PendingTransactionsSyncState :=
  let! sb := remove_extent (central_allocs self) extent in
  Ok (mk_sync_state (reset_remove_rollback sb)).

(** The loop over the journal blocks that an extent touches. *)
Fixpoint register_extent_loop (fuel : nat) self alloc_bitmap (it : BitIter * Z) (extent : BlockRange) (jlog2 aligned_remaining found_begin : Z)
    : res (PendingTransactionsSyncState * (unit + NvFsError)) :=
  match fuel with
  | O => Diverge
  | S fuel =>
      let! '(word, it) := chunked_iter_next alloc_bitmap [] [] it in
      let word := default 0 word in
      let found_end := aligned_remaining in
      let! n := ushl 64 1 jlog2 in
      let! aligned_remaining := physical_add aligned_remaining n in
      if negb (word =? 0) || (rng_end extent <=? aligned_remaining) then
        let found_end := if word =? 0 then rng_end extent else found_end in
        let! '(self, r) :=
          (if found_begin <? found_end then
             let! range := range_new found_begin found_end in
             let! '(sb, r) := add_extent (central_allocs self) range in
             let self := mk_sync_state sb in
             match r with
             | inr e =>
                 let! range := range_new (rng_begin extent) found_end in
                 let! sb := remove_extent (central_allocs self) range in
                 Ok (mk_sync_state (reset_remove_rollback sb), inr e)
             | inl _ => Ok (self, inl tt)
             end
           else Ok (self, inl tt)) in
        match r with
        | inr e => Ok (self, inr e)
        | inl _ =>
            if rng_end extent <=? aligned_remaining then Ok (self, inl tt)
            else register_extent_loop fuel self alloc_bitmap it extent jlog2 aligned_remaining aligned_remaining
        end
      else register_extent_loop fuel self alloc_bitmap it extent jlog2 aligned_remaining found_begin
  end.
Definition register_allocated_extent self alloc_bitmap (image_layout : ImageLayout.ImageLayout) (extent : BlockRange)
    : res (PendingTransactionsSyncState * (unit + NvFsError)) :=
  let jlog2 := journal_block_log2 image_layout in
  let! _ := assert (jlog2 <=? BITMAP_WORD_BITS_LOG2) in
  let! aligned := physical_align_down (rng_begin extent) jlog2 in
  let! chunk := ushl 32 1 jlog2 in
  let! it := chunked_iter_new_at alloc_bitmap [] [] aligned chunk in
  register_extent_loop (Z.to_nat (rng_end extent - aligned) + 1) self alloc_bitmap it extent jlog2 aligned (rng_begin extent).

Fixpoint deregister_allocated_extents self (extents : list BlockRange) : res PendingTransactionsSyncState :=
  match extents with
  | [] => Ok self
  | extent :: extents => let! self := deregister_allocated_extent self extent in deregister_allocated_extents self extents
  end.
Fixpoint register_extents_loop self alloc_bitmap (image_layout : ImageLayout.ImageLayout) (all : list BlockRange) (i : nat) (extents : list BlockRange)
    : res (PendingTransactionsSyncState * (unit + NvFsError)) :=
  match extents with
  | [] => Ok (self, inl tt)
  | extent :: extents =>
      let! '(self, r) := register_allocated_extent self alloc_bitmap image_layout extent in
      match r with
      | inr e => let! self := deregister_allocated_extents self (take i all) in Ok (self, inr e)
      | inl _ => register_extents_loop self alloc_bitmap image_layout all (S i) extents
      end
  end.
Definition register_allocated_extents self alloc_bitmap (image_layout : ImageLayout.ImageLayout) (extents : list BlockRange)
    : res (PendingTransactionsSyncState * (unit + NvFsError)) :=
  register_extents_loop self alloc_bitmap image_layout extents 0 extents.
End Registration.

(** ** Allocation on behalf of a transaction

    The polls of [PendingTransactionsSyncFuture], which a queue runs one at a
    time with exclusive access to the central state. *)

Section Polls.
Context {B : Build} {Alloc : Allocator} {P : ImageLayout.Platform}.
Implicit Types (self : PendingTransactionsSyncState) (alloc_bitmap : AllocBitmap) (ta : TransactionAllocations).

(** [GrabTransactionsSyncStateForCommit]. *)
Definition grab_for_commit self : PendingTransactionsSyncState * PendingTransactionsSyncState :=
  (self, sync_state_new).

(** The pending changes that a search for free blocks takes into account. *)
Definition search_allocs self ta : list SparseAllocBitmap := [pending_allocs ta; journal_allocs ta; central_allocs self].
Definition search_frees ta (constraints : TransactionAllocationConstraints) : list SparseAllocBitmap :=
  [match constraints with Regular => pending_frees ta | NoPendingFrees | Journal => SparseBitmap.new end; journal_frees ta].

(** The set that records an allocation. *)
Definition target ta (constraints : TransactionAllocationConstraints) : SparseAllocBitmap :=
  match constraints with Regular | NoPendingFrees => pending_allocs ta | Journal => journal_allocs ta end.
Definition set_target ta (constraints : TransactionAllocationConstraints) (sb : SparseAllocBitmap) : TransactionAllocations :=
  match constraints with Regular | NoPendingFrees => set_pending_allocs ta sb | Journal => set_journal_allocs ta sb end.

Definition allocate_block self alloc_bitmap (image_layout : ImageLayout.ImageLayout) (image_size : Z) ta (log2 : Z)
    (constraints : TransactionAllocationConstraints)
    : res (PendingTransactionsSyncState * TransactionAllocations * (Z + NvFsError)) :=
  let! found := find_free_block alloc_bitmap log2 [] None (search_allocs self ta) (search_frees ta constraints) image_size None true in
  match found with
  | None => Ok (self, ta, inr NoSpace)
  | Some allocated_block =>
      let! '(self, r) := register_allocated_block self alloc_bitmap image_layout allocated_block log2 in
      match r with
      | inr e => Ok (self, ta, inr e)
      | inl _ =>
          let! '(sb, r) := add_block (target ta constraints) allocated_block log2 in
          let ta := set_target ta constraints sb in
          match r with
          | inr e =>
              let! self := deregister_allocated_block self allocated_block log2 in
              Ok (self, ta, inr e)
          | inl _ =>
              let! sb := remove_block (pending_frees ta) allocated_block log2 in
              let ta := set_pending_frees ta sb in
              let! sb := remove_block (journal_frees ta) allocated_block log2 in
              Ok (self, set_journal_frees ta sb, inl allocated_block)
          end
      end
  end.

(** The loop that collects [n] more blocks; their vector has the capacity since
    the future was created. *)
Fixpoint find_blocks (n : nat) alloc_bitmap (allocs frees : list SparseAllocBitmap) (image_size log2 : Z) (allocated_blocks : list Z)
    : res (list Z) :=
  match n with
  | O => Ok allocated_blocks
  | S n =>
      let! found := find_free_block alloc_bitmap log2 allocated_blocks None allocs frees image_size (last allocated_blocks) true in
      match found with
      | None => Err NoSpace
      | Some b =>
          match binary_search_by (λ a, a ?= b) allocated_blocks with
          | inl _ => err_internal
          | inr pos =>
              let! allocated_blocks := vec_insert allocated_blocks pos b in
              find_blocks n alloc_bitmap allocs frees image_size log2 allocated_blocks
          end
      end
  end.

(** An error of the search loses the transaction. *)
Definition allocate_blocks self alloc_bitmap (image_layout : ImageLayout.ImageLayout) (image_size : Z) ta (log2 : Z) (count : nat)
    (constraints : TransactionAllocationConstraints)
    : res (PendingTransactionsSyncState * TransactionAllocations * (list Z + NvFsError)) :=
  let! allocated_blocks :=
    find_blocks count alloc_bitmap (search_allocs self ta) (search_frees ta constraints) image_size log2 [] in
  let! '(self, r) := register_allocated_blocks self alloc_bitmap image_layout allocated_blocks log2 in
  match r with
  | inr e => Ok (self, ta, inr e)
  | inl _ =>
      let! '(sb, r) := add_blocks (target ta constraints) allocated_blocks log2 in
      let ta := set_target ta constraints sb in
      match r with
      | inr e =>
          let! self := deregister_allocated_blocks self allocated_blocks log2 in
          Ok (self, ta, inr e)
      | inl _ =>
          let! sb := remove_blocks (pending_frees ta) allocated_blocks log2 in
          let ta := set_pending_frees ta sb in
          let! sb := remove_blocks (journal_frees ta) allocated_blocks log2 in
          Ok (self, set_journal_frees ta sb, inl allocated_blocks)
      end
  end.

(** *** Journal staging copies *)

(** The allocation in [TransactionAllocateJournalStagingCopiesFuture] with
    exclusive access to the file system, when no other transaction is pending. *)
Fixpoint find_staging_blocks (n : nat) alloc_bitmap (allocs frees : list SparseAllocBitmap) (image_size log2 : Z)
    (allocated_blocks : list Z) : res (list Z + NvFsError) :=
  match n with
  | O => Ok (inl allocated_blocks)
  | S n =>
      let! found := find_free_block alloc_bitmap log2 allocated_blocks None allocs frees image_size (last allocated_blocks) false in
      match found with
      | None => Ok (inr NoSpace)
      | Some b =>
          match binary_search_by (λ a, a ?= b) allocated_blocks with
          | inl _ => let! e := internal_error in Ok (inr e)
          | inr pos =>
              let! allocated_blocks := vec_insert allocated_blocks pos b in
              find_staging_blocks n alloc_bitmap allocs frees image_size log2 allocated_blocks
          end
      end
  end.
Definition allocate_staging_blocks alloc_bitmap (image_size : Z) ta (journal_block_allocation_blocks_log2 : Z) (needed_blocks : nat)
    : res (TransactionAllocations * (list Z + NvFsError)) :=
  if negb (alloc_ok 0 needed_blocks) then Ok (ta, inr MemoryAllocationFailure) else
  let! found := find_staging_blocks needed_blocks alloc_bitmap [pending_allocs ta; journal_allocs ta] [journal_frees ta] image_size
    journal_block_allocation_blocks_log2 [] in
  match found with
  | inr e => Ok (ta, inr e)
  | inl allocated_blocks =>
      let! '(sb, r) := add_blocks (journal_allocs ta) allocated_blocks journal_block_allocation_blocks_log2 in
      let ta := set_journal_allocs ta sb in
      match r with
      | inr e => Ok (ta, inr e)
      | inl _ =>
          let! sb := remove_blocks (journal_frees ta) allocated_blocks journal_block_allocation_blocks_log2 in
          Ok (set_journal_frees ta sb, inl allocated_blocks)
      end
  end.

(** The release of staging copy blocks that could not be assigned. *)
Definition release_staging_blocks ta (blocks : list Z) (journal_block_allocation_blocks_log2 : Z) : res TransactionAllocations :=
  let! '(sb, r) := add_blocks (journal_frees ta) blocks journal_block_allocation_blocks_log2 in
  let ta := set_journal_frees ta sb in
  match r with
  | inr _ => Ok ta
  | inl _ =>
      let! sb := remove_blocks (journal_allocs ta) blocks journal_block_allocation_blocks_log2 in
      Ok (set_journal_allocs ta (reset_remove_rollback sb))
  end.

(** ** Commit *)

(** The start of writing the journal, and of the cleanup after a cancelled
    commit: the central state that was grabbed becomes part of the journal frees. *)
Definition merge_journal_frees (accumulated : PendingTransactionsSyncState) ta : res TransactionAllocations :=
  let! sb := subtract (central_allocs accumulated) (pending_allocs ta) in
  let! sb := subtract sb (journal_allocs ta) in
  Ok (set_journal_frees ta sb).
(** The normalization before the updates to the bitmap file are staged. *)
Definition normalize alloc_bitmap ta : res TransactionAllocations :=
  let! sb := clear_redundant (pending_allocs ta) alloc_bitmap false in
  let ta := set_pending_allocs ta sb in
  let! sb := clear_redundant (pending_frees ta) alloc_bitmap true in
  Ok (set_pending_frees ta sb).
(** The application to the allocation bitmap. *)
Definition apply_changes alloc_bitmap ta : res AllocBitmap :=
  let! alloc_bitmap := apply_pending alloc_bitmap (pending_frees ta) true in
  apply_pending alloc_bitmap (pending_allocs ta) false.
End Polls.

(** ** Registration: what it does to the central set *)

(** Whether the journal block around a block is free in the bitmap: only the
    blocks of such journal blocks are written to before a commit. *)
Definition prefree (ab : AllocBitmap) (j p : Z) : bool :=
  forallb (λ i, negb (base_bit ab (p / 2 ^ j * 2 ^ j + i))) (seqZ 0 (2 ^ j)).

Lemma aligned_div k j b p : 0 ≤ k ≤ j → (2 ^ k | b) → b ≤ p < b + 2 ^ k → p / 2 ^ j = b / 2 ^ j.
Proof.
  intros Hk [q ->] Hp. pose proof (pow2_pos k ltac:(lia)). pose proof (pow2_pos (j - k) ltac:(lia)).
  assert (2 ^ j = 2 ^ k * 2 ^ (j - k)) as -> by (rewrite <-Z.pow_add_r by lia; f_equal; lia).
  rewrite <-!Z.div_div by lia. f_equal. rewrite Z.div_mul by lia. symmetry. apply Z.div_unique with (p - q * 2 ^ k); lia.
Qed.

Lemma prefree_spec ab j p : 0 ≤ j → prefree ab j p = true ↔ ∀ q, q / 2 ^ j = p / 2 ^ j → base_bit ab q = false.
Proof.
  intros Hj. pose proof (pow2_pos j Hj). unfold prefree. rewrite forallb_forall. split.
  - intros Hall q Hq. assert (0 ≤ q mod 2 ^ j < 2 ^ j) as Hm by (apply Z.mod_pos_bound; lia).
    pose proof (Z.div_mod q (2 ^ j) ltac:(lia)) as Hd. specialize (Hall (q mod 2 ^ j)).
    rewrite <-Hq in Hall. replace (q / 2 ^ j * 2 ^ j + q mod 2 ^ j) with q in Hall by lia.
    apply negb_true_iff, Hall, list_elem_of_In, elem_of_seqZ. lia.
  - intros Hall i Hi%list_elem_of_In%elem_of_seqZ. rewrite Hall; [done|].
    rewrite Z.add_comm, Z.div_add by lia. rewrite (Z.div_small i) by lia. lia.
Qed.

Lemma prefree_base ab j p : 0 ≤ j → prefree ab j p = true → base_bit ab p = false.
Proof. intros Hj Hp. by apply (prefree_spec ab j p Hj). Qed.

Section RegistrationProofs.
Context {B : Build} {Alloc : Allocator} {P : ImageLayout.Platform}.
Variables (ab : AllocBitmap) (j b k : Z).
Hypothesis Hab : bitmap_wf ab.
Hypothesis Hj : 0 ≤ j ≤ 6.
Hypothesis Hk : 0 ≤ k ≤ 6.
Hypothesis Hb : block_ok k b.

Abbreviation len := (Z.of_nat (length (bitmap ab))).
Abbreviation chunk i := (b / 2 ^ j * 2 ^ j + i * 2 ^ j).
Abbreviation count := (2 ^ Z.max 0 (k - j)).

Lemma view_bit_base p : view_bit ab [] [] p = base_bit ab p.
Proof.
  unfold view_bit, base_bit. rewrite view_word_base by done. zcase; [done|]. unfold base_word.
  rewrite lookup_ge_None_2 by lia. zcase; symmetry; apply Z.bits_0.
Qed.

(** The [i]-th journal block of the block. *)
Lemma chunk_geometry i p :
  0 ≤ i < count → b + i * 2 ^ j ≤ p < b + i * 2 ^ j + 2 ^ Z.min j k →
  p / 2 ^ j * 2 ^ j = chunk i ∧ p / 64 = b / 64 ∧ block_ok (Z.min j k) (b + i * 2 ^ j) ∧ in_blocks k [b] p = true.
Proof.
  intros Hi Hp. destruct Hb as (? & Hdiv & ?). pose proof (pow2_pos j ltac:(lia)). pose proof (pow2_pos k ltac:(lia)).
  assert (b ≤ p < b + 2 ^ k ∧ p / 2 ^ j = b / 2 ^ j + i ∧ (2 ^ Z.min j k | b + i * 2 ^ j) ∧ b + i * 2 ^ j + 2 ^ Z.min j k ≤ b + 2 ^ k) as (Hp' & Hpj & Hd & He).
  { destruct (Z.le_gt_cases j k).
    - rewrite Z.min_l, Z.max_r in * by lia. assert (2 ^ k = 2 ^ (k - j) * 2 ^ j) as Hkj by (rewrite <-Z.pow_add_r by lia; f_equal; lia).
      destruct Hdiv as [q ->]. split; [nia|]. rewrite Hkj. replace (q * (2 ^ (k - j) * 2 ^ j)) with (q * 2 ^ (k - j) * 2 ^ j) in * by lia.
      split_and!; [|exists (q * 2 ^ (k - j) + i); lia|nia]. rewrite Z.div_mul by lia.
      symmetry. apply Z.div_unique with (p - (q * 2 ^ (k - j) * 2 ^ j + i * 2 ^ j)); nia.
    - rewrite Z.min_r, Z.max_l in * by lia. change (2 ^ 0) with 1 in Hi. assert (i = 0) as -> by lia.
      rewrite Z.mul_0_l, !Z.add_0_r in *. split_and!; [lia|lia| |done|lia]. apply (aligned_div k); [lia|done|lia]. }
  split_and!.
  - rewrite Hpj. lia.
  - change 64 with (2 ^ 6). by apply (aligned_div k).
  - split_and!; [lia|done|lia].
  - apply in_blocks_spec. exists b. split; [left|done].
Qed.

Lemma chunk_word i x : 0 ≤ i < count → 0 ≤ x < 2 ^ j → (chunk i + x) / 64 = b / 64.
Proof.
  intros Hi Hx. pose proof (pow2_pos j ltac:(lia)). pose proof (pow2_pos (Z.min j k) ltac:(lia)).
  destruct (chunk_geometry i (b + i * 2 ^ j)) as (Hc & Hw & _); [done|lia|]. rewrite <-Hw.
  assert (2 ^ j | chunk i) as Hd by (exists (b / 2 ^ j + i); lia). change 64 with (2 ^ 6).
  pose proof (Z.div_mod (b + i * 2 ^ j) (2 ^ j) ltac:(lia)). pose proof (Z.mod_pos_bound (b + i * 2 ^ j) (2 ^ j) ltac:(lia)).
  rewrite (aligned_div j 6 (chunk i) (chunk i + x)), (aligned_div j 6 (chunk i) (b + i * 2 ^ j)); [done|lia|done|lia|lia|done|lia].
Qed.

(** The iterator is at a journal block of the block, or past the bitmap. *)
Definition chunk_at (it : BitIter) (i : Z) : Prop :=
  ∃ q, bit_at ab [] [] it q ∧ (q = chunk i ∨ (len ≤ b / 64 ∧ q / 64 = b / 64)).

Lemma chunk_next it i :
  chunk_at it i → 0 ≤ i < count →
  ∃ w it', chunked_iter_next ab [] [] (it, 2 ^ j) = Ok (w, (it', 2 ^ j)) ∧ chunk_at it' (i + 1) ∧
    ∀ p, p / 2 ^ j * 2 ^ j = chunk i → (default 0 w =? 0) = prefree ab j p.
Proof.
  intros (q & Hit & Hq) Hi. pose proof (pow2_pos j ltac:(lia)). assert (2 ^ j ≤ 64) by (apply (Z.pow_le_mono_r 2 j 6); lia).
  pose proof (chunk_word i 0 Hi ltac:(lia)) as Hw. rewrite Z.add_0_r in Hw.
  pose proof (chunked_iter_next_Ok ab [] [] Hab ltac:(constructor) ltac:(constructor) it q (2 ^ j) ltac:(lia) Hit) as Hnext.
  assert (q / 64 = b / 64) as Hqw by (destruct Hq as [->|[? ?]]; done). rewrite Hqw in Hnext. destruct (Z.ltb_spec (b / 64) len) as [Hin|Hout].
  - destruct Hq as [->|[? _]]; [|lia]. destruct Hnext as (v & it' & -> & Hit' & Hv & Hbits). do 2 eexists. split; [done|].
    split; [exists (chunk (i + 1)); split; [|by left]; by replace (chunk (i + 1)) with (chunk i + 2 ^ j) by lia|].
    intros p Hp. change (default 0 (Some v)) with v. apply eq_true_iff_eq. rewrite Z.eqb_eq. unfold prefree. rewrite Hp, forallb_forall. split.
    + intros -> x Hx%list_elem_of_In%elem_of_seqZ. specialize (Hbits x ltac:(lia)). rewrite Z.bits_0, view_bit_base in Hbits. by rewrite <-Hbits.
    + intros Hall. apply Z.bits_inj'. intros x Hx. rewrite Z.bits_0. destruct (Z.lt_ge_cases x (2 ^ j)); [|apply (testbit_high (2 ^ j)); [done|lia]].
      rewrite Hbits, view_bit_base by lia. apply negb_true_iff, Hall, list_elem_of_In, elem_of_seqZ. lia.
  - do 2 eexists. split; [exact Hnext|]. split; [exists q; split; [done|by right]|]. intros p Hp. symmetry. unfold prefree. rewrite Hp.
    apply forallb_forall. intros x Hx%list_elem_of_In%elem_of_seqZ. apply negb_true_iff. unfold base_bit. rewrite chunk_word by lia.
    unfold base_word. zcase; [rewrite lookup_ge_None_2 by lia|]; apply Z.bits_0.
Qed.

(** The central set after the journal blocks from the [i]-th on have been
    registered.  A failure needs a word that is not there yet, and then no block
    of it has been registered. *)
Definition registered self (i : Z) self' (x : unit + NvFsError) : Prop :=
  fits (central_allocs self') ∧
  match x with
  | inl _ => ∀ p, has (central_allocs self') p =
      has (central_allocs self) p || (in_blocks k [b] p && (b + i * 2 ^ j <=? p) && prefree ab j p)
  | inr e => e = MemoryAllocationFailure ∧ (∀ p, in_blocks k [b] p = true → has (central_allocs self) p = false) ∧
      ∀ p, has (central_allocs self') p = has (central_allocs self) p
  end.

Lemma block_one_word p : in_blocks k [b] p = true → p / 64 = b / 64.
Proof.
  intros (b' & ->%list_elem_of_singleton & ?)%in_blocks_spec. destruct Hb as (? & ? & ?). change 64 with (2 ^ 6). by apply (aligned_div k).
Qed.

Lemma chunk_blocks i p :
  0 ≤ i < count → in_blocks (Z.min j k) [b + i * 2 ^ j] p = in_blocks k [b] p && (b + i * 2 ^ j <=? p) && (p <? b + (i + 1) * 2 ^ j).
Proof.
  intros Hi. pose proof (pow2_pos j ltac:(lia)). pose proof (pow2_pos k ltac:(lia)). apply eq_true_iff_eq.
  rewrite !andb_true_iff, Z.leb_le, Z.ltb_lt. split.
  - intros (b' & ->%list_elem_of_singleton & Hp)%in_blocks_spec. destruct (chunk_geometry i p) as (_ & _ & _ & Hin); [done..|].
    split_and!; [done|lia|]. assert (2 ^ Z.min j k ≤ 2 ^ j) by (apply Z.pow_le_mono_r; lia). lia.
  - intros ((Hin & ?) & ?). apply in_blocks_spec in Hin as (b' & ->%list_elem_of_singleton & Hp). apply in_blocks_spec. eexists.
    split; [left|]. destruct (Z.le_gt_cases j k); [rewrite Z.min_l by lia; lia|]. rewrite Z.min_r, Z.max_l in * by lia.
    change (2 ^ 0) with 1 in Hi. assert (i = 0) as -> by lia. lia.
Qed.

Lemma register_loop_spec n : ∀ self it i,
  fits (central_allocs self) → chunk_at it i → 0 ≤ i → i + Z.of_nat n = count →
  ∃ self' x, register_loop n self ab (it, 2 ^ j) b k j i = Ok (self', x) ∧ registered self i self' x.
Proof.
  induction n as [|n IH]; intros self it i Hself Hit Hi Hn; cbn [register_loop].
  { do 2 eexists. split; [done|]. split; [done|]. intros p. cbn in Hn. rewrite Z.add_0_r in Hn. subst i.
    assert (in_blocks k [b] p && (b + count * 2 ^ j <=? p) = false) as ->; [|by rewrite orb_false_r].
    apply not_true_iff_false. rewrite andb_true_iff, Z.leb_le. intros [(b' & ->%list_elem_of_singleton & ?)%in_blocks_spec ?].
    assert (2 ^ k ≤ count * 2 ^ j) by (rewrite <-Z.pow_add_r by lia; apply Z.pow_le_mono_r; lia). lia. }
  assert (0 ≤ i < count) as Hi' by lia. destruct (chunk_next it i Hit Hi') as (w & it' & -> & Hit' & Hw). cbn [obind].
  pose proof (pow2_pos j ltac:(lia)). pose proof (pow2_pos (Z.min j k) ltac:(lia)).
  assert (count ≤ 64) by (apply (Z.pow_le_mono_r 2 _ 6); lia). rewrite uadd_Ok by lia. cbn [obind].
  destruct (chunk_geometry i (b + i * 2 ^ j)) as (Hc & Hcw & Hok & Hin); [done|lia|]. destruct Hb as (? & ? & ?). destruct Hok as (? & ? & ?) eqn:Hok'. clear Hok'.
  assert (∀ p, in_blocks k [b] p = true → b + i * 2 ^ j ≤ p < b + (i + 1) * 2 ^ j → prefree ab j p = (default 0 w =? 0)) as Hpre.
  { intros p Hp1 Hp2. symmetry. apply Hw. pose proof (chunk_blocks i p Hi') as Hcb. rewrite Hp1 in Hcb. revert Hcb. zdec.
    intros (b' & ->%list_elem_of_singleton & ?)%in_blocks_spec. by apply chunk_geometry. }
  destruct (Z.eqb_spec (default 0 w) 0) as [Hz|Hnz]; cbn [negb].
  2: { destruct (IH self it' (i + 1)) as (self' & x & -> & Hfits & Hx); [done|done|lia|lia|]. do 2 eexists. split; [done|]. split; [done|].
    destruct x as [[]|e]; [|done]. intros p. rewrite Hx. f_equal. specialize (Hpre p). destruct (in_blocks k [b] p); [|done]. cbn [andb].
    destruct (Z.le_gt_cases (b + (i + 1) * 2 ^ j) p); zdec; [done|]. zcase; [|done]. cbn [andb]. symmetry. rewrite Hpre by (done || lia). by zdec. }
  rewrite ushl_Ok by lia. cbn [obind]. rewrite Z.shiftl_mul_pow2, wrap_small by (unfold in_u; lia).
  unfold physical_add. rewrite checked_add_Some by lia. cbn [unwrap obind].
  destruct (add_block_fits (central_allocs self) (b + i * 2 ^ j) (Z.min j k)) as (sb & x & Hadd & Hsb & Hx); [done|lia|done|]. rewrite Hadd. ostep.
  destruct x as [[]|e].
  - destruct (IH (mk_sync_state sb) it' (i + 1)) as (self' & x & -> & Hfits & Hx'); [done|done|lia|lia|]. do 2 eexists. split; [done|]. split; [done|].
    assert (has sb (b + i * 2 ^ j) = true) as Hhas.
    { rewrite Hx, chunk_blocks, Hin by done. zdec. by rewrite orb_true_r. }
    destruct x as [[]|e]; [|destruct Hx' as (_ & Hx' & _); specialize (Hx' _ Hin); cbn in Hx'; congruence].
    intros p. rewrite Hx'. cbn [central_allocs]. rewrite Hx, chunk_blocks by done. specialize (Hpre p). destruct (in_blocks k [b] p); cbn [andb]; [|by rewrite orb_false_r].
    destruct (Z.le_gt_cases (b + (i + 1) * 2 ^ j) p); zdec; [by rewrite orb_false_r|]. rewrite orb_false_r. f_equal. zcase; [|done].
    cbn [andb]. symmetry. rewrite Hpre by (done || lia). by zdec.
  - destruct Hx as [-> He]. assert (∀ p, in_blocks k [b] p = true → has (central_allocs self) p = false) as Hnone.
    { intros p Hp%block_one_word. apply not_true_iff_false. intros Hhas.
      eapply (add_block_present (central_allocs self) (b + i * 2 ^ j) (Z.min j k)); [done|lia|done| |exact Hhas|exact Hadd]. congruence. }
    unfold remove_block. cbn [central_allocs]. destruct (remove_block_fits sb b k true) as (sb' & -> & Hsb' & Ht); [done..|]. ostep.
    do 2 eexists. split; [done|]. split; [by apply fits_reset|]. split; [done|]. split; [done|]. intros p. cbn. rewrite Ht, (same_entries _ _ p He).
    specialize (Hnone p). destruct (in_blocks k [b] p); [by rewrite Hnone|]. apply andb_true_r.
Qed.
End RegistrationProofs.

Section RegistrationSpecs.
Context {B : Build} {Alloc : Allocator} {P : ImageLayout.Platform}.
Variables (ab : AllocBitmap) (image_layout : ImageLayout.ImageLayout) (k : Z).
Abbreviation j := (journal_block_log2 image_layout).
Hypothesis Hab : bitmap_wf ab.
Hypothesis Hj : 0 ≤ j ≤ 6.
Hypothesis Hk : 0 ≤ k ≤ 6.

(** Registering blocks adds those that may be written to before the commit. *)
Definition registered_blocks self (blocks : list Z) self' : Prop :=
  ∀ p, has (central_allocs self') p = has (central_allocs self) p || (in_blocks k blocks p && prefree ab j p).
(** A failure can only lose blocks of those that were to be registered. *)
Definition unregistered_blocks self (blocks : list Z) self' : Prop :=
  ∀ p, if in_blocks k blocks p then has (central_allocs self') p = true → has (central_allocs self) p = true
       else has (central_allocs self') p = has (central_allocs self) p.

Lemma register_allocated_block_spec self b :
  fits (central_allocs self) → block_ok k b →
  ∃ self' x, register_allocated_block self ab image_layout b k = Ok (self', x) ∧ fits (central_allocs self') ∧
    match x with
    | inl _ => registered_blocks self [b] self'
    | inr e => e = MemoryAllocationFailure ∧ ∀ p, has (central_allocs self') p = has (central_allocs self) p
    end.
Proof.
  intros Hself Hb. pose proof Hb as (? & ? & ?). pose proof (pow2_pos k ltac:(lia)). pose proof (pow2_pos j ltac:(lia)).
  unfold register_allocated_block, BITMAP_WORD_BITS_LOG2, assert. zdec. cbn [obind]. rewrite round_down_pow2_spec by (unfold in_u; lia).
  cbn [obind]. rewrite !shl_one by lia. cbn [obind]. unfold chunked_iter_new_at, BITMAP_WORD_BITS.
  assert (2 ^ j ≤ 64) by (apply (Z.pow_le_mono_r 2 j 6); lia). zdec. cbn [debug_assert obind].
  destruct (bit_iter_new_at_Ok ab [] [] Hab ltac:(constructor) ltac:(constructor) (b / 2 ^ j * 2 ^ j)) as (it & -> & Hit).
  { apply Z.mul_nonneg_nonneg; [apply Z.div_pos|]; lia. }
  cbn [obind]. destruct (register_loop_spec ab j b k Hab Hj Hk Hb (Z.to_nat (2 ^ Z.max 0 (k - j))) self it 0) as (self' & x & -> & Hfits & Hx).
  - done.
  - exists (b / 2 ^ j * 2 ^ j). split; [done|]. left. lia.
  - lia.
  - rewrite Z2Nat.id; [lia|]. apply Z.pow_nonneg. lia.
  - do 2 eexists. split; [done|]. split; [done|]. destruct x as [[]|e]; [|tauto]. intros p. rewrite Hx. f_equal. f_equal.
    destruct (in_blocks k [b] p) eqn:Hp; [|done]. apply in_blocks_spec in Hp as (b' & ->%list_elem_of_singleton & ?). cbn [andb]. lia.
Qed.

Lemma deregister_allocated_blocks_spec blocks : ∀ self,
  fits (central_allocs self) → Forall (block_ok k) blocks →
  ∃ self', deregister_allocated_blocks self blocks k = Ok self' ∧ fits (central_allocs self') ∧
    ∀ p, has (central_allocs self') p = has (central_allocs self) p && negb (in_blocks k blocks p).
Proof.
  induction blocks as [|b blocks IH]; intros self Hself Hok; cbn [deregister_allocated_blocks].
  { exists self. split_and!; [done..|]. intros p. by rewrite andb_true_r. }
  inversion Hok; subst. unfold deregister_allocated_block, remove_block.
  destruct (remove_block_fits (central_allocs self) b k true) as (sb & -> & Hsb & Ht); [done..|]. ostep.
  destruct (IH (mk_sync_state (reset_remove_rollback sb))) as (self' & -> & Hfits & Ht'); [by apply fits_reset|done|].
  exists self'. split_and!; [done..|]. intros p. rewrite Ht'. cbn [central_allocs reset_remove_rollback entries]. by rewrite Ht, (in_blocks_cons k b blocks), negb_orb, andb_assoc.
Qed.

Lemma register_blocks_loop_spec self0 blocks : ∀ self taken,
  fits (central_allocs self) → Forall (block_ok k) (taken ++ blocks) → registered_blocks self0 taken self →
  ∃ self' x, register_blocks_loop self ab image_layout (taken ++ blocks) (length taken) blocks k = Ok (self', x) ∧
    fits (central_allocs self') ∧
    match x with
    | inl _ => registered_blocks self0 (taken ++ blocks) self'
    | inr e => e = MemoryAllocationFailure ∧ unregistered_blocks self0 (taken ++ blocks) self'
    end.
Proof.
  induction blocks as [|b blocks IH]; intros self taken Hself Hok Hreg; cbn [register_blocks_loop].
  { rewrite app_nil_r in *. by do 2 eexists. }
  assert (block_ok k b ∧ Forall (block_ok k) taken) as [Hb Htaken] by (rewrite Forall_app, Forall_cons in Hok; tauto).
  destruct (register_allocated_block_spec self b Hself Hb) as (self1 & x & -> & Hself1 & Hx). ostep. destruct x as [[]|e].
  - replace (taken ++ b :: blocks) with ((taken ++ [b]) ++ blocks) in * by (by rewrite <-app_assoc).
    replace (S (length taken)) with (length (taken ++ [b])) by (rewrite length_app; cbn; lia).
    apply IH; [done..|]. intros p. rewrite (Hx p), (Hreg p), in_blocks_app, <-orb_assoc. f_equal. by rewrite andb_orb_distrib_l.
  - destruct Hx as [-> Hx]. rewrite take_app_length.
    destruct (deregister_allocated_blocks_spec taken self1 Hself1 Htaken) as (self2 & -> & Hself2 & Ht). ostep.
    do 2 eexists. split; [done|]. split; [done|]. split; [done|]. intros p. rewrite Ht, Hx, (Hreg p), in_blocks_app.
    destruct (in_blocks k taken p); cbn [orb negb]; [by rewrite andb_false_r|]. rewrite andb_true_r, orb_false_r.
    by destruct (in_blocks k (b :: blocks) p).
Qed.

Lemma register_allocated_blocks_spec self blocks :
  fits (central_allocs self) → Forall (block_ok k) blocks →
  ∃ self' x, register_allocated_blocks self ab image_layout blocks k = Ok (self', x) ∧ fits (central_allocs self') ∧
    match x with
    | inl _ => registered_blocks self blocks self'
    | inr e => e = MemoryAllocationFailure ∧ unregistered_blocks self blocks self'
    end.
Proof. intros Hself Hok. apply (register_blocks_loop_spec self blocks self []); [done..|]. intros p. by rewrite orb_false_r. Qed.
End RegistrationSpecs.

(** ** The search for blocks *)

Lemma union_word_bits bs p : Z.testbit (union_word bs (p / 64)) (p mod 64) = existsb (λ sb, has sb p) bs.
Proof. induction bs as [|sb bs IH]; [apply Z.bits_0|]. cbn [union_word foldr existsb]. fold (union_word bs (p / 64)). by rewrite Z.lor_spec, IH. Qed.

Lemma view_bit_sets ab allocs frees p :
  view_bit ab allocs frees p =
  (p / 64 <? Z.of_nat (length (bitmap ab))) && ((base_bit ab p || existsb (λ sb, has sb p) allocs) && negb (existsb (λ sb, has sb p) frees)).
Proof.
  unfold view_bit, view_word. pose proof (Z.mod_pos_bound p 64 ltac:(lia)).
  by rewrite Z.land_spec, Z.lor_spec, unot_testbit, !union_word_bits by lia.
Qed.

Lemma sorted_weaken (l : list Z) : StronglySorted Z.lt l → StronglySorted Z.le l.
Proof. induction 1 as [|x l ? ? Hx]; constructor; [done|]. eapply Forall_impl; [exact Hx|]. cbn. lia. Qed.

(** Inserting at the position that a failed search returns. *)
Lemma search_insert {B : Build} {E} (l : list Z) b :
  StronglySorted Z.lt l → b ∉ l →
  ∃ pre post, l = pre ++ post ∧ binary_search_by (λ a, a ?= b) l = inr (length pre) ∧
    vec_insert (E:=E) l (length pre) b = Ok (pre ++ b :: post) ∧ StronglySorted Z.lt (pre ++ b :: post).
Proof.
  intros Hs Hb. assert (∃ pre post, l = pre ++ post ∧ (∀ x, x ∈ pre → x < b) ∧ (∀ x, x ∈ post → b < x)) as (pre & post & -> & Hpre & Hpost).
  { induction Hs as [|x l Hs IH Hx]; [exists [], []; split_and!; [done|intros ? []%not_elem_of_nil..]|]. apply not_elem_of_cons in Hb as [Hbx Hb].
    rewrite Forall_forall in Hx. destruct (Z.lt_ge_cases x b).
    - destruct (IH Hb) as (pre & post & -> & H1 & H2). exists (x :: pre), post. split_and!; [done| |done].
      intros y [->|?]%elem_of_cons; [done|]. by apply H1.
    - exists [], (x :: l). split_and!; [done|intros ? []%not_elem_of_nil|]. intros y [->|Hy]%elem_of_cons; [lia|]. specialize (Hx y Hy). lia. }
  exists pre, post. split; [done|]. split_and!.
  - unfold binary_search_by. rewrite partition_point_app.
    + rewrite lookup_app_r, Nat.sub_diag by lia. destruct post as [|x post]; [done|]. cbn. specialize (Hpost x ltac:(left)).
      by rewrite (proj2 (Z.compare_gt_iff x b)) by lia.
    + intros x Hx%Hpre. by rewrite (proj2 (Z.compare_lt_iff x b)).
    + intros x Hx%Hpost. by rewrite (proj2 (Z.compare_gt_iff x b)).
  - unfold vec_insert. rewrite length_app. zdec. by rewrite take_app_length, drop_app_length.
  - rewrite StronglySorted_app in *. destruct Hs as (Hlt & H1 & H2). split_and!; [|done|by constructor; [|apply Forall_forall]].
    intros x y Hx [->|Hy]%elem_of_cons; [by apply Hpre|]. by apply Hlt.
Qed.

Lemma found_not_elem k blocks b : 0 ≤ k → (∀ p, b ≤ p < b + 2 ^ k → in_blocks k blocks p = false) → b ∉ blocks.
Proof.
  intros Hk Hp Hin. pose proof (pow2_pos k Hk). specialize (Hp b ltac:(lia)).
  rewrite (proj2 (in_blocks_spec k blocks b)) in Hp; [done|]. exists b. split; [done|lia].
Qed.

Section SearchSpecs.
Context {B : Build} {P : ImageLayout.Platform}.
Variables (ab : AllocBitmap) (allocs frees : list SparseAllocBitmap) (size k : Z) (opt : bool).
Hypothesis Hab : bitmap_wf ab.
Hypothesis Hallocs : pending_wf allocs.
Hypothesis Hfrees : pending_wf frees.
Hypothesis Husize : Z.of_nat (length (bitmap ab)) < 2 ^ usize_bits.
Hypothesis Hk : 0 ≤ k ≤ 6.
Hypothesis Hsize : 0 < size < 2 ^ 57.
Hypothesis Hlen : words_for size ≤ Z.of_nat (length (bitmap ab)).

(** A block that a search may return a part of: in the image, and taken back by
    the frees, or free in the bitmap and the allocations. *)
Definition allocatable (p : Z) : Prop :=
  0 ≤ p < size ∧ (existsb (λ sb, has sb p) frees = true ∨ (base_bit ab p = false ∧ existsb (λ sb, has sb p) allocs = false)).

(** Blocks that have been found. *)
Definition found_blocks (blocks : list Z) : Prop :=
  StronglySorted Z.lt blocks ∧ Forall (λ b, block_ok k b ∧ b + 2 ^ k ≤ size) blocks ∧ ∀ p, in_blocks k blocks p = true → allocatable p.

Lemma available_found blocks b :
  available ab allocs frees k blocks [] size b →
  block_ok k b ∧ b + 2 ^ k ≤ size ∧ ∀ p, b ≤ p < b + 2 ^ k → allocatable p ∧ in_blocks k blocks p = false.
Proof.
  intros ([? Hd] & _ & Hall). pose proof (pow2_pos k ltac:(lia)). destruct (words_for_bounds size ltac:(lia)) as [? ?].
  assert (∀ p, b ≤ p < b + 2 ^ k → allocatable p ∧ in_blocks k blocks p = false) as Hp.
  { intros p Hp. specialize (Hall p Hp). unfold taken in Hall. rewrite !orb_false_iff, Z.leb_gt, view_bit_sets in Hall.
    destruct Hall as ((Hv & Hin) & ?). split; [|done]. split; [lia|]. destruct (block_split p) as [Hps ?].
    rewrite (proj2 (Z.ltb_lt _ _)) in Hv by lia. cbn [andb] in Hv.
    destruct (existsb _ frees); [by left|]. right. rewrite andb_true_r, orb_false_iff in Hv. done. }
  destruct (Hp (b + 2 ^ k - 1) ltac:(lia)) as [[? _] _]. split_and!; [split_and!; [lia|done|lia]|lia|done].
Qed.

Lemma find_free_block_found blocks hint :
  found_blocks blocks → hint = last blocks →
  ∃ r, find_free_block ab k blocks None allocs frees size hint opt = Ok r ∧
    match r with
    | Some b => block_ok k b ∧ b + 2 ^ k ≤ size ∧ ∀ p, b ≤ p < b + 2 ^ k → allocatable p ∧ in_blocks k blocks p = false
    | None => ∀ b, ¬ available ab allocs frees k blocks [] size b
    end.
Proof.
  intros (Hs & Hok & _) ->. rewrite Forall_forall in Hok. destruct (find_free_block_spec ab allocs frees k blocks None size (last blocks) opt) as (r & -> & Hr); try done.
  - apply Forall_forall. intros b Hb. by apply Hok.
  - by apply sorted_weaken.
  - split_and!; [apply Forall_nil_2|intros ? []%not_elem_of_nil|intros ? ? []%not_elem_of_nil].
  - by intros w i (e & []%not_elem_of_nil & _).
  - intros b Hb%last_Some_elem_of%Hok. destruct Hb as [(? & _ & _) ?]. pose proof (pow2_pos k ltac:(lia)). split; [lia|done].
  - exists r. split; [done|]. destruct r as [b|]; [|done]. by apply available_found.
Qed.

Lemma found_insert blocks pre post b :
  found_blocks blocks → blocks = pre ++ post → StronglySorted Z.lt (pre ++ b :: post) →
  block_ok k b ∧ b + 2 ^ k ≤ size ∧ (∀ p, b ≤ p < b + 2 ^ k → allocatable p ∧ in_blocks k blocks p = false) →
  found_blocks (pre ++ b :: post).
Proof.
  intros (_ & Hok & Hav) -> Hs (Hb & Hend & Hnew). split_and!; [done| |].
  - rewrite Forall_app in Hok. rewrite Forall_app, Forall_cons. tauto.
  - intros p. rewrite in_blocks_app, (in_blocks_cons k b post), !orb_true_iff. specialize (Hav p). rewrite in_blocks_app, orb_true_iff in Hav.
    intros [?|[(b' & ->%list_elem_of_singleton & ?)%in_blocks_spec|?]]; [tauto| |tauto]. by apply Hnew.
Qed.
End SearchSpecs.

Section FindBlocks.
Context {B : Build} {P : ImageLayout.Platform}.
Variables (ab : AllocBitmap) (allocs frees : list SparseAllocBitmap) (size k : Z).
Hypothesis Hab : bitmap_wf ab.
Hypothesis Hallocs : pending_wf allocs.
Hypothesis Hfrees : pending_wf frees.
Hypothesis Husize : Z.of_nat (length (bitmap ab)) < 2 ^ usize_bits.
Hypothesis Hk : 0 ≤ k ≤ 6.
Hypothesis Hsize : 0 < size < 2 ^ 57.
Hypothesis Hlen : words_for size ≤ Z.of_nat (length (bitmap ab)).

Lemma find_blocks_spec n : ∀ blocks,
  found_blocks ab allocs frees size k blocks →
  (∃ blocks', find_blocks n ab allocs frees size k blocks = Ok blocks' ∧ found_blocks ab allocs frees size k blocks' ∧
    length blocks' = (n + length blocks)%nat) ∨
  find_blocks n ab allocs frees size k blocks = Err NoSpace.
Proof.
  induction n as [|n IH]; intros blocks Hbl; cbn [find_blocks]; [left; by exists blocks|].
  destruct (find_free_block_found ab allocs frees size k true Hab Hallocs Hfrees Husize Hk Hsize Hlen blocks _ Hbl eq_refl) as (r & -> & Hr).
  ostep. destruct r as [b|]; [|by right]. pose proof Hr as (Hb & _ & Hnew). pose proof Hbl as (Hs & _ & _).
  destruct (search_insert (E:=NvFsError) blocks b Hs) as (pre & post & -> & -> & -> & Hs').
  { apply (found_not_elem k); [lia|]. intros p Hp. by apply Hnew. }
  ostep. destruct (IH (pre ++ b :: post)) as [(bs & -> & Hbs & Hl)| ->]; [by eapply found_insert|left|by right].
  exists bs. split_and!; [done..|]. rewrite Hl, !length_app. cbn [length]. lia.
Qed.

Lemma find_staging_blocks_spec n : ∀ blocks,
  found_blocks ab allocs frees size k blocks →
  (∃ blocks', find_staging_blocks n ab allocs frees size k blocks = Ok (inl blocks') ∧ found_blocks ab allocs frees size k blocks' ∧
    length blocks' = (n + length blocks)%nat) ∨
  find_staging_blocks n ab allocs frees size k blocks = Ok (inr NoSpace).
Proof.
  induction n as [|n IH]; intros blocks Hbl; cbn [find_staging_blocks]; [left; by exists blocks|].
  destruct (find_free_block_found ab allocs frees size k false Hab Hallocs Hfrees Husize Hk Hsize Hlen blocks _ Hbl eq_refl) as (r & -> & Hr).
  ostep. destruct r as [b|]; [|by right]. pose proof Hr as (Hb & _ & Hnew). pose proof Hbl as (Hs & _ & _).
  destruct (search_insert (E:=NvFsError) blocks b Hs) as (pre & post & -> & -> & -> & Hs').
  { apply (found_not_elem k); [lia|]. intros p Hp. by apply Hnew. }
  ostep. destruct (IH (pre ++ b :: post)) as [(bs & -> & Hbs & Hl)| ->]; [by eapply found_insert|left|by right].
  exists bs. split_and!; [done..|]. rewrite Hl, !length_app. cbn [length]. lia.
Qed.
End FindBlocks.

(** ** Allocations: what they do to the sets of a transaction *)

Definition disjoint_sets (sb sb' : SparseAllocBitmap) : Prop := ∀ p, has sb p = true → has sb' p = false.
Definition same_sets (ta ta' : TransactionAllocations) : Prop :=
  ∀ p, has (pending_allocs ta') p = has (pending_allocs ta) p ∧ has (pending_frees ta') p = has (pending_frees ta) p ∧
    has (journal_allocs ta') p = has (journal_allocs ta) p ∧ has (journal_frees ta') p = has (journal_frees ta) p.
Definition is_journal (constraints : TransactionAllocationConstraints) : bool :=
  match constraints with Journal => true | _ => false end.
(** The blocks move to the set of allocations, out of both sets of frees. *)
Definition claimed (constraints : TransactionAllocationConstraints) (k : Z) (ta : TransactionAllocations) (blocks : list Z)
    (ta' : TransactionAllocations) : Prop :=
  ∀ p, has (pending_allocs ta') p = has (pending_allocs ta) p || (in_blocks k blocks p && negb (is_journal constraints)) ∧
    has (journal_allocs ta') p = has (journal_allocs ta) p || (in_blocks k blocks p && is_journal constraints) ∧
    has (pending_frees ta') p = has (pending_frees ta) p && negb (in_blocks k blocks p) ∧
    has (journal_frees ta') p = has (journal_frees ta) p && negb (in_blocks k blocks p).

Lemma same_sets_refl ta : same_sets ta ta.
Proof. done. Qed.

Section AllocationSpecs.
Context {B : Build} {Alloc : Allocator} {P : ImageLayout.Platform}.
Variables (ab : AllocBitmap) (image_layout : ImageLayout.ImageLayout) (size k : Z).
Hypothesis Hab : bitmap_wf ab.
Hypothesis Husize : Z.of_nat (length (bitmap ab)) < 2 ^ usize_bits.
Hypothesis Hsize : 0 < size < 2 ^ 57.
Hypothesis Hlen : words_for size ≤ Z.of_nat (length (bitmap ab)).
Hypothesis Hj : 0 ≤ journal_block_log2 image_layout ≤ 6.
Hypothesis Hk : 0 ≤ k ≤ 6.
Implicit Types (self : PendingTransactionsSyncState) (ta : TransactionAllocations) (c : TransactionAllocationConstraints).

Definition ta_fits ta : Prop :=
  fits (pending_allocs ta) ∧ fits (pending_frees ta) ∧ fits (journal_allocs ta) ∧ fits (journal_frees ta).

(** The outcome of an allocation of blocks. *)
Definition allocation self ta c (blocks : list Z) self' ta' (x : list Z + NvFsError) : Prop :=
  fits (central_allocs self') ∧ ta_fits ta' ∧ found_blocks ab (search_allocs self ta) (search_frees ta c) size k blocks ∧
  match x with
  | inl blocks' => blocks' = blocks ∧ registered_blocks ab image_layout k self blocks self' ∧ claimed c k ta blocks ta'
  | inr e => (e = NoSpace ∧ blocks = [] ∨ e = MemoryAllocationFailure) ∧
      unregistered_blocks k self blocks self' ∧ same_sets ta ta'
  end.

Lemma allocation_failed self ta c blocks self' ta' e :
  fits (central_allocs self') → ta_fits ta' → found_blocks ab (search_allocs self ta) (search_frees ta c) size k blocks →
  e = NoSpace ∧ blocks = [] ∨ e = MemoryAllocationFailure → unregistered_blocks k self blocks self' → same_sets ta ta' →
  allocation self ta c blocks self' ta' (inr e).
Proof. intros. split; [done|]. split; [done|]. split; [done|]. by split. Qed.
Lemma allocation_done self ta c blocks self' ta' :
  fits (central_allocs self') → ta_fits ta' → found_blocks ab (search_allocs self ta) (search_frees ta c) size k blocks →
  registered_blocks ab image_layout k self blocks self' → claimed c k ta blocks ta' → allocation self ta c blocks self' ta' (inl blocks).
Proof. intros. split; [done|]. split; [done|]. split; [done|]. by split. Qed.

Lemma search_pending_wf self ta c :
  fits (central_allocs self) → ta_fits ta → pending_wf (search_allocs self ta) ∧ pending_wf (search_frees ta c).
Proof.
  intros Hself (H1 & H2 & H3 & H4). unfold fits, sparse_wf, pending_wf, search_allocs, search_frees in *.
  rewrite !Forall_cons, !Forall_nil. split; [tauto|]. split; [|tauto]. destruct c; [tauto|split; constructor..].
Qed.

Lemma set_target_sets ta c sb : fits sb → ta_fits ta → ta_fits (set_target ta c sb).
Proof. intros ? (? & ? & ? & ?). by destruct c. Qed.

Lemma set_target_same ta c sb : entries sb = entries (target ta c) → same_sets ta (set_target ta c sb).
Proof. intros He p. destruct c; cbn in *; rewrite He; done. Qed.

Lemma target_fits ta c : ta_fits ta → fits (target ta c).
Proof. intros (? & ? & ? & ?). by destruct c. Qed.

Lemma found_nil allocs frees : found_blocks ab allocs frees size k [].
Proof. split_and!; [constructor..|done]. Qed.

(** After the registration and the addition to the set of allocations. *)
Lemma claim_spec ta c blocks sb :
  ta_fits ta → fits sb → Forall (block_ok k) blocks → (∀ p, has sb p = has (target ta c) p || in_blocks k blocks p) →
  ∃ sb1 sb2, remove_blocks (pending_frees (set_target ta c sb)) blocks k = Ok sb1 ∧
    remove_blocks (journal_frees (set_pending_frees (set_target ta c sb) sb1)) blocks k = Ok sb2 ∧
    ta_fits (set_journal_frees (set_pending_frees (set_target ta c sb) sb1) sb2) ∧
    claimed c k ta blocks (set_journal_frees (set_pending_frees (set_target ta c sb) sb1) sb2).
Proof.
  intros Hta Hsb Hok Ht. pose proof (set_target_sets ta c sb Hsb Hta) as (H1 & H2 & H3 & H4).
  destruct (remove_blocks_fits k blocks (pending_frees (set_target ta c sb))) as (sb1 & -> & Hsb1 & Ht1); [done..|].
  destruct (remove_blocks_fits k blocks (journal_frees (set_target ta c sb))) as (sb2 & Hr2 & Hsb2 & Ht2); [done..|].
  exists sb1, sb2. split; [done|]. split; [exact Hr2|]. split; [by destruct c|].
  intros p. specialize (Ht p). specialize (Ht1 p). specialize (Ht2 p). destruct c; cbn in *; rewrite ?andb_true_r, ?andb_false_r, ?orb_false_r; done.
Qed.

Lemma remove_blocks_one sb b : remove_block sb b k = remove_blocks sb [b] k.
Proof. unfold remove_block. cbn [remove_blocks]. unfold remove_block. by destruct (_remove_block sb b k true). Qed.
Lemma deregister_one self b : deregister_allocated_block self b k = deregister_allocated_blocks self [b] k.
Proof. cbn [deregister_allocated_blocks]. by destruct (deregister_allocated_block self b k). Qed.

(** Undoing the registration after the set of allocations could not be extended. *)
Lemma deregistered self blocks self1 :
  fits (central_allocs self1) → Forall (block_ok k) blocks → registered_blocks ab image_layout k self blocks self1 →
  ∃ self2, deregister_allocated_blocks self1 blocks k = Ok self2 ∧ fits (central_allocs self2) ∧ unregistered_blocks k self blocks self2.
Proof.
  intros Hself1 Hok Hreg. destruct (deregister_allocated_blocks_spec k Hk blocks self1 Hself1 Hok) as (self2 & -> & Hself2 & Ht).
  exists self2. split_and!; [done..|]. intros p. rewrite Ht, (Hreg p).
  destruct (in_blocks k blocks p); [by rewrite andb_false_r|]. by rewrite andb_true_r, orb_false_r.
Qed.

Lemma allocate_block_spec self ta c :
  fits (central_allocs self) → ta_fits ta →
  ∃ self' ta' x found, allocate_block self ab image_layout size ta k c = Ok (self', ta', x) ∧
    find_free_block ab k [] None (search_allocs self ta) (search_frees ta c) size None true = Ok found ∧
    allocation self ta c (option_list found) self' ta' (sum_map (λ b, [b]) id x) ∧
    match found with
    | Some b => available ab (search_allocs self ta) (search_frees ta c) k [] [] size b ∧ x ≠ inr NoSpace
    | None => (∀ b, ¬ available ab (search_allocs self ta) (search_frees ta c) k [] [] size b) ∧ x = inr NoSpace
    end.
Proof.
  intros Hself Hta. destruct (search_pending_wf self ta c Hself Hta) as [Ha Hf]. unfold allocate_block.
  destruct (find_free_block_spec ab (search_allocs self ta) (search_frees ta c) k [] None size None true) as (r & -> & Hr); try done.
  { constructor. }
  { split_and!; [apply Forall_nil_2|intros ? []%not_elem_of_nil|intros ? ? []%not_elem_of_nil]. }
  { by intros w i (e & []%not_elem_of_nil & _). }
  cbn [obind]. destruct r as [b|].
  2: { do 4 eexists. split; [done|]. split; [done|]. split; [|by split]. apply allocation_failed; [done|done|apply found_nil|by left|done|done]. }
  pose proof Hr as Hav. apply (available_found ab _ _ size k Hk Hsize Hlen) in Hr.
  assert (found_blocks ab (search_allocs self ta) (search_frees ta c) size k [b]) as Hfound.
  { eapply (found_insert ab _ _ size k) with (pre:=[]) (post:=[]) (blocks:=[]); try done; [apply found_nil|repeat constructor]. }
  destruct Hr as (Hb & _ & _). destruct (register_allocated_block_spec ab image_layout k Hab Hj Hk self b Hself Hb) as (self1 & x & -> & Hself1 & Hx).
  ostep. destruct x as [[]|e].
  2: { destruct Hx as [-> Hx]. do 4 eexists. split; [done|]. split; [done|]. split; [|by split]. apply allocation_failed; [done|done|done|by right| |done].
    change (option_list (Some b)) with [b]. intros p. rewrite Hx. by destruct (in_blocks k [b] p). }
  destruct (add_block_fits (target ta c) b k) as (sb & y & -> & Hsb & Hy); [by apply target_fits|done..|]. ostep. destruct y as [[]|e].
  - rewrite remove_blocks_one. destruct (claim_spec ta c [b] sb Hta Hsb) as (sb1 & sb2 & -> & Hsb2 & Hfits & Hcl); [by constructor|done|].
    cbn [obind]. rewrite remove_blocks_one, Hsb2. cbn [obind]. do 4 eexists. split; [done|]. split; [done|]. split; [by apply allocation_done|]. by split.
  - destruct Hy as [-> He]. rewrite deregister_one. destruct (deregistered self [b] self1) as (self2 & -> & Hself2 & Hun); [done|by constructor|done|].
    cbn [obind]. do 4 eexists. split; [done|]. split; [done|]. split; [|by split]. apply allocation_failed; [done|by apply set_target_sets|done|by right|done|].
    by apply set_target_same.
Qed.

(** Blocks that may be allocated are in none of the sets of allocations, if these
    are disjoint from the frees. *)
Lemma allocatable_new self ta c p :
  disjoint_sets (pending_frees ta) (target ta c) → disjoint_sets (journal_frees ta) (target ta c) →
  allocatable ab (search_allocs self ta) (search_frees ta c) size p → has (target ta c) p = false.
Proof.
  intros Hpf Hjf (_ & [Hfree|[_ Halloc]]).
  - unfold search_frees in Hfree. cbn [existsb] in Hfree. rewrite orb_false_r, orb_true_iff in Hfree. destruct Hfree as [Hp|Hp].
    + apply Hpf. destruct c; [done|unfold tracked in Hp; cbn [word_at entries SparseBitmap.new] in Hp; by rewrite Z.bits_0 in Hp..].
    + by apply Hjf.
  - cbn [existsb search_allocs] in Halloc. rewrite !orb_false_iff in Halloc. destruct c; tauto.
Qed.

Lemma allocate_blocks_spec self ta c n :
  fits (central_allocs self) → ta_fits ta →
  disjoint_sets (pending_frees ta) (target ta c) → disjoint_sets (journal_frees ta) (target ta c) →
  (∃ self' ta' x blocks, allocate_blocks self ab image_layout size ta k n c = Ok (self', ta', x) ∧
    find_blocks n ab (search_allocs self ta) (search_frees ta c) size k [] = Ok blocks ∧ length blocks = n ∧
    allocation self ta c blocks self' ta' x) ∨
  allocate_blocks self ab image_layout size ta k n c = Err NoSpace.
Proof.
  intros Hself Hta Hpf Hjf. destruct (search_pending_wf self ta c Hself Hta) as [Ha Hf]. unfold allocate_blocks.
  destruct (find_blocks_spec ab _ _ size k Hab Ha Hf Husize Hk Hsize Hlen n [] (found_nil _ _)) as [(blocks & -> & Hfound & Hl)| ->]; [left|by right].
  cbn [obind]. rewrite Nat.add_0_r in Hl. pose proof Hfound as (_ & Hok & Hav).
  assert (Forall (block_ok k) blocks) as Hok' by (eapply Forall_impl; [exact Hok|]; by intros ? [? ?]).
  destruct (register_allocated_blocks_spec ab image_layout k Hab Hj Hk self blocks Hself Hok') as (self1 & x & -> & Hself1 & Hx).
  ostep. destruct x as [[]|e].
  2: { destruct Hx as [-> Hx]. do 4 eexists. split; [done|]. split_and!; [done..|]. apply allocation_failed; [done|done|done|by right|done|done]. }
  destruct (add_blocks_fits (target ta c) blocks k) as (sb & y & -> & Hsb & Hy); [by apply target_fits|done|done| |].
  { intros p Hp%Hav. by eapply allocatable_new. }
  ostep. destruct y as [[]|e].
  - destruct (claim_spec ta c blocks sb Hta Hsb) as (sb1 & sb2 & -> & Hsb2 & Hfits & Hcl); [done..|].
    cbn [obind]. rewrite Hsb2. cbn [obind]. do 4 eexists. split; [done|]. split_and!; [done..|]. by apply allocation_done.
  - destruct Hy as [-> He]. destruct (deregistered self blocks self1) as (self2 & -> & Hself2 & Hun); [done..|].
    cbn [obind]. do 4 eexists. split; [done|]. split_and!; [done..|]. apply allocation_failed; [done|by apply set_target_sets|done|by right|done|].
    by apply set_target_same.
Qed.
End AllocationSpecs.

(** ** Correctness of an allocation *)

(** C4: allocating a block for a transaction always gives an answer.  On success
    the block is aligned and in the image, every part of it is free for the
    transaction, and it is recorded in the set that the constraints ask for, out
    of the frees, and centrally as far as it may be written to before the commit.
    [NoSpace] is reported exactly if there is no such block.  The only other
    failure is a lack of memory, which leaves the sets of the transaction and, but
    for the blocks that were to be allocated, the central set as they were. *)
Theorem allocate_block_correct {B : Build} {Alloc : Allocator} {P : ImageLayout.Platform} ab image_layout size k self ta c :
  bitmap_wf ab → Z.of_nat (length (bitmap ab)) < 2 ^ usize_bits → 0 < size < 2 ^ 57 →
  words_for size ≤ Z.of_nat (length (bitmap ab)) → 0 ≤ journal_block_log2 image_layout ≤ 6 → 0 ≤ k ≤ 6 →
  fits (central_allocs self) → ta_fits ta →
  ∃ self' ta' x, allocate_block self ab image_layout size ta k c = Ok (self', ta', x) ∧
    fits (central_allocs self') ∧ ta_fits ta' ∧
    match x with
    | inl b => block_ok k b ∧ b + 2 ^ k ≤ size ∧
        (∀ p, b ≤ p < b + 2 ^ k → allocatable ab (search_allocs self ta) (search_frees ta c) size p) ∧
        registered_blocks ab image_layout k self [b] self' ∧ claimed c k ta [b] ta'
    | inr e => same_sets ta ta' ∧
        (e = NoSpace ∧ (∀ b, ¬ available ab (search_allocs self ta) (search_frees ta c) k [] [] size b) ∧
           (∀ p, has (central_allocs self') p = has (central_allocs self) p) ∨
         e = MemoryAllocationFailure ∧ ∃ b, available ab (search_allocs self ta) (search_frees ta c) k [] [] size b ∧
           unregistered_blocks k self [b] self')
    end.
Proof.
  intros Hab Hus Hsize Hlen Hj Hk Hself Hta.
  destruct (allocate_block_spec ab image_layout size k Hab Hus Hsize Hlen Hj Hk self ta c Hself Hta) as (self' & ta' & x & found & Heq & Hfind & Hall & Hno).
  exists self', ta', x. split; [done|]. destruct Hall as (Hself' & Hta' & (_ & Hok & Hav) & Hx). split; [done|]. split; [done|].
  destruct x as [b|e]; cbn [sum_map id] in Hx.
  - destruct Hx as (Hb & Hreg & Hcl). rewrite <-Hb in *. rewrite Forall_singleton in Hok. destruct Hok as [? ?]. split; [done|]. split; [done|]. split; [|done].
    intros p Hp. apply Hav, in_blocks_spec. exists b. split; [left|done].
  - destruct Hx as (He & Hun & Hsame). split; [done|]. destruct found as [b|]; destruct Hno as [Hb Hne].
    + right. destruct He as [[-> _]|He]; [by destruct Hne|]. split; [done|]. by exists b.
    + left. injection Hne as ->. split; [done|]. split; [done|]. intros p. apply (Hun p).
Qed.

(** *** Instances *)

(** A bitmap of 64 blocks with four free ones, and a transaction that has taken a
    journal block and released it again. *)
Definition example_full : AllocBitmap := mk_bitmap [unot 64 240].
Definition example_layout : ImageLayout.ImageLayout := ImageLayout.example_layout.
Definition example_central : PendingTransactionsSyncState := mk_sync_state (mk_sparse [mk_entry 0 240] 1 0).
Definition example_ta : TransactionAllocations :=
  mk_allocations SparseBitmap.new SparseBitmap.new (mk_sparse [] 1 0) (mk_sparse [mk_entry 0 240] 1 0).

Lemma example_full_wf : bitmap_wf example_full.
Proof. split; [by repeat constructor|done]. Qed.
Lemma example_word_fits : fits (P:=bits64) (mk_sparse [mk_entry 0 240] 1 0) ∧ fits (P:=bits64) (mk_sparse [] 1 0).
Proof.
  split; (split; [|by vm_compute]); split; [..|split; [|done]| |split; [|done]]; try by repeat constructor.
Qed.

Lemma allocate_block_correct_witness :
  ∃ self' ta' x, allocate_block (B:=debug_build) (Alloc:=ample) (P:=bits64) example_central example_full example_layout 64 example_ta 2 Regular =
      Ok (self', ta', x) ∧ fits (P:=bits64) (central_allocs self') ∧ ta_fits (P:=bits64) ta' ∧ x = inl 4.
Proof.
  destruct (@allocate_block_correct debug_build ample bits64 example_full example_layout 64 2 example_central example_ta Regular)
    as (self' & ta' & x & Heq & H1 & H2 & _).
  - apply example_full_wf.
  - by vm_compute.
  - lia.
  - by vm_compute.
  - by vm_compute.
  - lia.
  - apply example_word_fits.
  - split; [by apply fits_new; vm_compute|]. split; [by apply fits_new; vm_compute|]. split; apply example_word_fits.
  - exists self', ta', x. split; [done|]. split; [done|]. split; [done|]. revert Heq. vm_compute. by intros [= _ _ <-].
Defined.


End TransactionAllocs.
