(* ===== verification/TransactionSystem.v ===== *)
(** * Concurrent transactions and commits as a state machine (storage/src/fs/cocoonfs/fs.rs, transaction/)

    The allocation bitmap, the central registration and the running transactions
    form a state; the operations of [TransactionAllocs] are its steps.  Reachable
    states keep transactions apart, and the steps refine a specification in which
    a transaction has its own view of which blocks are allocated and a commit
    makes that view the bitmap. *)

From stdpp Require Import relations.
From S2P Require Import Prelude BitManip Errors Layout ImageLayout BitmapWord SparseBitmap BitmapSearch AllocBitmap FindFreeBlock SparseSets TransactionAllocs.
Import BitManip Errors Layout BitmapWord SparseBitmap AllocBitmap FindFreeBlock SparseSets TransactionAllocs.

Module TransactionSystem.

(** ** Effects of the operations on the sets of a transaction *)

Abbreviation pa ta p := (has (pending_allocs ta) p).
Abbreviation pf ta p := (has (pending_frees ta) p).
Abbreviation ja ta p := (has (journal_allocs ta) p).
Abbreviation jf ta p := (has (journal_frees ta) p).

(** Blocks go from allocated to free; those free in the bitmap need not be
    recorded. *)
Definition freed ab (S : Z → bool) (ta ta' : TransactionAllocations) : Prop :=
  ∀ p, pa ta' p = pa ta p && negb (S p) ∧ ja ta' p = ja ta p ∧ jf ta' p = jf ta p ∧
    (if S p then pf ta' p = true ∨ base_bit ab p = false ∧ pf ta' p = pf ta p else pf ta' p = pf ta p).
(** Blocks go from free to allocated; those allocated in the bitmap need not be
    recorded. *)
Definition restored ab (S : Z → bool) (ta ta' : TransactionAllocations) : Prop :=
  ∀ p, pf ta' p = pf ta p && negb (S p) ∧ ja ta' p = ja ta p ∧ jf ta' p = jf ta p ∧
    (if S p then pa ta' p = true ∨ base_bit ab p = true ∧ pa ta' p = pa ta p else pa ta' p = pa ta p).
(** Blocks of the journal become free. *)
Definition released (S : Z → bool) (ta ta' : TransactionAllocations) : Prop :=
  ∀ p, pa ta' p = pa ta p ∧ pf ta' p = pf ta p ∧ ja ta' p = ja ta p && negb (S p) ∧ jf ta' p = jf ta p || S p.
(** Free blocks are allocated to the journal. *)
Definition staged (S : Z → bool) (ta ta' : TransactionAllocations) : Prop :=
  ∀ p, pa ta' p = pa ta p ∧ pf ta' p = pf ta p ∧ ja ta' p = ja ta p || S p ∧ jf ta' p = jf ta p && negb (S p).

Section Effects.
Context {B : Build} {Alloc : Allocator} {P : ImageLayout.Platform} {U : Type} `{UpdateStates U}.
Variables (ab : AllocBitmap) (k : Z) (blocks : list Z).
Hypothesis Hab : bitmap_wf ab.
Hypothesis Hk : 0 ≤ k ≤ 6.
Hypothesis Hok : Forall (λ b, block_ok k b ∧ b + 2 ^ k < 2 ^ 63) blocks.
Implicit Types (ta : TransactionAllocations) (u : U).

Abbreviation S := (in_blocks k blocks).

Lemma blocks_ok : Forall (block_ok k) blocks.
Proof. eapply Forall_impl; [exact Hok|]. by intros ? [? _]. Qed.

Lemma free_blocks_effect ta u :
  ta_fits ta → (∀ p, S p = true → pf ta p = false) →
  ∃ ta' u' x, free_blocks ta u blocks k = Ok (ta', u', x) ∧ ta_fits ta' ∧
    match x with inl _ => freed ab S ta ta' | inr e => e = MemoryAllocationFailure ∧ same_sets ta ta' end.
Proof.
  intros (H1 & H2 & H3 & H4) Hfree. unfold free_blocks. pose proof blocks_ok.
  destruct (add_blocks_fits (pending_frees ta) blocks k) as (sb & x & -> & Hsb & Hx); [done..|]. ostep. destruct x as [[]|e].
  - destruct (remove_blocks_fits k blocks (pending_allocs (set_pending_frees ta sb))) as (sb' & -> & Hsb' & Ht); [done..|]. ostep.
    do 3 eexists. split; [done|]. split; [done|]. intros p. cbn. rewrite Ht, Hx. split_and!; [done..|].
    destruct (S p); [|by rewrite orb_false_r]. left. apply orb_true_r.
  - destruct Hx as [-> He]. do 3 eexists. split; [done|]. split; [done|]. split; [done|]. intros p. cbn. by rewrite He.
Qed.

Lemma rolled_back_cases sb v sb' p :
  rolled_back ab v sb k blocks sb' →
  if S p then has sb' p = true ∨ base_bit ab p = v ∧ has sb' p = has sb p else has sb' p = has sb p.
Proof.
  intros (H1 & H2 & H3). specialize (H1 p). specialize (H2 p). specialize (H3 p).
  destruct (S p), (has sb p), (has sb' p); naive_solver.
Qed.

Lemma rollback_blocks_allocation_effect ta u tx' :
  ta_fits ta → rollback_blocks_allocation (mk_transaction ta u) blocks k ab = Ok tx' → ta_fits (allocs tx') ∧ freed ab S ta (allocs tx').
Proof.
  intros (H1 & H2 & H3 & H4). unfold rollback_blocks_allocation, ok_state. cbn [allocs].
  destruct (remove_blocks_fits k blocks (pending_allocs ta)) as (sb & -> & Hsb & Ht); [done|done|apply blocks_ok|]. ostep.
  intros Heq. apply obind_Ok_inv in Heq as ([sb' x] & Hrb & Heq). destruct x as [[]|]; [|done]. injection Heq as <-. cbn in Hrb |- *.
  destruct (rollback_blocks_fits ab false k blocks (pending_frees ta) sb') as [Hsb' Hrb']; [done..|]. split; [done|].
  intros p. cbn. rewrite Ht. split_and!; [done..|]. by apply rolled_back_cases.
Qed.
Lemma rollback_blocks_free_effect ta u tx' :
  ta_fits ta → rollback_blocks_free (mk_transaction ta u) blocks k ab = Ok tx' → ta_fits (allocs tx') ∧ restored ab S ta (allocs tx').
Proof.
  intros (H1 & H2 & H3 & H4). unfold rollback_blocks_free, ok_state. cbn [allocs].
  destruct (remove_blocks_fits k blocks (pending_frees ta)) as (sb & -> & Hsb & Ht); [done|done|apply blocks_ok|]. ostep.
  intros Heq. apply obind_Ok_inv in Heq as ([sb' x] & Hrb & Heq). destruct x as [[]|]; [|done]. injection Heq as <-. cbn in Hrb |- *.
  destruct (rollback_blocks_fits ab true k blocks (pending_allocs ta) sb') as [Hsb' Hrb']; [done..|]. split; [done|].
  intros p. cbn. rewrite Ht. split_and!; [done..|]. by apply rolled_back_cases.
Qed.

Lemma release_staging_blocks_effect ta :
  ta_fits ta → (∀ p, S p = true → jf ta p = false) →
  ∃ ta', release_staging_blocks ta blocks k = Ok ta' ∧ ta_fits ta' ∧ (released S ta ta' ∨ same_sets ta ta').
Proof.
  intros (H1 & H2 & H3 & H4) Hfree. unfold release_staging_blocks. pose proof blocks_ok.
  destruct (add_blocks_fits (journal_frees ta) blocks k) as (sb & x & -> & Hsb & Hx); [done..|]. ostep. destruct x as [[]|e].
  - destruct (remove_blocks_fits k blocks (journal_allocs (set_journal_frees ta sb))) as (sb' & -> & Hsb' & Ht); [done..|]. ostep.
    eexists. split; [done|]. split; [split_and!; try done; by apply fits_reset|]. left. intros p. cbn. by rewrite Ht, Hx.
  - destruct Hx as [-> He]. eexists. split; [done|]. split; [done|]. right. intros p. cbn. by rewrite He.
Qed.
End Effects.
(** The operations on one block are those on a list of one. *)
Section OneBlock.
Context {B : Build} {Alloc : Allocator} {P : ImageLayout.Platform} {U : Type} `{UpdateStates U}.
Variables (ab : AllocBitmap) (k b : Z).
Hypothesis Hab : bitmap_wf ab.
Hypothesis Hk : 0 ≤ k ≤ 6.
Hypothesis Hok : block_ok k b ∧ b + 2 ^ k < 2 ^ 63.
Implicit Types (ta : TransactionAllocations) (u : U).

Abbreviation S := (in_blocks k [b]).

Lemma add_blocks_one sb : add_blocks sb [b] k = add_block sb b k.
Proof. unfold add_blocks. cbn. by destruct (add_block sb b k) as [[sb' [[]|e]]| | |]. Qed.
Lemma rollback_remove_blocks_one sb v : rollback_remove_blocks sb [b] k ab v = rollback_remove_block sb b k ab v.
Proof. cbn. by destruct (rollback_remove_block sb b k ab v) as [[sb' [[]|e]]| | |]. Qed.

Lemma free_block_effect ta u :
  ta_fits ta → (∀ p, S p = true → pf ta p = false) →
  ∃ ta' u' x, free_block ta u b k = Ok (ta', u', x) ∧ ta_fits ta' ∧
    match x with inl _ => freed ab S ta ta' | inr e => e = MemoryAllocationFailure ∧ same_sets ta ta' end.
Proof.
  intros Hta Hfree. destruct (free_blocks_effect ab k [b] Hk ltac:(by constructor) ta u Hta Hfree) as (ta' & u' & x & Heq & Hr).
  unfold free_block. unfold free_blocks in Heq. rewrite add_blocks_one in Heq. destruct (add_block _ b k) as [[sb [[]|e]]| | |]; cbn [obind] in *; try done.
  - rewrite <-remove_blocks_one in Heq. destruct (remove_block _ b k); cbn [obind] in *; try done. injection Heq as <- <- <-. by do 3 eexists.
  - injection Heq as <- <- <-. by do 3 eexists.
Qed.
Lemma rollback_block_allocation_effect ta u tx' :
  ta_fits ta → rollback_block_allocation (mk_transaction ta u) b k ab = Ok tx' → ta_fits (allocs tx') ∧ freed ab S ta (allocs tx').
Proof.
  intros Hta Heq. unfold rollback_block_allocation, ok_state in Heq. cbn [allocs] in Heq. rewrite remove_blocks_one in Heq.
  apply obind_Ok_inv in Heq as (sb & Hrm & Heq). rewrite <-rollback_remove_blocks_one in Heq. apply obind_Ok_inv in Heq as ([sb' [[]|]] & Hrb & Heq); [|done].
  injection Heq as <-. apply (rollback_blocks_allocation_effect ab k [b] Hab Hk ltac:(by constructor) ta u
    (mk_transaction (set_pending_frees (set_pending_allocs ta sb) sb') (stage_blocks_deallocation_updates u [b] k)) Hta).
  unfold rollback_blocks_allocation, ok_state. cbn [allocs]. by rewrite Hrm, obind_Ok, Hrb.
Qed.
Lemma rollback_block_free_effect ta u tx' :
  ta_fits ta → rollback_block_free (mk_transaction ta u) b k ab = Ok tx' → ta_fits (allocs tx') ∧ restored ab S ta (allocs tx').
Proof.
  intros Hta Heq. unfold rollback_block_free, ok_state in Heq. cbn [allocs] in Heq. rewrite remove_blocks_one in Heq.
  apply obind_Ok_inv in Heq as (sb & Hrm & Heq). rewrite <-rollback_remove_blocks_one in Heq. apply obind_Ok_inv in Heq as ([sb' [[]|]] & Hrb & Heq); [|done].
  injection Heq as <-. apply (rollback_blocks_free_effect ab k [b] Hab Hk ltac:(by constructor) ta u
    (mk_transaction (set_pending_allocs (set_pending_frees ta sb) sb') (reset_staged_blocks_updates u [b] k)) Hta).
  unfold rollback_blocks_free, ok_state. cbn [allocs]. by rewrite Hrm, obind_Ok, Hrb.
Qed.
End OneBlock.

(** *** The operations of a commit *)

(** The blocks of the set are in the bitmap. *)
Definition in_bitmap ab (sb : SparseAllocBitmap) : Prop := ∀ p, has sb p = true → p / 64 < Z.of_nat (length (bitmap ab)).

Lemma in_bitmap_within ab sb : sparse_wf sb → in_bitmap ab sb → within ab sb.
Proof.
  intros ([Hok Hs] & Hu & _) Hin e He. unfold all_used in Hu. rewrite Forall_forall in Hok, Hu. destruct (Hok e He) as [? Hw].
  destruct (Z.lt_ge_cases (bitmap_word_index e) (Z.of_nat (length (bitmap ab)))); [done|]. destruct (Hu e He).
  apply Z.bits_inj'. intros i Hi. rewrite Z.bits_0. destruct (Z.lt_ge_cases i 64); [|by apply (testbit_high 64)].
  rewrite <-(tracked_word sb) by (done || lia). apply not_true_iff_false. intros Ht%Hin.
  replace ((64 * bitmap_word_index e + i) / 64) with (bitmap_word_index e) in Ht by (apply Z.div_unique with i; lia). lia.
Qed.

Section CommitEffects.
Context {B : Build} {Alloc : Allocator} {P : ImageLayout.Platform}.
Variables (ab : AllocBitmap) (size j : Z).
Hypothesis Hab : bitmap_wf ab.
Hypothesis Husize : Z.of_nat (length (bitmap ab)) < 2 ^ usize_bits.
Implicit Types (ta : TransactionAllocations).

Lemma merge_journal_frees_effect c ta :
  fits (central_allocs c) → ta_fits ta →
  ∃ ta', merge_journal_frees c ta = Ok ta' ∧ ta_fits ta' ∧
    ∀ p, pa ta' p = pa ta p ∧ pf ta' p = pf ta p ∧ ja ta' p = ja ta p ∧
      jf ta' p = has (central_allocs c) p && negb (pa ta p) && negb (ja ta p).
Proof.
  intros Hc (H1 & H2 & H3 & H4). unfold merge_journal_frees.
  destruct (subtract_fits (central_allocs c) (pending_allocs ta)) as (sb & -> & Hsb & Ht); [done..|]. cbn [obind].
  destruct (subtract_fits sb (journal_allocs ta)) as (sb' & -> & Hsb' & Ht'); [done..|]. cbn [obind].
  eexists. split; [done|]. split; [done|]. intros p. cbn. by rewrite Ht', Ht.
Qed.

Lemma normalize_effect ta :
  ta_fits ta →
  ∃ ta', normalize ab ta = Ok ta' ∧ ta_fits ta' ∧
    ∀ p, pa ta' p = pa ta p && negb (base_bit ab p) ∧ pf ta' p = pf ta p && base_bit ab p ∧ ja ta' p = ja ta p ∧ jf ta' p = jf ta p.
Proof.
  intros (H1 & H2 & H3 & H4). unfold normalize.
  destruct (clear_redundant_fits (pending_allocs ta) ab false) as (sb & -> & Hsb & Ht); [done..|]. cbn [obind].
  destruct (clear_redundant_fits (pending_frees (set_pending_allocs ta sb)) ab true) as (sb' & -> & Hsb' & Ht'); [done..|]. cbn [obind].
  eexists. split; [done|]. split; [done|]. intros p. cbn. rewrite Ht', Ht. cbn. by destruct (base_bit ab p).
Qed.

Lemma apply_changes_effect ta :
  ta_fits ta → in_bitmap ab (pending_allocs ta) → in_bitmap ab (pending_frees ta) →
  ∃ ab', apply_changes ab ta = Ok ab' ∧ bitmap_wf ab' ∧ length (bitmap ab') = length (bitmap ab) ∧
    ∀ p, base_bit ab' p = (base_bit ab p && negb (pf ta p)) || pa ta p.
Proof.
  intros ([Hpa _] & [Hpf _] & _ & _) Hina Hinf. unfold apply_changes.
  destruct (apply_pending_spec ab (pending_frees ta) true) as (ab1 & -> & Hab1 & Hl1 & Hw1); [done|done|apply Hpf|by apply in_bitmap_within|].
  cbn [obind]. destruct (apply_pending_spec ab1 (pending_allocs ta) false) as (ab2 & -> & Hab2 & Hl2 & Hw2);
    [done|by rewrite Hl1|apply Hpa|intros e He; rewrite Hl1; by apply (in_bitmap_within ab (pending_allocs ta))|].
  exists ab2. split_and!; [done..|congruence|]. intros p. unfold base_bit. rewrite Hw2, Hw1. cbn [combine].
  pose proof (Z.mod_pos_bound p 64 ltac:(lia)). rewrite Z.lor_spec, Z.land_spec, unot_testbit by lia. done.
Qed.

Lemma allocate_staging_blocks_effect ta n :
  0 < size < 2 ^ 57 → words_for size ≤ Z.of_nat (length (bitmap ab)) → 0 ≤ j ≤ 6 →
  ta_fits ta → disjoint_sets (journal_frees ta) (journal_allocs ta) →
  ∃ ta' x, allocate_staging_blocks ab size ta j n = Ok (ta', x) ∧ ta_fits ta' ∧
    match x with
    | inl blocks => found_blocks ab [pending_allocs ta; journal_allocs ta] [journal_frees ta] size j blocks ∧ length blocks = n ∧
        staged (in_blocks j blocks) ta ta'
    | inr e => same_sets ta ta'
    end.
Proof.
  intros Hsize Hlen Hj Hta Hdis. pose proof Hta as (H1 & H2 & H3 & H4). unfold allocate_staging_blocks.
  destruct (alloc_ok 0 n); [|by do 2 eexists]. cbn [negb].
  assert (pending_wf [pending_allocs ta; journal_allocs ta] ∧ pending_wf [journal_frees ta]) as [Ha Hf]
    by (unfold pending_wf, fits, sparse_wf in *; rewrite !Forall_cons, !Forall_nil; tauto).
  destruct (find_staging_blocks_spec ab _ _ size j Hab Ha Hf Husize Hj Hsize Hlen n []) as [(blocks & -> & Hfound & Hl)| ->].
  { apply (found_nil ab size j). }
  2: { cbn [obind]. by do 2 eexists. }
  cbn [obind]. pose proof Hfound as (_ & Hok & Hav).
  assert (Forall (block_ok j) blocks) as Hok' by (eapply Forall_impl; [exact Hok|]; by intros ? [? ?]).
  destruct (add_blocks_fits (journal_allocs ta) blocks j) as (sb & x & -> & Hsb & Hx); [done..| |].
  { intros p (_ & [Hp|[_ Hp]])%Hav; cbn in Hp; rewrite ?orb_false_r in Hp; [by apply Hdis|].
    by apply orb_false_iff in Hp as [_ ?]. }
  ostep. destruct x as [[]|e].
  - destruct (remove_blocks_fits j blocks (journal_frees (set_journal_allocs ta sb))) as (sb' & -> & Hsb' & Ht); [done..|]. ostep.
    do 2 eexists. split; [done|]. split; [done|]. split; [done|]. split; [cbn in Hl; lia|]. intros p. cbn. by rewrite Ht, Hx.
  - destruct Hx as [-> He]. do 2 eexists. split; [done|]. split; [done|]. intros p. cbn. by rewrite He.
Qed.
End CommitEffects.

(** ** The state machine *)

(** What a transaction takes for allocated. *)
Definition view ab (ta : TransactionAllocations) (p : Z) : bool := pa ta p || (base_bit ab p && negb (pf ta p)).
(** Blocks that are neither in the journal nor in a view for the transaction to
    use again. *)
Definition fresh_blocks (k : Z) (ta : TransactionAllocations) (blocks : list Z) : Prop :=
  ∀ p, in_blocks k blocks p = true → pf ta p = false ∧ jf ta p = false.

Record System {U : Type} := mk_system {
  alloc_bitmap : AllocBitmap;
  sync_state : PendingTransactionsSyncState;
  running : list (Transaction U);
  committing : option (Transaction U);
}.
Arguments System : clear implicits.
Arguments mk_system {U} _ _ _ _.

Section Steps.
Context {B : Build} {P : ImageLayout.Platform} {U : Type} `{UpdateStates U}.
Variables (image_layout : ImageLayout.ImageLayout) (image_size : Z).
Abbreviation j := (journal_block_log2 image_layout).
Implicit Types (ab : AllocBitmap) (c : PendingTransactionsSyncState) (run : list (Transaction U)) (tx : Transaction U).

Definition image_blocks (k : Z) (blocks : list Z) : Prop :=
  0 ≤ k ≤ 6 ∧ Forall (λ b, block_ok k b ∧ b + 2 ^ k ≤ image_size) blocks.

(** Steps of running transactions.  A transaction frees what it has allocated,
    and rolls back its own operations.  Memory may run out at any allocation; a
    failure to record an allocation undoes its registration, which is safe if the
    block was not the transaction's own before. *)
Inductive tx_step ab c tx : PendingTransactionsSyncState → Transaction U → Prop :=
| step_allocate_block Alloc k constraints c' ta' x found :
    0 ≤ k ≤ 6 →
    allocate_block (Alloc:=Alloc) c ab image_layout image_size (allocs tx) k constraints = Ok (c', ta', x) →
    find_free_block ab k [] None (search_allocs c (allocs tx)) (search_frees (allocs tx) constraints) image_size None true = Ok found →
    (∀ e, x = inr e → fresh_blocks k (allocs tx) (option_list found)) →
    tx_step ab c tx c' (mk_transaction ta' (auth_tree_data_blocks_update_states tx))
| step_allocate_blocks Alloc k n constraints c' ta' x found :
    0 ≤ k ≤ 6 →
    allocate_blocks (Alloc:=Alloc) c ab image_layout image_size (allocs tx) k n constraints = Ok (c', ta', x) →
    find_blocks n ab (search_allocs c (allocs tx)) (search_frees (allocs tx) constraints) image_size k [] = Ok found →
    (∀ e, x = inr e → fresh_blocks k (allocs tx) found) →
    tx_step ab c tx c' (mk_transaction ta' (auth_tree_data_blocks_update_states tx))
| step_free_block Alloc k b ta' u' x :
    image_blocks k [b] → (∀ p, in_blocks k [b] p = true → view ab (allocs tx) p = true) →
    free_block (Alloc:=Alloc) (allocs tx) (auth_tree_data_blocks_update_states tx) b k = Ok (ta', u', x) →
    tx_step ab c tx c (mk_transaction ta' u')
| step_free_blocks Alloc k blocks ta' u' x :
    image_blocks k blocks → (∀ p, in_blocks k blocks p = true → view ab (allocs tx) p = true) →
    free_blocks (Alloc:=Alloc) (allocs tx) (auth_tree_data_blocks_update_states tx) blocks k = Ok (ta', u', x) →
    tx_step ab c tx c (mk_transaction ta' u')
| step_rollback_block_allocation k b tx' :
    image_blocks k [b] → (∀ p, in_blocks k [b] p = true → pa (allocs tx) p = true) →
    rollback_block_allocation tx b k ab = Ok tx' → tx_step ab c tx c tx'
| step_rollback_blocks_allocation k blocks tx' :
    image_blocks k blocks → (∀ p, in_blocks k blocks p = true → pa (allocs tx) p = true) →
    rollback_blocks_allocation tx blocks k ab = Ok tx' → tx_step ab c tx c tx'
| step_rollback_block_free k b tx' :
    image_blocks k [b] → (∀ p, in_blocks k [b] p = true → pf (allocs tx) p = true) →
    rollback_block_free tx b k ab = Ok tx' → tx_step ab c tx c tx'
| step_rollback_blocks_free k blocks tx' :
    image_blocks k blocks → (∀ p, in_blocks k blocks p = true → pf (allocs tx) p = true) →
    rollback_blocks_free tx blocks k ab = Ok tx' → tx_step ab c tx c tx'
| step_release Alloc blocks ta' :
    image_blocks j blocks → (∀ p, in_blocks j blocks p = true → ja (allocs tx) p = true) →
    release_staging_blocks (Alloc:=Alloc) (allocs tx) blocks j = Ok ta' →
    tx_step ab c tx c (mk_transaction ta' (auth_tree_data_blocks_update_states tx))
| step_reset_rollback :
    tx_step ab c tx c (mk_transaction (reset_rollback (allocs tx)) (auth_tree_data_blocks_update_states tx))
| step_update_states u' : tx_step ab c tx c (mk_transaction (allocs tx) u').

(** Steps of the transaction that commits, which has exclusive access. *)
Inductive commit_step ab tx : Transaction U → Prop :=
| step_stage Alloc n ta' x :
    allocate_staging_blocks (Alloc:=Alloc) ab image_size (allocs tx) j n = Ok (ta', x) →
    commit_step ab tx (mk_transaction ta' (auth_tree_data_blocks_update_states tx))
| step_stage_release Alloc blocks ta' :
    image_blocks j blocks → (∀ p, in_blocks j blocks p = true → ja (allocs tx) p = true) →
    release_staging_blocks (Alloc:=Alloc) (allocs tx) blocks j = Ok ta' →
    commit_step ab tx (mk_transaction ta' (auth_tree_data_blocks_update_states tx))
| step_normalize ta' :
    normalize ab (allocs tx) = Ok ta' → commit_step ab tx (mk_transaction ta' (auth_tree_data_blocks_update_states tx))
| step_commit_update_states u' : commit_step ab tx (mk_transaction (allocs tx) u').

Inductive step : System U → System U → Prop :=
| step_begin ab c run u :
    step (mk_system ab c run None) (mk_system ab c (run ++ [mk_transaction allocations_new u]) None)
| step_tx ab c run i tx c' tx' :
    run !! i = Some tx → tx_step ab c tx c' tx' → step (mk_system ab c run None) (mk_system ab c' (<[i := tx']> run) None)
| step_drop ab c run i : step (mk_system ab c run None) (mk_system ab c (delete i run) None)
| step_commit_begin ab c run i tx c' acc ta' :
    run !! i = Some tx → grab_for_commit c = (acc, c') → merge_journal_frees acc (allocs tx) = Ok ta' →
    step (mk_system ab c run None) (mk_system ab c' [] (Some (mk_transaction ta' (auth_tree_data_blocks_update_states tx))))
| step_committing ab c run tx tx' :
    commit_step ab tx tx' → step (mk_system ab c run (Some tx)) (mk_system ab c run (Some tx'))
| step_apply ab c run tx ab' :
    apply_changes ab (allocs tx) = Ok ab' → step (mk_system ab c run (Some tx)) (mk_system ab' c run None)
| step_abort ab c run tx : step (mk_system ab c run (Some tx)) (mk_system ab c run None).

Definition initial (s : System U) : Prop :=
  bitmap_wf (alloc_bitmap s) ∧ Z.of_nat (length (bitmap (alloc_bitmap s))) < 2 ^ usize_bits ∧
  words_for image_size ≤ Z.of_nat (length (bitmap (alloc_bitmap s))) ∧
  sync_state s = sync_state_new ∧ running s = [] ∧ committing s = None.
End Steps.

(** ** The invariant *)

(** At a block that is in the bitmap or not ([t]), in a journal block that is free
    or not ([q]), and registered or not ([c]): in which of the four sets it is. *)
Definition ok_at (t q c a f x y : bool) : bool :=
  negb (a && f) && negb (a && x) && negb (a && y) && negb (f && x) && negb (f && y) && negb (x && y) &&
  negb (x && t) && negb (y && t) && implb ((a || f || x || y) && q) c.
(** The same for the transaction that commits: nothing is registered any more. *)
Definition commit_ok_at (t a f x y : bool) : bool :=
  negb (a && f) && negb (a && x) && negb (a && y) && negb (x && y) && negb (x && t) && negb (y && t).
(** What a transaction may write to before the commit, if the journal block is
    free. *)
Definition owned (ta : TransactionAllocations) (p : Z) : bool := pa ta p || pf ta p || ja ta p || jf ta p.

(** Decide a statement about booleans by cases. *)
Ltac bool_cases :=
  repeat match goal with b : bool |- _ => destruct b end;
  cbn in *; intuition (try discriminate; try congruence).

Lemma ok_freed_at t q c a f x y s f' :
  ok_at t q c a f x y = true → (q = true → t = false) → (s = true → a || (t && negb f) = true) →
  (if s then f' = true ∨ t = false ∧ f' = f else f' = f) →
  ok_at t q c (a && negb s) f' x y = true ∧ (q = true → (a && negb s) || f' || x || y = true → a || f || x || y = true).
Proof. unfold ok_at. bool_cases. Qed.
Lemma ok_restored_at t q c a f x y s a' :
  ok_at t q c a f x y = true → (s = true → f = true) → (if s then a' = true ∨ t = true ∧ a' = a else a' = a) →
  ok_at t q c a' (f && negb s) x y = true ∧ (a' || (f && negb s) || x || y = true → a || f || x || y = true).
Proof. unfold ok_at. bool_cases. Qed.
Lemma ok_released_at t q c a f x y s :
  ok_at t q c a f x y = true → (s = true → x = true) →
  ok_at t q c a f (x && negb s) (y || s) = true ∧ (a || f || (x && negb s) || (y || s) = true → a || f || x || y = true).
Proof. unfold ok_at. bool_cases. Qed.
Lemma ok_claimed_at t q c a f x y s r g :
  ok_at t q c a f x y = true → (q = true → t = false) → (c = true → q = true) →
  (s = true → (g && f) || y = true ∨ t = false ∧ a || (x || c) = false) → (r = true → g = false) →
  ok_at t q (c || (s && q)) (a || (s && negb r)) (f && negb s) (x || (s && r)) (y && negb s) = true ∧
  (q = true → (a || (s && negb r)) || (f && negb s) || (x || (s && r)) || (y && negb s) = true → a || f || x || y = true ∨ c = false).
Proof. unfold ok_at. bool_cases. Qed.

Section Invariant.
Context {B : Build} {P : ImageLayout.Platform} {U : Type} `{UpdateStates U}.
Variables (image_layout : ImageLayout.ImageLayout) (image_size : Z).
Abbreviation j := (journal_block_log2 image_layout).
Hypothesis Husize : 1 ≤ usize_bits.
Hypothesis Hj : 0 ≤ j ≤ 6.
Hypothesis Hsize : 0 < image_size < 2 ^ 57.
Implicit Types (ab : AllocBitmap) (c : PendingTransactionsSyncState) (run : list (Transaction U)) (tx : Transaction U) (ta : TransactionAllocations).

Definition tx_ok ab c ta : Prop :=
  ta_fits ta ∧ in_bitmap ab (pending_allocs ta) ∧ in_bitmap ab (pending_frees ta) ∧
  ∀ p, ok_at (base_bit ab p) (prefree ab j p) (has (central_allocs c) p) (pa ta p) (pf ta p) (ja ta p) (jf ta p) = true.
Definition commit_ok ab ta : Prop :=
  ta_fits ta ∧ in_bitmap ab (pending_allocs ta) ∧ in_bitmap ab (pending_frees ta) ∧
  ∀ p, commit_ok_at (base_bit ab p) (pa ta p) (pf ta p) (ja ta p) (jf ta p) = true.
Definition bitmap_ok ab : Prop :=
  bitmap_wf ab ∧ Z.of_nat (length (bitmap ab)) < 2 ^ usize_bits ∧ words_for image_size ≤ Z.of_nat (length (bitmap ab)).
Definition central_ok ab c : Prop := fits (central_allocs c) ∧ ∀ p, has (central_allocs c) p = true → prefree ab j p = true.
Definition isolated ab run : Prop :=
  ∀ i i' tx tx' p, i ≠ i' → run !! i = Some tx → run !! i' = Some tx' → prefree ab j p = true →
    owned (allocs tx) p = true → owned (allocs tx') p = false.
Definition system_ok (s : System U) : Prop :=
  bitmap_ok (alloc_bitmap s) ∧ central_ok (alloc_bitmap s) (sync_state s) ∧
  (∀ i tx, running s !! i = Some tx → tx_ok (alloc_bitmap s) (sync_state s) (allocs tx)) ∧ isolated (alloc_bitmap s) (running s) ∧
  (∀ tx, committing s = Some tx → running s = [] ∧ sync_state s = sync_state_new ∧ commit_ok (alloc_bitmap s) (allocs tx)).

Lemma owned_central ab c ta p : tx_ok ab c ta → owned ta p = true → prefree ab j p = true → has (central_allocs c) p = true.
Proof.
  intros (_ & _ & _ & Hp) Ho Hq. specialize (Hp p). unfold owned in Ho. unfold ok_at in Hp.
  apply andb_true_iff in Hp as [_ Hp]. by rewrite Ho, Hq in Hp.
Qed.

Lemma base_in_bitmap ab p : base_bit ab p = true → p / 64 < Z.of_nat (length (bitmap ab)).
Proof.
  unfold base_bit, base_word. intros Hb. destruct (Z.lt_ge_cases (p / 64) (Z.of_nat (length (bitmap ab)))); [done|].
  rewrite lookup_ge_None_2 in Hb by lia. cbn in Hb. destruct (0 <=? p / 64); by rewrite Z.bits_0 in Hb.
Qed.

(** What a step of one transaction must satisfy. *)
Definition good_step ab c ta c' ta' : Prop :=
  central_ok ab c' ∧ (∀ p, has (central_allocs c) p = true → has (central_allocs c') p = true) ∧ tx_ok ab c' ta' ∧
  ∀ p, prefree ab j p = true → owned ta' p = true → owned ta p = true ∨ has (central_allocs c) p = false.

Lemma tx_ok_central ab c c' ta : (∀ p, has (central_allocs c) p = true → has (central_allocs c') p = true) → tx_ok ab c ta → tx_ok ab c' ta.
Proof.
  intros Hc (H1 & H2 & H3 & H4). split_and!; [done..|]. intros p. specialize (H4 p). specialize (Hc p). revert H4 Hc. unfold ok_at.
  generalize (has (central_allocs c) p) (has (central_allocs c') p) (base_bit ab p) (prefree ab j p) (pa ta p) (pf ta p) (ja ta p) (jf ta p).
  intros. bool_cases.
Qed.

Lemma good_step_system ab c run i tx c' tx' :
  system_ok (mk_system ab c run None) → run !! i = Some tx → good_step ab c (allocs tx) c' (allocs tx') →
  system_ok (mk_system ab c' (<[i := tx']> run) None).
Proof.
  intros (Hab & Hc & Hrun & Hiso & _) Hi (Hc' & Hmono & Hok & Hown). cbn in *.
  assert (∀ i' tx'' p, i' ≠ i → run !! i' = Some tx'' → prefree ab j p = true → owned (allocs tx'') p = true → owned (allocs tx') p = true → False) as Hnew.
  { intros i' tx'' p Hne Hi' Hq Ho Ho'. destruct (Hown p Hq Ho') as [Hold|Hcen].
    - pose proof (Hiso i i' tx tx'' p ltac:(done) Hi Hi' Hq Hold). congruence.
    - rewrite (owned_central ab c (allocs tx'') p (Hrun _ _ Hi') Ho Hq) in Hcen. done. }
  split_and!; cbn; [done..| | |done].
  - intros i' tx'' Hi'. destruct (decide (i' = i)) as [->|Hne].
    + rewrite list_lookup_insert_eq in Hi' by by eapply lookup_lt_Some. by injection Hi' as <-.
    + rewrite list_lookup_insert_ne in Hi' by done. eapply tx_ok_central; [done|]. by eapply Hrun.
  - intros i1 i2 tx1 tx2 p Hne H1 H2 Hq Ho. apply not_true_iff_false. intros Ho'.
    assert (i < length run)%nat by by eapply lookup_lt_Some.
    destruct (decide (i1 = i)) as [->|]; [rewrite list_lookup_insert_eq in H1 by done; injection H1 as <-; rewrite list_lookup_insert_ne in H2 by done; by eapply Hnew|].
    rewrite list_lookup_insert_ne in H1 by done. destruct (decide (i2 = i)) as [->|].
    + rewrite list_lookup_insert_eq in H2 by done. injection H2 as <-. by eapply Hnew.
    + rewrite list_lookup_insert_ne in H2 by done. rewrite (Hiso i1 i2 tx1 tx2 p) in Ho' by done. done.
Qed.

(** *** The effects are good steps *)

Lemma prefree_not_base ab p : prefree ab j p = true → base_bit ab p = false.
Proof. apply prefree_base. lia. Qed.

Lemma good_freed ab c ta ta' S :
  central_ok ab c → tx_ok ab c ta → ta_fits ta' → freed ab S ta ta' → (∀ p, S p = true → view ab ta p = true) → good_step ab c ta c ta'.
Proof.
  intros Hc (H1 & H2 & H3 & H4) Hfits Heff Hview. unfold view in Hview.
  assert (∀ p, ok_at (base_bit ab p) (prefree ab j p) (has (central_allocs c) p) (pa ta' p) (pf ta' p) (ja ta' p) (jf ta' p) = true ∧
    (prefree ab j p = true → owned ta' p = true → owned ta p = true)) as Hall.
  { intros p. destruct (Heff p) as (Ha & Hx & Hy & Hf). unfold owned. rewrite Ha, Hx, Hy.
    apply ok_freed_at with (s := S p); [done|apply prefree_not_base|apply Hview|done]. }
  split; [done|]. split; [done|]. split; [split_and!; [done|..]|intros p Hq Ho; left; by apply Hall].
  - intros p. destruct (Heff p) as (-> & _). intros [? _]%andb_true_iff. by apply H2.
  - intros p Hp. destruct (Heff p) as (_ & _ & _ & Hf). specialize (Hview p). specialize (H2 p). specialize (H3 p).
    destruct (S p); [|rewrite Hf in Hp; auto]. specialize (Hview eq_refl). apply orb_true_iff in Hview as [?|[? _]%andb_true_iff]; [auto|by apply base_in_bitmap].
  - intros p. apply Hall.
Qed.

Lemma good_restored ab c ta ta' S :
  central_ok ab c → tx_ok ab c ta → ta_fits ta' → restored ab S ta ta' → (∀ p, S p = true → pf ta p = true) → good_step ab c ta c ta'.
Proof.
  intros Hc (H1 & H2 & H3 & H4) Hfits Heff Hpf.
  assert (∀ p, ok_at (base_bit ab p) (prefree ab j p) (has (central_allocs c) p) (pa ta' p) (pf ta' p) (ja ta' p) (jf ta' p) = true ∧
    (owned ta' p = true → owned ta p = true)) as Hall.
  { intros p. destruct (Heff p) as (Hf & Hx & Hy & Ha). unfold owned. rewrite Hf, Hx, Hy. apply ok_restored_at with (s := S p); [done|apply Hpf|done]. }
  split; [done|]. split; [done|]. split; [split_and!; [done|..]|intros p Hq Ho; left; by apply Hall].
  - intros p Hp. destruct (Heff p) as (_ & _ & _ & Ha). specialize (Hpf p). specialize (H2 p). specialize (H3 p).
    destruct (S p); [auto|rewrite Ha in Hp; auto].
  - intros p. destruct (Heff p) as (-> & _). intros [? _]%andb_true_iff. by apply H3.
  - intros p. apply Hall.
Qed.

Lemma good_released ab c ta ta' S :
  central_ok ab c → tx_ok ab c ta → ta_fits ta' → released S ta ta' → (∀ p, S p = true → ja ta p = true) → good_step ab c ta c ta'.
Proof.
  intros Hc (H1 & H2 & H3 & H4) Hfits Heff Hja. split; [done|]. split; [done|]. split.
  - split_and!; [done|intros p; destruct (Heff p) as (-> & _); apply H2|intros p; destruct (Heff p) as (_ & -> & _); apply H3|].
    intros p. destruct (Heff p) as (-> & -> & -> & ->). apply ok_released_at; [done|apply Hja].
  - intros p Hq. unfold owned. destruct (Heff p) as (-> & -> & -> & ->). intros Ho. left.
    eapply (ok_released_at (base_bit ab p) (prefree ab j p) (has (central_allocs c) p) _ _ _ _ (S p)); [apply H4|apply Hja|exact Ho].
Qed.

Lemma tx_ok_same ab c ta ta' : tx_ok ab c ta → ta_fits ta' → same_sets ta ta' → tx_ok ab c ta'.
Proof.
  intros (H1 & H2 & H3 & H4) Hfits Heff. split_and!; [done|intros p; destruct (Heff p) as (-> & _); apply H2|intros p; destruct (Heff p) as (_ & -> & _); apply H3|].
  intros p. destruct (Heff p) as (-> & -> & -> & ->). apply H4.
Qed.
Lemma owned_same ta ta' p : same_sets ta ta' → owned ta' p = owned ta p.
Proof. intros Heff. unfold owned. by destruct (Heff p) as (-> & -> & -> & ->). Qed.

Lemma good_same ab c ta c' ta' :
  central_ok ab c' → (∀ p, has (central_allocs c) p = true → has (central_allocs c') p = true) →
  tx_ok ab c ta → ta_fits ta' → same_sets ta ta' → good_step ab c ta c' ta'.
Proof.
  intros Hc Hmono Hok Hfits Heff. split; [done|]. split; [done|]. split.
  - eapply tx_ok_central; [done|]. by eapply tx_ok_same.
  - intros p _ Ho. left. by rewrite (owned_same ta ta') in Ho.
Qed.

(** The found blocks, seen from the four sets and the central one. *)
Lemma allocatable_at ab c ta constraints p :
  allocatable ab (search_allocs c ta) (search_frees ta constraints) image_size p →
  (match constraints with Regular => true | _ => false end && pf ta p) || jf ta p = true ∨
  base_bit ab p = false ∧ pa ta p || (ja ta p || has (central_allocs c) p) = false.
Proof.
  intros (_ & [Hf|[? Ha]]); [left|right].
  - cbn [search_frees existsb] in Hf. rewrite orb_false_r in Hf. destruct constraints; [done|unfold tracked at 1 in Hf; cbn [word_at entries SparseBitmap.new] in Hf; by rewrite Z.bits_0 in Hf..].
  - cbn [search_allocs existsb] in Ha. by rewrite orb_false_r in Ha.
Qed.

Lemma image_in_bitmap ab p : bitmap_ok ab → p < image_size → p / 64 < Z.of_nat (length (bitmap ab)).
Proof.
  intros (_ & _ & Hlen) Hp. destruct (words_for_bounds image_size ltac:(lia)) as [? ?]. destruct (block_split p). lia.
Qed.

Lemma good_allocation ab c ta constraints k blocks c' ta' x :
  bitmap_ok ab → central_ok ab c → tx_ok ab c ta → allocation ab image_layout image_size k c ta constraints blocks c' ta' x →
  (∀ e, x = inr e → fresh_blocks k ta blocks) → good_step ab c ta c' ta'.
Proof.
  intros Hab [Hc Hcq] Hok (Hc' & Hfits & (_ & _ & Hav) & Hx) Hfresh. destruct x as [bs|e].
  - destruct Hx as (-> & Hreg & Hcl). pose proof Hok as (H1 & H2 & H3 & H4).
    assert (∀ p, ok_at (base_bit ab p) (prefree ab j p) (has (central_allocs c') p) (pa ta' p) (pf ta' p) (ja ta' p) (jf ta' p) = true ∧
      (prefree ab j p = true → owned ta' p = true → owned ta p = true ∨ has (central_allocs c) p = false)) as Hall.
    { intros p. unfold owned. rewrite (Hreg p). destruct (Hcl p) as (-> & -> & -> & ->).
      apply ok_claimed_at with (g := match constraints with Regular => true | _ => false end);
        [done|apply prefree_not_base|apply Hcq|intros ?; by apply allocatable_at, Hav|by destruct constraints]. }
    split; [split; [done|]|split; [|split; [split; [done|split; [|split; [|intros p; apply Hall]]]|intros p; apply Hall]]]; intros p.
    + rewrite (Hreg p), orb_true_iff, andb_true_iff. intros [?|[_ ?]]; auto.
    + intros Hp. by rewrite (Hreg p), Hp.
    + destruct (Hcl p) as (-> & _). intros [?|[Hp _]%andb_true_iff]%orb_true_iff; [by apply H2|]. apply Hav in Hp as [? _]. apply image_in_bitmap; [done|lia].
    + destruct (Hcl p) as (_ & _ & -> & _). intros [? _]%andb_true_iff. by apply H3.
  - destruct Hx as (_ & Hun & Hsame). specialize (Hfresh e eq_refl).
    assert (∀ p, has (central_allocs c') p = has (central_allocs c) p) as Heq.
    { intros p. specialize (Hun p). destruct (in_blocks k blocks p) eqn:Hp; [|done]. destruct (Hfresh p Hp) as [Hpf Hjf].
      destruct (allocatable_at ab c ta constraints p (Hav p Hp)) as [Hbad|[_ Hcen]]; [by rewrite Hpf, Hjf, andb_false_r in Hbad|].
      rewrite !orb_false_iff in Hcen. destruct Hcen as (_ & _ & Hcen). rewrite Hcen in *. apply not_true_iff_false. intros ?%Hun. done. }
    apply good_same; [|intros p; by rewrite Heq|done|done|done]. split; [done|]. intros p. rewrite Heq. apply Hcq.
Qed.

(** What a step does to the sets of a transaction. *)
Inductive tx_effect ab c ta ta' : Prop :=
| effect_same : same_sets ta ta' → tx_effect ab c ta ta'
| effect_freed S : freed ab S ta ta' → (∀ p, S p = true → view ab ta p = true) → tx_effect ab c ta ta'
| effect_restored S : restored ab S ta ta' → (∀ p, S p = true → pf ta p = true) → tx_effect ab c ta ta'
| effect_released S : released S ta ta' → (∀ p, S p = true → ja ta p = true) → tx_effect ab c ta ta'
| effect_claimed constraints k blocks :
    claimed constraints k ta blocks ta' →
    (∀ p, in_blocks k blocks p = true → allocatable ab (search_allocs c ta) (search_frees ta constraints) image_size p) →
    tx_effect ab c ta ta'.

Lemma image_blocks_63 k blocks : image_blocks image_size k blocks → 0 ≤ k ≤ 6 ∧ Forall (λ b, block_ok k b ∧ b + 2 ^ k < 2 ^ 63) blocks.
Proof. intros [Hk Hok]. split; [done|]. eapply Forall_impl; [exact Hok|]. cbn. intros b [? ?]. split; [done|lia]. Qed.

Lemma view_not_free ab c ta p : tx_ok ab c ta → view ab ta p = true → pf ta p = false.
Proof.
  intros (_ & _ & _ & Hp) Hv. specialize (Hp p). unfold view in Hv. revert Hp Hv. unfold ok_at.
  generalize (base_bit ab p) (prefree ab j p) (has (central_allocs c) p) (pa ta p) (pf ta p) (ja ta p) (jf ta p). intros. bool_cases.
Qed.
Lemma tx_ok_disjoint ab c ta constraints :
  tx_ok ab c ta → disjoint_sets (pending_frees ta) (target ta constraints) ∧ disjoint_sets (journal_frees ta) (target ta constraints) ∧
  disjoint_sets (journal_allocs ta) (journal_frees ta).
Proof.
  intros (_ & _ & _ & Hok). split_and!; intros p; specialize (Hok p); revert Hok; unfold ok_at, target;
  generalize (base_bit ab p) (prefree ab j p) (has (central_allocs c) p); destruct constraints;
  generalize (pa ta p) (pf ta p) (ja ta p) (jf ta p); intros; bool_cases.
Qed.

Lemma allocation_effect ab c ta constraints k blocks c' ta' x :
  allocation ab image_layout image_size k c ta constraints blocks c' ta' x → tx_effect ab c ta ta'.
Proof.
  intros (_ & _ & (_ & _ & Hav) & Hx). destruct x as [bs|e]; [|apply effect_same; tauto].
  destruct Hx as (-> & _ & Hcl). by eapply effect_claimed.
Qed.

Lemma tx_step_effect ab c tx c' tx' :
  bitmap_ok ab → central_ok ab c → tx_ok ab c (allocs tx) → tx_step image_layout image_size ab c tx c' tx' →
  good_step ab c (allocs tx) c' (allocs tx') ∧ tx_effect ab c (allocs tx) (allocs tx').
Proof.
  intros Hab Hc Hok Hstep. pose proof Hab as (Hwf & Hus & Hlen). pose proof Hok as (Hfits & _). pose proof Hc as [Hcf _].
  assert (∀ ta', ta_fits ta' → same_sets (allocs tx) ta' → good_step ab c (allocs tx) c ta' ∧ tx_effect ab c (allocs tx) ta') as Hsame.
  { intros ta' ? ?. split; [by apply good_same|by apply effect_same]. }
  assert (∀ S ta', ta_fits ta' → freed ab S (allocs tx) ta' → (∀ p, S p = true → view ab (allocs tx) p = true) →
    good_step ab c (allocs tx) c ta' ∧ tx_effect ab c (allocs tx) ta') as Hfreed.
  { intros S ta' ? ? ?. split; [by eapply good_freed|by eapply effect_freed]. }
  assert (∀ S ta', ta_fits ta' → restored ab S (allocs tx) ta' → (∀ p, S p = true → pf (allocs tx) p = true) →
    good_step ab c (allocs tx) c ta' ∧ tx_effect ab c (allocs tx) ta') as Hrestored.
  { intros S ta' ? ? ?. split; [by eapply good_restored|by eapply effect_restored]. }
  destruct tx as [ta u].
  destruct Hstep as [Alloc k cst c' ta' x found Hk Heq Hfind Hfresh|Alloc k n cst c' ta' x found Hk Heq Hfind Hfresh|Alloc k b ta' u' x Hb Hg Heq|
    Alloc k blocks ta' u' x Hb Hg Heq|k b tx' Hb Hg Heq|k blocks tx' Hb Hg Heq|k b tx' Hb Hg Heq|k blocks tx' Hb Hg Heq|Alloc blocks ta' Hb Hg Heq| |];
    cbn [allocs auth_tree_data_blocks_update_states] in *.
  - edestruct (allocate_block_spec (Alloc:=Alloc) ab image_layout image_size k) as (c1 & ta1 & x1 & found1 & Heq1 & Hf & Hall & _); [done..|exact Hcf|exact Hfits|].
    rewrite Heq1 in Heq. rewrite Hf in Hfind. simplify_eq. split; [|by eapply allocation_effect].
    eapply good_allocation; [done..|]. intros e. destruct x; [done|]. intros [= <-]. by eapply Hfresh.
  - destruct (tx_ok_disjoint ab c ta cst Hok) as (? & ? & _).
    edestruct (allocate_blocks_spec (Alloc:=Alloc) ab image_layout image_size k) with (n:=n) as [(c1 & ta1 & x1 & found1 & Heq1 & Hf & _ & Hall)|Heq1];
      [done..|exact Hcf|exact Hfits|done|done| |rewrite Heq1 in Heq; done].
    rewrite Heq1 in Heq. rewrite Hf in Hfind. simplify_eq. split; [by eapply good_allocation|by eapply allocation_effect].
  - destruct (image_blocks_63 k [b] Hb) as [? Hb1]. rewrite Forall_singleton in Hb1.
    edestruct (free_block_effect (Alloc:=Alloc) ab k b) with (ta:=ta) (u:=u) as (ta1 & u1 & x1 & Heq1 & Hfits1 & Hx); [done..| |].
    { intros p Hp. eapply view_not_free; [done|auto]. }
    rewrite Heq1 in Heq. simplify_eq. destruct x as [[]|]; [by eapply Hfreed|destruct Hx; by apply Hsame].
  - destruct (image_blocks_63 k blocks Hb) as [? Hb1].
    edestruct (free_blocks_effect (Alloc:=Alloc) ab k blocks) with (ta:=ta) (u:=u) as (ta1 & u1 & x1 & Heq1 & Hfits1 & Hx); [done..| |].
    { intros p Hp. eapply view_not_free; [done|auto]. }
    rewrite Heq1 in Heq. simplify_eq. destruct x as [[]|]; [by eapply Hfreed|destruct Hx; by apply Hsame].
  - destruct (image_blocks_63 k [b] Hb) as [? Hb1]. rewrite Forall_singleton in Hb1.
    apply rollback_block_allocation_effect in Heq as [? ?]; [|done..]. eapply Hfreed; [done..|]. intros p Hp. unfold view. by rewrite Hg.
  - destruct (image_blocks_63 k blocks Hb) as [? Hb1].
    apply rollback_blocks_allocation_effect in Heq as [? ?]; [|done..]. eapply Hfreed; [done..|]. intros p Hp. unfold view. by rewrite Hg.
  - destruct (image_blocks_63 k [b] Hb) as [? Hb1]. rewrite Forall_singleton in Hb1.
    apply rollback_block_free_effect in Heq as [? ?]; [|done..]. by eapply Hrestored.
  - destruct (image_blocks_63 k blocks Hb) as [? Hb1].
    apply rollback_blocks_free_effect in Heq as [? ?]; [|done..]. by eapply Hrestored.
  - destruct (image_blocks_63 j blocks Hb) as [? Hb1]. destruct (tx_ok_disjoint ab c ta Regular Hok) as (_ & _ & Hdis).
    edestruct (release_staging_blocks_effect (Alloc:=Alloc) j blocks) with (ta:=ta) as (ta1 & Heq1 & Hfits1 & [Hx|Hx]); [done..| | |].
    { intros p Hp. by apply Hdis, Hg. }
    all: rewrite Heq1 in Heq; simplify_eq.
    + split; [by eapply good_released|by eapply effect_released].
    + by apply Hsame.
  - apply Hsame; [|done]. destruct Hfits as (? & ? & ? & ?). split; [by apply fits_reset|]. split; [by apply fits_reset|]. done.
  - by apply Hsame.
Qed.

(** *** The transaction that commits *)

Inductive commit_effect ab ta ta' : Prop :=
| commit_same : (∀ p, view ab ta' p = view ab ta p ∧ ja ta' p = ja ta p) → commit_effect ab ta ta'
| commit_released S : released S ta ta' → (∀ p, S p = true → ja ta p = true) → commit_effect ab ta ta'
| commit_staged S :
    staged S ta ta' → (∀ p, S p = true → base_bit ab p = false ∧ pa ta p = false ∧ ja ta p = false) → commit_effect ab ta ta'.

Lemma commit_ok_same ab ta ta' : commit_ok ab ta → ta_fits ta' → same_sets ta ta' → commit_ok ab ta' ∧ commit_effect ab ta ta'.
Proof.
  intros (H1 & H2 & H3 & H4) Hfits Heff. split.
  - split; [done|]. split; [intros p; destruct (Heff p) as (-> & _); apply H2|]. split; [intros p; destruct (Heff p) as (_ & -> & _); apply H3|].
    intros p. destruct (Heff p) as (-> & -> & -> & ->). apply H4.
  - apply commit_same. intros p. unfold view. by destruct (Heff p) as (-> & -> & -> & _).
Qed.

Lemma commit_step_effect ab tx tx' :
  bitmap_ok ab → commit_ok ab (allocs tx) → commit_step image_layout image_size ab tx tx' →
  commit_ok ab (allocs tx') ∧ commit_effect ab (allocs tx) (allocs tx').
Proof.
  intros (Hwf & Hus & Hlen) Hok Hstep. pose proof Hok as (Hfits & Hpa & Hpf & Hp). destruct tx as [ta u].
  destruct Hstep as [Alloc n ta' x Heq|Alloc blocks ta' Hb Hg Heq|ta' Heq|]; cbn [allocs] in *.
  - edestruct (allocate_staging_blocks_effect (Alloc:=Alloc) ab image_size j) with (ta:=ta) (n:=n) as (ta1 & x1 & Heq1 & Hfits1 & Hx); [done..| |].
    { intros p. specialize (Hp p). revert Hp. unfold commit_ok_at. generalize (base_bit ab p) (pa ta p) (pf ta p) (ja ta p) (jf ta p). intros. bool_cases. }
    rewrite Heq1 in Heq. simplify_eq. destruct x as [blocks|e]; [|by apply commit_ok_same]. destruct Hx as ((_ & _ & Hav) & _ & Heff).
    assert (∀ p, in_blocks j blocks p = true → jf ta p = true ∨ base_bit ab p = false ∧ pa ta p || ja ta p = false) as Hnew.
    { intros p (_ & [Hf|[? Ha]])%Hav; [left|right]; cbn [existsb] in *; by rewrite orb_false_r in *. }
    split; [|apply (commit_staged _ _ _ (in_blocks j blocks)); [done|]].
    + split; [done|]. split; [intros p; destruct (Heff p) as (-> & _); apply Hpa|]. split; [intros p; destruct (Heff p) as (_ & -> & _); apply Hpf|].
      intros p. destruct (Heff p) as (-> & -> & -> & ->). specialize (Hp p). specialize (Hnew p). revert Hp Hnew. unfold commit_ok_at.
      generalize (base_bit ab p) (pa ta p) (pf ta p) (ja ta p) (jf ta p) (in_blocks j blocks p). intros. bool_cases.
    + intros p Hs. specialize (Hp p). specialize (Hnew p Hs). revert Hp Hnew. unfold commit_ok_at.
      generalize (base_bit ab p) (pa ta p) (pf ta p) (ja ta p) (jf ta p). intros. bool_cases.
  - destruct (image_blocks_63 j blocks Hb) as [? Hb1].
    edestruct (release_staging_blocks_effect (Alloc:=Alloc) j blocks) with (ta:=ta) as (ta1 & Heq1 & Hfits1 & [Heff|Hx]); [done..| | |].
    { intros p Hs%Hg. specialize (Hp p). revert Hp Hs. unfold commit_ok_at. generalize (base_bit ab p) (pa ta p) (pf ta p) (ja ta p) (jf ta p). intros. bool_cases. }
    all: rewrite Heq1 in Heq; simplify_eq.
    2: by apply commit_ok_same.
    split; [|by eapply commit_released].
    split; [done|]. split; [intros p; destruct (Heff p) as (-> & _); apply Hpa|]. split; [intros p; destruct (Heff p) as (_ & -> & _); apply Hpf|].
    intros p. destruct (Heff p) as (-> & -> & -> & ->). specialize (Hp p). specialize (Hg p). revert Hp Hg. unfold commit_ok_at.
    generalize (base_bit ab p) (pa ta p) (pf ta p) (ja ta p) (jf ta p) (in_blocks j blocks p). intros. bool_cases.
  - destruct (normalize_effect ab Hwf Hus ta Hfits) as (ta1 & Heq1 & Hfits1 & Heff). rewrite Heq1 in Heq. simplify_eq. split.
    + split; [done|]. split; [intros p; destruct (Heff p) as (-> & _); intros [? _]%andb_true_iff; by apply Hpa|].
      split; [intros p; destruct (Heff p) as (_ & -> & _); intros [? _]%andb_true_iff; by apply Hpf|].
      intros p. destruct (Heff p) as (-> & -> & -> & ->). specialize (Hp p). revert Hp. unfold commit_ok_at.
      generalize (base_bit ab p) (pa ta p) (pf ta p) (ja ta p) (jf ta p). intros. bool_cases.
    + apply commit_same. intros p. unfold view. destruct (Heff p) as (-> & -> & -> & _). specialize (Hp p). revert Hp. unfold commit_ok_at.
      generalize (base_bit ab p) (pa ta p) (pf ta p) (ja ta p) (jf ta p). intros. bool_cases.
  - by apply commit_ok_same.
Qed.

Lemma commit_begin_ok ab c ta ta' :
  central_ok ab c → tx_ok ab c ta → merge_journal_frees c ta = Ok ta' → commit_ok ab ta' ∧ ∀ p, view ab ta' p = view ab ta p ∧ ja ta' p = ja ta p.
Proof.
  intros [Hc Hcq] (H1 & H2 & H3 & H4) Heq. destruct (merge_journal_frees_effect c ta Hc H1) as (ta1 & Heq1 & Hfits & Heff).
  rewrite Heq1 in Heq. simplify_eq. split.
  - split; [done|]. split; [intros p; destruct (Heff p) as (-> & _); apply H2|]. split; [intros p; destruct (Heff p) as (_ & -> & _); apply H3|].
    intros p. destruct (Heff p) as (-> & -> & -> & ->). specialize (H4 p). specialize (Hcq p). pose proof (prefree_not_base ab p) as Hq.
    revert H4 Hcq Hq. unfold ok_at, commit_ok_at.
    generalize (base_bit ab p) (prefree ab j p) (has (central_allocs c) p) (pa ta p) (pf ta p) (ja ta p) (jf ta p). intros. bool_cases.
  - intros p. unfold view. by destruct (Heff p) as (-> & -> & -> & _).
Qed.

Lemma apply_ok ab ta ab' :
  bitmap_ok ab → commit_ok ab ta → apply_changes ab ta = Ok ab' → bitmap_ok ab' ∧ ∀ p, base_bit ab' p = view ab ta p.
Proof.
  intros (Hwf & Hus & Hlen) (H1 & H2 & H3 & H4) Heq. destruct (apply_changes_effect ab Hwf Hus ta H1 H2 H3) as (ab1 & Heq1 & Hwf1 & Hl & Hb).
  rewrite Heq1 in Heq. simplify_eq. split; [split_and!; [done|by rewrite Hl..]|]. intros p. rewrite Hb. unfold view. apply orb_comm.
Qed.

Lemma new_has p : has SparseBitmap.new p = false.
Proof. apply Z.bits_0. Qed.
Lemma new_central_ok ab : central_ok ab sync_state_new.
Proof. split; [exact (fits_new Husize)|]. intros p. cbn [central_allocs sync_state_new]. by rewrite new_has. Qed.

Lemma new_tx_ok ab c : tx_ok ab c allocations_new.
Proof.
  pose proof (fits_new Husize) as Hn. split; [exact (conj Hn (conj Hn (conj Hn Hn)))|]. split; [intros p; cbn [pending_allocs allocations_new]; by rewrite new_has|].
  split; [intros p; cbn [pending_frees allocations_new]; by rewrite new_has|]. intros p. cbn [pending_allocs pending_frees journal_allocs journal_frees allocations_new].
  by rewrite new_has.
Qed.
Lemma new_not_owned p : owned allocations_new p = false.
Proof. unfold owned. cbn [pending_allocs pending_frees journal_allocs journal_frees allocations_new]. by rewrite new_has. Qed.

(** *** Preservation *)

Lemma initial_ok (s : System U) : initial image_size s → system_ok s.
Proof.
  intros (H1 & H2 & H3 & Hc & Hr & Hcm). destruct s as [ab c run com]. cbn in *. subst.
  split; [done|]. split; [apply new_central_ok|]. split; [done|]. split; done.
Qed.

Lemma step_ok (s s' : System U) : system_ok s → step image_layout image_size s s' → system_ok s'.
Proof.
  intros Hs Hstep. destruct Hstep as [ab c run u|ab c run i tx c' tx' Hi Htx|ab c run i|ab c run i tx c' acc ta' Hi Hg Hm|ab c run tx tx' Htx|ab c run tx ab' Heq|ab c run tx];
    pose proof Hs as (Hab & Hc & Hrun & Hiso & Hcom); cbn [alloc_bitmap sync_state running committing] in *.
  - split; [done|]. split; [done|]. split; [|split; [|done]]; cbn [alloc_bitmap sync_state running committing].
    + intros i tx [[_ ?]|[_ <-]]%lookup_snoc_Some; [by eapply Hrun|]. apply new_tx_ok.
    + intros i i' tx tx' p Hne Hi Hi' Hq Ho. apply lookup_snoc_Some in Hi as [[_ Hi]|[? <-]]; [|cbn in Ho; by rewrite new_not_owned in Ho].
      apply lookup_snoc_Some in Hi' as [[_ Hi']|[? <-]]; [|apply new_not_owned]. by eapply Hiso.
  - eapply good_step_system; [done..|]. apply tx_step_effect; [done..|by eapply Hrun|done].
  - split; [done|]. split; [done|]. split; [|split; [|done]]; cbn [alloc_bitmap sync_state running committing].
    + intros i' tx. rewrite list_lookup_delete. apply Hrun.
    + intros i1 i2 tx1 tx2 p Hne. rewrite !list_lookup_delete. intros H1 H2.
      eapply (Hiso _ _ tx1 tx2 p); [|exact H1|exact H2]. repeat case_decide; lia.
  - injection Hg as <- <-. split; [done|]. split; [apply new_central_ok|]. split; [done|]. split; [done|]. cbn. intros tx1 [= <-]. split; [done|].
    split; [done|]. by eapply commit_begin_ok; [|eapply Hrun|].
  - destruct (Hcom tx eq_refl) as (-> & -> & Hok). split; [done|]. split; [done|]. split; [done|]. split; [done|]. cbn. intros tx1 [= <-]. split; [done|].
    split; [done|]. by eapply commit_step_effect.
  - destruct (Hcom tx eq_refl) as (-> & -> & Hok). destruct (apply_ok ab (allocs tx) ab' Hab Hok Heq) as [Hab' _].
    split; [done|]. split; [apply new_central_ok|]. split; [done|]. split; done.
  - destruct (Hcom tx eq_refl) as (-> & -> & Hok). split; [done|]. split; [done|]. split; [done|]. split; done.
Qed.

Lemma reachable_ok (s0 s : System U) : initial image_size s0 → rtc (step image_layout image_size) s0 s → system_ok s.
Proof. intros H0%initial_ok. induction 1 as [|s1 s2 s3 Hstep _ IH]; [done|]. apply IH. by eapply step_ok. Qed.
End Invariant.

End TransactionSystem.
