(* ===== verification/TransactionSpec.v ===== *)
(** * What transactions promise about allocations

    The specification: a transaction starts from the committed allocations,
    changes its own view of them, and a commit makes its view the committed
    allocations.  Blocks for the journal are never ones with committed data, and
    a block that may be written to before the commit, because the journal block
    around it has no committed data, is used by one transaction at most.  The
    state machine of [TransactionSystem] refines it. *)

From stdpp Require Import relations.
From S2P Require Import Prelude Errors Layout ImageLayout SparseBitmap AllocBitmap FindFreeBlock SparseSets TransactionAllocs TransactionSystem.
Import Errors Layout SparseBitmap AllocBitmap FindFreeBlock SparseSets TransactionAllocs TransactionSystem.

Module TransactionSpec.

(** ** The specification *)

Record ATransaction := mk_atransaction { a_view : Z → bool; a_journal : Z → bool }.
Record ASystem := mk_asystem { a_committed : Z → bool; a_running : list ATransaction; a_committing : option ATransaction }.

Section Spec.
(** The base-2 logarithm of the size of a journal block. *)
Variable j : Z.

Definition free_journal_block (committed : Z → bool) (p : Z) : Prop := ∀ q, q / 2 ^ j = p / 2 ^ j → committed q = false.
Definition uses (x : ATransaction) (p : Z) : bool := a_view x p || a_journal x p.
(** No other transaction uses the block, if it may be written to. *)
Definition exclusive (committed : Z → bool) (run : list ATransaction) (i : nat) (p : Z) : Prop :=
  free_journal_block committed p → ∀ i' x', i' ≠ i → run !! i' = Some x' → uses x' p = false.

Inductive achange (committed : Z → bool) (run : list ATransaction) (i : nat) (x x' : ATransaction) : Prop :=
| a_none : (∀ p, a_view x' p = a_view x p ∧ a_journal x' p = a_journal x p) → achange committed run i x x'
| a_allocate S :
    (∀ p, S p = true → uses x p = false ∧ exclusive committed run i p) →
    (∀ p, a_view x' p = a_view x p || S p ∧ a_journal x' p = a_journal x p) → achange committed run i x x'
| a_allocate_journal S :
    (∀ p, S p = true → committed p = false ∧ uses x p = false ∧ exclusive committed run i p) →
    (∀ p, a_view x' p = a_view x p ∧ a_journal x' p = a_journal x p || S p) → achange committed run i x x'
| a_free S :
    (∀ p, S p = true → a_view x p = true) →
    (∀ p, a_view x' p = a_view x p && negb (S p) ∧ a_journal x' p = a_journal x p) → achange committed run i x x'
| a_free_journal S :
    (∀ p, S p = true → a_journal x p = true) →
    (∀ p, a_view x' p = a_view x p ∧ a_journal x' p = a_journal x p && negb (S p)) → achange committed run i x x'.

Inductive astep : ASystem → ASystem → Prop :=
| a_begin committed run x :
    (∀ p, a_view x p = committed p ∧ a_journal x p = false) →
    astep (mk_asystem committed run None) (mk_asystem committed (run ++ [x]) None)
| a_change committed run i x x' :
    run !! i = Some x → achange committed run i x x' → astep (mk_asystem committed run None) (mk_asystem committed (<[i := x']> run) None)
| a_drop committed run i : astep (mk_asystem committed run None) (mk_asystem committed (delete i run) None)
| a_commit_begin committed run i x x' :
    run !! i = Some x → (∀ p, a_view x' p = a_view x p ∧ a_journal x' p = a_journal x p) →
    astep (mk_asystem committed run None) (mk_asystem committed [] (Some x'))
| a_commit_change committed x x' :
    achange committed [] 0 x x' → astep (mk_asystem committed [] (Some x)) (mk_asystem committed [] (Some x'))
| a_commit committed x committed' :
    (∀ p, committed' p = a_view x p) → astep (mk_asystem committed [] (Some x)) (mk_asystem committed' [] None)
| a_abort committed x : astep (mk_asystem committed [] (Some x)) (mk_asystem committed [] None).
End Spec.

(** ** The abstraction *)

Definition abs_tx (ab : AllocBitmap) (ta : TransactionAllocations) : ATransaction :=
  mk_atransaction (view ab ta) (λ p, ja ta p).
Definition abs {U} (s : System U) : ASystem :=
  mk_asystem (base_bit (alloc_bitmap s)) ((λ tx, abs_tx (alloc_bitmap s) (allocs tx)) <$> running s)
    ((λ tx, abs_tx (alloc_bitmap s) (allocs tx)) <$> committing s).

(** The four sets at a block that is found: it is the transaction's own to use
    again, or free and unregistered. *)
Lemma claimable_at t q c a f x y g :
  ok_at t q c a f x y = true → (g && f) || y = true ∨ t = false ∧ a || (x || c) = false →
  (a || (t && negb f)) || x = false ∧ (a || f || x || y = true ∨ c = false) ∧ (g = false → t = false).
Proof. unfold ok_at. bool_cases. Qed.
Lemma restorable_at t q c a f x y :
  ok_at t q c a f x y = true → f = true → (a || (t && negb f)) || x = false ∧ a || f || x || y = true.
Proof. unfold ok_at. bool_cases. Qed.

Section Simulation.
Context {B : Build} {P : ImageLayout.Platform} {U : Type} `{UpdateStates U}.
Variables (image_layout : ImageLayout.ImageLayout) (image_size : Z).
Abbreviation j := (journal_block_log2 image_layout).
Hypothesis Husize : 1 ≤ usize_bits.
Hypothesis Hj : 0 ≤ j ≤ 6.
Hypothesis Hsize : 0 < image_size < 2 ^ 57.
Implicit Types (ab : AllocBitmap) (c : PendingTransactionsSyncState) (run : list (Transaction U)) (tx : Transaction U) (ta : TransactionAllocations).

Abbreviation abs_run ab run := ((λ tx, abs_tx ab (allocs tx)) <$> run).

Lemma free_journal_block_prefree ab p : free_journal_block j (base_bit ab) p → prefree ab j p = true.
Proof. intros Hp. apply prefree_spec; [lia|done]. Qed.

(** A block of the transaction, or one that is not registered, is not used by
    another one. *)
Lemma exclusive_owned ab c run i tx p :
  system_ok image_layout image_size (mk_system ab c run None) → run !! i = Some tx →
  owned (allocs tx) p = true ∨ has (central_allocs c) p = false → exclusive j (base_bit ab) (abs_run ab run) i p.
Proof.
  intros (_ & _ & Hrun & Hiso & _) Hi Hp Hq%free_journal_block_prefree i' x' Hne Hi'. cbn in *.
  apply list_lookup_fmap_Some in Hi' as (tx' & -> & Hi').
  assert (owned (allocs tx') p = false) as Ho.
  { destruct Hp as [Ho|Hc]; [by eapply (Hiso i i')|]. apply not_true_iff_false. intros Ho.
    rewrite (owned_central image_layout ab c (allocs tx') p (Hrun _ _ Hi') Ho Hq) in Hc. done. }
  pose proof (prefree_not_base image_layout Hj ab p Hq) as Hb. unfold uses, view, owned in *. cbn. unfold view. rewrite Hb.
  rewrite !orb_false_iff in Ho. destruct Ho as (((-> & _) & ->) & _). done.
Qed.

Lemma simulate_effect ab c run i tx tx' :
  system_ok image_layout image_size (mk_system ab c run None) → run !! i = Some tx →
  tx_effect image_size ab c (allocs tx) (allocs tx') →
  achange j (base_bit ab) (abs_run ab run) i (abs_tx ab (allocs tx)) (abs_tx ab (allocs tx')).
Proof.
  intros Hs Hi Heff. pose proof Hs as (_ & _ & Hrun & _). destruct (Hrun i tx Hi) as (_ & _ & _ & Hok). cbn [alloc_bitmap sync_state] in Hok.
  destruct Heff as [Heff|S Heff Hg|S Heff Hg|S Heff Hg|cst k blocks Heff Hav].
  - apply a_none. intros p. cbn. unfold view. by destruct (Heff p) as (-> & -> & -> & _).
  - apply a_free with S; [done|]. intros p. cbn. specialize (Hg p). unfold view in *. destruct (Heff p) as (-> & -> & _ & Hf). revert Hf Hg.
    generalize (base_bit ab p) (pa (allocs tx) p) (pf (allocs tx) p) (pf (allocs tx') p) (S p). intros. bool_cases.
  - apply a_allocate with S.
    + intros p Hp. destruct (restorable_at _ _ _ _ _ _ _ (Hok p) (Hg p Hp)) as [Hu Ho]. split; [done|].
      eapply exclusive_owned; [done..|by left].
    + intros p. cbn. specialize (Hg p). unfold view. destruct (Heff p) as (-> & -> & _ & Ha). revert Ha Hg.
      generalize (base_bit ab p) (pa (allocs tx) p) (pf (allocs tx) p) (pa (allocs tx') p) (S p). intros. bool_cases.
  - apply a_free_journal with S; [done|]. intros p. cbn. unfold view. by destruct (Heff p) as (-> & -> & -> & _).
  - assert (∀ p, in_blocks k blocks p = true → (is_journal cst = true → base_bit ab p = false) ∧
      uses (abs_tx ab (allocs tx)) p = false ∧ exclusive j (base_bit ab) (abs_run ab run) i p) as Hnew.
    { intros p Hp. destruct (claimable_at _ _ _ _ _ _ _ _ (Hok p) (allocatable_at image_size ab c (allocs tx) cst p (Hav p Hp))) as (Hu & Ho & Ht).
      split; [intros ?; apply Ht; by destruct cst|]. split; [done|]. by eapply exclusive_owned. }
    assert (∀ p, uses (abs_tx ab (allocs tx)) p = false ∧ (is_journal cst = true → base_bit ab p = false) ∨ in_blocks k blocks p = false) as Hfree
      by (intros p; destruct (in_blocks k blocks p) eqn:Hp; [left; apply Hnew in Hp; tauto|by right]).
    destruct (is_journal cst) eqn:Hcst; [apply a_allocate_journal with (in_blocks k blocks)|apply a_allocate with (in_blocks k blocks)];
      [intros p Hp; destruct (Hnew p Hp) as (? & ? & ?); auto| |intros p Hp; apply Hnew in Hp; tauto|];
      intros p; specialize (Hfree p); revert Hfree; unfold uses; cbn; unfold view; destruct (Heff p) as (-> & -> & -> & _); rewrite Hcst;
      generalize (base_bit ab p) (pa (allocs tx) p) (pf (allocs tx) p) (ja (allocs tx) p) (in_blocks k blocks p); intros; bool_cases.
Qed.

Lemma simulate_commit ab tx tx' :
  commit_effect ab (allocs tx) (allocs tx') → commit_ok ab (allocs tx) →
  achange j (base_bit ab) [] 0 (abs_tx ab (allocs tx)) (abs_tx ab (allocs tx')).
Proof.
  intros Heff _. destruct Heff as [Heff|S Heff Hg|S Heff Hg].
  - by apply a_none.
  - apply a_free_journal with S; [done|]. intros p. cbn. unfold view. by destruct (Heff p) as (-> & -> & -> & _).
  - apply a_allocate_journal with S.
    + intros p Hp. destruct (Hg p Hp) as (Hb & Ha & Hx). split; [done|]. split; [|by intros _ i' x' _ ?].
      unfold uses. cbn. unfold view. by rewrite Hb, Ha, Hx.
    + intros p. cbn. unfold view. by destruct (Heff p) as (-> & -> & -> & _).
Qed.

Lemma simulation (s s' : System U) :
  system_ok image_layout image_size s → step image_layout image_size s s' → astep j (abs s) (abs s').
Proof.
  intros Hs Hstep. destruct Hstep as [ab c run u|ab c run i tx c' tx' Hi Htx|ab c run i|ab c run i tx c' acc ta' Hi Hg Hm|ab c run tx tx' Htx|ab c run tx ab' Heq|ab c run tx];
    pose proof Hs as (Hab & Hc & Hrun & _ & Hcom); cbn [alloc_bitmap sync_state running committing] in *; unfold abs;
    cbn [alloc_bitmap sync_state running committing].
  - rewrite fmap_app. apply a_begin. intros p. cbn. unfold view. cbn [pending_allocs pending_frees journal_allocs allocations_new].
    rewrite new_has. split; [by rewrite andb_true_r|apply new_has].
  - rewrite list_fmap_insert. eapply a_change; [by rewrite list_lookup_fmap, Hi|].
    eapply simulate_effect; [done..|]. eapply tx_step_effect; [done..|by eapply Hrun|done].
  - rewrite list_fmap_delete. apply a_drop.
  - injection Hg as <- <-. eapply a_commit_begin; [by rewrite list_lookup_fmap, Hi|]. intros p. cbn.
    eapply commit_begin_ok; try done. by eapply Hrun.
  - destruct (Hcom tx eq_refl) as (-> & -> & Hok). apply a_commit_change. apply simulate_commit; [|done]. by eapply commit_step_effect.
  - destruct (Hcom tx eq_refl) as (-> & -> & Hok). apply a_commit. intros p. cbn. by eapply apply_ok.
  - destruct (Hcom tx eq_refl) as (-> & -> & Hok). apply a_abort.
Qed.
End Simulation.
(** ** Results *)

Section Results.
Context {B : Build} {P : ImageLayout.Platform} {U : Type} `{UpdateStates U}.
Variables (image_layout : ImageLayout.ImageLayout) (image_size : Z).
Abbreviation j := (journal_block_log2 image_layout).
Implicit Types (ab : AllocBitmap) (c : PendingTransactionsSyncState) (tx : Transaction U) (ta : TransactionAllocations).



End Results.

(** *** Instances *)

#[export] Instance no_updates : UpdateStates unit := {|
  stage_block_deallocation_updates := λ u _ _, u;
  stage_blocks_deallocation_updates := λ u _ _, u;
  stage_extents_deallocation_updates := λ u _, u;
  reset_staged_block_updates := λ u _ _, u;
  reset_staged_blocks_updates := λ u _ _, u;
  reset_staged_extents_updates := λ u _, u;
  reset_staged_extents_updates_to_failed := λ u _, u;
|}.

Definition example_system : System unit := mk_system example_ab sync_state_new [] None.
Abbreviation example_step := (step (B:=debug_build) (P:=bits64) (U:=unit) example_layout 230).

Lemma example_system_initial : initial (P:=bits64) 230 example_system.
Proof. split; [apply example_ab_wf|]. split; [by vm_compute|]. split; [by vm_compute|]. done. Qed.

(** Two transactions: one allocates a block and frees another one, the other
    allocates for the journal. *)
Lemma example_reachable :
  ∃ s tx tx', rtc example_step example_system s ∧ committing s = None ∧ running s = [tx; tx'] ∧
    pa (allocs tx) 120 = true ∧ pf (allocs tx) 0 = true ∧ ja (allocs tx') 196 = true.
Proof.
  do 3 eexists. split.
  { eapply rtc_l; [apply (step_begin _ _ _ _ _ tt)|]. eapply rtc_l; [apply (step_begin _ _ _ _ _ tt)|]. cbn [app].
    eapply rtc_l; [eapply (step_tx _ _ _ _ _ 0%nat); [done|]; eapply (step_allocate_block _ _ _ _ _ ample 2 Regular);
      [lia|by vm_compute|by vm_compute|done]|]. cbn [insert list_insert].
    eapply rtc_l; [eapply (step_tx _ _ _ _ _ 1%nat); [done|]; eapply (step_allocate_block _ _ _ _ _ ample 2 Journal);
      [lia|by vm_compute|by vm_compute|done]|]. cbn [insert list_insert].
    eapply rtc_l; [eapply (step_tx _ _ _ _ _ 0%nat); [done|]; eapply (step_free_block _ _ _ _ _ ample 2 0); [| |by vm_compute]|apply rtc_refl].
    - split; [lia|]. constructor; [|constructor]. split; [split; [lia|split; [by exists 0|lia]]|lia].
    - intros p (b & ->%list_elem_of_singleton & Hp)%in_blocks_spec. change (2 ^ 2) with 4 in Hp.
      assert (p = 0 ∨ p = 1 ∨ p = 2 ∨ p = 3) as Hq by lia. destruct_or! Hq; subst p; by vm_compute. }
  split; [done|]. split; [done|]. split; [by vm_compute|]. split; [by vm_compute|]. by vm_compute.
Qed.




End TransactionSpec.
