(* ===== verification/AuthTreeShape.v ===== *)
(** * The shape of the authentication tree (storage/src/fs/cocoonfs/auth_tree.rs)

    The arithmetic that lays out the authentication tree: the number of nodes of
    a subtree, the position of a node on storage, the height of a tree with a given
    number of nodes and the data it covers, and the tree for an image of a given
    size.  Throughout, [c] stands for [node_digests_per_node_log2], [d] for
    [data_digests_per_node_log2], [inv] for
    [node_digests_per_node_minus_one_inv_mod_u64], [nb] for
    [node_allocation_blocks_log2] and [a] for [data_block_allocation_blocks_log2]. *)

From S2P Require Import Prelude BitManip Errors ImageLayout.
Import BitManip Errors ImageLayout.

Module AuthTreeShape.

Abbreviation res := (outcome NvFsError).

Definition wrapping_mul (w a b : Z) : Z := wrap w (a * b).
(** [u64::ilog2]; it panics for zero. *)
Definition ilog2 (x : Z) : res Z := if x =? 0 then Panic else Ok (Z.log2 x).
(** [/] on unsigned integers. *)
Definition udiv (x y : Z) : res Z := if y =? 0 then Panic else Ok (x / y).

Section Code.
Context {B : Build} {P : Platform}.

(** ** Node counts *)

(** The Hensel lifting; [e] doubles in every round, so that six suffice. *)
Fixpoint hensel_loop (fuel : nat) (m inv e : Z) : res Z :=
  if e <? 64 then
    match fuel with
    | O => Diverge
    | S fuel =>
        let! t := ushl 64 inv 1 in
        let inv := wrapping_sub 64 t (wrapping_mul 64 (wrapping_mul 64 m inv) inv) in
        let! e := umul 32 e 2 in
        hensel_loop fuel m inv e
    end
  else Ok inv.

Definition digests_per_node_minus_one_inv_mod_u64 (digests_per_node_log2 : Z) : res Z :=
  let! m := trailing_bits_mask_u 64 digests_per_node_log2 in
  let! _ := debug_assert (Z.land (wrapping_mul 64 m m) m =? 1) in
  let! inv := hensel_loop 6 m m digests_per_node_log2 in
  let! _ := debug_assert (wrapping_mul 64 inv m =? 1) in
  Ok inv.

(** The function calls itself at most once. *)
Fixpoint subtree_node_count_rec (fuel : nat) (subtree_root_level auth_tree_levels c inv : Z) : res Z :=
  match fuel with
  | O => Diverge
  | S fuel =>
      let! _ := debug_assert (1 <=? auth_tree_levels) in
      let! _ := debug_assert (subtree_root_level <? auth_tree_levels) in
      let! _ := debug_check (let! m := trailing_bits_mask_u 64 c in Ok (wrapping_mul 64 m inv =? 1)) in
      let! is_root :=
        (if 2 <=? auth_tree_levels then let! t := usub 8 auth_tree_levels 1 in Ok (subtree_root_level =? t) else Ok false) in
      if is_root : bool then
        let! level := usub 8 auth_tree_levels 2 in
        let! n := subtree_node_count_rec fuel level auth_tree_levels c inv in
        let! children := ushl 64 1 c in
        let! n := umul 64 n children in
        uadd 64 n 1
      else
        let! height := uadd 8 subtree_root_level 1 in
        let! _ := debug_check (let! bits := umul 32 height c in Ok (bits <=? 64)) in
        let! bits := umul 32 height c in
        let! mask := trailing_bits_mask_u 64 bits in
        Ok (wrapping_mul 64 mask inv)
  end.
Definition auth_subtree_node_count (subtree_root_level auth_tree_levels c inv : Z) : res Z :=
  subtree_node_count_rec 2 subtree_root_level auth_tree_levels c inv.

(** ** The position of a node *)

(** The loop over the [n] parent levels. *)
Fixpoint dfs_pre_loop (n : nat) (index node_dfs_pre_index entry_subtree_node_count child_entry_index_mask c : Z) : res Z :=
  match n with
  | O => Ok node_dfs_pre_index
  | S n =>
      let entry_in_parent_node := Z.land index child_entry_index_mask in
      let! index := ushr 64 index c in
      let! siblings := umul 64 entry_subtree_node_count entry_in_parent_node in
      let! node_dfs_pre_index := uadd 64 node_dfs_pre_index siblings in
      let! node_dfs_pre_index := uadd 64 node_dfs_pre_index 1 in
      let! t := ushl 64 entry_subtree_node_count c in
      dfs_pre_loop n index node_dfs_pre_index (wrapping_add 64 t 1) child_entry_index_mask c
  end.

Definition auth_tree_node_dfs_pre_index (covered_data_block_index level auth_tree_levels c inv d : Z) : res (Z * Z) :=
  let! _ := debug_assert (0 <? auth_tree_levels) in
  let! _ := debug_assert (level <? auth_tree_levels) in
  let! child_entry_index_mask := trailing_bits_mask_u 64 c in
  let! '(index, entry_in_node_index) :=
    (if negb (level =? 0) then
       let! below := usub 8 level 1 in
       let! below_bits := umul 32 below c in
       let! bits := uadd 32 below_bits d in
       let! index := ushr 64 covered_data_block_index bits in
       let! t := ushr 64 index c in
       Ok (t, Z.land index child_entry_index_mask)
     else
       let! t := ushr 64 covered_data_block_index d in
       let! mask := trailing_bits_mask_u 64 d in
       Ok (t, Z.land covered_data_block_index mask)) in
  let entry_in_node_index := wrap usize_bits entry_in_node_index in
  let! next_level := uadd 8 level 1 in
  if next_level =? auth_tree_levels then Ok (0, entry_in_node_index)
  else
    let! entry_subtree_node_count := auth_subtree_node_count level auth_tree_levels c inv in
    let! node_dfs_pre_index :=
      dfs_pre_loop (Z.to_nat (auth_tree_levels - next_level)) index 0 entry_subtree_node_count child_entry_index_mask c in
    Ok (node_dfs_pre_index, entry_in_node_index).

(** ** The dimensions of a tree with a given number of nodes *)

Definition auth_tree_node_count_to_auth_tree_levels (auth_tree_node_count c d a : Z) : res Z :=
  if auth_tree_node_count =? 0 then Err (from_format InvalidAuthTreeDimensions)
  else
    let! _ := debug_assert ((0 <? c) && (c <=? 64)) in
    let! t := usub 32 64 d in
    let! t := usub 32 t a in
    let! t := uadd 32 t c in
    let max_auth_tree_levels := wrap 8 (div_ceil (Z.min 64 t) c) in
    let! t :=
      (if negb (c =? 64) then
         let! n := usub 64 auth_tree_node_count 1 in
         let! n := ushr 64 n c in
         usub 64 auth_tree_node_count n
       else Ok auth_tree_node_count) in
    let! _ := debug_assert (negb (t =? 0)) in
    let! t := round_up_next_pow2 64 t in
    match t with
    | None => Ok max_auth_tree_levels
    | Some t =>
        let! t := ilog2 t in
        let levels_minus_one := wrap 8 (div_ceil t c) in
        let! levels := uadd 8 levels_minus_one 1 in
        Ok (Z.min levels max_auth_tree_levels)
    end.

(** The loop from the root down; every round moves down a level. *)
Fixpoint max_covered_loop (fuel : nat) (auth_tree_node_count level entry_subtree_node_count max_covered_data_block_count
    auth_tree_levels c d : Z) : res Z :=
  if (1 <? level) && negb (auth_tree_node_count =? 0) then
    match fuel with
    | O => Diverge
    | S fuel =>
        if auth_tree_node_count <? level then Ok max_covered_data_block_count
        else
          let! level := usub 8 level 1 in
          let! auth_tree_node_count := usub 64 auth_tree_node_count 1 in
          let! t := usub 64 entry_subtree_node_count 1 in
          let! entry_subtree_node_count := ushr 64 t c in
          let! full_entries_in_node := udiv auth_tree_node_count entry_subtree_node_count in
          let! _ := debug_check (let! t := ushl 64 1 c in Ok (full_entries_in_node <=? t)) in
          let! full := umul 64 full_entries_in_node entry_subtree_node_count in
          let! auth_tree_node_count := usub 64 auth_tree_node_count full in
          let! below := usub 8 level 1 in
          let! below_bits := umul 32 below c in
          let! bits := uadd 32 below_bits d in
          let! _ := debug_assert (bits <? 64) in
          let! top := usub 8 auth_tree_levels 1 in
          let! overflows :=
            (if level =? top then
               let! t := usub 32 64 bits in
               let! t := ushl 64 1 t in
               Ok (t <=? full_entries_in_node)
             else
               let! _ := debug_check (let! t := ushl 64 1 c in Ok (full_entries_in_node <? t)) in
               Ok false) in
          if overflows : bool then Ok (2 ^ 64 - 1)
          else
            let! covered := ushl 64 full_entries_in_node bits in
            match checked_add 64 max_covered_data_block_count covered with
            | None => err_internal
            | Some max_covered_data_block_count =>
                max_covered_loop fuel auth_tree_node_count level entry_subtree_node_count max_covered_data_block_count
                  auth_tree_levels c d
            end
    end
  else
    let! _ := debug_assert (auth_tree_node_count =? 0) in
    Ok max_covered_data_block_count.

Definition auth_tree_node_count_to_max_covered_data_block_count (auth_tree_node_count auth_tree_levels c inv d a : Z) : res Z :=
  if auth_tree_node_count =? 0 then Err (from_format InvalidAuthTreeDimensions)
  else
    let! _ := debug_assert ((0 <? c) && (c <? 64)) in
    let! _ := debug_assert ((0 <? d) && (d <? 64)) in
    let! _ := debug_check
      (match auth_tree_node_count_to_auth_tree_levels auth_tree_node_count c d a with
       | Ok levels => Ok (auth_tree_levels =? levels)
       | Err _ | Panic => Panic
       | Diverge => Diverge
       end) in
    if auth_tree_levels =? 1 then
      let! _ := debug_assert (auth_tree_node_count =? 1) in
      ushl 64 1 d
    else
      let! root_level := usub 8 auth_tree_levels 1 in
      let! entry_subtree_node_count := auth_subtree_node_count root_level auth_tree_levels c inv in
      max_covered_loop (Z.to_nat auth_tree_levels) auth_tree_node_count auth_tree_levels entry_subtree_node_count 0
        auth_tree_levels c d.
End Code.

Section ImageCode.
Context {B : Build} {P : Platform}.

(** ** The tree for an image of a given size *)

(** One addition of [x] to the quotient and remainder [q], [r] of a division by
    [v], where [x < v]. *)
Definition div_step (v q r x : Z) : res (Z * Z) :=
  let! t := usub 64 v r in
  if t <=? x then
    let! q := uadd 64 q 1 in
    let! r := usub 64 x t in
    Ok (q, r)
  else
    let! r := uadd 64 r x in
    Ok (q, r).
(** The doubling of the remainder. *)
Definition double_step (v q r : Z) : res (Z * Z) :=
  let! q := ushl 64 q 1 in
  let! t := usub 64 v r in
  if t <=? r then
    let! q := uadd 64 q 1 in
    let! r := usub 64 r t in
    Ok (q, r)
  else
    let! r := ushl 64 r 1 in
    Ok (q, r).
(** [u * r / v] for [u] with [n + 1] bits set. *)
Fixpoint mul_div_loop (n : nat) (v r q_ur r_ur : Z) : res (Z * Z) :=
  match n with
  | O => Ok (q_ur, r_ur)
  | S n =>
      let! '(q_ur, r_ur) := double_step v q_ur r_ur in
      let! '(q_ur, r_ur) := div_step v q_ur r_ur r in
      mul_div_loop n v r q_ur r_ur
  end.

(** The quotient [(u * image_allocation_blocks + b) / v], rounded up. *)
Definition levels_quotient (image_allocation_blocks c d nb a node_digests_per_node node_allocation_blocks : Z) : res Z :=
  let! u := usub 64 node_digests_per_node 1 in
  let! t := uadd 32 c nb in
  let! v1 := ushl 64 1 t in
  let! t := uadd 32 d a in
  let! v2 := ushl 64 u t in
  let! v := uadd 64 v1 v2 in
  let! _ := debug_assert (u <? v) in
  let! q := udiv image_allocation_blocks v in
  let! _ := debug_assert (negb (q =? 0)) in
  let! t := umul 64 v q in
  let! r := usub 64 image_allocation_blocks t in
  let! q := umul 64 q u in
  let! _ := debug_assert (r <=? Z.shiftr (2 ^ 64 - 1) 1) in
  let! '(q_ur, r_ur) := mul_div_loop (Z.to_nat (c - 1)) v r 0 r in
  let! q := uadd 64 q q_ur in
  let! '(q, r) := div_step v q r_ur node_allocation_blocks in
  if negb (r =? 0) then uadd 64 q 1 else Ok q.

(** A level less if the root would have a single child only. *)
Definition reduce_levels (image_allocation_blocks auth_tree_levels c inv d nb a : Z) : res Z :=
  if 1 <? auth_tree_levels then
    let! root_entry_level := usub 8 auth_tree_levels 2 in
    let! t := usub 8 auth_tree_levels 1 in
    let! root_entry_subtree_node_count := auth_subtree_node_count root_entry_level t c inv in
    let! t := umul 32 root_entry_level c in
    let! t := uadd 32 t d in
    let! t := uadd 32 t a in
    let! root_entry_subtree_data_allocation_blocks := ushl 64 1 t in
    let! t := ushl 64 root_entry_subtree_node_count nb in
    let! root_entry_subtree_total_allocation_blocks := uadd 64 t root_entry_subtree_data_allocation_blocks in
    let! _ := debug_assert (root_entry_subtree_total_allocation_blocks <? image_allocation_blocks) in
    let! rest := usub 64 image_allocation_blocks root_entry_subtree_total_allocation_blocks in
    let! path := ushl 64 auth_tree_levels nb in
    if rest <? path then usub 8 auth_tree_levels 1 else Ok auth_tree_levels
  else Ok auth_tree_levels.

Definition image_allocation_blocks_to_auth_tree_levels (image_allocation_blocks c inv d nb a : Z) : res Z :=
  let! node_digests_per_node := ushl 64 1 c in
  let! node_allocation_blocks := ushl 64 1 nb in
  if image_allocation_blocks <? node_allocation_blocks then Err (from_format InvalidAuthTreeDimensions)
  else if image_allocation_blocks / 2 <? node_allocation_blocks then Ok 1
  else
    let! leaf_bits := uadd 32 d a in
    if 64 <=? leaf_bits then Ok 1
    else
      let! t := usub 64 image_allocation_blocks node_allocation_blocks in
      let! leaf_data := ushl 64 1 leaf_bits in
      if t <=? leaf_data then Ok 1
      else
        let! t := ushr 64 image_allocation_blocks nb in
        let! children := ushl 64 1 c in
        if t <=? children then Ok 2
        else
          let! t := uadd 32 c d in
          let! two_levels_bits := uadd 32 t a in
          if 64 <=? two_levels_bits then Ok 2
          else
            let! t := uadd 32 c nb in
            let! t := ushl 64 1 t in
            let! t := usub 64 image_allocation_blocks t in
            let! two_levels_data := ushl 64 1 two_levels_bits in
            if t <=? two_levels_data then Ok 2
            else
              let! q := levels_quotient image_allocation_blocks c d nb a node_digests_per_node node_allocation_blocks in
              let! q_log2 :=
                (if negb (q =? 1) then
                   let! t := usub 64 q 1 in
                   let! t := ilog2 t in
                   uadd 32 t 1
                 else Ok 0) in
              let! auth_tree_levels := uadd 8 (wrap 8 (div_ceil q_log2 c)) 1 in
              reduce_levels image_allocation_blocks auth_tree_levels c inv d nb a.

(** The loop from the root down, one round per level. *)
Fixpoint node_count_loop (n : nat) (level image_allocation_blocks auth_tree_node_count entry_subtree_node_count
    entry_subtree_data_allocation_blocks c nb : Z) : res (Z * Z * Z) :=
  match n with
  | O => Ok (level, auth_tree_node_count, image_allocation_blocks)
  | S n =>
      let! level := usub 8 level 1 in
      let! t := ushl 64 entry_subtree_node_count nb in
      let! entry_subtree_total_allocation_blocks := uadd 64 t entry_subtree_data_allocation_blocks in
      let! node_allocation_blocks := ushl 64 1 nb in
      let! image_allocation_blocks := usub 64 image_allocation_blocks node_allocation_blocks in
      let! auth_tree_node_count := uadd 64 auth_tree_node_count 1 in
      let! full_subtree_count := udiv image_allocation_blocks entry_subtree_total_allocation_blocks in
      let! t := umul 64 full_subtree_count entry_subtree_total_allocation_blocks in
      let! image_allocation_blocks := usub 64 image_allocation_blocks t in
      let! t := umul 64 full_subtree_count entry_subtree_node_count in
      let! auth_tree_node_count := uadd 64 auth_tree_node_count t in
      let! path := ushl 64 level nb in
      if image_allocation_blocks <? path then Ok (level, auth_tree_node_count, image_allocation_blocks)
      else
        let! '(entry_subtree_node_count, entry_subtree_data_allocation_blocks) :=
          (if negb (level =? 0) then
             let! t := usub 64 entry_subtree_node_count 1 in
             let! t := ushr 64 t c in
             let! t' := ushr 64 entry_subtree_data_allocation_blocks c in
             Ok (t, t')
           else Ok (entry_subtree_node_count, entry_subtree_data_allocation_blocks)) in
        node_count_loop n level image_allocation_blocks auth_tree_node_count entry_subtree_node_count
          entry_subtree_data_allocation_blocks c nb
  end.

Definition image_allocation_blocks_to_auth_tree_node_count (image_allocation_blocks auth_tree_levels c inv d nb a : Z)
    : res (Z * Z) :=
  let! node_allocation_blocks := ushl 64 1 nb in
  if image_allocation_blocks <? node_allocation_blocks then Ok (0, image_allocation_blocks)
  else
    let! '(entry_subtree_node_count, entry_subtree_data_allocation_blocks) :=
      (if 2 <=? auth_tree_levels then
         let! root_entry_level := usub 8 auth_tree_levels 2 in
         let! t := usub 8 auth_tree_levels 1 in
         let! count := auth_subtree_node_count root_entry_level t c inv in
         let! t := umul 32 root_entry_level c in
         let! t := uadd 32 t d in
         let! t := uadd 32 t a in
         let! data := ushl 64 1 t in
         Ok (count, data)
       else
         let! t := uadd 32 d a in
         let! data := ushl 64 1 t in
         Ok (0, data)) in
    let! '(level, auth_tree_node_count, image_allocation_blocks) :=
      node_count_loop (Z.to_nat auth_tree_levels) auth_tree_levels image_allocation_blocks 0 entry_subtree_node_count
        entry_subtree_data_allocation_blocks c nb in
    let! _ := debug_check
      (if negb (level =? 0) then Ok true else let! t := ushl 64 1 a in Ok (image_allocation_blocks <? t)) in
    Ok (auth_tree_node_count, image_allocation_blocks).
End ImageCode.

(** ** Complete trees *)

(** The number of nodes of a complete tree of height [h]. *)
Fixpoint nodes (c : Z) (h : nat) : Z :=
  match h with O => 0 | S h => 1 + 2 ^ c * nodes c h end.

(** The nodes of the complete subtree of height [h] whose root has the index [i]
    at its level, depth first with parents before their children: pairs of level
    and index. *)
Fixpoint preorder (c : Z) (h : nat) (i : Z) : list (nat * Z) :=
  match h with
  | O => []
  | S l => (l, i) :: mjoin ((λ j, preorder c l (i * 2 ^ c + j)) <$> seqZ 0 (2 ^ c))
  end.

Definition inverse (c inv : Z) : Prop := in_u 64 inv ∧ wrapping_mul 64 (2 ^ c - 1) inv = 1.

Lemma pow2_ge2 c : 1 ≤ c → 2 ≤ 2 ^ c.
Proof. intros. change 2 with (2 ^ 1) at 1. apply Z.pow_le_mono_r; lia. Qed.

Lemma pow2_divide n m : 0 ≤ n ≤ m → (2 ^ n | 2 ^ m).
Proof. intros. exists (2 ^ (m - n)). rewrite <-Z.pow_add_r by lia. f_equal. lia. Qed.

Lemma nodes_nonneg c h : 0 ≤ c → 0 ≤ nodes c h.
Proof. intros. induction h as [|h IH]; cbn [nodes]; [lia|]. pose proof (pow2_pos c). nia. Qed.

Lemma nodes_geometric c h : 0 ≤ c → (2 ^ c - 1) * nodes c h = 2 ^ (c * Z.of_nat h) - 1.
Proof.
  intros. induction h as [|h IH]; cbn [nodes]; [change (c * Z.of_nat 0) with (c * 0); rewrite !Z.mul_0_r; lia|].
  rewrite Nat2Z.inj_succ, Z.mul_succ_r, Z.pow_add_r by lia. nia.
Qed.

Lemma nodes_snoc c h : 0 ≤ c → nodes c (S h) = nodes c h + 2 ^ (c * Z.of_nat h).
Proof. intros. pose proof (nodes_geometric c h). cbn [nodes]. lia. Qed.

Lemma nodes_mono c h h' : 0 ≤ c → (h ≤ h')%nat → nodes c h ≤ nodes c h'.
Proof.
  intros Hc. induction 1 as [|h' Hle IH]; [lia|]. rewrite nodes_snoc by done.
  pose proof (pow2_pos (c * Z.of_nat h')). lia.
Qed.

Lemma nodes_pos c h : 0 ≤ c → (0 < h)%nat → 0 < nodes c h.
Proof. intros Hc Hh. pose proof (nodes_mono c 1 h Hc Hh) as Hm. cbn [nodes] in Hm. lia. Qed.

(** Below the limit on the height that the code computes, the nodes can be
    counted in 64 bits. *)
Lemma nodes_bound c h : 1 ≤ c → c * (Z.of_nat h - 1) ≤ 63 → nodes c h < 2 ^ 64.
Proof.
  intros Hc Hh. destruct h as [|h]; [done|]. pose proof (nodes_geometric c h ltac:(lia)) as Hg.
  pose proof (pow2_ge2 c Hc). pose proof (nodes_nonneg c h ltac:(lia)).
  assert (2 ^ (c * Z.of_nat h) ≤ 2 ^ 63) by (apply Z.pow_le_mono_r; lia).
  cbn [nodes]. change (2 ^ 64) with (2 * 2 ^ 63). nia.
Qed.

Lemma lookup_mjoin_equal {A} (ls : list (list A)) n i l p v :
  Forall (λ x, length x = n) ls → ls !! i = Some l → l !! p = Some v → mjoin ls !! (i * n + p)%nat = Some v.
Proof.
  intros Hls. revert i. induction Hls as [|x ls Hx Hls IH]; intros i Hi Hp; [done|]. destruct i as [|i]; cbn in *.
  - injection Hi as ->. by apply lookup_app_l_Some.
  - rewrite lookup_app_r by lia. rewrite <-(IH i Hi Hp). f_equal. lia.
Qed.

Lemma length_mjoin_equal {A} (ls : list (list A)) n : Forall (λ x, length x = n) ls → length (mjoin ls) = (length ls * n)%nat.
Proof. induction 1 as [|x ls Hx _ IH]; cbn; [done|]. rewrite length_app, Hx. f_equal. exact IH. Qed.

Lemma length_preorder c h : 0 ≤ c → ∀ i, length (preorder c h i) = Z.to_nat (nodes c h).
Proof.
  intros Hc. induction h as [|h IH]; intros i; cbn [preorder nodes length]; [done|].
  rewrite (length_mjoin_equal _ (Z.to_nat (nodes c h))) by (apply Forall_fmap, Forall_true; intros; apply IH).
  rewrite length_fmap, length_seqZ. pose proof (nodes_nonneg c h Hc). pose proof (pow2_pos c Hc).
  rewrite Z2Nat.inj_add, Z2Nat.inj_mul by nia. lia.
Qed.

(** Where the [e]-th child's subtree is in that of the parent. *)
Lemma preorder_child c h i e p v :
  0 ≤ c → 0 ≤ e < 2 ^ c → 0 ≤ p → preorder c h (i * 2 ^ c + e) !! Z.to_nat p = Some v →
  preorder c (S h) i !! Z.to_nat (p + nodes c h * e + 1) = Some v.
Proof.
  intros Hc He Hp Hv. pose proof (nodes_nonneg c h Hc).
  replace (Z.to_nat (p + nodes c h * e + 1)) with (S (Z.to_nat e * Z.to_nat (nodes c h) + Z.to_nat p))%nat by nia.
  cbn [preorder lookup list_lookup]. eapply (lookup_mjoin_equal _ _ _ (preorder c h (i * 2 ^ c + e))); [| |done].
  - apply Forall_fmap, Forall_true. intros. by apply length_preorder.
  - rewrite list_lookup_fmap, lookup_seqZ_lt by lia. cbn. do 2 f_equal. lia.
Qed.

(** ** Node counts and positions *)

Section Counts.
Context {B : Build} {P : Platform}.

Lemma inverse_mod c inv : inverse c inv → ((2 ^ c - 1) * inv) mod 2 ^ 64 = 1.
Proof. by intros [_ ?]. Qed.

(** Division of a multiple of [2^c - 1] by multiplication with the inverse. *)
Lemma inverse_divides c inv x : inverse c inv → in_u 64 x → wrapping_mul 64 ((2 ^ c - 1) * x) inv = x.
Proof.
  intros Hinv Hx. unfold wrapping_mul, wrap. replace ((2 ^ c - 1) * x * inv) with (x * ((2 ^ c - 1) * inv)) by ring.
  rewrite <-Z.mul_mod_idemp_r, inverse_mod, Z.mul_1_r by done. by apply Z.mod_small.
Qed.

(** One round of the lifting squares the distance from the inverse. *)
Lemma hensel_step m inv : ∃ k, m * wrapping_sub 64 (wrap 64 (Z.shiftl inv 1)) (wrapping_mul 64 (wrapping_mul 64 m inv) inv) =
  1 - (m * inv - 1) * (m * inv - 1) + k * 2 ^ 64.
Proof.
  unfold wrapping_sub, wrapping_mul. rewrite Z.shiftl_mul_pow2 by lia.
  destruct (wrap_eq 64 (inv * 2 ^ 1)) as [k1 ->]; [done|]. destruct (wrap_eq 64 (m * inv)) as [k2 ->]; [done|].
  destruct (wrap_eq 64 ((m * inv + k2 * 2 ^ 64) * inv)) as [k3 ->]; [done|].
  match goal with |- context [wrap 64 ?x] => destruct (wrap_eq 64 x) as [k4 ->]; [done|] end.
  exists (m * (k1 - k2 * inv - k3 + k4)). ring.
Qed.

Lemma hensel_loop_spec fuel : ∀ m inv e,
  1 ≤ e → 64 ≤ e * 2 ^ Z.of_nat fuel → e < 2 ^ 31 → (2 ^ Z.min e 64 | m * inv - 1) → in_u 64 inv →
  ∃ inv', hensel_loop fuel m inv e = Ok inv' ∧ in_u 64 inv' ∧ (2 ^ 64 | m * inv' - 1).
Proof.
  induction fuel as [|fuel IH]; intros m inv e He Hf He' Hdiv Hinv; cbn [hensel_loop].
  - zdec. exists inv. by replace (Z.min e 64) with 64 in Hdiv by lia.
  - destruct (Z.ltb_spec e 64); [|exists inv; by replace (Z.min e 64) with 64 in Hdiv by lia].
    rewrite ushl_Ok, umul_Ok by lia. cbn [obind]. rewrite Nat2Z.inj_succ, Z.pow_succ_r in Hf by lia.
    apply IH; [lia..| |by apply wrap_in_u]. replace (Z.min e 64) with e in Hdiv by lia. destruct Hdiv as [q Hq].
    destruct (hensel_step m inv) as [k ->]. rewrite Hq.
    replace (1 - q * 2 ^ e * (q * 2 ^ e) + k * 2 ^ 64 - 1) with (k * 2 ^ 64 - q * q * (2 ^ e * 2 ^ e)) by ring.
    rewrite <-Z.pow_add_r by lia. apply Z.divide_sub_r; apply Z.divide_mul_r, pow2_divide; lia.
Qed.

(** The lifting computes the inverse of [2^c - 1]. *)
Lemma minus_one_inv_spec c : 1 ≤ c ≤ 64 → ∃ inv, digests_per_node_minus_one_inv_mod_u64 c = Ok inv ∧ inverse c inv.
Proof.
  intros Hc. unfold digests_per_node_minus_one_inv_mod_u64. rewrite trailing_bits_mask_u_spec by lia. cbn [obind].
  pose proof (pow2_ge2 c ltac:(lia)) as Hc2. assert (2 ^ c ≤ 2 ^ 64) by (apply Z.pow_le_mono_r; lia).
  assert (((2 ^ c - 1) * (2 ^ c - 1) = 1 + (2 ^ c - 2) * 2 ^ c)) as Hsq by ring.
  assert (Z.land (wrapping_mul 64 (2 ^ c - 1) (2 ^ c - 1)) (2 ^ c - 1) = 1) as ->.
  { rewrite Z.sub_1_r at 3. rewrite <-Z.ones_equiv, Z.land_ones by lia. unfold wrapping_mul, wrap.
    rewrite Z.mod_mod_divide by (apply pow2_divide; lia).
    rewrite Hsq, Z.mod_add, Z.mod_small by lia. done. }
  cbn [debug_assert Z.eqb Pos.eqb obind].
  destruct (hensel_loop_spec 6 (2 ^ c - 1) (2 ^ c - 1) c) as (inv & -> & Hu & Hd); [lia..| |unfold in_u; lia|].
  { replace (Z.min c 64) with c by lia. exists (2 ^ c - 2). lia. }
  cbn [obind]. assert (wrapping_mul 64 (2 ^ c - 1) inv = 1) as Hm.
  { unfold wrapping_mul, wrap. destruct Hd as [q Hq]. replace ((2 ^ c - 1) * inv) with (1 + q * 2 ^ 64) by lia.
    by rewrite Z.mod_add, Z.mod_small. }
  exists inv. split; [|done]. unfold wrapping_mul in *. by rewrite Z.mul_comm, Hm.
Qed.

Lemma debug_check_inverse c inv : 1 ≤ c ≤ 64 → inverse c inv →
  debug_check (E:=NvFsError) (let! m := trailing_bits_mask_u 64 c in Ok (wrapping_mul 64 m inv =? 1)) = Ok tt.
Proof. intros ? [_ Hinv]. apply debug_check_true. rewrite trailing_bits_mask_u_spec by lia. cbn [obind]. by rewrite Hinv. Qed.

Section Shape.
Variables (c inv : Z).
Hypothesis Hc : 1 ≤ c ≤ 63.
Hypothesis Hinv : inverse c inv.

Lemma subtree_node_count_direct fuel (l L : nat) :
  (l < L)%nat → Z.of_nat L ≤ 64 → (S l = L → L = 1%nat) → c * Z.of_nat (S l) ≤ 64 →
  subtree_node_count_rec (S fuel) (Z.of_nat l) (Z.of_nat L) c inv = Ok (nodes c (S l)).
Proof.
  intros Hl HL Hroot Hbits. cbn [subtree_node_count_rec]. zdec1. zdec1. cbn [debug_assert obind].
  rewrite debug_check_inverse by (done || lia). cbn [obind].
  assert ((if 2 <=? Z.of_nat L then let! t := usub 8 (Z.of_nat L) 1 in Ok (Z.of_nat l =? t) else Ok false) = Ok (E:=NvFsError) false) as ->.
  { zcase; [|done]. rewrite usub_Ok by lia. cbn [obind]. f_equal. apply Z.eqb_neq. lia. }
  cbn [obind]. rewrite uadd_Ok by lia. cbn [obind].
  rewrite debug_check_true by (rewrite umul_Ok by nia; cbn [obind]; f_equal; apply Z.leb_le; lia). cbn [obind].
  rewrite umul_Ok by nia. cbn [obind]. rewrite trailing_bits_mask_u_spec by nia. cbn [obind]. f_equal.
  replace ((Z.of_nat l + 1) * c) with (c * Z.of_nat (S l)) by lia. rewrite <-nodes_geometric by lia. apply inverse_divides; [done|].
  split; [apply nodes_nonneg; lia|]. apply nodes_bound; nia.
Qed.

Lemma auth_subtree_node_count_spec (l L : nat) :
  (l < L)%nat → c * (Z.of_nat L - 1) ≤ 63 → auth_subtree_node_count (Z.of_nat l) (Z.of_nat L) c inv = Ok (nodes c (S l)).
Proof.
  intros Hl HL. unfold auth_subtree_node_count. assert (Z.of_nat L ≤ 64) by nia.
  destruct (decide (S l = L ∧ L ≠ 1%nat)) as [[Hroot HL1]|Hroot]; [|apply subtree_node_count_direct; nia].
  remember 1%nat as fuel eqn:Hfuel. cbn [subtree_node_count_rec]. zdec1. zdec1. cbn [debug_assert obind].
  rewrite debug_check_inverse by (done || lia). cbn [obind]. zdec1. rewrite usub_Ok by lia. cbn [obind]. zdec1. rewrite usub_Ok by lia. cbn [obind].
  replace (Z.of_nat L - 2) with (Z.of_nat (L - 2)) by lia.
  rewrite Hfuel, (subtree_node_count_direct 0 (L - 2) L) by nia. cbn [obind]. rewrite shl_one by lia. cbn [obind].
  replace (S (L - 2)) with l by lia. pose proof (nodes_bound c (S l)) as Hb. cbn [nodes] in Hb. rewrite Nat2Z.inj_succ in Hb.
  rewrite umul_Ok by nia. cbn [obind]. rewrite uadd_Ok by nia. cbn [nodes]. f_equal. lia.
Qed.

(** Bottom-up, the loop turns the position in the subtree of an entry into that in
    the subtree of its parent. *)
Lemma dfs_pre_loop_spec n : ∀ (h : nat) index pos count v,
  (0 < n)%nat → c * (Z.of_nat (h + n) - 1) ≤ 63 → 0 ≤ index < 2 ^ 64 → 0 ≤ pos → count = nodes c h →
  preorder c h index !! Z.to_nat pos = Some v →
  ∃ pos', dfs_pre_loop n index pos count (2 ^ c - 1) c = Ok pos' ∧ 0 ≤ pos' ∧
    preorder c (h + n) (index / 2 ^ (c * Z.of_nat n)) !! Z.to_nat pos' = Some v.
Proof.
  induction n as [|n IH]; intros h index pos count v Hn Hh Hindex Hpos -> Hv; [lia|]. cbn [dfs_pre_loop].
  pose proof (pow2_ge2 c ltac:(lia)) as Hc2. pose proof (Z.mod_pos_bound index (2 ^ c) ltac:(lia)) as He.
  assert (Z.land index (2 ^ c - 1) = index mod 2 ^ c) as -> by (rewrite Z.sub_1_r, <-Z.ones_equiv, Z.land_ones by lia; done).
  rewrite ushr_Ok by lia. cbn [obind]. rewrite Z.shiftr_div_pow2 by lia.
  pose proof (nodes_nonneg c h ltac:(lia)). pose proof (lookup_lt_Some _ _ _ Hv) as Hlt. rewrite length_preorder in Hlt by lia.
  assert (nodes c (S h) < 2 ^ 64) as Hb by (apply nodes_bound; nia). cbn [nodes] in Hb.
  rewrite umul_Ok by nia. cbn [obind]. rewrite uadd_Ok by nia. cbn [obind]. rewrite uadd_Ok by nia. cbn [obind].
  rewrite ushl_Ok by lia. cbn [obind].
  pose proof (preorder_child c h (index / 2 ^ c) (index mod 2 ^ c) pos v ltac:(lia) He Hpos) as Hup.
  rewrite <-(Z.mul_comm (2 ^ c)), <-Z.div_mod in Hup by lia. specialize (Hup Hv).
  assert (index / 2 ^ c < 2 ^ 64) by (apply Z.div_lt_upper_bound; nia). pose proof (Z.div_pos index (2 ^ c) ltac:(lia) ltac:(lia)).
  destruct n as [|n].
  - eexists. split; [done|]. split; [nia|]. by rewrite Nat.add_1_r, Z.mul_1_r.
  - destruct (IH (S h) (index / 2 ^ c) (pos + nodes c h * (index mod 2 ^ c) + 1)
      (wrapping_add 64 (wrap 64 (Z.shiftl (nodes c h) c)) 1) v) as (pos' & -> & Hpos' & Hv'); [lia|nia|lia|nia| |done|].
    { rewrite Z.shiftl_mul_pow2, wrap_small by (lia || unfold in_u; nia). unfold wrapping_add. rewrite wrap_small by (unfold in_u; nia).
      cbn [nodes]. lia. }
    exists pos'. split; [done|]. split; [done|]. rewrite Z.div_div, <-Z.pow_add_r in Hv' by (lia || apply pow2_pos; nia).
    replace (h + S (S n))%nat with (S h + S n)%nat by lia. by replace (c * Z.of_nat (S (S n))) with (c + c * Z.of_nat (S n)) by lia.
Qed.

Lemma shiftr_below x k : 0 ≤ k → 0 ≤ x < 2 ^ 64 → 0 ≤ x / 2 ^ k < 2 ^ 64.
Proof.
  intros. pose proof (pow2_pos k ltac:(lia)). split; [apply Z.div_pos; lia|]. apply Z.div_lt_upper_bound; nia.
Qed.

Lemma land_mask x k : 0 ≤ k → Z.land x (2 ^ k - 1) = x mod 2 ^ k.
Proof. intros. by rewrite Z.sub_1_r, <-Z.ones_equiv, Z.land_ones. Qed.

Lemma dfs_pre_index_spec d x (l L : nat) :
  1 ≤ d ≤ 63 → (l < L)%nat → c * (Z.of_nat L - 1) ≤ 63 → c * (Z.of_nat L - 2) + d ≤ 63 → 0 ≤ x < 2 ^ 64 →
  x < 2 ^ (c * (Z.of_nat L - 1) + d) →
  ∃ pos, auth_tree_node_dfs_pre_index x (Z.of_nat l) (Z.of_nat L) c inv d =
      Ok (pos, wrap usize_bits (match l with O => x mod 2 ^ d | S l => x / 2 ^ (c * Z.of_nat l + d) mod 2 ^ c end)) ∧ 0 ≤ pos ∧
    preorder c L 0 !! Z.to_nat pos = Some (l, x / 2 ^ (c * Z.of_nat l + d)).
Proof.
  intros Hd Hl HL HL2 Hx Hrange. assert (Z.of_nat L ≤ 64) by nia. unfold auth_tree_node_dfs_pre_index. zdec1. zdec1. cbn [debug_assert obind].
  rewrite trailing_bits_mask_u_spec by lia. cbn [obind].
  set (entry := match l with O => x mod 2 ^ d | S l => x / 2 ^ (c * Z.of_nat l + d) mod 2 ^ c end).
  match goal with |- context [obind (if negb (Z.of_nat l =? 0) then ?a else ?b) _] =>
    assert ((if negb (Z.of_nat l =? 0) then a else b) = Ok (x / 2 ^ (c * Z.of_nat l + d), entry)) as -> end.
  { unfold entry. destruct l as [|l].
    - cbn [negb Z.of_nat Z.eqb]. rewrite ushr_Ok by lia. cbn [obind]. rewrite trailing_bits_mask_u_spec by lia. cbn [obind].
      rewrite land_mask, Z.shiftr_div_pow2 by lia. by rewrite Z.mul_0_r.
    - rewrite (proj2 (Z.eqb_neq _ _)) by lia. cbn [negb]. rewrite usub_Ok by lia. cbn [obind]. rewrite umul_Ok by nia. cbn [obind].
      rewrite uadd_Ok by nia. cbn [obind]. rewrite ushr_Ok by nia. cbn [obind]. rewrite ushr_Ok by lia. cbn [obind].
      rewrite land_mask, !Z.shiftr_div_pow2 by nia. rewrite Z.div_div, <-Z.pow_add_r by (lia || nia || apply pow2_pos; nia).
      do 2 f_equal; [do 2 f_equal; lia|]. do 3 f_equal. lia. }
  cbn [obind]. rewrite uadd_Ok by lia. cbn [obind].
  destruct (Z.eqb_spec (Z.of_nat l + 1) (Z.of_nat L)) as [Heq|Hne].
  - exists 0. split; [done|]. split; [done|]. destruct L as [|L]; [lia|]. change (Z.to_nat 0) with O. cbn [preorder lookup list_lookup].
    rewrite Z.div_small; [do 2 f_equal; lia|]. split; [lia|]. by replace (Z.of_nat l) with (Z.of_nat (S L) - 1) by lia.
  - rewrite auth_subtree_node_count_spec by done. cbn [obind]. pose proof (shiftr_below x (c * Z.of_nat l + d) ltac:(nia) Hx).
    destruct (dfs_pre_loop_spec (Z.to_nat (Z.of_nat L - (Z.of_nat l + 1))) (S l) (x / 2 ^ (c * Z.of_nat l + d)) 0
      (nodes c (S l)) (l, x / 2 ^ (c * Z.of_nat l + d))) as (pos & -> & Hpos & Hv); [lia|nia|lia|lia|done|done|].
    cbn [obind]. exists pos. split; [done|]. split; [done|]. rewrite Z.div_div, <-Z.pow_add_r in Hv by (nia || apply pow2_pos; nia).
    replace (S l + _)%nat with L in Hv by lia. rewrite Z.div_small in Hv; [done|]. split; [lia|].
    replace (c * Z.of_nat l + d + c * Z.of_nat (Z.to_nat (Z.of_nat L - (Z.of_nat l + 1)))) with (c * (Z.of_nat L - 1) + d); [done|].
    rewrite Z2Nat.id by lia. ring.
Qed.

(** *** The height for a number of nodes *)

Lemma div_ceil_le k m : 0 ≤ k → div_ceil k c ≤ m ↔ k ≤ c * m.
Proof.
  intros. unfold div_ceil. split; intros Hle.
  - pose proof (Z.mul_succ_div_gt (k + c - 1) c ltac:(lia)). nia.
  - enough ((k + c - 1) / c < m + 1) by lia. apply Z.div_lt_upper_bound; nia.
Qed.

(** A tree has [n] nodes exactly if it has the leaves that [n] nodes need. *)
Lemma nodes_enough n h : 1 ≤ n → n ≤ nodes c (S h) ↔ n - (n - 1) / 2 ^ c ≤ 2 ^ (c * Z.of_nat h).
Proof.
  intros Hn. pose proof (pow2_ge2 c ltac:(lia)). pose proof (nodes_snoc c h ltac:(lia)) as Hs. cbn [nodes] in *.
  pose proof (nodes_nonneg c h ltac:(lia)). split; intros Hle.
  - assert (n - 1 - (2 ^ c * nodes c h - nodes c h) ≤ (n - 1) / 2 ^ c); [|lia].
    apply Z.div_le_lower_bound; nia.
  - destruct (Z.le_gt_cases n (1 + 2 ^ c * nodes c h)) as [|Hgt]; [done|exfalso].
    enough ((n - 1) / 2 ^ c < n - 2 - 2 ^ c * nodes c h + nodes c h + 1) by lia. apply Z.div_lt_upper_bound; nia.
Qed.

(** The bound on the height that the code computes. *)
Definition max_levels (d a : Z) : Z := div_ceil (Z.min 64 (64 - d - a + c)) c.

Lemma max_levels_bounds d a : 0 ≤ d → 0 ≤ a → d + a ≤ 64 →
  1 ≤ max_levels d a ≤ 64 ∧ c * (max_levels d a - 1) ≤ 63 ∧ c * (max_levels d a - 2) + d + a ≤ 63.
Proof.
  intros. unfold max_levels. pose proof (div_ceil_le (Z.min 64 (64 - d - a + c)) (div_ceil (Z.min 64 (64 - d - a + c)) c - 1) ltac:(lia)).
  pose proof (div_ceil_le (Z.min 64 (64 - d - a + c)) (div_ceil (Z.min 64 (64 - d - a + c)) c) ltac:(lia)).
  pose proof (div_ceil_le (Z.min 64 (64 - d - a + c)) 64 ltac:(lia)). nia.
Qed.

(** The least height of a tree with [n] nodes, if it is within the bound. *)
Definition least_levels (n L : Z) : Prop :=
  1 ≤ L ∧ n ≤ nodes c (Z.to_nat L) ∧ (1 < L → nodes c (Z.to_nat (L - 1)) < n).

Lemma node_count_to_levels_spec n d a :
  1 ≤ n < 2 ^ 64 → 0 ≤ d → 0 ≤ a → d + a ≤ 64 →
  ∃ L, auth_tree_node_count_to_auth_tree_levels n c d a = Ok L ∧ 1 ≤ L ≤ max_levels d a ∧
    (1 < L → nodes c (Z.to_nat (L - 1)) < n) ∧ (n ≤ nodes c (Z.to_nat L) ∨ L = max_levels d a).
Proof.
  intros Hn Hd Ha Hda. unfold auth_tree_node_count_to_auth_tree_levels. pose proof (max_levels_bounds d a Hd Ha Hda) as (Hmax & Hmax1 & _).
  pose proof (pow2_ge2 c ltac:(lia)). rewrite (proj2 (Z.eqb_neq n 0)) by lia. zdec1. zdec1. cbn [andb debug_assert obind].
  do 2 (rewrite usub_Ok by lia; cbn [obind]). rewrite uadd_Ok by lia. cbn [obind]. fold (max_levels d a).
  rewrite (wrap_small 8) by (unfold in_u; lia). rewrite (proj2 (Z.eqb_neq c 64)) by lia. cbn [negb].
  rewrite usub_Ok by lia. cbn [obind]. rewrite ushr_Ok by lia. cbn [obind]. rewrite Z.shiftr_div_pow2 by lia.
  pose proof (Z.div_le_upper_bound (n - 1) (2 ^ c) (n - 1) ltac:(lia) ltac:(nia)). pose proof (Z.div_pos (n - 1) (2 ^ c) ltac:(lia) ltac:(lia)).
  rewrite usub_Ok by lia. cbn [obind]. pose proof (nodes_enough n) as Henough. set (t := n - (n - 1) / 2 ^ c) in *.
  rewrite (proj2 (Z.eqb_neq t 0)) by lia. cbn [negb debug_assert obind]. rewrite round_up_next_pow2_eq by (lia || split; lia). cbn [obind].
  rewrite (proj2 (Z.eqb_neq t 0)) by lia. destruct (Z.leb_spec t (2 ^ (64 - 1))) as [Ht|Ht].
  - pose proof (Z.log2_up_nonneg t). unfold ilog2. rewrite (proj2 (Z.eqb_neq _ 0)) by (pose proof (pow2_pos (Z.log2_up t)); lia). cbn [obind].
    rewrite Z.log2_pow2 by done. assert (Z.log2_up t ≤ 63) by (apply Z.log2_up_le_pow2; lia).
    pose proof (div_ceil_le (Z.log2_up t)) as Hdc. set (L0 := div_ceil (Z.log2_up t) c) in *.
    assert (0 ≤ L0 ≤ 64) as HL0 by (split; [apply Z.div_pos; lia|apply Hdc; nia]).
    rewrite wrap_small by (unfold in_u; lia). rewrite uadd_Ok by lia. cbn [obind].
    assert (∀ h, 0 ≤ h → n ≤ nodes c (S (Z.to_nat h)) ↔ L0 ≤ h) as Hleast.
    { intros h Hh. rewrite Henough, Hdc by lia. rewrite Z2Nat.id by done. rewrite Z.log2_up_le_pow2 by nia. done. }
    exists (Z.min (L0 + 1) (max_levels d a)). split; [done|]. split; [lia|]. split.
    + intros HL. destruct (Z.le_gt_cases n (nodes c (Z.to_nat (Z.min (L0 + 1) (max_levels d a) - 1)))) as [Hle|]; [|done].
      replace (Z.to_nat _) with (S (Z.to_nat (Z.min (L0 + 1) (max_levels d a) - 2))) in Hle by lia. apply Hleast in Hle; lia.
    + destruct (Z.le_gt_cases (L0 + 1) (max_levels d a)) as [Hle|]; [left|right; lia].
      replace (Z.to_nat _) with (S (Z.to_nat L0)) by lia. apply Hleast; lia.
  - exists (max_levels d a). split; [done|]. split; [lia|]. split; [|by right]. intros HL.
    destruct (Z.le_gt_cases n (nodes c (Z.to_nat (max_levels d a - 1)))) as [Hle|]; [|done]. exfalso.
    replace (Z.to_nat _) with (S (Z.to_nat (max_levels d a - 2))) in Hle by lia. apply Henough in Hle; [|lia].
    assert (2 ^ (c * Z.of_nat (Z.to_nat (max_levels d a - 2))) ≤ 2 ^ 63) by (apply Z.pow_le_mono_r; nia). lia.
Qed.

(** *** The leaves among the first nodes of a tree *)

Definition leaves_of (l : list (nat * Z)) : Z := Z.of_nat (length (filter (λ v, v.1 = O) l)).

(** The leaves among the first [n] nodes, counted from the root down. *)
Fixpoint leaf_count (h : nat) (n : Z) : Z :=
  match h with
  | O => 0
  | S l =>
      if n <=? 0 then 0
      else match l with
        | O => 1
        | S l' => (n - 1) / nodes c l * 2 ^ (c * Z.of_nat l') + leaf_count l ((n - 1) mod nodes c l)
        end
  end.

Lemma leaf_count_S h n : 1 ≤ n →
  leaf_count (S (S h)) n = (n - 1) / nodes c (S h) * 2 ^ (c * Z.of_nat h) + leaf_count (S h) ((n - 1) mod nodes c (S h)).
Proof. intros. cbn [leaf_count]. by zdec1. Qed.
Lemma leaf_count_0 h : leaf_count h 0 = 0.
Proof. by destruct h. Qed.

Lemma leaf_count_nonneg h : ∀ n, 0 ≤ leaf_count h n.
Proof.
  induction h as [|[|h] IH]; intros n; [done|cbn; by zcase|]. destruct (Z.le_gt_cases 1 n).
  - rewrite leaf_count_S by done. pose proof (nodes_pos c (S h) ltac:(lia) ltac:(lia)).
    pose proof (Z.div_pos (n - 1) (nodes c (S h)) ltac:(lia) ltac:(lia)). pose proof (pow2_pos (c * Z.of_nat h) ltac:(nia)).
    specialize (IH ((n - 1) mod nodes c (S h))). nia.
  - cbn [leaf_count]. by zdec1.
Qed.

(** The last node is a leaf: fewer nodes have fewer leaves. *)
Lemma leaf_count_partial h : ∀ n, 0 ≤ n < nodes c (S h) → leaf_count (S h) n < 2 ^ (c * Z.of_nat h).
Proof.
  induction h as [|h IH]; intros n Hn.
  - cbn [nodes] in Hn. replace n with 0 by nia. rewrite leaf_count_0. apply pow2_pos. lia.
  - destruct (Z.eq_dec n 0) as [->|]; [rewrite leaf_count_0; apply pow2_pos; lia|]. rewrite leaf_count_S by lia.
    pose proof (nodes_pos c (S h) ltac:(lia) ltac:(lia)) as Hp. specialize (IH ((n - 1) mod nodes c (S h)) (Z.mod_pos_bound _ _ Hp)).
    change (nodes c (S (S h))) with (1 + 2 ^ c * nodes c (S h)) in Hn.
    assert ((n - 1) / nodes c (S h) < 2 ^ c) by (apply Z.div_lt_upper_bound; lia).
    rewrite (Nat2Z.inj_succ h), Z.mul_succ_r, Z.pow_add_r by lia. nia.
Qed.

Lemma leaf_count_full h : leaf_count (S h) (nodes c (S h)) = 2 ^ (c * Z.of_nat h).
Proof.
  destruct h as [|h]; [cbn; by rewrite !Z.mul_0_r|]. pose proof (nodes_pos c (S h) ltac:(lia) ltac:(lia)).
  change (nodes c (S (S h))) with (1 + 2 ^ c * nodes c (S h)). pose proof (pow2_ge2 c ltac:(lia)). rewrite leaf_count_S by nia.
  replace (1 + 2 ^ c * nodes c (S h) - 1) with (2 ^ c * nodes c (S h)) by lia.
  rewrite Z.div_mul, Z.mod_mul, leaf_count_0, (Nat2Z.inj_succ h), Z.mul_succ_r, Z.pow_add_r by lia. lia.
Qed.

(** A path to the first leaf takes a node per level. *)
Lemma leaf_count_short h : ∀ n, 0 ≤ n < Z.of_nat h → leaf_count h n = 0.
Proof.
  induction h as [|[|h] IH]; intros n Hn; [done|by replace n with 0 by lia|].
  destruct (Z.eq_dec n 0) as [->|]; [apply leaf_count_0|]. rewrite leaf_count_S by lia.
  assert (Z.of_nat (S h) ≤ nodes c (S h)).
  { clear - Hc. induction (S h) as [|k IH]; [done|]. rewrite nodes_snoc by lia. pose proof (pow2_pos (c * Z.of_nat k) ltac:(nia)). lia. }
  rewrite Z.div_small, Z.mod_small by lia. rewrite IH by lia. done.
Qed.

Lemma take_mjoin_equal {A} (ls : list (list A)) m q r l :
  Forall (λ x, length x = m) ls → ls !! q = Some l → (r ≤ m)%nat → take (q * m + r) (mjoin ls) = mjoin (take q ls) ++ take r l.
Proof.
  intros Hls. revert q. induction Hls as [|x ls Hx Hls IH]; intros q Hq Hr; [done|]. destruct q as [|q]; cbn in *.
  - injection Hq as ->. by rewrite take_app_le by lia.
  - rewrite take_app_ge by lia. replace (m + q * m + r - length x)%nat with (q * m + r)%nat by lia. rewrite IH by done. by rewrite <-app_assoc.
Qed.

Lemma leaves_of_app l l' : leaves_of (l ++ l') = leaves_of l + leaves_of l'.
Proof. unfold leaves_of. rewrite filter_app, length_app. lia. Qed.

Lemma leaves_of_mjoin ls m : Forall (λ l, leaves_of l = m) ls → leaves_of (mjoin ls) = Z.of_nat (length ls) * m.
Proof.
  induction 1 as [|x ls Hx _ IH]; [done|]. change (mjoin (x :: ls)) with (x ++ mjoin ls). rewrite leaves_of_app, Hx, IH. cbn [length]. lia.
Qed.

(** The count is that of the leaves in the traversal. *)
Lemma leaf_count_preorder h : ∀ i n, 0 ≤ n ≤ nodes c h → leaf_count h n = leaves_of (take (Z.to_nat n) (preorder c h i)).
Proof.
  induction h as [|[|h] IH]; intros i n Hn.
  - cbn in Hn |- *. by rewrite take_nil.
  - cbn [nodes] in Hn. destruct (Z.eq_dec n 0) as [->|]; [done|]. replace n with 1 by nia. done.
  - destruct (Z.eq_dec n 0) as [->|]; [done|]. rewrite leaf_count_S by lia.
    change (nodes c (S (S h))) with (1 + 2 ^ c * nodes c (S h)) in Hn. pose proof (nodes_pos c (S h) ltac:(lia) ltac:(lia)) as Hp.
    pose proof (Z.mod_pos_bound (n - 1) _ Hp) as Hr. pose proof (Z.div_mod (n - 1) (nodes c (S h)) ltac:(lia)) as Hdm.
    pose proof (Z.div_pos (n - 1) (nodes c (S h)) ltac:(lia) ltac:(lia)) as Hq.
    set (q := (n - 1) / nodes c (S h)) in *. set (r := (n - 1) mod nodes c (S h)) in *.
    change (preorder c (S (S h)) i) with ((S h, i) :: mjoin ((λ j, preorder c (S h) (i * 2 ^ c + j)) <$> seqZ 0 (2 ^ c))).
    set (ls := (λ j, preorder c (S h) (i * 2 ^ c + j)) <$> seqZ 0 (2 ^ c)).
    assert (Forall (λ x, length x = Z.to_nat (nodes c (S h))) ls) as Hlen by (apply Forall_fmap, Forall_true; intros; apply length_preorder; lia).
    assert (Forall (λ l, leaves_of l = 2 ^ (c * Z.of_nat h)) ls) as Hfull.
    { apply Forall_fmap, Forall_true. intros j. cbn [compose]. rewrite <-leaf_count_full, (IH (i * 2 ^ c + j)) by lia.
      by rewrite take_ge by (rewrite length_preorder by lia; lia). }
    assert (length ls = Z.to_nat (2 ^ c)) as Hls by (unfold ls; by rewrite length_fmap, length_seqZ).
    replace (Z.to_nat n) with (S (Z.to_nat q * Z.to_nat (nodes c (S h)) + Z.to_nat r)) by nia. cbn [take].
    change (leaves_of ((S h, i) :: ?l)) with (leaves_of l). pose proof (pow2_pos c ltac:(lia)).
    destruct (Z.eq_dec q (2 ^ c)) as [Hq2|Hq2].
    + replace r with 0 by nia. rewrite take_ge by (rewrite (length_mjoin_equal _ _ Hlen), Hls; nia).
      rewrite (leaves_of_mjoin _ _ Hfull), Hls, leaf_count_0. nia.
    + assert (q < 2 ^ c) by nia. rewrite (take_mjoin_equal ls _ _ _ (preorder c (S h) (i * 2 ^ c + q))); [|done| |lia].
      * rewrite leaves_of_app, <-IH by lia. rewrite (leaves_of_mjoin _ (2 ^ (c * Z.of_nat h))) by (by apply Forall_take).
        rewrite length_take, Hls. nia.
      * unfold ls. rewrite list_lookup_fmap, lookup_seqZ_lt by lia. cbn [fmap option_fmap option_map]. by rewrite Z.add_0_l, Z2Nat.id by lia.
Qed.

(** One round of the loop: the full subtrees of the current node, and the rest. *)
Lemma max_covered_loop_spec d (L : nat) :
  1 ≤ d → (2 ≤ L)%nat → c * (Z.of_nat L - 1) ≤ 63 → c * (Z.of_nat L - 2) + d ≤ 63 →
  ∀ h n acc fuel, (S h ≤ L)%nat → (S h ≤ fuel)%nat → 0 ≤ n ≤ nodes c (S h) → (S h = L → acc = 0) →
    (S h ≠ L → n < nodes c (S h) ∧ 0 ≤ acc ∧ acc + 2 ^ (c * Z.of_nat h + d) ≤ 2 ^ 64 ∧ (h = O → n = 0)) →
    max_covered_loop fuel n (Z.of_nat (S h)) (nodes c (S h)) acc (Z.of_nat L) c d =
      Ok (Z.min (2 ^ 64 - 1) (acc + leaf_count (S h) n * 2 ^ d)).
Proof.
  intros Hd HL HL1 HL2. assert (Z.of_nat L ≤ 64) by nia. induction h as [|h IH]; intros n acc fuel Hh Hf Hn Hroot Hin.
  { destruct (Hin ltac:(lia)) as (_ & Hacc & Hacc' & Hz). rewrite (Hz eq_refl), leaf_count_0. pose proof (pow2_pos (c * Z.of_nat 0 + d) ltac:(lia)).
    destruct fuel; [lia|]. cbn [max_covered_loop]. rewrite andb_false_r. cbn [debug_assert obind Z.eqb]. f_equal. lia. }
  destruct fuel as [|fuel]; [lia|]. cbn [max_covered_loop]. pose proof (pow2_ge2 c ltac:(lia)) as Hc2.
  destruct (Z.eqb_spec n 0) as [->|Hn0].
  { rewrite andb_false_r, leaf_count_0. cbn [negb debug_assert obind]. f_equal. destruct (decide (S (S h) = L)) as [E|E].
    - rewrite Hroot by done. lia.
    - destruct (Hin E) as (_ & ? & ? & _). pose proof (pow2_pos (c * Z.of_nat (S h) + d) ltac:(nia)). lia. }
  zdec1. cbn [andb negb]. assert (0 < 2 ^ (c * Z.of_nat (S h) + d)) by (apply pow2_pos; nia).
  destruct (Z.ltb_spec n (Z.of_nat (S (S h)))) as [Hshort|Hlong].
  { rewrite leaf_count_short by lia. f_equal. destruct (decide (S (S h) = L)) as [E|E]; [rewrite Hroot by done; lia|].
    destruct (Hin E) as (_ & ? & ? & _). lia. }
  rewrite usub_Ok by lia. cbn [obind]. rewrite usub_Ok by lia. cbn [obind].
  change (nodes c (S (S h))) with (1 + 2 ^ c * nodes c (S h)) in *. pose proof (nodes_pos c (S h) ltac:(lia) ltac:(lia)) as Hp.
  assert (1 + 2 ^ c * nodes c (S h) < 2 ^ 64) as Hb by (apply (nodes_bound c (S (S h))); nia).
  rewrite usub_Ok by nia. cbn [obind]. rewrite ushr_Ok by lia. cbn [obind].
  rewrite Z.shiftr_div_pow2 by lia. replace ((1 + 2 ^ c * nodes c (S h) - 1) / 2 ^ c) with (nodes c (S h))
    by (replace (1 + 2 ^ c * nodes c (S h) - 1) with (nodes c (S h) * 2 ^ c) by lia; by rewrite Z.div_mul by lia).
  unfold udiv. rewrite (proj2 (Z.eqb_neq (nodes c (S h)) 0)) by lia. cbn [obind].
  pose proof (Z.div_mod (n - 1) (nodes c (S h)) ltac:(lia)) as Hdm. pose proof (Z.mod_pos_bound (n - 1) _ Hp) as Hr.
  pose proof (Z.div_pos (n - 1) (nodes c (S h)) ltac:(lia) ltac:(lia)) as Hq.
  rewrite leaf_count_S by lia. set (q := (n - 1) / nodes c (S h)) in *. set (r := (n - 1) mod nodes c (S h)) in *.
  assert (q ≤ 2 ^ c) as Hqc by nia. rewrite debug_check_true by (rewrite shl_one by lia; cbn [obind]; f_equal; by apply Z.leb_le).
  cbn [obind]. rewrite umul_Ok by nia. cbn [obind]. rewrite usub_Ok by nia. cbn [obind].
  replace (n - 1 - q * nodes c (S h)) with r by lia. rewrite usub_Ok by lia. cbn [obind].
  replace (Z.of_nat (S (S h)) - 1 - 1) with (Z.of_nat h) by lia. rewrite umul_Ok by nia. cbn [obind]. rewrite uadd_Ok by nia. cbn [obind].
  replace (Z.of_nat h * c + d) with (c * Z.of_nat h + d) by lia. set (bits := c * Z.of_nat h + d) in *.
  assert (1 ≤ bits ≤ 63) as Hbits by nia. rewrite (proj2 (Z.ltb_lt bits 64)) by lia. cbn [debug_assert obind].
  rewrite usub_Ok by lia. cbn [obind]. pose proof (pow2_pos bits ltac:(lia)) as Hpb.
  assert (2 ^ (64 - bits) * 2 ^ bits = 2 ^ 64) as H64 by (rewrite <-Z.pow_add_r by lia; f_equal; lia).
  pose proof (leaf_count_partial h r Hr) as Hlp. pose proof (leaf_count_nonneg (S h) r) as Hln.
  assert (2 ^ (c * Z.of_nat h) * 2 ^ d = 2 ^ bits) as Hsplit by (rewrite <-Z.pow_add_r by nia; done).
  pose proof (pow2_pos d ltac:(lia)) as Hpd. pose proof (pow2_pos (c * Z.of_nat h) ltac:(nia)) as Hph.
  assert (acc + 2 ^ bits * (2 ^ c - 1) + 2 ^ bits ≤ 2 ^ 64 ∨ S (S h) = L) as Hroom.
  { destruct (decide (S (S h) = L)) as [E|E]; [by right|left]. destruct (Hin E) as (_ & _ & Hacc & _).
    replace (c * Z.of_nat (S h) + d) with (bits + c) in Hacc by lia. rewrite Z.pow_add_r in Hacc by lia. lia. }
  set (x := q * 2 ^ (c * Z.of_nat h) + leaf_count (S h) r) in *.
  assert (x * 2 ^ d = q * 2 ^ bits + leaf_count (S h) r * 2 ^ d) as Hx by (unfold x; rewrite <-Hsplit; ring).
  assert (leaf_count (S h) r * 2 ^ d + 2 ^ d ≤ 2 ^ bits) as Hrest by (rewrite <-Hsplit; clear - Hlp Hpd; nia).
  assert (0 ≤ q * 2 ^ bits ∧ 0 ≤ leaf_count (S h) r * 2 ^ d) as [Hqb Hlb] by (split; apply Z.mul_nonneg_nonneg; lia).
  assert (∀ acc', acc' = acc + q * 2 ^ bits → 0 ≤ acc' → acc' + 2 ^ bits ≤ 2 ^ 64 →
    (let! covered := ushl 64 q bits in
     match checked_add 64 acc covered with
     | None => err_internal
     | Some m => max_covered_loop fuel r (Z.of_nat (S (S h)) - 1) (nodes c (S h)) m (Z.of_nat L) c d
     end) = Ok (Z.min (2 ^ 64 - 1) (acc + x * 2 ^ d))) as Hgo.
  { intros acc' Hacc' Hpos Hle. assert (0 ≤ acc) by (destruct (decide (S (S h) = L)) as [E|E]; [rewrite Hroot by done; lia|by destruct (Hin E) as (_ & ? & _)]).
    rewrite ushl_Ok by lia. cbn [obind]. rewrite Z.shiftl_mul_pow2, wrap_small by (lia || split; lia).
    rewrite checked_add_Some by lia. rewrite <-Hacc'. replace (Z.of_nat (S (S h)) - 1) with (Z.of_nat (S h)) by lia.
    rewrite IH; [f_equal; lia|lia|lia|lia|lia|]. intros _. split; [lia|]. split; [lia|]. split; [done|]. intros ->. cbn [nodes] in Hr. lia. }
  destruct (Z.eqb_spec (Z.of_nat (S (S h)) - 1) (Z.of_nat L - 1)) as [Htop|Htop].
  - rewrite usub_Ok by lia. cbn [obind]. rewrite shl_one by lia. cbn [obind]. rewrite Hroot in * by lia.
    destruct (Z.leb_spec (2 ^ (64 - bits)) q).
    + f_equal. assert (2 ^ 64 ≤ q * 2 ^ bits) by (rewrite <-H64; apply Z.mul_le_mono_nonneg_r; lia). lia.
    + apply (Hgo (q * 2 ^ bits)); [lia|done|]. assert ((q + 1) * 2 ^ bits ≤ 2 ^ 64) by (rewrite <-H64; apply Z.mul_le_mono_nonneg_r; lia). lia.
  - destruct (Hin ltac:(lia)) as (Hn' & Hacc0 & Hacc & _). assert (q < 2 ^ c) by nia.
    rewrite debug_check_true by (rewrite shl_one by lia; cbn [obind]; f_equal; by apply Z.ltb_lt). cbn [obind].
    apply (Hgo (acc + q * 2 ^ bits)); [done|lia|]. destruct Hroom as [Hroom|]; [|lia].
    assert (q * 2 ^ bits ≤ (2 ^ c - 1) * 2 ^ bits) by (apply Z.mul_le_mono_nonneg_r; lia). lia.
Qed.

Lemma max_covered_spec n d a L :
  1 ≤ n < 2 ^ 64 → 1 ≤ d ≤ 63 → 0 ≤ a → d + a ≤ 63 → auth_tree_node_count_to_auth_tree_levels n c d a = Ok L → n ≤ nodes c (Z.to_nat L) →
  auth_tree_node_count_to_max_covered_data_block_count n L c inv d a = Ok (Z.min (2 ^ 64 - 1) (leaf_count (Z.to_nat L) n * 2 ^ d)).
Proof.
  intros Hn Hd Ha Hda HL Hnodes. destruct (node_count_to_levels_spec n d a) as (L' & HL' & Hmax & _); [lia..|].
  rewrite HL in HL'. injection HL' as <-. pose proof (max_levels_bounds d a) as (Hm1 & Hm2 & Hm3); [lia..|].
  unfold auth_tree_node_count_to_max_covered_data_block_count. rewrite (proj2 (Z.eqb_neq n 0)) by lia.
  do 4 zdec1. cbn [andb debug_assert obind]. rewrite debug_check_true by (rewrite HL; f_equal; by apply Z.eqb_eq). cbn [obind].
  destruct (Z.eqb_spec L 1) as [->|HL1].
  - change (Z.to_nat 1) with 1%nat in *. cbn [nodes] in Hnodes. replace n with 1 by lia. cbn [debug_assert Z.eqb Pos.eqb obind].
    rewrite shl_one by lia. f_equal. cbn. assert (2 ^ d ≤ 2 ^ 63) by (apply Z.pow_le_mono_r; lia). lia.
  - destruct (Z.to_nat L) as [|[|h]] eqn:Eh; [lia..|]. rewrite usub_Ok by lia. cbn [obind].
    replace L with (Z.of_nat (S (S h))) by lia. replace (Z.of_nat (S (S h)) - 1) with (Z.of_nat (S h)) by lia.
    rewrite auth_subtree_node_count_spec by nia. cbn [obind]. rewrite max_covered_loop_spec; [done|lia|lia|nia|nia|lia|lia|lia|done|done].
Qed.

(** *** The tree for an image *)

(** The blocks that a complete tree of height [h] and the data it covers occupy. *)
Definition total (d nb a : Z) (h : nat) : Z := nodes c h * 2 ^ nb + 2 ^ (c * (Z.of_nat h - 1) + d + a).

Section Image.
Variables (d nb a : Z).
Hypothesis Hd : 1 ≤ d.
Hypothesis Ha : 0 ≤ a.
Hypothesis Hnb : 0 ≤ nb ≤ 63.
(** The data of a leaf is larger than the leaf. *)
Hypothesis Hleaf : nb < d + a.

Lemma leaf_data_larger : 2 * 2 ^ nb ≤ 2 ^ (d + a).
Proof. rewrite <-Z.pow_succ_r by lia. apply Z.pow_le_mono_r; lia. Qed.

Lemma total_S h : (1 ≤ h)%nat → total d nb a (S h) = 2 ^ nb + 2 ^ c * total d nb a h.
Proof.
  intros. unfold total. cbn [nodes]. replace (c * (Z.of_nat (S h) - 1) + d + a) with (c + (c * (Z.of_nat h - 1) + d + a)) by lia.
  rewrite (Z.pow_add_r 2 c) by nia. ring.
Qed.

Lemma total_1 : total d nb a 1 = 2 ^ nb + 2 ^ (d + a).
Proof. unfold total. cbn [nodes]. rewrite Z.mul_0_r, Z.add_0_r, Z.mul_1_l. f_equal. f_equal. lia. Qed.

Lemma span_nonneg h : (1 ≤ h)%nat → 2 ^ nb + 2 ^ (d + a) ≤ total d nb a h.
Proof.
  intros Hh. unfold total. pose proof (nodes_pos c h ltac:(lia) ltac:(lia)). pose proof (pow2_pos nb ltac:(lia)).
  assert (2 ^ (d + a) ≤ 2 ^ (c * (Z.of_nat h - 1) + d + a)) by (apply Z.pow_le_mono_r; nia). nia.
Qed.

Lemma nodes_ge h : Z.of_nat h ≤ nodes c h.
Proof.
  induction h as [|h IH]; [done|]. rewrite nodes_snoc by lia. pose proof (pow2_pos (c * Z.of_nat h) ltac:(nia)). lia.
Qed.

(** A path from the root to a leaf fits in the total. *)
Lemma total_path h : (1 ≤ h)%nat → (Z.of_nat h + 1) * 2 ^ nb ≤ total d nb a h.
Proof.
  intros Hh. unfold total. pose proof (nodes_ge h). pose proof (pow2_pos nb ltac:(lia)). pose proof leaf_data_larger.
  assert (2 ^ (d + a) ≤ 2 ^ (c * (Z.of_nat h - 1) + d + a)) by (apply Z.pow_le_mono_r; nia). nia.
Qed.

(** *** The quotient that determines the height *)

Definition quot_of (v q r x : Z) : Prop := x = q * v + r ∧ 0 ≤ r < v ∧ 0 ≤ q.

Lemma div_step_spec v q r x y :
  quot_of v q r x → 0 ≤ y < v → v < 2 ^ 64 → q + 1 < 2 ^ 64 → ∃ q' r', div_step v q r y = Ok (q', r') ∧ quot_of v q' r' (x + y) ∧ q' ≤ q + 1.
Proof.
  intros (-> & Hr & Hq) Hy Hv Hb. unfold div_step. rewrite usub_Ok by lia. cbn [obind]. zcase.
  - rewrite uadd_Ok by lia. cbn [obind]. rewrite usub_Ok by lia. cbn [obind]. do 2 eexists. split; [done|]. unfold quot_of. split; lia.
  - rewrite uadd_Ok by lia. cbn [obind]. do 2 eexists. split; [done|]. unfold quot_of. split; lia.
Qed.

Lemma double_step_spec v q r x :
  quot_of v q r x → v < 2 ^ 64 → 2 * q + 1 < 2 ^ 64 →
  ∃ q' r', double_step v q r = Ok (q', r') ∧ quot_of v q' r' (2 * x) ∧ q' ≤ 2 * q + 1.
Proof.
  intros (-> & Hr & Hq) Hv Hb. unfold double_step. rewrite ushl_Ok by lia. cbn [obind].
  rewrite Z.shiftl_mul_pow2, wrap_small by (lia || split; lia). change (2 ^ 1) with 2. rewrite usub_Ok by lia. cbn [obind]. zcase.
  - rewrite uadd_Ok by lia. cbn [obind]. rewrite usub_Ok by lia. cbn [obind]. do 2 eexists. split; [done|]. unfold quot_of. split; lia.
  - rewrite ushl_Ok by lia. cbn [obind]. rewrite Z.shiftl_mul_pow2, wrap_small by (lia || split; lia). do 2 eexists. split; [done|].
    unfold quot_of. split; lia.
Qed.

Lemma mul_div_loop_spec n : ∀ v r q ρ m,
  0 ≤ r < v → v < 2 ^ 64 → 0 ≤ m → quot_of v q ρ ((2 ^ (m + 1) - 1) * r) → m + Z.of_nat n ≤ 62 →
  ∃ q' ρ', mul_div_loop n v r q ρ = Ok (q', ρ') ∧ quot_of v q' ρ' ((2 ^ (m + Z.of_nat n + 1) - 1) * r).
Proof.
  induction n as [|n IH]; intros v r q ρ m Hr Hv Hm Hq Hn; cbn [mul_div_loop].
  - exists q, ρ. split; [done|]. by rewrite Z.add_0_r.
  - assert (q < 2 ^ (m + 1)) as Hqb.
    { destruct Hq as (Heq & Hρ & Hq0). pose proof (pow2_pos (m + 1) ltac:(lia)). nia. }
    assert (2 ^ (m + 1) ≤ 2 ^ 62) as H62 by (apply Z.pow_le_mono_r; lia).
    destruct (double_step_spec v q ρ _ Hq Hv) as (q1 & ρ1 & -> & Hq1 & Hb1); [lia|]. cbn [obind].
    destruct (div_step_spec v q1 ρ1 _ r Hq1) as (q2 & ρ2 & -> & Hq2 & Hb2); [lia..|]. cbn [obind].
    destruct (IH v r q2 ρ2 (m + 1)) as (q' & ρ' & -> & Hq'); [done..|lia| |lia|].
    + replace ((2 ^ (m + 1 + 1) - 1) * r) with (2 * ((2 ^ (m + 1) - 1) * r) + r); [done|].
      rewrite (Z.pow_add_r 2 (m + 1) 1) by lia. lia.
    + exists q', ρ'. split; [done|]. by replace (m + Z.of_nat (S n) + 1) with (m + 1 + Z.of_nat n + 1) by lia.
Qed.

Definition divisor : Z := 2 ^ c * 2 ^ nb + (2 ^ c - 1) * 2 ^ (d + a).

Lemma levels_quotient_spec image :
  image < 2 ^ 64 → c + d + a ≤ 63 → c + nb ≤ 63 → 2 ^ c * 2 ^ nb + 2 ^ c * 2 ^ (d + a) < image →
  ∃ q, levels_quotient image c d nb a (2 ^ c) (2 ^ nb) = Ok q ∧ 1 ≤ q ∧ (q - 1) * divisor < (2 ^ c - 1) * image + 2 ^ nb ≤ q * divisor.
Proof.
  intros Himg Hcda Hcnb Hlarge. pose proof (pow2_ge2 c ltac:(lia)) as Hc2. pose proof (pow2_pos nb ltac:(lia)) as Hb.
  pose proof leaf_data_larger as Hfs. set (fs := 2 ^ (d + a)) in *. set (b := 2 ^ nb) in *. set (u := 2 ^ c - 1) in *.
  assert (divisor = (u + 1) * b + u * fs) as Hdiv by (unfold divisor, u, fs, b; ring).
  unfold levels_quotient. rewrite usub_Ok by lia. cbn [obind]. fold u. rewrite uadd_Ok by lia. cbn [obind]. rewrite shl_one by lia. cbn [obind].
  rewrite uadd_Ok by lia. cbn [obind]. rewrite ushl_Ok by lia. cbn [obind]. rewrite Z.shiftl_mul_pow2 by lia. fold fs.
  assert (u * fs < 2 ^ 64) by (clear - Hlarge Himg Hc2 Hb; unfold u; nia). assert (0 ≤ u * fs) by (clear - Hfs Hb Hc2; unfold u; nia).
  rewrite wrap_small by done. rewrite Z.pow_add_r by lia. fold b. replace (2 ^ c) with (u + 1) in * by (unfold u; lia).
  assert (0 ≤ (u + 1) * b) by (clear - Hb Hc2; unfold u; nia).
  rewrite uadd_Ok by (clear - Hlarge Himg Hfs; nia). cbn [obind]. rewrite <-Hdiv. set (v := divisor) in *.
  assert (u < v) by (clear - Hdiv Hb Hc2 Hfs; unfold u in *; nia). assert (v < image) by (clear - Hdiv Hlarge Hc2 Hfs Hb; unfold u in *; nia).
  assert (b < v) by (clear - Hdiv Hb Hc2 Hfs; unfold u in *; nia). assert (2 * u ≤ v) by (clear - Hdiv Hb Hc2 Hfs; unfold u in *; nia).
  rewrite (proj2 (Z.ltb_lt u v)) by done. cbn [debug_assert obind]. unfold udiv. rewrite (proj2 (Z.eqb_neq v 0)) by lia. cbn [obind].
  pose proof (Z.div_mod image v ltac:(lia)) as Hdm. pose proof (Z.mod_pos_bound image v ltac:(lia)) as Hr.
  assert (1 ≤ image / v) as Hq0 by (apply Z.div_le_lower_bound; lia). set (q0 := image / v) in *. set (r := image mod v) in *.
  rewrite (proj2 (Z.eqb_neq q0 0)) by lia. cbn [negb debug_assert obind]. rewrite umul_Ok by lia. cbn [obind]. rewrite usub_Ok by lia. cbn [obind].
  replace (image - v * q0) with r by lia. assert (q0 * (2 * u) ≤ q0 * v) as Hq0u by (apply Z.mul_le_mono_nonneg_l; lia).
  rewrite umul_Ok by lia. cbn [obind].
  rewrite (proj2 (Z.leb_le r (Z.shiftr (2 ^ 64 - 1) 1))) by (change (Z.shiftr (2 ^ 64 - 1) 1) with (2 ^ 63 - 1); assert (1 * v ≤ q0 * v) by (apply Z.mul_le_mono_nonneg_r; lia); lia).
  cbn [debug_assert obind].
  destruct (mul_div_loop_spec (Z.to_nat (c - 1)) v r 0 r 0) as (qur & rur & -> & Heq & Hrur & Hqur); [lia..|unfold quot_of; lia|lia|].
  replace (0 + Z.of_nat (Z.to_nat (c - 1)) + 1) with c in Heq by lia. fold u in Heq. cbn [obind].
  assert (qur ≤ u) as Hqu by (clear - Heq Hrur Hqur Hr Hc2; unfold u in *; nia).
  rewrite uadd_Ok by lia. cbn [obind].
  destruct (div_step_spec v (q0 * u + qur) rur (u * image) b) as (q & ρ & -> & (Hq1 & Hρ & Hq2) & Hq3); [|lia..|].
  { unfold quot_of. split; [|split; [lia|]].
    - rewrite Hdm. replace (u * (v * q0 + r)) with (q0 * u * v + u * r) by ring. rewrite Heq. ring.
    - assert (0 ≤ q0 * u) by (apply Z.mul_nonneg_nonneg; lia). lia. }
  cbn [obind]. destruct (Z.eqb_spec ρ 0) as [Hz|Hz]; cbn [negb].
  - exists q. split; [done|]. assert (0 < q) by (clear - Hq1 Hz Hq2 Hb Himg Hlarge Hc2 Hr H2 H3; assert (0 ≤ u * image) by (unfold u; nia); nia).
    split; [lia|]. lia.
  - rewrite uadd_Ok by lia. eexists. split; [done|]. split; [lia|]. lia.
Qed.

(** The quotient compares with the leaves as the image does with the total. *)
Lemma total_divisor h : (2 ^ c - 1) * total d nb a (S h) + 2 ^ nb = divisor * 2 ^ (c * Z.of_nat h).
Proof.
  unfold total, divisor. pose proof (nodes_geometric c (S h) ltac:(lia)) as Hg. rewrite Nat2Z.inj_succ, Z.mul_succ_r, Z.pow_add_r in Hg by lia.
  replace (c * (Z.of_nat (S h) - 1) + d + a) with (c * Z.of_nat h + (d + a)) by lia. rewrite (Z.pow_add_r 2 (c * Z.of_nat h)) by nia.
  set (x := 2 ^ (c * Z.of_nat h)) in *. set (n := nodes c (S h)) in *.
  replace ((2 ^ c - 1) * (n * 2 ^ nb + x * 2 ^ (d + a)) + 2 ^ nb) with ((2 ^ c - 1) * n * 2 ^ nb + 2 ^ nb + (2 ^ c - 1) * x * 2 ^ (d + a)) by ring.
  rewrite Hg. ring.
Qed.

Lemma quotient_enough image q h :
  (q - 1) * divisor < (2 ^ c - 1) * image + 2 ^ nb ≤ q * divisor → q ≤ 2 ^ (c * Z.of_nat h) ↔ image ≤ total d nb a (S h).
Proof.
  intros Hq. pose proof (total_divisor h) as Ht. pose proof (pow2_ge2 c ltac:(lia)). pose proof (pow2_pos nb ltac:(lia)).
  pose proof (pow2_pos (d + a) ltac:(lia)). assert (0 < divisor) by (unfold divisor; nia). set (x := 2 ^ (c * Z.of_nat h)) in *.
  set (t := total d nb a (S h)) in *. split; intros Hle.
  - assert (q * divisor ≤ x * divisor) by (apply Z.mul_le_mono_nonneg_r; lia). nia.
  - destruct (Z.le_gt_cases q x); [done|]. assert (x * divisor ≤ (q - 1) * divisor) by (apply Z.mul_le_mono_nonneg_r; lia). nia.
Qed.

(** The height is the least whose complete tree spans the image, or one less, when
    there is no room for a second subtree of the root. *)
Definition image_levels (image : Z) (L : nat) : Prop :=
  (1 ≤ L)%nat ∧ ((1 < L)%nat → total d nb a (L - 1) < image) ∧
  (image ≤ total d nb a L ∨ (2 ≤ L)%nat ∧ total d nb a L < image < total d nb a L + (Z.of_nat L + 1) * 2 ^ nb).

Lemma image_levels_general image :
  image < 2 ^ 64 → c + d + a ≤ 63 → c + nb ≤ 63 → 2 ^ c * 2 ^ nb + 2 ^ c * 2 ^ (d + a) < image →
  ∃ L, (let! q := levels_quotient image c d nb a (2 ^ c) (2 ^ nb) in
    let! q_log2 := (if negb (q =? 1) then let! t := usub 64 q 1 in let! t := ilog2 t in uadd 32 t 1 else Ok 0) in
    uadd 8 (wrap 8 (div_ceil q_log2 c)) 1) = Ok (Z.of_nat L) ∧
    (2 ≤ L ≤ 65)%nat ∧ total d nb a (L - 1) < image ≤ total d nb a L.
Proof.
  intros Himg Hcda Hcnb Hlarge. destruct (levels_quotient_spec image) as (q & -> & Hq & Hdiv); [done..|]. cbn [obind].
  assert ((if negb (q =? 1) then let! t := usub 64 q 1 in let! t := ilog2 t in uadd 32 t 1 else Ok 0) = Ok (E:=NvFsError) (Z.log2_up q)) as Hlog.
  { destruct (Z.eqb_spec q 1) as [->|]; [done|]. cbn [negb]. rewrite usub_Ok by lia. cbn [obind]. unfold ilog2.
    rewrite (proj2 (Z.eqb_neq (q - 1) 0)) by lia. cbn [obind]. pose proof (quotient_enough image q 63 Hdiv) as Hq63.
    assert (Z.log2 (q - 1) < 4096) as Hb.
    { assert (q ≤ 2 ^ (c * Z.of_nat 63)) as Hqb.
      { apply Hq63. pose proof (pow2_pos nb ltac:(lia)). pose proof (nodes_nonneg c 64 ltac:(lia)). unfold total.
        assert (2 ^ 64 ≤ 2 ^ (c * (Z.of_nat 64 - 1) + d + a)) by (apply Z.pow_le_mono_r; nia). nia. }
      assert (q ≤ 2 ^ (63 * 63)) by (etransitivity; [exact Hqb|apply Z.pow_le_mono_r; lia]).
      apply Z.log2_lt_pow2; [lia|]. assert (2 ^ (63 * 63) < 2 ^ 4096) by (apply Z.pow_lt_mono_r; lia). lia. }
    pose proof (Z.log2_nonneg (q - 1)). rewrite uadd_Ok by lia. f_equal. rewrite Z.log2_up_eqn by lia. rewrite Z.sub_1_r. lia. }
  rewrite Hlog. cbn [obind]. pose proof (Z.log2_up_nonneg q) as Hlog0.
  assert (∀ h, div_ceil (Z.log2_up q) c ≤ Z.of_nat h ↔ image ≤ total d nb a (S h)) as Hleast.
  { intros h. rewrite div_ceil_le by done. rewrite <-quotient_enough by exact Hdiv. by rewrite Z.log2_up_le_pow2 by nia. }
  assert (0 ≤ div_ceil (Z.log2_up q) c) as H0 by (unfold div_ceil; apply Z.div_pos; lia). set (k := div_ceil (Z.log2_up q) c) in *.
  assert (k ≤ 64) as Hk.
  { change 64 with (Z.of_nat 64). apply Hleast. unfold total. pose proof (nodes_nonneg c 65 ltac:(lia)). pose proof (pow2_pos nb ltac:(lia)).
    assert (2 ^ 64 ≤ 2 ^ (c * (Z.of_nat 65 - 1) + d + a)) by (apply Z.pow_le_mono_r; nia). nia. }
  assert (1 ≤ k) as Hk1.
  { destruct (Z.le_gt_cases 1 k); [done|]. pose proof (proj1 (Hleast O) ltac:(lia)) as Hle. rewrite total_1 in Hle.
    pose proof (pow2_ge2 c ltac:(lia)). pose proof (pow2_pos nb ltac:(lia)). pose proof (pow2_pos (d + a) ltac:(lia)). nia. }
  rewrite wrap_small by (unfold in_u; lia). rewrite uadd_Ok by lia. exists (S (Z.to_nat k)). split; [f_equal; lia|]. split; [lia|].
  replace (S (Z.to_nat k) - 1)%nat with (S (Z.to_nat (k - 1))) by lia. split.
  - destruct (Z.le_gt_cases image (total d nb a (S (Z.to_nat (k - 1))))) as [Hle|]; [|done]. apply Hleast in Hle. lia.
  - apply Hleast. lia.
Qed.

Lemma reduce_levels_spec image (L : nat) :
  image < 2 ^ 64 → (2 ≤ L ≤ 65)%nat → total d nb a (L - 1) < image →
  reduce_levels image (Z.of_nat L) c inv d nb a =
    Ok (if image - total d nb a (L - 1) <? Z.of_nat L * 2 ^ nb then Z.of_nat L - 1 else Z.of_nat L).
Proof.
  intros Himg HL Ht. pose proof (pow2_pos nb ltac:(lia)) as Hb. unfold reduce_levels. zdec1. rewrite usub_Ok by lia. cbn [obind].
  rewrite usub_Ok by lia. cbn [obind]. replace (Z.of_nat L - 2) with (Z.of_nat (L - 2)) by lia.
  replace (Z.of_nat L - 1) with (Z.of_nat (L - 1)) by lia. pose proof (total_path (L - 1) ltac:(lia)) as Hpath.
  unfold total in Ht, Hpath |- *. pose proof (nodes_nonneg c (L - 1) ltac:(lia)) as Hnn.
  replace (Z.of_nat (L - 1) + 1) with (Z.of_nat L) in Hpath by lia. replace (Z.of_nat (L - 1) - 1) with (Z.of_nat (L - 2)) in * by lia.
  assert (c * Z.of_nat (L - 2) + d + a ≤ 63) as Hsh.
  { destruct (Z.le_gt_cases (c * Z.of_nat (L - 2) + d + a) 63); [done|]. exfalso.
    assert (2 ^ 64 ≤ 2 ^ (c * Z.of_nat (L - 2) + d + a)) as Hp by (apply Z.pow_le_mono_r; lia). clear - Ht Hp Hnn Hb Himg. nia. }
  pose proof (pow2_pos (c * Z.of_nat (L - 2) + d + a) ltac:(nia)) as Hpd.
  assert (0 ≤ nodes c (L - 1) * 2 ^ nb ∧ 0 ≤ Z.of_nat L * 2 ^ nb) as [? ?] by (split; apply Z.mul_nonneg_nonneg; lia).
  rewrite auth_subtree_node_count_spec by (lia || (replace (Z.of_nat (L - 1) - 1) with (Z.of_nat (L - 2)) by lia; lia)). cbn [obind]. replace (S (L - 2)) with (L - 1)%nat by lia.
  rewrite umul_Ok by nia. cbn [obind]. rewrite uadd_Ok by nia. cbn [obind]. rewrite uadd_Ok by nia. cbn [obind].
  rewrite (Z.mul_comm (Z.of_nat (L - 2))). rewrite shl_one by nia. cbn [obind].
  rewrite ushl_Ok by lia. cbn [obind]. rewrite Z.shiftl_mul_pow2, wrap_small by (unfold in_u; lia).
  rewrite uadd_Ok by lia. cbn [obind]. zdec1. cbn [debug_assert obind].
  rewrite usub_Ok by lia. cbn [obind]. rewrite ushl_Ok by lia. cbn [obind]. rewrite Z.shiftl_mul_pow2, wrap_small by (unfold in_u; lia).
  by zcase.
Qed.

Lemma image_levels_spec image :
  2 ^ nb ≤ image < 2 ^ 64 → d + a < 2 ^ 31 →
  ∃ L, image_allocation_blocks_to_auth_tree_levels image c inv d nb a = Ok (Z.of_nat L) ∧ (L ≤ 65)%nat ∧ image_levels image L.
Proof.
  intros Himg Hda. pose proof (pow2_ge2 c ltac:(lia)) as Hc2. pose proof (pow2_pos nb ltac:(lia)) as Hb. pose proof leaf_data_larger as Hfs.
  unfold image_allocation_blocks_to_auth_tree_levels. do 2 (rewrite shl_one by lia; cbn [obind]). zdec1. unfold image_levels.
  pose proof (total_S 1 ltac:(lia)) as Ht2. pose proof total_1 as Ht1. rewrite Ht1 in Ht2.
  assert (∀ image', image' ≤ total d nb a 1 → image = image' →
    ∃ L : nat, Ok (E:=NvFsError) 1 = Ok (Z.of_nat L) ∧ (L ≤ 65)%nat ∧ (1 ≤ L)%nat ∧ ((1 < L)%nat → total d nb a (L - 1) < image) ∧
      (image ≤ total d nb a L ∨ (2 ≤ L)%nat ∧ total d nb a L < image < total d nb a L + (Z.of_nat L + 1) * 2 ^ nb)) as One.
  { intros image' Hi ->. exists 1%nat. split; [done|]. split; [lia|]. split; [lia|]. split; [lia|]. by left. }
  destruct (Z.ltb_spec (image / 2) (2 ^ nb)) as [H2|H2].
  { apply (One image); [|done]. pose proof (Z.mul_succ_div_gt image 2 ltac:(lia)). lia. }
  rewrite uadd_Ok by lia. cbn [obind]. destruct (Z.leb_spec 64 (d + a)) as [Hd64|Hd64].
  { apply (One image); [|done]. assert (2 ^ 64 ≤ 2 ^ (d + a)) by (apply Z.pow_le_mono_r; lia). lia. }
  rewrite usub_Ok by lia. cbn [obind]. rewrite shl_one by lia. cbn [obind]. destruct (Z.leb_spec (image - 2 ^ nb) (2 ^ (d + a))) as [H1t|H1t].
  { apply (One image); [lia|done]. }
  assert (image ≤ total d nb a 2 → ∃ L : nat, Ok (E:=NvFsError) 2 = Ok (Z.of_nat L) ∧ (L ≤ 65)%nat ∧ (1 ≤ L)%nat ∧ ((1 < L)%nat → total d nb a (L - 1) < image) ∧
      (image ≤ total d nb a L ∨ (2 ≤ L)%nat ∧ total d nb a L < image < total d nb a L + (Z.of_nat L + 1) * 2 ^ nb)) as Two.
  { intros Hi. exists 2%nat. split; [done|]. split; [lia|]. split; [lia|]. split; [intros _; change (2 - 1)%nat with 1%nat; lia|]. by left. }
  rewrite ushr_Ok by lia. cbn [obind]. rewrite Z.shiftr_div_pow2 by lia.
  destruct (Z.leb_spec (image / 2 ^ nb) (2 ^ c)) as [Hn|Hn].
  { apply Two. pose proof (Z.mul_succ_div_gt image (2 ^ nb) Hb) as Hgt. clear - Hn Ht2 Hb Hfs Hc2 Hgt. nia. }
  assert ((2 ^ c + 1) * 2 ^ nb ≤ image) as Hroom by (pose proof (Z.mul_div_le image (2 ^ nb) Hb) as Hle; clear - Hn Hb Hle; nia).
  rewrite uadd_Ok by lia. cbn [obind]. rewrite uadd_Ok by lia. cbn [obind]. destruct (Z.leb_spec 64 (c + d + a)) as [Hc64|Hc64].
  { apply Two. assert (2 ^ 64 ≤ 2 ^ (c + (d + a))) as Hp by (apply Z.pow_le_mono_r; lia). rewrite (Z.pow_add_r 2 c) in Hp by lia. clear - Ht2 Hb Hc2 Himg Hp. nia. }
  assert (c + nb ≤ 63) as Hcnb.
  { destruct (Z.le_gt_cases (c + nb) 63); [done|]. assert (2 ^ 64 ≤ 2 ^ (c + nb)) as Hp by (apply Z.pow_le_mono_r; lia). rewrite (Z.pow_add_r 2 c) in Hp by lia. clear - Hp Hroom Himg Hb. nia. }
  rewrite uadd_Ok by lia. cbn [obind]. rewrite shl_one by lia. cbn [obind]. rewrite Z.pow_add_r by lia. rewrite usub_Ok by (clear - Hroom Hb; nia). cbn [obind].
  rewrite shl_one by lia. cbn [obind]. replace (c + d + a) with (c + (d + a)) by lia. rewrite Z.pow_add_r by lia.
  destruct (Z.leb_spec (image - 2 ^ c * 2 ^ nb) (2 ^ c * 2 ^ (d + a))) as [H2t|H2t]; [apply Two; lia|].
  destruct (image_levels_general image) as (L & HL & HL2 & Ht); [lia..|]. revert HL.
  destruct (levels_quotient image c d nb a (2 ^ c) (2 ^ nb)) as [q| | |]; cbn [obind]; [|done..].
  destruct (if negb (q =? 1) then _ else _) as [ql| | |]; cbn [obind]; [|done..]. intros ->. cbn [obind].
  rewrite reduce_levels_spec by (done || lia). destruct (Z.ltb_spec (image - total d nb a (L - 1)) (Z.of_nat L * 2 ^ nb)) as [Hpt|Hpt].
  - exists (L - 1)%nat. split; [f_equal; lia|]. split; [lia|]. split; [lia|].
    assert ((2 < L)%nat).
    { destruct (decide (L = 2%nat)) as [->|]; [|lia]. exfalso. change (2 - 1)%nat with 1%nat in *. clear - H2t Hpt Ht1 Hc2 Hb Hfs. nia. }
    split.
    + intros HL3. destruct Ht as [Ht _]. etransitivity; [|exact Ht]. replace (L - 1)%nat with (S (L - 1 - 1)) by lia.
      rewrite (total_S (L - 1 - 1)) by lia. replace (S (L - 1 - 1) - 1)%nat with (L - 1 - 1)%nat by lia.
      pose proof (span_nonneg (L - 1 - 1) ltac:(lia)) as Htn'. clear - Hb Hc2 Htn' Hfs. nia.
    + right. split; [lia|]. replace (Z.of_nat (L - 1) + 1) with (Z.of_nat L) by lia. lia.
  - exists L. split; [done|]. split; [lia|]. split; [lia|]. split; [intros; lia|]. left. lia.
Qed.

Lemma leaf_count_split h q m : 0 ≤ q → 0 ≤ m ≤ nodes c (S h) →
  leaf_count (S (S h)) (1 + q * nodes c (S h) + m) = q * 2 ^ (c * Z.of_nat h) + leaf_count (S h) m.
Proof.
  intros Hq Hm. pose proof (nodes_pos c (S h) ltac:(lia) ltac:(lia)) as Hp. rewrite leaf_count_S by nia.
  replace (1 + q * nodes c (S h) + m - 1) with (m + q * nodes c (S h)) by lia. rewrite Z.div_add, Z.mod_add by lia.
  destruct (Z.eq_dec m (nodes c (S h))) as [->|].
  - rewrite Z.div_same, Z.mod_same, leaf_count_full, leaf_count_0 by lia. lia.
  - rewrite Z.div_small, Z.mod_small by lia. lia.
Qed.

(** What the tree of [M] nodes that the loop fits into [size] blocks has to satisfy:
    the data next to it is covered by its leaves, every leaf is needed, and all but
    the rest is used. *)
Definition fitted (h : nat) (size M rest : Z) : Prop :=
  Z.of_nat h ≤ M ≤ nodes c h ∧ 0 ≤ rest ∧
  (leaf_count h M - 1) * 2 ^ (d + a) ≤ size - M * 2 ^ nb - rest ≤ leaf_count h M * 2 ^ (d + a) ∧
  0 ≤ size - M * 2 ^ nb - rest ∧ (total d nb a h - 2 ^ (d + a) < size → M = nodes c h) ∧
  ((2 ≤ h)%nat → total d nb a (h - 1) < size → nodes c (h - 1) < M).

Section NodeCount.
(** The granularity of the data in a leaf, as the loop sees it, is at most a data
    block. *)
Hypothesis Hgran : d ≤ c ≤ d + a.

(** The blocks of an entry of a node at height [S k]. *)
Definition entry_total (k : nat) : Z := nodes c k * 2 ^ nb + 2 ^ (c * (Z.of_nat k - 1) + d + a).

Lemma node_count_round n k I N :
  Z.of_nat (S k) * 2 ^ nb ≤ I < 2 ^ 64 → (k ≤ 64)%nat → c * (Z.of_nat k - 1) + d + a ≤ 63 → I ≤ total d nb a (S k) → 0 ≤ N → N + nodes c (S k) < 2 ^ 64 →
  nodes c k * 2 ^ nb < 2 ^ 64 - 2 ^ (c * (Z.of_nat k - 1) + d + a) →
  let q := (I - 2 ^ nb) / entry_total k in let r := (I - 2 ^ nb) mod entry_total k in
  node_count_loop (S n) (Z.of_nat (S k)) I N (nodes c k) (2 ^ (c * (Z.of_nat k - 1) + d + a)) c nb =
    if r <? Z.of_nat k * 2 ^ nb then Ok (Z.of_nat k, N + 1 + q * nodes c k, r)
    else node_count_loop n (Z.of_nat k) r (N + 1 + q * nodes c k)
      (match k with O => nodes c k | S k' => nodes c k' end)
      (match k with O => 2 ^ (c * (Z.of_nat k - 1) + d + a) | S k' => 2 ^ (c * (Z.of_nat k' - 1) + d + a) end) c nb.
Proof.
  intros HI Hk Hsh Htot HN Hfit Hent q r. pose proof (pow2_pos nb ltac:(lia)) as Hb. pose proof (nodes_nonneg c k ltac:(lia)) as Hnn.
  assert (0 ≤ c * (Z.of_nat k - 1) + d + a) as Hsh0 by (destruct k; [|nia]; change (Z.of_nat 0 - 1) with (-1); lia).
  pose proof (pow2_pos _ Hsh0) as Hpd. cbn [node_count_loop].
  assert (0 ≤ nodes c k * 2 ^ nb) by (apply Z.mul_nonneg_nonneg; lia).
  rewrite usub_Ok by lia. cbn [obind]. rewrite ushl_Ok by lia. cbn [obind]. rewrite Z.shiftl_mul_pow2, wrap_small by (unfold in_u; lia).
  rewrite uadd_Ok by lia. cbn [obind]. fold (entry_total k). rewrite shl_one by lia. cbn [obind]. rewrite usub_Ok by nia. cbn [obind].
  assert (0 < entry_total k) as Hpos by (unfold entry_total; lia).
  pose proof (Z.div_mod (I - 2 ^ nb) (entry_total k) ltac:(lia)) as Hdm. pose proof (Z.mod_pos_bound (I - 2 ^ nb) _ Hpos) as Hr.
  pose proof (Z.div_pos (I - 2 ^ nb) (entry_total k) ltac:(nia) ltac:(lia)) as Hq. fold q r in Hdm, Hr, Hq.
  assert (q ≤ 2 ^ c) as Hqc.
  { enough (q < 2 ^ c + 1) by lia. apply Z.div_lt_upper_bound; [done|]. destruct k as [|k].
    - unfold entry_total, total in *. cbn [nodes] in *. change (Z.of_nat 1 - 1) with 0 in Htot. change (Z.of_nat 0 - 1) with (-1) in *.
      replace (c * 0 + d + a) with (c + (c * (-1) + d + a)) in Htot by lia. rewrite (Z.pow_add_r 2 c) in Htot by lia. lia.
    - rewrite total_S in Htot by lia. change (entry_total (S k)) with (total d nb a (S k)) in *. lia. }
  assert (q * nodes c k ≤ 2 ^ c * nodes c k) as Hqn by (apply Z.mul_le_mono_nonneg_r; lia). cbn [nodes] in Hfit.
  assert (0 ≤ q * nodes c k) by (apply Z.mul_nonneg_nonneg; lia).
  rewrite uadd_Ok by lia. cbn [obind]. unfold udiv. rewrite (proj2 (Z.eqb_neq (entry_total k) 0)) by lia. cbn [obind]. fold q.
  rewrite umul_Ok by lia. cbn [obind]. rewrite usub_Ok by lia. cbn [obind]. replace (I - 2 ^ nb - q * entry_total k) with r by lia.
  rewrite umul_Ok by lia. cbn [obind]. rewrite uadd_Ok by lia. cbn [obind].
  replace (Z.of_nat (S k) - 1) with (Z.of_nat k) by lia. rewrite ushl_Ok by lia. cbn [obind].
  assert (0 ≤ Z.of_nat k * 2 ^ nb ∧ Z.of_nat k * 2 ^ nb < 2 ^ 64) by (split; [apply Z.mul_nonneg_nonneg; lia|rewrite Nat2Z.inj_succ in HI; lia]).
  rewrite Z.shiftl_mul_pow2, wrap_small by (unfold in_u; lia). destruct (Z.ltb_spec r (Z.of_nat k * 2 ^ nb)); [done|].
  destruct k as [|k]; [done|]. rewrite (proj2 (Z.eqb_neq (Z.of_nat (S k)) 0)) by lia. cbn [negb].
  pose proof (pow2_pos c ltac:(lia)). pose proof (nodes_nonneg c k ltac:(lia)). rewrite usub_Ok by (cbn [nodes]; nia). cbn [obind].
  rewrite !ushr_Ok by lia. cbn [obind]. rewrite !Z.shiftr_div_pow2 by lia. f_equal.
  - cbn [nodes]. replace (1 + 2 ^ c * nodes c k - 1) with (nodes c k * 2 ^ c) by lia. by rewrite Z.div_mul by lia.
  - replace (c * (Z.of_nat (S k) - 1) + d + a) with (c * (Z.of_nat k - 1) + d + a + c) by lia.
    rewrite Z.pow_add_r by (destruct k; [change (Z.of_nat 0 - 1) with (-1)|]; nia). by rewrite Z.div_mul by lia.
Qed.

Lemma node_count_loop_spec k : ∀ I N,
  Z.of_nat (S k) * 2 ^ nb ≤ I < 2 ^ 64 → (k ≤ 64)%nat → c * (Z.of_nat k - 1) + d + a ≤ 63 → I ≤ total d nb a (S k) →
  ((1 ≤ k)%nat → entry_total k < 2 ^ 64) → 0 ≤ N → N + nodes c (S k) < 2 ^ 64 →
  ∃ level M rest, node_count_loop (S k) (Z.of_nat (S k)) I N (nodes c k) (2 ^ (c * (Z.of_nat k - 1) + d + a)) c nb =
      Ok (level, N + M, rest) ∧ 0 ≤ level ∧ (level = 0 → rest < 2 ^ a) ∧ fitted (S k) I M rest.
Proof.
  pose proof (pow2_pos nb ltac:(lia)) as Hb. pose proof (pow2_pos (d + a) ltac:(lia)) as Hfs. pose proof (pow2_ge2 c ltac:(lia)) as Hc2.
  pose proof leaf_data_larger as Hlarger.
  induction k as [|k IH]; intros I N HI Hk Hsh Htot Hent HN Hfit.
  - rewrite (node_count_round 0 0) by (done || cbn [nodes]; change (Z.of_nat 0 - 1) with (-1) in *; assert (2 ^ (c * (-1) + d + a) ≤ 2 ^ 63) by (apply Z.pow_le_mono_r; lia); lia).
    unfold entry_total. cbn [nodes]. change (Z.of_nat 0 * 2 ^ nb) with 0. change (Z.of_nat 0 - 1) with (-1). change (Z.of_nat 0) with 0.
    rewrite Z.mul_0_l, Z.add_0_l, Z.mul_0_r, Z.add_0_r.
    set (g := c * (-1) + d + a). assert (0 ≤ g ≤ a) as Hg by (unfold g; lia). pose proof (pow2_pos g ltac:(lia)) as Hpg.
    pose proof (Z.mod_pos_bound (I - 2 ^ nb) (2 ^ g) ltac:(lia)) as Hr. zdec1. cbn [node_count_loop].
    exists 0, 1, ((I - 2 ^ nb) mod 2 ^ g). split; [done|]. split; [done|].
    assert (2 ^ g ≤ 2 ^ a) by (apply Z.pow_le_mono_r; lia). split; [lia|]. rewrite total_1 in Htot. unfold fitted. cbn [nodes leaf_count].
    change (1 <=? 0) with false. cbn [Z.of_nat] in *. pose proof (Z.mod_le (I - 2 ^ nb) (2 ^ g) ltac:(lia) ltac:(lia)).
    split; [lia|]. split; [lia|]. split; [lia|]. split; [lia|]. split; lia.
  - specialize (Hent ltac:(lia)). change (entry_total (S k)) with (total d nb a (S k)) in Hent.
    pose proof (node_count_round (S k) (S k) I N HI Hk Hsh Htot HN Hfit) as Hround. unfold total in Hent. specialize (Hround ltac:(lia)).
    cbn zeta in Hround. rewrite Hround. clear Hround. change (entry_total (S k)) with (total d nb a (S k)). fold (total d nb a (S k)) in Hent.
    pose proof (span_nonneg (S k) ltac:(lia)) as Htn. rewrite (total_S (S k)) in Htot by lia. pose proof (total_path (S k) ltac:(lia)) as Hpath.
    pose proof (Z.div_mod (I - 2 ^ nb) (total d nb a (S k)) ltac:(lia)) as Hdm.
    pose proof (Z.mod_pos_bound (I - 2 ^ nb) (total d nb a (S k)) ltac:(lia)) as Hr.
    pose proof (Z.div_pos (I - 2 ^ nb) (total d nb a (S k)) ltac:(nia) ltac:(lia)) as Hq.
    set (q := (I - 2 ^ nb) / total d nb a (S k)) in *. set (r := (I - 2 ^ nb) mod total d nb a (S k)) in *.
    pose proof (nodes_ge (S k)) as Hng. pose proof (nodes_nonneg c (S k) ltac:(lia)) as Hnn.
    assert (total d nb a (S k) = nodes c (S k) * 2 ^ nb + 2 ^ (c * Z.of_nat k) * 2 ^ (d + a)) as Htk.
    { unfold total. rewrite <-Z.pow_add_r by nia. do 2 f_equal. lia. }
    assert (q ≤ 2 ^ c) as Hqc by (clear - Hdm Htot Hr Htn Hb Hfs; nia).
    assert (total d nb a (S (S k)) - 2 ^ (d + a) < I → q = 2 ^ c ∨ q = 2 ^ c - 1 ∧ total d nb a (S k) - 2 ^ (d + a) < r) as Hnear.
    { rewrite total_S by lia. intros Hn. clear - Hdm Hr Hqc Hn Htn Hb. destruct (Z.eq_dec q (2 ^ c)); [by left|right]. nia. }
    destruct (Z.ltb_spec r (Z.of_nat (S k) * 2 ^ nb)) as [Hbr|Hbr].
    + exists (Z.of_nat (S k)), (1 + q * nodes c (S k)), r. split; [do 3 f_equal; lia|]. split; [lia|]. split; [lia|].
      pose proof (leaf_count_split k q 0 Hq ltac:(lia)) as Hlc. rewrite leaf_count_0, !Z.add_0_r in Hlc. unfold fitted. rewrite Hlc.
      replace (I - (1 + q * nodes c (S k)) * 2 ^ nb - r) with (q * 2 ^ (c * Z.of_nat k) * 2 ^ (d + a)) by (rewrite Htk in Hdm; lia).
      assert (1 ≤ q) as Hq1.
      { destruct (Z.eq_dec q 0) as [Hz|]; [|lia]. exfalso. rewrite Hz in Hdm. rewrite Nat2Z.inj_succ in HI. lia. }
      assert (nodes c (S (S k)) = 1 + 2 ^ c * nodes c (S k)) as Hns by done.
      assert (0 ≤ q * 2 ^ (c * Z.of_nat k) * 2 ^ (d + a)) by (repeat apply Z.mul_nonneg_nonneg; try lia; apply Z.pow_nonneg; lia).
      split; [split; [clear - Hq1 Hng Hnn; rewrite Nat2Z.inj_succ; nia|rewrite Hns; clear - Hqc Hnn; nia]|]. split; [lia|]. split; [lia|]. split; [lia|].
      split; [|intros _ _; change (S (S k) - 1)%nat with (S k); clear - Hq1 Hnn; nia].
      intros [Hn|[Hn Hn']]%Hnear; [rewrite Hns, Hn; lia|]. exfalso. rewrite Htk in Hn'. clear - Hn' Hbr Hng Hb Hfs Hc.
      pose proof (pow2_pos (c * Z.of_nat k) ltac:(nia)). nia.
    + assert (q < 2 ^ c) as Hqc'.
      { destruct (Z.eq_dec q (2 ^ c)) as [E|]; [|lia]. exfalso. assert (r = 0) by (clear - Hdm Htot Hr E Htn Hb; nia).
        clear - H Hbr Hb. rewrite Nat2Z.inj_succ in Hbr. nia. }
      assert (nodes c (S (S k)) = 1 + 2 ^ c * nodes c (S k)) as Hns by done. rewrite Hns in Hfit.
      assert (q * nodes c (S k) + nodes c (S k) ≤ 2 ^ c * nodes c (S k)) as Hqn by (clear - Hqc' Hnn; nia).
      assert (0 ≤ q * nodes c (S k)) by (apply Z.mul_nonneg_nonneg; lia).
      destruct (IH r (N + 1 + q * nodes c (S k))) as (level & M & rest & -> & Hlevel & Hrest & HM); [lia|lia|clear - Hsh Hc; lia|lia| |lia|lia|].
      { intros Hk1. change (entry_total k) with (total d nb a k). rewrite (total_S k) in Hent by lia. pose proof (span_nonneg k Hk1) as Htn'.
        clear - Hent Htn' Hc2 Hb Hfs. nia. }
      destruct HM as ([HM1 HM2] & Hrest0 & Hcov & Hnn' & Hfull & _).
      exists level, (1 + q * nodes c (S k) + M), rest. split; [do 3 f_equal; lia|]. split; [done|]. split; [done|]. unfold fitted.
      rewrite (leaf_count_split k q M Hq ltac:(lia)).
      replace (I - (1 + q * nodes c (S k) + M) * 2 ^ nb - rest) with (q * 2 ^ (c * Z.of_nat k) * 2 ^ (d + a) + (r - M * 2 ^ nb - rest))
        by (rewrite Htk in Hdm; lia).
      assert (0 ≤ q * 2 ^ (c * Z.of_nat k) * 2 ^ (d + a)) by (repeat apply Z.mul_nonneg_nonneg; try lia; apply Z.pow_nonneg; lia).
      split; [rewrite Nat2Z.inj_succ; lia|]. split; [done|]. split; [lia|]. split; [lia|].
      split; [intros [Hn|[Hn Hn']]%Hnear; [lia|]; rewrite (Hfull Hn'), Hn, Hns; lia|].
      intros _. change (S (S k) - 1)%nat with (S k). intros Hbig. destruct (Z.eq_dec q 0) as [Hq0|].
      * rewrite Hfull; [lia|]. rewrite Hq0 in Hdm. lia.
      * assert (1 * nodes c (S k) ≤ q * nodes c (S k)) by (apply Z.mul_le_mono_nonneg_r; lia). lia.
Qed.

(** The node count that the code computes for an image that the complete tree spans,
    and what it gives back when the tree is opened. *)
Lemma image_node_count_spec image (L : nat) :
  (2 ≤ L)%nat → d + a ≤ 63 → image < 2 ^ 64 → total d nb a (L - 1) < image ≤ total d nb a L →
  ∃ n rest, image_allocation_blocks_to_auth_tree_node_count image (Z.of_nat L) c inv d nb a = Ok (n, rest) ∧ fitted L image n rest ∧
    auth_tree_node_count_to_auth_tree_levels n c d a = Ok (Z.of_nat L) ∧ n < 2 ^ 64.
Proof.
  intros HL Hda Himg [Hlow Hup]. pose proof (pow2_pos nb ltac:(lia)) as Hb. pose proof (total_path (L - 1) ltac:(lia)) as Hpath.
  replace (Z.of_nat (L - 1) + 1) with (Z.of_nat L) in Hpath by lia. pose proof (nodes_nonneg c (L - 1) ltac:(lia)) as Hnn.
  replace L with (S (L - 1)) in Hup |- * by lia. remember (L - 1)%nat as k eqn:Hk. replace L with (S k) in * by lia. clear L.
  assert (c * (Z.of_nat k - 1) + d + a ≤ 63) as Hsh.
  { destruct (Z.le_gt_cases (c * (Z.of_nat k - 1) + d + a) 63); [done|]. exfalso.
    assert (2 ^ 64 ≤ 2 ^ (c * (Z.of_nat k - 1) + d + a)) as Hp by (apply Z.pow_le_mono_r; lia). unfold total in Hlow.
    clear - Hlow Hp Hnn Hb Himg. nia. }
  assert (c * Z.of_nat k ≤ 63) as Hck by lia. assert (Z.of_nat k ≤ 63) as Hk63 by nia.
  assert (nodes c (S k) < 2 ^ 64) as Hnb64 by (apply nodes_bound; lia).
  unfold image_allocation_blocks_to_auth_tree_node_count. rewrite shl_one by lia. cbn [obind].
  rewrite (proj2 (Z.ltb_ge image (2 ^ nb))) by nia. zdec1. rewrite usub_Ok by lia. cbn [obind]. rewrite usub_Ok by lia. cbn [obind].
  replace (Z.of_nat (S k) - 2) with (Z.of_nat (k - 1)) by lia. replace (Z.of_nat (S k) - 1) with (Z.of_nat k) by lia.
  rewrite auth_subtree_node_count_spec by lia. cbn [obind]. replace (S (k - 1)) with k by lia.
  replace (Z.of_nat (k - 1)) with (Z.of_nat k - 1) by lia. rewrite umul_Ok by nia. cbn [obind]. rewrite uadd_Ok by nia. cbn [obind].
  rewrite uadd_Ok by nia. cbn [obind]. rewrite (Z.mul_comm (Z.of_nat k - 1)). rewrite shl_one by nia. cbn [obind]. rewrite Nat2Z.id.
  destruct (node_count_loop_spec k image 0) as (level & M & rest & -> & Hlevel & Hrest & HM);
    [lia|lia|lia|done|intros; change (entry_total k) with (total d nb a k); lia|lia|lia|].
  cbn [obind]. pose proof HM as ([HM1 HM2] & _ & _ & _ & _ & HM3). replace (S k - 1)%nat with k in HM3 by lia.
  rewrite debug_check_true.
  2: { destruct (Z.eqb_spec level 0) as [->|]; [|done]. cbn [negb]. rewrite shl_one by lia. cbn [obind]. f_equal. apply Z.ltb_lt. auto. }
  cbn [obind]. rewrite Z.add_0_l. exists M, rest. split; [done|]. split; [done|]. split; [|lia].
  specialize (HM3 ltac:(lia) Hlow). destruct (node_count_to_levels_spec M d a) as (L & -> & HLmax & HL1 & HL2); [lia..|]. f_equal.
  assert (Z.of_nat (S k) ≤ max_levels d a) as Hmax.
  { unfold max_levels. destruct (Z.le_gt_cases (Z.of_nat (S k)) (div_ceil (Z.min 64 (64 - d - a + c)) c)) as [|Hgt]; [done|].
    assert (div_ceil (Z.min 64 (64 - d - a + c)) c ≤ Z.of_nat k) as Hle by lia. apply div_ceil_le in Hle; lia. }
  destruct (Z.lt_trichotomy L (Z.of_nat (S k))) as [Hlt|[|Hgt]]; [|done|]; exfalso.
  - destruct HL2 as [HL2|]; [|lia]. pose proof (nodes_mono c (Z.to_nat L) k ltac:(lia) ltac:(lia)). lia.
  - pose proof (nodes_mono c (S k) (Z.to_nat (L - 1)) ltac:(lia) ltac:(lia)). specialize (HL1 ltac:(lia)). lia.
Qed.
End NodeCount.
End Image.
End Shape.
End Counts.

(** ** Results *)

Section Results.
Context {B : Build} {P : Platform}.

(** C23: on a tree of [L] levels, the storage index computed for the node at a level
    that covers a data block is the position of that node in the depth first
    traversal of the complete tree, parents before their children, and the second
    result is the entry of that node for the data block.  In particular different
    nodes have different positions, and nothing overflows. *)
Theorem dfs_pre_index_correct c inv d x (l L : nat) :
  1 ≤ c ≤ 63 → digests_per_node_minus_one_inv_mod_u64 c = Ok inv → 1 ≤ d ≤ 63 → (l < L)%nat →
  c * (Z.of_nat L - 1) ≤ 63 → c * (Z.of_nat L - 2) + d ≤ 63 → 0 ≤ x < 2 ^ 64 → x < 2 ^ (c * (Z.of_nat L - 1) + d) →
  ∃ pos, auth_tree_node_dfs_pre_index x (Z.of_nat l) (Z.of_nat L) c inv d =
      Ok (pos, wrap usize_bits (match l with O => x mod 2 ^ d | S l => x / 2 ^ (c * Z.of_nat l + d) mod 2 ^ c end)) ∧
    0 ≤ pos < nodes c L ∧ preorder c L 0 !! Z.to_nat pos = Some (l, x / 2 ^ (c * Z.of_nat l + d)).
Proof.
  intros Hc Hi. destruct (minus_one_inv_spec c) as (inv' & Hi' & Hinv); [lia|]. rewrite Hi in Hi'. injection Hi' as <-. intros.
  destruct (dfs_pre_index_spec c inv Hc Hinv d x l L) as (pos & Heq & Hpos & Hv); [done..|]. exists pos. split; [done|]. split; [|done].
  apply lookup_lt_Some in Hv. rewrite length_preorder in Hv by lia. lia.
Qed.

(** The number of levels computed for a number of nodes is the least height of a
    complete tree with as many nodes, or a limit; and unless it is the limit, the
    number of data blocks computed is what the leaves among the first so many nodes
    of the traversal cover, or [u64::MAX] if that is more than can be counted. *)
Lemma node_count_dimensions_correct c inv d a n :
  1 ≤ c ≤ 63 → digests_per_node_minus_one_inv_mod_u64 c = Ok inv → 1 ≤ d ≤ 63 → 0 ≤ a → d + a ≤ 63 → 1 ≤ n < 2 ^ 64 →
  ∃ L, auth_tree_node_count_to_auth_tree_levels n c d a = Ok L ∧ 1 ≤ L ≤ max_levels c d a ∧
    (1 < L → nodes c (Z.to_nat (L - 1)) < n) ∧ (n ≤ nodes c (Z.to_nat L) ∨ L = max_levels c d a) ∧
    (n ≤ nodes c (Z.to_nat L) → auth_tree_node_count_to_max_covered_data_block_count n L c inv d a =
      Ok (Z.min (2 ^ 64 - 1) (leaves_of (take (Z.to_nat n) (preorder c (Z.to_nat L) 0)) * 2 ^ d))).
Proof.
  intros Hc Hi. destruct (minus_one_inv_spec c) as (inv' & Hi' & Hinv); [lia|]. rewrite Hi in Hi'. injection Hi' as <-. intros Hd Ha Hda Hn.
  destruct (node_count_to_levels_spec c Hc n d a) as (L & HL & Hmax & Hlow & Hup); [lia..|]. exists L. split_and!; [done|lia|lia|done|done|].
  intros Hle. rewrite (max_covered_spec c inv Hc Hinv n d a L) by done. by rewrite (leaf_count_preorder c Hc _ 0 n) by lia.
Qed.

(** C25: the height computed for an image is the least whose complete tree, with the
    data it covers, spans the image, except that it is one less if the root would
    then have a single child only because the space for the path to a second one is
    missing.  The division in 64 bits is exact. *)
Theorem image_levels_correct c inv d nb a image :
  1 ≤ c ≤ 63 → digests_per_node_minus_one_inv_mod_u64 c = Ok inv → 1 ≤ d → 0 ≤ a → 0 ≤ nb ≤ 63 → nb < d + a → d + a < 2 ^ 31 →
  2 ^ nb ≤ image < 2 ^ 64 →
  ∃ L : nat, image_allocation_blocks_to_auth_tree_levels image c inv d nb a = Ok (Z.of_nat L) ∧ (1 ≤ L)%nat ∧
    ((1 < L)%nat → total c d nb a (L - 1) < image) ∧
    (image ≤ total c d nb a L ∨ (2 ≤ L)%nat ∧ total c d nb a L < image < total c d nb a L + (Z.of_nat L + 1) * 2 ^ nb).
Proof.
  intros Hc Hi. destruct (minus_one_inv_spec c) as (inv' & Hi' & Hinv); [lia|]. rewrite Hi in Hi'. injection Hi' as <-. intros Hd Ha Hnb Hleaf Hda Himg.
  destruct (image_levels_spec c inv Hc Hinv d nb a Hd Ha Hnb Hleaf image) as (L & HL & _ & Hl); [done..|]. by exists L.
Qed.

End Results.

(** *** Instances *)

(** Nodes of four blocks with 16 digests, data blocks of one block. *)
Definition inv16 : Z := 17216961135462248175.

Lemma dfs_pre_index_correct_witness :
  auth_tree_node_dfs_pre_index (B:=debug_build) (P:=64) 300 0 3 4 inv16 4 = Ok (21, 12) ∧
  preorder 4 3 0 !! 21%nat = Some (O, 18).
Proof.
  destruct (@dfs_pre_index_correct debug_build 64 4 inv16 4 300 0 3) as (pos & Heq & _ & Hv); [lia|by vm_compute|lia|lia|lia|lia|lia|lia|].
  assert (auth_tree_node_dfs_pre_index (B:=debug_build) (P:=64) 300 0 3 4 inv16 4 = Ok (21, 12)) as E by by vm_compute.
  split; [exact E|]. assert (pos = 21) as ->.
  { change (Z.of_nat 0) with 0 in Heq. change (Z.of_nat 3) with 3 in Heq. rewrite E in Heq. injection Heq as <-. done. }
  exact Hv.
Defined.

Lemma node_count_dimensions_correct_witness :
  auth_tree_node_count_to_auth_tree_levels (B:=debug_build) 18 4 4 0 = Ok 3 ∧
  auth_tree_node_count_to_max_covered_data_block_count (B:=debug_build) 18 3 4 inv16 4 0 = Ok (16 * 16).
Proof.
  destruct (@node_count_dimensions_correct debug_build 4 inv16 4 0 18) as (L & HL & _ & _ & _ & Hcov); [lia|by vm_compute|lia|lia|lia|lia|].
  assert (L = 3) as -> by (revert HL; vm_compute; by intros [= <-]). split; [exact HL|]. rewrite Hcov by by vm_compute. by vm_compute.
Defined.

Lemma image_levels_correct_witness : image_allocation_blocks_to_auth_tree_levels (B:=debug_build) 325 4 inv16 4 2 0 = Ok 2 ∧ total 4 4 2 0 1 < 325.
Proof.
  destruct (@image_levels_correct debug_build 4 inv16 4 2 0 325) as (L & HL & _ & Hlow & _); [lia|by vm_compute|lia|lia|lia|lia|lia|lia|].
  assert (image_allocation_blocks_to_auth_tree_levels (B:=debug_build) 325 4 inv16 4 2 0 = Ok 2) as E by by vm_compute.
  split; [exact E|]. rewrite E in HL. injection HL as HL. replace L with 2%nat in Hlow by lia. apply Hlow. lia.
Defined.



End AuthTreeShape.
