(* ===== verification/AuthTreeMap.v ===== *)
(** * Node identifiers and the data domain of the authentication tree
    (storage/src/fs/cocoonfs/auth_tree.rs)

    The tree authenticates the image without its own storage: the map between the
    blocks of the image and the blocks of this data domain.  The identifiers of the
    nodes, their order, and the sets of the node cache that they are mapped to. *)

From S2P Require Import Prelude BitManip Errors Layout ImageLayout PhysicalExtents LogicalExtents AuthTreeShape.
Import BitManip Errors Layout ImageLayout AuthTreeShape.

Module AuthTreeMap.

(** ** Node identifiers *)

Record AuthTreeNodeId := mk_node_id {
  covered_data_blocks_begin : Z;
  level : Z;
  node_digests_per_node_log2 : Z;
  data_digests_per_node_log2 : Z;
}.

Section NodeIds.
Context {B : Build} {P : Platform}.
Implicit Types self other : AuthTreeNodeId.

Definition level_covered_data_block_index_bits (level c d : Z) : res Z :=
  let! t := umul 32 level c in
  uadd 32 t d.

Definition node_id_new (covered_data_block_index level c d : Z) : res AuthTreeNodeId :=
  let! bits := level_covered_data_block_index_bits level c d in
  let! begin :=
    (if bits <? 64 then
       let! mask := trailing_bits_mask_u 64 bits in
       Ok (Z.land covered_data_block_index (unot 64 mask))
     else Ok 0) in
  Ok (mk_node_id begin level c d).

Definition index_in_parent self : res Z :=
  let! bits := level_covered_data_block_index_bits (level self) (node_digests_per_node_log2 self) (data_digests_per_node_log2 self) in
  let! _ := debug_assert (bits <? 64) in
  let! t := ushr 64 (covered_data_blocks_begin self) bits in
  let! mask := trailing_bits_mask_u 64 (node_digests_per_node_log2 self) in
  Ok (wrap usize_bits (Z.land t mask)).

Definition first_covered_data_block self : Z := covered_data_blocks_begin self.

Definition last_covered_data_block self : res Z :=
  let! bits := level_covered_data_block_index_bits (level self) (node_digests_per_node_log2 self) (data_digests_per_node_log2 self) in
  if bits <? 64 then
    let! mask := trailing_bits_mask_u 64 bits in
    let! _ := debug_assert (Z.land (covered_data_blocks_begin self) mask =? 0) in
    Ok (Z.lor (covered_data_blocks_begin self) mask)
  else Ok (2 ^ 64 - 1).

Definition last_entry_covered_data_blocks_begin self : res Z :=
  if negb (level self =? 0) then
    let! bits := level_covered_data_block_index_bits (level self) (node_digests_per_node_log2 self) (data_digests_per_node_log2 self) in
    let! _ := debug_check (let! t := usub 32 bits (node_digests_per_node_log2 self) in Ok (t <? 64)) in
    let! mask := trailing_bits_mask_u 64 (node_digests_per_node_log2 self) in
    let! t := usub 32 bits (node_digests_per_node_log2 self) in
    let! t := ushl 64 mask t in
    Ok (Z.lor (covered_data_blocks_begin self) t)
  else
    let! _ := debug_check (let! mask := trailing_bits_mask_u 64 (data_digests_per_node_log2 self) in
                           Ok (Z.land (covered_data_blocks_begin self) mask =? 0)) in
    let! mask := trailing_bits_mask_u 64 (data_digests_per_node_log2 self) in
    Ok (Z.lor (covered_data_blocks_begin self) mask).

(** [Ord::cmp]; the shift amount is computed in eight bits. *)
Definition cmp self other : res comparison :=
  let max_level := Z.max (level self) (level other) in
  let! t := umul 8 max_level (node_digests_per_node_log2 self) in
  let! t := uadd 8 t (data_digests_per_node_log2 self) in
  let! t := ushr 64 (Z.lxor (covered_data_blocks_begin self) (covered_data_blocks_begin other)) t in
  if t =? 0 then
    match level self ?= level other with
    | Lt => Ok Gt
    | Eq =>
        let! _ := debug_assert (covered_data_blocks_begin self =? covered_data_blocks_begin other) in
        Ok Eq
    | Gt => Ok Lt
    end
  else
    let! _ := debug_assert (negb (covered_data_blocks_begin self =? covered_data_blocks_begin other)) in
    Ok (covered_data_blocks_begin self ?= covered_data_blocks_begin other).
End NodeIds.

(** ** The sets of the node cache *)

Record CacheSetMap := mk_cache_set_map {
  cache_sets_count : Z;
  auth_tree_levels_inv_multiplier : Z;
  auth_tree_levels_inv_shift : Z;
}.

Section CacheSets.
Context {B : Build} {P : Platform}.

Definition cache_set_map_new (auth_tree_levels cache_sets_count : Z) : res CacheSetMap :=
  let! _ := debug_assert (negb (auth_tree_levels =? 0)) in
  let! _ := debug_assert (auth_tree_levels <=? 64) in
  let! _ := debug_assert (cache_sets_count <=? 64) in
  let! log := ilog2 auth_tree_levels in
  let! log := uadd 32 log (if is_pow2_u 32 auth_tree_levels then 0 else 1) in
  let! shift := uadd 32 16 log in
  let! t := ushl 32 1 shift in
  let multiplier := div_ceil t auth_tree_levels in
  let! _ := debug_check (let! t := ushl 32 1 (16 + 1) in Ok (multiplier <? t)) in
  Ok (mk_cache_set_map (wrap 8 cache_sets_count) multiplier shift).

Definition map_key (self : CacheSetMap) (key : AuthTreeNodeId) : res (option Z) :=
  let! t := umul 32 (level key) (cache_sets_count self) in
  let! t := umul 32 t (auth_tree_levels_inv_multiplier self) in
  let! t := ushr 32 t (auth_tree_levels_inv_shift self) in
  Ok (Some (wrap usize_bits t)).

(** The number of sets that [AuthTreeNodeCache::new] configures. *)
Definition node_cache_sets_count (auth_tree_levels : Z) : res Z :=
  let! t := umul 32 2 auth_tree_levels in
  Ok (div_ceil t 4).
End CacheSets.

(** ** The map between physical blocks and the data domain *)

(** Entries are [(physical_end, accumulated_block_count)]. *)
Abbreviation blocks_map := (list (Z * Z)).

Section BlocksMap.
Context {B : Build} {Alloc : Allocator}.
Implicit Types self : blocks_map.

Fixpoint map_entries (l : list LogicalExtents.LogicalExtent) : res blocks_map :=
  match l with
  | [] => Ok []
  | logical_extent :: l =>
      let! physical_range := LogicalExtents.physical_range logical_extent in
      let! n := block_count physical_range in
      let! es := map_entries l in
      Ok ((rng_end physical_range, n) :: es)
  end.

(** The accumulation of the block counts; every round advances or removes an
    entry. *)
Fixpoint accumulate_loop (fuel : nat) self (i : nat) (last_end accumulated_block_count : Z) : res blocks_map :=
  if (i <? length self)%nat then
    match fuel with
    | O => Diverge
    | S fuel =>
        let! e := idx self i in
        let! accumulated_block_count := uadd 64 accumulated_block_count e.2 in
        let cur_end := e.1 in
        let! cur_begin := usub 64 cur_end e.2 in
        let! self := set_idx self i (cur_end, accumulated_block_count) in
        if negb (cur_begin =? last_end) then accumulate_loop fuel self (i + 1) cur_end accumulated_block_count
        else
          let! self := vec_remove self (i - 1) in
          accumulate_loop fuel self i cur_end accumulated_block_count
    end
  else Ok self.

(** [sort_unstable_by_key]: the ends of the extents are distinct, so that the
    order of equal keys does not matter. *)
Definition map_new (logical_auth_tree_extents : LogicalExtents.lextents) : res blocks_map :=
  let! _ := try_reserve 0 (length logical_auth_tree_extents) in
  let! it := LogicalExtents.iter logical_auth_tree_extents in
  let! items := LogicalExtents.collect (S (S (length logical_auth_tree_extents))) logical_auth_tree_extents it in
  let! es := map_entries items in
  let es := sort_by (λ e e' : Z * Z, e.1 <=? e'.1) es in
  match es with
  | [] => Ok []
  | e :: _ => accumulate_loop (length es) es 1 e.1 e.2
  end.

Definition map_physical_to_data_allocation_blocks self (physical_range : BlockRange) : res BlockRange :=
  let i := partition_point (λ e : Z * Z, e.1 <=? rng_begin physical_range) self in
  let! accumulated := (if negb (i =? 0)%nat then let! e := idx self (i - 1) in Ok e.2 else Ok 0) in
  let! _ :=
    (if (i <? length self)%nat then
       let! next := idx self i in
       let! t := usub 64 next.2 accumulated in
       let! next_begin := usub 64 next.1 t in
       debug_assert (rng_end physical_range <=? next_begin)
     else Ok tt) in
  let! begin := usub 64 (rng_begin physical_range) accumulated in
  let! n := block_count physical_range in
  range_from begin n.

(** The key of [partition_point] in two methods; the subtraction cannot underflow on
    the maps that [new] makes, in which the counts are at most the ends. *)
Definition gap_begin (e : Z * Z) : Z := wrap 64 (e.1 - e.2).

Definition map_data_to_physical_allocation_block self (data_allocation_block_index : Z) : res Z :=
  let map_index := partition_point (λ e, gap_begin e <=? data_allocation_block_index) self in
  if negb (map_index =? 0)%nat then
    let! e := idx self map_index in
    uadd 64 data_allocation_block_index e.2
  else Ok data_allocation_block_index.

Definition total_auth_tree_extents_allocation_blocks self : Z := match last self with Some e => e.2 | None => 0 end.

Record MapIterator := mk_map_iter {
  map_index : nat;
  next_data_allocation_block : Z;
  data_allocation_blocks_end : Z;
}.

Definition iter_data_range_mapping self (data_range : BlockRange) : res MapIterator :=
  let! max_end := usub 64 (2 ^ 64 - 1) (total_auth_tree_extents_allocation_blocks self) in
  let begin := Z.min (rng_begin data_range) max_end in
  let end_ := Z.min (rng_end data_range) max_end in
  Ok (mk_map_iter (partition_point (λ e, gap_begin e <=? begin) self) begin end_).

(** The iterator's [next]. *)
Definition map_iter_next self (it : MapIterator) : res (option (BlockRange * Z) * MapIterator) :=
  if next_data_allocation_block it =? data_allocation_blocks_end it then Ok (None, it)
  else
    let begin := next_data_allocation_block it in
    let! accumulated :=
      (if (0 <? map_index it)%nat then
         let! e := idx self (map_index it - 1) in
         let! _ := debug_check (let! t := usub 64 e.1 e.2 in Ok (t <=? begin)) in
         Ok e.2
       else Ok 0) in
    let! '(index, end_) :=
      (if (map_index it <? length self)%nat then
         let! e := idx self (map_index it) in
         let! t := usub 64 e.1 e.2 in
         if t <? data_allocation_blocks_end it then Ok ((map_index it + 1)%nat, t)
         else Ok (map_index it, data_allocation_blocks_end it)
       else Ok (map_index it, data_allocation_blocks_end it)) in
    let! physical_begin := uadd 64 begin accumulated in
    let! range := range_new begin end_ in
    Ok (Some (range, physical_begin), mk_map_iter index end_ (data_allocation_blocks_end it)).

Fixpoint map_iter_collect (fuel : nat) self (it : MapIterator) : res (list (BlockRange * Z)) :=
  match fuel with
  | O => Diverge
  | S fuel =>
      let! '(item, it) := map_iter_next self it in
      match item with
      | None => Ok []
      | Some x => let! xs := map_iter_collect fuel self it in Ok (x :: xs)
      end
  end.
End BlocksMap.

(** *** The map as a function *)

(** From an entry with end [pe] and accumulated count [pa] on: entries begin after
    the end of the previous one and are not empty. *)
Fixpoint map_wf (pe pa : Z) (m : blocks_map) : Prop :=
  match m with
  | [] => True
  | e :: m => pe < e.1 - (e.2 - pa) ∧ pa < e.2 ∧ e.1 < 2 ^ 64 ∧ map_wf e.1 e.2 m
  end.

(** The blocks of the tree. *)
Fixpoint storage (pa : Z) (m : blocks_map) : list Z :=
  match m with [] => [] | e :: m => seqZ (e.1 - (e.2 - pa)) (e.2 - pa) ++ storage e.2 m end.

(** The accumulated counts of the entries before a physical block, and before a
    block of the data domain. *)
Fixpoint acc_before (pa : Z) (m : blocks_map) (p : Z) : Z :=
  match m with [] => pa | e :: m => if e.1 <=? p then acc_before e.2 m p else pa end.
Fixpoint acc_data (pa : Z) (m : blocks_map) (x : Z) : Z :=
  match m with [] => pa | e :: m => if e.1 - e.2 <=? x then acc_data e.2 m x else pa end.

(** How many of the blocks are below [p]. *)
Definition below (bs : list Z) (p : Z) : Z := Z.of_nat (length (filter (λ b, b < p) bs)).

Definition map_acc (pa : Z) (m : blocks_map) : Z := match last m with Some e => e.2 | None => pa end.
Definition map_end (pe : Z) (m : blocks_map) : Z := match last m with Some e => e.1 | None => pe end.

Lemma map_acc_cons pa e m : map_acc pa (e :: m) = map_acc e.2 m.
Proof. unfold map_acc. rewrite last_cons. by destruct (last m). Qed.
Lemma map_end_cons pe e m : map_end pe (e :: m) = map_end e.1 m.
Proof. unfold map_end. rewrite last_cons. by destruct (last m). Qed.

Lemma map_wf_app pe pa m1 m2 : map_wf pe pa (m1 ++ m2) ↔ map_wf pe pa m1 ∧ map_wf (map_end pe m1) (map_acc pa m1) m2.
Proof.
  revert pe pa. induction m1 as [|e m1 IH]; intros pe pa; cbn [app map_wf]; [by intuition|].
  rewrite IH, map_acc_cons, map_end_cons. tauto.
Qed.

Lemma storage_app pa m1 m2 : storage pa (m1 ++ m2) = storage pa m1 ++ storage (map_acc pa m1) m2.
Proof.
  revert pa. induction m1 as [|e m1 IH]; intros pa; cbn [app storage]; [done|]. by rewrite IH, map_acc_cons, app_assoc.
Qed.

Lemma storage_after pe pa m p : map_wf pe pa m → p ∈ storage pa m → pe < p < 2 ^ 64.
Proof.
  revert pe pa. induction m as [|e m IH]; intros pe pa; cbn [map_wf storage]; [by intros _ ?%not_elem_of_nil|].
  intros (? & ? & ? & Hm). rewrite elem_of_app, elem_of_seqZ. intros [?|Hp]; [lia|]. specialize (IH _ _ Hm Hp). lia.
Qed.

Lemma below_app l l' p : below (l ++ l') p = below l p + below l' p.
Proof. unfold below. rewrite filter_app, length_app. lia. Qed.

Lemma below_perm l l' p : l ≡ₚ l' → below l p = below l' p.
Proof. intros H. unfold below. by rewrite H. Qed.

Lemma below_all b n p : 0 ≤ n → b + n ≤ p → below (seqZ b n) p = n.
Proof.
  intros. unfold below. rewrite filter_every by (intros x Hx%elem_of_seqZ; lia). rewrite length_seqZ. lia.
Qed.

Lemma below_none l p : (∀ x, x ∈ l → p ≤ x) → below l p = 0.
Proof. intros H. unfold below. rewrite filter_nothing; [done|]. intros x Hx. specialize (H x Hx). lia. Qed.

(** The blocks below one that is not of the tree are those of the entries before. *)
Lemma acc_before_below pe pa m p :
  map_wf pe pa m → p ∉ storage pa m → acc_before pa m p = pa + below (storage pa m) p.
Proof.
  revert pe pa. induction m as [|e m IH]; intros pe pa; cbn [map_wf storage acc_before]; [intros; unfold below; cbn; lia|].
  intros (? & ? & ? & Hm). rewrite not_elem_of_app, elem_of_seqZ, below_app. intros [Hp1 Hp2]. case (Z.leb_spec e.1 p); intros.
  - rewrite (IH _ _ Hm Hp2), below_all by lia. lia.
  - rewrite (below_none (seqZ _ _)) by (intros x Hx%elem_of_seqZ; lia).
    rewrite below_none by (intros x Hx%(storage_after _ _ _ _ Hm); lia). lia.
Qed.

Lemma acc_before_le pe pa m p : map_wf pe pa m → pe ≤ p → pa ≤ acc_before pa m p ≤ pa + (p - pe).
Proof.
  revert pe pa. induction m as [|e m IH]; intros pe pa; cbn [map_wf acc_before]; [lia|].
  intros (? & ? & ? & Hm) ?. case (Z.leb_spec e.1 p); intros; [|lia]. specialize (IH _ _ Hm). lia.
Qed.

Lemma acc_data_ge pe pa m x : map_wf pe pa m → pa ≤ acc_data pa m x.
Proof.
  revert pe pa. induction m as [|e m IH]; intros pe pa; cbn [map_wf acc_data]; [lia|].
  intros (? & ? & ? & Hm). case (Z.leb_spec (e.1 - e.2) x); intros; [|lia]. specialize (IH _ _ Hm). lia.
Qed.

(** Removing the tree and inserting it again. *)
Lemma acc_data_of_physical pe pa m p :
  map_wf pe pa m → p ∉ storage pa m → acc_data pa m (p - acc_before pa m p) = acc_before pa m p.
Proof.
  revert pe pa. induction m as [|e m IH]; intros pe pa; cbn [map_wf storage acc_before acc_data]; [done|].
  intros (? & ? & ? & Hm). rewrite not_elem_of_app, elem_of_seqZ. intros [Hp1 Hp2]. case (Z.leb_spec e.1 p); intros.
  - pose proof (acc_before_le _ _ _ p Hm ltac:(lia)). rewrite (IH _ _ Hm Hp2). by zdec.
  - by zdec.
Qed.

Lemma physical_of_data pe pa m x :
  map_wf pe pa m → x + acc_data pa m x ∉ storage pa m ∧ acc_before pa m (x + acc_data pa m x) = acc_data pa m x.
Proof.
  revert pe pa. induction m as [|e m IH]; intros pe pa; cbn [map_wf storage acc_before acc_data]; [split; [apply not_elem_of_nil|done]|].
  intros (? & ? & ? & Hm). case (Z.leb_spec (e.1 - e.2) x); intros.
  - destruct (IH _ _ Hm) as [Hn Hb]. pose proof (acc_data_ge _ _ _ x Hm).
    rewrite not_elem_of_app, elem_of_seqZ. split; [split; [lia|done]|]. by zdec.
  - rewrite not_elem_of_app, elem_of_seqZ. split; [split; [lia|]|by zdec].
    intros Hp%(storage_after _ _ _ _ Hm). lia.
Qed.

(** *** Construction *)

(** The raw entries [(end, count)] in order, from the physical block [p] on. *)
Fixpoint raw_wf (p : Z) (es : blocks_map) : Prop :=
  match es with [] => True | e :: es => p ≤ e.1 - e.2 ∧ 0 < e.2 ∧ e.1 < 2 ^ 64 ∧ raw_wf e.1 es end.
Definition raw_blocks (es : blocks_map) : list Z := mjoin ((λ e, seqZ (e.1 - e.2) e.2) <$> es).

Section Construction.
Context {B : Build} {Alloc : Allocator}.

Lemma map_acc_le pe pa m : map_wf pe pa m → map_acc pa m - pa ≤ map_end pe m - pe - Z.of_nat (length m) ∧ pa ≤ map_acc pa m.
Proof.
  revert pe pa. induction m as [|e m IH]; intros pe pa; [cbn; lia|]. intros (? & ? & ? & Hm).
  rewrite map_acc_cons, map_end_cons. specialize (IH _ _ Hm). cbn [length]. lia.
Qed.

Lemma accumulate_loop_spec fuel D x R :
  (length R ≤ fuel)%nat → map_wf (-1) 0 (D ++ [x]) → raw_wf x.1 R →
  ∃ m, accumulate_loop fuel (D ++ x :: R) (S (length D)) x.1 x.2 = Ok m ∧ map_wf (-1) 0 m ∧
    storage 0 m = storage 0 (D ++ [x]) ++ raw_blocks R.
Proof.
  revert fuel D x. induction R as [|e R IH]; intros fuel D x Hf HD HR.
  - exists (D ++ [x]). replace (accumulate_loop fuel (D ++ [x]) (S (length D)) x.1 x.2) with (Ok (E:=NvFsError) (D ++ [x]))
      by (destruct fuel; cbn [accumulate_loop]; rewrite length_app; cbn [length]; by zdec).
    split; [done|]. split; [done|]. cbn. by rewrite app_nil_r.
  - destruct fuel as [|fuel]; cbn [length] in Hf; [lia|]. destruct HR as (Hb & Hn & He & HR).
    pose proof (map_acc_le _ _ _ HD) as Hacc. rewrite (map_wf_app _ _ D [x]) in HD. destruct HD as [HD (Hx1 & Hx2 & Hx3 & _)].
    unfold map_acc, map_end in Hacc. rewrite last_snoc, length_app in Hacc. cbn [length] in Hacc.
    cbn [accumulate_loop]. rewrite length_app. cbn [length]. zdec.
    replace (D ++ x :: e :: R) with ((D ++ [x]) ++ e :: R) by by rewrite <-app_assoc.
    replace (S (length D)) with (length (D ++ [x])) by (rewrite length_app; cbn; lia).
    rewrite idx_middle. cbn [obind]. rewrite uadd_Ok by lia. cbn [obind]. rewrite usub_Ok by lia. cbn [obind].
    rewrite set_idx_middle. cbn [obind]. case (Z.eqb_spec (e.1 - e.2) x.1); intros Hadj; cbn [negb].
    + replace (length (D ++ [x]) - 1)%nat with (length D) by (rewrite length_app; cbn; lia).
      rewrite <-app_assoc. cbn [app]. rewrite vec_remove_middle. cbn [obind].
      replace (length (D ++ [x])) with (S (length D)) by (rewrite length_app; cbn; lia).
      destruct (IH fuel D (e.1, x.2 + e.2)) as (m & Hloop & Hm & Hst); [lia|..|done|].
      { apply map_wf_app. split; [done|]. cbn. lia. }
      exists m. split; [exact Hloop|]. split; [done|]. rewrite Hst, !storage_app. cbn [storage fst snd raw_blocks fmap list_fmap].
      rewrite <-!app_assoc. f_equal. unfold raw_blocks. rewrite fmap_cons, LogicalExtents.mjoin_cons, !app_assoc. f_equal. cbn [app].
      rewrite !app_nil_r. set (q := map_acc 0 D) in *.
      replace (x.2 + e.2 - q) with ((x.2 - q) + e.2) by lia. rewrite seqZ_app by lia. f_equal; f_equal; lia.
    + replace (length (D ++ [x]) + 1)%nat with (S (length (D ++ [x]))) by lia.
      destruct (IH fuel (D ++ [x]) (e.1, x.2 + e.2)) as (m & Hloop & Hm & Hst); [lia|..|done|].
      { rewrite !map_wf_app. split; [split; [done|]; cbn; lia|]. unfold map_end, map_acc. rewrite last_snoc. cbn. lia. }
      exists m. split; [exact Hloop|]. split; [done|]. rewrite Hst. rewrite (storage_app 0 (D ++ [x])), <-app_assoc. f_equal.
      unfold map_acc. rewrite last_snoc. cbn [storage fst snd]. rewrite app_nil_r. unfold raw_blocks.
      rewrite fmap_cons, LogicalExtents.mjoin_cons. f_equal. f_equal; lia.
Qed.

(** Entries that are sorted by their end and have no block in common. *)
Lemma raw_sorted_wf p es :
  0 ≤ p → StronglySorted (λ e e' : Z * Z, (e.1 <=? e'.1) = true) es → NoDup (raw_blocks es) →
  Forall (λ e, 0 ≤ e.1 - e.2 ∧ 0 < e.2 ∧ e.1 < 2 ^ 64) es → Forall (λ e : Z * Z, p ≤ e.1 - e.2) es → raw_wf p es.
Proof.
  revert p. induction es as [|e es IH]; intros p Hp; [done|]. intros [Hs He]%StronglySorted_inv.
  unfold raw_blocks. rewrite fmap_cons, LogicalExtents.mjoin_cons. intros (_ & Hdis & Hnd)%NoDup_app [(? & ? & ?) Hok]%Forall_cons [? Hge]%Forall_cons.
  cbn [raw_wf]. split_and!; [done..|]. apply IH; [lia|done..|]. apply Forall_forall. intros e' He'.
  rewrite Forall_forall in He, Hok. specialize (He _ He'). specialize (Hok _ He'). apply Z.leb_le in He.
  destruct (Z.le_gt_cases e.1 (e'.1 - e'.2)) as [|Hlt]; [done|]. exfalso.
  apply (Hdis (e.1 - 1)); [apply elem_of_seqZ; lia|]. apply list_elem_of_join. exists (seqZ (e'.1 - e'.2) e'.2).
  split; [apply elem_of_seqZ; lia|]. apply list_elem_of_fmap. by exists e'.
Qed.

Lemma map_entries_Ok items :
  Forall LogicalExtents.item_ok items →
  ∃ es, map_entries items = Ok es ∧ raw_blocks es = mjoin (LogicalExtents.item_blocks <$> items) ∧
    Forall (λ e, 0 ≤ e.1 - e.2 ∧ 0 < e.2 ∧ e.1 < 2 ^ 64) es.
Proof.
  induction items as [|x items IH]; [by exists []|]. intros [(? & ? & ?) Hok]%Forall_cons. destruct (IH Hok) as (es & Hes & Hb & Hw).
  cbn [map_entries]. unfold LogicalExtents.physical_range, physical_add. rewrite checked_add_Some by lia. cbn [unwrap obind].
  rewrite range_new_Ok by lia. cbn [obind]. rewrite block_count_Ok by (cbn; lia). cbn [obind rng_begin rng_end]. rewrite Hes. cbn [obind].
  eexists. split; [done|]. split.
  - unfold raw_blocks in *. rewrite !fmap_cons, !LogicalExtents.mjoin_cons, Hb. f_equal. unfold LogicalExtents.item_blocks. cbn. f_equal; lia.
  - constructor; [cbn; lia|done].
Qed.
End Construction.

Section Mapping.
Context {B : Build} {Alloc : Allocator}.
Implicit Types m : blocks_map.

Lemma raw_blocks_perm es es' : es ≡ₚ es' → raw_blocks es ≡ₚ raw_blocks es'.
Proof. intros H. unfold raw_blocks. by rewrite H. Qed.

Lemma map_new_spec l :
  LogicalExtents.le_wf 0 l → NoDup (LogicalExtents.le_blocks l) → alloc_ok 0 (length l) = true →
  ∃ m, map_new l = Ok m ∧ map_wf (-1) 0 m ∧ storage 0 m ≡ₚ LogicalExtents.le_blocks l.
Proof.
  intros Hl Hnd Ha. unfold map_new, try_reserve. rewrite Ha. cbn [obind].
  destruct (LogicalExtents.iter_spec l Hl) as (it & items & -> & Hc & Hb & Hok). cbn [obind]. rewrite Hc. cbn [obind].
  destruct (map_entries_Ok items Hok) as (es & -> & Hr & Hes). cbn [obind]. rewrite Hb in Hr.
  pose proof (sort_by_Permutation (λ e e' : Z * Z, e.1 <=? e'.1) es) as Hp.
  pose proof (sort_by_sorted (λ e e' : Z * Z, e.1 <=? e'.1) es) as Hs.
  pose proof (raw_blocks_perm _ _ Hp) as Hrp. rewrite Hr in Hrp. rewrite <-Hrp in Hnd. apply (Permutation_Forall (symmetry Hp)) in Hes.
  destruct (sort_by _ es) as [|e s]; [by exists []; rewrite <-Hrp|].
  destruct (raw_sorted_wf 0 (e :: s)) as (? & ? & ? & Hraw); [lia|..|done|done| |].
  { apply Hs; intros; zcase; lia. }
  { eapply Forall_impl; [exact Hes|]. cbn. lia. }
  destruct (accumulate_loop_spec (length (e :: s)) [] e s) as (m & Hloop & Hm & Hst); [cbn; lia|cbn; lia|done|].
  exists m. split; [exact Hloop|]. split; [done|]. rewrite Hst, <-Hrp. cbn [app storage]. unfold raw_blocks.
  rewrite fmap_cons, LogicalExtents.mjoin_cons, app_nil_r, Z.sub_0_r. done.
Qed.

(** The entries that [partition_point] counts are those of [acc_before] and
    [acc_data]. *)
Lemma partition_acc_before pa m p :
  (let i := partition_point (λ e : Z * Z, e.1 <=? p) m in
   if negb (i =? 0)%nat then let! e := idx (E:=NvFsError) m (i - 1) in Ok e.2 else Ok pa) = Ok (acc_before pa m p).
Proof.
  revert pa. induction m as [|e m IH]; intros pa; [done|]. cbn [partition_point acc_before]. destruct (e.1 <=? p); [|done].
  rewrite <-IH. cbn zeta. destruct (partition_point _ m) as [|k]; [done|]. cbn [Nat.eqb negb Nat.sub]. by rewrite !Nat.sub_0_r.
Qed.

Lemma next_entry pe pa m p e :
  map_wf pe pa m → m !! partition_point (λ e : Z * Z, e.1 <=? p) m = Some e → p ∉ storage pa m →
  acc_before pa m p ≤ e.2 ∧ e.2 - acc_before pa m p ≤ e.1 - pe ∧ p < e.1 - (e.2 - acc_before pa m p) ∧
  (∀ x, e.1 - (e.2 - acc_before pa m p) ≤ x < e.1 → x ∈ storage pa m).
Proof.
  revert pe pa. induction m as [|e' m IH]; intros pe pa; [done|]. cbn [map_wf storage partition_point acc_before].
  intros (? & ? & ? & Hm). rewrite not_elem_of_app, elem_of_seqZ. case (Z.leb_spec e'.1 p); intros Hle; cbn.
  - intros He [_ Hn]. destruct (IH _ _ Hm He Hn) as (? & ? & ? & Hin). split_and!; [lia..|].
    intros x Hx. apply elem_of_app. right. by apply Hin.
  - intros [= <-] [Hn _]. split_and!; [lia..|]. intros x Hx. apply elem_of_app. left. apply elem_of_seqZ. lia.
Qed.

Lemma next_entry_pos pe pa m p e :
  map_wf pe pa m → m !! partition_point (λ e : Z * Z, e.1 <=? p) m = Some e → acc_before pa m p < e.2.
Proof.
  revert pe pa. induction m as [|e' m IH]; intros pe pa; [done|]. cbn [map_wf partition_point acc_before].
  intros (? & ? & ? & Hm). case (Z.leb_spec e'.1 p); intros Hle; cbn; [by apply (IH _ _ Hm)|]. by intros [= <-].
Qed.

Lemma physical_to_data_spec m r :
  map_wf (-1) 0 m → 0 ≤ rng_begin r < rng_end r → rng_end r < 2 ^ 64 → (∀ p, p ∈ r → p ∉ storage 0 m) →
  map_physical_to_data_allocation_blocks m r =
    Ok (mk_range (rng_begin r - acc_before 0 m (rng_begin r)) (rng_end r - acc_before 0 m (rng_begin r))).
Proof.
  intros Hm ? ? Hr. unfold map_physical_to_data_allocation_blocks. cbn zeta.
  pose proof (partition_acc_before 0 m (rng_begin r)) as E. cbn zeta in E. rewrite E. clear E. cbn [obind].
  assert (rng_begin r ∉ storage 0 m) as Hn by (apply Hr, elem_of_range; lia).
  pose proof (acc_before_le _ _ _ (rng_begin r) Hm ltac:(lia)) as Hacc.
  assert (acc_before 0 m (rng_begin r) ≤ rng_begin r) as Hle.
  { clear -Hacc Hm Hn H. destruct m as [|e m]; [cbn; lia|]. cbn [acc_before map_wf storage] in *. destruct Hm as (? & ? & ? & Hm).
    case (Z.leb_spec e.1 (rng_begin r)); intros; [|lia]. pose proof (acc_before_le _ _ _ (rng_begin r) Hm ltac:(lia)). lia. }
  set (i := partition_point _ m). case (Nat.ltb_spec i (length m)); intros Hi.
  - destruct (lookup_lt_is_Some_2 m i Hi) as [e He]. rewrite (idx_Ok _ _ _ He). cbn [obind].
    destruct (next_entry _ _ _ _ _ Hm He Hn) as (? & ? & ? & Hin). rewrite usub_Ok by lia. cbn [obind]. rewrite usub_Ok by lia. cbn [obind].
    assert (rng_end r <= e.1 - (e.2 - acc_before 0 m (rng_begin r))) as Hend.
    { destruct (Z.le_gt_cases (rng_end r) (e.1 - (e.2 - acc_before 0 m (rng_begin r)))) as [|Hgt]; [done|]. exfalso.
      apply (Hr (e.1 - (e.2 - acc_before 0 m (rng_begin r)))); [apply elem_of_range; lia|]. apply Hin.
      pose proof (next_entry_pos _ _ _ _ _ Hm He). lia. }
    zdec. ostep. rewrite block_count_Ok by lia. ostep. f_equal. f_equal. lia.
  - ostep. rewrite block_count_Ok by lia. ostep. f_equal. f_equal. lia.
Qed.
End Mapping.

(** *** Iteration over the data domain *)

(** Consecutive pieces of [[x, y)] with the physical begin of each. *)
Fixpoint pieces (m : blocks_map) (x y : Z) (items : list (BlockRange * Z)) : Prop :=
  match items with
  | [] => x = y
  | (r, p) :: items =>
      rng_begin r = x ∧ x < rng_end r ∧ (∀ z, x ≤ z < rng_end r → z + acc_data 0 m z = p + (z - x)) ∧ pieces m (rng_end r) y items
  end.

Section MapIteration.
Context {B : Build} {Alloc : Allocator}.

Lemma map_gap_le pe pa m : map_wf pe pa m → pe - pa ≤ map_end pe m - map_acc pa m.
Proof.
  revert pe pa. induction m as [|e m IH]; intros pe pa; [done|]. intros (? & ? & ? & Hm). rewrite map_acc_cons, map_end_cons.
  specialize (IH _ _ Hm). lia.
Qed.

Lemma acc_data_split pe pa m1 m2 z :
  map_wf pe pa (m1 ++ m2) → map_end pe m1 - map_acc pa m1 ≤ z → (∀ e, head m2 = Some e → z < e.1 - e.2) →
  acc_data pa (m1 ++ m2) z = map_acc pa m1.
Proof.
  revert pe pa. induction m1 as [|e m1 IH]; intros pe pa; cbn [app].
  - intros _ _ Hz. destruct m2 as [|e m2]; [done|]. cbn. specialize (Hz e eq_refl). by zdec.
  - rewrite map_acc_cons, map_end_cons. intros (? & ? & ? & Hm) Hz Hh. cbn [acc_data].
    pose proof (proj1 (proj1 (map_wf_app _ _ m1 m2) Hm)) as Hm1. pose proof (map_gap_le _ _ _ Hm1). zdec. by apply (IH e.1).
Qed.

Lemma map_acc_snoc pa m e : map_acc pa (m ++ [e]) = e.2.
Proof. unfold map_acc. by rewrite last_snoc. Qed.
Lemma map_end_snoc pe m e : map_end pe (m ++ [e]) = e.1.
Proof. unfold map_end. by rewrite last_snoc. Qed.

Lemma map_acc_mono m1 m2 : map_wf (-1) 0 (m1 ++ m2) → map_acc 0 m1 ≤ map_acc 0 (m1 ++ m2) ∧ 0 ≤ map_acc 0 m1.
Proof.
  intros [H1 H2]%map_wf_app. pose proof (map_acc_le _ _ _ H2). pose proof (map_acc_le _ _ _ H1). split; [|lia].
  replace (map_acc 0 (m1 ++ m2)) with (map_acc (map_acc 0 m1) m2); [lia|].
  unfold map_acc. rewrite last_app. by destruct (last m2).
Qed.

(** What [next] knows of the entry before its position, and of the one there. *)
Lemma entry_before m1 m2 x :
  map_wf (-1) 0 (m1 ++ m2) → map_end (-1) m1 - map_acc 0 m1 ≤ x →
  (if (0 <? length m1)%nat then
     let! e := idx (m1 ++ m2) (length m1 - 1) in
     let! _ := debug_check (let! t := usub 64 e.1 e.2 in Ok (t <=? x)) in Ok e.2
   else Ok 0) = Ok (E:=NvFsError) (map_acc 0 m1).
Proof.
  intros [H1 _]%map_wf_app Hx. destruct m1 as [|e m1 _] using rev_ind; [done|].
  pose proof (map_acc_le _ _ _ H1) as Hle. rewrite map_acc_snoc, map_end_snoc, length_app in *. cbn [length] in *. zdec.
  rewrite Nat.add_sub, <-app_assoc. cbn [app]. rewrite idx_middle. cbn [obind].
  rewrite debug_check_true; [done|]. rewrite usub_Ok by lia. cbn [obind]. by zdec.
Qed.

Lemma map_iter_next_spec m1 m2 x y :
  map_wf (-1) 0 (m1 ++ m2) → map_end (-1) m1 - map_acc 0 m1 ≤ x → (∀ e, head m2 = Some e → x < e.1 - e.2) →
  0 ≤ x < y → y + map_acc 0 (m1 ++ m2) < 2 ^ 64 →
  ∃ z m1' m2', map_iter_next (m1 ++ m2) (mk_map_iter (length m1) x y) =
      Ok (Some (mk_range x z, x + map_acc 0 m1), mk_map_iter (length m1') z y) ∧
    m1 ++ m2 = m1' ++ m2' ∧ x < z ≤ y ∧ (z = y ∨ length m2' < length m2)%nat ∧
    map_end (-1) m1' - map_acc 0 m1' ≤ z ∧ (∀ e, head m2' = Some e → z = y ∨ z < e.1 - e.2) ∧
    (∀ e, head m2 = Some e → z ≤ e.1 - e.2).
Proof.
  intros Hm Hx Hh Hxy Hy. pose proof (map_acc_mono _ _ Hm) as Hacc. unfold map_iter_next.
  cbn [next_data_allocation_block data_allocation_blocks_end map_index]. zdec. rewrite entry_before by done. cbn [obind].
  destruct m2 as [|e m2].
  - rewrite app_nil_r in *. zdec. cbn [obind]. rewrite uadd_Ok by lia. cbn [obind]. rewrite range_new_Ok by lia. cbn [obind].
    exists y, m1, []. rewrite app_nil_r. split_and!; [done..|lia|lia|by left|lia|done|done].
  - rewrite length_app. cbn [length]. specialize (Hh e eq_refl). zdec. rewrite idx_middle. cbn [obind].
    replace (m1 ++ e :: m2) with ((m1 ++ [e]) ++ m2) in * by by rewrite <-app_assoc.
    pose proof (map_acc_mono _ _ Hm) as Hacc'. pose proof (proj1 (map_wf_app _ _ _ _) Hm) as [H1 H2]. pose proof (map_acc_le _ _ _ H1) as Hle.
    rewrite map_acc_snoc, map_end_snoc, length_app in *. cbn [length] in *.
    rewrite usub_Ok by lia. cbn [obind]. case (Z.ltb_spec (e.1 - e.2) y); intros; cbn [obind].
    + rewrite uadd_Ok by lia. cbn [obind]. rewrite range_new_Ok by lia. cbn [obind].
      exists (e.1 - e.2), (m1 ++ [e]), m2. rewrite length_app, map_acc_snoc, map_end_snoc. cbn [length head].
      split_and!; [done..|lia|lia|right; lia|lia| |by intros ? [= <-]].
      intros e' He'. right. destruct m2; [done|]. injection He' as ->. destruct H2 as (? & ? & _). lia.
    + rewrite uadd_Ok by lia. cbn [obind]. rewrite range_new_Ok by lia. cbn [obind].
      exists y, m1, (e :: m2). rewrite <-app_assoc. cbn [head]. split_and!; [done..|lia|lia|by left|lia|by left|]. by intros ? [= <-].
Qed.

Lemma map_iter_collect_spec fuel m1 m2 x y :
  (S (length m2) < fuel)%nat → map_wf (-1) 0 (m1 ++ m2) → map_end (-1) m1 - map_acc 0 m1 ≤ x →
  (∀ e, head m2 = Some e → x = y ∨ x < e.1 - e.2) → 0 ≤ x ≤ y → y + map_acc 0 (m1 ++ m2) < 2 ^ 64 →
  ∃ items, map_iter_collect fuel (m1 ++ m2) (mk_map_iter (length m1) x y) = Ok items ∧ pieces (m1 ++ m2) x y items.
Proof.
  revert m1 m2 x. induction fuel as [|fuel IH]; intros m1 m2 x Hf Hm Hx Hh Hxy Hy; [lia|]. cbn [map_iter_collect].
  destruct (decide (x = y)) as [->|Hne].
  - unfold map_iter_next. cbn [next_data_allocation_block data_allocation_blocks_end]. rewrite Z.eqb_refl. by exists [].
  - assert (∀ e, head m2 = Some e → x < e.1 - e.2) as Hh' by (intros e He; by destruct (Hh e He)).
    destruct (map_iter_next_spec m1 m2 x y) as (z & m1' & m2' & -> & Happ & Hz & Hdone & Hend & Hh2 & Hz'); [done..|lia|done|].
    cbn [obind]. assert (∀ w, x ≤ w < z → acc_data 0 (m1 ++ m2) w = map_acc 0 m1) as Hw.
    { intros w Hw. apply (acc_data_split (-1)); [done|lia|]. intros e He. specialize (Hz' e He). lia. }
    assert (∃ items, map_iter_collect fuel (m1 ++ m2) (mk_map_iter (length m1') z y) = Ok items ∧ pieces (m1 ++ m2) z y items)
      as (items & -> & Hp).
    { destruct Hdone as [->|Hlt].
      - destruct fuel as [|fuel]; [lia|]. cbn [map_iter_collect]. unfold map_iter_next.
        cbn [next_data_allocation_block data_allocation_blocks_end]. rewrite Z.eqb_refl. by exists [].
      - rewrite Happ in *. apply IH; [lia|done|done|done|lia|done]. }
    cbn [obind]. eexists. split; [done|]. cbn [pieces rng_begin rng_end]. split_and!; [done|lia| |done].
    intros w Hwz. rewrite Hw by lia. lia.
Qed.
End MapIteration.

Section DataDomain.
Context {B : Build} {Alloc : Allocator}.

Lemma partition_gap_split pe pa m x :
  map_wf pe pa m → 0 ≤ pa → pa ≤ pe + 1 → pe - pa ≤ x →
  ∃ m1 m2, m = m1 ++ m2 ∧ partition_point (λ e, gap_begin e <=? x) m = length m1 ∧
    map_end pe m1 - map_acc pa m1 ≤ x ∧ (∀ e, head m2 = Some e → x < e.1 - e.2).
Proof.
  revert pe pa. induction m as [|e m IH]; intros pe pa; [intros; by exists [], []|]. intros (? & ? & ? & Hm) ? ? ?. cbn [partition_point].
  assert (gap_begin e = e.1 - e.2) as -> by (unfold gap_begin; apply wrap_small; unfold in_u; lia).
  case (Z.leb_spec (e.1 - e.2) x); intros.
  - destruct (IH e.1 e.2) as (m1 & m2 & -> & -> & ? & ?); [done|lia..|]. exists (e :: m1), m2. rewrite map_acc_cons, map_end_cons. done.
  - exists [], (e :: m). split_and!; [done..|]. by intros ? [= <-].
Qed.

Lemma length_storage pe pa m : map_wf pe pa m → Z.of_nat (length (storage pa m)) = map_acc pa m - pa.
Proof.
  revert pe pa. induction m as [|e m IH]; intros pe pa; [cbn; lia|]. intros (? & ? & ? & Hm). cbn [storage].
  rewrite length_app, length_seqZ, map_acc_cons. specialize (IH _ _ Hm). lia.
Qed.

Lemma iter_data_range_spec m x y :
  map_wf (-1) 0 m → 0 ≤ x ≤ y → y + map_acc 0 m < 2 ^ 64 →
  ∃ it items, iter_data_range_mapping m (mk_range x y) = Ok it ∧
    map_iter_collect (S (S (length m))) m it = Ok items ∧ pieces m x y items.
Proof.
  intros Hm Hx Hy. unfold iter_data_range_mapping. cbn [rng_begin rng_end].
  change (total_auth_tree_extents_allocation_blocks m) with (map_acc 0 m). pose proof (map_acc_le _ _ _ Hm).
  rewrite usub_Ok by lia. cbn [obind]. rewrite !Z.min_l by lia.
  destruct (partition_gap_split (-1) 0 m x) as (m1 & m2 & -> & -> & ? & Hh); [done|lia..|].
  destruct (map_iter_collect_spec (S (S (length (m1 ++ m2)))) m1 m2 x y) as (items & ? & ?); [rewrite length_app; lia|done|done| |done|done|].
  { intros e He. right. by apply Hh. }
  by exists (mk_map_iter (length m1) x y), items.
Qed.

Lemma pieces_blocks m x y items :
  pieces m x y items → x ≤ y ∧ mjoin ((λ i : BlockRange * Z, seqZ (rng_begin i.1) (rng_end i.1 - rng_begin i.1)) <$> items) = seqZ x (y - x).
Proof.
  revert x. induction items as [|[r p] items IH]; intros x; cbn [pieces]; [intros ->; split; [lia|by rewrite Z.sub_diag]|].
  intros (<- & ? & _ & Hp). destruct (IH _ Hp) as [? Hb]. split; [lia|]. rewrite fmap_cons, LogicalExtents.mjoin_cons, Hb. cbn [fst].
  replace (y - rng_begin r) with ((rng_end r - rng_begin r) + (y - rng_end r)) by lia. rewrite seqZ_app by lia. f_equal; f_equal; lia.
Qed.

Lemma acc_before_total pe pa m p : map_wf pe pa m → acc_before pa m p ≤ map_acc pa m.
Proof.
  revert pe pa. induction m as [|e m IH]; intros pe pa; [cbn; lia|]. intros (? & ? & ? & Hm). rewrite map_acc_cons. cbn [acc_before].
  pose proof (map_acc_le _ _ _ Hm). specialize (IH _ _ Hm). destruct (e.1 <=? p); lia.
Qed.

Lemma pieces_map_back m x y items :
  map_wf (-1) 0 m → 0 ≤ x → y + map_acc 0 m < 2 ^ 64 → pieces m x y items →
  Forall (λ '(r, p), let physical := mk_range p (p + (rng_end r - rng_begin r)) in
    (∀ q, q ∈ physical → q ∉ storage 0 m) ∧ map_physical_to_data_allocation_blocks m physical = Ok r) items.
Proof.
  intros Hm Hx Hy. revert x Hx. induction items as [|[r p] items IH]; intros x Hx; [done|]. cbn [pieces].
  intros (<- & Hlt & Hz & Hp). destruct (pieces_blocks _ _ _ _ Hp) as [Hle _]. constructor; [|by apply (IH (rng_end r)); [lia|]].
  assert (∀ q, p ≤ q < p + (rng_end r - rng_begin r) → q ∉ storage 0 m ∧ acc_before 0 m q = p - rng_begin r) as Hq.
  { intros q Hq. pose proof (Hz (rng_begin r + (q - p)) ltac:(lia)) as E. destruct (physical_of_data (-1) 0 m (rng_begin r + (q - p)) Hm) as [Hn Ha].
    rewrite E in Hn, Ha. replace (p + (rng_begin r + (q - p) - rng_begin r)) with q in Hn, Ha by lia. split; [done|]. rewrite Ha. lia. }
  assert (0 ≤ p - rng_begin r ≤ map_acc 0 m) as Hb.
  { destruct (Hq p ltac:(lia)) as [_ <-]. clear -Hm. split.
    - destruct (Z.le_gt_cases (-1) p); [|by destruct m as [|e m]; cbn in *; [|zdec]].
      by apply (acc_before_le (-1) 0 m p Hm).
    - by apply (acc_before_total (-1)). }
  assert (∀ q, q ∈ mk_range p (p + (rng_end r - rng_begin r)) → q ∉ storage 0 m) as Hout.
  { intros q Hr%elem_of_range. cbn [rng_begin rng_end] in Hr. by apply Hq. }
  cbn zeta. split; [done|]. rewrite physical_to_data_spec; cbn [rng_begin rng_end]; [|done|lia|lia|done].
  destruct (Hq p ltac:(lia)) as [_ ->]. f_equal. destruct r as [b e]. cbn in *. f_equal; lia.
Qed.

(** The map built from the extents of the authentication tree takes a range of
    physical blocks outside of the tree to the range that begins at the number of
    blocks before it that are not of the tree. *)
Lemma physical_to_data_correct l r :
  LogicalExtents.le_wf 0 l → NoDup (LogicalExtents.le_blocks l) → alloc_ok 0 (length l) = true →
  0 ≤ rng_begin r < rng_end r → rng_end r < 2 ^ 64 → (∀ p, p ∈ r → p ∉ LogicalExtents.le_blocks l) →
  ∃ m, map_new l = Ok m ∧
    map_physical_to_data_allocation_blocks m r =
      Ok (mk_range (rng_begin r - below (LogicalExtents.le_blocks l) (rng_begin r))
                   (rng_end r - below (LogicalExtents.le_blocks l) (rng_begin r))).
Proof.
  intros Hl Hnd Ha Hr Hr' Hdis. destruct (map_new_spec l Hl Hnd Ha) as (m & Hnew & Hm & Hst). exists m. split; [done|].
  assert (∀ p, p ∈ r → p ∉ storage 0 m) as Hdis' by (intros p Hp; rewrite Hst; by apply Hdis).
  rewrite physical_to_data_spec by done. rewrite (acc_before_below (-1)) by (done || apply Hdis', elem_of_range; lia).
  by rewrite Z.add_0_l, (below_perm _ _ _ Hst).
Qed.

(** C27: iterating over a range of the data domain ends and yields pieces that
    together are the range; the physical blocks of each are outside of the tree and
    map back to the piece. *)
Theorem data_map_roundtrip l x y :
  LogicalExtents.le_wf 0 l → NoDup (LogicalExtents.le_blocks l) → alloc_ok 0 (length l) = true →
  0 ≤ x ≤ y → y + Z.of_nat (length (LogicalExtents.le_blocks l)) < 2 ^ 64 →
  ∃ m it items, map_new l = Ok m ∧ iter_data_range_mapping m (mk_range x y) = Ok it ∧
    map_iter_collect (S (S (length m))) m it = Ok items ∧
    mjoin ((λ i : BlockRange * Z, seqZ (rng_begin i.1) (rng_end i.1 - rng_begin i.1)) <$> items) = seqZ x (y - x) ∧
    Forall (λ '(r, p), let physical := mk_range p (p + (rng_end r - rng_begin r)) in
      (∀ q, q ∈ physical → q ∉ LogicalExtents.le_blocks l) ∧ map_physical_to_data_allocation_blocks m physical = Ok r) items.
Proof.
  intros Hl Hnd Ha Hx Hy. destruct (map_new_spec l Hl Hnd Ha) as (m & Hnew & Hm & Hst).
  assert (y + map_acc 0 m < 2 ^ 64) as Hy'.
  { pose proof (length_storage _ _ _ Hm) as Hlen. rewrite Hst in Hlen. lia. }
  destruct (iter_data_range_spec m x y Hm Hx Hy') as (it & items & Hit & Hc & Hp). exists m, it, items. split_and!; [done..| |].
  - by apply (pieces_blocks m).
  - eapply Forall_impl; [apply (pieces_map_back m x y); [done|lia|done|done]|]. intros [r p] [Hn Hmap]. split; [|done].
    intros q Hq. rewrite <-Hst. by apply Hn.
Qed.
End DataDomain.

(** *** The order of the nodes *)

(** Depth first, parents before their children: by the first data block covered,
    and the higher level first. *)
Definition before (c : Z) (v w : nat * Z) : Prop :=
  let b (v : nat * Z) := v.2 * 2 ^ (c * Z.of_nat v.1) in b v < b w ∨ b v = b w ∧ (w.1 < v.1)%nat.

Lemma sorted_lookup {A} (R : relation A) l (i j : nat) x y :
  StronglySorted R l → l !! i = Some x → l !! j = Some y → (i < j)%nat → R x y.
Proof.
  intros Hs Hx Hy Hij. rewrite <-(take_drop j l) in Hs. apply (StronglySorted_app_1_elem_of _ _ _ _ _ Hs).
  - apply (list_elem_of_lookup_2 _ i). by rewrite lookup_take_lt.
  - apply (list_elem_of_lookup_2 _ 0). by rewrite lookup_drop, Nat.add_0_r.
Qed.

Lemma sorted_mjoin {A} (R : relation A) (f : Z → list A) n : ∀ a,
  (∀ j, a ≤ j < a + Z.of_nat n → StronglySorted R (f j)) →
  (∀ j k v w, a ≤ j < k → k < a + Z.of_nat n → v ∈ f j → w ∈ f k → R v w) → StronglySorted R (mjoin (f <$> seqZ a (Z.of_nat n))).
Proof.
  induction n as [|n IH]; intros a Hs HR; [constructor|]. rewrite Nat2Z.inj_succ, seqZ_cons by lia.
  rewrite Z.pred_succ, fmap_cons, LogicalExtents.mjoin_cons. apply StronglySorted_app. split_and!.
  - intros v w Hv Hw. apply list_elem_of_join in Hw as (g & Hw & (k & -> & Hk%elem_of_seqZ)%list_elem_of_fmap). eapply HR; [| |done|done]; lia.
  - apply Hs. lia.
  - apply IH; [intros; apply Hs; lia|]. intros j k v w ? ? ? ?. apply (HR j k); done || lia.
Qed.

Lemma preorder_member c h : 0 ≤ c → ∀ i v, v ∈ preorder c h i →
  (v.1 < h)%nat ∧ i * 2 ^ (c * (Z.of_nat h - 1)) ≤ v.2 * 2 ^ (c * Z.of_nat v.1) < (i + 1) * 2 ^ (c * (Z.of_nat h - 1)).
Proof.
  intros Hc. induction h as [|h IH]; intros i v; cbn [preorder]; [by intros ?%not_elem_of_nil|].
  replace (Z.of_nat (S h) - 1) with (Z.of_nat h) by lia. pose proof (pow2_pos (c * Z.of_nat h) ltac:(nia)).
  intros [->|(g & Hv & (j & -> & Hj%elem_of_seqZ)%list_elem_of_fmap)%list_elem_of_join]%elem_of_cons; [cbn; split; [lia|nia]|].
  destruct (IH _ _ Hv) as (? & Hlo & Hhi). split; [lia|].
  destruct h as [|h]; [lia|]. replace (Z.of_nat (S h)) with (Z.of_nat (S h) - 1 + 1) by lia.
  rewrite Z.mul_add_distr_l, Z.mul_1_r, Z.pow_add_r by nia. set (q := 2 ^ (c * (Z.of_nat (S h) - 1))) in *.
  assert (0 < q) by (apply pow2_pos; nia). pose proof (pow2_pos c Hc). clear IH Hv. split; nia.
Qed.

Lemma preorder_sorted c h : 0 ≤ c → ∀ i, StronglySorted (before c) (preorder c h i).
Proof.
  intros Hc. induction h as [|h IH]; intros i; cbn [preorder]; [constructor|]. constructor.
  - replace (seqZ 0 (2 ^ c)) with (seqZ 0 (Z.of_nat (Z.to_nat (2 ^ c)))) by (f_equal; lia). apply sorted_mjoin; [intros; apply IH|]. intros j k v w Hjk _ Hv Hw.
    destruct (preorder_member c h Hc _ _ Hv) as (Hl & _ & Hv'). destruct (preorder_member c h Hc _ _ Hw) as (_ & Hw' & _).
    left. pose proof (pow2_pos (c * (Z.of_nat h - 1)) ltac:(nia)). nia.
  - apply Forall_forall. intros w (g & Hw & (j & -> & Hj%elem_of_seqZ)%list_elem_of_fmap)%list_elem_of_join.
    destruct (preorder_member c h Hc _ _ Hw) as (Hl & Hw' & _). destruct h as [|h]; [lia|]. unfold before. cbn [fst snd].
    set (q := 2 ^ (c * (Z.of_nat (S h) - 1))) in *. assert (0 < q) by (apply pow2_pos; nia).
    assert (2 ^ (c * Z.of_nat (S h)) = q * 2 ^ c) as -> by (unfold q; rewrite <-Z.pow_add_r by nia; f_equal; lia).
    assert (i * (q * 2 ^ c) ≤ w.2 * 2 ^ (c * Z.of_nat w.1)) by nia. lia.
Qed.

(** The identifier of a node given by its level and index. *)
Definition id_of (c d : Z) (v : nat * Z) : AuthTreeNodeId :=
  mk_node_id (v.2 * 2 ^ (c * Z.of_nat v.1 + d)) (Z.of_nat v.1) c d.
Abbreviation begin_of c d v := (covered_data_blocks_begin (id_of c d v)).

Section NodeOrder.
Context {B : Build} {P : Platform}.

Lemma level_bits_Ok l c d : 0 ≤ l → 0 ≤ c → 0 ≤ d → c * l + d < 2 ^ 32 → level_covered_data_block_index_bits l c d = Ok (c * l + d).
Proof. intros. unfold level_covered_data_block_index_bits. rewrite umul_Ok by nia. cbn [obind]. rewrite uadd_Ok by lia. f_equal. lia. Qed.

Lemma node_id_new_spec x l c d :
  0 ≤ x < 2 ^ 64 → 0 ≤ l → 0 ≤ c → 0 ≤ d → c * l + d ≤ 63 →
  node_id_new x l c d = Ok (mk_node_id (x / 2 ^ (c * l + d) * 2 ^ (c * l + d)) l c d).
Proof.
  intros. unfold node_id_new. rewrite level_bits_Ok by nia. cbn [obind]. zdec.
  rewrite trailing_bits_mask_u_spec by nia. cbn [obind]. by rewrite land_unot_mask by (unfold in_u; nia).
Qed.

Lemma cmp_eq c d (v w : nat * Z) r :
  1 ≤ c → 0 ≤ d → c * Z.max (Z.of_nat v.1) (Z.of_nat w.1) + d ≤ 63 →
  (let s := 2 ^ (c * Z.max (Z.of_nat v.1) (Z.of_nat w.1) + d) in
   if begin_of c d v / s =? begin_of c d w / s then
     r = CompOpp (Z.of_nat v.1 ?= Z.of_nat w.1) ∧ (r = Eq → begin_of c d v = begin_of c d w)
   else r = (begin_of c d v ?= begin_of c d w)) → cmp (id_of c d v) (id_of c d w) = Ok r.
Proof.
  intros Hc Hd HM. cbn zeta. unfold cmp. cbn [id_of level node_digests_per_node_log2 data_digests_per_node_log2].
  rewrite umul_Ok by nia. cbn [obind]. rewrite uadd_Ok by nia. cbn [obind]. rewrite ushr_Ok by nia. cbn [obind].
  rewrite Z.shiftr_lxor, !Z.shiftr_div_pow2 by nia. rewrite (Z.mul_comm (Z.max _ _) c).
  set (s := 2 ^ (c * Z.max (Z.of_nat v.1) (Z.of_nat w.1) + d)). fold (id_of c d v) (id_of c d w).
  set (bv := begin_of c d v). set (bw := begin_of c d w). destruct (Z.eqb_spec (bv / s) (bw / s)) as [E|E].
  - rewrite E, Z.lxor_nilpotent. cbn [Z.eqb]. intros [-> He]. destruct (Z.of_nat v.1 ?= Z.of_nat w.1); cbn [CompOpp] in *; [|done..].
    rewrite He, Z.eqb_refl by done. by ostep.
  - intros ->. case (Z.eqb_spec (Z.lxor (bv / s) (bw / s)) 0); intros Hx; [by apply Z.lxor_eq in Hx|].
    assert (bv ≠ bw) as Hne by congruence. apply Z.eqb_neq in Hne. rewrite Hne. by ostep.
Qed.

Lemma begin_of_aligned c d v : 0 ≤ c → 0 ≤ d →
  begin_of c d v = begin_of c d v / 2 ^ (c * Z.of_nat v.1 + d) * 2 ^ (c * Z.of_nat v.1 + d).
Proof. intros. cbn. rewrite Z.div_mul; [done|]. pose proof (pow2_pos (c * Z.of_nat v.1 + d) ltac:(nia)). lia. Qed.

Lemma before_begin_of c d v w : 0 ≤ c → 0 ≤ d →
  before c v w → begin_of c d v < begin_of c d w ∨ begin_of c d v = begin_of c d w ∧ (w.1 < v.1)%nat.
Proof.
  intros Hc Hd Hb. cbn. rewrite !Z.pow_add_r by nia. pose proof (pow2_pos d Hd).
  destruct Hb as [Hb|[Hb ?]]; cbn in Hb; [left|right; split; [|done]]; nia.
Qed.

(** A node that covers the begin of another one is not after it. *)
Lemma before_same_prefix c d v w : 1 ≤ c → 0 ≤ d → before c v w →
  let s := 2 ^ (c * Z.max (Z.of_nat v.1) (Z.of_nat w.1) + d) in
  begin_of c d v / s = begin_of c d w / s → Z.of_nat w.1 < Z.of_nat v.1.
Proof.
  intros Hc Hd Hb%(before_begin_of c d); [|lia..]. cbn zeta. set (M := Z.max (Z.of_nat v.1) (Z.of_nat w.1)).
  pose proof (pow2_pos (c * M + d) ltac:(nia)) as Hpos. intros E.
  pose proof (begin_of_aligned c d v ltac:(lia) Hd) as Hmv. pose proof (begin_of_aligned c d w ltac:(lia) Hd) as Hmw.
  set (bv := begin_of c d v) in *. set (bw := begin_of c d w) in *.
  pose proof (Z.div_mod bv (2 ^ (c * M + d)) ltac:(lia)) as Ev. pose proof (Z.mod_pos_bound bv (2 ^ (c * M + d)) Hpos).
  destruct (Z.lt_ge_cases (Z.of_nat w.1) (Z.of_nat v.1)) as [|Hge]; [done|]. exfalso. replace (Z.of_nat w.1) with M in Hmw by lia.
  destruct Hb as [?|[? ?]]; [|lia]. lia.
Qed.

Lemma cmp_before c d (v w : nat * Z) :
  1 ≤ c → 0 ≤ d → c * Z.max (Z.of_nat v.1) (Z.of_nat w.1) + d ≤ 63 → before c v w →
  cmp (id_of c d v) (id_of c d w) = Ok Lt ∧ cmp (id_of c d w) (id_of c d v) = Ok Gt.
Proof.
  intros Hc Hd HM Hb. pose proof (before_same_prefix c d v w Hc Hd Hb) as Hsame. cbn zeta in Hsame.
  apply (before_begin_of c d) in Hb; [|lia..].
  split; apply cmp_eq; rewrite 1?(Z.max_comm (Z.of_nat w.1)); try done; cbn zeta.
  - case Z.eqb_spec; intros E.
    + specialize (Hsame E). by rewrite (proj2 (Z.compare_gt_iff _ _)) by lia.
    + symmetry. apply Z.compare_lt_iff. destruct Hb as [?|[Heq _]]; [done|]. by rewrite Heq in E.
  - case Z.eqb_spec; intros E.
    + specialize (Hsame (eq_sym E)). by rewrite (proj2 (Z.compare_lt_iff _ _)) by lia.
    + symmetry. apply Z.compare_gt_iff. destruct Hb as [?|[Heq _]]; [done|]. by rewrite Heq in E.
Qed.

End NodeOrder.

Section NodeResults.
Context {B : Build} {P : Platform}.

Lemma pow2_le_64 k : k ≤ 63 → 2 ^ k < 2 ^ 64.
Proof. intros. apply Z.pow_lt_mono_r; lia. Qed.

Lemma cmp_self c d v : 1 ≤ c → 0 ≤ d → c * Z.of_nat v.1 + d ≤ 63 → cmp (id_of c d v) (id_of c d v) = Ok Eq.
Proof. intros. apply cmp_eq; [done..|by rewrite Z.max_id|]. cbn zeta. by rewrite Z.eqb_refl, Z.compare_refl. Qed.

(** Positions in the traversal are ordered as the identifiers. *)
Lemma cmp_positions c d L (p q : Z) v w :
  1 ≤ c → 0 ≤ d → c * (Z.of_nat L - 1) + d ≤ 63 → 0 ≤ p → 0 ≤ q →
  preorder c L 0 !! Z.to_nat p = Some v → preorder c L 0 !! Z.to_nat q = Some w →
  cmp (id_of c d v) (id_of c d w) = Ok (p ?= q).
Proof.
  intros Hc Hd HL Hp Hq Hv Hw. pose proof (preorder_sorted c L ltac:(lia) 0) as Hs.
  destruct (preorder_member c L ltac:(lia) 0 v) as [Hl _]; [by eapply list_elem_of_lookup_2|].
  destruct (preorder_member c L ltac:(lia) 0 w) as [Hk _]; [by eapply list_elem_of_lookup_2|].
  assert (c * Z.max (Z.of_nat v.1) (Z.of_nat w.1) + d ≤ 63) as HM by nia.
  destruct (Z.compare_spec p q) as [->|Hlt|Hgt].
  - rewrite Hv in Hw. injection Hw as ->. apply cmp_self; [done..|nia].
  - apply cmp_before; [done..|]. by apply (sorted_lookup _ _ _ _ _ _ Hs Hv Hw); lia.
  - apply cmp_before; [done|done|by rewrite Z.max_comm|]. by apply (sorted_lookup _ _ _ _ _ _ Hs Hw Hv); lia.
Qed.

(** C28: comparing two node identifiers agrees with comparing the positions at which
    the nodes are stored. *)
Theorem node_order_correct c inv d x y (l k L : nat) :
  1 ≤ c ≤ 63 → digests_per_node_minus_one_inv_mod_u64 c = Ok inv → 1 ≤ d → (l < L)%nat → (k < L)%nat → c * (Z.of_nat L - 1) + d ≤ 63 →
  0 ≤ x < 2 ^ (c * (Z.of_nat L - 1) + d) → 0 ≤ y < 2 ^ (c * (Z.of_nat L - 1) + d) →
  ∃ n n' pos pos' e e', node_id_new x (Z.of_nat l) c d = Ok n ∧ node_id_new y (Z.of_nat k) c d = Ok n' ∧
    auth_tree_node_dfs_pre_index x (Z.of_nat l) (Z.of_nat L) c inv d = Ok (pos, e) ∧
    auth_tree_node_dfs_pre_index y (Z.of_nat k) (Z.of_nat L) c inv d = Ok (pos', e') ∧
    cmp n n' = Ok (pos ?= pos').
Proof.
  intros Hc Hi Hd Hl Hk HL Hx Hy. pose proof (pow2_le_64 _ HL).
  destruct (minus_one_inv_spec c) as (inv' & Hi' & Hinv); [lia|]. rewrite Hi in Hi'. injection Hi' as <-.
  destruct (dfs_pre_index_spec c inv Hc Hinv d x l L) as (p & Hp & Hp0 & Hv); [nia..|].
  destruct (dfs_pre_index_spec c inv Hc Hinv d y k L) as (q & Hq & Hq0 & Hw); [nia..|].
  rewrite !node_id_new_spec by nia. do 6 eexists. split; [done|]. split; [done|]. split; [exact Hp|]. split; [exact Hq|].
  apply (cmp_positions c d L p q _ _ ltac:(lia) ltac:(lia) HL Hp0 Hq0 Hv Hw).
Qed.

Lemma aligned_land t b m : 0 ≤ m ≤ b → Z.land (t * 2 ^ b) (2 ^ m - 1) = 0.
Proof.
  intros Hm. rewrite Z.sub_1_r, <-Z.ones_equiv, Z.land_ones by lia. apply Z.mod_divide; [pose proof (pow2_pos m ltac:(lia)); lia|].
  apply Z.divide_mul_r, pow2_divide. lia.
Qed.

Lemma aligned_lor t b v : 0 ≤ b → in_u b v → Z.lor (t * 2 ^ b) v = t * 2 ^ b + v.
Proof. intros. rewrite Z.lor_comm, <-Z.shiftl_mul_pow2, lor_shiftl_add by done. rewrite Z.shiftl_mul_pow2 by lia. lia. Qed.

Section Covered.
Variables (t : Z) (l : nat) (c d : Z).
Hypothesis Hc : 1 ≤ c ≤ 63.
Hypothesis Hd : 1 ≤ d.
Hypothesis Hbits : c * Z.of_nat l + d ≤ 63.

Lemma last_covered_Ok : last_covered_data_block (id_of c d (l, t)) = Ok (begin_of c d (l, t) + (2 ^ (c * Z.of_nat l + d) - 1)).
Proof.
  unfold last_covered_data_block. cbn [id_of fst snd level node_digests_per_node_log2 data_digests_per_node_log2 covered_data_blocks_begin].
  rewrite level_bits_Ok by nia. set (b := c * Z.of_nat l + d) in *. assert (0 ≤ b) by nia. pose proof (pow2_pos b ltac:(lia)).
  cbn [obind]. zdec. rewrite trailing_bits_mask_u_spec by lia. cbn [obind].
  rewrite aligned_land by lia. cbn [Z.eqb]. ostep. f_equal. apply aligned_lor; [lia|]. unfold in_u. lia.
Qed.

Lemma index_in_parent_Ok : c ≤ usize_bits → index_in_parent (id_of c d (l, t)) = Ok (t mod 2 ^ c).
Proof.
  intros Hus. unfold index_in_parent. cbn [id_of fst snd level node_digests_per_node_log2 data_digests_per_node_log2 covered_data_blocks_begin].
  rewrite level_bits_Ok by nia. set (b := c * Z.of_nat l + d) in *. assert (0 ≤ b) by nia. pose proof (pow2_pos b ltac:(lia)).
  cbn [obind]. zdec. ostep. rewrite trailing_bits_mask_u_spec by lia. cbn [obind].
  rewrite Z.sub_1_r, <-Z.ones_equiv, Z.land_ones by lia. rewrite Z.shiftr_div_pow2, Z.div_mul by lia. f_equal. apply wrap_small.
  unfold in_u. pose proof (Z.mod_pos_bound t (2 ^ c) (pow2_pos c ltac:(lia))). pose proof (Z.pow_le_mono_r 2 c usize_bits ltac:(lia) Hus). lia.
Qed.

Lemma last_entry_Ok : last_entry_covered_data_blocks_begin (id_of c d (l, t)) =
  Ok (begin_of c d (l, t) + 2 ^ (c * Z.of_nat l + d) - match l with O => 1 | S l => 2 ^ (c * Z.of_nat l + d) end).
Proof.
  unfold last_entry_covered_data_blocks_begin.
  cbn [id_of fst snd level node_digests_per_node_log2 data_digests_per_node_log2 covered_data_blocks_begin]. destruct l as [|k].
  - change (Z.of_nat 0) with 0. cbn [Z.eqb negb]. rewrite Z.mul_0_r, Z.add_0_l. rewrite trailing_bits_mask_u_spec by lia. cbn [obind].
    rewrite debug_check_true by (cbn [obind]; by rewrite aligned_land by lia). cbn [obind]. pose proof (pow2_pos d ltac:(lia)).
    rewrite aligned_lor by (unfold in_u; lia). f_equal. lia.
  - rewrite (proj2 (Z.eqb_neq (Z.of_nat (S k)) 0)) by lia. cbn [negb]. rewrite level_bits_Ok by nia.
    set (b := c * Z.of_nat (S k) + d) in *. assert (b - c = c * Z.of_nat k + d) as Hb by lia. cbn [obind].
    rewrite trailing_bits_mask_u_spec by lia. rewrite usub_Ok by nia. cbn [obind]. rewrite Hb. rewrite debug_check_true by (cbn [obind]; by zdec).
    cbn [obind]. rewrite ushl_Ok by nia. cbn [obind]. rewrite Z.shiftl_mul_pow2 by nia.
    assert (2 ^ b = 2 ^ c * 2 ^ (c * Z.of_nat k + d)) as Hpow by (rewrite <-Z.pow_add_r by nia; f_equal; lia).
    pose proof (pow2_pos (c * Z.of_nat k + d) ltac:(nia)). pose proof (pow2_ge2 c ltac:(lia)). pose proof (pow2_le_64 b Hbits).
    rewrite wrap_small by (unfold in_u; nia). rewrite aligned_lor by (unfold in_u; nia). f_equal. nia.
Qed.
End Covered.

(** The identifier of the node at a level that covers a data block covers exactly
    the blocks with the same index at that level, its entry in the parent is the low
    part of this index, and its last entry begins where the last child does. *)
Lemma node_id_correct x (l : nat) c d :
  0 ≤ x < 2 ^ 64 → 1 ≤ c ≤ 63 → 1 ≤ d → c * Z.of_nat l + d ≤ 63 → c ≤ usize_bits →
  ∃ n last, node_id_new x (Z.of_nat l) c d = Ok n ∧ last_covered_data_block n = Ok last ∧
    (∀ y, first_covered_data_block n ≤ y ≤ last ↔ y / 2 ^ (c * Z.of_nat l + d) = x / 2 ^ (c * Z.of_nat l + d)) ∧
    index_in_parent n = Ok (x / 2 ^ (c * Z.of_nat l + d) mod 2 ^ c) ∧
    last_entry_covered_data_blocks_begin n = Ok (last + 1 - match l with O => 1 | S l => 2 ^ (c * Z.of_nat l + d) end).
Proof.
  intros Hx Hc Hd Hbits Hus. rewrite node_id_new_spec by nia. exists (id_of c d (l, x / 2 ^ (c * Z.of_nat l + d))),
    (x / 2 ^ (c * Z.of_nat l + d) * 2 ^ (c * Z.of_nat l + d) + (2 ^ (c * Z.of_nat l + d) - 1)). split; [done|]. split; [by apply last_covered_Ok|]. split; [|split; [by apply index_in_parent_Ok|]].
  - intros y. unfold first_covered_data_block. cbn [id_of covered_data_blocks_begin fst snd]. pose proof (pow2_pos (c * Z.of_nat l + d) ltac:(nia)) as Hpos. set (b := c * Z.of_nat l + d) in *. split.
    + intros Hy. symmetry. apply (Z.div_unique_pos _ _ _ (y - x / 2 ^ b * 2 ^ b)); lia.
    + intros E. rewrite <-E. pose proof (Z.div_mod y (2 ^ b) ltac:(lia)). pose proof (Z.mod_pos_bound y (2 ^ b) Hpos). lia.
  - rewrite last_entry_Ok by done. f_equal. cbn [id_of covered_data_blocks_begin fst snd]. lia.
Qed.

(** *** The sets of the cache *)

(** Division by multiplication with a rounded reciprocal. *)
Lemma div_by_multiplication n levels s :
  0 ≤ n → 0 < levels → 0 ≤ s → n * (levels - 1) < 2 ^ s → n * div_ceil (2 ^ s) levels / 2 ^ s = n / levels.
Proof.
  intros Hn HL Hs Hb. unfold div_ceil. set (q := (2 ^ s + levels - 1) / levels).
  pose proof (Z.div_mod (2 ^ s + levels - 1) levels ltac:(lia)) as E. pose proof (Z.mod_pos_bound (2 ^ s + levels - 1) levels HL). fold q in E.
  pose proof (Z.div_mod n levels ltac:(lia)) as En. pose proof (Z.mod_pos_bound n levels HL). pose proof (pow2_pos s Hs).
  pose proof (Z.div_pos n levels Hn HL). set (k := n / levels) in *. set (r := n mod levels) in *.
  set (e := levels * q - 2 ^ s) in *. assert (0 ≤ e ≤ levels - 1) as He by lia. assert (levels * (n * q) = n * 2 ^ s + n * e) as Hm by (unfold e; ring).
  assert (n * e ≤ n * (levels - 1)) by (apply Z.mul_le_mono_nonneg_l; lia).
  symmetry. apply (Z.div_unique_pos _ _ _ (n * q - 2 ^ s * k)); [|lia].
  assert (levels * (2 ^ s * k) ≤ levels * (n * q)) by (rewrite Hm; clear -En H H0 H1 H2 He Hn; nia).
  assert (levels * (n * q) < levels * (2 ^ s * (k + 1))) by (rewrite Hm; clear -En H H0 H1 H2 H3 He Hb; nia). nia.
Qed.

Definition levels_log2 (levels : Z) : Z := Z.log2 levels + (if is_pow2_u 32 levels then 0 else 1).

Lemma levels_log2_ok levels : 1 ≤ levels ≤ 64 → levels ≤ 2 ^ levels_log2 levels ∧ 0 ≤ levels_log2 levels ≤ 6 ∧
  div_ceil (2 ^ (16 + levels_log2 levels)) levels < 2 ^ 17.
Proof.
  intros HL. assert (forallb (λ k, let l := levels_log2 k in (k <=? 2 ^ l) && (0 <=? l) && (l <=? 6) && (div_ceil (2 ^ (16 + l)) k <? 2 ^ 17))
    (seqZ 1 64) = true) as Hall by by vm_compute.
  rewrite forallb_forall in Hall. specialize (Hall levels). cbn zeta in Hall. rewrite !andb_true_iff, !Z.leb_le, Z.ltb_lt in Hall.
  destruct Hall as [[[? ?] ?] ?]; [apply list_elem_of_In, elem_of_seqZ; lia|]. done.
Qed.

Lemma cache_set_map_new_Ok levels sets :
  1 ≤ levels ≤ 64 → 0 ≤ sets ≤ 64 →
  cache_set_map_new levels sets = Ok (mk_cache_set_map sets (div_ceil (2 ^ (16 + levels_log2 levels)) levels) (16 + levels_log2 levels)).
Proof.
  intros HL Hs. destruct (levels_log2_ok levels HL) as (? & ? & ?). unfold cache_set_map_new, ilog2. zdec. cbn [debug_assert obind].
  rewrite uadd_Ok by (unfold levels_log2 in *; lia). fold (levels_log2 levels). cbn [obind]. rewrite uadd_Ok by lia. cbn [obind].
  rewrite ushl_Ok by lia. cbn [obind]. rewrite Z.shiftl_1_l, wrap_small by (unfold in_u; split; [lia|apply Z.pow_lt_mono_r; lia]).
  rewrite debug_check_true. 2: { rewrite ushl_Ok by lia. cbn [obind]. rewrite Z.shiftl_1_l, wrap_small by (unfold in_u; lia). by zdec. }
  cbn [obind]. by rewrite (wrap_small 8) by (unfold in_u; lia).
Qed.

(** The division by multiplication of the cache's map is exact: a node at a level
    gets the set [level * sets / levels], which is one of the sets, and each set gets
    at most two consecutive levels. *)
Lemma cache_set_correct levels key :
  1 ≤ levels ≤ 64 → 0 ≤ level key < levels → 8 ≤ usize_bits →
  ∃ sets map set, node_cache_sets_count levels = Ok sets ∧ cache_set_map_new levels sets = Ok map ∧
    map_key map key = Ok (Some set) ∧ set = level key * sets / levels ∧ 0 ≤ set < sets ∧ level key - 1 ≤ 2 * set ≤ level key.
Proof.
  intros HL Hk Hu. unfold node_cache_sets_count. rewrite umul_Ok by lia. cbn [obind]. set (sets := div_ceil (2 * levels) 4).
  assert (2 * levels ≤ 4 * sets < 2 * levels + 4) as Hs.
  { unfold sets, div_ceil. pose proof (Z.div_mod (2 * levels + 4 - 1) 4 ltac:(lia)). pose proof (Z.mod_pos_bound (2 * levels + 4 - 1) 4 ltac:(lia)). lia. }
  exists sets. do 2 eexists. split; [done|]. split; [apply cache_set_map_new_Ok; lia|].
  destruct (levels_log2_ok levels HL) as (Hp & Hl & Hm). unfold map_key. cbn [cache_sets_count auth_tree_levels_inv_multiplier auth_tree_levels_inv_shift].
  assert (0 ≤ level key * sets ≤ 63 * 32) by nia. set (q := div_ceil _ levels) in *.
  assert (0 ≤ q) by (apply Z.div_pos; [pose proof (pow2_pos (16 + levels_log2 levels) ltac:(lia))|]; lia).
  rewrite umul_Ok by lia. cbn [obind]. rewrite umul_Ok by nia. cbn [obind]. rewrite ushr_Ok by lia. cbn [obind].
  rewrite Z.shiftr_div_pow2 by lia. unfold q. rewrite div_by_multiplication; [|lia..|rewrite Z.pow_add_r by lia; nia].
  pose proof (Z.div_mod (level key * sets) levels ltac:(lia)) as E. pose proof (Z.mod_pos_bound (level key * sets) levels ltac:(lia)) as Er.
  set (k := level key * sets / levels) in *. assert (0 ≤ k < sets) as Hks by nia.
  rewrite wrap_small by (unfold in_u; pose proof (Z.pow_le_mono_r 2 8 usize_bits ltac:(lia) Hu); lia).
  split; [done|]. split; [done|]. split; [done|]. assert (level key * levels ≤ 2 * (level key * sets) ≤ level key * levels + level key) as Hv by nia.
  clear -Hv E Er Hk HL. nia.
Qed.
End NodeResults.

(** *** Instances *)

(** A tree in the blocks 10 and 11, and 4 to 6. *)
Definition example_tree : LogicalExtents.lextents := [(10, 2); (4, 5)].

Lemma example_tree_blocks : LogicalExtents.le_blocks example_tree = [10; 11; 4; 5; 6].
Proof. done. Qed.

Lemma example_tree_NoDup : NoDup (LogicalExtents.le_blocks example_tree).
Proof. rewrite example_tree_blocks. by apply (bool_decide_unpack _). Qed.

Lemma physical_to_data_correct_witness :
  map_physical_to_data_allocation_blocks (B:=debug_build) [(7, 3); (12, 5)] (mk_range 12 15) = Ok (mk_range 7 10).
Proof.
  destruct (@physical_to_data_correct debug_build (λ _ _, true) example_tree (mk_range 12 15)) as (m & Hm & Hr);
    [by cbn; lia|exact example_tree_NoDup|done|cbn; lia|cbn; lia|..].
  { intros p Hp. rewrite elem_of_range in Hp. cbn [rng_begin rng_end] in Hp. rewrite example_tree_blocks. rewrite !not_elem_of_cons. split_and!; [lia..|apply not_elem_of_nil]. }
  assert (map_new (B:=debug_build) (Alloc:=λ _ _, true) example_tree = Ok [(7, 3); (12, 5)]) as E by by vm_compute.
  rewrite E in Hm. injection Hm as <-. rewrite Hr. by vm_compute.
Defined.

Lemma data_map_roundtrip_witness :
  iter_data_range_mapping (B:=debug_build) [(7, 3); (12, 5)] (mk_range 3 9) = Ok (mk_map_iter 0 3 9) ∧
  map_iter_collect (B:=debug_build) 4 [(7, 3); (12, 5)] (mk_map_iter 0 3 9) =
    Ok [(mk_range 3 4, 3); (mk_range 4 7, 7); (mk_range 7 9, 12)].
Proof.
  destruct (@data_map_roundtrip debug_build (λ _ _, true) example_tree 3 9) as (m & it & items & Hm & Hit & Hc & _);
    [by cbn; lia|exact example_tree_NoDup|done|lia|by vm_compute|].
  assert (map_new (B:=debug_build) (Alloc:=λ _ _, true) example_tree = Ok [(7, 3); (12, 5)]) as E by by vm_compute.
  rewrite E in Hm. injection Hm as <-. split; [by vm_compute|].
  assert (it = mk_map_iter 0 3 9) as -> by (revert Hit; vm_compute; by intros [= <-]).
  transitivity (Ok (E:=NvFsError) items); [exact Hc|]. revert Hc. vm_compute. by intros [= <-].
Defined.

Lemma node_order_correct_witness :
  cmp (B:=debug_build) (mk_node_id 288 0 4 4) (mk_node_id 256 1 4 4) = Ok Gt.
Proof.
  destruct (@node_order_correct debug_build 64 4 inv16 4 300 300 0 1 3) as (n & n' & p & p' & e & e' & Hn & Hn' & Hp & Hp' & Hc);
    [lia|by vm_compute|lia|lia|lia|lia|lia|lia|].
  assert (n = mk_node_id 288 0 4 4) as -> by (revert Hn; vm_compute; by intros [= <-]).
  assert (n' = mk_node_id 256 1 4 4) as -> by (revert Hn'; vm_compute; by intros [= <-]). rewrite Hc. f_equal.
  revert Hp Hp'. vm_compute. by intros [= <- _] [= <- _].
Defined.

Lemma node_id_correct_witness :
  last_covered_data_block (B:=debug_build) (mk_node_id 256 1 4 4) = Ok 511 ∧
  last_entry_covered_data_blocks_begin (B:=debug_build) (mk_node_id 256 1 4 4) = Ok 496.
Proof.
  destruct (@node_id_correct debug_build 64 300 1 4 4) as (n & last & Hn & Hl & _ & _ & He); [lia|lia|lia|lia|by vm_compute|].
  assert (n = mk_node_id 256 1 4 4) as -> by (revert Hn; vm_compute; by intros [= <-]).
  assert (last = 511) as -> by (revert Hl; vm_compute; by intros [= <-]). split; [exact Hl|exact He].
Defined.

Lemma cache_set_correct_witness :
  cache_set_map_new (B:=debug_build) 5 3 = Ok (mk_cache_set_map 3 104858 19) ∧
  map_key (B:=debug_build) (P:=64) (mk_cache_set_map 3 104858 19) (mk_node_id 0 4 4 4) = Ok (Some 2).
Proof.
  destruct (@cache_set_correct debug_build 64 5 (mk_node_id 0 4 4 4)) as (sets & map & set & Hs & Hm & Hk & -> & _); [lia|cbn; lia|by vm_compute|].
  assert (sets = 3) as -> by (revert Hs; vm_compute; by intros [= <-]).
  assert (map = mk_cache_set_map 3 104858 19) as -> by (revert Hm; vm_compute; by intros [= <-]). split; [exact Hm|exact Hk].
Defined.

(** The mapping of a single block of the data domain is wrong where the tree has
    blocks before it: the iteration places data block 5 at the physical block 8, while
    this mapping gives 10, a block of the tree itself, and behind the last extent of
    the tree it indexes out of range. *)
Lemma data_to_physical_defect :
  map_new (B:=debug_build) (Alloc:=λ _ _, true) example_tree = Ok [(7, 3); (12, 5)] ∧
  (let! it := iter_data_range_mapping (B:=debug_build) [(7, 3); (12, 5)] (mk_range 5 6) in
   map_iter_collect (B:=debug_build) 4 [(7, 3); (12, 5)] it) = Ok [(mk_range 5 6, 8)] ∧
  map_data_to_physical_allocation_block (B:=debug_build) [(7, 3); (12, 5)] 5 = Ok 10 ∧ 10 ∈ LogicalExtents.le_blocks example_tree ∧
  map_data_to_physical_allocation_block (B:=release_build) [(7, 3); (12, 5)] 7 = Panic.
Proof. split_and!; try by vm_compute. rewrite example_tree_blocks. set_solver. Qed.

End AuthTreeMap.
