(* ===== verification/CtCmp.v ===== *)
(** * Comparisons of byte slices in constant time (utils-common/src/ct_cmp.rs)

    Slices are compared by limbs where both have the same alignment.  What the
    comparison of two limbs gives, and where the aligned part of a slice begins, are
    parameters. *)

From S2P Require Import Prelude Errors.
Import Errors.
Abbreviation res := (outcome NvFsError).

Module CtCmp.

(** The comparison of limbs in constant time ([cmpa::ct_eq_l_l]) and the size of a
    limb, and where the aligned parts of two slices begin. *)
Class CtBackend := {
  ct_eq_l_l : Z → Z → bool;
  limb_bytes : nat;
  align_heads : list Z → list Z → nat * nat;
}.

Class CtLaws `{CtBackend} := {
  ct_eq_l_l_law a b : ct_eq_l_l a b = true ↔ a = b;
  limb_bytes_law : (0 < limb_bytes)%nat;
}.

(** ** Comparison of byte slices in constant time (utils-common/src/ct_cmp.rs) *)

Section Ops.
Context {B : Build} {CT : CtBackend}.

Fixpoint any_neq (acc : Z) (l l' : list Z) : Z :=
  match l, l' with a :: l, b :: l' => any_neq (Z.lor acc (Z.lxor a b)) l l' | _, _ => acc end.

Definition ct_slices_eq (l l' : list Z) : res bool :=
  let! _ := debug_assert (length l =? length l')%nat in
  Ok (ct_eq_l_l (any_neq 0 l l') 0).

(** The limbs and the tail of the part of a slice after its head; in which order the
    bytes make a limb does not matter to the comparison. *)
Fixpoint limbs (n : nat) (bytes : list Z) : list Z * list Z :=
  match n with
  | O => ([], bytes)
  | S n =>
      if (limb_bytes <=? length bytes)%nat then
        let '(ls, tail) := limbs n (drop limb_bytes bytes) in (from_le_bytes (take limb_bytes bytes) :: ls, tail)
      else ([], bytes)
  end.
Definition align_to (head : nat) (bytes : list Z) : list Z * list Z * list Z :=
  let '(ls, tail) := limbs (length bytes) (drop head bytes) in (take head bytes, ls, tail).

Definition ct_bytes_eq (bytes0 bytes1 : list Z) : res bool :=
  let! _ := debug_assert (length bytes0 =? length bytes1)%nat in
  let '(head0, head1) := align_heads bytes0 bytes1 in
  let '(bytes0_head, bytes0_limbs, bytes0_tail) := align_to head0 bytes0 in
  let '(bytes1_head, bytes1_limbs, bytes1_tail) := align_to head1 bytes1 in
  if negb (length bytes0_head =? length bytes1_head)%nat then ct_slices_eq bytes0 bytes1
  else
    let! all_eq := ct_slices_eq bytes0_head bytes1_head in
    let! limbs_eq := ct_slices_eq bytes0_limbs bytes1_limbs in
    let! tail_eq := ct_slices_eq bytes0_tail bytes1_tail in
    Ok (all_eq && limbs_eq && tail_eq).

(** *** Zero bytes *)

Fixpoint any_nonzero (acc : Z) (l : list Z) : Z :=
  match l with [] => acc | b :: l => any_nonzero (Z.lor acc b) l end.

Definition ct_slice_all_zero (l : list Z) : bool := ct_eq_l_l (any_nonzero 0 l) 0.

Definition ct_bytes_all_zero (bytes : list Z) : bool :=
  let '(bytes_head, limbs, bytes_tail) := align_to (align_heads bytes bytes).1 bytes in
  let all_zero := ct_slice_all_zero bytes_head in
  let all_zero := all_zero && ct_eq_l_l (any_nonzero 0 limbs) 0 in
  all_zero && ct_slice_all_zero bytes_tail.
End Ops.

(** ** The comparison in constant time *)

Section CtCorrect.
Context {B : Build} {CT : CtBackend} {CL : CtLaws}.

Lemma lor_zero a b : Z.lor a b = 0 ↔ a = 0 ∧ b = 0.
Proof. apply Z.lor_eq_0_iff. Qed.

Lemma any_neq_zero l l' acc : length l = length l' → any_neq acc l l' = 0 ↔ acc = 0 ∧ l = l'.
Proof.
  revert l' acc. induction l as [|a l IH]; intros [|b l'] acc Hl; cbn [any_neq length] in *; [tauto|lia|lia|].
  rewrite IH by lia. rewrite lor_zero, Z.lxor_eq_0_iff. split; [intros [[-> ->] ->]; done|]. by intros [-> [= -> ->]].
Qed.

Lemma ct_slices_eq_spec l l' : length l = length l' → ct_slices_eq l l' = Ok (bool_decide (l = l')).
Proof.
  intros Hl. unfold ct_slices_eq. rewrite Hl, Nat.eqb_refl. ostep. f_equal. apply eq_true_iff_eq.
  rewrite ct_eq_l_l_law, any_neq_zero, bool_decide_eq_true by done. tauto.
Qed.

(** Two slices of the same length split alike, and the split loses nothing. *)
Lemma limbs_spec n l l' :
  length l = length l' → Forall u8 l → Forall u8 l' →
  length (limbs n l).1 = length (limbs n l').1 ∧ length (limbs n l).2 = length (limbs n l').2 ∧
  ((limbs n l).1 = (limbs n l').1 ∧ (limbs n l).2 = (limbs n l').2 ↔ l = l').
Proof.
  revert l l'. induction n as [|n IH]; intros l l' Hl H H'; cbn [limbs]; [cbn; tauto|]. rewrite <-Hl.
  destruct (Nat.leb_spec limb_bytes (length l)); [|cbn; tauto].
  specialize (IH (drop limb_bytes l) (drop limb_bytes l')). rewrite !length_drop in IH. specialize (IH ltac:(lia) (Forall_drop _ _ _ H) (Forall_drop _ _ _ H')).
  destruct (limbs n (drop limb_bytes l)) as [ls t], (limbs n (drop limb_bytes l')) as [ls' t']. cbn in *. destruct IH as (? & ? & Heq).
  split_and!; [lia|done|]. split.
  - intros [[= E ->] ->]. apply from_le_bytes_inj in E; [|rewrite !length_take; lia|by apply Forall_take..].
    rewrite <-(take_drop limb_bytes l), <-(take_drop limb_bytes l'), E. f_equal. by apply Heq.
  - intros ->. split; [|by apply Heq]. f_equal. by apply Heq.
Qed.

Lemma ct_bytes_eq_spec l l' : length l = length l' → Forall u8 l → Forall u8 l' → ct_bytes_eq l l' = Ok (bool_decide (l = l')).
Proof.
  intros Hl H H'. unfold ct_bytes_eq. rewrite Hl at 1. rewrite Nat.eqb_refl. ostep. destruct (align_heads l l') as [h h']. unfold align_to.
  rewrite <-Hl. destruct (limbs (length l) (drop h l)) as [ls t] eqn:E. destruct (limbs (length l) (drop h' l')) as [ls' t'] eqn:E'.
  case (Nat.eqb_spec (length (take h l)) (length (take h' l'))); intros Hh; cbn [negb]; [|by apply ct_slices_eq_spec].
  assert (length (drop h l) = length (drop h' l')) as Hd by (rewrite !length_take, !length_drop in *; lia).
  destruct (limbs_spec (length l) (drop h l) (drop h' l') Hd (Forall_drop _ _ _ H) (Forall_drop _ _ _ H')) as (Hls & Ht & Heq).
  rewrite E, E' in Hls, Ht, Heq. cbn in Hls, Ht, Heq. rewrite !ct_slices_eq_spec by done. cbn [obind]. f_equal. apply eq_true_iff_eq.
  rewrite !andb_true_iff, !bool_decide_eq_true. split.
  - intros [[Hhd ?] ?]. rewrite <-(take_drop h l), <-(take_drop h' l'), Hhd. f_equal. by apply Heq.
  - intros ->. assert (take h l' = take h' l' ∧ drop h l' = drop h' l') as [? Hdrop]; [|destruct (proj2 Heq Hdrop); by repeat split].
    rewrite !length_take in Hh. destruct (Nat.le_gt_cases (length l') h), (Nat.le_gt_cases (length l') h').
    + by rewrite !take_ge, !drop_ge by lia.
    + lia.
    + lia.
    + by replace h' with h by lia.
Qed.

Lemma any_nonzero_zero l acc : any_nonzero acc l = 0 ↔ acc = 0 ∧ Forall (eq 0) l.
Proof.
  revert acc. induction l as [|b l IH]; intros acc; cbn [any_nonzero]; [by intuition|]. rewrite IH, lor_zero, Forall_cons. intuition congruence.
Qed.

Lemma from_le_bytes_zero l : Forall u8 l → from_le_bytes l = 0 ↔ Forall (eq 0) l.
Proof.
  intros H. assert (from_le_bytes (replicate (length l) 0) = 0) as Hz by (induction (length l) as [|n IH]; cbn; [done|]; rewrite IH; done).
  assert (Forall u8 (replicate (length l) 0)) by (apply Forall_replicate; done). split.
  - intros E. rewrite (from_le_bytes_inj l (replicate (length l) 0)); [by apply Forall_replicate|by rewrite length_replicate|done|done|congruence].
  - intros E. rewrite <-Hz. f_equal. symmetry. apply replicate_as_elem_of. split; [done|]. intros x Hx. rewrite Forall_forall in E. symmetry. by apply E.
Qed.

Lemma limbs_zero n l :
  Forall u8 l → Forall (eq 0) (limbs n l).1 ∧ Forall (eq 0) (limbs n l).2 ↔ Forall (eq 0) l.
Proof.
  revert l. induction n as [|n IH]; intros l Hl; cbn [limbs]; [cbn; intuition|].
  destruct (Nat.leb_spec limb_bytes (length l)); [|cbn; intuition]. specialize (IH (drop limb_bytes l) (Forall_drop _ _ _ Hl)).
  destruct (limbs n (drop limb_bytes l)) as [ls t]. cbn in *. rewrite Forall_cons. rewrite <-(take_drop limb_bytes l) at 2. rewrite Forall_app, <-IH.
  rewrite <-(from_le_bytes_zero (take limb_bytes l)) by by apply Forall_take. intuition.
Qed.

(** C10: for any alignment of the slices and any size of limbs, the comparison by limbs
    is equality, and the test for zeroes holds of zeroes only. *)
Theorem ct_compare_correct l l' :
  length l = length l' → Forall u8 l → Forall u8 l' →
  ct_bytes_eq l l' = Ok (bool_decide (l = l')) ∧ ct_bytes_all_zero l = bool_decide (Forall (eq 0) l).
Proof.
  intros Hl H H'. split; [by apply ct_bytes_eq_spec|]. unfold ct_bytes_all_zero, align_to, ct_slice_all_zero.
  destruct (align_heads l l) as [h h']. cbn [fst]. destruct (limbs (length l) (drop h l)) as [ls t] eqn:E. apply eq_true_iff_eq.
  rewrite !andb_true_iff, !ct_eq_l_l_law, !any_nonzero_zero, bool_decide_eq_true. rewrite <-(take_drop h l) at 2. rewrite Forall_app.
  rewrite <-(limbs_zero (length l) (drop h l)) by by apply Forall_drop. rewrite E. cbn. intuition.
Qed.
End CtCorrect.

(** *** Instances *)

Definition example_ct : CtBackend := {| ct_eq_l_l := Z.eqb; limb_bytes := 8; align_heads _ _ := (3%nat, 3%nat) |}.
Instance example_ct_laws : @CtLaws example_ct.
Proof. split; [exact Z.eqb_eq|cbn; lia]. Defined.

Lemma ct_compare_correct_witness :
  ct_bytes_eq (B:=debug_build) (CT:=example_ct) (replicate 13 1 ++ [2]) (replicate 14 1) = Ok false ∧
  ct_bytes_all_zero (CT:=example_ct) (replicate 13 1 ++ [2]) = false.
Proof.
  destruct (ct_compare_correct (B:=debug_build) (CL:=example_ct_laws) (replicate 13 1 ++ [2]) (replicate 14 1)) as [-> ->];
    [done|by repeat constructor..|by vm_compute].
Defined.

End CtCmp.

