(* ===== verification/AuthTreeDigests.v ===== *)
(** * Authentication through the tree (storage/src/fs/cocoonfs/auth_tree.rs)

    The configuration of a tree, the digests of its nodes and of data blocks, and
    their verification: what the root digest says about a data block.  The hash
    functions are parameters with the laws that the backends document: an instance
    is the data given to it so far, and its digest is a function of this data. *)

From S2P Require Import Prelude BitManip Errors Layout TpmInterface ImageLayout ExtentPtr PhysicalExtents LogicalExtents.
From S2P Require Import InodeExtentsList AuthTreeShape AuthTreeMap CtCmp.
Import BitManip Errors Layout ImageLayout AuthTreeShape AuthTreeMap CtCmp.
Abbreviation TpmiAlgHash := TpmInterface.TpmiAlgHash.

Module AuthTreeDigests.

(** ** Interfaces *)

(** [HashInstance] and [HmacInstance] of the cryptographic backend in use, with
    errors converted to [NvFsError].  [update] gets the slices of the iterator that
    it is called with. *)
Class HashBackend := {
  HashInstance : Type;
  hash_new : TpmiAlgHash → res HashInstance;
  hash_update : HashInstance → list (list Z) → res HashInstance;
  hash_finalize : HashInstance → res (list Z);
  HmacInstance : Type;
  hmac_new : TpmiAlgHash → list Z → res HmacInstance;
  hmac_update : HmacInstance → list (list Z) → res HmacInstance;
  hmac_finalize : HmacInstance → res (list Z);
  hmac_digest_len : HmacInstance → nat;
}.

(** [hash_alg_digest_len] (crypto/src/hash.rs). *)
Definition hash_alg_digest_len (alg : TpmiAlgHash) : Z :=
  match alg with
  | TpmInterface.Sha1 => 20 | TpmInterface.Sha256 => 32 | TpmInterface.Sha384 => 48 | TpmInterface.Sha512 => 64
  | TpmInterface.Sha3_256 => 32 | TpmInterface.Sha3_384 => 48 | TpmInterface.Sha3_512 => 64 | TpmInterface.Sm3_256 => 32
  end.

Class HashLaws `{HashBackend} := {
  hash_fn : TpmiAlgHash → list Z → list Z;
  hash_state : HashInstance → TpmiAlgHash * list Z;
  hash_new_law alg h : hash_new alg = Ok h → hash_state h = (alg, []);
  hash_update_law h bs h' : hash_update h bs = Ok h' → hash_state h' = ((hash_state h).1, (hash_state h).2 ++ mjoin bs);
  hash_finalize_law h d : hash_finalize h = Ok d → d = hash_fn (hash_state h).1 (hash_state h).2;
  hash_fn_length alg m : Z.of_nat (length (hash_fn alg m)) = hash_alg_digest_len alg;
  hash_fn_bytes alg m : Forall u8 (hash_fn alg m);
  hmac_fn : TpmiAlgHash → list Z → list Z → list Z;
  hmac_state : HmacInstance → TpmiAlgHash * list Z * list Z;
  hmac_new_law alg key h : hmac_new alg key = Ok h → hmac_state h = (alg, key, []);
  hmac_update_law h bs h' : hmac_update h bs = Ok h' → hmac_state h' = ((hmac_state h).1, (hmac_state h).2 ++ mjoin bs);
  hmac_finalize_law h d : hmac_finalize h = Ok d → d = hmac_fn (hmac_state h).1.1 (hmac_state h).1.2 (hmac_state h).2;
  hmac_digest_len_law h : Z.of_nat (hmac_digest_len h) = hash_alg_digest_len (hmac_state h).1.1;
  hmac_fn_length alg key m : Z.of_nat (length (hmac_fn alg key m)) = hash_alg_digest_len alg;
  hmac_fn_bytes alg key m : Forall u8 (hmac_fn alg key m);
}.

(** ** Configuration *)

Record AuthTreeConfig := mk_config {
  auth_tree_extents : LogicalExtents.lextents;
  auth_tree_data_allocation_blocks_map : blocks_map;
  tree_node_digests_per_node_log2 : Z;
  tree_node_digests_per_node_minus_one_inv_mod_u64 : Z;
  tree_data_digests_per_node_log2 : Z;
  auth_tree_levels : Z;
  max_covered_data_block_count : Z;
  node_hash_alg : TpmiAlgHash;
  node_digest_len : Z;
  data_hmac_hash_alg : TpmiAlgHash;
  data_hmac_key : list Z;
  data_digest_len : Z;
  root_hmac_hash_alg : TpmiAlgHash;
  root_hmac_key : list Z;
  tree_allocation_block_size_128b_log2 : Z;
  node_allocation_blocks_log2 : Z;
  tree_data_block_allocation_blocks_log2 : Z;
  image_context_digest : list Z;
}.

(** [keys::KeyPurpose] and [keys::KeyId]. *)
Inductive KeyPurpose : Set :=
| Derivation | AuthenticationRoot | AuthenticationData | PreAuthCcaProtectionAuthentication | Encryption.
Record KeyId := mk_key_id { domain : Z; subdomain : Z; purpose : KeyPurpose }.

Definition SpecialInode_AuthTree : Z := 1.

(** [AuthSubjectDataSuffix]. *)
Inductive AuthSubjectDataSuffix : Set :=
| ImageContext | AuthTreeRootNode | AuthTreeDescendantNode | AuthTreeDataBlock | EncryptionEntityChainedExtents | InodeIndexNode | JournalLogField.
Definition subject_id (s : AuthSubjectDataSuffix) : Z :=
  match s with
  | ImageContext => 1 | AuthTreeRootNode => 2 | AuthTreeDescendantNode => 3 | AuthTreeDataBlock => 4
  | EncryptionEntityChainedExtents => 5 | InodeIndexNode => 6 | JournalLogField => 7
  end.
(** The version of the format and the subject, at the end of authenticated data. *)
Definition auth_context_subject_id_suffix (s : AuthSubjectDataSuffix) : list Z := [0; subject_id s].

Definition image_magic : list Z := [0x43; 0x4f; 0x43; 0x4f; 0x4f; 0x4e; 0x46; 0x53].

Section Config.
Context {B : Build} {Alloc : Allocator} {P : Platform} {HB : HashBackend}.

(** [FixedVec::new_with_default]. *)
Definition new_digest (len : Z) : res (list Z) :=
  let! _ := try_reserve 0 (Z.to_nat len) in
  Ok (replicate (Z.to_nat len) 0).

(** [finalize_into] a slice of another length than the digest's panics. *)
Definition finalize_into (digest : res (list Z)) (dst : list Z) : res (list Z) :=
  let! d := digest in
  if (length d =? length dst)%nat then Ok d else Panic.

(** The physical extents of the tree, collected. *)
Fixpoint physical_ranges (l : list LogicalExtents.LogicalExtent) : res (list BlockRange) :=
  match l with
  | [] => Ok []
  | e :: l => let! r := LogicalExtents.physical_range e in let! rs := physical_ranges l in Ok (r :: rs)
  end.
Definition extents_of (l : LogicalExtents.lextents) : res (list LogicalExtents.LogicalExtent) :=
  let! it := LogicalExtents.iter l in LogicalExtents.collect (S (S (length l))) l it.

Definition digest_image_context_into (dst : list Z) (root_hmac_hash_alg : TpmiAlgHash) (root_hmac_key : list Z) (image_layout : ImageLayout)
    (inode_index_entry_leaf_node_block_ptr : list Z) (image_size : Z) (auth_tree_extents : LogicalExtents.lextents)
    (allocation_bitmap_extents : PhysicalExtents.extents) : res (list Z) :=
  if negb (Z.of_nat (length dst) =? hash_alg_digest_len root_hmac_hash_alg) then err_internal
  else
    let! h := hmac_new root_hmac_hash_alg root_hmac_key in
    let! items := extents_of auth_tree_extents in
    let! ranges := physical_ranges items in
    let! auth_tree_extents := InodeExtentsList.indirect_extents_list_encode ranges None in
    let! ranges := PhysicalExtents.iter allocation_bitmap_extents in
    let! allocation_bitmap_extents := InodeExtentsList.indirect_extents_list_encode ranges None in
    let! layout := encode image_layout in
    let! h := hmac_update h [image_magic; [1]; layout; inode_index_entry_leaf_node_block_ptr; to_le_bytes 8 image_size;
                             auth_tree_extents; allocation_bitmap_extents; auth_context_subject_id_suffix ImageContext] in
    finalize_into (hmac_finalize h) dst.

(** How many digests of an algorithm fit into a node, as a logarithm: digests take
    a power of two. *)
Definition digests_per_node_log2 (node_size_log2 : Z) (alg : TpmiAlgHash) : res Z :=
  let! rounded := round_up_next_pow2 32 (hash_alg_digest_len alg) in
  let! rounded := unwrap rounded in
  let! digest_len_log2 := ilog2 rounded in
  if node_size_log2 <=? digest_len_log2 then Err (from_format InvalidAuthTreeConfig)
  else usub 32 node_size_log2 digest_len_log2.

Definition check_node_size (node_size_log2 : Z) : res unit :=
  if 64 <=? node_size_log2 then Err (from_format InvalidAuthTreeConfig)
  else if usize_bits <=? node_size_log2 then Err (from_format UnsupportedAuthTreeConfig)
  else Ok tt.
Definition check_data_block_size (data_block_allocation_blocks_log2 : Z) : res unit :=
  if 32 <=? data_block_allocation_blocks_log2 then Err (from_format InvalidAuthTreeConfig)
  else
    let! blocks := ushl 32 1 data_block_allocation_blocks_log2 in
    if 64 <? blocks then Err (from_format InvalidAuthTreeConfig) else Ok tt.

Fixpoint check_extents_aligned (l : list LogicalExtents.LogicalExtent) (min_alignment io_block : Z) : res unit :=
  match l with
  | [] => Ok tt
  | extent :: l =>
      let! physical_range := LogicalExtents.physical_range extent in
      let! aligned := is_aligned_pow2_u 64 (Z.lor (rng_begin physical_range) (rng_end physical_range)) min_alignment in
      let! unaligned :=
        (if negb aligned then Ok true
         else
           let! n := block_count physical_range in
           let! aligned := is_aligned_pow2_u 64 n io_block in
           Ok (negb aligned)) in
      if unaligned : bool then Err (from_format UnalignedAuthTreeExtents) else check_extents_aligned l min_alignment io_block
  end.

(** [AuthTreeConfig::new]; [derive_key] is the method of the root key. *)
Definition config_new (derive_key : KeyId → res (list Z)) (image_layout : ImageLayout) (inode_index_entry_leaf_node_block_ptr : list Z)
    (image_size : Z) (auth_tree_extents : LogicalExtents.lextents) (allocation_bitmap_extents : PhysicalExtents.extents)
    : res AuthTreeConfig :=
  let allocation_block_size_128b_log2 := allocation_block_size_128b_log2 image_layout in
  let! node_allocation_blocks_log2 :=
    ok_or (checked_add 8 (auth_tree_node_io_blocks_log2 image_layout) (io_block_allocation_blocks_log2 image_layout))
      (from_format InvalidAuthTreeConfig) in
  let! node_size_128b_log2 := uadd 32 node_allocation_blocks_log2 allocation_block_size_128b_log2 in
  let! node_size_log2 := uadd 32 node_size_128b_log2 7 in
  let! _ := check_node_size node_size_log2 in
  let data_block_allocation_blocks_log2 := auth_tree_data_block_allocation_blocks_log2 image_layout in
  let! _ := check_data_block_size data_block_allocation_blocks_log2 in
  let node_hash_alg := auth_tree_node_hash_alg image_layout in
  let! t := digests_per_node_log2 node_size_log2 node_hash_alg in
  let node_digests_per_node_log2 := wrap 8 t in
  let data_hmac_hash_alg := auth_tree_data_hmac_hash_alg image_layout in
  let! t := digests_per_node_log2 node_size_log2 data_hmac_hash_alg in
  let data_digests_per_node_log2 := wrap 8 t in
  let! data_hmac_key := derive_key (mk_key_id SpecialInode_AuthTree 0 AuthenticationData) in
  let io_block_allocation_blocks_log2 := io_block_allocation_blocks_log2 image_layout in
  let min_alignment := Z.max io_block_allocation_blocks_log2 data_block_allocation_blocks_log2 in
  let! items := extents_of auth_tree_extents in
  let! _ := check_extents_aligned items min_alignment io_block_allocation_blocks_log2 in
  let auth_tree_nodes_allocation_block_count := LogicalExtents.allocation_block_count auth_tree_extents in
  if auth_tree_nodes_allocation_block_count =? 0 then Err (from_format InvalidAuthTreeDimensions)
  else if image_size <? auth_tree_nodes_allocation_block_count then Err (from_format InvalidAuthTreeDimensions)
  else
    let! map := map_new auth_tree_extents in
    let! auth_tree_node_count := ushr 64 auth_tree_nodes_allocation_block_count node_allocation_blocks_log2 in
    let! auth_tree_levels :=
      auth_tree_node_count_to_auth_tree_levels auth_tree_node_count node_digests_per_node_log2 data_digests_per_node_log2
        data_block_allocation_blocks_log2 in
    let! inv := digests_per_node_minus_one_inv_mod_u64 node_digests_per_node_log2 in
    let! max_covered_data_block_count :=
      auth_tree_node_count_to_max_covered_data_block_count auth_tree_node_count auth_tree_levels node_digests_per_node_log2 inv
        data_digests_per_node_log2 data_block_allocation_blocks_log2 in
    let! limit := ushr 64 (2 ^ 64 - 1) data_block_allocation_blocks_log2 in
    let max_covered_data_block_count := Z.min max_covered_data_block_count limit in
    let! image_data_allocation_blocks := count_sub image_size auth_tree_nodes_allocation_block_count in
    let! image_data_blocks := ushr 64 image_data_allocation_blocks data_block_allocation_blocks_log2 in
    let! whole := ushl 64 image_data_blocks data_block_allocation_blocks_log2 in
    let! image_data_blocks :=
      (if negb (whole =? image_data_allocation_blocks) then uadd 64 image_data_blocks 1 else Ok image_data_blocks) in
    if max_covered_data_block_count <? image_data_blocks then Err (from_format InvalidAuthTreeDimensions)
    else
      let root_hmac_hash_alg := auth_tree_root_hmac_hash_alg image_layout in
      let! root_hmac_key := derive_key (mk_key_id SpecialInode_AuthTree 0 AuthenticationRoot) in
      let! dst := new_digest (hash_alg_digest_len root_hmac_hash_alg) in
      let! image_context_digest :=
        digest_image_context_into dst root_hmac_hash_alg root_hmac_key image_layout inode_index_entry_leaf_node_block_ptr image_size
          auth_tree_extents allocation_bitmap_extents in
      Ok (mk_config auth_tree_extents map node_digests_per_node_log2 inv data_digests_per_node_log2 auth_tree_levels
            max_covered_data_block_count node_hash_alg (hash_alg_digest_len node_hash_alg) data_hmac_hash_alg data_hmac_key
            (hash_alg_digest_len data_hmac_hash_alg) root_hmac_hash_alg root_hmac_key allocation_block_size_128b_log2
            node_allocation_blocks_log2 data_block_allocation_blocks_log2 image_context_digest).

(** [AuthTreeConfig::image_allocation_blocks_to_auth_tree_node_count]. *)
Definition config_image_allocation_blocks_to_auth_tree_node_count (image_layout : ImageLayout) (image_allocation_blocks : Z)
    : res (Z * Z) :=
  let! node_allocation_blocks_log2 := uadd 32 (auth_tree_node_io_blocks_log2 image_layout) (io_block_allocation_blocks_log2 image_layout) in
  let! node_size_128b_log2 := uadd 32 node_allocation_blocks_log2 (allocation_block_size_128b_log2 image_layout) in
  let! node_size_log2 := uadd 32 node_size_128b_log2 7 in
  let! _ := check_node_size node_size_log2 in
  let data_block_allocation_blocks_log2 := auth_tree_data_block_allocation_blocks_log2 image_layout in
  let! _ := check_data_block_size data_block_allocation_blocks_log2 in
  let! c := digests_per_node_log2 node_size_log2 (auth_tree_node_hash_alg image_layout) in
  let! inv := digests_per_node_minus_one_inv_mod_u64 c in
  let! d := digests_per_node_log2 node_size_log2 (auth_tree_data_hmac_hash_alg image_layout) in
  let! auth_tree_levels :=
    image_allocation_blocks_to_auth_tree_levels image_allocation_blocks c inv d node_allocation_blocks_log2 data_block_allocation_blocks_log2 in
  image_allocation_blocks_to_auth_tree_node_count image_allocation_blocks auth_tree_levels c inv d node_allocation_blocks_log2
    data_block_allocation_blocks_log2.
End Config.

(** ** Addresses *)

Section Addresses.
Context {B : Build} {Alloc : Allocator} {P : Platform}.
Implicit Types self : AuthTreeConfig.

(** [AuthTreeDataAllocBlockIndex::new_from_data_block_index] and
    [AuthTreeDataBlockIndex::new_from_data_allocation_block_index]. *)
Definition new_from_data_block_index (data_block_index data_block_allocation_blocks_log2 : Z) : res Z :=
  ushl 64 data_block_index data_block_allocation_blocks_log2.
Definition new_from_data_allocation_block_index (data_allocation_block_index data_block_allocation_blocks_log2 : Z) : res Z :=
  ushr 64 data_allocation_block_index data_block_allocation_blocks_log2.

Definition translate_physical_to_data_block_index self (physical_allocation_block_index : Z) : res Z :=
  let! begin := round_down_pow2 64 physical_allocation_block_index (tree_data_block_allocation_blocks_log2 self) in
  let! n := ushl 64 1 (tree_data_block_allocation_blocks_log2 self) in
  let! range := range_from begin n in
  let! data := map_physical_to_data_allocation_blocks (auth_tree_data_allocation_blocks_map self) range in
  new_from_data_allocation_block_index (rng_begin data) (tree_data_block_allocation_blocks_log2 self).

Definition translate_data_block_index_to_physical self (data_block_index : Z) : res Z :=
  let! index := new_from_data_block_index data_block_index (tree_data_block_allocation_blocks_log2 self) in
  map_data_to_physical_allocation_block (auth_tree_data_allocation_blocks_map self) index.

Definition translate_data_block_range_to_physical self (data_range : BlockRange) : res MapIterator :=
  let! begin := new_from_data_block_index (rng_begin data_range) (tree_data_block_allocation_blocks_log2 self) in
  let! end_ := new_from_data_block_index (rng_end data_range) (tree_data_block_allocation_blocks_log2 self) in
  let! range := range_new begin end_ in
  iter_data_range_mapping (auth_tree_data_allocation_blocks_map self) range.

Definition covering_leaf_node_id self (data_block_index : Z) : res AuthTreeNodeId :=
  node_id_new data_block_index 0 (tree_node_digests_per_node_log2 self) (tree_data_digests_per_node_log2 self).

Definition node_physical_location self (node_id : AuthTreeNodeId) : res BlockRange :=
  let! _ := debug_assert (level node_id <? auth_tree_levels self) in
  if max_covered_data_block_count self <=? covered_data_blocks_begin node_id then Err (from_format BlockOutOfRange)
  else
    let! '(dfs_pre_node_index, _) :=
      auth_tree_node_dfs_pre_index (covered_data_blocks_begin node_id) (level node_id) (auth_tree_levels self)
        (tree_node_digests_per_node_log2 self) (tree_node_digests_per_node_minus_one_inv_mod_u64 self)
        (tree_data_digests_per_node_log2 self) in
    let! logical_begin := ushl 64 dfs_pre_node_index (node_allocation_blocks_log2 self) in
    let! n := ushl 64 1 (node_allocation_blocks_log2 self) in
    let! logical_end := logical_add logical_begin n in
    let! logical_range := range_new logical_begin logical_end in
    let! it := LogicalExtents.iter_range (auth_tree_extents self) logical_range in
    match it with
    | None => err_internal
    | Some it =>
        let! '(extent, it) := LogicalExtents.next (auth_tree_extents self) it in
        match extent with
        | None => err_internal
        | Some extent =>
            let! '(more, _) := LogicalExtents.next (auth_tree_extents self) it in
            match more with Some _ => err_internal | None => LogicalExtents.physical_range extent end
        end
    end.

(** The exponent is a sum of [u8] values. *)
Definition node_size self : res Z :=
  let! t := uadd 8 (node_allocation_blocks_log2 self) (tree_allocation_block_size_128b_log2 self) in
  let! t := uadd 8 t 7 in
  ushl usize_bits 1 t.
End Addresses.

(** ** Digests of nodes *)

Section Digests.
Context {B : Build} {Alloc : Allocator} {P : Platform} {HB : HashBackend} {CT : CtBackend}.
Implicit Types self : AuthTreeConfig.

(** [AuthTreeNode::get_digest]. *)
Definition get_digest (data : list Z) (index digest_len : Z) : res (list Z) :=
  let! digest_begin := umul usize_bits index digest_len in
  let! digest_end := uadd usize_bits digest_begin digest_len in
  if (digest_begin <=? digest_end) && (digest_end <=? Z.of_nat (length data)) then
    Ok (take (Z.to_nat (digest_end - digest_begin)) (drop (Z.to_nat digest_begin) data))
  else Panic.

(** [data.chunks_exact(len).take(n)]. *)
Fixpoint chunks_exact_take (n : nat) (len : nat) (data : list Z) : list (list Z) :=
  match n with
  | O => []
  | S n => if (len <=? length data)%nat then take len data :: chunks_exact_take n len (drop len data) else []
  end.

Fixpoint hmac_update_each (h : HmacInstance) (entries : list (list Z)) : res HmacInstance :=
  match entries with
  | [] => Ok h
  | digest_entry :: entries => let! h := hmac_update h [digest_entry] in hmac_update_each h entries
  end.
Fixpoint hash_update_each (h : HashInstance) (entries : list (list Z)) : res HashInstance :=
  match entries with
  | [] => Ok h
  | digest_entry :: entries => let! h := hash_update h [digest_entry] in hash_update_each h entries
  end.

Definition hmac_root_node_into self (root_hmac_digest_dst encrypted_filesystem_update_counter : list Z) (root_node_id : AuthTreeNodeId)
    (digest_entries : list (list Z)) : res (list Z) :=
  let! _ := debug_assert (Z.of_nat (length root_hmac_digest_dst) =? hash_alg_digest_len (root_hmac_hash_alg self)) in
  let! h := hmac_new (root_hmac_hash_alg self) (root_hmac_key self) in
  let! h := hmac_update_each h digest_entries in
  let! last := last_entry_covered_data_blocks_begin root_node_id in
  let node_id := to_le_bytes 8 last in
  let! h := hmac_update h [node_id; encrypted_filesystem_update_counter; image_context_digest self;
                           auth_context_subject_id_suffix AuthTreeRootNode] in
  finalize_into (hmac_finalize h) root_hmac_digest_dst.

Definition hmac_root_node self (encrypted_filesystem_update_counter : list Z) (root_node_id : AuthTreeNodeId)
    (digest_entries : list (list Z)) : res (list Z) :=
  let! root_hmac_digest := new_digest (hash_alg_digest_len (root_hmac_hash_alg self)) in
  hmac_root_node_into self root_hmac_digest encrypted_filesystem_update_counter root_node_id digest_entries.

(** [if ct_bytes_eq(digest, expected).unwrap() != 0 { Ok(()) } else { Err(..) }]. *)
Definition verify (digest expected : list Z) : res unit :=
  let! eq := ct_bytes_eq digest expected in
  if eq : bool then Ok tt else Err AuthenticationFailure.

Definition authenticate_root_node self (expected_root_hmac_digest encrypted_filesystem_update_counter : list Z)
    (root_node_id : AuthTreeNodeId) (node_data : list Z) : res unit :=
  let! _ := debug_assert (Z.of_nat (length expected_root_hmac_digest) =? hash_alg_digest_len (root_hmac_hash_alg self)) in
  let '(digest_entry_len, digest_entries_in_node_log2) :=
    if 0 <? level root_node_id then (node_digest_len self, tree_node_digests_per_node_log2 self)
    else (data_digest_len self, tree_data_digests_per_node_log2 self) in
  let! _ := debug_check (let! n := ushl usize_bits digest_entry_len digest_entries_in_node_log2 in Ok (n <=? Z.of_nat (length node_data))) in
  let! n := ushl usize_bits 1 digest_entries_in_node_log2 in
  let! root_hmac_digest :=
    hmac_root_node self encrypted_filesystem_update_counter root_node_id
      (chunks_exact_take (Z.to_nat n) (Z.to_nat digest_entry_len) node_data) in
  verify root_hmac_digest expected_root_hmac_digest.

Definition digest_descendant_node_into self (node_digest_dst : list Z) (node_id : AuthTreeNodeId) (digest_entries : list (list Z))
    : res (list Z) :=
  let! _ := debug_assert (Z.of_nat (length node_digest_dst) =? node_digest_len self) in
  let! h := hash_new (node_hash_alg self) in
  let! h := hash_update_each h digest_entries in
  let! last := last_entry_covered_data_blocks_begin node_id in
  let node_id := to_le_bytes 8 last in
  let! h := hash_update h [node_id; auth_context_subject_id_suffix AuthTreeDescendantNode] in
  finalize_into (hash_finalize h) node_digest_dst.

Definition digest_descendant_node self (node_id : AuthTreeNodeId) (digest_entries : list (list Z)) : res (list Z) :=
  let! node_digest := new_digest (node_digest_len self) in
  digest_descendant_node_into self node_digest node_id digest_entries.

(** The assertion compares with the number of digests in an inner node at every
    level. *)
Definition authenticate_descendant_node self (expected_node_digest : list Z) (node_id : AuthTreeNodeId) (node_data : list Z) : res unit :=
  let! _ := debug_assert (Z.of_nat (length expected_node_digest) =? node_digest_len self) in
  let '(digest_entry_len, digest_entries_in_node_log2) :=
    if negb (level node_id =? 0) then (node_digest_len self, tree_node_digests_per_node_log2 self)
    else (data_digest_len self, tree_data_digests_per_node_log2 self) in
  let! _ := debug_check (let! n := ushl usize_bits digest_entry_len (tree_node_digests_per_node_log2 self) in
                         Ok (n <=? Z.of_nat (length node_data))) in
  let! n := ushl usize_bits 1 digest_entries_in_node_log2 in
  let! node_digest := digest_descendant_node self node_id (chunks_exact_take (Z.to_nat n) (Z.to_nat digest_entry_len) node_data) in
  verify node_digest expected_node_digest.

(** ** Digests of data blocks *)

Record AuthTreeDigestDataBlockContext := mk_digest_context {
  data_block_hmac_instance : HmacInstance;
  data_block_alloc_bitmap : Z;
  allocation_block_in_data_block_index : Z;
  context_data_block_allocation_blocks_log2 : Z;
  context_allocation_block_size_128b_log2 : Z;
}.

Definition context_new (data_block_hmac_instance : HmacInstance) (data_block_allocation_blocks_log2 allocation_block_size_128b_log2 : Z)
    : AuthTreeDigestDataBlockContext :=
  mk_digest_context data_block_hmac_instance 0 0 data_block_allocation_blocks_log2 allocation_block_size_128b_log2.

Definition context_update (self : AuthTreeDigestDataBlockContext) (allocation_block_data : option (list Z))
    : res AuthTreeDigestDataBlockContext :=
  let! t := ushr 32 (allocation_block_in_data_block_index self) (context_data_block_allocation_blocks_log2 self) in
  if negb (t =? 0) then err_internal
  else
    let! '(h, bitmap) :=
      match allocation_block_data with
      | Some data =>
          let! t := uadd 8 (context_allocation_block_size_128b_log2 self) 7 in
          let! size := ushl usize_bits 1 t in
          if negb (Z.of_nat (length data) =? size) then err_internal
          else
            let! h := hmac_update (data_block_hmac_instance self) [data] in
            let! bit := ushl 64 1 (allocation_block_in_data_block_index self) in
            Ok (h, Z.lor (data_block_alloc_bitmap self) bit)
      | None => Ok (data_block_hmac_instance self, data_block_alloc_bitmap self)
      end in
    let! index := uadd 32 (allocation_block_in_data_block_index self) 1 in
    Ok (mk_digest_context h bitmap index (context_data_block_allocation_blocks_log2 self) (context_allocation_block_size_128b_log2 self)).

Definition context_finalize_into (self : AuthTreeDigestDataBlockContext) (data_block_digest : list Z) (data_block_index : Z) : res (list Z) :=
  let! _ := debug_assert (length data_block_digest =? hmac_digest_len (data_block_hmac_instance self))%nat in
  let! n := ushl 32 1 (context_data_block_allocation_blocks_log2 self) in
  if negb (allocation_block_in_data_block_index self =? n) then err_internal
  else
    let! h := hmac_update (data_block_hmac_instance self)
                [to_le_bytes 8 (data_block_alloc_bitmap self); to_le_bytes 8 data_block_index;
                 auth_context_subject_id_suffix AuthTreeDataBlock] in
    finalize_into (hmac_finalize h) data_block_digest.

(** The items of an iterator over the allocation blocks. *)
Abbreviation blocks_iter := (list (res (option (list Z)))).

(** The blocks of the image header are consumed and not authenticated. *)
Fixpoint skip_header (n : nat) (context : AuthTreeDigestDataBlockContext) (iter : blocks_iter) : res (AuthTreeDigestDataBlockContext * blocks_iter) :=
  match n with
  | O => Ok (context, iter)
  | S n =>
      match iter with
      | [] => err_internal
      | item :: iter =>
          let! _ := item in
          let! context := context_update context None in
          skip_header n context iter
      end
  end.
Fixpoint update_blocks (context : AuthTreeDigestDataBlockContext) (iter : blocks_iter) : res AuthTreeDigestDataBlockContext :=
  match iter with
  | [] => Ok context
  | item :: iter =>
      let! allocation_block := item in
      let! context := context_update context allocation_block in
      update_blocks context iter
  end.

Definition digest_data_block self (data_block_index : Z) (data_block_allocation_blocks_iter : blocks_iter) (image_header_end : Z) : res (list Z) :=
  let! data_block_digest := new_digest (data_digest_len self) in
  let! h := hmac_new (data_hmac_hash_alg self) (data_hmac_key self) in
  let context := context_new h (tree_data_block_allocation_blocks_log2 self) (tree_allocation_block_size_128b_log2 self) in
  let! begin := ushl 64 data_block_index (tree_data_block_allocation_blocks_log2 self) in
  let! '(context, iter) :=
    (if begin <? image_header_end then
       let! t := usub 64 image_header_end begin in
       let! n := ushl 64 1 (tree_data_block_allocation_blocks_log2 self) in
       skip_header (Z.to_nat (Z.min t n)) context data_block_allocation_blocks_iter
     else Ok (context, data_block_allocation_blocks_iter)) in
  let! context := update_blocks context iter in
  context_finalize_into context data_block_digest data_block_index.

Definition authenticate_data_block self (expected_data_block_digest : list Z) (data_block_index : Z) (iter : blocks_iter) (image_header_end : Z)
    : res unit :=
  let! _ := debug_assert (Z.of_nat (length expected_data_block_digest) =? data_digest_len self) in
  let! data_block_digest := digest_data_block self data_block_index iter image_header_end in
  verify data_block_digest expected_data_block_digest.

#[export] Instance AuthTreeNodeId_eq_dec : EqDecision AuthTreeNodeId.
Proof. solve_decision. Defined.

(** A leaf in the cache: its identifier and its data. *)
Definition get_data_block_digest_entry_from_tree self (leaf_node : AuthTreeNodeId * list Z) (data_block_index : Z) : res (list Z) :=
  let! id := covering_leaf_node_id self data_block_index in
  if bool_decide (leaf_node.1 ≠ id) then err_internal
  else
    let! mask := trailing_bits_mask_u 64 (tree_data_digests_per_node_log2 self) in
    get_digest leaf_node.2 (wrap usize_bits (Z.land data_block_index mask)) (data_digest_len self).

Definition authenticate_data_block_from_tree self (leaf_node : AuthTreeNodeId * list Z) (data_block_index : Z) (iter : blocks_iter)
    (image_header_end : Z) : res unit :=
  let! id := covering_leaf_node_id self data_block_index in
  if bool_decide (leaf_node.1 ≠ id) then err_internal
  else
    let! expected_data_block_digest := get_data_block_digest_entry_from_tree self leaf_node data_block_index in
    authenticate_data_block self expected_data_block_digest data_block_index iter image_header_end.
End Digests.

(** ** What is hashed *)

(** The data that the node hash, the HMAC of the root and the HMAC of data blocks
    are computed of. *)
Inductive hashed : Set := HashedNode (m : list Z) | HashedRoot (m : list Z) | HashedData (m : list Z).

Definition node_size_log2 (cfg : AuthTreeConfig) : Z := node_allocation_blocks_log2 cfg + tree_allocation_block_size_128b_log2 cfg + 7.

Record config_wf `{Platform} (cfg : AuthTreeConfig) : Prop := {
  wf_node_log2 : 1 ≤ tree_node_digests_per_node_log2 cfg ≤ 63;
  wf_data_log2 : 1 ≤ tree_data_digests_per_node_log2 cfg ≤ 63;
  wf_node_blocks : 0 ≤ node_allocation_blocks_log2 cfg;
  wf_block_size : 0 ≤ tree_allocation_block_size_128b_log2 cfg;
  wf_node_size : node_size_log2 cfg < Z.min 64 usize_bits;
  wf_node_len : node_digest_len cfg = hash_alg_digest_len (node_hash_alg cfg);
  wf_data_len : data_digest_len cfg = hash_alg_digest_len (data_hmac_hash_alg cfg);
  wf_node_fits : node_digest_len cfg * 2 ^ tree_node_digests_per_node_log2 cfg ≤ 2 ^ node_size_log2 cfg;
  wf_data_fits : data_digest_len cfg * 2 ^ tree_data_digests_per_node_log2 cfg ≤ 2 ^ node_size_log2 cfg;
  wf_levels : 1 ≤ auth_tree_levels cfg ≤ 64;
  wf_data_blocks : 0 ≤ tree_data_block_allocation_blocks_log2 cfg ≤ 6;
}.

(** The digests of a node at a level: their length, their number, their bytes. *)
Definition entry_len (cfg : AuthTreeConfig) (l : Z) : Z := if 0 <? l then node_digest_len cfg else data_digest_len cfg.
Definition entries_log2 (cfg : AuthTreeConfig) (l : Z) : Z :=
  if 0 <? l then tree_node_digests_per_node_log2 cfg else tree_data_digests_per_node_log2 cfg.
Definition entries (cfg : AuthTreeConfig) (l : Z) (data : list Z) : list Z :=
  take (Z.to_nat (entry_len cfg l * 2 ^ entries_log2 cfg l)) data.

(** What a read of a node gives. *)
Definition node_data_ok (cfg : AuthTreeConfig) (data : list Z) : Prop :=
  Forall u8 data ∧ Z.of_nat (length data) = 2 ^ node_size_log2 cfg.

Lemma wrap_le w x : 0 ≤ w → 0 ≤ x → 0 ≤ wrap w x ≤ x.
Proof. intros Hw Hx. unfold wrap. pose proof (pow2_pos w Hw). split; [apply Z.mod_pos_bound; lia|apply Z.mod_le; lia]. Qed.

Section Messages.
Context {B : Build} {Alloc : Allocator} {P : Platform} {HB : HashBackend} {HL : HashLaws} {CT : CtBackend} {CL : CtLaws}.
Implicit Types cfg : AuthTreeConfig.

Definition id_bytes (id : AuthTreeNodeId) : list Z :=
  match last_entry_covered_data_blocks_begin id with Ok last => to_le_bytes 8 last | _ => [] end.
Definition root_message cfg (counter : list Z) (id : AuthTreeNodeId) (es : list Z) : list Z :=
  es ++ id_bytes id ++ counter ++ image_context_digest cfg ++ auth_context_subject_id_suffix AuthTreeRootNode.
Definition node_message (id : AuthTreeNodeId) (es : list Z) : list Z :=
  es ++ id_bytes id ++ auth_context_subject_id_suffix AuthTreeDescendantNode.

Definition digest_of cfg (h : hashed) : list Z :=
  match h with
  | HashedNode m => hash_fn (node_hash_alg cfg) m
  | HashedRoot m => hmac_fn (root_hmac_hash_alg cfg) (root_hmac_key cfg) m
  | HashedData m => hmac_fn (data_hmac_hash_alg cfg) (data_hmac_key cfg) m
  end.
Definition same_function (h h' : hashed) : Prop :=
  match h, h' with HashedNode _, HashedNode _ | HashedRoot _, HashedRoot _ | HashedData _, HashedData _ => True | _, _ => False end.
Definition collision_free cfg (hs : list hashed) : Prop :=
  ∀ h h', h ∈ hs → h' ∈ hs → same_function h h' → digest_of cfg h = digest_of cfg h' → h = h'.

Lemma digest_len_pos alg : 0 < hash_alg_digest_len alg.
Proof. by destruct alg. Qed.

Lemma chunks_join n len data : (n * len ≤ length data)%nat → mjoin (chunks_exact_take n len data) = take (n * len) data.
Proof.
  revert data. induction n as [|n IH]; intros data Hn; cbn [chunks_exact_take]; [done|].
  rewrite (proj2 (Nat.leb_le len (length data))) by lia. rewrite LogicalExtents.mjoin_cons, IH by (rewrite length_drop; lia).
  cbn [Nat.mul]. by rewrite take_take_drop.
Qed.

Lemma entries_chunks cfg l data :
  config_wf cfg → node_data_ok cfg data →
  mjoin (chunks_exact_take (Z.to_nat (2 ^ entries_log2 cfg l)) (Z.to_nat (entry_len cfg l)) data) = entries cfg l data.
Proof.
  intros Hwf [_ Hlen]. pose proof (digest_len_pos (node_hash_alg cfg)). pose proof (digest_len_pos (data_hmac_hash_alg cfg)).
  destruct Hwf as [Hc Hd _ _ _ Hnl Hdl Hnf Hdf _ _]. rewrite Hnl, Hdl in *.
  assert (0 ≤ entry_len cfg l ∧ 0 ≤ 2 ^ entries_log2 cfg l ∧ entry_len cfg l * 2 ^ entries_log2 cfg l ≤ 2 ^ node_size_log2 cfg) as (? & ? & ?).
  { unfold entry_len, entries_log2. destruct (0 <? l); lia. }
  unfold entries. rewrite chunks_join by nia. f_equal. nia.
Qed.

Lemma hmac_update_each_state es h h' :
  hmac_update_each h es = Ok h' → hmac_state h' = ((hmac_state h).1, (hmac_state h).2 ++ mjoin es).
Proof.
  revert h. induction es as [|e es IH]; intros h; cbn [hmac_update_each].
  - intros [= <-]. cbn. rewrite app_nil_r. by destruct (hmac_state h).
  - intros (h1 & H1%hmac_update_law & Hes%IH)%obind_Ok_inv. rewrite Hes, H1. cbn. by rewrite app_nil_r, <-app_assoc.
Qed.

Lemma hash_update_each_state es h h' :
  hash_update_each h es = Ok h' → hash_state h' = ((hash_state h).1, (hash_state h).2 ++ mjoin es).
Proof.
  revert h. induction es as [|e es IH]; intros h; cbn [hash_update_each].
  - intros [= <-]. cbn. rewrite app_nil_r. by destruct (hash_state h).
  - intros (h1 & H1%hash_update_law & Hes%IH)%obind_Ok_inv. rewrite Hes, H1. cbn. by rewrite app_nil_r, <-app_assoc.
Qed.

Lemma hmac_root_node_digest cfg counter id es d :
  hmac_root_node cfg counter id es = Ok d → d = digest_of cfg (HashedRoot (root_message cfg counter id (mjoin es))).
Proof.
  unfold hmac_root_node, hmac_root_node_into, finalize_into.
  intros (dst & _ & (_ & _ & (h & H1%hmac_new_law & (h2 & H2%hmac_update_each_state & (last & Hl & (h3 & H3%hmac_update_law
    & (d' & H4%hmac_finalize_law & Hd)%obind_Ok_inv)%obind_Ok_inv)%obind_Ok_inv)%obind_Ok_inv)%obind_Ok_inv)%obind_Ok_inv)%obind_Ok_inv.
  rinv. rewrite H3, H2, H1. cbn. unfold root_message, id_bytes. by rewrite Hl.
Qed.

Lemma digest_descendant_node_digest cfg id es d :
  digest_descendant_node cfg id es = Ok d → d = digest_of cfg (HashedNode (node_message id (mjoin es))).
Proof.
  unfold digest_descendant_node, digest_descendant_node_into, finalize_into.
  intros (dst & _ & (_ & _ & (h & H1%hash_new_law & (h2 & H2%hash_update_each_state & (last & Hl & (h3 & H3%hash_update_law
    & (d' & H4%hash_finalize_law & Hd)%obind_Ok_inv)%obind_Ok_inv)%obind_Ok_inv)%obind_Ok_inv)%obind_Ok_inv)%obind_Ok_inv)%obind_Ok_inv.
  rinv. rewrite H3, H2, H1. cbn. unfold node_message, id_bytes. rewrite Hl. done.
Qed.

Lemma digest_of_bytes cfg h : Forall u8 (digest_of cfg h).
Proof. destruct h; [apply hash_fn_bytes|apply hmac_fn_bytes..]. Qed.

Lemma verify_Ok cfg h expected :
  length (digest_of cfg h) = length expected → Forall u8 expected → verify (digest_of cfg h) expected = Ok tt → digest_of cfg h = expected.
Proof.
  intros Hl He. unfold verify. rewrite ct_bytes_eq_spec by (done || apply digest_of_bytes). cbn [obind].
  case_bool_decide; done.
Qed.
Lemma get_digest_Ok data i len g :
  0 ≤ i → 0 ≤ len → (i + 1) * len < 2 ^ usize_bits → get_digest data i len = Ok g →
  g = take (Z.to_nat len) (drop (Z.to_nat (i * len)) data) ∧ (i + 1) * len ≤ Z.of_nat (length data).
Proof.
  intros Hi Hlen Hb. unfold get_digest. rewrite umul_Ok by nia. cbn [obind]. rewrite uadd_Ok by nia. cbn [obind].
  intros H. destruct (_ && _) eqn:E; [|done]. injection H as <-. apply andb_true_iff in E as [_ E%Z.leb_le].
  split; [|nia]. f_equal. lia.
Qed.

(** Equal digests give equal entries. *)
Lemma messages_entries id (es es' t t' : list Z) : t = t' → es ++ id_bytes id ++ t = es' ++ id_bytes id ++ t' → es = es'.
Proof. intros ->. by intros ?%app_inv_tail. Qed.

End Messages.

(** ** Authentic nodes *)

Section Authentic.
Context {B : Build} {Alloc : Allocator} {P : Platform} {HB : HashBackend} {HL : HashLaws} {CT : CtBackend} {CL : CtLaws}.
Variable cfg : AuthTreeConfig.
Variables root_digest counter : list Z.
Let c := tree_node_digests_per_node_log2 cfg.
Let d := tree_data_digests_per_node_log2 cfg.

(** Data that has been verified on the path from the root: with the root digest, or
    with the digest in a verified parent; and what was hashed on the way. *)
Inductive authentic : AuthTreeNodeId → list Z → list hashed → Prop :=
| authentic_root x id data :
    node_id_new x (auth_tree_levels cfg - 1) c d = Ok id → node_data_ok cfg data →
    authenticate_root_node cfg root_digest counter id data = Ok tt →
    authentic id data [HashedRoot (root_message cfg counter id (entries cfg (level id) data))]
| authentic_child x l parent id parent_data data index digest hs :
    authentic parent parent_data hs → 0 ≤ x < 2 ^ 64 → 0 ≤ l → node_id_new x (l + 1) c d = Ok parent → node_id_new x l c d = Ok id →
    index_in_parent id = Ok index → get_digest parent_data index (node_digest_len cfg) = Ok digest →
    node_data_ok cfg data → authenticate_descendant_node cfg digest id data = Ok tt →
    authentic id data (HashedNode (node_message id (entries cfg (level id) data)) :: hs).

Hypothesis Hwf : config_wf cfg.

Lemma node_id_new_level x l id : node_id_new x l c d = Ok id → level id = l.
Proof. unfold node_id_new. intros. by rinv. Qed.

(** The parent on a path is that of the node and not of the path. *)
Lemma parent_unique x y l id :
  0 ≤ x < 2 ^ 64 → 0 ≤ y < 2 ^ 64 → 0 ≤ l ≤ 64 → node_id_new x l c d = Ok id → node_id_new y l c d = Ok id →
  node_id_new x (l + 1) c d = node_id_new y (l + 1) c d.
Proof.
  intros Hx Hy Hl. destruct Hwf as [Hc Hd _ _ _ _ _ _ _ _ _]. fold c in Hc. fold d in Hd. intros E E'.
  destruct (Z.le_gt_cases (c * (l + 1) + d) 63).
  - rewrite !node_id_new_spec in * by nia. rewrite <-E in E'. injection E' as E'. do 2 f_equal.
    replace (c * (l + 1) + d) with ((c * l + d) + c) by lia. rewrite Z.pow_add_r by nia.
    pose proof (pow2_pos (c * l + d) ltac:(nia)). pose proof (pow2_pos c ltac:(lia)).
    rewrite <-!Z.div_div by lia. f_equal. f_equal. nia.
  - unfold node_id_new. rewrite !level_bits_Ok by nia. cbn [obind]. by zdec.
Qed.

Lemma digest_length alg (g : list Z) : Z.of_nat (length g) = hash_alg_digest_len alg → ∀ h, 
  (∃ m, h = HashedNode m ∧ alg = node_hash_alg cfg) ∨ (∃ m, h = HashedRoot m ∧ alg = root_hmac_hash_alg cfg) ∨ (∃ m, h = HashedData m ∧ alg = data_hmac_hash_alg cfg) →
  length (digest_of cfg h) = length g.
Proof.
  intros Hg h [(m & -> & ->)|[(m & -> & ->)|(m & -> & ->)]]; cbn [digest_of]; apply Nat2Z.inj; rewrite Hg; [apply hash_fn_length|apply hmac_fn_length..].
Qed.

Hypothesis Hroot : Z.of_nat (length root_digest) = hash_alg_digest_len (root_hmac_hash_alg cfg).
Hypothesis Hroot_bytes : Forall u8 root_digest.

Lemma ushl_entries l : ushl (E:=NvFsError) usize_bits 1 (entries_log2 cfg l) = Ok (2 ^ entries_log2 cfg l).
Proof.
  pose proof (digest_len_pos (node_hash_alg cfg)). pose proof (digest_len_pos (data_hmac_hash_alg cfg)).
  destruct Hwf as [Hc Hd ? ? Hs Hnl Hdl Hnf Hdf _ _]. rewrite Hnl, Hdl in *.
  assert (1 ≤ entries_log2 cfg l ∧ 2 ^ entries_log2 cfg l ≤ 2 ^ node_size_log2 cfg) as [? Hle].
  { unfold entries_log2. pose proof (pow2_pos (tree_node_digests_per_node_log2 cfg) ltac:(lia)).
    pose proof (pow2_pos (tree_data_digests_per_node_log2 cfg) ltac:(lia)). destruct (0 <? l); nia. }
  apply Z.pow_le_mono_r_iff in Hle; [|lia|unfold node_size_log2; lia]. rewrite ushl_Ok by lia. f_equal.
  rewrite Z.shiftl_1_l. apply wrap_small. split; [lia|]. apply Z.pow_lt_mono_r; lia.
Qed.

Lemma root_verified id data :
  node_data_ok cfg data → authenticate_root_node cfg root_digest counter id data = Ok tt →
  digest_of cfg (HashedRoot (root_message cfg counter id (entries cfg (level id) data))) = root_digest.
Proof.
  intros Hdata. unfold authenticate_root_node. intros (_ & _ & H)%obind_Ok_inv.
  replace (if 0 <? level id then _ else _) with (entry_len cfg (level id), entries_log2 cfg (level id)) in H
    by (unfold entry_len, entries_log2; by destruct (0 <? level id)).
  cbn beta iota in H. apply obind_Ok_inv in H as (_ & _ & H). rewrite ushl_entries in H. cbn [obind] in H.
  apply obind_Ok_inv in H as (g & Hg%hmac_root_node_digest & Hv). rewrite entries_chunks in Hg by done. rewrite Hg in Hv.
  apply verify_Ok in Hv; [done| |done]. eapply digest_length; [done|eauto].
Qed.

Lemma node_verified id data digest :
  node_data_ok cfg data → 0 ≤ level id → Z.of_nat (length digest) = node_digest_len cfg → Forall u8 digest →
  authenticate_descendant_node cfg digest id data = Ok tt →
  digest_of cfg (HashedNode (node_message id (entries cfg (level id) data))) = digest.
Proof.
  intros Hdata Hl Hlen Hb. unfold authenticate_descendant_node. intros (_ & _ & H)%obind_Ok_inv.
  replace (if negb (level id =? 0) then _ else _) with (entry_len cfg (level id), entries_log2 cfg (level id)) in H.
  2: { unfold entry_len, entries_log2. destruct (Z.eqb_spec (level id) 0) as [->|]; [done|]. by zdec. }
  cbn beta iota in H. apply obind_Ok_inv in H as (_ & _ & H). rewrite ushl_entries in H. cbn [obind] in H.
  apply obind_Ok_inv in H as (g & Hg%digest_descendant_node_digest & Hv). rewrite entries_chunks in Hg by done. rewrite Hg in Hv.
  apply verify_Ok in Hv; [done| |done]. eapply digest_length; [rewrite Hlen; apply (wf_node_len _ Hwf)|eauto].
Qed.

Lemma authentic_levels id data hs : authentic id data hs → 0 ≤ level id ≤ auth_tree_levels cfg - 1.
Proof.
  pose proof (wf_levels _ Hwf). induction 1 as [x id data Hid|x l pid id pdata data i g hs _ IH Hx Hl Hp Hid].
  - rewrite (node_id_new_level _ _ _ Hid). lia.
  - rewrite (node_id_new_level _ _ _ Hp) in IH. rewrite (node_id_new_level _ _ _ Hid). lia.
Qed.

Lemma authentic_data id data hs : authentic id data hs → node_data_ok cfg data.
Proof. by destruct 1. Qed.
End Authentic.

Section Entries.
Context {B : Build} {Alloc : Allocator} {P : Platform} {HB : HashBackend} {HL : HashLaws}.
Variable cfg : AuthTreeConfig.
Hypothesis Hwf : config_wf cfg.

Lemma index_in_parent_bound id i :
  1 ≤ node_digests_per_node_log2 id ≤ 63 → index_in_parent id = Ok i → 0 ≤ i < 2 ^ node_digests_per_node_log2 id.
Proof.
  intros Hc. unfold index_in_parent. rewrite trailing_bits_mask_u_spec by lia.
  intros (bits & _ & (_ & _ & (t & _ & H)%obind_Ok_inv)%obind_Ok_inv)%obind_Ok_inv. cbn [obind] in H. injection H as <-.
  rewrite Z.sub_1_r, <-Z.ones_equiv, Z.land_ones by lia. pose proof (Z.mod_pos_bound t (2 ^ node_digests_per_node_log2 id) (pow2_pos (node_digests_per_node_log2 id) ltac:(lia))).
  pose proof (wf_node_size _ Hwf). pose proof (wf_node_blocks _ Hwf). pose proof (wf_block_size _ Hwf). unfold node_size_log2 in *.
  assert (0 ≤ usize_bits) as Hu by lia. pose proof (wrap_le _ _ Hu (proj1 H)). lia.
Qed.

(** A digest read from a node is one of its entries. *)
Lemma get_digest_entry l data i g :
  node_data_ok cfg data → 0 ≤ i < 2 ^ entries_log2 cfg l → get_digest data i (entry_len cfg l) = Ok g →
  Z.of_nat (length g) = entry_len cfg l ∧ Forall u8 g ∧
  g = take (Z.to_nat (entry_len cfg l)) (drop (Z.to_nat (i * entry_len cfg l)) (entries cfg l data)).
Proof.
  intros [Hb Hlen] Hi Hg. pose proof (digest_len_pos (node_hash_alg cfg)). pose proof (digest_len_pos (data_hmac_hash_alg cfg)).
  assert (0 < entry_len cfg l ∧ entry_len cfg l * 2 ^ entries_log2 cfg l ≤ 2 ^ node_size_log2 cfg) as [Hpos Hfit].
  { destruct Hwf as [_ _ _ _ _ Hnl Hdl Hnf Hdf _ _]. unfold entry_len, entries_log2. rewrite Hnl, Hdl in *. destruct (0 <? l); lia. }
  assert (2 ^ node_size_log2 cfg < 2 ^ usize_bits) as Hus.
  { pose proof (wf_node_size _ Hwf). pose proof (wf_node_blocks _ Hwf). pose proof (wf_block_size _ Hwf). unfold node_size_log2 in *. apply Z.pow_lt_mono_r; lia. }
  assert ((i + 1) * entry_len cfg l ≤ entry_len cfg l * 2 ^ entries_log2 cfg l) as Hin by nia.
  apply get_digest_Ok in Hg as [-> Hle]; [|lia..]. assert (0 ≤ i * entry_len cfg l) by nia.
  replace ((i + 1) * entry_len cfg l) with (i * entry_len cfg l + entry_len cfg l) in * by ring. split; [|split].
  - rewrite length_take, length_drop. lia.
  - by apply Forall_take, Forall_drop.
  - unfold entries. rewrite !take_drop_commute, take_take. do 2 f_equal. lia.
Qed.

Lemma collision_free_mono hs hs' : hs' ⊆ hs → collision_free cfg hs → collision_free cfg hs'.
Proof. intros Hs Hc h h' Hh Hh'. apply Hc; by apply Hs. Qed.

End Entries.

Section Unique.
Context {B : Build} {Alloc : Allocator} {P : Platform} {HB : HashBackend} {HL : HashLaws} {CT : CtBackend} {CL : CtLaws}.
Variable cfg : AuthTreeConfig.
Variables root_digest counter : list Z.
Hypothesis Hwf : config_wf cfg.
Hypothesis Hroot : Z.of_nat (length root_digest) = hash_alg_digest_len (root_hmac_hash_alg cfg).
Hypothesis Hroot_bytes : Forall u8 root_digest.
Abbreviation authentic := (authentic cfg root_digest counter).

(** Two authentic versions of a node have the same entries. *)
Lemma authentic_same_entries id data data' hs hs' :
  authentic id data hs → authentic id data' hs' → collision_free cfg (hs ++ hs') → entries cfg (level id) data = entries cfg (level id) data'.
Proof.
  intros Ha. revert data' hs'. pose proof (wf_levels _ Hwf) as Hlv.
  induction Ha as [x id data Hid Hd Hv|x l pid id pdata data i g hs Hp IH Hx Hl Hpid Hid Hi Hg Hd Hv]; intros data' hs' Ha' Hcf;
    pose proof Ha' as Hlevel%authentic_levels; try done;
    destruct Ha' as [x' id data' Hid' Hd' Hv'|x' l' pid' id pdata' data' i' g' hs' Hp' Hx' Hl' Hpid' Hid' Hi' Hg' Hd' Hv'].
  - apply root_verified in Hv, Hv'; [|done..]. assert (HashedRoot (root_message cfg counter id (entries cfg (level id) data)) =
      HashedRoot (root_message cfg counter id (entries cfg (level id) data'))) as [= E].
    { apply Hcf; [by left|by right; left|done|by rewrite Hv, Hv']. }
    by apply (messages_entries id) in E.
  - apply authentic_levels in Hp'; [|done]. rewrite (node_id_new_level _ _ _ _ Hpid') in Hp'.
    rewrite (node_id_new_level _ _ _ _ Hid) in Hlevel. pose proof (node_id_new_level _ _ _ _ Hid). pose proof (node_id_new_level _ _ _ _ Hid'). lia.
  - apply authentic_levels in Hp; [|done]. rewrite (node_id_new_level _ _ _ _ Hpid) in Hp.
    pose proof (node_id_new_level _ _ _ _ Hid). pose proof (node_id_new_level _ _ _ _ Hid'). lia.
  - pose proof (node_id_new_level _ _ _ _ Hid) as Hle. pose proof (node_id_new_level _ _ _ _ Hid') as Hle'. assert (l' = l) as -> by lia.
    assert (pid' = pid) as ->.
    { assert (Ok (E:=NvFsError) pid' = Ok pid) as [= ->]; [|done]. rewrite <-Hpid, <-Hpid'. symmetry. by apply (parent_unique cfg Hwf x x' l id); try lia. }
    rewrite Hi in Hi'. injection Hi' as <-. pose proof (authentic_levels _ _ _ Hwf _ _ _ Hp) as Hpl. pose proof (node_id_new_level _ _ _ _ Hpid) as Hpl'.
    specialize (IH pdata' hs' Hp'). rewrite Hpl' in IH. 
    assert (collision_free cfg (hs ++ hs')) as Hcf' by (eapply collision_free_mono; [|exact Hcf]; set_solver). specialize (IH Hcf').
    assert (entry_len cfg (l + 1) = node_digest_len cfg ∧ entries_log2 cfg (l + 1) = tree_node_digests_per_node_log2 cfg) as [Hel Hlog].
    { unfold entry_len, entries_log2. by zdec. }
    assert (0 ≤ i < 2 ^ entries_log2 cfg (l + 1)) as Hib.
    { rewrite Hlog. assert (node_digests_per_node_log2 id = tree_node_digests_per_node_log2 cfg) as <- by (unfold node_id_new in Hid; by rinv).
      apply (index_in_parent_bound cfg Hwf id i); [|done]. unfold node_id_new in Hid. destruct Hwf. by rinv. }
    rewrite <-Hel in Hg, Hg'. destruct (get_digest_entry cfg Hwf _ _ _ _ (authentic_data _ _ _ _ _ _ Hp) Hib Hg) as (Hgl & Hgb & Hge).
    destruct (get_digest_entry cfg Hwf _ _ _ _ (authentic_data _ _ _ _ _ _ Hp') Hib Hg') as (Hgl' & Hgb' & Hge'). rewrite Hel in Hgl, Hgl'.
    assert (g = g') as <- by by rewrite Hge, Hge', IH.
    apply node_verified in Hv, Hv'; try done; try lia.
    assert (HashedNode (node_message id (entries cfg (level id) data)) = HashedNode (node_message id (entries cfg (level id) data'))) as [= E].
    { apply Hcf; [by left| |done|by rewrite Hv, Hv']. apply elem_of_app. right. by left. }
    by apply (messages_entries id) in E.
Qed.
End Unique.

(** ** Data blocks *)

(** The blocks that an iterator yields before an error, those of them that count, and
    what is hashed of them. *)
Definition oks (iter : list (res (option (list Z)))) : list (option (list Z)) :=
  omap (λ r : res (option (list Z)), match r with Ok b => Some b | _ => None end) iter.
Definition header_blocks (cfg : AuthTreeConfig) (index image_header_end : Z) : nat :=
  Z.to_nat (Z.min (image_header_end - index * 2 ^ tree_data_block_allocation_blocks_log2 cfg) (2 ^ tree_data_block_allocation_blocks_log2 cfg)).
Definition authenticated_blocks (cfg : AuthTreeConfig) (index image_header_end : Z) (blocks : list (option (list Z))) : list (option (list Z)) :=
  replicate (header_blocks cfg index image_header_end) None ++ drop (header_blocks cfg index image_header_end) blocks.
Definition allocated (b : option (list Z)) : bool := match b with Some _ => true | None => false end.
Fixpoint bitmap_of (i : Z) (blocks : list (option (list Z))) : Z :=
  match blocks with [] => 0 | b :: blocks => Z.lor (if allocated b then 2 ^ i else 0) (bitmap_of (i + 1) blocks) end.
Definition data_message (index : Z) (blocks : list (option (list Z))) : list Z :=
  mjoin (omap id blocks) ++ to_le_bytes 8 (bitmap_of 0 blocks) ++ to_le_bytes 8 index ++ auth_context_subject_id_suffix AuthTreeDataBlock.
Definition sized (cfg : AuthTreeConfig) (b : option (list Z)) : Prop :=
  match b with Some data => Z.of_nat (length data) = 2 ^ (tree_allocation_block_size_128b_log2 cfg + 7) | None => True end.

Lemma bitmap_of_bit blocks i k : 0 ≤ i → 0 ≤ k →
  Z.testbit (bitmap_of i blocks) k = if k <? i then false else match blocks !! Z.to_nat (k - i) with Some b => allocated b | None => false end.
Proof.
  revert i. induction blocks as [|b blocks IH]; intros i Hi Hk; cbn [bitmap_of]; [rewrite Z.bits_0; by destruct (k <? i)|].
  rewrite Z.lor_spec, IH by lia. replace (Z.testbit (if allocated b then 2 ^ i else 0) k) with ((k =? i) && allocated b).
  2: { destruct (allocated b); [|by rewrite Z.bits_0, andb_false_r]. rewrite andb_true_r, Z.pow2_bits_eqb by lia. apply Z.eqb_sym. }
  destruct (Z.lt_trichotomy k i) as [|[->|]].
  - by zdec.
  - zdec. rewrite Z.sub_diag. cbn. by rewrite orb_false_r.
  - zdec. replace (Z.to_nat (k - i)) with (S (Z.to_nat (k - (i + 1)))) by lia. done.
Qed.

Lemma bitmap_of_bound blocks : (length blocks ≤ 64)%nat → in_u 64 (bitmap_of 0 blocks).
Proof.
  intros Hl. apply in_u_bits; [lia|]. intros i Hi. rewrite bitmap_of_bit by lia. zdec. rewrite lookup_ge_None_2 by lia. done.
Qed.

Lemma bitmap_of_app blocks b i : 0 ≤ i →
  bitmap_of i (blocks ++ [b]) = Z.lor (bitmap_of i blocks) (if allocated b then 2 ^ (i + Z.of_nat (length blocks)) else 0).
Proof.
  revert i. induction blocks as [|b' blocks IH]; intros i Hi; cbn [app bitmap_of length].
  - rewrite Z.add_0_r, Z.lor_0_l, Z.lor_0_r. done.
  - rewrite IH by lia. rewrite Z.lor_assoc. f_equal. destruct (allocated b); [f_equal; lia|done].
Qed.

Lemma allocated_blocks cfg blocks blocks' :
  Forall (sized cfg) blocks → Forall (sized cfg) blocks' → allocated <$> blocks = allocated <$> blocks' →
  mjoin (omap id blocks) = mjoin (omap id blocks') → blocks = blocks'.
Proof.
  intros H. revert blocks'. induction H as [|b blocks Hb Hbs IH]; intros [|b' blocks'] H'; cbn [fmap list_fmap]; [done..|].
  apply Forall_cons in H' as [Hb' Hbs']. intros [= Ha Has]. destruct b as [x|], b' as [x'|]; try done; cbn [omap list_omap id mjoin].
  - intros [-> Hj]%app_inj_1; [|cbn in *; lia]. f_equal. by apply IH.
  - intros Hj. f_equal. by apply IH.
Qed.

(** What is hashed determines the blocks and the index. *)
Lemma data_message_inj cfg i i' blocks blocks' :
  in_u 64 i → in_u 64 i' → Forall (sized cfg) blocks → Forall (sized cfg) blocks' → length blocks = length blocks' → (length blocks ≤ 64)%nat →
  data_message i blocks = data_message i' blocks' → i = i' ∧ blocks = blocks'.
Proof.
  intros Hi Hi' Hs Hs' Hl Hle. unfold data_message. intros [Hj Ht]%app_inj_2; [|rewrite !length_app, !length_to_le_bytes; done].
  apply app_inj_1 in Ht as [Hb Ht]; [|by rewrite !length_to_le_bytes]. apply app_inj_1 in Ht as [Hx _]; [|by rewrite !length_to_le_bytes].
  assert (∀ a b, in_u 64 a → in_u 64 b → to_le_bytes 8 a = to_le_bytes 8 b → a = b) as Hinj.
  { intros a b Ha Hb' E. rewrite <-(from_to_le_bytes 8 a), <-(from_to_le_bytes 8 b) by done. by rewrite E. }
  split; [by apply Hinj|]. apply Hinj in Hb; [|apply bitmap_of_bound; lia..]. apply (allocated_blocks cfg); try done.
  apply list_eq. intros k. rewrite !list_lookup_fmap.
  pose proof (bitmap_of_bit blocks 0 (Z.of_nat k) ltac:(lia) ltac:(lia)) as E. rewrite Hb, bitmap_of_bit in E by lia.
  rewrite !Z.sub_0_r, !Nat2Z.id in E. revert E. zdec. intros E.
  destruct (blocks !! k) as [b|] eqn:Hk, (blocks' !! k) as [b'|] eqn:Hk'; cbn; [by rewrite E|..|done].
  - apply lookup_lt_Some in Hk. apply lookup_ge_None in Hk'. lia.
  - apply lookup_lt_Some in Hk'. apply lookup_ge_None in Hk. lia.
Qed.

Section DataBlocks.
Context {B : Build} {Alloc : Allocator} {P : Platform} {HB : HashBackend} {HL : HashLaws} {CT : CtBackend} {CL : CtLaws}.
Variable cfg : AuthTreeConfig.
Hypothesis Hwf : config_wf cfg.
Let k := tree_data_block_allocation_blocks_log2 cfg.

(** A context after the given blocks. *)
Record context_at (ctx : AuthTreeDigestDataBlockContext) (blocks : list (option (list Z))) : Prop := {
  at_state : hmac_state (data_block_hmac_instance ctx) = (data_hmac_hash_alg cfg, data_hmac_key cfg, mjoin (omap id blocks));
  at_bitmap : data_block_alloc_bitmap ctx = bitmap_of 0 blocks;
  at_index : allocation_block_in_data_block_index ctx = Z.of_nat (length blocks);
  at_log2 : context_data_block_allocation_blocks_log2 ctx = k;
  at_size : context_allocation_block_size_128b_log2 ctx = tree_allocation_block_size_128b_log2 cfg;
  at_sized : Forall (sized cfg) blocks;
  at_bound : Z.of_nat (length blocks) ≤ 2 ^ k;
}.

Lemma context_new_at h : hmac_new (data_hmac_hash_alg cfg) (data_hmac_key cfg) = Ok h →
  context_at (context_new h k (tree_allocation_block_size_128b_log2 cfg)) [].
Proof. intros H%hmac_new_law. split; try done. cbn. pose proof (wf_data_blocks _ Hwf) as Hk. fold k in Hk. pose proof (pow2_pos k ltac:(lia)). lia. Qed.

Lemma context_update_at ctx blocks b ctx' : context_at ctx blocks → context_update ctx b = Ok ctx' → context_at ctx' (blocks ++ [b]).
Proof.
  intros [Hst Hbm Hix Hlog Hsz Hsized Hbound]. unfold context_update. rewrite Hix, Hlog, Hsz.
  pose proof (wf_data_blocks _ Hwf) as Hk. fold k in Hk. rewrite ushr_Ok by lia. cbn [obind]. rewrite Z.shiftr_div_pow2 by lia.
  pose proof (pow2_pos k ltac:(lia)). assert (2 ^ k ≤ 64) by (change 64 with (2 ^ 6); apply Z.pow_le_mono_r; lia).
  case (Z.eqb_spec (Z.of_nat (length blocks) / 2 ^ k) 0); intros Hdiv; cbn [negb]; [|unfold err_internal; by destruct debug_assertions].
  assert (Z.of_nat (length blocks) < 2 ^ k) as Hlt by (apply Z.div_small_iff in Hdiv; lia).
  pose proof (wf_node_size _ Hwf) as Hns. pose proof (wf_node_blocks _ Hwf). pose proof (wf_block_size _ Hwf).
  unfold node_size_log2 in Hns.
  intros ([h bm] & Hmatch & Hrest)%obind_Ok_inv. rewrite uadd_Ok in Hrest by lia. cbn [obind] in Hrest. injection Hrest as <-.
  assert (hmac_state h = (data_hmac_hash_alg cfg, data_hmac_key cfg, mjoin (omap id (blocks ++ [b]))) ∧
    bm = Z.lor (bitmap_of 0 blocks) (if allocated b then 2 ^ (0 + Z.of_nat (length blocks)) else 0) ∧ sized cfg b) as (Hst' & -> & Hsz').
  { destruct b as [data|].
    - rewrite uadd_Ok in Hmatch by lia. cbn [obind] in Hmatch. rewrite ushl_Ok in Hmatch by lia. cbn [obind] in Hmatch.
      rewrite Z.shiftl_1_l, wrap_small in Hmatch by (split; [lia|apply Z.pow_lt_mono_r; lia]).
      destruct (Z.eqb_spec (Z.of_nat (length data)) (2 ^ (tree_allocation_block_size_128b_log2 cfg + 7))) as [E|];
        cbn [negb] in Hmatch; [|unfold err_internal in Hmatch; by destruct debug_assertions].
      apply obind_Ok_inv in Hmatch as (h' & Hu%hmac_update_law & Hr). rewrite ushl_Ok in Hr by lia. cbn [obind] in Hr. injection Hr as <- <-.
      rewrite Hu, Hst. cbn [fst snd allocated sized]. rewrite omap_app, join_app. cbn. rewrite !app_nil_r. split; [done|]. split; [|done].
      rewrite Hbm, Z.shiftl_1_l, wrap_small; [done|]. split; [lia|apply Z.pow_lt_mono_r; lia].
    - injection Hmatch as <- <-. rewrite Hst, Hbm, omap_app, join_app. cbn. rewrite app_nil_r, Z.lor_0_r. done. }
  split; cbn; try done.
  - symmetry. by apply bitmap_of_app.
  - rewrite length_app. cbn. lia.
  - apply Forall_app. split; [done|by constructor].
  - rewrite length_app. cbn. lia.
Qed.

Lemma skip_header_at n ctx blocks iter ctx' iter' :
  context_at ctx blocks → skip_header n ctx iter = Ok (ctx', iter') →
  context_at ctx' (blocks ++ replicate n None) ∧ iter' = drop n iter ∧ take n iter = Ok <$> oks (take n iter) ∧ (n ≤ length iter)%nat.
Proof.
  revert ctx blocks iter. induction n as [|n IH]; intros ctx blocks iter Hctx; cbn [skip_header].
  - intros [= -> ->]. rewrite app_nil_r, drop_0. split_and!; [done..|lia].
  - destruct iter as [|item iter]; [unfold err_internal; by destruct debug_assertions|].
    intros (b & -> & (c1 & Hu & Hr)%obind_Ok_inv)%obind_Ok_inv. eapply context_update_at in Hu; [|done].
    destruct (IH _ _ _ Hu Hr) as (Hc & -> & Ht & Hn). rewrite <-app_assoc in Hc. split_and!; [done|done| |cbn; lia].
    cbn [take oks omap list_omap]. fold (oks (take n iter)). rewrite fmap_cons. f_equal. exact Ht.
Qed.

Lemma update_blocks_at ctx blocks iter ctx' :
  context_at ctx blocks → update_blocks ctx iter = Ok ctx' → context_at ctx' (blocks ++ oks iter) ∧ iter = Ok <$> oks iter.
Proof.
  revert ctx blocks. induction iter as [|item iter IH]; intros ctx blocks Hctx; cbn [update_blocks].
  - intros [= ->]. by rewrite app_nil_r.
  - intros (b & -> & (c1 & Hu & Hr)%obind_Ok_inv)%obind_Ok_inv. eapply context_update_at in Hu; [|done].
    destruct (IH _ _ Hu Hr) as (Hc & E). rewrite <-app_assoc in Hc. split; [done|].
    cbn [oks omap list_omap]. fold (oks iter). rewrite fmap_cons. f_equal. exact E.
Qed.
End DataBlocks.

Section DataDigest.
Context {B : Build} {Alloc : Allocator} {P : Platform} {HB : HashBackend} {HL : HashLaws} {CT : CtBackend} {CL : CtLaws}.
Variable cfg : AuthTreeConfig.
Hypothesis Hwf : config_wf cfg.

Lemma context_finalize_digest ctx blocks dst index g :
  context_at cfg ctx blocks → context_finalize_into ctx dst index = Ok g →
  g = digest_of cfg (HashedData (data_message index blocks)) ∧ Z.of_nat (length blocks) = 2 ^ tree_data_block_allocation_blocks_log2 cfg.
Proof.
  intros [Hst Hbm Hix Hlog Hsz _ _]. unfold context_finalize_into, finalize_into. rewrite Hix, Hlog, Hbm.
  pose proof (wf_data_blocks _ Hwf) as Hk. intros (_ & _ & H)%obind_Ok_inv. rewrite ushl_Ok in H by lia. cbn [obind] in H.
  rewrite Z.shiftl_1_l, wrap_small in H by (split; [apply Z.pow_nonneg; lia|apply Z.pow_lt_mono_r; lia]).
  destruct (Z.eqb_spec (Z.of_nat (length blocks)) (2 ^ tree_data_block_allocation_blocks_log2 cfg)) as [E|]; cbn [negb] in H;
    [|unfold err_internal in H; by destruct debug_assertions].
  apply obind_Ok_inv in H as (h & Hu%hmac_update_law & (d' & Hd%hmac_finalize_law & H)%obind_Ok_inv). rinv. split; [|done].
  rewrite Hu, Hst. done.
Qed.

(** The blocks before the end of the image header. *)
Lemma header_blocks_eq index image_header_end :
  0 ≤ index → index * 2 ^ tree_data_block_allocation_blocks_log2 cfg < 2 ^ 64 →
  (if index * 2 ^ tree_data_block_allocation_blocks_log2 cfg <? image_header_end then
     Z.to_nat (Z.min (image_header_end - index * 2 ^ tree_data_block_allocation_blocks_log2 cfg) (2 ^ tree_data_block_allocation_blocks_log2 cfg))
   else 0%nat) = header_blocks cfg index image_header_end.
Proof.
  intros. unfold header_blocks. pose proof (wf_data_blocks _ Hwf) as Hk. pose proof (pow2_pos (tree_data_block_allocation_blocks_log2 cfg) ltac:(lia)).
  case Z.ltb_spec; lia.
Qed.

Lemma digest_data_block_digest index iter image_header_end g :
  0 ≤ index → index * 2 ^ tree_data_block_allocation_blocks_log2 cfg < 2 ^ 64 →
  digest_data_block cfg index iter image_header_end = Ok g →
  g = digest_of cfg (HashedData (data_message index (authenticated_blocks cfg index image_header_end (oks iter)))) ∧ iter = Ok <$> oks iter ∧
  Z.of_nat (length iter) = 2 ^ tree_data_block_allocation_blocks_log2 cfg ∧
  Z.of_nat (length (authenticated_blocks cfg index image_header_end (oks iter))) = 2 ^ tree_data_block_allocation_blocks_log2 cfg ∧
  Forall (sized cfg) (authenticated_blocks cfg index image_header_end (oks iter)).
Proof.
  intros Hi Hb. pose proof (wf_data_blocks _ Hwf) as Hk. unfold digest_data_block.
  intros (dst & _ & (h & Hn%(context_new_at cfg Hwf) & H)%obind_Ok_inv)%obind_Ok_inv. rewrite ushl_Ok in H by lia. cbn [obind] in H.
  rewrite Z.shiftl_mul_pow2, wrap_small in H by (lia || unfold in_u; nia).
  apply obind_Ok_inv in H as ([ctx iter'] & Hskip & H). set (n := header_blocks cfg index image_header_end) in *.
  assert (context_at cfg ctx (replicate n None) ∧ iter' = drop n iter ∧ take n iter = Ok <$> oks (take n iter) ∧ (n ≤ length iter)%nat) as (Hctx & -> & Htake & Hlen).
  { unfold n. rewrite <-header_blocks_eq by done. destruct (_ <? _) eqn:E.
    - apply Z.ltb_lt in E. rewrite usub_Ok in Hskip by lia. cbn [obind] in Hskip. rewrite ushl_Ok in Hskip by lia. cbn [obind] in Hskip.
      rewrite Z.shiftl_1_l, wrap_small in Hskip by (split; [apply Z.pow_nonneg; lia|apply Z.pow_lt_mono_r; lia]).
      by apply (skip_header_at cfg Hwf _ _ [] _ _ _ Hn) in Hskip.
    - injection Hskip as <- <-. split_and!; [done..|lia]. }
  apply obind_Ok_inv in H as (ctx' & Hup & Hfin). apply (update_blocks_at cfg Hwf _ _ _ _ Hctx) in Hup as [Hctx' Hdrop].
  assert (oks iter = oks (take n iter) ++ oks (drop n iter)) as Hoks by (unfold oks; by rewrite <-omap_app, take_drop).
  assert (iter = Ok <$> oks iter) as Hiter by (rewrite <-(take_drop n iter) at 1; rewrite Htake, Hdrop, <-fmap_app, Hoks at 1; done).
  assert (length (oks iter) = length iter) as Hlo by (rewrite Hiter at 2; by rewrite length_fmap).
  assert (replicate n None ++ oks (drop n iter) = authenticated_blocks cfg index image_header_end (oks iter)) as Ha.
  { unfold authenticated_blocks. fold n. f_equal. rewrite Hoks, drop_app_length'; [done|]. apply (f_equal length) in Htake.
    rewrite length_fmap, length_take in Htake. lia. }
  rewrite Ha in Hctx'. destruct (context_finalize_digest _ _ _ _ _ Hctx' Hfin) as [-> Hl].
  split_and!; [done..| |done|by destruct Hctx']. revert Hl. unfold authenticated_blocks. fold n. rewrite length_app, length_replicate, length_drop. lia.
Qed.

(** The parts of a verification with a leaf. *)
Lemma from_tree_inv leaf index iter image_header_end :
  0 ≤ index → authenticate_data_block_from_tree cfg leaf index iter image_header_end = Ok tt →
  covering_leaf_node_id cfg index = Ok leaf.1 ∧ ∃ i g, i = wrap usize_bits (index mod 2 ^ tree_data_digests_per_node_log2 cfg) ∧
    get_digest leaf.2 i (entry_len cfg 0) = Ok g ∧ ∃ d, digest_data_block cfg index iter image_header_end = Ok d ∧ verify d g = Ok tt.
Proof.
  intros Hi. pose proof (wf_data_log2 _ Hwf) as Hd. unfold authenticate_data_block_from_tree, get_data_block_digest_entry_from_tree, authenticate_data_block.
  intros (id & Hid & H)%obind_Ok_inv. rewrite Hid in H. cbn [obind] in H.
  case_bool_decide as E; [unfold err_internal in H; by destruct debug_assertions|]. subst id.
  rewrite trailing_bits_mask_u_spec in H by lia. cbn [obind] in H. rewrite Z.sub_1_r, <-Z.ones_equiv, Z.land_ones in H by lia.
  apply obind_Ok_inv in H as (g & Hg & (_ & _ & (d & Hdig & Hv)%obind_Ok_inv)%obind_Ok_inv).
  split; [done|]. exists (wrap usize_bits (index mod 2 ^ tree_data_digests_per_node_log2 cfg)), g. split; [done|]. split; [exact Hg|]. by exists d.
Qed.

Lemma data_entry_bound index :
  0 ≤ wrap usize_bits (index mod 2 ^ tree_data_digests_per_node_log2 cfg) < 2 ^ entries_log2 cfg 0.
Proof.
  pose proof (wf_data_log2 _ Hwf) as Hd. change (entries_log2 cfg 0) with (tree_data_digests_per_node_log2 cfg).
  pose proof (Z.mod_pos_bound index (2 ^ tree_data_digests_per_node_log2 cfg) (pow2_pos (tree_data_digests_per_node_log2 cfg) ltac:(lia))) as Hm.
  pose proof (wf_node_size _ Hwf). pose proof (wf_node_blocks _ Hwf). pose proof (wf_block_size _ Hwf). unfold node_size_log2 in *.
  assert (0 ≤ usize_bits) as Hu by lia. pose proof (wrap_le _ _ Hu (proj1 Hm)). lia.
Qed.

Lemma data_digest_length m (g : list Z) :
  Z.of_nat (length g) = entry_len cfg 0 → length (digest_of cfg (HashedData m)) = length g.
Proof. intros Hg. eapply digest_length; [rewrite Hg; apply (wf_data_len _ Hwf)|]. eauto. Qed.
End DataDigest.

Section Integrity.
Context {B : Build} {Alloc : Allocator} {P : Platform} {HB : HashBackend} {HL : HashLaws} {CT : CtBackend} {CL : CtLaws}.

(** C6: if two versions of a data block are both verified with leaf nodes that have
    been verified on the path from the same root digest, then they agree, which
    blocks of it are allocated included, except for blocks of the image header,
    unless two of the messages hashed for the verification have the same hash. *)
Theorem data_block_integrity cfg root_digest counter index leaf leaf' hs hs' iter iter' image_header_end :
  config_wf cfg → Z.of_nat (length root_digest) = hash_alg_digest_len (root_hmac_hash_alg cfg) → Forall u8 root_digest →
  0 ≤ index → index * 2 ^ tree_data_block_allocation_blocks_log2 cfg < 2 ^ 64 →
  authentic cfg root_digest counter leaf.1 leaf.2 hs → authentic cfg root_digest counter leaf'.1 leaf'.2 hs' →
  authenticate_data_block_from_tree cfg leaf index iter image_header_end = Ok tt →
  authenticate_data_block_from_tree cfg leaf' index iter' image_header_end = Ok tt →
  let hashed iter := HashedData (data_message index (authenticated_blocks cfg index image_header_end (oks iter))) in
  collision_free cfg (hs ++ hs' ++ [hashed iter; hashed iter']) →
  drop (header_blocks cfg index image_header_end) iter = drop (header_blocks cfg index image_header_end) iter'.
Proof.
  intros Hwf Hr Hrb Hi Hb Ha Ha' H H' hashed Hcf. pose proof (wf_data_blocks _ Hwf) as Hk.
  destruct (from_tree_inv cfg Hwf _ _ _ _ Hi H) as (Hid & i & g & Hix & Hg & d & Hdig & Hv).
  destruct (from_tree_inv cfg Hwf _ _ _ _ Hi H') as (Hid' & i' & g' & Hix' & Hg' & d' & Hdig' & Hv').
  assert (leaf'.1 = leaf.1) as E by congruence. rewrite E in Ha'.
  assert (level leaf.1 = 0) as Hl by (unfold covering_leaf_node_id in Hid; by apply node_id_new_level in Hid).
  assert (i' = i) as -> by congruence. assert (0 ≤ i < 2 ^ entries_log2 cfg 0) as Hib by (rewrite Hix; by apply data_entry_bound).
  assert (entries cfg 0 leaf.2 = entries cfg 0 leaf'.2) as Hent.
  { rewrite <-Hl. eapply authentic_same_entries; [done..|]. eapply collision_free_mono; [|exact Hcf]. set_solver. }
  destruct (get_digest_entry cfg Hwf 0 leaf.2 i g (authentic_data _ _ _ _ _ _ Ha) Hib Hg) as (Hgl & Hgb & Hge).
  destruct (get_digest_entry cfg Hwf 0 leaf'.2 i g' (authentic_data _ _ _ _ _ _ Ha') Hib Hg') as (_ & _ & Hge').
  assert (g' = g) as -> by by rewrite Hge, Hge', Hent.
  destruct (digest_data_block_digest cfg Hwf _ _ _ _ Hi Hb Hdig) as (-> & Hit & _ & Hlen & Hsz).
  destruct (digest_data_block_digest cfg Hwf _ _ _ _ Hi Hb Hdig') as (-> & Hit' & _ & Hlen' & Hsz').
  apply verify_Ok in Hv; [|by apply (data_digest_length cfg Hwf)|done]. apply verify_Ok in Hv'; [|by apply (data_digest_length cfg Hwf)|done].
  assert (hashed iter = hashed iter') as [= Em].
  { apply Hcf; [set_solver..|done|]. unfold hashed. by rewrite Hv, Hv'. }
  apply (data_message_inj cfg) in Em as [_ Em]; try done; [|unfold in_u; pose proof (pow2_pos _ (proj1 Hk)); nia..|lia|].
  2: { assert (2 ^ tree_data_block_allocation_blocks_log2 cfg ≤ 2 ^ 6) by (apply Z.pow_le_mono_r; lia). lia. }
  unfold authenticated_blocks in Em. apply app_inv_head in Em. rewrite Hit, Hit', <-!fmap_drop. by rewrite Em.
Qed.
End Integrity.

(** ** The configuration *)

Section ConfigNew.
Context {B : Build} {Alloc : Allocator} {P : Platform} {HB : HashBackend}.

Definition digest_len_log2 (alg : TpmiAlgHash) : Z := Z.log2_up (hash_alg_digest_len alg).

Lemma digests_per_node_log2_eq n alg :
  0 ≤ n < 64 → digests_per_node_log2 n alg = if n <=? digest_len_log2 alg then Err (from_format InvalidAuthTreeConfig) else Ok (n - digest_len_log2 alg).
Proof.
  intros Hn. unfold digests_per_node_log2. rewrite round_up_next_pow2_eq by (lia || by destruct alg). cbn [obind].
  assert ((if hash_alg_digest_len alg =? 0 then Some (2 ^ 32 - 1) else if hash_alg_digest_len alg <=? 2 ^ (32 - 1) then
    Some (2 ^ Z.log2_up (hash_alg_digest_len alg)) else None) = Some (2 ^ digest_len_log2 alg)) as -> by by destruct alg.
  cbn [unwrap obind]. unfold ilog2. assert (0 ≤ digest_len_log2 alg) by apply Z.log2_up_nonneg. pose proof (pow2_pos (digest_len_log2 alg) ltac:(lia)).
  zdec. cbn [obind]. rewrite Z.log2_pow2 by lia. case Z.leb_spec; intros; [done|]. rewrite usub_Ok by lia. done.
Qed.

Lemma digest_len_log2_spec alg : hash_alg_digest_len alg ≤ 2 ^ digest_len_log2 alg ∧ 5 ≤ digest_len_log2 alg ≤ 6.
Proof. destruct alg; (split; [|split]); by apply Z.leb_le. Qed.

Lemma digests_fit n alg k : 0 ≤ n < 64 → digests_per_node_log2 n alg = Ok k →
  1 ≤ k ≤ 58 ∧ hash_alg_digest_len alg * 2 ^ k ≤ 2 ^ n.
Proof.
  intros Hn. rewrite digests_per_node_log2_eq by done. pose proof (digest_len_log2_spec alg) as [Hl ?]. case Z.leb_spec; intros Hle [= <-].
  split; [lia|]. replace n with (digest_len_log2 alg + (n - digest_len_log2 alg)) at 2 by lia. rewrite Z.pow_add_r by lia.
  pose proof (pow2_pos (n - digest_len_log2 alg) ltac:(lia)). nia.
Qed.

Lemma check_node_size_inv n u : check_node_size n = Ok u → n < Z.min 64 usize_bits.
Proof. unfold check_node_size. repeat case Z.leb_spec; intros; done || lia. Qed.

Lemma check_data_block_size_inv n u : 0 ≤ n → check_data_block_size n = Ok u → n ≤ 6.
Proof.
  intros Hn. unfold check_data_block_size. case Z.leb_spec; intros; [done|]. rewrite ushl_Ok in * by lia. cbn [obind] in *.
  rewrite Z.shiftl_1_l, wrap_small in H0 by (split; [lia|apply Z.pow_lt_mono_r; lia]). destruct (Z.ltb_spec 64 (2 ^ n)) as [|Hle]; [done|].
  change 64 with (2 ^ 6) in Hle. apply Z.pow_le_mono_r_iff in Hle; lia.
Qed.
End ConfigNew.

Section ConfigCorrect.
Context {B : Build} {Alloc : Allocator} {P : Platform} {HB : HashBackend}.

(** The fields of a layout are bytes. *)
Definition layout_u8 (l : ImageLayout) : Prop :=
  u8 (allocation_block_size_128b_log2 l) ∧ u8 (io_block_allocation_blocks_log2 l) ∧ u8 (auth_tree_node_io_blocks_log2 l) ∧
  u8 (auth_tree_data_block_allocation_blocks_log2 l).

(** The data blocks of an image, the last one possibly partial. *)
Lemma image_blocks_round image k n :
  0 ≤ k ≤ 6 → 0 ≤ image < 2 ^ 64 →
  (let! q := ushr 64 image k in let! whole := ushl 64 q k in if negb (whole =? image) then uadd 64 q 1 else Ok q) = Ok (E:=NvFsError) n →
  image ≤ n * 2 ^ k.
Proof.
  intros Hk Hi. rewrite ushr_Ok by lia. cbn [obind]. rewrite ushl_Ok by lia. cbn [obind]. rewrite Z.shiftr_div_pow2, Z.shiftl_mul_pow2 by lia.
  pose proof (pow2_pos k ltac:(lia)). pose proof (Z.div_mod image (2 ^ k) ltac:(lia)). pose proof (Z.mod_pos_bound image (2 ^ k) ltac:(lia)).
  pose proof (Z.div_pos image (2 ^ k) ltac:(lia) ltac:(lia)).
  rewrite wrap_small by (unfold in_u; nia). case Z.eqb_spec; intros Hw; cbn [negb].
  - intros [= <-]. lia.
  - rewrite uadd_Ok by nia. intros [= <-]. nia.
Qed.

Lemma shiftr_u64 x n : 0 ≤ x < 2 ^ 64 → 0 ≤ n → Z.shiftr x n < 2 ^ 64.
Proof.
  intros. rewrite Z.shiftr_div_pow2 by lia. pose proof (pow2_pos n ltac:(lia)). apply Z.div_lt_upper_bound; nia.
Qed.

Lemma levels_bounds c d k n levels :
  1 ≤ c ≤ 58 → 1 ≤ d ≤ 58 → 0 ≤ k ≤ 6 → 0 ≤ n < 2 ^ 64 → auth_tree_node_count_to_auth_tree_levels n c d k = Ok levels →
  1 ≤ levels ≤ 64 ∧ c * (levels - 1) ≤ 63 ∧ c * (levels - 2) + d + k ≤ 63.
Proof.
  intros Hc Hd Hk Hn Hlev. destruct (Z.eq_dec n 0) as [->|]; [done|].
  destruct (node_count_to_levels_spec c ltac:(lia) n d k) as (L & HL & Hmax & _); [lia..|]. rewrite HL in Hlev. injection Hlev as ->.
  pose proof (max_levels_bounds c ltac:(lia) d k ltac:(lia) ltac:(lia) ltac:(lia)). nia.
Qed.

(** C8: a configuration that is made from a layout and the extents of the tree is well
    formed: the digests fit into the nodes, the dimensions are such that the
    positions of nodes are computed without overflow, and the tree covers all the
    data of the image. *)
Theorem config_new_correct derive_key image_layout block_ptr image_size extents bitmap_extents cfg :
  layout_u8 image_layout → 0 ≤ image_size < 2 ^ 64 → LogicalExtents.le_wf 0 extents →
  config_new derive_key image_layout block_ptr image_size extents bitmap_extents = Ok cfg →
  config_wf cfg ∧ map_new extents = Ok (auth_tree_data_allocation_blocks_map cfg) ∧
  digests_per_node_minus_one_inv_mod_u64 (tree_node_digests_per_node_log2 cfg) = Ok (tree_node_digests_per_node_minus_one_inv_mod_u64 cfg) ∧
  tree_node_digests_per_node_log2 cfg * (auth_tree_levels cfg - 1) ≤ 63 ∧
  tree_node_digests_per_node_log2 cfg * (auth_tree_levels cfg - 2) + tree_data_digests_per_node_log2 cfg
    + tree_data_block_allocation_blocks_log2 cfg ≤ 63 ∧
  image_size - LogicalExtents.allocation_block_count extents
    ≤ max_covered_data_block_count cfg * 2 ^ tree_data_block_allocation_blocks_log2 cfg < 2 ^ 64.
Proof.
  intros ((? & ?) & (? & ?) & (? & ?) & (? & ?)) Him Hext. unfold config_new. cbn zeta.
  set (k := auth_tree_data_block_allocation_blocks_log2 image_layout) in *.
  intros (nb & Hnb & (t & Ht & (nsl & Hnsl & (_ & Hcheck%check_node_size_inv & (u & Hdb & HR)%obind_Ok_inv)%obind_Ok_inv)%obind_Ok_inv)%obind_Ok_inv)%obind_Ok_inv.
  destruct u. apply check_data_block_size_inv in Hdb; [|lia].
  unfold checked_add in Hnb. destruct (Z.ltb_spec (auth_tree_node_io_blocks_log2 image_layout + io_block_allocation_blocks_log2 image_layout) (2 ^ 8)) as [Hlt|]; [|done].
  injection Hnb as <-. rewrite uadd_Ok in Ht by lia. injection Ht as <-. rewrite uadd_Ok in Hnsl by lia. injection Hnsl as <-.
  apply obind_Ok_inv in HR as (c & Hc & (d & Hd & (dk & _ & (items & _ & (_ & _ & HR)%obind_Ok_inv)%obind_Ok_inv)%obind_Ok_inv)%obind_Ok_inv).
  apply digests_fit in Hc as [Hc Hcf]; [|lia]. apply digests_fit in Hd as [Hd Hdf]; [|lia]. rewrite !(wrap_small 8) in HR by (unfold in_u; lia).
  destruct (Z.eqb_spec (LogicalExtents.allocation_block_count extents) 0) as [|Hn0]; [done|].
  destruct (Z.ltb_spec image_size (LogicalExtents.allocation_block_count extents)) as [|Hsz]; [done|].
  assert (0 ≤ LogicalExtents.allocation_block_count extents) as Hpos by (apply LogicalExtents.end_of_le in Hext; exact Hext).
  set (total := LogicalExtents.allocation_block_count extents) in *.
  apply obind_Ok_inv in HR as (map & Hmap & (count & Hcount & (levels & Hlev & (inv & Hinv & (cov & Hcov & HR)%obind_Ok_inv)%obind_Ok_inv)%obind_Ok_inv)%obind_Ok_inv).
  rewrite ushr_Ok in Hcount by lia. injection Hcount as <-.
  rewrite ushr_Ok in HR by lia. cbn [obind] in HR. unfold count_sub in HR. rewrite checked_sub_Some in HR by lia. cbn [unwrap obind] in HR.
  apply levels_bounds in Hlev as (Hl & Hl1 & Hl2); [|lia..|split; [apply Z.shiftr_nonneg; lia|apply shiftr_u64; lia]].
  apply obind_Ok_inv in HR as (q & Hq & (whole & Hw & (blocks & Hblocks & HR)%obind_Ok_inv)%obind_Ok_inv).
  assert (image_size - total ≤ blocks * 2 ^ k) as Hround.
  { apply image_blocks_round; [lia|lia|]. rewrite Hq. cbn [obind]. rewrite Hw. exact Hblocks. }
  destruct (Z.ltb_spec (Z.min cov (Z.shiftr (2 ^ 64 - 1) k)) blocks) as [|Hle]; [done|].
  apply obind_Ok_inv in HR as (rk & _ & (dst & _ & (ctx & _ & HR)%obind_Ok_inv)%obind_Ok_inv). injection HR as <-. cbn [auth_tree_levels
    auth_tree_data_allocation_blocks_map tree_node_digests_per_node_log2 tree_node_digests_per_node_minus_one_inv_mod_u64
    tree_data_digests_per_node_log2 tree_data_block_allocation_blocks_log2 max_covered_data_block_count].
  pose proof (pow2_pos k ltac:(lia)). rewrite Z.shiftr_div_pow2 in * by lia. pose proof (Z.mul_div_le (2 ^ 64 - 1) (2 ^ k) ltac:(lia)).
  split; [|split_and!; [done..|lia|lia|nia|nia]]. split; unfold node_size_log2; cbn; try done; lia.
Qed.
End ConfigCorrect.
(** *** Instances *)

(** A checksum in the place of the hash functions. *)
Definition checksum (alg : TpmiAlgHash) (key m : list Z) : list Z :=
  to_le_bytes (Z.to_nat (hash_alg_digest_len alg)) (foldl (λ acc b, 257 * acc + b) (Z.of_nat (length m)) (key ++ m)).

Definition example_backend : HashBackend := {|
  HashInstance := TpmiAlgHash * list Z;
  hash_new alg := Ok (alg, []);
  hash_update h bs := Ok (h.1, h.2 ++ mjoin bs);
  hash_finalize h := Ok (checksum h.1 [] h.2);
  HmacInstance := TpmiAlgHash * list Z * list Z;
  hmac_new alg key := Ok (alg, key, []);
  hmac_update h bs := Ok (h.1, h.2 ++ mjoin bs);
  hmac_finalize h := Ok (checksum h.1.1 h.1.2 h.2);
  hmac_digest_len h := Z.to_nat (hash_alg_digest_len h.1.1);
|}.

Lemma checksum_length alg key m : Z.of_nat (length (checksum alg key m)) = hash_alg_digest_len alg.
Proof. unfold checksum. rewrite length_to_le_bytes. pose proof (digest_len_pos alg). lia. Qed.

Instance example_laws : @HashLaws example_backend.
Proof.
  unshelve refine (@Build_HashLaws example_backend (λ alg m, checksum alg [] m) id _ _ _ _ _ checksum id _ _ _ _ _ _).
  - by intros alg h [= <-].
  - by intros h bs h' [= <-].
  - by intros h d [= <-].
  - intros. apply checksum_length.
  - intros. apply to_le_bytes_u8.
  - by intros alg key h [= <-].
  - by intros h bs h' [= <-].
  - by intros h d [= <-].
  - intros h. cbn. pose proof (digest_len_pos h.1.1). lia.
  - intros. apply checksum_length.
  - intros. apply to_le_bytes_u8.
Defined.

(** Nodes of one block of 128 bytes, data blocks of two. *)
Definition example_layout : ImageLayout :=
  mk_layout 0 0 0 1 0 0 0 TpmInterface.Sha1 TpmInterface.Sha1 TpmInterface.Sha256 TpmInterface.Sha256 TpmInterface.Sha256
    (TpmInterface.CipherAes TpmInterface.Aes128).

Definition example_key (id : KeyId) : res (list Z) := Ok [domain id; subdomain id; match purpose id with AuthenticationRoot => 2 | _ => 3 end].

(** One node at block 10 and an image of nine blocks. *)
Definition example_config : res AuthTreeConfig :=
  config_new (B:=debug_build) (Alloc:=λ _ _, true) (P:=64) (HB:=example_backend) example_key example_layout [7] 9 [(10, 2)] [].
Definition example_cfg : AuthTreeConfig := Eval vm_compute in
  match example_config with Ok cfg => cfg | _ => mk_config [] [] 0 0 0 0 0 TpmInterface.Sha1 0 TpmInterface.Sha1 [] 0 TpmInterface.Sha1 [] 0 0 0 [] end.

(** A data block with one block of the header before its other one, its digest in a
    leaf, the digest of the leaf in the root node, and the root digest. *)
Definition example_data (header : Z) : list (res (option (list Z))) := [Ok (Some (replicate 128 header)); Ok (Some (replicate 128 5))].
Definition example_hashed_data : hashed := HashedData (data_message 0 [None; Some (replicate 128 5)]).
Definition example_leaf (padding : Z) : list Z :=
  digest_of (HL:=example_laws) example_cfg example_hashed_data ++ replicate 60 0 ++ replicate 48 padding.
Definition example_leaf_id : AuthTreeNodeId := mk_node_id 0 0 2 2.
Definition example_hashed_leaf : hashed :=
  HashedNode (node_message (B:=debug_build) example_leaf_id (entries example_cfg 0 (example_leaf 0))).
Definition example_root : list Z := digest_of (HL:=example_laws) example_cfg example_hashed_leaf ++ replicate 108 0.
Definition example_root_id : AuthTreeNodeId := mk_node_id 0 1 2 2.
Definition example_hashed_root : hashed :=
  HashedRoot (root_message (B:=debug_build) example_cfg [9] example_root_id (entries example_cfg 1 example_root)).
Definition example_root_digest : list Z := digest_of (HL:=example_laws) example_cfg example_hashed_root.

Lemma bytes_check l : forallb (λ b, (0 <=? b) && (b <? 256)) l = true → Forall u8 l.
Proof.
  intros H. apply Forall_forall. intros b Hb%list_elem_of_In. rewrite forallb_forall in H. specialize (H b Hb).
  apply andb_true_iff in H as [?%Z.leb_le ?%Z.ltb_lt]. by split.
Qed.

Lemma example_cfg_wf : config_wf (H:=64) example_cfg.
Proof. split; by vm_compute. Qed.

Lemma example_authentic padding :
  padding = 0 ∨ padding = 1 →
  authentic (B:=debug_build) (Alloc:=λ _ _, true) (P:=64) (HB:=example_backend) (CT:=example_ct) example_cfg example_root_digest [9] example_leaf_id (example_leaf padding)
    [example_hashed_leaf; example_hashed_root].
Proof.
  intros Hp.
  assert (entries example_cfg 0 (example_leaf 0) = entries example_cfg 0 (example_leaf padding)) as E by by destruct Hp as [->| ->]; vm_compute.
  unfold example_hashed_leaf. rewrite E. clear E.
  change (entries example_cfg 0 (example_leaf padding)) with (entries example_cfg (level example_leaf_id) (example_leaf padding)).
  eapply (authentic_child _ _ _ 0 0 example_root_id _ example_root _ 0); [|done|done|by vm_compute..| |].
  - apply (authentic_root _ _ _ 0); [by vm_compute| |by vm_compute]. split; [|by vm_compute]. apply bytes_check. by vm_compute.
  - split; [|by destruct Hp as [->| ->]; vm_compute]. apply bytes_check. by destruct Hp as [->| ->]; vm_compute.
  - by destruct Hp as [->| ->]; vm_compute.
Qed.

Lemma example_collision_free :
  collision_free (HL:=example_laws) example_cfg
    ([example_hashed_leaf; example_hashed_root] ++ [example_hashed_leaf; example_hashed_root] ++ [example_hashed_data; example_hashed_data]).
Proof.
  intros h h' Hh Hh' Hs _. rewrite !elem_of_app, !elem_of_cons in Hh, Hh'.
  destruct_or?; subst; try done; by apply not_elem_of_nil in Hh || by apply not_elem_of_nil in Hh'.
Qed.

Lemma data_block_integrity_witness :
  drop 1 (example_data 3) = drop 1 (example_data 4).
Proof.
  apply (@data_block_integrity debug_build (λ _ _, true) 64 _ example_laws example_ct example_ct_laws example_cfg example_root_digest [9] 0
    (example_leaf_id, example_leaf 0) (example_leaf_id, example_leaf 1) [example_hashed_leaf; example_hashed_root] [example_hashed_leaf; example_hashed_root]
    (example_data 3) (example_data 4) 1 example_cfg_wf).
  - by vm_compute.
  - apply bytes_check. by vm_compute.
  - done.
  - by vm_compute.
  - apply example_authentic. by left.
  - apply example_authentic. by right.
  - by vm_compute.
  - by vm_compute.
  - exact example_collision_free.
Defined.

Lemma config_new_correct_witness :
  config_wf (H:=64) example_cfg ∧ 9 - 2 ≤ max_covered_data_block_count example_cfg * 2 ^ 1.
Proof.
  destruct (@config_new_correct debug_build (λ _ _, true) 64 example_backend example_key example_layout [7] 9 [(10, 2)] [] example_cfg)
    as (H & _ & _ & _ & _ & H' & _); [by repeat split| |by cbn; lia|by vm_compute|by split]. lia.
Defined.


(** Data digests of 64 bytes with node digests of 32 bytes. *)
Definition wide_layout : ImageLayout :=
  mk_layout 2 0 0 1 0 0 0 TpmInterface.Sha256 TpmInterface.Sha512 TpmInterface.Sha256 TpmInterface.Sha256 TpmInterface.Sha256
    (TpmInterface.CipherAes TpmInterface.Aes128).


End AuthTreeDigests.

