(* ===== verification/Crc32.v ===== *)
(** * Checksums (storage/src/fs/cocoonfs/crc32.rs and checksum.rs)

    The CRC-32 of the format, computed with two tables of sixteen entries, and the
    checksum made of the CRC of the data and of the CRC of the data with neighbouring
    bits swapped.  The reference is the shift register that takes one bit at a time. *)

From S2P Require Import Prelude Errors.
Import Errors.
Abbreviation res := (outcome NvFsError).

Module Crc32.

(** ** CRC-32 *)

Definition CRC32_LE_LUT_LN : list Z := [
  0x00000000; 0x77073096; 0xee0e612c; 0x990951ba; 0x076dc419; 0x706af48f; 0xe963a535; 0x9e6495a3; 0x0edb8832;
  0x79dcb8a4; 0xe0d5e91e; 0x97d2d988; 0x09b64c2b; 0x7eb17cbd; 0xe7b82d07; 0x90bf1d91].
Definition CRC32_LE_LUT_HN : list Z := [
  0x00000000; 0x1db71064; 0x3b6e20c8; 0x26d930ac; 0x76dc4190; 0x6b6b51f4; 0x4db26158; 0x5005713c; 0xedb88320;
  0xf00f9344; 0xd6d6a3e8; 0xcb61b38c; 0x9b64c2b0; 0x86d3d2d4; 0xa00ae278; 0xbdbdf21c].

(** The index is masked to the size of the table. *)
Definition lut (table : list Z) (index : Z) : Z := nth (Z.to_nat index) table 0.

Definition snb_u8 (data : Z) : Z :=
  let t0 := Z.land (Z.lxor data (Z.shiftr data 1)) 0x55 in
  let t1 := wrap 8 (Z.shiftl t0 1) in
  Z.lxor (Z.lxor data t0) t1.
Definition snb_u32 (data : Z) : Z :=
  let t0 := Z.land (Z.lxor data (Z.shiftr data 1)) 0x55555555 in
  let t1 := wrap 32 (Z.shiftl t0 1) in
  Z.lxor (Z.lxor data t0) t1.

Definition crc32le_init : Z := unot 32 0.
Definition crc32le_finish_send (crc : Z) : Z := unot 32 crc.
Definition crc32le_finish_receive (computed_crc received_crc : Z) : bool := crc32le_finish_send computed_crc =? received_crc.

(** The register after the eight bits in its lowest byte. *)
Definition update_byte (crc : Z) : Z :=
  Z.lxor (Z.lxor (Z.shiftr crc 8) (lut CRC32_LE_LUT_LN (Z.land crc 0xf))) (lut CRC32_LE_LUT_HN (Z.land (Z.shiftr crc 4) 0xf)).

Definition crc32le_update_u8 (crc data : Z) : Z := update_byte (Z.lxor crc data).
Definition crc32le_update_u8_snb (crc data : Z) : Z := crc32le_update_u8 crc (snb_u8 data).

Definition crc32le_update_u32le (crc data_from_le : Z) : Z := Nat.iter 4 update_byte (Z.lxor crc data_from_le).
Definition crc32le_update_u32le_snb (crc data_from_le : Z) : Z := crc32le_update_u32le crc (snb_u32 data_from_le).

Definition crc32le_update_u64le (crc data_from_le : Z) : Z :=
  let crc := crc32le_update_u32le crc (wrap 32 data_from_le) in
  crc32le_update_u32le crc (wrap 32 (Z.shiftr data_from_le 32)).
Definition crc32le_update_u64le_snb (crc data_from_le : Z) : Z :=
  let crc := crc32le_update_u32le_snb crc (wrap 32 data_from_le) in
  crc32le_update_u32le_snb crc (wrap 32 (Z.shiftr data_from_le 32)).

(** Where the aligned part of a slice begins. *)
Class Alignment := align_head : list Z → nat.

(** The words of a slice, as little endian numbers, and the rest. *)
Fixpoint words (n : nat) (bytes : list Z) : list Z * list Z :=
  match n with
  | O => ([], bytes)
  | S n =>
      if (4 <=? length bytes)%nat then
        let '(ws, tail) := words n (drop 4 bytes) in (from_le_bytes (take 4 bytes) :: ws, tail)
      else ([], bytes)
  end.
Definition align_to `{Alignment} (data : list Z) : list Z * list Z * list Z :=
  let head := align_head data in
  let '(middle, tail) := words (length data) (drop head data) in (take head data, middle, tail).

Section Data.
Context {A : Alignment}.

Definition crc32le_update_data (crc : Z) (data : list Z) : Z :=
  let '(head, middle, tail) := align_to data in
  let crc := foldl crc32le_update_u8 crc head in
  let crc := foldl crc32le_update_u32le crc middle in
  foldl crc32le_update_u8 crc tail.
Definition crc32le_update_data_snb (crc : Z) (data : list Z) : Z :=
  let '(head, middle, tail) := align_to data in
  let crc := foldl crc32le_update_u8_snb crc head in
  let crc := foldl crc32le_update_u32le_snb crc middle in
  foldl crc32le_update_u8_snb crc tail.

(** ** Checksums *)

Definition CHECKSUM_LEN : Z := 8.

Record ChecksumInstance := mk_checksum { crc : Z; crc_snb : Z }.

Definition checksum_new : ChecksumInstance := mk_checksum crc32le_init crc32le_init.
Definition checksum_update (self : ChecksumInstance) (data : list Z) : ChecksumInstance :=
  mk_checksum (crc32le_update_data (crc self) data) (crc32le_update_data_snb (crc_snb self) data).
Definition finish_send (self : ChecksumInstance) : list Z :=
  to_le_bytes 4 (crc32le_finish_send (crc self)) ++ to_le_bytes 4 (crc32le_finish_send (crc_snb self)).
(** The copies into arrays of four bytes panic for other lengths. *)
Definition finish_receive {B : Build} (self : ChecksumInstance) (expected_checksum : list Z) : res bool :=
  let! _ := debug_assert (Z.of_nat (length expected_checksum) =? CHECKSUM_LEN) in
  if (length expected_checksum =? 8)%nat then
    let expected_crc := from_le_bytes (take 4 expected_checksum) in
    let expected_crc_snb := from_le_bytes (drop 4 expected_checksum) in
    Ok (crc32le_finish_receive (crc self) expected_crc && crc32le_finish_receive (crc_snb self) expected_crc_snb)
  else Panic.
End Data.

(** ** The shift register *)

Definition polynomial : Z := 0xedb88320.
Definition shift (r : Z) : Z := Z.lxor (Z.shiftr r 1) (if Z.testbit r 0 then polynomial else 0).
Fixpoint shifts (n : nat) (r : Z) : Z := match n with O => r | S n => shift (shifts n r) end.

Lemma shift_lxor a b : shift (Z.lxor a b) = Z.lxor (shift a) (shift b).
Proof.
  unfold shift. rewrite Z.shiftr_lxor, Z.lxor_spec. apply Z.bits_inj. intros i. rewrite !Z.lxor_spec.
  destruct (Z.testbit a 0), (Z.testbit b 0); cbn [xorb]; rewrite ?Z.bits_0;
    destruct (Z.testbit (Z.shiftr a 1) i), (Z.testbit (Z.shiftr b 1) i), (Z.testbit polynomial i); done.
Qed.
Lemma shifts_lxor n a b : shifts n (Z.lxor a b) = Z.lxor (shifts n a) (shifts n b).
Proof. induction n as [|n IH]; cbn; [done|]. by rewrite IH, shift_lxor. Qed.
Lemma shifts_add n m a : shifts (n + m) a = shifts n (shifts m a).
Proof. induction n as [|n IH]; cbn; [done|]. by rewrite IH. Qed.
Lemma shift_even h : shift (2 * h) = h.
Proof. unfold shift. rewrite Z.testbit_even_0, Z.lxor_0_r, Z.shiftr_div_pow2 by lia. rewrite Z.mul_comm. apply Z.div_mul. lia. Qed.
Lemma shifts_high n h : shifts n (Z.shiftl h (Z.of_nat n)) = h.
Proof.
  revert h. induction n as [|n IH]; intros h; [cbn; apply Z.shiftl_0_r|]. replace (S n) with (n + 1)%nat by lia. rewrite shifts_add.
  replace (Z.shiftl h (Z.of_nat (n + 1))) with (2 * Z.shiftl h (Z.of_nat n)).
  - cbn [shifts]. by rewrite shift_even, IH.
  - rewrite !Z.shiftl_mul_pow2, Nat2Z.inj_add, Z.pow_add_r by lia. lia.
Qed.

Lemma byte_split x : x = Z.lxor (Z.shiftl (Z.shiftr x 8) 8) (Z.land x 255).
Proof.
  apply Z.bits_inj'. intros i Hi. rewrite Z.lxor_spec, Z.land_spec. change 255 with (Z.ones 8). destruct (Z.lt_ge_cases i 8).
  - rewrite Z.shiftl_spec_low, Z.ones_spec_low by lia. by destruct (Z.testbit x i).
  - rewrite Z.shiftl_spec, Z.shiftr_spec, Z.ones_spec_high by lia. replace (i - 8 + 8) with i by lia. by destruct (Z.testbit x i).
Qed.

Lemma tables_correct b :
  0 ≤ b < 256 → shifts 8 b = Z.lxor (lut CRC32_LE_LUT_LN (Z.land b 15)) (lut CRC32_LE_LUT_HN (Z.land (Z.shiftr b 4) 15)).
Proof.
  intros Hb. apply Z.eqb_eq. revert b Hb.
  assert (forallb (λ n, let b := Z.of_nat n in shifts 8 b =? Z.lxor (lut CRC32_LE_LUT_LN (Z.land b 15)) (lut CRC32_LE_LUT_HN (Z.land (Z.shiftr b 4) 15)))
    (seq 0 256) = true) as H by by vm_compute.
  intros b Hb. rewrite forallb_forall in H. specialize (H (Z.to_nat b)). cbv zeta in H. rewrite Z2Nat.id in H by lia. apply H, in_seq. lia.
Qed.

Lemma update_byte_shifts c : update_byte c = shifts 8 c.
Proof.
  rewrite (byte_split c) at 2. rewrite shifts_lxor. pose proof (shifts_high 8 (Z.shiftr c 8)) as Hh. change (Z.of_nat 8) with 8 in Hh. rewrite Hh, tables_correct.
  - unfold update_byte. rewrite <-Z.lxor_assoc. f_equal; [f_equal|]; f_equal.
    + rewrite <-Z.land_assoc. done.
    + apply Z.bits_inj'. intros i Hi. rewrite !Z.land_spec, !Z.shiftr_spec, Z.land_spec by lia. change 15 with (Z.ones 4). change 255 with (Z.ones 8).
      rewrite !Z.testbit_ones_nonneg by lia. do 2 case Z.ltb_spec; intros; rewrite ?andb_true_r, ?andb_false_r; lia || done.
  - change 255 with (Z.ones 8). rewrite Z.land_ones by lia. apply Z.mod_pos_bound. lia.
Qed.

(** A little endian number as a sum without carries. *)
Lemma byte_cons b r : u8 b → 0 ≤ r → b + 256 * r = Z.lxor b (Z.shiftl r 8).
Proof.
  intros Hb Hr. replace (b + 256 * r) with (Z.lor b (Z.shiftl r 8)) by (rewrite lor_shiftl_add by (done || lia); lia).
  apply Z.bits_inj'. intros i Hi. rewrite Z.lxor_spec, Z.lor_spec. destruct (Z.lt_ge_cases i 8); [rewrite Z.shiftl_spec_low by lia; by destruct (Z.testbit b i)|].
  assert (Z.testbit b i = false) as ->; [|done]. destruct Hb. apply Z.testbit_false; [lia|]. rewrite Z.div_small; [done|]. split; [done|].
  apply Z.lt_le_trans with (2 ^ 8); [done|apply Z.pow_le_mono_r; lia].
Qed.

(** The register over a sequence of bytes. *)
Definition reference (c : Z) (data : list Z) : Z := foldl (λ c b, shifts 8 (Z.lxor c b)) c data.

Lemma reference_le c data : Forall u8 data → reference c data = shifts (8 * length data) (Z.lxor c (from_le_bytes data)).
Proof.
  unfold reference. intros H. revert c. induction H as [|b data Hb H IH]; intros c; cbn [foldl length from_le_bytes].
  - by rewrite Z.lxor_0_r.
  - rewrite IH. replace (8 * S (length data))%nat with (8 * length data + 8)%nat by lia. rewrite shifts_add. f_equal.
    rewrite byte_cons by (done || by apply from_le_bytes_bound). pose proof (shifts_high 8 (from_le_bytes data)) as Hh. change (Z.of_nat 8) with 8 in Hh.
    rewrite <-Z.lxor_assoc, (shifts_lxor 8 (Z.lxor c b)). by rewrite Hh.
Qed.

(** ** Correctness *)

Lemma update_u8_reference c b : crc32le_update_u8 c b = reference c [b].
Proof. unfold crc32le_update_u8, reference. cbn [foldl]. apply update_byte_shifts. Qed.

Lemma update_u32_reference c w : Forall u8 w → length w = 4%nat → crc32le_update_u32le c (from_le_bytes w) = reference c w.
Proof.
  intros Hw Hl. rewrite reference_le, Hl by done. unfold crc32le_update_u32le. cbn [Nat.iter nat_rect]. rewrite !update_byte_shifts.
  rewrite <-!shifts_add. done.
Qed.

Lemma reference_app c l l' : reference c (l ++ l') = reference (reference c l) l'.
Proof. apply foldl_app. Qed.

Lemma bytes_reference c l : foldl crc32le_update_u8 c l = reference c l.
Proof. revert c. induction l as [|b l IH]; intros c; cbn [foldl]; [done|]. rewrite IH, update_u8_reference. done. Qed.

(** Updates with words and bytes are updates with the bytes of the slice. *)
Lemma words_fold (f g : Z → Z → Z) :
  (∀ c w, Forall u8 w → length w = 4%nat → g c (from_le_bytes w) = foldl f c w) →
  ∀ n l c, Forall u8 l → foldl f (foldl g c (words n l).1) (words n l).2 = foldl f c l.
Proof.
  intros Hg. induction n as [|n IH]; intros l c Hl; cbn [words]; [done|]. destruct (Nat.leb_spec 4 (length l)); [|done].
  specialize (IH (drop 4 l)). destruct (words n (drop 4 l)) as [ws t]. cbn [fst snd foldl] in *. rewrite IH by by apply Forall_drop.
  rewrite Hg by (by apply Forall_take || (rewrite length_take; lia)). by rewrite <-foldl_app, take_drop.
Qed.

Lemma align_to_fold {A : Alignment} (f g : Z → Z → Z) c data :
  (∀ c w, Forall u8 w → length w = 4%nat → g c (from_le_bytes w) = foldl f c w) → Forall u8 data →
  (let '(head, middle, tail) := align_to data in foldl f (foldl g (foldl f c head) middle) tail) = foldl f c data.
Proof.
  intros Hg Hd. unfold align_to. pose proof (words_fold f g Hg (length data) (drop (align_head data) data) (foldl f c (take (align_head data) data))
    (Forall_drop _ _ _ Hd)) as H. destruct (words _ _) as [ws t]. cbn in H. by rewrite H, <-foldl_app, take_drop.
Qed.

Lemma update_data_reference {A : Alignment} c data : Forall u8 data → crc32le_update_data c data = reference c data.
Proof.
  intros Hd. rewrite <-bytes_reference. apply (align_to_fold crc32le_update_u8 crc32le_update_u32le); [|done].
  intros c' w Hw Hl. by rewrite update_u32_reference, bytes_reference.
Qed.

(** Swapping the neighbouring bits of a word swaps those of its bytes. *)
Lemma all_bytes (p : Z → bool) : forallb (λ n, p (Z.of_nat n)) (seq 0 256) = true → ∀ b, u8 b → p b = true.
Proof.
  intros H b [Hb Hb']. rewrite forallb_forall in H. specialize (H (Z.to_nat b)). rewrite Z2Nat.id in H by lia. apply H, in_seq.
  change (2 ^ 8) with 256 in Hb'. lia.
Qed.

Lemma snb_u32_lxor a b : 0 ≤ a → 0 ≤ b → snb_u32 (Z.lxor a b) = Z.lxor (snb_u32 a) (snb_u32 b).
Proof.
  intros Ha Hb. unfold snb_u32, wrap. rewrite <-!Z.land_ones by lia. apply Z.bits_inj'. intros i Hi.
  rewrite !Z.lxor_spec, !Z.land_spec, !Z.lxor_spec, !Z.shiftr_spec by lia. rewrite !Z.lxor_spec.
  destruct (Z.eq_dec i 0) as [->|].
  - rewrite !Z.shiftl_spec_low by lia. destruct (Z.testbit a 0), (Z.testbit b 0), (Z.testbit a (0 + 1)), (Z.testbit b (0 + 1)); reflexivity.
  - rewrite !Z.shiftl_spec, !Z.land_spec, !Z.lxor_spec, !Z.shiftr_spec by lia. rewrite !Z.lxor_spec. replace (i - 1 + 1) with i by lia.
    destruct (Z.testbit a i), (Z.testbit b i), (Z.testbit a (i + 1)), (Z.testbit b (i + 1)), (Z.testbit a (i - 1)), (Z.testbit b (i - 1)),
      (Z.testbit 1431655765 i), (Z.testbit 1431655765 (i - 1)), (Z.testbit (Z.ones 32) i); reflexivity.
Qed.

Lemma snb_u32_byte k b : k ∈ [0; 8; 16; 24] → u8 b → snb_u32 (Z.shiftl b k) = Z.shiftl (snb_u8 b) k.
Proof.
  intros Hk Hb. apply Z.eqb_eq. revert b Hb. apply all_bytes. repeat (apply elem_of_cons in Hk as [->|Hk]; [by vm_compute|]). by apply not_elem_of_nil in Hk.
Qed.
Lemma snb_u8_byte b : u8 b → u8 (snb_u8 b).
Proof.
  intros Hb. assert ((0 <=? snb_u8 b) && (snb_u8 b <? 256) = true) as [?%Z.leb_le ?%Z.ltb_lt]%andb_true_iff; [|by split].
  revert b Hb. apply (all_bytes (λ b, (0 <=? snb_u8 b) && (snb_u8 b <? 256))). by vm_compute.
Qed.

(** The bytes of a word as disjoint summands. *)
Lemma word_bytes a b c d : Forall u8 [a; b; c; d] →
  from_le_bytes [a; b; c; d] = Z.lxor (Z.shiftl a 0) (Z.lxor (Z.shiftl b 8) (Z.lxor (Z.shiftl c 16) (Z.shiftl d 24))).
Proof.
  intros H. pose proof (from_le_bytes_bound _ H) as Hx. rewrite !Forall_cons in H. destruct H as (Ha & Hb & Hc & Hd & _).
  cbn [from_le_bytes]. rewrite Z.mul_0_r, Z.add_0_r, Z.shiftl_0_r.
  pose proof (proj1 Ha). pose proof (proj1 Hb). pose proof (proj1 Hc). pose proof (proj1 Hd).
  rewrite (byte_cons a (b + 256 * (c + 256 * d))), (byte_cons b (c + 256 * d)), (byte_cons c d) by (done || lia).
  rewrite !Z.shiftl_lxor, !Z.shiftl_shiftl by lia. done.
Qed.

Lemma snb_u32_bytes w : Forall u8 w → length w = 4%nat → snb_u32 (from_le_bytes w) = from_le_bytes (snb_u8 <$> w).
Proof.
  intros Hw. destruct w as [|a [|b [|c [|d [|]]]]]; try done. intros _. cbn [fmap list_fmap].
  rewrite !word_bytes by (done || (rewrite !Forall_cons in *; naive_solver (auto using snb_u8_byte))).
  rewrite !Forall_cons in Hw. destruct Hw as (Ha & Hb & Hc & Hd & _).
  pose proof (proj1 Ha). pose proof (proj1 Hb). pose proof (proj1 Hc). pose proof (proj1 Hd).
  rewrite !snb_u32_lxor by (rewrite ?Z.lxor_nonneg, ?Z.shiftl_nonneg; tauto || lia).
  by rewrite !snb_u32_byte by (done || set_solver).
Qed.

Lemma foldl_fmap_snb c l : foldl crc32le_update_u8_snb c l = reference c (snb_u8 <$> l).
Proof.
  revert c. induction l as [|b l IH]; intros c; cbn [foldl fmap list_fmap]; [done|]. rewrite IH. change (snb_u8 b :: (snb_u8 <$> l)) with ([snb_u8 b] ++ (snb_u8 <$> l)).
  rewrite reference_app. f_equal. apply update_u8_reference.
Qed.
Lemma snb_bytes l : Forall u8 l → Forall u8 (snb_u8 <$> l).
Proof. intros. apply Forall_fmap. eapply Forall_impl; [done|]. intros b. apply snb_u8_byte. Qed.

Lemma update_data_snb_reference {A : Alignment} c data : Forall u8 data → crc32le_update_data_snb c data = reference c (snb_u8 <$> data).
Proof.
  intros Hd. rewrite <-foldl_fmap_snb. apply (align_to_fold crc32le_update_u8_snb crc32le_update_u32le_snb); [|done].
  intros c' w Hw Hl. unfold crc32le_update_u32le_snb. rewrite snb_u32_bytes by done.
  rewrite update_u32_reference by (by apply snb_bytes || by rewrite length_fmap). by rewrite foldl_fmap_snb.
Qed.

Lemma update_u32_bytes c x : in_u 32 x → crc32le_update_u32le c x = reference c (to_le_bytes 4 x).
Proof. intros. rewrite <-update_u32_reference by (apply to_le_bytes_u8 || apply length_to_le_bytes). by rewrite from_to_le_bytes. Qed.
Lemma update_u32_snb_bytes c x : in_u 32 x → crc32le_update_u32le_snb c x = reference c (snb_u8 <$> to_le_bytes 4 x).
Proof.
  intros. unfold crc32le_update_u32le_snb. rewrite <-(from_to_le_bytes 4 x) at 1 by done.
  rewrite snb_u32_bytes by (apply to_le_bytes_u8 || apply length_to_le_bytes). rewrite update_u32_reference; [done|apply snb_bytes, to_le_bytes_u8|].
  by rewrite length_fmap, length_to_le_bytes.
Qed.
Lemma u64_words x : in_u 64 x → to_le_bytes 8 x = to_le_bytes 4 (wrap 32 x) ++ to_le_bytes 4 (wrap 32 (Z.shiftr x 32)).
Proof.
  intros [Hx Hx']. change (to_le_bytes 8 x) with (to_le_bytes (4 + 4) x). rewrite to_le_bytes_app by done. rewrite (wrap_small 32 (Z.shiftr x 32)).
  - by rewrite Z.shiftr_div_pow2 by lia.
  - rewrite Z.shiftr_div_pow2 by lia. split; [apply Z.div_pos; lia|apply Z.div_lt_upper_bound; lia].
Qed.

(** *** What a checksum detects *)

Lemma shift_in_u r : in_u 32 r → in_u 32 (shift r).
Proof.
  intros [Hr Hr']. unfold shift. apply lxor_in_u; [lia| |by destruct (Z.testbit r 0)]. split; [by apply Z.shiftr_nonneg|].
  rewrite Z.shiftr_div_pow2 by lia. apply Z.div_lt_upper_bound; lia.
Qed.

Lemma shift_zero x : in_u 32 x → shift x = 0 → x = 0.
Proof.
  intros [Hx Hx'] H. unfold shift in H. apply Z.lxor_eq in H. rewrite Z.shiftr_div_pow2 in H by lia. change (2 ^ 1) with 2 in H.
  assert (x = 2 * (x / 2) + Z.b2z (Z.testbit x 0)) as Hd by (rewrite Z.bit0_odd; pose proof (Z.div_mod x 2 ltac:(lia)); rewrite Zmod_odd in *; destruct (Z.odd x); cbn; lia).
  destruct (Z.testbit x 0); cbn [Z.b2z] in Hd; unfold polynomial in H; lia.
Qed.
Lemma shift_inj a b : in_u 32 a → in_u 32 b → shift a = shift b → a = b.
Proof.
  intros Ha Hb E. apply Z.lxor_eq, shift_zero; [|rewrite shift_lxor, E; apply Z.lxor_nilpotent]. by apply lxor_in_u.
Qed.

Lemma shifts_in_u n c : in_u 32 c → in_u 32 (shifts n c).
Proof. intros Hc. induction n; cbn [shifts]; auto using shift_in_u. Qed.
Lemma shifts_inj n a b : in_u 32 a → in_u 32 b → shifts n a = shifts n b → a = b.
Proof.
  intros Ha Hb. induction n as [|n IH]; cbn [shifts]; [done|]. intros E. apply IH, shift_inj; auto using shifts_in_u.
Qed.
Lemma reference_in_u c l : in_u 32 c → Forall u8 l → in_u 32 (reference c l).
Proof.
  unfold reference. intros Hc Hl. revert c Hc. induction Hl as [|b l [? ?] _ IH]; intros c Hc; cbn [foldl]; [done|]. apply IH.
  apply shifts_in_u, lxor_in_u; [lia|done|]. split; lia.
Qed.
Lemma reference_inj c c' l : in_u 32 c → in_u 32 c' → Forall u8 l → reference c l = reference c' l → c = c'.
Proof.
  unfold reference. intros Hc Hc' Hl. revert c c' Hc Hc'. induction Hl as [|b l Hb Hl IH]; intros c c' Hc Hc' E; cbn [foldl] in E; [done|].
  assert (∀ c, in_u 32 c → in_u 32 (Z.lxor c b)) as Hx by (intros; destruct Hb; apply lxor_in_u; [lia|done|]; split; lia).
  apply IH in E; [|apply shifts_in_u; auto..].
  apply shifts_inj in E; [|auto..]. apply (f_equal (λ x, Z.lxor x b)) in E. by rewrite !Z.lxor_assoc, Z.lxor_nilpotent, !Z.lxor_0_r in E.
Qed.

(** A difference within four bytes makes a difference to the register. *)
Lemma reference_burst c p w w' s :
  in_u 32 c → Forall u8 p → Forall u8 w → Forall u8 w' → Forall u8 s → length w = length w' → (length w ≤ 4)%nat →
  reference c (p ++ w ++ s) = reference c (p ++ w' ++ s) → w = w'.
Proof.
  intros Hc Hp Hw Hw' Hs Hl H4 E. rewrite !reference_app in E. pose proof (reference_in_u c p Hc Hp) as Hr.
  apply reference_inj in E; [|by apply reference_in_u..|done]. rewrite (reference_le _ w), (reference_le _ w'), Hl in E by done.
  assert (∀ w, Forall u8 w → (length w ≤ 4)%nat → in_u 32 (from_le_bytes w)) as Hb.
  { intros l Hll Hle. pose proof (from_le_bytes_bound l Hll). split; [lia|]. change (2 ^ 32) with (256 ^ 4).
    apply Z.lt_le_trans with (256 ^ Z.of_nat (length l)); [lia|apply Z.pow_le_mono_r; lia]. }
  apply shifts_inj in E; [|apply lxor_in_u; [lia|done|apply Hb; (done || lia)]..].
  apply (f_equal (Z.lxor (reference c p))) in E. rewrite <-!Z.lxor_assoc, !Z.lxor_nilpotent, !Z.lxor_0_l in E.
  rewrite <-(to_from_le_bytes w), <-(to_from_le_bytes w'), Hl by done. by rewrite E.
Qed.

Lemma snb_u8_inj a b : u8 a → u8 b → snb_u8 a = snb_u8 b → a = b.
Proof.
  intros Ha Hb E. assert (∀ x, u8 x → snb_u8 (snb_u8 x) = x) as H.
  { intros x Hx. apply Z.eqb_eq. revert x Hx. apply all_bytes. by vm_compute. }
  by rewrite <-(H a), <-(H b), E.
Qed.

Definition checksum_wf (self : ChecksumInstance) : Prop := in_u 32 (crc self) ∧ in_u 32 (crc_snb self).

Lemma checksum_new_wf : checksum_wf checksum_new.
Proof. by split; vm_compute. Qed.

Section Checksums.
Context {B : Build}.

(** What the checksum of a sequence of slices is. *)
Definition checksum_of (data : list Z) : ChecksumInstance :=
  mk_checksum (reference crc32le_init data) (reference crc32le_init (snb_u8 <$> data)).

Lemma checksum_update_of {A : Alignment} l data :
  Forall u8 data → checksum_update (checksum_of l) data = checksum_of (l ++ data).
Proof.
  intros Hd. unfold checksum_update, checksum_of. cbn [crc crc_snb]. by rewrite update_data_reference, update_data_snb_reference, fmap_app, !reference_app.
Qed.
Lemma checksum_updates {A : Alignment} slices :
  Forall (Forall u8) slices → foldl checksum_update checksum_new slices = checksum_of (mjoin slices).
Proof.
  intros H. change checksum_new with (checksum_of []). change (mjoin slices) with ([] ++ mjoin slices). generalize ([] : list Z). revert H.
  induction 1 as [|d slices Hd H IH]; intros l; cbn [foldl]; [by rewrite app_nil_r|]. rewrite checksum_update_of, IH by done.
  change (mjoin (d :: slices)) with (d ++ mjoin slices). by rewrite app_assoc.
Qed.
Lemma checksum_of_wf data : Forall u8 data → checksum_wf (checksum_of data).
Proof. intros. split; apply reference_in_u; [apply checksum_new_wf|done|apply checksum_new_wf|by apply snb_bytes]. Qed.

Lemma finish_receive_send self self' :
  checksum_wf self → checksum_wf self' →
  finish_receive self (finish_send self') = Ok (bool_decide (crc self = crc self' ∧ crc_snb self = crc_snb self')).
Proof.
  intros [H1 H2] [H1' H2']. unfold finish_receive, finish_send. rewrite length_app, !length_to_le_bytes. change (Z.of_nat (4 + 4) =? CHECKSUM_LEN) with true. ostep.
  cbn [Nat.add Nat.eqb]. rewrite take_app_length', drop_app_length' by by rewrite length_to_le_bytes.
  unfold crc32le_finish_receive, crc32le_finish_send.
  rewrite !from_to_le_bytes by (change (256 ^ Z.of_nat 4) with (2 ^ 32); apply unot_in_u; (done || lia)). f_equal. apply eq_true_iff_eq.
  rewrite andb_true_iff, !Z.eqb_eq, bool_decide_eq_true.
  assert (∀ x y, in_u 32 x → in_u 32 y → unot 32 x = unot 32 y ↔ x = y) as Hn; [|by rewrite !Hn].
  intros x y Hx Hy. split; [|by intros ->]. rewrite !unot_spec by (done || lia). lia.
Qed.

(** C22: for any alignment of the slice, the update by words and tables is that of the
    shift register that takes one bit at a time, of the bytes as they are or with
    neighbouring bits swapped; an update with an integer is one with its bytes. *)
Theorem crc_update_correct {A : Alignment} c data x :
  Forall u8 data → in_u 64 x →
  crc32le_update_data c data = reference c data ∧
  crc32le_update_data_snb c data = reference c ((λ b, Z.lor (Z.shiftl (Z.land b 0x55) 1) (Z.land (Z.shiftr b 1) 0x55)) <$> data) ∧
  crc32le_update_u64le c x = reference c (to_le_bytes 8 x) ∧
  crc32le_update_u64le_snb c x = reference c (snb_u8 <$> to_le_bytes 8 x).
Proof.
  intros Hd [Hx Hx']. split_and!; [by apply update_data_reference|..].
  - rewrite update_data_snb_reference by done. f_equal. apply list_fmap_ext. intros i b Hb. apply (Forall_lookup_1 _ _ _ _ Hd) in Hb.
    apply Z.eqb_eq. revert b Hb. apply all_bytes. by vm_compute.
  - unfold crc32le_update_u64le. rewrite !update_u32_bytes by (apply wrap_in_u; lia). by rewrite <-reference_app, <-u64_words.
  - unfold crc32le_update_u64le_snb. rewrite !update_u32_snb_bytes by (apply wrap_in_u; lia). by rewrite <-reference_app, <-fmap_app, <-u64_words.
Qed.

(** C21: a checksum is accepted for the data that it was made of, however both are
    divided into slices and aligned, and it is not accepted for data in which four or
    fewer consecutive bytes are others. *)
Theorem checksum_correct (A A' : Alignment) slices slices' data p w w' s :
  Forall (Forall u8) slices → Forall (Forall u8) slices' → mjoin slices = p ++ w ++ s → mjoin slices' = p ++ w' ++ s →
  length w = length w' → (length w ≤ 4)%nat → data = finish_send (foldl (checksum_update (A:=A)) checksum_new slices) →
  finish_receive (foldl (checksum_update (A:=A')) checksum_new slices') data = Ok (bool_decide (w = w')).
Proof.
  intros Hs Hs' E E' Hl H4 ->. rewrite !checksum_updates by done. rewrite E, E'.
  assert (Forall u8 (p ++ w ++ s)) as H by (rewrite <-E; by apply Forall_join).
  assert (Forall u8 (p ++ w' ++ s)) as H' by (rewrite <-E'; by apply Forall_join).
  rewrite finish_receive_send by by apply checksum_of_wf. f_equal. apply bool_decide_ext. rewrite !Forall_app in H, H'. split.
  - intros [Hc _]. cbn in Hc. symmetry. by apply (reference_burst crc32le_init p w' w s); [exact (proj1 checksum_new_wf)|tauto..|lia|lia|].
  - by intros ->.
Qed.
End Checksums.

(** *** Instances *)

Lemma crc_update_correct_witness :
  crc32le_update_data (A:=λ _, 3%nat) crc32le_init [0xde; 0xcd; 0xbc; 0xab; 0x12; 0x01; 0xf0; 0xef; 0xde; 0xcd; 0xbc; 0xab; 0x23] =
  reference crc32le_init [0xde; 0xcd; 0xbc; 0xab; 0x12; 0x01; 0xf0; 0xef; 0xde; 0xcd; 0xbc; 0xab; 0x23].
Proof.
  apply (crc_update_correct (A:=λ _, 3%nat) crc32le_init [0xde; 0xcd; 0xbc; 0xab; 0x12; 0x01; 0xf0; 0xef; 0xde; 0xcd; 0xbc; 0xab; 0x23] 0).
  - by repeat constructor.
  - done.
Defined.

Lemma checksum_correct_witness :
  finish_receive (B:=debug_build) (foldl (checksum_update (A:=λ _, 0%nat)) checksum_new [[1; 2]; [3; 5; 0; 7]])
    (finish_send (checksum_update (A:=λ _, 1%nat) checksum_new [1; 2; 3; 4; 6; 7])) = Ok false.
Proof.
  apply (checksum_correct (B:=debug_build) (λ _, 1%nat) (λ _, 0%nat) [[1; 2; 3; 4; 6; 7]] [[1; 2]; [3; 5; 0; 7]] _ [1; 2; 3] [4; 6] [5; 0] [7]);
    (done || lia || by repeat constructor).
Defined.

End Crc32.
