(* ===== verification/Integrity.v ===== *)
(** * Integrity protections of extents (storage/src/fs/cocoonfs/integrity.rs)

    An extent that is rewritten in place is protected such that a torn write is
    detected: the first 128 bytes are made non-zero with a mask (tier 0), and a commit
    identifier is written before each power of two boundary of the first IO block,
    after the data there has been saved (tier 1).  The buffers of an extent are taken
    as the sequence of their bytes. *)

From S2P Require Import Prelude Errors Layout ImageLayout Crc32.
Import Errors Layout ImageLayout Crc32.

Module Integrity.

(** ** Bytes of an extent *)

Section Access.
Context {B : Build}.

(** [skip] and [take_exact] fail with [nvfs_err_internal] at the end of the buffers. *)
Definition read_at (extent : list Z) (at_ len : Z) : res (list Z) :=
  if at_ + len <=? Z.of_nat (length extent) then Ok (take (Z.to_nat len) (drop (Z.to_nat at_) extent)) else err_internal.
Definition write_at (extent : list Z) (at_ : Z) (bytes : list Z) : res (list Z) :=
  if at_ + Z.of_nat (length bytes) <=? Z.of_nat (length extent) then
    Ok (take (Z.to_nat at_) extent ++ bytes ++ drop (Z.to_nat at_ + length bytes) extent)
  else err_internal.
Definition map_at (extent : list Z) (at_ len : Z) (f : Z → Z) : res (list Z) :=
  let! region := read_at extent at_ len in
  write_at extent at_ (f <$> region).
End Access.

(** ** State *)

Record ExtentTier0IntegrityState := mk_tier0 {
  commit_id : list Z;
  xor_mask : Z;
  is_valid : bool;
  need_clear_tier0 : bool;
}.

(** The tails of a commit identifier are its first and its last byte. *)
Record ExtentIntegrityState := mk_state {
  tier0_need_clear : bool;
  tier1_need_clear : bool;
  need_clear_for_coherence : bool;
  last_commit_ids_tails : (Z * Z) * (Z * Z);
}.

Section Ops.
Context {B : Build} {P : Platform} {A : Alignment}.

Definition extent_integrity_protections_len (io_block_allocation_blocks_log2 allocation_block_size_128b_log2 : Z) : res Z :=
  let! n := uadd 32 io_block_allocation_blocks_log2 allocation_block_size_128b_log2 in
  let! n := umul 32 n CHECKSUM_LEN in
  uadd 32 (CHECKSUM_LEN + 1) n.

(** The commit identifier and the mask are within the first 128 bytes. *)
Definition check_offsets (extent_head_skip integrity_protections_offset : Z) : res unit :=
  if 128 - CHECKSUM_LEN - 1 <? extent_head_skip then err_internal
  else if 128 - extent_head_skip - CHECKSUM_LEN - 1 <? integrity_protections_offset then err_internal
  else Ok tt.

(** *** Tier 0 *)

Definition any_zero (region : list Z) : bool := existsb (Z.eqb 0) region.
Definition all_zero (region : list Z) : bool := forallb (Z.eqb 0) region.

Definition extent_tier0_integrity_protection_verify (extent : list Z) (extent_head_skip integrity_protections_offset : Z)
    : res ExtentTier0IntegrityState :=
  let! _ := check_offsets extent_head_skip integrity_protections_offset in
  let! _ := read_at extent extent_head_skip 0 in
  let at_ := extent_head_skip in
  let! region := read_at extent at_ integrity_protections_offset in
  let zero := any_zero region in
  let nonzero := negb (all_zero region) in
  let at_ := at_ + integrity_protections_offset in
  let! commit_id := read_at extent at_ CHECKSUM_LEN in
  let zero := zero || any_zero commit_id in
  let nonzero := nonzero || negb (all_zero commit_id) in
  let at_ := at_ + CHECKSUM_LEN in
  let! mask := read_at extent at_ 1 in
  let xor_mask := nth 0 mask 0 in
  let zero := zero || (xor_mask =? 0) in
  let nonzero := nonzero || negb (xor_mask =? 0) in
  let at_ := at_ + 1 in
  let! region := read_at extent at_ (128 - extent_head_skip - integrity_protections_offset - CHECKSUM_LEN - 1) in
  let zero := zero || any_zero region in
  let nonzero := nonzero || negb (all_zero region) in
  Ok (mk_tier0 commit_id xor_mask (negb zero) nonzero).

(** The extent after the call, besides the result. *)
Definition extent_tier0_integrity_protection_verify_and_remove (extent : list Z) (extent_head_skip integrity_protections_offset : Z)
    : res (bool * ExtentTier0IntegrityState * list Z) :=
  let! _ := check_offsets extent_head_skip integrity_protections_offset in
  let! state := extent_tier0_integrity_protection_verify extent extent_head_skip integrity_protections_offset in
  if negb (is_valid state) then Ok (false, state, extent)
  else
    let! _ := read_at extent extent_head_skip 0 in
    let at_ := extent_head_skip in
    let! extent := map_at extent at_ integrity_protections_offset (λ b, Z.lxor b (xor_mask state)) in
    let at_ := at_ + integrity_protections_offset in
    let! extent := map_at extent at_ (CHECKSUM_LEN + 1) (λ _, 0) in
    let at_ := at_ + CHECKSUM_LEN + 1 in
    let! extent := map_at extent at_ (128 - extent_head_skip - integrity_protections_offset - CHECKSUM_LEN - 1) (λ b, Z.lxor b (xor_mask state)) in
    Ok (true, state, extent).

(** [find_distinct_u8_value]: the values are counted by their upper half, and those
    with a certain upper half by their lower half. *)
Fixpoint count_prefixes (c : list Z) (values : list Z) : res (list Z) :=
  match values with
  | [] => Ok c
  | v :: values =>
      let! n := idx c (Z.to_nat (Z.shiftr v 4)) in
      let! n := uadd 8 n 1 in
      count_prefixes (<[Z.to_nat (Z.shiftr v 4) := n]> c) values
  end.
Fixpoint count_suffixes (h : Z) (c : list Z) (values : list Z) : res (list Z) :=
  match values with
  | [] => Ok c
  | v :: values =>
      if Z.shiftr v 4 =? h then
        let! n := idx c (Z.to_nat (Z.land v 0xf)) in
        let! n := uadd 8 n 1 in
        count_suffixes h (<[Z.to_nat (Z.land v 0xf) := n]> c) values
      else count_suffixes h c values
  end.
(** The first slot with a property, or the number of slots. *)
Fixpoint first_slot (p : Z → bool) (c : list Z) : Z :=
  match c with [] => 0 | n :: c => if p n then 0 else 1 + first_slot p c end.

Definition find_distinct_u8_value (values : list Z) : res Z :=
  let! c := count_prefixes (replicate 16 0) values in
  let h := first_slot (λ n, n <? 16) c in
  let! _ := debug_assert (h <? 16) in
  let c := replicate 16 0 in
  let c := if h =? 0 then <[0%nat := 1]> c else c in
  let! c := count_suffixes h c values in
  let l := first_slot (λ n, n =? 0) c in
  let! _ := debug_assert (l <? 16) in
  let! high := ushl 8 h 4 in
  Ok (Z.lor high l).

Definition extent_tier0_integrity_protection_apply (extent : list Z) (extent_head_skip integrity_protections_offset : Z) (checksum : list Z)
    (last_commit_ids_tails : (Z * Z) * (Z * Z)) : res (list Z * list Z) :=
  let! _ := check_offsets extent_head_skip integrity_protections_offset in
  let! _ := read_at extent extent_head_skip 0 in
  let! region := read_at extent extent_head_skip (128 - extent_head_skip) in
  let region0 := take (Z.to_nat integrity_protections_offset) region in
  let region1 := drop (Z.to_nat (integrity_protections_offset + CHECKSUM_LEN + 1)) region in
  let '((t00, t01), (t10, t11)) := last_commit_ids_tails in
  let t00 := Z.lxor t00 (nth 0 checksum 0) in
  let t10 := Z.lxor t10 (nth 0 checksum 0) in
  let t01 := Z.lxor t01 (nth 7 checksum 0) in
  let t11 := Z.lxor t11 (nth 7 checksum 0) in
  let! xor_mask := find_distinct_u8_value (region0 ++ region1 ++ checksum ++ [t00; t01] ++ [t10; t11]) in
  let at_ := extent_head_skip in
  let! extent := map_at extent at_ integrity_protections_offset (λ b, Z.lxor b xor_mask) in
  let at_ := at_ + integrity_protections_offset in
  let commit_id := (λ b, Z.lxor b xor_mask) <$> checksum in
  let! _ := debug_assert (negb (nth 0 commit_id 0 =? t00)) in
  let! _ := debug_assert (negb (nth 0 commit_id 0 =? t10)) in
  let! _ := debug_assert (negb (nth 7 commit_id 0 =? t01)) in
  let! _ := debug_assert (negb (nth 7 commit_id 0 =? t11)) in
  let! extent := write_at extent at_ commit_id in
  let at_ := at_ + CHECKSUM_LEN in
  let! extent := write_at extent at_ [xor_mask] in
  let at_ := at_ + 1 in
  let! extent := map_at extent at_ (128 - extent_head_skip - integrity_protections_offset - CHECKSUM_LEN - 1) (λ b, Z.lxor b xor_mask) in
  Ok (commit_id, extent).

(** *** [ExtentIntegrityState] *)

Definition new_indeterminate : ExtentIntegrityState := mk_state true true true ((255, 255), (255, 255)).
Definition new_clean : ExtentIntegrityState := mk_state false false false ((0, 0), (0, 0)).

Definition last_commit_ids_tails_has_free_slot (self : ExtentIntegrityState) : bool := bool_decide ((last_commit_ids_tails self).2 = (0, 0)).

Definition need_clear (self : ExtentIntegrityState) (_extent_head_skip integrity_protections_offset blkdev_io_block_size_128b_log2 : Z) : res bool :=
  if need_clear_for_coherence self then
    let! _ := debug_assert (tier0_need_clear self) in
    Ok true
  else if negb (tier0_need_clear self) then
    let! _ := debug_assert (last_commit_ids_tails_has_free_slot self) in
    Ok false
  else if tier1_need_clear self then Ok true
  else if blkdev_io_block_size_128b_log2 =? 0 then Ok true
  else if negb (integrity_protections_offset =? 0) then Ok true
  else Ok false.

Definition tier0_need_clear_checked (self : ExtentIntegrityState) : res bool :=
  let! _ := debug_assert (tier0_need_clear self || negb (need_clear_for_coherence self)) in
  Ok (tier0_need_clear self).

Definition record_clear (self : ExtentIntegrityState) : ExtentIntegrityState := mk_state false false false ((0, 0), (0, 0)).

Definition record_failed_write (self torn_integrity_state : ExtentIntegrityState) : res ExtentIntegrityState :=
  let! _ := debug_assert (last_commit_ids_tails_has_free_slot torn_integrity_state) in
  if last_commit_ids_tails_has_free_slot self then
    Ok (mk_state true (tier1_need_clear self) true ((last_commit_ids_tails self).1, (last_commit_ids_tails torn_integrity_state).1))
  else Ok (mk_state true true true (last_commit_ids_tails self)).

(** *** Tier 1 *)

Definition tails (id : list Z) : Z * Z := (nth 0 id 0, nth 7 id 0).

Definition extent_tier1_integrity_protection_determine_state (extent : list Z) (extent_head_skip integrity_protections_offset : Z)
    (extent_tier0_integrity_state : ExtentTier0IntegrityState)
    (io_block_allocation_blocks_log2 allocation_block_size_128b_log2 blkdev_io_block_size_128b_log2 : Z) : res ExtentIntegrityState :=
  let! _ := check_offsets extent_head_skip integrity_protections_offset in
  let primary := tails (commit_id extent_tier0_integrity_state) in
  let coherence := is_valid extent_tier0_integrity_state in
  let! _ := debug_assert (bool_decide (primary ≠ (0, 0)) || negb (is_valid extent_tier0_integrity_state)) in
  let! _ := debug_check (let! n := uadd 32 io_block_allocation_blocks_log2 allocation_block_size_128b_log2 in Ok (blkdev_io_block_size_128b_log2 <=? n)) in
  if negb (blkdev_io_block_size_128b_log2 =? 0) then
    let! t := uadd 32 blkdev_io_block_size_128b_log2 7 in
    let! t := ushl usize_bits 1 t in
    let! t := usub usize_bits t CHECKSUM_LEN in
    let! checkpoint_location_marker := read_at extent t CHECKSUM_LEN in
    let checkpoint := tails checkpoint_location_marker in
    if bool_decide (primary = (0, 0)) then
      let! _ := debug_assert (negb (is_valid extent_tier0_integrity_state)) in
      let! _ := debug_assert (negb coherence) in
      Ok (mk_state (need_clear_tier0 extent_tier0_integrity_state) false coherence (checkpoint, (0, 0)))
    else if bool_decide (primary = checkpoint) then
      Ok (mk_state (need_clear_tier0 extent_tier0_integrity_state) false coherence (primary, (0, 0)))
    else Ok (mk_state (need_clear_tier0 extent_tier0_integrity_state) false false (primary, checkpoint))
  else Ok (mk_state (need_clear_tier0 extent_tier0_integrity_state) false coherence (primary, (0, 0))).

(** Where the data of the checkpoint locations is saved; the sums of the sizes are
    of type [u8]. *)
Definition checkpoint_locations_data_save_area (extent_head_skip integrity_protections_offset io_block_allocation_blocks_log2
    allocation_block_size_128b_log2 : Z) : res (Z * Z) :=
  let begin := extent_head_skip + integrity_protections_offset + CHECKSUM_LEN + 1 in
  let! _ := debug_assert (begin <=? 128) in
  let! _ := debug_check (let! n := uadd 32 io_block_allocation_blocks_log2 allocation_block_size_128b_log2 in Ok (n <? usize_bits - 7)) in
  let! n := uadd 8 io_block_allocation_blocks_log2 allocation_block_size_128b_log2 in
  let! len := umul usize_bits n CHECKSUM_LEN in
  let! end_ := uadd usize_bits begin len in
  let! _ := debug_check (let! n := uadd 8 n 7 in let! size := ushl usize_bits 1 n in Ok (end_ <=? size)) in
  Ok (begin, len).

Definition save_area_entry_begin (area_begin i : Z) : Z := area_begin + CHECKSUM_LEN * (i - 1).
Definition checkpoint_location_end (i : Z) : res Z := let! t := uadd 32 i 7 in ushl usize_bits 1 t.

Fixpoint restore_checkpoint_locations (is_ : list Z) (commit_id : list Z) (area_begin : Z) (extent : list Z) : res (bool * list Z) :=
  match is_ with
  | [] => Ok (true, extent)
  | i :: is_ =>
      let entry_begin := save_area_entry_begin area_begin i in
      let! location_end := checkpoint_location_end i in
      let! checkpoint_location_data := read_at extent entry_begin CHECKSUM_LEN in
      let! extent := map_at extent entry_begin CHECKSUM_LEN (λ _, 0) in
      let! t := usub usize_bits location_end CHECKSUM_LEN in
      let! skip := usub usize_bits t entry_begin in
      let! checkpoint_location_marker := read_at extent (entry_begin + skip) CHECKSUM_LEN in
      if bool_decide (checkpoint_location_marker ≠ commit_id) then Ok (false, extent)
      else
        let! extent := write_at extent (entry_begin + skip) checkpoint_location_data in
        restore_checkpoint_locations is_ commit_id area_begin extent
  end.

(** [1..=n]. *)
Definition upto (n : Z) : list Z := Z.of_nat <$> seq 1 (Z.to_nat n).

Definition extent_tier1_integrity_protection_verify_and_remove (extent : list Z) (extent_head_skip integrity_protections_offset : Z)
    (extent_tier0_integrity_state : ExtentTier0IntegrityState)
    (io_block_allocation_blocks_log2 allocation_block_size_128b_log2 blkdev_io_block_size_128b_log2 : Z)
    : res (bool * ExtentIntegrityState * list Z) :=
  let! _ := check_offsets extent_head_skip integrity_protections_offset in
  let! extent_integrity_state :=
    extent_tier1_integrity_protection_determine_state extent extent_head_skip integrity_protections_offset extent_tier0_integrity_state
      io_block_allocation_blocks_log2 allocation_block_size_128b_log2 blkdev_io_block_size_128b_log2 in
  let! '(area_begin, _) :=
    checkpoint_locations_data_save_area extent_head_skip integrity_protections_offset io_block_allocation_blocks_log2
      allocation_block_size_128b_log2 in
  let! n := uadd 32 io_block_allocation_blocks_log2 allocation_block_size_128b_log2 in
  let! '(markers_ok, extent) :=
    restore_checkpoint_locations (upto n) (commit_id extent_tier0_integrity_state) area_begin extent in
  if negb markers_ok then Ok (false, extent_integrity_state, extent)
  else
    let expected_checksum := (λ b, Z.lxor b (xor_mask extent_tier0_integrity_state)) <$> commit_id extent_tier0_integrity_state in
    let checksum := checksum_update checksum_new extent in
    let! valid := finish_receive checksum expected_checksum in
    Ok (valid, extent_integrity_state, extent).

Fixpoint save_checkpoint_locations (is_ : list Z) (area_begin : Z) (extent : list Z) : res (list Z) :=
  match is_ with
  | [] => Ok extent
  | i :: is_ =>
      let! location_end := checkpoint_location_end i in
      let! t := usub usize_bits location_end CHECKSUM_LEN in
      let! checkpoint_location_data := read_at extent t CHECKSUM_LEN in
      let entry_begin := save_area_entry_begin area_begin i in
      let! extent := write_at extent entry_begin checkpoint_location_data in
      save_checkpoint_locations is_ area_begin extent
  end.

(** The checksum is computed over the slices in their order, which is the checksum
    over the whole extent with the area of the protections cleared. *)
Definition extent_tier1_integrity_protection_save_checkpoint_locations_data (extent : list Z)
    (extent_head_skip integrity_protections_offset io_block_allocation_blocks_log2 allocation_block_size_128b_log2 : Z)
    : res (list Z * list Z) :=
  let! _ := check_offsets extent_head_skip integrity_protections_offset in
  let! '(area_begin, area_len) :=
    checkpoint_locations_data_save_area extent_head_skip integrity_protections_offset io_block_allocation_blocks_log2
      allocation_block_size_128b_log2 in
  let checksum := checksum_new in
  let! region := read_at extent 0 (extent_head_skip + integrity_protections_offset) in
  let checksum := checksum_update checksum region in
  let at_ := extent_head_skip + integrity_protections_offset in
  let! extent := map_at extent at_ (CHECKSUM_LEN + 1 + area_len) (λ _, 0) in
  let! region := read_at extent at_ (CHECKSUM_LEN + 1 + area_len) in
  let checksum := checksum_update checksum region in
  let checksum := checksum_update checksum (drop (Z.to_nat (at_ + (CHECKSUM_LEN + 1 + area_len))) extent) in
  let checksum := finish_send checksum in
  let! n := uadd 32 io_block_allocation_blocks_log2 allocation_block_size_128b_log2 in
  let! extent := save_checkpoint_locations (rev (upto n)) area_begin extent in
  Ok (checksum, extent).

Fixpoint write_markers (is_ : list Z) (commit_id : list Z) (at_ : Z) (extent : list Z) : res (list Z) :=
  match is_ with
  | [] => Ok extent
  | i :: is_ =>
      let! t := uadd 32 (i - 1) 7 in
      let! t := ushl usize_bits 1 t in
      let! skip := usub usize_bits t CHECKSUM_LEN in
      let! extent := write_at extent (at_ + skip) commit_id in
      write_markers is_ commit_id (at_ + skip + CHECKSUM_LEN) extent
  end.

Definition extent_tier1_integrity_protection_write_checkpoint_locations_markers (extent : list Z)
    (extent_head_skip integrity_protections_offset : Z) (commit_id : list Z) (io_block_allocation_blocks_log2 allocation_block_size_128b_log2 : Z)
    : res (list Z) :=
  let! _ := check_offsets extent_head_skip integrity_protections_offset in
  let! n := uadd 32 io_block_allocation_blocks_log2 allocation_block_size_128b_log2 in
  if n =? 0 then Ok extent
  else
    let! _ := read_at extent 128 0 in
    write_markers (upto n) commit_id 128 extent.

(** *** The protections *)

Definition extent_integrity_protections_determine_state (extent : list Z) (extent_head_skip integrity_protections_offset : Z)
    (extent_tier0_integrity_state : option ExtentTier0IntegrityState)
    (io_block_allocation_blocks_log2 allocation_block_size_128b_log2 blkdev_io_block_size_128b_log2 : Z) : res ExtentIntegrityState :=
  let! extent_tier0_integrity_state :=
    match extent_tier0_integrity_state with
    | Some state => Ok state
    | None => extent_tier0_integrity_protection_verify extent extent_head_skip integrity_protections_offset
    end in
  extent_tier1_integrity_protection_determine_state extent extent_head_skip integrity_protections_offset extent_tier0_integrity_state
    io_block_allocation_blocks_log2 allocation_block_size_128b_log2 blkdev_io_block_size_128b_log2.

Definition extent_integrity_protections_verify_and_remove (extent : list Z) (extent_head_skip integrity_protections_offset : Z)
    (extent_tier0_integrity_state : option ExtentTier0IntegrityState)
    (io_block_allocation_blocks_log2 allocation_block_size_128b_log2 blkdev_io_block_size_128b_log2 : Z)
    : res (bool * ExtentIntegrityState * list Z) :=
  match extent_tier0_integrity_state with
  | Some state =>
      extent_tier1_integrity_protection_verify_and_remove extent extent_head_skip integrity_protections_offset state
        io_block_allocation_blocks_log2 allocation_block_size_128b_log2 blkdev_io_block_size_128b_log2
  | None =>
      let! '(valid, state, extent) :=
        extent_tier0_integrity_protection_verify_and_remove extent extent_head_skip integrity_protections_offset in
      if negb valid then
        let! extent_integrity_state :=
          extent_tier1_integrity_protection_determine_state extent extent_head_skip integrity_protections_offset state
            io_block_allocation_blocks_log2 allocation_block_size_128b_log2 blkdev_io_block_size_128b_log2 in
        Ok (false, extent_integrity_state, extent)
      else
        extent_tier1_integrity_protection_verify_and_remove extent extent_head_skip integrity_protections_offset state
          io_block_allocation_blocks_log2 allocation_block_size_128b_log2 blkdev_io_block_size_128b_log2
  end.

Definition extent_integrity_protections_apply (extent : list Z) (extent_head_skip integrity_protections_offset : Z)
    (extent_integrity_state : ExtentIntegrityState)
    (io_block_allocation_blocks_log2 allocation_block_size_128b_log2 blkdev_io_block_size_128b_log2 : Z)
    : res (ExtentIntegrityState * list Z) :=
  let! _ := debug_check (let! b := need_clear extent_integrity_state extent_head_skip integrity_protections_offset
                                     blkdev_io_block_size_128b_log2 in Ok (negb b)) in
  let! '(checksum, extent) :=
    extent_tier1_integrity_protection_save_checkpoint_locations_data extent extent_head_skip integrity_protections_offset
      io_block_allocation_blocks_log2 allocation_block_size_128b_log2 in
  let! '(commit_id, extent) :=
    extent_tier0_integrity_protection_apply extent extent_head_skip integrity_protections_offset checksum
      (last_commit_ids_tails extent_integrity_state) in
  let! extent :=
    extent_tier1_integrity_protection_write_checkpoint_locations_markers extent extent_head_skip integrity_protections_offset commit_id
      io_block_allocation_blocks_log2 allocation_block_size_128b_log2 in
  Ok (mk_state true false true (tails commit_id, (0, 0)), extent).

(** [ExtentIntegrityProtectionsInvalidateFuture]: the device IO block that is cleared. *)
Definition invalidated_blkdev_io_block (extent_begin allocation_block_size_128b_log2 blkdev_io_block_size_128b_log2 : Z) : res Z :=
  let blkdev_io_block_allocation_blocks_log2 := Z.max 0 (blkdev_io_block_size_128b_log2 - allocation_block_size_128b_log2) in
  let allocation_block_blkdev_io_blocks_log2 := Z.max 0 (allocation_block_size_128b_log2 - blkdev_io_block_allocation_blocks_log2) in
  let! t := ushr 64 extent_begin blkdev_io_block_allocation_blocks_log2 in
  let! extent_begin_blkdev_io_blocks := ushl 64 t allocation_block_blkdev_io_blocks_log2 in
  let! t := ushl 64 extent_begin_blkdev_io_blocks blkdev_io_block_allocation_blocks_log2 in
  let! t := ushr 64 t allocation_block_blkdev_io_blocks_log2 in
  if negb (t =? extent_begin) then err_internal else Ok extent_begin_blkdev_io_blocks.
End Ops.

(** ** Parts of an extent *)

Definition rd (a n : nat) (e : list Z) : list Z := take n (drop a e).
Definition wr (a : nat) (b e : list Z) : list Z := take a e ++ b ++ drop (a + length b) e.

Lemma rd_lookup a n e i : rd a n e !! i = if decide (i < n)%nat then e !! (a + i)%nat else None.
Proof.
  unfold rd. case_decide; [by rewrite lookup_take_lt, lookup_drop by lia|]. by rewrite lookup_take_ge by lia.
Qed.
Lemma length_rd a n e : (a + n ≤ length e)%nat → length (rd a n e) = n.
Proof. intros. unfold rd. rewrite length_take, length_drop. lia. Qed.
Lemma length_wr a b e : (a + length b ≤ length e)%nat → length (wr a b e) = length e.
Proof. intros. unfold wr. rewrite !length_app, length_take, length_drop. lia. Qed.
Lemma wr_lookup a b e i :
  (a + length b ≤ length e)%nat → wr a b e !! i = if decide (a ≤ i < a + length b)%nat then b !! (i - a)%nat else e !! i.
Proof.
  intros Hb. unfold wr. destruct (decide (i < a)%nat).
  - rewrite lookup_app_l by (rewrite length_take; lia). rewrite lookup_take_lt by lia. case_decide; [lia|done].
  - rewrite lookup_app_r by (rewrite length_take; lia). rewrite length_take, Nat.min_l by lia. case_decide.
    + by rewrite lookup_app_l by lia.
    + rewrite lookup_app_r by lia. rewrite lookup_drop. f_equal. lia.
Qed.

(** Two intervals of addresses without common ones. *)
Definition apart (a n b m : nat) : Prop := (a + n ≤ b ∨ b + m ≤ a)%nat.

Lemma rd_wr_same a n b e : length b = n → (a + n ≤ length e)%nat → rd a n (wr a b e) = b.
Proof.
  intros <- Hb. apply list_eq. intros i. rewrite rd_lookup. case_decide as Hi; [|symmetry; apply lookup_ge_None; lia].
  rewrite wr_lookup by done. case_decide; [|lia]. f_equal. lia.
Qed.
Lemma rd_wr_apart a n c b e : (c + length b ≤ length e)%nat → apart a n c (length b) → rd a n (wr c b e) = rd a n e.
Proof.
  intros Hb Ha. apply list_eq. intros i. rewrite !rd_lookup. case_decide as Hi; [|done]. rewrite wr_lookup by done.
  case_decide; [destruct Ha; lia|done].
Qed.
Lemma wr_rd a n e : (a + n ≤ length e)%nat → wr a (rd a n e) e = e.
Proof.
  intros Hn. apply list_eq. intros i. rewrite wr_lookup by (rewrite length_rd; lia). rewrite length_rd by done. case_decide; [|done].
  rewrite rd_lookup. case_decide; [|lia]. f_equal. lia.
Qed.
Lemma wr_wr_same a b b' e : length b = length b' → (a + length b ≤ length e)%nat → wr a b (wr a b' e) = wr a b e.
Proof.
  intros Hl Hb. apply list_eq. intros i. rewrite !wr_lookup by (rewrite ?length_wr; lia). rewrite <-Hl. by case_decide.
Qed.
Lemma wr_wr_apart a b c d e :
  (a + length b ≤ length e)%nat → (c + length d ≤ length e)%nat → apart a (length b) c (length d) → wr a b (wr c d e) = wr c d (wr a b e).
Proof.
  intros Hb Hd Ha. apply list_eq. intros i. rewrite !wr_lookup by (rewrite ?length_wr; lia). repeat case_decide; destruct Ha; done || lia.
Qed.

Lemma zero_fmap (l : list Z) : (λ _, 0) <$> l = replicate (length l) 0.
Proof. induction l as [|x l IH]; [done|]. cbn. by rewrite IH. Qed.

Section AccessLemmas.
Context {B : Build}.

Lemma read_at_Ok e a n : 0 ≤ a → 0 ≤ n → a + n ≤ Z.of_nat (length e) → read_at e a n = Ok (rd (Z.to_nat a) (Z.to_nat n) e).
Proof. intros. unfold read_at. by rewrite (proj2 (Z.leb_le _ _)) by lia. Qed.
Lemma write_at_Ok e a b : 0 ≤ a → a + Z.of_nat (length b) ≤ Z.of_nat (length e) → write_at e a b = Ok (wr (Z.to_nat a) b e).
Proof. intros. unfold write_at. by rewrite (proj2 (Z.leb_le _ _)) by lia. Qed.
Lemma map_at_Ok e a n f :
  0 ≤ a → 0 ≤ n → a + n ≤ Z.of_nat (length e) → map_at e a n f = Ok (wr (Z.to_nat a) (f <$> rd (Z.to_nat a) (Z.to_nat n) e) e).
Proof. intros. unfold map_at. rewrite read_at_Ok by done. cbn [obind]. apply write_at_Ok; [done|]. rewrite length_fmap, length_rd; lia. Qed.
End AccessLemmas.

(** ** The checkpoint locations *)

Section Checkpoints.
(** Where the data of a location is saved, and where the location is. *)
Variables sa la : Z → nat.

Definition save_all (is_ : list Z) (e : list Z) : list Z := foldl (λ e i, wr (sa i) (rd (la i) 8 e) e) e is_.
Definition mark_all (c : list Z) (is_ : list Z) (e : list Z) : list Z := foldl (λ e i, wr (la i) c e) e is_.
Fixpoint restore_all (c : list Z) (is_ : list Z) (e : list Z) : bool * list Z :=
  match is_ with
  | [] => (true, e)
  | i :: is_ =>
      let e' := wr (sa i) (replicate 8 0) e in
      if bool_decide (rd (la i) 8 e' ≠ c) then (false, e') else restore_all c is_ (wr (la i) (rd (sa i) 8 e) e')
  end.

Variable L : nat.

Record separate (is_ : list Z) : Prop := {
  sep_save i : i ∈ is_ → (sa i + 8 ≤ L)%nat;
  sep_loc i : i ∈ is_ → (la i + 8 ≤ L)%nat;
  sep_own i : i ∈ is_ → apart (sa i) 8 (la i) 8;
  sep_later i j : i ∈ is_ → j ∈ is_ → i < j → apart (sa i) 8 (la j) 8 ∧ apart (la i) 8 (la j) 8 ∧ apart (sa i) 8 (sa j) 8;
}.

Lemma separate_tail i is_ : separate (i :: is_) → separate is_.
Proof. intros [H1 H2 H3 H4]. split; intros; [apply H1|apply H2|apply H3|apply H4]; set_solver. Qed.

Lemma length_save_all is_ e : separate is_ → length e = L → length (save_all is_ e) = L.
Proof.
  unfold save_all. revert e. induction is_ as [|i is_ IH]; intros e Hs He; cbn [foldl]; [done|]. pose proof Hs as [H1 H2 _ _].
  specialize (H1 i ltac:(set_solver)). specialize (H2 i ltac:(set_solver)).
  apply IH; [by eapply separate_tail|]. rewrite length_wr; [done|]. rewrite length_rd; lia.
Qed.
Lemma length_mark_all c is_ e : length c = 8%nat → separate is_ → length e = L → length (mark_all c is_ e) = L.
Proof.
  intros Hc. unfold mark_all. revert e. induction is_ as [|i is_ IH]; intros e Hs He; cbn [foldl]; [done|]. pose proof Hs as [_ H2 _ _].
  specialize (H2 i ltac:(set_solver)). apply IH; [by eapply separate_tail|]. by rewrite length_wr by lia.
Qed.

(** Reads apart from all that is written. *)
Lemma rd_save_all is_ e a n :
  separate is_ → length e = L → (∀ i, i ∈ is_ → apart a n (sa i) 8) → rd a n (save_all is_ e) = rd a n e.
Proof.
  unfold save_all. revert e. induction is_ as [|i is_ IH]; intros e Hs He Ha; cbn [foldl]; [done|]. pose proof Hs as [H1 H2 _ _].
  specialize (H1 i ltac:(set_solver)). specialize (H2 i ltac:(set_solver)). assert (length (rd (la i) 8 e) = 8%nat) as Hr by (rewrite length_rd; lia).
  rewrite IH; [|by eapply separate_tail|by rewrite length_wr by lia|set_solver]. apply rd_wr_apart; [lia|]. rewrite Hr. apply Ha. set_solver.
Qed.
Lemma rd_mark_all c is_ e a n :
  length c = 8%nat → separate is_ → length e = L → (∀ i, i ∈ is_ → apart a n (la i) 8) → rd a n (mark_all c is_ e) = rd a n e.
Proof.
  intros Hc. unfold mark_all. revert e. induction is_ as [|i is_ IH]; intros e Hs He Ha; cbn [foldl]; [done|]. pose proof Hs as [_ H2 _ _].
  specialize (H2 i ltac:(set_solver)). rewrite IH; [|by eapply separate_tail|by rewrite length_wr by lia|set_solver].
  apply rd_wr_apart; [lia|]. rewrite Hc. apply Ha. set_solver.
Qed.
Lemma wr_mark_all c is_ e a b :
  length c = 8%nat → separate is_ → length e = L → (a + length b ≤ L)%nat → (∀ i, i ∈ is_ → apart a (length b) (la i) 8) →
  wr a b (mark_all c is_ e) = mark_all c is_ (wr a b e).
Proof.
  intros Hc. unfold mark_all. revert e. induction is_ as [|i is_ IH]; intros e Hs He Hb Ha; cbn [foldl]; [done|]. pose proof Hs as [_ H2 _ _].
  specialize (H2 i ltac:(set_solver)). rewrite IH; [|by eapply separate_tail|by rewrite length_wr by lia|done|set_solver].
  rewrite wr_wr_apart; [done|lia|lia|]. rewrite Hc. apply Ha. set_solver.
Qed.

(** The restoration undoes the saving and marking. *)
Lemma restore_mark_save c is_ e :
  length c = 8%nat → StronglySorted Z.lt is_ → separate is_ → length e = L → (∀ i, i ∈ is_ → rd (sa i) 8 e = replicate 8 0) →
  restore_all c is_ (mark_all c is_ (save_all (rev is_) e)) = (true, e).
Proof.
  intros Hc Hsort Hs He Hz. induction is_ as [|i is_ IH]; [done|]. apply StronglySorted_inv in Hsort as [Hsort Hlt].
  rewrite Forall_forall in Hlt. pose proof (separate_tail _ _ Hs) as Ht.
  pose proof (sep_save _ Hs i ltac:(set_solver)) as Hi1. pose proof (sep_loc _ Hs i ltac:(set_solver)) as Hi2. pose proof (sep_own _ Hs i ltac:(set_solver)) as Hi3.
  assert (∀ j, j ∈ is_ → apart (sa i) 8 (la j) 8 ∧ apart (la i) 8 (la j) 8 ∧ apart (sa i) 8 (sa j) 8) as Hj.
  { intros j Hj. apply (sep_later _ Hs); [set_solver..|by apply Hlt]. }
  assert (∀ j, j ∈ rev is_ → j ∈ is_) as Hin by (intros j; rewrite !list_elem_of_In; apply in_rev).
  assert (separate (rev is_)) as Hrev by (destruct Ht as [T1 T2 T3 T4]; split; auto).
  cbn [rev]. unfold save_all at 1. rewrite foldl_app. cbn [foldl]. fold (save_all (rev is_) e). set (x1 := save_all (rev is_) e) in *.
  assert (length x1 = L) as Hx1 by by apply length_save_all.
  assert (rd (sa i) 8 x1 = replicate 8 0) as Hz1.
  { unfold x1. rewrite rd_save_all; [apply Hz; set_solver|done|done|]. intros j Hjin. by apply Hj, Hin. }
  set (d := rd (la i) 8 x1). assert (length d = 8%nat) as Hd by (unfold d; rewrite length_rd; lia).
  assert (length (wr (sa i) d x1) = L) as Hx2 by (rewrite length_wr; lia).
  unfold mark_all at 1. cbn [foldl]. fold (mark_all c is_ (wr (la i) c (wr (sa i) d x1))).
  assert (length (wr (la i) c (wr (sa i) d x1)) = L) as Hx3 by (rewrite length_wr; lia).
  cbn [restore_all]. rewrite rd_mark_all; [|done|done|done|intros; by apply Hj].
  rewrite wr_mark_all; [|done|done|done|rewrite length_replicate; lia|rewrite length_replicate; intros; by apply Hj].
  assert (length (replicate 8 0) = 8%nat) as H8 by done.
  assert (apart (la i) 8 (sa i) 8) as Hi3' by (destruct Hi3; [right|left]; lia).
  rewrite rd_mark_all; [|done|done|rewrite length_wr; lia|intros; by apply Hj].
  rewrite rd_wr_apart by (rewrite H8; lia || done). rewrite rd_wr_same by (done || lia). rewrite bool_decide_eq_false_2 by tauto.
  rewrite rd_wr_apart by (rewrite Hc; lia || done). rewrite rd_wr_same by (done || lia).
  rewrite wr_mark_all; [|done|done|rewrite length_wr; lia|lia|rewrite Hd; intros; by apply Hj].
  rewrite (wr_wr_apart (sa i) (replicate 8 0) (la i) c) by (rewrite ?H8, ?Hc; lia || done).
  rewrite (wr_wr_same (sa i) (replicate 8 0) d) by (rewrite ?H8, ?Hd; lia). rewrite <-Hz1 at 1. rewrite wr_rd by lia.
  rewrite wr_wr_same by lia. unfold d. rewrite wr_rd by lia. apply IH; [done|done|]. intros j Hjin. apply Hz. set_solver.
Qed.

(** A location that does not have the marker makes the restoration stop. *)
Lemma restore_mismatch c is_ e j :
  length c = 8%nat → StronglySorted Z.lt is_ → separate is_ → length e = L → j ∈ is_ → rd (la j) 8 e ≠ c → (restore_all c is_ e).1 = false.
Proof.
  intros Hc. revert e. induction is_ as [|i is_ IH]; intros e Hsort Hs He Hj Hm; [set_solver|]. apply StronglySorted_inv in Hsort as [Hsort Hlt].
  rewrite Forall_forall in Hlt. pose proof (sep_save _ Hs i ltac:(set_solver)) as Hi1. pose proof (sep_loc _ Hs i ltac:(set_solver)) as Hi2.
  assert (length (replicate 8 0) = 8%nat) as H8 by done. assert (length (rd (sa i) 8 e) = 8%nat) as Hr by (rewrite length_rd; lia).
  cbn [restore_all]. case_bool_decide as E; [done|]. apply elem_of_cons in Hj as [->|Hj].
  - exfalso. apply Hm. rewrite <-E. symmetry. apply rd_wr_apart; [rewrite H8; lia|]. rewrite H8.
    destruct (sep_own _ Hs i ltac:(set_solver)); [right|left]; lia.
  - destruct (sep_later _ Hs i j) as (A1 & A2 & _); [set_solver..|by apply Hlt|].
    assert (∀ a b, apart a 8 b 8 → apart b 8 a 8) as Hsym by (intros a b [?|?]; [right|left]; lia).
    apply IH; [done|by eapply separate_tail|rewrite !length_wr; rewrite ?length_wr; lia|done|].
    rewrite !rd_wr_apart; rewrite ?length_wr; rewrite ?H8, ?Hr; auto; lia.
Qed.
End Checkpoints.

(** ** A value that does not occur *)

Section Distinct.
Context {B : Build}.

Fixpoint count_by (key : Z → nat) (c : list Z) (values : list Z) : res (list Z) :=
  match values with
  | [] => Ok c
  | v :: values => let! n := idx c (key v) in let! n := uadd 8 n 1 in count_by key (<[key v := n]> c) values
  end.
Definition prefix (v : Z) : nat := Z.to_nat (Z.shiftr v 4).
Definition suffix (v : Z) : nat := Z.to_nat (Z.land v 0xf).

Lemma count_prefixes_eq c values : count_prefixes c values = count_by prefix c values.
Proof.
  revert c. induction values as [|v values IH]; intros c; cbn [count_prefixes count_by]; [done|]. unfold prefix at 1.
  destruct (idx c _); cbn [obind]; [|done..]. destruct (uadd 8 _ 1); cbn [obind]; [|done..]. apply IH.
Qed.
Lemma count_suffixes_eq h c values : count_suffixes h c values = count_by suffix c (filter (λ v, Z.shiftr v 4 = h) values).
Proof.
  revert c. induction values as [|v values IH]; intros c; cbn [count_suffixes]; [done|]. rewrite filter_cons.
  case Z.eqb_spec; intros; case_decide; try done. cbn [count_by]. unfold suffix at 1.
  destruct (idx c _); cbn [obind]; [|done..]. destruct (uadd 8 _ 1); cbn [obind]; [|done..]. apply IH.
Qed.

Definition occurrences (key : Z → nat) (k : nat) (values : list Z) : Z := Z.of_nat (length (filter (λ v, key v = k) values)).

Lemma occurrences_cons key k v values : occurrences key k (v :: values) = (if decide (key v = k) then 1 else 0) + occurrences key k values.
Proof. unfold occurrences. rewrite filter_cons. case_decide; cbn [length]; lia. Qed.

Lemma count_by_spec key values c :
  Forall (λ v, key v < length c)%nat values → Forall (λ n, 0 ≤ n ∧ n + Z.of_nat (length values) < 256) c →
  ∃ c', count_by key c values = Ok c' ∧ length c' = length c ∧
    ∀ k n, c !! k = Some n → c' !! k = Some (n + occurrences key k values).
Proof.
  intros Hk. revert c Hk. induction values as [|v values IH]; intros c Hk Hc; cbn [count_by].
  - exists c. split_and!; [done..|]. intros k n Hn. rewrite Hn. unfold occurrences. cbn. f_equal. lia.
  - apply Forall_cons in Hk as [Hv Hk]. destruct (lookup_lt_is_Some_2 c (key v) Hv) as [n Hn]. rewrite (idx_Ok _ _ _ Hn). cbn [obind].
    pose proof (Forall_lookup_1 _ _ _ _ Hc Hn) as [Hn0 Hn1]. cbn [length] in Hn1. rewrite uadd_Ok by lia. cbn [obind].
    destruct (IH (<[key v := n + 1]> c)) as (c' & Hc' & Hl & Hv').
    + by rewrite length_insert.
    + apply Forall_insert; [|split; lia]. eapply Forall_impl; [exact Hc|]. intros x. cbn [length]. lia.
    + exists c'. rewrite length_insert in Hl. split_and!; [done|done|]. intros k m Hm. rewrite occurrences_cons. case_decide as E.
      * subst k. assert (m = n) as -> by congruence. rewrite (Hv' (key v) (n + 1)) by by apply list_lookup_insert_eq. f_equal. lia.
      * rewrite (Hv' k m) by by rewrite list_lookup_insert_ne. done.
Qed.

Lemma first_slot_spec p c :
  0 ≤ first_slot p c ≤ Z.of_nat (length c) ∧ (∀ k n, c !! k = Some n → Z.of_nat k < first_slot p c → p n = false) ∧
  (∀ n, c !! Z.to_nat (first_slot p c) = Some n → p n = true).
Proof.
  induction c as [|n c (IH1 & IH2 & IH3)]; cbn [first_slot length]; [split_and!; [lia|lia|intros; lia|done]|]. destruct (p n) eqn:E.
  - split_and!; [lia|lia|intros; lia|]. intros m [= <-]. done.
  - split_and!; [lia|lia|intros [|k] m; cbn; [by intros [= <-]|]; intros Hm Hk; apply (IH2 k m Hm); lia|].
    intros m. replace (Z.to_nat (1 + first_slot p c)) with (S (Z.to_nat (first_slot p c))) by lia. apply IH3.
Qed.

(** The numbers of values with each of some keys. *)
Lemma occurrences_sum (key : Z → nat) (ks : list nat) (values : list Z) :
  NoDup ks → (sum_list_with (λ k, length (filter (λ v, key v = k) values)) ks ≤ length values)%nat.
Proof.
  intros Hks. induction values as [|v values IH]; cbn [length].
  - induction ks as [|k ks IHk]; cbn; [done|]. apply NoDup_cons in Hks as [_ Hks]. by apply IHk.
  - assert (sum_list_with (λ k, length (filter (λ v, key v = k) (v :: values))) ks
      ≤ sum_list_with (λ k, length (filter (λ v, key v = k) values)) ks + (if decide (key v ∈ ks) then 1 else 0))%nat; [|case_decide; lia].
    clear IH. induction ks as [|k ks IHk]; cbn [sum_list_with]; [lia|]. apply NoDup_cons in Hks as [Hk Hks]. specialize (IHk Hks).
    rewrite filter_cons. repeat case_decide; subst; cbn [length]; try set_solver by lia.
Qed.
Lemma sum_list_with_ge (f : nat → nat) n ks : (∀ k, k ∈ ks → n ≤ f k)%nat → (n * length ks ≤ sum_list_with f ks)%nat.
Proof.
  induction ks as [|k ks IH]; cbn [sum_list_with length]; intros H; [lia|]. pose proof (H k ltac:(set_solver)).
  assert (n * length ks ≤ sum_list_with f ks)%nat by (apply IH; intros; apply H; set_solver). lia.
Qed.

Lemma filter_ext_in (P Q : Z → Prop) `{!∀ v, Decision (P v), !∀ v, Decision (Q v)} l :
  Forall (λ v, P v ↔ Q v) l → filter P l = filter Q l.
Proof. induction 1 as [|v l Hv _ IH]; [done|]. rewrite !filter_cons, IH. by repeat case_decide; try tauto. Qed.

(** A value below 16 other than zero does not occur, or there are too many below 16. *)
Definition distinct_exists (values : list Z) : Prop :=
  (16 ≤ length (filter (λ v : Z, (v < 16)%Z) values))%nat ∨ ∃ v, 1 ≤ v < 16 ∧ v ∉ values.

Lemma u8_split v : u8 v → v = 16 * Z.of_nat (prefix v) + Z.of_nat (suffix v) ∧ (prefix v < 16)%nat ∧ (suffix v < 16)%nat ∧ Z.shiftr v 4 = Z.of_nat (prefix v).
Proof.
  intros [Hv Hv']. unfold prefix, suffix. change 0xf with (Z.ones 4). rewrite Z.land_ones, Z.shiftr_div_pow2 by lia. change (2 ^ 4) with 16. change (2 ^ 8) with 256 in Hv'.
  pose proof (Z.div_mod v 16 ltac:(lia)). pose proof (Z.mod_pos_bound v 16 ltac:(lia)).
  assert (0 ≤ v / 16 < 16) by (split; [apply Z.div_pos; lia|apply Z.div_lt_upper_bound; lia]). lia.
Qed.

Lemma find_prefix values :
  Forall u8 values → (length values < 256)%nat →
  ∃ c, count_prefixes (replicate 16 0) values = Ok c ∧
    let h := first_slot (λ n, n <? 16) c in
    0 ≤ h < 16 ∧ (length (filter (λ v, prefix v = Z.to_nat h) values) < 16)%nat ∧ ((length (filter (λ v, prefix v = 0%nat) values) < 16)%nat → h = 0).
Proof.
  intros Hv Hl. rewrite count_prefixes_eq. destruct (count_by_spec prefix values (replicate 16 0)) as (c & Hc & Hlen & Hn).
  - eapply Forall_impl; [exact Hv|]. intros v Hu. rewrite length_replicate. by apply u8_split.
  - apply Forall_replicate. lia.
  - exists c. split; [done|]. cbv zeta. rewrite length_replicate in Hlen. destruct (first_slot_spec (λ n, n <? 16) c) as (Hr & Hlow & Hat). rewrite Hlen in Hr.
    assert (∀ k, (k < 16)%nat → c !! k = Some (occurrences prefix k values)) as Hk.
    { intros k Hk. rewrite (Hn k 0); [done|]. by apply lookup_replicate_2. }
    assert (first_slot (λ n, n <? 16) c < 16) as Hlt.
    { apply Z.lt_nge. intros Hge. assert (16 * 16 ≤ length values)%nat; [|lia]. pose proof (occurrences_sum prefix (seq 0 16) values (NoDup_seq 0 16)).
      etrans; [|exact H]. rewrite <-(length_seq 16 0) at 2. apply sum_list_with_ge. intros k Hk'%elem_of_seq.
      specialize (Hlow k _ (Hk k ltac:(lia)) ltac:(lia)). apply Z.ltb_ge in Hlow. unfold occurrences in Hlow. lia. }
    split; [lia|]. split.
    + specialize (Hat _ (Hk (Z.to_nat (first_slot (λ n, n <? 16) c)) ltac:(lia))). apply Z.ltb_lt in Hat. unfold occurrences in Hat. lia.
    + intros Hfew. apply Z.le_antisymm; [|lia]. apply Z.le_ngt. intros Hpos. specialize (Hlow 0%nat _ (Hk 0%nat ltac:(lia)) Hpos). apply Z.ltb_ge in Hlow.
      unfold occurrences in Hlow. lia.
Qed.

Lemma below_16 values : Forall u8 values → filter (λ v : Z, v < 16) values = filter (λ v, prefix v = 0%nat) values.
Proof. intros Hv. apply filter_ext_in. eapply Forall_impl; [exact Hv|]. intros v Hu. destruct (u8_split v Hu) as (E & _ & ? & _). lia. Qed.

Lemma find_suffix h values :
  Forall u8 values → 0 ≤ h < 16 → (length (filter (λ v, prefix v = Z.to_nat h) values) < 16)%nat →
  ∃ c, count_suffixes h (if h =? 0 then <[0%nat := 1]> (replicate 16 0) else replicate 16 0) values = Ok c ∧
    let l := first_slot (λ n, n =? 0) c in
    0 ≤ l ≤ 16 ∧ (l < 16 → 16 * h + l ∉ values ∧ (h = 0 → l ≠ 0)) ∧ (l = 16 ↔ h = 0 ∧ ∀ v, 1 ≤ v < 16 → v ∈ values).
Proof.
  intros Hv Hh Hlt. rewrite count_suffixes_eq. set (c0 := if h =? 0 then <[0%nat := 1]> (replicate 16 0) else replicate 16 0).
  set (vs := filter (λ v, Z.shiftr v 4 = h) values).
  assert (vs = filter (λ v, prefix v = Z.to_nat h) values) as Hvs.
  { unfold vs. apply filter_ext_in. eapply Forall_impl; [exact Hv|]. intros v Hu. destruct (u8_split v Hu) as (_ & _ & _ & ->). lia. }
  rewrite <-Hvs in Hlt. assert (length c0 = 16%nat) as Hl0 by (unfold c0; by destruct (h =? 0)).
  assert (∀ k, (k < 16)%nat → c0 !! k = Some (if decide (h = 0 ∧ k = 0%nat) then 1 else 0)) as Hc0.
  { intros k Hk. unfold c0. case Z.eqb_spec; intros Eh; [destruct (decide (k = 0%nat)) as [->|]|].
    - by rewrite decide_True.
    - rewrite decide_False by lia. rewrite list_lookup_insert_ne by lia. by rewrite lookup_replicate_2.
    - rewrite decide_False by lia. by rewrite lookup_replicate_2. }
  assert (∀ v, v ∈ vs ↔ u8 v ∧ v ∈ values ∧ Z.shiftr v 4 = h) as Hin.
  { intros v. unfold vs. rewrite list_elem_of_filter. split; [|tauto]. intros [? Hi]. split_and!; [|done..]. rewrite Forall_forall in Hv. auto. }
  clearbody vs c0. destruct (count_by_spec suffix vs c0) as (c & Hc & Hlen & Hn).
  - rewrite Hl0. apply Forall_forall. intros v (Hu & _)%Hin. apply (u8_split v Hu).
  - apply Forall_lookup. intros k n Hk. pose proof (lookup_lt_Some _ _ _ Hk). rewrite Hc0 in Hk by lia. destruct (decide (h = 0 ∧ k = 0%nat)); injection Hk as <-; lia.
  - exists c. split; [done|]. cbv zeta. rewrite Hl0 in Hlen. destruct (first_slot_spec (λ n, n =? 0) c) as (Hr & Hlow & Hat). rewrite Hlen in Hr.
    set (l := first_slot (λ n, n =? 0) c) in *.
    assert (∀ k, (k < 16)%nat → c !! k = Some ((if decide (h = 0 ∧ k = 0%nat) then 1 else 0) + occurrences suffix k vs)) as Hk.
    { intros k Hk. by rewrite (Hn k _ (Hc0 k Hk)). }
    assert (∀ k, (k < 16)%nat → occurrences suffix k vs = 0 ↔ 16 * h + Z.of_nat k ∉ values) as Hocc.
    { intros k Hk16. unfold occurrences. split.
      - intros E Hmem. assert (16 * h + Z.of_nat k ∈ filter (λ v, suffix v = k) vs) as Hf; [|destruct (filter (λ v, suffix v = k) vs); [set_solver|cbn in E; lia]].
        assert (u8 (16 * h + Z.of_nat k)) as Hu by (unfold in_u; change (2 ^ 8) with 256; lia). destruct (u8_split _ Hu) as (E1 & E2 & E3 & E4).
        rewrite list_elem_of_filter, Hin. split_and!; [lia|done|done|lia].
      - intros Hno. destruct (filter (λ v, suffix v = k) vs) as [|v l'] eqn:E; [done|]. exfalso. apply Hno.
        assert (v ∈ filter (λ v, suffix v = k) vs) as (Hs & (Hu & Hm & Hp)%Hin)%list_elem_of_filter by (rewrite E; set_solver).
        destruct (u8_split v Hu) as (E1 & _ & _ & E4). assert (16 * h + Z.of_nat k = v) as ->; [|done]. subst k. lia. }
    split; [lia|]. split.
    + intros Hl. specialize (Hat _ (Hk (Z.to_nat l) ltac:(lia))). apply Z.eqb_eq in Hat.
      assert (0 ≤ occurrences suffix (Z.to_nat l) vs) by (unfold occurrences; lia). case_decide as Hd; [lia|].
      split; [replace l with (Z.of_nat (Z.to_nat l)) by lia; apply Hocc; lia|]. intros ->. intros E. apply Hd. split; [done|lia].
    + split.
      * intros Hl. assert (∀ k, (k < 16)%nat → ¬ (h = 0 ∧ k = 0%nat) → 16 * h + Z.of_nat k ∈ values) as Hall.
        { intros k Hk16 Hd. specialize (Hlow k _ (Hk k Hk16) ltac:(lia)). rewrite decide_False in Hlow by done. apply Z.eqb_neq in Hlow.
          destruct (decide (16 * h + Z.of_nat k ∈ values)) as [|Hno]; [done|]. apply Hocc in Hno; lia. }
        assert (h = 0) as ->.
        { destruct (Z.eq_dec h 0) as [|Hne]; [done|]. exfalso. assert (1 * 16 ≤ length vs)%nat; [|lia].
          pose proof (occurrences_sum suffix (seq 0 16) vs (NoDup_seq 0 16)) as Hsum. etrans; [|exact Hsum]. rewrite <-(length_seq 16 0) at 1.
          apply sum_list_with_ge. intros k Hk'%elem_of_seq. specialize (Hlow k _ (Hk k ltac:(lia)) ltac:(lia)). rewrite decide_False in Hlow by lia.
          apply Z.eqb_neq in Hlow. unfold occurrences in Hlow. lia. }
        split; [done|]. intros v Hv'. specialize (Hall (Z.to_nat v) ltac:(lia) ltac:(lia)). by rewrite Z2Nat.id in Hall by lia.
      * intros [-> Hall]. apply Z.le_antisymm; [lia|]. apply Z.le_ngt. intros Hl.
        specialize (Hat _ (Hk (Z.to_nat l) ltac:(lia))). apply Z.eqb_eq in Hat.
        assert (0 ≤ occurrences suffix (Z.to_nat l) vs) by (unfold occurrences; lia). case_decide as Hd; [lia|].
        apply (Hocc (Z.to_nat l) ltac:(lia)); [lia|]. apply Hall. lia.
Qed.

Lemma find_distinct_spec values :
  Forall u8 values → (length values < 256)%nat → distinct_exists values →
  ∃ v, find_distinct_u8_value values = Ok v ∧ 0 < v < 256 ∧ v ∉ values.
Proof.
  intros Hv Hl Hd. unfold find_distinct_u8_value. destruct (find_prefix values Hv Hl) as (c & -> & Hh & Hlt & _). cbn [obind].
  set (h := first_slot (λ n, n <? 16) c) in *. rewrite (proj2 (Z.ltb_lt h 16)) by lia. ostep.
  destruct (find_suffix h values Hv Hh Hlt) as (c' & -> & Hr & Hok & Hbad). cbn [obind]. set (l := first_slot (λ n, n =? 0) c') in *.
  assert (l < 16) as Hl16.
  { destruct (Z.eq_dec l 16) as [E|]; [|lia]. apply Hbad in E as [E Hall]. destruct Hd as [Hmany|(v & Hv1 & Hno)]; [|by destruct Hno; apply Hall].
    rewrite below_16 in Hmany by done. rewrite E in Hlt. change (Z.to_nat 0) with 0%nat in Hlt. lia. }
  rewrite (proj2 (Z.ltb_lt l 16)) by lia. ostep. eexists. split; [reflexivity|].
  rewrite wrap_small by (rewrite Z.shiftl_mul_pow2 by lia; unfold in_u; lia). rewrite Z.lor_comm, lor_shiftl_add by (unfold in_u; lia).
  destruct (Hok Hl16) as [Hno Hz]. change (2 ^ 4) with 16. rewrite (Z.add_comm l), (Z.mul_comm h). split; [|done].
  destruct (Z.eq_dec h 0) as [E|]; [specialize (Hz E)|]; lia.
Qed.
End Distinct.

(** ** What the functions do *)

Lemma pow_ge i : 0 ≤ i → 128 * (i + 1) ≤ 2 ^ (i + 7).
Proof.
  intros Hi. rewrite Z.pow_add_r by lia. change (2 ^ 7) with 128. assert (i + 1 ≤ 2 ^ i); [|lia]. pose proof (Z.pow_gt_lin_r 2 i ltac:(lia) Hi). lia.
Qed.
Lemma pow_double i j : 0 ≤ i → i < j → 2 * 2 ^ (i + 7) ≤ 2 ^ (j + 7).
Proof. intros. rewrite <-Z.pow_succ_r by lia. apply Z.pow_le_mono_r; lia. Qed.
Lemma elem_of_upto i m : i ∈ upto m ↔ 1 ≤ i ≤ m.
Proof.
  unfold upto. rewrite list_elem_of_fmap. split.
  - intros (k & -> & Hk%elem_of_seq). lia.
  - intros Hi. exists (Z.to_nat i). split; [lia|]. apply elem_of_seq. lia.
Qed.
Lemma upto_sorted m : StronglySorted Z.lt (upto m).
Proof.
  unfold upto. generalize 1%nat. induction (Z.to_nat m) as [|k IH]; intros s; cbn [seq fmap list_fmap]; [constructor|].
  constructor; [apply IH|]. apply Forall_forall. intros x (y & -> & Hy%elem_of_seq)%list_elem_of_fmap. lia.
Qed.

Section Functions.
Context {B : Build} {P : Platform}.
Variables skip off io al : Z.
Let n := io + al.
Let area := skip + off + 9.

(** The sizes of an extent with its protections. *)
Record sizes_ok : Prop := {
  ok_skip : 0 ≤ skip;
  ok_off : 0 ≤ off;
  ok_offsets : skip + off ≤ 119;
  ok_io : 0 ≤ io;
  ok_al : 0 ≤ al;
  ok_size : n + 7 < usize_bits;
  ok_usize : usize_bits ≤ 64;
}.
Hypothesis Hok : sizes_ok.

Definition save_addr (i : Z) : nat := Z.to_nat (save_area_entry_begin area i).
Definition loc_addr (i : Z) : nat := Z.to_nat (2 ^ (i + 7) - 8).

Lemma separate_upto L : 2 ^ (n + 7) ≤ Z.of_nat L → separate save_addr loc_addr L (upto n).
Proof.
  intros HL. destruct Hok. unfold n in *.
  assert (∀ i, 1 ≤ i ≤ io + al → 128 * (i + 1) ≤ 2 ^ (i + 7) ≤ Z.of_nat L) as Hp.
  { intros i Hi. split; [apply pow_ge; lia|]. etrans; [|exact HL]. apply Z.pow_le_mono_r; lia. }
  assert (∀ i j, i < j → 1 ≤ i → 2 * 2 ^ (i + 7) ≤ 2 ^ (j + 7)) as Hd by (intros; apply pow_double; lia).
  unfold save_addr, loc_addr, save_area_entry_begin, area, CHECKSUM_LEN, apart.
  split; [intros i; rewrite elem_of_upto; intros Hi; specialize (Hp i Hi); unfold apart; lia..|].
  intros i j. rewrite !elem_of_upto. intros Hi Hj Hij. pose proof (Hp i Hi). pose proof (Hp j Hj). specialize (Hd i j Hij ltac:(lia)). unfold apart. lia.
Qed.

Lemma check_offsets_Ok : check_offsets skip off = Ok tt.
Proof. destruct Hok. unfold check_offsets, CHECKSUM_LEN. by zdec. Qed.

Lemma pow_usize i : 0 ≤ i ≤ n → 128 ≤ 2 ^ (i + 7) < 2 ^ usize_bits.
Proof. intros Hi. destruct Hok. pose proof (pow_ge i ltac:(lia)). split; [lia|]. apply Z.pow_lt_mono_r; lia. Qed.

Lemma shl_pow i : 0 ≤ i ≤ n → ushl (E:=NvFsError) usize_bits 1 (i + 7) = Ok (2 ^ (i + 7)).
Proof.
  intros Hi. pose proof (pow_usize i Hi). destruct Hok. rewrite ushl_Ok by lia. rewrite Z.shiftl_1_l, wrap_small by (unfold in_u; lia). done.
Qed.
Lemma u32_usize x : 0 ≤ x ≤ n + 7 → x < 2 ^ 32.
Proof. destruct Hok. intros. assert (64 < 2 ^ 32) by done. lia. Qed.

Lemma location_end_Ok i : 1 ≤ i ≤ n → checkpoint_location_end i = Ok (2 ^ (i + 7)).
Proof.
  intros Hi. unfold checkpoint_location_end. pose proof (u32_usize (i + 7) ltac:(lia)). rewrite uadd_Ok by lia. cbn [obind]. apply shl_pow. lia.
Qed.

Lemma sizes_Ok : uadd (E:=NvFsError) 32 io al = Ok n.
Proof. destruct Hok. pose proof (u32_usize n ltac:(unfold n in *; lia)). unfold n in *. by rewrite uadd_Ok by lia. Qed.

Lemma save_area_Ok : checkpoint_locations_data_save_area skip off io al = Ok (area, 8 * n).
Proof.
  pose proof (pow_usize n ltac:(destruct Hok; unfold n; lia)) as Hp. pose proof (pow_ge n ltac:(destruct Hok; unfold n; lia)) as Hg.
  unfold checkpoint_locations_data_save_area. rewrite sizes_Ok. destruct Hok. unfold CHECKSUM_LEN. replace (skip + off + 8 + 1) with area by (unfold area; lia).
  assert (0 ≤ n) by (unfold n; lia). assert (9 ≤ area ≤ 128) by (unfold area; lia). rewrite (proj2 (Z.leb_le area 128)) by lia. ostep.
  rewrite debug_check_true by (cbn [obind]; zdec; done). ostep. fold n. rewrite (Z.mul_comm n).
  rewrite debug_check_true; [done|]. rewrite Z.shiftl_1_l, wrap_small by (unfold in_u; lia). by zdec.
Qed.

(** The loops over the checkpoint locations. *)
Variable L : nat.
Hypothesis HL : 2 ^ (n + 7) ≤ Z.of_nat L.

Lemma loc_bounds i : 1 ≤ i ≤ n → 248 ≤ 2 ^ (i + 7) - 8 ∧ 2 ^ (i + 7) ≤ Z.of_nat L ∧ 0 ≤ save_area_entry_begin area i ∧
  save_area_entry_begin area i + 8 ≤ 2 ^ (i + 7) - 8.
Proof.
  intros Hi. pose proof (pow_ge i ltac:(lia)). assert (2 ^ (i + 7) ≤ 2 ^ (n + 7)) by (apply Z.pow_le_mono_r; lia).
  unfold save_area_entry_begin, area, CHECKSUM_LEN. destruct Hok. lia.
Qed.

Lemma save_locations_Ok is_ e :
  (∀ i, i ∈ is_ → 1 ≤ i ≤ n) → length e = L → save_checkpoint_locations is_ area e = Ok (save_all save_addr loc_addr is_ e).
Proof.
  unfold save_all. revert e. induction is_ as [|i is_ IH]; intros e Hi He; cbn [save_checkpoint_locations foldl]; [done|].
  assert (1 ≤ i ≤ n) as Hi' by (apply Hi; set_solver). destruct (loc_bounds i Hi') as (? & ? & ? & ?). pose proof (pow_usize i ltac:(lia)).
  rewrite location_end_Ok by done. cbn [obind]. unfold CHECKSUM_LEN. rewrite usub_Ok by lia. cbn [obind].
  rewrite read_at_Ok by lia. cbn [obind]. change (Z.to_nat 8) with 8%nat. fold (loc_addr i).
  assert (length (rd (loc_addr i) 8 e) = 8%nat) as Hr by (rewrite length_rd; unfold loc_addr; lia).
  rewrite write_at_Ok by (rewrite ?Hr; lia). cbn [obind]. fold (save_addr i). apply IH; [set_solver|]. rewrite length_wr; [done|]. rewrite Hr. unfold save_addr. lia.
Qed.

Lemma restore_locations_Ok is_ c e :
  (∀ i, i ∈ is_ → 1 ≤ i ≤ n) → length e = L → restore_checkpoint_locations is_ c area e = Ok (restore_all save_addr loc_addr c is_ e).
Proof.
  revert e. induction is_ as [|i is_ IH]; intros e Hi He; cbn [restore_checkpoint_locations restore_all]; [done|].
  assert (1 ≤ i ≤ n) as Hi' by (apply Hi; set_solver). destruct (loc_bounds i Hi') as (? & ? & ? & ?). pose proof (pow_usize i ltac:(lia)).
  rewrite location_end_Ok by done. cbn [obind]. unfold CHECKSUM_LEN. rewrite read_at_Ok by lia. cbn [obind]. change (Z.to_nat 8) with 8%nat.
  fold (save_addr i). rewrite map_at_Ok by lia. cbn [obind]. change (Z.to_nat 8) with 8%nat. fold (save_addr i).
  assert ((λ _, 0) <$> rd (save_addr i) 8 e = replicate 8 0) as ->.
  { rewrite zero_fmap, length_rd; [done|]. unfold save_addr. lia. }
  rewrite !usub_Ok by lia. cbn [obind]. rewrite usub_Ok by lia. cbn [obind].
  replace (save_area_entry_begin area i + (2 ^ (i + 7) - 8 - save_area_entry_begin area i)) with (2 ^ (i + 7) - 8) by lia.
  set (e' := wr (save_addr i) (replicate 8 0) e). assert (length e' = L) as He' by (unfold e'; rewrite length_wr; [done|]; rewrite length_replicate; unfold save_addr; lia).
  rewrite read_at_Ok by lia. cbn [obind]. change (Z.to_nat 8) with 8%nat. fold (loc_addr i). case_bool_decide; [done|].
  assert (length (rd (save_addr i) 8 e) = 8%nat) as Hr by (rewrite length_rd; unfold save_addr; lia).
  rewrite write_at_Ok by (rewrite ?Hr; lia). cbn [obind]. fold (loc_addr i). apply IH; [set_solver|]. rewrite length_wr; [done|]. rewrite Hr. unfold loc_addr. lia.
Qed.

Lemma write_markers_Ok c m : ∀ k e,
  length c = 8%nat → 1 ≤ Z.of_nat k → Z.of_nat (k + m) ≤ n + 1 → length e = L →
  write_markers (Z.of_nat <$> seq k m) c (2 ^ (Z.of_nat k - 1 + 7)) e = Ok (mark_all loc_addr c (Z.of_nat <$> seq k m) e).
Proof.
  unfold mark_all. induction m as [|m IH]; intros k e Hc Hk Hm He; cbn [seq fmap list_fmap write_markers foldl]; [done|].
  destruct (loc_bounds (Z.of_nat k) ltac:(lia)) as (? & ? & _). pose proof (pow_usize (Z.of_nat k - 1) ltac:(lia)).
  pose proof (u32_usize (Z.of_nat k - 1 + 7) ltac:(lia)). rewrite uadd_Ok by lia. cbn [obind]. rewrite shl_pow by lia. cbn [obind].
  unfold CHECKSUM_LEN. rewrite usub_Ok by lia. cbn [obind].
  assert (2 * 2 ^ (Z.of_nat k - 1 + 7) = 2 ^ (Z.of_nat k + 7)) as Hd by (rewrite <-Z.pow_succ_r by lia; f_equal; lia).
  rewrite write_at_Ok by lia. cbn [obind].
  replace (Z.to_nat (2 ^ (Z.of_nat k - 1 + 7) + (2 ^ (Z.of_nat k - 1 + 7) - 8))) with (loc_addr (Z.of_nat k)) by (unfold loc_addr; lia).
  replace (2 ^ (Z.of_nat k - 1 + 7) + (2 ^ (Z.of_nat k - 1 + 7) - 8) + 8) with (2 ^ (Z.of_nat (S k) - 1 + 7)).
  - apply IH; [done|lia|lia|]. rewrite length_wr; [done|]. unfold loc_addr. lia.
  - replace (Z.of_nat (S k) - 1 + 7) with (Z.of_nat k + 7) by lia. lia.
Qed.

Lemma markers_Ok c e :
  length c = 8%nat → length e = L →
  extent_tier1_integrity_protection_write_checkpoint_locations_markers e skip off c io al = Ok (mark_all loc_addr c (upto n) e).
Proof.
  intros Hc He. unfold extent_tier1_integrity_protection_write_checkpoint_locations_markers. rewrite check_offsets_Ok, sizes_Ok. cbn [obind].
  case Z.eqb_spec; intros E; [by rewrite E|]. pose proof (pow_ge n ltac:(destruct Hok; unfold n; lia)).
  assert (0 < n) by (destruct Hok; unfold n in *; lia). rewrite read_at_Ok by lia. cbn [obind].
  apply (write_markers_Ok c (Z.to_nat n) 1 e); lia.
Qed.

(** The first 128 bytes. *)
Let p := skip + off.
Definition realm (e : list Z) : list Z := rd (Z.to_nat skip) (Z.to_nat (128 - skip)) e.
Definition primary_id (e : list Z) : list Z := rd (Z.to_nat p) 8 e.
Definition mask_of (e : list Z) : Z := nth (Z.to_nat (p + 8)) e 0.
Definition tier0_state (e : list Z) : ExtentTier0IntegrityState :=
  mk_tier0 (primary_id e) (mask_of e) (negb (any_zero (realm e))) (negb (all_zero (realm e))).

Lemma rd_split a k m e : rd a (k + m) e = rd a k e ++ rd (a + k) m e.
Proof. unfold rd. by rewrite <-drop_drop, take_take_drop. Qed.
Lemma rd_one a e : (a < length e)%nat → rd a 1 e = [nth a e 0].
Proof.
  intros Ha. destruct (lookup_lt_is_Some_2 e a Ha) as [x Hx]. rewrite (nth_lookup_Some e a 0 x Hx).
  apply list_eq. intros [|i]; rewrite rd_lookup; [cbn; by rewrite Nat.add_0_r|]. case_decide; [lia|done].
Qed.

Lemma realm_split e :
  (128 ≤ length e)%nat →
  realm e = rd (Z.to_nat skip) (Z.to_nat off) e ++ primary_id e ++ [mask_of e] ++ rd (Z.to_nat (p + 9)) (Z.to_nat (119 - p)) e.
Proof.
  intros He. destruct Hok. unfold realm, primary_id, mask_of. replace (Z.to_nat (128 - skip)) with (Z.to_nat off + (8 + (1 + Z.to_nat (119 - p))))%nat by (unfold p; lia).
  rewrite !rd_split. replace (Z.to_nat skip + Z.to_nat off)%nat with (Z.to_nat p) by (unfold p; lia).
  replace (Z.to_nat p + 8)%nat with (Z.to_nat (p + 8)) by (unfold p; lia). rewrite rd_one by (unfold p; lia).
  by replace (Z.to_nat (p + 8) + 1)%nat with (Z.to_nat (p + 9)) by (unfold p; lia).
Qed.

Lemma tier0_verify_Ok e : (128 ≤ length e)%nat → extent_tier0_integrity_protection_verify e skip off = Ok (tier0_state e).
Proof.
  intros He. unfold extent_tier0_integrity_protection_verify. rewrite check_offsets_Ok. cbn [obind]. destruct Hok. unfold CHECKSUM_LEN.
  rewrite !read_at_Ok by lia. cbn [obind]. change (Z.to_nat 8) with 8%nat. change (Z.to_nat 1) with 1%nat.
  replace (128 - skip - off - 8 - 1) with (119 - p) by (unfold p; lia). fold p. replace (p + 8 + 1) with (p + 9) by lia.
  rewrite rd_one by (unfold p; lia). cbn [nth]. unfold tier0_state. rewrite (realm_split e) by done. unfold any_zero, all_zero.
  rewrite !existsb_app, !forallb_app. cbn [existsb forallb]. fold (mask_of e). fold (primary_id e). rewrite (Z.eqb_sym (mask_of e)). f_equal. f_equal.
  - rewrite orb_false_r, !orb_assoc. done.
  - rewrite andb_true_r, !negb_andb, !orb_assoc. done.
Qed.

(** Removing and applying the protections of tier 0. *)
Definition tier0_removed (e e' : list Z) : Prop :=
  length e' = length e ∧ ∀ i, e' !! i =
    if decide (skip ≤ Z.of_nat i < 128) then
      if decide (p ≤ Z.of_nat i < p + 9) then (λ _, 0) <$> e !! i else (λ b, Z.lxor b (mask_of e)) <$> e !! i
    else e !! i.

Lemma fmap_rd_lookup (f : Z → Z) a k e i :
  (f <$> rd a k e) !! i = if decide (i < k)%nat then f <$> e !! (a + i)%nat else None.
Proof. rewrite list_lookup_fmap, rd_lookup. by case_decide. Qed.
Lemma map_region (f : Z → Z) a k e :
  0 ≤ a → 0 ≤ k → a + k ≤ Z.of_nat (length e) →
  ∃ e', map_at e a k f = Ok e' ∧ length e' = length e ∧
    ∀ i, e' !! i = if decide (a ≤ Z.of_nat i < a + k) then f <$> e !! i else e !! i.
Proof.
  intros Ha Hk He. rewrite map_at_Ok by lia. eexists. split; [reflexivity|].
  assert (length (f <$> rd (Z.to_nat a) (Z.to_nat k) e) = Z.to_nat k) as Hl by (rewrite length_fmap, length_rd; lia).
  split; [rewrite length_wr; [done|]; rewrite Hl; lia|]. intros i. rewrite wr_lookup by (rewrite Hl; lia). rewrite Hl.
  repeat case_decide; try lia; [|done]. rewrite fmap_rd_lookup. case_decide; [|lia]. do 2 f_equal. lia.
Qed.

Lemma tier0_remove_Ok e :
  (128 ≤ length e)%nat →
  if any_zero (realm e) then extent_tier0_integrity_protection_verify_and_remove e skip off = Ok (false, tier0_state e, e)
  else ∃ e', extent_tier0_integrity_protection_verify_and_remove e skip off = Ok (true, tier0_state e, e') ∧ tier0_removed e e'.
Proof.
  intros He. unfold extent_tier0_integrity_protection_verify_and_remove. rewrite check_offsets_Ok, tier0_verify_Ok by done. cbn [obind]. change (is_valid (tier0_state e)) with (negb (any_zero (realm e))). change (xor_mask (tier0_state e)) with (mask_of e).
  destruct (any_zero (realm e)); cbn [negb]; [done|]. destruct Hok. unfold CHECKSUM_LEN. rewrite read_at_Ok by lia. cbn [obind].
  destruct (map_region (λ b, Z.lxor b (mask_of e)) skip off e) as (e1 & -> & Hl1 & H1); [lia..|]. cbn [obind].
  destruct (map_region (λ _, 0) (skip + off) (8 + 1) e1) as (e2 & -> & Hl2 & H2); [lia..|]. cbn [obind].
  destruct (map_region (λ b, Z.lxor b (mask_of e)) (skip + off + 8 + 1) (128 - skip - off - 8 - 1) e2) as (e3 & -> & Hl3 & H3); [lia..|]. cbn [obind].
  exists e3. split; [done|]. split; [lia|]. intros i. rewrite H3, H2, H1. unfold p. repeat case_decide; lia || done.
Qed.

Abbreviation tails2 := ((Z * Z) * (Z * Z))%type.
Definition values_of (e cs : list Z) (t : tails2) : list Z :=
  take (Z.to_nat off) (realm e) ++ drop (Z.to_nat (off + 8 + 1)) (realm e) ++ cs ++
  [Z.lxor t.1.1 (nth 0 cs 0); Z.lxor t.1.2 (nth 7 cs 0)] ++ [Z.lxor t.2.1 (nth 0 cs 0); Z.lxor t.2.2 (nth 7 cs 0)].
Definition masked (k : Z) (cs : list Z) : list Z := (λ b, Z.lxor b k) <$> cs.
(** The assertions compare with the tails after the checksum has been applied to them. *)
Definition tails_asserted (k : Z) (cs : list Z) (t : tails2) : res unit :=
  let! _ := debug_assert (negb (nth 0 (masked k cs) 0 =? Z.lxor t.1.1 (nth 0 cs 0))) in
  let! _ := debug_assert (negb (nth 0 (masked k cs) 0 =? Z.lxor t.2.1 (nth 0 cs 0))) in
  let! _ := debug_assert (negb (nth 7 (masked k cs) 0 =? Z.lxor t.1.2 (nth 7 cs 0))) in
  debug_assert (negb (nth 7 (masked k cs) 0 =? Z.lxor t.2.2 (nth 7 cs 0))).
Definition tier0_applied (k : Z) (c e e' : list Z) : Prop :=
  length e' = length e ∧ ∀ i, e' !! i =
    if decide (skip ≤ Z.of_nat i < 128) then
      if decide (p ≤ Z.of_nat i < p + 8) then c !! Z.to_nat (Z.of_nat i - p)
      else if decide (Z.of_nat i = p + 8) then Some k else (λ b, Z.lxor b k) <$> e !! i
    else e !! i.

Lemma write_region a b e :
  0 ≤ a → a + Z.of_nat (length b) ≤ Z.of_nat (length e) →
  ∃ e', write_at e a b = Ok e' ∧ length e' = length e ∧
    ∀ i, e' !! i = if decide (a ≤ Z.of_nat i < a + Z.of_nat (length b)) then b !! Z.to_nat (Z.of_nat i - a) else e !! i.
Proof.
  intros Ha He. rewrite write_at_Ok by lia. eexists. split; [reflexivity|]. split; [rewrite length_wr; lia|]. intros i. rewrite wr_lookup by lia.
  repeat case_decide; try lia; [|done]. f_equal. lia.
Qed.

Lemma tier0_apply_Ok e cs t k :
  (128 ≤ length e)%nat → length cs = 8%nat → find_distinct_u8_value (values_of e cs t) = Ok k →
  ∃ e', extent_tier0_integrity_protection_apply e skip off cs t = (let! _ := tails_asserted k cs t in Ok (masked k cs, e')) ∧
    tier0_applied k (masked k cs) e e'.
Proof.
  intros He Hcs Hk. unfold extent_tier0_integrity_protection_apply. rewrite check_offsets_Ok. destruct Hok. cbn [obind]. unfold CHECKSUM_LEN.
  rewrite !read_at_Ok by lia. cbn [obind]. destruct t as [[t00 t01] [t10 t11]]. fold (realm e). unfold values_of in Hk. cbn [fst snd] in Hk. rewrite Hk. cbn [obind].
  assert (length (masked k cs) = 8%nat) as Hm by (unfold masked; by rewrite length_fmap).
  destruct (map_region (λ b, Z.lxor b k) skip off e) as (e1 & -> & Hl1 & H1); [lia..|]. cbn [obind]. fold (masked k cs).
  destruct (write_region (skip + off) (masked k cs) e1) as (e2 & -> & Hl2 & H2); [lia|lia|]. cbn [obind].
  destruct (write_region (skip + off + 8) [k] e2) as (e3 & -> & Hl3 & H3); [lia|cbn [length]; lia|]. cbn [obind].
  destruct (map_region (λ b, Z.lxor b k) (skip + off + 8 + 1) (128 - skip - off - 8 - 1) e3) as (e4 & -> & Hl4 & H4); [lia..|]. cbn [obind].
  exists e4. split.
  - unfold tails_asserted. cbn [fst snd]. by rewrite !obind_assoc.
  - split; [lia|]. intros i. rewrite H4, H3, H2, H1. cbn [length]. rewrite Hm. unfold p. repeat case_decide; try lia; try done.
    replace (Z.to_nat (Z.of_nat i - (skip + off + 8))) with 0%nat by lia. done.
Qed.

(** *** The state of an extent *)

Variable bl : Z.
Hypothesis Hbl : 0 ≤ bl ≤ n.

Definition marker (e : list Z) : Z * Z := tails (rd (loc_addr bl) 8 e).
Definition determined (t0 : ExtentTier0IntegrityState) (m : Z * Z) : ExtentIntegrityState :=
  let primary := tails (commit_id t0) in
  if bl =? 0 then mk_state (need_clear_tier0 t0) false (is_valid t0) (primary, (0, 0))
  else if bool_decide (primary = (0, 0)) then mk_state (need_clear_tier0 t0) false (is_valid t0) (m, (0, 0))
  else if bool_decide (primary = m) then mk_state (need_clear_tier0 t0) false (is_valid t0) (primary, (0, 0))
  else mk_state (need_clear_tier0 t0) false false (primary, m).

Lemma determine_Ok e t0 :
  length e = L → (is_valid t0 = true → tails (commit_id t0) ≠ (0, 0)) →
  extent_tier1_integrity_protection_determine_state e skip off t0 io al bl = Ok (determined t0 (marker e)).
Proof.
  intros He Hv. unfold extent_tier1_integrity_protection_determine_state, determined. rewrite check_offsets_Ok, sizes_Ok. cbn [obind].
  assert (bool_decide (tails (commit_id t0) ≠ (0, 0)) || negb (is_valid t0) = true) as ->.
  { destruct (is_valid t0); [rewrite bool_decide_true by auto; done|apply orb_true_r]. }
  ostep. rewrite debug_check_true by (fold n; f_equal; apply Z.leb_le; lia). cbn [obind]. case Z.eqb_spec; intros Eb; cbn [negb]; [done|].
  pose proof (u32_usize (bl + 7) ltac:(lia)). rewrite uadd_Ok by lia. cbn [obind]. rewrite shl_pow by lia. cbn [obind]. unfold CHECKSUM_LEN.
  destruct (loc_bounds bl ltac:(lia)) as (? & ? & _). pose proof (pow_usize bl ltac:(lia)). rewrite usub_Ok by lia. cbn [obind].
  rewrite read_at_Ok by lia. cbn [obind]. change (Z.to_nat 8) with 8%nat. fold (loc_addr bl). fold (marker e).
  case_bool_decide as Ep; [|by case_bool_decide]. destruct (is_valid t0); [by destruct Hv|]. ostep. done.
Qed.

Lemma tier0_valid_tails e : (128 ≤ length e)%nat → any_zero (realm e) = false → tails (primary_id e) ≠ (0, 0).
Proof.
  intros He Hz. rewrite realm_split in Hz by done. unfold any_zero in Hz. rewrite !existsb_app in Hz. apply orb_false_iff in Hz as [_ [Hz _]%orb_false_iff].
  destruct (primary_id e) as [|x l] eqn:E; [|cbn [existsb] in Hz; apply orb_false_iff in Hz as [Hz _]; intros [= -> _]; done].
  apply (f_equal length) in E. unfold primary_id in E. destruct Hok. rewrite length_rd in E by (unfold p; lia). done.
Qed.

(** *** Verification *)

Context {A : Alignment}.

Lemma L_128 : (128 ≤ L)%nat.
Proof. pose proof (pow_ge n ltac:(destruct Hok; unfold n; lia)). destruct Hok. unfold n in *. lia. Qed.

Lemma length_primary e : length e = L → length (primary_id e) = 8%nat.
Proof. intros He. pose proof L_128. destruct Hok. unfold primary_id. rewrite length_rd; unfold p; lia. Qed.

Lemma finish_receive_total self l : length l = 8%nat → ∃ v, finish_receive self l = Ok v.
Proof. intros Hl. unfold finish_receive. rewrite Hl. change (Z.of_nat 8 =? CHECKSUM_LEN) with true. ostep. eauto. Qed.

Lemma rd_lookup_eq a m e e' : (∀ i, (a ≤ i < a + m)%nat → e !! i = e' !! i) → rd a m e = rd a m e'.
Proof. intros H. apply list_eq. intros i. rewrite !rd_lookup. case_decide; [|done]. apply H. lia. Qed.

Lemma removed_rd e e' a m : tier0_removed e e' → (128 ≤ a)%nat → rd a m e' = rd a m e.
Proof. intros [_ H] Ha. apply rd_lookup_eq. intros i Hi. rewrite H. case_decide; [lia|done]. Qed.

Lemma loc_128 i : 1 ≤ i ≤ n → (128 ≤ loc_addr i)%nat.
Proof. intros Hi. destruct (loc_bounds i Hi) as (? & _). unfold loc_addr. lia. Qed.

Lemma removed_unique e e1 e2 : tier0_removed e e1 → tier0_removed e e2 → e1 = e2.
Proof. intros [_ H1] [_ H2]. apply list_eq. intros i. by rewrite H1, H2. Qed.

Lemma tier1_verify_Ok e t0 :
  length e = L → length (commit_id t0) = 8%nat → (is_valid t0 = true → tails (commit_id t0) ≠ (0, 0)) →
  ∃ v e', extent_tier1_integrity_protection_verify_and_remove e skip off t0 io al bl = Ok (v, determined t0 (marker e), e') ∧
    (v = true → ∀ j, 1 ≤ j ≤ n → rd (loc_addr j) 8 e = commit_id t0) ∧
    (∀ ef, restore_all save_addr loc_addr (commit_id t0) (upto n) e = (true, ef) →
      e' = ef ∧ finish_receive (checksum_update checksum_new ef) (masked (xor_mask t0) (commit_id t0)) = Ok v).
Proof.
  intros He Hc Hv. unfold extent_tier1_integrity_protection_verify_and_remove. rewrite check_offsets_Ok, determine_Ok, save_area_Ok, sizes_Ok by done.
  cbn [obind]. rewrite restore_locations_Ok by (done || intros i; by rewrite elem_of_upto). cbn [obind].
  pose proof (λ j, restore_mismatch save_addr loc_addr L (commit_id t0) (upto n) e j Hc (upto_sorted n) (separate_upto L HL) He) as Hmis.
  destruct (restore_all save_addr loc_addr (commit_id t0) (upto n) e) as [[] er]; cbn [negb fst] in *.
  - fold (masked (xor_mask t0) (commit_id t0)).
    destruct (finish_receive_total (checksum_update checksum_new er) (masked (xor_mask t0) (commit_id t0))) as [v Hf].
    { unfold masked. by rewrite length_fmap. }
    rewrite Hf. cbn [obind]. exists v, er. split; [done|]. split.
    + intros _ j Hj. destruct (decide (rd (loc_addr j) 8 e = commit_id t0)) as [|Hne]; [done|]. specialize (Hmis j ltac:(by apply elem_of_upto) Hne). done.
    + intros ef [= <-]. done.
  - eexists _, _. split; [reflexivity|]. split; [done|]. intros ef [=].
Qed.

Lemma protections_verify_Ok e :
  length e = L →
  ∃ v e', extent_integrity_protections_verify_and_remove e skip off None io al bl = Ok (v, determined (tier0_state e) (marker e), e') ∧
    (v = true → any_zero (realm e) = false ∧ ∀ j, 1 ≤ j ≤ n → rd (loc_addr j) 8 e = primary_id e) ∧
    (∀ er ef, any_zero (realm e) = false → tier0_removed e er → restore_all save_addr loc_addr (primary_id e) (upto n) er = (true, ef) →
      e' = ef ∧ finish_receive (checksum_update checksum_new ef) (masked (mask_of e) (primary_id e)) = Ok v).
Proof.
  intros He. pose proof L_128. unfold extent_integrity_protections_verify_and_remove. pose proof (tier0_remove_Ok e ltac:(lia)) as Hr.
  assert (is_valid (tier0_state e) = true → tails (commit_id (tier0_state e)) ≠ (0, 0)) as Hv.
  { intros Hv%negb_true_iff. apply tier0_valid_tails; [lia|done]. }
  destruct (any_zero (realm e)) eqn:Ez.
  - rewrite Hr. cbn [obind negb]. rewrite determine_Ok by done. cbn [obind]. eexists _, _. split; [reflexivity|]. done.
  - destruct Hr as (er & -> & Hrem). cbn [obind negb]. assert (length er = L) as Hlr by (destruct Hrem as [-> _]; done).
    destruct (tier1_verify_Ok er (tier0_state e) Hlr (length_primary e He) Hv) as (v & e' & -> & Hm & Hf).
    assert (determined (tier0_state e) (marker er) = determined (tier0_state e) (marker e)) as ->.
    { unfold determined. destruct (Z.eqb_spec bl 0) as [|Hb0]; [done|]. unfold marker. rewrite (removed_rd e er); [done|done|]. apply loc_128. lia. }
    exists v, e'. split; [done|]. split.
    + intros Ev. split; [done|]. intros j Hj. rewrite <-(removed_rd e er) by (done || by apply loc_128). by apply Hm.
    + intros er' ef _ Hrem' Hres. rewrite (removed_unique _ _ _ Hrem Hrem') in Hf. by apply Hf.
Qed.

(** *** Application *)

(** The extent with the area of the protections cleared, and with the data of the
    checkpoint locations saved. *)
Definition cleared (e : list Z) : list Z := wr (Z.to_nat p) (replicate (Z.to_nat (9 + 8 * n)) 0) e.
Definition saved (e : list Z) : list Z := save_all save_addr loc_addr (rev (upto n)) (cleared e).

Lemma area_fits : p + (9 + 8 * n) ≤ Z.of_nat L.
Proof. pose proof (pow_ge n ltac:(destruct Hok; unfold n; lia)). destruct Hok. unfold p, n in *. lia. Qed.
Lemma length_cleared e : length e = L → length (cleared e) = L.
Proof. intros He. pose proof area_fits. destruct Hok. unfold cleared, p, n in *. rewrite length_wr; [done|]. rewrite length_replicate. lia. Qed.
Lemma cleared_lookup e i :
  length e = L → cleared e !! i = if decide (p ≤ Z.of_nat i < p + (9 + 8 * n)) then Some 0 else e !! i.
Proof.
  intros He. pose proof area_fits. destruct Hok. unfold cleared. rewrite wr_lookup by (rewrite length_replicate; unfold p, n in *; lia). rewrite length_replicate.
  unfold p, n in *. repeat case_decide; try lia; [|done]. apply lookup_replicate_2. lia.
Qed.
Lemma cleared_bytes e : Forall u8 e → length e = L → Forall u8 (cleared e).
Proof.
  intros Hb He. apply Forall_lookup. intros i x. rewrite cleared_lookup by done. case_decide; [by intros [= <-]|]. by apply Forall_lookup_1.
Qed.
Lemma rev_upto_in i : i ∈ rev (upto n) → 1 ≤ i ≤ n.
Proof. by rewrite list_elem_of_In, <-in_rev, <-list_elem_of_In, elem_of_upto. Qed.
Lemma separate_rev : separate save_addr loc_addr L (rev (upto n)).
Proof.
  destruct (separate_upto L HL) as [H1 H2 H3 H4]. assert (∀ j, j ∈ rev (upto n) → j ∈ upto n) by (intros j; rewrite !list_elem_of_In; apply in_rev). split; auto.
Qed.
Lemma length_saved e : length e = L → length (saved e) = L.
Proof. intros He. apply length_save_all; [apply separate_rev|by apply length_cleared]. Qed.

Lemma save_data_Ok e :
  Forall u8 e → length e = L →
  extent_tier1_integrity_protection_save_checkpoint_locations_data e skip off io al = Ok (finish_send (checksum_of (cleared e)), saved e).
Proof.
  intros Hb He. pose proof area_fits. unfold extent_tier1_integrity_protection_save_checkpoint_locations_data.
  rewrite check_offsets_Ok, save_area_Ok, sizes_Ok. cbn [obind]. unfold CHECKSUM_LEN. destruct Hok. fold p.
  replace (8 + 1 + 8 * n) with (9 + 8 * n) by lia. rewrite read_at_Ok by (unfold p; lia). cbn [obind].
  assert (0 ≤ n) by (unfold n; lia). rewrite map_at_Ok by (unfold p in *; lia). cbn [obind]. rewrite zero_fmap, length_rd by (unfold p in *; lia). fold (cleared e).
  rewrite read_at_Ok by (rewrite ?length_cleared by done; unfold p in *; lia). cbn [obind].
  rewrite save_locations_Ok; [|apply rev_upto_in|by apply length_cleared]. cbn [obind]. fold (saved e). do 3 f_equal.
  assert (rd (Z.to_nat 0) (Z.to_nat p) e = rd 0 (Z.to_nat p) (cleared e)) as ->.
  { apply rd_lookup_eq. intros i Hi. rewrite cleared_lookup by done. case_decide; [unfold p in *; lia|done]. }
  pose proof (checksum_updates [rd 0 (Z.to_nat p) (cleared e); rd (Z.to_nat p) (Z.to_nat (9 + 8 * n)) (cleared e);
    drop (Z.to_nat (p + (9 + 8 * n))) (cleared e)]) as Hu. cbn [foldl] in Hu. rewrite Hu.
  - f_equal. cbn. rewrite app_nil_r. unfold rd. rewrite drop_0. replace (Z.to_nat (p + (9 + 8 * n))) with (Z.to_nat p + Z.to_nat (9 + 8 * n))%nat by (unfold p; lia).
    by rewrite <-drop_drop, !take_drop.
  - pose proof (cleared_bytes e Hb He). unfold rd. repeat constructor; auto using Forall_take, Forall_drop.
Qed.

(** *** An applied protection *)

Definition tails_u8 (t : tails2) : Prop := u8 t.1.1 ∧ u8 t.1.2 ∧ u8 t.2.1 ∧ u8 t.2.2.

Lemma saved_lookup_low e i :
  length e = L → (i < 128)%nat → Z.of_nat i < area → saved e !! i = cleared e !! i.
Proof.
  intros He Hi Ha. pose proof (rd_save_all save_addr loc_addr L (rev (upto n)) (cleared e) i 1 separate_rev (length_cleared e He)) as H.
  assert (rd i 1 (saved e) !! 0%nat = rd i 1 (cleared e) !! 0%nat) as E.
  { unfold saved. rewrite H; [done|]. intros j Hj%rev_upto_in. left. unfold save_addr, save_area_entry_begin, CHECKSUM_LEN. lia. }
  rewrite !rd_lookup in E. case_decide; [|lia]. by rewrite Nat.add_0_r in E.
Qed.

Lemma save_all_bytes is_ e : Forall u8 e → Forall u8 (save_all save_addr loc_addr is_ e).
Proof.
  unfold save_all. revert e. induction is_ as [|i is_ IH]; intros e He; cbn [foldl]; [done|]. apply IH. unfold wr, rd.
  rewrite !Forall_app. auto using Forall_take, Forall_drop.
Qed.
Lemma saved_bytes e : Forall u8 e → length e = L → Forall u8 (saved e).
Proof. intros. by apply save_all_bytes, cleared_bytes. Qed.

Lemma u8_lxor a b : u8 a → u8 b → u8 (Z.lxor a b).
Proof. intros. apply lxor_in_u; [lia|done|done]. Qed.

Lemma checksum_bytes data : Forall u8 (finish_send (checksum_of data)).
Proof. unfold finish_send. apply Forall_app. split; apply to_le_bytes_u8. Qed.
Lemma length_checksum data : length (finish_send (checksum_of data)) = 8%nat.
Proof. unfold finish_send. by rewrite length_app, !length_to_le_bytes. Qed.

Lemma nth_u8 i l : Forall u8 l → u8 (nth i l 0).
Proof.
  intros Hl. destruct (nth_in_or_default i l 0) as [Hi| ->]; [|done]. rewrite Forall_forall in Hl. by apply Hl, list_elem_of_In.
Qed.

Lemma values_bytes e cs t : Forall u8 e → Forall u8 cs → tails_u8 t → Forall u8 (values_of e cs t).
Proof.
  intros He Hcs (H1 & H2 & H3 & H4). pose proof (nth_u8 0 cs Hcs). pose proof (nth_u8 7 cs Hcs). unfold values_of, realm, rd.
  rewrite !Forall_app. repeat split; auto using Forall_take, Forall_drop; repeat constructor; by apply u8_lxor.
Qed.
Lemma values_length e cs t : length cs = 8%nat → (length (values_of e cs t) < 256)%nat.
Proof.
  intros Hcs. unfold values_of. rewrite !length_app, Hcs. cbn [length]. rewrite length_take, length_drop. unfold realm, rd.
  rewrite length_take. destruct Hok. lia.
Qed.

Lemma rd_mark_same c is_ e j :
  length c = 8%nat → StronglySorted Z.lt is_ → separate save_addr loc_addr L is_ → length e = L → j ∈ is_ →
  rd (loc_addr j) 8 (mark_all loc_addr c is_ e) = c.
Proof.
  intros Hc. revert e. induction is_ as [|i is_ IH]; intros e Hsort Hs He Hj; [set_solver|]. apply StronglySorted_inv in Hsort as [Hsort Hlt].
  rewrite Forall_forall in Hlt. pose proof (sep_loc _ _ _ _ Hs i ltac:(set_solver)) as Hi. pose proof (separate_tail _ _ _ _ _ Hs) as Ht.
  unfold mark_all. cbn [foldl]. fold (mark_all loc_addr c is_ (wr (loc_addr i) c e)).
  destruct (decide (j ∈ is_)) as [Hin|Hnot]; [apply IH; [done|done|rewrite length_wr; lia|done]|].
  apply elem_of_cons in Hj as [->|]; [|done]. rewrite (rd_mark_all save_addr loc_addr L); [by apply rd_wr_same; [|lia]|done|done|rewrite length_wr; lia|].
  intros j' Hj'. apply (sep_later _ _ _ _ Hs i j'); [set_solver..|by apply Hlt].
Qed.

Lemma mark_all_low c is_ e i :
  length c = 8%nat → (∀ j, j ∈ is_ → 1 ≤ j ≤ n) → separate save_addr loc_addr L is_ → length e = L → (i < 128)%nat → mark_all loc_addr c is_ e !! i = e !! i.
Proof.
  intros Hc Hin Hs He Hi. assert (rd i 1 (mark_all loc_addr c is_ e) !! 0%nat = rd i 1 e !! 0%nat) as E.
  { rewrite (rd_mark_all save_addr loc_addr L); [done..|]. intros j Hj. left. pose proof (loc_128 j (Hin j Hj)). lia. }
  rewrite !rd_lookup in E. case_decide; [|lia]. by rewrite Nat.add_0_r in E.
Qed.
Lemma mark_all_agree c is_ e e' i :
  length c = 8%nat → separate save_addr loc_addr L is_ → length e = L → length e' = L → e !! i = e' !! i →
  mark_all loc_addr c is_ e !! i = mark_all loc_addr c is_ e' !! i.
Proof.
  intros Hc. unfold mark_all. revert e e'. induction is_ as [|j is_ IH]; intros e e' Hs He He' E; cbn [foldl]; [done|].
  pose proof (sep_loc _ _ _ _ Hs j ltac:(set_solver)). apply IH; [by eapply separate_tail|rewrite length_wr; lia..|].
  rewrite !wr_lookup by lia. by rewrite E.
Qed.

(** The commit identifier written for an extent. *)
Definition checksum_written (e : list Z) : list Z := finish_send (checksum_of (cleared e)).
Definition mask_exists (e : list Z) (t : tails2) : Prop := distinct_exists (values_of (saved e) (checksum_written e) t).

Record protected (e : list Z) (t : tails2) (c e' : list Z) : Prop := {
  pr_length : length e' = L;
  pr_bytes : Forall u8 e';
  pr_id : length c = 8%nat;
  pr_nonzero : any_zero (realm e') = false;
  pr_primary : primary_id e' = c;
  pr_marks j : 1 ≤ j ≤ n → rd (loc_addr j) 8 e' = c;
  pr_first : nth 0 c 0 ≠ t.1.1 ∧ nth 0 c 0 ≠ t.2.1;
  pr_last : nth 7 c 0 ≠ t.1.2 ∧ nth 7 c 0 ≠ t.2.2;
}.

Lemma any_zero_false l : any_zero l = false ↔ Forall (λ b, b ≠ 0) l.
Proof.
  unfold any_zero. induction l as [|b l IH]; cbn [existsb]; [done|]. rewrite orb_false_iff, IH, Forall_cons, Z.eqb_neq. split; intros [? ?]; split; congruence || done.
Qed.

Lemma mask_distinct e t k :
  length e = L → k ∉ values_of (saved e) (checksum_written e) t →
  let cs := checksum_written e in
  (∀ i x, saved e !! i = Some x → skip ≤ Z.of_nat i < 128 → ¬ (p ≤ Z.of_nat i < p + 9) → x ≠ k) ∧ Forall (λ b, b ≠ k) cs ∧
  (nth 0 (masked k cs) 0 ≠ t.1.1 ∧ nth 0 (masked k cs) 0 ≠ t.2.1) ∧ (nth 7 (masked k cs) 0 ≠ t.1.2 ∧ nth 7 (masked k cs) 0 ≠ t.2.2).
Proof.
  intros He Hk cs. unfold values_of in Hk. fold cs in Hk. rewrite !not_elem_of_app, !not_elem_of_cons in Hk.
  destruct Hk as (Hr0 & Hr1 & Hcs & (N1 & N2 & _) & (N3 & N4 & _)). pose proof (length_saved e He) as Hls. pose proof L_128.
  assert (length cs = 8%nat) as Hlc by apply length_checksum.
  assert (∀ x y, Z.lxor x k = y → k = Z.lxor y x) as Hx by (intros x y <-; rewrite (Z.lxor_comm x k), Z.lxor_assoc, Z.lxor_nilpotent, Z.lxor_0_r; done).
  assert (∀ i, (i < 8)%nat → nth i (masked k cs) 0 = Z.lxor (nth i cs 0) k) as Hn.
  { intros i Hi. unfold masked. destruct (lookup_lt_is_Some_2 cs i ltac:(lia)) as [x Hxx]. rewrite (nth_lookup_Some cs i 0 x Hxx).
    apply nth_lookup_Some. by rewrite list_lookup_fmap, Hxx. }
  split; [|split; [|rewrite !Hn by lia; split; split; intros E; by apply Hx in E]].
  - intros i x Hi Hir Hnot ->. destruct Hok. assert (realm (saved e) !! (i - Z.to_nat skip)%nat = Some k) as Hrl.
    { unfold realm. rewrite rd_lookup. case_decide; [|lia]. rewrite <-Hi. f_equal. lia. }
    destruct (Z.lt_ge_cases (Z.of_nat i) p).
    + apply Hr0. apply (list_elem_of_lookup_2 _ (i - Z.to_nat skip)). rewrite lookup_take_lt by (unfold p in *; lia). done.
    + apply Hr1. apply (list_elem_of_lookup_2 _ (i - Z.to_nat (p + 9))). rewrite lookup_drop. rewrite <-Hrl. f_equal. unfold p in *. lia.
  - apply Forall_forall. intros b Hb ->. done.
Qed.

Lemma mark_all_bytes c is_ e : Forall u8 c → Forall u8 e → Forall u8 (mark_all loc_addr c is_ e).
Proof.
  intros Hc. unfold mark_all. revert e. induction is_ as [|i is_ IH]; intros e He; cbn [foldl]; [done|]. apply IH. unfold wr.
  rewrite !Forall_app. auto using Forall_take, Forall_drop.
Qed.
Lemma applied_bytes k c e e' : u8 k → Forall u8 c → Forall u8 e → tier0_applied k c e e' → Forall u8 e'.
Proof.
  intros Hk Hc He [_ H]. apply Forall_lookup. intros i x. rewrite H. repeat case_decide; [by apply Forall_lookup_1|by intros [= <-]|..|by apply Forall_lookup_1].
  destruct (e !! i) as [y|] eqn:E; [|done]. intros [= <-]. apply u8_lxor; [by eapply Forall_lookup_1|done].
Qed.
Lemma masked_bytes k cs : u8 k → Forall u8 cs → Forall u8 (masked k cs).
Proof. intros Hk Hcs. apply Forall_fmap. eapply Forall_impl; [exact Hcs|]. intros x Hx. by apply u8_lxor. Qed.

(** What is written for an extent, for a mask. *)
Lemma written_protected e t k e2 :
  Forall u8 e → length e = L → 0 < k < 256 → k ∉ values_of (saved e) (checksum_written e) t →
  tier0_applied k (masked k (checksum_written e)) (saved e) e2 →
  let c := masked k (checksum_written e) in
  let e' := mark_all loc_addr c (upto n) e2 in
  protected e t c e' ∧ mask_of e' = k ∧ tier0_removed e' (mark_all loc_addr c (upto n) (saved e)).
Proof.
  intros Hb He Hk Hno [Hl2 H2] c e'. pose proof L_128. pose proof (length_saved e He) as Hls. rewrite Hls in Hl2.
  destruct (mask_distinct e t k He Hno) as (Hreg & Hcs & Hf & Hlast). fold c in Hf, Hlast.
  assert (length c = 8%nat) as Hlc by (unfold c, masked; rewrite length_fmap; apply length_checksum).
  pose proof (separate_upto L HL) as Hsep. assert (∀ j, j ∈ upto n → 1 ≤ j ≤ n) as Hup by (intros j; by rewrite elem_of_upto).
  assert (length e' = L) as He' by by apply (length_mark_all save_addr).
  assert (∀ i, (i < 128)%nat → e' !! i = e2 !! i) as Hlow by (intros i Hi; by apply mark_all_low).
  assert (mask_of e' = k) as Hmask.
  { unfold mask_of. apply nth_lookup_Some. destruct Hok. unfold p. rewrite Hlow, H2 by lia. unfold p. case_decide; [|lia]. case_decide; [lia|].
    case_decide; [done|lia]. }
  split; [|split; [done|]].
  - assert (Forall u8 c) as Hcb by (apply masked_bytes; [unfold in_u; change (2 ^ 8) with 256; lia|apply checksum_bytes]).
    split; [done| |done| | |by intros j Hj; apply rd_mark_same; [done|apply upto_sorted|done|done|apply elem_of_upto]|done|done].
    + apply mark_all_bytes; [done|]. apply (applied_bytes k c (saved e)); [|exact Hcb|by apply saved_bytes|split; [lia|exact H2]]. unfold in_u. change (2 ^ 8) with 256. lia.
    + apply any_zero_false, Forall_lookup. intros i x. unfold realm. rewrite rd_lookup. case_decide as Hi; [|done]. destruct Hok.
      rewrite Hlow, H2 by lia. case_decide; [|lia]. case_decide as Hp; [|case_decide as Hq].
      * intros Hx. unfold c, masked in Hx. rewrite list_lookup_fmap in Hx. destruct (checksum_written e !! _) as [b|] eqn:Eb; [|done].
        injection Hx as <-. intros E%Z.lxor_eq. by apply (Forall_lookup_1 _ _ _ _ Hcs) in Eb.
      * intros [= <-]. lia.
      * destruct (saved e !! (Z.to_nat skip + i)%nat) as [b|] eqn:Eb; [|done]. cbn. intros [= <-] E%Z.lxor_eq.
        apply (Hreg _ _ Eb); [lia|lia|done].
    + apply list_eq. intros i. unfold primary_id. rewrite rd_lookup. destruct Hok. unfold p in *. case_decide as Hi.
      * rewrite Hlow, H2 by lia. case_decide; [|lia]. case_decide; [|lia]. f_equal. lia.
      * symmetry. apply lookup_ge_None. lia.
  - split; [rewrite He'; by apply (length_mark_all save_addr)|]. intros i. rewrite Hmask. case_decide as Hi.
    + rewrite mark_all_low by (done || lia). rewrite Hlow, H2 by lia. fold c. destruct (decide (skip ≤ Z.of_nat i < 128)); [|lia]. destruct (decide (p ≤ Z.of_nat i < p + 9)) as [Hp|Hp].
      * rewrite saved_lookup_low by (done || unfold p, area in *; lia). rewrite cleared_lookup by done. case_decide; [|destruct Hok; unfold n in *; lia].
        case_decide as Hq; [|case_decide; [done|lia]]. destruct (lookup_lt_is_Some_2 c (Z.to_nat (Z.of_nat i - p)) ltac:(lia)) as [x ->]. done.
      * case_decide; [lia|]. case_decide; [lia|]. destruct (saved e !! i) as [b|]; [|done]. cbn. f_equal.
        by rewrite Z.lxor_assoc, Z.lxor_nilpotent, Z.lxor_0_r.
    + symmetry. apply mark_all_agree; try done. rewrite H2. by case_decide.
Qed.

Lemma protected_verified e t k c e' :
  Forall u8 e → length e = L → c = masked k (checksum_written e) → protected e t c e' → mask_of e' = k →
  tier0_removed e' (mark_all loc_addr c (upto n) (saved e)) →
  extent_integrity_protections_verify_and_remove e' skip off None io al bl = Ok (true, mk_state true false true (tails c, (0, 0)), cleared e).
Proof.
  intros Hb He Ec [Hl _ Hlc Hz Hp Hm Hf Hlast] Hk Hrem. pose proof L_128.
  destruct (protections_verify_Ok e' Hl) as (v & ev & Hv & _ & Hres). rewrite Hp, Hk in Hres.
  destruct (Hres (mark_all loc_addr c (upto n) (saved e)) (cleared e) Hz Hrem) as [-> Hfin].
  { unfold saved. apply (restore_mark_save save_addr loc_addr L); [done|apply upto_sorted|by apply separate_upto|by apply length_cleared|].
    intros i Hi%elem_of_upto. destruct (loc_bounds i Hi) as (_ & _ & H0 & H1). pose proof area_fits.
    apply list_eq. intros j. rewrite rd_lookup, cleared_lookup by done. unfold save_addr, save_area_entry_begin, area, CHECKSUM_LEN, p in *. destruct Hok.
    case_decide; [case_decide; [|lia]; symmetry; by apply lookup_replicate_2|]. symmetry. apply lookup_ge_None. rewrite length_replicate. lia. }
  assert (checksum_update checksum_new (cleared e) = checksum_of (cleared e)) as Ecs by (apply (checksum_update_of []); by apply cleared_bytes).
  assert (masked k c = checksum_written e) as Em.
  { rewrite Ec. unfold masked. rewrite <-list_fmap_compose. rewrite <-(list_fmap_id (checksum_written e)) at 2. apply list_fmap_ext. intros i x _. cbn.
    by rewrite Z.lxor_assoc, Z.lxor_nilpotent, Z.lxor_0_r. }
  rewrite Ecs, Em in Hfin. unfold checksum_written in Hfin. rewrite finish_receive_send in Hfin by (apply checksum_of_wf; by apply cleared_bytes).
  rewrite bool_decide_true in Hfin by done. injection Hfin as <-. rewrite Hv. do 3 f_equal.
  assert (tails c ≠ (0, 0)) as Ht by (rewrite <-Hp; apply tier0_valid_tails; [lia|done]).
  assert (all_zero (realm e') = false) as Hnz.
  { rewrite realm_split in Hz |- * by lia. unfold any_zero, all_zero in *. rewrite !existsb_app in Hz. rewrite !forallb_app.
    apply orb_false_iff in Hz as [_ [_ [Hz _]%orb_false_iff]%orb_false_iff]. cbn [existsb forallb] in *. rewrite orb_false_r in Hz. rewrite Hz.
    by rewrite !andb_false_r. }
  unfold determined, tier0_state. cbn [commit_id is_valid need_clear_tier0]. rewrite Hz, Hnz, Hp. cbn [negb].
  destruct (Z.eqb_spec bl 0) as [|Hb0]; [done|]. rewrite bool_decide_false by done. rewrite bool_decide_true; [done|]. unfold marker. by rewrite Hm by lia.
Qed.

Lemma tails_asserted_cases k cs t : tails_asserted k cs t = Ok tt ∨ debug_assertions = true ∧ tails_asserted k cs t = Panic.
Proof.
  unfold tails_asserted, debug_assert. by destruct debug_assertions; do 4 destruct (negb _); cbn [obind]; tauto.
Qed.

(** What [extent_integrity_protections_apply] does, unless an assertion on the tails fails. *)
Lemma apply_Ok e st :
  Forall u8 e → length e = L → tails_u8 (last_commit_ids_tails st) → need_clear st skip off bl = Ok false →
  mask_exists e (last_commit_ids_tails st) →
  ∃ c e', protected e (last_commit_ids_tails st) c e' ∧
    (extent_integrity_protections_apply e skip off st io al bl = Ok (mk_state true false true (tails c, (0, 0)), e') ∨
     debug_assertions = true ∧ extent_integrity_protections_apply e skip off st io al bl = Panic) ∧
    extent_integrity_protections_verify_and_remove e' skip off None io al bl = Ok (true, mk_state true false true (tails c, (0, 0)), cleared e).
Proof.
  intros Hb He Ht Hnc Hmask. unfold extent_integrity_protections_apply. rewrite Hnc. rewrite debug_check_true by done. cbn [obind].
  rewrite save_data_Ok by done. cbn [obind]. pose proof L_128. pose proof (length_saved e He) as Hls. fold (checksum_written e).
  assert (length (checksum_written e) = 8%nat) as Hlc by apply length_checksum.
  destruct (find_distinct_spec (values_of (saved e) (checksum_written e) (last_commit_ids_tails st))) as (k & Hk & Hk8 & Hno); [|by apply values_length|done|].
  { apply values_bytes; [by apply saved_bytes|apply checksum_bytes|done]. }
  destruct (tier0_apply_Ok (saved e) (checksum_written e) (last_commit_ids_tails st) k) as (e2 & -> & Happ); [lia|done|done|].
  pose proof Happ as [Hl2 _]. rewrite Hls in Hl2. set (c := masked k (checksum_written e)) in *.
  destruct (written_protected e (last_commit_ids_tails st) k e2 Hb He Hk8 Hno Happ) as (Hpr & Hmk & Hrem).
  exists c, (mark_all loc_addr c (upto n) e2). split; [done|]. split; [|by eapply protected_verified].
  destruct (tails_asserted_cases k (checksum_written e) (last_commit_ids_tails st)) as [->|[? ->]]; [left|by right]. cbn [obind].
  rewrite markers_Ok; [done| |lia]. unfold c, masked. by rewrite length_fmap.
Qed.
End Functions.

(** ** Theorems *)


(** The mask for the first 128 bytes is a byte that is neither zero nor one of the
    given values, if there are less than 256 values and not exactly the values from 1
    to 15 among those below 16; in that case a debug build panics and a release build
    returns 16, even if it is one of the values. *)
Lemma find_distinct_correct {B : Build} values :
  Forall u8 values → (length values < 256)%nat →
  (distinct_exists values → ∃ v, find_distinct_u8_value values = Ok v ∧ 0 < v < 256 ∧ v ∉ values) ∧
  (¬ distinct_exists values → find_distinct_u8_value values = if debug_assertions then Panic else Ok 16).
Proof.
  intros Hv Hl. split; [by apply find_distinct_spec|]. intros Hd. unfold find_distinct_u8_value.
  destruct (find_prefix values Hv Hl) as (c & -> & Hh & Hlt & H0). cbn [obind]. set (h := first_slot (λ n, n <? 16) c) in *.
  assert (h = 0) as Eh by (apply H0; rewrite <-below_16 by done; apply Nat.lt_nge; intros Hge; apply Hd; by left).
  rewrite (proj2 (Z.ltb_lt h 16)) by lia. ostep. destruct (find_suffix h values Hv Hh Hlt) as (c' & -> & Hr & Hok & Hbad). cbn [obind].
  assert (first_slot (λ n, n =? 0) c' = 16) as ->.
  { apply Hbad. split; [done|]. intros v Hv'. destruct (decide (v ∈ values)) as [|Hno]; [done|]. destruct Hd. right. by exists v. }
  rewrite Eh. unfold debug_assert. by destruct debug_assertions.
Qed.

(** *** Instances *)

Definition example_align : Alignment := λ _, 0%nat.
Definition example_extent : list Z := (λ n, 100 + (Z.of_nat n * 37) mod 151) <$> seq 0 512.
(** All values from 1 to 16 are in the protected bytes. *)
Definition unlucky_extent : list Z := replicate 8 77 ++ replicate 9 0 ++ (Z.of_nat <$> seq 1 16) ++ replicate 94 33 ++ [48].

Lemma extent_bytes (e : list Z) : forallb (λ b, (0 <=? b) && (b <? 256)) e = true → Forall u8 e.
Proof.
  intros H. apply Forall_forall. intros b Hb%list_elem_of_In. rewrite forallb_forall in H. specialize (H b Hb).
  apply andb_true_iff in H as [?%Z.leb_le ?%Z.ltb_lt]. by split.
Qed.

Lemma example_mask : mask_exists 8 0 1 1 example_extent ((0, 0), (0, 0)).
Proof. right. exists 1. split; [lia|]. apply (bool_decide_unpack _). by vm_compute. Qed.

Lemma example_sizes : sizes_ok (P:=64) 8 0 1 1.
Proof. by split. Qed.


Lemma find_distinct_correct_witness :
  find_distinct_u8_value (B:=release_build) (Z.of_nat <$> seq 1 16) = Ok 16.
Proof.
  apply (find_distinct_correct (B:=release_build) (Z.of_nat <$> seq 1 16)).
  - apply extent_bytes. by vm_compute.
  - cbn. lia.
  - intros [H|(v & Hv & H)]; [by vm_compute in H; lia|]. apply H, list_elem_of_fmap. exists (Z.to_nat v). split; [lia|]. apply elem_of_seq. lia.
Defined.


End Integrity.
