(* ===== verification/IntegrityTorn.v ===== *)
(** * Torn writes of protected extents

    The extent on storage and the state that is kept about it change with clearings,
    completed writes, torn writes, and the opening of the file system.  A torn write
    leaves the first device IO block partly new and partly old, with one boundary
    between the two parts. *)

From stdpp Require Import relations.
From S2P Require Import Prelude Errors Layout ImageLayout Crc32 Integrity.
Import Errors Layout ImageLayout Crc32 Integrity.

Module IntegrityTorn.

Section System.
Context {B : Build} {P : Platform} {A : Alignment}.
Variables skip off io al bl : Z.
Hypothesis Hok : sizes_ok skip off io al.
Hypothesis Hbl : 0 ≤ bl ≤ io + al.
Variable L : nat.
Hypothesis HL : 2 ^ (io + al + 7) ≤ Z.of_nat L.

(** The size of a device IO block. *)
Let b : nat := Z.to_nat (2 ^ (bl + 7)).

(** The extent after a torn write: the bytes before the boundary are those of the first
    argument, the others of the first block are of the second; the bytes behind the
    first block have been written before. *)
Definition torn (boundary : nat) (first second new : list Z) : list Z :=
  take boundary first ++ rd boundary (b - boundary) second ++ drop b new.
Definition clear_block (e : list Z) : list Z := wr 0 (replicate b 0) e.

Definition clear_needed (st : ExtentIntegrityState) : res bool := need_clear st skip off bl.
Definition write (e : list Z) (st : ExtentIntegrityState) : res (ExtentIntegrityState * list Z) :=
  extent_integrity_protections_apply e skip off st io al bl.
Definition read (e : list Z) : res (bool * ExtentIntegrityState * list Z) :=
  extent_integrity_protections_verify_and_remove e skip off None io al bl.
Definition writable (e : list Z) (st : ExtentIntegrityState) : Prop :=
  Forall u8 e ∧ length e = L ∧ clear_needed st = Ok false ∧ mask_exists skip off io al e (last_commit_ids_tails st).

(** What is on storage and the state kept about it. *)
Inductive step : list Z * ExtentIntegrityState → list Z * ExtentIntegrityState → Prop :=
| step_clear e st : step (e, st) (clear_block e, record_clear st)
(** A clearing that fails leaves anything behind, and is not recorded. *)
| step_clear_failed e st e' : clear_needed st = Ok true → Forall u8 e' → length e' = L → step (e, st) (e', st)
| step_write e st data new st' : writable data st → write data st = Ok (st', new) → step (e, st) (new, st')
| step_write_torn e st data new st' boundary st'' :
    writable data st → write data st = Ok (st', new) → record_failed_write st st' = Ok st'' → (boundary ≤ b)%nat →
    step (e, st) (torn boundary new e new, st'')
| step_write_torn_end e st data new st' boundary st'' :
    writable data st → write data st = Ok (st', new) → record_failed_write st st' = Ok st'' → (boundary ≤ b)%nat →
    step (e, st) (torn boundary e new new, st'')
(** The state is determined anew when the file system is opened. *)
| step_open e st st' : extent_integrity_protections_determine_state e skip off None io al bl = Ok st' → step (e, st) (e, st').

(** The documented invariants of the state. *)
Record state_wf (st : ExtentIntegrityState) : Prop := {
  coherence_tier0 : need_clear_for_coherence st = true → tier0_need_clear st = true;
  tier1_coherence : tier1_need_clear st = true → need_clear_for_coherence st = true;
  tier0_free_slot : tier0_need_clear st = false → (last_commit_ids_tails st).2 = (0, 0);
  tails_bytes : tails_u8 (last_commit_ids_tails st);
}.

Abbreviation ids st := (last_commit_ids_tails st).
Abbreviation realm := (realm skip).
Abbreviation primary_id := (primary_id skip off).
Abbreviation marker := (marker bl).

(** The state is that of the extent. *)
Record describes (st : ExtentIntegrityState) (e : list Z) : Prop := {
  zero_realm : tier0_need_clear st = false → Forall (eq 0) (realm e);
  known_tails : clear_needed st = Ok false → bl ≠ 0 →
    (tails (primary_id e) = (ids st).1 ∨ tails (primary_id e) = (ids st).2) ∧ (marker e = (ids st).1 ∨ marker e = (ids st).2);
}.

Lemma clear_needed_Ok st : state_wf st →
  clear_needed st = Ok (need_clear_for_coherence st || tier0_need_clear st && (tier1_need_clear st || (bl =? 0) || negb (off =? 0))).
Proof.
  intros [H1 H2 H3 _]. unfold clear_needed, need_clear, last_commit_ids_tails_has_free_slot. destruct (need_clear_for_coherence st).
  - rewrite H1 by done. ostep. done.
  - destruct (tier0_need_clear st); cbn [negb].
    + destruct (tier1_need_clear st); [done|]. cbn [orb andb]. destruct (bl =? 0); [done|]. by destruct (off =? 0).
    + rewrite H3 by done. rewrite bool_decide_true by done. ostep. done.
Qed.

Lemma coherent_describes st e : state_wf st → need_clear_for_coherence st = true → describes st e.
Proof.
  intros Hwf Hc. split.
  - intros Ht. by rewrite (coherence_tier0 _ Hwf Hc) in Ht.
  - rewrite clear_needed_Ok, Hc by done. done.
Qed.

Lemma b_bounds : (128 ≤ b ≤ L)%nat ∧ (bl = 0 → b = 128%nat) ∧ (bl ≠ 0 → (256 ≤ b)%nat ∧ loc_addr bl = (b - 8)%nat).
Proof.
  unfold b, loc_addr. pose proof (pow_ge bl ltac:(lia)). assert (2 ^ (bl + 7) ≤ 2 ^ (io + al + 7)) by (apply Z.pow_le_mono_r; lia).
  split; [lia|]. split; [intros ->; done|]. intros. lia.
Qed.

(** *** Clearings *)

Lemma clear_lookup e i : length e = L → clear_block e !! i = if decide (i < b)%nat then Some 0 else e !! i.
Proof.
  intros He. pose proof b_bounds as [? _]. unfold clear_block. rewrite wr_lookup by (rewrite length_replicate; lia). rewrite length_replicate.
  repeat case_decide; try lia; [|done]. apply lookup_replicate_2. lia.
Qed.
Lemma length_clear e : length e = L → length (clear_block e) = L.
Proof. intros He. pose proof b_bounds as [? _]. unfold clear_block. rewrite length_wr; [done|]. rewrite length_replicate. lia. Qed.
Lemma clear_bytes e : Forall u8 e → Forall u8 (clear_block e).
Proof. intros He. unfold clear_block, wr. rewrite !Forall_app. split_and!; auto using Forall_take, Forall_drop. by apply Forall_replicate. Qed.

Lemma clear_rd e a m : length e = L → (a + m ≤ b)%nat → rd a m (clear_block e) = replicate m 0.
Proof.
  intros He Ha. apply list_eq. intros i. rewrite rd_lookup, clear_lookup by done. case_decide as Hi; [|symmetry; apply lookup_ge_None; by rewrite length_replicate; lia].
  case_decide; [|lia]. symmetry. by apply lookup_replicate_2.
Qed.

Lemma clear_describes st e : length e = L → describes (record_clear st) (clear_block e).
Proof.
  intros He. pose proof b_bounds as (? & _ & Hb). destruct Hok. split.
  - intros _. unfold Integrity.realm. rewrite clear_rd by (done || lia). by apply Forall_replicate.
  - intros _ Hne. destruct (Hb Hne) as [? Hloc]. unfold Integrity.primary_id, Integrity.marker. rewrite !clear_rd by (done || lia). split; by left.
Qed.
Lemma clear_wf st : state_wf (record_clear st).
Proof. by split. Qed.

(** *** Determined states *)

Lemma tails_rd_bytes a e : Forall u8 e → u8 (tails (rd a 8 e)).1 ∧ u8 (tails (rd a 8 e)).2.
Proof. intros He. assert (Forall u8 (rd a 8 e)) by (unfold rd; auto using Forall_take, Forall_drop). split; by apply nth_u8. Qed.

Lemma all_zero_true l : all_zero l = true ↔ Forall (eq 0) l.
Proof.
  unfold all_zero. induction l as [|x l IH]; cbn [forallb]; [done|]. by rewrite andb_true_iff, Z.eqb_eq, IH, Forall_cons.
Qed.

Lemma primary_zero e : length e = L → Forall (eq 0) (realm e) → tails (primary_id e) = (0, 0).
Proof.
  intros He Hz. pose proof b_bounds as [? _]. rewrite (realm_split skip off io al Hok L) in Hz by (done || lia). rewrite !Forall_app in Hz. destruct Hz as (_ & Hz & _).
  unfold tails. assert (∀ i, nth i (primary_id e) 0 = 0) as Hn; [|by rewrite !Hn]. intros i.
  destruct (nth_in_or_default i (primary_id e) 0) as [Hi%list_elem_of_In| ->]; [|done]. rewrite Forall_forall in Hz. symmetry. by apply Hz.
Qed.

Lemma determined_wf e : Forall u8 e → length e = L → state_wf (determined bl (tier0_state skip off e) (marker e)).
Proof.
  intros Hb He. pose proof b_bounds as [? _]. unfold determined, tier0_state. cbn [commit_id is_valid need_clear_tier0].
  pose proof (tails_rd_bytes (Z.to_nat (skip + off)) e Hb) as Hp. fold (primary_id e) in Hp. pose proof (tails_rd_bytes (loc_addr bl) e Hb) as Hm. fold (marker e) in Hm.
  assert (any_zero (realm e) = false → all_zero (realm e) = false) as Hz.
  { intros Hz. destruct (all_zero (realm e)) eqn:E; [|done]. apply all_zero_true in E. exfalso.
    eapply (tier0_valid_tails skip off io al Hok L bl Hbl e ltac:(lia) Hz). by apply primary_zero. }
  assert (all_zero (realm e) = true → tails (primary_id e) = (0, 0)) as Hpz by (intros E%all_zero_true; by apply primary_zero).
  assert (∀ t, u8 t.1 → u8 t.2 → tails_u8 (t, (0, 0))) as H0 by (intros t ? ?; split; [done|split; [done|done]]).
  destruct Hp, Hm. destruct (bl =? 0); [|repeat case_bool_decide]; split; cbn [need_clear_for_coherence tier0_need_clear tier1_need_clear last_commit_ids_tails];
    rewrite ?negb_true_iff, ?negb_false_iff; auto; try done; try (split; [done|split; [done|done]]); by intros ?%Hpz.
Qed.

Lemma determined_describes e : Forall u8 e → length e = L → describes (determined bl (tier0_state skip off e) (marker e)) e.
Proof.
  intros Hb He. split.
  - intros Ht. apply all_zero_true. revert Ht. unfold determined, tier0_state. cbn [commit_id is_valid need_clear_tier0].
    repeat (case_match || case_bool_decide); cbn; by rewrite negb_false_iff.
  - intros _ Hne. unfold determined. rewrite (proj2 (Z.eqb_neq bl 0)) by done. cbn [commit_id tier0_state].
    repeat case_bool_decide; cbn [last_commit_ids_tails fst snd]; split; auto.
Qed.

Lemma determine_inv e st : Forall u8 e → length e = L →
  extent_integrity_protections_determine_state e skip off None io al bl = Ok st → st = determined bl (tier0_state skip off e) (marker e).
Proof.
  intros Hb He. pose proof b_bounds as [? _]. unfold extent_integrity_protections_determine_state. rewrite (tier0_verify_Ok skip off io al Hok L) by (done || lia). cbn [obind].
  rewrite (determine_Ok skip off io al Hok L HL bl Hbl) by (try done; intros Hv%negb_true_iff; by apply (tier0_valid_tails skip off io al Hok L bl Hbl); [lia|]).
  by intros [= <-].
Qed.

(** *** Writes *)

Lemma write_inv data st st' new : state_wf st → writable data st → write data st = Ok (st', new) →
  ∃ c, protected skip off io al L data (ids st) c new ∧ st' = mk_state true false true (tails c, (0, 0)).
Proof.
  intros Hwf (Hb & Hl & Hnc & Hm) Hw.
  destruct (apply_Ok skip off io al Hok L HL bl Hbl data st Hb Hl (tails_bytes _ Hwf) Hnc Hm) as (c & e' & Hp & [H|[_ H]] & _); unfold write in Hw; rewrite H in Hw; [|done].
  injection Hw as <- <-. by exists c.
Qed.

Lemma protected_tails data t c new : protected skip off io al L data t c new → u8 (tails c).1 ∧ u8 (tails c).2.
Proof. intros [_ Hb _ _ <- _ _ _]. by apply tails_rd_bytes. Qed.

Lemma written_wf data t c new : protected skip off io al L data t c new → state_wf (mk_state true false true (tails c, (0, 0))).
Proof. intros [? ?]%protected_tails. by split. Qed.

Lemma failed_wf st st' st'' : state_wf st → u8 (ids st').1.1 → u8 (ids st').1.2 → record_failed_write st st' = Ok st'' →
  state_wf st'' ∧ need_clear_for_coherence st'' = true.
Proof.
  intros Hwf H1 H2. unfold record_failed_write. intros ([] & _ & H)%obind_Ok_inv. pose proof (tails_bytes _ Hwf) as (? & ? & ? & ?).
  destruct (last_commit_ids_tails_has_free_slot st); injection H as <-; (split; [|done]); by split.
Qed.

Lemma torn_lookup boundary x y new i :
  length x = L → length y = L → length new = L → (boundary ≤ b)%nat →
  torn boundary x y new !! i = if decide (i < boundary)%nat then x !! i else if decide (i < b)%nat then y !! i else new !! i.
Proof.
  intros Hx Hy Hn Hq. pose proof b_bounds as [? _]. unfold torn. case_decide.
  - rewrite lookup_app_l by (rewrite length_take; lia). by rewrite lookup_take_lt by lia.
  - rewrite lookup_app_r by (rewrite length_take; lia). rewrite length_take, Nat.min_l by lia. case_decide.
    + rewrite lookup_app_l by (rewrite length_rd; lia). rewrite rd_lookup. case_decide; [|lia]. f_equal. lia.
    + rewrite lookup_app_r by (rewrite length_rd; lia). rewrite length_rd by lia. rewrite lookup_drop. f_equal. lia.
Qed.
Lemma length_torn boundary x y new : length x = L → length y = L → length new = L → (boundary ≤ b)%nat → length (torn boundary x y new) = L.
Proof.
  intros Hx Hy Hn Hq. pose proof b_bounds as [? _]. unfold torn. rewrite !length_app, length_take, length_rd, length_drop by lia. lia.
Qed.
Lemma torn_bytes boundary x y new : Forall u8 x → Forall u8 y → Forall u8 new → Forall u8 (torn boundary x y new).
Proof. intros. unfold torn, rd. rewrite !Forall_app. auto using Forall_take, Forall_drop. Qed.

(** *** Reachable states *)

Record inv (s : list Z * ExtentIntegrityState) : Prop := {
  inv_bytes : Forall u8 s.1;
  inv_length : length s.1 = L;
  inv_wf : state_wf s.2;
  inv_describes : describes s.2 s.1;
}.

Lemma coherent_inv e st : Forall u8 e → length e = L → state_wf st → need_clear_for_coherence st = true → inv (e, st).
Proof. intros. split; [done..|by apply coherent_describes]. Qed.

Lemma failed_inv e st e' data new st' st'' :
  inv (e, st) → writable data st → write data st = Ok (st', new) → record_failed_write st st' = Ok st'' →
  Forall u8 e' → length e' = L → inv (e', st'').
Proof.
  intros [_ _ Hwf _] Hw Hwr Hf ? ?. destruct (write_inv _ _ _ _ Hwf Hw Hwr) as (c & Hp & ->). destruct (protected_tails _ _ _ _ Hp).
  destruct (failed_wf st (mk_state true false true (tails c, (0, 0))) st'') as [? ?]; [done..|]. by apply coherent_inv.
Qed.

Lemma clear_failed_inv e st e' : inv (e, st) → clear_needed st = Ok true → Forall u8 e' → length e' = L → inv (e', st).
Proof.
  intros [_ _ Hwf _] Hc Hb Hl. cbn in *. split; [done..|]. split; cbn [fst snd]; [|by rewrite Hc].
  intros Ht. exfalso. rewrite clear_needed_Ok in Hc by done. cbn in Ht. rewrite Ht in Hc. rewrite orb_false_r in Hc. injection Hc as Hc.
  by rewrite (coherence_tier0 _ Hwf Hc) in Ht.
Qed.

Lemma step_inv s s' : inv s → step s s' → inv s'.
Proof.
  intros Hinv Hs. pose proof Hinv as [Hb Hl Hwf Hd]. destruct Hs as [e st|e st e' Hc|e st data new st' Hw Hwr|e st data new st' q st'' Hw Hwr Hf Hq
    |e st data new st' q st'' Hw Hwr Hf Hq|e st st' Hdet]; cbn [fst snd] in *.
  - split; [by apply clear_bytes|by apply length_clear|apply clear_wf|by apply clear_describes].
  - by eapply clear_failed_inv.
  - destruct (write_inv _ _ _ _ Hwf Hw Hwr) as (c & Hp & ->). pose proof Hp as [? ? _ _ _ _ _ _]. apply coherent_inv; [done..|by eapply written_wf|done].
  - destruct (write_inv _ _ _ _ Hwf Hw Hwr) as (c & [? ? _ _ _ _ _ _] & _). eapply failed_inv; try done; [by apply torn_bytes|by apply length_torn].
  - destruct (write_inv _ _ _ _ Hwf Hw Hwr) as (c & [? ? _ _ _ _ _ _] & _). eapply failed_inv; try done; [by apply torn_bytes|by apply length_torn].
  - apply determine_inv in Hdet as ->; [|done..]. split; [done|done|by apply determined_wf|by apply determined_describes].
Qed.
Lemma steps_inv s s' : inv s → rtc step s s' → inv s'.
Proof. induction 2; eauto using step_inv. Qed.

Lemma indeterminate_inv e : Forall u8 e → length e = L → inv (e, new_indeterminate).
Proof. intros. apply coherent_inv; [done..| |done]. by split. Qed.

(** *** Detection *)

Lemma rd_nth a e j : (a + 8 ≤ length e)%nat → (j < 8)%nat → e !! (a + j)%nat = Some (nth j (rd a 8 e) 0).
Proof.
  intros Ha Hj. destruct (lookup_lt_is_Some_2 e (a + j) ltac:(lia)) as [x Hx]. rewrite Hx. f_equal. symmetry. apply nth_lookup_Some.
  rewrite rd_lookup. by case_decide; [|lia].
Qed.

Lemma realm_zero_lookup e i : length e = L → Forall (eq 0) (realm e) → skip ≤ Z.of_nat i < 128 → e !! i = Some 0.
Proof.
  intros He Hz Hi. pose proof b_bounds as [? _]. destruct Hok. destruct (lookup_lt_is_Some_2 e i ltac:(lia)) as [x Hx]. rewrite Hx. f_equal. symmetry.
  apply (Forall_lookup_1 _ _ (i - Z.to_nat skip) _ Hz). unfold Integrity.realm. rewrite rd_lookup. case_decide; [|lia]. rewrite <-Hx. f_equal. lia.
Qed.
Lemma realm_nonzero_lookup e i : length e = L → any_zero (realm e) = false → skip ≤ Z.of_nat i < 128 → e !! i ≠ Some 0.
Proof.
  intros He Hz%any_zero_false Hi Hx. destruct Hok. eapply (Forall_lookup_1 _ _ (i - Z.to_nat skip) 0 Hz); [|done].
  unfold Integrity.realm. rewrite rd_lookup. case_decide; [|lia]. rewrite <-Hx. f_equal. lia.
Qed.

(** The tails of the identifiers in an extent that is verified are the same. *)
Lemma verified_tails e v st e' :
  length e = L → read e = Ok (v, st, e') → v = true →
  any_zero (realm e) = false ∧ (bl ≠ 0 → ∀ j, (j < 8)%nat → e !! (b - 8 + j)%nat = e !! (Z.to_nat (skip + off) + j)%nat).
Proof.
  intros He Hr Hv. pose proof b_bounds as (? & _ & Hb). destruct (protections_verify_Ok skip off io al Hok L HL bl Hbl e He) as (v' & e'' & H' & Htrue & _).
  unfold read in Hr. rewrite H' in Hr. injection Hr as -> _ _. destruct (Htrue Hv) as [Hz Hm]. split; [done|]. intros Hne j Hj.
  destruct (Hb Hne) as [? Hloc]. destruct Hok. rewrite !rd_nth by lia. rewrite <-Hloc. rewrite Hm by lia. done.
Qed.

(** The bytes at the ends of the identifiers in the old and in the new extent. *)
Lemma tails_differ old st data c new j :
  inv (old, st) → clear_needed st = Ok false → protected skip off io al L data (ids st) c new → bl ≠ 0 → j = 0%nat ∨ j = 7%nat →
  ∃ x, new !! (Z.to_nat (skip + off) + j)%nat = Some x ∧ new !! (b - 8 + j)%nat = Some x ∧
    old !! (Z.to_nat (skip + off) + j)%nat ≠ Some x ∧ old !! (b - 8 + j)%nat ≠ Some x.
Proof.
  intros [Hb Hl Hwf Hd] Hnc [Hl' _ Hlc _ Hp Hm [F1 F2] [G1 G2]] Hne Hj. cbn [fst snd] in *. pose proof b_bounds as (? & _ & Hb').
  destruct (Hb' Hne) as [? Hloc]. destruct (known_tails _ _ Hd Hnc Hne) as [K1 K2]. specialize (Hm bl ltac:(lia)). unfold Integrity.primary_id in *. unfold Integrity.marker in *.
  rewrite Hloc in *. exists (nth j c 0). destruct Hok. rewrite !rd_nth by lia. rewrite Hp, Hm. split_and!; [done..| |].
  - intros [= E]. unfold tails in K1. destruct Hj as [-> | ->]; rewrite E in K1; destruct K1 as [K1|K1]; apply (f_equal fst) in K1 as K3; apply (f_equal snd) in K1 as K4;
      cbn in K3, K4; congruence.
  - intros [= E]. unfold tails in K2. destruct Hj as [-> | ->]; rewrite E in K2; destruct K2 as [K2|K2]; apply (f_equal fst) in K2 as K3; apply (f_equal snd) in K2 as K4;
      cbn in K3, K4; congruence.
Qed.

Lemma torn_new_old_rejected old st data c new q v s' e' :
  inv (old, st) → clear_needed st = Ok false → protected skip off io al L data (ids st) c new → skip < Z.of_nat q → (q < b)%nat →
  read (torn q new old new) = Ok (v, s', e') → v = false.
Proof.
  intros Hinv Hnc Hpr Hq Hqb Hr. pose proof Hinv as [Hb Hl Hwf Hd]. cbn [fst snd] in *. pose proof Hpr as [Hln _ _ _ _ _ _ _]. pose proof b_bounds as (Hbb & Hb0 & Hb').
  destruct v; [|done]. exfalso. assert (length (torn q new old new) = L) as Hlt by (apply length_torn; lia || done).
  destruct (verified_tails _ _ _ _ Hlt Hr eq_refl) as [Hz Htl].
  assert (∀ i, torn q new old new !! i = if decide (i < q)%nat then new !! i else if decide (i < b)%nat then old !! i else new !! i) as Hlk
    by (intros; apply torn_lookup; lia || done).
  pose proof Hnc as Hcases. rewrite clear_needed_Ok in Hcases by done. injection Hcases as [Hc Hcases]%orb_false_iff. destruct Hok.
  destruct (decide (q < 128)%nat) as [Hlow|Hhigh].
  - destruct (tier0_need_clear st) eqn:Et.
    + cbn in Hcases. apply orb_false_iff in Hcases as [[_ Hne%Z.eqb_neq]%orb_false_iff Ho%negb_false_iff%Z.eqb_eq].
      destruct (Hb' Hne) as [? _]. destruct (decide (q ≤ Z.to_nat skip + 7)%nat).
      * destruct (tails_differ _ _ _ _ _ 0 Hinv Hnc Hpr Hne ltac:(by left)) as (x & X1 & _ & _ & X4). specialize (Htl Hne 0%nat ltac:(lia)). rewrite !Hlk in Htl.
        rewrite Ho, Z.add_0_r in *. repeat case_decide; try lia. congruence.
      * destruct (tails_differ _ _ _ _ _ 7 Hinv Hnc Hpr Hne ltac:(by right)) as (x & X1 & _ & _ & X4). specialize (Htl Hne 7%nat ltac:(lia)). rewrite !Hlk in Htl.
        rewrite Ho, Z.add_0_r in *. repeat case_decide; try lia. congruence.
    + apply (realm_nonzero_lookup _ 127 Hlt Hz); [lia|]. rewrite Hlk. case_decide; [lia|]. case_decide; [|lia].
      apply realm_zero_lookup; [done|by apply (zero_realm _ _ Hd)|lia].
  - assert (bl ≠ 0) as Hne by (intros E; specialize (Hb0 E); lia). destruct (Hb' Hne) as [? _].
    destruct (tails_differ _ _ _ _ _ 7 Hinv Hnc Hpr Hne ltac:(by right)) as (x & X1 & _ & _ & X4). specialize (Htl Hne 7%nat ltac:(lia)). rewrite !Hlk in Htl.
    repeat case_decide; try lia. congruence.
Qed.

Lemma torn_old_new_rejected old st data c new q v s' e' :
  inv (old, st) → clear_needed st = Ok false → protected skip off io al L data (ids st) c new → skip < Z.of_nat q → (q < b)%nat →
  read (torn q old new new) = Ok (v, s', e') → v = false.
Proof.
  intros Hinv Hnc Hpr Hq Hqb Hr. pose proof Hinv as [Hb Hl Hwf Hd]. cbn [fst snd] in *. pose proof Hpr as [Hln _ _ _ _ _ _ _]. pose proof b_bounds as (Hbb & Hb0 & Hb').
  destruct v; [|done]. exfalso. assert (length (torn q old new new) = L) as Hlt by (apply length_torn; lia || done).
  destruct (verified_tails _ _ _ _ Hlt Hr eq_refl) as [Hz Htl].
  assert (∀ i, torn q old new new !! i = if decide (i < q)%nat then old !! i else if decide (i < b)%nat then new !! i else new !! i) as Hlk
    by (intros; apply torn_lookup; lia || done).
  pose proof Hnc as Hcases. rewrite clear_needed_Ok in Hcases by done. injection Hcases as [Hc Hcases]%orb_false_iff. destruct Hok.
  destruct (tier0_need_clear st) eqn:Et.
  - cbn in Hcases. apply orb_false_iff in Hcases as [[_ Hne%Z.eqb_neq]%orb_false_iff Ho%negb_false_iff%Z.eqb_eq].
    destruct (Hb' Hne) as [? _]. destruct (decide (q ≤ Z.to_nat skip + 7)%nat).
    + destruct (tails_differ _ _ _ _ _ 0 Hinv Hnc Hpr Hne ltac:(by left)) as (x & _ & X2 & X3 & _). specialize (Htl Hne 0%nat ltac:(lia)). rewrite !Hlk in Htl.
      rewrite Ho, Z.add_0_r in *. repeat case_decide; try lia; congruence.
    + destruct (tails_differ _ _ _ _ _ 7 Hinv Hnc Hpr Hne ltac:(by right)) as (x & _ & X2 & X3 & _). specialize (Htl Hne 7%nat ltac:(lia)). rewrite !Hlk in Htl.
      rewrite Ho, Z.add_0_r in *. repeat case_decide; try lia; congruence.
  - apply (realm_nonzero_lookup _ (Z.to_nat skip) Hlt Hz); [lia|]. rewrite Hlk. case_decide; [|lia].
    apply realm_zero_lookup; [done|by apply (zero_realm _ _ Hd)|lia].
Qed.
End System.


Definition example_written : ExtentIntegrityState * list Z :=
  match write (B:=debug_build) (P:=64) (A:=example_align) 8 0 1 1 1 example_extent new_clean with Ok r => r | _ => (new_clean, []) end.


End IntegrityTorn.
