(* ===== verification/CacheWords.v ===== *)
(** * Packed subwords of the set-associative cache (storage/src/fs/cocoonfs/set_assoc_cache.rs)

    The functions that examine and rearrange the eight subwords of a word at once: a
    byte of a [u64] is a row of the LRU reference matrix of a cache set, a nibble of a
    [u32] is an entry of the list of its slots in the order of their keys. *)

From S2P Require Import Prelude BitManip BitmapSearch.
Import BitManip.
Export BitmapSearch.

Module CacheWords.

(** ** The code *)

Section Ops.
Context {B : Build} {E : Type}.

Abbreviation ok := (outcome E Z).

Definition MAX_ASSOCIATIVITY : Z := 8.

Definition subwords8_mask_lsb : Z :=
  let m := 1 in
  let m := Z.lor m (wrap 64 (Z.shiftl m 8)) in
  let m := Z.lor m (wrap 64 (Z.shiftl m 16)) in
  Z.lor m (wrap 64 (Z.shiftl m 32)).

Definition subwords4_mask_lsb : Z :=
  let m := 1 in
  let m := Z.lor m (wrap 32 (Z.shiftl m 4)) in
  let m := Z.lor m (wrap 32 (Z.shiftl m 8)) in
  Z.lor m (wrap 32 (Z.shiftl m 16)).

Definition subwords8_mask_is_zero_msb (x : Z) : ok :=
  let subwords8_mask_msb_inv := unot 64 (wrap 64 (Z.shiftl subwords8_mask_lsb 7)) in
  let! y := uadd 64 (Z.land x subwords8_mask_msb_inv) subwords8_mask_msb_inv in
  Ok (unot 64 (Z.lor (Z.lor y x) subwords8_mask_msb_inv)).

Definition find_least_significant_zero_byte (x : Z) : ok :=
  let! m := subwords8_mask_is_zero_msb x in Ok (Z.shiftr (trailing_zeros_from 64 m 0) 3).

Definition subwords4_mask_is_zero_msb (x : Z) : ok :=
  let subwords4_mask_msb_inv := unot 32 (wrap 32 (Z.shiftl subwords4_mask_lsb 3)) in
  let! y := uadd 32 (Z.land x subwords4_mask_msb_inv) subwords4_mask_msb_inv in
  Ok (unot 32 (Z.lor (Z.lor y x) subwords4_mask_msb_inv)).

Definition find_least_significant_zero_nibble (x : Z) : ok :=
  let! m := subwords4_mask_is_zero_msb x in Ok (Z.shiftr (trailing_zeros_from 32 m 0) 2).

(** One iteration of the compression, by a shift of [2^i]: the bits to compress, the
    mask of their positions, and the positions with a gap below. *)
Definition compress_step (i : Z) (st : Z * Z * Z) : Z * Z * Z :=
  let '(x, m, mk) := st in
  let c := subwords8_mask_lsb in
  let mp := Z.lxor mk (Z.land (wrap 64 (Z.shiftl mk 1)) (unot 64 c)) in
  let c := Z.lor c (wrap 64 (Z.shiftl c 1)) in
  let mp := Z.lxor mp (Z.land (wrap 64 (Z.shiftl mp 2)) (unot 64 c)) in
  let c := Z.lor c (wrap 64 (Z.shiftl c 2)) in
  let mp := Z.lxor mp (Z.land (wrap 64 (Z.shiftl mp 4)) (unot 64 c)) in
  let mv := Z.land mp m in
  let m := Z.lor (Z.lxor m mv) (Z.shiftr mv (2 ^ i)) in
  let t := Z.land x mv in
  let x := Z.lor (Z.lxor x t) (Z.shiftr t (2 ^ i)) in
  let mk := Z.land mk (unot 64 mp) in
  (x, m, mk).

Definition subwords8_compress (x m : Z) : Z :=
  let x := Z.land x m in
  let mk := Z.land (wrap 64 (Z.shiftl (unot 64 m) 1)) (unot 64 subwords8_mask_lsb) in
  (compress_step 2 (compress_step 1 (compress_step 0 (x, m, mk)))).1.1.

Definition subwords8_mask_all_set_lsb (x : Z) : Z :=
  let x := Z.land x (Z.shiftr x 1) in
  let x := Z.land x (Z.shiftr x 2) in
  let x := Z.land x (Z.shiftr x 4) in
  Z.land x subwords8_mask_lsb.

Definition subwords8_mask_all_set (x : Z) : ok :=
  let lsb := subwords8_mask_all_set_lsb x in
  let msb := wrap 64 (Z.shiftl lsb 7) in
  let! d := usub 64 msb lsb in
  Ok (Z.lor msb d).

(** The three updates of the LRU reference matrix: marking a slot as the most
    recently used one through a shared reference, by two atomic operations, and
    through an exclusive one, and marking it as unoccupied. *)
Definition lru_reference_slot_sync_or (lru_reference_matrix capacity slot : Z) : ok :=
  let! one := ushl 64 1 capacity in
  let! ones := usub 64 one 1 in
  let! shift := umul 32 8 slot in
  let! mask_referenced_slot := ushl 64 ones shift in
  Ok (Z.lor lru_reference_matrix mask_referenced_slot).
Definition lru_reference_slot_sync_and (fetched lru_reference_matrix slot : Z) : ok :=
  let! mask_unoccupied_slots := subwords8_mask_all_set fetched in
  let! column := ushl 64 subwords8_mask_lsb slot in
  Ok (Z.land lru_reference_matrix (Z.lor (unot 64 column) mask_unoccupied_slots)).
Definition lru_reference_slot_sync (lru_reference_matrix capacity slot : Z) : ok :=
  let! m := lru_reference_slot_sync_or lru_reference_matrix capacity slot in
  lru_reference_slot_sync_and lru_reference_matrix m slot.

Definition lru_reference_slot_locked (lru_reference_matrix capacity slot : Z) : ok :=
  let! shift := umul 32 8 slot in
  let! row := ushl 64 255 shift in
  let lru_reference_matrix_val := Z.land lru_reference_matrix (unot 64 row) in
  let! mask_unoccupied_slots := subwords8_mask_all_set lru_reference_matrix_val in
  let! one := ushl 64 1 capacity in
  let! ones := usub 64 one 1 in
  let! mask_referenced_slot := ushl 64 ones shift in
  let lru_reference_matrix_val := Z.lor lru_reference_matrix_val mask_referenced_slot in
  let! column := ushl 64 subwords8_mask_lsb slot in
  Ok (Z.land lru_reference_matrix_val (Z.lor (unot 64 column) mask_unoccupied_slots)).

Definition lru_remove_slot_locked (lru_reference_matrix slot : Z) : ok :=
  let! shift := umul 32 8 slot in
  let! row := ushl 64 255 shift in
  Ok (Z.lor lru_reference_matrix row).

(** The packed list of slots in key order. *)
Definition get_ordered_slot (ordered_slots ordered_slots_index : Z) : outcome E (option Z) :=
  let! shift := umul 32 4 ordered_slots_index in
  let! slot := ushr 32 ordered_slots shift in
  let slot := Z.land slot 15 in
  Ok (if negb (slot =? 0) then Some (slot - 1) else None).

Definition insert_ordered_slots_entry (ordered_slots insertion_index slot : Z) : ok :=
  let! _ := debug_assert (slot <? MAX_ASSOCIATIVITY) in
  let! _ := debug_assert (insertion_index <? MAX_ASSOCIATIVITY) in
  let! shift := umul 32 4 insertion_index in
  let! high := ushr 32 ordered_slots shift in
  let! entry := uadd 32 slot 1 in
  let! high := ushl 32 (Z.lor (wrap 32 (Z.shiftl high 4)) entry) shift in
  let! one := ushl 32 1 shift in
  let! mask := usub 32 one 1 in
  Ok (Z.lor high (Z.land ordered_slots mask)).

Definition remove_ordered_slots_entry (ordered_slots removal_index : Z) : ok :=
  let! shift := umul 32 4 removal_index in
  let! high := ushr 32 ordered_slots shift in
  let! high := ushl 32 (Z.shiftr high 4) shift in
  let! one := ushl 32 1 shift in
  let! mask := usub 32 one 1 in
  Ok (Z.lor high (Z.land ordered_slots mask)).

Definition reverse_lookup_ordered_slots_index (ordered_slots slot : Z) : outcome E (option Z) :=
  let! _ := debug_assert (slot <? MAX_ASSOCIATIVITY) in
  let! entry := uadd 32 slot 1 in
  let! entries := umul 32 entry subwords4_mask_lsb in
  let! ordered_slots_index := find_least_significant_zero_nibble (Z.lxor ordered_slots entries) in
  Ok (if negb (ordered_slots_index =? MAX_ASSOCIATIVITY) then Some ordered_slots_index else None).

End Ops.

Example find3 : find_least_significant_zero_byte (B:=debug_build) (E:=unit) 0x0102000300040506 = Ok 3.
Proof. vm_compute. reflexivity. Qed.
Example compress1 : subwords8_compress 0xff00ff00b3 0xaa00cc0096 = 0x0f000f000d.
Proof. vm_compute. reflexivity. Qed.

(** ** Subwords of a word

    A word consists of eight subwords of [w] bits. *)

Section Zero.
Context {B : Build} {E : Type}.
Variables (w : Z).
Hypothesis Hw : 1 < w.

Lemma subword_pos n : 0 ≤ n < 8 * w → n = w * (n / w) + n mod w ∧ 0 ≤ n / w < 8 ∧ 0 ≤ n mod w < w.
Proof. intros. pose proof (Z.div_mod n w ltac:(lia)). pose proof (Z.mod_pos_bound n w ltac:(lia)). split_and!; nia. Qed.

Lemma subword_index i j : 0 ≤ i < 8 → 0 ≤ j < w → (w * i + j) / w = i ∧ (w * i + j) mod w = j ∧ 0 ≤ w * i + j < 8 * w.
Proof.
  intros. split_and!; [|rewrite Z.add_comm, Z.mul_comm, Z.mod_add, Z.mod_small; lia|nia|nia].
  rewrite Z.add_comm, Z.mul_comm, Z.div_add, Z.div_small; lia.
Qed.

(** The top bits of the subwords that are zero (Hacker's Delight, 6-1). *)
Definition zero_msb (inv x : Z) : outcome E Z :=
  let! y := uadd (8 * w) (Z.land x inv) inv in Ok (unot (8 * w) (Z.lor (Z.lor y x) inv)).

Variable inv : Z.
Hypothesis Hinv : in_u (8 * w) inv ∧ ∀ n, 0 ≤ n < 8 * w → Z.testbit inv n = negb (n mod w =? w - 1).

Lemma pow_top : 2 ^ w = 2 * 2 ^ (w - 1).
Proof. rewrite <-Z.pow_succ_r; [f_equal; lia|lia]. Qed.

Lemma field_inv i : 0 ≤ i < 8 → field w i inv = 2 ^ (w - 1) - 1.
Proof.
  intros Hi. pose proof (pow2_pos (w - 1) ltac:(lia)). apply field_ext; [lia..| |].
  - pose proof pow_top. unfold in_u. lia.
  - intros j Hj. destruct (subword_index i j Hi Hj) as (_ & Hm & Hr). destruct Hinv as [_ Hbit]. rewrite Hbit, Hm by done.
    change (2 ^ (w - 1) - 1) with (Z.pred (2 ^ (w - 1))). rewrite <-Z.ones_equiv, Z.testbit_ones_nonneg by lia. zdec; lia || done.
Qed.

Lemma field_land_inv i x : 0 ≤ i < 8 → field w i (Z.land x inv) = field w i x mod 2 ^ (w - 1).
Proof.
  intros Hi. pose proof (pow2_pos (w - 1) ltac:(lia)). apply field_ext; [lia..| |].
  - pose proof (Z.mod_pos_bound (field w i x) (2 ^ (w - 1)) ltac:(lia)). pose proof pow_top. unfold in_u. lia.
  - intros j Hj. rewrite Z.land_spec. destruct (subword_index i j Hi Hj) as (_ & Hm & Hr). destruct Hinv as [_ Hbit]. rewrite Hbit, Hm by done.
    destruct (Z.lt_ge_cases j (w - 1)).
    + rewrite Z.mod_pow2_bits_low, field_testbit by lia. zdec; lia || by rewrite ?andb_true_r.
    + rewrite Z.mod_pow2_bits_high by lia. zdec; lia || by rewrite ?andb_false_r.
Qed.

Lemma subword_top v : in_u w v → Z.testbit v (w - 1) = true ↔ 2 ^ (w - 1) ≤ v.
Proof.
  intros Hv. pose proof (pow2_pos (w - 1) ltac:(lia)). rewrite Z.testbit_true by lia.
  pose proof pow_top as Hp. unfold in_u in Hv.
  destruct (Z.lt_ge_cases v (2 ^ (w - 1))).
  - rewrite Z.div_small by lia. split; [done|lia].
  - rewrite <-(Z.div_unique v (2 ^ (w - 1)) 1 (v - 2 ^ (w - 1))) by lia. split; [lia|done].
Qed.

Lemma zero_msb_Ok x :
  in_u (8 * w) x →
  ∃ z, zero_msb inv x = Ok z ∧ in_u (8 * w) z ∧
    ∀ n, 0 ≤ n < 8 * w → Z.testbit z n = (n mod w =? w - 1) && (field w (n / w) x =? 0).
Proof.
  intros Hx. destruct Hinv as [Hiu Hbit]. pose proof (pow2_pos (w - 1) ltac:(lia)) as Hp.
  pose proof pow_top as Hp2.
  set (a := Z.land x inv).
  assert (∀ i, 0 ≤ i < 8 → field w i a + field w i inv < 2 ^ w) as Hnc.
  { intros i Hi. unfold a. rewrite field_inv, field_land_inv by done. pose proof (Z.mod_pos_bound (field w i x) (2 ^ (w - 1)) ltac:(lia)). lia. }
  assert (in_u (8 * w) a) as Ha by (apply land_in_u; [lia|done|apply Hiu]).
  assert (a + inv < 2 ^ (8 * w)) as Hsum.
  { pose proof (low_add w 8 a inv ltac:(lia) Hnc) as Hl. replace (w * Z.of_nat 8) with (8 * w) in Hl by lia.
    unfold in_u in *. rewrite !Z.mod_small in Hl by lia. done. }
  unfold zero_msb. fold a. rewrite uadd_Ok by done. cbn [obind]. eexists. split; [done|].
  assert (in_u (8 * w) (a + inv)) as Hs by (unfold in_u in *; lia).
  split; [apply unot_in_u; [lia|]; repeat apply lor_in_u; done || lia|].
  intros n Hn. destruct (subword_pos n Hn) as (Hpos & Hi & Hj). rewrite unot_testbit, !Z.lor_spec, Hbit by done.
  destruct (Z.eqb_spec (n mod w) (w - 1)) as [Hm|]; cbn [negb andb]; [|by rewrite orb_true_r].
  rewrite orb_false_r, Hpos, <-!field_testbit, Hm by lia. rewrite Hm in Hpos. rewrite <-Hpos.
  rewrite field_add by (lia || intros; apply Hnc; lia). rewrite (Z.mod_small (_ + _)) by (split; [pose proof (field_bound w (n / w) a); pose proof (field_bound w (n / w) inv); lia|by apply Hnc]).
  unfold a. rewrite field_inv, field_land_inv by done.
  pose proof (field_bound w (n / w) x ltac:(lia)) as Hb. set (f := field w (n / w) x) in *. clearbody f.
  pose proof (Z.mod_pos_bound f (2 ^ (w - 1)) ltac:(lia)).
  pose proof (subword_top f Hb) as Ht1. pose proof (subword_top (f mod 2 ^ (w - 1) + (2 ^ (w - 1) - 1))) as Ht2.
  assert (Z.testbit f (w - 1) = true → f ≠ 0) by (intros ?%Ht1; lia).
  destruct (Z.testbit f (w - 1)) eqn:Etop.
  - rewrite orb_true_r. zcase; [tauto|done].
  - rewrite orb_false_r. assert (f < 2 ^ (w - 1)) by (destruct (Z.lt_ge_cases f (2 ^ (w - 1))); [done|by destruct Ht1 as [_ Ht1]; specialize (Ht1 ltac:(done))]).
    rewrite Z.mod_small by lia. rewrite Z.mod_small in Ht2 by lia. specialize (Ht2 ltac:(unfold in_u; lia)).
    destruct (Z.testbit (f + _) _); zcase; try done; [destruct Ht2 as [Ht2 _]; specialize (Ht2 eq_refl); lia|destruct Ht2 as [_ Ht2]; specialize (Ht2 ltac:(lia)); done].
Qed.

Lemma first_zero_Ok k x :
  0 ≤ k → w = 2 ^ k → in_u (8 * w) x →
  ∃ z p, zero_msb inv x = Ok z ∧ Z.shiftr (trailing_zeros_from (Z.to_nat (8 * w)) z 0) k = p ∧ 0 ≤ p ≤ 8 ∧
    (∀ i, 0 ≤ i < p → field w i x ≠ 0) ∧ (p < 8 → field w p x = 0).
Proof.
  intros Hk Hwk Hx. destruct (zero_msb_Ok x Hx) as (z & Hz & Hzu & Hbits). exists z. eexists. split; [done|]. split; [done|].
  destruct (trailing_zeros_from_spec (Z.to_nat (8 * w)) z 0) as (Ht3 & Ht1 & Ht2). rewrite Z2Nat.id in Ht1, Ht2 by lia.
  set (t := trailing_zeros_from _ _ _) in *. clearbody t. rewrite Z.shiftr_div_pow2, <-Hwk by done.
  assert (∀ i, 0 ≤ i < 8 → field w i x = 0 → t ≤ w * i + (w - 1)) as Hlow.
  { intros i Hi Hf. destruct (Z.lt_ge_cases (w * i + (w - 1)) t); [|done].
    destruct (subword_index i (w - 1) Hi ltac:(lia)) as (Hd & Hm & Hr).
    specialize (Ht3 (w * i + (w - 1)) ltac:(lia)). rewrite Hbits, Hd, Hm, Hf, !Z.eqb_refl in Ht3 by done. done. }
  destruct (Z.lt_ge_cases t (8 * w)) as [Hlt|Hge].
  - destruct (subword_pos t ltac:(lia)) as (Hpos & Hi & Hj). specialize (Ht2 ltac:(lia)). rewrite Hbits in Ht2 by lia.
    apply andb_true_iff in Ht2 as [Htm Htf]. rewrite Z.eqb_eq in Htm, Htf. split_and!; try lia.
    intros i Hi' Hf. specialize (Hlow i ltac:(lia) Hf). nia.
  - replace t with (8 * w) by lia. rewrite Z.div_mul by lia. split_and!; try lia. intros i Hi Hf. specialize (Hlow i Hi Hf). nia.
Qed.

End Zero.

(** ** Rows and entries

    [bit m i j]: bit [j] of row [i] of an LRU reference matrix; [full m i]: all of the
    row is set, which marks an unoccupied slot. *)

Definition bit (m i j : Z) : bool := Z.testbit m (8 * i + j).
Definition full (m i : Z) : bool := field 8 i m =? 255.

(** A statement about the positions of a word is checked on all of them. *)
Lemma position_forall (P : Z → bool) n : forallb P (seqZ 0 n) = true → ∀ i, 0 ≤ i < n → P i = true.
Proof. intros HP i Hi. rewrite forallb_forall in HP. apply HP, list_elem_of_In, elem_of_seqZ. lia. Qed.

Lemma mask8_bit i j : 0 ≤ i < 8 → 0 ≤ j < 8 → bit subwords8_mask_lsb i j = (j =? 0).
Proof.
  intros Hi Hj. pose proof (position_forall (λ n, eqb (Z.testbit subwords8_mask_lsb n) (n mod 8 =? 0)) 64 eq_refl (8 * i + j) ltac:(lia)) as H.
  apply eqb_prop in H. destruct (subword_index 8 ltac:(lia) i j Hi Hj) as (_ & Hm & _). by rewrite Hm in H.
Qed.
Lemma mask8_in_u : in_u 64 subwords8_mask_lsb.
Proof. by split. Qed.

Lemma bit_ext x y : in_u 64 x → in_u 64 y → (∀ i j, 0 ≤ i < 8 → 0 ≤ j < 8 → bit x i j = bit y i j) → x = y.
Proof.
  intros Hx Hy H. apply word_ext; [done..|]. intros n Hn. destruct (subword_pos 8 ltac:(lia) n Hn) as (Hn' & Hi & Hj). rewrite Hn'. by apply H.
Qed.
Lemma bit_field m i j : 0 ≤ i → 0 ≤ j < 8 → Z.testbit (field 8 i m) j = bit m i j.
Proof. intros. by rewrite field_testbit by lia. Qed.

Lemma field_eq_bits m i v : 0 ≤ i → in_u 8 v → field 8 i m = v ↔ ∀ j, 0 ≤ j < 8 → bit m i j = Z.testbit v j.
Proof.
  intros Hi Hv. split; [intros <- j Hj; by rewrite bit_field by lia|]. intros H. by apply field_ext; [lia..|done|].
Qed.
Lemma full_spec m i : 0 ≤ i → full m i = true ↔ ∀ j, 0 ≤ j < 8 → bit m i j = true.
Proof.
  intros Hi. unfold full. rewrite Z.eqb_eq, field_eq_bits by done. split; intros H j Hj; rewrite H by done; [|symmetry];
    change 255 with (Z.ones 8); rewrite Z.testbit_ones_nonneg by lia; zdec; done.
Qed.
Lemma zero_spec m i : 0 ≤ i → field 8 i m = 0 ↔ ∀ j, 0 ≤ j < 8 → bit m i j = false.
Proof. intros Hi. rewrite field_eq_bits by done. setoid_rewrite Z.bits_0. done. Qed.

Lemma bit_lor x y i j : bit (Z.lor x y) i j = bit x i j || bit y i j.
Proof. apply Z.lor_spec. Qed.
Lemma bit_land x y i j : bit (Z.land x y) i j = bit x i j && bit y i j.
Proof. apply Z.land_spec. Qed.
Lemma bit_unot x i j : 0 ≤ i < 8 → 0 ≤ j < 8 → bit (unot 64 x) i j = negb (bit x i j).
Proof. intros. unfold bit. apply unot_testbit. lia. Qed.
#[local] Hint Rewrite bit_lor bit_land : bits.
#[local] Hint Rewrite bit_unot using lia : bits.

(** A word shifted to row [s]; a column. *)
Lemma bit_row v s i j :
  in_u 8 v → 0 ≤ s < 8 → 0 ≤ i < 8 → 0 ≤ j < 8 →
  bit (wrap 64 (Z.shiftl v (8 * s))) i j = (i =? s) && Z.testbit v j.
Proof.
  intros Hv Hs Hi Hj. unfold bit, wrap. rewrite Z.mod_pow2_bits_low, Z.shiftl_spec by lia.
  destruct (Z.eqb_spec i s) as [->|]; cbn [andb]; [f_equal; lia|]. destruct (Z.lt_ge_cases i s).
  - apply Z.testbit_neg_r. lia.
  - apply (testbit_high 8); [done|lia].
Qed.
Lemma bit_column s i j :
  0 ≤ s < 8 → 0 ≤ i < 8 → 0 ≤ j < 8 → bit (wrap 64 (Z.shiftl subwords8_mask_lsb s)) i j = (j =? s).
Proof.
  intros Hs Hi Hj. unfold bit, wrap. rewrite Z.mod_pow2_bits_low, Z.shiftl_spec by lia.
  destruct (Z.lt_ge_cases j s).
  - destruct (Z.eqb_spec i 0) as [->|].
    + rewrite Z.testbit_neg_r by lia. zdec. done.
    + replace (8 * i + j - s) with (8 * (i - 1) + (j - s + 8)) by lia. change (Z.testbit _ _) with (bit subwords8_mask_lsb (i - 1) (j - s + 8)).
      rewrite mask8_bit by lia. zdec. done.
  - replace (8 * i + j - s) with (8 * i + (j - s)) by lia. change (Z.testbit _ _) with (bit subwords8_mask_lsb i (j - s)).
    rewrite mask8_bit by lia. repeat zcase; lia || done.
Qed.

Section Rows.
Context {B : Build} {E : Type}.

Lemma find_zero_byte_Ok x :
  in_u 64 x →
  ∃ p, find_least_significant_zero_byte (E:=E) x = Ok p ∧ 0 ≤ p ≤ 8 ∧
    (∀ i, 0 ≤ i < p → field 8 i x ≠ 0) ∧ (p < 8 → field 8 p x = 0).
Proof.
  intros Hx. set (inv := unot 64 (wrap 64 (Z.shiftl subwords8_mask_lsb 7))).
  assert (in_u (8 * 8) inv ∧ ∀ n, 0 ≤ n < 8 * 8 → Z.testbit inv n = negb (n mod 8 =? 8 - 1)) as Hinv.
  { split; [by split|]. intros n Hn.
    pose proof (position_forall (λ n, eqb (Z.testbit inv n) (negb (n mod 8 =? 7))) 64 eq_refl n Hn) as H. by apply eqb_prop in H. }
  destruct (first_zero_Ok 8 ltac:(lia) inv Hinv 3 x (E:=E) ltac:(lia) eq_refl Hx) as (z & p & Hz & Hp & H).
  exists p. split; [|done]. unfold find_least_significant_zero_byte. change (subwords8_mask_is_zero_msb x) with (zero_msb (E:=E) 8 inv x).
  rewrite Hz. cbn [obind]. f_equal. exact Hp.
Qed.

Lemma find_zero_nibble_Ok x :
  in_u 32 x →
  ∃ p, find_least_significant_zero_nibble (E:=E) x = Ok p ∧ 0 ≤ p ≤ 8 ∧
    (∀ i, 0 ≤ i < p → field 4 i x ≠ 0) ∧ (p < 8 → field 4 p x = 0).
Proof.
  intros Hx. set (inv := unot 32 (wrap 32 (Z.shiftl subwords4_mask_lsb 3))).
  assert (in_u (8 * 4) inv ∧ ∀ n, 0 ≤ n < 8 * 4 → Z.testbit inv n = negb (n mod 4 =? 4 - 1)) as Hinv.
  { split; [by split|]. intros n Hn.
    pose proof (position_forall (λ n, eqb (Z.testbit inv n) (negb (n mod 4 =? 3))) 32 eq_refl n Hn) as H. by apply eqb_prop in H. }
  destruct (first_zero_Ok 4 ltac:(lia) inv Hinv 2 x (E:=E) ltac:(lia) eq_refl Hx) as (z & p & Hz & Hp & H).
  exists p. split; [|done]. unfold find_least_significant_zero_nibble. change (subwords4_mask_is_zero_msb x) with (zero_msb (E:=E) 4 inv x).
  rewrite Hz. cbn [obind]. f_equal. exact Hp.
Qed.

Lemma all_set_lsb_bit x i j :
  in_u 64 x → 0 ≤ i < 8 → 0 ≤ j < 8 → bit (subwords8_mask_all_set_lsb x) i j = (j =? 0) && full x i.
Proof.
  intros Hx Hi Hj. unfold subwords8_mask_all_set_lsb. rewrite bit_land, mask8_bit, andb_comm by done. destruct (Z.eqb_spec j 0) as [->|]; [|done].
  cbn [andb]. unfold bit. rewrite !Z.land_spec, !Z.shiftr_spec, !Z.land_spec, !Z.shiftr_spec, !Z.land_spec, !Z.shiftr_spec by lia.
  apply eq_true_iff_eq. rewrite full_spec, !andb_true_iff by lia. unfold bit. split.
  - intros (((H0 & H1) & H2 & H3) & (H4 & H5) & H6 & H7) j Hj'.
    assert (j = 0 ∨ j = 1 ∨ j = 2 ∨ j = 3 ∨ j = 4 ∨ j = 5 ∨ j = 6 ∨ j = 7) as Hcases by lia.
    destruct_or! Hcases; subst j; [rewrite <-H0|rewrite <-H1|rewrite <-H2|rewrite <-H3|rewrite <-H4|rewrite <-H5|rewrite <-H6|rewrite <-H7]; f_equal; lia.
  - intros H. split_and!; rewrite <-?Z.add_assoc; apply H; lia.
Qed.

Lemma all_set_lsb_in_u x : in_u 64 x → in_u 64 (subwords8_mask_all_set_lsb x).
Proof.
  intros Hx. unfold subwords8_mask_all_set_lsb. repeat apply land_in_u; try done; apply Z.shiftr_nonneg; repeat (apply Z.land_nonneg; left || apply Z.shiftr_nonneg); apply Hx.
Qed.

Lemma all_set_lsb_field x i : in_u 64 x → 0 ≤ i < 8 → field 8 i (subwords8_mask_all_set_lsb x) = Z.b2z (full x i).
Proof.
  intros Hx Hi. apply field_eq_bits; [lia|destruct (full x i); done|]. intros j Hj. rewrite all_set_lsb_bit by done.
  destruct (full x i); rewrite ?andb_false_r, ?andb_true_r; cbn [Z.b2z].
  - destruct (Z.eqb_spec j 0) as [->|]; [done|]. symmetry. apply (testbit_high 1); [done|lia].
  - by rewrite Z.bits_0.
Qed.

Lemma mask_all_set_Ok x :
  in_u 64 x → ∃ z, subwords8_mask_all_set (E:=E) x = Ok z ∧ in_u 64 z ∧ ∀ i j, 0 ≤ i < 8 → 0 ≤ j < 8 → bit z i j = full x i.
Proof.
  intros Hx. unfold subwords8_mask_all_set. set (l := subwords8_mask_all_set_lsb x). set (m := wrap 64 (Z.shiftl l 7)).
  assert (in_u 64 l) as Hl by by apply all_set_lsb_in_u. assert (in_u 64 m) as Hm by by apply wrap_in_u.
  assert (∀ i, 0 ≤ i < 8 → field 8 i l = Z.b2z (full x i)) as Hfl by (intros; by apply all_set_lsb_field).
  assert (∀ i, 0 ≤ i < 8 → field 8 i m = 128 * Z.b2z (full x i)) as Hfm.
  { intros i Hi. apply field_eq_bits; [lia|destruct (full x i); done|]. intros j Hj. unfold bit, m, wrap.
    rewrite Z.mod_pow2_bits_low, Z.shiftl_spec by lia. destruct (Z.eqb_spec j 7) as [->|].
    - replace (8 * i + 7 - 7) with (8 * i + 0) by lia. change (Z.testbit l (8 * i + 0)) with (bit l i 0). unfold l. rewrite all_set_lsb_bit by (done || lia).
      by destruct (full x i).
    - assert (Z.testbit (128 * Z.b2z (full x i)) j = false) as ->.
      { destruct (full x i); cbn [Z.b2z]; [|by rewrite Z.bits_0]. change (128 * 1) with (2 ^ 7). apply Z.pow2_bits_false. lia. }
      destruct (Z.eqb_spec i 0) as [->|]; [apply Z.testbit_neg_r; lia|].
      replace (8 * i + j - 7) with (8 * (i - 1) + (j + 1)) by lia. change (Z.testbit l _) with (bit l (i - 1) (j + 1)).
      unfold l. rewrite all_set_lsb_bit by (done || lia). zdec. done. }
  assert (∀ i, 0 ≤ i < 8 → field 8 i l ≤ field 8 i m) as Hle by (intros i Hi; rewrite Hfl, Hfm by done; destruct (full x i); done).
  assert (l ≤ m) as Hlm.
  { pose proof (low_sub 8 8 m l ltac:(lia) Hle) as H. change (8 * Z.of_nat 8) with 64 in H. unfold in_u in *. rewrite !Z.mod_small in H by lia. done. }
  rewrite usub_Ok by done. cbn [obind]. eexists. split; [done|]. split; [apply lor_in_u; [lia|done|unfold in_u in *; lia]|].
  intros i j Hi Hj. rewrite bit_lor, <-!bit_field, field_sub by (lia || intros; apply Hle; lia). rewrite Hfl, Hfm by done.
  destruct (full x i); cbn [Z.b2z]; [|by rewrite Z.mul_0_r, Z.sub_0_r, Z.mod_0_l, Z.bits_0 by done].
  by apply eqb_prop, (position_forall (λ j, eqb (Z.testbit (128 * 1) j || Z.testbit ((128 * 1 - 1) mod 2 ^ 8) j) true) 8 eq_refl).
Qed.

(** What the updates of the matrix do to its bits. *)
Lemma ones_testbit c j : 0 ≤ c ≤ 8 → 0 ≤ j → Z.testbit (2 ^ c - 1) j = (j <? c).
Proof.
  intros Hc Hj. change (2 ^ c - 1) with (Z.pred (2 ^ c)). rewrite <-Z.ones_equiv, Z.testbit_ones_nonneg by lia. done.
Qed.
Lemma ones_in_u c : 0 ≤ c ≤ 8 → in_u 8 (2 ^ c - 1).
Proof. intros. unfold in_u. pose proof (Z.pow_le_mono_r 2 c 8 ltac:(lia) ltac:(lia)). pose proof (pow2_pos c). lia. Qed.

Lemma wrap_one w c : 0 ≤ c < w → wrap w (Z.shiftl 1 c) = 2 ^ c.
Proof. intros. rewrite Z.shiftl_1_l, wrap_small; [done|]. split; [pose proof (pow2_pos c); lia|apply Z.pow_lt_mono_r; lia]. Qed.

Lemma full_ext m m' i : 0 ≤ i → (∀ j, 0 ≤ j < 8 → bit m i j = bit m' i j) → full m i = full m' i.
Proof. intros Hi H. apply eq_true_iff_eq. rewrite !full_spec by done. by split; intros H' j Hj; [rewrite <-H|rewrite H]; auto. Qed.
Lemma full_false m i j : 0 ≤ i → 0 ≤ j < 8 → bit m i j = false → full m i = false.
Proof. intros Hi Hj H. apply not_true_is_false. rewrite full_spec by done. intros H'. by rewrite H' in H. Qed.

Lemma reference_slot_locked_Ok m c s :
  in_u 64 m → 0 ≤ c ≤ 8 → 0 ≤ s < 8 →
  ∃ m', lru_reference_slot_locked (E:=E) m c s = Ok m' ∧ in_u 64 m' ∧
    ∀ i j, 0 ≤ i < 8 → 0 ≤ j < 8 →
      bit m' i j = if i =? s then (j <? c) && negb (j =? s) else bit m i j && (negb (j =? s) || full m i).
Proof.
  intros Hm Hc Hs. unfold lru_reference_slot_locked. ostep. set (v := Z.land m (unot 64 (wrap 64 (Z.shiftl 255 (8 * s))))).
  assert (∀ i j, 0 ≤ i < 8 → 0 ≤ j < 8 → bit v i j = bit m i j && negb (i =? s)) as Hv.
  { intros i j Hi Hj. unfold v. rewrite bit_land, bit_unot, bit_row by (done || lia). f_equal. f_equal.
    change 255 with (2 ^ 8 - 1). rewrite ones_testbit by lia. zdec. by rewrite andb_true_r. }
  assert (in_u 64 v) as Hvu by (apply land_in_u; [lia|done|apply unot_in_u; [lia|by apply wrap_in_u]]).
  destruct (mask_all_set_Ok v Hvu) as (z & -> & Hzu & Hz). cbn [obind]. rewrite wrap_one by lia.
  pose proof (pow2_pos c ltac:(lia)). rewrite usub_Ok by lia. ostep. eexists. split; [done|].
  split. { apply land_in_u; [lia|apply lor_in_u; [lia|done|by apply wrap_in_u]|]. apply Z.lor_nonneg. split; [apply unot_in_u; [lia|by apply wrap_in_u]|apply Hzu]. }
  intros i j Hi Hj. rewrite bit_land, !bit_lor, Hv, bit_row, bit_unot, bit_column, Hz, ones_testbit by (done || lia || by apply ones_in_u).
  destruct (Z.eqb_spec i s) as [->|].
  - rewrite (full_false v s 0) by (lia || rewrite Hv, Z.eqb_refl by lia; by rewrite andb_false_r). cbn [negb]. by rewrite andb_false_r, orb_false_l, orb_false_r.
  - cbn [negb andb]. rewrite andb_true_r, orb_false_r. f_equal. f_equal. apply full_ext; [lia|]. intros k Hk. rewrite Hv by done. zdec. by rewrite andb_true_r.
Qed.

Lemma reference_slot_sync_Ok m c s :
  in_u 64 m → 0 ≤ c ≤ 8 → 0 ≤ s < 8 → full m s = false →
  ∃ m', lru_reference_slot_sync (E:=E) m c s = Ok m' ∧ in_u 64 m' ∧
    ∀ i j, 0 ≤ i < 8 → 0 ≤ j < 8 →
      bit m' i j = if i =? s then (bit m i j || (j <? c)) && negb (j =? s) else bit m i j && (negb (j =? s) || full m i).
Proof.
  intros Hm Hc Hs Hf. unfold lru_reference_slot_sync, lru_reference_slot_sync_or, lru_reference_slot_sync_and.
  rewrite shl_one by lia. cbn [obind]. pose proof (pow2_pos c ltac:(lia)). rewrite usub_Ok by lia. ostep.
  destruct (mask_all_set_Ok m Hm) as (z & -> & Hzu & Hz). ostep. eexists. split; [done|].
  split. { apply land_in_u; [lia|apply lor_in_u; [lia|done|by apply wrap_in_u]|]. apply Z.lor_nonneg. split; [apply unot_in_u; [lia|by apply wrap_in_u]|apply Hzu]. }
  intros i j Hi Hj. rewrite bit_land, !bit_lor, bit_row, bit_unot, bit_column, Hz, ones_testbit by (done || lia || by apply ones_in_u).
  destruct (Z.eqb_spec i s) as [->|]; [by rewrite Hf, orb_false_r|]. cbn [andb]. by rewrite orb_false_r.
Qed.

Lemma remove_slot_locked_Ok m s :
  in_u 64 m → 0 ≤ s < 8 →
  ∃ m', lru_remove_slot_locked (E:=E) m s = Ok m' ∧ in_u 64 m' ∧
    ∀ i j, 0 ≤ i < 8 → 0 ≤ j < 8 → bit m' i j = bit m i j || (i =? s).
Proof.
  intros Hm Hs. unfold lru_remove_slot_locked. ostep. eexists. split; [done|]. split; [apply lor_in_u; [lia|done|by apply wrap_in_u]|].
  intros i j Hi Hj. rewrite bit_lor, bit_row by (done || lia). change 255 with (2 ^ 8 - 1). rewrite ones_testbit by lia. zdec. by rewrite andb_true_r.
Qed.

End Rows.

(** ** The packed list of slots

    [pack l]: the slots [l] as one-based nibbles, the first one in the lowest. *)

Fixpoint pack (l : list nat) : Z := match l with [] => 0 | s :: l => Z.of_nat s + 1 + 16 * pack l end.

Definition slots_wf (l : list nat) : Prop := (length l ≤ 8)%nat ∧ Forall (λ s, s < 8)%nat l.

Lemma pack_app l l' : pack (l ++ l') = pack l + 16 ^ Z.of_nat (length l) * pack l'.
Proof.
  induction l as [|s l IH]; cbn [pack app length]; [lia|]. rewrite IH, Nat2Z.inj_succ, Z.pow_succ_r by lia. lia.
Qed.
Lemma pack_nibbles_bound l : Forall (λ s, s < 8)%nat l → 0 ≤ pack l < 16 ^ Z.of_nat (length l).
Proof.
  induction 1 as [|s l Hs Hl IH]; cbn [pack length]; [lia|]. rewrite Nat2Z.inj_succ, Z.pow_succ_r by lia. lia.
Qed.
Lemma pack_in_u l : slots_wf l → in_u 32 (pack l).
Proof.
  intros [Hlen Hl]. pose proof (pack_nibbles_bound l Hl). unfold in_u. change (2 ^ 32) with (16 ^ 8).
  pose proof (Z.pow_le_mono_r 16 (Z.of_nat (length l)) 8 ltac:(lia) ltac:(lia)). lia.
Qed.
Lemma pow16 n : 0 ≤ n → 16 ^ n = 2 ^ (4 * n).
Proof. intros. rewrite Z.pow_mul_r by lia. done. Qed.

Lemma pack_field l i : slots_wf l → field 4 (Z.of_nat i) (pack l) = match l !! i with Some s => Z.of_nat s + 1 | None => 0 end.
Proof.
  intros [_ Hl]. unfold field. rewrite <-pow16 by lia. change (2 ^ 4) with 16. destruct (l !! i) as [s|] eqn:Es.
  - apply list_elem_of_split_length in Es as (l1 & l2 & -> & ->). apply Forall_app in Hl as [Hl1 Hl2]. apply Forall_cons in Hl2 as [Hs Hl2].
    rewrite pack_app. pose proof (pack_nibbles_bound l1 Hl1). rewrite Z.mul_comm, Z.div_add, Z.div_small by lia. cbn [pack].
    rewrite Z.add_0_l, Z.mul_comm, Z.mod_add, Z.mod_small; lia.
  - apply lookup_ge_None in Es. pose proof (pack_nibbles_bound l Hl). pose proof (Z.pow_le_mono_r 16 (Z.of_nat (length l)) (Z.of_nat i) ltac:(lia) ltac:(lia)).
    rewrite Z.div_small by lia. done.
Qed.

Lemma slots_wf_app l l' : slots_wf (l ++ l') ↔ (length l + length l' ≤ 8)%nat ∧ Forall (λ s, s < 8)%nat l ∧ Forall (λ s, s < 8)%nat l'.
Proof. unfold slots_wf. rewrite length_app, Forall_app. done. Qed.
Lemma slots_wf_Permutation l l' : l ≡ₚ l' → slots_wf l → slots_wf l'.
Proof. unfold slots_wf. intros Hp. by rewrite (Permutation_length Hp), Hp. Qed.

Section Packed.
Context {B : Build} {E : Type}.

Lemma get_ordered_slot_Ok l i :
  slots_wf l → (i < 8)%nat → get_ordered_slot (E:=E) (pack l) (Z.of_nat i) = Ok (Z.of_nat <$> l !! i).
Proof.
  intros Hl Hi. unfold get_ordered_slot. ostep. f_equal. change 15 with (Z.ones 4). rewrite Z.land_ones, Z.shiftr_div_pow2 by lia.
  change ((pack l / 2 ^ (4 * Z.of_nat i)) mod 2 ^ 4) with (field 4 (Z.of_nat i) (pack l)). rewrite pack_field by done.
  destruct (l !! i) as [s|]; [|done]. zdec. cbn. f_equal. lia.
Qed.

Lemma occupied_count_Ok l : slots_wf l → find_least_significant_zero_nibble (E:=E) (pack l) = Ok (Z.of_nat (length l)).
Proof.
  intros Hl. destruct (find_zero_nibble_Ok (E:=E) (pack l) (pack_in_u l Hl)) as (p & -> & Hp & Hnz & Hz). f_equal.
  assert (∀ i, field 4 (Z.of_nat i) (pack l) = 0 ↔ (length l ≤ i)%nat) as Hf.
  { intros i. rewrite pack_field by done. rewrite <-lookup_ge_None. destruct (l !! i); split; intros; lia || done. }
  destruct Hl as [Hlen _]. assert (¬ Z.of_nat (length l) < p) by (intros Hlt; apply (Hnz (Z.of_nat (length l))); [lia|by apply Hf]).
  assert (¬ p < Z.of_nat (length l)); [|lia]. intros Hlt. specialize (Hz ltac:(lia)). rewrite <-(Z2Nat.id p) in Hz by lia. apply Hf in Hz. lia.
Qed.

Lemma insert_entry_Ok l l' s :
  slots_wf (l ++ s :: l') →
  insert_ordered_slots_entry (E:=E) (pack (l ++ l')) (Z.of_nat (length l)) (Z.of_nat s) = Ok (pack (l ++ s :: l')).
Proof.
  intros (Hlen & Hl & Hl')%slots_wf_app. cbn [length] in Hlen. apply Forall_cons in Hl' as [Hs Hl'].
  pose proof (pack_nibbles_bound l Hl) as Hb. pose proof (pack_nibbles_bound l' Hl') as Hb'. rewrite pow16 in Hb by lia.
  unfold insert_ordered_slots_entry, MAX_ASSOCIATIVITY. ostep. zdec. ostep. rewrite wrap_one by lia.
  pose proof (pow2_pos (4 * Z.of_nat (length l)) ltac:(lia)) as Hpos. rewrite usub_Ok by lia. ostep.
  rewrite !pack_app, pow16, Z.shiftr_div_pow2 by lia. set (q := 4 * Z.of_nat (length l)) in *.
  rewrite (Z.mul_comm (2 ^ q)), Z.div_add, Z.div_small, Z.add_0_l by lia.
  assert (pack l' * 16 < 2 ^ (32 - q)) as Hfit.
  { assert (16 * 16 ^ Z.of_nat (length l') ≤ 2 ^ (32 - q)); [|lia]. rewrite <-Z.pow_succ_r, pow16 by lia. apply Z.pow_le_mono_r; lia. }
  assert (2 ^ 32 = 2 ^ (32 - q) * 2 ^ q) as Hsplit by (rewrite <-Z.pow_add_r by lia; f_equal; lia).
  assert (pack l' * 16 < 2 ^ 32) by nia.
  rewrite (wrap_small 32 (Z.shiftl (pack l') 4)) by (rewrite Z.shiftl_mul_pow2 by lia; change (2 ^ 4) with 16; unfold in_u; lia).
  rewrite (Z.lor_comm (Z.shiftl (pack l') 4)), (lor_shiftl_add _ (pack l')) by (lia || (unfold in_u; change (2 ^ 4) with 16; lia)). change (2 ^ 4) with 16.
  assert (Z.of_nat s + 1 + pack l' * 16 < 2 ^ (32 - q)) as Hfit'.
  { assert (2 ^ (32 - q) = 16 * 2 ^ (28 - q)) as Hd by (change 16 with (2 ^ 4); rewrite <-Z.pow_add_r by lia; f_equal; lia). lia. }
  rewrite wrap_small by (rewrite Z.shiftl_mul_pow2 by lia; unfold in_u; nia).
  replace (2 ^ q - 1) with (Z.ones q) by (rewrite Z.ones_equiv; lia). rewrite Z.land_ones by lia.
  rewrite Z.mod_add, Z.mod_small by lia. rewrite Z.lor_comm, lor_shiftl_add by (done || lia). cbn [pack]. f_equal. lia.
Qed.

Lemma remove_entry_Ok l l' s :
  slots_wf (l ++ s :: l') →
  remove_ordered_slots_entry (E:=E) (pack (l ++ s :: l')) (Z.of_nat (length l)) = Ok (pack (l ++ l')).
Proof.
  intros (Hlen & Hl & Hl')%slots_wf_app. cbn [length] in Hlen. apply Forall_cons in Hl' as [Hs Hl'].
  pose proof (pack_nibbles_bound l Hl) as Hb. pose proof (pack_nibbles_bound l' Hl') as Hb'. rewrite pow16 in Hb by lia.
  unfold remove_ordered_slots_entry. ostep. rewrite wrap_one by lia.
  pose proof (pow2_pos (4 * Z.of_nat (length l)) ltac:(lia)) as Hpos. rewrite usub_Ok by lia. ostep.
  rewrite !pack_app, pow16, !Z.shiftr_div_pow2 by lia. set (q := 4 * Z.of_nat (length l)) in *.
  rewrite (Z.mul_comm (2 ^ q) (pack (s :: l'))), Z.div_add, (Z.div_small (pack l)), Z.add_0_l by lia. cbn [pack]. change (2 ^ 4) with 16.
  rewrite (Z.mul_comm 16), Z.div_add, Z.div_small, Z.add_0_l by lia.
  assert (pack l' < 2 ^ (32 - q)) as Hfit.
  { assert (16 ^ Z.of_nat (length l') ≤ 2 ^ (32 - q)); [|lia]. rewrite pow16 by lia. apply Z.pow_le_mono_r; lia. }
  assert (2 ^ 32 = 2 ^ (32 - q) * 2 ^ q) as Hsplit by (rewrite <-Z.pow_add_r by lia; f_equal; lia).
  rewrite wrap_small by (rewrite Z.shiftl_mul_pow2 by lia; unfold in_u; nia).
  replace (2 ^ q - 1) with (Z.ones q) by (rewrite Z.ones_equiv; lia). rewrite Z.land_ones by lia.
  rewrite Z.mod_add, Z.mod_small by lia. rewrite Z.lor_comm, lor_shiftl_add by (done || lia). f_equal. lia.
Qed.

Lemma entries_field s i : (s < 8)%nat → 0 ≤ i < 8 → field 4 i ((Z.of_nat s + 1) * subwords4_mask_lsb) = Z.of_nat s + 1.
Proof.
  intros Hs Hi. apply Z.eqb_eq.
  exact (position_forall (λ i, field 4 i ((Z.of_nat s + 1) * subwords4_mask_lsb) =? Z.of_nat s + 1) 8 ltac:(do 8 (destruct s as [|s]; [reflexivity|]); lia) i Hi).
Qed.

(** The least index of a slot's nibble, or eight. *)
Lemma find_slot_Ok l s :
  slots_wf l → (s < 8)%nat →
  ∃ e p, uadd (E:=E) 32 (Z.of_nat s) 1 = Ok (Z.of_nat s + 1) ∧ umul (E:=E) 32 (Z.of_nat s + 1) subwords4_mask_lsb = Ok e ∧
    find_least_significant_zero_nibble (E:=E) (Z.lxor (pack l) e) = Ok (Z.of_nat p) ∧
    ((l !! p = Some s ∧ (p < 8)%nat) ∨ (s ∉ l ∧ p = 8%nat)).
Proof.
  intros Hl Hs. exists ((Z.of_nat s + 1) * subwords4_mask_lsb). change subwords4_mask_lsb with 286331153. 
  assert (in_u 32 ((Z.of_nat s + 1) * 286331153)) as He by (unfold in_u; change (2 ^ 32) with 4294967296; lia).
  destruct (find_zero_nibble_Ok (E:=E) (Z.lxor (pack l) ((Z.of_nat s + 1) * 286331153))) as (p & Hp & Hr & Hnz & Hz).
  { apply lxor_in_u; [lia|by apply pack_in_u|done]. }
  exists (Z.to_nat p). rewrite Z2Nat.id by lia. rewrite uadd_Ok by lia. rewrite umul_Ok by apply He. split_and!; [done..|].
  assert (∀ i, (i < 8)%nat → field 4 (Z.of_nat i) (Z.lxor (pack l) ((Z.of_nat s + 1) * 286331153)) = 0 ↔ l !! i = Some s) as Hf.
  { intros i Hi. assert (∀ x y j, 0 ≤ j → field 4 j (Z.lxor x y) = Z.lxor (field 4 j x) (field 4 j y)) as Hx.
    { intros x y j Hj. unfold field. rewrite <-!Z.land_ones, <-!Z.shiftr_div_pow2, Z.shiftr_lxor by lia. apply Z.bits_inj'. intros n Hn.
      rewrite !Z.land_spec, !Z.lxor_spec, !Z.land_spec. by destruct (Z.testbit (Z.ones 4) n); rewrite ?andb_true_r, ?andb_false_r. }
    rewrite Hx, (entries_field s), pack_field, Z.lxor_eq_0_iff by (done || lia).
    destruct (l !! i) as [s'|]; [|split; [lia|done]]. split; [intros; f_equal; lia|intros [= ->]; done]. }
  destruct (Z.lt_ge_cases p 8) as [Hlt|Hge].
  - left. specialize (Hz Hlt). rewrite <-(Z2Nat.id p) in Hz by lia. apply Hf in Hz; [|lia]. split; [done|lia].
  - right. split; [|lia]. intros [i Hi]%list_elem_of_lookup. assert (i < 8)%nat by (apply lookup_lt_Some in Hi; destruct Hl; lia).
    apply Hf in Hi; [|done]. exfalso. apply (Hnz (Z.of_nat i)); [lia|done].
Qed.

Lemma reverse_lookup_Ok l s :
  slots_wf l → (s < 8)%nat →
  ∃ o, reverse_lookup_ordered_slots_index (E:=E) (pack l) (Z.of_nat s) = Ok (Z.of_nat <$> o) ∧
    match o with Some p => l !! p = Some s ∧ (p < 8)%nat | None => s ∉ l end.
Proof.
  intros Hl Hs. destruct (find_slot_Ok l s Hl Hs) as (e & p & Ha & Hm & Hf & Hp).
  exists (if decide (p = 8)%nat then None else Some p). unfold reverse_lookup_ordered_slots_index, MAX_ASSOCIATIVITY. zdec. ostep.
  rewrite Hm. cbn [obind]. rewrite Hf. cbn [obind]. destruct (decide (p = 8%nat)) as [->|].
  - split; [done|]. destruct Hp as [[_ ?]|[? _]]; [lia|done].
  - split; [zdec; done|]. destruct Hp as [|[_ ?]]; [done|lia].
Qed.

End Packed.

(** ** Compression of rows

    [pext v m]: the bits of the byte [v] at the positions set in [m], moved together
    to the low end. *)

Fixpoint pext_from (n : nat) (j v m : Z) : Z :=
  match n with
  | O => 0
  | S n => if Z.testbit m j then Z.b2z (Z.testbit v j) + 2 * pext_from n (j + 1) v m else pext_from n (j + 1) v m
  end.
Definition pext (v m : Z) : Z := pext_from 8 0 v m.

(** The compression of one byte. *)
Definition step8 (i : Z) (st : Z * Z * Z) : Z * Z * Z :=
  let '(x, m, mk) := st in
  let mp := Z.lxor mk (wrap 8 (Z.shiftl mk 1)) in
  let mp := Z.lxor mp (wrap 8 (Z.shiftl mp 2)) in
  let mp := Z.lxor mp (wrap 8 (Z.shiftl mp 4)) in
  let mv := Z.land mp m in
  let t := Z.land x mv in
  (Z.lor (Z.lxor x t) (Z.shiftr t (2 ^ i)), Z.lor (Z.lxor m mv) (Z.shiftr mv (2 ^ i)), Z.land mk (unot 8 mp)).
Definition moved8 (st : Z * Z * Z) : Z :=
  let '(x, m, mk) := st in
  let mp := Z.lxor mk (wrap 8 (Z.shiftl mk 1)) in
  let mp := Z.lxor mp (wrap 8 (Z.shiftl mp 2)) in
  let mp := Z.lxor mp (wrap 8 (Z.shiftl mp 4)) in
  Z.land mp m.
Definition start8 (x m : Z) : Z * Z * Z := (Z.land x m, m, wrap 8 (Z.shiftl (unot 8 m) 1)).

Section Compress.

Lemma row_ext m i v : 0 ≤ i → in_u 8 v → (∀ j, 0 ≤ j < 8 → bit m i j = Z.testbit v j) → field 8 i m = v.
Proof. intros. by apply field_eq_bits. Qed.
Lemma row_in_u m i : in_u 8 (field 8 i m).
Proof. unfold in_u. by apply field_bound. Qed.

Lemma row_land x y i : 0 ≤ i → field 8 i (Z.land x y) = Z.land (field 8 i x) (field 8 i y).
Proof.
  intros Hi. apply row_ext; [done|apply land_in_u; [lia|apply row_in_u|apply row_in_u]|]. intros j Hj. by rewrite bit_land, Z.land_spec, !bit_field.
Qed.
Lemma row_lor x y i : 0 ≤ i → field 8 i (Z.lor x y) = Z.lor (field 8 i x) (field 8 i y).
Proof.
  intros Hi. apply row_ext; [done|apply lor_in_u; [lia|apply row_in_u|apply row_in_u]|]. intros j Hj. by rewrite bit_lor, Z.lor_spec, !bit_field.
Qed.
Lemma row_lxor x y i : 0 ≤ i → field 8 i (Z.lxor x y) = Z.lxor (field 8 i x) (field 8 i y).
Proof.
  intros Hi. apply row_ext; [done|apply lxor_in_u; [lia|apply row_in_u|apply row_in_u]|]. intros j Hj. rewrite Z.lxor_spec, !bit_field by done. apply Z.lxor_spec.
Qed.
Lemma row_unot x i : 0 ≤ i < 8 → field 8 i (unot 64 x) = unot 8 (field 8 i x).
Proof.
  intros Hi. apply row_ext; [lia|apply unot_in_u; [lia|apply row_in_u]|]. intros j Hj. by rewrite bit_unot, unot_testbit, bit_field by lia.
Qed.

(** Shifts of all the rows: to the left where what crosses into the next row is
    masked out, to the right where nothing crosses. *)
Lemma row_shl x c k i :
  0 ≤ i < 8 → 0 ≤ k < 8 → (∀ j, 0 ≤ j < 8 → bit c i j = (j <? k)) →
  field 8 i (Z.land (wrap 64 (Z.shiftl x k)) (unot 64 c)) = wrap 8 (Z.shiftl (field 8 i x) k).
Proof.
  intros Hi Hk Hc. apply row_ext; [lia|by apply wrap_in_u|]. intros j Hj. rewrite bit_land, bit_unot, Hc by lia.
  unfold bit, wrap. rewrite !Z.mod_pow2_bits_low, !Z.shiftl_spec by lia. destruct (Z.ltb_spec j k); cbn [negb].
  - by rewrite andb_false_r, Z.testbit_neg_r by lia.
  - rewrite andb_true_r, bit_field by lia. unfold bit. f_equal. lia.
Qed.
Lemma row_shr v k i :
  0 ≤ i → 0 ≤ k < 8 → (∀ j, 0 ≤ j < k → bit v (i + 1) j = false) → field 8 i (Z.shiftr v k) = Z.shiftr (field 8 i v) k.
Proof.
  intros Hi Hk Hc. apply row_ext; [lia| |].
  - pose proof (row_in_u v i) as [??]. split; [by apply Z.shiftr_nonneg|]. rewrite Z.shiftr_div_pow2 by lia.
    pose proof (pow2_pos k ltac:(lia)). pose proof (Z.div_le_upper_bound (field 8 i v) (2 ^ k) (field 8 i v) ltac:(lia)). nia.
  - intros j Hj. unfold bit. rewrite !Z.shiftr_spec by lia. destruct (Z.lt_ge_cases (j + k) 8).
    + rewrite bit_field by lia. unfold bit. f_equal. lia.
    + rewrite (testbit_high 8 (field 8 i v)) by (apply row_in_u || lia). specialize (Hc (j + k - 8) ltac:(lia)). unfold bit in Hc.
      rewrite <-Hc. f_equal. lia.
Qed.

Lemma clear_masks i j : 0 ≤ i < 8 → 0 ≤ j < 8 →
  let c := subwords8_mask_lsb in let c2 := Z.lor c (wrap 64 (Z.shiftl c 1)) in let c4 := Z.lor c2 (wrap 64 (Z.shiftl c2 2)) in
  bit c i j = (j <? 1) ∧ bit c2 i j = (j <? 2) ∧ bit c4 i j = (j <? 4).
Proof.
  intros Hi Hj c c2 c4. destruct (subword_index 8 ltac:(lia) i j Hi Hj) as (_ & Hm & Hr).
  pose proof (position_forall (λ n, eqb (Z.testbit c n) (n mod 8 <? 1) && eqb (Z.testbit c2 n) (n mod 8 <? 2) && eqb (Z.testbit c4 n) (n mod 8 <? 4)) 64 eq_refl
    (8 * i + j) Hr) as H. rewrite !andb_true_iff, Hm in H. destruct H as [[H1 H2] H3]. split_and!; by apply eqb_prop.
Qed.

Definition rows3 (st : Z * Z * Z) (i : Z) : Z * Z * Z := (field 8 i st.1.1, field 8 i st.1.2, field 8 i st.2).
Definition in_u3 (st : Z * Z * Z) : Prop := in_u 64 st.1.1 ∧ in_u 64 st.1.2 ∧ in_u 64 st.2.

Lemma land_in_u' a b : in_u 64 a → in_u 64 b → in_u 64 (Z.land a b).
Proof. intros Ha Hb. apply land_in_u; [lia|done|apply Hb]. Qed.
Lemma shr_in_u a k : 0 ≤ k → in_u 64 a → in_u 64 (Z.shiftr a k).
Proof.
  intros Hk Ha. unfold in_u in *. rewrite Z.shiftr_div_pow2 by lia. pose proof (pow2_pos k Hk). split; [apply Z.div_pos; lia|].
  apply Z.le_lt_trans with a; [apply Z.div_le_upper_bound; nia|lia].
Qed.

Lemma psxor_in_u a c k : in_u 64 a → in_u 64 c → in_u 64 (Z.lxor a (Z.land (wrap 64 (Z.shiftl a k)) (unot 64 c))).
Proof. intros Ha Hc. apply lxor_in_u; [lia|done|]. apply land_in_u'; [by apply wrap_in_u|by apply unot_in_u]. Qed.
Lemma moved_in_u a t k : 0 ≤ k → in_u 64 a → in_u 64 t → in_u 64 (Z.lor (Z.lxor a t) (Z.shiftr t k)).
Proof. intros. apply lor_in_u; [lia|by apply lxor_in_u|by apply shr_in_u]. Qed.

Lemma step_rows k st :
  0 ≤ k ≤ 2 → in_u3 st →
  (∀ i, 0 ≤ i < 8 → ∀ j, 0 ≤ j < 2 ^ k → Z.testbit (moved8 (rows3 st i)) j = false) →
  in_u3 (compress_step k st) ∧ ∀ i, 0 ≤ i < 8 → rows3 (compress_step k st) i = step8 k (rows3 st i).
Proof.
  intros Hk (Hx & Hm & Hmk) Hc. destruct st as [[x m] mk]. cbn [fst snd] in *. unfold compress_step.
  set (c := subwords8_mask_lsb). set (c2 := Z.lor c _). set (c4 := Z.lor c2 _).
  set (mp1 := Z.lxor mk _). set (mp2 := Z.lxor mp1 _). set (mp := Z.lxor mp2 _). set (mv := Z.land mp m).
  assert (∀ i, 0 ≤ i < 8 → field 8 i mp = let mp := Z.lxor (field 8 i mk) (wrap 8 (Z.shiftl (field 8 i mk) 1)) in
    let mp := Z.lxor mp (wrap 8 (Z.shiftl mp 2)) in Z.lxor mp (wrap 8 (Z.shiftl mp 4))) as Hmp.
  { intros i Hi. unfold mp, mp2, mp1. rewrite !row_lxor, !row_shl by (lia || intros j Hj; by apply (clear_masks i j)). rewrite !row_lxor, !row_shl by (lia || intros j Hj; by apply (clear_masks i j)).
    rewrite !row_lxor, !row_shl by (lia || intros j Hj; by apply (clear_masks i j)). done. }
  assert (in_u 64 mp) as Hmpu.
  { assert (in_u 64 c) by by split. assert (in_u 64 c2) by by split. assert (in_u 64 c4) by by split. clearbody c c2 c4. unfold mp, mp2, mp1. by repeat apply psxor_in_u. }
  assert (in_u 64 mv) as Hmv by by apply land_in_u'.
  assert (∀ i, 0 ≤ i < 8 → field 8 i mv = moved8 (rows3 (x, m, mk) i)) as Hrmv by (intros i Hi; unfold mv; rewrite row_land, Hmp by lia; done).
  assert (∀ i j, 0 ≤ i → 0 ≤ j < 2 ^ k → bit mv (i + 1) j = false) as Hlow.
  { intros i j Hi Hj. assert (2 ^ k ≤ 2 ^ 2) by (apply Z.pow_le_mono_r; lia). destruct (Z.lt_ge_cases (i + 1) 8).
    - rewrite <-bit_field, Hrmv by lia. by apply Hc; lia.
    - unfold bit. apply (testbit_high 64); [done|lia]. }
  assert (∀ t i j, 0 ≤ i → 0 ≤ j < 2 ^ k → bit (Z.land t mv) (i + 1) j = false) as Hlow' by (intros; by rewrite bit_land, Hlow, andb_false_r by done).
  assert (0 ≤ 2 ^ k < 8) as Hk8 by (pose proof (pow2_pos k ltac:(lia)); assert (2 ^ k ≤ 2 ^ 2) by (apply Z.pow_le_mono_r; lia); lia).
  split.
  - split_and!; cbn [fst snd]; [apply moved_in_u; [lia|done|by apply land_in_u']|by apply moved_in_u; [lia|..]|by apply land_in_u'; [|apply unot_in_u]].
  - intros i Hi. unfold rows3, step8. cbn [fst snd]. rewrite !row_lor, !row_lxor, !row_shr by (lia || (intros; first [apply Hlow | apply Hlow']; lia)).
    rewrite !row_land, row_unot, Hrmv by lia. unfold moved8, rows3. cbn [fst snd]. rewrite Hmp by done. done.
Qed.

Definition low_clear (k : Z) (st : Z * Z * Z) : bool := forallb (λ j, negb (Z.testbit (moved8 st) j)) (seqZ 0 (2 ^ k)).

Lemma low_clear_spec k st : low_clear k st = true → ∀ j, 0 ≤ j < 2 ^ k → Z.testbit (moved8 st) j = false.
Proof. intros H j Hj. apply negb_true_iff. exact (position_forall _ _ H j Hj). Qed.

Definition compress8 (x m : Z) : Z := (step8 2 (step8 1 (step8 0 (start8 x m)))).1.1.

(** What is done to a byte is linear in it, so it is checked on single bits. *)
Definition linear (f : Z → Z) : Prop := f 0 = 0 ∧ ∀ x y, f (Z.lor x y) = Z.lor (f x) (f y).
Definition move (s mv x : Z) : Z := Z.lor (Z.lxor x (Z.land x mv)) (Z.shiftr (Z.land x mv) s).

Lemma move_linear s mv : 0 ≤ s → linear (move s mv).
Proof.
  intros Hs. split; [unfold move; by rewrite !Z.land_0_l, Z.shiftr_0_l|]. intros x y. apply Z.bits_inj'. intros n Hn. unfold move.
  rewrite !Z.lor_spec, !Z.lxor_spec, !Z.shiftr_spec, !Z.land_spec, !Z.lor_spec by done.
  by destruct (Z.testbit x n), (Z.testbit y n), (Z.testbit mv n), (Z.testbit mv (n + s)), (Z.testbit x (n + s)), (Z.testbit y (n + s)).
Qed.
Lemma linear_compose f g : linear f → linear g → linear (λ x, f (g x)).
Proof. intros [Hf0 Hf] [Hg0 Hg]. split; [by rewrite Hg0|]. intros x y. by rewrite Hg, Hf. Qed.
Lemma land_linear m : linear (λ x, Z.land x m).
Proof. split; [apply Z.land_0_l|]. intros x y. apply Z.land_lor_distr_l. Qed.
Lemma lor_double a b p q : Z.lor (Z.b2z a + 2 * p) (Z.b2z b + 2 * q) = Z.b2z (a || b) + 2 * Z.lor p q.
Proof.
  apply Z.bits_inj'. intros n Hn. rewrite Z.lor_spec, !(Z.add_comm (Z.b2z _)). destruct (Z.eq_dec n 0) as [->|].
  - by rewrite !Z.testbit_0_r.
  - replace n with (Z.succ (n - 1)) by lia. rewrite !Z.testbit_succ_r, Z.lor_spec by lia. done.
Qed.
Lemma pext_from_linear n m : ∀ j, linear (λ x, pext_from n j x m).
Proof.
  induction n as [|n IH]; intros j; [done|]. cbn [pext_from]. destruct (IH (j + 1)) as [H0 Hl].
  split; [rewrite Z.bits_0, H0; by destruct (Z.testbit m j)|]. intros x y. rewrite Hl, Z.lor_spec.
  destruct (Z.testbit m j); [by rewrite lor_double|done].
Qed.
Lemma pext_linear m : linear (λ x, pext x m).
Proof. apply pext_from_linear. Qed.

Lemma linear_ext f g :
  linear f → linear g → (∀ j, 0 ≤ j < 8 → f (2 ^ j) = g (2 ^ j)) → ∀ x, in_u 8 x → f x = g x.
Proof.
  intros [Hf0 Hf] [Hg0 Hg] Hbits x Hx.
  assert (∀ n : nat, (n ≤ 8)%nat → f (x mod 2 ^ Z.of_nat n) = g (x mod 2 ^ Z.of_nat n)) as Hall.
  { induction n as [|n IH]; intros Hn; [change (2 ^ Z.of_nat 0) with 1; by rewrite Z.mod_1_r, Hf0, Hg0|].
    assert (x mod 2 ^ Z.of_nat (S n) = Z.lor (x mod 2 ^ Z.of_nat n) (if Z.testbit x (Z.of_nat n) then 2 ^ Z.of_nat n else 0)) as ->.
    { apply Z.bits_inj'. intros k Hk. rewrite Z.lor_spec. destruct (Z.lt_trichotomy k (Z.of_nat n)) as [Hlt|[->|Hgt]].
      - rewrite !Z.mod_pow2_bits_low by lia. destruct (Z.testbit x (Z.of_nat n)); [rewrite Z.pow2_bits_false by lia|rewrite Z.bits_0]; by rewrite orb_false_r.
      - rewrite Z.mod_pow2_bits_low, Z.mod_pow2_bits_high by lia. destruct (Z.testbit x (Z.of_nat n)); [by rewrite Z.pow2_bits_true by lia|by rewrite Z.bits_0].
      - rewrite !Z.mod_pow2_bits_high by lia. destruct (Z.testbit x (Z.of_nat n)); [by rewrite Z.pow2_bits_false by lia|by rewrite Z.bits_0]. }
    rewrite Hf, Hg, IH by lia. f_equal. destruct (Z.testbit x (Z.of_nat n)); [apply Hbits; lia|by rewrite Hf0, Hg0]. }
  specialize (Hall 8%nat ltac:(lia)). change (Z.of_nat 8) with 8 in Hall. by rewrite Z.mod_small in Hall.
Qed.

Lemma compress8_checked :
  forallb (λ m, low_clear 0 (start8 0 m) && low_clear 1 (step8 0 (start8 0 m)) && low_clear 2 (step8 1 (step8 0 (start8 0 m))) &&
    forallb (λ j, compress8 (2 ^ j) m =? pext (2 ^ j) m) (seqZ 0 8)) (seqZ 0 256) = true.
Proof. vm_compute. reflexivity. Qed.

Lemma step8_move k x m mk :
  step8 k (x, m, mk) = (move (2 ^ k) (moved8 (0, m, mk)) x, (step8 k (0, m, mk)).1.2, (step8 k (0, m, mk)).2).
Proof. unfold step8, moved8, move. cbn [fst snd]. reflexivity. Qed.
Lemma moved8_any x m mk : moved8 (x, m, mk) = moved8 (0, m, mk).
Proof. reflexivity. Qed.

Lemma moves_linear a b c m : linear (λ x, move 4 a (move 2 b (move 1 c (Z.land x m)))).
Proof.
  apply (linear_compose (move 4 a) (λ x, move 2 b (move 1 c (Z.land x m)))); [by apply move_linear|].
  apply (linear_compose (move 2 b) (λ x, move 1 c (Z.land x m))); [by apply move_linear|].
  apply (linear_compose (move 1 c) (λ x, Z.land x m)); [by apply move_linear|apply land_linear].
Qed.

Lemma compress8_linear m : linear (λ x, compress8 x m).
Proof.
  set (mk := wrap 8 (Z.shiftl (unot 8 m) 1)). set (st1 := step8 0 (0, m, mk)). set (st2 := step8 1 (0, st1.1.2, st1.2)).
  assert (∀ x, compress8 x m = move 4 (moved8 (0, st2.1.2, st2.2)) (move 2 (moved8 (0, st1.1.2, st1.2)) (move 1 (moved8 (0, m, mk)) (Z.land x m)))) as Heq.
  { intros x. unfold compress8, start8. fold mk. rewrite (step8_move 0). fold st1. rewrite (step8_move 1). fold st2. rewrite (step8_move 2). done. }
  destruct (moves_linear (moved8 (0, st2.1.2, st2.2)) (moved8 (0, st1.1.2, st1.2)) (moved8 (0, m, mk)) m) as [H0 Hl].
  split; [by rewrite Heq|]. intros x y. by rewrite !Heq.
Qed.

(** The positions do not depend on the bits that are moved. *)
Definition same_masks (st st' : Z * Z * Z) : Prop := st.1.2 = st'.1.2 ∧ st.2 = st'.2.
Lemma step8_same k st st' : same_masks st st' → same_masks (step8 k st) (step8 k st').
Proof. destruct st as [[x m] mk], st' as [[x' m'] mk']. intros [[= ->] [= ->]]. done. Qed.
Lemma low_clear_same k st st' : same_masks st st' → low_clear k st = low_clear k st'.
Proof. destruct st as [[x m] mk], st' as [[x' m'] mk']. intros [[= ->] [= ->]]. done. Qed.

Lemma low_clear_any x m :
  low_clear 0 (start8 0 m) = true → low_clear 1 (step8 0 (start8 0 m)) = true → low_clear 2 (step8 1 (step8 0 (start8 0 m))) = true →
  low_clear 0 (start8 x m) = true ∧ low_clear 1 (step8 0 (start8 x m)) = true ∧ low_clear 2 (step8 1 (step8 0 (start8 x m))) = true.
Proof.
  intros H0 H1 H2. assert (same_masks (start8 x m) (start8 0 m)) as Hs by done. pose proof (step8_same 0 _ _ Hs) as Hs1. pose proof (step8_same 1 _ _ Hs1) as Hs2.
  by rewrite (low_clear_same _ _ _ Hs), (low_clear_same _ _ _ Hs1), (low_clear_same _ _ _ Hs2).
Qed.

Lemma compress8_correct x m : in_u 8 x → in_u 8 m →
  compress8 x m = pext x m ∧ low_clear 0 (start8 x m) = true ∧ low_clear 1 (step8 0 (start8 x m)) = true ∧
    low_clear 2 (step8 1 (step8 0 (start8 x m))) = true.
Proof.
  intros Hx Hm. pose proof (position_forall _ 256 compress8_checked m Hm) as H. cbn beta in H. rewrite !andb_true_iff in H.
  destruct H as [[[H0 H1] H2] H]. split; [|by apply low_clear_any].
  apply (linear_ext (λ x, compress8 x m) (λ x, pext x m)); [apply compress8_linear|apply pext_linear| |done].
  intros j Hj. apply Z.eqb_eq. exact (position_forall _ 8 H j Hj).
Qed.

(** The compression of a matrix compresses every row. *)
Lemma compress_rows x m :
  in_u 64 x → in_u 64 m → in_u 64 (subwords8_compress x m) ∧ ∀ i, 0 ≤ i < 8 → field 8 i (subwords8_compress x m) = pext (field 8 i x) (field 8 i m).
Proof.
  intros Hx Hm. unfold subwords8_compress. set (mk := Z.land _ (unot 64 _)).
  assert (in_u 64 mk) as Hmk by (apply land_in_u'; [by apply wrap_in_u|by split]).
  set (st0 := (Z.land x m, m, mk)). assert (in_u3 st0) as Hst0 by (split_and!; [by apply land_in_u'|done..]).
  assert (∀ i, 0 ≤ i < 8 → rows3 st0 i = start8 (field 8 i x) (field 8 i m)) as Hr0.
  { intros i Hi. unfold rows3, st0, start8. cbn [fst snd]. unfold mk. rewrite row_land, row_shl, row_unot by (lia || (intros j Hj; by apply (clear_masks i j))). done. }
  assert (∀ i, in_u 8 (field 8 i x) ∧ in_u 8 (field 8 i m)) as Hrow by (intros; split; apply row_in_u).
  destruct (step_rows 0 st0 ltac:(lia) Hst0) as [Hst1 Hr1].
  { intros i Hi. rewrite Hr0 by done. apply low_clear_spec. apply compress8_correct; apply row_in_u. }
  destruct (step_rows 1 (compress_step 0 st0) ltac:(lia) Hst1) as [Hst2 Hr2].
  { intros i Hi. rewrite Hr1, Hr0 by done. apply low_clear_spec. apply compress8_correct; apply row_in_u. }
  destruct (step_rows 2 (compress_step 1 (compress_step 0 st0)) ltac:(lia) Hst2) as [Hst3 Hr3].
  { intros i Hi. rewrite Hr2, Hr1, Hr0 by done. apply low_clear_spec. apply compress8_correct; apply row_in_u. }
  split; [apply Hst3|]. intros i Hi. rewrite <-(proj1 (compress8_correct _ _ (proj1 (Hrow i)) (proj2 (Hrow i)))). unfold compress8.
  rewrite <-Hr0, <-Hr1, <-Hr2, <-Hr3 by done. done.
Qed.

End Compress.

End CacheWords.
