(* ===== verification/CacheMatrix.v ===== *)
(** * The LRU reference matrix (storage/src/fs/cocoonfs/set_assoc_cache.rs)

    What the updates of the matrix of a cache set mean for the order in which its slots
    were used. *)

From S2P Require Import Prelude BitManip CacheWords.
Import BitManip CacheWords.

Module CacheMatrix.

(** Bits and rows, by natural numbers. *)
Definition nbit (m : Z) (i j : nat) : bool := bit m (Z.of_nat i) (Z.of_nat j).
Definition nfull (m : Z) (i : nat) : bool := full m (Z.of_nat i).

(** Slot [i] was used more recently than [k]: its row has the bit of [k] set and those
    of the row of [k], which has not the one of [i]. *)
Definition newer (m : Z) (i k : nat) : Prop :=
  nbit m i k = true ∧ nbit m k i = false ∧ ∀ u, (u < 8)%nat → nbit m k u = true → nbit m i u = true.

(** [m] is the matrix of [c] slots of which [ages] are occupied, the most recently
    used one first. *)
Record matrix_ok (m : Z) (c : nat) (ages : list nat) : Prop := {
  mo_u : in_u 64 m;
  mo_c : (c ≤ 8)%nat;
  mo_nodup : NoDup ages;
  mo_lt i : i ∈ ages → (i < c)%nat;
  mo_row i j : (i < 8)%nat → (j < 8)%nat → i ∉ ages → nbit m i j = bool_decide (i < c)%nat;
  mo_col i j : i ∈ ages → (j < 8)%nat → (c ≤ j ∨ j = i)%nat → nbit m i j = false;
  mo_chain : StronglySorted (newer m) ages;
}.

Section Matrix.
Context {B : Build} {E : Type}.
Implicit Types (m : Z) (i j k c s u : nat) (ages : list nat).

Lemma eqb_of_nat i j : (Z.of_nat i =? Z.of_nat j) = (i =? j)%nat.
Proof. destruct (Nat.eqb_spec i j); zcase; lia || done. Qed.
Lemma ltb_of_nat i j : (Z.of_nat i <? Z.of_nat j) = (i <? j)%nat.
Proof. destruct (Nat.ltb_spec i j); zcase; lia || done. Qed.

Lemma nfull_spec m i : nfull m i = true ↔ ∀ j, (j < 8)%nat → nbit m i j = true.
Proof.
  unfold nfull. rewrite full_spec by lia. split; intros H j Hj; [apply H; lia|]. rewrite <-(Z2Nat.id j) by lia. apply H. lia.
Qed.

Lemma matrix_full m c ages i : matrix_ok m c ages → (i < 8)%nat → nfull m i = bool_decide (i < c ∧ i ∉ ages)%nat.
Proof.
  intros Hm Hi. apply eq_true_iff_eq. rewrite nfull_spec, bool_decide_eq_true. split.
  - intros H. destruct (decide (i ∈ ages)) as [Hin|Hin].
    + specialize (H i Hi). by rewrite (mo_col _ _ _ Hm i i Hin Hi ltac:(lia)) in H.
    + specialize (H 0%nat ltac:(lia)). rewrite (mo_row _ _ _ Hm), bool_decide_eq_true in H by (done || lia). done.
  - intros [Hc Hn] j Hj. rewrite (mo_row _ _ _ Hm) by done. by rewrite bool_decide_eq_true.
Qed.
Lemma matrix_zero m c ages i : matrix_ok m c ages → (i < 8)%nat → i ∉ ages → field 8 (Z.of_nat i) m = 0 ↔ (c ≤ i)%nat.
Proof.
  intros Hm Hi Hn. rewrite zero_spec by lia. split.
  - intros H. specialize (H 0 ltac:(lia)). change 0 with (Z.of_nat 0) in H. change (nbit m i 0 = false) in H.
    rewrite (mo_row _ _ _ Hm), bool_decide_eq_false in H by (done || lia). lia.
  - intros Hc j Hj. rewrite <-(Z2Nat.id j) by lia. change (nbit m i (Z.to_nat j) = false). rewrite (mo_row _ _ _ Hm), bool_decide_eq_false by (done || lia). lia.
Qed.

(** ** Marking a slot as the most recently used one *)

Lemma sorted_filter {A} (R : A → A → Prop) (P : A → Prop) `{!∀ x, Decision (P x)} l : StronglySorted R l → StronglySorted R (filter P l).
Proof.
  induction 1 as [|x l Hl IH Hx]; [constructor|]. rewrite filter_cons. destruct (decide (P x)); [|done]. constructor; [done|].
  apply Forall_forall. intros y [_ Hy]%list_elem_of_filter. rewrite Forall_forall in Hx. by apply Hx.
Qed.
Lemma sorted_impl {A} (R R' : A → A → Prop) l : (∀ x y, x ∈ l → y ∈ l → R x y → R' x y) → StronglySorted R l → StronglySorted R' l.
Proof.
  intros H Hs. induction Hs as [|x l Hl IH Hx]; [constructor|]. rewrite Forall_forall in Hx. constructor.
  - apply IH. intros. apply H; [by right..|done].
  - apply Forall_forall. intros y Hy. apply H; [left|by right|by apply Hx].
Qed.

Definition touch s ages : list nat := s :: filter (λ i, i ≠ s) ages.

Lemma touch_elem s ages i : i ∈ touch s ages ↔ i = s ∨ i ∈ ages.
Proof. unfold touch. rewrite elem_of_cons, list_elem_of_filter. destruct (decide (i = s)); naive_solver. Qed.

Lemma reference_spec m c ages s :
  matrix_ok m c ages → (s < c)%nat →
  ∃ m', lru_reference_slot_locked (E:=E) m (Z.of_nat c) (Z.of_nat s) = Ok m' ∧ in_u 64 m' ∧
    ∀ i j, (i < 8)%nat → (j < 8)%nat →
      nbit m' i j = if decide (i = s) then bool_decide (j < c ∧ j ≠ s)%nat
        else nbit m i j && bool_decide (j ≠ s ∨ (i < c ∧ i ∉ ages))%nat.
Proof.
  intros Hm Hs. pose proof (mo_c _ _ _ Hm).
  destruct (reference_slot_locked_Ok (E:=E) m (Z.of_nat c) (Z.of_nat s) (mo_u _ _ _ Hm) ltac:(lia) ltac:(lia)) as (m' & Hr & Hu & Hbits).
  exists m'. split_and!; [done..|]. intros i j Hi Hj. unfold nbit at 1. rewrite Hbits, !eqb_of_nat, ltb_of_nat by lia.
  change (full m (Z.of_nat i)) with (nfull m i). rewrite (matrix_full m c ages) by done. fold (nbit m i j).
  destruct (Nat.eqb_spec i s), (decide (i = s)); try done.
  - destruct (Nat.ltb_spec j c), (Nat.eqb_spec j s); symmetry; cbn [andb negb]; rewrite ?bool_decide_eq_true, ?bool_decide_eq_false; lia.
  - f_equal. destruct (Nat.eqb_spec j s); cbn [negb orb]; apply bool_decide_ext || (symmetry; apply bool_decide_eq_true); naive_solver.
Qed.

Lemma reference_matrix m c ages s :
  matrix_ok m c ages → (s < c)%nat →
  ∃ m', lru_reference_slot_locked (E:=E) m (Z.of_nat c) (Z.of_nat s) = Ok m' ∧ matrix_ok m' c (touch s ages).
Proof.
  intros Hm Hs. destruct (reference_spec m c ages s Hm Hs) as (m' & Hr & Hu & Hbits). exists m'. split; [done|].
  pose proof (mo_c _ _ _ Hm) as Hc. assert (∀ i, i ∈ ages → (i < 8)%nat) as Hlt by (intros i Hi; pose proof (mo_lt _ _ _ Hm i Hi); lia).
  assert (∀ k u, k ∈ ages → k ≠ s → (u < 8)%nat → nbit m' k u = nbit m k u && bool_decide (u ≠ s)) as Hocc.
  { intros k u Hk Hks Hu8. rewrite Hbits by auto. destruct (decide (k = s)); [done|]. f_equal. apply bool_decide_ext. naive_solver. }
  split; [done|done| | | | |].
  - constructor; [rewrite list_elem_of_filter; naive_solver|apply NoDup_filter, Hm].
  - intros i. rewrite touch_elem. intros [->|Hi]; [done|by apply Hm].
  - intros i j Hi Hj. rewrite touch_elem. intros Hn. rewrite Hbits by done. destruct (decide (i = s)); [naive_solver|].
    rewrite (mo_row _ _ _ Hm) by (done || naive_solver). case_bool_decide as Hic; [|done]. cbn [andb]. apply bool_decide_eq_true. naive_solver.
  - intros i j Hi Hj Hcj. destruct (decide (i = s)) as [->|Hne].
    + rewrite Hbits by lia. rewrite decide_True by done. apply bool_decide_eq_false. lia.
    + rewrite touch_elem in Hi. destruct Hi as [|Hi]; [done|]. rewrite Hocc, (mo_col _ _ _ Hm) by done. done.
  - constructor.
    + apply sorted_impl with (newer m); [|apply sorted_filter, Hm]. intros i k [Hi1 Hi2]%list_elem_of_filter [Hk1 Hk2]%list_elem_of_filter (H1 & H2 & H3).
      unfold newer. rewrite !Hocc, H1, H2 by auto. split_and!; [by rewrite bool_decide_eq_true_2|done|].
      intros u Hu8. rewrite !Hocc, !andb_true_iff by auto. naive_solver.
    + apply Forall_forall. intros k [Hk1 Hk2]%list_elem_of_filter. unfold newer. rewrite (Hocc k s), (Hbits s k) by (auto || lia).
      rewrite decide_True by done. split_and!.
      * apply bool_decide_eq_true. split; [by apply Hm|done].
      * rewrite bool_decide_eq_false_2 by naive_solver. apply andb_false_r.
      * intros u Hu8. rewrite Hocc, Hbits, decide_True by (done || lia). rewrite andb_true_iff, !bool_decide_eq_true. intros [Hb Hus].
        split; [|done]. destruct (decide (u < c)%nat); [done|]. rewrite (mo_col _ _ _ Hm) in Hb by (done || lia). done.
Qed.

(** Through a shared reference, nothing else is done. *)
Lemma reference_sync m c ages s :
  matrix_ok m c ages → s ∈ ages →
  lru_reference_slot_sync (E:=E) m (Z.of_nat c) (Z.of_nat s) = lru_reference_slot_locked m (Z.of_nat c) (Z.of_nat s).
Proof.
  intros Hm Hs. pose proof (mo_c _ _ _ Hm). pose proof (mo_lt _ _ _ Hm s Hs).
  assert (nfull m s = false) as Hf by (rewrite (matrix_full m c ages), bool_decide_eq_false by (done || lia); naive_solver).
  destruct (reference_slot_sync_Ok (E:=E) m (Z.of_nat c) (Z.of_nat s) (mo_u _ _ _ Hm) ltac:(lia) ltac:(lia) Hf) as (m' & Hr & Hu & Hbits).
  destruct (reference_slot_locked_Ok (E:=E) m (Z.of_nat c) (Z.of_nat s) (mo_u _ _ _ Hm) ltac:(lia) ltac:(lia)) as (m'' & Hr' & Hu' & Hbits').
  rewrite Hr, Hr'. f_equal. apply bit_ext; [done..|]. intros i j Hi Hj. rewrite Hbits, Hbits' by done. destruct (Z.eqb_spec i (Z.of_nat s)) as [->|]; [|done].
  destruct (Z.ltb_spec j (Z.of_nat c)); [by rewrite orb_true_r|]. rewrite orb_false_r, andb_false_l.
  rewrite <-(Z2Nat.id j) by lia. change (bit m (Z.of_nat s) (Z.of_nat (Z.to_nat j))) with (nbit m s (Z.to_nat j)).
  by rewrite (mo_col _ _ _ Hm) by (done || lia).
Qed.

(** ** Marking a slot as unoccupied *)

Lemma remove_matrix m c ages s :
  matrix_ok m c ages → s ∈ ages →
  ∃ m', lru_remove_slot_locked (E:=E) m (Z.of_nat s) = Ok m' ∧ matrix_ok m' c (filter (λ i, i ≠ s) ages).
Proof.
  intros Hm Hs. pose proof (mo_c _ _ _ Hm). pose proof (mo_lt _ _ _ Hm s Hs) as Hsc.
  destruct (remove_slot_locked_Ok (E:=E) m (Z.of_nat s) (mo_u _ _ _ Hm) ltac:(lia)) as (m' & Hr & Hu & Hbits). exists m'. split; [done|].
  assert (∀ i j, (i < 8)%nat → (j < 8)%nat → nbit m' i j = nbit m i j || (i =? s)%nat) as Hb by (intros; unfold nbit; rewrite Hbits, eqb_of_nat by lia; done).
  assert (∀ i j, i ∈ ages → i ≠ s → (j < 8)%nat → nbit m' i j = nbit m i j) as Hocc.
  { intros i j Hi Hne Hj. pose proof (mo_lt _ _ _ Hm i Hi). rewrite Hb by lia. destruct (Nat.eqb_spec i s); [done|apply orb_false_r]. }
  split; [done|done|apply NoDup_filter, Hm|intros i [_ Hi]%list_elem_of_filter; by apply Hm| | |].
  - intros i j Hi Hj Hn. rewrite Hb by done. destruct (Nat.eqb_spec i s) as [->|]; [rewrite orb_true_r; symmetry; by apply bool_decide_eq_true|].
    rewrite orb_false_r. apply Hm; [done..|]. rewrite list_elem_of_filter in Hn. naive_solver.
  - intros i j [Hi1 Hi2]%list_elem_of_filter Hj Hcj. rewrite Hocc by done. by apply Hm.
  - apply sorted_impl with (newer m); [|apply sorted_filter, Hm]. intros i k [Hi1 Hi2]%list_elem_of_filter [Hk1 Hk2]%list_elem_of_filter (H1 & H2 & H3).
    pose proof (mo_lt _ _ _ Hm i Hi2). pose proof (mo_lt _ _ _ Hm k Hk2).
    unfold newer. rewrite !Hocc by (done || lia). split_and!; [done..|]. intros u Hu8. rewrite !Hocc by done. auto.
Qed.

(** ** The slot for a new entry *)

Lemma free_exists c ages : NoDup ages → (length ages < c)%nat → ∃ i, (i < c)%nat ∧ i ∉ ages.
Proof.
  intros Hnd Hlen. destruct (decide (Exists (λ i, i ∉ ages) (seq 0 c))) as [H|H].
  - apply Exists_exists in H as (i & Hi & Hn). exists i. rewrite elem_of_seq in Hi. split; [lia|done].
  - exfalso. assert (seq 0 c ⊆+ ages) as Hsub.
    { apply NoDup_submseteq; [apply NoDup_seq|]. intros i Hi. destruct (decide (i ∈ ages)) as [|Hn]; [done|]. destruct H. apply Exists_exists. by exists i. }
    apply submseteq_length in Hsub. rewrite length_seq in Hsub. lia.
Qed.
Lemma all_occupied c ages i : NoDup ages → (∀ i, i ∈ ages → (i < c)%nat) → length ages = c → (i < c)%nat → i ∈ ages.
Proof.
  intros Hnd Hlt Hlen Hi. assert (ages ≡ₚ seq 0 c) as Hp; [|rewrite Hp, elem_of_seq; lia].
  apply submseteq_length_Permutation; [|by rewrite length_seq, Hlen]. apply NoDup_submseteq; [done|]. intros j Hj. rewrite elem_of_seq. specialize (Hlt j Hj). lia.
Qed.
Lemma ages_length m c ages : matrix_ok m c ages → (length ages ≤ c)%nat.
Proof.
  intros Hm. assert (ages ⊆+ seq 0 c) as Hsub.
  { apply NoDup_submseteq; [apply Hm|]. intros i Hi. rewrite elem_of_seq. pose proof (mo_lt _ _ _ Hm i Hi). lia. }
  apply submseteq_length in Hsub. by rewrite length_seq in Hsub.
Qed.

(** The unoccupied slots, by the lowest bit of a word that has a bit of each. *)
Lemma lowest_free z c ages (P : nat → bool) :
  in_u 64 z → (∀ i j, (i < 8)%nat → (j < 8)%nat → nbit z i j = P j && bool_decide (i < c ∧ i ∉ ages)%nat) → P 0%nat = true → (c ≤ 8)%nat →
  (z ≠ 0 ∧ ∃ s, trailing_zeros z = Z.of_nat (8 * s) ∧ (s < c)%nat ∧ s ∉ ages ∧ ∀ i, (i < s)%nat → i ∈ ages) ∨ (z = 0 ∧ ∀ i, (i < c)%nat → i ∈ ages).
Proof.
  intros Hz Hbits HP Hc8. destruct (Z.eq_dec z 0) as [->|Hnz].
  - right. split; [done|]. intros i Hi. destruct (decide (i ∈ ages)) as [|Hn]; [done|]. specialize (Hbits i 0%nat ltac:(lia) ltac:(lia)).
    rewrite HP, bool_decide_eq_true_2 in Hbits by done. unfold nbit, bit in Hbits. by rewrite Z.bits_0 in Hbits.
  - left. split; [done|]. destruct (trailing_zeros_spec z Hz Hnz) as (Ht & Htb & Hlow). destruct (subword_pos 8 ltac:(lia) (trailing_zeros z) Ht) as (Hpos & Hi & Hj).
    set (i := Z.to_nat (trailing_zeros z / 8)). set (j := Z.to_nat (trailing_zeros z mod 8)).
    assert (trailing_zeros z = 8 * Z.of_nat i + Z.of_nat j) as Hij by lia. rewrite Hij in Htb. change (nbit z i j = true) in Htb.
    rewrite Hbits, andb_true_iff, bool_decide_eq_true in Htb by lia. destruct Htb as [_ [Hic Hia]]. exists i.
    assert (j = 0%nat) as Hj0.
    { destruct (decide (j = 0%nat)); [done|]. specialize (Hlow (8 * Z.of_nat i) ltac:(lia)). replace (8 * Z.of_nat i) with (8 * Z.of_nat i + Z.of_nat 0) in Hlow by lia.
      change (nbit z i 0 = false) in Hlow. by rewrite Hbits, HP, bool_decide_eq_true_2 in Hlow by (lia || done). }
    split_and!; [lia|done..|]. intros k Hk. destruct (decide (k ∈ ages)) as [|Hn]; [done|]. specialize (Hlow (8 * Z.of_nat k + Z.of_nat 0) ltac:(lia)).
    change (nbit z k 0 = false) in Hlow. rewrite Hbits, HP, bool_decide_eq_true_2 in Hlow by (lia || (split; [lia|done])). done.
Qed.

Lemma lru_row_zero m c l s : matrix_ok m c (l ++ [s]) → (∀ i, (i < c)%nat → i ∈ l ++ [s]) →
  field 8 (Z.of_nat s) m = 0 ∧ ∀ i, (i < c)%nat → i ≠ s → field 8 (Z.of_nat i) m ≠ 0.
Proof.
  intros Hm Hall. pose proof (mo_c _ _ _ Hm). assert (s ∈ l ++ [s]) as Hs by set_solver. pose proof (mo_lt _ _ _ Hm s Hs).
  assert (∀ i, i ∈ l → newer m i s) as Hnew.
  { intros i Hi. pose proof (mo_chain _ _ _ Hm) as Hc. revert Hc. clear -Hi. induction l as [|x l IH]; [set_solver|]. cbn. intros Hc.
    apply StronglySorted_inv in Hc as [Hc Hx]. rewrite Forall_forall in Hx. apply elem_of_cons in Hi as [->|Hi]; [apply Hx; set_solver|by apply IH]. }
  split.
  - apply zero_spec; [lia|]. intros j Hj. rewrite <-(Z2Nat.id j) by lia. change (nbit m s (Z.to_nat j) = false). set (k := Z.to_nat j).
    destruct (decide (c ≤ k ∨ k = s)%nat); [apply Hm; [done|lia|done]|]. specialize (Hall k ltac:(lia)).
    apply elem_of_app in Hall as [Hk|Hk]; [by apply Hnew|set_solver].
  - intros i Hi Hne Hz. specialize (Hall i Hi). apply elem_of_app in Hall as [Hk|Hk]; [|set_solver]. apply Hnew in Hk as (Hb & _ & _).
    rewrite zero_spec in Hz by lia. specialize (Hz (Z.of_nat s) ltac:(lia)). change (nbit m i s = false) in Hz. congruence.
Qed.

(** ** More slots *)

Lemma grow_matrix m c c' ages :
  matrix_ok m c ages → (c < c' ≤ 8)%nat →
  matrix_ok (Z.lor m (wrap 64 (Z.shiftl (2 ^ (8 * Z.of_nat (c' - c)) - 1) (8 * Z.of_nat c)))) c' ages.
Proof.
  intros Hm Hc. set (r := wrap 64 _).
  assert (∀ i j, (i < 8)%nat → (j < 8)%nat → nbit r i j = bool_decide (c ≤ i < c')%nat) as Hr.
  { intros i j Hi Hj. unfold nbit, bit, r, wrap. rewrite Z.mod_pow2_bits_low, Z.shiftl_spec by lia.
    change (2 ^ ?n - 1) with (Z.pred (2 ^ n)). rewrite <-Z.ones_equiv. symmetry. case_bool_decide.
    - rewrite Z.ones_spec_low by lia. done.
    - destruct (decide (i < c)%nat); [rewrite Z.testbit_neg_r by lia|rewrite Z.ones_spec_high by lia]; done. }
  assert (∀ i j, (i < 8)%nat → (j < 8)%nat → nbit (Z.lor m r) i j = nbit m i j || bool_decide (c ≤ i < c')%nat) as Hb by (intros; unfold nbit at 1; rewrite bit_lor; f_equal; by apply Hr).
  assert (∀ i j, i ∈ ages → (j < 8)%nat → nbit (Z.lor m r) i j = nbit m i j) as Hocc.
  { intros i j Hi Hj. pose proof (mo_lt _ _ _ Hm i Hi). rewrite Hb, bool_decide_eq_false_2 by lia. apply orb_false_r. }
  split.
  - apply lor_in_u; [lia|apply Hm|by apply wrap_in_u].
  - lia.
  - apply Hm.
  - intros i Hi. pose proof (mo_lt _ _ _ Hm i Hi). lia.
  - intros i j Hi Hj Hn. rewrite Hb, (mo_row _ _ _ Hm) by done. apply eq_true_iff_eq. rewrite orb_true_iff, !bool_decide_eq_true. lia.
  - intros i j Hi Hj Hcj. rewrite Hocc by done. apply Hm; [done|done|lia].
  - apply sorted_impl with (newer m); [|apply Hm]. intros i k Hi Hk (H1 & H2 & H3). pose proof (mo_lt _ _ _ Hm i Hi). pose proof (mo_lt _ _ _ Hm k Hk).
    unfold newer. rewrite !Hocc by (done || lia). split_and!; [done..|]. intros u Hu. rewrite !Hocc by done. auto.
Qed.

Lemma empty_matrix : matrix_ok 0 0 [].
Proof.
  assert (∀ i j, nbit 0 i j = false) as Hb by (intros; unfold nbit, bit; apply Z.bits_0).
  split; [done|lia|constructor|set_solver| |set_solver|constructor]. intros i j _ _ _. by rewrite Hb.
Qed.

Lemma pruned_matrix c : (c ≤ 8)%nat → matrix_ok (2 ^ (8 * Z.of_nat c) - 1) c [].
Proof.
  intros Hc. destruct (decide (c = 0%nat)) as [->|Hc0]; [apply empty_matrix|]. pose proof (grow_matrix 0 0 c [] empty_matrix ltac:(lia)) as H.
  rewrite Z.lor_0_l, Nat.sub_0_r, Z.shiftl_0_r, wrap_small in H; [done|]. unfold in_u. pose proof (pow2_pos (8 * Z.of_nat c) ltac:(lia)).
  assert (2 ^ (8 * Z.of_nat c) ≤ 2 ^ 64) by (apply Z.pow_le_mono_r; lia). lia.
Qed.

End Matrix.

End CacheMatrix.
