(* ===== verification/CacheSet.v ===== *)
(** * Sets of the set-associative cache (storage/src/fs/cocoonfs/set_assoc_cache.rs)

    A [SetAssocCacheSet] stores up to eight entries in slots.  Which slot was used
    when is tracked in a bit matrix, and a packed list has the slots in the order of
    the keys.  The theorems show that a set is a list of entries in the order of their
    last use. *)

From S2P Require Import Prelude BitManip CacheWords.
Import BitManip CacheWords.

(** The trait [cmp::Ord]: a total order of the keys. *)
Class Ord (K : Type) := {
  cmp : K → K → comparison;
  cmp_eq a b : cmp a b = Eq ↔ a = b;
  cmp_swap a b : cmp b a = CompOpp (cmp a b);
  cmp_trans a b c : cmp a b = Lt → cmp b c = Lt → cmp a c = Lt;
}.
#[export] Instance Z_ord : Ord Z.
Proof.
  refine {| cmp := Z.compare |}; [apply Z.compare_eq_iff|intros; apply Z.compare_antisym|].
  intros a b c. rewrite !Z.compare_lt_iff. lia.
Defined.

Module CacheSet.

(** ** The code *)

Record SetAssocCacheReconfigureSetState := {
  remaining_to_redistribute : Z;
  unoccupied_slots : Z;
  visited : bool;
}.
Definition reconfigure_state_default := {| remaining_to_redistribute := 0; unoccupied_slots := 0; visited := false |}.

Record SetAssocCacheSet {K T : Type} := {
  lru_reference_matrix : Z;
  slots : list (option (K * T));
  ordered_slots : Z;
  capacity : Z;
  reconfigure_state : SetAssocCacheReconfigureSetState;
}.
Arguments SetAssocCacheSet : clear implicits.

Definition is_some {A} (o : option A) : bool := match o with Some _ => true | None => false end.

Section Ops.
Context {B : Build} {E K T : Type} {HO : Ord K}.
Implicit Types s : SetAssocCacheSet K T.

Definition cache_set_default : SetAssocCacheSet K T :=
  {| lru_reference_matrix := 0; slots := replicate 8 None; ordered_slots := 0; capacity := 0;
     reconfigure_state := reconfigure_state_default |}.

(** Assignments to the fields. *)
Definition set_matrix s m : SetAssocCacheSet K T := {| lru_reference_matrix := m; slots := slots s; ordered_slots := ordered_slots s;
  capacity := capacity s; reconfigure_state := reconfigure_state s |}.
Definition set_slots s l : SetAssocCacheSet K T := {| lru_reference_matrix := lru_reference_matrix s; slots := l; ordered_slots := ordered_slots s;
  capacity := capacity s; reconfigure_state := reconfigure_state s |}.
Definition set_ordered s o : SetAssocCacheSet K T := {| lru_reference_matrix := lru_reference_matrix s; slots := slots s; ordered_slots := o;
  capacity := capacity s; reconfigure_state := reconfigure_state s |}.
Definition with_capacity s c : SetAssocCacheSet K T := {| lru_reference_matrix := lru_reference_matrix s; slots := slots s; ordered_slots := ordered_slots s;
  capacity := c; reconfigure_state := reconfigure_state s |}.
Definition set_reconfigure s r : SetAssocCacheSet K T := {| lru_reference_matrix := lru_reference_matrix s; slots := slots s; ordered_slots := ordered_slots s;
  capacity := capacity s; reconfigure_state := r |}.

Definition occupied_slots_count s : outcome E Z := find_least_significant_zero_nibble (ordered_slots s).

(** The entry of an occupied slot ([self.slots[slot].as_ref().unwrap()]). *)
Definition slot_entry s (slot : Z) : outcome E (K * T) :=
  let! e := idx (slots s) (Z.to_nat slot) in unwrap e.

(** The binary search, over at most eight entries; [inl] is [Ok] and [inr] is [Err]. *)
Fixpoint lookup_loop (fuel : nat) s (key : K) (l u : Z) : outcome E (Z + Z) :=
  if l <=? u then
    match fuel with
    | O => Diverge
    | S fuel =>
        let! lu := uadd 32 l u in
        let m := lu / 2 in
        let! slot := get_ordered_slot (ordered_slots s) m in
        match slot with
        | None =>
            let! _ := debug_assert (negb (u =? 0)) in
            let! u := usub 32 m 1 in
            lookup_loop fuel s key l u
        | Some slot =>
            let! e := slot_entry s slot in
            match cmp key e.1 with
            | Eq => Ok (inl m)
            | Lt => if m =? 0 then Ok (inr m) else let! u := usub 32 m 1 in lookup_loop fuel s key l u
            | Gt => let! l := uadd 32 m 1 in lookup_loop fuel s key l u
            end
        end
    end
  else Ok (inr l).

Definition lookup_ordered_slots_index s (key : K) : outcome E (Z + Z) :=
  if ordered_slots s =? 0 then Ok (inr 0)
  else let! u := usub 32 (capacity s) 1 in lookup_loop 8 s key 0 u.

Definition lookup_key s (key : K) : outcome E (option Z) :=
  let! r := lookup_ordered_slots_index s key in
  match r with
  | inr _ => Ok None
  | inl ordered_slots_index =>
      let! o := get_ordered_slot (ordered_slots s) ordered_slots_index in
      let! slot := unwrap o in Ok (Some slot)
  end.

(** The slot that takes a new entry, and whether it is unoccupied. *)
Definition choose_slot (lru_reference_matrix : Z) : outcome E (Z * bool) :=
  let unoccupied_slots_lsb := subwords8_mask_all_set_lsb lru_reference_matrix in
  if negb (unoccupied_slots_lsb =? 0) then Ok (Z.shiftr (trailing_zeros unoccupied_slots_lsb) 3, true)
  else let! slot := find_least_significant_zero_byte lru_reference_matrix in Ok (slot, false).

Definition insert s (key : K) (value : T) : outcome E (SetAssocCacheSet K T * (Z * option (K * T))) :=
  let! r := lookup_ordered_slots_index s key in
  match r with
  | inl existing_ordered_slots_index =>
      let! o := get_ordered_slot (ordered_slots s) existing_ordered_slots_index in
      let! slot := unwrap o in
      let! l := set_idx (slots s) (Z.to_nat slot) (Some (key, value)) in
      Ok (set_slots s l, (slot, None))
  | inr ordered_slots_insertion_index =>
      let! '(slot, slot_is_unoccupied) := choose_slot (lru_reference_matrix s) in
      let! _ := debug_assert (slot <? capacity s) in
      let! m := lru_reference_slot_locked (lru_reference_matrix s) (capacity s) slot in
      let! '(ordered, ordered_slots_insertion_index) :=
        if negb slot_is_unoccupied then
          let! o := reverse_lookup_ordered_slots_index (ordered_slots s) slot in
          let! ordered_slots_evicted_index := unwrap o in
          let! ordered := remove_ordered_slots_entry (ordered_slots s) ordered_slots_evicted_index in
          if ordered_slots_evicted_index <? ordered_slots_insertion_index then
            let! i := usub 32 ordered_slots_insertion_index 1 in Ok (ordered, i)
          else Ok (ordered, ordered_slots_insertion_index)
        else Ok (ordered_slots s, ordered_slots_insertion_index) in
      let! ordered := insert_ordered_slots_entry ordered ordered_slots_insertion_index slot in
      let! evicted := idx (slots s) (Z.to_nat slot) in
      let! l := set_idx (slots s) (Z.to_nat slot) (Some (key, value)) in
      let! _ := debug_assert (xorb slot_is_unoccupied (is_some evicted)) in
      Ok (set_slots (set_ordered (set_matrix s m) ordered) l, (slot, evicted))
  end.

(** [Option::take] of a slot. *)
Definition take_slot (l : list (option (K * T))) (slot : Z) : outcome E (list (option (K * T)) * option (K * T)) :=
  let! e := idx l (Z.to_nat slot) in
  let! l := set_idx l (Z.to_nat slot) None in Ok (l, e).

Definition remove_by_key s (key : K) : outcome E (SetAssocCacheSet K T * option (K * T)) :=
  let! r := lookup_ordered_slots_index s key in
  match r with
  | inr _ => Ok (s, None)
  | inl ordered_slots_index =>
      let! o := get_ordered_slot (ordered_slots s) ordered_slots_index in
      let! slot := unwrap o in
      let! m := lru_remove_slot_locked (lru_reference_matrix s) slot in
      let! ordered := remove_ordered_slots_entry (ordered_slots s) ordered_slots_index in
      let! '(l, e) := take_slot (slots s) slot in
      Ok (set_slots (set_ordered (set_matrix s m) ordered) l, e)
  end.

Definition remove_by_slot s (slot : Z) (ordered_slots_index : option Z) : outcome E (SetAssocCacheSet K T * option (K * T)) :=
  let! ordered_slots_index :=
    match ordered_slots_index with
    | Some i => Ok i
    | None =>
        let! entry := uadd 32 slot 1 in
        let! entries := umul 32 entry subwords4_mask_lsb in
        find_least_significant_zero_nibble (Z.lxor (ordered_slots s) entries)
    end in
  if ordered_slots_index =? MAX_ASSOCIATIVITY then
    let! _ := debug_check (let! e := idx (slots s) (Z.to_nat slot) in Ok (negb (is_some e))) in
    Ok (s, None)
  else
    let! m := lru_remove_slot_locked (lru_reference_matrix s) slot in
    let! ordered := remove_ordered_slots_entry (ordered_slots s) ordered_slots_index in
    let! '(l, removed) := take_slot (slots s) slot in
    let! _ := debug_assert (is_some removed) in
    Ok (set_slots (set_ordered (set_matrix s m) ordered) l, removed).

(** ** Changing the capacity *)

(** The eviction loop of [shrink_capacity]: the matrix, what is marked for eviction as
    nibbles and as columns, the unoccupied slots not evicted yet, and the capacity. *)
Record shrink_state := {
  sh_matrix : Z;
  sh_evicted4 : Z;
  sh_evicted8 : Z;
  sh_unoccupied : Z;
  sh_capacity : Z;
}.

Fixpoint shrink_loop (fuel : nat) (new_capacity : Z) (st : shrink_state) : outcome E shrink_state :=
  if new_capacity <? sh_capacity st then
    match fuel with
    | O => Diverge
    | S fuel =>
        let! '(evicted_slot, unoccupied) :=
          if negb (sh_unoccupied st =? 0) then
            let unoccupied_slot := trailing_zeros (sh_unoccupied st) in
            let! row := ushl 64 255 unoccupied_slot in
            Ok (Z.shiftr unoccupied_slot 3, Z.lxor (sh_unoccupied st) row)
          else
            let! slot := find_least_significant_zero_byte (sh_matrix st) in Ok (slot, sh_unoccupied st) in
        let! _ := debug_assert (evicted_slot <? MAX_ASSOCIATIVITY) in
        let! shift4 := umul 32 4 evicted_slot in
        let! nibble := ushl 32 1 shift4 in
        let evicted4 := Z.lor (sh_evicted4 st) nibble in
        let! column := ushl 64 subwords8_mask_lsb evicted_slot in
        let evicted8 := Z.lor (sh_evicted8 st) column in
        let m := Z.land (sh_matrix st) (unot 64 evicted8) in
        let! shift8 := umul 32 8 evicted_slot in
        let! row := ushl 64 255 shift8 in
        let m := Z.lor m row in
        let! c := usub 8 (sh_capacity st) 1 in
        shrink_loop fuel new_capacity
          {| sh_matrix := m; sh_evicted4 := evicted4; sh_evicted8 := evicted8; sh_unoccupied := unoccupied; sh_capacity := c |}
    end
  else Ok st.

(** The loop that drops the evicted slots and moves the others: it consumes the
    nibbles of what is evicted and of how many slots up to each are. *)
Fixpoint move_slots (n : nat) (slot : Z) (evicted4 remaining_le : Z) (l : list (option (K * T))) (ordered m : Z)
    : outcome E (list (option (K * T)) * Z * Z) :=
  match n with
  | O => Ok (l, ordered, m)
  | S n =>
      let slots_evicted_le_count := Z.land remaining_le 15 in
      let! '(l, ordered, m) :=
        if Z.land evicted4 15 =? 0 then
          let! to := usub 32 slot slots_evicted_le_count in
          let! '(l, e) := take_slot l slot in
          let! l := set_idx l (Z.to_nat to) e in
          Ok (l, ordered, m)
        else
          let! l := set_idx l (Z.to_nat slot) None in
          let! o := reverse_lookup_ordered_slots_index ordered slot in
          let! ordered :=
            match o with
            | Some ordered_slots_index => remove_ordered_slots_entry ordered ordered_slots_index
            | None => Ok ordered
            end in
          let! a := uadd 32 slot 1 in
          let! row := usub 32 a slots_evicted_le_count in
          let! shift := umul 32 8 row in
          let! high := ushr 64 m shift in
          let! high := ushl 64 (Z.shiftr high 8) shift in
          let! one := ushl 64 1 shift in
          let! mask := usub 64 one 1 in
          Ok (l, ordered, Z.lor high (Z.land m mask)) in
      move_slots n (slot + 1) (Z.shiftr evicted4 4) (Z.shiftr remaining_le 4) l ordered m
  end.

(** How much every entry of the list of slots moves, as nibbles. *)
Fixpoint rearrange_counts (i : nat) (ordered le_count acc : Z) : outcome E Z :=
  match i with
  | O => Ok acc
  | S i =>
      let! o := get_ordered_slot ordered (Z.of_nat i) in
      let! ordered_slots_entry := unwrap o in
      let acc := wrap 32 (Z.shiftl acc 4) in
      let! shift := umul 32 4 ordered_slots_entry in
      let! c := ushr 32 le_count shift in
      rearrange_counts i ordered le_count (Z.lor acc (Z.land c 15))
  end.

Definition shrink_capacity s (new_capacity : Z) : outcome E (SetAssocCacheSet K T) :=
  let! _ := debug_assert (new_capacity <=? MAX_ASSOCIATIVITY) in
  let! _ := debug_assert (new_capacity <? capacity s) in
  let! unoccupied := subwords8_mask_all_set (lru_reference_matrix s) in
  let! st := shrink_loop 8 new_capacity
    {| sh_matrix := lru_reference_matrix s; sh_evicted4 := 0; sh_evicted8 := 0; sh_unoccupied := unoccupied; sh_capacity := capacity s |} in
  let m := subwords8_compress (sh_matrix st) (unot 64 (sh_evicted8 st)) in
  let m := Z.lor m (sh_unoccupied st) in
  let le_count := sh_evicted4 st in
  let! le_count := uadd 32 le_count (wrap 32 (Z.shiftl le_count 4)) in
  let! le_count := uadd 32 le_count (wrap 32 (Z.shiftl le_count 8)) in
  let! le_count := uadd 32 le_count (wrap 32 (Z.shiftl le_count 16)) in
  let! '(l, ordered, m) := move_slots 8 0 (sh_evicted4 st) le_count (slots s) (ordered_slots s) m in
  let! _ := debug_check (let! bits := umul 32 8 new_capacity in let! mask := trailing_bits_mask_u 64 bits in
    Ok (Z.land m (unot 64 mask) =? 0)) in
  let! i := find_least_significant_zero_nibble ordered in
  let! counts := rearrange_counts (Z.to_nat i) ordered le_count 0 in
  let! ordered := usub 32 ordered counts in
  Ok (with_capacity (set_slots (set_ordered (set_matrix s m) ordered) l) new_capacity).

Definition grow_capacity s (new_capacity : Z) : outcome E (SetAssocCacheSet K T) :=
  let! _ := debug_assert (new_capacity <=? MAX_ASSOCIATIVITY) in
  let! _ := debug_assert (capacity s <? new_capacity) in
  let! added_capacity := usub 32 new_capacity (capacity s) in
  let! bits := umul 32 8 added_capacity in
  let! mask := trailing_bits_mask_u 64 bits in
  let! shift := umul 8 8 (capacity s) in
  let! rows := ushl 64 mask shift in
  Ok (with_capacity (set_matrix s (Z.lor (lru_reference_matrix s) rows)) new_capacity).

Definition set_capacity s (new_capacity : Z) : outcome E (SetAssocCacheSet K T) :=
  match new_capacity ?= capacity s with
  | Lt => shrink_capacity s new_capacity
  | Gt => grow_capacity s new_capacity
  | Eq => Ok s
  end.

(** ** Searching by age *)

Definition least_recently_used_occupied_slot s : outcome E (option Z) :=
  let compressed := subwords8_compress (Z.ones 64) (lru_reference_matrix s) in
  let shortest := Z.land compressed (Z.shiftr compressed 8) in
  let shortest := Z.land shortest (Z.shiftr shortest 16) in
  let shortest := Z.land shortest (Z.shiftr shortest 32) in
  let shortest := Z.land shortest 255 in
  if shortest =? 255 then Ok None
  else
    let! expected := umul 64 shortest subwords8_mask_lsb in
    let! slot := find_least_significant_zero_byte (Z.lxor compressed expected) in
    let! _ := debug_assert (slot <? MAX_ASSOCIATIVITY) in
    let! _ := debug_check
      (let! bits := umul 32 8 (capacity s) in
       let! mask := trailing_bits_mask_u 64 bits in
       let! shift := umul 32 8 slot in
       let! one := ushl 64 1 shift in
       let! other := find_least_significant_zero_byte (Z.lor (Z.lxor (Z.lor compressed (unot 64 mask)) expected) one) in
       Ok (other =? MAX_ASSOCIATIVITY)) in
    Ok (Some slot).

Definition slot_with_age s (age : Z) : outcome E (option Z) :=
  let! _ := debug_assert (age <? MAX_ASSOCIATIVITY) in
  if capacity s <=? age then Ok None
  else
    let compressed := subwords8_compress (Z.ones 64) (lru_reference_matrix s) in
    let! a := usub 32 (capacity s) 1 in
    let! a := usub 32 a age in
    let! high := ushl 64 subwords8_mask_lsb a in
    let! expected := usub 64 high subwords8_mask_lsb in
    let! slot := find_least_significant_zero_byte (Z.lxor compressed expected) in
    let! _ := debug_check
      (if slot =? capacity s then Ok true
       else
         let! shift := umul 32 8 slot in
         let! one := ushl 64 1 shift in
         let! other := find_least_significant_zero_byte (Z.lor (Z.lxor compressed expected) one) in
         Ok (other =? capacity s)) in
    Ok (if slot <? capacity s then Some slot else None).

(** ** Pruning and access *)

Definition prune_all s : outcome E (SetAssocCacheSet K T) :=
  let! bits := umul 32 8 (capacity s) in
  let! m := trailing_bits_mask_u 64 bits in
  Ok (set_ordered (set_matrix (set_slots s ((λ _, None) <$> slots s)) m) 0).

(** The predicate is a closure with a state of its own. *)
Fixpoint prune_loop {C} (fuel : nat) (cond : C → K → T → bool * C) s (c : C) (ordered_slots_index : Z)
    : outcome E (SetAssocCacheSet K T * C) :=
  if ordered_slots_index <? MAX_ASSOCIATIVITY then
    match fuel with
    | O => Diverge
    | S fuel =>
        let! o := get_ordered_slot (ordered_slots s) ordered_slots_index in
        match o with
        | None => Ok (s, c)
        | Some ordered_slot =>
            let! e := slot_entry s ordered_slot in
            let '(evict, c) := cond c e.1 e.2 in
            if evict then
              let! '(s, _) := remove_by_slot s ordered_slot (Some ordered_slots_index) in
              prune_loop fuel cond s c ordered_slots_index
            else
              let! i := uadd 32 ordered_slots_index 1 in prune_loop fuel cond s c i
        end
    end
  else Ok (s, c).
Definition prune_cond {C} (cond : C → K → T → bool * C) s (c : C) : outcome E (SetAssocCacheSet K T * C) :=
  prune_loop 9 cond s c 0.

Definition get_slot s (slot : Z) : outcome E (SetAssocCacheSet K T * option (K * T)) :=
  let! entry := idx (slots s) (Z.to_nat slot) in
  match entry with
  | None => Ok (s, None)
  | Some entry =>
      let! m := lru_reference_slot_sync (lru_reference_matrix s) (capacity s) slot in
      Ok (set_matrix s m, Some entry)
  end.

(** [upd] is what the caller does to the value through the reference. *)
Definition get_slot_mut s (slot : Z) (upd : T → T) : outcome E (SetAssocCacheSet K T * option (K * T)) :=
  let! entry := idx (slots s) (Z.to_nat slot) in
  match entry with
  | None => Ok (s, None)
  | Some (k, v) =>
      let! m := lru_reference_slot_locked (lru_reference_matrix s) (capacity s) slot in
      let! l := set_idx (slots s) (Z.to_nat slot) (Some (k, upd v)) in
      Ok (set_slots (set_matrix s m) l, Some (k, v))
  end.

Definition get_slot_key s (slot : Z) : outcome E (option K) :=
  let! entry := idx (slots s) (Z.to_nat slot) in Ok (fst <$> entry).

End Ops.

(** The set of the unit tests with capacity three: inserting a fourth entry evicts the
    least recently used one; shrinking keeps the most recently used ones. *)
Section Run.
#[local] Existing Instance debug_build.
Definition run3 : outcome unit (SetAssocCacheSet Z Z * list (option (Z * Z))) :=
  let! s := set_capacity cache_set_default 3 in
  let! '(s, _) := insert s 7 70 in
  let! '(s, _) := insert s 5 50 in
  let! '(s, _) := insert s 9 90 in
  let! '(s, e) := get_slot s 0 in
  let! '(s, (_, f)) := insert s 6 60 in
  let! s := set_capacity s 2 in
  let! k := lookup_key s 7 in
  let! k' := lookup_key s 9 in
  Ok (s, [e; f; (λ k, (k, 0)) <$> k; (λ k, (k, 0)) <$> k']).
Example run3_ok : (let! '(s, l) := run3 in Ok (slots s, l)) =
  Ok ([Some (7, 70); Some (6, 60); None; None; None; None; None; None], [Some (7, 70); Some (5, 50); Some (0, 0); None]).
Proof. vm_compute. reflexivity. Qed.
End Run.

End CacheSet.
