(* ===== verification/CacheSetSpec.v ===== *)
(** * A cache set is a list of entries in the order of their use (set_assoc_cache.rs)

    The abstract specification of a [SetAssocCacheSet] and the refinement by its
    operations, all but the shrinking of the capacity. *)

From S2P Require Import Prelude BitManip CacheWords CacheMatrix CacheSet.
Import BitManip CacheWords CacheMatrix CacheSet.

Module CacheSetSpec.

(** ** The specification

    The entries of a set, the most recently used one first. *)

Section Spec.
Context {K T : Type} {HO : Ord K}.
Implicit Types (l : list (K * T)) (k : K) (v : T) (c : nat).

#[export] Instance key_dec : EqDecision K.
Proof. intros a b. destruct (cmp a b) eqn:H; [left; by apply cmp_eq|right; intros H'; apply cmp_eq in H'; congruence..]. Defined.

Fixpoint lru_lookup l k : option T :=
  match l with [] => None | (k', v) :: l => if decide (k' = k) then Some v else lru_lookup l k end.
Definition lru_remove l k : list (K * T) := filter (λ e, e.1 ≠ k) l.
Definition lru_replace l k v : list (K * T) := (λ e, if decide (e.1 = k) then (k, v) else e) <$> l.
(** An existing entry is replaced where it is; a new one goes to the front, and the
    last one is evicted if there are as many as the capacity allows. *)
Definition lru_insert c l k v : list (K * T) * option (K * T) :=
  match lru_lookup l k with
  | Some _ => (lru_replace l k v, None)
  | None => if (length l <? c)%nat then ((k, v) :: l, None) else ((k, v) :: take (c - 1) l, last l)
  end.
(** The keys for which a predicate with a state holds, asked in the order of the entries. *)
Fixpoint prune_spec {C} (cond : C → K → T → bool * C) (st : C) l : list K * C :=
  match l with
  | [] => ([], st)
  | e :: l => let '(evict, st) := cond st e.1 e.2 in let '(ks, st) := prune_spec cond st l in (if evict then e.1 :: ks else ks, st)
  end.
Definition lru_get l k (upd : T → T) : list (K * T) :=
  match lru_lookup l k with Some v => (k, upd v) :: lru_remove l k | None => l end.
End Spec.

Section Rep.
Context {B : Build} {E K T : Type} {HO : Ord K}.
Implicit Types (s : SetAssocCacheSet K T) (l : list (option (K * T))) (ord ages : list nat) (c i j : nat).

(** The entry in a slot. *)
Definition entry l i : option (K * T) := l !! i ≫= id.
Definition key_lt l i j : Prop := ∃ a b, entry l i = Some a ∧ entry l j = Some b ∧ cmp a.1 b.1 = Lt.
Definition slot_lt l (k : K) i : Prop := ∃ a, entry l i = Some a ∧ cmp a.1 k = Lt.
Definition slot_gt l (k : K) i : Prop := ∃ a, entry l i = Some a ∧ cmp k a.1 = Lt.

(** The set has capacity [c], its occupied slots are [ord] in the order of their keys
    and [ages] in the order of their use. *)
Record set_rep s c ord ages : Prop := {
  sr_capacity : capacity s = Z.of_nat c;
  sr_matrix : matrix_ok (lru_reference_matrix s) c ages;
  sr_len : length (slots s) = 8%nat;
  sr_ordered : ordered_slots s = pack ord;
  sr_perm : ord ≡ₚ ages;
  sr_slots i : i ∈ ages ↔ is_Some (entry (slots s) i);
  sr_sorted : StronglySorted (key_lt (slots s)) ord;
}.

Definition contents s ages : list (K * T) := omap (entry (slots s)) ages.
Definition set_refines s c (lru : list (K * T)) : Prop := ∃ ord ages, set_rep s c ord ages ∧ contents s ages = lru.

Lemma entry_insert l i j e : (i < length l)%nat → entry (<[i := e]> l) j = if decide (i = j) then e else entry l j.
Proof.
  intros Hi. unfold entry. destruct (decide (i = j)) as [<-|]; [by rewrite list_lookup_insert_eq|by rewrite list_lookup_insert_ne].
Qed.

Lemma rep_wf s c ord ages : set_rep s c ord ages → slots_wf ord ∧ NoDup ord ∧ (length ord ≤ c ≤ 8)%nat ∧ ∀ i, i ∈ ord → (i < c)%nat.
Proof.
  intros Hr. pose proof (sr_matrix _ _ _ _ Hr) as Hm. pose proof (ages_length _ _ _ Hm) as Hlen. pose proof (mo_c _ _ _ Hm).
  pose proof (sr_perm _ _ _ _ Hr) as Hp. assert (∀ i, i ∈ ord → (i < c)%nat) as Hlt by (intros i; rewrite Hp; apply Hm).
  rewrite (Permutation_length Hp) in *. split_and!; [|rewrite Hp; apply Hm|lia|lia|done]. split; [rewrite (Permutation_length Hp); lia|].
  apply Forall_forall. intros i Hi. specialize (Hlt i Hi). lia.
Qed.

Lemma rep_entry s c ord ages i : set_rep s c ord ages → i ∈ ord → ∃ e, entry (slots s) i = Some e ∧ slots s !! i = Some (Some e).
Proof.
  intros Hr Hi. rewrite (sr_perm _ _ _ _ Hr), (sr_slots _ _ _ _ Hr) in Hi. destruct Hi as [e He]. exists e. split; [done|].
  unfold entry in He. destruct (slots s !! i) as [[e'|]|]; by simplify_eq/=.
Qed.

Lemma slot_entry_Ok s c ord ages i e : set_rep s c ord ages → i ∈ ord → entry (slots s) i = Some e → slot_entry (E:=E) s (Z.of_nat i) = Ok e.
Proof.
  intros Hr Hi He. destruct (rep_entry _ _ _ _ _ Hr Hi) as (e' & He' & Hl). simplify_eq. unfold slot_entry. rewrite Nat2Z.id, (idx_Ok _ _ _ Hl). done.
Qed.

(** ** The order of the keys *)

Lemma cmp_refl (a : K) : cmp a a = Eq.
Proof. by apply cmp_eq. Qed.
Lemma cmp_gt (a b : K) : cmp a b = Gt → cmp b a = Lt.
Proof. intros H. by rewrite cmp_swap, H. Qed.

Lemma key_lt_trans l i j k : key_lt l i j → key_lt l j k → key_lt l i k.
Proof. intros (a & b & Ha & Hb & H1) (b' & d & Hb' & Hd & H2). simplify_eq. exists a, d. split_and!; [done..|]. by eapply cmp_trans. Qed.

Lemma sorted_split l ord i p a k :
  StronglySorted (key_lt l) ord → ord !! p = Some i → entry l i = Some a →
  (cmp k a.1 = Lt → Forall (slot_gt l k) (drop p ord)) ∧ (cmp a.1 k = Lt → Forall (slot_lt l k) (take (S p) ord)).
Proof.
  intros Hs Hp Ha. apply list_elem_of_split_length in Hp as (l1 & l2 & -> & ->). split; intros Hk.
  - rewrite drop_app_length. constructor; [by exists a|]. clear -Hs Ha Hk HO. induction l1 as [|x l1 IH]; cbn in Hs; apply StronglySorted_inv in Hs as [Hs Hf]; [|by apply IH].
    eapply Forall_impl; [exact Hf|]. intros j (a' & b & Ha' & Hb & Hlt). simplify_eq. exists b. split; [done|]. by eapply cmp_trans.
  - replace (S (length l1)) with (length (l1 ++ [i])) by (rewrite length_app; cbn; lia).
    change (i :: l2) with ([i] ++ l2). rewrite app_assoc, take_app_length. apply Forall_app. split; [|constructor; [by exists a|constructor]].
    clear -Hs Ha Hk HO. induction l1 as [|x l1 IH]; [constructor|]. cbn in Hs. apply StronglySorted_inv in Hs as [Hs Hf]. constructor; [|by apply IH].
    rewrite Forall_forall in Hf. destruct (Hf i ltac:(set_solver)) as (a' & b & Ha' & Hb & Hlt). simplify_eq. exists a'. split; [done|]. by eapply cmp_trans.
Qed.

(** What a search gives: where the key is, or where it belongs. *)
Definition search_result l ord (key : K) (r : Z + Z) : Prop :=
  match r with
  | inl p => ∃ i a, ord !! Z.to_nat p = Some i ∧ 0 ≤ p < 8 ∧ entry l i = Some a ∧ a.1 = key
  | inr p => ∃ (l1 l2 : list nat), ord = l1 ++ l2 ∧ p = Z.of_nat (length l1) ∧ Forall (slot_lt l key) l1 ∧ Forall (slot_gt l key) l2
  end.

Lemma lookup_loop_Ok s c ord ages key fuel : ∀ lo up,
  set_rep s c ord ages → ord ≠ [] → (lo ≤ length ord)%nat → up < 8 → -1 ≤ up →
  (Z.to_nat (up + 1) ≤ fuel + lo)%nat →
  Forall (slot_lt (slots s) key) (take lo ord) → Forall (slot_gt (slots s) key) (drop (Z.to_nat (up + 1)) ord) →
  ∃ r, lookup_loop (E:=E) fuel s key (Z.of_nat lo) up = Ok r ∧ search_result (slots s) ord key r.
Proof.
  induction fuel as [|fuel IH]; intros lo up Hr Hne Hlo Hup Hup0 Hf Hless Hgreater; cbn [lookup_loop]; destruct (Z.leb_spec (Z.of_nat lo) up); try lia.
  1, 3: exists (inr (Z.of_nat lo)); split; [done|]; exists (take lo ord), (drop lo ord); rewrite take_drop, length_take;
    split_and!; [done|lia|done|]; eapply Forall_drop with (n := (lo - Z.to_nat (up + 1))%nat) in Hgreater; rewrite drop_drop in Hgreater;
    by replace (Z.to_nat (up + 1) + (lo - Z.to_nat (up + 1)))%nat with lo in Hgreater by lia.
  destruct (rep_wf _ _ _ _ Hr) as (Hwf & _ & _ & _). ostep. set (p := Z.to_nat ((Z.of_nat lo + up) / 2)).
  assert (Z.of_nat lo ≤ (Z.of_nat lo + up) / 2 ≤ up) as Hmid by (split; [apply Z.div_le_lower_bound|apply Z.div_le_upper_bound]; lia).
  replace ((Z.of_nat lo + up) / 2) with (Z.of_nat p) in * by lia. rewrite (sr_ordered _ _ _ _ Hr), get_ordered_slot_Ok by (done || lia). cbn [obind].
  destruct (ord !! p) as [i|] eqn:Hp; cbn [fmap option_fmap option_map].
  - assert (i ∈ ord) as Hi by (by eapply list_elem_of_lookup_2). destruct (rep_entry _ _ _ _ _ Hr Hi) as (a & Ha & _).
    rewrite (slot_entry_Ok _ _ _ _ _ _ Hr Hi Ha). cbn [obind]. destruct (sorted_split _ _ _ _ a key (sr_sorted _ _ _ _ Hr) Hp Ha) as [Hgt Hlt].
    destruct (cmp key a.1) eqn:Hc.
    + exists (inl (Z.of_nat p)). split; [done|]. exists i, a. rewrite Nat2Z.id. split_and!; [done|lia|lia|done|]. symmetry. by apply cmp_eq.
    + destruct (Z.eqb_spec (Z.of_nat p) 0) as [Hp0|].
      * exists (inr (Z.of_nat p)). split; [done|]. exists [], ord. split_and!; [done|cbn; lia|constructor|]. specialize (Hgt eq_refl). by replace p with 0%nat in Hgt by lia.
      * ostep. apply IH; try done; try lia. replace (Z.to_nat (Z.of_nat p - 1 + 1)) with p by lia. by apply Hgt.
    + ostep. replace (Z.of_nat p + 1) with (Z.of_nat (S p)) by lia. apply IH; try done; try lia; [apply lookup_lt_Some in Hp; lia|]. apply Hlt. by apply cmp_gt.
  - apply lookup_ge_None in Hp. destruct ord as [|o ord]; [done|]. cbn [length] in Hp. zdec. ostep.
    apply IH; try done; try lia. rewrite drop_ge; [constructor|]. cbn [length]. lia.
Qed.

Lemma lookup_index_Ok s c ord ages key :
  set_rep s c ord ages → ∃ r, lookup_ordered_slots_index (E:=E) s key = Ok r ∧ search_result (slots s) ord key r.
Proof.
  intros Hr. destruct (rep_wf _ _ _ _ Hr) as ([_ Hlt] & _ & Hlen & _). unfold lookup_ordered_slots_index. rewrite (sr_ordered _ _ _ _ Hr), (sr_capacity _ _ _ _ Hr).
  destruct ord as [|o ord]. { exists (inr 0). split; [done|]. by exists [], []. }
  pose proof (pack_nibbles_bound ord ltac:(by apply Forall_cons in Hlt as [_ ?])).
  cbn [pack length] in *. zdec. ostep. apply (lookup_loop_Ok s c (o :: ord) ages key 8 0); try done; try lia.
  rewrite drop_ge; [constructor|]. cbn [length]. lia.
Qed.

(** ** Contents *)

Lemma keys_inj l ord i j a b :
  StronglySorted (key_lt l) ord → i ∈ ord → j ∈ ord → entry l i = Some a → entry l j = Some b → a.1 = b.1 → i = j.
Proof.
  intros Hs. induction Hs as [|x ord Hs IH Hx]; [set_solver|]. rewrite Forall_forall in Hx.
  assert (∀ y, y ∈ ord → ∀ a b, entry l x = Some a → entry l y = Some b → a.1 ≠ b.1) as Hne.
  { intros y Hy a' b' Ha' Hb' Heq. destruct (Hx y Hy) as (? & ? & ? & ? & Hlt). simplify_eq. rewrite Heq, cmp_refl in Hlt. done. }
  intros [->|Hi]%elem_of_cons [->|Hj]%elem_of_cons Ha Hb Heq; [done| | |auto].
  - by destruct (Hne j Hj a b).
  - by destruct (Hne i Hi b a).
Qed.

Lemma rep_keys_inj s c ord ages i j a b :
  set_rep s c ord ages → i ∈ ages → j ∈ ages → entry (slots s) i = Some a → entry (slots s) j = Some b → a.1 = b.1 → i = j.
Proof. intros Hr Hi Hj. rewrite <-(sr_perm _ _ _ _ Hr) in Hi, Hj. eapply keys_inj; [apply Hr|done..]. Qed.

Lemma lru_lookup_None (l : list (K * T)) k : lru_lookup l k = None ↔ ∀ e, e ∈ l → e.1 ≠ k.
Proof.
  induction l as [|[k' v] l IH]; cbn; [set_solver|]. destruct (decide (k' = k)) as [->|].
  - split; [done|]. intros H. by destruct (H (k, v) ltac:(left)).
  - rewrite IH. split; [intros H e [->|?]%elem_of_cons; auto|]. intros H e He. apply H. by right.
Qed.
Lemma lru_lookup_Some (l : list (K * T)) k v : lru_lookup l k = Some v → (k, v) ∈ l.
Proof. induction l as [|[k' v'] l IH]; cbn; [done|]. destruct (decide (k' = k)) as [->|]; [intros [= ->]; left|right; auto]. Qed.

Lemma contents_elem l ages e : e ∈ omap (entry l) ages ↔ ∃ i, i ∈ ages ∧ entry l i = Some e.
Proof. rewrite list_elem_of_omap. done. Qed.

Lemma contents_lookup s c ord ages i a :
  set_rep s c ord ages → i ∈ ages → entry (slots s) i = Some a → lru_lookup (contents s ages) a.1 = Some a.2.
Proof.
  intros Hr Hi Ha. destruct (lru_lookup (contents s ages) a.1) as [v|] eqn:Hl.
  - apply lru_lookup_Some, contents_elem in Hl as (j & Hj & Hb). pose proof (rep_keys_inj _ _ _ _ _ _ _ _ Hr Hi Hj Ha Hb eq_refl). subst j. destruct a. by simplify_eq/=.
  - rewrite lru_lookup_None in Hl. destruct (Hl a); [|done]. apply contents_elem. eauto.
Qed.

Lemma contents_remove s c ord ages i a :
  set_rep s c ord ages → i ∈ ages → entry (slots s) i = Some a →
  omap (entry (slots s)) (filter (λ j, j ≠ i) ages) = lru_remove (contents s ages) a.1.
Proof.
  intros Hr Hi Ha. unfold contents, lru_remove. assert (∀ j, j ∈ ages → ∀ b, entry (slots s) j = Some b → b.1 = a.1 ↔ j = i) as Hk.
  { intros j Hj b Hb. split; [intros Heq; by eapply rep_keys_inj|intros ->; by simplify_eq]. }
  assert (∀ j, j ∈ ages → is_Some (entry (slots s) j)) as Hocc by (intros j; apply Hr). clear Hi Hr. induction ages as [|j ages IH]; [done|].
  destruct (Hocc j ltac:(left)) as [b Hb]. cbn [omap list_omap]. rewrite Hb, !filter_cons. specialize (Hk j) as Hkj. cbn.
  assert (omap (entry (slots s)) (filter (λ j, j ≠ i) ages) = filter (λ e : K * T, e.1 ≠ a.1) (omap (entry (slots s)) ages)) as IH'.
  { apply IH; intros; [apply Hk; [by right|done]|apply Hocc; by right]. }
  specialize (Hkj ltac:(left) b Hb). destruct (decide (j ≠ i)), (decide (b.1 ≠ a.1)); try tauto. cbn. by rewrite Hb, IH'.
Qed.

Lemma contents_untouched l i e ages : i ∉ ages → (i < length l)%nat → omap (entry (<[i := e]> l)) ages = omap (entry l) ages.
Proof.
  intros Hi Hlen. induction ages as [|j ages IH]; [done|]. cbn. rewrite entry_insert by done. destruct (decide (i = j)); [set_solver|].
  rewrite IH by set_solver. done.
Qed.

Lemma contents_length s c ord ages : set_rep s c ord ages → length (contents s ages) = length ages.
Proof.
  intros Hr. assert (∀ j, j ∈ ages → is_Some (entry (slots s) j)) as Hocc by (intros j; apply Hr). unfold contents. clear Hr.
  induction ages as [|j ages IH]; [done|]. cbn. destruct (Hocc j ltac:(left)) as [b ->]. cbn. f_equal. apply IH. intros. apply Hocc. by right.
Qed.

(** ** Lookup *)

Lemma search_found s c ord ages key p :
  set_rep s c ord ages → search_result (slots s) ord key (inl p) →
  ∃ i v (l1 l2 : list nat), ord = l1 ++ i :: l2 ∧ p = Z.of_nat (length l1) ∧ i ∈ ages ∧ (i < 8)%nat ∧ entry (slots s) i = Some (key, v) ∧
    get_ordered_slot (E:=E) (pack ord) p = Ok (Some (Z.of_nat i)).
Proof.
  intros Hr (i & a & Hp & Hp8 & Ha & Hk). destruct (rep_wf _ _ _ _ Hr) as (Hwf & _ & Hlen & Hlt). pose proof Hp as Hi. apply list_elem_of_lookup_2 in Hi.
  pose proof Hp as Hsplit. apply list_elem_of_split_length in Hsplit as (l1 & l2 & Hord & Hl1).
  exists i, a.2, l1, l2. rewrite <-(sr_perm _ _ _ _ Hr). destruct a as [k v]. cbn in *. subst k. split_and!; [done|lia|done|specialize (Hlt i Hi); lia|done|].
  rewrite <-(Z2Nat.id p) by lia. rewrite get_ordered_slot_Ok, Hp by (done || lia). done.
Qed.

Lemma search_missing s c ord ages key p :
  set_rep s c ord ages → search_result (slots s) ord key (inr p) → ∀ i a, i ∈ ages → entry (slots s) i = Some a → a.1 ≠ key.
Proof.
  intros Hr (l1 & l2 & Hord & _ & Hlt & Hgt) i a Hi Ha <-. rewrite <-(sr_perm _ _ _ _ Hr), Hord in Hi. rewrite Forall_forall in Hlt, Hgt.
  apply elem_of_app in Hi as [Hi|Hi]; [destruct (Hlt i Hi) as (? & ? & Hc)|destruct (Hgt i Hi) as (? & ? & Hc)]; simplify_eq; by rewrite cmp_refl in Hc.
Qed.
Lemma missing_lookup s c ord ages key p :
  set_rep s c ord ages → search_result (slots s) ord key (inr p) → lru_lookup (contents s ages) key = None.
Proof.
  intros Hr Hs. apply lru_lookup_None. intros e (i & Hi & He)%contents_elem. by eapply search_missing.
Qed.

Lemma lookup_key_Ok s c ord ages key :
  set_rep s c ord ages →
  ∃ o, lookup_key (E:=E) s key = Ok (Z.of_nat <$> o) ∧
    match o with
    | Some i => i ∈ ages ∧ ∃ v, entry (slots s) i = Some (key, v) ∧ lru_lookup (contents s ages) key = Some v
    | None => lru_lookup (contents s ages) key = None
    end.
Proof.
  intros Hr. destruct (lookup_index_Ok s c ord ages key Hr) as (r & Hl & Hs). unfold lookup_key. rewrite Hl. cbn [obind]. destruct r as [p|p].
  - destruct (search_found _ _ _ _ _ _ Hr Hs) as (i & v & _ & _ & _ & _ & Hi & _ & He & Hg). exists (Some i). rewrite (sr_ordered _ _ _ _ Hr), Hg. cbn.
    split; [done|]. split; [done|]. exists v. split; [done|]. apply (contents_lookup _ _ _ _ _ _ Hr Hi He).
  - exists None. split; [done|]. by eapply missing_lookup.
Qed.

(** ** Insertion *)

Lemma key_lt_untouched l i e x y : (i < length l)%nat → x ≠ i → y ≠ i → key_lt l x y → key_lt (<[i := e]> l) x y.
Proof.
  intros Hi Hx Hy (a & b & Ha & Hb & Hlt). exists a, b. rewrite !entry_insert by done. by rewrite !decide_False by congruence.
Qed.
Lemma sorted_untouched l i e ord : (i < length l)%nat → i ∉ ord → StronglySorted (key_lt l) ord → StronglySorted (key_lt (<[i := e]> l)) ord.
Proof. intros Hi Hn. apply sorted_impl. intros x y Hx Hy. apply key_lt_untouched; [done|congruence..]. Qed.

Lemma sorted_app {A} (R : A → A → Prop) (l1 : list A) x (l2 : list A) :
  StronglySorted R (l1 ++ l2) → Forall (λ y, R y x) l1 → Forall (R x) l2 → StronglySorted R (l1 ++ x :: l2).
Proof.
  intros Hs Hl Hr. induction l1 as [|y l1 IH]; cbn in *; [by constructor|]. apply StronglySorted_inv in Hs as [Hs Hy]. apply Forall_cons in Hl as [Hyx Hl].
  constructor; [by apply IH|]. apply Forall_app in Hy as [Hy1 Hy2]. apply Forall_app. split; [done|by constructor].
Qed.
Lemma sorted_delete {A} (R : A → A → Prop) (l1 : list A) x (l2 : list A) : StronglySorted R (l1 ++ x :: l2) → StronglySorted R (l1 ++ l2).
Proof.
  induction l1 as [|y l1 IH]; cbn; intros Hs; apply StronglySorted_inv in Hs as [Hs Hy]; [done|]. constructor; [by apply IH|].
  apply Forall_app in Hy as [Hy1 Hy2]. apply Forall_app. split; [done|]. by apply Forall_cons in Hy2 as [_ ?].
Qed.

Lemma sorted_insert l i key v (l1 l2 : list nat) :
  (i < length l)%nat → i ∉ l1 ++ l2 → StronglySorted (key_lt l) (l1 ++ l2) → Forall (slot_lt l key) l1 → Forall (slot_gt l key) l2 →
  StronglySorted (key_lt (<[i := Some (key, v)]> l)) (l1 ++ i :: l2).
Proof.
  intros Hi Hn Hs Hlt Hgt. rewrite Forall_forall in Hlt, Hgt. apply sorted_app; [by apply sorted_untouched|..]; apply Forall_forall; intros j Hj.
  - destruct (Hlt j Hj) as (a & Ha & Hc). assert (i ≠ j) by set_solver. exists a, (key, v). rewrite !entry_insert, (decide_True (P := i = i)), (decide_False (P := i = j)) by done. done.
  - destruct (Hgt j Hj) as (a & Ha & Hc). assert (i ≠ j) by set_solver. exists (key, v), a. rewrite !entry_insert, (decide_True (P := i = i)), (decide_False (P := i = j)) by done. done.
Qed.

(** A set with an entry in a slot that was not used, as the most recently used one. *)
Lemma rep_insert s c (l1 l2 : list nat) ages m i key v :
  set_rep s c (l1 ++ l2) ages → i ∉ ages → (i < c)%nat → matrix_ok m c (i :: ages) →
  Forall (slot_lt (slots s) key) l1 → Forall (slot_gt (slots s) key) l2 →
  set_rep (set_slots (set_ordered (set_matrix s m) (pack (l1 ++ i :: l2))) (<[i := Some (key, v)]> (slots s))) c (l1 ++ i :: l2) (i :: ages).
Proof.
  intros Hr Hn Hi Hm Hlt Hgt. destruct (rep_wf _ _ _ _ Hr) as (_ & _ & Hlen & _). pose proof (sr_len _ _ _ _ Hr) as H8. split; cbn; try done.
  - apply Hr.
  - by rewrite length_insert.
  - rewrite <-Permutation_middle. by rewrite (sr_perm _ _ _ _ Hr).
  - intros j. rewrite elem_of_cons, entry_insert by lia. destruct (decide (i = j)) as [->|]; [naive_solver|]. rewrite (sr_slots _ _ _ _ Hr). naive_solver.
  - apply sorted_insert; [lia|by rewrite (sr_perm _ _ _ _ Hr)|apply Hr|done..].
Qed.

(** The set without an entry. *)
Lemma rep_remove s c (l1 l2 : list nat) ages m i :
  set_rep s c (l1 ++ i :: l2) ages → matrix_ok m c (filter (λ j, j ≠ i) ages) →
  set_rep (set_slots (set_ordered (set_matrix s m) (pack (l1 ++ l2))) (<[i := None]> (slots s))) c (l1 ++ l2) (filter (λ j, j ≠ i) ages).
Proof.
  intros Hr Hm. destruct (rep_wf _ _ _ _ Hr) as (_ & Hnd & Hlen & Hlt). pose proof (sr_len _ _ _ _ Hr) as H8.
  assert (i < 8)%nat as Hi by (specialize (Hlt i ltac:(set_solver)); lia). rewrite <-Permutation_middle in Hnd. apply NoDup_cons in Hnd as [Hni Hnd].
  split; cbn; try done.
  - apply Hr.
  - by rewrite length_insert.
  - pose proof (sr_perm _ _ _ _ Hr) as Hp. rewrite <-Permutation_middle in Hp. rewrite <-Hp. rewrite filter_cons, decide_False by naive_solver.
    rewrite filter_every; [done|]. intros j Hj ->. done.
  - intros j. rewrite list_elem_of_filter, entry_insert by lia. destruct (decide (i = j)) as [->|]; [split; [naive_solver|intros [? ?]; done]|].
    rewrite (sr_slots _ _ _ _ Hr). naive_solver.
  - apply sorted_untouched; [lia|done|]. by eapply sorted_delete, Hr.
Qed.

Lemma last_cases {A} (l : list A) : l = [] ∨ ∃ (l' : list A) x, l = l' ++ [x].
Proof. destruct l using rev_ind; eauto. Qed.

Lemma choose_slot_Ok s c ord ages :
  set_rep s c ord ages → (0 < c)%nat →
  ∃ i free, choose_slot (E:=E) (lru_reference_matrix s) = Ok (Z.of_nat i, free) ∧ (i < c)%nat ∧
    if free : bool then i ∉ ages ∧ (length ages < c)%nat else ∃ l : list nat, ages = l ++ [i] ∧ length ages = c.
Proof.
  intros Hr Hc. pose proof (sr_matrix _ _ _ _ Hr) as Hm. pose proof (mo_c _ _ _ Hm). set (m := lru_reference_matrix s) in *. unfold choose_slot.
  assert (∀ i j, (i < 8)%nat → (j < 8)%nat → nbit (subwords8_mask_all_set_lsb m) i j = (j =? 0)%nat && bool_decide (i < c ∧ i ∉ ages)%nat) as Hbits.
  { intros i j Hi Hj. unfold nbit. rewrite all_set_lsb_bit by (lia || apply Hm). change (full m (Z.of_nat i)) with (nfull m i). rewrite (matrix_full m c ages) by done.
    f_equal. apply (eqb_of_nat j 0). }
  destruct (lowest_free _ c ages (λ j, (j =? 0)%nat) (all_set_lsb_in_u _ (mo_u _ _ _ Hm)) Hbits eq_refl ltac:(done)) as [(Hnz & i & Ht & Hic & Hia & _)|[Hz Hall]].
  - exists i, true. zdec. rewrite Ht. split; [f_equal; f_equal; rewrite Z.shiftr_div_pow2 by lia; change (2 ^ 3) with 8; rewrite Nat2Z.inj_mul, Z.mul_comm, Z.div_mul; lia|].
    split_and!; [done..|]. pose proof (ages_length _ _ _ Hm). assert (length ages ≠ c); [|lia]. intros Hl. apply Hia. eapply all_occupied; [apply Hm|apply Hm|done|done].
  - assert (length ages = c) as Hl.
    { pose proof (ages_length _ _ _ Hm). assert (¬ (length ages < c)%nat); [|lia]. intros (i & Hi & Hn)%free_exists; [|apply Hm]. by apply Hn, Hall. }
    destruct (last_cases ages) as [->|(l & i & ->)]; [cbn in Hl; lia|]. assert (i < c)%nat as Hic by (apply Hm; set_solver).
    destruct (lru_row_zero m c l i Hm Hall) as [Hrow Hrows]. rewrite Hz. cbn [Z.eqb negb].
    destruct (find_zero_byte_Ok (E:=E) m (mo_u _ _ _ Hm)) as (p & -> & Hp & Hpn & Hpz). exists i, false. split; [|eauto].
    cbn [obind]. f_equal. f_equal. assert (¬ Z.of_nat i < p) by (intros Hlt; by apply (Hpn (Z.of_nat i)); [lia|]). specialize (Hpz ltac:(lia)).
    destruct (decide (Z.to_nat p = i)); [lia|]. exfalso. apply (Hrows (Z.to_nat p)); [lia|done|]. rewrite Z2Nat.id by lia. done.
Qed.

Lemma insert_existing s c ord ages i v v' key :
  set_rep s c ord ages → i ∈ ages → entry (slots s) i = Some (key, v) →
  set_rep (set_slots s (<[i := Some (key, v')]> (slots s))) c ord ages ∧
  contents (set_slots s (<[i := Some (key, v')]> (slots s))) ages = lru_replace (contents s ages) key v'.
Proof.
  intros Hr Hi He. pose proof (mo_lt _ _ _ (sr_matrix _ _ _ _ Hr) i Hi). pose proof (mo_c _ _ _ (sr_matrix _ _ _ _ Hr)). pose proof (sr_len _ _ _ _ Hr) as H8.
  split.
  - split; cbn; try apply Hr.
    + by rewrite length_insert.
    + intros j. rewrite entry_insert by lia. destruct (decide (i = j)) as [<-|]; [naive_solver|apply Hr].
    + apply sorted_impl with (key_lt (slots s)); [|apply Hr]. intros x y _ _ (a & b & Ha & Hb & Hlt).
      exists (if decide (i = x) then (key, v') else a), (if decide (i = y) then (key, v') else b). rewrite !entry_insert by lia.
      destruct (decide (i = x)), (decide (i = y)); simplify_eq/=; done.
  - unfold contents, lru_replace. cbn. assert (∀ j, j ∈ ages → ∀ b, entry (slots s) j = Some b → b.1 = key ↔ j = i) as Hk.
    { intros j Hj b Hb. split; [intros Heq; by eapply (rep_keys_inj _ _ _ _ _ _ b (key, v))|intros ->; by simplify_eq]. }
    clear Hr Hi. induction ages as [|j ages IH]; [done|]. cbn. rewrite entry_insert by lia. specialize (IH ltac:(intros; apply Hk; [by right|done])).
    destruct (decide (i = j)) as [<-|].
    + rewrite He. cbn. rewrite decide_True by done. by rewrite IH.
    + destruct (entry (slots s) j) as [b|] eqn:Hb; [|done]. cbn. rewrite decide_False by (intros Heq; apply (Hk j ltac:(left) b Hb) in Heq; congruence). by rewrite IH.
Qed.

Lemma filter_last (l : list nat) i : NoDup (l ++ [i]) → filter (λ j, j ≠ i) (l ++ [i]) = l.
Proof.
  intros [_ [Hn _]]%NoDup_app. rewrite filter_app, filter_every; [|intros j Hj ->; by apply (Hn i Hj); left].
  rewrite filter_cons, decide_False by naive_solver. apply app_nil_r.
Qed.

(** A new entry in a free slot, and in the place of the least recently used one. *)
Lemma insert_free s c (l1 l2 : list nat) ages i key v :
  set_rep s c (l1 ++ l2) ages → i ∉ ages → (i < c)%nat → (length ages < c)%nat → Forall (slot_lt (slots s) key) l1 → Forall (slot_gt (slots s) key) l2 →
  ∃ m, lru_reference_slot_locked (E:=E) (lru_reference_matrix s) (Z.of_nat c) (Z.of_nat i) = Ok m ∧
    insert_ordered_slots_entry (E:=E) (pack (l1 ++ l2)) (Z.of_nat (length l1)) (Z.of_nat i) = Ok (pack (l1 ++ i :: l2)) ∧
    let s' := set_slots (set_ordered (set_matrix s m) (pack (l1 ++ i :: l2))) (<[i := Some (key, v)]> (slots s)) in
    set_rep s' c (l1 ++ i :: l2) (i :: ages) ∧ contents s' (i :: ages) = (key, v) :: contents s ages.
Proof.
  intros Hr Hn Hi Hlen Hlt Hgt. pose proof (sr_matrix _ _ _ _ Hr) as Hm. destruct (reference_matrix (E:=E) _ _ _ i Hm Hi) as (m & Href & Hm').
  unfold touch in Hm'. rewrite filter_every in Hm' by (intros j Hj ->; done). exists m. split; [done|].
  pose proof (rep_insert s c l1 l2 ages m i key v Hr Hn Hi Hm' Hlt Hgt) as Hr'. pose proof (sr_len _ _ _ _ Hr). pose proof (mo_c _ _ _ Hm).
  split; [apply insert_entry_Ok; by apply (rep_wf _ _ _ _ Hr')|]. split; [done|]. unfold contents. cbn. rewrite entry_insert, decide_True by (done || lia). cbn.
  by rewrite contents_untouched by (done || lia).
Qed.

Lemma take_slot_Ok l i e : l !! i = Some e → take_slot (E:=E) l (Z.of_nat i) = Ok (<[i := None]> l, e).
Proof. intros H. unfold take_slot. rewrite Nat2Z.id, (idx_Ok _ _ _ H). cbn. apply lookup_lt_Some in H. by rewrite set_idx_Ok. Qed.

Lemma contents_last s c ord ages (l : list nat) i :
  set_rep s c ord ages → ages = l ++ [i] → ∃ e, slots s !! i = Some (Some e) ∧ entry (slots s) i = Some e ∧
    contents s ages = omap (entry (slots s)) l ++ [e] ∧ length (omap (entry (slots s)) l) = length l.
Proof.
  intros Hr ->. assert (i ∈ ord) as Hi by (rewrite (sr_perm _ _ _ _ Hr); set_solver). destruct (rep_entry _ _ _ _ _ Hr Hi) as (e & He & Hl). exists e.
  split_and!; [done..| |].
  - unfold contents. rewrite omap_app. cbn. by rewrite He.
  - pose proof (contents_length _ _ _ _ Hr) as Hlen. unfold contents in Hlen. rewrite omap_app, !length_app in Hlen. cbn in Hlen. rewrite He in Hlen. cbn in Hlen. lia.
Qed.

Lemma insert_evict s c (l1 l2 l : list nat) i key v :
  set_rep s c (l1 ++ l2) (l ++ [i]) → Forall (slot_lt (slots s) key) l1 → Forall (slot_gt (slots s) key) l2 →
  ∃ m q (l1' l2' : list nat), lru_reference_slot_locked (E:=E) (lru_reference_matrix s) (Z.of_nat c) (Z.of_nat i) = Ok m ∧
    reverse_lookup_ordered_slots_index (E:=E) (pack (l1 ++ l2)) (Z.of_nat i) = Ok (Some (Z.of_nat q)) ∧
    remove_ordered_slots_entry (E:=E) (pack (l1 ++ l2)) (Z.of_nat q) = Ok (pack (l1' ++ l2')) ∧
    length l1 = (if (q <? length l1)%nat then S (length l1') else length l1') ∧
    insert_ordered_slots_entry (E:=E) (pack (l1' ++ l2')) (Z.of_nat (length l1')) (Z.of_nat i) = Ok (pack (l1' ++ i :: l2')) ∧
    let s' := set_slots (set_ordered (set_matrix s m) (pack (l1' ++ i :: l2'))) (<[i := Some (key, v)]> (slots s)) in
    set_rep s' c (l1' ++ i :: l2') (i :: l) ∧ contents s' (i :: l) = (key, v) :: omap (entry (slots s)) l.
Proof.
  intros Hr Hlt Hgt. pose proof (sr_matrix _ _ _ _ Hr) as Hm. destruct (rep_wf _ _ _ _ Hr) as (Hwf & Hnd & Hlen & Hic).
  pose proof (sr_len _ _ _ _ Hr) as H8. assert (i ∈ l1 ++ l2) as Hi by (rewrite (sr_perm _ _ _ _ Hr); set_solver). specialize (Hic i Hi).
  destruct (reference_matrix (E:=E) _ _ _ i Hm Hic) as (m & Href & Hm'). destruct (remove_matrix (E:=E) _ _ _ i Hm ltac:(set_solver)) as (m1 & _ & Hm1).
  unfold touch in Hm'. rewrite filter_last in Hm', Hm1 by apply Hm. pose proof (mo_nodup _ _ _ Hm') as Hil. apply NoDup_cons in Hil as [Hil _].
  destruct (reverse_lookup_Ok (E:=E) (l1 ++ l2) i Hwf ltac:(lia)) as ([q|] & Hrev & Hq); [|done]. destruct Hq as [Hq _].
  assert (∃ o1 o2 (l1' l2' : list nat), l1 ++ l2 = o1 ++ i :: o2 ∧ q = length o1 ∧ o1 ++ o2 = l1' ++ l2' ∧ l1' ⊆ l1 ∧ l2' ⊆ l2 ∧
    length l1 = (if (q <? length l1)%nat then S (length l1') else length l1')) as (o1 & o2 & l1' & l2' & Ho & Hqo & Hoo & Hs1 & Hs2 & Hlen').
  { destruct (Nat.ltb_spec q (length l1)) as [Hql|Hql].
    - rewrite lookup_app_l in Hq by done. apply list_elem_of_split_length in Hq as (a & b & -> & ->). exists a, (b ++ l2), (a ++ b), l2.
      rewrite <-!app_assoc. split_and!; [done..|set_solver|set_solver|]. rewrite !length_app. cbn. lia.
    - rewrite lookup_app_r in Hq by done. apply list_elem_of_split_length in Hq as (a & b & -> & Ha). exists (l1 ++ a), b, l1, (a ++ b).
      rewrite <-!app_assoc, length_app. split_and!; [done|lia|done|set_solver|set_solver|done]. }
  rewrite Forall_forall in Hlt, Hgt. rewrite Ho in *.
  pose proof (rep_remove s c o1 o2 (l ++ [i]) m1 i Hr) as Hrem. rewrite filter_last in Hrem by apply Hm. specialize (Hrem Hm1). rewrite Hoo in Hrem.
  assert (∀ j, j ∈ l1' ++ l2' → j ≠ i) as Hne by (intros j Hj ->; rewrite <-Hoo in Hj; rewrite <-Permutation_middle in Hnd; by apply NoDup_cons in Hnd as [? _]).
  pose proof (rep_insert _ c l1' l2' l m i key v Hrem Hil Hic Hm') as Hins. cbn [slots set_slots set_ordered set_matrix] in Hins. rewrite list_insert_insert_eq in Hins.
  exists m, q, l1', l2'. split_and!; [done|done| |done| |split].
  - rewrite Hqo, <-Hoo. by apply remove_entry_Ok.
  - apply insert_entry_Ok. rewrite Hqo in *. apply (slots_wf_Permutation (o1 ++ i :: o2)); [|done]. rewrite <-!Permutation_middle. by rewrite Hoo.
  - apply Hins; apply Forall_forall; intros j Hj; [destruct (Hlt j ltac:(set_solver)) as (a & Ha & Hc)|destruct (Hgt j ltac:(set_solver)) as (a & Ha & Hc)];
      exists a; rewrite entry_insert, decide_False by (lia || (intros ->; by apply (Hne j ltac:(set_solver)))); done.
  - unfold contents. cbn. rewrite entry_insert, decide_True by (done || lia). cbn. by rewrite contents_untouched by (done || lia).
Qed.

Lemma insert_Ok s c ord ages key v :
  set_rep s c ord ages → (0 < c)%nat →
  ∃ s' i ord' ages', insert (E:=E) s key v = Ok (s', (Z.of_nat i, (lru_insert c (contents s ages) key v).2)) ∧ set_rep s' c ord' ages' ∧
    contents s' ages' = (lru_insert c (contents s ages) key v).1 ∧ entry (slots s') i = Some (key, v) ∧ (i < 8)%nat ∧ reconfigure_state s' = reconfigure_state s.
Proof.
  intros Hr Hc. destruct (lookup_index_Ok s c ord ages key Hr) as (r & Hl & Hs). unfold insert. rewrite Hl. cbn [obind].
  pose proof (sr_len _ _ _ _ Hr) as H8. pose proof (mo_c _ _ _ (sr_matrix _ _ _ _ Hr)) as Hc8. destruct r as [p|p].
  - destruct (search_found _ _ _ _ _ _ Hr Hs) as (i & v0 & _ & _ & _ & _ & Hi & Hi8 & He & Hg). rewrite (sr_ordered _ _ _ _ Hr), Hg. cbn [obind unwrap].
    rewrite Nat2Z.id, set_idx_Ok by lia. cbn [obind]. unfold lru_insert. rewrite (contents_lookup _ _ _ _ _ _ Hr Hi He : lru_lookup _ key = _).
    destruct (insert_existing s c ord ages i v0 v key Hr Hi He) as [Hr' Hc']. eexists _, i, ord, ages. split_and!; [done|done|done| |done|done].
    cbn [slots set_slots]. by rewrite entry_insert, decide_True by lia.
  - destruct (choose_slot_Ok s c ord ages Hr Hc) as (i & free & Hch & Hic & Hfree). rewrite Hch. cbn [obind]. rewrite (sr_capacity _ _ _ _ Hr).
    rewrite ltb_of_nat. rewrite (proj2 (Nat.ltb_lt i c) Hic). cbn [debug_assert obind]. rewrite (sr_ordered _ _ _ _ Hr). unfold lru_insert.
    rewrite (missing_lookup _ _ _ _ _ _ Hr Hs). rewrite (contents_length _ _ _ _ Hr). destruct Hs as (l1 & l2 & -> & -> & Hlt & Hgt). rewrite Nat2Z.id.
    destruct free; cbn [negb].
    + destruct Hfree as [Hn Hlen]. destruct (insert_free s c l1 l2 ages i key v Hr Hn Hic Hlen Hlt Hgt) as (m & -> & Hins & Hr' & Hc').
      cbn [obind]. rewrite Hins. cbn [obind]. rewrite (proj2 (Nat.ltb_lt _ _) Hlen).
      assert (slots s !! i = Some None) as Hnone.
      { rewrite (sr_slots _ _ _ _ Hr), <-eq_None_not_Some in Hn. unfold entry in Hn. destruct (lookup_lt_is_Some_2 (slots s) i ltac:(lia)) as [o Ho].
        rewrite Ho in *. cbn in Hn. by rewrite Hn. }
      rewrite (idx_Ok _ _ _ Hnone), set_idx_Ok by lia. cbn [obind debug_assert is_some xorb]. eexists _, i, _, _.
      split_and!; [done|exact Hr'|exact Hc'| |lia|done]. cbn [slots set_slots]. by rewrite entry_insert, decide_True by lia.
    + destruct Hfree as (l & Hages & Hlen). destruct (contents_last _ _ _ _ _ _ Hr Hages) as (e & Hle & He & Hcont & Hll).
      rewrite (proj2 (Nat.ltb_ge _ _)) by lia.
      destruct (insert_evict s c l1 l2 l i key v) as (m & q & l1' & l2' & -> & Hrev & Hrem & Hidx & Hins & Hr' & Hc'); [by rewrite <-Hages|done..|].
      cbn [obind]. rewrite Hrev. cbn [obind unwrap]. rewrite Hrem. cbn [obind]. rewrite ltb_of_nat.
      assert ((if (q <? length l1)%nat then let! w := usub (E:=E) 32 (Z.of_nat (length l1)) 1 in Ok (pack (l1' ++ l2'), w) else Ok (pack (l1' ++ l2'), Z.of_nat (length l1)))
        = Ok (pack (l1' ++ l2'), Z.of_nat (length l1'))) as ->.
      { revert Hidx. destruct (Nat.ltb_spec q (length l1)); intros; [rewrite usub_Ok by lia; cbn [obind]|]; do 2 f_equal; lia. }
      cbn [obind]. rewrite Hins. cbn [obind]. rewrite (idx_Ok _ _ _ Hle), set_idx_Ok by lia. cbn [obind debug_assert is_some xorb]. eexists _, i, _, _.
      split_and!; [|exact Hr'|rewrite Hc'|cbn [slots set_slots]; by rewrite entry_insert, decide_True by lia|lia|done].
      * cbn. rewrite Hcont, last_snoc. done.
      * cbn. rewrite Hcont. f_equal. rewrite take_app_length'; [done|]. rewrite Hll. rewrite Hages, length_app in Hlen. cbn in Hlen. lia.
Qed.

(** ** Removal *)

Lemma remove_slot_Ok s c (l1 l2 : list nat) ages i e :
  set_rep s c (l1 ++ i :: l2) ages → entry (slots s) i = Some e →
  ∃ m, lru_remove_slot_locked (E:=E) (lru_reference_matrix s) (Z.of_nat i) = Ok m ∧
    remove_ordered_slots_entry (E:=E) (pack (l1 ++ i :: l2)) (Z.of_nat (length l1)) = Ok (pack (l1 ++ l2)) ∧
    take_slot (E:=E) (slots s) (Z.of_nat i) = Ok (<[i := None]> (slots s), Some e) ∧
    let s' := set_slots (set_ordered (set_matrix s m) (pack (l1 ++ l2))) (<[i := None]> (slots s)) in
    set_rep s' c (l1 ++ l2) (filter (λ j, j ≠ i) ages) ∧ contents s' (filter (λ j, j ≠ i) ages) = lru_remove (contents s ages) e.1.
Proof.
  intros Hr He. assert (i ∈ l1 ++ i :: l2) as Ho by set_solver. assert (i ∈ ages) as Hi by by rewrite <-(sr_perm _ _ _ _ Hr).
  destruct (rep_entry _ _ _ _ _ Hr Ho) as (e' & He' & Hl). simplify_eq. destruct (rep_wf _ _ _ _ Hr) as (Hwf & _ & Hlen & Hlt). specialize (Hlt i Ho).
  destruct (remove_matrix (E:=E) _ _ _ i (sr_matrix _ _ _ _ Hr) Hi) as (m & Hrem & Hm). exists m. split_and!; [done|by apply remove_entry_Ok|by apply take_slot_Ok|split].
  - by apply rep_remove.
  - unfold contents. cbn [slots set_slots]. rewrite contents_untouched by (rewrite ?(sr_len _ _ _ _ Hr), ?list_elem_of_filter; naive_solver lia).
    by eapply contents_remove.
Qed.

Lemma remove_by_key_Ok s c ord ages key :
  set_rep s c ord ages →
  ∃ s' ord' ages', remove_by_key (E:=E) s key = Ok (s', (λ v, (key, v)) <$> lru_lookup (contents s ages) key) ∧
    set_rep s' c ord' ages' ∧ contents s' ages' = lru_remove (contents s ages) key ∧ reconfigure_state s' = reconfigure_state s.
Proof.
  intros Hr. destruct (lookup_index_Ok s c ord ages key Hr) as (r & Hl & Hs). unfold remove_by_key. rewrite Hl. cbn [obind]. destruct r as [p|p].
  - destruct (search_found _ _ _ _ _ _ Hr Hs) as (i & v & l1 & l2 & -> & -> & Hi & _ & He & Hg). rewrite (sr_ordered _ _ _ _ Hr), Hg. cbn [obind unwrap].
    destruct (remove_slot_Ok s c l1 l2 ages i _ Hr He) as (m & -> & Hrem & Htake & Hr' & Hc'). cbn [obind]. rewrite Hrem. cbn [obind]. rewrite Htake. cbn [obind].
    rewrite (contents_lookup _ _ _ _ _ _ Hr Hi He : lru_lookup _ key = _). eexists _, _, _. split_and!; [done|exact Hr'|exact Hc'|done].
  - rewrite (missing_lookup _ _ _ _ _ _ Hr Hs). eexists _, _, _. split_and!; [done|exact Hr| |done]. unfold lru_remove. symmetry. apply filter_every.
    intros e (i & Hi & He)%contents_elem. by eapply search_missing.
Qed.

(** The slot may be given with its position in the list of slots, or without. *)
Lemma remove_by_slot_Ok s c ord ages i (o : option nat) :
  set_rep s c ord ages → (i < 8)%nat → (∀ p, o = Some p → ord !! p = Some i) →
  ∃ s' ord' ages', remove_by_slot (E:=E) s (Z.of_nat i) (Z.of_nat <$> o) = Ok (s', entry (slots s) i) ∧ set_rep s' c ord' ages' ∧
    reconfigure_state s' = reconfigure_state s ∧
    match entry (slots s) i with
    | Some e => contents s' ages' = lru_remove (contents s ages) e.1 ∧ ages' = filter (λ j, j ≠ i) ages ∧ slots s' = <[i := None]> (slots s) ∧
        ∀ p, o = Some p → ord' = take p ord ++ drop (S p) ord
    | None => s' = s ∧ ages' = ages
    end.
Proof.
  intros Hr Hi8 Ho. destruct (rep_wf _ _ _ _ Hr) as (Hwf & Hnd & Hlen & Hlt). unfold remove_by_slot.
  assert (∃ p, match Z.of_nat <$> o with
      | Some i => Ok i
      | None => let! entry := uadd 32 (Z.of_nat i) 1 in let! entries := umul 32 entry subwords4_mask_lsb in
          find_least_significant_zero_nibble (Z.lxor (ordered_slots s) entries)
      end = Ok (E:=E) (Z.of_nat p) ∧ (o = Some p ∨ o = None) ∧ ((ord !! p = Some i ∧ (p < 8)%nat) ∨ (i ∉ ord ∧ p = 8%nat))) as (p & -> & Hop & Hp).
  { destruct o as [p|]; cbn.
    - exists p. specialize (Ho p eq_refl). split_and!; [done|by left|]. left. apply lookup_lt_Some in Ho as ?. destruct Hwf. split; [done|lia].
    - destruct (find_slot_Ok (E:=E) ord i Hwf Hi8) as (e & p & -> & He & Hf & Hp). exists p. cbn [obind]. rewrite He, (sr_ordered _ _ _ _ Hr). eauto. }
  cbn [obind]. unfold MAX_ASSOCIATIVITY. destruct Hp as [[Hp Hp8]|[Hn ->]].
  - apply list_elem_of_split_length in Hp as (l1 & l2 & -> & ->). destruct (rep_entry _ _ _ _ i Hr ltac:(set_solver)) as (e & He & Hle). zdec.
    destruct (remove_slot_Ok s c l1 l2 ages i e Hr He) as (m & -> & Hrem & Htake & Hr' & Hc'). cbn [obind]. rewrite (sr_ordered _ _ _ _ Hr), Hrem. cbn [obind]. rewrite Htake.
    cbn [obind is_some debug_assert]. rewrite He. eexists _, _, _. split_and!; [done|exact Hr'|done|exact Hc'|done|done|]. intros p' ->. destruct Hop as [[= ->]|]; [|done].
    rewrite take_app_length. change (S (length l1)) with (1 + length l1)%nat. rewrite Nat.add_comm, drop_app_add. done.
  - rewrite (sr_perm _ _ _ _ Hr), (sr_slots _ _ _ _ Hr), <-eq_None_not_Some in Hn. rewrite Hn. change (Z.of_nat 8 =? 8) with true. cbn [Z.eqb].
    assert (slots s !! i = Some None) as Hl.
    { unfold entry in Hn. destruct (lookup_lt_is_Some_2 (slots s) i) as [x Hx]; [by rewrite (sr_len _ _ _ _ Hr)|]. rewrite Hx in *. cbn in Hn. by rewrite Hn. }
    rewrite Nat2Z.id, debug_check_true by (by rewrite (idx_Ok _ _ _ Hl)). cbn [obind]. eexists _, _, _. split_and!; [done|exact Hr|done..].
Qed.

(** ** Access *)

Lemma rep_matrix s c ord ages ages' m : set_rep s c ord ages → matrix_ok m c ages' → ages ≡ₚ ages' → set_rep (set_matrix s m) c ord ages'.
Proof. intros Hr Hm Hp. split; cbn; try apply Hr; try done; [by rewrite (sr_perm _ _ _ _ Hr)|]. intros i. rewrite <-Hp. apply Hr. Qed.

Lemma touch_perm ages i : NoDup ages → i ∈ ages → ages ≡ₚ touch i ages.
Proof.
  intros Hnd Hi. apply list_elem_of_split in Hi as (l1 & l2 & ->). unfold touch. rewrite <-Permutation_middle in Hnd |- *. apply NoDup_cons in Hnd as [Hn _].
  rewrite filter_cons, decide_False by naive_solver. rewrite filter_every; [done|]. intros j Hj ->. done.
Qed.

Lemma access_Ok s c ord ages i e :
  set_rep s c ord ages → entry (slots s) i = Some e →
  ∃ m, lru_reference_slot_locked (E:=E) (lru_reference_matrix s) (Z.of_nat c) (Z.of_nat i) = Ok m ∧
    lru_reference_slot_sync (E:=E) (lru_reference_matrix s) (Z.of_nat c) (Z.of_nat i) = Ok m ∧
    set_rep (set_matrix s m) c ord (touch i ages) ∧ contents (set_matrix s m) (touch i ages) = e :: lru_remove (contents s ages) e.1.
Proof.
  intros Hr He. assert (i ∈ ages) as Hi by (rewrite (sr_slots _ _ _ _ Hr); eauto). pose proof (sr_matrix _ _ _ _ Hr) as Hm.
  destruct (reference_matrix (E:=E) _ _ _ i Hm (mo_lt _ _ _ Hm i Hi)) as (m & Href & Hm'). exists m. rewrite (reference_sync _ _ ages) by done. split_and!; [done..| |].
  - apply rep_matrix with ages; [done|done|]. apply touch_perm; [apply Hm|done].
  - unfold contents, touch. cbn [slots set_matrix omap list_omap]. rewrite He. f_equal. by eapply contents_remove.
Qed.

Lemma get_slot_Ok s c ord ages i :
  set_rep s c ord ages → (i < 8)%nat →
  ∃ s' ages', get_slot (E:=E) s (Z.of_nat i) = Ok (s', entry (slots s) i) ∧ set_rep s' c ord ages' ∧ reconfigure_state s' = reconfigure_state s ∧
    slots s' = slots s ∧
    contents s' ages' = match entry (slots s) i with Some e => e :: lru_remove (contents s ages) e.1 | None => contents s ages end.
Proof.
  intros Hr Hi. unfold get_slot. rewrite Nat2Z.id. destruct (lookup_lt_is_Some_2 (slots s) i) as [x Hx]; [by rewrite (sr_len _ _ _ _ Hr)|].
  rewrite (idx_Ok _ _ _ Hx). cbn [obind]. assert (entry (slots s) i = x) as Hex by (unfold entry; by rewrite Hx). rewrite Hex. destruct x as [e|]; [|eexists _, _; by split_and!].
  destruct (access_Ok s c ord ages i e Hr Hex) as (m & _ & Href & Hr' & Hc'). rewrite (sr_capacity _ _ _ _ Hr), Href. cbn [obind]. eexists _, _. split_and!; [done|exact Hr'|done..].
Qed.

Lemma get_slot_mut_Ok s c ord ages i upd :
  set_rep s c ord ages → (i < 8)%nat →
  ∃ s' ages', get_slot_mut (E:=E) s (Z.of_nat i) upd = Ok (s', entry (slots s) i) ∧ set_rep s' c ord ages' ∧ reconfigure_state s' = reconfigure_state s ∧
    contents s' ages' = match entry (slots s) i with Some e => (e.1, upd e.2) :: lru_remove (contents s ages) e.1 | None => contents s ages end.
Proof.
  intros Hr Hi. unfold get_slot_mut. rewrite Nat2Z.id. destruct (lookup_lt_is_Some_2 (slots s) i) as [x Hx]; [by rewrite (sr_len _ _ _ _ Hr)|].
  rewrite (idx_Ok _ _ _ Hx). cbn [obind]. assert (entry (slots s) i = x) as Hex by (unfold entry; by rewrite Hx). rewrite Hex. destruct x as [[k v]|]; [|eexists _, _; by split_and!].
  destruct (access_Ok s c ord ages i (k, v) Hr Hex) as (m & Href & _ & Hr' & Hc'). rewrite (sr_capacity _ _ _ _ Hr), Href. cbn [obind].
  rewrite set_idx_Ok by (rewrite (sr_len _ _ _ _ Hr); lia). cbn [obind].
  destruct (insert_existing (set_matrix s m) c ord (touch i ages) i v (upd v) k Hr' ltac:(left) Hex) as [Hr'' Hc'']. eexists _, _. split_and!; [done|exact Hr''|done|].
  cbn [slots set_matrix] in Hc''. rewrite Hc'', Hc'. unfold lru_replace. cbn. rewrite decide_True by done. f_equal.
  rewrite <-(list_fmap_id (lru_remove _ _)) at 2. apply list_fmap_ext. intros j e He. unfold lru_remove in He. apply list_elem_of_lookup_2, list_elem_of_filter in He as [Hne _].
  by rewrite decide_False.
Qed.

(** ** Growing and pruning *)

Lemma grow_Ok s c ord ages c' :
  set_rep s c ord ages → (c < c' ≤ 8)%nat →
  ∃ s', grow_capacity (E:=E) s (Z.of_nat c') = Ok s' ∧ set_rep s' c' ord ages ∧ contents s' ages = contents s ages ∧ reconfigure_state s' = reconfigure_state s.
Proof.
  intros Hr Hc. unfold grow_capacity, MAX_ASSOCIATIVITY. rewrite (sr_capacity _ _ _ _ Hr). zdec. ostep. rewrite trailing_bits_mask_u_spec by lia. ostep.
  replace (Z.of_nat c' - Z.of_nat c) with (Z.of_nat (c' - c)) by lia. eexists. split; [done|]. split; [|done].
  pose proof (grow_matrix _ _ c' _ (sr_matrix _ _ _ _ Hr) Hc). split; cbn; done || apply Hr.
Qed.

Lemma prune_all_Ok s c ord ages :
  set_rep s c ord ages → ∃ s', prune_all (E:=E) s = Ok s' ∧ set_rep s' c [] [] ∧ reconfigure_state s' = reconfigure_state s.
Proof.
  intros Hr. pose proof (mo_c _ _ _ (sr_matrix _ _ _ _ Hr)). unfold prune_all. rewrite (sr_capacity _ _ _ _ Hr). ostep. rewrite trailing_bits_mask_u_spec by lia. ostep.
  eexists. split; [done|]. split; [|done]. split; cbn; try done; [apply Hr|by apply pruned_matrix|by rewrite length_fmap, (sr_len _ _ _ _ Hr)| |constructor].
  intros i. unfold entry. rewrite list_lookup_fmap. split; [set_solver|]. intros [? Hx]. by destruct (slots s !! i).
Qed.

Lemma prune_loop_Ok {C} (cond : C → K → T → bool * C) c fuel : ∀ s (l1 l2 : list nat) ages st,
  set_rep s c (l1 ++ l2) ages → (length l2 < fuel)%nat →
  let '(ks, st') := prune_spec cond st (omap (entry (slots s)) l2) in
  ∃ s' ord' ages', prune_loop (E:=E) fuel cond s st (Z.of_nat (length l1)) = Ok (s', st') ∧ set_rep s' c ord' ages' ∧
    contents s' ages' = filter (λ e, e.1 ∉ ks) (contents s ages) ∧ reconfigure_state s' = reconfigure_state s.
Proof.
  induction fuel as [|fuel IH]; intros s l1 l2 ages st Hr Hf; [lia|]. destruct (rep_wf _ _ _ _ Hr) as (Hwf & Hnd & Hlen & Hlt). rewrite length_app in Hlen.
  assert (filter (λ e, e.1 ∉ []) (contents s ages) = contents s ages) as Hnil by (apply filter_every; set_solver).
  cbn [prune_loop]. unfold MAX_ASSOCIATIVITY. destruct l2 as [|i l2].
  - cbn. destruct (Z.ltb_spec (Z.of_nat (length l1)) 8); [|eexists _, _, _; split_and!; [done|exact Hr|done..]]. rewrite (sr_ordered _ _ _ _ Hr), get_ordered_slot_Ok by (done || lia).
    cbn [obind]. rewrite lookup_ge_None_2 by (rewrite app_nil_r; lia). cbn. eexists _, _, _; split_and!; [done|exact Hr|done..].
  - cbn [length] in *. zdec. rewrite (sr_ordered _ _ _ _ Hr), get_ordered_slot_Ok by (done || lia). cbn [obind]. rewrite list_lookup_middle by done. cbn [fmap option_fmap option_map].
    assert (i ∈ l1 ++ i :: l2) as Hi by set_solver. destruct (rep_entry _ _ _ _ i Hr Hi) as (e & He & _). rewrite (slot_entry_Ok _ _ _ _ _ _ Hr Hi He). cbn [obind].
    cbn [omap list_omap]. rewrite He. cbn [prune_spec]. destruct (cond st e.1 e.2) as [evict st1].
    destruct evict.
    + destruct (remove_by_slot_Ok s c (l1 ++ i :: l2) ages i (Some (length l1)) Hr ltac:(specialize (Hlt i Hi); lia)) as (s1 & ord1 & ages1 & Hrem & Hr1 & Hrs & H1);
        [intros p [= <-]; by apply list_lookup_middle|]. rewrite He in H1. destruct H1 as (Hc1 & _ & Hsl & Hord1). specialize (Hord1 _ eq_refl).
      rewrite take_app_length in Hord1. change (S (length l1)) with (1 + length l1)%nat in Hord1. rewrite Nat.add_comm, drop_app_add in Hord1. cbn in Hord1. subst ord1.
      cbn [fmap option_fmap option_map] in Hrem. rewrite Hrem. cbn [obind]. specialize (IH s1 l1 l2 ages1 st1 Hr1 ltac:(lia)).
      rewrite <-Permutation_middle in Hnd. apply NoDup_cons in Hnd as [Hn _]. specialize (Hlt i Hi).
      rewrite Hsl, contents_untouched in IH by (set_solver || rewrite (sr_len _ _ _ _ Hr); lia). destruct (prune_spec cond st1 _) as [ks st2].
      destruct IH as (s' & ord' & ages' & -> & Hr' & Hc' & Hrs'). eexists _, _, _. split_and!; [done|exact Hr'| |congruence].
      rewrite Hc', Hc1. unfold lru_remove. rewrite list_filter_filter. apply list_filter_iff. intros e'. rewrite not_elem_of_cons. tauto.
    + ostep. replace (Z.of_nat (length l1) + 1) with (Z.of_nat (length (l1 ++ [i]))) by (rewrite length_app; cbn; lia).
      specialize (IH s (l1 ++ [i]) l2 ages st1). rewrite <-app_assoc in IH. specialize (IH Hr ltac:(lia)). by destruct (prune_spec cond st1 _).
Qed.

Lemma prune_cond_Ok {C} (cond : C → K → T → bool * C) s c ord ages st :
  set_rep s c ord ages →
  let '(ks, st') := prune_spec cond st (omap (entry (slots s)) ord) in
  ∃ s' ord' ages', prune_cond (E:=E) cond s st = Ok (s', st') ∧ set_rep s' c ord' ages' ∧
    contents s' ages' = filter (λ e, e.1 ∉ ks) (contents s ages) ∧ reconfigure_state s' = reconfigure_state s.
Proof. intros Hr. destruct (rep_wf _ _ _ _ Hr) as (_ & _ & Hlen & _). apply (prune_loop_Ok cond c 9 s [] ord ages st Hr). lia. Qed.

End Rep.

End CacheSetSpec.
