(* ===== verification/CacheShrink.v ===== *)
(** * Shrinking a cache set (set_assoc_cache.rs)

    The proof that [shrink_capacity] keeps the most recently used entries. *)

From S2P Require Import Prelude BitManip CacheWords CacheMatrix CacheSet CacheSetSpec.
Import BitManip CacheWords CacheMatrix CacheSet CacheSetSpec.

Module CacheShrink.

(** ** The slots to evict *)

Section Evict.
Context {B : Build} {E K T : Type} {HO : Ord K}.
Implicit Types (m : Z) (i j k c t : nat) (ages ev : list nat).

(** After the slots [ev] are marked for eviction: [ka] are the occupied ones kept, and
    occupied ones are evicted only when all the unoccupied ones are. *)
Record shrink_inv m c ages (st : shrink_state) ev ka : Prop := {
  si_u : in_u 64 (sh_matrix st) ∧ in_u 64 (sh_evicted8 st) ∧ in_u 32 (sh_evicted4 st) ∧ in_u 64 (sh_unoccupied st);
  si_nodup : NoDup ev;
  si_lt i : i ∈ ev → (i < c)%nat;
  si_ages : ∃ ea, ages = ka ++ ea ∧ (∀ i, i ∈ ages → i ∈ ev ↔ i ∈ ea) ∧ (ea ≠ [] → ∀ i, (i < c)%nat → i ∉ ages → i ∈ ev);
  si_capacity : sh_capacity st = Z.of_nat (c - length ev);
  si_evicted8 i j : (i < 8)%nat → (j < 8)%nat → nbit (sh_evicted8 st) i j = bool_decide (j ∈ ev);
  si_evicted4 i : (i < 8)%nat → field 4 (Z.of_nat i) (sh_evicted4 st) = if decide (i ∈ ev) then 1 else 0;
  si_unoccupied i j : (i < 8)%nat → (j < 8)%nat → nbit (sh_unoccupied st) i j = bool_decide (i < c ∧ i ∉ ages ++ ev)%nat;
  si_kept i j : (i < 8)%nat → (j < 8)%nat → i ∉ ev → nbit (sh_matrix st) i j = nbit m i j && bool_decide (j ∉ ev);
  si_gone i j : i ∈ ev → (j < 8)%nat → j ∉ ev → nbit (sh_matrix st) i j = true;
}.

Lemma field4_lor (x y i : Z) : 0 ≤ i → field 4 i (Z.lor x y) = Z.lor (field 4 i x) (field 4 i y).
Proof.
  intros Hi. unfold field. rewrite <-!Z.land_ones, <-!Z.shiftr_div_pow2, Z.shiftr_lor by lia. apply Z.land_lor_distr_l.
Qed.
Lemma field4_one k i : (k < 8)%nat → (i < 8)%nat → field 4 (Z.of_nat i) (wrap 32 (Z.shiftl 1 (4 * Z.of_nat k))) = if decide (i = k) then 1 else 0.
Proof.
  intros Hk Hi. rewrite wrap_one by lia. unfold field. destruct (decide (i = k)) as [->|].
  - by rewrite Z.div_same by (apply Z.pow_nonzero; lia).
  - destruct (decide (i < k)%nat).
    + replace (4 * Z.of_nat k) with (4 * Z.of_nat (k - i - 1) + 4 + 4 * Z.of_nat i) by lia. rewrite (Z.pow_add_r 2 _ (4 * Z.of_nat i)), Z.div_mul by (lia || apply Z.pow_nonzero; lia).
      rewrite Z.pow_add_r by lia. apply Z.mod_mul. done.
    + rewrite Z.div_small; [done|]. split; [apply Z.pow_nonneg; lia|]. apply Z.pow_lt_mono_r; lia.
Qed.

(** Marking one more slot. *)
Lemma evict_step m c ages st ev ka i unoccupied :
  matrix_ok m c ages → shrink_inv m c ages st ev ka → (i < c)%nat → i ∉ ev → (length ev < c)%nat →
  in_u 64 unoccupied → (∀ x y, (x < 8)%nat → (y < 8)%nat → nbit unoccupied x y = bool_decide (x < c ∧ x ∉ ages ++ i :: ev)%nat) →
  ∀ ka' ea', ages = ka' ++ ea' → (∀ x, x ∈ ages → x ∈ i :: ev ↔ x ∈ ea') → (ea' ≠ [] → ∀ x, (x < c)%nat → x ∉ ages → x ∈ i :: ev) →
  let evicted8 := Z.lor (sh_evicted8 st) (wrap 64 (Z.shiftl subwords8_mask_lsb (Z.of_nat i))) in
  shrink_inv m c ages
    {| sh_matrix := Z.lor (Z.land (sh_matrix st) (unot 64 evicted8)) (wrap 64 (Z.shiftl 255 (8 * Z.of_nat i)));
       sh_evicted4 := Z.lor (sh_evicted4 st) (wrap 32 (Z.shiftl 1 (4 * Z.of_nat i)));
       sh_evicted8 := evicted8; sh_unoccupied := unoccupied; sh_capacity := sh_capacity st - 1 |} (i :: ev) ka'.
Proof.
  intros Hm Hi Hic Hn Hlen Hu Hub ka' ea' Hages Hea Hfree evicted8. pose proof (mo_c _ _ _ Hm) as Hc8. destruct (si_u _ _ _ _ _ _ Hi) as (Hmu & H8u & H4u & _).
  assert (in_u 64 evicted8) as Heu by (apply lor_in_u; [lia|done|by apply wrap_in_u]).
  assert (∀ x y, (x < 8)%nat → (y < 8)%nat → nbit evicted8 x y = bool_decide (y ∈ i :: ev)) as Hev8.
  { intros x y Hx Hy. unfold nbit, evicted8. rewrite bit_lor, bit_column, eqb_of_nat by lia. fold (nbit (sh_evicted8 st) x y). rewrite (si_evicted8 _ _ _ _ _ _ Hi) by done.
    apply eq_true_iff_eq. rewrite orb_true_iff, !bool_decide_eq_true, Nat.eqb_eq, elem_of_cons. tauto. }
  assert (∀ x y, (x < 8)%nat → (y < 8)%nat → nbit (Z.lor (Z.land (sh_matrix st) (unot 64 evicted8)) (wrap 64 (Z.shiftl 255 (8 * Z.of_nat i)))) x y
    = (nbit (sh_matrix st) x y && bool_decide (y ∉ i :: ev)) || bool_decide (x = i)) as Hmat.
  { intros x y Hx Hy. unfold nbit at 1. rewrite bit_lor, bit_land, bit_unot, bit_row by (lia || done). fold (nbit (sh_matrix st) x y). fold (nbit evicted8 x y). rewrite Hev8, eqb_of_nat by done.
    rewrite bool_decide_not. f_equal. change 255 with (2 ^ 8 - 1). rewrite ones_testbit by lia. zdec. rewrite andb_true_r.
    destruct (Nat.eqb_spec x i); symmetry; [by apply bool_decide_eq_true|by apply bool_decide_eq_false]. }
  split; cbn [sh_matrix sh_evicted4 sh_evicted8 sh_unoccupied sh_capacity].
  - split_and!; [|done|apply lor_in_u; [lia|done|by apply wrap_in_u]|done]. apply lor_in_u; [lia|apply land_in_u'; [done|by apply unot_in_u]|by apply wrap_in_u].
  - constructor; [done|apply Hi].
  - intros x [->|Hx]%elem_of_cons; [done|by apply Hi].
  - by exists ea'.
  - rewrite (si_capacity _ _ _ _ _ _ Hi). cbn [length]. lia.
  - done.
  - intros x Hx. rewrite field4_lor, (si_evicted4 _ _ _ _ _ _ Hi), field4_one by lia. destruct (decide (x = i)) as [->|].
    + rewrite (decide_False (P := i ∈ ev)), (decide_True (P := i ∈ i :: ev)) by (done || left). done.
    + destruct (decide (x ∈ ev)); [rewrite decide_True by by right|rewrite decide_False by (rewrite elem_of_cons; tauto)]; done.
  - done.
  - intros x y Hx Hy Hxe. rewrite not_elem_of_cons in Hxe. rewrite Hmat, (si_kept _ _ _ _ _ _ Hi), (bool_decide_eq_false_2 (x = i)), orb_false_r by tauto.
    rewrite <-andb_assoc. f_equal. apply eq_true_iff_eq. rewrite andb_true_iff, !bool_decide_eq_true, not_elem_of_cons. tauto.
  - intros x y [->|Hx]%elem_of_cons Hy Hye; [rewrite Hmat, (bool_decide_eq_true_2 (i = i)) by (done || lia); apply orb_true_r|]. pose proof (si_lt _ _ _ _ _ _ Hi x Hx).
    rewrite Hmat, (si_gone _ _ _ _ _ _ Hi), bool_decide_eq_true_2 by (done || lia || (rewrite not_elem_of_cons in Hye; tauto)). done.
Qed.

(** The least recently used one of the slots that are left. *)
Lemma evict_lru m c ages st ev ka i (ea : list nat) :
  matrix_ok m c ages → shrink_inv m c ages st ev (ka ++ [i]) → ages = (ka ++ [i]) ++ ea → (∀ x, x ∈ ages → x ∈ ev ↔ x ∈ ea) →
  (∀ x, (x < c)%nat → x ∉ ages → x ∈ ev) → (length ev < 8)%nat →
  find_least_significant_zero_byte (E:=E) (sh_matrix st) = Ok (Z.of_nat i).
Proof.
  intros Hm Hi Hages Hea Hfree Hlen. destruct (si_u _ _ _ _ _ _ Hi) as (Hmu & _). destruct (find_zero_byte_Ok (E:=E) _ Hmu) as (p & -> & Hp & Hpn & Hpz). f_equal.
  pose proof (mo_c _ _ _ Hm) as Hc8. pose proof (mo_nodup _ _ _ Hm) as Hnd. assert (i ∈ ages) as Hia by set_solver. pose proof (mo_lt _ _ _ Hm i Hia) as Hic.
  assert (∀ x, x ∈ ka ++ [i] → x ∉ ev) as Hka.
  { intros x Hx Hxe. rewrite Hages in Hnd. apply NoDup_app in Hnd as (_ & Hd & _). apply (Hd x Hx). apply Hea; [|done]. rewrite Hages. set_solver. }
  assert (∀ x, x ∈ ka → newer m x i) as Hnew.
  { intros x Hx. pose proof (mo_chain _ _ _ Hm) as Hs. rewrite Hages, <-app_assoc in Hs. clear -Hs Hx. induction ka as [|y ka IH]; [set_solver|]. cbn in Hs.
    apply StronglySorted_inv in Hs as [Hs Hf]. rewrite Forall_forall in Hf. apply elem_of_cons in Hx as [->|Hx]; [apply Hf; set_solver|by apply IH]. }
  assert (field 8 (Z.of_nat i) (sh_matrix st) = 0) as Hzero.
  { apply zero_spec; [lia|]. intros j Hj. rewrite <-(Z2Nat.id j) by lia. fold (nbit (sh_matrix st) i (Z.to_nat j)). set (y := Z.to_nat j).
    rewrite (si_kept _ _ _ _ _ _ Hi) by (lia || (apply Hka; set_solver)). destruct (decide (y ∈ ev)) as [Hy|Hy]; [rewrite (bool_decide_eq_false_2 (y ∉ ev)) by tauto; apply andb_false_r|].
    destruct (decide (c ≤ y ∨ y = i)%nat); [by rewrite (mo_col _ _ _ Hm) by (done || lia)|]. assert (y ∈ ages) as Hya by (destruct (decide (y ∈ ages)); [done|]; destruct Hy; apply Hfree; [lia|done]).
    assert (y ∈ ka) as Hyk. { pose proof (Hea y Hya) as He. rewrite Hages in Hya. apply elem_of_app in Hya as [Hya|]; [|tauto]. apply elem_of_app in Hya as [|?]; [done|set_solver]. }
    destruct (Hnew y Hyk) as (_ & -> & _). done. }
  assert (¬ Z.of_nat i < p) by (intros Hlt; by apply (Hpn (Z.of_nat i)); [lia|]). specialize (Hpz ltac:(lia)).
  destruct (decide (Z.to_nat p = i)) as [|Hne]; [lia|]. exfalso. rewrite <-(Z2Nat.id p) in Hpz by lia. set (x := Z.to_nat p) in *. rewrite zero_spec in Hpz by lia.
  assert (∀ y, (y < 8)%nat → nbit (sh_matrix st) x y = false) as Hz by (intros y Hy; apply Hpz; lia).
  destruct (decide (x ∈ ev)) as [Hx|Hx].
  - destruct (free_exists 8 ev (si_nodup _ _ _ _ _ _ Hi) Hlen) as (y & Hy & Hye). specialize (Hz y Hy). by rewrite (si_gone _ _ _ _ _ _ Hi) in Hz.
  - assert (x ∈ ages) as Hxa by (destruct (decide (x ∈ ages)); [done|]; destruct Hx; apply Hfree; [lia|done]).
    assert (x ∈ ka) as Hxk. { pose proof (Hea x Hxa) as He. rewrite Hages in Hxa. apply elem_of_app in Hxa as [Hxa|]; [|tauto]. apply elem_of_app in Hxa as [|?]; [done|set_solver]. }
    specialize (Hz i ltac:(lia)). rewrite (si_kept _ _ _ _ _ _ Hi) in Hz by (done || lia). destruct (Hnew x Hxk) as (Hb & _). rewrite Hb in Hz.
    rewrite bool_decide_eq_true_2 in Hz by (apply Hka; set_solver). done.
Qed.

Lemma shrink_loop_Ok m c ages n fuel : ∀ st ev ka,
  matrix_ok m c ages → shrink_inv m c ages st ev ka → (n + length ev ≤ c)%nat → (c ≤ fuel + n + length ev)%nat →
  ∃ st' ev' ka', shrink_loop (E:=E) fuel (Z.of_nat n) st = Ok st' ∧ shrink_inv m c ages st' ev' ka' ∧ (n + length ev')%nat = c.
Proof.
  induction fuel as [|fuel IH]; intros st ev ka Hm Hi Hn Hf; cbn [shrink_loop]; rewrite (si_capacity _ _ _ _ _ _ Hi), ltb_of_nat;
    destruct (Nat.ltb_spec n (c - length ev)) as [Hlt|Hge]; try lia.
  1, 3: exists st, ev, ka; split_and!; [done..|lia].
  pose proof (mo_c _ _ _ Hm) as Hc8. destruct (si_u _ _ _ _ _ _ Hi) as (Hmu & H8u & H4u & Hu). destruct (si_ages _ _ _ _ _ _ Hi) as (ea & Hages & Hea & Hfree).
  assert (∃ i unoccupied ka' ea', (if negb (sh_unoccupied st =? 0) then
        let! row := ushl (E:=E) 64 255 (trailing_zeros (sh_unoccupied st)) in Ok (Z.shiftr (trailing_zeros (sh_unoccupied st)) 3, Z.lxor (sh_unoccupied st) row)
      else let! slot := find_least_significant_zero_byte (sh_matrix st) in Ok (slot, sh_unoccupied st)) = Ok (Z.of_nat i, unoccupied) ∧
    (i < c)%nat ∧ i ∉ ev ∧ in_u 64 unoccupied ∧ (∀ x y, (x < 8)%nat → (y < 8)%nat → nbit unoccupied x y = bool_decide (x < c ∧ x ∉ ages ++ i :: ev)%nat) ∧
    ages = ka' ++ ea' ∧ (∀ x, x ∈ ages → x ∈ i :: ev ↔ x ∈ ea') ∧ (ea' ≠ [] → ∀ x, (x < c)%nat → x ∉ ages → x ∈ i :: ev))
    as (i & unoccupied & ka' & ea' & -> & Hic & Hiev & Huu & Hub & Hages' & Hea' & Hfree').
  { destruct (lowest_free (sh_unoccupied st) c (ages ++ ev) (λ _, true) Hu (si_unoccupied _ _ _ _ _ _ Hi) eq_refl Hc8) as [(Hnz & i & Ht & Hic & Hia & _)|[Hz Hall]].
    - rewrite not_elem_of_app in Hia. destruct Hia as [Hia Hie]. assert (ea = []) as -> by (destruct ea; [done|]; destruct Hie; by apply Hfree).
      exists i, (Z.lxor (sh_unoccupied st) (wrap 64 (Z.shiftl 255 (8 * Z.of_nat i)))), ages, []. rewrite Ht. zdec. rewrite ushl_Ok by lia. cbn [obind].
      replace (Z.of_nat (8 * i)) with (8 * Z.of_nat i) by lia. split_and!; try done.
      + do 2 f_equal. rewrite Z.shiftr_div_pow2, Z.mul_comm by lia. by apply Z.div_mul.
      + apply lxor_in_u; [lia|done|by apply wrap_in_u].
      + intros x y Hx Hy. unfold nbit, bit. rewrite Z.lxor_spec. fold (bit (sh_unoccupied st) (Z.of_nat x) (Z.of_nat y)). fold (nbit (sh_unoccupied st) x y).
        fold (bit (wrap 64 (Z.shiftl 255 (8 * Z.of_nat i))) (Z.of_nat x) (Z.of_nat y)). rewrite bit_row, eqb_of_nat by (lia || done). change 255 with (2 ^ 8 - 1).
        rewrite ones_testbit by lia. zdec. rewrite andb_true_r, (si_unoccupied _ _ _ _ _ _ Hi) by done. destruct (Nat.eqb_spec x i) as [->|].
        * rewrite (bool_decide_eq_true_2 (i < c ∧ i ∉ ages ++ ev)%nat), bool_decide_eq_false_2 by set_solver. done.
        * rewrite xorb_false_r. apply bool_decide_ext. set_solver.
      + by rewrite app_nil_r.
      + intros x Hx. rewrite elem_of_cons, Hea by done. split; [intros [->|?]; done|by right].
    - assert (∀ x, (x < c)%nat → x ∉ ages → x ∈ ev) as Hfree' by (intros x Hx Hxa; specialize (Hall x Hx); set_solver).
      destruct (last_cases ka) as [->|(ka' & i & ->)].
      { exfalso. destruct (free_exists c ev (si_nodup _ _ _ _ _ _ Hi) ltac:(lia)) as (x & Hx & Hxe). apply Hxe. destruct (decide (x ∈ ages)) as [Hxa|]; [|by apply Hfree'].
        apply Hea; [done|]. by rewrite Hages in Hxa. }
      assert (i ∈ ages) as Hia by set_solver. exists i, (sh_unoccupied st), ka', (i :: ea). rewrite Hz. cbn [Z.eqb negb].
      rewrite (evict_lru m c ages st ev ka' i ea) by (done || lia). cbn [obind]. rewrite <-Hz. pose proof (mo_nodup _ _ _ Hm) as Hnd. rewrite Hages in Hnd.
      split_and!; try done; [by apply Hm| | | | |].
      + intros Hie. apply Hea in Hie; [|done]. apply NoDup_app in Hnd as (_ & Hd & _). apply (Hd i); set_solver.
      + intros x y Hx Hy. rewrite (si_unoccupied _ _ _ _ _ _ Hi) by done. apply bool_decide_ext. set_solver.
      + by rewrite Hages, <-app_assoc.
      + intros x Hx. rewrite !elem_of_cons, Hea by done. done.
      + intros _ x Hx Hxa. right. by apply Hfree'. }
  cbn [obind]. unfold MAX_ASSOCIATIVITY. zdec. ostep.
  rewrite <-(si_capacity _ _ _ _ _ _ Hi). apply (IH _ (i :: ev) ka'); [done| |cbn [length]; lia|cbn [length]; lia].
  by apply (evict_step m c ages st ev ka i unoccupied Hm Hi Hic Hiev ltac:(lia) Huu Hub ka' ea').
Qed.

End Evict.

(** ** The slots that are kept

    [ks ev t]: those of the first [t] slots that are kept; a kept slot [i] moves to
    position [length (ks ev i)]. *)

Section Kept.
Implicit Types (i j p t : nat) (ev : list nat).

Definition ks ev t : list nat := filter (λ i, i ∉ ev) (seq 0 t).
Definition rank ev i : nat := length (ks ev i).

Lemma ks_app ev t u : ks ev (t + u) = ks ev t ++ filter (λ i, i ∉ ev) (seq t u).
Proof. unfold ks. by rewrite seq_app, filter_app. Qed.
Lemma ks_S ev t : ks ev (S t) = ks ev t ++ (if decide (t ∈ ev) then [] else [t]).
Proof.
  replace (S t) with (t + 1)%nat by lia. rewrite ks_app. f_equal. cbn [seq]. rewrite filter_cons. destruct (decide (t ∈ ev)); [by rewrite decide_False by tauto|by rewrite decide_True].
Qed.
Lemma rank_S ev t : rank ev (S t) = (rank ev t + if decide (t ∈ ev) then 0 else 1)%nat.
Proof. unfold rank. rewrite ks_S, length_app. by destruct (decide (t ∈ ev)). Qed.
Lemma rank_le ev t : (rank ev t ≤ t)%nat.
Proof. induction t as [|t IH]; [done|]. rewrite rank_S. destruct (decide (t ∈ ev)); lia. Qed.
Lemma rank_mono ev t u : (t ≤ u)%nat → (rank ev t ≤ rank ev u)%nat.
Proof. intros H. replace u with (t + (u - t))%nat by lia. unfold rank. rewrite ks_app, length_app. lia. Qed.
Lemma rank_lt ev i t : (i < t)%nat → i ∉ ev → (rank ev i < rank ev t)%nat.
Proof. intros H Hi. pose proof (rank_mono ev (S i) t ltac:(lia)) as Hm. rewrite rank_S in Hm. rewrite decide_False in Hm by done. lia. Qed.
Lemma ks_rank ev i t : (i < t)%nat → i ∉ ev → ks ev t !! rank ev i = Some i.
Proof.
  intros H Hi. replace t with (S i + (t - S i))%nat by lia. rewrite ks_app, ks_S, decide_False by done. unfold rank. rewrite <-app_assoc. by apply list_lookup_middle.
Qed.
Lemma ks_lookup ev t p i : ks ev t !! p = Some i → p = rank ev i ∧ i ∉ ev ∧ (i < t)%nat.
Proof.
  intros H. assert (i ∈ ks ev t) as Hi by by eapply list_elem_of_lookup_2. unfold ks in Hi. rewrite list_elem_of_filter, elem_of_seq in Hi. destruct Hi as [Hi Ht].
  split_and!; [|done|lia]. eapply NoDup_lookup; [|exact H|apply ks_rank; [lia|done]]. apply NoDup_filter, NoDup_seq.
Qed.
Lemma rank_all ev c : NoDup ev → (∀ i, i ∈ ev → (i < c)%nat) → (rank ev c + length ev)%nat = c.
Proof.
  intros Hnd Hlt. assert (ks ev c ++ ev ≡ₚ seq 0 c) as Hp; [|apply Permutation_length in Hp; rewrite length_app, length_seq in Hp; exact Hp].
  apply NoDup_Permutation; [apply NoDup_app; split_and!; [apply NoDup_filter, NoDup_seq|intros i; unfold ks; rewrite list_elem_of_filter; tauto|done]|apply NoDup_seq|].
  intros i. unfold ks. rewrite elem_of_app, list_elem_of_filter, elem_of_seq. destruct (decide (i ∈ ev)) as [Hi|]; [specialize (Hlt i Hi); split; [lia|tauto]|tauto].
Qed.

(** Compressing a row keeps the bits of the kept slots. *)
Lemma pext_bits ev v mask n : ∀ j0,
  (∀ j, (j0 ≤ j < j0 + n)%nat → Z.testbit mask (Z.of_nat j) = bool_decide (j ∉ ev)) →
  ∀ p, Z.testbit (pext_from n (Z.of_nat j0) v mask) (Z.of_nat p) =
    match filter (λ i, i ∉ ev) (seq j0 n) !! p with Some j => Z.testbit v (Z.of_nat j) | None => false end.
Proof.
  induction n as [|n IH]; intros j0 Hmask p; cbn [pext_from seq]; [by rewrite Z.bits_0|]. rewrite filter_cons, Hmask by lia.
  replace (Z.of_nat j0 + 1) with (Z.of_nat (S j0)) by lia. specialize (IH (S j0) ltac:(intros; apply Hmask; lia)).
  case_bool_decide as Hj; [rewrite decide_True by done|rewrite decide_False by tauto; apply IH].
  rewrite Z.add_comm. destruct p as [|p]; [by rewrite Z.testbit_0_r|]. rewrite (Nat2Z.inj_succ p), Z.testbit_succ_r, IH by lia. done.
Qed.

End Kept.

(** ** Moving what is kept *)

Section Move.
Context {B : Build} {E K T : Type} {HO : Ord K}.
Implicit Types (i j p t : nat) (ev : list nat).

(** Deleting a row. *)
Definition delete_row (x : Z) (r : nat) : Z :=
  Z.lor (wrap 64 (Z.shiftl (Z.shiftr (Z.shiftr x (8 * Z.of_nat r)) 8) (8 * Z.of_nat r))) (Z.land x (2 ^ (8 * Z.of_nat r) - 1)).

Lemma delete_row_spec x r : in_u 64 x → (r < 8)%nat →
  in_u 64 (delete_row x r) ∧ ∀ j, (j < 8)%nat → field 8 (Z.of_nat j) (delete_row x r) = if decide (j < r)%nat then field 8 (Z.of_nat j) x else field 8 (Z.of_nat (S j)) x.
Proof.
  intros Hx Hr. unfold delete_row. replace (2 ^ (8 * Z.of_nat r) - 1) with (Z.ones (8 * Z.of_nat r)) by (rewrite Z.ones_equiv; lia).
  split; [apply lor_in_u; [lia|by apply wrap_in_u|apply land_in_u; [lia|done|rewrite Z.ones_equiv; pose proof (pow2_pos (8 * Z.of_nat r)); lia]]|].
  intros j Hj. apply row_ext; [lia|destruct (decide (j < r)%nat); apply row_in_u|]. intros b Hb. unfold bit, wrap. rewrite Z.lor_spec, Z.land_spec, Z.mod_pow2_bits_low by lia.
  rewrite Z.shiftl_spec by lia. destruct (decide (j < r)%nat).
  - rewrite Z.testbit_neg_r, Z.ones_spec_low, andb_true_r, bit_field by lia. done.
  - rewrite !Z.shiftr_spec, Z.ones_spec_high, andb_false_r, orb_false_r, bit_field by lia. unfold bit. f_equal. lia.
Qed.
Lemma field_past x : in_u 64 x → field 8 (Z.of_nat 8) x = 0.
Proof. intros Hx. unfold field. change (8 * Z.of_nat 8) with 64. by rewrite Z.div_small. Qed.

(** The nibbles of how many slots up to each are evicted. *)
Fixpoint all_bits (n : nat) : list (list bool) :=
  match n with O => [[]] | S n => (cons true <$> all_bits n) ++ (cons false <$> all_bits n) end.
Fixpoint spread (bs : list bool) : Z := match bs with [] => 0 | b :: bs => Z.b2z b + 16 * spread bs end.
Definition prefix_counts (x : Z) : outcome E Z :=
  let! x := uadd 32 x (wrap 32 (Z.shiftl x 4)) in
  let! x := uadd 32 x (wrap 32 (Z.shiftl x 8)) in
  uadd 32 x (wrap 32 (Z.shiftl x 16)).
Definition counted (bs : list bool) (t : nat) : nat := length (filter (λ b, b = true) (take (S t) bs)).

Lemma all_bits_elem bs : bs ∈ all_bits (length bs).
Proof.
  induction bs as [|[] bs IH]; cbn; [left| |]; rewrite elem_of_app; [left|right]; by apply list_elem_of_fmap_2.
Qed.

Definition counts_ok (bs : list bool) : bool :=
  match prefix_counts (spread bs) with
  | Ok y => (0 <=? y) && (y <? 2 ^ 32) && forallb (λ t, field 4 (Z.of_nat t) y =? Z.of_nat (counted bs t)) (seq 0 8)
  | _ => false
  end.
Lemma prefix_counts_spec bs :
  length bs = 8%nat → ∃ y, prefix_counts (spread bs) = Ok y ∧ in_u 32 y ∧ ∀ t, (t < 8)%nat → field 4 (Z.of_nat t) y = Z.of_nat (counted bs t).
Proof.
  intros Hlen. assert (forallb counts_ok (all_bits 8) = true) as Hall by (unfold counts_ok, prefix_counts, uadd, overflow; destruct B; vm_compute; reflexivity).
  rewrite forallb_forall in Hall. specialize (Hall bs). rewrite <-Hlen, <-list_elem_of_In in Hall. specialize (Hall (all_bits_elem bs)). unfold counts_ok in Hall.
  destruct (prefix_counts (spread bs)) as [y| | |]; try done. apply andb_true_iff in Hall as [[H1 H2]%andb_true_iff H3]. apply Z.leb_le in H1. apply Z.ltb_lt in H2. exists y. split; [done|]. split; [done|].
  intros t Ht. rewrite forallb_forall in H3. apply Z.eqb_eq, H3. apply in_seq. lia.
Qed.

(** What was evicted as nibbles, and the counts, for a list of slots. *)
Lemma spread_field bs t : field 4 (Z.of_nat t) (spread bs) = match bs !! t with Some b => Z.b2z b | None => 0 end.
Proof.
  unfold field. revert t. induction bs as [|b bs IH]; intros t; cbn [spread]; [by rewrite Z.div_0_l by (apply Z.pow_nonzero; lia)|].
  assert (0 ≤ Z.b2z b < 16) by (destruct b; cbn; lia). destruct t as [|t]; cbn [lookup list_lookup].
  - change (2 ^ (4 * Z.of_nat 0)) with 1. rewrite Z.div_1_r. change (2 ^ 4) with 16. rewrite (Z.mul_comm 16), Z.mod_add, Z.mod_small; lia.
  - rewrite <-IH. replace (4 * Z.of_nat (S t)) with (4 + 4 * Z.of_nat t) by lia. rewrite Z.pow_add_r, <-Z.div_div by lia. change (2 ^ 4) with 16.
    rewrite (Z.mul_comm 16), Z.div_add, (Z.div_small (Z.b2z b)) by lia. done.
Qed.
Lemma field4_ext x y : in_u 32 x → in_u 32 y → (∀ t, (t < 8)%nat → field 4 (Z.of_nat t) x = field 4 (Z.of_nat t) y) → x = y.
Proof.
  intros Hx Hy H. apply Z.bits_inj'. intros n Hn. destruct (Z.lt_ge_cases n 32); [|by rewrite !(testbit_high 32) by (done || lia)].
  destruct (subword_pos 4 ltac:(lia) n ltac:(lia)) as (Hpos & Hi & Hj). specialize (H (Z.to_nat (n / 4)) ltac:(lia)). rewrite Z2Nat.id in H by lia.
  rewrite Hpos, <-!field_testbit by lia. by rewrite H.
Qed.
Lemma spread_bound bs : 0 ≤ spread bs < 16 ^ Z.of_nat (length bs).
Proof. induction bs as [|b bs IH]; cbn [spread length]; [lia|]. rewrite Nat2Z.inj_succ, Z.pow_succ_r by lia. destruct b; cbn [Z.b2z]; lia. Qed.

Lemma evicted_counts ev x :
  in_u 32 x → (∀ i, (i < 8)%nat → field 4 (Z.of_nat i) x = if decide (i ∈ ev) then 1 else 0) →
  ∃ y, prefix_counts x = Ok y ∧ in_u 32 y ∧ ∀ t, (t < 8)%nat → field 4 (Z.of_nat t) y = Z.of_nat (S t - rank ev (S t)).
Proof.
  intros Hx Hf. set (bs := (λ i, bool_decide (i ∈ ev)) <$> seq 0 8). assert (length bs = 8%nat) as Hlen by done.
  assert (x = spread bs) as ->.
  { apply field4_ext; [done|pose proof (spread_bound bs) as Hb; rewrite Hlen in Hb; exact Hb|]. intros t Ht. rewrite Hf, spread_field by done. unfold bs.
    rewrite list_lookup_fmap, lookup_seq_lt by lia. cbn. destruct (decide (t ∈ ev)); [by rewrite bool_decide_eq_true_2|by rewrite bool_decide_eq_false_2]. }
  destruct (prefix_counts_spec bs Hlen) as (y & Hy & Hyu & Hc). exists y. split; [done|]. split; [done|]. intros t Ht. rewrite Hc by done. f_equal.
  unfold counted, bs. rewrite <-fmap_take, take_seq. replace (S t `min` 8)%nat with (S t) by lia. clear. generalize (S t) as n. intros n.
  assert (length (filter (λ b, b = true) ((λ i, bool_decide (i ∈ ev)) <$> seq 0 n)) + rank ev n = n)%nat; [|lia]. unfold rank, ks.
  induction n as [|n IH]; [done|]. rewrite seq_S, fmap_app, !filter_app, !length_app. cbn [fmap list_fmap Nat.add]. rewrite !filter_cons.
  destruct (decide (n ∈ ev)) as [Hn|Hn]; [rewrite bool_decide_eq_true_2, (decide_True (P := true = true)), (decide_False (P := n ∉ ev)) by tauto|
    rewrite bool_decide_eq_false_2, (decide_False (P := false = true)), (decide_True (P := n ∉ ev)) by (done || tauto)]; cbn; lia.
Qed.

Lemma nibble x t : (t < 8)%nat → Z.land (Z.shiftr x (4 * Z.of_nat t)) 15 = field 4 (Z.of_nat t) x.
Proof. intros. change 15 with (Z.ones 4). by rewrite Z.land_ones, Z.shiftr_div_pow2 by lia. Qed.
Lemma shift_nibble x t : Z.shiftr (Z.shiftr x (4 * Z.of_nat t)) 4 = Z.shiftr x (4 * Z.of_nat (S t)).
Proof. rewrite Z.shiftr_shiftr by lia. f_equal. lia. Qed.

Section Loop.
Variables (ev : list nat) (l0 : list (option (K * T))) (ord0 : list nat) (x0 e4 le : Z).
Hypothesis Hl0 : length l0 = 8%nat.
Hypothesis Hx0 : in_u 64 x0.
Hypothesis Hord0 : slots_wf ord0 ∧ NoDup ord0.
Hypothesis He4 : ∀ i, (i < 8)%nat → field 4 (Z.of_nat i) e4 = if decide (i ∈ ev) then 1 else 0.
Hypothesis Hle : ∀ t, (t < 8)%nat → field 4 (Z.of_nat t) le = Z.of_nat (S t - rank ev (S t)).

Record moved t (l : list (option (K * T))) (x : Z) : Prop := {
  mv_len : length l = 8%nat;
  mv_u : in_u 64 x;
  mv_done p i : ks ev t !! p = Some i → l !! p = l0 !! i ∧ field 8 (Z.of_nat p) x = field 8 (Z.of_nat i) x0;
  mv_gap p : (rank ev t ≤ p < t)%nat → l !! p = Some None;
  mv_todo p : (t ≤ p)%nat → l !! p = l0 !! p;
  mv_rows q : (rank ev t + q < 8)%nat → field 8 (Z.of_nat (rank ev t + q)) x = if decide (t + q < 8)%nat then field 8 (Z.of_nat (t + q)) x0 else 0;
}.
Definition left_ord t : list nat := filter (λ i, i ∉ ev ∨ (t ≤ i)%nat) ord0.

Lemma left_ord_wf t : slots_wf (left_ord t) ∧ NoDup (left_ord t).
Proof.
  destruct Hord0 as [[Hlen Hlt] Hnd]. split; [split|by apply NoDup_filter].
  - unfold left_ord. rewrite length_filter. done.
  - apply Forall_forall. intros i [_ Hi]%list_elem_of_filter. rewrite Forall_forall in Hlt. by apply Hlt.
Qed.

Lemma left_ord_kept t : t ∉ ev → left_ord (S t) = left_ord t.
Proof. intros Ht. apply list_filter_iff. intros i. destruct (decide (i = t)) as [->|]; [tauto|]. intuition lia. Qed.
Lemma left_ord_gone t (l1 l2 : list nat) : t ∈ ev → left_ord t = l1 ++ t :: l2 → left_ord (S t) = l1 ++ l2.
Proof.
  intros Ht Hl. assert (left_ord (S t) = filter (λ i, i ≠ t) (left_ord t)) as ->.
  { unfold left_ord. rewrite list_filter_filter. apply list_filter_iff. intros i. destruct (decide (i = t)) as [->|]; [intuition lia|]. intuition lia. }
  destruct (left_ord_wf t) as [_ Hnd]. rewrite Hl in *. rewrite <-Permutation_middle in Hnd. apply NoDup_cons in Hnd as [Hn _].
  rewrite filter_app, filter_cons, decide_False by tauto. rewrite !filter_every; [done|..]; intros i Hi ->; set_solver.
Qed.
Lemma left_ord_none t : t ∉ left_ord t → left_ord (S t) = left_ord t.
Proof.
  intros Ht. unfold left_ord in *. revert Ht. clear. induction ord0 as [|i l IH]; intros Ht; [done|]. rewrite !filter_cons in *.
  destruct (decide (i ∉ ev ∨ (t ≤ i)%nat)) as [H|H].
  - rewrite not_elem_of_cons in Ht. destruct Ht as [Hne Ht]. rewrite decide_True by (intuition lia). by rewrite IH.
  - rewrite decide_False by (intuition lia). by apply IH.
Qed.

Lemma left_ord_8 : left_ord 0 = ord0 ∧ left_ord 8 = filter (λ i, i ∉ ev) ord0.
Proof.
  split; [apply filter_every; intros; right; lia|]. destruct Hord0 as [[_ Hlt] _]. unfold left_ord. clear -Hlt. induction Hlt as [|i ord Hi Hlt IH]; [done|].
  rewrite !filter_cons, IH. destruct (decide (i ∉ ev)); [by rewrite decide_True by by left|]. rewrite decide_False; [done|]. intuition lia.
Qed.

(** One iteration. *)
Lemma moved_kept t l x e : (t < 8)%nat → moved t l x → t ∉ ev → l !! t = Some e → moved (S t) (<[rank ev t := e]> (<[t := None]> l)) x.
Proof.
  intros Ht Hm Hev He. pose proof (mv_len _ _ _ Hm) as Hlen. pose proof (rank_le ev t) as Hrk. assert (rank ev (S t) = S (rank ev t)) as HrS by (rewrite rank_S, decide_False by done; lia).
  pose proof (mv_todo _ _ _ Hm t ltac:(lia)) as Hlt. rewrite He in Hlt. split; rewrite ?HrS.
  - by rewrite !length_insert.
  - apply Hm.
  - intros p i Hp. rewrite ks_S, decide_False in Hp by done. destruct (decide (p = rank ev t)) as [->|Hne].
    + unfold rank in Hp. rewrite list_lookup_middle in Hp by done. injection Hp as <-. rewrite list_lookup_insert_eq by (rewrite length_insert; lia). split; [done|].
      pose proof (mv_rows _ _ _ Hm 0%nat ltac:(lia)) as Hr. rewrite !Nat.add_0_r, decide_True in Hr by done. exact Hr.
    + apply lookup_app_Some in Hp as [Hp|[Hge Hp]]; [|unfold rank in Hne; destruct (p - length (ks ev t))%nat eqn:Hsub; [lia|done]].
      pose proof (lookup_lt_Some _ _ _ Hp) as Hlp. fold (rank ev t) in Hlp. rewrite !list_lookup_insert_ne by lia. by apply (mv_done _ _ _ Hm).
  - intros p Hp. destruct (decide (p = t)) as [->|].
    + destruct (decide (rank ev t = t)); [lia|]. rewrite list_lookup_insert_ne, list_lookup_insert_eq by lia. done.
    + rewrite !list_lookup_insert_ne by lia. apply (mv_gap _ _ _ Hm). lia.
  - intros p Hp. rewrite !list_lookup_insert_ne by lia. apply (mv_todo _ _ _ Hm). lia.
  - intros q Hq. pose proof (mv_rows _ _ _ Hm (S q) ltac:(lia)) as Hr. replace (rank ev t + S q)%nat with (S (rank ev t) + q)%nat in Hr by lia.
    by replace (t + S q)%nat with (S t + q)%nat in Hr by lia.
Qed.

Lemma moved_gone t l x : (t < 8)%nat → moved t l x → t ∈ ev → moved (S t) (<[t := None]> l) (delete_row x (rank ev t)).
Proof.
  intros Ht Hm Hev. pose proof (mv_len _ _ _ Hm) as Hlen. pose proof (rank_le ev t) as Hrk. assert (rank ev (S t) = rank ev t) as HrS by (rewrite rank_S, decide_True by done; lia).
  destruct (delete_row_spec x (rank ev t) (mv_u _ _ _ Hm) ltac:(lia)) as [Hu Hrow]. split; rewrite ?HrS.
  - by rewrite length_insert.
  - done.
  - intros p i Hp. rewrite ks_S, decide_True, app_nil_r in Hp by done. pose proof (lookup_lt_Some _ _ _ Hp) as Hlp. fold (rank ev t) in Hlp.
    rewrite list_lookup_insert_ne, Hrow, decide_True by lia. by apply (mv_done _ _ _ Hm).
  - intros p Hp. destruct (decide (p = t)) as [->|]; [by rewrite list_lookup_insert_eq by lia|]. rewrite list_lookup_insert_ne by lia. apply (mv_gap _ _ _ Hm). lia.
  - intros p Hp. rewrite list_lookup_insert_ne by lia. apply (mv_todo _ _ _ Hm). lia.
  - intros q Hq. rewrite Hrow, decide_False by lia. destruct (decide (rank ev t + S q < 8)%nat).
    + pose proof (mv_rows _ _ _ Hm (S q) ltac:(lia)) as Hr. replace (rank ev t + S q)%nat with (S (rank ev t + q)) in Hr by lia. replace (t + S q)%nat with (S t + q)%nat in Hr by lia. done.
    + replace (S (rank ev t + q)) with 8%nat by lia. rewrite field_past, decide_False by (apply Hm || lia). done.
Qed.

Lemma move_slots_Ok n : ∀ t l x, (t + n = 8)%nat → moved t l x →
  ∃ l' x', move_slots (E:=E) n (Z.of_nat t) (Z.shiftr e4 (4 * Z.of_nat t)) (Z.shiftr le (4 * Z.of_nat t)) l (pack (left_ord t)) x = Ok (l', pack (left_ord 8), x') ∧ moved 8 l' x'.
Proof.
  induction n as [|n IH]; intros t l x Ht Hm; cbn [move_slots]; [replace t with 8%nat in * by lia; eauto|].
  pose proof (mv_len _ _ _ Hm) as Hlen. rewrite !nibble, Hle, He4 by lia. pose proof (rank_le ev t) as Hrk. rewrite rank_S. rewrite !shift_nibble.
  replace (Z.of_nat t + 1) with (Z.of_nat (S t)) by lia. destruct (decide (t ∈ ev)) as [Hev|Hev].
  - cbn [Z.eqb]. rewrite Nat2Z.id, set_idx_Ok by lia. cbn [obind]. destruct (left_ord_wf t) as [Hwf Hnd].
    destruct (reverse_lookup_Ok (E:=E) (left_ord t) t Hwf ltac:(lia)) as (o & -> & Ho). cbn [obind].
    assert (match Z.of_nat <$> o with Some p => remove_ordered_slots_entry (pack (left_ord t)) p | None => Ok (pack (left_ord t)) end = Ok (E:=E) (pack (left_ord (S t)))) as ->.
    { destruct o as [p|]; cbn [fmap option_fmap option_map]; [|by rewrite left_ord_none]. destruct Ho as [Ho _]. apply list_elem_of_split_length in Ho as (l1 & l2 & Heq & ->).
      rewrite (left_ord_gone t l1 l2 Hev Heq), Heq. apply remove_entry_Ok. by rewrite <-Heq. }
    cbn [obind]. rewrite uadd_Ok by lia. cbn [obind]. rewrite usub_Ok by lia. cbn [obind].
    replace (Z.of_nat t + 1 - Z.of_nat (S t - (rank ev t + 0))) with (Z.of_nat (rank ev t)) by lia. rewrite umul_Ok by lia. cbn [obind].
    rewrite ushr_Ok by lia. cbn [obind]. rewrite !ushl_Ok by lia. cbn [obind]. rewrite wrap_one by lia. pose proof (pow2_pos (8 * Z.of_nat (rank ev t)) ltac:(lia)).
    rewrite usub_Ok by lia. cbn [obind]. fold (delete_row x (rank ev t)). apply IH; [lia|]. apply moved_gone; [lia|done..].
  - cbn [Z.eqb]. destruct (lookup_lt_is_Some_2 l t ltac:(lia)) as [e He]. rewrite usub_Ok by lia. cbn [obind]. rewrite (take_slot_Ok l t e He). cbn [obind].
    replace (Z.to_nat (Z.of_nat t - Z.of_nat (S t - (rank ev t + 1)))) with (rank ev t) by lia. rewrite set_idx_Ok by (rewrite length_insert; lia). cbn [obind].
    rewrite <-(left_ord_kept t Hev). apply IH; [lia|]. apply moved_kept; [lia|done..].
Qed.

End Loop.

End Move.

(** ** The list of slots *)

Section Renumber.
Context {B : Build} {E K T : Type} {HO : Ord K}.
Implicit Types (i j p t : nat).

Fixpoint pack_counts (f : nat → nat) (l : list nat) : Z := match l with [] => 0 | i :: l => Z.of_nat (f i) + 16 * pack_counts f l end.

Lemma pack_counts_bound f l : Forall (λ i, f i < 16)%nat l → 0 ≤ pack_counts f l < 16 ^ Z.of_nat (length l).
Proof. induction 1 as [|i l Hi Hl IH]; cbn [pack_counts length]; [lia|]. rewrite Nat2Z.inj_succ, Z.pow_succ_r by lia. lia. Qed.
Lemma pack_counts_snoc f l i : pack_counts f (l ++ [i]) = pack_counts f l + 16 ^ Z.of_nat (length l) * Z.of_nat (f i).
Proof. induction l as [|j l IH]; cbn [pack_counts app length]; [lia|]. rewrite IH, Nat2Z.inj_succ, Z.pow_succ_r by lia. lia. Qed.

Lemma rearrange_Ok f le l1 : ∀ l2,
  slots_wf (l1 ++ l2) → Forall (λ i, f i < 16)%nat (l1 ++ l2) → (∀ i, (i < 8)%nat → field 4 (Z.of_nat i) le = Z.of_nat (f i)) →
  rearrange_counts (E:=E) (length l1) (pack (l1 ++ l2)) le (pack_counts f l2) = Ok (pack_counts f (l1 ++ l2)).
Proof.
  induction l1 as [|i l1 IH] using rev_ind; intros l2 Hwf Hf Hle; [done|]. rewrite length_app. cbn [length]. rewrite Nat.add_comm. cbn [Nat.add rearrange_counts].
  rewrite <-app_assoc in *. cbn [app] in *. destruct Hwf as [Hlen Hlt]. rewrite length_app in Hlen. cbn [length] in Hlen.
  rewrite get_ordered_slot_Ok by (lia || (split; [rewrite length_app; cbn; lia|done])). cbn [obind]. rewrite list_lookup_middle by done. cbn [fmap option_fmap option_map unwrap obind].
  assert (i < 8)%nat as Hi by (rewrite Forall_forall in Hlt; apply Hlt; set_solver). rewrite umul_Ok by lia. cbn [obind]. rewrite ushr_Ok by lia. cbn [obind]. rewrite nibble, Hle by lia.
  pose proof Hf as Hf2. apply Forall_app in Hf2 as [_ Hf2]. apply Forall_cons in Hf2 as [Hfi Hf2]. pose proof (pack_counts_bound f l2 Hf2) as Hb.
  assert (16 ^ Z.of_nat (length l2) * 16 ≤ 16 ^ 8) by (rewrite Z.mul_comm, <-Z.pow_succ_r by lia; apply Z.pow_le_mono_r; lia). change (16 ^ 8) with (2 ^ 32) in *.
  rewrite wrap_small by (rewrite Z.shiftl_mul_pow2 by lia; change (2 ^ 4) with 16; unfold in_u; lia).
  rewrite Z.lor_comm, lor_shiftl_add by (lia || (unfold in_u; change (2 ^ 4) with 16; lia)).
  replace (Z.of_nat (f i) + pack_counts f l2 * 2 ^ 4) with (pack_counts f (i :: l2)) by (cbn [pack_counts]; change (2 ^ 4) with 16; lia).
  apply IH; [split; [rewrite length_app; cbn; lia|done]|done|done].
Qed.

Lemma renumber_sub f l : (∀ i, i ∈ l → (f i ≤ i)%nat) → pack l - pack_counts f l = pack ((λ i, i - f i)%nat <$> l) ∧ 0 ≤ pack l - pack_counts f l.
Proof.
  induction l as [|i l IH]; intros H; cbn [pack pack_counts fmap list_fmap]; [done|]. destruct IH as [IH1 IH2]; [intros; apply H; by right|].
  specialize (H i ltac:(left)). cbn. split; lia.
Qed.

(** ** The whole operation *)

Lemma start_inv m c ages u :
  matrix_ok m c ages → in_u 64 u → (∀ i j : Z, 0 ≤ i < 8 → 0 ≤ j < 8 → bit u i j = full m i) →
  shrink_inv m c ages {| sh_matrix := m; sh_evicted4 := 0; sh_evicted8 := 0; sh_unoccupied := u; sh_capacity := Z.of_nat c |} [] ages.
Proof.
  intros Hm Hu Hb. split; cbn.
  - split_and!; [apply Hm|done|done|done].
  - constructor.
  - set_solver.
  - exists []. rewrite app_nil_r. split_and!; [done|set_solver|done].
  - f_equal. lia.
  - intros i j Hi Hj. unfold nbit, bit. rewrite Z.bits_0. done.
  - intros i Hi. unfold field. rewrite Z.div_0_l by (apply Z.pow_nonzero; lia). done.
  - intros i j Hi Hj. unfold nbit. rewrite Hb, app_nil_r by lia. by apply (matrix_full m c ages).
  - intros i j Hi Hj _. by rewrite bool_decide_eq_true_2, andb_true_r by set_solver.
  - set_solver.
Qed.

(** The final rows: those of the kept slots, compressed. *)
Lemma kept_rows m c ages st ev ka x' :
  matrix_ok m c ages → shrink_inv m c ages st ev ka → in_u 64 x' →
  (∀ p i, ks ev 8 !! p = Some i → field 8 (Z.of_nat p) x' = field 8 (Z.of_nat i) (Z.lor (subwords8_compress (sh_matrix st) (unot 64 (sh_evicted8 st))) (sh_unoccupied st))) →
  (∀ p, (rank ev 8 ≤ p < 8)%nat → field 8 (Z.of_nat p) x' = 0) →
  (∀ p i q, ks ev 8 !! p = Some i → (q < 8)%nat →
    nbit x' p q = match ks ev 8 !! q with Some j => nbit m i j | None => false end || bool_decide (i < c ∧ i ∉ ages)%nat) ∧
  (∀ p q, (rank ev 8 ≤ p < 8)%nat → (q < 8)%nat → nbit x' p q = false).
Proof.
  intros Hm Hi Hu Hrow Hzero. destruct (si_u _ _ _ _ _ _ Hi) as (Hmu & H8u & _ & Huu). split.
  - intros p i q Hp Hq. pose proof (ks_lookup _ _ _ _ Hp) as (_ & Hie & Hi8). unfold nbit. rewrite <-bit_field, (Hrow p i Hp), row_lor, Z.lor_spec by lia.
    destruct (compress_rows (sh_matrix st) (unot 64 (sh_evicted8 st)) Hmu ltac:(by apply unot_in_u)) as [_ Hc]. rewrite Hc by lia. f_equal.
    + unfold pext. rewrite (pext_bits ev _ _ 8 0).
      * unfold ks. destruct (filter _ _ !! q) as [j|] eqn:Hj; [|done]. assert (ks ev 8 !! q = Some j) as Hj' by done. apply ks_lookup in Hj' as (_ & Hje & Hj8).
        rewrite bit_field by lia. fold (nbit (sh_matrix st) i j). rewrite (si_kept _ _ _ _ _ _ Hi), bool_decide_eq_true_2, andb_true_r by done. done.
      * intros j Hj. rewrite bit_field, bit_unot by lia. fold (nbit (sh_evicted8 st) i j). rewrite (si_evicted8 _ _ _ _ _ _ Hi) by lia. by rewrite bool_decide_not.
    + rewrite bit_field by lia. fold (nbit (sh_unoccupied st) i q). rewrite (si_unoccupied _ _ _ _ _ _ Hi) by done. apply bool_decide_ext. rewrite not_elem_of_app. tauto.
  - intros p q Hp Hq. unfold nbit. rewrite <-bit_field, (Hzero p Hp) by lia. apply Z.bits_0.
Qed.

Lemma shrunk_matrix m c n ages st ev ka x' :
  matrix_ok m c ages → shrink_inv m c ages st ev ka → (n + length ev)%nat = c → in_u 64 x' →
  (∀ p i q, ks ev 8 !! p = Some i → (q < 8)%nat →
    nbit x' p q = match ks ev 8 !! q with Some j => nbit m i j | None => false end || bool_decide (i < c ∧ i ∉ ages)%nat) →
  (∀ p q, (rank ev 8 ≤ p < 8)%nat → (q < 8)%nat → nbit x' p q = false) →
  matrix_ok x' n (rank ev <$> ka).
Proof.
  intros Hm Hi Hn Hu Hrow Hzero. pose proof (mo_c _ _ _ Hm) as Hc8. destruct (si_ages _ _ _ _ _ _ Hi) as (ea & Hages & Hea & _).
  pose proof (rank_all ev c (si_nodup _ _ _ _ _ _ Hi) (si_lt _ _ _ _ _ _ Hi)) as Hrc. pose proof (mo_nodup _ _ _ Hm) as Hnd. rewrite Hages in Hnd.
  assert (∀ i, i ∈ ka → i ∈ ages ∧ i ∉ ev ∧ (i < c)%nat) as Hka.
  { intros i Hik. assert (i ∈ ages) as Hia by set_solver. split_and!; [done| |by apply Hm]. intros Hie. apply Hea in Hie; [|done]. apply NoDup_app in Hnd as (_ & Hd & _). by apply (Hd i). }
  assert (∀ i, i ∈ ka → ks ev 8 !! rank ev i = Some i) as Hks by (intros i Hik; destruct (Hka i Hik) as (? & ? & ?); apply ks_rank; [lia|done]).
  assert (∀ i, i ∈ ka → (rank ev i < n)%nat) as Hrn by (intros i Hik; destruct (Hka i Hik) as (? & ? & ?); pose proof (rank_lt ev i c ltac:(done) ltac:(done)); lia).
  assert (∀ i q, i ∈ ka → (q < 8)%nat → nbit x' (rank ev i) q = match ks ev 8 !! q with Some j => nbit m i j | None => false end) as Hocc.
  { intros i q Hik Hq. rewrite (Hrow _ i) by (done || by apply Hks). rewrite bool_decide_eq_false_2, orb_false_r by (destruct (Hka i Hik); tauto). done. }
  split; [done|lia| | | | |].
  - apply NoDup_fmap_2_strong; [|by apply NoDup_app in Hnd as [? _]]. intros i j Hik Hjk Heq. pose proof (Hks i Hik) as H1. rewrite Heq, (Hks j Hjk) in H1. by simplify_eq.
  - intros p (i & -> & Hik)%list_elem_of_fmap. by apply Hrn.
  - intros p q Hp Hq Hnp. destruct (ks ev 8 !! p) as [i|] eqn:Hpi.
    + rewrite (Hrow p i q Hpi Hq). destruct (ks_lookup _ _ _ _ Hpi) as (-> & Hie & Hi8).
      assert (i ∉ ages) as Hia. { intros Hia. apply Hnp, list_elem_of_fmap. exists i. split; [done|]. pose proof (Hea i Hia) as He. rewrite Hages in Hia. apply elem_of_app in Hia as [|]; tauto. }
      rewrite (bool_decide_ext (i < c ∧ i ∉ ages)%nat (rank ev i < n)%nat).
      * destruct (ks ev 8 !! q) as [j|] eqn:Hqj; [|done]. apply ks_lookup in Hqj as (_ & _ & Hj8). rewrite (mo_row _ _ _ Hm) by done.
        apply eq_true_iff_eq. rewrite orb_true_iff, !bool_decide_eq_true. split; [intros [Hlt|]; [|done]|tauto]. pose proof (rank_lt ev i c Hlt Hie). lia.
      * split; [intros [Hlt _]; pose proof (rank_lt ev i c Hlt Hie); lia|]. intros Hlt. split; [|done]. destruct (decide (i < c)%nat); [done|]. pose proof (rank_mono ev c i ltac:(lia)). lia.
    + apply lookup_ge_None in Hpi. fold (rank ev 8) in Hpi. rewrite Hzero by lia. symmetry. apply bool_decide_eq_false. pose proof (rank_mono ev c 8 ltac:(lia)). lia.
  - intros p q (i & -> & Hik)%list_elem_of_fmap Hq Hcq. rewrite Hocc by done. destruct (ks ev 8 !! q) as [j|] eqn:Hqj; [|done].
    destruct (ks_lookup _ _ _ _ Hqj) as (-> & Hje & Hj8). destruct (Hka i Hik) as (Hia & _ & _). apply Hm; [done|done|]. destruct Hcq as [Hcq|Heq].
    + left. destruct (decide (j < c)%nat) as [Hlt|]; [|lia]. pose proof (rank_lt ev j c Hlt Hje). lia.
    + right. rewrite Heq, (Hks i Hik) in Hqj. by simplify_eq.
  - pose proof (mo_chain _ _ _ Hm) as Hs. rewrite Hages in Hs.
    assert (StronglySorted (newer m) ka) as Hska.
    { clear -Hs. induction ka as [|i ka IH]; [constructor|]. cbn in Hs. apply StronglySorted_inv in Hs as [Hs Hf]. constructor; [by apply IH|]. by apply Forall_app in Hf as [? _]. }
    assert (∀ i k, i ∈ ka → k ∈ ka → newer m i k → newer x' (rank ev i) (rank ev k)) as Hnew.
    { intros i k Hik Hkk (H1 & H2 & H3). pose proof (Hrn i Hik). pose proof (Hrn k Hkk). unfold newer. rewrite !Hocc, (Hks i), (Hks k) by (done || lia). split_and!; [done..|].
      intros u Hu8. rewrite !Hocc by done. destruct (ks ev 8 !! u) as [j|] eqn:Huj; [|done]. apply ks_lookup in Huj as (_ & _ & Hj8). by apply H3. }
    clear -Hska Hnew. induction Hska as [|i ka Hs IH Hf]; cbn; constructor; [apply IH; intros; apply Hnew; [by right..|done]|].
    apply Forall_forall. intros p (k & -> & Hk)%list_elem_of_fmap. rewrite Forall_forall in Hf. apply Hnew; [left|by right|by apply Hf].
Qed.

Lemma kept_count m c n ages st ev ka :
  matrix_ok m c ages → shrink_inv m c ages st ev ka → (n + length ev)%nat = c → take n ages = ka.
Proof.
  intros Hm Hi Hn. destruct (si_ages _ _ _ _ _ _ Hi) as (ea & Hages & Hea & Hfree). pose proof (mo_nodup _ _ _ Hm) as Hnd.
  assert (length ka ≤ n)%nat as Hle.
  { assert (ka ++ ev ⊆+ seq 0 c) as Hsub; [|apply submseteq_length in Hsub; rewrite length_app, length_seq in Hsub; lia]. rewrite Hages in Hnd. apply NoDup_app in Hnd as (Hnd1 & Hd & _).
    apply NoDup_submseteq; [apply NoDup_app; split_and!; [done| |apply Hi]|].
    - intros i Hik Hie. apply (Hd i Hik). apply Hea; [rewrite Hages; set_solver|done].
    - intros i Hik. rewrite elem_of_seq. apply elem_of_app in Hik as [Hik|Hik]; [|pose proof (si_lt _ _ _ _ _ _ Hi i Hik); lia].
      pose proof (mo_lt _ _ _ Hm i ltac:(rewrite Hages; set_solver)). lia. }
  destruct (decide (ea = [])) as [->|Hne].
  - rewrite Hages, app_nil_r. by apply take_ge.
  - assert (seq 0 c ⊆+ ka ++ ev) as Hsub.
    { apply NoDup_submseteq; [apply NoDup_seq|]. intros i Hik. rewrite elem_of_seq in Hik. apply elem_of_app. destruct (decide (i ∈ ages)) as [Hia|Hia].
      - pose proof (Hea i Hia). rewrite Hages in Hia. apply elem_of_app in Hia. tauto.
      - right. apply Hfree; [done|lia|done]. }
    apply submseteq_length in Hsub. rewrite length_app, length_seq in Hsub. rewrite Hages, take_app_length'; [done|lia].
Qed.

Lemma take_omap s c ord ages n : set_rep (K:=K) (T:=T) s c ord ages → omap (entry (slots s)) (take n ages) = take n (contents s ages).
Proof.
  intros Hr. assert (∀ i, i ∈ ages → is_Some (entry (slots s) i)) as Hocc by (intros i; apply Hr). unfold contents. clear Hr. revert n. induction ages as [|i ages IH]; intros [|n]; [done..|].
  cbn. destruct (Hocc i ltac:(left)) as [e ->]. cbn. rewrite IH; [done|]. intros. apply Hocc. by right.
Qed.

Lemma matrix_mask m n ages : matrix_ok m n ages → Z.land m (unot 64 (2 ^ (8 * Z.of_nat n) - 1)) = 0.
Proof.
  intros Hm. pose proof (mo_c _ _ _ Hm) as Hn. set (mask := 2 ^ (8 * Z.of_nat n) - 1).
  assert (∀ p q, (p < 8)%nat → (q < 8)%nat → nbit mask p q = bool_decide (p < n)%nat) as Hmask.
  { intros p q Hp Hq. pose proof (pruned_matrix n Hn) as Hf. fold mask in Hf. by rewrite (mo_row _ _ _ Hf) by set_solver. }
  assert (in_u 64 mask) as Hu by apply (pruned_matrix n Hn). apply bit_ext; [apply land_in_u'; [apply Hm|by apply unot_in_u]|done|]. intros i j Hi Hj.
  rewrite bit_land, bit_unot by lia. rewrite <-(Z2Nat.id i), <-(Z2Nat.id j) by lia. fold (nbit m (Z.to_nat i) (Z.to_nat j)). fold (nbit mask (Z.to_nat i) (Z.to_nat j)).
  rewrite Hmask by lia. unfold bit. rewrite Z.bits_0. case_bool_decide as Hin; [apply andb_false_r|]. rewrite (mo_row _ _ _ Hm), bool_decide_eq_false_2; [done|lia|lia|lia|].
  intros Hia%(mo_lt _ _ _ Hm). lia.
Qed.

(** The set with its slots, list and matrix rearranged. *)
Lemma shrunk_rep s c n ord ages st ev ka l' x' :
  set_rep (K:=K) (T:=T) s c ord ages → shrink_inv (lru_reference_matrix s) c ages st ev ka → (n + length ev)%nat = c → matrix_ok x' n (rank ev <$> ka) →
  length l' = 8%nat → (∀ p i, ks ev 8 !! p = Some i → l' !! p = slots s !! i) → (∀ p, (rank ev 8 ≤ p < 8)%nat → l' !! p = Some None) →
  let ord' := rank ev <$> filter (λ i, i ∉ ev) ord in
  let s' := with_capacity (set_slots (set_ordered (set_matrix s x') (pack ord')) l') (Z.of_nat n) in
  set_rep s' n ord' (rank ev <$> ka) ∧ contents s' (rank ev <$> ka) = take n (contents s ages).
Proof.
  intros Hr Hi Hn Hm' Hl8 Hkept Hgap ord' s'. pose proof (sr_matrix _ _ _ _ Hr) as Hm. pose proof (mo_c _ _ _ Hm) as Hc8. destruct (si_ages _ _ _ _ _ _ Hi) as (ea & Hages & Hea & _).
  pose proof (mo_nodup _ _ _ Hm) as Hnd. rewrite Hages in Hnd.
  assert (∀ i, i ∈ ka ↔ i ∈ ages ∧ i ∉ ev) as Hka.
  { intros i. split.
    - intros Hik. assert (i ∈ ages) as Hia by set_solver. split; [done|]. intros Hie. apply Hea in Hie; [|done]. apply NoDup_app in Hnd as (_ & Hd & _). by apply (Hd i).
    - intros [Hia Hie]. pose proof (Hea i Hia). rewrite Hages in Hia. apply elem_of_app in Hia. tauto. }
  assert (∀ i, i ∉ ev → (i < 8)%nat → entry l' (rank ev i) = entry (slots s) i) as Hent by (intros i Hie Hi8; unfold entry; by rewrite (Hkept _ i) by (by apply ks_rank)).
  assert (∀ i, i ∈ ages → (i < 8)%nat) as Hlt by (intros i Hia; pose proof (mo_lt _ _ _ Hm i Hia); lia).
  split; [split; cbn|].
  - done.
  - done.
  - done.
  - done.
  - unfold ord'. apply Permutation_map. rewrite (sr_perm _ _ _ _ Hr). apply NoDup_Permutation; [apply NoDup_filter, Hm|by apply NoDup_app in Hnd as [? _]|].
    intros i. rewrite list_elem_of_filter, Hka. tauto.
  - intros p. rewrite list_elem_of_fmap. split.
    + intros (i & -> & [Hia Hie]%Hka). rewrite Hent by auto. by apply Hr.
    + intros [e He]. destruct (ks ev 8 !! p) as [i|] eqn:Hp.
      * destruct (ks_lookup _ _ _ _ Hp) as (-> & Hie & Hi8). exists i. split; [done|]. apply Hka. split; [|done]. rewrite (sr_slots _ _ _ _ Hr). rewrite <-Hent by done. eauto.
      * apply lookup_ge_None in Hp. fold (rank ev 8) in Hp. unfold entry in He. destruct (decide (p < 8)%nat); [rewrite Hgap in He by lia; done|]. by rewrite lookup_ge_None_2 in He by lia.
  - unfold ord'. assert (∀ i, i ∈ filter (λ i, i ∉ ev) ord → entry l' (rank ev i) = entry (slots s) i) as Hent'.
    { intros i [Hie Hio]%list_elem_of_filter. apply Hent; [done|]. apply Hlt. by rewrite <-(sr_perm _ _ _ _ Hr). }
    pose proof (sorted_filter _ (λ i, i ∉ ev) _ (sr_sorted _ _ _ _ Hr)) as Hs. clear -Hent' Hs. induction Hs as [|i l Hs IH Hf]; cbn; constructor; [apply IH; intros; apply Hent'; by right|].
    apply Forall_forall. intros p (j & -> & Hj)%list_elem_of_fmap. rewrite Forall_forall in Hf. destruct (Hf j Hj) as (a & b & Ha & Hb & Hab).
    exists a, b. rewrite !Hent' by (left || by right). done.
  - unfold contents at 1. cbn [slots s' set_slots with_capacity]. rewrite <-(take_omap _ _ _ _ n Hr), (kept_count _ _ _ _ _ _ _ Hm Hi Hn).
    assert (∀ i, i ∈ ka → entry l' (rank ev i) = entry (slots s) i) as Hent' by (intros i [Hia Hie]%Hka; auto). clear -Hent'. induction ka as [|i ka IH]; [done|]. cbn.
    rewrite Hent' by left. rewrite IH by (intros; apply Hent'; by right). done.
Qed.

Lemma shrink_Ok s c ord ages n :
  set_rep (K:=K) (T:=T) s c ord ages → (n < c)%nat →
  ∃ s' ord' ages', shrink_capacity (E:=E) s (Z.of_nat n) = Ok s' ∧ set_rep s' n ord' ages' ∧ contents s' ages' = take n (contents s ages) ∧
    reconfigure_state s' = reconfigure_state s.
Proof.
  intros Hr Hn. pose proof (sr_matrix _ _ _ _ Hr) as Hm. pose proof (mo_c _ _ _ Hm) as Hc8. unfold shrink_capacity, MAX_ASSOCIATIVITY. rewrite (sr_capacity _ _ _ _ Hr), ltb_of_nat.
  rewrite (proj2 (Nat.ltb_lt n c) Hn). zdec. cbn [debug_assert obind]. destruct (mask_all_set_Ok (E:=E) (lru_reference_matrix s) (mo_u _ _ _ Hm)) as (u & -> & Huu & Hub). cbn [obind].
  destruct (shrink_loop_Ok (E:=E) _ c ages n 8 _ [] ages Hm (start_inv _ c ages u Hm Huu Hub)) as (st & ev & ka & -> & Hi & Hlen); [cbn; lia..|]. cbn [obind].
  destruct (si_u _ _ _ _ _ _ Hi) as (Hmu & H8u & H4u & Huu'). destruct (evicted_counts (E:=E) ev _ H4u (si_evicted4 _ _ _ _ _ _ Hi)) as (le & Hle & Hleu & Hlef).
  destruct (compress_rows (sh_matrix st) (unot 64 (sh_evicted8 st)) Hmu ltac:(by apply unot_in_u)) as [Hcu _]. set (x0 := Z.lor (subwords8_compress _ _) _).
  assert (in_u 64 x0) as Hx0 by by apply lor_in_u. destruct (rep_wf _ _ _ _ Hr) as (Hwf & Hndo & Hlo & Hlto).
  assert (moved ev (slots s) x0 0 (slots s) x0) as Hmv0.
  { split; [apply Hr|done|done|intros; lia|done|]. intros q Hq. cbn in Hq |- *. by rewrite decide_True by lia. }
  destruct (left_ord_8 ev (slots s) ord (sr_len _ _ _ _ Hr) (conj Hwf Hndo)) as [Hl0 Hl8].
  unfold prefix_counts in Hle. destruct (uadd 32 (sh_evicted4 st) _) as [y1| | |]; try done. cbn [obind] in Hle |- *. destruct (uadd 32 y1 _) as [y2| | |]; try done.
  cbn [obind] in Hle |- *. rewrite Hle. cbn [obind].
  destruct (move_slots_Ok (E:=E) ev (slots s) ord x0 (sh_evicted4 st) le (sr_len _ _ _ _ Hr) Hx0 (conj Hwf Hndo) (si_evicted4 _ _ _ _ _ _ Hi) Hlef 8 0 (slots s) x0 eq_refl Hmv0) as (l' & x' & Hmove & Hmv).
  rewrite Hl0, Hl8 in Hmove. change (4 * Z.of_nat 0) with 0 in Hmove. rewrite !Z.shiftr_0_r in Hmove. rewrite (sr_ordered _ _ _ _ Hr). change (Z.of_nat 0) with 0 in Hmove. rewrite Hmove. cbn [obind].
  destruct (kept_rows _ c ages st ev ka x' Hm Hi (mv_u _ _ _ _ _ _ Hmv)) as [Hrow Hzero]; [intros p i Hp; by apply (mv_done _ _ _ _ _ _ Hmv)| |].
  { intros p Hp. pose proof (mv_rows _ _ _ _ _ _ Hmv (p - rank ev 8)%nat ltac:(lia)) as Hr8. rewrite decide_False in Hr8 by lia. by replace (rank ev 8 + (p - rank ev 8))%nat with p in Hr8 by lia. }
  pose proof (shrunk_matrix _ c n ages st ev ka x' Hm Hi Hlen (mv_u _ _ _ _ _ _ Hmv) Hrow Hzero) as Hm'.
  rewrite debug_check_true by (rewrite umul_Ok by lia; cbn [obind]; rewrite trailing_bits_mask_u_spec by lia; cbn [obind]; by rewrite (matrix_mask _ _ _ Hm')). cbn [obind].
  assert (slots_wf (filter (λ i, i ∉ ev) ord)) as Hwf'. { rewrite <-Hl8. by apply left_ord_wf. }
  rewrite occupied_count_Ok by done. cbn [obind]. rewrite Nat2Z.id. set (f := λ i, (S i - rank ev (S i))%nat).
  assert (∀ i, (f i ≤ S i)%nat) as Hf by (intros i; unfold f; lia).
  assert (∀ i, i ∈ filter (λ i, i ∉ ev) ord → f i = (i - rank ev i)%nat) as Hfk by (intros i [Hie _]%list_elem_of_filter; unfold f; rewrite rank_S, decide_False by done; lia).
  pose proof (rearrange_Ok f le (filter (λ i, i ∉ ev) ord) []) as Hre. rewrite app_nil_r in Hre. change (pack_counts f []) with 0 in Hre. rewrite Hre; [|done| |done].
  2: { destruct Hwf' as [_ Hlt]. eapply Forall_impl; [exact Hlt|]. intros i Hi8. specialize (Hf i). cbn in Hi8. lia. }
  cbn [obind]. destruct (renumber_sub f (filter (λ i, i ∉ ev) ord)) as [Hsub Hpos]; [intros i Hio; rewrite Hfk by done; lia|]. rewrite usub_Ok by lia. cbn [obind]. rewrite Hsub.
  assert ((λ i, (i - f i)%nat) <$> filter (λ i, i ∉ ev) ord = rank ev <$> filter (λ i, i ∉ ev) ord) as ->.
  { apply list_fmap_ext. intros j i Hji. rewrite Hfk by (by eapply list_elem_of_lookup_2). pose proof (rank_le ev i). lia. }
  destruct (shrunk_rep s c n ord ages st ev ka l' x' Hr Hi Hlen Hm' (mv_len _ _ _ _ _ _ Hmv)) as [Hrep Hcont];
    [intros p i Hp; by apply (mv_done _ _ _ _ _ _ Hmv)|intros p Hp; by apply (mv_gap _ _ _ _ _ _ Hmv)|]. eexists _, _, _. split_and!; [done|exact Hrep|exact Hcont|done].
Qed.

Lemma set_capacity_Ok s c ord ages n :
  set_rep (K:=K) (T:=T) s c ord ages → (n ≤ 8)%nat →
  ∃ s' ord' ages', set_capacity (E:=E) s (Z.of_nat n) = Ok s' ∧ set_rep s' n ord' ages' ∧ contents s' ages' = take n (contents s ages) ∧
    reconfigure_state s' = reconfigure_state s.
Proof.
  intros Hr Hn. unfold set_capacity. rewrite (sr_capacity _ _ _ _ Hr). pose proof (ages_length _ _ _ (sr_matrix _ _ _ _ Hr)) as Hla. pose proof (contents_length _ _ _ _ Hr) as Hlc.
  destruct (Z.compare_spec (Z.of_nat n) (Z.of_nat c)) as [Heq|Hlt|Hgt].
  - replace n with c in * by lia. eexists _, _, _. split_and!; [done|exact Hr|by rewrite take_ge by lia|done].
  - apply (shrink_Ok s c ord ages n); [done|lia].
  - destruct (grow_Ok (E:=E) s c ord ages n Hr ltac:(lia)) as (s' & -> & Hr' & Hc' & Hrs). eexists _, _, _. split_and!; [done|exact Hr'|by rewrite Hc', take_ge by lia|done].
Qed.

End Renumber.

End CacheShrink.
