(* ===== verification/SetAssocCache.v ===== *)
(** * The set-associative cache (storage/src/fs/cocoonfs/set_assoc_cache.rs)

    A [SetAssocCache] distributes its entries over cache sets by their keys.  The
    theorem shows that sequences of operations do what the specification does, in which
    every set is a list of entries in the order of their use. *)

From S2P Require Import Prelude BitManip CacheWords CacheMatrix CacheSet CacheSetSpec CacheShrink.
Import BitManip CacheSetSpec.

(** The trait that maps keys to cache sets. *)
Class SetAssocCacheMapKeyToSet (K M : Type) := map_key : M → K → option nat.

Module SetAssocCache.
Import CacheSet(SetAssocCacheSet, slots, capacity, reconfigure_state).

Inductive SetAssocCacheConfigureError := MemoryAllocationFailure.

Record SetAssocCache {K T M : Type} := {
  sets : list (SetAssocCacheSet K T);
  map_key_to_set : M;
}.
Arguments SetAssocCache : clear implicits.

Record SetAssocCacheIndex := { set_index : nat; slot : Z }.

Inductive SetAssocCacheInsertionResult (K T : Type) :=
| Inserted (index : SetAssocCacheIndex) (evicted : option (K * T))
| Uncacheable (value : T).
Arguments Inserted {K T}.
Arguments Uncacheable {K T}.

Section Ops.
Context {B : Build} {A : Allocator} {E K T M : Type} {HO : Ord K} {HM : SetAssocCacheMapKeyToSet K M}.
Implicit Types self : SetAssocCache K T M.

(** Setting the capacities of the sets, in order. *)
Fixpoint set_capacities {E} (l : list (SetAssocCacheSet K T)) (i : nat) (sets_capacities : list Z) : outcome E (list (SetAssocCacheSet K T)) :=
  match sets_capacities with
  | [] => Ok l
  | set_capacity :: sets_capacities =>
      let! s := idx l i in
      let! s := CacheSet.set_capacity s set_capacity in
      let! l := set_idx l i s in
      set_capacities l (S i) sets_capacities
  end.

Definition new (map_key_to_set : M) (sets_capacities : list Z) : outcome SetAssocCacheConfigureError (SetAssocCache K T M) :=
  let sets_count := length sets_capacities in
  if alloc_ok 0 sets_count then
    let! sets := set_capacities (replicate sets_count CacheSet.cache_set_default) 0 sets_capacities in
    Ok {| sets := sets; map_key_to_set := map_key_to_set |}
  else Err MemoryAllocationFailure.

Definition with_set self (i : nat) (s : SetAssocCacheSet K T) : SetAssocCache K T M :=
  {| sets := <[i := s]> (sets self); map_key_to_set := map_key_to_set self |}.

Definition lookup self (key : K) : outcome E (option SetAssocCacheIndex) :=
  match map_key (map_key_to_set self) key with
  | None => Ok None
  | Some set_index =>
      let! s := idx (sets self) set_index in
      let! slot := CacheSet.lookup_key s key in
      Ok ((λ slot, {| set_index := set_index; slot := slot |}) <$> slot)
  end.

Definition get_entry self (index : SetAssocCacheIndex) : outcome E (SetAssocCache K T M * option (K * T)) :=
  let! s := idx (sets self) (set_index index) in
  let! '(s, e) := CacheSet.get_slot s (slot index) in
  Ok (with_set self (set_index index) s, e).

(** [upd] is what the caller does to the value through the reference. *)
Definition get_entry_mut self (index : SetAssocCacheIndex) (upd : T → T) : outcome E (SetAssocCache K T M * option (K * T)) :=
  let! s := idx (sets self) (set_index index) in
  let! '(s, e) := CacheSet.get_slot_mut s (slot index) upd in
  Ok (with_set self (set_index index) s, e).

Definition get_entry_key self (index : SetAssocCacheIndex) : outcome E (option K) :=
  let! s := idx (sets self) (set_index index) in CacheSet.get_slot_key s (slot index).

Definition get self (key : K) : outcome E (SetAssocCache K T M * option T) :=
  let! index := lookup self key in
  match index with
  | None => Ok (self, None)
  | Some index => let! '(self, e) := get_entry self index in Ok (self, snd <$> e)
  end.

Definition insert self (key : K) (value : T) : outcome E (SetAssocCache K T M * SetAssocCacheInsertionResult K T) :=
  match map_key (map_key_to_set self) key with
  | None => Ok (self, Uncacheable value)
  | Some set_index =>
      let! s := idx (sets self) set_index in
      let! '(s, (slot, evicted)) := CacheSet.insert s key value in
      Ok (with_set self set_index s, Inserted {| set_index := set_index; slot := slot |} evicted)
  end.

Definition remove_entry self (index : SetAssocCacheIndex) : outcome E (SetAssocCache K T M * option (K * T)) :=
  let! s := idx (sets self) (set_index index) in
  let! '(s, e) := CacheSet.remove_by_slot s (slot index) None in
  Ok (with_set self (set_index index) s, e).

Definition remove self (key : K) : outcome E (SetAssocCache K T M * option (K * T)) :=
  match map_key (map_key_to_set self) key with
  | None => Ok (self, None)
  | Some set_index =>
      let! s := idx (sets self) set_index in
      let! '(s, e) := CacheSet.remove_by_key s key in
      Ok (with_set self set_index s, e)
  end.

Fixpoint prune_all_sets (l : list (SetAssocCacheSet K T)) : outcome E (list (SetAssocCacheSet K T)) :=
  match l with
  | [] => Ok []
  | s :: l => let! s := CacheSet.prune_all s in let! l := prune_all_sets l in Ok (s :: l)
  end.
Definition prune_all self : outcome E (SetAssocCache K T M) :=
  let! l := prune_all_sets (sets self) in Ok {| sets := l; map_key_to_set := map_key_to_set self |}.

Fixpoint prune_cond_sets {C} (cond : C → K → T → bool * C) (l : list (SetAssocCacheSet K T)) (st : C) : outcome E (list (SetAssocCacheSet K T) * C) :=
  match l with
  | [] => Ok ([], st)
  | s :: l =>
      let! '(s, st) := CacheSet.prune_cond cond s st in
      let! '(l, st) := prune_cond_sets cond l st in Ok (s :: l, st)
  end.
Definition prune_cond {C} (cond : C → K → T → bool * C) self (st : C) : outcome E (SetAssocCache K T M * C) :=
  let! '(l, st) := prune_cond_sets cond (sets self) st in Ok ({| sets := l; map_key_to_set := map_key_to_set self |}, st).

Definition get_map_key_to_set self : M := map_key_to_set self.

End Ops.

(** ** The specification

    The capacities of the sets and their entries, the most recently used one first. *)

Section Spec.
Context {B : Build} {A : Allocator} {K T M : Type} {HO : Ord K} {HM : SetAssocCacheMapKeyToSet K M}.

Abbreviation lru_cache := (list (nat * list (K * T))).

(** The operations of a client: access through [lookup] and [get_entry] or
    [get_entry_mut], insertion, removal and pruning. *)
Inductive cache_op :=
| OpGet (key : K)
| OpUpdate (key : K) (upd : T → T)
| OpInsert (key : K) (value : T)
| OpRemove (key : K)
| OpPruneAll
| OpPrune (cond : K → T → bool).
Inductive cache_result :=
| RValue (value : option T)
| RInserted (evicted : option (K * T))
| RUncacheable (value : T)
| RRemoved (removed : option (K * T))
| RDone.

Definition spec_op (m : M) (a : lru_cache) (op : cache_op) : lru_cache * cache_result :=
  let set k (f : nat → list (K * T) → list (K * T) * cache_result) (none : cache_result) :=
    match map_key m k with
    | None => (a, none)
    | Some i => match a !! i with None => (a, none) | Some (c, l) => let '(l, r) := f c l in (<[i := (c, l)]> a, r) end
    end in
  match op with
  | OpGet k => set k (λ _ l, (lru_get l k id, RValue (lru_lookup l k))) (RValue None)
  | OpUpdate k upd => set k (λ _ l, (lru_get l k upd, RValue (lru_lookup l k))) (RValue None)
  | OpInsert k v => set k (λ c l, let '(l, e) := lru_insert c l k v in (l, RInserted e)) (RUncacheable v)
  | OpRemove k => set k (λ _ l, (lru_remove l k, RRemoved ((λ v, (k, v)) <$> lru_lookup l k))) (RRemoved None)
  | OpPruneAll => ((λ p, (p.1, [])) <$> a, RDone)
  | OpPrune cond => ((λ p, (p.1, filter (λ e, cond e.1 e.2 = false) p.2)) <$> a, RDone)
  end.
Fixpoint spec_run (m : M) (a : lru_cache) (ops : list cache_op) : lru_cache * list cache_result :=
  match ops with
  | [] => (a, [])
  | op :: ops => let '(a, r) := spec_op m a op in let '(a, rs) := spec_run m a ops in (a, r :: rs)
  end.

Definition run_op {E} (self : SetAssocCache K T M) (op : cache_op) : outcome E (SetAssocCache K T M * cache_result) :=
  match op with
  | OpGet k => let! '(self, v) := get self k in Ok (self, RValue v)
  | OpUpdate k upd =>
      let! index := lookup self k in
      match index with
      | None => Ok (self, RValue None)
      | Some index => let! '(self, e) := get_entry_mut self index upd in Ok (self, RValue (snd <$> e))
      end
  | OpInsert k v =>
      let! '(self, r) := insert self k v in
      Ok (self, match r with Inserted _ e => RInserted e | Uncacheable v => RUncacheable v end)
  | OpRemove k => let! '(self, e) := remove self k in Ok (self, RRemoved e)
  | OpPruneAll => let! self := prune_all self in Ok (self, RDone)
  | OpPrune cond => let! '(self, _) := prune_cond (λ st k v, (cond k v, st)) self tt in Ok (self, RDone)
  end.
Fixpoint run {E} (self : SetAssocCache K T M) (ops : list cache_op) : outcome E (SetAssocCache K T M * list cache_result) :=
  match ops with
  | [] => Ok (self, [])
  | op :: ops => let! '(self, r) := run_op self op in let! '(self, rs) := run self ops in Ok (self, r :: rs)
  end.

(** Every set refines its part; an entry is in the set that its key maps to; the map
    gives sets that exist and can hold entries. *)
Record cache_refines (self : SetAssocCache K T M) (a : lru_cache) : Prop := {
  cr_sets : Forall2 (λ s p, set_refines s p.1 p.2) (sets self) a;
  cr_map i p e : a !! i = Some p → e ∈ p.2 → map_key (map_key_to_set self) e.1 = Some i;
  cr_range k i : map_key (map_key_to_set self) k = Some i → ∃ c l, a !! i = Some (c, l) ∧ (0 < c)%nat;
}.

(** ** The operations on a set *)

Section Sets.
Context {E : Type}.
Implicit Types (s : SetAssocCacheSet K T) (l : list (K * T)).

Lemma default_refines : set_refines (K:=K) (T:=T) CacheSet.cache_set_default 0 [].
Proof.
  exists [], []. split; [|done]. split; cbn [slots capacity CacheSet.cache_set_default CacheSet.lru_reference_matrix CacheSet.ordered_slots];
    [done|apply CacheMatrix.empty_matrix|done|done|done|intros i|constructor].
  split; [set_solver|]. intros [e He]. unfold entry in He. destruct (replicate 8 None !! i) as [o|] eqn:Ho; [|done]. apply lookup_replicate in Ho as [-> _]. done.
Qed.

Lemma set_lookup s c l k :
  set_refines s c l →
  ∃ o, CacheSet.lookup_key (E:=E) s k = Ok (Z.of_nat <$> o) ∧
    match o with
    | Some i => (i < 8)%nat ∧ ∃ v, entry (slots s) i = Some (k, v) ∧ lru_lookup l k = Some v
    | None => lru_lookup l k = None
    end.
Proof.
  intros (ord & ages & Hr & <-). destruct (lookup_key_Ok (E:=E) s c ord ages k Hr) as (o & Hl & Ho). exists o. split; [done|]. destruct o as [i|]; [|done].
  destruct Ho as (Hi & v & He & Hv). split; [|eauto]. pose proof (CacheMatrix.mo_lt _ _ _ (sr_matrix _ _ _ _ Hr) i Hi). pose proof (CacheMatrix.mo_c _ _ _ (sr_matrix _ _ _ _ Hr)). lia.
Qed.

Lemma set_get s c l i k v :
  set_refines s c l → (i < 8)%nat → entry (slots s) i = Some (k, v) → lru_lookup l k = Some v →
  (∃ s', CacheSet.get_slot (E:=E) s (Z.of_nat i) = Ok (s', Some (k, v)) ∧ set_refines s' c (lru_get l k id)) ∧
  ∀ upd, ∃ s', CacheSet.get_slot_mut (E:=E) s (Z.of_nat i) upd = Ok (s', Some (k, v)) ∧ set_refines s' c (lru_get l k upd).
Proof.
  intros (ord & ages & Hr & <-) Hi He Hv. unfold lru_get. rewrite Hv. split.
  - destruct (get_slot_Ok (E:=E) s c ord ages i Hr Hi) as (s' & ages' & Hg & Hr' & _ & _ & Hc'). rewrite He in Hg, Hc'. exists s'. split; [done|]. by exists ord, ages'.
  - intros upd. destruct (get_slot_mut_Ok (E:=E) s c ord ages i upd Hr Hi) as (s' & ages' & Hg & Hr' & _ & Hc'). rewrite He in Hg, Hc'. exists s'. split; [done|]. by exists ord, ages'.
Qed.

Lemma set_insert s c l k v :
  set_refines s c l → (0 < c)%nat →
  ∃ s' i, CacheSet.insert (E:=E) s k v = Ok (s', (Z.of_nat i, (lru_insert c l k v).2)) ∧ set_refines s' c (lru_insert c l k v).1 ∧
    entry (slots s') i = Some (k, v) ∧ (i < 8)%nat.
Proof.
  intros (ord & ages & Hr & <-) Hc. destruct (insert_Ok (E:=E) s c ord ages k v Hr Hc) as (s' & i & ord' & ages' & Hi & Hr' & Hc' & He & Hi8 & _).
  exists s', i. split_and!; [done| |done|done]. by exists ord', ages'.
Qed.

Lemma set_remove s c l k :
  set_refines s c l → ∃ s', CacheSet.remove_by_key (E:=E) s k = Ok (s', (λ v, (k, v)) <$> lru_lookup l k) ∧ set_refines s' c (lru_remove l k).
Proof.
  intros (ord & ages & Hr & <-). destruct (remove_by_key_Ok (E:=E) s c ord ages k Hr) as (s' & ord' & ages' & Hrm & Hr' & Hc' & _). exists s'. split; [done|]. by exists ord', ages'.
Qed.

Lemma set_prune_all s c l : set_refines s c l → ∃ s', CacheSet.prune_all (E:=E) s = Ok s' ∧ set_refines s' c [].
Proof. intros (ord & ages & Hr & _). destruct (prune_all_Ok (E:=E) s c ord ages Hr) as (s' & Hp & Hr' & _). exists s'. split; [done|]. by exists [], []. Qed.

Lemma set_set_capacity s c l n :
  set_refines s c l → (n ≤ 8)%nat → ∃ s', CacheSet.set_capacity (E:=E) s (Z.of_nat n) = Ok s' ∧ set_refines s' n (take n l).
Proof.
  intros (ord & ages & Hr & <-) Hn. destruct (CacheShrink.set_capacity_Ok (E:=E) s c ord ages n Hr Hn) as (s' & ord' & ages' & Hp & Hr' & Hc' & _). exists s'. split; [done|]. by exists ord', ages'.
Qed.

Lemma prune_spec_pure (cond : K → T → bool) l e :
  NoDup l.*1 → e ∈ l → e.1 ∈ (prune_spec (λ (st : unit) k v, (cond k v, st)) tt l).1 ↔ cond e.1 e.2 = true.
Proof.
  assert (∀ l, (prune_spec (λ (st : unit) k v, (cond k v, st)) tt l).1 = (filter (λ e, cond e.1 e.2 = true) l).*1) as Heq.
  { clear. induction l as [|e l IH]; [done|]. cbn [prune_spec]. rewrite filter_cons. destruct (prune_spec _ tt l) as [ks st]. cbn [fst] in *. subst ks.
    destruct (cond e.1 e.2); [by rewrite decide_True|by rewrite decide_False]. }
  intros Hnd He. rewrite Heq, list_elem_of_fmap. split; [|intros Hc; exists e; split; [done|]; by apply list_elem_of_filter].
  intros (e' & Hk & [Hc He']%list_elem_of_filter). assert (e = e') as ->; [|done]. apply list_elem_of_lookup in He as [i Hi], He' as [j Hj].
  assert (i = j) as ->; [|by simplify_eq]. eapply NoDup_lookup; [exact Hnd| |]; rewrite list_lookup_fmap; [rewrite Hi|rewrite Hj]; [done|]. cbn. by rewrite Hk.
Qed.

Lemma set_prune s c l (cond : K → T → bool) :
  set_refines s c l → ∃ s', CacheSet.prune_cond (E:=E) (λ (st : unit) k v, (cond k v, st)) s tt = Ok (s', tt) ∧ set_refines s' c (filter (λ e, cond e.1 e.2 = false) l).
Proof.
  intros (ord & ages & Hr & <-). pose proof (prune_cond_Ok (E:=E) (λ (st : unit) k v, (cond k v, st)) s c ord ages tt Hr) as H.
  pose proof (prune_spec_pure cond (omap (entry (slots s)) ord)) as Hp. destruct (prune_spec _ tt _) as [ks []]. cbn [fst] in Hp. destruct H as (s' & ord' & ages' & Hpr & Hr' & Hc' & _).
  exists s'. split; [done|]. exists ord', ages'. split; [done|]. rewrite Hc'. assert (NoDup (omap (entry (slots s)) ord).*1) as Hnd.
  { pose proof (sr_sorted _ _ _ _ Hr) as Hs. destruct (rep_wf _ _ _ _ Hr) as (_ & Hno & _ & _). clear -Hs Hno HO. induction Hs as [|i ord Hs IH Hf]; [constructor|]. cbn.
    apply NoDup_cons in Hno as [_ Hno]. destruct (entry (slots s) i) as [a|] eqn:Ha; [|by apply IH]. cbn. constructor; [|by apply IH].
    intros (e & Hk & (j & Hj & He)%contents_elem)%list_elem_of_fmap. rewrite Forall_forall in Hf. destruct (Hf j Hj) as (a' & b & Ha' & Hb & Hlt). simplify_eq. by rewrite Hk, cmp_refl in Hlt. }
  assert (∀ e, e ∈ contents s ages → e.1 ∉ ks ↔ cond e.1 e.2 = false) as Hiff.
  { intros e He. rewrite Hp; [by rewrite not_true_iff_false|done|]. apply contents_elem in He as (i & Hi & He). apply contents_elem. exists i. split; [|done]. by rewrite (sr_perm _ _ _ _ Hr). }
  revert Hiff. generalize (contents s ages) as l. clear. induction l as [|e l IH]; intros Hiff; [done|]. rewrite !filter_cons, IH by (intros; apply Hiff; by right).
  specialize (Hiff e ltac:(left)). destruct (decide (e.1 ∉ ks)), (decide (cond e.1 e.2 = false)); tauto || done.
Qed.

End Sets.

(** ** The refinement *)

Lemma with_set_refines self a i c l s' l' :
  cache_refines self a → a !! i = Some (c, l) → set_refines s' c l' → (∀ e, e ∈ l' → map_key (map_key_to_set self) e.1 = Some i) →
  cache_refines (with_set self i s') (<[i := (c, l')]> a).
Proof.
  intros Hr Hi Hs Hk. split; cbn [sets with_set map_key_to_set].
  - apply Forall2_insert; [apply Hr|done].
  - intros j p e Hj He. destruct (decide (j = i)) as [->|].
    + rewrite list_lookup_insert_eq in Hj by (by eapply lookup_lt_Some). simplify_eq/=. by apply Hk.
    + rewrite list_lookup_insert_ne in Hj by done. by eapply (cr_map _ _ Hr).
  - intros k j Hj. destruct (cr_range _ _ Hr k j Hj) as (c1 & l1 & Hl1 & Hc1). destruct (decide (j = i)) as [->|].
    + rewrite list_lookup_insert_eq by (by eapply lookup_lt_Some). simplify_eq. eauto.
    + rewrite list_lookup_insert_ne by done. eauto.
Qed.

Lemma cache_set self a i c l : cache_refines self a → a !! i = Some (c, l) → ∃ s, sets self !! i = Some s ∧ set_refines s c l.
Proof. intros Hr Hi. destruct (Forall2_lookup_r _ _ _ _ _ (cr_sets _ _ Hr) Hi) as (s & Hs & Hrs). eauto. Qed.

Lemma lru_get_keys (l : list (K * T)) k upd e : e ∈ lru_get l k upd → e.1 = k ∨ e ∈ l.
Proof.
  unfold lru_get. destruct (lru_lookup l k); [|by right]. intros [->|He]%elem_of_cons; [by left|]. right. by apply list_elem_of_filter in He as [_ ?].
Qed.
Lemma lru_insert_keys c (l : list (K * T)) k v e : e ∈ (lru_insert c l k v).1 → e.1 = k ∨ e ∈ l.
Proof.
  unfold lru_insert. destruct (lru_lookup l k); [|destruct (length l <? c)%nat]; cbn.
  - intros (e' & -> & He')%list_elem_of_fmap. destruct (decide (e'.1 = k)); [by left|by right].
  - intros [->|?]%elem_of_cons; [by left|by right].
  - intros [->|He]%elem_of_cons; [by left|]. right. by eapply elem_of_take in He as (? & ? & _); eapply list_elem_of_lookup_2.
Qed.

Lemma prune_all_sets_Ok {E} (l : list (SetAssocCacheSet K T)) (a : lru_cache) :
  Forall2 (λ s p, set_refines s p.1 p.2) l a →
  ∃ l', prune_all_sets (E:=E) l = Ok l' ∧ Forall2 (λ s p, set_refines s p.1 p.2) l' ((λ p, (p.1, [])) <$> a).
Proof.
  induction 1 as [|s p l a Hs Hl IH]; [by exists []|]. destruct (set_prune_all (E:=E) _ _ _ Hs) as (s' & Hp & Hs'). destruct IH as (l' & Hl' & Hf).
  exists (s' :: l'). cbn [prune_all_sets]. rewrite Hp. cbn [obind]. rewrite Hl'. split; [done|]. by constructor.
Qed.
Lemma prune_cond_sets_Ok {E} (cond : K → T → bool) (l : list (SetAssocCacheSet K T)) (a : lru_cache) :
  Forall2 (λ s p, set_refines s p.1 p.2) l a →
  ∃ l', prune_cond_sets (E:=E) (λ (st : unit) k v, (cond k v, st)) l tt = Ok (l', tt) ∧
    Forall2 (λ s p, set_refines s p.1 p.2) l' ((λ p, (p.1, filter (λ e, cond e.1 e.2 = false) p.2)) <$> a).
Proof.
  induction 1 as [|s p l a Hs Hl IH]; [by exists []|]. destruct (set_prune (E:=E) _ _ _ cond Hs) as (s' & Hp & Hs'). destruct IH as (l' & Hl' & Hf).
  exists (s' :: l'). cbn [prune_cond_sets]. rewrite Hp. cbn [obind]. rewrite Hl'. split; [done|]. by constructor.
Qed.
Lemma mapped_refines self (a : lru_cache) l' (f : nat → list (K * T) → list (K * T)) :
  cache_refines self a → Forall2 (λ s p, set_refines s p.1 p.2) l' ((λ p, (p.1, f p.1 p.2)) <$> a) → (∀ c l e, e ∈ f c l → e ∈ l) →
  cache_refines {| sets := l'; map_key_to_set := map_key_to_set self |} ((λ p, (p.1, f p.1 p.2)) <$> a).
Proof.
  intros Hr Hl Hf. split; cbn [sets map_key_to_set]; [done| |].
  - intros i p e Hi He. rewrite list_lookup_fmap in Hi. destruct (a !! i) as [q|] eqn:Hq; [|done]. cbn in Hi. simplify_eq. apply (cr_map _ _ Hr i q); [done|]. by eapply Hf.
  - intros k i Hk. destruct (cr_range _ _ Hr k i Hk) as (c & l & Hi & Hc). rewrite list_lookup_fmap, Hi. cbn. eauto.
Qed.

Lemma run_op_refines {E} self a op :
  cache_refines self a →
  ∃ self', run_op (E:=E) self op = Ok (self', (spec_op (map_key_to_set self) a op).2) ∧ cache_refines self' (spec_op (map_key_to_set self) a op).1 ∧
    map_key_to_set self' = map_key_to_set self.
Proof.
  intros Hr. pose proof (cr_map _ _ Hr) as Hmap.
  assert (∀ i, ∀ p, a !! i = Some p → ∀ e, e ∈ p.2 → map_key (map_key_to_set self) e.1 = Some i) as Hkeys by (intros; by eapply Hmap).
  destruct op as [k|k upd|k v|k| |cond]; cbn [run_op spec_op].
  - unfold get, lookup. destruct (map_key _ k) as [i|] eqn:Hk; [|by exists self]. destruct (cr_range _ _ Hr k i Hk) as (c & l & Ha & _). destruct (cache_set _ _ _ _ _ Hr Ha) as (s & Hs & Hrs).
    rewrite Ha, (idx_Ok _ _ _ Hs). cbn [obind]. destruct (set_lookup (E:=E) s c l k Hrs) as (o & -> & Ho). cbn [obind]. destruct o as [j|]; cbn [fmap option_fmap option_map].
    + destruct Ho as (Hj & v & He & Hv). unfold get_entry. cbn [set_index slot]. rewrite (idx_Ok _ _ _ Hs). cbn [obind].
      destruct (proj1 (set_get (E:=E) s c l j k v Hrs Hj He Hv)) as (s' & -> & Hrs'). cbn [obind]. rewrite Hv. eexists. split_and!; [done| |done].
      apply with_set_refines with l; [done|done|done|]. intros e [->|He']%lru_get_keys; [done|]. by apply (Hkeys i (c, l)).
    + exists self. cbn [obind]. rewrite Ho. split_and!; [done| |done]. cbn. unfold lru_get. rewrite Ho. by rewrite list_insert_id.
  - unfold lookup. destruct (map_key _ k) as [i|] eqn:Hk; [|by exists self]. destruct (cr_range _ _ Hr k i Hk) as (c & l & Ha & _). destruct (cache_set _ _ _ _ _ Hr Ha) as (s & Hs & Hrs).
    rewrite Ha, (idx_Ok _ _ _ Hs). cbn [obind]. destruct (set_lookup (E:=E) s c l k Hrs) as (o & -> & Ho). cbn [obind]. destruct o as [j|]; cbn [fmap option_fmap option_map].
    + destruct Ho as (Hj & v & He & Hv). unfold get_entry_mut. cbn [set_index slot]. rewrite (idx_Ok _ _ _ Hs). cbn [obind].
      destruct (proj2 (set_get (E:=E) s c l j k v Hrs Hj He Hv) upd) as (s' & -> & Hrs'). cbn [obind]. rewrite Hv. eexists. split_and!; [done| |done].
      apply with_set_refines with l; [done|done|done|]. intros e [->|He']%lru_get_keys; [done|]. by apply (Hkeys i (c, l)).
    + exists self. rewrite Ho. split_and!; [done| |done]. cbn. unfold lru_get. rewrite Ho. by rewrite list_insert_id.
  - unfold insert. destruct (map_key _ k) as [i|] eqn:Hk; [|by exists self]. destruct (cr_range _ _ Hr k i Hk) as (c & l & Ha & Hc). destruct (cache_set _ _ _ _ _ Hr Ha) as (s & Hs & Hrs).
    rewrite Ha, (idx_Ok _ _ _ Hs). cbn [obind]. destruct (set_insert (E:=E) s c l k v Hrs Hc) as (s' & j & -> & Hrs' & _). cbn [obind]. destruct (lru_insert c l k v) as [l' e'] eqn:Hins.
    eexists. split_and!; [done| |done]. apply with_set_refines with l; [done|done|done|]. intros e He. replace l' with (lru_insert c l k v).1 in He by by rewrite Hins.
    apply lru_insert_keys in He as [->|He]; [done|]. by apply (Hkeys i (c, l)).
  - unfold remove. destruct (map_key _ k) as [i|] eqn:Hk; [|by exists self]. destruct (cr_range _ _ Hr k i Hk) as (c & l & Ha & _). destruct (cache_set _ _ _ _ _ Hr Ha) as (s & Hs & Hrs).
    rewrite Ha, (idx_Ok _ _ _ Hs). cbn [obind]. destruct (set_remove (E:=E) s c l k Hrs) as (s' & -> & Hrs'). cbn [obind].
    eexists. split_and!; [done| |done]. apply with_set_refines with l; [done|done|done|]. intros e [_ He]%list_elem_of_filter. by apply (Hkeys i (c, l)).
  - unfold prune_all. destruct (prune_all_sets_Ok (E:=E) _ _ (cr_sets _ _ Hr)) as (l' & -> & Hl'). cbn [obind]. eexists. split_and!; [done| |done].
    apply (mapped_refines self a l' (λ _ _, [])); [done|done|set_solver].
  - unfold prune_cond. destruct (prune_cond_sets_Ok (E:=E) cond _ _ (cr_sets _ _ Hr)) as (l' & -> & Hl'). cbn [obind]. eexists. split_and!; [done| |done].
    apply (mapped_refines self a l' (λ _ l, filter (λ e, cond e.1 e.2 = false) l)); [done|done|]. intros c l e [_ He]%list_elem_of_filter. done.
Qed.

Lemma run_refines {E} ops : ∀ self a,
  cache_refines self a →
  ∃ self', run (E:=E) self ops = Ok (self', (spec_run (map_key_to_set self) a ops).2) ∧ cache_refines self' (spec_run (map_key_to_set self) a ops).1 ∧
    map_key_to_set self' = map_key_to_set self.
Proof.
  induction ops as [|op ops IH]; intros self a Hr; [by exists self|]. cbn [run spec_run]. destruct (run_op_refines (E:=E) self a op Hr) as (self1 & -> & Hr1 & Hm1). cbn [obind].
  destruct (spec_op _ a op) as [a1 r1]. destruct (IH self1 a1 Hr1) as (self2 & -> & Hr2 & Hm2). rewrite Hm1 in *. destruct (spec_run _ a1 ops) as [a2 rs]. exists self2. by rewrite Hm2.
Qed.

(** ** Single operations, for clients of the cache *)

Lemma lru_lookup_elem (l : list (K * T)) k v : lru_lookup l k = Some v → (k, v) ∈ l.
Proof.
  induction l as [|[k' v'] l IH]; cbn [lru_lookup]; [done|]. destruct (decide (k' = k)) as [->|]; [intros [= ->]; left|]. intros H. right. by apply IH.
Qed.
Lemma lru_get_elem (l : list (K * T)) k e : e ∈ lru_get l k id → e ∈ l.
Proof.
  unfold lru_get. destruct (lru_lookup l k) as [v|] eqn:Hv; [|done]. intros [->|He]%elem_of_cons; [by apply lru_lookup_elem|]. by apply list_elem_of_filter in He as [_ ?].
Qed.
Lemma lru_insert_elem c (l : list (K * T)) k v e : e ∈ (lru_insert c l k v).1 → e = (k, v) ∨ e ∈ l.
Proof.
  unfold lru_insert. destruct (lru_lookup l k); [|destruct (length l <? c)%nat]; cbn.
  - intros (e' & -> & He')%list_elem_of_fmap. destruct (decide (e'.1 = k)); [by left|by right].
  - intros [->|?]%elem_of_cons; [by left|by right].
  - intros [->|He]%elem_of_cons; [by left|]. right. by eapply elem_of_take in He as (? & ? & _); eapply list_elem_of_lookup_2.
Qed.
Lemma lru_insert_lookup c (l : list (K * T)) k v : lru_lookup (lru_insert c l k v).1 k = Some v.
Proof.
  unfold lru_insert. destruct (lru_lookup l k) as [v0|] eqn:Hv; [|destruct (length l <? c)%nat; cbn; by rewrite decide_True].
  cbn [fst]. induction l as [|[k' v'] l IH]; [done|]. cbn [lru_lookup] in Hv. cbn [lru_replace fmap list_fmap fst].
  destruct (decide (k' = k)) as [->|]; cbn [lru_lookup]; [by rewrite decide_True|]. rewrite decide_False by done. by apply IH.
Qed.

(** The entry that a lookup finds can be accessed. *)
Lemma lookup_get_Ok {E} self a k i c l :
  cache_refines self a → map_key (map_key_to_set self) k = Some i → a !! i = Some (c, l) →
  ∃ r, lookup (E:=E) self k = Ok r ∧
    match r with
    | Some index => ∃ v self', lru_lookup l k = Some v ∧ get_entry (E:=E) self index = Ok (self', Some (k, v)) ∧ cache_refines self' (<[i := (c, lru_get l k id)]> a) ∧ map_key_to_set self' = map_key_to_set self
    | None => lru_lookup l k = None
    end.
Proof.
  intros Hr Hk Ha. unfold lookup. rewrite Hk. destruct (cache_set _ _ _ _ _ Hr Ha) as (s & Hs & Hrs). rewrite (idx_Ok _ _ _ Hs). cbn [obind].
  destruct (set_lookup (E:=E) s c l k Hrs) as (o & -> & Ho). cbn [obind]. destruct o as [j|]; cbn [fmap option_fmap option_map]; eexists; (split; [done|]); [|done]. cbn beta iota.
  destruct Ho as (Hj & v & He & Hv). unfold get_entry. cbn [set_index slot]. rewrite (idx_Ok _ _ _ Hs). cbn [obind].
  destruct (proj1 (set_get (E:=E) s c l j k v Hrs Hj He Hv)) as (s' & -> & Hrs'). cbn [obind]. do 2 eexists. split_and!; [done|done| |done].
  apply with_set_refines with l; [done|done|done|]. intros e [->|He']%lru_get_keys; [done|]. by apply (cr_map _ _ Hr i (c, l)).
Qed.

(** So can the entry that an insertion has made. *)
Lemma insert_get_Ok {E} self a k v i c l :
  cache_refines self a → map_key (map_key_to_set self) k = Some i → a !! i = Some (c, l) → (0 < c)%nat →
  let l' := (lru_insert c l k v).1 in
  ∃ self1 index self2, insert (E:=E) self k v = Ok (self1, Inserted index (lru_insert c l k v).2) ∧ cache_refines self1 (<[i := (c, l')]> a) ∧
    get_entry (E:=E) self1 index = Ok (self2, Some (k, v)) ∧ cache_refines self2 (<[i := (c, lru_get l' k id)]> a) ∧
    map_key_to_set self1 = map_key_to_set self ∧ map_key_to_set self2 = map_key_to_set self.
Proof.
  intros Hr Hk Ha Hc l'. unfold insert. rewrite Hk. destruct (cache_set _ _ _ _ _ Hr Ha) as (s & Hs & Hrs). rewrite (idx_Ok _ _ _ Hs). cbn [obind].
  destruct (set_insert (E:=E) s c l k v Hrs Hc) as (s' & j & -> & Hrs' & He & Hj). cbn [obind]. fold l' in Hrs'.
  assert (∀ e, e ∈ l' → map_key (map_key_to_set self) e.1 = Some i) as Hkeys by (intros e [->|He']%lru_insert_keys; [done|by apply (cr_map _ _ Hr i (c, l))]).
  pose proof (with_set_refines self a i c l s' l' Hr Ha Hrs' Hkeys) as Hr1.
  destruct (proj1 (set_get (E:=E) s' c l' j k v Hrs' Hj He (lru_insert_lookup c l k v))) as (s2 & Hg & Hrs2).
  exists (with_set self i s'), {| set_index := i; slot := Z.of_nat j |}, (with_set (with_set self i s') i s2). split_and!; [done|done| | |done|done].
  - unfold get_entry. cbn [set_index slot sets with_set]. rewrite (idx_Ok _ i s'); [|by apply list_lookup_insert_eq; eapply lookup_lt_Some]. cbn [obind]. rewrite Hg. done.
  - pose proof (with_set_refines (with_set self i s') _ i c l' s2 (lru_get l' k id) Hr1) as Hr2. rewrite list_insert_insert_eq in Hr2. apply Hr2; [apply list_lookup_insert_eq; by eapply lookup_lt_Some|done|].
    intros e [->|He']%lru_get_keys; [done|by apply Hkeys].
Qed.

(** ** Instantiation *)

Lemma set_capacities_Ok {E} (cs : list nat) : ∀ (l : list (SetAssocCacheSet K T)) (a : lru_cache),
  Forall2 (λ s p, set_refines s p.1 p.2) l a → Forall (λ c, c ≤ 8)%nat cs →
  ∃ l', set_capacities (E:=E) (l ++ replicate (length cs) CacheSet.cache_set_default) (length l) (Z.of_nat <$> cs) = Ok l' ∧
    Forall2 (λ s p, set_refines s p.1 p.2) l' (a ++ ((λ c, (c, [])) <$> cs)).
Proof.
  induction cs as [|c cs IH]; intros l a Hl Hcs; cbn [fmap list_fmap set_capacities length replicate]; [rewrite !app_nil_r; eauto|]. apply Forall_cons in Hcs as [Hc Hcs].
  rewrite idx_middle. cbn [obind]. destruct (set_set_capacity (E:=E) _ _ _ c default_refines Hc) as (s' & -> & Hs'). cbn [obind]. rewrite set_idx_middle. cbn [obind].
  rewrite take_nil in Hs'. destruct (IH (l ++ [s']) (a ++ [(c, [])])) as (l' & Hl' & Hf); [apply Forall2_app; [done|by constructor]|done|].
  rewrite <-!app_assoc, length_app, Nat.add_comm in Hl'. cbn [app length Nat.add] in Hl'. exists l'. split; [done|]. by rewrite <-app_assoc in Hf.
Qed.

Lemma new_refines (m : M) (cs : list nat) :
  alloc_ok 0 (length cs) = true → Forall (λ c, c ≤ 8)%nat cs → (∀ k i, map_key m k = Some i → ∃ c, cs !! i = Some c ∧ (0 < c)%nat) →
  ∃ self, new m (Z.of_nat <$> cs) = Ok self ∧ cache_refines self ((λ c, (c, [])) <$> cs) ∧ map_key_to_set self = m.
Proof.
  intros Ha Hcs Hm. unfold new. rewrite length_fmap, Ha. destruct (set_capacities_Ok (E:=SetAssocCacheConfigureError) cs [] [] ltac:(constructor) Hcs) as (l' & Hl' & Hf).
  cbn [app length] in *. rewrite Hl'. cbn [obind]. eexists. split; [done|]. split; [|done]. split; cbn [sets map_key_to_set]; [done| |].
  - intros i p e Hi He. rewrite list_lookup_fmap in Hi. destruct (cs !! i); cbn in Hi; simplify_eq. set_solver.
  - intros k i Hk. destruct (Hm k i Hk) as (c & Hc & Hpos). rewrite list_lookup_fmap, Hc. cbn. eauto.
Qed.

End Spec.

(** C15: A cache with sets of at most eight slots each, under a map that gives sets
    that exist and have a slot, refines the specification: [new] succeeds, and any
    sequence of lookups with access to the entry found, updates of it, insertions,
    removals and prunings runs without a panic and returns what the specification
    returns, where every set is a list of entries in the order of their last use and an
    insertion evicts the last one if the set is full. *)
Theorem cache_refines_lru `{B : Build} `{A : Allocator} {K T M : Type} `{HO : Ord K} `{HM : SetAssocCacheMapKeyToSet K M} (m : M) (cs : list nat) (ops : list cache_op) :
  alloc_ok 0 (length cs) = true → Forall (λ c, c ≤ 8)%nat cs → (∀ k i, map_key m k = Some i → ∃ c, cs !! i = Some c ∧ (0 < c)%nat) →
  ∃ self self', new (K:=K) (T:=T) m (Z.of_nat <$> cs) = Ok self ∧
    run (E:=Empty_set) self ops = Ok (self', (spec_run m ((λ c, (c, [])) <$> cs) ops).2) ∧
    cache_refines self' (spec_run m ((λ c, (c, [])) <$> cs) ops).1.
Proof.
  intros Ha Hcs Hm. destruct (new_refines (T:=T) m cs Ha Hcs Hm) as (self & Hnew & Hr & Hmap). destruct (run_refines (E:=Empty_set) ops self _ Hr) as (self' & Hrun & Hr' & _).
  rewrite Hmap in *. eauto.
Qed.

(** The map of the unit tests to a number of sets. *)
Section Example_.
#[local] Existing Instance debug_build.
#[local] Instance mod_map : SetAssocCacheMapKeyToSet Z nat := λ n k, Some (Z.to_nat (k mod Z.of_nat n)).
#[local] Instance always : Allocator := λ _ _, true.
Definition example_ops : list (cache_op (K:=Z) (T:=Z)) :=
  [OpInsert 0 10; OpInsert 3 13; OpGet 0; OpInsert 6 16; OpInsert 9 19; OpUpdate 6 Z.succ; OpGet 3; OpRemove 0; OpInsert 1 11; OpPrune (λ k _, k =? 9); OpGet 6; OpGet 9].
Lemma cache_refines_lru_witness :
  (∀ (k : Z) i, map_key 3%nat k = Some i → ∃ c, [2; 2; 2]%nat !! i = Some c ∧ (0 < c)%nat) ∧
  ∃ self self', new (K:=Z) (T:=Z) 3%nat (Z.of_nat <$> [2; 2; 2]%nat) = Ok self ∧
    run (E:=Empty_set) self example_ops = Ok (self', [RInserted None; RInserted None; RValue (Some 10); RInserted (Some (3, 13)); RInserted (Some (0, 10));
      RValue (Some 16); RValue None; RRemoved None; RInserted None; RDone; RValue (Some 17); RValue None]) ∧
    cache_refines self' (spec_run 3%nat ((λ c, (c, [])) <$> [2; 2; 2]%nat) example_ops).1.
Proof.
  assert (∀ (k : Z) i, map_key 3%nat k = Some i → ∃ c, [2; 2; 2]%nat !! i = Some c ∧ (0 < c)%nat) as Hm.
  { intros k i. unfold map_key, mod_map. intros [= <-]. pose proof (Z.mod_pos_bound k 3 ltac:(lia)) as Hk. change (Z.of_nat 3) with 3. exists 2%nat. split; [|lia].
    assert (k mod 3 = 0 ∨ k mod 3 = 1 ∨ k mod 3 = 2) as [-> | [-> | ->]] by lia; reflexivity. }
  split; [exact Hm|]. exact (cache_refines_lru 3%nat [2; 2; 2]%nat example_ops eq_refl ltac:(repeat constructor) Hm).
Defined.
End Example_.


End SetAssocCache.
