(* ===== verification/CacheAtomic.v ===== *)
(** * Concurrent accesses to a cache set (set_assoc_cache.rs)

    Readers of a cache set mark slots as used through a shared reference, each by two
    atomic operations on the LRU reference matrix ([lru_reference_slot_sync]), which
    interleave. *)

From stdpp Require Import relations.
From S2P Require Import Prelude BitManip CacheWords CacheMatrix CacheSet CacheSetSpec.
Import BitManip CacheWords CacheMatrix CacheSet CacheSetSpec.

Module CacheAtomic.

Section Atomic.
Context {B : Build}.
Variables (c : nat) (ages : list nat).
Implicit Types (m f : Z) (i j s : nat).

(** The matrix, and the readers between their two operations: the slot of each, and
    the value that it fetched. *)
Record readers := { matrix : Z; pending : list (nat * Z) }.

Inductive access_step : readers → readers → Prop :=
| step_fetch_or m P s m' :
    s ∈ ages → lru_reference_slot_sync_or (E:=Empty_set) m (Z.of_nat c) (Z.of_nat s) = Ok m' →
    access_step {| matrix := m; pending := P |} {| matrix := m'; pending := (s, m) :: P |}
| step_fetch_and m P P' s f m' :
    lru_reference_slot_sync_and (E:=Empty_set) f m (Z.of_nat s) = Ok m' →
    access_step {| matrix := m; pending := P ++ (s, f) :: P' |} {| matrix := m'; pending := P ++ P' |}.

Lemma fetch_or_Ok {E} m s : in_u 64 m → (c ≤ 8)%nat → (s < 8)%nat →
  ∃ m', lru_reference_slot_sync_or (E:=E) m (Z.of_nat c) (Z.of_nat s) = Ok m' ∧ in_u 64 m' ∧
    ∀ i j, (i < 8)%nat → (j < 8)%nat → nbit m' i j = nbit m i j || bool_decide (i = s ∧ j < c)%nat.
Proof.
  intros Hm Hc Hs. unfold lru_reference_slot_sync_or. rewrite shl_one by lia. cbn [obind]. pose proof (pow2_pos (Z.of_nat c) ltac:(lia)). rewrite usub_Ok by lia. ostep.
  eexists. split; [done|]. split; [apply lor_in_u; [lia|done|by apply wrap_in_u]|]. intros i j Hi Hj. unfold nbit at 1.
  rewrite bit_lor, bit_row, ones_testbit, eqb_of_nat, ltb_of_nat by (lia || apply ones_in_u; lia). fold (nbit m i j). f_equal. apply eq_true_iff_eq.
  rewrite andb_true_iff, bool_decide_eq_true, Nat.eqb_eq, Nat.ltb_lt. done.
Qed.
Lemma fetch_and_Ok {E} f m s : in_u 64 f → in_u 64 m → (s < 8)%nat →
  ∃ m', lru_reference_slot_sync_and (E:=E) f m (Z.of_nat s) = Ok m' ∧ in_u 64 m' ∧
    ∀ i j, (i < 8)%nat → (j < 8)%nat → nbit m' i j = nbit m i j && (bool_decide (j ≠ s) || nfull f i).
Proof.
  intros Hf Hm Hs. unfold lru_reference_slot_sync_and. destruct (mask_all_set_Ok (E:=E) f Hf) as (z & -> & Hzu & Hz). ostep. eexists. split; [done|].
  split; [apply land_in_u; [lia|done|]; apply Z.lor_nonneg; split; [apply unot_in_u; [lia|by apply wrap_in_u]|apply Hzu]|].
  intros i j Hi Hj. unfold nbit at 1. rewrite bit_land, bit_lor, bit_unot, bit_column, Hz, eqb_of_nat by lia. fold (nbit m i j). fold (nfull f i). f_equal. f_equal.
  destruct (Nat.eqb_spec j s); symmetry; [apply bool_decide_eq_false; tauto|by apply bool_decide_eq_true].
Qed.

(** Slot [i] counts as used after [j]: its bit is set and no reader of [j] will clear it. *)
Definition ahead (st : readers) i j : Prop := nbit (matrix st) i j = true ∧ j ∉ (pending st).*1.

Record readers_ok (st : readers) : Prop := {
  ro_u : in_u 64 (matrix st);
  ro_pending s f : (s, f) ∈ pending st → s ∈ ages ∧ in_u 64 f ∧ (∀ i, (i < c)%nat → i ∉ ages → nfull f i = true) ∧
    ((c < 8)%nat → ∀ i, i ∈ ages → nfull f i = false);
  ro_row i j : (i < 8)%nat → (j < 8)%nat → i ∉ ages → nbit (matrix st) i j = bool_decide (i < c)%nat;
  ro_col i j : i ∈ ages → (c ≤ j < 8)%nat → nbit (matrix st) i j = false;
  ro_own i : i ∈ ages → nbit (matrix st) i i = true → ∃ f, (i, f) ∈ pending st ∧ nfull f i = false;
  ro_order : (c < 8)%nat → ∃ l, l ≡ₚ ages ∧ StronglySorted (λ i j, ¬ ahead st j i) l;
}.

Hypothesis Hc8 : (c ≤ 8)%nat.
Hypothesis Hlt : ∀ i, i ∈ ages → (i < c)%nat.
Hypothesis Hnd : NoDup ages.

Lemma full_col m i : i ∈ ages → (∀ j, (c ≤ j < 8)%nat → nbit m i j = false) → (c < 8)%nat → nfull m i = false.
Proof.
  intros Hi Hcol Hc. apply not_true_is_false. rewrite nfull_spec. intros H. specialize (H 7%nat ltac:(lia)). by rewrite Hcol in H by lia.
Qed.

Lemma start_ok m : matrix_ok m c ages → readers_ok {| matrix := m; pending := [] |}.
Proof using Hc8 Hlt Hnd.
  intros Hm. split; cbn [matrix pending]; [apply Hm|set_solver|apply Hm| | |].
  - intros i j Hi Hj. apply Hm; [done|lia|lia].
  - intros i Hi. rewrite (mo_col _ _ _ Hm) by (done || lia || specialize (Hlt i Hi); lia). done.
  - intros _. exists ages. split; [done|]. apply sorted_impl with (newer m); [|apply Hm]. intros i j _ _ (_ & Hb & _) [Ha _]. cbn in Ha. congruence.
Qed.

Lemma or_ok m P s m' :
  readers_ok {| matrix := m; pending := P |} → s ∈ ages → lru_reference_slot_sync_or (E:=Empty_set) m (Z.of_nat c) (Z.of_nat s) = Ok m' →
  readers_ok {| matrix := m'; pending := (s, m) :: P |}.
Proof using Hc8 Hlt Hnd.
  intros Hr Hs Hor. pose proof (Hlt s Hs) as Hsc. destruct (fetch_or_Ok (E:=Empty_set) m s (ro_u _ Hr) Hc8 ltac:(lia)) as (m'' & Hor' & Hu & Hb). rewrite Hor in Hor'. injection Hor' as <-.
  pose proof (ro_row _ Hr) as Hrow. pose proof (ro_col _ Hr) as Hcol. pose proof (ro_own _ Hr) as Hown. cbn [matrix pending] in *. split; cbn [matrix pending].
  - done.
  - intros s' f [[= -> ->]|Hin]%elem_of_cons; [|by apply (ro_pending _ Hr)]. split_and!; [done|apply Hr| |].
    + intros i Hi Hn. apply nfull_spec. intros j Hj. rewrite Hrow by (done || lia). by apply bool_decide_eq_true.
    + intros Hc i Hi. apply full_col; [done|intros; by apply Hcol|done].
  - intros i j Hi Hj Hn. rewrite Hb, Hrow, (bool_decide_eq_false_2 (i = s ∧ _)) by (done || naive_solver). apply orb_false_r.
  - intros i j Hi Hj. pose proof (Hlt i Hi). rewrite Hb, Hcol, bool_decide_eq_false_2 by (done || lia). done.
  - intros i Hi Hbi. destruct (decide (i = s)) as [->|Hne].
    + destruct (nbit m s s) eqn:Hbs; [destruct (Hown s Hs Hbs) as (f & Hf & Hff); exists f; split; [by right|done]|]. exists m. split; [left|].
      apply not_true_is_false. rewrite nfull_spec. intros H. by rewrite H in Hbs by lia.
    + pose proof (Hlt i Hi). rewrite Hb, bool_decide_eq_false_2, orb_false_r in Hbi by (lia || naive_solver). destruct (Hown i Hi Hbi) as (f & Hf & Hff). exists f. split; [by right|done].
  - intros Hc. destruct (ro_order _ Hr Hc) as (l & Hp & Hs'). exists (touch s l). split.
    { rewrite <-Hp. symmetry. apply touch_perm; [rewrite Hp; exact Hnd|by rewrite Hp]. }
    assert (∀ i j, i ∈ ages → j ∈ ages → i ≠ s → j ≠ s → ahead {| matrix := m'; pending := (s, m) :: P |} i j → ahead {| matrix := m; pending := P |} i j) as Hsame.
    { intros i j Hi Hj Hi' Hj' [Ha Hna]. pose proof (Hlt i Hi). pose proof (Hlt j Hj). cbn [matrix pending fmap list_fmap fst] in *. split; cbn [matrix pending].
      - by rewrite Hb, bool_decide_eq_false_2, orb_false_r in Ha by (lia || naive_solver).
      - rewrite not_elem_of_cons in Hna. tauto. }
    unfold touch. constructor.
    + apply sorted_impl with (λ i j, ¬ ahead {| matrix := m; pending := P |} j i); [|by apply sorted_filter].
      intros i j [Hi1 Hi2]%list_elem_of_filter [Hj1 Hj2]%list_elem_of_filter Hn Ha. apply Hn. apply Hsame; [by rewrite <-Hp|by rewrite <-Hp|done|done|done].
    + apply Forall_forall. intros j _ [_ Hn]. apply Hn. cbn. left.
Qed.

Lemma and_ok m P P' s f m' :
  readers_ok {| matrix := m; pending := P ++ (s, f) :: P' |} → lru_reference_slot_sync_and (E:=Empty_set) f m (Z.of_nat s) = Ok m' →
  readers_ok {| matrix := m'; pending := P ++ P' |}.
Proof using Hc8 Hlt Hnd.
  intros Hr Hand. destruct (ro_pending _ Hr s f) as (Hs & Hfu & Hfree & Hocc); [cbn; set_solver|]. pose proof (Hlt s Hs) as Hsc.
  destruct (fetch_and_Ok (E:=Empty_set) f m s Hfu (ro_u _ Hr) ltac:(lia)) as (m'' & Hand' & Hu & Hb). rewrite Hand in Hand'. injection Hand' as <-.
  pose proof (ro_row _ Hr) as Hrow. pose proof (ro_col _ Hr) as Hcol. pose proof (ro_own _ Hr) as Hown. cbn [matrix pending] in *. split; cbn [matrix pending].
  - done.
  - intros s' f' Hin. apply (ro_pending _ Hr). cbn. set_solver.
  - intros i j Hi Hj Hn. rewrite Hb, Hrow by done. case_bool_decide; [|done]. rewrite (Hfree i) by done. by rewrite orb_true_r.
  - intros i j Hi Hj. pose proof (Hlt i Hi). rewrite Hb, Hcol by (done || lia). done.
  - intros i Hi Hbi. pose proof (Hlt i Hi). rewrite Hb, andb_true_iff, orb_true_iff, bool_decide_eq_true in Hbi by lia. destruct Hbi as [Hbi Hkeep].
    destruct (Hown i Hi Hbi) as (f' & Hf' & Hff). exists f'. split; [|done]. apply elem_of_app in Hf' as [?|[[= -> ->]|?]%elem_of_cons]; [set_solver| |set_solver].
    destruct Hkeep as [?|Hkeep]; [done|congruence].
  - intros Hc. destruct (ro_order _ Hr Hc) as (l & Hp & Hs'). exists l. split; [done|]. apply sorted_impl with (λ i j, ¬ ahead {| matrix := m; pending := P ++ (s, f) :: P' |} j i); [|done].
    intros i j Hi Hj Hn [Ha Hna]. rewrite Hp in Hi, Hj. pose proof (Hlt i Hi). pose proof (Hlt j Hj). apply Hn. cbn [matrix pending] in *.
    rewrite Hb, andb_true_iff, orb_true_iff, bool_decide_eq_true in Ha by lia. destruct Ha as [Ha Hkeep]. split; cbn [matrix pending]; [done|].
    destruct Hkeep as [Hne|Hfull]; [|rewrite (Hocc Hc j Hj) in Hfull; done]. rewrite fmap_app in *. cbn. set_solver.
Qed.

Lemma access_step_ok st st' : access_step st st' → readers_ok st → readers_ok st'.
Proof using Hc8 Hlt Hnd. intros Hstep Hr. destruct Hstep; [by eapply or_ok|by eapply and_ok]. Qed.

Lemma steps_ok st st' : rtc access_step st st' → readers_ok st → readers_ok st'.
Proof using Hc8 Hlt Hnd. induction 1 as [|st st1 st' Hs _ IH]; [done|]. intros Hr. by apply IH, (access_step_ok st). Qed.

(** No reader is ever stuck or panics. *)
Lemma readers_progress st : readers_ok st →
  (∀ s, s ∈ ages → ∃ m', lru_reference_slot_sync_or (E:=Empty_set) (matrix st) (Z.of_nat c) (Z.of_nat s) = Ok m') ∧
  (∀ s f, (s, f) ∈ pending st → ∃ m', lru_reference_slot_sync_and (E:=Empty_set) f (matrix st) (Z.of_nat s) = Ok m').
Proof using Hc8 Hlt Hnd.
  intros Hr. split.
  - intros s Hs. pose proof (Hlt s Hs). destruct (fetch_or_Ok (E:=Empty_set) (matrix st) s (ro_u _ Hr) Hc8 ltac:(lia)) as (m' & H' & _). eauto.
  - intros s f Hin. destruct (ro_pending _ Hr s f Hin) as (Hs & Hfu & _). pose proof (Hlt s Hs).
    destruct (fetch_and_Ok (E:=Empty_set) f (matrix st) s Hfu (ro_u _ Hr) ltac:(lia)) as (m' & H' & _). eauto.
Qed.

(** When all readers are done: the rows tell the unoccupied slots from the occupied
    ones, and in a set with less than eight slots one can be evicted. *)
Lemma quiet_full m i : readers_ok {| matrix := m; pending := [] |} → (i < 8)%nat → nfull m i = bool_decide (i < c ∧ i ∉ ages)%nat.
Proof using Hc8 Hlt Hnd.
  intros Hr Hi. pose proof (ro_row _ Hr) as Hrow. pose proof (ro_own _ Hr) as Hown. cbn [matrix pending] in *. apply eq_true_iff_eq. rewrite nfull_spec, bool_decide_eq_true. split.
  - intros H. destruct (decide (i ∈ ages)) as [Hin|Hin]; [destruct (Hown i Hin (H i Hi)) as (? & ? & _); set_solver|]. specialize (H 0%nat ltac:(lia)).
    rewrite Hrow, bool_decide_eq_true in H by (done || lia). done.
  - intros [Hic Hn] j Hj. rewrite Hrow by done. by apply bool_decide_eq_true.
Qed.

Lemma quiet_evict m : readers_ok {| matrix := m; pending := [] |} → (0 < c < 8)%nat → length ages = c →
  ∃ i, i ∈ ages ∧ choose_slot (E:=Empty_set) m = Ok (Z.of_nat i, false).
Proof using Hc8 Hlt Hnd.
  intros Hr Hc Hlen. pose proof (ro_row _ Hr) as Hrow. pose proof (ro_col _ Hr) as Hcol. pose proof (ro_own _ Hr) as Hown. pose proof (ro_u _ Hr) as Hu. cbn [matrix pending] in *.
  assert (∀ i, (i < c)%nat → i ∈ ages) as Hall by (intros i Hi; by eapply all_occupied).
  destruct (ro_order _ Hr ltac:(lia)) as (l & Hp & Hs). destruct (last_cases l) as [->|(l' & i & ->)]; [apply Permutation_length in Hp; cbn in Hp; lia|].
  assert (i ∈ ages) as Hi by (rewrite <-Hp; set_solver). pose proof (Hlt i Hi) as Hic.
  assert (field 8 (Z.of_nat i) m = 0) as Hzero.
  { apply zero_spec; [lia|]. intros j Hj. rewrite <-(Z2Nat.id j) by lia. fold (nbit m i (Z.to_nat j)). set (y := Z.to_nat j). apply not_true_is_false. intros Hb.
    destruct (decide (c ≤ y)%nat); [by rewrite Hcol in Hb by (done || lia)|]. destruct (decide (y = i)) as [Heq|Hne]; [rewrite Heq in Hb; destruct (Hown i Hi Hb) as (? & ? & _); set_solver|].
    assert (y ∈ l') as Hy by (pose proof (Hall y ltac:(lia)) as Hy; rewrite <-Hp in Hy; set_solver). clear -Hs Hy Hb. induction l' as [|x l' IH]; [set_solver|]. cbn in Hs.
    apply StronglySorted_inv in Hs as [Hs Hf]. apply elem_of_cons in Hy as [->|Hy]; [|by apply IH]. rewrite Forall_forall in Hf. apply (Hf i ltac:(set_solver)). split; cbn; [done|set_solver]. }
  unfold choose_slot. assert (subwords8_mask_all_set_lsb m = 0) as ->.
  { apply bit_ext; [by apply all_set_lsb_in_u|done|]. intros x y Hx Hy. rewrite all_set_lsb_bit by done. unfold bit. rewrite Z.bits_0. rewrite <-(Z2Nat.id x) by lia.
    fold (nfull m (Z.to_nat x)). rewrite quiet_full, bool_decide_eq_false_2 by (done || lia || (intros [??]; naive_solver)). apply andb_false_r. }
  cbn [Z.eqb negb]. destruct (find_zero_byte_Ok (E:=Empty_set) m Hu) as (p & -> & Hp8 & Hpn & Hpz). cbn [obind]. exists (Z.to_nat p). rewrite Z2Nat.id by lia. split; [|done].
  apply Hall. assert (¬ Z.of_nat i < p) by (intros H'; by apply (Hpn (Z.of_nat i)); [lia|]). lia.
Qed.

End Atomic.


(** Two slots, the second one used last; readers of both of them interleave. *)
Section Witness.
#[local] Existing Instance debug_build.
Definition two_slots : Z := 0x0100.

Lemma two_slots_ok : matrix_ok two_slots 2 [1; 0]%nat.
Proof.
  destruct (reference_matrix (E:=Empty_set) _ _ _ 0 (pruned_matrix 2 ltac:(lia)) ltac:(lia)) as (m & Hm & Hok). vm_compute in Hm. injection Hm as <-.
  destruct (reference_matrix (E:=Empty_set) _ _ _ 1 Hok ltac:(lia)) as (m & Hm & Hok'). vm_compute in Hm. injection Hm as <-. exact Hok'.
Qed.

End Witness.

End CacheAtomic.
