(* ===== verification/Kdf.v ===== *)
(** * Key derivation by blocks (crypto/src/kdf/mod.rs, utils-common/src/xor.rs)

    A key derivation function that generates its output by blocks of a fixed length
    serves requests of any length: [FixedBlockOutputKdf] is a class here, with the
    provided methods as functions over it, [BufferedFixedBlockOutputKdf] keeps the rest
    of a block for the next request.  Requests are proved to give the bytes of the output
    in order, however they divide it.

    Functions that write through an iterator over mutable slices return the bytes
    written, in the order of the slices; [next_slice_mut] of those iterators takes the
    same part of the slices as [next_slice].  After an error the state is not used. *)

From S2P Require Import Prelude Errors IoSlices BitManip ImageLayout CtCmp Crc32.
Import Errors IoSlices CtCmp.

(** ** Exclusive or of byte slices *)

Module Xor.
Section Ops.
Context {B : Build} {CT : CtBackend} {E : Type}.

Definition xor_slice (dst mask : list Z) : outcome E (list Z) :=
  let! _ := debug_assert (length dst =? length mask)%nat in
  Ok (zip_with Z.lxor dst mask ++ drop (length mask) dst).

Definition xor_bytes (dst mask : list Z) : outcome E (list Z) :=
  let! _ := debug_assert (length dst =? length mask)%nat in
  let '(head0, head1) := align_heads dst mask in
  let '(dst_bytes_head, dst_limbs, dst_bytes_tail) := align_to head0 dst in
  let '(mask_bytes_head, mask_limbs, mask_bytes_tail) := align_to head1 mask in
  if negb (length dst_bytes_head =? length mask_bytes_head)%nat then xor_slice dst mask
  else
    let! _ := debug_assert (length dst_limbs =? length mask_limbs)%nat in
    let! _ := debug_assert (length dst_bytes_tail =? length mask_bytes_tail)%nat in
    let! dst_bytes_head := xor_slice dst_bytes_head mask_bytes_head in
    let! dst_limbs := xor_slice dst_limbs mask_limbs in
    let! dst_bytes_tail := xor_slice dst_bytes_tail mask_bytes_tail in
    Ok (dst_bytes_head ++ mjoin (to_le_bytes limb_bytes <$> dst_limbs) ++ dst_bytes_tail).
End Ops.

Section Correct.
Context {B : Build} {CT : CtBackend} {E : Type}.

Lemma xor_slice_Ok dst mask : length dst = length mask → xor_slice (E:=E) dst mask = Ok (zip_with Z.lxor dst mask).
Proof. intros Hl. unfold xor_slice. rewrite Hl, Nat.eqb_refl. ostep. by rewrite drop_ge, app_nil_r by lia. Qed.

Lemma le_bytes_lxor l : ∀ l', length l = length l' → Forall u8 l → Forall u8 l' → from_le_bytes (zip_with Z.lxor l l') = Z.lxor (from_le_bytes l) (from_le_bytes l').
Proof.
  induction l as [|x l IH]; intros [|y l'] Hl H H'; try done. cbn [zip_with from_le_bytes]. apply Forall_cons in H as [Hx H], H' as [Hy H'].
  pose proof (from_le_bytes_bound l H). pose proof (from_le_bytes_bound l' H').
  rewrite IH by (done || by injection Hl). rewrite !Crc32.byte_cons by (done || lia || by apply lxor_in_u || by apply Z.lxor_nonneg; lia).
  apply Z.bits_inj'. intros i Hi. rewrite !Z.lxor_spec, !Z.shiftl_spec, Z.lxor_spec by lia. by destruct (Z.testbit x i), (Z.testbit y i), (Z.testbit (from_le_bytes l) (i - 8)), (Z.testbit (from_le_bytes l') (i - 8)).
Qed.

Lemma zip_with_drop_take (l l' : list Z) n : zip_with Z.lxor l l' = zip_with Z.lxor (take n l) (take n l') ++ zip_with Z.lxor (drop n l) (drop n l').
Proof. rewrite <-(take_drop n (zip_with Z.lxor l l')), zip_with_take, zip_with_drop. done. Qed.

Lemma zip_u8 l : ∀ l', Forall u8 l → Forall u8 l' → Forall u8 (zip_with Z.lxor l l').
Proof. induction l as [|x l IH]; intros [|y l'] H H'; cbn; try done. apply Forall_cons in H as [Hx H], H' as [Hy H']. constructor; [by apply lxor_in_u|by apply IH]. Qed.

(** The exclusive or by limbs is that of the bytes. *)
Lemma limbs_xor n : ∀ l l', length l = length l' → Forall u8 l → Forall u8 l' →
  mjoin (to_le_bytes limb_bytes <$> zip_with Z.lxor (limbs n l).1 (limbs n l').1) ++ zip_with Z.lxor (limbs n l).2 (limbs n l').2 = zip_with Z.lxor l l'.
Proof.
  induction n as [|n IH]; intros l l' Hl H H'; cbn [limbs]; [done|]. rewrite <-Hl. destruct (Nat.leb_spec limb_bytes (length l)) as [Hle|]; [|done].
  specialize (IH (drop limb_bytes l) (drop limb_bytes l')). rewrite !length_drop in IH. specialize (IH ltac:(lia) (Forall_drop _ _ _ H) (Forall_drop _ _ _ H')).
  destruct (limbs n (drop limb_bytes l)) as [ls t], (limbs n (drop limb_bytes l')) as [ls' t']. cbn [fst snd] in *.
  change (zip_with Z.lxor (?a :: ls) (?b :: ls')) with (Z.lxor a b :: zip_with Z.lxor ls ls'). rewrite fmap_cons.
  change (mjoin (?a :: ?ls)) with (a ++ mjoin ls). rewrite <-app_assoc, IH, (zip_with_drop_take l l' limb_bytes). f_equal.
  rewrite <-le_bytes_lxor by (rewrite ?length_take; (lia || by apply Forall_take)).
  etrans; [|apply to_from_le_bytes, zip_u8; by apply Forall_take]. f_equal. rewrite length_zip_with, !length_take. lia.
Qed.

Lemma xor_bytes_Ok dst mask : length dst = length mask → Forall u8 dst → Forall u8 mask → xor_bytes (E:=E) dst mask = Ok (zip_with Z.lxor dst mask).
Proof.
  intros Hl H H'. unfold xor_bytes. rewrite Hl at 1. rewrite Nat.eqb_refl. ostep. destruct (align_heads dst mask) as [h h']. unfold align_to. rewrite <-Hl.
  pose proof (limbs_xor (length dst) (drop h dst) (drop h' mask)) as Hx. pose proof (limbs_spec (length dst) (drop h dst) (drop h' mask)) as Hs.
  destruct (limbs (length dst) (drop h dst)) as [ls t] eqn:Hls. destruct (limbs (length dst) (drop h' mask)) as [ls' t'] eqn:Hls'. cbn [fst snd] in *.
  case (Nat.eqb_spec (length (take h dst)) (length (take h' mask))); intros Hh; cbn [negb]; [|by apply xor_slice_Ok].
  assert (length (drop h dst) = length (drop h' mask)) as Hd by (rewrite !length_take, !length_drop in *; lia).
  specialize (Hx Hd (Forall_drop _ _ _ H) (Forall_drop _ _ _ H')). destruct (Hs Hd (Forall_drop _ _ _ H) (Forall_drop _ _ _ H')) as (Hll & Ht & _).
  rewrite Hll, Ht, !Nat.eqb_refl. ostep. ostep. rewrite !xor_slice_Ok by done. cbn [obind]. rewrite Hx. f_equal.
  rewrite !length_take in Hh. rewrite (zip_with_drop_take dst mask h). destruct (decide (h = h')) as [->|]; [done|].
  rewrite !(take_ge _ h), !(take_ge _ h'), !(drop_ge _ h), !(drop_ge _ h') by lia. done.
Qed.
End Correct.
End Xor.

(** ** Requests to a block generator *)

Module Kdf.
Import ImageLayout.

(** The trait.  [generate_block] gets the length of its buffer and returns what the
    buffer holds after the call, and how many bytes of it are output. *)
Class FixedBlockOutputKdf (KD : Type) := {
  block_len : KD → nat;
  max_remaining_len : KD → outcome CryptoError (option nat);
  generate_block : KD → nat → outcome CryptoError (KD * list Z * nat);
}.

Section XorFrom.
Context {B : Build} {CT : CtBackend} {D SS E : Type} `{IoSlicesIter D E} `{IoSlicesIter SS E}.

(** [xor_from_iter] of the mutable iterators. *)
Fixpoint xor_from_iter (fuel : nat) (self : D) (src_iter : SS) : outcome E (list Z * D * SS) :=
  match fuel with
  | O => Diverge
  | S fuel =>
      let! '(dst_len, self) := next_slice_len self in
      let! '(src_len, src_iter) := next_slice_len src_iter in
      let cur_slice_len := Nat.min dst_len src_len in
      let! '(dst, self) := next_slice self (Some cur_slice_len) in
      match dst with
      | None => Ok ([], self, src_iter)
      | Some dst =>
          let! '(src, src_iter) := next_slice src_iter (Some cur_slice_len) in
          match src with
          | None => Ok ([], self, src_iter)
          | Some src =>
              let! dst := Xor.xor_bytes dst src in
              let! '(copied, self, src_iter) := xor_from_iter fuel self src_iter in
              Ok (dst ++ copied, self, src_iter)
          end
      end
  end.
End XorFrom.

Section Ops.
Context {B : Build} {P : Platform} {CT : CtBackend} {KD : Type} {HK : FixedBlockOutputKdf KD}.

(** [copy_within(..n, dest)]. *)
Definition copy_within {E} (buf : list Z) (n dest : nat) : outcome E (list Z) :=
  if (n + dest <=? length buf)%nat then Ok (take dest buf ++ take n buf ++ drop (dest + n) buf) else Panic.
(** [Zeroize::zeroize(&mut buf[..n])]. *)
Definition zeroize {E} (buf : list Z) (n : nat) : outcome E (list Z) :=
  if (n <=? length buf)%nat then Ok (replicate n 0 ++ drop n buf) else Panic.
(** [&block_buf[block_buf.len() - len..]]. *)
Definition buf_tail {E} (block_buf : list Z) (len : nat) : outcome E (list Z) :=
  let! begin := nsub (length block_buf) len in slice_from block_buf begin.

Section Chunk.
Context {D : Type} {HD : IoSlicesIter D CryptoError}.
Implicit Types (self : KD) (output : D).

(** [debug_assert!(b || output.is_empty()?)]. *)
Definition debug_assert_empty (b : bool) output : outcome CryptoError D :=
  if debug_assertions then
    if b then Ok output
    else let! '(e, output) := is_empty output in if e then Ok output else Panic
  else Ok output.

(** The first check of the two provided methods. *)
Definition check_request self output (block_buf_remaining_len : nat) : outcome CryptoError unit :=
  let! max_remaining_len := max_remaining_len self in
  match max_remaining_len with
  | Some max_remaining_len =>
      let! len := total_len output in
      let! limit := uadd usize_bits (Z.of_nat max_remaining_len) (Z.of_nat block_buf_remaining_len) in
      if limit <? Z.of_nat len then Err RequestTooBig else Ok tt
  | None => Ok tt
  end.

Fixpoint chunk_loop (fuel : nat) (len : nat) self output (block_buf : list Z) (block_buf_remaining_len : nat)
    : outcome CryptoError (KD * D * list Z * nat * list Z) :=
  match fuel with
  | O => Diverge
  | S fuel =>
      let! '(cur_output_slice, output) := next_slice output (Some len) in
      match cur_output_slice with
      | None => Ok (self, output, block_buf, block_buf_remaining_len, [])
      | Some cur_output_slice =>
          let cur_output_slice_len := length cur_output_slice in
          if (cur_output_slice_len =? len)%nat then
            let! '(self, block, cur_block_len) := generate_block self cur_output_slice_len in
            let! _ := debug_assert (cur_block_len =? len)%nat in
            let! '(self, output, block_buf, rem, written) := chunk_loop fuel len self output block_buf block_buf_remaining_len in
            Ok (self, output, block_buf, rem, block ++ written)
          else
            let! _ := debug_assert (length block_buf =? len)%nat in
            let! '(self, block_buf, cur_block_len) := generate_block self (length block_buf) in
            let! output :=
              if (cur_block_len =? len)%nat then Ok output
              else if (cur_output_slice_len <=? cur_block_len)%nat then debug_assert_empty false output
              else let! _ := debug_assert false in Ok output in
            let! block_buf :=
              if negb (cur_block_len =? len)%nat then let! dest := nsub len cur_block_len in copy_within block_buf cur_block_len dest
              else Ok block_buf in
            let! block_buf_remaining := buf_tail block_buf cur_block_len in
            let! '(written_slice, _, block_buf_remaining) :=
              copy_from_iter (S cur_output_slice_len) (singleton_new cur_output_slice) (singleton_new block_buf_remaining) in
            let! block_buf_remaining_len := nsub cur_block_len (length written_slice) in
            let! '(written_output, output, _) := copy_from_iter (S fuel) output block_buf_remaining in
            let! block_buf_remaining_len := nsub block_buf_remaining_len (length written_output) in
            let! '(self, output, block_buf, rem, written) := chunk_loop fuel len self output block_buf block_buf_remaining_len in
            Ok (self, output, block_buf, rem, written_slice ++ drop (length written_slice) cur_output_slice ++ written_output ++ written)
      end
  end.

(** Returns the state of the generator and of the output, the buffer, the number of
    bytes left in it, and the bytes written. *)
Definition generate_chunk_impl (fuel : nat) self output (block_buf : list Z) (block_buf_remaining_len : nat)
    : outcome CryptoError (KD * D * list Z * nat * list Z) :=
  let! _ := check_request self output block_buf_remaining_len in
  let! src := buf_tail block_buf block_buf_remaining_len in
  let! '(copied, output, _) := copy_from_iter fuel output (singleton_new src) in
  let! block_buf_remaining_len := nsub block_buf_remaining_len (length copied) in
  let! output := debug_assert_empty (block_buf_remaining_len =? 0)%nat output in
  let len := block_len self in
  let! '(self, output, block_buf, block_buf_remaining_len, written) := chunk_loop fuel len self output block_buf block_buf_remaining_len in
  let! block_buf :=
    match block_buf with
    | [] => Ok []
    | _ => let! n := nsub len block_buf_remaining_len in zeroize block_buf n
    end in
  Ok (self, output, block_buf, block_buf_remaining_len, copied ++ written).

Fixpoint xor_loop (fuel : nat) (len : nat) self output (block_buf : list Z) (block_buf_remaining_len : nat)
    : outcome CryptoError (KD * D * list Z * nat * list Z) :=
  match fuel with
  | O => Diverge
  | S fuel =>
      let! '(e, output) := is_empty output in
      if e then Ok (self, output, block_buf, block_buf_remaining_len, [])
      else
        let! _ := debug_assert (length block_buf =? len)%nat in
        let! '(self, block_buf, cur_block_len) := generate_block self (length block_buf) in
        let! _ :=
          if (cur_block_len =? len)%nat then Ok tt
          else debug_check (let! n := total_len output in Ok (n <=? cur_block_len)%nat) in
        let! block_buf :=
          if negb (cur_block_len =? len)%nat then let! dest := nsub len cur_block_len in copy_within block_buf cur_block_len dest
          else Ok block_buf in
        let! src := buf_tail block_buf cur_block_len in
        let! '(xored, output, _) := xor_from_iter (S fuel) output (singleton_new src) in
        let! block_buf_remaining_len := nsub cur_block_len (length xored) in
        let! '(self, output, block_buf, rem, written) := xor_loop fuel len self output block_buf block_buf_remaining_len in
        Ok (self, output, block_buf, rem, xored ++ written)
  end.

Definition generate_and_xor_chunk_impl (fuel : nat) self output (block_buf : list Z) (block_buf_remaining_len : nat)
    : outcome CryptoError (KD * D * list Z * nat * list Z) :=
  let! _ := check_request self output block_buf_remaining_len in
  let! src := buf_tail block_buf block_buf_remaining_len in
  let! '(xored, output, _) := xor_from_iter fuel output (singleton_new src) in
  let! block_buf_remaining_len := nsub block_buf_remaining_len (length xored) in
  let! output := debug_assert_empty (block_buf_remaining_len =? 0)%nat output in
  let len := block_len self in
  let! '(self, output, block_buf, block_buf_remaining_len, written) := xor_loop fuel len self output block_buf block_buf_remaining_len in
  let! n := nsub len block_buf_remaining_len in
  let! block_buf := zeroize block_buf n in
  Ok (self, output, block_buf, block_buf_remaining_len, xored ++ written).

End Chunk.

(** [BufferedFixedBlockOutputKdf]. *)
Record BufferedFixedBlockOutputKdf := mk_buffered {
  block_kdf : KD;
  block_buf : list Z;
  block_buf_remaining_len : nat;
}.

Definition buffered_new `{Allocator} (block_kdf : KD) : outcome CryptoError BufferedFixedBlockOutputKdf :=
  let block_len := block_len block_kdf in
  if alloc_ok 0 block_len then Ok (mk_buffered block_kdf (replicate block_len 0) 0) else Err CryptoMemoryAllocationFailure.

Definition buffered_max_remaining_len (self : BufferedFixedBlockOutputKdf) : outcome CryptoError (option Z) :=
  let! max_remaining := max_remaining_len (block_kdf self) in
  match max_remaining with
  | Some max_remaining => let! n := uadd usize_bits (Z.of_nat max_remaining) (Z.of_nat (block_buf_remaining_len self)) in Ok (Some n)
  | None => Ok None
  end.

Definition generate_chunk {D} `{IoSlicesIter D CryptoError} (fuel : nat) (self : BufferedFixedBlockOutputKdf) (output : D)
    : outcome CryptoError (BufferedFixedBlockOutputKdf * list Z) :=
  let! '(kdf, _, buf, len, written) := generate_chunk_impl fuel (block_kdf self) output (block_buf self) (block_buf_remaining_len self) in
  Ok (mk_buffered kdf buf len, written).

Definition generate_and_xor_chunk {D} `{IoSlicesIter D CryptoError} (fuel : nat) (self : BufferedFixedBlockOutputKdf) (output : D)
    : outcome CryptoError (BufferedFixedBlockOutputKdf * list Z) :=
  let! '(kdf, _, buf, len, written) := generate_and_xor_chunk_impl fuel (block_kdf self) output (block_buf self) (block_buf_remaining_len self) in
  Ok (mk_buffered kdf buf len, written).

End Ops.
Arguments BufferedFixedBlockOutputKdf : clear implicits.

(** ** What a block generator promises

    [kdf_stream] is the output that is still to come; an error is one that the backend
    can return. *)
Class KdfLaws (KD : Type) `{B : Build} `{P : Platform} `{HK : FixedBlockOutputKdf KD} := {
  kdf_valid : KD → Prop;
  kdf_stream : KD → list Z;
  kdf_fails : CryptoError → Prop;
  kdf_block_len s : kdf_valid s → (0 < block_len s)%nat;
  kdf_bytes s : kdf_valid s → Forall u8 (kdf_stream s);
  kdf_range s : kdf_valid s → Z.of_nat (length (kdf_stream s) + block_len s) < 2 ^ usize_bits;
  kdf_max s : kdf_valid s → max_remaining_len s = Ok (Some (length (kdf_stream s)));
  kdf_generate s :
    kdf_valid s → kdf_stream s ≠ [] →
    let n := Nat.min (block_len s) (length (kdf_stream s)) in
    (∃ s' block, generate_block s (block_len s) = Ok (s', block, n) ∧ kdf_valid s' ∧ block_len s' = block_len s ∧
       length block = block_len s ∧ take n block = take n (kdf_stream s) ∧ kdf_stream s' = drop n (kdf_stream s) ∧ Forall u8 block) ∨
    (∃ e, generate_block s (block_len s) = Err e ∧ kdf_fails e);
}.

(** The iterator gives slices that are as long as asked for, as long as there are
    bytes: true of a single slice. *)
Definition contiguous (D : Type) `{HL : IoSlicesIterLaws D CryptoError} : Prop :=
  ∀ (s : D) m, valid s → (0 < m)%nat → content s ≠ [] →
    ∃ s', next_slice s (Some m) = Ok (Some (take m (content s)), s') ∧ valid s' ∧ content s' = drop m (content s).

Lemma min_take {A} (l : list A) m : take (Nat.min m (length l)) l = take m l ∧ drop (Nat.min m (length l)) l = drop m l.
Proof. destruct (Nat.le_ge_cases m (length l)); [by rewrite Nat.min_l by done|]. rewrite Nat.min_r by done. by rewrite !take_ge, !drop_ge by lia. Qed.

Lemma singleton_contiguous : contiguous SingletonIoSlice.
Proof.
  intros [[l|]] m _ Hm Hc; [|done]. cbn [content singleton_laws slice default id] in *. destruct (min_take l m) as [Ht Hd].
  cbn [next_slice singleton_iter]. unfold singleton_next_slice. cbn [slice]. destruct l as [|b l]; [done|]. cbn [length Nat.eqb] in *. rewrite Ht, Hd. eexists. split; [done|]. by split.
Qed.

Lemma singleton_lengths (l : option (list Z)) d :
  all_lengths_multiple_of (E:=CryptoError) (mk_singleton l) d = Ok (if (d =? 0)%nat then false else (length (default [] l) mod d =? 0)%nat).
Proof.
  unfold all_lengths_multiple_of. destruct (Nat.eqb_spec d 0) as [|Hd]; [done|]. cbn [slices singleton_iter]. unfold singleton_slices.
  assert (∀ n, (Z.land (Z.of_nat d) (Z.of_nat d - 1) =? 0) = true → (Z.land (Z.of_nat n) (Z.of_nat d - 1) =? 0) = (n mod d =? 0)%nat) as Hp.
  { intros n Hpow. assert (∃ k, 0 ≤ k ∧ Z.of_nat d = 2 ^ k) as (k & Hk & Hdk).
    { destruct (Z.log2_spec (Z.of_nat d) ltac:(lia)) as [? Hu]. pose proof (Z.log2_nonneg (Z.of_nat d)).
      destruct (proj1 (BitManip.is_pow2_u_spec (Z.succ (Z.log2 (Z.of_nat d))) (Z.of_nat d) ltac:(unfold in_u; lia))) as [|Hk]; [|lia|done].
      unfold BitManip.is_pow2_u, BitManip.abs_u, wrapping_sub. rewrite wrap_small by (unfold in_u; lia). done. }
    rewrite Hdk. replace (2 ^ k - 1) with (Z.ones k) by (rewrite Z.ones_equiv; lia). rewrite land_ones_mod, <-Hdk, <-Nat2Z.inj_mod by lia. destruct (Nat.eqb_spec (n mod d) 0) as [->|]; [done|]. apply Z.eqb_neq. lia. }
  destruct l as [l|]; cbn [slice default id].
  - destruct (Nat.eqb_spec (length l) 0) as [->|]; cbn [obind]; [rewrite Nat.Div0.mod_0_l; by case_match|].
    destruct (Z.land _ _ =? 0) eqn:Hpow; cbn [all_multiple]; [rewrite Hp by done|]; by destruct (_ mod _ =? 0)%nat.
  - cbn [obind]. rewrite Nat.Div0.mod_0_l. by case_match.
Qed.

(** ** The bytes of requests *)

Section Correct.
Context {B : Build} {P : Platform} {CT : CtBackend} {KD : Type} {HK : FixedBlockOutputKdf KD} {KL : KdfLaws KD}.
Context {D : Type} {HD : IoSlicesIter D CryptoError} {HL : IoSlicesIterLaws D CryptoError}.
Implicit Types (self : KD) (output : D) (buf : list Z).

(** The bytes that are available: the rest of the buffer and what is still to be
    generated. *)
Definition avail self buf (rem : nat) : list Z := drop (length buf - rem) buf ++ kdf_stream self.

(** Where the assertion on the last, incomplete block holds. *)
Definition last_block_fits self : Prop :=
  debug_assertions = false ∨ contiguous D ∨ (length (kdf_stream self) mod block_len self = 0)%nat.

Lemma buf_tail_Ok {E} buf n : (n ≤ length buf)%nat → buf_tail (E:=E) buf n = Ok (drop (length buf - n) buf).
Proof. intros Hn. unfold buf_tail. rewrite nsub_Ok by done. cbn [obind]. apply slice_from_Ok. lia. Qed.

Lemma debug_assert_empty_Ok b output :
  valid output → (b = false → content output = []) → ∃ output', debug_assert_empty b output = Ok output' ∧ valid output' ∧ content output' = content output.
Proof.
  intros Hv Hb. unfold debug_assert_empty. destruct (debug_assertions); [|by exists output]. destruct b; [by exists output|].
  destruct (is_empty_spec output Hv) as (s' & -> & Hs' & Hc). cbn [obind]. rewrite (Hb eq_refl). cbn. exists s'. by rewrite Hc, Hb.
Qed.

Lemma copy_to_slice (d s : list Z) :
  (length d ≤ length s)%nat →
  ∃ d' s', copy_from_iter (E:=CryptoError) (S (length d)) (singleton_new d) (singleton_new s) = Ok (take (length d) s, d', s') ∧ default [] (slice s') = drop (length d) s.
Proof.
  intros Hl. destruct (copy_from_iter_spec (HDL:=singleton_laws) (HSL:=singleton_laws) (E:=CryptoError) (S (length d)) (singleton_new d) (singleton_new s) I I) as (d' & s' & Hcp & _ & _ & _ & Hcs'); [cbn; lia|].
  cbn [content singleton_laws singleton_new slice default id] in Hcp, Hcs'. rewrite Nat.min_l in Hcp, Hcs' by lia. eauto.
Qed.

Lemma copy_to_output fuel output (s : SingletonIoSlice) (bytes : list Z) :
  valid output → default [] (slice s) = bytes → (length (content output) < fuel)%nat →
  let n := Nat.min (length (content output)) (length bytes) in
  ∃ output' s', copy_from_iter fuel output s = Ok (take n bytes, output', s') ∧ valid output' ∧ content output' = drop n (content output).
Proof.
  intros Hv <- Hf n. destruct (copy_from_iter_spec (HSL:=singleton_laws) (E:=CryptoError) fuel output s Hv I) as (d' & s' & Hcp & Hv' & _ & Hc & _);
    cbn [content singleton_laws] in *; [lia|]. eauto.
Qed.

(** A generated block is moved to the end of the buffer. *)
Lemma moved_block {E} (block : list Z) len n (bytes : list Z) :
  length block = len → (n ≤ len)%nat → take n block = bytes →
  ∃ buf, (if negb (n =? len)%nat then let! dest := nsub len n in copy_within (E:=E) block n dest else Ok block) = Ok buf ∧
    length buf = len ∧ drop (len - n) buf = bytes.
Proof.
  intros Hl Hn <-. destruct (Nat.eqb_spec n len) as [->|]; cbn [negb].
  { exists block. rewrite Nat.sub_diag. by rewrite take_ge by lia. }
  rewrite nsub_Ok by lia. cbn [obind]. unfold copy_within. rewrite (proj2 (Nat.leb_le _ _)) by lia. eexists. split; [done|].
  rewrite !length_app, !length_take, length_drop. split; [lia|]. rewrite drop_app_length' by (rewrite length_take; lia). rewrite (drop_ge block) by lia. by rewrite app_nil_r.
Qed.

Section Loop.
Context (len : nat).

(** A single slice of whole blocks. *)
Definition aligned output : Prop := contiguous D ∧ (length (content output) mod len = 0)%nat.

Lemma aligned_next s :
  (0 < len)%nat → aligned s → valid s → content s ≠ [] →
  ∃ bs s', next_slice s (Some len) = Ok (Some bs, s') ∧ length bs = len ∧ valid s' ∧ content s = bs ++ content s' ∧ aligned s'.
Proof using.
  intros Hd [Hct Hm] Hv Hc. destruct (Hct s len Hv Hd Hc) as (s' & Hn & Hv' & Hs'). exists (take len (content s)), s'.
  assert (len ≤ length (content s))%nat as Hlen.
  { destruct (Nat.le_gt_cases len (length (content s))) as [|Hlt]; [done|]. rewrite Nat.mod_small in Hm by done. by destruct (content s). }
  split_and!; [done|rewrite length_take; lia|done|by rewrite Hs', take_drop|]. split; [done|]. rewrite Hs', length_drop.
  replace (length (content s)) with (length (content s) - len + 1 * len)%nat in Hm by lia. by rewrite Nat.Div0.mod_add in Hm.
Qed.

Lemma debug_assert_true {E} : debug_assert (E:=E) true = Ok tt.
Proof using. unfold debug_assert. by destruct debug_assertions. Qed.

Lemma last_block_fits_next self self' n :
  last_block_fits self → kdf_valid self → block_len self' = block_len self → n = Nat.min (block_len self) (length (kdf_stream self)) → kdf_stream self' = drop n (kdf_stream self) →
  last_block_fits self'.
Proof using.
  intros [?|[?|Hm]] Hk Hb -> Hs; [by left|by right; left|]. right; right. pose proof (kdf_block_len self Hk). rewrite Hb, Hs, length_drop.
  destruct (Nat.le_ge_cases (block_len self) (length (kdf_stream self))).
  - rewrite Nat.min_l by done. replace (length (kdf_stream self)) with (length (kdf_stream self) - block_len self + 1 * block_len self)%nat in Hm by lia. by rewrite Nat.Div0.mod_add in Hm.
  - rewrite Nat.min_r, Nat.sub_diag by done. apply Nat.Div0.mod_0_l.
Qed.

(** The assertion on the last block. *)
Lemma last_block_assert self output (slice : list Z) output' :
  kdf_valid self → block_len self = len → valid output → next_slice output (Some len) = Ok (Some slice, output') → valid output' → content output = slice ++ content output' → last_block_fits self →
  (0 < length slice < len)%nat → (length slice ≤ length (kdf_stream self))%nat →
  let n := Nat.min len (length (kdf_stream self)) in
  ∃ output2, (if (n =? len)%nat then Ok output' else if (length slice <=? n)%nat then debug_assert_empty false output' else let! _ := debug_assert false in Ok output') = Ok output2 ∧
    valid output2 ∧ content output2 = content output'.
Proof using.
  intros Hk Hb Hv Hn Hv' Hc Hfit Hl Hs n. destruct (Nat.eqb_spec n len) as [|Hne]; [by exists output'|]. rewrite (proj2 (Nat.leb_le _ _)) by lia.
  destruct Hfit as [Hd|[Hct|Hm]].
  - exists output'. unfold debug_assert_empty. by rewrite Hd.
  - apply debug_assert_empty_Ok; [done|]. intros _. assert (content output ≠ []) as Hcn by (rewrite Hc; destruct slice; [cbn in *; lia|done]).
    destruct (Hct output len Hv ltac:(lia) Hcn) as (s' & Hn' & _ & Hs'). rewrite Hn in Hn'. injection Hn' as Hsl Ho. rewrite <-Ho in Hs'. rewrite Hs'. apply drop_ge.
    rewrite Hsl, length_take in Hl. lia.
  - rewrite Hb, Nat.mod_small in Hm by lia. lia.
Qed.

Lemma take_drop_within {A} (l : list A) m k : (m ≤ k)%nat → drop m (take k l) ++ drop k l = drop m l.
Proof using. intros Hm. rewrite <-(take_drop k l) at 3. rewrite drop_app. f_equal. rewrite length_take. destruct (Nat.le_ge_cases k (length l)); [by replace (m - _)%nat with 0%nat by lia|]. rewrite (drop_ge l) by lia. by rewrite drop_nil. Qed.

Lemma chunk_loop_spec fuel : ∀ self output buf rem,
  kdf_valid self → block_len self = len → valid output → last_block_fits self →
  (length (content output) < fuel)%nat → (content output ≠ [] → rem = 0%nat) → (rem ≤ length buf)%nat →
  length buf = len ∨ aligned output →
  (length (content output) ≤ length (avail self buf rem))%nat →
  let n := length (content output) in
  (∃ self' output' buf' rem', chunk_loop fuel len self output buf rem = Ok (self', output', buf', rem', take n (avail self buf rem)) ∧
     kdf_valid self' ∧ block_len self' = len ∧ valid output' ∧ content output' = [] ∧ length buf' = length buf ∧ (rem' ≤ length buf')%nat ∧
     avail self' buf' rem' = drop n (avail self buf rem)) ∨
  (∃ e, chunk_loop fuel len self output buf rem = Err e ∧ kdf_fails e).
Proof.
  induction fuel as [|fuel IH]; intros self output buf rem Hk Hbl Hv Hfit Hf Hrem Hrl Hbuf Hav n; [lia|]. cbn [chunk_loop].
  pose proof (kdf_block_len self Hk) as Hpos. rewrite Hbl in Hpos.
  destruct (next_slice_spec output len Hv Hpos) as [(Hc & output' & Hn & Hv' & Hc')|(bs & output' & Hn & Hv' & Hc & Hbs)].
  { rewrite Hn. cbn [obind]. left. exists self, output', buf, rem. unfold n. rewrite Hc. cbn [length]. rewrite take_0, drop_0. split_and!; done. }
  rewrite Hn. cbn [obind]. assert (content output ≠ []) as Hne by (rewrite Hc; destruct bs; [cbn in *; lia|done]). specialize (Hrem Hne). subst rem.
  assert (avail self buf 0 = kdf_stream self) as Ha0 by (unfold avail; by rewrite Nat.sub_0_r, drop_all). rewrite Ha0 in *. unfold n in *. rewrite Hc, length_app in Hav, Hf |- *.
  assert (kdf_stream self ≠ []) as Hs by (destruct (kdf_stream self); [cbn in *; lia|done]).
  destruct (Nat.eqb_spec (length bs) len) as [Hfull|Hpart].
  - destruct (kdf_generate self Hk Hs) as [(self' & block & Hg & Hk' & Hbl' & Hlb & Ht & Hst & _)|(e & Hg & He)]; rewrite Hbl in *; rewrite Hfull, Hg; cbn [obind]; [|right; eauto].
    rewrite Nat.min_l in * by lia. rewrite Nat.eqb_refl. ostep.
    assert (avail self' buf 0 = drop len (kdf_stream self)) as Hav' by (unfold avail; rewrite Nat.sub_0_r, drop_all; exact Hst).
    destruct (IH self' output' buf 0%nat) as [(self2 & output2 & buf2 & rem2 & Hl & Hk2 & Hb2 & Hv2 & Hc2 & Hlb2 & Hr2 & Hav2)|(e & He & Hfe)];
      [done|by rewrite Hbl'|done|by eapply last_block_fits_next with (n := len); [exact Hfit|..]; rewrite ?Hbl, ?Nat.min_l by lia|lia|done|lia| |rewrite Hav', length_drop; lia| |].
    { destruct Hbuf as [|Ha]; [by left|right]. destruct (aligned_next output Hpos Ha Hv Hne) as (bs' & s' & Hn' & _ & _ & _ & Ha'). rewrite Hn in Hn'. by injection Hn' as -> ->. }
    + left. rewrite Hl. cbn [obind]. exists self2, output2, buf2, rem2. split_and!; try done.
      * do 2 f_equal. rewrite Hav'. rewrite <-(take_ge block len) by lia. rewrite Ht. apply take_take_drop.
      * rewrite Hav2, Hav', drop_drop. done.
    + right. rewrite He. cbn [obind]. eauto.
  - assert (length buf = len) as Hlen.
    { destruct Hbuf as [|Ha]; [done|]. destruct (aligned_next output Hpos Ha Hv Hne) as (bs' & s' & Hn' & Hl' & _). rewrite Hn in Hn'. injection Hn' as -> ->. done. }
    rewrite Hlen, Nat.eqb_refl, debug_assert_true. cbn [obind].
    destruct (kdf_generate self Hk Hs) as [(self' & block & Hg & Hk' & Hbl' & Hlb & Ht & Hst & _)|(e & Hg & He)]; rewrite Hbl in *; rewrite Hg; cbn [obind]; [|right; eauto].
    destruct (last_block_assert self output bs output') as (output2 & Ha & Hv2 & Hc2); [done..|lia|lia|]. cbn beta zeta in Ha. rewrite Ha. cbn [obind]. clear Ha.
    set (k := Nat.min len (length (kdf_stream self))) in *. destruct (moved_block (E:=CryptoError) block len k _ Hlb ltac:(lia) Ht) as (buf2 & Hmv & Hlb2 & Htail). rewrite Hmv. cbn [obind].
    rewrite buf_tail_Ok, Hlb2, Htail by lia. cbn [obind]. assert (length (take k (kdf_stream self)) = k) as Hlt by (rewrite length_take; lia).
    destruct (copy_to_slice bs (take k (kdf_stream self)) ltac:(lia)) as (d' & s' & Hcp & Hcs'). rewrite Hcp. cbn [obind].
    rewrite length_take, Hlt, Nat.min_l, nsub_Ok by lia. cbn [obind].
    destruct (copy_to_output (S fuel) output2 s' _ Hv2 Hcs' ltac:(rewrite Hc2; lia)) as (output3 & s3 & Hcp3 & Hv3 & Hc3).
    rewrite length_drop, Hlt, Hc2 in Hcp3, Hc3. rewrite Hcp3. cbn [obind]. clear Hcp Hcp3.
    set (n2 := Nat.min (length (content output')) (k - length bs)) in *. rewrite length_take, length_drop, Hlt, nsub_Ok by lia. cbn [obind].
    replace (Nat.min n2 (k - length bs)) with n2 by lia.
    assert (avail self' buf2 (k - length bs - n2) = drop (length bs + n2) (kdf_stream self)) as Hav'.
    { unfold avail. rewrite Hlb2, Hst. rewrite <-(take_drop_within _ (length bs + n2) k) by lia. f_equal. rewrite <-Htail, drop_drop. f_equal. lia. }
    destruct (IH self' output3 buf2 (k - length bs - n2)%nat) as [(self4 & output4 & buf4 & rem4 & Hl & Hk4 & Hb4 & Hv4 & Hc4 & Hlb4 & Hr4 & Hav4)|(e & He & Hfe)];
      [done|by rewrite Hbl'|done|by eapply last_block_fits_next with (n := k); [exact Hfit|..]; rewrite ?Hbl|rewrite Hc3, length_drop; lia| |lia|by left|rewrite Hav', Hc3, !length_drop; lia| |].
    { rewrite Hc3. intros Hne3. assert (length (drop n2 (content output')) ≠ 0%nat) as Hd by (by destruct (drop n2 _)). rewrite length_drop in Hd. lia. }
    + left. rewrite Hl. cbn [obind]. exists self4, output4, buf4, rem4. rewrite Hav' in *. rewrite Hc3, length_drop in *. split_and!; try done; [|lia|].
      * do 2 f_equal. rewrite drop_all. cbn [app]. rewrite !take_take, Nat.min_l by lia.
        rewrite <-(take_take_drop (kdf_stream self) (length bs) (length (content output'))). f_equal.
        rewrite take_drop_commute, take_take, Nat.min_l, <-take_drop_commute, <-drop_drop, take_take_drop by lia. f_equal. lia.
      * rewrite Hav4, drop_drop. f_equal. lia.
    + right. rewrite He. cbn [obind]. eauto.
Qed.

Lemma check_request_spec self output rem :
  kdf_valid self → valid output → (rem ≤ block_len self)%nat →
  check_request self output rem = if (length (kdf_stream self) + rem <? length (content output))%nat then Err RequestTooBig else Ok tt.
Proof using.
  intros Hk Hv Hr. unfold check_request. pose proof (kdf_range self Hk). rewrite kdf_max, total_len_spec by done. cbn [obind]. rewrite uadd_Ok by lia. cbn [obind].
  destruct (Nat.ltb_spec (length (kdf_stream self) + rem) (length (content output))); zdec; done.
Qed.

Lemma avail_rest self buf rem n : (n ≤ rem ≤ length buf)%nat → avail self buf (rem - n) = drop n (avail self buf rem).
Proof using.
  intros Hn. unfold avail. rewrite drop_app, length_drop, drop_drop. replace (n - (length buf - (length buf - rem)))%nat with 0%nat by lia. rewrite drop_0. do 2 f_equal. lia.
Qed.

Lemma zeroize_avail {E} self buf rem :
  (rem ≤ length buf)%nat → ∃ buf', zeroize (E:=E) buf (length buf - rem) = Ok buf' ∧ length buf' = length buf ∧ avail self buf' rem = avail self buf rem.
Proof using.
  intros Hr. unfold zeroize. rewrite (proj2 (Nat.leb_le _ _)) by lia. eexists. split; [done|]. assert (length (replicate (length buf - rem) 0 ++ drop (length buf - rem) buf) = length buf) as Hl
    by (rewrite length_app, length_replicate, length_drop; lia). split; [done|]. unfold avail. rewrite Hl, drop_app_length' by (by rewrite length_replicate). done.
Qed.

(** A request is refused exactly if it is for more bytes than there are; otherwise it
    gets the next bytes, or the backend has failed. *)
Definition request_result {A} (self : KD) (buf : list Z) (rem : nat) (old : list Z) (f : list Z → list Z → list Z) (r : outcome CryptoError (KD * A * list Z * nat * list Z)) : Prop :=
  let n := length old in
  if (length (avail self buf rem) <? n)%nat then r = Err RequestTooBig
  else
    (∃ self' a buf' rem', r = Ok (self', a, buf', rem', f old (take n (avail self buf rem))) ∧ kdf_valid self' ∧ block_len self' = block_len self ∧
       length buf' = length buf ∧ (rem' ≤ length buf')%nat ∧ avail self' buf' rem' = drop n (avail self buf rem)) ∨
    (∃ e, r = Err e ∧ kdf_fails e).

Lemma generate_chunk_impl_spec fuel self output buf rem :
  kdf_valid self → block_len self = len → valid output → last_block_fits self →
  (length (content output) < fuel)%nat → (rem ≤ length buf)%nat →
  length buf = len ∨ buf = [] ∧ aligned output →
  request_result self buf rem (content output) (λ _ bytes, bytes) (generate_chunk_impl fuel self output buf rem).
Proof using.
  intros Hk Hbl Hv Hfit Hf Hr Hbuf. unfold request_result, generate_chunk_impl. pose proof (kdf_block_len self Hk) as Hpos. rewrite check_request_spec by (done || destruct Hbuf as [|[-> _]]; cbn in *; lia).
  assert (length (avail self buf rem) = rem + length (kdf_stream self))%nat as Hla by (unfold avail; rewrite length_app, length_drop; lia).
  rewrite Hla, (Nat.add_comm rem). destruct (Nat.ltb_spec (length (kdf_stream self) + rem) (length (content output))) as [|Hle]; [done|]. cbn [obind].
  rewrite buf_tail_Ok by done. cbn [obind]. destruct (copy_to_output fuel output (singleton_new (drop (length buf - rem) buf)) _ Hv eq_refl Hf) as (output1 & s1 & Hcp & Hv1 & Hc1).
  cbn [singleton_new slice default id] in *. rewrite length_drop in *. replace (length buf - (length buf - rem))%nat with rem in * by lia. set (n1 := Nat.min (length (content output)) rem) in *.
  rewrite Hcp. cbn [obind]. rewrite length_take, length_drop. replace (Nat.min n1 _) with n1 by lia. rewrite nsub_Ok by lia. cbn [obind].
  assert ((rem - n1 ≠ 0)%nat → content output1 = []) as Hempty by (intros; rewrite Hc1; apply drop_ge; lia).
  destruct (debug_assert_empty_Ok (rem - n1 =? 0)%nat output1 Hv1) as (output2 & Ha & Hv2 & Hc2); [intros ?%Nat.eqb_neq; by apply Hempty|]. rewrite Ha. cbn [obind]. clear Ha.
  assert (length (content output2) = length (content output) - n1)%nat as Hl2 by (rewrite Hc2, Hc1, length_drop; done).
  assert (avail self buf (rem - n1) = drop n1 (avail self buf rem)) as Hav by (apply avail_rest; lia). rewrite Hbl.
  destruct (chunk_loop_spec fuel self output2 buf (rem - n1)%nat) as [(self3 & output3 & buf3 & rem3 & Hl & Hk3 & Hb3 & Hv3 & Hc3 & Hlb3 & Hr3 & Hav3)|(e & He & Hfe)];
    [done|done|done|done|lia| |lia| |rewrite Hav, length_drop; lia| |].
  - rewrite Hc2. intros Hne. destruct (Nat.eq_dec (rem - n1) 0); [done|]. by destruct Hne; apply Hempty.
  - destruct Hbuf as [|[-> Ha]]; [by left|]. right. destruct Ha as [? Ha]. split; [done|]. rewrite Hl2. cbn in Hr. by replace (_ - n1)%nat with (length (content output)) by lia.
  - left. rewrite Hl. cbn [obind]. rewrite Hav, Hl2 in *.
    assert (∃ buf4, (match buf3 with [] => Ok [] | _ => let! n := nsub len rem3 in zeroize buf3 n end) = Ok (E:=CryptoError) buf4 ∧ length buf4 = length buf3 ∧ avail self3 buf4 rem3 = avail self3 buf3 rem3) as (buf4 & Hz & Hl4 & Ha4).
    { destruct buf3 as [|z buf3]; [by exists []|]. destruct Hbuf as [Hlen|[-> _]]; [|done]. rewrite nsub_Ok by lia. cbn [obind]. rewrite <-Hlen, <-Hlb3. by apply zeroize_avail. }
    rewrite Hz. cbn [obind]. exists self3, output3, buf4, rem3. split_and!; [|done|by rewrite Hb3|lia|lia|].
    + do 2 f_equal. transitivity (take (n1 + (length (content output) - n1)) (avail self buf rem)); [|f_equal; lia]. rewrite <-take_take_drop. f_equal.
      unfold avail. by rewrite take_app_le by (rewrite length_drop; lia).
    + rewrite Ha4, Hav3, drop_drop. f_equal. lia.
  - right. rewrite He. cbn [obind]. eauto.
Qed.
End Loop.

(** *** Exclusive or with the output *)

Lemma xor_from_iter_spec fuel : ∀ (d : D) (s : SingletonIoSlice),
  let cs := default [] (slice s) in let n := Nat.min (length (content d)) (length cs) in
  valid d → Forall u8 (content d) → Forall u8 cs → (n < fuel)%nat →
  ∃ d' s', xor_from_iter fuel d s = Ok (zip_with Z.lxor (content d) cs, d', s') ∧ valid d' ∧ content d' = drop n (content d).
Proof.
  induction fuel as [|fuel IH]; intros d s cs n Hd Hud Hus Hf; [lia|]. cbn [xor_from_iter].
  destruct (next_slice_len_spec d Hd) as (nd & d1 & -> & Hd1 & Hcd & ? & Hnd & Hnextd). cbn [obind].
  destruct (next_slice_len_spec (IoSlicesIterLaws:=singleton_laws) (E:=CryptoError) s I) as (ns & s1 & -> & _ & Hcs & Hlns & Hns & Hnexts). cbn [obind]. cbn [content singleton_laws] in *. fold cs in Hcs, Hlns, Hns, Hnexts.
  set (k := Nat.min nd ns). destruct (Nat.eq_dec nd 0) as [Hz|].
  { rewrite <-Hcd in Hnd. destruct (next_slice_empty d1 (Some k) Hd1 (Hnd Hz)) as (d2 & -> & ? & Hc2). cbn [obind].
    rewrite Hcd in Hnd. exists d2, s1. unfold n. by rewrite (Hnd Hz), Hc2. }
  destruct (Hnextd k ltac:(lia) ltac:(lia)) as (d2 & -> & Hd2 & Hcd2). cbn [obind].
  destruct (Nat.eq_dec ns 0) as [Hz|].
  { rewrite <-Hcs in Hns. destruct (next_slice_empty (IoSlicesIterLaws:=singleton_laws) (E:=CryptoError) s1 (Some k) I (Hns Hz)) as (s2 & -> & _ & _). cbn [obind].
    rewrite Hcs in Hns. exists d2, s2. unfold n. rewrite (Hns Hz), Hcd2. replace k with 0%nat by lia. rewrite Nat.min_0_r. by destruct (content d). }
  destruct (Hnexts k ltac:(lia) ltac:(lia)) as (s2 & -> & _ & Hcs2). cbn [obind].
  rewrite Xor.xor_bytes_Ok by ((by apply Forall_take) || (rewrite !length_take; lia)). cbn [obind].
  destruct (IH d2 s2) as (d' & s' & -> & ? & Hc1); rewrite ?Hcd2, ?Hcs2, ?length_drop; [done|by apply Forall_drop..|lia|].
  cbn [obind]. exists d', s'. rewrite Hcd2, Hcs2, !length_drop in *. rewrite drop_drop in Hc1.
  split_and!; [|done|rewrite Hc1; f_equal; lia]. do 2 f_equal. by rewrite <-Xor.zip_with_drop_take.
Qed.

Lemma zip_split (l l1 l2 : list Z) : (length l1 ≤ length l)%nat → zip_with Z.lxor l l1 ++ zip_with Z.lxor (drop (length l1) l) l2 = zip_with Z.lxor l (l1 ++ l2).
Proof.
  intros Hl. rewrite (Xor.zip_with_drop_take l (l1 ++ l2) (length l1)). rewrite take_app_length, drop_app_length. f_equal.
  rewrite (Xor.zip_with_drop_take l l1 (length l1)), (take_ge l1), drop_all by lia. destruct (drop _ l); cbn; by rewrite app_nil_r.
Qed.

Lemma zip_chunks (c s : list Z) k :
  (length c ≤ length s)%nat →
  zip_with Z.lxor c (take k s) ++ zip_with Z.lxor (drop (Nat.min (length c) k) c) (take (length c - Nat.min (length c) k) (drop (Nat.min (length c) k) s)) = zip_with Z.lxor c (take (length c) s).
Proof.
  intros Hl. destruct (Nat.le_ge_cases (length c) k) as [Hk|Hk].
  - rewrite Nat.min_l, Nat.sub_diag, take_0 by done. rewrite drop_all. cbn [zip_with]. rewrite app_nil_r.
    rewrite (Xor.zip_with_drop_take c (take k s) (length c)), take_take, Nat.min_l, drop_all, take_ge by done. cbn [zip_with]. by rewrite app_nil_r.
  - rewrite Nat.min_r by done. assert (length (take k s) = k) as Hlk by (rewrite length_take; lia). pose proof (zip_split c (take k s) (take (length c - k) (drop k s))) as Hz.
    rewrite Hlk, take_take_drop in Hz. rewrite Hz by done. do 2 f_equal. lia.
Qed.

Lemma xor_loop_spec fuel : ∀ self output buf rem,
  let len := block_len self in let n := length (content output) in
  kdf_valid self → valid output → Forall u8 (content output) → (n < fuel)%nat → (content output ≠ [] → rem = 0%nat) → (rem ≤ length buf)%nat → length buf = len →
  (n ≤ length (avail self buf rem))%nat →
  (∃ self' output' buf' rem', xor_loop fuel len self output buf rem = Ok (self', output', buf', rem', zip_with Z.lxor (content output) (take n (avail self buf rem))) ∧
     kdf_valid self' ∧ block_len self' = len ∧ length buf' = len ∧ (rem' ≤ length buf')%nat ∧ avail self' buf' rem' = drop n (avail self buf rem)) ∨
  (∃ e, xor_loop fuel len self output buf rem = Err e ∧ kdf_fails e).
Proof.
  induction fuel as [|fuel IH]; intros self output buf rem len n Hk Hv Hu Hf Hrem Hrl Hbuf Hav; [lia|]. cbn [xor_loop].
  destruct (is_empty_spec output Hv) as (output1 & He1 & Hv1 & Hc1). rewrite He1. cbn [obind]. fold n. destruct (Nat.eqb_spec n 0) as [Hz|Hnz].
  { left. exists self, output1, buf, rem. rewrite Hz, take_0, drop_0. split_and!; try done. by destruct (content output). }
  assert (content output ≠ []) as Hne by (intros Hc; apply Hnz; unfold n; by rewrite Hc). specialize (Hrem Hne). subst rem.
  assert (avail self buf 0 = kdf_stream self) as Ha0 by (unfold avail; by rewrite Nat.sub_0_r, drop_all). rewrite Ha0 in *.
  assert (kdf_stream self ≠ []) as Hs by (destruct (kdf_stream self); [cbn in *; lia|done]). pose proof (kdf_bytes self Hk) as Hbytes. pose proof (kdf_block_len self Hk) as Hpos.
  assert (0 < length (kdf_stream self))%nat as Hpos' by (destruct (kdf_stream self); [done|cbn; lia]). fold len in Hpos.
  rewrite Hbuf, Nat.eqb_refl, debug_assert_true. cbn [obind].
  destruct (kdf_generate self Hk Hs) as [(self' & block & Hg & Hk' & Hbl' & Hlb & Ht & Hst & _)|(e & Hg & He)]; fold len in Hg; rewrite Hg; cbn [obind]; [|right; eauto].
  fold len in Hbl', Hlb, Ht, Hst.
  set (k := Nat.min len (length (kdf_stream self))) in *.
  assert ((if (k =? len)%nat then Ok tt else debug_check (let! n := total_len output1 in Ok (n <=? k)%nat)) = Ok (E:=CryptoError) tt) as Hass.
  { destruct (Nat.eqb_spec k len); [done|]. apply debug_check_true. rewrite total_len_spec, Hc1 by done. cbn [obind]. f_equal. apply Nat.leb_le. fold n. lia. }
  rewrite Hass. cbn [obind]. clear Hass. destruct (moved_block (E:=CryptoError) block len k _ Hlb ltac:(lia) Ht) as (buf2 & Hmv & Hlb2 & Htail). rewrite Hmv. cbn [obind].
  rewrite buf_tail_Ok, Hlb2, Htail by lia. cbn [obind]. assert (length (take k (kdf_stream self)) = k) as Hlt by (rewrite length_take; lia).
  destruct (xor_from_iter_spec (S fuel) output1 (singleton_new (take k (kdf_stream self)))) as (output3 & s3 & Hx & Hv3 & Hc3); rewrite ?Hc1; [done..|by apply Forall_take|cbn [singleton_new slice default id]; rewrite Hlt; fold n; lia|].
  cbn [singleton_new slice default id] in *. rewrite Hc1, Hlt in *. fold n in Hc3. rewrite Hx. cbn [obind]. rewrite length_zip_with, Hlt. fold n. set (n2 := Nat.min n k) in *. rewrite nsub_Ok by lia. cbn [obind].
  assert (avail self' buf2 (k - n2) = drop n2 (kdf_stream self)) as Hav'.
  { unfold avail. rewrite Hlb2, Hst. rewrite <-(take_drop_within _ n2 k) by lia. f_equal. rewrite <-Htail, drop_drop. f_equal. lia. }
  destruct (IH self' output3 buf2 (k - n2)%nat) as [(self4 & output4 & buf4 & rem4 & Hl & Hk4 & Hb4 & Hlb4 & Hr4 & Hav4)|(e & He & Hfe)]; rewrite ?Hc3, ?Hbl' in *;
    [done|done|by apply Forall_drop|rewrite length_drop; fold n; lia| |lia|done|rewrite Hav', !length_drop; fold n; lia| |].
  { intros Hne3. assert (length (drop n2 (content output)) ≠ 0%nat) as Hd by (by destruct (drop n2 _)). rewrite length_drop in Hd. fold n in Hd. lia. }
  - left. fold len in Hl. rewrite Hl. cbn [obind]. exists self4, output4, buf4, rem4. rewrite Hav', length_drop in *. fold n in Hav4 |- *. split_and!; try done.
    + do 2 f_equal. by apply zip_chunks.
    + rewrite Hav4, drop_drop. f_equal. lia.
  - right. fold len in He. rewrite He. cbn [obind]. eauto.
Qed.

Lemma generate_and_xor_chunk_impl_spec fuel self output buf rem :
  kdf_valid self → valid output → Forall u8 (content output) → Forall u8 (avail self buf rem) → (length (content output) < fuel)%nat → (rem ≤ length buf)%nat → length buf = block_len self →
  request_result self buf rem (content output) (zip_with Z.lxor) (generate_and_xor_chunk_impl fuel self output buf rem).
Proof.
  intros Hk Hv Hu Hub Hf Hr Hbuf. unfold request_result, generate_and_xor_chunk_impl. rewrite check_request_spec by (done || lia).
  assert (length (avail self buf rem) = rem + length (kdf_stream self))%nat as Hla by (unfold avail; rewrite length_app, length_drop; lia).
  rewrite Hla, (Nat.add_comm rem). destruct (Nat.ltb_spec (length (kdf_stream self) + rem) (length (content output))) as [|Hle]; [done|]. cbn [obind].
  rewrite buf_tail_Ok by done. cbn [obind]. set (tl := drop (length buf - rem) buf). assert (length tl = rem) as Htl by (unfold tl; rewrite length_drop; lia).
  destruct (xor_from_iter_spec fuel output (singleton_new tl)) as (output1 & s1 & Hx & Hv1 & Hc1); cbn [singleton_new slice default id] in *; rewrite ?Htl in *; [done|done|by apply Forall_app in Hub as [? _]|lia|].
  set (n1 := Nat.min (length (content output)) rem) in *. rewrite Hx. cbn [obind]. rewrite length_zip_with, Htl. fold n1. rewrite nsub_Ok by lia. cbn [obind].
  assert ((rem - n1 ≠ 0)%nat → content output1 = []) as Hempty by (intros; rewrite Hc1; apply drop_ge; lia).
  destruct (debug_assert_empty_Ok (rem - n1 =? 0)%nat output1 Hv1) as (output2 & Ha & Hv2 & Hc2); [intros ?%Nat.eqb_neq; by apply Hempty|]. rewrite Ha. cbn [obind]. clear Ha.
  assert (length (content output2) = length (content output) - n1)%nat as Hl2 by (rewrite Hc2, Hc1, length_drop; done).
  assert (avail self buf (rem - n1) = drop n1 (avail self buf rem)) as Hav by (apply avail_rest; lia).
  destruct (xor_loop_spec fuel self output2 buf (rem - n1)%nat) as [(self3 & output3 & buf3 & rem3 & Hl & Hk3 & Hb3 & Hlb3 & Hr3 & Hav3)|(e & He & Hfe)];
    [done|done|rewrite Hc2, Hc1; by apply Forall_drop|lia| |lia|done|rewrite Hav, length_drop; lia| |].
  - rewrite Hc2. intros Hne. destruct (Nat.eq_dec (rem - n1) 0); [done|]. by destruct Hne; apply Hempty.
  - left. rewrite Hl. cbn [obind]. rewrite Hav, Hl2 in *. destruct (zeroize_avail (E:=CryptoError) self3 buf3 rem3 Hr3) as (buf4 & Hz & Hl4 & Ha4).
    rewrite nsub_Ok by lia. cbn [obind]. rewrite Hlb3 in Hz. rewrite Hz. cbn [obind]. exists self3, output3, buf4, rem3. split_and!; [|done|done|lia|lia|].
    + do 2 f_equal. rewrite Hc2, Hc1, <-(zip_chunks (content output) (avail self buf rem) rem) by lia. fold n1. f_equal. unfold avail. rewrite take_app_length' by done. done.
    + rewrite Ha4, Hav3, drop_drop. f_equal. lia.
  - right. rewrite He. cbn [obind]. eauto.
Qed.
End Correct.

(** ** Sequences of requests *)

Section Requests.
Context {B : Build} {P : Platform} {CT : CtBackend} {KD : Type} {HK : FixedBlockOutputKdf KD} {KL : KdfLaws KD}.
Context {D : Type} {HD : IoSlicesIter D CryptoError} {HL : IoSlicesIterLaws D CryptoError}.

(** Requests that write the bytes, and requests that combine them with what is there. *)
Inductive request := Generate (output : D) | GenerateAndXor (output : D).
Definition request_output (r : request) : D := match r with Generate o | GenerateAndXor o => o end.

Fixpoint run_requests (fuel : nat) (self : BufferedFixedBlockOutputKdf KD) (reqs : list request) : outcome CryptoError (list (list Z)) :=
  match reqs with
  | [] => Ok []
  | r :: reqs =>
      let! '(self, written) := match r with Generate o => generate_chunk fuel self o | GenerateAndXor o => generate_and_xor_chunk fuel self o end in
      let! rest := run_requests fuel self reqs in Ok (written :: rest)
  end.

(** What they are to write, given the output of the function: [None] if there is not
    enough of it. *)
Fixpoint serve (stream : list Z) (reqs : list request) : option (list (list Z)) :=
  match reqs with
  | [] => Some []
  | r :: reqs =>
      let old := content (request_output r) in
      if (length stream <? length old)%nat then None
      else
        let bytes := take (length old) stream in
        (λ rest, match r with Generate _ => bytes | GenerateAndXor _ => zip_with Z.lxor old bytes end :: rest) <$> serve (drop (length old) stream) reqs
  end.

Record buffered_valid (self : BufferedFixedBlockOutputKdf KD) (stream : list Z) : Prop := {
  bv_valid : kdf_valid (block_kdf self);
  bv_buf : length (block_buf self) = block_len (block_kdf self);
  bv_rem : (block_buf_remaining_len self ≤ length (block_buf self))%nat;
  bv_stream : avail (block_kdf self) (block_buf self) (block_buf_remaining_len self) = stream;
  bv_bytes : Forall u8 stream;
}.

(** Where no request runs into the assertion on the last block: the slices are not
    divided, or all blocks are complete. *)
Definition requests_fit : Prop :=
  debug_assertions = false ∨ contiguous D ∨ ∀ s : KD, kdf_valid s → (length (kdf_stream s) mod block_len s = 0)%nat.

Lemma request_Ok fuel self stream (r : request) :
  buffered_valid self stream → requests_fit → valid (request_output r) → Forall u8 (content (request_output r)) → (length (content (request_output r)) < fuel)%nat →
  let res := match r with Generate o => generate_chunk fuel self o | GenerateAndXor o => generate_and_xor_chunk fuel self o end in
  let old := content (request_output r) in
  if (length stream <? length old)%nat then res = Err RequestTooBig
  else
    (∃ self', res = Ok (self', match r with Generate _ => take (length old) stream | GenerateAndXor _ => zip_with Z.lxor old (take (length old) stream) end) ∧
       buffered_valid self' (drop (length old) stream)) ∨
    (∃ e, res = Err e ∧ kdf_fails e).
Proof.
  intros [Hk Hb Hr <- Hu] Hfit Hv Hold Hf res old.
  assert (∀ r0 f, request_result (A:=D) (block_kdf self) (block_buf self) (block_buf_remaining_len self) old f r0 →
    let a := avail (block_kdf self) (block_buf self) (block_buf_remaining_len self) in
    let res := let! '(kdf, _, buf, len, written) := r0 in Ok (mk_buffered kdf buf len, written) in
    if (length a <? length old)%nat then res = Err RequestTooBig
    else (∃ self', res = Ok (self', f old (take (length old) a)) ∧ buffered_valid self' (drop (length old) a)) ∨ (∃ e, res = Err e ∧ kdf_fails e)) as Hres.
  { intros r0 f Hrr a. unfold request_result in Hrr. fold a in Hrr. destruct (_ <? _)%nat; [by rewrite Hrr|].
    destruct Hrr as [(self' & d & buf' & rem' & -> & Hk' & Hb' & Hl' & Hr' & Ha')|(e & -> & He)]; [left|right; by exists e].
    eexists. split; [done|]. split; cbn [block_kdf block_buf block_buf_remaining_len]; [done|congruence|done|done|]. by apply Forall_drop. }
  destruct r as [o|o]; cbn [request_output] in *.
  - apply (Hres _ (λ _ bytes, bytes)). apply generate_chunk_impl_spec with (block_len (block_kdf self)); auto. destruct Hfit as [?|[?|Hm]]; [by left|by right; left|right; right; by apply Hm].
  - apply (Hres _ (zip_with Z.lxor)). by apply generate_and_xor_chunk_impl_spec.
Qed.

Lemma run_requests_spec fuel (reqs : list request) : ∀ self stream,
  buffered_valid self stream → requests_fit →
  (∀ r, r ∈ reqs → valid (request_output r) ∧ Forall u8 (content (request_output r)) ∧ (length (content (request_output r)) < fuel)%nat) →
  match serve stream reqs with
  | Some out => run_requests fuel self reqs = Ok out
  | None => run_requests fuel self reqs = Err RequestTooBig
  end ∨ ∃ e, run_requests fuel self reqs = Err e ∧ kdf_fails e.
Proof.
  induction reqs as [|r reqs IH]; intros self stream Hbv Hfit Hreqs; [by left|]. cbn [run_requests serve].
  destruct (Hreqs r ltac:(left)) as (Hv & Hu & Hf). pose proof (request_Ok fuel self stream r Hbv Hfit Hv Hu Hf) as Hr. cbn zeta in Hr.
  destruct (_ <? _)%nat; [rewrite Hr; by left|]. destruct Hr as [(self' & -> & Hbv')|(e & -> & He)]; cbn [obind]; [|right; eauto].
  destruct (IH self' _ Hbv' Hfit ltac:(intros; apply Hreqs; by right)) as [Hr|(e & -> & He)]; [|right; cbn; eauto]. left.
  destruct (serve _ reqs); rewrite Hr; cbn [obind fmap option_fmap option_map]; [by destruct r|done].
Qed.

Lemma buffered_new_Ok `{Allocator} (kd : KD) : kdf_valid kd → alloc_ok 0 (block_len kd) = true → ∃ self, buffered_new kd = Ok self ∧ buffered_valid self (kdf_stream kd).
Proof.
  intros Hk Ha. unfold buffered_new. rewrite Ha. eexists. split; [done|]. split; cbn [block_kdf block_buf block_buf_remaining_len]; rewrite ?length_replicate; try done; [lia| |by apply kdf_bytes].
  unfold avail. rewrite length_replicate, Nat.sub_0_r, drop_ge by (by rewrite length_replicate). done.
Qed.
End Requests.
Arguments request : clear implicits.

End Kdf.
