(* ===== verification/KdfTcg.v ===== *)
(** * Key derivation functions (crypto/src/kdf/tcg_tpm2_kdf_a.rs, tcg_tpm2_kdf_e.rs, mgf1.rs)

    KDFa and KDFe of the TPM 2.0 specification and MGF1 of RFC 8017, as instances of
    [FixedBlockOutputKdf].  The hash and HMAC instances of the cryptographic backend are
    parameters.  The output is shown to be that of the specifications: the digests of a
    counter and the fixed inputs, one after the other, cut to the length asked for. *)

From S2P Require Import Prelude Errors IoSlices BitManip ImageLayout TpmInterface CtCmp Kdf AuthTreeDigests.
Import Errors IoSlices ImageLayout Kdf.
Import AuthTreeDigests(hash_alg_digest_len).

Module KdfTcg.

(** ** The backend *)

(** Hash or HMAC instances; [finalize_into] gets the length of the buffer. *)
Class DigestBackend (Inst : Type) := {
  try_clone : Inst → outcome CryptoError Inst;
  update : Inst → list (list Z) → outcome CryptoError Inst;
  finalize_into : Inst → nat → outcome CryptoError (list Z);
  digest_len : Inst → nat;
}.
Class CryptoBackend := {
  HashInst : Type;
  HmacInst : Type;
  hash_ops :: DigestBackend HashInst;
  hmac_ops :: DigestBackend HmacInst;
  hash_instance_new : TpmiAlgHash → outcome CryptoError HashInst;
  hmac_instance_new : TpmiAlgHash → list Z → outcome CryptoError HmacInst;
}.

(** What a call returns: a value with a property, or an error of the backend. *)
Definition returns {A} (fails : CryptoError → Prop) (c : outcome CryptoError A) (Q : A → Prop) : Prop :=
  (∃ a, c = Ok a ∧ Q a) ∨ (∃ e, c = Err e ∧ fails e).

(** An instance is the data given to it so far, and the digest is a function of this
    data.  [K] is what the instance was made of. *)
Class DigestLaws {Inst} `{DigestBackend Inst} (K : Type) (alg_of : K → TpmiAlgHash) (fails : CryptoError → Prop) := {
  inst_state : Inst → K * list Z;
  digest_fn : K → list Z → list Z;
  clone_law h : returns fails (try_clone h) (λ h', inst_state h' = inst_state h);
  update_law h bs : returns fails (update h bs) (λ h', inst_state h' = ((inst_state h).1, (inst_state h).2 ++ mjoin bs));
  finalize_law h n : n = digest_len h → returns fails (finalize_into h n) (λ d, d = digest_fn (inst_state h).1 (inst_state h).2);
  digest_len_law h : Z.of_nat (digest_len h) = hash_alg_digest_len (alg_of (inst_state h).1);
  digest_fn_length k m : Z.of_nat (length (digest_fn k m)) = hash_alg_digest_len (alg_of k);
  digest_fn_bytes k m : Forall u8 (digest_fn k m);
}.
Class CryptoLaws `{CB : CryptoBackend} := {
  backend_fails : CryptoError → Prop;
  hash_laws :: DigestLaws (Inst:=HashInst) TpmiAlgHash id backend_fails;
  hmac_laws :: DigestLaws (Inst:=HmacInst) (TpmiAlgHash * list Z) fst backend_fails;
  hash_instance_new_law alg : returns backend_fails (hash_instance_new alg) (λ h, inst_state h = (alg, []));
  hmac_instance_new_law alg key : returns backend_fails (hmac_instance_new alg key) (λ h, inst_state h = (alg, key, []));
}.

Abbreviation co := (outcome CryptoError).

Section Ops.
Context {B : Build} {P : Platform} {Alloc : Allocator} {CB : CryptoBackend}.

(** [total_output_len], [remaining_output_len] and [first_octet_clear_mask], the same
    in both functions of the TPM. *)
Definition total_output_len (n_total_output_bits : Z) : Z := div_ceil n_total_output_bits 8.
Definition remaining_output_len (n_total_output_bits n_blocks_generated : Z) (block_len : nat) : co nat :=
  let! generated_len := umul usize_bits n_blocks_generated (Z.of_nat block_len) in
  Ok (Z.to_nat (total_output_len n_total_output_bits - generated_len)).
Definition first_octet_clear_mask (n_total_output_bits n_blocks_generated : Z) : Z :=
  if negb (n_blocks_generated =? 0) || (n_total_output_bits mod 8 =? 0) then 0
  else wrap 8 (Z.shiftl 255 (n_total_output_bits mod 8)).

(** The end of [generate_block]: the mask is applied to the first byte, and what is
    past the end is cleared. *)
Definition finish_block (output : list Z) (first_octet_clear_mask : Z) (remaining_output_len block_len : nat) : co (list Z) :=
  let! b := idx output 0 in
  let! output := set_idx output 0 (Z.land b (unot 8 first_octet_clear_mask)) in
  if (remaining_output_len <? block_len)%nat then
    if (remaining_output_len <=? length output)%nat then
      Ok (take remaining_output_len output ++ replicate (length output - remaining_output_len) 0)
    else Panic
  else Ok output.

(** [generate_block], which is the same in both up to the input: [input] gives the
    slices that are hashed, from the encoded counter. *)
Definition tpm_generate_block {Inst} `{DigestBackend Inst} (instance : option Inst) (block_len : nat) (n_total_output_bits n_blocks_generated : Z)
    (input : list Z → list (list Z)) (output_len : nat) : co (option Inst * Z * list Z * nat) :=
  let! _ := debug_assert (output_len =? block_len)%nat in
  let! remaining_output_len := remaining_output_len n_total_output_bits n_blocks_generated block_len in
  match instance with
  | None => Err CryptoInternal
  | Some instance =>
      let! '(used, kept) :=
        if (block_len <? remaining_output_len)%nat then let! cloned := try_clone instance in Ok (cloned, Some instance)
        else Ok (instance, None) in
      let first_octet_clear_mask := first_octet_clear_mask n_total_output_bits n_blocks_generated in
      let! n_blocks_generated := uadd 32 n_blocks_generated 1 in
      let! used := update used (input (to_be_bytes 4 n_blocks_generated)) in
      let! output := finalize_into used output_len in
      let! output := finish_block output first_octet_clear_mask remaining_output_len block_len in
      Ok (kept, n_blocks_generated, output, Nat.min block_len remaining_output_len)
  end.

(** ** KDFa *)

Record TcgTpm2KdfA := mk_kdf_a {
  a_hmac_instance : option HmacInst;
  a_block_len : nat;
  a_label : list Z;
  a_context_u : option (list Z);
  a_context_v : option (list Z);
  a_n_total_output_bits : Z;
  a_n_blocks_generated : Z;
}.

Definition kdf_a_new (hash_alg : TpmiAlgHash) (key label : list Z) (context_u context_v : option (list Z)) (n_total_output_bits : Z) : co TcgTpm2KdfA :=
  if negb (n_total_output_bits <? 2 ^ usize_bits) then Err RequestTooBig
  else
    let! '(hmac_instance, block_len) :=
      if negb (n_total_output_bits =? 0) then
        let! hmac_instance := hmac_instance_new hash_alg key in
        Ok (Some hmac_instance, digest_len hmac_instance)
      else Ok (None, Z.to_nat (hash_alg_digest_len hash_alg)) in
    Ok (mk_kdf_a hmac_instance block_len label context_u context_v n_total_output_bits 0).

Definition label_zero_sep (label : list Z) : option (list Z) :=
  match last label with
  | Some b => if negb (b =? 0) then Some [0] else None
  | None => None
  end.

Definition kdf_a_remaining (self : TcgTpm2KdfA) : co nat := remaining_output_len (a_n_total_output_bits self) (a_n_blocks_generated self) (a_block_len self).

Definition kdf_a_input (self : TcgTpm2KdfA) (i_buf : list Z) : list (list Z) :=
  let bits_buf := to_be_bytes 4 (a_n_total_output_bits self) in
  omap id [Some i_buf; Some (a_label self); label_zero_sep (a_label self); a_context_u self; a_context_v self; Some bits_buf].
Definition kdf_a_generate_block (self : TcgTpm2KdfA) (output_len : nat) : co (TcgTpm2KdfA * list Z * nat) :=
  let! '(hmac_instance, n_blocks_generated, output, len) :=
    tpm_generate_block (a_hmac_instance self) (a_block_len self) (a_n_total_output_bits self) (a_n_blocks_generated self) (kdf_a_input self) output_len in
  Ok (mk_kdf_a hmac_instance (a_block_len self) (a_label self) (a_context_u self) (a_context_v self) (a_n_total_output_bits self) n_blocks_generated, output, len).

#[export] Instance kdf_a : FixedBlockOutputKdf TcgTpm2KdfA := {
  block_len := a_block_len;
  max_remaining_len self := let! n := kdf_a_remaining self in Ok (Some n);
  generate_block := kdf_a_generate_block;
}.

(** ** KDFe *)

Record TcgTpm2KdfE := mk_kdf_e {
  e_hash_instance : option HashInst;
  e_block_len : nat;
  e_usage : list Z;
  e_z : list Z;
  e_party_u_info : list Z;
  e_party_v_info : list Z;
  e_n_total_output_bits : Z;
  e_n_blocks_generated : Z;
}.

Definition kdf_e_new (hash_alg : TpmiAlgHash) (z usage party_u_info party_v_info : list Z) (n_total_output_bits : Z) : co TcgTpm2KdfE :=
  if negb (n_total_output_bits <? 2 ^ usize_bits) then Err RequestTooBig
  else
    let! '(hash_instance, block_len) :=
      if negb (n_total_output_bits =? 0) then
        let! hash_instance := hash_instance_new hash_alg in
        Ok (Some hash_instance, digest_len hash_instance)
      else Ok (None, Z.to_nat (hash_alg_digest_len hash_alg)) in
    Ok (mk_kdf_e hash_instance block_len usage z party_u_info party_v_info n_total_output_bits 0).

Definition kdf_e_remaining (self : TcgTpm2KdfE) : co nat := remaining_output_len (e_n_total_output_bits self) (e_n_blocks_generated self) (e_block_len self).

Definition kdf_e_input (self : TcgTpm2KdfE) (counter_buf : list Z) : list (list Z) :=
  [counter_buf; e_z self; e_usage self; [0]; e_party_u_info self; e_party_v_info self].
Definition kdf_e_generate_block (self : TcgTpm2KdfE) (output_len : nat) : co (TcgTpm2KdfE * list Z * nat) :=
  let! '(hash_instance, n_blocks_generated, output, len) :=
    tpm_generate_block (e_hash_instance self) (e_block_len self) (e_n_total_output_bits self) (e_n_blocks_generated self) (kdf_e_input self) output_len in
  Ok (mk_kdf_e hash_instance (e_block_len self) (e_usage self) (e_z self) (e_party_u_info self) (e_party_v_info self) (e_n_total_output_bits self) n_blocks_generated, output, len).

#[export] Instance kdf_e : FixedBlockOutputKdf TcgTpm2KdfE := {
  block_len := e_block_len;
  max_remaining_len self := let! n := kdf_e_remaining self in Ok (Some n);
  generate_block := kdf_e_generate_block;
}.

(** ** MGF1 *)

Record RFC8017Mgf1 := mk_mgf1 {
  m_hash_instance : option HashInst;
  m_block_len : nat;
  m_counter : Z;
  m_counter_last : Z;
}.

Definition mgf1_new (hash_alg : TpmiAlgHash) (total_output_len : Z) (seed : list Z) : co RFC8017Mgf1 :=
  let block_len := hash_alg_digest_len hash_alg in
  let counter_last := Z.max 0 (total_output_len - 1) / block_len in
  if negb (counter_last <? 2 ^ 32) then Err RequestTooBig
  else
    let! hash_instance := hash_instance_new hash_alg in
    let! hash_instance := update hash_instance [seed] in
    Ok (mk_mgf1 (Some hash_instance) (Z.to_nat block_len) 0 counter_last).

Definition mgf1_max_remaining_len (self : RFC8017Mgf1) : co (option nat) :=
  let block_len := Z.of_nat (m_block_len self) in
  let! total_len := umul usize_bits (m_counter_last self) block_len in
  let total_len := Z.min (total_len + block_len) (2 ^ usize_bits - 1) in
  let! generated_len := umul usize_bits (m_counter self) block_len in
  let! n := usub usize_bits total_len generated_len in
  Ok (Some (Z.to_nat n)).

Definition mgf1_generate_block (self : RFC8017Mgf1) (output_len : nat) : co (RFC8017Mgf1 * list Z * nat) :=
  let! _ := debug_assert (output_len =? m_block_len self)%nat in
  match m_hash_instance self with
  | None => Err CryptoInternal
  | Some hash_instance =>
      let! '(hash_instance, kept) :=
        if negb (m_counter self =? m_counter_last self) then
          let! cloned := try_clone hash_instance in Ok (cloned, Some hash_instance)
        else Ok (hash_instance, None) in
      let counter := to_be_bytes 4 (m_counter self) in
      let counter' := wrapping_add 32 (m_counter self) 1 in
      let! hash_instance := update hash_instance [counter] in
      let! output := finalize_into hash_instance output_len in
      Ok (mk_mgf1 kept (m_block_len self) counter' (m_counter_last self), output, m_block_len self)
  end.

#[export] Instance mgf1 : FixedBlockOutputKdf RFC8017Mgf1 := {
  block_len := m_block_len;
  max_remaining_len := mgf1_max_remaining_len;
  generate_block := mgf1_generate_block;
}.

(** ** [Kdf::generate] and [Kdf::generate_and_xor] of KDFa and KDFe *)

Section Generate.
Context {CT : CtCmp.CtBackend} {KD : Type} {HK : FixedBlockOutputKdf KD} (remaining : KD → co nat).
Context {D : Type} {HD : IoSlicesIter D CryptoError}.

Definition generate (fuel : nat) (self : KD) (output : D) : co (list Z) :=
  let! len := total_len output in
  let! remaining_output_len := remaining self in
  if (remaining_output_len <? len)%nat then Err RequestTooBig
  else
    let! multiple := all_lengths_multiple_of output (block_len self) in
    let block_scratch_buf_len := if negb multiple then block_len self else 0%nat in
    if alloc_ok 0 block_scratch_buf_len then
      let! '(_, _, _, _, written) := generate_chunk_impl fuel self output (replicate block_scratch_buf_len 0) 0 in
      Ok written
    else Err CryptoMemoryAllocationFailure.

Definition generate_and_xor (fuel : nat) (self : KD) (output : D) : co (list Z) :=
  let! len := total_len output in
  let! remaining_output_len := remaining self in
  if (remaining_output_len <? len)%nat then Err RequestTooBig
  else if alloc_ok 0 (block_len self) then
    let! '(_, _, _, _, written) := generate_and_xor_chunk_impl fuel self output (replicate (block_len self) 0) 0 in
    Ok written
  else Err CryptoMemoryAllocationFailure.
End Generate.
Definition kdf_a_generate {D} `{IoSlicesIter D CryptoError} := generate (D:=D) kdf_a_remaining.
Definition kdf_a_generate_and_xor {D} {CT : CtCmp.CtBackend} `{IoSlicesIter D CryptoError} := generate_and_xor (D:=D) kdf_a_remaining.
Definition kdf_e_generate {D} `{IoSlicesIter D CryptoError} := generate (D:=D) kdf_e_remaining.
Definition kdf_e_generate_and_xor {D} {CT : CtCmp.CtBackend} `{IoSlicesIter D CryptoError} := generate_and_xor (D:=D) kdf_e_remaining.
End Ops.

(** ** The output in terms of the digests *)

(** The first [n] bytes of the blocks [f g], [f (g + 1)], and so on. *)
Definition stream_of (f : nat → list Z) (g n : nat) : list Z := take n (mjoin (f <$> seq g n)).

Section Stream.
Context (f : nat → list Z) (len : nat) (Hlen : (0 < len)%nat) (Hf : ∀ i, length (f i) = len).

Lemma blocks_length g m : length (mjoin (f <$> seq g m)) = (m * len)%nat.
Proof using Hf.
  clear Hlen. revert g. induction m as [|m IH]; intros g; [done|]. change (mjoin (f <$> seq g (S m))) with (f g ++ mjoin (f <$> seq (S g) m)). rewrite length_app, Hf, IH. lia.
Qed.

Lemma blocks_take g n m : (n ≤ m)%nat → take n (mjoin (f <$> seq g m)) = stream_of f g n.
Proof using Hf Hlen.
  intros Hn. unfold stream_of. replace m with (n + (m - n))%nat by lia. rewrite seq_app, fmap_app, join_app, take_app_le; [done|]. rewrite blocks_length. nia.
Qed.

Lemma stream_length g n : length (stream_of f g n) = n.
Proof using Hf Hlen. unfold stream_of. rewrite length_take, blocks_length. nia. Qed.

Lemma stream_cons g n : mjoin (f <$> seq g (S n)) = f g ++ mjoin (f <$> seq (S g) n).
Proof using. done. Qed.

(** The next block is the beginning of the stream. *)
Lemma stream_next g n :
  let k := Nat.min len n in
  take k (stream_of f g n) = take k (f g) ∧ drop k (stream_of f g n) = stream_of f (S g) (n - k).
Proof using Hf Hlen.
  intros k. destruct n as [|n]; [replace k with 0%nat by lia; done|]. unfold stream_of at 1 2. rewrite stream_cons. split.
  - rewrite take_take, Nat.min_l by lia. rewrite take_app_le by (rewrite Hf; lia). done.
  - replace (S n) with (k + (S n - k))%nat at 1 by lia. rewrite <-take_drop_commute. destruct (Nat.le_ge_cases len (S n)).
    + replace k with len by lia. rewrite drop_app_length' by (by rewrite Hf). apply blocks_take. lia.
    + replace (S n - k)%nat with 0%nat by lia. by rewrite !take_0.
Qed.

Lemma stream_bytes g n : (∀ i, Forall u8 (f i)) → Forall u8 (stream_of f g n).
Proof using.
  intros Hu. apply Forall_take. generalize n at 1. intros m. revert g. induction m as [|m IH]; intros g; [constructor|]. rewrite stream_cons. by apply Forall_app.
Qed.
End Stream.

(** The first byte of the output has only the bits asked for. *)
Definition mask_first (n_total_output_bits : Z) (l : list Z) : list Z :=
  match l with
  | [] => []
  | b :: l => Z.land b (if n_total_output_bits mod 8 =? 0 then 255 else Z.ones (n_total_output_bits mod 8)) :: l
  end.

(** The blocks of a function of the TPM: digests of a counter from one and the fixed
    input, with the first one masked. *)
Definition tpm_block (n_total_output_bits : Z) (digest : list Z → list Z) (fixed : list Z) (i : nat) : list Z :=
  (if (i =? 0)%nat then mask_first n_total_output_bits else id) (digest (to_be_bytes 4 (Z.of_nat i + 1) ++ fixed)).

Lemma mask_first_length bits l : length (mask_first bits l) = length l.
Proof. by destruct l. Qed.
Lemma mask_first_bytes bits l : Forall u8 l → Forall u8 (mask_first bits l).
Proof.
  intros H. destruct l as [|b l]; [done|]. apply Forall_cons in H as [Hb H]. constructor; [|done]. apply land_in_u; [lia|done|]. case_match; [lia|].
  pose proof (Z.mod_pos_bound bits 8 ltac:(lia)). rewrite Z.ones_equiv. pose proof (pow2_pos (bits mod 8)). lia.
Qed.

Lemma finish_block_Ok bits i (d : list Z) rem len :
  length d = len → (0 < len)%nat → Forall u8 d → 0 ≤ i →
  ∃ out, finish_block d (first_octet_clear_mask bits i) rem len = Ok out ∧ length out = len ∧ Forall u8 out ∧
    take (Nat.min len rem) out = take (Nat.min len rem) ((if i =? 0 then mask_first bits else id) d).
Proof.
  intros Hl Hlen Hu Hi. unfold finish_block. destruct d as [|b d]; [cbn in Hl; lia|]. rewrite (idx_Ok (b :: d) 0 b) by done. cbn [obind]. apply Forall_cons in Hu as [Hb Hu].
  rewrite set_idx_Ok by (cbn; lia). cbn [obind]. change (<[0%nat:=?x]> (b :: d)) with (x :: d).
  assert (Z.land b (unot 8 (first_octet_clear_mask bits i)) :: d = (if i =? 0 then mask_first bits else id) (b :: d)) as ->.
  { unfold first_octet_clear_mask. destruct (Z.eqb_spec i 0) as [_|_]; cbn [negb orb mask_first id]; [|f_equal; change (unot 8 0) with (Z.ones 8); by rewrite land_ones_mod, Z.mod_small].
    destruct (Z.eqb_spec (bits mod 8) 0) as [_|Hm]; [done|]. f_equal. pose proof (Z.mod_pos_bound bits 8 ltac:(lia)) as Hr. f_equal.
    assert (∃ r, bits mod 8 = r ∧ (r = 1 ∨ r = 2 ∨ r = 3 ∨ r = 4 ∨ r = 5 ∨ r = 6 ∨ r = 7)) as (r & -> & Hr') by (eexists; split; [done|lia]). naive_solver. }
  set (l := (if i =? 0 then _ else _) _). assert (length l = len ∧ Forall u8 l) as [Hll Hul].
  { unfold l. destruct (i =? 0); [|split; [done|by constructor]]. split; [by rewrite mask_first_length|apply mask_first_bytes; by constructor]. }
  destruct (Nat.ltb_spec rem len) as [Hlt|]; [|by exists l]. rewrite (proj2 (Nat.leb_le _ _)) by lia. eexists. split; [done|].
  split_and!; [rewrite length_app, length_take, length_replicate; lia|apply Forall_app; split; [by apply Forall_take|by apply Forall_replicate]|].
  rewrite Nat.min_r by lia. rewrite take_app_le by (rewrite length_take; lia). by rewrite take_take, Nat.min_id.
Qed.

Lemma hash_len_bounds alg : 0 < hash_alg_digest_len alg ≤ 64.
Proof. by destruct alg. Qed.

(** ** The functions of the TPM *)

Section Tpm.
Context {B : Build} {P : Platform} (HP : 16 ≤ usize_bits).
Context {Inst K : Type} {alg_of : K → TpmiAlgHash} {fails : CryptoError → Prop} {DB : DigestBackend Inst} {DL : DigestLaws (Inst:=Inst) K alg_of fails}.

(** The part of the state that both share; [fixed] is the input after the counter. *)
Record tpm_valid (instance : option Inst) (len : nat) (bits g : Z) : Prop := {
  tv_bits : 0 ≤ bits < 2 ^ 32;
  tv_usize : bits < 2 ^ usize_bits;
  tv_g : 0 ≤ g;
  tv_len : (0 < len ≤ 64)%nat;
  tv_gen : g * Z.of_nat len < total_output_len bits + Z.of_nat len;
  tv_instance :
    match instance with
    | Some h => (inst_state h).2 = [] ∧ Z.of_nat len = hash_alg_digest_len (alg_of (inst_state h).1) ∧ g * Z.of_nat len < total_output_len bits
    | None => total_output_len bits ≤ g * Z.of_nat len
    end;
}.
Definition tpm_stream (instance : option Inst) (len : nat) (bits g : Z) (fixed : list Z) : list Z :=
  match instance with
  | Some h => stream_of (tpm_block bits (digest_fn (inst_state h).1) fixed) (Z.to_nat g) (Z.to_nat (total_output_len bits - g * Z.of_nat len))
  | None => []
  end.

Lemma total_output_bounds bits : 0 ≤ bits → 0 ≤ total_output_len bits ∧ 8 * total_output_len bits ≤ bits + 7.
Proof. intros Hb. unfold total_output_len, div_ceil. pose proof (Z.div_pos (bits + 8 - 1) 8 ltac:(lia) ltac:(lia)). pose proof (Z.mul_div_le (bits + 8 - 1) 8 ltac:(lia)). lia. Qed.

Lemma tpm_range instance len bits g : tpm_valid instance len bits g → g * Z.of_nat len + Z.of_nat len < 2 ^ usize_bits ∧ total_output_len bits + Z.of_nat len < 2 ^ usize_bits ∧ g < 2 ^ 29 + 1.
Proof using HP.
  intros [Hb Hu Hg Hl Hgen _]. destruct (total_output_bounds bits ltac:(lia)) as [? Ht]. pose proof (Z.pow_le_mono_r 2 16 usize_bits ltac:(lia) HP). change (2 ^ 16) with 65536 in *.
  change (2 ^ 32) with 4294967296 in *. change (2 ^ 29) with 536870912. nia.
Qed.

Lemma remaining_Ok instance len bits g :
  tpm_valid instance len bits g → remaining_output_len bits g len = Ok (Z.to_nat (total_output_len bits - g * Z.of_nat len)).
Proof using HP. intros Hv. destruct (tpm_range _ _ _ _ Hv) as (? & _). unfold remaining_output_len. rewrite umul_Ok by lia. done. Qed.

Lemma tpm_block_length bits (k : K) fixed i : Z.of_nat (length (tpm_block bits (digest_fn k) fixed i)) = hash_alg_digest_len (alg_of k).
Proof. unfold tpm_block. destruct (i =? 0)%nat; cbn [id]; [rewrite mask_first_length|]; apply digest_fn_length. Qed.
Lemma tpm_block_bytes bits (k : K) fixed i : Forall u8 (tpm_block bits (digest_fn k) fixed i).
Proof. unfold tpm_block. pose proof (digest_fn_bytes k (to_be_bytes 4 (Z.of_nat i + 1) ++ fixed)). destruct (i =? 0)%nat; cbn [id]; [by apply mask_first_bytes|done]. Qed.

Lemma tpm_stream_length instance len bits g fixed :
  tpm_valid instance len bits g → length (tpm_stream instance len bits g fixed) = Z.to_nat (total_output_len bits - g * Z.of_nat len).
Proof.
  intros [_ _ _ Hl _ Hi]. unfold tpm_stream. destruct instance as [h|]; [|cbn; lia]. destruct Hi as (_ & Hd & _).
  apply stream_length with len; [lia|]. intros i. pose proof (tpm_block_length bits (inst_state h).1 fixed i). lia.
Qed.

Lemma tpm_generate_Ok instance len bits g (input : list Z → list (list Z)) fixed :
  tpm_valid instance len bits g → (∀ c, mjoin (input c) = c ++ fixed) → tpm_stream instance len bits g fixed ≠ [] →
  let s := tpm_stream instance len bits g fixed in let n := Nat.min len (length s) in
  returns fails (tpm_generate_block instance len bits g input len) (λ r,
    ∃ instance' block, r = (instance', g + 1, block, n) ∧ tpm_valid instance' len bits (g + 1) ∧ length block = len ∧ take n block = take n s ∧
      tpm_stream instance' len bits (g + 1) fixed = drop n s ∧ Forall u8 block).
Proof using HP.
  intros Hv Hin Hne s n. pose proof (tpm_stream_length _ _ _ _ fixed Hv) as Hls. destruct (tpm_range _ _ _ _ Hv) as (Hr1 & Hr2 & Hg29).
  unfold tpm_generate_block. rewrite Nat.eqb_refl. ostep. rewrite (remaining_Ok _ _ _ _ Hv). cbn [obind]. fold s in Hls. rewrite <-Hls.
  destruct Hv as [Hb Hu Hg Hl Hgen Hi]. destruct instance as [h|]; [|done]. destruct Hi as (Hst & Hd & Hlt).
  assert (returns fails (if (len <? length s)%nat then let! cloned := try_clone h in Ok (cloned, Some h) else Ok (h, None))
    (λ p, inst_state p.1 = inst_state h ∧ p.2 = if (len <? length s)%nat then Some h else None)) as Hcl.
  { destruct (len <? length s)%nat; [|left; by eexists]. destruct (clone_law h) as [(h' & -> & Hh')|(e & -> & He)]; cbn [obind]; [left; by eexists|right; eauto]. }
  destruct Hcl as [([used kept] & -> & Hused & Hkept)|(e & -> & He)]; cbn [obind]; [|right; eauto]. cbn [fst snd] in Hused, Hkept. subst kept.
  destruct (update_law used (input (to_be_bytes 4 (g + 1)))) as [(h2 & -> & Hh2)|(e & -> & He)]; cbn [obind]; [|right; eauto].
  rewrite Hused, Hst, Hin in Hh2. cbn [app] in Hh2.
  destruct (finalize_law h2 len) as [(d & -> & Hdg)|(e & -> & He)]; cbn [obind]; [| |right; eauto].
  { pose proof (digest_len_law h2) as Hdl. rewrite Hh2 in Hdl. cbn [fst] in Hdl. lia. }
  rewrite Hh2 in Hdg. cbn [fst snd] in Hdg. pose proof (digest_fn_length (inst_state h).1 (to_be_bytes 4 (g + 1) ++ fixed)) as Hdl. rewrite <-Hdg in Hdl.
  destruct (finish_block_Ok bits g d (length s) len) as (out & -> & Hlo & Huo & Hto); [lia|lia|rewrite Hdg; apply digest_fn_bytes|done|]. cbn [obind]. left. eexists. split; [done|].
  do 2 eexists. split; [done|]. set (f := tpm_block bits (digest_fn (inst_state h).1) fixed).
  assert (∀ i, length (f i) = len) as Hf by (intros i; pose proof (tpm_block_length bits (inst_state h).1 fixed i) as Hbl; fold f in Hbl; lia).
  destruct (stream_next f len ltac:(lia) Hf (Z.to_nat g) (length s)) as [Ht Hdr]. fold n in Ht, Hdr.
  assert (stream_of f (Z.to_nat g) (length s) = s) as Hs by (unfold s at 2; cbn [tpm_stream]; by rewrite Hls). rewrite Hs in Ht, Hdr.
  assert (length s = Z.to_nat (total_output_len bits - g * Z.of_nat len)) as Hls' by done. clear Hls.
  split_and!; [|done| | |done].
  - split; try done; [lia|lia|]. destruct (Nat.ltb_spec len (length s)); [|lia]. split_and!; [done|done|lia].
  - fold n in Hto. rewrite Hto, Ht. unfold f, tpm_block. rewrite Z2Nat.id, <-Hdg by lia. f_equal.
    destruct (Z.eqb_spec g 0) as [->|]; [done|]. rewrite (proj2 (Nat.eqb_neq _ _)) by lia. done.
  - rewrite Hdr. unfold tpm_stream. destruct (Nat.ltb_spec len (length s)).
    + fold f. f_equal; lia.
    + replace (length s - n)%nat with 0%nat by lia. done.
Qed.
End Tpm.

(** What the functions are specified to compute, in terms of the digests. *)
Section Spec.
Context `{CL : CryptoLaws}.

Definition kdf_a_fixed (label : list Z) (context_u context_v : option (list Z)) (bits : Z) : list Z :=
  label ++ default [] (label_zero_sep label) ++ default [] context_u ++ default [] context_v ++ to_be_bytes 4 bits.
Definition kdf_a_spec (alg : TpmiAlgHash) (key label : list Z) (context_u context_v : option (list Z)) (bits : Z) : list Z :=
  stream_of (tpm_block bits (digest_fn (DigestLaws:=hmac_laws) (alg, key)) (kdf_a_fixed label context_u context_v bits)) 0 (Z.to_nat (total_output_len bits)).

Definition kdf_e_fixed (z usage party_u_info party_v_info : list Z) : list Z := z ++ usage ++ [0] ++ party_u_info ++ party_v_info.
Definition kdf_e_spec (alg : TpmiAlgHash) (z usage party_u_info party_v_info : list Z) (bits : Z) : list Z :=
  stream_of (tpm_block bits (digest_fn (DigestLaws:=hash_laws) alg) (kdf_e_fixed z usage party_u_info party_v_info)) 0 (Z.to_nat (total_output_len bits)).

(** MGF1 hashes the seed and a counter from zero; it is not cut to the length. *)
Definition mgf1_block (alg : TpmiAlgHash) (seed : list Z) (i : nat) : list Z := digest_fn (DigestLaws:=hash_laws) alg (seed ++ to_be_bytes 4 (Z.of_nat i)).
Definition mgf1_spec (alg : TpmiAlgHash) (seed : list Z) (len : Z) : list Z :=
  mjoin (mgf1_block alg seed <$> seq 0 (Z.to_nat (Z.max 0 (len - 1) / hash_alg_digest_len alg) + 1)).
End Spec.

Section Instances.
Context {B : Build} {P : Platform} (HP : 16 ≤ usize_bits) {Alloc : Allocator} {CB : CryptoBackend} {CL : CryptoLaws}.

Definition kdf_a_valid (s : TcgTpm2KdfA) : Prop := tpm_valid (DL:=hmac_laws) (a_hmac_instance s) (a_block_len s) (a_n_total_output_bits s) (a_n_blocks_generated s).
Definition kdf_a_stream (s : TcgTpm2KdfA) : list Z :=
  tpm_stream (DL:=hmac_laws) (a_hmac_instance s) (a_block_len s) (a_n_total_output_bits s) (a_n_blocks_generated s)
    (kdf_a_fixed (a_label s) (a_context_u s) (a_context_v s) (a_n_total_output_bits s)).
Definition kdf_e_valid (s : TcgTpm2KdfE) : Prop := tpm_valid (DL:=hash_laws) (e_hash_instance s) (e_block_len s) (e_n_total_output_bits s) (e_n_blocks_generated s).
Definition kdf_e_stream (s : TcgTpm2KdfE) : list Z :=
  tpm_stream (DL:=hash_laws) (e_hash_instance s) (e_block_len s) (e_n_total_output_bits s) (e_n_blocks_generated s)
    (kdf_e_fixed (e_z s) (e_usage s) (e_party_u_info s) (e_party_v_info s)).

Lemma kdf_a_input_eq s c : mjoin (kdf_a_input s c) = c ++ kdf_a_fixed (a_label s) (a_context_u s) (a_context_v s) (a_n_total_output_bits s).
Proof. unfold kdf_a_input, kdf_a_fixed. destruct (label_zero_sep (a_label s)), (a_context_u s), (a_context_v s); cbn; by rewrite ?app_nil_r. Qed.
Lemma kdf_e_input_eq s c : mjoin (kdf_e_input s c) = c ++ kdf_e_fixed (e_z s) (e_usage s) (e_party_u_info s) (e_party_v_info s).
Proof. unfold kdf_e_input, kdf_e_fixed. cbn. by rewrite ?app_nil_r. Qed.

Lemma tpm_stream_bytes {Inst K} {alg_of} {fails} {DB : DigestBackend Inst} {DL : DigestLaws (Inst:=Inst) K alg_of fails} instance len bits g fixed :
  Forall u8 (tpm_stream (DL:=DL) instance len bits g fixed).
Proof. unfold tpm_stream. destruct instance; [|constructor]. apply stream_bytes. intros. apply tpm_block_bytes. Qed.

Definition kdf_a_laws : KdfLaws TcgTpm2KdfA.
Proof using HP CL.
  refine {| kdf_valid := kdf_a_valid; kdf_stream := kdf_a_stream; kdf_fails := backend_fails |}.
  - intros s Hs. apply (tv_len _ _ _ _ Hs).
  - intros s _. apply tpm_stream_bytes.
  - intros s Hs. unfold kdf_a_stream. rewrite tpm_stream_length by exact Hs. cbn [block_len kdf_a]. pose proof (tpm_range HP _ _ _ _ Hs). destruct Hs as [? _ ? _ _ _].
    destruct (total_output_bounds (a_n_total_output_bits s)); nia.
  - intros s Hs. cbn [max_remaining_len kdf_a]. unfold kdf_a_remaining. rewrite (remaining_Ok HP _ _ _ _ Hs). cbn [obind]. unfold kdf_a_stream. by rewrite tpm_stream_length by exact Hs.
  - intros s Hs Hne n. cbn [generate_block block_len kdf_a] in *. unfold kdf_a_generate_block.
    destruct (tpm_generate_Ok HP _ _ _ _ (kdf_a_input s) _ Hs (kdf_a_input_eq s) Hne) as [(r & -> & i' & block & -> & Hv & Hl & Ht & Hd & Hu)|(e & -> & He)]; cbn [obind]; [left|right; eauto].
    do 2 eexists. split; [done|]. split_and!; done.
Defined.

Definition kdf_e_laws : KdfLaws TcgTpm2KdfE.
Proof using HP CL.
  refine {| kdf_valid := kdf_e_valid; kdf_stream := kdf_e_stream; kdf_fails := backend_fails |}.
  - intros s Hs. apply (tv_len _ _ _ _ Hs).
  - intros s _. apply tpm_stream_bytes.
  - intros s Hs. unfold kdf_e_stream. rewrite tpm_stream_length by exact Hs. cbn [block_len kdf_e]. pose proof (tpm_range HP _ _ _ _ Hs). destruct Hs as [? _ ? _ _ _].
    destruct (total_output_bounds (e_n_total_output_bits s)); nia.
  - intros s Hs. cbn [max_remaining_len kdf_e]. unfold kdf_e_remaining. rewrite (remaining_Ok HP _ _ _ _ Hs). cbn [obind]. unfold kdf_e_stream. by rewrite tpm_stream_length by exact Hs.
  - intros s Hs Hne n. cbn [generate_block block_len kdf_e] in *. unfold kdf_e_generate_block.
    destruct (tpm_generate_Ok HP _ _ _ _ (kdf_e_input s) _ Hs (kdf_e_input_eq s) Hne) as [(r & -> & i' & block & -> & Hv & Hl & Ht & Hd & Hu)|(e & -> & He)]; cbn [obind]; [left|right; eauto].
    do 2 eexists. split; [done|]. split_and!; done.
Defined.

(** *** MGF1 *)

Record mgf1_valid (s : RFC8017Mgf1) : Prop := {
  mv_last : 0 ≤ m_counter_last s < 2 ^ 32 - 1;
  mv_len : (0 < m_block_len s ≤ 64)%nat;
  mv_range : (m_counter_last s + 3) * Z.of_nat (m_block_len s) < 2 ^ usize_bits;
  mv_instance :
    match m_hash_instance s with
    | Some h => Z.of_nat (m_block_len s) = hash_alg_digest_len (inst_state (DigestLaws:=hash_laws) h).1 ∧ 0 ≤ m_counter s ≤ m_counter_last s
    | None => m_counter s = m_counter_last s + 1
    end;
}.
Definition mgf1_stream (s : RFC8017Mgf1) : list Z :=
  match m_hash_instance s with
  | Some h =>
      let '(alg, seed) := inst_state (DigestLaws:=hash_laws) h in
      mjoin (mgf1_block alg seed <$> seq (Z.to_nat (m_counter s)) (Z.to_nat (m_counter_last s + 1 - m_counter s)))
  | None => []
  end.

Lemma mgf1_block_length alg seed i : Z.of_nat (length (mgf1_block alg seed i)) = hash_alg_digest_len alg.
Proof. apply (digest_fn_length (DigestLaws:=hash_laws)). Qed.
Lemma mgf1_stream_length s : mgf1_valid s → Z.of_nat (length (mgf1_stream s)) = (m_counter_last s + 1 - m_counter s) * Z.of_nat (m_block_len s).
Proof.
  intros [Hl Hlen _ Hi]. unfold mgf1_stream. destruct (m_hash_instance s) as [h|]; [|rewrite Hi; cbn; lia]. destruct (inst_state h) as [alg seed]. destruct Hi as [Hd Hc]. cbn [fst] in Hd.
  rewrite blocks_length with (len := m_block_len s); [nia|]. intros i. pose proof (mgf1_block_length alg seed i). lia.
Qed.

Definition mgf1_laws : KdfLaws RFC8017Mgf1.
Proof using HP CL.
  refine {| kdf_valid := mgf1_valid; kdf_stream := mgf1_stream; kdf_fails := backend_fails |}.
  - intros s Hs. apply (mv_len _ Hs).
  - intros s _. unfold mgf1_stream. destruct (m_hash_instance s) as [h|]; [|constructor]. destruct (inst_state h) as [alg seed].
    generalize (Z.to_nat (m_counter s)) as g. induction (Z.to_nat _) as [|m IH]; intros g; [constructor|]. rewrite stream_cons. apply Forall_app. split; [apply digest_fn_bytes|apply IH].
  - intros s Hs. rewrite Nat2Z.inj_add, mgf1_stream_length by done. cbn [block_len mgf1]. destruct Hs as [Hl Hlen Hr Hi]. destruct (m_hash_instance s); nia.
  - intros s Hs. cbn [max_remaining_len mgf1]. unfold mgf1_max_remaining_len. pose proof (mgf1_stream_length s Hs) as Hls. destruct Hs as [Hl Hlen Hr Hi].
    assert (0 ≤ m_counter s ≤ m_counter_last s + 1) as Hc by (destruct (m_hash_instance s); lia).
    rewrite umul_Ok by nia. cbn [obind]. rewrite umul_Ok by nia. cbn [obind]. rewrite Z.min_l by nia. rewrite usub_Ok by nia. cbn [obind]. do 3 f_equal. nia.
  - intros s Hs Hne n. pose proof (mgf1_stream_length s Hs) as Hls. cbn [generate_block block_len mgf1] in *. destruct Hs as [Hl Hlen Hr Hi]. unfold mgf1_generate_block. rewrite Nat.eqb_refl. ostep.
    unfold mgf1_stream in *. destruct (m_hash_instance s) as [h|] eqn:Hinst; [|done]. destruct (inst_state h) as [alg seed] eqn:Hst. cbn [fst] in Hi. destruct Hi as [Hd Hc].
    assert (returns backend_fails (if negb (m_counter s =? m_counter_last s) then let! cloned := try_clone h in Ok (cloned, Some h) else Ok (h, None))
      (λ p, inst_state (DigestLaws:=hash_laws) p.1 = (alg, seed) ∧ p.2 = if negb (m_counter s =? m_counter_last s) then Some h else None)) as Hcl.
    { destruct (negb _); [|left; by eexists]. destruct (clone_law (DigestLaws:=hash_laws) h) as [(h' & -> & Hh')|(e & -> & He)]; cbn [obind]; [left; eexists; split; [done|]; split; [by etrans|done]|right; eauto]. }
    destruct Hcl as [([used kept] & -> & Hused & Hkept)|(e & -> & He)]; cbn [obind]; [|right; eauto]. cbn [fst snd] in Hused, Hkept. subst kept.
    destruct (update_law (DigestLaws:=hash_laws) used [to_be_bytes 4 (m_counter s)]) as [(h2 & -> & Hh2)|(e & -> & He)]; cbn [obind]; [|right; eauto]. rewrite Hused in Hh2. cbn [fst snd] in Hh2.
    assert (m_block_len s = digest_len h2) as Hdl by (pose proof (digest_len_law (DigestLaws:=hash_laws) h2) as Hdl; rewrite Hh2 in Hdl; cbn [fst] in Hdl; unfold id in Hdl; lia).
    destruct (finalize_law (DigestLaws:=hash_laws) h2 _ Hdl) as [(d & -> & Hdg)|(e & -> & He)]; cbn [obind]; [|right; eauto]. rewrite Hh2 in Hdg. cbn [fst snd] in Hdg.
    assert (d = mgf1_block alg seed (Z.to_nat (m_counter s))) as Hblk by (rewrite Hdg; unfold mgf1_block; rewrite Z2Nat.id by lia; do 2 f_equal; apply app_nil_r).
    pose proof (mgf1_block_length alg seed (Z.to_nat (m_counter s))) as Hbl. rewrite <-Hblk in Hbl. assert (length d = m_block_len s) as Hdlen by lia.
    assert (n = m_block_len s) as Hn by (unfold n; cbv zeta in Hls; nia).
    left. exists (mk_mgf1 (if negb (m_counter s =? m_counter_last s) then Some h else None) (m_block_len s) (wrapping_add 32 (m_counter s) 1) (m_counter_last s)), d.
    assert (wrapping_add 32 (m_counter s) 1 = m_counter s + 1) as Hw by (unfold wrapping_add; apply wrap_small; unfold in_u; lia).
    rewrite Hw, Hn in *. replace (Z.to_nat (m_counter_last s + 1 - m_counter s)) with (S (Z.to_nat (m_counter_last s - m_counter s))) by lia. rewrite stream_cons, <-Hblk.
    split_and!; [done| |done|done|by rewrite take_ge, take_app_length' by lia| |rewrite Hblk; apply digest_fn_bytes].
    + split; cbn [m_counter m_counter_last m_block_len m_hash_instance]; [done|done|done|]. destruct (Z.eqb_spec (m_counter s) (m_counter_last s)); cbn [negb]; [lia|]. rewrite Hst. split; [done|lia].
    + rewrite drop_app_length' by done. cbn [m_hash_instance m_counter m_counter_last]. destruct (Z.eqb_spec (m_counter s) (m_counter_last s)) as [He|]; cbn [negb].
      * replace (Z.to_nat (m_counter_last s - m_counter s)) with 0%nat by lia. done.
      * rewrite Hst. f_equal. f_equal. f_equal; lia.
Defined.

(** *** New instances *)

Lemma kdf_a_new_Ok alg key label u v bits :
  0 ≤ bits < 2 ^ 32 → bits < 2 ^ usize_bits → returns backend_fails (kdf_a_new alg key label u v bits) (λ s, kdf_a_valid s ∧ kdf_a_stream s = kdf_a_spec alg key label u v bits ∧ a_block_len s = Z.to_nat (hash_alg_digest_len alg)).
Proof.
  intros Hb Hu. unfold kdf_a_new. rewrite (proj2 (Z.ltb_lt _ _)) by done. cbn [negb]. pose proof (hash_len_bounds alg) as Hlen. destruct (total_output_bounds bits ltac:(lia)) as [Ht0 Ht].
  destruct (Z.eqb_spec bits 0) as [->|Hnz]; cbn [negb obind].
  - left. eexists. split; [done|]. split_and!; [|done|done]. split; cbn; (done || lia).
  - destruct (hmac_instance_new_law alg key) as [(h & -> & Hh)|(e & -> & He)]; cbn [obind]; [|right; eauto]. pose proof (digest_len_law (DigestLaws:=hmac_laws) h) as Hd. rewrite Hh in Hd. cbn [fst] in Hd.
    left. eexists. split; [done|]. split_and!.
    + assert (0 < total_output_len bits) by (unfold total_output_len, div_ceil in *; apply Z.div_str_pos; lia). split; cbn [a_hmac_instance a_block_len a_n_total_output_bits a_n_blocks_generated]; try lia. rewrite Hh. cbn [fst snd]. split; [done|lia].
    + unfold kdf_a_stream, kdf_a_spec. cbn [a_hmac_instance a_block_len a_n_total_output_bits a_n_blocks_generated tpm_stream a_label a_context_u a_context_v]. rewrite Hh. cbn [fst]. f_equal. lia.
    + cbn [a_block_len]. lia.
Qed.

Lemma kdf_e_new_Ok alg z usage u v bits :
  0 ≤ bits < 2 ^ 32 → bits < 2 ^ usize_bits → returns backend_fails (kdf_e_new alg z usage u v bits) (λ s, kdf_e_valid s ∧ kdf_e_stream s = kdf_e_spec alg z usage u v bits ∧ e_block_len s = Z.to_nat (hash_alg_digest_len alg)).
Proof.
  intros Hb Hu. unfold kdf_e_new. rewrite (proj2 (Z.ltb_lt _ _)) by done. cbn [negb]. pose proof (hash_len_bounds alg) as Hlen. destruct (total_output_bounds bits ltac:(lia)) as [Ht0 Ht].
  destruct (Z.eqb_spec bits 0) as [->|Hnz]; cbn [negb obind].
  - left. eexists. split; [done|]. split_and!; [|done|done]. split; cbn; (done || lia).
  - destruct (hash_instance_new_law alg) as [(h & -> & Hh)|(e & -> & He)]; cbn [obind]; [|right; eauto]. pose proof (digest_len_law (DigestLaws:=hash_laws) h) as Hd. rewrite Hh in Hd. cbn [fst] in Hd. unfold id in Hd.
    left. eexists. split; [done|]. split_and!.
    + assert (0 < total_output_len bits) by (unfold total_output_len, div_ceil in *; apply Z.div_str_pos; lia). split; cbn [e_hash_instance e_block_len e_n_total_output_bits e_n_blocks_generated]; try lia. rewrite Hh. cbn [fst snd]. split; [done|unfold id; lia].
    + unfold kdf_e_stream, kdf_e_spec. cbn [e_hash_instance e_block_len e_n_total_output_bits e_n_blocks_generated tpm_stream e_z e_usage e_party_u_info e_party_v_info]. rewrite Hh. cbn [fst]. f_equal. lia.
    + cbn [e_block_len]. lia.
Qed.

Lemma mgf1_new_Ok alg len seed :
  0 ≤ len → len + 256 < 2 ^ usize_bits → len ≤ 20 * (2 ^ 32 - 1) →
  returns backend_fails (mgf1_new alg len seed) (λ s, mgf1_valid s ∧ mgf1_stream s = mgf1_spec alg seed len ∧ m_block_len s = Z.to_nat (hash_alg_digest_len alg)).
Proof.
  intros Hl Hu Hmax. unfold mgf1_new. set (c := Z.max 0 (len - 1) / hash_alg_digest_len alg). pose proof (hash_len_bounds alg) as Hb.
  assert (20 ≤ hash_alg_digest_len alg) as H20 by (by destruct alg).
  assert (0 ≤ c ∧ c * hash_alg_digest_len alg ≤ Z.max 0 (len - 1)) as [Hc0 Hc] by (split; [apply Z.div_pos; lia|rewrite Z.mul_comm; apply Z.mul_div_le; lia]).
  rewrite (proj2 (Z.ltb_lt _ _)) by nia. cbn [negb]. destruct (hash_instance_new_law alg) as [(h & -> & Hh)|(e & -> & He)]; cbn [obind]; [|right; eauto].
  destruct (update_law (DigestLaws:=hash_laws) h [seed]) as [(h2 & -> & Hh2)|(e & -> & He)]; cbn [obind]; [|right; eauto]. rewrite Hh in Hh2. cbn [fst snd] in Hh2.
  left. eexists. split; [done|]. cbn [m_block_len]. split_and!; [| |done].
  - split; cbn [m_hash_instance m_block_len m_counter m_counter_last]; [nia|lia|nia|]. rewrite Hh2. cbn [fst]. split; lia.
  - unfold mgf1_stream, mgf1_spec. cbn [m_hash_instance m_counter m_counter_last]. rewrite Hh2. cbn [app mjoin list_join]. rewrite app_nil_r. fold c. f_equal. f_equal. f_equal. lia.
Qed.
End Instances.

(** ** Requests to the functions *)

Section Requests.
Context {B : Build} {P : Platform} (HP : 16 ≤ usize_bits) {Alloc : Allocator} {CT : CtCmp.CtBackend} {CB : CryptoBackend} {CL : CryptoLaws}.
Context {D : Type} {HD : IoSlicesIter D CryptoError} {HL : IoSlicesIterLaws D CryptoError}.

(** A new generator of [len] byte blocks, and requests to it. *)
Definition requests_to {KD} {HK : FixedBlockOutputKdf KD} (new : co KD) (fuel : nat) (reqs : list (request D)) : co (list (list Z)) :=
  let! kdf := new in let! kdf := buffered_new kdf in run_requests fuel kdf reqs.

(** The bytes of the output in order, a refusal if there are not enough, or an error of
    the backend. *)
Definition served (fails : CryptoError → Prop) (stream : list Z) (reqs : list (request D)) (r : co (list (list Z))) : Prop :=
  r = match serve stream reqs with Some out => Ok out | None => Err RequestTooBig end ∨ ∃ e, r = Err e ∧ fails e.

Lemma requests_served {KD} {HK : FixedBlockOutputKdf KD} (KL : KdfLaws KD) (fails : CryptoError → Prop) new (stream : list Z) len fuel reqs :
  (∀ e, kdf_fails e → fails e) →
  returns fails new (λ s, kdf_valid s ∧ kdf_stream s = stream ∧ block_len s = len) → alloc_ok 0 len = true → requests_fit (KD:=KD) (D:=D) →
  (∀ r, r ∈ reqs → valid (request_output r) ∧ Forall u8 (content (request_output r)) ∧ (length (content (request_output r)) < fuel)%nat) →
  served fails stream reqs (requests_to new fuel reqs).
Proof.
  intros Hfails Hnew Ha Hfit Hreqs. unfold served, requests_to. destruct Hnew as [(s & -> & Hv & <- & <-)|(e & -> & He)]; cbn [obind]; [|right; eauto].
  destruct (buffered_new_Ok s Hv Ha) as (b & -> & Hb). cbn [obind]. destruct (run_requests_spec fuel reqs b _ Hb Hfit Hreqs) as [Hr|(e & He & Hf)]; [left|right; eauto].
  destruct (serve _ reqs); done.
Qed.

(** One request for all bytes of a single slice. *)
Lemma generate_Ok {KD} {HK : FixedBlockOutputKdf KD} (KL : KdfLaws KD) (remaining : KD → co nat) s (old : list Z) :
  kdf_valid s → remaining s = Ok (length (kdf_stream s)) → (∀ n, (n ≤ block_len s)%nat → alloc_ok 0 n = true) →
  let r := generate remaining (S (length old)) s (singleton_new old) in
  if (length (kdf_stream s) <? length old)%nat then r = Err RequestTooBig
  else r = Ok (take (length old) (kdf_stream s)) ∨ ∃ e, r = Err e ∧ kdf_fails e.
Proof.
  intros Hv Hrem Ha r. unfold r, generate. rewrite (total_len_spec (HL:=singleton_laws) (singleton_new old) I). cbn [obind content singleton_laws singleton_new slice default id]. rewrite Hrem. cbn [obind].
  destruct (Nat.ltb_spec (length (kdf_stream s)) (length old)) as [|Hle]; [done|]. rewrite (singleton_lengths (Some old)). cbn [obind default id]. pose proof (kdf_block_len s Hv) as Hpos.
  rewrite (proj2 (Nat.eqb_neq (block_len s) 0)) by lia. set (n := if negb _ then block_len s else 0%nat). rewrite Ha by (unfold n; destruct (negb _); lia).
  pose proof (generate_chunk_impl_spec (D:=SingletonIoSlice) (HL:=singleton_laws) (block_len s) (S (length old)) s (singleton_new old) (replicate n 0) 0 Hv eq_refl I) as Hg.
  unfold request_result in Hg. cbn [content singleton_laws singleton_new slice default id] in Hg.
  assert (avail s (replicate n 0) 0 = kdf_stream s) as Hav by (unfold avail; rewrite length_replicate, Nat.sub_0_r, drop_ge by (by rewrite length_replicate); done).
  rewrite Hav, (proj2 (Nat.ltb_ge _ _)) in Hg by done. destruct Hg as [(s' & a & buf & rm & -> & _)|(e & -> & He)]; [right; left; exact singleton_contiguous|lia|lia| |by left|right; cbn; eauto].
  unfold n. destruct (Nat.eqb_spec (length old mod block_len s) 0); cbn [negb]; [right; split; [done|]; split; [exact singleton_contiguous|done]|left; apply length_replicate].
Qed.
End Requests.


(** *** An example *)

Definition example_digest {K} (alg_of : K → TpmiAlgHash) (key_of : K → list Z) (k : K) (m : list Z) : list Z := AuthTreeDigests.checksum (alg_of k) (key_of k) m.
Definition example_ops {K} (alg_of : K → TpmiAlgHash) (key_of : K → list Z) : DigestBackend (K * list Z) := {|
  try_clone h := Ok h;
  update h bs := Ok (h.1, h.2 ++ mjoin bs);
  finalize_into h n := Ok (example_digest alg_of key_of h.1 h.2);
  digest_len h := Z.to_nat (hash_alg_digest_len (alg_of h.1));
|}.
Definition example_crypto : CryptoBackend := {|
  HashInst := TpmiAlgHash * list Z;
  HmacInst := TpmiAlgHash * list Z * list Z;
  hash_ops := example_ops id (λ _, []);
  hmac_ops := example_ops fst snd;
  hash_instance_new alg := Ok (alg, []);
  hmac_instance_new alg key := Ok (alg, key, []);
|}.
Definition example_digest_laws {K} (alg_of : K → TpmiAlgHash) (key_of : K → list Z) : DigestLaws (Inst:=K * list Z) (H:=example_ops alg_of key_of) K alg_of (λ _, False).
Proof.
  unshelve refine (@Build_DigestLaws _ (example_ops alg_of key_of) K alg_of _ id (example_digest alg_of key_of) _ _ _ _ _ _).
  - intros h. left. by exists h.
  - intros h bs. left. by eexists.
  - intros h n _. left. by eexists.
  - intros h. cbn. pose proof (hash_len_bounds (alg_of h.1)). lia.
  - intros k m. apply AuthTreeDigests.checksum_length.
  - intros k m. apply to_le_bytes_u8.
Defined.
#[local] Instance example_crypto_laws : CryptoLaws (CB:=example_crypto).
Proof.
  unshelve refine (@Build_CryptoLaws example_crypto (λ _, False) (example_digest_laws id (λ _, [])) (example_digest_laws fst snd) _ _).
  - intros alg. left. by eexists.
  - intros alg key. left. by eexists.
Defined.

Definition example_ct : CtCmp.CtBackend := {| CtCmp.ct_eq_l_l := Z.eqb; CtCmp.limb_bytes := 8; CtCmp.align_heads _ _ := (1, 1)%nat |}.
Definition example_requests : list (request SingletonIoSlice) :=
  [Generate (singleton_new (replicate 3 0)); GenerateAndXor (singleton_new (replicate 18 255)); Generate (singleton_new (replicate 5 0))].



End KdfTcg.
