(* ===== verification/MurmurHash3.v ===== *)
(** * MurmurHash3 (utils-common/src/murmurhash3.rs)

    The 32 bit variant of the hash function, computed incrementally. *)

From Stdlib Require Import String Ascii.
From S2P Require Import Prelude.

Module MurmurHash3.

Record MurmurHash3_32 := mk_murmur {
  h : Z;
  data_tail : list Z;
  data_tail_len : nat;
  total_len : Z;
}.

Definition rotate_left (w x n : Z) : Z := Z.lor (wrap w (Z.shiftl x n)) (Z.shiftr x (w - n)).
Definition wrapping_mul (w a b : Z) : Z := wrap w (a * b).

Definition diffuse_key_word (k : Z) : Z :=
  let k := wrapping_mul 32 k 0xcc9e2d51 in
  let k := rotate_left 32 k 15 in
  wrapping_mul 32 k 0x1b873593.
Definition mix_key_body_word (h k : Z) : Z :=
  let h := Z.lxor h (diffuse_key_word k) in
  let h := rotate_left 32 h 13 in
  wrapping_add 32 (wrapping_mul 32 5 h) 0xe6546b64.
Definition mix_key_tail_word (h k : Z) : Z := Z.lxor h (diffuse_key_word k).

Definition new (seed : Z) : MurmurHash3_32 := mk_murmur seed (replicate 4 0) 0 0.

(** [dst[begin..begin + src.len()].copy_from_slice(src)]. *)
Definition copy_at {E} (dst : list Z) (begin : nat) (src : list Z) : outcome E (list Z) :=
  if (begin + length src <=? length dst)%nat then Ok (take begin dst ++ src ++ drop (begin + length src) dst) else Panic.

(** [as_chunks::<4>()]: the words, as little endian numbers, and the rest. *)
Fixpoint chunks (n : nat) (data : list Z) : list Z * list Z :=
  match n with
  | O => ([], data)
  | S n =>
      if (4 <=? length data)%nat then
        let '(ws, rest) := chunks n (drop 4 data) in (from_le_bytes (take 4 data) :: ws, rest)
      else ([], data)
  end.

Section Ops.
Context {B : Build} {usize_bits : Z} {E : Type}.
Implicit Types self : MurmurHash3_32.

(** The part of [update] after the tail of the data before has been completed. *)
Definition update_body self (data : list Z) : outcome E MurmurHash3_32 :=
  let '(data_words, data_remainder) := chunks (length data) data in
  let! '(tail, tail_len) :=
    match data_remainder with
    | [] => Ok (data_tail self, data_tail_len self)
    | _ => let! t := copy_at (data_tail self) 0 data_remainder in Ok (t, length data_remainder)
    end in
  Ok (mk_murmur (foldl mix_key_body_word (h self) data_words) tail tail_len (total_len self)).

Definition update self (data : list Z) : outcome E MurmurHash3_32 :=
  let total_len := wrapping_add usize_bits (total_len self) (Z.of_nat (length data)) in
  if negb (data_tail_len self =? 0)%nat then
    let remaining_len := data_tail_len self in
    let! room := nsub (length (data_tail self)) remaining_len in
    let remaining_fillup_len := Nat.min room (length data) in
    let data_head := take remaining_fillup_len data in
    let data := drop remaining_fillup_len data in
    let! tail := copy_at (data_tail self) remaining_len data_head in
    let! tail_len := uadd 8 (Z.of_nat (data_tail_len self)) (Z.of_nat remaining_fillup_len) in
    if (Z.to_nat tail_len =? length tail)%nat then
      let k := from_le_bytes tail in
      update_body (mk_murmur (mix_key_body_word (h self) k) (replicate (length tail) 0) 0 total_len) data
    else Ok (mk_murmur (h self) tail (Z.to_nat tail_len) total_len)
  else update_body (mk_murmur (h self) (data_tail self) (data_tail_len self) total_len) data.

Definition finalize self : outcome E Z :=
  let h :=
    if negb (data_tail_len self =? 0)%nat then mix_key_tail_word (h self) (from_le_bytes (data_tail self)) else h self in
  let h := Z.lxor h (wrap 32 (total_len self)) in
  let! s := ushr 32 h 16 in
  let h := Z.lxor h s in
  let h := wrapping_mul 32 h 0x85ebca6b in
  let! s := ushr 32 h 13 in
  let h := Z.lxor h s in
  let h := wrapping_mul 32 h 0xc2b2ae35 in
  let! s := ushr 32 h 16 in
  Ok (Z.lxor h s).

Fixpoint updates self (datas : list (list Z)) : outcome E MurmurHash3_32 :=
  match datas with
  | [] => Ok self
  | data :: datas => let! self := update self data in updates self datas
  end.
End Ops.

(** ** The hash function in one step *)

(** Austin Appleby's definition: the words of the data, then the rest padded with
    zeros, then the finalization with the length. *)
Definition fmix (h : Z) : Z :=
  let h := wrap 32 (Z.lxor h (Z.shiftr h 16) * 0x85ebca6b) in
  let h := wrap 32 (Z.lxor h (Z.shiftr h 13) * 0xc2b2ae35) in
  Z.lxor h (Z.shiftr h 16).
Definition murmur3_32 (seed : Z) (data : list Z) : Z :=
  let '(words, rest) := chunks (length data) data in
  let h := foldl mix_key_body_word seed words in
  let h := match rest with [] => h | _ => mix_key_tail_word h (from_le_bytes rest) end in
  fmix (Z.lxor h (Z.of_nat (length data) mod 2 ^ 32)).

Section Correct.
Context {B : Build} {usize_bits : Z} (HP : 32 ≤ usize_bits) {E : Type}.
Implicit Types self : MurmurHash3_32.

Lemma chunks_fuel n : ∀ m data, (length data ≤ n)%nat → (n ≤ m)%nat → chunks m data = chunks n data.
Proof using.
  induction n as [|n IH]; intros [|m] data Hl Hm; try lia; [done| |].
  - destruct data; [|cbn in Hl; lia]. done.
  - cbn [chunks]. destruct (Nat.leb_spec 4 (length data)); [|done]. rewrite (IH m (drop 4 data)) by (rewrite ?length_drop; lia). done.
Qed.

Lemma chunks_spec n : ∀ data, (length data ≤ n)%nat → (length (chunks n data).2 < 4)%nat ∧ (length (chunks n data).2 ≤ length data)%nat.
Proof using.
  induction n as [|n IH]; intros data Hl; cbn [chunks]; [cbn; lia|]. destruct (Nat.leb_spec 4 (length data)); [|cbn; lia].
  specialize (IH (drop 4 data)). rewrite length_drop in IH. destruct (chunks n (drop 4 data)) as [ws rest]. cbn [snd] in *. lia.
Qed.

(** Words before, and a rest that the words after continue. *)
Lemma chunks_app n : ∀ data more, (length data ≤ n)%nat →
  let '(ws, rest) := chunks n data in let '(ws', rest') := chunks (length rest + length more) (rest ++ more) in
  chunks (n + length more) (data ++ more) = (ws ++ ws', rest').
Proof using.
  induction n as [|n IH]; intros data more Hl.
  { destruct data; [|cbn in Hl; lia]. cbn [chunks app length Nat.add]. by destruct (chunks (length more) more). }
  cbn [chunks]. destruct (Nat.leb_spec 4 (length data)) as [Hle|Hlt].
  - specialize (IH (drop 4 data) more). rewrite length_drop in IH. specialize (IH ltac:(lia)). destruct (chunks n (drop 4 data)) as [ws rest]. destruct (chunks _ (rest ++ more)) as [ws' rest'].
    cbn [Nat.add chunks]. rewrite length_app, (proj2 (Nat.leb_le 4 _)) by lia. rewrite drop_app_le, take_app_le, IH by lia. done.
  - destruct (chunks (length data + length more) (data ++ more)) as [ws' rest'] eqn:Hc. cbn [app]. rewrite <-Hc. apply chunks_fuel; [rewrite length_app; lia|lia].
Qed.

(** The state after data has been given: the words are mixed in, the rest is kept,
    padded with zeros. *)
Definition state_after (seed : Z) (data : list Z) : MurmurHash3_32 :=
  let '(words, rest) := chunks (length data) data in
  mk_murmur (foldl mix_key_body_word seed words) (rest ++ replicate (4 - length rest) 0) (length rest) (wrap usize_bits (Z.of_nat (length data))).

Lemma copy_at_Ok (l src pad : list Z) n : length pad = n → (length src ≤ n)%nat → copy_at (E:=E) (l ++ pad) (length l) src = Ok (l ++ src ++ drop (length src) pad).
Proof using.
  intros Hn Hs. unfold copy_at. rewrite length_app, (proj2 (Nat.leb_le _ _)) by lia. rewrite take_app_length, drop_app_ge by lia. do 3 f_equal. f_equal. lia.
Qed.

Lemma update_body_Ok h0 t data :
  update_body (E:=E) (mk_murmur h0 (replicate 4 0) 0 t) data =
    let '(ws, rest) := chunks (length data) data in Ok (mk_murmur (foldl mix_key_body_word h0 ws) (rest ++ replicate (4 - length rest) 0) (length rest) t).
Proof using.
  unfold update_body. pose proof (chunks_spec _ data ltac:(done)) as [Hlt _]. destruct (chunks (length data) data) as [ws rest]. cbn [snd] in Hlt. cbn [h data_tail data_tail_len total_len].
  destruct rest as [|b rest]; [done|]. set (r := b :: rest) in *. pose proof (copy_at_Ok [] r (replicate 4 0) 4 ltac:(done) ltac:(lia)) as Hcp. cbn [app length] in Hcp. rewrite Hcp. cbn [obind]. by rewrite drop_replicate.
Qed.

Lemma update_after seed data more : update (usize_bits:=usize_bits) (E:=E) (state_after seed data) more = Ok (state_after seed (data ++ more)).
Proof using HP.
  unfold state_after. pose proof (chunks_app _ data more ltac:(done)) as Happ. pose proof (chunks_spec _ data ltac:(done)) as [Hlt _]. rewrite <-length_app in Happ.
  destruct (chunks (length data) data) as [ws rest]. destruct (chunks (length rest + length more) (rest ++ more)) as [ws' rest'] eqn:Hc. rewrite Happ. cbn [snd] in Hlt. clear Happ.
  unfold update. cbn [h data_tail data_tail_len total_len].
  assert (wrapping_add usize_bits (wrap usize_bits (Z.of_nat (length data))) (Z.of_nat (length more)) = wrap usize_bits (Z.of_nat (length (data ++ more)))) as ->.
  { unfold wrapping_add, wrap. rewrite length_app, Nat2Z.inj_add, Z.add_mod_idemp_l; [done|]. pose proof (pow2_pos usize_bits). lia. }
  rewrite foldl_app. destruct (Nat.eqb_spec (length rest) 0) as [Hz|Hnz]; cbn [negb].
  { destruct rest; [|done]. cbn [length app Nat.add Nat.sub] in *. by rewrite update_body_Ok, Hc. }
  rewrite length_app, length_replicate, nsub_Ok by lia. cbn [obind]. set (r := length rest) in *. replace (r + (4 - r) - r)%nat with (4 - r)%nat by lia.
  set (fill := Nat.min (4 - r) (length more)). unfold r at 2. rewrite (copy_at_Ok rest (take fill more) (replicate (4 - r) 0) (4 - r)) by (rewrite ?length_replicate, ?length_take; lia). cbn [obind].
  rewrite uadd_Ok by (change (2 ^ 8) with 256; lia). cbn [obind]. rewrite !length_app, length_take, drop_replicate, length_replicate. replace (Nat.min fill (length more)) with fill by lia. fold r.
  replace (Z.to_nat (Z.of_nat r + Z.of_nat fill)) with (r + fill)%nat by lia. destruct (Nat.eqb_spec (r + fill) (r + (fill + (4 - r - fill)))) as [Heq|Hne].
  - replace (r + (fill + (4 - r - fill)))%nat with 4%nat by lia. rewrite update_body_Ok.
    replace (4 - r - fill)%nat with 0%nat by lia. cbn [replicate]. rewrite app_nil_r.
    revert Hc. replace (r + length more)%nat with (S (r + length more - 1)) by lia. cbn [chunks]. rewrite length_app, (proj2 (Nat.leb_le 4 _)) by lia. fold r.
    rewrite drop_app_ge, take_app_ge by lia. fold r. replace (4 - r)%nat with fill by lia.
    rewrite (chunks_fuel (length (drop fill more))) by (rewrite ?length_drop; lia). destruct (chunks _ (drop fill more)) as [ws2 rest2]. by intros [= <- <-].
  - revert Hc. replace (r + length more)%nat with (S (r + length more - 1)) by lia. cbn [chunks].
    rewrite length_app, (proj2 (Nat.leb_gt 4 _)) by lia. intros [= <- <-]. cbn [foldl]. rewrite (take_ge more) by lia. rewrite <-app_assoc, length_app. fold r. do 3 f_equal; [f_equal; f_equal; lia|lia].
Qed.

Lemma updates_after seed datas : ∀ data, updates (usize_bits:=usize_bits) (E:=E) (state_after seed data) datas = Ok (state_after seed (data ++ mjoin datas)).
Proof using HP.
  induction datas as [|d datas IH]; intros data; cbn [updates]; [cbn; by rewrite app_nil_r|]. rewrite update_after. cbn [obind]. rewrite IH. change (mjoin (d :: datas)) with (d ++ mjoin datas). by rewrite app_assoc.
Qed.

Lemma from_le_bytes_pad l n : from_le_bytes (l ++ replicate n 0) = from_le_bytes l.
Proof using. rewrite from_le_bytes_app. assert (from_le_bytes (replicate n 0) = 0) as -> by (induction n as [|n IH]; cbn; lia). lia. Qed.

Lemma finalize_after seed data : finalize (E:=E) (state_after seed data) = Ok (murmur3_32 seed data).
Proof using HP.
  unfold finalize, state_after, murmur3_32. destruct (chunks (length data) data) as [ws rest]. cbn [h data_tail data_tail_len total_len]. rewrite from_le_bytes_pad, wrap_wrap_le by lia.
  rewrite !ushr_Ok by lia. cbn [obind]. f_equal. unfold fmix, wrapping_mul. by destruct rest.
Qed.
End Correct.

(** Hashing data in any number of parts gives the value of the reference definition on
    all of the data, on platforms with at least 32 bits, without a panic. *)
Lemma murmur3_incremental {B : Build} {E} (usize_bits : Z) (seed : Z) (datas : list (list Z)) :
  32 ≤ usize_bits → (let! self := updates (usize_bits:=usize_bits) (E:=E) (new seed) datas in finalize self) = Ok (murmur3_32 seed (mjoin datas)).
Proof.
  intros HP. change (new seed) with (state_after (usize_bits:=usize_bits) seed []). rewrite updates_after by done. cbn [obind app]. by apply finalize_after.
Qed.

(** The hash is a 32 bit word. *)
Lemma murmur3_in_u seed data : in_u 32 (murmur3_32 seed data).
Proof.
  unfold murmur3_32. destruct (chunks _ _) as [ws rest]. unfold fmix. set (x := wrap 32 (_ * 0xc2b2ae35)). assert (in_u 32 x) by (apply wrap_in_u; lia).
  apply lxor_in_u; [lia|done|]. unfold in_u in *. rewrite Z.shiftr_div_pow2 by lia. split; [apply Z.div_pos; lia|]. apply Z.div_lt_upper_bound; lia.
Qed.

(** The values of the unit test. *)
Definition ascii_bytes (s : string) : list Z := (λ a, Z.of_nat (Ascii.nat_of_ascii a)) <$> String.list_ascii_of_string s.
Lemma murmur3_expected_values :
  Forall (λ '(s, seed, expected), murmur3_32 seed (ascii_bytes s) = expected)
    [("", 0, 0); ("", 1, 0x514e28b7); ("", 0xffffffff, 0x81f16f39); ("test", 0, 0xba6bd213); ("test", 0x9747b28c, 0x704b81dc);
     ("Hello, world!", 0, 0xc0363e43); ("Hello, world!", 0x9747b28c, 0x24884cba);
     ("The quick brown fox jumps over the lazy dog", 0, 0x2e4ff723); ("The quick brown fox jumps over the lazy dog", 0x9747b28c, 0x2fa826cd)]%string.
Proof. repeat constructor. Qed.

End MurmurHash3.
