(* ===== verification/Keys.v ===== *)
(** * Keys (storage/src/fs/cocoonfs/keys.rs)

    The derivation of the root key and of subkeys, and the cache of derived subkeys.
    The cryptographic backend is a parameter.  The theorems show that the inputs of
    different derivations differ, and that whatever threads do with the cache, the key
    that is returned for an identifier is the one derived for it. *)

From S2P Require Import Prelude BitManip Errors ImageLayout TpmInterface IoSlices CtCmp AuthTreeDigests Kdf KdfTcg MurmurHash3.
From S2P Require Import CacheWords CacheSet CacheSetSpec SetAssocCache.
Import Errors ImageLayout IoSlices KdfTcg.
Import CacheWords(MAX_ASSOCIATIVITY).
Import AuthTreeDigests(KeyPurpose, Derivation, AuthenticationRoot, AuthenticationData, PreAuthCcaProtectionAuthentication, Encryption, KeyId, mk_key_id, domain, subdomain, purpose, hash_alg_digest_len, image_magic).

(** The byte order of the platform. *)
Class Endian := big_endian : bool.

Module Keys.

(** ** Errors of the cryptographic backend *)

Definition anonymize_any_sensitive (self anonymized_value : CryptoError) : CryptoError :=
  match self with
  | CryptoMemoryAllocationFailure | BufferStateIndeterminate | RngFailure | InsufficientSeedLength | RandomSamplingRetriesExceeded
  | RequestTooBig | NoKey | KeySize | KeyBinding | SignatureVerificationFailure | UnsupportedSecurityStrength | UnsupportedParams | UnspecifiedFailure => self
  | _ => anonymized_value
  end.
Definition from_crypto (value : CryptoError) : NvFsError :=
  match anonymize_any_sensitive value UnspecifiedFailure with
  | CryptoMemoryAllocationFailure => MemoryAllocationFailure
  | BufferStateIndeterminate => FailedDataUpdateRead
  | e => NvCryptoError e
  end.

(** ** Key identifiers *)

Definition purpose_id (p : KeyPurpose) : Z :=
  match p with Derivation => 1 | AuthenticationRoot => 2 | AuthenticationData => 3 | PreAuthCcaProtectionAuthentication => 4 | Encryption => 5 end.

Definition key_id_new (domain subdomain : Z) (purpose : KeyPurpose) : KeyId := mk_key_id domain subdomain purpose.

(** The derived order: the fields one after the other. *)
Definition key_id_cmp (a b : KeyId) : comparison :=
  match domain a ?= domain b with
  | Eq => match subdomain a ?= subdomain b with Eq => purpose_id (purpose a) ?= purpose_id (purpose b) | c => c end
  | c => c
  end.

Lemma purpose_id_inj p p' : purpose_id p = purpose_id p' → p = p'.
Proof. by destruct p, p'. Qed.
Lemma key_id_cmp_spec a b :
  match key_id_cmp a b with
  | Eq => a = b
  | Lt => domain a < domain b ∨ domain a = domain b ∧ (subdomain a < subdomain b ∨ subdomain a = subdomain b ∧ purpose_id (purpose a) < purpose_id (purpose b))
  | Gt => domain b < domain a ∨ domain a = domain b ∧ (subdomain b < subdomain a ∨ subdomain a = subdomain b ∧ purpose_id (purpose b) < purpose_id (purpose a))
  end.
Proof.
  unfold key_id_cmp. destruct (Z.compare_spec (domain a) (domain b)); [|lia..]. destruct (Z.compare_spec (subdomain a) (subdomain b)); [|lia..].
  destruct (Z.compare_spec (purpose_id (purpose a)) (purpose_id (purpose b))) as [Hp| |]; [|lia..]. apply purpose_id_inj in Hp. destruct a, b; cbn in *. by subst.
Qed.

#[export] Instance KeyId_ord : Ord KeyId.
Proof.
  refine {| cmp := key_id_cmp |}.
  - intros a b. pose proof (key_id_cmp_spec a b) as H. split; [by intros Heq; rewrite Heq in H|]. intros ->. unfold key_id_cmp. by rewrite !Z.compare_refl.
  - intros a b. unfold key_id_cmp. rewrite (Z.compare_antisym (domain a)), (Z.compare_antisym (subdomain a)), (Z.compare_antisym (purpose_id (purpose a))).
    by destruct (domain a ?= domain b), (subdomain a ?= subdomain b).
  - intros a b c Hab Hbc. pose proof (key_id_cmp_spec a b) as H1. pose proof (key_id_cmp_spec b c) as H2. pose proof (key_id_cmp_spec a c) as H3. rewrite Hab in H1. rewrite Hbc in H2.
    destruct (key_id_cmp a c); [subst c; lia|done|lia].
Defined.

(** ** Derivation *)

Section Derive.
Context {B : Build} {P : Platform} {Alloc : Allocator} {CB : CryptoBackend}.
Abbreviation res := (outcome NvFsError).

Record RootKey := mk_root_key {
  root_key : list Z;
  kdf_hash_alg : TpmiAlgHash;
  auth_tree_root_hmac_key_len : Z;
  auth_tree_data_hmac_key_len : Z;
  preauth_cca_protection_hmac_key_len : Z;
  block_cipher_key_len : Z;
}.

(** [TpmiAlgCipherMode::Cbc.marshal]. *)
Definition cbc_marshal (buf : list Z) : outcome TpmInterface.TpmErr (list Z * list Z) := TpmInterface.marshal_u16 buf 0x42.

(** A call that marshals to the rest of the buffer, with its error converted; [done] is
    what has been written so far. *)
Definition put (f : list Z → outcome TpmInterface.TpmErr (list Z * list Z)) (buf : list Z * list Z) : res (list Z * list Z) :=
  let! '(written, rest) := map_err_with (λ _, err_internal) (f buf.2) in Ok (buf.1 ++ written, rest).

Definition CONTEXT_HEAD_LEN : nat := 26.

(** The bytes of [context_head] and the length of the salt that is used. *)
Definition root_key_context (salt : list Z) (kdf_hash_alg auth_tree_root_hmac_hash_alg auth_tree_node_hash_alg auth_tree_data_hmac_hash_alg
    preauth_cca_protection_hmac_hash_alg : TpmiAlgHash) (block_cipher_alg : TpmInterface.SymBlockCipherAlg) : res (list Z * list Z) :=
  let context_head := replicate CONTEXT_HEAD_LEN 0 in
  let salt_len := Z.min (Z.of_nat (length salt)) 255 in
  let context_tail := take (Z.to_nat salt_len) salt in
  let buf := (image_magic, drop 8 context_head) in
  let buf := (buf.1 ++ [1], drop 1 buf.2) in
  let! buf := put (TpmInterface.hash_marshal kdf_hash_alg) buf in
  let! buf := put (TpmInterface.hash_marshal auth_tree_root_hmac_hash_alg) buf in
  let! buf := put (TpmInterface.hash_marshal auth_tree_node_hash_alg) buf in
  let! buf := put (TpmInterface.hash_marshal auth_tree_data_hmac_hash_alg) buf in
  let! buf := put (TpmInterface.hash_marshal preauth_cca_protection_hmac_hash_alg) buf in
  let! buf := put cbc_marshal buf in
  let '(block_cipher_alg_id, block_cipher_key_size) := TpmInterface.cipher_into block_cipher_alg in
  let! buf := put (TpmInterface.sym_marshal block_cipher_alg_id) buf in
  let! buf := put (λ b, TpmInterface.marshal_u16 b block_cipher_key_size) buf in
  let! buf := put (λ b, TpmInterface.marshal_u8 b salt_len) buf in
  let! _ := debug_assert (length buf.2 =? 0)%nat in
  Ok (buf.1 ++ buf.2, context_tail).

(** [TcgTpm2KdfA::new(...).and_then(|kdf| kdf.generate(...))] into a buffer of [len]
    bytes. *)
Definition kdf_into (alg : TpmiAlgHash) (key label : list Z) (context_u context_v : option (list Z)) (n_bits : Z) (buf : list Z) : res (list Z) :=
  map_err from_crypto
    (let! kdf := kdf_a_new alg key label context_u context_v n_bits in
     kdf_a_generate (S (length buf)) kdf (singleton_new buf)).

(** [FixedVec::new_with_default]. *)
Definition new_key (len : Z) : res (list Z) :=
  let! _ := try_reserve 0 (Z.to_nat len) in Ok (replicate (Z.to_nat len) 0).

Definition root_key_new (key salt : list Z) (kdf_hash_alg auth_tree_root_hmac_hash_alg auth_tree_node_hash_alg auth_tree_data_hmac_hash_alg
    preauth_cca_protection_hmac_hash_alg : TpmiAlgHash) (block_cipher_alg : TpmInterface.SymBlockCipherAlg) : res RootKey :=
  let! '(context_head, context_tail) := root_key_context salt kdf_hash_alg auth_tree_root_hmac_hash_alg auth_tree_node_hash_alg auth_tree_data_hmac_hash_alg
    preauth_cca_protection_hmac_hash_alg block_cipher_alg in
  let root_key_len := hash_alg_digest_len kdf_hash_alg in
  let! root_key := new_key root_key_len in
  let! n_bits := umul 32 8 root_key_len in
  let! root_key := kdf_into TpmInterface.Sha512 key [purpose_id Derivation] (Some context_head) (Some context_tail) n_bits root_key in
  Ok (mk_root_key root_key kdf_hash_alg (hash_alg_digest_len auth_tree_root_hmac_hash_alg) (hash_alg_digest_len auth_tree_data_hmac_hash_alg)
        (hash_alg_digest_len preauth_cca_protection_hmac_hash_alg) (TpmInterface.key_len block_cipher_alg)).

Definition subkey_len (self : RootKey) (p : KeyPurpose) : Z :=
  match p with
  | Derivation => hash_alg_digest_len (kdf_hash_alg self)
  | AuthenticationRoot => auth_tree_root_hmac_key_len self
  | AuthenticationData => auth_tree_data_hmac_key_len self
  | PreAuthCcaProtectionAuthentication => preauth_cca_protection_hmac_key_len self
  | Encryption => block_cipher_key_len self
  end.

(** The context of a subkey. *)
Definition full_domain (key_id : KeyId) : list Z := to_le_bytes 8 (domain key_id) ++ to_le_bytes 4 (subdomain key_id).

Definition derive_key (self : RootKey) (key_id : KeyId) : res (list Z) :=
  let key_len := subkey_len self (purpose key_id) in
  let! key := new_key key_len in
  let! n_bits := umul 32 8 (wrap 32 key_len) in
  kdf_into (kdf_hash_alg self) (root_key self) [purpose_id (purpose key_id)] (Some (full_domain key_id)) None n_bits key.
End Derive.

(** ** The cache of subkeys *)

Record KeyCacheMapKeyIdToSetAssocCacheSet := mk_key_map { cache_sets_count : Z }.

Section Cache.
Context {B : Build} {P : Platform} {Alloc : Allocator} {CB : CryptoBackend} {EN : Endian}.
Abbreviation res := (outcome NvFsError).

Definition to_ne_bytes (n : nat) (x : Z) : list Z := if big_endian then to_be_bytes n x else to_le_bytes n x.

Definition key_id_hash (key : KeyId) : res Z :=
  let h := MurmurHash3.new 0 in
  let! h := MurmurHash3.update (usize_bits:=usize_bits) h (to_ne_bytes 8 (domain key)) in
  let! h := MurmurHash3.update (usize_bits:=usize_bits) h (to_ne_bytes 4 (subdomain key)) in
  let! h := MurmurHash3.update (usize_bits:=usize_bits) h [purpose_id (purpose key)] in
  MurmurHash3.finalize h.
(** The computation does not panic ([key_id_hash_Ok]). *)
#[export] Instance key_map : SetAssocCacheMapKeyToSet KeyId KeyCacheMapKeyIdToSetAssocCacheSet := λ self key,
  match key_id_hash key with
  | Ok h => Some (Z.to_nat (wrap usize_bits (Z.shiftr (wrap 64 (h * cache_sets_count self)) 32)))
  | _ => None
  end.

Record KeyCache := mk_key_cache { cache : SetAssocCache.SetAssocCache KeyId (list Z) KeyCacheMapKeyIdToSetAssocCacheSet }.

Definition key_cache_new : res KeyCache :=
  let! cache := map_err (λ e, match e with SetAssocCache.MemoryAllocationFailure => MemoryAllocationFailure end)
    (SetAssocCache.new (mk_key_map 2) (replicate 2 MAX_ASSOCIATIVITY)) in
  Ok (mk_key_cache cache).

(** [KeyCacheEntryRef::deref]: the access is recorded in the cache. *)
Definition entry_deref (self : KeyCache) (cache_entry_index : SetAssocCache.SetAssocCacheIndex) : res (KeyCache * list Z) :=
  let! '(cache, e) := SetAssocCache.get_entry (cache self) cache_entry_index in
  let! e := unwrap e in
  Ok (mk_key_cache cache, e.2).

(** The parts of [get_key]: with the cache locked for reading, and then, if the key was
    not found, with the cache locked for writing.  The reference that is returned keeps
    the lock. *)
Definition get_key_lookup (self : KeyCache) (key_id : KeyId) : res (option SetAssocCache.SetAssocCacheIndex) := SetAssocCache.lookup (cache self) key_id.
Definition get_key_insert (self : KeyCache) (key_id : KeyId) (key : list Z) : res (KeyCache * SetAssocCache.SetAssocCacheIndex) :=
  let! '(cache, r) := SetAssocCache.insert (cache self) key_id key in
  match r with
  | SetAssocCache.Inserted index _ => Ok (mk_key_cache cache, index)
  | SetAssocCache.Uncacheable _ => err_internal
  end.
Definition get_key (self : KeyCache) (root_key : RootKey) (key_id : KeyId) : res (KeyCache * SetAssocCache.SetAssocCacheIndex) :=
  let! index := get_key_lookup self key_id in
  match index with
  | Some cache_entry_index => Ok (self, cache_entry_index)
  | None => let! key := derive_key root_key key_id in get_key_insert self key_id key
  end.

Definition clear (self : KeyCache) : res KeyCache := let! cache := SetAssocCache.prune_all (cache self) in Ok (mk_key_cache cache).

(** *** Threads

    Each thread runs calls of [get_key] whose result it uses, and the cache may be
    cleared.  Threads interleave where the cache is not locked. *)
Inductive thread_state :=
| Idle
| Deriving (key_id : KeyId).
Inductive key_event :=
| EvReturned (key_id : KeyId) (key : list Z)
| EvFailed (key_id : KeyId) (e : NvFsError)
| EvMissed
| EvCleared.

Inductive key_step (root_key : RootKey) : KeyCache * thread_state → key_event → KeyCache * thread_state → Prop :=
| StepHit self self' key_id index key :
    get_key_lookup self key_id = Ok (Some index) → entry_deref self index = Ok (self', key) →
    key_step root_key (self, Idle) (EvReturned key_id key) (self', Idle)
| StepMiss self key_id :
    get_key_lookup self key_id = Ok None → key_step root_key (self, Idle) EvMissed (self, Deriving key_id)
| StepInsert self self1 self2 key_id index key0 key :
    derive_key root_key key_id = Ok key0 → get_key_insert self key_id key0 = Ok (self1, index) → entry_deref self1 index = Ok (self2, key) →
    key_step root_key (self, Deriving key_id) (EvReturned key_id key) (self2, Idle)
| StepFail self key_id e :
    derive_key root_key key_id = Err e → key_step root_key (self, Deriving key_id) (EvFailed key_id e) (self, Idle)
| StepClear self self' st : clear self = Ok self' → key_step root_key (self, st) EvCleared (self', st).

Inductive key_steps (root_key : RootKey) : KeyCache * list thread_state → list key_event → KeyCache * list thread_state → Prop :=
| steps_nil c : key_steps root_key c [] c
| steps_cons self ts i st self1 st1 ev evs c :
    ts !! i = Some st → key_step root_key (self, st) ev (self1, st1) → key_steps root_key (self1, <[i := st1]> ts) evs c → key_steps root_key (self, ts) (ev :: evs) c.
End Cache.

(** ** What is derived *)

Section DeriveCorrect.
Context {B : Build} {P : Platform} (HP : 32 ≤ usize_bits) {Alloc : Allocator} (HA : ∀ n, (n ≤ 64)%nat → alloc_ok 0 n = true) {CB : CryptoBackend} {CL : CryptoLaws}.

(** A value, or an error of the backend. *)
Definition derives {A} (c : outcome NvFsError A) (Q : A → Prop) : Prop := (∃ a, c = Ok a ∧ Q a) ∨ (∃ e, c = Err (from_crypto e) ∧ backend_fails e).

Lemma total_output_bytes n : total_output_len (8 * n) = n.
Proof using. unfold total_output_len, div_ceil. replace (8 * n + 8 - 1) with (7 + n * 8) by lia. rewrite Z.div_add by lia. done. Qed.

Lemma kdf_into_Ok alg key label u v n :
  0 ≤ n ≤ 64 → derives (kdf_into alg key label u v (8 * n) (replicate (Z.to_nat n) 0)) (λ k, k = kdf_a_spec alg key label u v (8 * n) ∧ Z.of_nat (length k) = n).
Proof using HP HA.
  intros Hn. unfold kdf_into. pose proof (Z.pow_le_mono_r 2 32 usize_bits ltac:(lia) HP) as Hpow. change (2 ^ 32) with 4294967296 in *. assert (16 ≤ usize_bits) as HP16 by lia. pose proof (hash_len_bounds alg) as Hlen.
  destruct (kdf_a_new_Ok HP16 alg key label u v (8 * n)) as [(s & -> & Hv & Hst & Hbl)|(e & -> & He)]; [lia|lia| |right; exists e; by split]. cbn [obind].
  assert (length (kdf_a_stream s) = Z.to_nat n) as Hls.
  { rewrite Hst. unfold kdf_a_spec. rewrite stream_length with (len := Z.to_nat (hash_alg_digest_len alg)); [|lia|].
    - by rewrite total_output_bytes.
    - intros i. pose proof (tpm_block_length (DL:=hmac_laws) (8 * n) (alg, key) (kdf_a_fixed label u v (8 * n)) i) as Hl. cbn [fst] in Hl. lia. }
  pose proof (generate_Ok (kdf_a_laws HP16) kdf_a_remaining s (replicate (Z.to_nat n) 0) Hv) as Hg. cbn [Kdf.kdf_stream kdf_a_laws Kdf.block_len kdf_a Kdf.kdf_fails] in Hg.
  rewrite length_replicate, Hls, (proj2 (Nat.ltb_ge _ _)), take_ge in Hg by lia. unfold kdf_a_generate. rewrite length_replicate.
  destruct Hg as [Hg|(e & Hg & He)]; [|intros m Hm; apply HA; lia|rewrite Hg; left; eexists; split; [done|]; split; [by rewrite Hst|lia]|rewrite Hg; right; exists e; by split].
  unfold kdf_a_remaining. rewrite (remaining_Ok HP16 _ _ _ _ Hv), <-Hls. unfold kdf_a_stream. by rewrite (tpm_stream_length _ _ _ _ _ Hv).
Qed.

Record root_ok (self : RootKey) : Prop := { ro_len p : 0 < subkey_len self p ≤ 64 }.

(** The subkey of an identifier. *)
Definition subkey_spec (self : RootKey) (key_id : KeyId) : list Z :=
  kdf_a_spec (kdf_hash_alg self) (root_key self) [purpose_id (purpose key_id)] (Some (full_domain key_id)) None (8 * subkey_len self (purpose key_id)).

Lemma derive_key_Ok self key_id : root_ok self → derives (derive_key self key_id) (λ k, k = subkey_spec self key_id ∧ Z.of_nat (length k) = subkey_len self (purpose key_id)).
Proof using HP HA.
  intros [Hr]. specialize (Hr (purpose key_id)). unfold derive_key, new_key, try_reserve. rewrite HA by lia. cbn [obind]. rewrite wrap_small by (unfold in_u; lia). rewrite umul_Ok by lia. cbn [obind].
  apply kdf_into_Ok. lia.
Qed.

Lemma subkey_spec_length self key_id : root_ok self → Z.of_nat (length (subkey_spec self key_id)) = subkey_len self (purpose key_id).
Proof using.
  intros [Hr]. specialize (Hr (purpose key_id)). unfold subkey_spec, kdf_a_spec. pose proof (hash_len_bounds (kdf_hash_alg self)).
  rewrite stream_length with (len := Z.to_nat (hash_alg_digest_len (kdf_hash_alg self))); [|lia|].
  - rewrite total_output_bytes. lia.
  - intros i. pose proof (tpm_block_length (DL:=hmac_laws) (8 * subkey_len self (purpose key_id)) (kdf_hash_alg self, root_key self) (kdf_a_fixed [purpose_id (purpose key_id)] (Some (full_domain key_id)) None (8 * subkey_len self (purpose key_id))) i) as Hl. cbn [fst] in Hl. lia.
Qed.

(** *** The root key *)

Definition root_context (salt : list Z) (kdf root node data preauth : TpmiAlgHash) (cipher : TpmInterface.SymBlockCipherAlg) : list Z :=
  image_magic ++ [1] ++ to_be_bytes 2 (TpmInterface.hash_id kdf) ++ to_be_bytes 2 (TpmInterface.hash_id root) ++ to_be_bytes 2 (TpmInterface.hash_id node) ++
  to_be_bytes 2 (TpmInterface.hash_id data) ++ to_be_bytes 2 (TpmInterface.hash_id preauth) ++ to_be_bytes 2 0x42 ++
  to_be_bytes 2 (TpmInterface.sym_id (TpmInterface.cipher_into cipher).1) ++ to_be_bytes 2 (TpmInterface.cipher_into cipher).2 ++ [Z.min (Z.of_nat (length salt)) 255].

Lemma put_Ok n x done rest : (n ≤ length rest)%nat → put (λ b, TpmInterface.marshal_u n b x) (done, rest) = Ok (done ++ to_be_bytes n x, drop n rest).
Proof using. intros Hn. unfold put. cbn [fst snd]. rewrite TpmInterface.marshal_u_eq, (proj2 (Nat.leb_le _ _)) by done. done. Qed.

Lemma root_key_context_Ok salt kdf root node data preauth cipher :
  root_key_context salt kdf root node data preauth cipher = Ok (root_context salt kdf root node data preauth cipher, take 255 salt).
Proof using.
  unfold root_key_context. set (n := Z.min (Z.of_nat (length salt)) 255). destruct (TpmInterface.cipher_into cipher) as [id size] eqn:Hc.
  unfold TpmInterface.hash_marshal, cbc_marshal, TpmInterface.sym_marshal, TpmInterface.marshal_u16, TpmInterface.marshal_u8.
  change (λ buf, TpmInterface.marshal_u ?k buf ?x) with (λ b, TpmInterface.marshal_u k b x).
  do 9 (rewrite put_Ok by (cbn; lia); cbn [obind]; rewrite ?drop_drop). cbn [fst snd].
  change (drop (1 + _) (drop 8 _)) with (@nil Z). cbn [length Nat.eqb debug_assert obind].
  assert (to_be_bytes 1 n = [n]) as -> by (unfold to_be_bytes; cbn; by rewrite Z.mod_small by lia).
  unfold root_context. rewrite Hc, app_nil_r. cbn [fst snd]. rewrite <-!app_assoc. do 2 f_equal. unfold n.
  destruct (Nat.le_ge_cases (length salt) 255); [rewrite Z.min_l, Nat2Z.id, !take_ge by lia; done|by rewrite Z.min_r by lia].
Qed.

Definition root_key_spec (key salt : list Z) (kdf root node data preauth : TpmiAlgHash) (cipher : TpmInterface.SymBlockCipherAlg) : list Z :=
  kdf_a_spec TpmInterface.Sha512 key [1] (Some (root_context salt kdf root node data preauth cipher)) (Some (take 255 salt)) (8 * hash_alg_digest_len kdf).

Lemma root_key_new_Ok key salt kdf root node data preauth cipher :
  derives (root_key_new key salt kdf root node data preauth cipher)
    (λ r, root_ok r ∧ root_key r = root_key_spec key salt kdf root node data preauth cipher ∧ kdf_hash_alg r = kdf ∧
       subkey_len r AuthenticationRoot = hash_alg_digest_len root ∧ subkey_len r AuthenticationData = hash_alg_digest_len data ∧
       subkey_len r PreAuthCcaProtectionAuthentication = hash_alg_digest_len preauth ∧ subkey_len r Encryption = TpmInterface.key_len cipher).
Proof using HP HA.
  unfold root_key_new. rewrite root_key_context_Ok. cbn [obind]. pose proof (hash_len_bounds kdf) as Hlen. unfold new_key, try_reserve. rewrite HA by lia. cbn [obind]. rewrite umul_Ok by lia. cbn [obind].
  destruct (kdf_into_Ok TpmInterface.Sha512 key [purpose_id Derivation] (Some (root_context salt kdf root node data preauth cipher)) (Some (take 255 salt)) (hash_alg_digest_len kdf)) as [(k & -> & Hk & _)|(e & -> & He)];
    [lia| |right; exists e; by split]. cbn [obind]. left. eexists. split; [done|]. split_and!; try done. split. intros p.
  destruct p; cbn [subkey_len kdf_hash_alg auth_tree_root_hmac_key_len auth_tree_data_hmac_key_len preauth_cca_protection_hmac_key_len block_cipher_key_len]; try apply hash_len_bounds.
  destruct cipher as [[]|[]|[]]; cbn; lia.
Qed.
End DeriveCorrect.

(** ** The inputs of derivations *)

Lemma to_be_bytes_inj n x y : 0 ≤ x < 256 ^ Z.of_nat n → 0 ≤ y < 256 ^ Z.of_nat n → to_be_bytes n x = to_be_bytes n y → x = y.
Proof. intros Hx Hy H. by rewrite <-(from_to_be_bytes n x), <-(from_to_be_bytes n y), H. Qed.
Lemma to_le_bytes_inj n x y : 0 ≤ x < 256 ^ Z.of_nat n → 0 ≤ y < 256 ^ Z.of_nat n → to_le_bytes n x = to_le_bytes n y → x = y.
Proof. intros Hx Hy H. by rewrite <-(from_to_le_bytes n x), <-(from_to_le_bytes n y), H. Qed.

(** The input of the HMAC for a block of KDFa. *)
Definition hmac_input {CB : CryptoBackend} (label : list Z) (context_u context_v : option (list Z)) (bits i : Z) : list Z :=
  mjoin (kdf_a_input (mk_kdf_a None 0 label context_u context_v bits 0) (to_be_bytes 4 i)).

Lemma hmac_input_eq {CB : CryptoBackend} p u v bits i :
  hmac_input [purpose_id p] (Some u) v bits i = to_be_bytes 4 i ++ [purpose_id p; 0] ++ u ++ default [] v ++ to_be_bytes 4 bits.
Proof. unfold hmac_input. rewrite kdf_a_input_eq. unfold kdf_a_fixed, label_zero_sep. cbn. by destruct p. Qed.

Definition key_id_ok (id : KeyId) : Prop := in_u 64 (domain id) ∧ in_u 32 (subdomain id).

Lemma hash_id_inj a b : TpmInterface.hash_id a = TpmInterface.hash_id b → a = b.
Proof. by destruct a, b. Qed.
Lemma cipher_inj c c' : TpmInterface.sym_id (TpmInterface.cipher_into c).1 = TpmInterface.sym_id (TpmInterface.cipher_into c').1 → (TpmInterface.cipher_into c).2 = (TpmInterface.cipher_into c').2 → c = c'.
Proof. destruct c as [[]|[]|[]], c' as [[]|[]|[]]; (done || by intros [=]). Qed.

(** Splits an equation of byte strings after their first parts of the same length. *)
Ltac next_bytes H Hb := apply app_inj_1 in H as [Hb H]; [|by rewrite ?length_app, ?length_to_be_bytes, ?length_to_le_bytes].

Lemma root_context_inj salt salt' kdf kdf' root root' node node' data data' preauth preauth' cipher cipher' :
  root_context salt kdf root node data preauth cipher = root_context salt' kdf' root' node' data' preauth' cipher' →
  kdf = kdf' ∧ root = root' ∧ node = node' ∧ data = data' ∧ preauth = preauth' ∧ cipher = cipher'.
Proof.
  unfold root_context. intros Heq. next_bytes Heq H0. next_bytes Heq H1. next_bytes Heq Hk. next_bytes Heq Hr. next_bytes Heq Hn. next_bytes Heq Hd. next_bytes Heq Hp. next_bytes Heq H2. next_bytes Heq Hc. next_bytes Heq Hs.
  apply to_be_bytes_inj, hash_id_inj in Hk, Hr, Hn, Hd, Hp; try apply TpmInterface.hash_id_u16.
  apply to_be_bytes_inj in Hc; try apply TpmInterface.sym_id_u16. apply to_be_bytes_inj in Hs; try apply TpmInterface.cipher_into_u16. split_and!; try done. by apply cipher_inj.
Qed.



(** ** The cache returns what is derived *)

Section CacheCorrect.
Context {B : Build} {P : Platform} (HP : 32 ≤ usize_bits) {Alloc : Allocator} (HA : ∀ n, (n ≤ 64)%nat → alloc_ok 0 n = true) {CB : CryptoBackend} {CL : CryptoLaws} {EN : Endian}.

Lemma key_id_hash_Ok key : ∃ h, key_id_hash key = Ok h ∧ in_u 32 h.
Proof using HP.
  unfold key_id_hash. change (MurmurHash3.new 0) with (MurmurHash3.state_after (usize_bits:=usize_bits) 0 []). do 3 (rewrite MurmurHash3.update_after by done; cbn [obind]).
  rewrite MurmurHash3.finalize_after by done. eexists. split; [done|]. apply MurmurHash3.murmur3_in_u.
Qed.

Lemma key_map_Ok key : ∃ i, map_key (mk_key_map 2) key = Some i ∧ (i < 2)%nat.
Proof using HP.
  unfold map_key, key_map. destruct (key_id_hash_Ok key) as (h & -> & Hh). eexists. split; [done|]. unfold in_u in Hh. cbn [cache_sets_count].
  pose proof (Z.pow_le_mono_r 2 32 usize_bits ltac:(lia) HP). rewrite (wrap_small 64) by (unfold in_u; lia). rewrite Z.shiftr_div_pow2 by lia.
  assert (0 ≤ h * 2 / 2 ^ 32 < 2) as Hq by (split; [apply Z.div_pos; lia|apply Z.div_lt_upper_bound; lia]). rewrite wrap_small by (unfold in_u; lia). lia.
Qed.

Definition key_inv (root : RootKey) (self : KeyCache) : Prop :=
  ∃ a, SetAssocCache.cache_refines (cache self) a ∧ SetAssocCache.map_key_to_set (cache self) = mk_key_map 2 ∧
    ∀ i p e, a !! i = Some p → e ∈ p.2 → e.2 = subkey_spec root e.1.

Lemma key_cache_new_Ok root : ∃ self, key_cache_new = Ok self ∧ key_inv root self.
Proof using HP HA.
  unfold key_cache_new. change (replicate 2 MAX_ASSOCIATIVITY) with (Z.of_nat <$> [8; 8]%nat).
  destruct (SetAssocCache.new_refines (T:=list Z) (mk_key_map 2) [8; 8]%nat) as (c & -> & Hr & Hm).
  - apply HA. cbn. lia.
  - by repeat constructor.
  - intros k i Hi. destruct (key_map_Ok k) as (j & Hj & Hlt). rewrite Hi in Hj. injection Hj as ->. exists 8%nat. split; [|lia]. by destruct j as [|[|]]; [..|lia].
  - cbn [map_err obind]. eexists. split; [done|]. eexists. split; [exact Hr|]. split; [done|]. intros i p e Hi He. cbn in Hi. destruct i as [|[|]]; cbn in Hi; simplify_eq; cbn in He; set_solver.
Qed.

Lemma lookup_step root self key_id :
  key_inv root self → ∃ r, get_key_lookup self key_id = Ok r ∧
    match r with
    | Some index => ∃ self', entry_deref self index = Ok (self', subkey_spec root key_id) ∧ key_inv root self'
    | None => True
    end.
Proof using HP.
  intros (a & Hr & Hm & Hk). destruct (key_map_Ok key_id) as (i & Hi & _). rewrite <-Hm in Hi. destruct (SetAssocCache.cr_range _ _ Hr key_id i Hi) as (c & l & Ha & _).
  destruct (SetAssocCache.lookup_get_Ok (E:=NvFsError) _ _ _ _ _ _ Hr Hi Ha) as (r & Hl & Hres). exists r. split; [done|]. destruct r as [index|]; [|done].
  destruct Hres as (v & c' & Hv & Hg & Hr' & Hm'). unfold entry_deref. rewrite Hg. cbn [obind unwrap snd]. eexists. split.
  - do 2 f_equal. apply (Hk i (c, l) (key_id, v) Ha). by apply SetAssocCache.lru_lookup_elem.
  - eexists. split; [exact Hr'|]. split; [by etrans|]. intros j p e Hj He. destruct (decide (j = i)) as [->|].
    + rewrite list_lookup_insert_eq in Hj by (by eapply lookup_lt_Some). simplify_eq. cbn [snd] in He. by apply (Hk i (c, l)), (SetAssocCache.lru_get_elem l key_id).
    + rewrite list_lookup_insert_ne in Hj by done. by apply (Hk j p).
Qed.

Lemma insert_step root self key_id :
  key_inv root self →
  ∃ self1 index self2, get_key_insert self key_id (subkey_spec root key_id) = Ok (self1, index) ∧ entry_deref self1 index = Ok (self2, subkey_spec root key_id) ∧ key_inv root self1 ∧ key_inv root self2.
Proof using HP.
  intros (a & Hr & Hm & Hk). destruct (key_map_Ok key_id) as (i & Hi & _). rewrite <-Hm in Hi. destruct (SetAssocCache.cr_range _ _ Hr key_id i Hi) as (c & l & Ha & Hc).
  destruct (SetAssocCache.insert_get_Ok (E:=NvFsError) _ _ _ (subkey_spec root key_id) _ _ _ Hr Hi Ha Hc) as (c1 & index & c2 & Hins & Hr1 & Hg & Hr2 & Hm1 & Hm2).
  unfold get_key_insert, entry_deref. rewrite Hins. cbn [obind]. exists (mk_key_cache c1), index, (mk_key_cache c2). cbn [cache]. rewrite Hg. cbn [obind unwrap snd].
  assert (∀ c' l', SetAssocCache.cache_refines c' (<[i := (c, l')]> a) → SetAssocCache.map_key_to_set c' = SetAssocCache.map_key_to_set (cache self) →
    (∀ e, e ∈ l' → e = (key_id, subkey_spec root key_id) ∨ e ∈ l) → key_inv root (mk_key_cache c')) as Hinv.
  { intros c' l' Hr' Hm' Hl'. eexists. split; [exact Hr'|]. split; [by etrans|]. intros j p e Hj He. destruct (decide (j = i)) as [->|].
    - rewrite list_lookup_insert_eq in Hj by (by eapply lookup_lt_Some). simplify_eq. destruct (Hl' e He) as [->|]; [done|]. by apply (Hk i (c, l)).
    - rewrite list_lookup_insert_ne in Hj by done. by apply (Hk j p). }
  split_and!; [done|done| |]; (eapply Hinv; [done..|]); intros e He; [by apply SetAssocCache.lru_insert_elem in He|].
  apply SetAssocCache.lru_get_elem, SetAssocCache.lru_insert_elem in He. done.
Qed.

(** A call of [get_key] that is not interleaved with others. *)
Lemma get_key_Ok root self key_id :
  root_ok root → key_inv root self →
  derives (get_key self root key_id) (λ r, ∃ self2, entry_deref r.1 r.2 = Ok (self2, subkey_spec root key_id) ∧ key_inv root self2).
Proof using HP HA.
  intros Hro Hinv. unfold get_key. destruct (lookup_step root self key_id Hinv) as (r & -> & Hres). cbn [obind]. destruct r as [index|]; [left; by eexists|].
  destruct (derive_key_Ok HP HA root key_id Hro) as [(k & -> & -> & _)|(e & -> & He)]; cbn [obind]; [|right; by exists e].
  destruct (insert_step root self key_id Hinv) as (c1 & ix & c2 & -> & Hd & _ & Hinv2). left. eexists. split; [done|]. by exists c2.
Qed.

Lemma clear_step root self : key_inv root self → ∃ self', clear self = Ok self' ∧ key_inv root self'.
Proof using HP HA.
  intros (a & Hr & Hm & Hk). pose proof (SetAssocCache.run_op_refines (E:=NvFsError) _ _ SetAssocCache.OpPruneAll Hr) as (c' & Hp & Hr' & Hm'). cbn [SetAssocCache.run_op SetAssocCache.spec_op fst] in *.
  unfold clear. destruct (SetAssocCache.prune_all (cache self)) as [c1| | |]; [|done..]. cbn [obind] in *. injection Hp as <-. eexists. split; [done|]. eexists. split; [exact Hr'|]. split; [by etrans|].
  intros i p e Hi He. rewrite list_lookup_fmap in Hi. destruct (a !! i); cbn in Hi; simplify_eq. set_solver.
Qed.

(** Two results of the same call are equal. *)
Ltac same_result := repeat match goal with H : ?c = _, H' : ?c = _ |- _ => rewrite H in H'; progress simplify_eq end.

Lemma key_step_inv root st self ev st1 self1 :
  root_ok root → key_inv root self → key_step root (self, st) ev (self1, st1) → key_inv root self1 ∧ match ev with EvReturned id key => key = subkey_spec root id | _ => True end.
Proof using HP HA.
  intros Hro Hinv Hs. inversion Hs; subst.
  - destruct (lookup_step root self key_id Hinv) as (r & Hl & Hres). same_result. destruct Hres as (self' & Hd & Hinv'). by same_result.
  - done.
  - destruct (derive_key_Ok HP HA root key_id Hro) as [(k & Hd & -> & _)|(e & Hd & _)]; same_result. destruct (insert_step root self key_id Hinv) as (c1 & ix & c2 & Hi & Hd2 & _ & Hinv2). by same_result.
  - done.
  - destruct (clear_step root self Hinv) as (c' & Hc & Hinv'). by same_result.
Qed.

Lemma key_steps_inv root evs : ∀ c c', root_ok root → key_inv root c.1 → key_steps root c evs c' → key_inv root c'.1 ∧ ∀ id key, EvReturned id key ∈ evs → key = subkey_spec root id.
Proof using HP HA.
  intros c c' Hro Hinv Hs. induction Hs as [c|self ts i st self1 st1 ev evs c Hi Hst Hs IH]; [split; [done|]; set_solver|].
  destruct (key_step_inv _ _ _ _ _ _ Hro Hinv Hst) as [Hinv1 Hev]. destruct (IH Hinv1) as [Hinv' Hevs]. split; [done|]. intros id key [<-|Hin]%elem_of_cons; [done|by apply Hevs].
Qed.

Lemma key_step_progress root self st (key_id : KeyId) :
  root_ok root → key_inv root self → ∃ ev self1 st1, key_step root (self, st) ev (self1, st1) ∧ ev ≠ EvCleared ∧
    match st with Deriving id => st1 = Idle ∧ ((∃ key, ev = EvReturned id key) ∨ ∃ e, ev = EvFailed id (from_crypto e) ∧ backend_fails e) | Idle => st1 = Deriving key_id ∨ ∃ key, ev = EvReturned key_id key end.
Proof using HP HA.
  intros Hro Hinv. destruct st as [|id].
  - destruct (lookup_step root self key_id Hinv) as (r & Hl & Hres). destruct r as [index|]; [|by do 3 eexists; split; [eapply StepMiss; exact Hl|]; eauto].
    destruct Hres as (self' & Hd & _). do 3 eexists. split; [eapply StepHit; done|]. eauto.
  - destruct (derive_key_Ok HP HA root id Hro) as [(k & Hd & -> & _)|(e & Hd & He)].
    + destruct (insert_step root self id Hinv) as (c1 & ix & c2 & Hi & Hd2 & _). do 3 eexists. split; [eapply StepInsert; done|]. eauto.
    + do 3 eexists. split; [by eapply StepFail|]. eauto 10.
Qed.
End CacheCorrect.


(** Two threads that ask for the same key at the same time, and one that finds it. *)
Section Example_.
#[local] Existing Instance debug_build.
#[local] Instance example_platform : Platform := 64.
#[local] Instance always : Allocator := λ _ _, true.
#[local] Existing Instance example_crypto.
#[local] Existing Instance example_crypto_laws.
#[local] Instance little : Endian := false.

Definition example_cipher : TpmInterface.SymBlockCipherAlg := TpmInterface.CipherAes TpmInterface.Aes128.
Definition example_id : KeyId := key_id_new 5 0 Encryption.
Definition example_root : RootKey := Eval vm_compute in
  match root_key_new [1; 2; 3] [4; 5] TpmInterface.Sha256 TpmInterface.Sha256 TpmInterface.Sha1 TpmInterface.Sha256 TpmInterface.Sha256 example_cipher with
  | Ok r => r | _ => mk_root_key [] TpmInterface.Sha1 0 0 0 0 end.
Definition example_key : list Z := Eval vm_compute in match derive_key example_root example_id with Ok k => k | _ => [] end.
Definition run_insert (c : KeyCache) : KeyCache :=
  match get_key_insert c example_id example_key with
  | Ok (c, ix) => match entry_deref c ix with Ok (c, _) => c | _ => c end
  | _ => c
  end.
Definition example_c0 : KeyCache := Eval vm_compute in match key_cache_new with Ok c => c | _ => mk_key_cache {| SetAssocCache.sets := []; SetAssocCache.map_key_to_set := mk_key_map 0 |} end.
Definition example_c1 : KeyCache := Eval vm_compute in run_insert example_c0.
Definition example_c2 : KeyCache := Eval vm_compute in run_insert example_c1.
Definition example_evs : list key_event := [EvMissed; EvMissed; EvReturned example_id example_key; EvReturned example_id example_key; EvMissed].

Lemma example_insert c c' : (let! '(c1, ix) := get_key_insert c example_id example_key in entry_deref c1 ix) = Ok (c', example_key) →
  key_step example_root (c, Deriving example_id) (EvReturned example_id example_key) (c', Idle).
Proof. intros [[c1 ix] [Hi Hd]]%obind_Ok_inv. eapply StepInsert; [vm_compute; reflexivity|exact Hi|exact Hd]. Qed.

End Example_.

End Keys.
